(* ===== verification/_CoqProject ===== *)
-Q . S2P
Prelude.v
Extract.v
HandleMgr.v
LpmTrie.v
ByteContainer.v
Data.v
Fields.v
Headers.v
Phv.v
PhvFactory.v
PhvLike.v
Packets.v
PacketsSpec.v
MatchKeyTypes.v
LookupStructures.v
TernaryCache.v
EntryList.v
TernaryMap.v
MatchKey.v
KeyMatch.v
TableKeys.v
Counters.v
MatchUnit.v
MatchUnitSpec.v
MatchUnitRun.v
Expressions.v
ExprTrees.v
ExprEval.v
ErrorCodes.v
Parser.v
ParserRun.v
ParseDeparse.v
ParserExamples.v
ValueSets.v
LinkTable.v
LinkHeaders.v
ParserOrder.v
LinkParsers.v
LinkStates.v
LinkCases.v
Linker.v
Crc.v
Cksum.v
Calculations.v
CrcMap.v
CrcStrings.v
Checksums.v
Actions.v
ActionsRun.v
Ras.v
ActionProfile.v
ActionProfileSpec.v
Meters.v
MeterBounds.v
MatchTables.v
MatchTablesSpec.v
TablesProfile.v
TablesExamples.v
ControlFlow.v
SimplePre.v
SimplePreSpec.v
Queue.v
Queueing.v
QueueingSpec.v
QueueingRates.v
QueueingPriority.v
Learning.v
LearningSpec.v
Ageing.v
FieldLists.v
Primitives.v
SimpleSwitch.v
SwitchSpec.v
PrimitivesSpec.v
SwitchExamples.v
Configs.v
ConfigsRuns.v
Runtime.v
