(* ===== verification/Prelude.v ===== *)
(** * A verification library for the P4Bricks behavioral model (bmv2)

    P4Bricks is a fork of the behavioral model of P4: a library, under
    src/bm_sim/ with its headers under include/bm/, that runs the packet
    processing that a compiled P4 program describes, and programs ("targets")
    built on it, of which simple_switch is the main one. The fork adds a linker,
    src/bm_sim/linker/, which merges several P4 programs into the one that runs.

    ** How the program works

    A target receives a packet, whose bytes are in a [PacketBuffer] and whose
    parsed headers come from a pool of its context. A parser extracts headers
    from the bytes. Pipelines of match tables, conditionals and actions change
    them: a table makes a key of some fields and asks its match unit for the
    entry to use; the entry names an action, or a member or group of an action
    profile; the action calls primitives, which change headers, registers,
    counters and meters. The target then queues, replicates, clones, resubmits
    or drops the packet, and a deparser writes the headers back in front of the
    payload. Meanwhile a controller asks for changes to tables, profiles and
    arrays, is sent what was learnt and which entries aged, and may have a new
    configuration loaded and swapped in.

    Objects that share state by pointers in C++ refer to each other by ids or
    indices here. Code that fails an assertion, throws, or has undefined
    behaviour is [None], unless a type says more exactly what happened:
    [Parser.Ran], [Actions.Ran], [ControlFlow.Applied] and [LinkParsers.Run]
    keep running out of fuel apart from failing. Unsigned integers wrap around
    where the code's do ([wrap]); bytes are the 8-bit patterns from 0 to 255.

    ** The files, and the code that they model

    - Prelude: machine integers, vectors with bounds, loops, lemmas on them.
    - Extract: src/bm_sim/extract.h.
    - HandleMgr, Ras: include/bm/bm_sim/handle_mgr.h and ras.h, over the Judy
      arrays of a third party (classes [Judy1], [Judy1Count]).
    - LpmTrie: src/bf_lpm_trie/bf_lpm_trie.c and lpm_trie.h, with its nodes in a
      store of addresses, over JudyL arrays (class [JudyL]).
    - ByteContainer, Data, Fields, Headers, Phv: bytecontainer, data and bignum,
      fields, headers, then header_unions, stacks and phv, which are in one
      record [Phv.PHV]. GMP is a parameter (classes [Gmp], ...).
    - PhvFactory: [PHVFactory] of phv.cpp. PhvLike: the shape that the parsed
      headers of a factory keep.
    - Packets: packet_buffer.h ([PacketBuffer]), packet.cpp ([CopyIds],
      [Packets]) and phv_source.cpp ([PhvSource]). PacketsSpec: runs of them.
    - MatchKeyTypes, LookupStructures, TernaryCache, EntryList, TernaryMap:
      match_key_types.h and lookup_structures.cpp. The interface between match
      units and structures is the class [LookupStructure]; [LookupContract] and
      [LookupStructureLaws] are its contract, which the four structures fulfil.
    - MatchKey, KeyMatch, TableKeys: [MatchKeyBuilder] of match_units.cpp, and
      what a match unit uses of the type of its keys (class [TableKey]).
    - MatchUnit, MatchUnitSpec, MatchUnitRun: match_units.cpp against tables as
      finite maps, for any key and structure that keep their contracts.
    - Counters: counters.cpp and stateful.cpp (Module [Registers]).
    - Expressions, ExprTrees, ExprEval: expressions.cpp against trees.
    - ErrorCodes, Parser, ParserRun, ParseDeparse, ParserExamples, ValueSets:
      parser_error.cpp, parser.cpp with its value sets, deparser.cpp.
    - LinkTable, LinkHeaders, ParserOrder, LinkParsers, LinkStates, LinkCases,
      Linker: include/bm/bm_linker/ and src/bm_sim/linker/. The hash maps of the
      linker are iterated over in an order that is an argument.
    - Crc, Cksum, Calculations, CrcMap, CrcStrings, Checksums: calculations.cpp,
      crc_map.cpp, checksums.cpp. XXH64 is a parameter.
    - Actions, ActionsRun: actions.cpp and core/primitives.cpp.
    - ActionProfile, ActionProfileSpec: action_profile.cpp.
    - Meters, MeterBounds: meters.cpp, with doubles as numbers of 53 bits.
    - MatchTables, MatchTablesSpec, TablesProfile, TablesExamples:
      match_tables.cpp; tables that share a profile.
    - ControlFlow: pipeline.cpp, conditionals.cpp, control_action.cpp, tables.cpp.
    - SimplePre, SimplePreSpec: simple_pre.cpp and simple_pre_lag.cpp.
    - Queue: queue.h as a monitor of threads, and the input buffer of the switch
      (Module [InputBuffer]).
    - Queueing, QueueingSpec, QueueingRates, QueueingPriority: queueing.h.
    - Learning, LearningSpec, Ageing: learning.cpp, ageing.cpp.
    - FieldLists, Primitives, SimpleSwitch, SwitchSpec, PrimitivesSpec,
      SwitchExamples: field_lists.h and targets/simple_switch/. In Module
      [SwitchStages] the stages of the switch are the parser, the control flow
      and the deparser of the files above; [SwitchFrame] shows that they are the
      stages that the theorems on the switch ask for.
    - Configs, ConfigsRuns: how switch.cpp and context.cpp load and swap
      configurations.
    - Runtime: the requests of a controller in context.cpp, and the reset of all
      objects in P4Objects.cpp; Module [RuntimeSpec] says what each request does.

    ** What the theorems show

    - Data and layout: extraction and deparsing are exact on the bits of a
      field, for every alignment (extraction is so on its padding too, except
      for fields below a byte that straddle two); the key of a packet matches
      the key of an entry iff its fields match the parameters, prefixes being of
      fields of whole bytes; parsing and deparsing, clone specifications and the
      descriptions of CRCs round trip; checksums verify after an update exactly
      when the value fits the field.
    - Refinement: the lookup structures are maps that return the best match; a
      match unit is a finite map with handles and never fails in any admissible
      run; an action profile is its members, groups and use counts; the
      replication engine is its groups of nodes, as long as only empty groups
      are destroyed; the machine for expressions
      evaluates trees. Each is a simulation, one step at a time.
    - Invariants of runs: packets and the pools of their headers, in the library
      and in the switch; use counts of profiles shared by tables; typed entries.
    - Order and time: what messages of learning contain and when entries age; in
      which order, when and by what priority queued elements leave; that rates
      and meters bound what passes; that a request of the runtime does its work
      on the objects that it names and on nothing else.
    - Threads: no wakeup of the queue is lost, except where a thread reads the
      queue that it fills; no packet spans a swap of configurations.
    - The linker: identities of headers and types, the order of states, the
      matching of states and the union of their cases, and where this recurses
      for ever.
    - Termination: parsing, the control flow, actions, the order of states and
      the union of cases end under conditions that their theorems state.
    - Examples that end in "undefined", "lost", "asserted" and the like run the
      code on inputs that it does not handle; the theorems exclude these, and
      say so.

    ** Bounds and fuel

    Loops that walk a finite structure take its size as fuel and are shown never
    to run out: the trie's height, the list of entries, the number of handles
    (one step more than there are, to see the end), and in [order_loop] the
    number of states, each ordered once. Where a body can run for ever the fuel
    is an argument and the termination theorem says how much is enough:
    [(length + 1) * (R + 1)] states for a parser whose states of rank up to [R]
    parse something or lead to lower ranks; more than the number of primitives
    for an action that only jumps forward; more than the rank of the first node
    for a pipeline without cycles; more than the rank of a merged state for the union of cases.
    Bounds on integers ([2 ^ 32] cases, [2 ^ 31] uses of an index, [2 ^ 63]
    tokens, a counter of copies below [2 ^ 16 - 1]) are those at which the types
    of the code wrap around; they are hypotheses where they matter.

    Locks make an operation one step. What is done between taking and releasing
    a mutex, or until a wait, is a step of the queue, learning, the switch and
    the configurations; the two atomics of a counter are one step; so is an
    operation on the numbers of copies, with the values that it read when an
    exchange failed as an argument.

    ** What is not modelled

    Building the objects from JSON, externs and enums (P4Objects.cpp,
    extern.cpp, enums.cpp): they stand on a JSON library and a registry of
    factories. Logging, which only writes, and the debugger, which is a state
    machine of its own that no part of the model depends on. Devices, transport,
    pcap files, port monitor and option parsing: input and output over libraries
    and the operating system. The Thrift servers, PI, pdfixed and the client
    applications: they convert arguments and forward them. xxhash.c and md5.c:
    third party code, the first a parameter. Other targets, tools and tests. *)

From stdpp Require Export base numbers list gmap strings sorting.
From Stdlib Require Export ZArith Lia Sorted.

#[export] Set Default Goal Selector "!".

Open Scope Z_scope.

(** ** Machine integers *)

(** Wrap-around of the unsigned types of width [w]. *)
Definition wrap (w z : Z) : Z := z mod 2 ^ w.

Abbreviation u8 := (wrap 8).
Abbreviation u32 := (wrap 32).
Abbreviation u64 := (wrap 64).

(** An 8-bit pattern, the contents of a [char] or an [unsigned char]. *)
Definition byte_ok (b : Z) : Prop := 0 ≤ b < 256.

#[export] Instance byte_ok_dec b : Decision (byte_ok b).
Proof. unfold byte_ok. apply _. Defined.

(** The value a signed [char] with the 8-bit pattern [b] has. *)
Definition schar (b : Z) : Z := if b <? 128 then b else b - 256.

(** A machine word ([Word_t], [uintptr_t], [size_t]). *)
Definition word_ok (i : Z) : Prop := 0 ≤ i < 2 ^ 64.

Definition word_max : Z := 2 ^ 64 - 1.

(** ** Vectors indexed by machine integers

    [std::vector::operator[]] and [at] out of range are undefined behaviour or
    an exception: both are [None] here. *)
Definition vget {A} (l : list A) (i : Z) : option A :=
  if decide (0 ≤ i) then l !! Z.to_nat i else None.

Definition vset {A} (l : list A) (i : Z) (x : A) : option (list A) :=
  if decide (0 ≤ i < Z.of_nat (length l)) then Some (<[Z.to_nat i := x]> l) else None.

(** [memcpy(dst, src, n)]; [None] when either range is out of bounds. *)
Definition memcpy (dst src : list Z) (n : Z) : option (list Z) :=
  if decide (0 ≤ n ∧ n ≤ Z.of_nat (length src) ∧ n ≤ Z.of_nat (length dst))
  then Some (take (Z.to_nat n) src ++ drop (Z.to_nat n) dst) else None.

(** [for (i = from; i < upto; i++) body], over a state that [body] transforms. *)
Fixpoint for_loop {S} (n : nat) (i : Z) (body : Z → S → option S) (s : S) : option S :=
  match n with
  | O => Some s
  | Datatypes.S n' => s' ← body i s; for_loop n' (i + 1) body s'
  end.

Definition for_range {S} (from upto : Z) (body : Z → S → option S) (s : S) : option S :=
  for_loop (Z.to_nat (upto - from)) from body s.

(** [l[i] = f (l[i])] *)
Definition vupd {A} (l : list A) (i : Z) (f : A → A) : option (list A) :=
  x ← vget l i; vset l i (f x).

(** [memcmp(a, b, n)], on unsigned bytes; [None] reads past the end of a buffer. *)
Fixpoint bytes_compare (a b : list Z) : comparison :=
  match a, b with
  | x :: a', y :: b' => match x ?= y with Eq => bytes_compare a' b' | c => c end
  | _, _ => Eq
  end.

Definition memcmp (a b : list Z) (n : Z) : option comparison :=
  if decide (0 ≤ n ∧ n ≤ Z.of_nat (length a) ∧ n ≤ Z.of_nat (length b))
  then Some (bytes_compare (take (Z.to_nat n) a) (take (Z.to_nat n) b)) else None.

(** The number a byte string stands for, most significant byte first. *)
Definition be_value (l : list Z) : Z := foldl (λ acc b, 256 * acc + b) 0 l.
Arguments be_value : simpl never.

(** An identity that none of [l] has (the address of a new list node). *)
Definition fresh_id (l : list Z) : Z := foldr Z.max 0 l + 1.

(** ** The bits of a byte string, most significant bit first *)
Definition bit_at (l : list Z) (k : Z) : bool :=
  match vget l (k / 8) with
  | Some b => Z.testbit b (7 - k mod 8)
  | None => false
  end.

Create HintDb bm.
Create Rewrite HintDb bmv.

(** ** Tactics *)

(** Splits the monadic binds and boolean tests of a hypothesis about a result. *)
Ltac mbind_inv H :=
  repeat first
    [ progress simplify_eq/=
    | match type of H with
      | mbind _ ?m = Some _ =>
          let x := fresh "x" in let E := fresh "E" in
          destruct m as [x|] eqn:E; simpl in H; [|discriminate H]
      | (if ?c then _ else _) = _ => let E := fresh "E" in destruct c eqn:E; try discriminate H
      end ].

(** Reduces the binds of a computation, and nothing else. *)
Ltac msimpl := cbn [mbind option_bind fmap option_fmap option_map].

(** ** Lemmas on integers *)

Lemma wrap_range w z : 0 ≤ w → 0 ≤ wrap w z < 2 ^ w.
Proof. intros. unfold wrap. apply Z.mod_pos_bound. apply Z.pow_pos_nonneg; lia. Qed.

Lemma wrap_small w z : 0 ≤ z < 2 ^ w → wrap w z = z.
Proof. apply Z.mod_small. Qed.

Lemma wrap_spec w z i : 0 ≤ w → 0 ≤ i → Z.testbit (wrap w z) i = bool_decide (i < w) && Z.testbit z i.
Proof.
  intros. unfold wrap. case_bool_decide.
  - by rewrite Z.mod_pow2_bits_low.
  - by rewrite Z.mod_pow2_bits_high by lia.
Qed.

Lemma byte_ok_u8 z : byte_ok (u8 z).
Proof. unfold byte_ok. pose proof (wrap_range 8 z). lia. Qed.

#[export] Hint Resolve byte_ok_u8 : bm.

Lemma testbit_high z w i : 0 ≤ z < 2 ^ w → w ≤ i → Z.testbit z i = false.
Proof.
  intros [Hz Hw] Hi. destruct (decide (z = 0)) as [->|]; [apply Z.bits_0|].
  apply Z.bits_above_log2; [lia|].
  apply Z.log2_lt_pow2; [lia|]. eapply Z.lt_le_trans; [done|].
  apply Z.pow_le_mono_r; lia.
Qed.

Lemma byte_ok_land x m : byte_ok x → byte_ok (Z.land x m).
Proof.
  unfold byte_ok. intros Hx. split; [apply Z.land_nonneg; lia|].
  destruct (decide (Z.land x m = 0)) as [->|Hne]; [lia|].
  assert (0 ≤ Z.land x m) by (apply Z.land_nonneg; lia).
  apply (Z.log2_lt_pow2 _ 8); [lia|]. destruct (Z_lt_le_dec (Z.log2 (Z.land x m)) 8) as [|Hle]; [done|].
  pose proof (Z.bit_log2 (Z.land x m) ltac:(lia)) as Hb. rewrite Z.land_spec in Hb.
  rewrite (testbit_high x 8) in Hb; [done|lia|lia].
Qed.

(** Two numbers of [w] bits are equal when their bits are. *)
Lemma bits_inj_w w x y :
  0 ≤ x < 2 ^ w → 0 ≤ y < 2 ^ w →
  (∀ i, 0 ≤ i < w → Z.testbit x i = Z.testbit y i) → x = y.
Proof.
  intros Hx Hy H. apply Z.bits_inj'. intros i Hi.
  destruct (decide (i < w)); [apply H; lia|].
  by rewrite !(testbit_high _ w) by lia.
Qed.

(** ** Lemmas on vectors *)

Section vectors.
Context {A : Type}.
Implicit Types (l : list A) (x y : A) (i j : Z).

Lemma vget_nat l i : 0 ≤ i → vget l i = l !! Z.to_nat i.
Proof. intros. unfold vget. by rewrite decide_True. Qed.

Lemma vget_Some_range l i x : vget l i = Some x → 0 ≤ i < Z.of_nat (length l).
Proof.
  unfold vget. case_decide; [|done]. intros ?%lookup_lt_Some. lia.
Qed.

Lemma vget_is_Some l i : is_Some (vget l i) ↔ 0 ≤ i < Z.of_nat (length l).
Proof.
  split.
  - intros [x ?]. by eapply vget_Some_range.
  - intros. rewrite vget_nat by lia. apply lookup_lt_is_Some. lia.
Qed.

Lemma vset_Some l i x : 0 ≤ i < Z.of_nat (length l) → vset l i x = Some (<[Z.to_nat i := x]> l).
Proof. intros. unfold vset. by rewrite decide_True. Qed.

Lemma vset_inv l i x l' :
  vset l i x = Some l' → 0 ≤ i < Z.of_nat (length l) ∧ l' = <[Z.to_nat i := x]> l.
Proof. unfold vset. case_decide; [|done]. intros [= <-]. done. Qed.

Lemma vset_length l i x l' : vset l i x = Some l' → length l' = length l.
Proof. intros [? ->]%vset_inv. apply length_insert. Qed.

Lemma vget_vset l i x l' j :
  vset l i x = Some l' → vget l' j = if decide (j = i) then Some x else vget l j.
Proof.
  intros [Hi ->]%vset_inv. unfold vget. case_decide; case_decide; simplify_eq; try done; try lia.
  - rewrite list_lookup_insert_eq; [done|lia].
  - rewrite list_lookup_insert_ne; [done|lia].
Qed.
End vectors.

(** ** Loops that update a vector in place *)

Section fill.
Context {A : Type}.
Implicit Types (l : list A).

(** A loop whose step [i] only replaces cell [i] by [g i] of its contents. *)
Lemma for_loop_fill (g : Z → A → A) (body : Z → list A → option (list A)) n : ∀ i l,
  0 ≤ i → i + Z.of_nat n ≤ Z.of_nat (length l) →
  (∀ j l', i ≤ j < i + Z.of_nat n → length l' = length l → body j l' = vupd l' j (g j)) →
  ∃ l', for_loop n i body l = Some l' ∧ length l' = length l ∧
    ∀ j, vget l' j = if decide (i ≤ j < i + Z.of_nat n) then g j <$> vget l j else vget l j.
Proof.
  induction n as [|n IH]; intros i l Hi Hn Hbody; simpl.
  { exists l. split_and!; [done..|]. intros j. rewrite decide_False; [done|lia]. }
  rewrite Hbody by (done || lia). unfold vupd.
  destruct (proj2 (vget_is_Some l i)) as [x Hx]; [lia|]. rewrite Hx; simpl.
  destruct (vset l i (g i x)) as [l1|] eqn:E1; [|unfold vset in E1; case_decide; [done|lia]].
  simpl. pose proof (vset_length _ _ _ _ E1) as Hlen.
  destruct (IH (i + 1) l1) as (l2 & -> & Hlen2 & Hget); [lia|lia| |].
  { intros j l' Hj Hl'. apply Hbody; [lia|congruence]. }
  exists l2. split_and!; [done|congruence|]. intros j. rewrite Hget, (vget_vset _ _ _ _ _ E1).
  repeat case_decide; subst; try lia; rewrite ?Hx; done.
Qed.

Lemma for_range_fill (g : Z → A → A) (body : Z → list A → option (list A)) i u l :
  0 ≤ i → u ≤ Z.of_nat (length l) →
  (∀ j l', i ≤ j < u → length l' = length l → body j l' = vupd l' j (g j)) →
  ∃ l', for_range i u body l = Some l' ∧ length l' = length l ∧
    ∀ j, vget l' j = if decide (i ≤ j < u) then g j <$> vget l j else vget l j.
Proof.
  intros Hi Hu Hbody. unfold for_range. destruct (decide (i ≤ u)).
  - destruct (for_loop_fill g body (Z.to_nat (u - i)) i l) as (l' & ? & ? & Hget);
      [lia|lia|intros; apply Hbody; [lia|done]|].
    exists l'. split_and!; [done..|]. intros j. rewrite Hget.
    repeat case_decide; try lia; done.
  - replace (Z.to_nat (u - i)) with 0%nat by lia. simpl. exists l. split_and!; [done..|].
    intros j. rewrite decide_False; [done|lia].
Qed.

Lemma vget_ext l1 l2 : length l1 = length l2 → (∀ j, vget l1 j = vget l2 j) → l1 = l2.
Proof.
  intros Hlen Hget. apply list_eq. intros i. specialize (Hget (Z.of_nat i)).
  rewrite !vget_nat in Hget by lia. by rewrite Nat2Z.id in Hget.
Qed.

Lemma vupd_Some l i f x : vget l i = Some x → ∃ l', vupd l i f = Some l' ∧ vset l i (f x) = Some l'.
Proof.
  intros Hx. unfold vupd. rewrite Hx. simpl. apply vget_Some_range in Hx.
  rewrite vset_Some by done. eauto.
Qed.
End fill.

Lemma vget_fmap {A B} (g : A → B) (l : list A) i : vget (g <$> l) i = g <$> vget l i.
Proof. unfold vget. case_decide; [|done]. apply list_lookup_fmap. Qed.

Lemma vset_fmap {A B} (g : A → B) l i x y l' : vset l i x = Some l' → vget l i = Some y → g x = g y → g <$> l' = g <$> l.
Proof.
  intros [Hr ->]%vset_inv Hy Hg. rewrite list_fmap_insert, Hg. apply list_insert_id.
  rewrite list_lookup_fmap. rewrite vget_nat in Hy by lia. by rewrite Hy.
Qed.


(** ** Loops by their invariant *)
Lemma for_range_inv {S} (P : Z → S → Prop) (body : Z → S → option S) i u s :
  i ≤ u → P i s →
  (∀ j s, i ≤ j < u → P j s → ∃ s', body j s = Some s' ∧ P (j + 1) s') →
  ∃ s', for_range i u body s = Some s' ∧ P u s'.
Proof.
  intros Hle HP Hstep. unfold for_range. remember (Z.to_nat (u - i)) as n eqn:En.
  revert i s Hle HP Hstep En. induction n as [|n IH]; intros i s Hle HP Hstep En; cbn [for_loop].
  - assert (i = u) as -> by lia. by exists s.
  - destruct (Hstep i s) as (s1 & -> & HP1); [lia|done|]. msimpl.
    apply IH; [lia|done| |lia]. intros. apply Hstep; [lia|done].
Qed.

Lemma vget_length {A} (l1 l2 : list A) :
  (∀ k, is_Some (vget l1 k) ↔ is_Some (vget l2 k)) → length l1 = length l2.
Proof.
  setoid_rewrite vget_is_Some. intros Hiff. pose proof (Hiff (Z.of_nat (length l1))).
  pose proof (Hiff (Z.of_nat (length l2))). lia.
Qed.

(** [vupd] by its effect on every index. *)
Lemma vupd_spec {A} (l : list A) i f :
  is_Some (vget l i) → ∃ l', vupd l i f = Some l' ∧ length l' = length l ∧
    ∀ j, vget l' j = (if decide (j = i) then f else id) <$> vget l j.
Proof.
  intros [x Hx]. destruct (vupd_Some l i f x Hx) as (l' & E & Hset). exists l'.
  split_and!; [done|by eapply vset_length|]. intros j. rewrite (vget_vset _ _ _ _ _ Hset).
  case_decide; [by subst; rewrite Hx|by destruct (vget l j)].
Qed.

Lemma memcpy_spec dst src n :
  0 ≤ n → n ≤ Z.of_nat (length src) → n ≤ Z.of_nat (length dst) →
  ∃ d, memcpy dst src n = Some d ∧ length d = length dst ∧
    ∀ j, vget d j = if decide (0 ≤ j < n) then vget src j else vget dst j.
Proof.
  intros. unfold memcpy. rewrite decide_True by done. eexists. split; [done|].
  rewrite length_app, length_take, length_drop. split; [lia|]. intros j. unfold vget.
  repeat case_decide; try done; try lia.
  - rewrite lookup_app_l by (rewrite length_take; lia). apply lookup_take_lt. lia.
  - rewrite lookup_app_r by (rewrite length_take; lia). rewrite lookup_drop.
    f_equal. rewrite length_take. lia.
Qed.

(** ** Bits of byte strings *)

Definition bytes_ok (l : list Z) : Prop := Forall byte_ok l.

#[export] Instance bytes_ok_dec l : Decision (bytes_ok l).
Proof. unfold bytes_ok. apply _. Defined.

Lemma bytes_ok_vget l i b : bytes_ok l → vget l i = Some b → byte_ok b.
Proof.
  unfold vget. intros Hl. case_decide; [|done]. intros ?.
  by eapply Forall_lookup_1.
Qed.

Lemma bytes_ok_intro l : (∀ i b, vget l i = Some b → byte_ok b) → bytes_ok l.
Proof.
  intros H. apply Forall_lookup. intros i b Hb. apply (H (Z.of_nat i)).
  rewrite vget_nat by lia. by rewrite Nat2Z.id.
Qed.

(** The two coordinates of a bit. *)
Lemma bit_at_split l i r b :
  0 ≤ r < 8 → vget l i = Some b → bit_at l (8 * i + r) = Z.testbit b (7 - r).
Proof.
  intros Hr Hb. unfold bit_at.
  replace ((8 * i + r) / 8) with i by (apply Z.div_unique with r; lia).
  replace ((8 * i + r) mod 8) with r by (apply Z.mod_unique with i; lia).
  by rewrite Hb.
Qed.

Lemma bit_coords k : 0 ≤ k → k = 8 * (k / 8) + k mod 8 ∧ 0 ≤ k / 8 ∧ 0 ≤ k mod 8 < 8.
Proof. intros. pose proof (Z.mod_pos_bound k 8). pose proof (Z.div_mod k 8). split_and!; lia. Qed.

(** Byte strings with the same bits are the same. *)
Lemma bits_ext l1 l2 :
  bytes_ok l1 → bytes_ok l2 → length l1 = length l2 →
  (∀ k, 0 ≤ k < 8 * Z.of_nat (length l1) → bit_at l1 k = bit_at l2 k) → l1 = l2.
Proof.
  intros H1 H2 Hlen Hbits. apply vget_ext; [done|]. intros j.
  destruct (decide (0 ≤ j < Z.of_nat (length l1))) as [Hj|Hj].
  - destruct (proj2 (vget_is_Some l1 j) Hj) as [x Hx].
    destruct (proj2 (vget_is_Some l2 j)) as [y Hy]; [lia|].
    rewrite Hx, Hy. f_equal.
    apply (bits_inj_w 8);
      [by eapply bytes_ok_vget in Hx|by eapply bytes_ok_vget in Hy|].
    intros i Hi. specialize (Hbits (8 * j + (7 - i)) ltac:(lia)).
    rewrite (bit_at_split l1 j _ x), (bit_at_split l2 j _ y) in Hbits by (done || lia).
    by replace (7 - (7 - i)) with i in Hbits by lia.
  - assert (∀ l : list Z, length l = length l1 → vget l j = None) as Hnone.
    { intros l Hl. destruct (vget l j) eqn:E; [|done].
      apply vget_Some_range in E. lia. }
    by rewrite !Hnone.
Qed.

(** ** Byte strings as numbers *)

Lemma foldl_be_value l acc :
  foldl (λ acc b, 256 * acc + b) acc l = acc * 256 ^ Z.of_nat (length l) + be_value l.
Proof.
  unfold be_value. revert acc. induction l as [|b l IH]; intros acc; [simpl; lia|].
  cbn [foldl length]. rewrite IH, (IH (256 * 0 + b)).
  rewrite Nat2Z.inj_succ, Z.pow_succ_r by lia. ring.
Qed.

Lemma be_value_cons b l : be_value (b :: l) = b * 256 ^ Z.of_nat (length l) + be_value l.
Proof. unfold be_value at 1. cbn [foldl]. rewrite foldl_be_value. ring. Qed.

Lemma be_value_range l : bytes_ok l → 0 ≤ be_value l < 256 ^ Z.of_nat (length l).
Proof.
  induction 1 as [|b l Hb Hl IH]; [done|].
  rewrite be_value_cons. cbn [length]. rewrite Nat2Z.inj_succ, Z.pow_succ_r by lia.
  unfold byte_ok in Hb. nia.
Qed.

(** Comparing bytes is comparing numbers. *)
Lemma bytes_compare_be a b :
  bytes_ok a → bytes_ok b → length a = length b → bytes_compare a b = (be_value a ?= be_value b).
Proof.
  intros Ha. revert b. induction Ha as [|x a Hx Ha IH]; intros [|y b] Hb Hlen; try done.
  apply Forall_cons in Hb as [Hy Hb]. injection Hlen as Hlen. cbn [bytes_compare].
  rewrite !be_value_cons, <- Hlen. pose proof (be_value_range a Ha) as Ra.
  pose proof (be_value_range b Hb) as Rb. rewrite <- Hlen in Rb. symmetry.
  destruct (Z.compare_spec x y) as [->|Hlt|Hlt].
  - rewrite (IH b) by done. apply eq_sym. destruct (Z.compare_spec (be_value a) (be_value b));
      symmetry; [apply Z.compare_eq_iff|apply Z.compare_lt_iff|apply Z.compare_gt_iff]; lia.
  - apply Z.compare_lt_iff. nia.
  - apply Z.compare_gt_iff. nia.
Qed.

Lemma memcmp_be a b n :
  bytes_ok a → bytes_ok b → 0 ≤ n → n ≤ Z.of_nat (length a) → n ≤ Z.of_nat (length b) →
  memcmp a b n = Some (be_value (take (Z.to_nat n) a) ?= be_value (take (Z.to_nat n) b)).
Proof.
  intros. unfold memcmp. rewrite decide_True by done. f_equal. apply bytes_compare_be.
  - by apply Forall_take.
  - by apply Forall_take.
  - rewrite !length_take. lia.
Qed.

(** ** Fresh identities *)

Lemma fresh_id_ge l : 0 ≤ foldr Z.max 0 l ∧ ∀ x, x ∈ l → x ≤ foldr Z.max 0 l.
Proof.
  induction l as [|y l [IH1 IH2]]; simpl; [split; [lia|by intros ? ?%not_elem_of_nil]|].
  split; [lia|]. intros x [->|Hx%IH2]%elem_of_cons; lia.
Qed.

Lemma fresh_id_spec l : fresh_id l ∉ l ∧ fresh_id l ≠ 0.
Proof.
  unfold fresh_id. destruct (fresh_id_ge l) as [H0 Hle]. split; [|lia].
  intros Hin%Hle. lia.
Qed.

(** ** Lemmas on finite maps *)

(** How many values of a map have a property. *)

Section count.
Context {A : Type} (Q : A → Prop) `{∀ x, Decision (Q x)}.
Implicit Types (M : gmap Z A) (g : Z) (x y : A).

Definition count_of M : Z := Z.of_nat (size (filter (λ kv : Z * A, Q kv.2) M)).

Lemma count_insert M g x : M !! g = None → count_of (<[g := x]> M) = count_of M + (if decide (Q x) then 1 else 0).
Proof.
  intros Hg. unfold count_of. rewrite map_filter_insert. cbn. destruct (decide (Q x)).
  - rewrite map_size_insert_None; [lia|]. by apply map_lookup_filter_None_2; left.
  - rewrite delete_id by done. lia.
Qed.

Lemma count_delete M g x : M !! g = Some x → count_of M = count_of (delete g M) + (if decide (Q x) then 1 else 0).
Proof. intros Hg. rewrite <-(insert_delete_id M g x Hg) at 1. apply count_insert. apply lookup_delete_eq. Qed.

Lemma count_update M g x y :
  M !! g = Some x → count_of (<[g := y]> M) = count_of M - (if decide (Q x) then 1 else 0) + (if decide (Q y) then 1 else 0).
Proof. intros Hg. rewrite <-insert_delete_eq, count_insert by apply lookup_delete_eq. rewrite (count_delete M g x Hg). lia. Qed.

Lemma count_none M : (∀ g x, M !! g = Some x → ¬ Q x) → count_of M = 0.
Proof.
  intros Hall. unfold count_of. replace (filter _ M) with (∅ : gmap Z A); [done|]. symmetry. apply map_empty. intros g.
  apply map_lookup_filter_None_2. right. cbn. intros x E. by apply (Hall g).
Qed.

Lemma count_pos M g x : M !! g = Some x → Q x → 0 < count_of M.
Proof. intros Hg Hm. rewrite (count_delete M g x Hg), decide_True by done. unfold count_of. lia. Qed.

(** At most one for each handle. *)
Lemma count_bound M : (∀ g, is_Some (M !! g) → 0 ≤ g < 2 ^ 24) → 0 ≤ count_of M ≤ 2 ^ 24.
Proof.
  intros Hr. split; [unfold count_of; lia|]. transitivity (Z.of_nat (size (dom M))).
  - unfold count_of. rewrite size_dom. apply inj_le. rewrite <-!(size_dom (D := gset Z)). apply subseteq_size, dom_filter_subseteq.
  - assert (dom M ⊆ list_to_set (seqZ 0 (2 ^ 24))) as Hsub.
    { intros g Hg%elem_of_dom%Hr. apply elem_of_list_to_set, elem_of_seqZ. lia. }
    apply subseteq_size in Hsub. rewrite size_list_to_set, length_seqZ in Hsub by apply NoDup_seqZ. lia.
Qed.
End count.
