(* ===== verification/Extract.v ===== *)
(** * Bit-level extraction and deparsing (src/bm_sim/extract.h)

    [generic_extract] copies [bitwidth] bits that start [bit_offset] bits into
    a packet to the low bits of a byte array; [generic_deparse] is the
    converse. Both work on [char] arrays: here lists of 8-bit patterns, with
    every read and write bounds-checked ([None] is an access out of bounds). *)

From S2P Require Import Prelude.

Module Extract.

Definition nbytes_of (bitwidth : Z) : Z := (bitwidth + 7) / 8.

Definition generic_extract (data : list Z) (bit_offset bitwidth : Z) (dst : list Z)
    : option (list Z) :=
  let nbytes := nbytes_of bitwidth in
  if (bit_offset =? 0) && (bitwidth mod 8 =? 0) then memcpy dst data nbytes else
  let dst_offset := Z.shiftl nbytes 3 - bitwidth in
  let offset := bit_offset - dst_offset in
  if offset =? 0 then
    dst ← memcpy dst data nbytes;
    vupd dst 0 (λ d, u8 (Z.land d (Z.shiftr 255 dst_offset)))
  else if 0 <? offset then
    (* shift left *)
    dst ← for_range 0 (nbytes - 1) (λ i dst,
      a ← vget data i; b ← vget data (i + 1);
      vset dst i (u8 (Z.lor (Z.shiftl a offset) (Z.shiftr b (8 - offset))))) dst;
    let i := Z.max 0 (nbytes - 1) in
    dst ← vupd dst 0 (λ d, u8 (Z.land d (Z.shiftr 255 dst_offset)));
    a ← vget data i;
    dst ← vset dst i (u8 (Z.shiftl a offset));
    if Z.shiftl nbytes 3 <? bit_offset + bitwidth then
      b ← vget data (i + 1);
      vupd dst i (λ d, u8 (Z.lor d (Z.shiftr b (8 - offset))))
    else Some dst
  else
    (* shift right *)
    let offset := - offset in
    a ← vget data 0;
    dst ← vset dst 0 (u8 (Z.shiftr a offset));
    dst ← vupd dst 0 (λ d, u8 (Z.land d (Z.shiftr 255 dst_offset)));
    for_range 1 nbytes (λ i dst,
      a ← vget data (i - 1); b ← vget data i;
      vset dst i (u8 (Z.lor (Z.shiftl a (8 - offset)) (Z.shiftr b offset)))) dst.

Definition generic_deparse (data : list Z) (bitwidth : Z) (dst : list Z) (hdr_offset : Z)
    : option (list Z) :=
  if bitwidth =? 0 then Some dst else
  let nbytes := nbytes_of bitwidth in
  if (hdr_offset =? 0) && (bitwidth mod 8 =? 0) then memcpy dst data nbytes else
  let field_offset := Z.shiftl nbytes 3 - bitwidth in
  let hdr_bytes := (hdr_offset + bitwidth + 7) / 8 in
  (* zero out the bits that are going to be written in dst[0] *)
  dst ← vupd dst 0 (λ d, u8 (Z.land d (Z.lnot (Z.shiftr 255 hdr_offset))));
  let offset := field_offset - hdr_offset in
  if offset =? 0 then
    dst ← for_range 1 hdr_bytes (λ i dst, a ← vget data i; vset dst i a) dst;
    a ← vget data 0;
    vupd dst 0 (λ d, u8 (Z.lor d a))
  else if 0 <? offset then
    (* shift left *)
    dst ← for_range 1 hdr_bytes (λ i dst, vset dst i 0) dst;
    dst ← for_range 0 (hdr_bytes - 1) (λ i dst,
      a ← vget data i; b ← vget data (i + 1);
      vupd dst i (λ d, u8 (Z.lor d (Z.lor (Z.shiftl a offset) (Z.shiftr b (8 - offset)))))) dst;
    let i := Z.max 0 (hdr_bytes - 1) in
    a ← vget data i;
    vupd dst i (λ d, u8 (Z.lor d (Z.shiftl a offset)))
  else
    (* shift right *)
    let offset := - offset in
    a ← vget data 0;
    dst ← vupd dst 0 (λ d, u8 (Z.lor d (Z.shiftr a offset)));
    if nbytes =? 1 then
      vset dst 1 (u8 (Z.shiftl a (8 - offset)))
    else
      dst ← for_range 1 (hdr_bytes - 1) (λ i dst,
        a ← vget data (i - 1); b ← vget data i;
        vset dst i (u8 (Z.lor (Z.shiftl a (8 - offset)) (Z.shiftr b offset)))) dst;
      let i := Z.max 1 (hdr_bytes - 1) in
      let tail_offset := Z.shiftl hdr_bytes 3 - (hdr_offset + bitwidth) in
      dst ← vupd dst i (λ d, u8 (Z.land d (Z.shiftl 1 tail_offset - 1)));
      a ← vget data (i - 1);
      vupd dst i (λ d, u8 (Z.lor d (Z.shiftl a (8 - offset)))).

Example extract_nibble : generic_extract [0x12; 0x34] 4 4 [0] = Some [2].
Proof. reflexivity. Qed.
Example extract_12 : generic_extract [0x12; 0x34] 4 12 [0; 0] = Some [2; 0x34].
Proof. reflexivity. Qed.
Example extract_13 : generic_extract [0xff; 0xff; 0xff] 6 13 [0; 0] = Some [0x1f; 0xff].
Proof. reflexivity. Qed.
Example extract_cross : generic_extract [0xff; 0xff] 6 4 [0] = Some [0xff].
Proof. reflexivity. Qed.
Example deparse_13 : generic_deparse [0x1f; 0xff] 13 [0xf0; 0; 0] 6 = Some [0xf3; 0xff; 0xe0].
Proof. reflexivity. Qed.

(** ** Bits of shifted and masked bytes *)

Lemma nbytes_of_bounds w : 8 * nbytes_of w - 8 < w ≤ 8 * nbytes_of w.
Proof.
  unfold nbytes_of. pose proof (Z.div_mod (w + 7) 8). pose proof (Z.mod_pos_bound (w + 7) 8). lia.
Qed.

Lemma shiftl3 n : Z.shiftl n 3 = 8 * n.
Proof. rewrite Z.shiftl_mul_pow2 by lia. lia. Qed.

Lemma testbit_255 i : 0 ≤ i → Z.testbit 255 i = bool_decide (i < 8).
Proof.
  intros. change 255 with (Z.ones 8). case_bool_decide.
  - apply Z.ones_spec_low. lia.
  - apply Z.ones_spec_high. lia.
Qed.

Lemma testbit_byte_high b i : byte_ok b → 8 ≤ i → Z.testbit b i = false.
Proof. intros. apply (testbit_high _ 8); [done|lia]. Qed.

(** Eight bits of a byte pair, starting at bit [o]. *)
Lemma window_bit a b o r :
  byte_ok b → 0 < o < 8 → 0 ≤ r < 8 →
  Z.testbit (u8 (Z.lor (Z.shiftl a o) (Z.shiftr b (8 - o)))) (7 - r) =
    if decide (r + o < 8) then Z.testbit a (7 - (r + o)) else Z.testbit b (7 - (r + o - 8)).
Proof.
  intros Hb Ho Hr. rewrite wrap_spec, bool_decide_true by lia.
  rewrite Z.lor_spec, Z.shiftl_spec, Z.shiftr_spec by lia. simpl. case_decide.
  - rewrite (testbit_byte_high b) by (done || lia). rewrite orb_false_r. f_equal. lia.
  - rewrite (Z.testbit_neg_r a) by lia. simpl. f_equal. lia.
Qed.

Lemma mask_low_bit d m r :
  0 ≤ m → 0 ≤ r < 8 →
  Z.testbit (u8 (Z.land d (Z.shiftr 255 m))) (7 - r) = bool_decide (m ≤ r) && Z.testbit d (7 - r).
Proof.
  intros. rewrite wrap_spec, bool_decide_true by lia.
  rewrite Z.land_spec, Z.shiftr_spec, testbit_255 by lia. simpl.
  rewrite andb_comm. f_equal. apply bool_decide_ext. lia.
Qed.

Lemma mask_high_bit d m r :
  0 ≤ m → 0 ≤ r < 8 →
  Z.testbit (u8 (Z.land d (Z.lnot (Z.shiftr 255 m)))) (7 - r) =
    bool_decide (r < m) && Z.testbit d (7 - r).
Proof.
  intros. rewrite wrap_spec, bool_decide_true by lia.
  rewrite Z.land_spec, Z.lnot_spec, Z.shiftr_spec, testbit_255 by lia. simpl.
  rewrite andb_comm. f_equal. rewrite <- bool_decide_not. apply bool_decide_ext. lia.
Qed.

Lemma tail_mask_bit d t r :
  0 ≤ t ≤ 8 → 0 ≤ r < 8 →
  Z.testbit (u8 (Z.land d (Z.shiftl 1 t - 1))) (7 - r) =
    bool_decide (8 - t ≤ r) && Z.testbit d (7 - r).
Proof.
  intros. rewrite wrap_spec, bool_decide_true by lia.
  replace (Z.shiftl 1 t - 1) with (Z.ones t) by (rewrite Z.ones_equiv, Z.shiftl_mul_pow2; lia).
  rewrite Z.land_spec. simpl. rewrite andb_comm. f_equal. case_bool_decide.
  - apply Z.ones_spec_low. lia.
  - apply Z.ones_spec_high. lia.
Qed.

Lemma lor_bit d a r :
  0 ≤ r < 8 →
  Z.testbit (u8 (Z.lor d a)) (7 - r) = Z.testbit d (7 - r) || Z.testbit a (7 - r).
Proof. intros. by rewrite wrap_spec, bool_decide_true, Z.lor_spec by lia. Qed.

Lemma shiftr_bit a o r :
  byte_ok a → 0 ≤ o → 0 ≤ r < 8 →
  Z.testbit (u8 (Z.shiftr a o)) (7 - r) = bool_decide (o ≤ r) && Z.testbit a (7 - (r - o)).
Proof.
  intros Ha Ho Hr. rewrite wrap_spec, bool_decide_true, Z.shiftr_spec by lia. simpl.
  replace (7 - (r - o)) with (7 - r + o) by lia. case_bool_decide; [done|].
  apply testbit_byte_high; [done|lia].
Qed.

Lemma shiftl_bit a o r :
  0 ≤ o → 0 ≤ r < 8 →
  Z.testbit (u8 (Z.shiftl a o)) (7 - r) = bool_decide (r + o < 8) && Z.testbit a (7 - (r + o)).
Proof.
  intros. rewrite wrap_spec, bool_decide_true, Z.shiftl_spec by lia. simpl.
  replace (7 - r - o) with (7 - (r + o)) by lia. case_bool_decide; [done|].
  apply Z.testbit_neg_r. lia.
Qed.

(** The same bits, as bits of the data the bytes come from. *)
Lemma bit_at_window data i a b o r :
  vget data i = Some a → vget data (i + 1) = Some b →
  bytes_ok data → 0 < o < 8 → 0 ≤ r < 8 →
  Z.testbit (u8 (Z.lor (Z.shiftl a o) (Z.shiftr b (8 - o)))) (7 - r) = bit_at data (8 * i + r + o).
Proof.
  intros Ha Hb Hok Ho Hr. pose proof (bytes_ok_vget _ _ _ Hok Hb).
  rewrite window_bit by done. case_decide.
  - replace (8 * i + r + o) with (8 * i + (r + o)) by lia.
    by rewrite (bit_at_split _ _ _ a) by (done || lia).
  - replace (8 * i + r + o) with (8 * (i + 1) + (r + o - 8)) by lia.
    by rewrite (bit_at_split _ _ _ b) by (done || lia).
Qed.

(** ** Eight-bit windows of the data *)

Section window.
Variable data : list Z.
Hypothesis Hdata : bytes_ok data.

Lemma data_byte i : 0 ≤ i < Z.of_nat (length data) → ∃ a, vget data i = Some a ∧ byte_ok a.
Proof.
  intros Hi. destruct (proj2 (vget_is_Some data i) Hi) as [a Ha].
  exists a. split; [done|]. exact (bytes_ok_vget _ _ _ Hdata Ha).
Qed.

(** The byte eight bits wide that starts [o] bits into byte [j] of the data. *)
Definition window (o j : Z) : Z :=
  u8 (Z.lor (Z.shiftl (default 0 (vget data j)) o)
            (Z.shiftr (default 0 (vget data (j + 1))) (8 - o))).

Lemma window_ok o j : byte_ok (window o j).
Proof. unfold window. auto with bm. Qed.

Lemma window_at o j r :
  0 < o < 8 → 0 ≤ j → j + 1 < Z.of_nat (length data) → 0 ≤ r < 8 →
  Z.testbit (window o j) (7 - r) = bit_at data (8 * j + r + o).
Proof.
  intros Ho Hj Hi Hr. destruct (data_byte j) as (a & Ha & _); [lia..|].
  destruct (data_byte (j + 1)) as (b & Hb & _); [lia..|].
  unfold window. rewrite Ha, Hb. by apply (bit_at_window data j a b).
Qed.

Lemma u8_lor_u8 x y : u8 (Z.lor (u8 x) y) = u8 (Z.lor x y).
Proof.
  apply Z.bits_inj'. intros i Hi. rewrite !wrap_spec, !Z.lor_spec, wrap_spec by lia.
  by case_bool_decide.
Qed.

(** The loops shared by extraction and deparsing: a window per byte. *)
Lemma window_loop o from upto d0 :
  0 ≤ from → upto ≤ Z.of_nat (length d0) → upto < Z.of_nat (length data) →
  ∃ d, for_range from upto (λ i dst,
         a ← vget data i; b ← vget data (i + 1);
         vset dst i (u8 (Z.lor (Z.shiftl a o) (Z.shiftr b (8 - o))))) d0 = Some d ∧
    length d = length d0 ∧
    ∀ j, vget d j = if decide (from ≤ j < upto) then Some (window o j) else vget d0 j.
Proof.
  intros Hf Hu Hd.
  destruct (for_range_fill (λ j _, window o j) (λ i dst,
         a ← vget data i; b ← vget data (i + 1);
         vset dst i (u8 (Z.lor (Z.shiftl a o) (Z.shiftr b (8 - o))))) from upto d0)
    as (d & -> & Hl & Hget); [done|done| |].
  - intros j l' Hj Hl'. destruct (data_byte j) as (a & Ha & _); [lia..|].
    destruct (data_byte (j + 1)) as (b & Hb & _); [lia..|].
    unfold vupd, window. rewrite Ha, Hb. simpl.
    destruct (proj2 (vget_is_Some l' j)) as [x Hx]; [lia|]. by rewrite Hx.
  - exists d. split_and!; [done..|]. intros j. rewrite Hget. case_decide; [|done].
    destruct (proj2 (vget_is_Some d0 j)) as [x Hx]; [lia|]. by rewrite Hx.
Qed.

(** The shift-right loops are the same windows, one byte earlier. *)
Lemma window_loop_right o upto d0 :
  upto ≤ Z.of_nat (length d0) → upto ≤ Z.of_nat (length data) →
  ∃ d, for_range 1 upto (λ i dst,
         a ← vget data (i - 1); b ← vget data i;
         vset dst i (u8 (Z.lor (Z.shiftl a (8 - o)) (Z.shiftr b o)))) d0 = Some d ∧
    length d = length d0 ∧
    ∀ j, vget d j = if decide (1 ≤ j < upto) then Some (window (8 - o) (j - 1)) else vget d0 j.
Proof.
  intros Hu Hd.
  destruct (for_range_fill (λ j _, window (8 - o) (j - 1)) (λ i dst,
         a ← vget data (i - 1); b ← vget data i;
         vset dst i (u8 (Z.lor (Z.shiftl a (8 - o)) (Z.shiftr b o)))) 1 upto d0)
    as (d & -> & Hl & Hget); [done|done| |].
  - intros j l' Hj Hl'. destruct (data_byte (j - 1)) as (a & Ha & _); [lia..|].
    destruct (data_byte j) as (b & Hb & _); [lia..|].
    unfold vupd, window. replace (j - 1 + 1) with j by lia. rewrite Ha, Hb. simpl.
    destruct (proj2 (vget_is_Some l' j)) as [x Hx]; [lia|]. rewrite Hx. simpl.
    by replace (8 - (8 - o)) with o by lia.
  - exists d. split_and!; [done..|]. intros j. rewrite Hget. case_decide; [|done].
    destruct (proj2 (vget_is_Some d0 j)) as [x Hx]; [lia|]. by rewrite Hx.
Qed.

End window.

(** ** Extraction *)

Section extract.
Variables (data dst : list Z) (bit_offset bitwidth : Z).
Let nbytes := nbytes_of bitwidth.
Let dst_offset := 8 * nbytes - bitwidth.
Let offset := bit_offset - dst_offset.

(** What extraction must do: [dst] holds the [bitwidth] bits of [data] from
    [bit_offset] on, right-aligned and zero-extended, in its first [nbytes]
    bytes, and nothing else of [dst] has changed. *)
Definition extracted (dst' : list Z) : Prop :=
  length dst' = length dst ∧ bytes_ok dst' ∧
  (∀ k, 0 ≤ k < 8 * nbytes →
    bit_at dst' k = bool_decide (dst_offset ≤ k) && bit_at data (k + offset)) ∧
  ∀ j, nbytes ≤ j → vget dst' j = vget dst j.

Hypothesis Hdata : bytes_ok data.
Hypothesis Hdst : bytes_ok dst.
Hypothesis Hoff : 0 ≤ bit_offset < 8.
Hypothesis Hw : 0 < bitwidth.
Hypothesis Hlen : bit_offset + bitwidth ≤ 8 * Z.of_nat (length data).
Hypothesis Hdlen : nbytes ≤ Z.of_nat (length dst).

Lemma dst_offset_range : 0 ≤ dst_offset < 8 ∧ 0 < nbytes.
Proof. pose proof (nbytes_of_bounds bitwidth). subst nbytes dst_offset. lia. Qed.

Lemma extracted_intro dst' :
  length dst' = length dst →
  (∀ i, 0 ≤ i < nbytes → ∃ b, vget dst' i = Some b ∧ byte_ok b ∧
    ∀ r, 0 ≤ r < 8 →
      Z.testbit b (7 - r) = bool_decide (dst_offset ≤ 8 * i + r) && bit_at data (8 * i + r + offset)) →
  (∀ j, nbytes ≤ j → vget dst' j = vget dst j) →
  extracted dst'.
Proof.
  intros Hl Hbytes Hrest. split_and!; [done| | |done].
  - apply bytes_ok_intro. intros i b Hb. destruct (decide (i < nbytes)).
    + destruct (Hbytes i) as (b' & Hb' & ? & _); [apply vget_Some_range in Hb; lia|]. congruence.
    + rewrite Hrest in Hb by lia. exact (bytes_ok_vget _ _ _ Hdst Hb).
  - intros k Hk. destruct (bit_coords k) as (Ek & ? & ?); [lia|].
    destruct (Hbytes (k / 8)) as (b & Hb & _ & Hbits); [lia|].
    rewrite Ek at 1. rewrite (bit_at_split _ _ _ b) by done. rewrite Hbits by done.
    by rewrite <- Ek.
Qed.

(** Whole bytes: a plain copy. *)
Lemma extract_copy :
  bit_offset = 0 → bitwidth mod 8 = 0 →
  ∃ d, memcpy dst data nbytes = Some d ∧ extracted d.
Proof.
  intros H0 Hm. pose proof dst_offset_range as [Hd Hn].
  assert (dst_offset = 0) as Hz.
  { subst dst_offset nbytes. unfold nbytes_of in *. pose proof (Z.div_mod bitwidth 8).
    replace (bitwidth + 7) with (8 * (bitwidth / 8) + 7) in * by lia.
    rewrite (Z.div_unique (8 * (bitwidth / 8) + 7) 8 (bitwidth / 8) 7) in * by lia. lia. }
  destruct (memcpy_spec dst data nbytes) as (d & -> & Hl & Hget); [lia..|].
  exists d. split; [done|]. apply extracted_intro; [done| |].
  - intros i Hi. destruct (data_byte data Hdata i) as (a & Ha & Hok); [lia..|].
    exists a. rewrite Hget, decide_True by lia. split_and!; [done..|].
    intros r Hr. rewrite bool_decide_true by lia. simpl.
    replace (8 * i + r + offset) with (8 * i + r) by lia.
    by rewrite (bit_at_split _ _ _ a).
  - intros j Hj. rewrite Hget, decide_False by lia. done.
Qed.

(** The field starts where it will be in [dst]: a copy and a mask. *)
Lemma extract_aligned :
  offset = 0 →
  ∃ d, (d ← memcpy dst data nbytes; vupd d 0 (λ d, u8 (Z.land d (Z.shiftr 255 dst_offset)))) = Some d
    ∧ extracted d.
Proof.
  intros H0. pose proof dst_offset_range as [Hd Hn].
  destruct (memcpy_spec dst data nbytes) as (d & -> & Hl & Hget); [lia..|]. simpl.
  destruct (data_byte data Hdata 0) as (a0 & Ha0 & Hok0); [lia..|].
  destruct (vupd_Some d 0 (λ d, u8 (Z.land d (Z.shiftr 255 dst_offset))) a0) as (d' & Hd' & Hset).
  { rewrite Hget, decide_True by lia. done. }
  exists d'. split; [done|]. pose proof (vset_length _ _ _ _ Hset).
  apply extracted_intro; [congruence| |].
  - intros i Hi. rewrite (vget_vset _ _ _ _ i Hset). case_decide; subst.
    + eexists. split_and!; [done|auto with bm|]. intros r Hr. rewrite mask_low_bit by lia.
      f_equal. rewrite H0, Z.add_0_r. by rewrite (bit_at_split _ _ _ a0).
    + destruct (data_byte data Hdata i) as (a & Ha & Hok); [lia..|].
      exists a. rewrite Hget, decide_True by lia. split_and!; [done..|].
      intros r Hr. rewrite bool_decide_true by lia. simpl. rewrite H0, Z.add_0_r.
      by rewrite (bit_at_split _ _ _ a).
  - intros j Hj. rewrite (vget_vset _ _ _ _ j Hset), decide_False, Hget, decide_False by lia. done.
Qed.

Lemma extract_left :
  0 < offset → 8 ≤ bitwidth →
  ∃ d, (d ← for_range 0 (nbytes - 1) (λ i dst,
          a ← vget data i; b ← vget data (i + 1);
          vset dst i (u8 (Z.lor (Z.shiftl a offset) (Z.shiftr b (8 - offset))))) dst;
        d ← vupd d 0 (λ d, u8 (Z.land d (Z.shiftr 255 dst_offset)));
        a ← vget data (Z.max 0 (nbytes - 1));
        d ← vset d (Z.max 0 (nbytes - 1)) (u8 (Z.shiftl a offset));
        b ← vget data (Z.max 0 (nbytes - 1) + 1);
        vupd d (Z.max 0 (nbytes - 1)) (λ d, u8 (Z.lor d (Z.shiftr b (8 - offset))))) = Some d
    ∧ extracted d.
Proof.
  intros Ho Hwide. pose proof dst_offset_range as [Hd Hn].
  pose proof (nbytes_of_bounds bitwidth) as Hnb. fold nbytes in Hnb.
  rewrite Z.max_r by lia.
  destruct (window_loop data Hdata offset 0 (nbytes - 1) dst) as (d1 & -> & Hl1 & Hget1); [lia..|]. simpl.
  destruct (proj2 (vget_is_Some d1 0)) as [x0 Hx0]; [lia|].
  destruct (vupd_Some d1 0 (λ d, u8 (Z.land d (Z.shiftr 255 dst_offset))) x0 Hx0)
    as (d2 & -> & Hset2). simpl. pose proof (vset_length _ _ _ _ Hset2).
  destruct (data_byte data Hdata (nbytes - 1)) as (a & Ha & _); [lia..|]. rewrite Ha. simpl.
  rewrite vset_Some by lia. simpl.
  destruct (data_byte data Hdata (nbytes - 1 + 1)) as (b & Hb & _); [lia..|]. rewrite Hb. simpl.
  pose proof (vset_Some d2 (nbytes - 1) (u8 (Z.shiftl a offset)) ltac:(lia)) as Hset3.
  pose proof (vset_length _ _ _ _ Hset3).
  destruct (vupd_Some (<[Z.to_nat (nbytes - 1):=u8 (Z.shiftl a offset)]> d2) (nbytes - 1)
    (λ d, u8 (Z.lor d (Z.shiftr b (8 - offset)))) (u8 (Z.shiftl a offset))) as (d4 & -> & Hset4).
  { rewrite (vget_vset _ _ _ _ _ Hset3). by rewrite decide_True. }
  pose proof (vset_length _ _ _ _ Hset4). exists d4. split; [done|].
  rewrite u8_lor_u8 in Hset4.
  apply extracted_intro; [congruence| |].
  - intros i Hi. rewrite (vget_vset _ _ _ _ i Hset4), (vget_vset _ _ _ _ i Hset3).
    destruct (decide (i = nbytes - 1)) as [->|].
    + eexists. split_and!; [done|auto with bm|]. intros r Hr.
      rewrite bool_decide_true, (bit_at_window data (nbytes - 1) a b) by (done || lia). done.
    + rewrite (vget_vset _ _ _ _ i Hset2). case_decide.
      * subst i. rewrite Hget1, decide_True in Hx0 by lia. simplify_eq.
        eexists. split_and!; [done|auto with bm|]. intros r Hr. rewrite mask_low_bit by lia.
        f_equal. apply (window_at data Hdata); lia.
      * rewrite Hget1, decide_True by lia.
        eexists. split_and!; [done|apply window_ok|]. intros r Hr.
        rewrite bool_decide_true by lia. apply (window_at data Hdata); lia.
  - intros j Hj. rewrite (vget_vset _ _ _ _ j Hset4), (vget_vset _ _ _ _ j Hset3).
    rewrite !decide_False, (vget_vset _ _ _ _ j Hset2), decide_False, Hget1, decide_False by lia.
    done.
Qed.

Lemma extract_right :
  offset < 0 →
  ∃ d, (a ← vget data 0;
        d ← vset dst 0 (u8 (Z.shiftr a (- offset)));
        d ← vupd d 0 (λ d, u8 (Z.land d (Z.shiftr 255 dst_offset)));
        for_range 1 nbytes (λ i dst,
          a ← vget data (i - 1); b ← vget data i;
          vset dst i (u8 (Z.lor (Z.shiftl a (8 - - offset)) (Z.shiftr b (- offset))))) d) = Some d
    ∧ extracted d.
Proof.
  intros Ho. pose proof dst_offset_range as [Hd Hn].
  pose proof (nbytes_of_bounds bitwidth) as Hnb. fold nbytes in Hnb.
  destruct (data_byte data Hdata 0) as (a & Ha & Hok); [lia..|]. rewrite Ha. simpl.
  rewrite vset_Some by lia. simpl.
  pose proof (vset_Some dst 0 (u8 (Z.shiftr a (- offset))) ltac:(lia)) as Hset1.
  pose proof (vset_length _ _ _ _ Hset1).
  destruct (vupd_Some (<[Z.to_nat 0:=u8 (Z.shiftr a (- offset))]> dst) 0
    (λ d, u8 (Z.land d (Z.shiftr 255 dst_offset))) (u8 (Z.shiftr a (- offset)))) as (d2 & -> & Hset2).
  { rewrite (vget_vset _ _ _ _ _ Hset1). by rewrite decide_True. }
  simpl. pose proof (vset_length _ _ _ _ Hset2).
  destruct (window_loop_right data Hdata (- offset) nbytes d2) as (d3 & -> & Hl3 & Hget3); [lia|lia|].
  exists d3. split; [done|]. apply extracted_intro; [congruence| |].
  - intros i Hi. rewrite Hget3. case_decide.
    + eexists. split_and!; [done|apply window_ok|]. intros r Hr. rewrite bool_decide_true by lia.
      rewrite (window_at data Hdata) by lia. simpl. f_equal. lia.
    + rewrite (vget_vset _ _ _ _ i Hset2), decide_True by lia. assert (i = 0) as -> by lia.
      eexists. split_and!; [done|auto with bm|]. intros r Hr.
      rewrite mask_low_bit, shiftr_bit by (done || lia).
      destruct (decide (dst_offset ≤ r));
        [|by rewrite !(bool_decide_false (dst_offset ≤ _)) by lia].
      rewrite !bool_decide_true by lia.
      replace (8 * 0 + r + offset) with (8 * 0 + (r - - offset)) by lia.
      by rewrite (bit_at_split _ _ _ a) by (done || lia).
  - intros j Hj. rewrite Hget3, decide_False by lia.
    rewrite (vget_vset _ _ _ _ j Hset2), (vget_vset _ _ _ _ j Hset1). by rewrite !decide_False by lia.
Qed.
End extract.

(** ** Deparsing *)

Section deparse.
Variables (data dst : list Z) (bitwidth hdr_offset : Z).
Let nbytes := nbytes_of bitwidth.
Let field_offset := 8 * nbytes - bitwidth.
Let hdr_bytes := (hdr_offset + bitwidth + 7) / 8.
Let offset := field_offset - hdr_offset.

(** What deparsing must do: the first [hdr_offset] bits of [dst], which belong
    to the previous fields, are unchanged; the next [bitwidth] bits are those
    of the field; the bytes after the field are unchanged. *)
Definition deparsed (dst' : list Z) : Prop :=
  length dst' = length dst ∧ bytes_ok dst' ∧
  (∀ k, 0 ≤ k < hdr_offset + bitwidth →
    bit_at dst' k = if decide (k < hdr_offset) then bit_at dst k else bit_at data (k + offset)) ∧
  ∀ j, hdr_bytes ≤ j → vget dst' j = vget dst j.

(** The field fits its width: the padding bits of its first byte are zero. *)
Definition padded : Prop := ∀ k, 0 ≤ k < field_offset → bit_at data k = false.

Hypothesis Hdata : bytes_ok data.
Hypothesis Hdst : bytes_ok dst.
Hypothesis Hoff : 0 ≤ hdr_offset < 8.
Hypothesis Hw : 0 < bitwidth.
Hypothesis Hlen : nbytes ≤ Z.of_nat (length data).
Hypothesis Hdlen : hdr_bytes ≤ Z.of_nat (length dst).
Hypothesis Hpad : padded.

Lemma field_offset_range :
  0 ≤ field_offset < 8 ∧ 0 < nbytes ∧ 8 * hdr_bytes - 8 < hdr_offset + bitwidth ≤ 8 * hdr_bytes ∧
  nbytes ≤ hdr_bytes.
Proof.
  pose proof (nbytes_of_bounds bitwidth). pose proof (nbytes_of_bounds (hdr_offset + bitwidth)).
  change (nbytes_of (hdr_offset + bitwidth)) with hdr_bytes in *.
  unfold field_offset, nbytes in *. lia.
Qed.

Lemma deparsed_intro dst' :
  length dst' = length dst →
  (∀ i, 0 ≤ i < hdr_bytes → ∃ b, vget dst' i = Some b ∧ byte_ok b ∧
    ∀ r, 0 ≤ r < 8 → 8 * i + r < hdr_offset + bitwidth →
      Z.testbit b (7 - r) =
        if decide (8 * i + r < hdr_offset) then bit_at dst (8 * i + r)
        else bit_at data (8 * i + r + offset)) →
  (∀ j, hdr_bytes ≤ j → vget dst' j = vget dst j) →
  deparsed dst'.
Proof.
  intros Hl Hbytes Hrest. pose proof field_offset_range. split_and!; [done| | |done].
  - apply bytes_ok_intro. intros i b Hb. destruct (decide (i < hdr_bytes)).
    + destruct (Hbytes i) as (b' & Hb' & ? & _); [apply vget_Some_range in Hb; lia|]. congruence.
    + rewrite Hrest in Hb by lia. exact (bytes_ok_vget _ _ _ Hdst Hb).
  - intros k Hk. destruct (bit_coords k) as (Ek & ? & ?); [lia|].
    destruct (Hbytes (k / 8)) as (b & Hb & _ & Hbits); [lia|].
    rewrite Ek at 1. rewrite (bit_at_split _ _ _ b) by done. rewrite Hbits by lia.
    by rewrite <- Ek.
Qed.

Lemma field_byte i : 0 ≤ i < nbytes → ∃ a, vget data i = Some a ∧ byte_ok a.
Proof. intros Hi. apply (data_byte data Hdata). lia. Qed.

Lemma deparse_copy :
  hdr_offset = 0 → bitwidth mod 8 = 0 → ∃ d, memcpy dst data nbytes = Some d ∧ deparsed d.
Proof.
  intros H0 Hm. pose proof field_offset_range as (Hd & Hn & Hb & Hle).
  assert (field_offset = 0 ∧ hdr_bytes = nbytes) as [Hz Heq].
  { assert (hdr_bytes = nbytes) by (unfold hdr_bytes, nbytes, nbytes_of; by rewrite H0).
    split; [|done]. pose proof (Z.div_mod bitwidth 8). unfold field_offset, nbytes, nbytes_of.
    replace (bitwidth + 7) with (8 * (bitwidth / 8) + 7) by lia.
    rewrite <- (Z.div_unique (8 * (bitwidth / 8) + 7) 8 (bitwidth / 8) 7) by lia. lia. }
  destruct (memcpy_spec dst data nbytes) as (d & -> & Hl & Hget); [lia..|].
  exists d. split; [done|]. apply deparsed_intro; [done| |].
  - intros i Hi. destruct (field_byte i) as (a & Ha & Hok); [lia|].
    exists a. rewrite Hget, decide_True by lia. split_and!; [done..|].
    intros r Hr Hk. rewrite decide_False by lia.
    replace (8 * i + r + offset) with (8 * i + r) by lia. by rewrite (bit_at_split _ _ _ a).
  - intros j Hj. rewrite Hget, decide_False by lia. done.
Qed.

(** The first byte once the bits to write are cleared. *)
Lemma deparse_clear :
  ∃ d x, vupd dst 0 (λ d, u8 (Z.land d (Z.lnot (Z.shiftr 255 hdr_offset)))) = Some d ∧
    length d = length dst ∧ vget d 0 = Some x ∧ (∀ j, j ≠ 0 → vget d j = vget dst j) ∧
    ∀ r, 0 ≤ r < 8 → Z.testbit x (7 - r) = bool_decide (r < hdr_offset) && bit_at dst (8 * 0 + r).
Proof.
  pose proof field_offset_range as (Hd & Hn & Hb & Hle).
  destruct (proj2 (vget_is_Some dst 0)) as [x Hx]; [lia|].
  destruct (vupd_Some dst 0 (λ d, u8 (Z.land d (Z.lnot (Z.shiftr 255 hdr_offset)))) x Hx)
    as (d & Hd' & Hset).
  exists d, (u8 (Z.land x (Z.lnot (Z.shiftr 255 hdr_offset)))). split_and!.
  - done.
  - by eapply vset_length.
  - rewrite (vget_vset _ _ _ _ 0 Hset). by rewrite decide_True.
  - intros j Hj. rewrite (vget_vset _ _ _ _ j Hset). by rewrite decide_False.
  - intros r Hr. rewrite mask_high_bit by lia. f_equal. by rewrite (bit_at_split _ _ _ x).
Qed.

(** The first byte of the result, given the bits that were or-ed into it. *)
Lemma first_byte_bits x y r :
  0 ≤ r < 8 → r < hdr_offset + bitwidth →
  (∀ r, 0 ≤ r < 8 → Z.testbit x (7 - r) = bool_decide (r < hdr_offset) && bit_at dst (8 * 0 + r)) →
  Z.testbit y (7 - r) = bool_decide (- offset ≤ r) && bit_at data (8 * 0 + r + offset) →
  Z.testbit (u8 (Z.lor x y)) (7 - r) =
    if decide (8 * 0 + r < hdr_offset) then bit_at dst (8 * 0 + r)
    else bit_at data (8 * 0 + r + offset).
Proof.
  intros Hr Hk Hx Hy. rewrite lor_bit, Hx, Hy by done. destruct (decide (8 * 0 + r < _)).
  - rewrite (bool_decide_true (r < hdr_offset)) by lia. case_bool_decide; [|by rewrite orb_false_r].
    rewrite Hpad by lia. apply orb_false_r.
  - rewrite (bool_decide_false (r < hdr_offset)) by lia. rewrite bool_decide_true; [done|].
    pose proof field_offset_range. lia.
Qed.

Lemma deparse_aligned d x :
  offset = 0 → length d = length dst → vget d 0 = Some x →
  (∀ j, j ≠ 0 → vget d j = vget dst j) →
  (∀ r, 0 ≤ r < 8 → Z.testbit x (7 - r) = bool_decide (r < hdr_offset) && bit_at dst (8 * 0 + r)) →
  ∃ d', (d ← for_range 1 hdr_bytes (λ i dst, a ← vget data i; vset dst i a) d;
         a ← vget data 0; vupd d 0 (λ d, u8 (Z.lor d a))) = Some d' ∧ deparsed d'.
Proof.
  intros H0 Hl Hx Hrest Hbits. pose proof field_offset_range as (Hd & Hn & Hb & Hle).
  destruct (for_range_fill (λ j _, default 0 (vget data j))
    (λ i dst, a ← vget data i; vset dst i a) 1 hdr_bytes d) as (d1 & -> & Hl1 & Hget1); [lia|lia| |].
  { intros j l' Hj Hl'. destruct (field_byte j) as (a & Ha & _); [lia|]. rewrite Ha. simpl.
    unfold vupd. destruct (proj2 (vget_is_Some l' j)) as [y Hy]; [lia|]. by rewrite Hy. }
  simpl. destruct (field_byte 0) as (a0 & Ha0 & _); [lia|]. rewrite Ha0. simpl.
  destruct (vupd_Some d1 0 (λ d, u8 (Z.lor d a0)) x) as (d2 & -> & Hset2).
  { by rewrite Hget1, decide_False by lia. }
  exists d2. split; [done|]. pose proof (vset_length _ _ _ _ Hset2).
  apply deparsed_intro; [congruence| |].
  - intros i Hi. rewrite (vget_vset _ _ _ _ i Hset2). case_decide.
    + subst i. eexists. split_and!; [done|auto with bm|]. intros r Hr Hk.
      apply first_byte_bits; [done|lia|done|]. rewrite bool_decide_true by lia.
      rewrite H0, Z.add_0_r. by rewrite (bit_at_split _ _ _ a0).
    + destruct (field_byte i) as (a & Ha & Hok); [lia|].
      destruct (proj2 (vget_is_Some d i)) as [y Hy]; [lia|].
      rewrite Hget1, decide_True, Hy, Ha by lia. exists a. split_and!; [done..|].
      intros r Hr Hk. rewrite decide_False, H0, Z.add_0_r by lia. by rewrite (bit_at_split _ _ _ a).
  - intros j Hj. rewrite (vget_vset _ _ _ _ j Hset2), decide_False, Hget1, decide_False by lia.
    apply Hrest. lia.
Qed.

Lemma deparse_left d x :
  0 < offset → length d = length dst → vget d 0 = Some x →
  (∀ j, j ≠ 0 → vget d j = vget dst j) →
  (∀ r, 0 ≤ r < 8 → Z.testbit x (7 - r) = bool_decide (r < hdr_offset) && bit_at dst (8 * 0 + r)) →
  ∃ d', (d ← for_range 1 hdr_bytes (λ i dst, vset dst i 0) d;
         d ← for_range 0 (hdr_bytes - 1) (λ i dst,
           a ← vget data i; b ← vget data (i + 1);
           vupd dst i (λ d, u8 (Z.lor d (Z.lor (Z.shiftl a offset) (Z.shiftr b (8 - offset)))))) d;
         a ← vget data (Z.max 0 (hdr_bytes - 1));
         vupd d (Z.max 0 (hdr_bytes - 1)) (λ d, u8 (Z.lor d (Z.shiftl a offset)))) = Some d'
    ∧ deparsed d'.
Proof.
  intros Ho Hl Hx Hrest Hbits. pose proof field_offset_range as (Hd & Hn & Hb & Hle).
  assert (hdr_bytes = nbytes) as Heq by lia. rewrite Z.max_r by lia.
  destruct (for_range_fill (λ _ _, 0) (λ i (dst : list Z), vset dst i 0) 1 hdr_bytes d)
    as (d1 & -> & Hl1 & Hget1); [lia|lia| |].
  { intros j l' Hj Hl'. unfold vupd.
    destruct (proj2 (vget_is_Some l' j)) as [y Hy]; [lia|]. by rewrite Hy. }
  simpl.
  set (w j := Z.lor (Z.shiftl (default 0 (vget data j)) offset)
                (Z.shiftr (default 0 (vget data (j + 1))) (8 - offset))).
  destruct (for_range_fill (λ j y, u8 (Z.lor y (w j))) (λ i dst,
           a ← vget data i; b ← vget data (i + 1);
           vupd dst i (λ d, u8 (Z.lor d (Z.lor (Z.shiftl a offset) (Z.shiftr b (8 - offset))))))
    0 (hdr_bytes - 1) d1) as (d2 & -> & Hl2 & Hget2); [lia|lia| |].
  { intros j l' Hj Hl'. destruct (field_byte j) as (a & Ha & _); [lia|].
    destruct (field_byte (j + 1)) as (b & Hb' & _); [lia|]. unfold w. by rewrite Ha, Hb'. }
  simpl. destruct (field_byte (hdr_bytes - 1)) as (a & Ha & _); [lia|]. rewrite Ha. simpl.
  assert (∀ j, 0 ≤ j < hdr_bytes → vget d1 j = Some (if decide (j = 0) then x else 0)) as Hd1.
  { intros j Hj. rewrite Hget1. destruct (decide (j = 0)) as [->|].
    - by rewrite decide_False by lia.
    - rewrite decide_True by lia. destruct (proj2 (vget_is_Some d j)) as [y Hy]; [lia|].
      by rewrite Hy. }
  (* the byte or-ed into byte [j] *)
  set (v j := if decide (j < hdr_bytes - 1) then w j else Z.shiftl a offset).
  assert (∀ j r, 0 ≤ j < hdr_bytes → 0 ≤ r < 8 → 8 * j + r < hdr_offset + bitwidth →
    Z.testbit (v j) (7 - r) = bit_at data (8 * j + r + offset)) as Hv.
  { intros j r Hj Hr Hk. unfold v. case_decide.
    - rewrite <- (window_at data Hdata offset j r) by lia. unfold window.
      by rewrite (wrap_spec 8), bool_decide_true by lia.
    - assert (j = hdr_bytes - 1) as -> by lia. rewrite Z.shiftl_spec by lia.
      replace (8 * (hdr_bytes - 1) + r + offset) with (8 * (hdr_bytes - 1) + (r + offset)) by lia.
      rewrite (bit_at_split _ _ _ a) by (done || lia). f_equal. lia. }
  assert (vget d2 (hdr_bytes - 1) = Some (if decide (hdr_bytes - 1 = 0) then x else 0)) as Hlast.
  { rewrite Hget2, decide_False by lia. apply Hd1. lia. }
  destruct (vupd_Some d2 (hdr_bytes - 1) (λ d, u8 (Z.lor d (Z.shiftl a offset))) _ Hlast)
    as (d3 & -> & Hset3). exists d3. split; [done|]. pose proof (vset_length _ _ _ _ Hset3).
  assert (∀ i, 0 ≤ i < hdr_bytes →
    vget d3 i = Some (u8 (Z.lor (if decide (i = 0) then x else 0) (v i)))) as Hd3.
  { intros i Hi. rewrite (vget_vset _ _ _ _ i Hset3). unfold v.
    destruct (decide (i = hdr_bytes - 1)) as [->|].
    - rewrite (decide_False (P := hdr_bytes - 1 < _)) by lia. done.
    - rewrite Hget2, decide_True, Hd1 by lia. rewrite (decide_True (P := i < _)) by lia. done. }
  apply deparsed_intro; [congruence| |].
  - intros i Hi. rewrite Hd3 by done. eexists. split_and!; [done|auto with bm|].
    intros r Hr Hk. destruct (decide (i = 0)) as [->|].
    + apply first_byte_bits; [done|lia|done|]. rewrite bool_decide_true by lia. by apply Hv.
    + rewrite lor_bit, Z.bits_0, decide_False by lia. apply Hv; lia.
  - intros j Hj. rewrite (vget_vset _ _ _ _ j Hset3), decide_False, Hget2, decide_False by lia.
    rewrite Hget1, decide_False by lia. apply Hrest. lia.
Qed.

Lemma deparse_right_one d a :
  offset < 0 → nbytes = 1 → length d = length dst → vget data 0 = Some a →
  (∃ x, vget d 0 = Some (u8 x) ∧ ∀ r, 0 ≤ r < 8 → r < hdr_offset + bitwidth →
     Z.testbit (u8 x) (7 - r) =
       if decide (8 * 0 + r < hdr_offset) then bit_at dst (8 * 0 + r)
       else bit_at data (8 * 0 + r + offset)) →
  (∀ j, j ≠ 0 → vget d j = vget dst j) →
  ∃ d', vset d 1 (u8 (Z.shiftl a (8 - - offset))) = Some d' ∧ deparsed d'.
Proof.
  intros Ho H1 Hl Ha (x & Hx & Hbits) Hrest.
  pose proof field_offset_range as (Hd & Hn & Hb & Hle).
  pose proof (vset_Some d 1 (u8 (Z.shiftl a (8 - - offset))) ltac:(lia)) as Hset.
  eexists. split; [done|]. pose proof (vset_length _ _ _ _ Hset).
  apply deparsed_intro; [congruence| |].
  - intros i Hi. rewrite (vget_vset _ _ _ _ i Hset). case_decide.
    + subst i. eexists. split_and!; [done|auto with bm|]. intros r Hr Hk.
      rewrite shiftl_bit, bool_decide_true, decide_False by lia.
      replace (8 * 1 + r + offset) with (8 * 0 + (r + (8 - - offset))) by lia.
      by rewrite (bit_at_split _ _ _ a) by (done || lia).
    + assert (i = 0) as -> by lia. exists (u8 x). split_and!; [done|auto with bm|].
      intros r Hr Hk. apply Hbits; lia.
  - intros j Hj. rewrite (vget_vset _ _ _ _ j Hset), decide_False by lia. apply Hrest. lia.
Qed.

Lemma deparse_right_many d :
  offset < 0 → nbytes ≠ 1 → length d = length dst →
  (∃ x, vget d 0 = Some (u8 x) ∧ ∀ r, 0 ≤ r < 8 → r < hdr_offset + bitwidth →
     Z.testbit (u8 x) (7 - r) =
       if decide (8 * 0 + r < hdr_offset) then bit_at dst (8 * 0 + r)
       else bit_at data (8 * 0 + r + offset)) →
  (∀ j, j ≠ 0 → vget d j = vget dst j) →
  ∃ d', (d ← for_range 1 (hdr_bytes - 1) (λ i dst,
           a ← vget data (i - 1); b ← vget data i;
           vset dst i (u8 (Z.lor (Z.shiftl a (8 - - offset)) (Z.shiftr b (- offset))))) d;
         d ← vupd d (Z.max 1 (hdr_bytes - 1)) (λ d, u8 (Z.land d
           (Z.shiftl 1 (8 * hdr_bytes - (hdr_offset + bitwidth)) - 1)));
         a ← vget data (Z.max 1 (hdr_bytes - 1) - 1);
         vupd d (Z.max 1 (hdr_bytes - 1)) (λ d, u8 (Z.lor d (Z.shiftl a (8 - - offset))))) = Some d'
    ∧ deparsed d'.
Proof.
  intros Ho H1 Hl (x & Hx & Hbits) Hrest.
  pose proof field_offset_range as (Hd & Hn & Hb & Hle). rewrite Z.max_r by lia.
  destruct (window_loop_right data Hdata (- offset) (hdr_bytes - 1) d)
    as (d1 & -> & Hl1 & Hget1); [lia|lia|]. simpl.
  set (t := 8 * hdr_bytes - (hdr_offset + bitwidth)) in *.
  destruct (proj2 (vget_is_Some d1 (hdr_bytes - 1))) as [y Hy]; [lia|].
  destruct (vupd_Some d1 (hdr_bytes - 1) (λ d, u8 (Z.land d (Z.shiftl 1 t - 1))) y Hy)
    as (d2 & -> & Hset2). simpl. pose proof (vset_length _ _ _ _ Hset2).
  destruct (field_byte (hdr_bytes - 1 - 1)) as (a & Ha & _); [lia|]. rewrite Ha. simpl.
  destruct (vupd_Some d2 (hdr_bytes - 1) (λ d, u8 (Z.lor d (Z.shiftl a (8 - - offset))))
    (u8 (Z.land y (Z.shiftl 1 t - 1)))) as (d3 & -> & Hset3).
  { rewrite (vget_vset _ _ _ _ _ Hset2). by rewrite decide_True. }
  exists d3. split; [done|]. pose proof (vset_length _ _ _ _ Hset3).
  apply deparsed_intro; [congruence| |].
  - intros i Hi. rewrite (vget_vset _ _ _ _ i Hset3). case_decide.
    + subst i. eexists. split_and!; [done|auto with bm|]. intros r Hr Hk.
      rewrite lor_bit, tail_mask_bit by lia. rewrite (bool_decide_false (8 - t ≤ r)) by lia.
      rewrite Z.shiftl_spec, decide_False by lia.
      replace (8 * (hdr_bytes - 1) + r + offset)
        with (8 * (hdr_bytes - 1 - 1) + (r + (8 - - offset))) by lia.
      rewrite (bit_at_split _ _ _ a) by (done || lia). simpl. f_equal. lia.
    + rewrite (vget_vset _ _ _ _ i Hset2), decide_False, Hget1 by lia. case_decide.
      * eexists. split_and!; [done|apply window_ok|]. intros r Hr Hk.
        rewrite decide_False by lia. rewrite (window_at data Hdata) by lia. f_equal. lia.
      * assert (i = 0) as -> by lia. exists (u8 x). split_and!; [done|auto with bm|].
        intros r Hr Hk. apply Hbits; lia.
  - intros j Hj. rewrite (vget_vset _ _ _ _ j Hset3), decide_False by lia.
    rewrite (vget_vset _ _ _ _ j Hset2), decide_False, Hget1, decide_False by lia. apply Hrest. lia.
Qed.

Lemma generic_deparse_ok : ∃ d, generic_deparse data bitwidth dst hdr_offset = Some d ∧ deparsed d.
Proof.
  pose proof field_offset_range as (Hd & Hn & Hb & Hle). unfold generic_deparse.
  rewrite (proj2 (Z.eqb_neq bitwidth 0)) by lia. fold nbytes hdr_bytes. rewrite !shiftl3.
  destruct ((hdr_offset =? 0) && (bitwidth mod 8 =? 0)) eqn:Efast.
  { apply andb_true_iff in Efast as [?%Z.eqb_eq ?%Z.eqb_eq]. by apply deparse_copy. }
  destruct deparse_clear as (d & x & -> & Hl & Hx & Hrest & Hbits). simpl.
  fold field_offset. fold offset.
  destruct (offset =? 0) eqn:E0; [apply Z.eqb_eq in E0; by apply (deparse_aligned d x)|].
  apply Z.eqb_neq in E0.
  destruct (0 <? offset) eqn:E1; [apply Z.ltb_lt in E1; by apply (deparse_left d x)|].
  apply Z.ltb_ge in E1.
  destruct (field_byte 0) as (a & Ha & Hok); [lia|]. rewrite Ha. simpl.
  destruct (vupd_Some d 0 (λ d, u8 (Z.lor d (Z.shiftr a (- offset)))) x Hx) as (d1 & -> & Hset).
  simpl. pose proof (vset_length _ _ _ _ Hset).
  assert (∃ x, vget d1 0 = Some (u8 x) ∧ ∀ r, 0 ≤ r < 8 → r < hdr_offset + bitwidth →
     Z.testbit (u8 x) (7 - r) =
       if decide (8 * 0 + r < hdr_offset) then bit_at dst (8 * 0 + r)
       else bit_at data (8 * 0 + r + offset)) as Hfirst.
  { exists (Z.lor x (Z.shiftr a (- offset))). rewrite (vget_vset _ _ _ _ 0 Hset).
    split; [by rewrite decide_True|]. intros r Hr Hk. apply first_byte_bits; [done|lia|done|].
    pose proof (shiftr_bit a (- offset) r Hok ltac:(lia) Hr) as Hs.
    rewrite wrap_spec, bool_decide_true in Hs by lia. simpl in Hs. rewrite Hs.
    case_bool_decide; [|done]. replace (8 * 0 + r + offset) with (8 * 0 + (r - - offset)) by lia.
    by rewrite (bit_at_split _ _ _ a) by (done || lia). }
  assert (∀ j, j ≠ 0 → vget d1 j = vget dst j) as Hrest1.
  { intros j Hj. rewrite (vget_vset _ _ _ _ j Hset), decide_False by lia. by apply Hrest. }
  destruct (nbytes =? 1) eqn:En.
  - apply Z.eqb_eq in En. apply deparse_right_one; [lia|done|congruence|done..].
  - apply Z.eqb_neq in En. apply deparse_right_many; [lia|done|congruence|done..].
Qed.
End deparse.

Lemma generic_extract_ok data dst bit_offset bitwidth :
  bytes_ok data → bytes_ok dst → 0 ≤ bit_offset < 8 → 0 < bitwidth →
  bit_offset + bitwidth ≤ 8 * Z.of_nat (length data) →
  nbytes_of bitwidth ≤ Z.of_nat (length dst) →
  8 ≤ bitwidth ∨ bit_offset + bitwidth ≤ 8 →
  ∃ d, generic_extract data bit_offset bitwidth dst = Some d ∧
    extracted data dst bit_offset bitwidth d.
Proof.
  intros Hdata Hdst Hoff Hw Hlen Hdlen Hstr. unfold generic_extract.
  pose proof (nbytes_of_bounds bitwidth) as Hnb.
  destruct ((bit_offset =? 0) && (bitwidth mod 8 =? 0)) eqn:Efast.
  { apply andb_true_iff in Efast as [?%Z.eqb_eq ?%Z.eqb_eq]. by apply extract_copy. }
  rewrite !shiftl3.
  destruct (bit_offset - _ =? 0) eqn:E0; [apply Z.eqb_eq in E0; by apply extract_aligned|].
  apply Z.eqb_neq in E0.
  destruct (0 <? bit_offset - _) eqn:E1.
  - apply Z.ltb_lt in E1. rewrite (proj2 (Z.ltb_lt (8 * nbytes_of bitwidth) (bit_offset + bitwidth)))
      by lia. apply extract_left; (done || lia).
  - apply Z.ltb_ge in E1. apply extract_right; (done || lia).
Qed.

(** ** Properties *)

(** The byte of a field narrower than a byte that straddles two bytes. *)
Lemma straddle_byte a b bit_offset bitwidth d0 ds rest :
  byte_ok a → byte_ok b → 0 ≤ bit_offset < 8 → 0 < bitwidth < 8 → 8 < bit_offset + bitwidth →
  let o := bit_offset - (8 - bitwidth) in let d := u8 (Z.lor (Z.shiftl a o) (Z.shiftr b (8 - o))) in
  generic_extract (a :: b :: rest) bit_offset bitwidth (d0 :: ds) = Some (d :: ds) ∧
  ∀ k, 0 ≤ k < 8 → Z.testbit d (7 - k) = bit_at (a :: b :: rest) (k + o).
Proof.
  intros Ha Hb Hoff Hw Hstr o d. assert (nbytes_of bitwidth = 1) as Hn by (pose proof (nbytes_of_bounds bitwidth); lia). split.
  - unfold generic_extract. rewrite (Z.mod_small bitwidth 8), Hn by lia.
    rewrite (proj2 (Z.eqb_neq bit_offset 0)) by lia. cbn [andb]. rewrite shiftl3.
    change (8 * 1 - bitwidth) with (8 - bitwidth). fold o.
    rewrite (proj2 (Z.eqb_neq o 0)), (proj2 (Z.ltb_lt 0 o)) by lia.
    rewrite (proj2 (Z.ltb_lt (8 * 1) _)) by lia. simpl. unfold d. rewrite <- u8_lor_u8. reflexivity.
  - intros k Hk. unfold d. rewrite window_bit by (done || lia). case_decide.
    + by rewrite <- (bit_at_split (a :: b :: rest) 0 (k + o) a) by (done || lia).
    + rewrite <- (bit_at_split (a :: b :: rest) 1 (k + o - 8) b) by (done || lia). f_equal. lia.
Qed.

(** Narrower than a byte, and in two bytes. *)
Definition straddles (bit_offset bitwidth : Z) : Prop := bitwidth < 8 ∧ 8 < bit_offset + bitwidth.
#[export] Instance straddles_dec bit_offset bitwidth : Decision (straddles bit_offset bitwidth) := _.

(** C29: extracting a field of [bitwidth] bits from bit [bit_offset] of a packet,
    at whatever alignment, never reads or writes out of bounds and puts exactly
    those bits, right-aligned, into the first bytes of the destination, and
    changes no other. The padding before them is zero, but for a field narrower
    than a byte that straddles two bytes: its padding is the bits that precede
    it in the packet. *)
Theorem generic_extract_spec data dst bit_offset bitwidth :
  bytes_ok data → bytes_ok dst → 0 ≤ bit_offset < 8 → 0 < bitwidth →
  bit_offset + bitwidth ≤ 8 * Z.of_nat (length data) →
  nbytes_of bitwidth ≤ Z.of_nat (length dst) →
  let padding := 8 * nbytes_of bitwidth - bitwidth in
  ∃ d, generic_extract data bit_offset bitwidth dst = Some d ∧ length d = length dst ∧ bytes_ok d ∧
    (∀ k, padding ≤ k < padding + bitwidth → bit_at d k = bit_at data (bit_offset + (k - padding))) ∧
    (∀ k, 0 ≤ k < padding → bit_at d k = bool_decide (straddles bit_offset bitwidth) && bit_at data (bit_offset + (k - padding))) ∧
    ∀ j, nbytes_of bitwidth ≤ j → vget d j = vget dst j.
Proof.
  intros Hdata Hdst Hoff Hw Hlen Hdlen padding. destruct (decide (straddles bit_offset bitwidth)) as [[Hs1 Hs2]|Hns].
  - assert (nbytes_of bitwidth = 1) as Hn by (pose proof (nbytes_of_bounds bitwidth); lia).
    destruct data as [|a [|b rest]]; [cbn in Hlen; lia|cbn in Hlen; lia|]. destruct dst as [|d0 ds]; [cbn in Hdlen; lia|].
    apply Forall_cons in Hdata as [Ha [Hb _]%Forall_cons]. apply Forall_cons in Hdst as [_ Hds].
    destruct (straddle_byte a b bit_offset bitwidth d0 ds rest) as [E Hbits]; [done|done|lia..|].
    set (d := u8 _) in *. exists (d :: ds). unfold padding. rewrite Hn. split; [done|]. split; [done|].
    split; [apply Forall_cons; split; [apply byte_ok_u8|done]|].
    assert (∀ k, 0 ≤ k < 8 → bit_at (d :: ds) k = bit_at (a :: b :: rest) (bit_offset + (k - (8 * 1 - bitwidth)))) as Hk.
    { intros k Hk. replace k with (8 * 0 + k) at 1 by lia. rewrite (bit_at_split _ 0 k d) by done. rewrite Hbits by done. f_equal. lia. }
    split; [intros k Hk'; apply Hk; lia|]. split.
    + intros k Hk'. rewrite bool_decide_true by done. apply Hk. lia.
    + intros j Hj. rewrite !vget_nat by lia. replace (Z.to_nat j) with (S (Z.to_nat (j - 1))) by lia. done.
  - destruct (generic_extract_ok data dst bit_offset bitwidth) as (d & E & Hl & Hok & Hbits & Hrest); [done..| |].
    { unfold straddles in Hns. lia. }
    assert (0 ≤ padding) by (pose proof (nbytes_of_bounds bitwidth); unfold padding; lia).
    exists d. split; [done|]. split; [done|]. split; [done|]. split_and!; [..|done].
    + intros k Hk. rewrite Hbits by (unfold padding in *; lia). rewrite bool_decide_true by (unfold padding in *; lia). cbn.
      f_equal. unfold padding. lia.
    + intros k Hk. rewrite Hbits by (unfold padding in *; lia). by rewrite !bool_decide_false by (done || unfold padding in *; lia).
Qed.


(** Extracting what was deparsed gives the field back, at every bit offset. *)
Theorem extract_deparse_roundtrip data dst dst2 bitwidth hdr_offset :
  bytes_ok data → bytes_ok dst → bytes_ok dst2 → 0 ≤ hdr_offset < 8 → 0 < bitwidth →
  Z.of_nat (length data) = nbytes_of bitwidth → length dst2 = length data →
  (hdr_offset + bitwidth + 7) / 8 ≤ Z.of_nat (length dst) →
  padded data bitwidth →
  8 ≤ bitwidth ∨ hdr_offset + bitwidth ≤ 8 →
  ∃ d, generic_deparse data bitwidth dst hdr_offset = Some d ∧
    generic_extract d hdr_offset bitwidth dst2 = Some data.
Proof.
  intros Hdata Hdst Hdst2 Hoff Hw Hlen Hlen2 Hdlen Hpad Hstr.
  pose proof (nbytes_of_bounds bitwidth). pose proof (nbytes_of_bounds (hdr_offset + bitwidth)).
  change (nbytes_of (hdr_offset + bitwidth)) with ((hdr_offset + bitwidth + 7) / 8) in *.
  destruct (generic_deparse_ok data dst bitwidth hdr_offset) as (d & -> & Hl & Hok & Hbits & _);
    [done..|lia|lia|done|].
  destruct (generic_extract_ok d dst2 hdr_offset bitwidth) as (d2 & Hex & Hl2 & Hok2 & Hbits2 & _);
    [done..|lia|lia|done|].
  exists d. split; [done|]. rewrite Hex. f_equal. apply bits_ext; [done|done|congruence|].
  intros k Hk. rewrite Hbits2 by lia. case_bool_decide.
  - rewrite Hbits, decide_False by lia. simpl. f_equal. lia.
  - symmetry. apply Hpad. lia.
Qed.

(** A field narrower than a byte that straddles two bytes is not masked:
    the bits that precede it in the packet end up in its padding bits. *)
Theorem generic_extract_straddle data a b bit_offset bitwidth d0 rest :
  data = a :: b :: rest → byte_ok a → byte_ok b →
  0 ≤ bit_offset < 8 → 0 < bitwidth < 8 → 8 < bit_offset + bitwidth →
  ∃ d, generic_extract data bit_offset bitwidth [d0] = Some [d] ∧
    (∀ k, 0 ≤ k < 8 → Z.testbit d (7 - k) = bit_at data (k + (bit_offset - (8 - bitwidth)))) ∧
    (a = 255 → b = 255 → d = 255 ∧ ¬ extracted data [d0] bit_offset bitwidth [d]).
Proof.
  intros -> Ha Hb Hoff Hw Hstr.
  assert (nbytes_of bitwidth = 1) as Hn by (pose proof (nbytes_of_bounds bitwidth); lia).
  destruct (straddle_byte a b bit_offset bitwidth d0 [] rest) as [E Hbyte]; [done..|].
  set (o := bit_offset - (8 - bitwidth)) in *. eexists. split; [exact E|]. split; [exact Hbyte|].
  intros -> ->. assert (u8 (Z.lor (Z.shiftl 255 o) (Z.shiftr 255 (8 - o))) = 255) as ->.
  { apply (bits_inj_w 8); [apply byte_ok_u8|lia|]. intros i Hi.
    replace i with (7 - (7 - i)) by lia. rewrite window_bit by (done || lia).
    case_decide; rewrite !testbit_255, !bool_decide_true by lia; done. }
  split; [done|]. intros (_ & _ & Hbits & _). specialize (Hbits 0). rewrite Hn in Hbits.
  specialize (Hbits ltac:(lia)). rewrite bool_decide_false in Hbits by lia.
  change (true = false) in Hbits. done.
Qed.
End Extract.

(** ** Witnesses *)

Section witnesses.
Import Extract.

Lemma generic_extract_spec_witness :
  generic_extract [0xff; 0xff; 0xff] 6 13 [0; 0] = Some [0x1f; 0xff] ∧
  ∃ d, generic_extract [0xff; 0xff; 0xff] 6 13 [0; 0] = Some d ∧
    bit_at d 2 = false ∧ bit_at d 3 = bit_at [0xff; 0xff; 0xff] 6.
Proof.
  split; [reflexivity|].
  destruct (generic_extract_spec [0xff; 0xff; 0xff] [0; 0] 6 13) as (d & E & _ & _ & Hb & Hp & _);
    [by refine (bool_decide_unpack _ _)|by refine (bool_decide_unpack _ _)|
     lia|lia|vm_compute; congruence|vm_compute; congruence|].
  exists d. split; [exact E|]. change (8 * nbytes_of 13 - 13) with 3 in Hb, Hp. split; [exact (Hp 2 ltac:(lia))|exact (Hb 3 ltac:(lia))].
Defined.

Lemma padded_13 : padded [0x1f; 0xff] 13.
Proof.
  intros k Hk. change (8 * nbytes_of 13 - 13) with 3 in Hk.
  assert (k = 0 ∨ k = 1 ∨ k = 2) as [->|[->| ->]] by lia; done.
Defined.


Lemma extract_deparse_roundtrip_witness :
  ∃ d, generic_deparse [0x1f; 0xff] 13 [0xf0; 0; 0; 7] 6 = Some d ∧
    generic_extract d 6 13 [0; 0] = Some [0x1f; 0xff].
Proof.
  apply (extract_deparse_roundtrip [0x1f; 0xff] [0xf0; 0; 0; 7] [0; 0] 13 6);
    [by refine (bool_decide_unpack _ _)|by refine (bool_decide_unpack _ _)|
     by refine (bool_decide_unpack _ _)|lia|lia|done|done|vm_compute; congruence|
     apply padded_13|left; lia].
Defined.

Lemma generic_extract_straddle_witness :
  generic_extract [255; 255] 6 4 [0] = Some [255] ∧
  ∃ d, generic_extract [255; 255] 6 4 [0] = Some [d] ∧
    (∀ k, 0 ≤ k < 8 → Z.testbit d (7 - k) = bit_at [255; 255] (k + (6 - (8 - 4)))) ∧
    (255 = 255 → 255 = 255 → d = 255 ∧ ¬ extracted [255; 255] [0] 6 4 [d]).
Proof.
  split; [reflexivity|].
  apply (generic_extract_straddle [255; 255] 255 255 6 4 0 []); [done|done|done|lia..].
Defined.
End witnesses.
