(* ===== verification/HandleMgr.v ===== *)
(** * Handles (include/bm/bm_sim/handle_mgr.h)

    [HandleMgr] hands out the smallest free handle and is a thin layer over a
    Judy1 array, a third-party bit set over machine words. The Judy macros are
    the operations of the class [Judy1]; their documented behaviour is the
    class [Judy1Laws]; [Judy1_gset] is a concrete bit set. *)

From S2P Require Import Prelude.

(** ** The Judy1 interface *)

Class Judy1 (J : Type) := {
  J1_null : J;                        (** [(Pvoid_t) NULL] *)
  J1T : J → Z → bool;                 (** test *)
  J1S : J → Z → J * bool;             (** set; true when the bit was unset *)
  J1U : J → Z → J * bool;             (** unset; true when the bit was set *)
  J1C : J → Z → Z → Z;                (** count the set bits in a range *)
  J1F : J → Z → option Z;             (** first set index at or above *)
  J1N : J → Z → option Z;             (** next set index above *)
  J1FE : J → Z → option Z;            (** first empty index at or above *)
}.

(** The least index at or above [i] with property [P], as [J1F], [J1N], [J1FE] return it. *)
Definition least_from (P : Z → Prop) (i : Z) (o : option Z) : Prop :=
  match o with
  | Some k => i ≤ k ∧ word_ok k ∧ P k ∧ ∀ m, i ≤ m < k → ¬ P m
  | None => ∀ m, i ≤ m → word_ok m → ¬ P m
  end.

Class Judy1Laws (J : Type) `{!Judy1 J} := {
  J1T_null i : J1T J1_null i = false;
  J1S_set j i k : J1T (J1S j i).1 k = bool_decide (k = i) || J1T j k;
  J1S_rc j i : (J1S j i).2 = negb (J1T j i);
  J1U_unset j i k : J1T (J1U j i).1 k = negb (bool_decide (k = i)) && J1T j k;
  J1U_rc j i : (J1U j i).2 = J1T j i;
  J1C_count j a b (l : list Z) :
    NoDup l → (∀ k, k ∈ l ↔ a ≤ k ≤ b ∧ J1T j k = true) → J1C j a b = Z.of_nat (length l);
  J1F_least j i : 0 ≤ i → least_from (λ k, J1T j k = true) i (J1F j i);
  J1N_least j i : 0 ≤ i → least_from (λ k, J1T j k = true) (i + 1) (J1N j i);
  J1FE_least j i : 0 ≤ i → least_from (λ k, J1T j k = false) i (J1FE j i);
}.

(** ** A concrete bit set *)

Module Judy1Set.

(** The first of [n] indices from [i] on that satisfies [P]. *)
Fixpoint search (P : Z → bool) (n : nat) (i : Z) : option Z :=
  match n with
  | O => None
  | S n' => if P i then Some i else search P n' (i + 1)
  end.

Definition list_least (P : Z → bool) (l : list Z) : option Z :=
  foldr (λ k acc, if P k then Some (match acc with Some m => Z.min k m | None => k end) else acc)
    None l.

Definition word_okb (i : Z) : bool := (0 <=? i) && (i <? 2 ^ 64).

#[export] Instance Judy1_gset : Judy1 (gset Z) := {
  J1_null := ∅;
  J1T j i := bool_decide (i ∈ j);
  J1S j i := ({[i]} ∪ j, negb (bool_decide (i ∈ j)));
  J1U j i := (j ∖ {[i]}, bool_decide (i ∈ j));
  J1C j a b := Z.of_nat (size (filter (λ k, a ≤ k ≤ b) j));
  J1F j i := list_least (λ k, (i <=? k) && word_okb k) (elements j);
  J1N j i := list_least (λ k, (i + 1 <=? k) && word_okb k) (elements j);
  J1FE j i :=
    match search (λ k, negb (bool_decide (k ∈ j))) (S (size j)) i with
    | Some k => if word_okb k then Some k else None
    | None => None
    end;
}.

Lemma word_okb_ok i : word_okb i = true ↔ word_ok i.
Proof. unfold word_okb, word_ok. rewrite andb_true_iff, Z.leb_le, Z.ltb_lt. done. Qed.

Lemma list_least_spec P l :
  match list_least P l with
  | Some k => k ∈ l ∧ P k = true ∧ ∀ m, m ∈ l → P m = true → k ≤ m
  | None => ∀ m, m ∈ l → P m = false
  end.
Proof.
  induction l as [|x l IH]; simpl; [intros m Hm; by apply not_elem_of_nil in Hm|].
  destruct (P x) eqn:Px.
  - destruct (list_least P l) as [k|].
    + destruct IH as (Hk & Pk & Hmin). split_and!.
      * destruct (Z.min_spec x k) as [[_ ->]|[_ ->]]; set_solver.
      * destruct (Z.min_spec x k) as [[_ ->]|[_ ->]]; done.
      * intros m [->|Hm]%elem_of_cons Pm; [lia|]. specialize (Hmin m Hm Pm). lia.
    + split_and!; [set_solver|done|]. intros m [->|Hm]%elem_of_cons Pm; [lia|].
      specialize (IH m Hm). congruence.
  - destruct (list_least P l) as [k|].
    + destruct IH as (Hk & Pk & Hmin). split_and!; [set_solver|done|].
      intros m [->|Hm]%elem_of_cons Pm; [congruence|]. by apply Hmin.
    + intros m [->|Hm]%elem_of_cons; [done|]. by apply IH.
Qed.

Lemma list_least_from (j : gset Z) i : 
  0 ≤ i →
  least_from (λ k, bool_decide (k ∈ j) = true) i
    (list_least (λ k, (i <=? k) && word_okb k) (elements j)).
Proof.
  intros Hi. pose proof (list_least_spec (λ k, (i <=? k) && word_okb k) (elements j)) as H.
  unfold least_from. destruct (list_least _ _) as [k|].
  - destruct H as (Hk & [Hik%Z.leb_le Hw%word_okb_ok]%andb_true_iff & Hmin).
    split_and!; [done|done|by apply bool_decide_eq_true, elem_of_elements|].
    intros m Hm Hmj%bool_decide_eq_true.
    assert (k ≤ m); [|lia]. apply Hmin; [by apply elem_of_elements|].
    apply andb_true_iff. split; [apply Z.leb_le; lia|]. apply word_okb_ok.
    unfold word_ok in *. lia.
  - intros m Him Hw Hmj%bool_decide_eq_true.
    specialize (H m). rewrite elem_of_elements in H. specialize (H Hmj).
    apply andb_false_iff in H as [H%Z.leb_gt|H]; [lia|].
    apply word_okb_ok in Hw. congruence.
Qed.

Lemma search_spec P n i :
  match search P n i with
  | Some k => i ≤ k < i + Z.of_nat n ∧ P k = true ∧ ∀ m, i ≤ m < k → P m = false
  | None => ∀ m, i ≤ m < i + Z.of_nat n → P m = false
  end.
Proof.
  revert i. induction n as [|n IH]; intros i; simpl; [intros; lia|].
  destruct (P i) eqn:Pi; [split_and!; [lia|lia|done|intros; lia]|].
  specialize (IH (i + 1)). destruct (search P n (i + 1)) as [k|].
  - destruct IH as (? & ? & Hm). split_and!; [lia|lia|done|].
    intros m ?. destruct (decide (m = i)) as [->|]; [done|]. apply Hm. lia.
  - intros m ?. destruct (decide (m = i)) as [->|]; [done|]. apply IH. lia.
Qed.

(** A run of [size j + 1] indices is not all in [j]. *)
Lemma search_finds (j : gset Z) i :
  is_Some (search (λ k, negb (bool_decide (k ∈ j))) (S (size j)) i).
Proof.
  destruct (search _ _ _) eqn:E; [eauto|]. exfalso.
  pose proof (search_spec (λ k, negb (bool_decide (k ∈ j))) (S (size j)) i) as H.
  rewrite E in H.
  assert (list_to_set (seqZ i (Z.of_nat (S (size j)))) ⊆ j) as Hsub.
  { intros m. rewrite elem_of_list_to_set, elem_of_seqZ. intros Hm.
    specialize (H m Hm). apply negb_false_iff, bool_decide_eq_true in H. done. }
  apply subseteq_size in Hsub. rewrite size_list_to_set in Hsub by apply NoDup_seqZ.
  rewrite length_seqZ in Hsub. lia.
Qed.

#[export] Instance Judy1_gset_laws : Judy1Laws (gset Z).
Proof.
  constructor; cbn [J1_null J1T J1S J1U J1C J1F J1N J1FE Judy1_gset fst snd].
  - intros i. apply bool_decide_eq_false. set_solver.
  - intros j i k. apply eq_true_iff_eq.
    rewrite ?orb_true_iff, ?andb_true_iff, ?negb_true_iff, ?bool_decide_eq_true, ?bool_decide_eq_false.
    set_solver.
  - done.
  - intros j i k. apply eq_true_iff_eq.
    rewrite ?orb_true_iff, ?andb_true_iff, ?negb_true_iff, ?bool_decide_eq_true, ?bool_decide_eq_false.
    set_solver.
  - done.
  - intros j a b l Hnd Hl. f_equal.
    rewrite <- (size_list_to_set (C:=gset Z) l) by done. f_equal. apply set_eq. intros k.
    rewrite elem_of_list_to_set, elem_of_filter, Hl, bool_decide_eq_true. done.
  - intros j i Hi. by apply list_least_from.
  - intros j i Hi. apply list_least_from. lia.
  - intros j i Hi. pose proof (search_spec (λ k, negb (bool_decide (k ∈ j))) (S (size j)) i) as H.
    destruct (search_finds j i) as [k E]. rewrite E in *. destruct H as (? & Pk & Hm).
    unfold least_from. destruct (word_okb k) eqn:W.
    + split_and!; [lia|by apply word_okb_ok|by apply negb_true_iff|].
      intros m ? Hmj. specialize (Hm m ltac:(lia)).
      apply negb_false_iff in Hm. congruence.
    + intros m ? Hw Hmj. destruct (decide (m < k)).
      * specialize (Hm m ltac:(lia)). apply negb_false_iff in Hm. congruence.
      * assert (word_okb k = true); [|congruence]. apply word_okb_ok. unfold word_ok in *. lia.
Qed.

End Judy1Set.

(** ** The handle manager *)

Module HandleMgr.

Section definitions.
Context {J : Type} `{!Judy1 J}.

(** [get_handle]: [None] is the return code -1, [Some h] is 0 with [*handle = h]. *)
Definition get_handle (handles : J) : J * option Z :=
  match J1FE handles 0 with
  | None => (handles, None)
  | Some jhandle =>
      let '(handles', Rc) := J1S handles jhandle in
      if Rc then (handles', Some jhandle) else (handles', None)
  end.

(** [release_handle] and [set_handle] return 0 on success and -1 on failure. *)
Definition release_handle (handles : J) (handle : Z) : J * Z :=
  let '(handles', Rc) := J1U handles handle in (handles', if Rc then 0 else -1).

Definition set_handle (handles : J) (handle : Z) : J * Z :=
  let '(handles', Rc) := J1S handles handle in (handles', if Rc then 0 else -1).

Definition size (handles : J) : Z := J1C handles 0 word_max.

Definition valid_handle (handles : J) (handle : Z) : bool := J1T handles handle.

Definition clear (_ : J) : J := J1_null.

(** Iterators are indices; the end iterator is the index [-1], as a word. *)
Definition iter_end : Z := word_max.

Definition iter_begin (handles : J) : Z :=
  match J1F handles 0 with Some index => index | None => iter_end end.

Definition iter_next (handles : J) (index : Z) : Z :=
  match J1N handles index with Some jindex => jindex | None => iter_end end.

(** The handles a range-based [for] loop visits. [None]: out of fuel. *)
Fixpoint iterate_from (fuel : nat) (handles : J) (index : Z) : option (list Z) :=
  match fuel with
  | O => None
  | S fuel' =>
      if index =? iter_end then Some []
      else l ← iterate_from fuel' handles (iter_next handles index); Some (index :: l)
  end.

Definition iterate (fuel : nat) (handles : J) : option (list Z) :=
  iterate_from fuel handles (iter_begin handles).

(** The loop of the copy constructor. *)
Fixpoint copy_loop (fuel : nat) (other : J) (index : option Z) (handles : J) : option J :=
  match fuel with
  | O => None
  | S fuel' =>
      match index with
      | None => Some handles
      | Some i => copy_loop fuel' other (J1N other i) (J1S handles i).1
      end
  end.

Definition copy (fuel : nat) (other : J) : option J :=
  copy_loop fuel other (J1F other 0) J1_null.

(** ** The set a handle manager stands for *)

Definition rep (handles : J) (X : gset Z) : Prop :=
  (∀ k, J1T handles k = bool_decide (k ∈ X)) ∧ set_Forall word_ok X.

End definitions.

Section proofs.
Context {J : Type} `{Judy1Laws J}.
Implicit Types (j : J) (X : gset Z).

Lemma rep_null : rep (J1_null : J) ∅.
Proof.
  split; [intros k; rewrite J1T_null; symmetry; apply bool_decide_eq_false; set_solver|].
  by intros k ?%not_elem_of_empty.
Qed.

Lemma rep_test j X k : rep j X → J1T j k = true ↔ k ∈ X.
Proof. intros [HX _]. by rewrite HX, bool_decide_eq_true. Qed.

Lemma rep_test_false j X k : rep j X → J1T j k = false ↔ k ∉ X.
Proof. intros [HX _]. by rewrite HX, bool_decide_eq_false. Qed.

Lemma rep_set j X k : rep j X → word_ok k → rep (J1S j k).1 ({[k]} ∪ X).
Proof.
  intros [HX Hw] Hk. split.
  - intros m. rewrite J1S_set, HX. apply eq_true_iff_eq.
    rewrite orb_true_iff, !bool_decide_eq_true. set_solver.
  - intros m [->%elem_of_singleton|Hm]%elem_of_union; [done|by apply Hw].
Qed.

Lemma rep_unset j X k : rep j X → rep (J1U j k).1 (X ∖ {[k]}).
Proof.
  intros [HX Hw]. split.
  - intros m. rewrite J1U_unset, HX. apply eq_true_iff_eq.
    rewrite andb_true_iff, negb_true_iff, bool_decide_eq_false, !bool_decide_eq_true. set_solver.
  - intros m [Hm _]%elem_of_difference. by apply Hw.
Qed.

(** An initial segment contained in [X] is no longer than [X]. *)
Lemma segment_size X h : 0 ≤ h → (∀ m, 0 ≤ m < h → m ∈ X) → h ≤ Z.of_nat (base.size X).
Proof.
  intros Hh Hseg.
  assert (list_to_set (seqZ 0 h) ⊆ X) as Hsub.
  { intros m. rewrite elem_of_list_to_set, elem_of_seqZ. intros. apply Hseg. lia. }
  apply subseteq_size in Hsub. rewrite size_list_to_set in Hsub by apply NoDup_seqZ.
  rewrite length_seqZ in Hsub. lia.
Qed.

Lemma first_empty_finds j X :
  rep j X → Z.of_nat (base.size X) < 2 ^ 64 → is_Some (J1FE j 0).
Proof.
  intros HX Hsz. pose proof (J1FE_least j 0 ltac:(lia)) as HE.
  destruct (J1FE j 0) as [h|]; [eauto|]. exfalso. unfold least_from in HE.
  assert (2 ^ 64 ≤ Z.of_nat (base.size X)); [|lia].
  apply segment_size; [lia|]. intros m Hm. apply dec_stable. intros Hn.
  apply (HE m); [lia|unfold word_ok; lia|]. by apply (rep_test_false j X m).
Qed.

Lemma get_handle_least j X :
  rep j X → Z.of_nat (base.size X) < 2 ^ 64 →
  ∃ h, get_handle j = ((J1S j h).1, Some h) ∧ word_ok h ∧ h ∉ X ∧
    (∀ m, 0 ≤ m < h → m ∈ X) ∧ h ≤ Z.of_nat (base.size X) ∧ rep (J1S j h).1 ({[h]} ∪ X).
Proof.
  intros HX Hsz. destruct (first_empty_finds j X HX Hsz) as [h Eh].
  pose proof (J1FE_least j 0 ltac:(lia)) as HE. rewrite Eh in HE.
  destruct HE as (? & Hw & Hh & Hm). exists h.
  assert (∀ m, 0 ≤ m < h → m ∈ X) as Hseg.
  { intros m Hlt. apply (rep_test j X m HX). destruct (J1T j m) eqn:Em; [done|].
    by destruct (Hm m Hlt). }
  split_and!; [|done|by apply (rep_test_false j X h)|done|by apply segment_size|by apply rep_set].
  unfold get_handle. rewrite Eh. pose proof (J1S_rc j h) as Hrc. rewrite Hh in Hrc.
  destruct (J1S j h) as [j' rc]; simpl in *. by subst rc.
Qed.

Lemma release_handle_ok j X h :
  rep j X → h ∈ X → release_handle j h = ((J1U j h).1, 0) ∧ rep (J1U j h).1 (X ∖ {[h]}).
Proof.
  intros HX Hh. split; [|by apply rep_unset]. unfold release_handle.
  pose proof (J1U_rc j h) as Hrc. rewrite (proj2 (rep_test j X h HX) Hh) in Hrc.
  destruct (J1U j h) as [j' rc]; simpl in *. by subst rc.
Qed.

Lemma size_rep j X : rep j X → size j = Z.of_nat (base.size X).
Proof.
  intros HX. unfold size. rewrite (J1C_count j 0 word_max (elements X)).
  - done.
  - apply NoDup_elements.
  - intros k. rewrite elem_of_elements, (rep_test j X k HX). split; [|tauto].
    intros Hk. split; [|done]. pose proof (proj2 HX k Hk). unfold word_ok, word_max in *. lia.
Qed.

(** The elements of [X] at or above [lo]. *)
Definition above X (lo : Z) : gset Z := filter (λ k, lo ≤ k) X.

Lemma above_next X lo k :
  k ∈ X → lo ≤ k → (∀ m, lo ≤ m < k → m ∉ X) →
  above X lo = {[k]} ∪ above X (k + 1) ∧ k ∉ above X (k + 1).
Proof.
  intros Hk Hlo Hm. unfold above. split; [|rewrite elem_of_filter; lia].
  apply set_eq. intros m. rewrite elem_of_union, elem_of_singleton, !elem_of_filter.
  split; [|intros [->|[? ?]]; (split; [lia|done])].
  intros [Hlm Hx]. destruct (decide (m < k)); [by destruct (Hm m)|].
  destruct (decide (m = k)); [by left|right; split; [lia|done]].
Qed.

Lemma above_none X lo : (∀ m, lo ≤ m → m ∉ X) → above X lo = ∅.
Proof.
  intros Hm. apply set_eq. intros m. unfold above. rewrite elem_of_filter.
  split; [intros [? ?]; by destruct (Hm m)|by intros ?%not_elem_of_empty].
Qed.

(** What [J1F] and [J1N] say about the set. *)
Lemma least_from_rep j X lo o :
  rep j X → least_from (λ k, J1T j k = true) lo o →
  match o with
  | Some k => k ∈ X ∧ above X lo = {[k]} ∪ above X (k + 1) ∧ k ∉ above X (k + 1) ∧ lo ≤ k
  | None => above X lo = ∅
  end.
Proof.
  intros HX Ho. destruct o as [k|]; simpl in Ho.
  - destruct Ho as (? & ? & Hk & Hm). apply (rep_test j X k HX) in Hk.
    destruct (above_next X lo k) as [-> ?]; [done|done| |done].
    intros m Hlt Hmx. apply (Hm m Hlt). by apply (rep_test j X m).
  - apply above_none. intros m Hlo Hmx. apply (Ho m Hlo); [by apply (proj2 HX)|].
    by apply (rep_test j X m).
Qed.

Lemma iterate_from_spec j X fuel : ∀ lo o,
  rep j X → word_max ∉ X →
  least_from (λ k, J1T j k = true) lo o →
  (base.size (above X lo) < fuel)%nat →
  ∃ l, iterate_from fuel j (default iter_end o) = Some l ∧ StronglySorted Z.lt l ∧
    ∀ k, k ∈ l ↔ k ∈ above X lo.
Proof.
  induction fuel as [|fuel IH]; intros lo o HX Hmax Ho Hsz; [lia|].
  pose proof (least_from_rep j X lo o HX Ho) as Hrep. destruct o as [k|]; simpl.
  - destruct Hrep as (Hk & Habove & Hnew & Hlo).
    rewrite Habove, size_union, size_singleton in Hsz by set_solver.
    rewrite (proj2 (Z.eqb_neq k iter_end)) by (intros ->; done).
    pose proof (proj2 HX k Hk) as Hkw.
    destruct (IH (k + 1) (J1N j k) HX Hmax) as (l & Hl & Hsorted & Hin);
      [apply J1N_least; unfold word_ok in *; lia|lia|].
    exists (k :: l). split_and!.
    + unfold iter_next. change (match J1N j k with Some jindex => jindex | None => iter_end end)
        with (default iter_end (J1N j k)). by rewrite Hl.
    + constructor; [done|]. apply Forall_forall. intros m Hm%Hin.
      unfold above in Hm. rewrite elem_of_filter in Hm. lia.
    + intros m. rewrite elem_of_cons, Hin, Habove. set_solver.
  - exists []. split_and!; [done|constructor|]. rewrite Hrep. set_solver.
Qed.

Lemma above_0 X : set_Forall word_ok X → above X 0 = X.
Proof.
  intros Hw. apply set_eq. intros k. unfold above. rewrite elem_of_filter.
  split; [tauto|]. intros Hk. split; [|done]. pose proof (Hw k Hk). unfold word_ok in *. lia.
Qed.

Lemma copy_loop_spec j X fuel : ∀ lo o j' Y,
  rep j X → rep j' Y →
  least_from (λ k, J1T j k = true) lo o →
  (base.size (above X lo) < fuel)%nat →
  ∃ j'', copy_loop fuel j o j' = Some j'' ∧ rep j'' (above X lo ∪ Y).
Proof.
  induction fuel as [|fuel IH]; intros lo o j' Y HX HY Ho Hsz; [lia|].
  pose proof (least_from_rep j X lo o HX Ho) as Hrep. destruct o as [k|]; simpl.
  - destruct Hrep as (Hk & Habove & Hnew & Hlo).
    rewrite Habove, size_union, size_singleton in Hsz by set_solver.
    pose proof (proj2 HX k Hk) as Hkw.
    destruct (IH (k + 1) (J1N j k) (J1S j' k).1 ({[k]} ∪ Y)) as (j'' & Hl & Hj'');
      [done|by apply rep_set|apply J1N_least; unfold word_ok in *; lia|lia|].
    exists j''. split; [done|]. rewrite Habove.
    by replace ({[k]} ∪ above X (k + 1) ∪ Y) with (above X (k + 1) ∪ ({[k]} ∪ Y)) by set_solver.
  - exists j'. split; [done|]. rewrite Hrep. by replace (∅ ∪ Y) with Y by set_solver.
Qed.

(** ** Properties *)

(** Allocation returns the least free handle and marks exactly that one;
    in a set of [n] handles it is at most [n], and it fails only when all
    [2^64] words are taken. Releasing it restores the set. *)
Theorem get_handle_release j X :
  rep j X → Z.of_nat (base.size X) < 2 ^ 64 →
  ∃ h j', get_handle j = (j', Some h) ∧ h ∉ X ∧ (∀ m, 0 ≤ m < h → m ∈ X) ∧
    h ≤ Z.of_nat (base.size X) ∧ rep j' ({[h]} ∪ X) ∧ size j' = size j + 1 ∧
    valid_handle j' h = true ∧
    ∃ j'', release_handle j' h = (j'', 0) ∧ rep j'' X ∧ valid_handle j'' h = false.
Proof.
  intros HX Hsz. destruct (get_handle_least j X HX Hsz) as (h & Hget & Hw & Hh & Hm & Hle & HX').
  exists h, (J1S j h).1. split_and!; [done..| | |].
  - rewrite (size_rep _ _ HX), (size_rep _ _ HX'), size_union, size_singleton by set_solver. lia.
  - apply (rep_test _ _ h HX'). set_solver.
  - destruct (release_handle_ok _ _ h HX') as [Hrel HX'']; [set_solver|].
    eexists. split; [done|]. replace (({[h]} ∪ X) ∖ {[h]}) with X in HX'' by set_solver.
    split; [done|]. by apply (rep_test_false _ _ h HX'').
Qed.

Lemma iterate_ok j X :
  rep j X → word_max ∉ X →
  ∃ l, iterate (S (base.size X)) j = Some l ∧ StronglySorted Z.lt l ∧ ∀ k, k ∈ l ↔ k ∈ X.
Proof.
  intros HX Hmax. pose proof (above_0 X (proj2 HX)) as Hab.
  destruct (iterate_from_spec j X (S (base.size X)) 0 (J1F j 0)) as (l & Hl & ? & Hin);
    [done|done|by apply J1F_least|rewrite Hab; lia|].
  exists l. rewrite Hab in Hin. split; [|done]. exact Hl.
Qed.

(** Iterating over a handle manager visits every handle exactly once, in
    increasing order, and terminates within [size + 1] steps, and the copy
    constructor copies every handle, within [size + 1] steps. The handle that
    is the end marker itself must not be in use. *)
Theorem iterate_visits_all j X :
  rep j X → word_max ∉ X →
  (∃ l, iterate (S (base.size X)) j = Some l ∧ StronglySorted Z.lt l ∧ ∀ k, k ∈ l ↔ k ∈ X) ∧
  (∃ j', copy (S (base.size X)) j = Some j' ∧ rep j' X).
Proof.
  intros HX Hmax. pose proof (above_0 X (proj2 HX)) as Hab. split.
  - by apply iterate_ok.
  - destruct (copy_loop_spec j X (S (base.size X)) 0 (J1F j 0) J1_null ∅) as (j' & Hj' & Hrep);
      [done|apply rep_null|by apply J1F_least|rewrite Hab; lia|].
    exists j'. split; [done|]. by rewrite Hab, (right_id_L ∅ (∪)) in Hrep.
Qed.
End proofs.
End HandleMgr.

(** ** Witnesses *)

Section witnesses.
Import Judy1Set HandleMgr.

Lemma rep_gset (X : gset Z) : set_Forall word_ok X → rep X X.
Proof. intros HX. by split. Defined.

Lemma rep_example : rep ({[0; 1; 3]} : gset Z) {[0; 1; 3]}.
Proof. apply rep_gset. intros k Hk. unfold word_ok. set_unfold in Hk. lia. Defined.

Lemma get_handle_release_witness :
  ∃ h j', get_handle ({[0; 1; 3]} : gset Z) = (j', Some h) ∧ h ∉ ({[0; 1; 3]} : gset Z) ∧
    (∀ m, 0 ≤ m < h → m ∈ ({[0; 1; 3]} : gset Z)) ∧
    h ≤ Z.of_nat (base.size ({[0; 1; 3]} : gset Z)) ∧ rep j' ({[h]} ∪ {[0; 1; 3]}) ∧
    size j' = size ({[0; 1; 3]} : gset Z) + 1 ∧ valid_handle j' h = true ∧
    ∃ j'', release_handle j' h = (j'', 0) ∧ rep j'' {[0; 1; 3]} ∧ valid_handle j'' h = false.
Proof. apply (get_handle_release ({[0; 1; 3]} : gset Z)); [apply rep_example|vm_compute; done]. Defined.

Lemma iterate_visits_all_witness :
  (∃ l, iterate 4 ({[0; 1; 3]} : gset Z) = Some l ∧ StronglySorted Z.lt l ∧
    ∀ k, k ∈ l ↔ k ∈ ({[0; 1; 3]} : gset Z)) ∧
  (∃ j', copy 4 ({[0; 1; 3]} : gset Z) = Some j' ∧ rep j' {[0; 1; 3]}).
Proof.
  refine (iterate_visits_all {[0; 1; 3]} {[0; 1; 3]} rep_example _).
  refine (bool_decide_unpack _ _). vm_compute. done.
Defined.
End witnesses.
