(* ===== verification/LpmTrie.v ===== *)
(** * Longest prefix match (src/bf_lpm_trie/bf_lpm_trie.c, src/bm_sim/lpm_trie.h)

    A trie with one level per key byte. A node keeps its children in one JudyL
    array and the prefixes that end within its byte in another one, under the
    16-bit key of [get_prefix_key]. The nodes live in a store of addresses, as
    they do in C: parent pointers, [malloc] and [free] included. The JudyL
    arrays are third-party code: the class [JudyL] and its laws. *)

From S2P Require Import Prelude.

(** ** The JudyL interface: an array of words indexed by words *)

Class JudyL (J : Type) := {
  JL_null : J;                       (** [(Pvoid_t) NULL] *)
  JLG : J → Z → option Z;            (** get: the word stored at an index *)
  JLI : J → Z → J;                   (** insert: a zero word unless there is one *)
  JLW : J → Z → Z → J;               (** write through the pointer [JLI] returns *)
  JLD : J → Z → J * bool;            (** delete; true when the index was present *)
}.

Class JudyLLaws (J : Type) `{!JudyL J} := {
  JLG_null k : JLG JL_null k = None;
  JLG_insert j i k : JLG (JLI j i) k = if decide (k = i) then Some (default 0 (JLG j i)) else JLG j k;
  JLG_write j i v k : is_Some (JLG j i) →
    JLG (JLW j i v) k = if decide (k = i) then Some v else JLG j k;
  JLG_delete j i k : JLG (JLD j i).1 k = if decide (k = i) then None else JLG j k;
  JLD_rc j i : (JLD j i).2 = bool_decide (is_Some (JLG j i));
}.

(** A concrete array, to evaluate the definitions. *)
Module JudyLMap.
#[export] Instance JudyL_gmap : JudyL (gmap Z Z) := {
  JL_null := ∅;
  JLG j i := j !! i;
  JLI j i := <[i := default 0 (j !! i)]> j;
  JLW j i v := <[i := v]> j;
  JLD j i := (delete i j, bool_decide (is_Some (j !! i)));
}.

#[export] Instance JudyL_gmap_laws : JudyLLaws (gmap Z Z).
Proof.
  constructor; cbn [JL_null JLG JLI JLW JLD JudyL_gmap fst snd]; intros.
  - apply lookup_empty.
  - rewrite lookup_insert. repeat case_decide; congruence.
  - rewrite lookup_insert. repeat case_decide; congruence.
  - rewrite lookup_delete. repeat case_decide; congruence.
  - done.
Qed.
End JudyLMap.

(** ** The trie *)

Module LpmTrie.

Record node (J : Type) := Node {
  PJLarray_branches : J;
  PJLarray_prefixes : J;
  branch_num : Z;   (** unsigned char *)
  pref_num : Z;     (** unsigned char *)
  parent : Z;       (** address, 0 is NULL *)
  child_id : Z;     (** byte *)
}.
Arguments Node {J} _ _ _ _ _ _.
Arguments PJLarray_branches {J} _.
Arguments PJLarray_prefixes {J} _.
Arguments branch_num {J} _.
Arguments pref_num {J} _.
Arguments parent {J} _.
Arguments child_id {J} _.

(** [bf_lpm_trie_t], with the store its nodes are in. *)
Record trie (J : Type) := Trie {
  heap : gmap Z (node J);
  root : Z;
  key_width_bytes : Z;
  release_memory : bool;
}.
Arguments Trie {J} _ _ _ _.
Arguments heap {J} _.
Arguments root {J} _.
Arguments key_width_bytes {J} _.
Arguments release_memory {J} _.

(** [malloc] returns some address that is neither null nor in use. *)
Definition malloc {A} (h : gmap Z A) : Z := foldr Z.max 0 (map_to_list h).*1 + 1.

Section definitions.
Context {J : Type} `{!JudyL J}.
Implicit Types (h : gmap Z (node J)) (n : node J).

(** [allocate_node]: a node of zeroes. *)
Definition zero_node : node J := Node JL_null JL_null 0 0 0 0.

Definition bf_lpm_trie_create (key_width_bytes : Z) (auto_shrink : bool) : option (trie J) :=
  if key_width_bytes <=? 64 then
    let root := malloc (∅ : gmap Z (node J)) in
    Some (Trie {[root := zero_node]} root key_width_bytes auto_shrink)
  else None.

Definition get_next_node n (byte : Z) : Z :=
  match JLG (PJLarray_branches n) byte with Some p => p | None => 0 end.

Definition set_next_node n (byte next_node : Z) : node J :=
  Node (JLW (JLI (PJLarray_branches n) byte) byte next_node) (PJLarray_prefixes n)
    (branch_num n) (pref_num n) (parent n) (child_id n).

Definition delete_branch n (byte : Z) : node J * bool :=
  let '(b, rc) := JLD (PJLarray_branches n) byte in
  (Node b (PJLarray_prefixes n) (branch_num n) (pref_num n) (parent n) (child_id n), rc).

Definition get_prefix_key (prefix_length byte : Z) : Z :=
  if prefix_length =? 0 then 0
  else wrap 16 (Z.shiftr byte (8 - prefix_length) + Z.shiftl prefix_length 8).

(** Returns true when a non-zero value was present. *)
Definition insert_prefix n (prefix_key value : Z) : node J * bool :=
  let p := JLI (PJLarray_prefixes n) prefix_key in
  let rc := match JLG p prefix_key with Some v => negb (v =? 0) | None => false end in
  (Node (PJLarray_branches n) (JLW p prefix_key value)
    (branch_num n) (pref_num n) (parent n) (child_id n), rc).

Definition get_prefix_ptr n (prefix_key : Z) : option Z := JLG (PJLarray_prefixes n) prefix_key.

Definition delete_prefix n (prefix_key : Z) : node J * bool :=
  let '(p, rc) := JLD (PJLarray_prefixes n) prefix_key in
  (Node (PJLarray_branches n) p (branch_num n) (pref_num n) (parent n) (child_id n), rc).

Definition with_branch_num n (b : Z) : node J :=
  Node (PJLarray_branches n) (PJLarray_prefixes n) b (pref_num n) (parent n) (child_id n).
Definition with_pref_num n (p : Z) : node J :=
  Node (PJLarray_branches n) (PJLarray_prefixes n) (branch_num n) p (parent n) (child_id n).

(** Reading the key of the last, partial byte; [None] reads past the buffer. *)
Definition tail_key (prefix : list Z) (prefix_length : Z) : option Z :=
  if prefix_length =? 0 then Some 0
  else match prefix with byte :: _ => Some (get_prefix_key prefix_length byte) | [] => None end.

(** The loop of [bf_lpm_trie_insert]. *)
Fixpoint insert_loop h (current_node : Z) (prefix : list Z) (prefix_length : Z)
    : option (gmap Z (node J) * Z * list Z * Z) :=
  if prefix_length <? 8 then Some (h, current_node, prefix, prefix_length) else
  match prefix with
  | [] => None
  | byte :: prefix' =>
      n ← h !! current_node;
      let next := get_next_node n byte in
      if next =? 0 then
        let next := malloc h in
        let h := <[next := Node JL_null JL_null 0 0 current_node byte]> h in
        let n := set_next_node n byte next in
        let h := <[current_node := with_branch_num n (u8 (branch_num n + 1))]> h in
        insert_loop h next prefix' (prefix_length - 8)
      else insert_loop h next prefix' (prefix_length - 8)
  end.

Definition bf_lpm_trie_insert (t : trie J) (prefix : list Z) (prefix_length value : Z)
    : option (trie J) :=
  '(h, current_node, prefix, prefix_length) ← insert_loop (heap t) (root t) prefix prefix_length;
  prefix_key ← tail_key prefix prefix_length;
  n ← h !! current_node;
  let '(n, rc) := insert_prefix n prefix_key value in
  let n := if rc then n else with_pref_num n (u8 (pref_num n + 1)) in
  Some (Trie (<[current_node := n]> h) (root t) (key_width_bytes t) (release_memory t)).

(** The loop of [bf_lpm_trie_retrieve_value] and [bf_lpm_trie_delete]: inner
    [None] when a node is missing, outer [None] reading past the buffer. *)
Fixpoint walk_loop h (current_node : Z) (prefix : list Z) (prefix_length : Z)
    : option (option (Z * list Z * Z)) :=
  if prefix_length <? 8 then Some (Some (current_node, prefix, prefix_length)) else
  match prefix with
  | [] => None
  | byte :: prefix' =>
      n ← h !! current_node;
      let next := get_next_node n byte in
      if next =? 0 then Some None else walk_loop h next prefix' (prefix_length - 8)
  end.

Definition bf_lpm_trie_retrieve_value (t : trie J) (prefix : list Z) (prefix_length : Z)
    : option (option Z) :=
  r ← walk_loop (heap t) (root t) prefix prefix_length;
  match r with
  | None => Some None
  | Some (current_node, prefix, prefix_length) =>
      prefix_key ← tail_key prefix prefix_length;
      n ← heap t !! current_node;
      Some (get_prefix_ptr n prefix_key)
  end.

Definition bf_lpm_trie_has_prefix (t : trie J) (prefix : list Z) (prefix_length : Z) : option bool :=
  r ← bf_lpm_trie_retrieve_value t prefix prefix_length;
  Some (match r with Some _ => true | None => false end).

(** [for (i = 7; i > 0; i--)]: the longest partial-byte prefix at a node. *)
Fixpoint lookup_bits n (byte : Z) (i : nat) (acc : option Z) : option Z :=
  match i with
  | O => acc
  | S i' =>
      match get_prefix_ptr n (get_prefix_key (Z.of_nat i) byte) with
      | Some v => Some v
      | None => lookup_bits n byte i' acc
      end
  end.

Fixpoint lookup_loop h (current_node : Z) (key : list Z) (key_width : nat) (acc : option Z)
    {struct key_width} : option (option Z) :=
  if current_node =? 0 then Some acc else
  n ← h !! current_node;
  let acc := match get_prefix_ptr n 0 with Some v => Some v | None => acc end in
  match key_width with
  | O => Some acc
  | S key_width' =>
      match key with
      | [] => None
      | byte :: key' =>
          lookup_loop h (get_next_node n byte) key' key_width' (lookup_bits n byte 7 acc)
      end
  end.

Definition bf_lpm_trie_lookup (t : trie J) (key : list Z) : option (option Z) :=
  lookup_loop (heap t) (root t) key (Z.to_nat (key_width_bytes t)) None.

(** The loop that frees the nodes left empty, from [current_node] upwards. *)
Fixpoint shrink_loop (fuel : nat) h (current_node : Z) : option (gmap Z (node J)) :=
  match fuel with
  | O => None
  | S fuel' =>
      n ← h !! current_node;
      if (pref_num n =? 0) && (branch_num n =? 0) then
        let tmp := n in
        let tmp_addr := current_node in
        let current_node := parent n in
        if current_node =? 0 then Some h else
        n ← h !! current_node;
        let '(n, success) := delete_branch n (child_id tmp) in
        if success then
          let h := delete tmp_addr h in
          let h := <[current_node := with_branch_num n (u8 (branch_num n - 1))]> h in
          shrink_loop fuel' h current_node
        else None
      else Some h
  end.

Definition bf_lpm_trie_delete (t : trie J) (prefix : list Z) (prefix_length : Z)
    : option (trie J * bool) :=
  r ← walk_loop (heap t) (root t) prefix prefix_length;
  match r with
  | None => Some (t, false)
  | Some (current_node, prefix', prefix_length') =>
      prefix_key ← tail_key prefix' prefix_length';
      n ← heap t !! current_node;
      match get_prefix_ptr n prefix_key with
      | None => Some (t, false)
      | Some _ =>
          if release_memory t then
            let '(n, success) := delete_prefix n prefix_key in
            if success then
              let n := with_pref_num n (u8 (pref_num n - 1)) in
              h ← shrink_loop (S (S (length prefix))) (<[current_node := n]> (heap t)) current_node;
              Some (Trie h (root t) (key_width_bytes t) (release_memory t), true)
            else None
          else Some (t, true)
      end
  end.
End definitions.

Module Examples.
Import JudyLMap.

Definition ins (o : option (trie (gmap Z Z))) p n v := t ← o; bf_lpm_trie_insert t p n v.
Definition t0 := bf_lpm_trie_create (J := gmap Z Z) 4 true.
Definition t1 := ins (ins (ins t0 [10] 8 1) [10; 1] 16 2) [10; 64] 10 3.

Example lookup_16 : (t ← t1; bf_lpm_trie_lookup t [10; 1; 2; 3]) = Some (Some 2).
Proof. vm_compute. reflexivity. Qed.
Example lookup_10 : (t ← t1; bf_lpm_trie_lookup t [10; 70; 2; 3]) = Some (Some 3).
Proof. vm_compute. reflexivity. Qed.
Example lookup_8 : (t ← t1; bf_lpm_trie_lookup t [10; 170; 2; 3]) = Some (Some 1).
Proof. vm_compute. reflexivity. Qed.
Example lookup_deleted :
  (t ← t1; '(t, _) ← bf_lpm_trie_delete t [10; 1] 16; bf_lpm_trie_lookup t [10; 1; 2; 3])
  = Some (Some 1).
Proof. vm_compute. reflexivity. Qed.
End Examples.


(** ** Paths and well-formed stores *)

Section paths.
Context {J : Type} `{!JudyL J}.
Implicit Types (h : gmap Z (node J)) (n : node J) (l c : Z) (p q : list Z).

(** The child of the node at [l] for a byte. *)
Definition next h l (b : Z) : option Z := n ← h !! l; JLG (PJLarray_branches n) b.

(** The node a byte string leads to. *)
Fixpoint find h l p : option Z :=
  match p with
  | [] => Some l
  | b :: p' => c ← next h l b; find h c p'
  end.

(** The value stored for a path and a prefix key. *)
Definition value_at h l p (k : Z) : option Z :=
  c ← find h l p; n ← h !! c; JLG (PJLarray_prefixes n) k.

Definition all_bytes : list Z := seqZ 0 256.

(** The 255 values of [get_prefix_key]. *)
Definition prefix_keys : list Z :=
  0 :: mjoin ((λ i, (λ v, 256 * i + v) <$> seqZ 0 (2 ^ i)) <$> seqZ 1 7).

Definition count (j : J) (ks : list Z) : Z := Z.of_nat (length (filter (λ k, is_Some (JLG j k)) ks)).

(** The tree structure of the store, and what the counters count, modulo 256. *)
Record wf h (root : Z) : Prop := {
  wf_root : ∃ r, h !! root = Some r ∧ parent r = 0;
  wf_null : h !! 0 = None;
  wf_child l n b c : h !! l = Some n → JLG (PJLarray_branches n) b = Some c →
    byte_ok b ∧ ∃ m, h !! c = Some m ∧ parent m = l ∧ child_id m = b;
  wf_parent l m : h !! l = Some m → l ≠ root →
    ∃ n, h !! parent m = Some n ∧ JLG (PJLarray_branches n) (child_id m) = Some l;
  wf_keys l n k v : h !! l = Some n → JLG (PJLarray_prefixes n) k = Some v → k ∈ prefix_keys;
  wf_branches l n : h !! l = Some n → branch_num n = u8 (count (PJLarray_branches n) all_bytes);
  wf_prefixes l n : h !! l = Some n → pref_num n = u8 (count (PJLarray_prefixes n) prefix_keys);
}.

(** No node has all its 256 branches, so [branch_num] does not wrap. *)
Definition no_full h : Prop :=
  ∀ l n, h !! l = Some n → count (PJLarray_branches n) all_bytes < 256.

End paths.

Lemma NoDup_all_bytes : NoDup all_bytes.
Proof. apply NoDup_seqZ. Qed.

Lemma elem_of_all_bytes b : b ∈ all_bytes ↔ byte_ok b.
Proof. unfold all_bytes, byte_ok. rewrite elem_of_seqZ. lia. Qed.

Lemma NoDup_prefix_keys : NoDup prefix_keys.
Proof. refine (bool_decide_unpack _ _). vm_compute. exact I. Qed.

Lemma malloc_fresh {A} (h : gmap Z A) : h !! malloc h = None ∧ malloc h ≠ 0.
Proof.
  unfold malloc. set (m := foldr Z.max 0 (map_to_list h).*1).
  assert (∀ (l : list Z), 0 ≤ foldr Z.max 0 l ∧ ∀ x, x ∈ l → x ≤ foldr Z.max 0 l) as Hmax.
  { induction l as [|y l [IH1 IH2]]; simpl; [split; [lia|by intros ? ?%not_elem_of_nil]|].
    split; [lia|]. intros x [->|Hx%IH2]%elem_of_cons; lia. }
  destruct (Hmax (map_to_list h).*1) as [H0 Hle]. fold m in H0, Hle. split; [|lia].
  destruct (h !! (m + 1)) as [a|] eqn:E; [|done].
  assert (m + 1 ≤ m); [|lia]. apply Hle. apply list_elem_of_fmap.
  exists (m + 1, a). split; [done|]. by apply elem_of_map_to_list.
Qed.

Section counting.
Context {J : Type} `{JudyLLaws J}.
Implicit Types (j : J).

Lemma count_same j j' ks :
  (∀ k, is_Some (JLG j' k) ↔ is_Some (JLG j k)) → count j' ks = count j ks.
Proof. intros Hk. unfold count. f_equal. f_equal. by apply list_filter_iff. Qed.

Lemma count_null ks : count (JL_null : J) ks = 0.
Proof.
  unfold count. induction ks as [|k ks IH]; [done|].
  rewrite filter_cons_False; [done|]. rewrite JLG_null. by intros [? ?].
Qed.

Lemma count_nonneg j ks : 0 ≤ count j ks.
Proof. unfold count. lia. Qed.

Lemma count_le j ks : count j ks ≤ Z.of_nat (length ks).
Proof. unfold count. pose proof (length_filter (λ k, is_Some (JLG j k)) ks). lia. Qed.

(** A count is zero exactly when nothing is present. *)
Lemma count_zero j ks k : count j ks = 0 → k ∈ ks → JLG j k = None.
Proof.
  unfold count. intros H0 Hk. destruct (JLG j k) eqn:E; [|done].
  assert (k ∈ filter (λ k, is_Some (JLG j k)) ks) as Hin by (apply list_elem_of_filter; eauto).
  destruct (filter _ ks); [by apply not_elem_of_nil in Hin|simpl in H0; lia].
Qed.

(** Adding one index. *)
Lemma count_add j j' ks k :
  NoDup ks → k ∈ ks → JLG j k = None → is_Some (JLG j' k) →
  (∀ k', k' ≠ k → is_Some (JLG j' k') ↔ is_Some (JLG j k')) →
  count j' ks = count j ks + 1.
Proof.
  intros Hnd Hk Hn Hs Hsame. unfold count.
  induction ks as [|x ks IH]; [by apply not_elem_of_nil in Hk|].
  apply NoDup_cons in Hnd as [Hx Hnd]. apply elem_of_cons in Hk as [->|Hk].
  - rewrite filter_cons_True, filter_cons_False; [|by rewrite Hn; intros [? ?]|done].
    simpl. assert (filter (λ k, is_Some (JLG j' k)) ks = filter (λ k, is_Some (JLG j k)) ks) as ->; [|lia].
    clear IH. induction ks as [|y ks IH]; [done|]. apply not_elem_of_cons in Hx as [Hxy Hx].
    apply NoDup_cons in Hnd as [_ Hnd]. rewrite !filter_cons, IH by done.
    destruct (decide (is_Some (JLG j' y))) as [e|e], (decide (is_Some (JLG j y))) as [e'|e'];
      try done; rewrite Hsame in e by done; done.
  - assert (x ≠ k) by (intros ->; done). rewrite !filter_cons. specialize (IH Hnd Hk).
    destruct (decide (is_Some (JLG j' x))) as [e|e], (decide (is_Some (JLG j x))) as [e'|e'];
      simpl; try lia; rewrite Hsame in e by done; done.
Qed.

Lemma u8_succ x : u8 (u8 x + 1) = u8 (x + 1).
Proof. unfold wrap. by rewrite Z.add_mod_idemp_l. Qed.

Lemma u8_pred x : u8 (u8 (x + 1) - 1) = u8 x.
Proof. unfold wrap. rewrite Zminus_mod_idemp_l. f_equal. lia. Qed.
End counting.


Section stores.
Context {J : Type} `{JudyLLaws J}.
Implicit Types (h : gmap Z (node J)) (n m : node J) (l c x : Z) (p q : list Z).

Lemma next_Some h l b c :
  next h l b = Some c ↔ ∃ n, h !! l = Some n ∧ JLG (PJLarray_branches n) b = Some c.
Proof. unfold next. rewrite bind_Some. done. Qed.

Lemma find_app h l p q : find h l (p ++ q) = c ← find h l p; find h c q.
Proof.
  revert l. induction p as [|b p IH]; intros l; simpl; [done|].
  destruct (next h l b); simpl; [apply IH|done].
Qed.

Lemma find_dom h root p x : wf h root → find h root p = Some x → is_Some (h !! x).
Proof.
  intros Hwf. assert (∀ p l, is_Some (h !! l) → find h l p = Some x → is_Some (h !! x)) as Hgen.
  { clear p. induction p as [|b p IH]; simpl; intros l Hl Hf; [by simplify_eq|].
    destruct (next h l b) as [c|] eqn:Ec; [|done]. apply (IH c); [|done].
    apply next_Some in Ec as (n & Hn & Hc).
    destruct (wf_child _ _ Hwf _ _ _ _ Hn Hc) as (_ & m & Hm & _). eauto. }
  apply Hgen. destruct (wf_root _ _ Hwf) as (r & Hr & _). eauto.
Qed.

(** A node has one path: the tree is a tree. *)
Lemma find_inj h root p : ∀ q x,
  wf h root → find h root p = Some x → find h root q = Some x → p = q.
Proof.
  induction p as [|b p IH] using rev_ind; intros q x Hwf Hp Hq.
  - destruct q as [|b' q _] using rev_ind; [done|]. exfalso. simpl in Hp. simplify_eq.
    rewrite find_app in Hq. destruct (find h x q) as [y|]; [|done]. simpl in Hq.
    destruct (next h y b') as [z|] eqn:Ey; [|done]. simplify_eq/=.
    apply next_Some in Ey as (n & Hn & Hc).
    destruct (wf_child _ _ Hwf _ _ _ _ Hn Hc) as (_ & m & Hm & Hpar & _).
    destruct (wf_root _ _ Hwf) as (r & Hr & Hr0). pose proof (wf_null _ _ Hwf). congruence.
  - rewrite find_app in Hp. destruct (find h root p) as [y|] eqn:Ey; [|done]. simpl in Hp.
    destruct (next h y b) as [z|] eqn:Ez; [|done]. simplify_eq/=.
    apply next_Some in Ez as (n & Hn & Hc).
    destruct (wf_child _ _ Hwf _ _ _ _ Hn Hc) as (_ & m & Hm & Hpar & Hid).
    destruct q as [|b' q _] using rev_ind.
    + exfalso. simpl in Hq. simplify_eq. destruct (wf_root _ _ Hwf) as (r & Hr & Hr0).
      pose proof (wf_null _ _ Hwf). congruence.
    + rewrite find_app in Hq. destruct (find h root q) as [y'|] eqn:Ey'; [|done]. simpl in Hq.
      destruct (next h y' b') as [z'|] eqn:Ez'; [|done]. simplify_eq/=.
      apply next_Some in Ez' as (n' & Hn' & Hc').
      destruct (wf_child _ _ Hwf _ _ _ _ Hn' Hc') as (_ & m' & Hm' & Hpar' & Hid').
      assert (m' = m) by congruence. subst.
      f_equal. by apply (IH q (parent m)).
Qed.

Lemma get_next_node_next h root l n b :
  wf h root → h !! l = Some n →
  match next h l b with
  | Some c => get_next_node n b = c ∧ c ≠ 0
  | None => get_next_node n b = 0
  end.
Proof.
  intros Hwf Hn. unfold next, get_next_node. rewrite Hn. simpl.
  destruct (JLG (PJLarray_branches n) b) as [c|] eqn:Ec; [|done]. split; [done|].
  destruct (wf_child _ _ Hwf _ _ _ _ Hn Ec) as (_ & m & Hm & _). intros ->.
  pose proof (wf_null _ _ Hwf). congruence.
Qed.

Lemma value_at_None h root p k : find h root p = None → value_at h root p k = None.
Proof. unfold value_at. by intros ->. Qed.

Lemma value_at_Some h root p k x n :
  find h root p = Some x → h !! x = Some n → value_at h root p k = JLG (PJLarray_prefixes n) k.
Proof. unfold value_at. intros -> Hn. simpl. by rewrite Hn. Qed.

Lemma value_at_key h root p k v : wf h root → value_at h root p k = Some v → k ∈ prefix_keys.
Proof.
  unfold value_at. intros Hwf Hv. destruct (find h root p) as [x|]; [|done]. simpl in Hv.
  destruct (h !! x) as [n|] eqn:Hn; [|done]. by eapply wf_keys.
Qed.

(** A node whose counters are zero has nothing, unless it is full. *)
Lemma empty_node h root l n :
  wf h root → no_full h → h !! l = Some n → pref_num n = 0 → branch_num n = 0 →
  (∀ k, JLG (PJLarray_prefixes n) k = None) ∧ (∀ b, JLG (PJLarray_branches n) b = None).
Proof.
  intros Hwf Hfull Hn Hp Hb.
  rewrite (wf_prefixes _ _ Hwf l n Hn), wrap_small in Hp.
  2: { pose proof (count_nonneg (PJLarray_prefixes n) prefix_keys).
       pose proof (count_le (PJLarray_prefixes n) prefix_keys) as Hle.
       change (length prefix_keys) with 255%nat in Hle. lia. }
  rewrite (wf_branches _ _ Hwf l n Hn), wrap_small in Hb.
  2: { pose proof (count_nonneg (PJLarray_branches n) all_bytes). pose proof (Hfull l n Hn). lia. }
  split.
  - intros k. destruct (JLG (PJLarray_prefixes n) k) eqn:E; [|done].
    pose proof (wf_keys _ _ Hwf _ _ _ _ Hn E). rewrite <- E. by eapply count_zero.
  - intros b. destruct (JLG (PJLarray_branches n) b) eqn:E; [|done].
    destruct (wf_child _ _ Hwf _ _ _ _ Hn E) as [Hok _]. rewrite <- E.
    eapply count_zero; [done|by apply elem_of_all_bytes].
Qed.
End stores.

(** ** Growing the tree by a node *)

Section grow.
Context {J : Type} `{JudyLLaws J}.
Variables (h : gmap Z (node J)) (root cur b : Z) (n : node J).
Hypothesis Hwf : wf h root.
Hypothesis Hn : h !! cur = Some n.
Hypothesis Hb : byte_ok b.
Hypothesis Hnone : JLG (PJLarray_branches n) b = None.

#[local] Abbreviation new := (malloc h).
#[local] Abbreviation n' :=
  (with_branch_num (set_next_node n b new) (u8 (branch_num (set_next_node n b new) + 1))).
#[local] Abbreviation h' := (<[cur := n']> (<[new := Node JL_null JL_null 0 0 cur b]> h)).

Lemma grow_fresh : h !! new = None ∧ new ≠ 0 ∧ new ≠ cur.
Proof.
  destruct (malloc_fresh h) as [Hf H0]. split_and!; [done|done|]. congruence.
Qed.

Lemma grow_lookup l :
  h' !! l = if decide (l = cur) then Some n'
            else if decide (l = new) then Some (Node JL_null JL_null 0 0 cur b) else h !! l.
Proof. rewrite !lookup_insert. repeat case_decide; congruence. Qed.

Lemma grow_branches k :
  JLG (PJLarray_branches n') k = if decide (k = b) then Some new else JLG (PJLarray_branches n) k.
Proof.
  simpl. rewrite JLG_write by (rewrite JLG_insert, decide_True by done; eauto).
  rewrite JLG_insert. by destruct (decide (k = b)).
Qed.

Lemma grow_next l c :
  next h' l c = if decide (l = cur ∧ c = b) then Some new else next h l c.
Proof.
  destruct grow_fresh as (Hf & H0 & Hne). unfold next. rewrite grow_lookup.
  destruct (decide (l = cur)) as [->|]; simpl.
  - rewrite grow_branches, Hn. simpl. destruct (decide (c = b)).
    + by rewrite decide_True.
    + rewrite decide_False; [done|]. by intros [_ ?].
  - rewrite (decide_False (P := _ ∧ _)) by (by intros [? _]).
    destruct (decide (l = new)) as [->|]; [|done]. rewrite Hf. simpl. apply JLG_null.
Qed.

Lemma grow_find_mono p : ∀ l x, find h l p = Some x → find h' l p = Some x.
Proof.
  induction p as [|c p IH]; intros l x; simpl; [done|]. rewrite grow_next.
  case_decide as Hd.
  - destruct Hd as [-> ->]. unfold next. rewrite Hn. simpl. by rewrite Hnone.
  - destruct (next h l c); simpl; [apply IH|done].
Qed.

Lemma grow_find_inv p : ∀ l x, find h' l p = Some x → find h l p = Some x ∨ x = new.
Proof.
  destruct grow_fresh as (Hf & H0 & Hne).
  induction p as [|c p IH]; intros l x; simpl; [by left|]. rewrite grow_next.
  case_decide as Hd; simpl.
  - destruct p as [|c' p]; simpl; [intros; simplify_eq; by right|].
    rewrite grow_next, decide_False by (by intros [? _]). unfold next. rewrite Hf. done.
  - destruct (next h l c); simpl; [apply IH|done].
Qed.

Lemma grow_value p k : value_at h' root p k = value_at h root p k.
Proof.
  destruct grow_fresh as (Hf & H0 & Hne).
  destruct (find h root p) as [x|] eqn:E.
  - destruct (find_dom _ _ _ _ Hwf E) as [m Hm]. rewrite (value_at_Some _ _ _ _ _ _ E Hm).
    apply grow_find_mono in E. unfold value_at. rewrite E. simpl. rewrite grow_lookup.
    destruct (decide (x = cur)) as [->|]; [simpl; by simplify_eq|].
    rewrite decide_False by congruence. by rewrite Hm.
  - rewrite (value_at_None _ _ _ _ E).
    destruct (find h' root p) as [x|] eqn:E'; [|by apply value_at_None].
    apply grow_find_inv in E' as Hx. destruct Hx as [Hx| ->]; [congruence|].
    unfold value_at. rewrite E'. simpl. rewrite grow_lookup, decide_False, decide_True by done.
    apply JLG_null.
Qed.

Lemma grow_wf : wf h' root.
Proof.
  destruct grow_fresh as (Hf & H0 & Hne). pose proof (wf_null _ _ Hwf) as Hnull.
  assert (cur ≠ 0) as Hc0 by (intros ->; congruence).
  constructor.
  - destruct (wf_root _ _ Hwf) as (r & Hr & Hr0). rewrite grow_lookup. case_decide.
    + simplify_eq. by eexists.
    + rewrite decide_False by congruence. eauto.
  - rewrite grow_lookup, !decide_False by done. done.
  - intros l m b' c Hm Hc. assert (next h' l b' = Some c) as Hnx by (apply next_Some; eauto).
    rewrite grow_next in Hnx. case_decide as Hd.
    + destruct Hd as [-> ->]. simplify_eq. split; [done|].
      rewrite grow_lookup, decide_False, decide_True by done. eexists. split; [done|done].
    + apply next_Some in Hnx as (m0 & Hm0 & Hc').
      destruct (wf_child _ _ Hwf _ _ _ _ Hm0 Hc') as (? & m' & Hm' & Hpar & Hid). split; [done|].
      rewrite grow_lookup. case_decide; [simplify_eq; eauto|].
      rewrite decide_False by congruence. eauto.
  - intros l m. rewrite grow_lookup. intros Hm Hl.
    assert (∃ c, next h' (parent m) (child_id m) = Some c ∧ c = l) as (c & Hc & ->).
    { exists l. split; [|done]. rewrite grow_next. case_decide as Hd.
      - simplify_eq. destruct (wf_parent _ _ Hwf _ _ Hn Hl) as (pn & Hpn & Hch).
        rewrite decide_False; [apply next_Some; eauto|]. intros [E1 E2]. simpl in *.
        rewrite E1 in Hpn. congruence.
      - case_decide as Hd'; simplify_eq/=; [by rewrite decide_True|].
        destruct (wf_parent _ _ Hwf _ _ Hm Hl) as (pn & Hpn & Hch).
        rewrite decide_False; [apply next_Some; eauto|]. intros [E1 E2].
        rewrite E1 in Hpn. congruence. }
    by apply next_Some in Hc.
  - intros l m k v. rewrite grow_lookup. repeat case_decide; intros; simplify_eq/=.
    + by eapply wf_keys.
    + by rewrite JLG_null in *.
    + by eapply wf_keys.
  - intros l m. rewrite grow_lookup. repeat case_decide; intros; simplify_eq.
    + simpl. rewrite (wf_branches _ _ Hwf _ _ Hn), u8_succ. f_equal. symmetry.
      apply (count_add _ _ _ b); [apply NoDup_all_bytes|by apply elem_of_all_bytes|done| |].
      * change (is_Some (JLG (PJLarray_branches n') b)). rewrite grow_branches, decide_True by done.
        eauto.
      * intros k Hk. change (is_Some (JLG (PJLarray_branches n') k) ↔ is_Some (JLG (PJLarray_branches n) k)).
        by rewrite grow_branches, decide_False.
    + simpl. by rewrite count_null.
    + by eapply wf_branches.
  - intros l m. rewrite grow_lookup. repeat case_decide; intros; simplify_eq/=.
    + by eapply wf_prefixes.
    + by rewrite count_null.
    + by eapply wf_prefixes.
Qed.
End grow.


(** ** Removing an empty leaf *)

Section shrink.
Context {J : Type} `{JudyLLaws J}.
Variables (h : gmap Z (node J)) (root cur : Z) (n pn : node J).
Hypothesis Hwf : wf h root.
Hypothesis Hn : h !! cur = Some n.
Hypothesis Hpn : h !! parent n = Some pn.
Hypothesis Hnp : ∀ k, JLG (PJLarray_prefixes n) k = None.
Hypothesis Hnb : ∀ k, JLG (PJLarray_branches n) k = None.
Hypothesis Hroot : cur ≠ root.

#[local] Abbreviation pn' :=
  (with_branch_num (delete_branch pn (child_id n)).1 (u8 (branch_num (delete_branch pn (child_id n)).1 - 1))).
#[local] Abbreviation h' := (<[parent n := pn']> (delete cur h)).

Lemma shrink_branch : JLG (PJLarray_branches pn) (child_id n) = Some cur.
Proof. destruct (wf_parent _ _ Hwf _ _ Hn Hroot) as (pn0 & ? & ?). by simplify_eq. Qed.

Lemma shrink_ne : parent n ≠ cur.
Proof. intros E. pose proof shrink_branch as Hb. rewrite E in Hpn. simplify_eq. congruence. Qed.

Lemma shrink_lookup l :
  h' !! l = if decide (l = parent n) then Some pn' else if decide (l = cur) then None else h !! l.
Proof. rewrite lookup_insert, lookup_delete. repeat case_decide; congruence. Qed.

Lemma delete_branch_fields m b :
  JLG (PJLarray_branches (delete_branch m b).1) = JLG (JLD (PJLarray_branches m) b).1 ∧
  PJLarray_prefixes (delete_branch m b).1 = PJLarray_prefixes m ∧
  branch_num (delete_branch m b).1 = branch_num m ∧
  pref_num (delete_branch m b).1 = pref_num m ∧
  parent (delete_branch m b).1 = parent m ∧ child_id (delete_branch m b).1 = child_id m ∧
  (delete_branch m b).2 = (JLD (PJLarray_branches m) b).2.
Proof. unfold delete_branch. by destruct (JLD _ _). Qed.

Lemma shrink_branches k :
  JLG (PJLarray_branches pn') k =
    if decide (k = child_id n) then None else JLG (PJLarray_branches pn) k.
Proof.
  simpl. destruct (delete_branch_fields pn (child_id n)) as (-> & _). apply JLG_delete.
Qed.

Lemma shrink_next l c :
  next h' l c = if decide (l = parent n ∧ c = child_id n) then None else next h l c.
Proof.
  unfold next. rewrite shrink_lookup. destruct (decide (l = parent n)) as [->|]; cbn [mbind option_bind].
  - rewrite shrink_branches, Hpn. cbn [mbind option_bind]. destruct (decide (c = child_id n)).
    + by rewrite decide_True.
    + rewrite decide_False; [done|]. by intros [_ ?].
  - rewrite (decide_False (P := _ ∧ _)) by (by intros [? _]).
    destruct (decide (l = cur)) as [->|]; [|done]. rewrite Hn. simpl. by rewrite Hnb.
Qed.

Lemma shrink_find_inv p : ∀ l x, find h' l p = Some x → find h l p = Some x.
Proof.
  induction p as [|c p IH]; intros l x; simpl; [done|]. rewrite shrink_next.
  case_decide; [done|]. destruct (next h l c); simpl; [apply IH|done].
Qed.

Lemma shrink_find_mono p : ∀ l x, find h l p = Some x → x ≠ cur → find h' l p = Some x.
Proof.
  induction p as [|c p IH]; intros l x; simpl; [done|]. rewrite shrink_next.
  case_decide as Hd; [|destruct (next h l c); simpl; [apply IH|done]].
  destruct Hd as [-> ->]. assert (next h (parent n) (child_id n) = Some cur) as ->.
  { apply next_Some. exists pn. split; [done|apply shrink_branch]. }
  simpl. destruct p as [|c p]; simpl; [intros; simplify_eq|].
  unfold next. rewrite Hn. simpl. by rewrite Hnb.
Qed.

Lemma shrink_value p k : value_at h' root p k = value_at h root p k.
Proof.
  destruct (delete_branch_fields pn (child_id n)) as (_ & Hpre & _).
  destruct (find h root p) as [x|] eqn:E.
  - destruct (find_dom _ _ _ _ Hwf E) as [m Hm]. rewrite (value_at_Some _ _ _ _ _ _ E Hm).
    destruct (decide (x = cur)) as [->|Hx].
    + rewrite Hn in Hm. injection Hm as <-. rewrite Hnp.
      destruct (find h' root p) as [y|] eqn:E'; [|by apply value_at_None].
      apply shrink_find_inv in E' as Hy. rewrite E in Hy. injection Hy as <-.
      unfold value_at. rewrite E'. simpl. rewrite shrink_lookup, decide_False, decide_True by
        (done || (intros Heq; by apply shrink_ne)). done.
    + unfold value_at. rewrite (shrink_find_mono _ _ _ E Hx). cbn [mbind option_bind].
      rewrite shrink_lookup. destruct (decide (x = parent n)) as [->|].
      * simpl. rewrite Hpre. congruence.
      * rewrite decide_False by done. by rewrite Hm.
  - rewrite (value_at_None _ _ _ _ E). apply value_at_None.
    destruct (find h' root p) as [y|] eqn:E'; [|done]. apply shrink_find_inv in E'. congruence.
Qed.

Lemma shrink_wf : wf h' root.
Proof.
  destruct (delete_branch_fields pn (child_id n)) as (Hbr & Hpre & Hbn & Hpf & Hpa & Hci & _).
  pose proof (wf_null _ _ Hwf) as Hnull. pose proof shrink_ne as Hne.
  constructor.
  - destruct (wf_root _ _ Hwf) as (r & Hr & Hr0). rewrite shrink_lookup. case_decide.
    + eexists. split; [done|]. simpl. rewrite Hpa. congruence.
    + rewrite decide_False by congruence. eauto.
  - rewrite shrink_lookup, decide_False by congruence. by case_decide.
  - intros l m b' c Hm Hc. assert (next h' l b' = Some c) as Hnx by (apply next_Some; eauto).
    rewrite shrink_next in Hnx. case_decide as Hd; [done|].
    apply next_Some in Hnx as (m0 & Hm0 & Hc').
    destruct (wf_child _ _ Hwf _ _ _ _ Hm0 Hc') as (? & m' & Hm' & Hpar & Hid). split; [done|].
    rewrite shrink_lookup. destruct (decide (c = parent n)) as [->|].
    + eexists. split; [done|]. simpl. rewrite Hpa, Hci. split; congruence.
    + rewrite decide_False; [eauto|]. intros ->. apply Hd. split; congruence.
  - intros l m Hm Hl. cut (next h' (parent m) (child_id m) = Some l); [by rewrite next_Some|].
    assert (∃ m0, h !! l = Some m0 ∧ parent m0 = parent m ∧ child_id m0 = child_id m ∧ l ≠ cur)
      as (m0 & Hm0 & <- & <- & Hlc).
    { rewrite shrink_lookup in Hm. case_decide; [|case_decide; [done|eauto]].
      subst l. injection Hm as <-. simpl. exists pn. rewrite Hpa, Hci. done. }
    rewrite shrink_next. destruct (wf_parent _ _ Hwf _ _ Hm0 Hl) as (q & Hq & Hch).
    assert (next h (parent m0) (child_id m0) = Some l) as Hnx by (apply next_Some; eauto).
    rewrite decide_False; [done|]. intros [E1 E2]. rewrite E1, E2 in Hnx.
    apply next_Some in Hnx as (? & ? & ?). pose proof shrink_branch. congruence.
  - intros l m k v. rewrite shrink_lookup. repeat case_decide; [|done|by apply (wf_keys _ _ Hwf l)].
    intros Hm. injection Hm as <-. simpl. rewrite Hpre. by eapply wf_keys.
  - intros l m. rewrite shrink_lookup. repeat case_decide; [|done|by apply (wf_branches _ _ Hwf l)].
    intros Hm. injection Hm as <-. simpl. rewrite Hbn, (wf_branches _ _ Hwf _ _ Hpn).
    rewrite (count_add (PJLarray_branches (delete_branch pn (child_id n)).1) (PJLarray_branches pn)
      all_bytes (child_id n)); [by rewrite u8_pred|apply NoDup_all_bytes| | | |].
    + apply elem_of_all_bytes.
      by destruct (wf_child _ _ Hwf _ _ _ _ Hpn shrink_branch) as [? _].
    + rewrite Hbr, JLG_delete. by rewrite decide_True.
    + rewrite shrink_branch. eauto.
    + intros k Hk. by rewrite Hbr, JLG_delete, decide_False.
  - intros l m. rewrite shrink_lookup. repeat case_decide; [|done|by apply (wf_prefixes _ _ Hwf l)].
    intros Hm. injection Hm as <-. simpl. rewrite Hpf, Hpre. exact (wf_prefixes _ _ Hwf _ _ Hpn).
Qed.

Lemma shrink_no_full : no_full h → no_full h'.
Proof.
  intros Hfull l m. rewrite shrink_lookup. repeat case_decide; [|done|by apply Hfull].
  intros Hm. injection Hm as <-. simpl. pose proof (Hfull _ _ Hpn) as Hp.
  rewrite (count_add (PJLarray_branches (delete_branch pn (child_id n)).1) (PJLarray_branches pn)
      all_bytes (child_id n)) in Hp; [lia|apply NoDup_all_bytes| | | |];
    destruct (delete_branch_fields pn (child_id n)) as (Hbr & _).
  - apply elem_of_all_bytes. by destruct (wf_child _ _ Hwf _ _ _ _ Hpn shrink_branch) as [? _].
  - rewrite Hbr, JLG_delete. by rewrite decide_True.
  - rewrite shrink_branch. eauto.
  - intros k Hk. by rewrite Hbr, JLG_delete, decide_False.
Qed.
End shrink.


(** ** Prefixes as paths and keys *)

(** A prefix of [plen] bits of the byte string [prefix]. *)
Definition valid_prefix (prefix : list Z) (plen : Z) : Prop :=
  bytes_ok prefix ∧ 0 ≤ plen ≤ 8 * Z.of_nat (length prefix).

Definition path_of (prefix : list Z) (plen : Z) : list Z := take (Z.to_nat (plen / 8)) prefix.

Definition rest_of (prefix : list Z) (plen : Z) : list Z := drop (Z.to_nat (plen / 8)) prefix.

Definition key_of (prefix : list Z) (plen : Z) : Z :=
  if plen mod 8 =? 0 then 0
  else get_prefix_key (plen mod 8) (default 0 (vget prefix (plen / 8))).

(** Two prefixes are the same when their lengths and their bits are. *)
Definition same_prefix (p : list Z) (n : Z) (q : list Z) (m : Z) : Prop :=
  n = m ∧ ∀ k, 0 ≤ k < n → bit_at p k = bit_at q k.

Lemma get_prefix_key_eq i byte :
  byte_ok byte → 1 ≤ i ≤ 7 →
  get_prefix_key i byte = Z.shiftr byte (8 - i) + 256 * i ∧ 0 ≤ Z.shiftr byte (8 - i) < 2 ^ i.
Proof.
  intros [Hb1 Hb2] Hi.
  assert (0 ≤ Z.shiftr byte (8 - i) < 2 ^ i) as Hs.
  { rewrite Z.shiftr_div_pow2 by lia. split; [apply Z.div_pos; lia|].
    apply Z.div_lt_upper_bound; [lia|]. rewrite <- Z.pow_add_r by lia.
    replace (8 - i + i) with 8 by lia. lia. }
  split; [|done]. unfold get_prefix_key. rewrite (proj2 (Z.eqb_neq i 0)) by lia.
  rewrite (Z.shiftl_mul_pow2 i) by lia.
  assert (2 ^ i ≤ 2 ^ 7) by (apply Z.pow_le_mono_r; lia).
  rewrite wrap_small by lia. lia.
Qed.

Lemma get_prefix_key_in i byte : byte_ok byte → 1 ≤ i ≤ 7 → get_prefix_key i byte ∈ prefix_keys.
Proof.
  intros Hb Hi. destruct (get_prefix_key_eq i byte Hb Hi) as [-> Hs].
  unfold prefix_keys. apply elem_of_cons. right. apply list_elem_of_join.
  exists ((λ v, 256 * i + v) <$> seqZ 0 (2 ^ i)). split.
  - apply list_elem_of_fmap. exists (Z.shiftr byte (8 - i)). split; [lia|]. apply elem_of_seqZ. lia.
  - apply (list_elem_of_fmap_2 (λ i, (λ v, 256 * i + v) <$> seqZ 0 (2 ^ i))). apply elem_of_seqZ. lia.
Qed.

Lemma valid_prefix_byte prefix plen :
  valid_prefix prefix plen → plen mod 8 ≠ 0 →
  ∃ b, vget prefix (plen / 8) = Some b ∧ byte_ok b ∧ rest_of prefix plen = b :: drop 1 (rest_of prefix plen)
    ∧ 1 ≤ plen mod 8 ≤ 7.
Proof.
  intros [Hok Hlen] Hm. pose proof (Z.div_mod plen 8). pose proof (Z.mod_pos_bound plen 8).
  destruct (proj2 (vget_is_Some prefix (plen / 8))) as [b Hb]; [lia|].
  exists b. split_and!; [done|by eapply bytes_ok_vget| |lia|lia].
  rewrite vget_nat in Hb by lia. unfold rest_of. rewrite drop_drop.
  rewrite (drop_S _ _ _ Hb). f_equal. f_equal. lia.
Qed.

Lemma key_of_in prefix plen : valid_prefix prefix plen → key_of prefix plen ∈ prefix_keys.
Proof.
  intros Hv. unfold key_of. destruct (plen mod 8 =? 0) eqn:E; [by left|].
  apply Z.eqb_neq in E. destruct (valid_prefix_byte _ _ Hv E) as (b & -> & Hb & _ & Hi).
  by apply get_prefix_key_in.
Qed.

Lemma tail_key_rest prefix plen :
  valid_prefix prefix plen → tail_key (rest_of prefix plen) (plen mod 8) = Some (key_of prefix plen).
Proof.
  intros Hv. unfold tail_key, key_of. destruct (plen mod 8 =? 0) eqn:E; [done|].
  apply Z.eqb_neq in E. destruct (valid_prefix_byte _ _ Hv E) as (b & -> & Hb & -> & Hi). done.
Qed.

(** One byte down the path. *)
Lemma valid_prefix_step b prefix plen :
  valid_prefix (b :: prefix) plen → 8 ≤ plen →
  byte_ok b ∧ valid_prefix prefix (plen - 8) ∧
  path_of (b :: prefix) plen = b :: path_of prefix (plen - 8) ∧
  rest_of (b :: prefix) plen = rest_of prefix (plen - 8) ∧
  plen mod 8 = (plen - 8) mod 8.
Proof.
  intros [Hok Hlen] H8. apply Forall_cons in Hok as [Hb Hok]. simpl in Hlen.
  assert ((plen - 8) / 8 = plen / 8 - 1) as E.
  { replace (plen - 8) with (plen + (-1) * 8) by lia. rewrite Z.div_add by lia. lia. }
  assert (1 ≤ plen / 8) by (apply Z.div_le_lower_bound; lia).
  unfold path_of, rest_of. rewrite E.
  replace (Z.to_nat (plen / 8)) with (S (Z.to_nat (plen / 8 - 1))) by lia.
  split_and!; [done|split; [done|lia]|done|done|].
  replace (plen - 8) with (plen + (-1) * 8) by lia. by rewrite Z.mod_add by lia.
Qed.

Lemma short_prefix prefix plen :
  0 ≤ plen < 8 → path_of prefix plen = [] ∧ rest_of prefix plen = prefix ∧ plen mod 8 = plen.
Proof. intros. unfold path_of, rest_of. rewrite Z.div_small, Z.mod_small by lia. done. Qed.

Lemma shiftr_eq_bits a b i :
  byte_ok a → byte_ok b → 1 ≤ i ≤ 7 →
  Z.shiftr a (8 - i) = Z.shiftr b (8 - i) ↔
  ∀ r, 0 ≤ r < i → Z.testbit a (7 - r) = Z.testbit b (7 - r).
Proof.
  intros Ha Hb Hi. split.
  - intros E r Hr. apply (f_equal (λ z, Z.testbit z (i - 1 - r))) in E.
    rewrite !Z.shiftr_spec in E by lia. by replace (i - 1 - r + (8 - i)) with (7 - r) in E by lia.
  - intros E. apply Z.bits_inj'. intros k Hk. rewrite !Z.shiftr_spec by lia.
    destruct (decide (k < i)).
    + specialize (E (i - 1 - k) ltac:(lia)). by replace (7 - (i - 1 - k)) with (k + (8 - i)) in E by lia.
    + by rewrite !(testbit_high _ 8) by (done || lia).
Qed.

Lemma vget_take (l : list Z) (n : nat) j : j < Z.of_nat n → vget (take n l) j = vget l j.
Proof. intros. unfold vget. case_decide; [|done]. apply lookup_take_lt. lia. Qed.

(** A prefix is determined by its path and key, and determines them. *)
Lemma same_prefix_key p n q m :
  valid_prefix p n → valid_prefix q m →
  (path_of p n = path_of q m ∧ key_of p n = key_of q m) ↔ same_prefix p n q m.
Proof.
  intros Hp Hq. pose proof (proj1 Hp) as Hpok. pose proof (proj1 Hq) as Hqok.
  destruct (bit_coords n) as (En & Hn1 & Hn2); [apply Hp|].
  destruct (bit_coords m) as (Em & Hm1 & Hm2); [apply Hq|]. split.
  - intros [Hpath Hkey].
    assert (n / 8 = m / 8) as Ediv.
    { apply (f_equal length) in Hpath. unfold path_of in Hpath. rewrite !length_take in Hpath.
      destruct Hp, Hq. lia. }
    assert (n mod 8 = m mod 8 ∧ (n mod 8 ≠ 0 → ∃ a b, vget p (n / 8) = Some a ∧
      vget q (n / 8) = Some b ∧ ∀ r, 0 ≤ r < n mod 8 → Z.testbit a (7 - r) = Z.testbit b (7 - r)))
      as [Emod Hbits].
    { unfold key_of in Hkey. destruct (n mod 8 =? 0) eqn:E1, (m mod 8 =? 0) eqn:E2;
        rewrite ?Z.eqb_eq, ?Z.eqb_neq in *.
      - split; [lia|done].
      - destruct (valid_prefix_byte _ _ Hq E2) as (b & Hb & Hbok & _ & Hi). rewrite Hb in Hkey.
        simpl in Hkey. destruct (get_prefix_key_eq (m mod 8) b Hbok Hi). lia.
      - destruct (valid_prefix_byte _ _ Hp E1) as (b & Hb & Hbok & _ & Hi). rewrite Hb in Hkey.
        simpl in Hkey. destruct (get_prefix_key_eq (n mod 8) b Hbok Hi). lia.
      - destruct (valid_prefix_byte _ _ Hp E1) as (a & Ha & Haok & _ & Hi).
        destruct (valid_prefix_byte _ _ Hq E2) as (b & Hb & Hbok & _ & Hj).
        rewrite Ha, Hb in Hkey. simpl in Hkey.
        destruct (get_prefix_key_eq (n mod 8) a Haok Hi) as [E3 R3].
        destruct (get_prefix_key_eq (m mod 8) b Hbok Hj) as [E4 R4]. rewrite E3, E4 in Hkey.
        assert (2 ^ (n mod 8) ≤ 2 ^ 7) by (apply Z.pow_le_mono_r; lia).
        assert (2 ^ (m mod 8) ≤ 2 ^ 7) by (apply Z.pow_le_mono_r; lia).
        assert (n mod 8 = m mod 8) as Emod by lia. split; [done|]. intros _.
        exists a, b. rewrite Ediv at 2. split_and!; [done|done|].
        apply shiftr_eq_bits; [done..|]. rewrite Emod in *. lia. }
    split; [lia|]. intros k Hk. destruct (bit_coords k) as (Ek & Hk1 & Hk2); [lia|].
    assert (k / 8 ≤ n / 8) by (apply Z.div_le_mono; lia).
    destruct (decide (k / 8 = n / 8)) as [Eq|].
    + destruct Hbits as (a & b & Ha & Hb & Hab); [lia|]. rewrite Ek, Eq.
      rewrite (bit_at_split _ _ _ a), (bit_at_split _ _ _ b) by done. apply Hab. lia.
    + unfold bit_at. apply (f_equal (λ l, vget l (k / 8))) in Hpath. unfold path_of in Hpath.
      rewrite !vget_take in Hpath by lia. by rewrite Hpath.
  - intros [<- Hbits]. split.
    + apply vget_ext; unfold path_of.
      { rewrite !length_take. destruct Hp, Hq. lia. }
      intros j. destruct (decide (0 ≤ j < n / 8)) as [Hj|Hj].
      * rewrite !vget_take by lia. destruct Hp as [_ Hpl], Hq as [_ Hql].
        destruct (proj2 (vget_is_Some p j)) as [a Ha]; [lia|].
        destruct (proj2 (vget_is_Some q j)) as [b Hb]; [lia|]. rewrite Ha, Hb. f_equal.
        apply (bits_inj_w 8); [by eapply bytes_ok_vget in Ha|by eapply bytes_ok_vget in Hb|].
        intros i Hi. specialize (Hbits (8 * j + (7 - i)) ltac:(lia)).
        rewrite (bit_at_split _ _ _ a), (bit_at_split _ _ _ b) in Hbits by (done || lia).
        by replace (7 - (7 - i)) with i in Hbits by lia.
      * assert (∀ l : list Z, vget (take (Z.to_nat (n / 8)) l) j = None) as Hnone; [|by rewrite !Hnone].
        intros l. destruct (vget _ j) eqn:E; [|done]. apply vget_Some_range in E.
        rewrite length_take in E. lia.
    + unfold key_of. destruct (n mod 8 =? 0) eqn:E1; [done|]. apply Z.eqb_neq in E1.
      destruct (valid_prefix_byte _ _ Hp E1) as (a & Ha & Haok & _ & Hi).
      destruct (valid_prefix_byte _ _ Hq E1) as (b & Hb & Hbok & _ & _). rewrite Ha, Hb. simpl.
      rewrite (proj1 (get_prefix_key_eq _ a Haok Hi)), (proj1 (get_prefix_key_eq _ b Hbok Hi)).
      f_equal. apply shiftr_eq_bits; [done..|]. intros r Hr.
      specialize (Hbits (8 * (n / 8) + r) ltac:(lia)).
      by rewrite (bit_at_split _ _ _ a), (bit_at_split _ _ _ b) in Hbits by (done || lia).
Qed.


(** ** Changing the prefixes of a node *)

Section update.
Context {J : Type} `{JudyLLaws J}.
Variables (h : gmap Z (node J)) (root x : Z) (p0 : list Z) (n n' : node J).
Hypothesis Hwf : wf h root.
Hypothesis Hfind : find h root p0 = Some x.
Hypothesis Hn : h !! x = Some n.
Hypothesis Hbr : PJLarray_branches n' = PJLarray_branches n.
Hypothesis Hbn : branch_num n' = branch_num n.
Hypothesis Hpa : parent n' = parent n.
Hypothesis Hci : child_id n' = child_id n.

Lemma update_next l c : next (<[x := n']> h) l c = next h l c.
Proof.
  unfold next. rewrite lookup_insert. case_decide; [|done]. subst l. rewrite Hn. simpl. by rewrite Hbr.
Qed.

Lemma update_find p : ∀ l, find (<[x := n']> h) l p = find h l p.
Proof.
  induction p as [|c p IH]; intros l; simpl; [done|]. rewrite update_next.
  destruct (next h l c); simpl; [apply IH|done].
Qed.

Lemma update_value p k :
  value_at (<[x := n']> h) root p k =
    if decide (p = p0) then JLG (PJLarray_prefixes n') k else value_at h root p k.
Proof.
  unfold value_at. rewrite update_find. case_decide as Hp.
  - subst p. rewrite Hfind. simpl. by rewrite lookup_insert_eq.
  - destruct (find h root p) as [y|] eqn:E; [|done]. simpl.
    rewrite lookup_insert_ne; [done|]. intros <-. by apply Hp, (find_inj h root p p0 x).
Qed.

Lemma update_wf :
  (∀ k v, JLG (PJLarray_prefixes n') k = Some v → k ∈ prefix_keys) →
  pref_num n' = u8 (count (PJLarray_prefixes n') prefix_keys) →
  wf (<[x := n']> h) root.
Proof.
  intros Hkeys Hcount.
  assert (∀ l m, <[x := n']> h !! l = Some m → ∃ m0, h !! l = Some m0 ∧
    PJLarray_branches m = PJLarray_branches m0 ∧ branch_num m = branch_num m0 ∧
    parent m = parent m0 ∧ child_id m = child_id m0 ∧ (l ≠ x → m = m0)) as Hinv.
  { intros l m. rewrite lookup_insert. case_decide; [|intros Hm; by exists m].
    intros [= <-]. exists n. subst l. split_and!; done. }
  assert (∀ l m, h !! l = Some m → ∃ m', <[x := n']> h !! l = Some m' ∧
    PJLarray_branches m' = PJLarray_branches m ∧
    parent m' = parent m ∧ child_id m' = child_id m) as Hmono.
  { intros l m Hm. rewrite lookup_insert. case_decide; [|by exists m].
    exists n'. subst l. simplify_eq. split_and!; done. }
  constructor.
  - destruct (wf_root _ _ Hwf) as (r & Hr & Hr0).
    destruct (Hmono _ _ Hr) as (r' & ? & _ & E & _). exists r'. split; [done|]. congruence.
  - pose proof (wf_null _ _ Hwf). rewrite lookup_insert_ne; [done|]. intros ->. congruence.
  - intros l m b c (m0 & Hm0 & E & _)%Hinv Hc. rewrite E in Hc.
    destruct (wf_child _ _ Hwf _ _ _ _ Hm0 Hc) as (? & m' & Hm' & ? & ?). split; [done|].
    destruct (Hmono _ _ Hm') as (m'' & ? & _ & E1 & E2). exists m''. split_and!; congruence.
  - intros l m (m0 & Hm0 & _ & _ & E1 & E2 & _)%Hinv Hl. rewrite E1, E2.
    destruct (wf_parent _ _ Hwf _ _ Hm0 Hl) as (q & Hq & Hch).
    destruct (Hmono _ _ Hq) as (q' & ? & E & _). exists q'. split; [done|]. congruence.
  - intros l m k v Hm Hk. rewrite lookup_insert in Hm. case_decide; simplify_eq; [by eapply Hkeys|].
    by eapply (wf_keys _ _ Hwf).
  - intros l m (m0 & Hm0 & E & -> & _)%Hinv. rewrite E. by apply (wf_branches _ _ Hwf l).
  - intros l m Hm. rewrite lookup_insert in Hm. case_decide; simplify_eq; [done|].
    by apply (wf_prefixes _ _ Hwf l).
Qed.
End update.

(** ** The loops *)

Section loops.
Context {J : Type} `{JudyLLaws J}.
Implicit Types (h : gmap Z (node J)) (n : node J).

Lemma walk_loop_spec h root prefix : ∀ plen p0 cur,
  wf h root → find h root p0 = Some cur → valid_prefix prefix plen →
  walk_loop h cur prefix plen =
    Some ((λ x, (x, rest_of prefix plen, plen mod 8)) <$> find h cur (path_of prefix plen)).
Proof.
  induction prefix as [|b prefix IH]; intros plen p0 cur Hwf Hcur Hv; simpl.
  - destruct Hv as [_ Hl]. simpl in Hl. rewrite (proj2 (Z.ltb_lt plen 8)) by lia.
    destruct (short_prefix [] plen) as (-> & -> & ->); [lia|]. done.
  - destruct (plen <? 8) eqn:E8; rewrite ?Z.ltb_lt, ?Z.ltb_ge in E8.
    { destruct (short_prefix (b :: prefix) plen) as (-> & -> & ->); [destruct Hv; lia|]. done. }
    destruct (valid_prefix_step b prefix plen Hv E8) as (Hb & Hv' & -> & -> & ->).
    destruct (find_dom _ _ _ _ Hwf Hcur) as [n Hn]. rewrite Hn. simpl.
    pose proof (get_next_node_next h root cur n b Hwf Hn) as Hnx.
    destruct (next h cur b) as [c|] eqn:Ec; simpl.
    + destruct Hnx as [-> Hc0]. rewrite (proj2 (Z.eqb_neq c 0)) by done.
      apply (IH _ (p0 ++ [b])); [done| |done]. rewrite find_app, Hcur. simpl. by rewrite Ec.
    + by rewrite Hnx.
Qed.

Lemma insert_loop_spec root prefix : ∀ h plen p0 cur,
  wf h root → find h root p0 = Some cur → valid_prefix prefix plen →
  ∃ h' x, insert_loop h cur prefix plen = Some (h', x, rest_of prefix plen, plen mod 8) ∧
    wf h' root ∧ find h' root (p0 ++ path_of prefix plen) = Some x ∧
    ∀ p k, value_at h' root p k = value_at h root p k.
Proof.
  induction prefix as [|b prefix IH]; intros h plen p0 cur Hwf Hcur Hv; simpl.
  - destruct Hv as [_ Hl]. simpl in Hl. rewrite (proj2 (Z.ltb_lt plen 8)) by lia.
    destruct (short_prefix [] plen) as (-> & -> & ->); [lia|].
    exists h, cur. by rewrite app_nil_r.
  - destruct (plen <? 8) eqn:E8; rewrite ?Z.ltb_lt, ?Z.ltb_ge in E8.
    { destruct (short_prefix (b :: prefix) plen) as (-> & -> & ->); [destruct Hv; lia|].
      exists h, cur. by rewrite app_nil_r. }
    destruct (valid_prefix_step b prefix plen Hv E8) as (Hb & Hv' & -> & -> & ->).
    destruct (find_dom _ _ _ _ Hwf Hcur) as [n Hn]. rewrite Hn. simpl.
    pose proof (get_next_node_next h root cur n b Hwf Hn) as Hnx.
    rewrite (cons_middle b p0), app_assoc.
    destruct (next h cur b) as [c|] eqn:Ec; simpl.
    + destruct Hnx as [-> Hc0]. rewrite (proj2 (Z.eqb_neq c 0)) by done.
      apply IH; [done| |done]. rewrite find_app, Hcur. simpl. by rewrite Ec.
    + rewrite Hnx. simpl. unfold next in Ec. rewrite Hn in Ec. simpl in Ec.
      destruct (IH _ (plen - 8) (p0 ++ [b]) (malloc h) (grow_wf h root cur b n Hwf Hn Hb Ec))
        as (h' & x & Hins & Hwf' & Hfind & Hval); [|done|].
      { rewrite find_app, (grow_find_mono h cur b n Hn Ec p0 root cur Hcur). simpl.
        by rewrite (grow_next h cur b n Hn), decide_True. }
      exists h', x. split_and!; [done..|]. intros p k. rewrite Hval.
      by apply (grow_value h root cur b n).
Qed.

Lemma shrink_loop_spec root fuel : ∀ h p cur,
  wf h root → no_full h → find h root p = Some cur → (length p < fuel)%nat →
  ∃ h', shrink_loop fuel h cur = Some h' ∧ wf h' root ∧ no_full h' ∧
    ∀ q k, value_at h' root q k = value_at h root q k.
Proof.
  induction fuel as [|fuel IH]; intros h p cur Hwf Hfull Hcur Hlen; [lia|]. simpl.
  destruct (find_dom _ _ _ _ Hwf Hcur) as [n Hn]. rewrite Hn. simpl.
  destruct ((pref_num n =? 0) && (branch_num n =? 0)) eqn:E; [|by exists h].
  apply andb_true_iff in E as [Ep%Z.eqb_eq Eb%Z.eqb_eq].
  destruct (empty_node h root cur n Hwf Hfull Hn Ep Eb) as [Hnp Hnb].
  destruct (decide (cur = root)) as [->|Hroot].
  { destruct (wf_root _ _ Hwf) as (r & Hr & Hr0). rewrite Hn in Hr. injection Hr as <-.
    rewrite Hr0. simpl. by exists h. }
  destruct (wf_parent _ _ Hwf _ _ Hn Hroot) as (pn & Hpn & Hch).
  rewrite (proj2 (Z.eqb_neq (parent n) 0)).
  2: { intros E0. rewrite E0, (wf_null _ _ Hwf) in Hpn. done. }
  rewrite Hpn. simpl. destruct (delete_branch_fields pn (child_id n)) as (_ & _ & _ & _ & _ & _ & Hrc).
  rewrite JLD_rc, Hch, bool_decide_true in Hrc by eauto.
  destruct (delete_branch pn (child_id n)) as [pn' rc] eqn:Edel. simpl in Hrc. subst rc.
  destruct p as [|b p _] using rev_ind; [simpl in Hcur; congruence|].
  rewrite length_app in Hlen. simpl in Hlen.
  pose proof (shrink_wf h root cur n pn Hwf Hn Hpn Hnp Hnb Hroot) as Hwf'.
  pose proof (shrink_no_full h root cur n pn Hwf Hn Hpn Hroot Hfull) as Hfull'.
  pose proof (shrink_value h root cur n pn Hwf Hn Hpn Hnp Hnb Hroot) as Hval.
  pose proof (shrink_find_mono h root cur n pn Hwf Hn Hpn Hnb Hroot p root (parent n)) as Hfind.
  rewrite Edel in *. simpl in *.
  destruct (IH _ p (parent n) Hwf' Hfull') as (h' & Hs & ? & ? & Hval'); [|lia|].
  - apply Hfind.
    + rewrite find_app in Hcur. destruct (find h root p) as [y|] eqn:Ey; [|done]. simpl in Hcur.
      destruct (next h y b) as [z|] eqn:Ez; [|done]. simpl in Hcur. injection Hcur as ->.
      apply next_Some in Ez as (m & Hm & Hmc).
      destruct (wf_child _ _ Hwf _ _ _ _ Hm Hmc) as (_ & n0 & Hn0 & Hpar & _). congruence.
    + exact (shrink_ne h root cur n pn Hwf Hn Hpn Hnp Hnb Hroot).
  - exists h'. split_and!; [done..|]. intros q k. by rewrite Hval'.
Qed.
End loops.


(** ** The reference definition of a longest prefix match *)

(** The value of the greatest length at most [n] that has one. *)
Fixpoint longest (R : Z → option Z) (n : nat) : option Z :=
  match R (Z.of_nat n) with
  | Some v => Some v
  | None => match n with O => None | S n' => longest R n' end
  end.

(** Upwards instead: the last value found from [lo] on, or [acc]. *)
Fixpoint scan (R : Z → option Z) (lo : Z) (n : nat) (acc : option Z) : option Z :=
  match n with
  | O => acc
  | S n' => scan R (lo + 1) n' (match R lo with Some v => Some v | None => acc end)
  end.

Lemma scan_app R a b : ∀ lo acc,
  scan R lo (a + b) acc = scan R (lo + Z.of_nat a) b (scan R lo a acc).
Proof.
  induction a as [|a IH]; intros lo acc; [f_equal; lia|]. simpl. rewrite IH. f_equal. lia.
Qed.

Lemma scan_ext R R' n : ∀ lo lo' acc,
  (∀ i, 0 ≤ i < Z.of_nat n → R (lo + i) = R' (lo' + i)) → scan R lo n acc = scan R' lo' n acc.
Proof.
  induction n as [|n IH]; intros lo lo' acc Hext; simpl; [done|].
  assert (R lo = R' lo') as ->.
  { specialize (Hext 0 ltac:(lia)). by rewrite !Z.add_0_r in Hext. }
  apply IH. intros i Hi. rewrite <- !Z.add_assoc. apply Hext. lia.
Qed.

Lemma scan_None R n : ∀ lo acc,
  (∀ i, lo ≤ i < lo + Z.of_nat n → R i = None) → scan R lo n acc = acc.
Proof.
  induction n as [|n IH]; intros lo acc Hn; simpl; [done|].
  rewrite Hn by lia. apply IH. intros. apply Hn. lia.
Qed.

Lemma longest_scan R n : longest R n = scan R 0 (S n) None.
Proof.
  replace (S n) with (n + 1)%nat by lia.
  induction n as [|n IH]; [done|]. rewrite scan_app. simpl longest. rewrite IH.
  replace (n + 1)%nat with (S n) by lia. done.
Qed.

(** The longest match is a match, and no longer prefix matches. *)
Lemma longest_spec R n :
  match longest R n with
  | Some v => ∃ m, 0 ≤ m ≤ Z.of_nat n ∧ R m = Some v ∧ ∀ m', m < m' ≤ Z.of_nat n → R m' = None
  | None => ∀ m, 0 ≤ m ≤ Z.of_nat n → R m = None
  end.
Proof.
  induction n as [|n IH].
  - simpl longest. destruct (R (Z.of_nat 0)) eqn:E.
    + exists 0. split_and!; [lia|lia|done|lia].
    + intros m Hm. by replace m with (Z.of_nat 0) by lia.
  - simpl longest. destruct (R (Z.of_nat (S n))) eqn:E.
    + exists (Z.of_nat (S n)). split_and!; [lia|lia|done|lia].
    + destruct (longest R n).
      * destruct IH as (m & ? & Hm & Hlong). exists m. split_and!; [lia|lia|done|].
        intros m' ?. destruct (decide (m' = Z.of_nat (S n))) as [->|]; [done|]. apply Hlong. lia.
      * intros m ?. destruct (decide (m = Z.of_nat (S n))) as [->|]; [done|]. apply IH. lia.
Qed.

Section lookup.
Context {J : Type} `{JudyLLaws J}.
Implicit Types (h : gmap Z (node J)) (n : node J).

Lemma lookup_bits_scan n byte i acc :
  lookup_bits n byte i acc = scan (λ m, get_prefix_ptr n (get_prefix_key m byte)) 1 i acc.
Proof.
  induction i as [|i IH]; [done|]. replace (S i) with (i + 1)%nat at 2 by lia.
  rewrite scan_app. simpl. rewrite IH. by replace (1 + Z.of_nat i) with (Z.of_nat (S i)) by lia.
Qed.

Lemma key_of_step b key m : 8 ≤ m → key_of (b :: key) m = key_of key (m - 8).
Proof.
  intros Hm. assert ((m - 8) / 8 = m / 8 - 1 ∧ (m - 8) mod 8 = m mod 8) as [E1 E2].
  { replace (m - 8) with (m + (-1) * 8) by lia. rewrite Z.div_add, Z.mod_add by lia. lia. }
  assert (1 ≤ m / 8) by (apply Z.div_le_lower_bound; lia).
  unfold key_of. rewrite E2. destruct (m mod 8 =? 0); [done|]. do 2 f_equal.
  rewrite E1, !vget_nat by lia. by replace (Z.to_nat (m / 8)) with (S (Z.to_nat (m / 8 - 1))) by lia.
Qed.

Lemma lookup_loop_spec h root kw : ∀ key p0 cur acc,
  wf h root → find h root p0 = Some cur → bytes_ok key → (kw ≤ length key)%nat →
  lookup_loop h cur key kw acc =
    Some (scan (λ m, value_at h root (p0 ++ path_of key m) (key_of key m)) 0 (8 * kw + 1) acc).
Proof.
  induction kw as [|kw IH]; intros key p0 cur acc Hwf Hcur Hok Hlen.
  - destruct (find_dom _ _ _ _ Hwf Hcur) as [n Hn].
    assert (cur ≠ 0) as Hc0 by (intros ->; pose proof (wf_null _ _ Hwf); congruence).
    simpl. rewrite (proj2 (Z.eqb_neq cur 0)), Hn by done. simpl. rewrite app_nil_r.
    by rewrite (value_at_Some _ _ _ _ _ _ Hcur Hn).
  - destruct (find_dom _ _ _ _ Hwf Hcur) as [n Hn].
    assert (cur ≠ 0) as Hc0 by (intros ->; pose proof (wf_null _ _ Hwf); congruence).
    destruct key as [|byte key]; [simpl in Hlen; lia|].
    apply Forall_cons in Hok as [Hb Hok]. simpl in Hlen.
    set (R := λ m, value_at h root (p0 ++ path_of (byte :: key) m) (key_of (byte :: key) m)).
    replace (8 * S kw + 1)%nat with (1 + (7 + (8 * kw + 1)))%nat by lia.
    rewrite (scan_app R 1), (scan_app R 7).
    change (0 + Z.of_nat 1) with 1. change (1 + Z.of_nat 7) with 8.
    cbn [lookup_loop]. rewrite (proj2 (Z.eqb_neq cur 0)), Hn by done. cbn [mbind option_bind].
    rewrite lookup_bits_scan.
    assert (R 0 = get_prefix_ptr n 0) as HR0.
    { unfold R. simpl. rewrite app_nil_r. by rewrite (value_at_Some _ _ _ _ _ _ Hcur Hn). }
    rewrite (scan_ext (λ m, get_prefix_ptr n (get_prefix_key m byte)) R 7 1 1).
    2: { intros i Hi. unfold R. destruct (short_prefix (byte :: key) (1 + i)) as (-> & _ & Hmod);
           [lia|]. rewrite app_nil_r, (value_at_Some _ _ _ _ _ _ Hcur Hn).
         unfold key_of. rewrite Hmod, Z.div_small by lia.
         by rewrite (proj2 (Z.eqb_neq (1 + i) 0)) by lia. }
    change (scan R 0 1 acc) with (match R 0 with Some v => Some v | None => acc end).
    rewrite HR0. set (acc' := scan R 1 7 _). pose proof (get_next_node_next h root cur n byte Hwf Hn) as Hnx.
    assert (∀ i, 0 ≤ i < Z.of_nat (8 * kw + 1) →
      R (8 + i) = value_at h root ((p0 ++ [byte]) ++ path_of key (0 + i)) (key_of key (0 + i))) as HR.
    { intros i Hi. unfold R. rewrite key_of_step by lia.
      destruct (valid_prefix_step byte key (8 + i)) as (_ & _ & -> & _);
        [split; [by constructor|simpl; lia]|lia|].
      replace (8 + i - 8) with (0 + i) by lia. by rewrite <- app_assoc. }
    destruct (next h cur byte) as [c|] eqn:Ec.
    + destruct Hnx as [-> _]. rewrite (IH key (p0 ++ [byte]) c); [|done| |done|lia].
      * f_equal. symmetry. by apply scan_ext.
      * rewrite find_app, Hcur. simpl. by rewrite Ec.
    + rewrite Hnx. destruct kw; simpl lookup_loop; f_equal; symmetry; apply scan_None;
        intros i Hi; replace i with (8 + (i - 8)) by lia; rewrite HR by lia;
        apply value_at_None; rewrite <- app_assoc, find_app, Hcur; simpl; by rewrite Ec.
Qed.
End lookup.


(** ** Properties *)

Section properties.
Context {J : Type} `{JudyLLaws J}.
Implicit Types (t : trie J).

Definition trie_wf t : Prop := wf (heap t) (root t).

(** The value of a prefix, as [bf_lpm_trie_retrieve_value] finds it. *)
Definition prefix_value t (prefix : list Z) (plen : Z) : option Z :=
  value_at (heap t) (root t) (path_of prefix plen) (key_of prefix plen).

Lemma trie_create kw b :
  kw ≤ 64 → ∃ t, bf_lpm_trie_create kw b = Some t ∧ trie_wf t ∧ no_full (heap t) ∧
    key_width_bytes t = kw ∧ release_memory t = b ∧ ∀ p n, prefix_value t p n = None.
Proof.
  intros Hk. unfold bf_lpm_trie_create. rewrite (proj2 (Z.leb_le kw 64)) by done.
  eexists. split; [done|]. cbn [heap root key_width_bytes release_memory trie_wf].
  set (r := malloc (∅ : gmap Z (node J))). assert (r = 1) as -> by done.
  assert (∀ l n, ({[1 := zero_node]} : gmap Z (node J)) !! l = Some n → l = 1 ∧ n = zero_node) as Hinv.
  { intros l n [? ?]%lookup_singleton_Some. done. }
  split_and!; [|..|done|done|].
  - unfold trie_wf. simpl. constructor; simpl.
    + exists zero_node. split; [apply lookup_singleton_eq|done].
    + by rewrite lookup_singleton_ne.
    + intros l n b' c [-> ->]%Hinv. simpl. by rewrite JLG_null.
    + intros l m [-> ->]%Hinv. done.
    + intros l n k v [-> ->]%Hinv. simpl. by rewrite JLG_null.
    + intros l n [-> ->]%Hinv. simpl. by rewrite count_null.
    + intros l n [-> ->]%Hinv. simpl. by rewrite count_null.
  - intros l n [-> ->]%Hinv. simpl. rewrite count_null. lia.
  - intros p n. unfold prefix_value, value_at. simpl. destruct (path_of p n) as [|c q]; simpl.
    + rewrite lookup_singleton_eq. simpl. apply JLG_null.
    + unfold next. rewrite lookup_singleton_eq. simpl. by rewrite JLG_null.
Qed.

Lemma retrieve_value_spec t p n :
  trie_wf t → valid_prefix p n → bf_lpm_trie_retrieve_value t p n = Some (prefix_value t p n).
Proof.
  intros Hwf Hv. unfold bf_lpm_trie_retrieve_value, prefix_value, value_at.
  rewrite (walk_loop_spec _ _ _ _ [] _ Hwf eq_refl Hv).
  destruct (find (heap t) (root t) (path_of p n)) as [x|] eqn:E; simpl; [|done].
  destruct (find_dom _ _ _ _ Hwf E) as [m Hm]. by rewrite tail_key_rest, Hm by done.
Qed.

Lemma insert_prefix_fields (m : node J) k v :
  (insert_prefix m k v).2 = (match JLG (PJLarray_prefixes m) k with Some w => negb (w =? 0) | None => false end) ∧
  PJLarray_branches (insert_prefix m k v).1 = PJLarray_branches m ∧
  (∀ k', JLG (PJLarray_prefixes (insert_prefix m k v).1) k' =
    if decide (k' = k) then Some v else JLG (PJLarray_prefixes m) k').
Proof.
  unfold insert_prefix. cbn [fst snd PJLarray_branches PJLarray_prefixes]. split_and!.
  - rewrite JLG_insert, decide_True by done. by destruct (JLG (PJLarray_prefixes m) k).
  - done.
  - intros k'. rewrite JLG_write by (rewrite JLG_insert, decide_True by done; eauto).
    rewrite JLG_insert. by case_decide.
Qed.

Lemma insert_value t p n v :
  trie_wf t → valid_prefix p n → prefix_value t p n ≠ Some 0 →
  ∃ t', bf_lpm_trie_insert t p n v = Some t' ∧ trie_wf t' ∧
    root t' = root t ∧ key_width_bytes t' = key_width_bytes t ∧ release_memory t' = release_memory t ∧
    ∀ q k, value_at (heap t') (root t') q k =
      if decide (q = path_of p n ∧ k = key_of p n) then Some v else value_at (heap t) (root t) q k.
Proof.
  intros Hwf Hv Hold. unfold bf_lpm_trie_insert.
  destruct (insert_loop_spec (root t) p (heap t) n [] (root t) Hwf eq_refl Hv)
    as (h & x & -> & Hwf' & Hfind & Hval). cbn [mbind option_bind].
  rewrite tail_key_rest by done. cbn [mbind option_bind].
  destruct (find_dom _ _ _ _ Hwf' Hfind) as [m Hm]. rewrite Hm. cbn [mbind option_bind].
  set (k := key_of p n) in *. simpl in Hfind.
  destruct (insert_prefix_fields m k v) as (Hrc & Hbr & Hpre).
  assert (branch_num (insert_prefix m k v).1 = branch_num m ∧
    pref_num (insert_prefix m k v).1 = pref_num m ∧ parent (insert_prefix m k v).1 = parent m ∧
    child_id (insert_prefix m k v).1 = child_id m) as (E1 & E2 & E3 & E4) by done.
  destruct (insert_prefix m k v) as [m' rc]. cbn [fst snd] in *.
  set (m2 := if rc then m' else with_pref_num m' (u8 (pref_num m' + 1))).
  assert (PJLarray_prefixes m2 = PJLarray_prefixes m' ∧ PJLarray_branches m2 = PJLarray_branches m ∧
    branch_num m2 = branch_num m ∧ parent m2 = parent m ∧ child_id m2 = child_id m)
    as (F1 & F2 & F3 & F4 & F5) by (unfold m2; destruct rc; done).
  eexists. split; [done|]. cbn [heap root key_width_bytes release_memory]. split_and!; [|done..|].
  - unfold trie_wf. cbn [heap root].
    apply (update_wf h (root t) x (path_of p n) m m2); [done..| |].
    + intros k' w. rewrite F1, Hpre. case_decide; [intros; subst k'; by apply key_of_in|].
      by apply (wf_keys _ _ Hwf' x).
    + rewrite F1. pose proof (wf_prefixes _ _ Hwf' _ _ Hm) as Hc.
      assert (JLG (PJLarray_prefixes m) k ≠ Some 0) as Hold'.
      { unfold prefix_value in Hold. by rewrite <- Hval, (value_at_Some _ _ _ _ _ _ Hfind Hm) in Hold. }
      unfold m2. destruct (JLG (PJLarray_prefixes m) k) as [w|] eqn:Ew.
      * rewrite (proj2 (Z.eqb_neq w 0)) in Hrc by congruence. simpl in Hrc. subst rc. rewrite E2, Hc.
        f_equal. symmetry. apply count_same. intros k'. rewrite Hpre. case_decide; [|done].
        subst k'. rewrite Ew. split; eauto.
      * subst rc. simpl. rewrite E2, Hc, u8_succ. f_equal. symmetry.
        apply (count_add _ _ _ k); [apply NoDup_prefix_keys|by apply key_of_in|done| |].
        -- rewrite Hpre, decide_True by done. eauto.
        -- intros k' Hk'. by rewrite Hpre, decide_False.
  - intros q k'. rewrite (update_value h (root t) x (path_of p n) m m2) by done.
    rewrite F1, Hpre, Hval. destruct (decide (q = path_of p n)) as [->|].
    + destruct (decide (k' = k)) as [->|]; [by rewrite decide_True|].
      rewrite decide_False by (by intros [_ ?]).
      by rewrite <- Hval, (value_at_Some _ _ _ _ _ _ Hfind Hm).
    + rewrite decide_False; [done|]. by intros [? _].
Qed.

Lemma delete_prefix_fields (m : node J) k :
  (delete_prefix m k).2 = bool_decide (is_Some (JLG (PJLarray_prefixes m) k)) ∧
  (∀ k', JLG (PJLarray_prefixes (delete_prefix m k).1) k' =
    if decide (k' = k) then None else JLG (PJLarray_prefixes m) k') ∧
  PJLarray_branches (delete_prefix m k).1 = PJLarray_branches m ∧
  branch_num (delete_prefix m k).1 = branch_num m ∧ pref_num (delete_prefix m k).1 = pref_num m ∧
  parent (delete_prefix m k).1 = parent m ∧ child_id (delete_prefix m k).1 = child_id m.
Proof.
  unfold delete_prefix. pose proof (JLD_rc (PJLarray_prefixes m) k) as Hrc.
  pose proof (λ k', JLG_delete (PJLarray_prefixes m) k k') as Hd.
  destruct (JLD (PJLarray_prefixes m) k) as [j rc]. done.
Qed.

(** The store after the prefix is removed, before empty nodes are freed. *)
Lemma delete_node_wf h root x p (m : node J) k v :
  wf h root → no_full h → find h root p = Some x → h !! x = Some m →
  JLG (PJLarray_prefixes m) k = Some v →
  let m' := with_pref_num (delete_prefix m k).1 (u8 (pref_num (delete_prefix m k).1 - 1)) in
  wf (<[x := m']> h) root ∧ no_full (<[x := m']> h) ∧ find (<[x := m']> h) root p = Some x ∧
  ∀ q k', value_at (<[x := m']> h) root q k' =
    if decide (q = p ∧ k' = k) then None else value_at h root q k'.
Proof.
  intros Hwf Hfull Hfind Hm Hk m'.
  destruct (delete_prefix_fields m k) as (_ & Hpre & F1 & F2 & F3 & F4 & F5).
  split_and!.
  - apply (update_wf h root x p m m'); [done..| |].
    + intros k' w. simpl. rewrite Hpre. case_decide; [done|]. by apply (wf_keys _ _ Hwf x).
    + simpl. rewrite F3, (wf_prefixes _ _ Hwf _ _ Hm).
      rewrite (count_add (PJLarray_prefixes (delete_prefix m k).1) (PJLarray_prefixes m) prefix_keys k);
        [by rewrite u8_pred|apply NoDup_prefix_keys|by apply (wf_keys _ _ Hwf x m k v)| |by rewrite Hk|].
      * by rewrite Hpre, decide_True.
      * intros k' Hk'. by rewrite Hpre, decide_False.
  - intros l n. rewrite lookup_insert. case_decide; [|by apply Hfull].
    intros [= <-]. simpl. rewrite F1. by apply (Hfull x).
  - by rewrite (update_find h x m m').
  - intros q k'. rewrite (update_value h root x p m m') by done. simpl. rewrite Hpre.
    destruct (decide (q = p)) as [->|].
    + destruct (decide (k' = k)) as [->|]; [by rewrite decide_True|].
      rewrite decide_False by (by intros [_ ?]). by rewrite (value_at_Some _ _ _ _ _ _ Hfind Hm).
    + rewrite decide_False; [done|]. by intros [? _].
Qed.

Lemma delete_value t p n :
  trie_wf t → no_full (heap t) → release_memory t = true → valid_prefix p n →
  ∃ t', bf_lpm_trie_delete t p n = Some (t', bool_decide (is_Some (prefix_value t p n))) ∧
    trie_wf t' ∧ no_full (heap t') ∧
    root t' = root t ∧ key_width_bytes t' = key_width_bytes t ∧ release_memory t' = true ∧
    ∀ q k, value_at (heap t') (root t') q k =
      if decide (q = path_of p n ∧ k = key_of p n) then None else value_at (heap t) (root t) q k.
Proof.
  intros Hwf Hfull Hrel Hv. unfold bf_lpm_trie_delete.
  rewrite (walk_loop_spec _ _ _ _ [] _ Hwf eq_refl Hv).
  assert (prefix_value t p n = None → ∃ t', Some (t, false) =
    Some (t', bool_decide (is_Some (prefix_value t p n))) ∧ trie_wf t' ∧ no_full (heap t') ∧
    root t' = root t ∧ key_width_bytes t' = key_width_bytes t ∧ release_memory t' = true ∧
    ∀ q k, value_at (heap t') (root t') q k =
      if decide (q = path_of p n ∧ k = key_of p n) then None else value_at (heap t) (root t) q k) as Hnone.
  { intros E. rewrite E. exists t. split_and!; [done..|].
    intros q k. case_decide as Hd; [|done]. by destruct Hd as [-> ->]. }
  unfold prefix_value in *.
  destruct (find (heap t) (root t) (path_of p n)) as [x|] eqn:E; msimpl;
    [|apply Hnone; by apply value_at_None].
  rewrite tail_key_rest by done. msimpl.
  destruct (find_dom _ _ _ _ Hwf E) as [m Hm]. rewrite Hm. msimpl.
  rewrite (value_at_Some _ _ _ _ _ _ E Hm) in *. unfold get_prefix_ptr.
  destruct (JLG (PJLarray_prefixes m) (key_of p n)) as [v|] eqn:Ev; [|by apply Hnone].
  rewrite Hrel. destruct (delete_node_wf _ _ _ _ _ _ _ Hwf Hfull E Hm Ev) as (Hwf' & Hfull' & Hfind & Hval).
  destruct (delete_prefix_fields m (key_of p n)) as (Hrc & _).
  rewrite Ev, bool_decide_true in Hrc by eauto.
  destruct (delete_prefix m (key_of p n)) as [m' rc]. cbn [fst snd] in *. subst rc.
  edestruct (shrink_loop_spec (root t) (S (S (length p)))) as (h & -> & ? & ? & Hval');
    [exact Hwf'|exact Hfull'|exact Hfind| |].
  { unfold path_of. rewrite length_take. lia. }
  msimpl. eexists. split; [done|]. cbn [heap root key_width_bytes release_memory].
  split_and!; [done..|]. intros q k. by rewrite Hval'.
Qed.

Lemma prefix_value_update t t' p n o :
  (∀ q k, value_at (heap t') (root t') q k =
      if decide (q = path_of p n ∧ k = key_of p n) then o else value_at (heap t) (root t) q k) →
  valid_prefix p n → ∀ q m, valid_prefix q m →
  (same_prefix p n q m → prefix_value t' q m = o) ∧
  (¬ same_prefix p n q m → prefix_value t' q m = prefix_value t q m).
Proof.
  intros Hval Hp q m Hq. unfold prefix_value. rewrite Hval.
  pose proof (same_prefix_key p n q m Hp Hq) as Hsame. split.
  - intros [? ?]%Hsame. by rewrite decide_True.
  - intros Hn. rewrite decide_False; [done|]. intros [? ?]. apply Hn, Hsame. done.
Qed.

(** A trie behaves as a map from prefixes to values under insertion: the
    inserted prefix (that length, those bits) gets the value and every other
    prefix keeps what it had. The prefix must not be there with the value 0,
    which the trie takes for an absent one. *)
Theorem insert_retrieve t p n v :
  trie_wf t → valid_prefix p n → bf_lpm_trie_retrieve_value t p n ≠ Some (Some 0) →
  ∃ t', bf_lpm_trie_insert t p n v = Some t' ∧ trie_wf t' ∧
    ∀ q m, valid_prefix q m →
      (same_prefix p n q m → bf_lpm_trie_retrieve_value t' q m = Some (Some v)) ∧
      (¬ same_prefix p n q m →
         bf_lpm_trie_retrieve_value t' q m = bf_lpm_trie_retrieve_value t q m).
Proof.
  intros Hwf Hv Hold. rewrite retrieve_value_spec in Hold by done.
  destruct (insert_value t p n v Hwf Hv) as (t' & Hins & Hwf' & _ & _ & _ & Hval); [congruence|].
  exists t'. split_and!; [done..|]. intros q m Hq. rewrite !retrieve_value_spec by done.
  destruct (prefix_value_update t t' p n (Some v) Hval Hv q m Hq) as [H1 H2].
  split; intros Hs; [by rewrite H1|by rewrite H2].
Qed.

(** Deletion removes exactly the prefix it is given, says whether it was
    there, and frees only nodes that are empty: no other prefix is lost, as
    long as no node has all of its 256 children (see [delete_full_node]). *)
Theorem delete_retrieve t p n :
  trie_wf t → no_full (heap t) → release_memory t = true → valid_prefix p n →
  ∃ t' b, bf_lpm_trie_delete t p n = Some (t', b) ∧ trie_wf t' ∧ no_full (heap t') ∧
    bf_lpm_trie_has_prefix t p n = Some b ∧
    ∀ q m, valid_prefix q m →
      (same_prefix p n q m → bf_lpm_trie_retrieve_value t' q m = Some None) ∧
      (¬ same_prefix p n q m →
         bf_lpm_trie_retrieve_value t' q m = bf_lpm_trie_retrieve_value t q m).
Proof.
  intros Hwf Hfull Hrel Hv.
  destruct (delete_value t p n Hwf Hfull Hrel Hv) as (t' & Hdel & Hwf' & Hfull' & _ & _ & _ & Hval).
  exists t', (bool_decide (is_Some (prefix_value t p n))). split_and!; [done..| |].
  - unfold bf_lpm_trie_has_prefix. rewrite retrieve_value_spec by done. simpl.
    destruct (prefix_value t p n); [by rewrite bool_decide_true by eauto|].
    rewrite bool_decide_false; [done|]. by intros [? ?].
  - intros q m Hq. rewrite !retrieve_value_spec by done.
    destruct (prefix_value_update t t' p n None Hval Hv q m Hq) as [H1 H2].
    split; intros Hs; [by rewrite H1|by rewrite H2].
Qed.

Lemma trie_lookup_spec t key :
  trie_wf t → bytes_ok key → 0 ≤ key_width_bytes t ≤ Z.of_nat (length key) →
  bf_lpm_trie_lookup t key =
    Some (longest (prefix_value t key) (8 * Z.to_nat (key_width_bytes t))).
Proof.
  intros Hwf Hok Hw. unfold bf_lpm_trie_lookup.
  rewrite (lookup_loop_spec _ _ _ _ [] _ _ Hwf eq_refl Hok) by lia.
  rewrite longest_scan, Nat.add_1_r. done.
Qed.

(** C7: looking a key up is the longest prefix match: it returns the value of
    a prefix of the key such that no longer prefix of the key is in the trie,
    and finds nothing only when no prefix of the key is. *)
Theorem lookup_longest t key :
  trie_wf t → bytes_ok key → 0 ≤ key_width_bytes t ≤ Z.of_nat (length key) →
  ∃ r, bf_lpm_trie_lookup t key = Some r ∧
    match r with
    | Some v => ∃ m, 0 ≤ m ≤ 8 * key_width_bytes t ∧
        bf_lpm_trie_retrieve_value t key m = Some (Some v) ∧
        ∀ m', m < m' ≤ 8 * key_width_bytes t → bf_lpm_trie_retrieve_value t key m' = Some None
    | None => ∀ m, 0 ≤ m ≤ 8 * key_width_bytes t → bf_lpm_trie_retrieve_value t key m = Some None
    end.
Proof.
  intros Hwf Hok Hw. rewrite trie_lookup_spec by done. eexists. split; [done|].
  assert (∀ m, 0 ≤ m ≤ 8 * key_width_bytes t →
    bf_lpm_trie_retrieve_value t key m = Some (prefix_value t key m)) as Hret.
  { intros m Hm. apply retrieve_value_spec; [done|]. split; [done|lia]. }
  pose proof (longest_spec (prefix_value t key) (8 * Z.to_nat (key_width_bytes t))) as Hl.
  replace (Z.of_nat (8 * Z.to_nat (key_width_bytes t))) with (8 * key_width_bytes t) in Hl by lia.
  destruct (longest _ _) as [v|].
  - destruct Hl as (m & ? & Hm & Hlong). exists m. split_and!; [lia|lia| |].
    + by rewrite Hret, Hm.
    + intros m' ?. rewrite Hret, Hlong by lia. done.
  - intros m ?. by rewrite Hret, Hl.
Qed.
End properties.

(** ** A node with all its children *)

Section full_node.
Import JudyLMap.

(** [/16] prefixes [10.b], for every byte [b]. *)
Definition insert_all (t : option (trie (gmap Z Z))) : option (trie (gmap Z Z)) :=
  foldl (λ t b, t ← t; bf_lpm_trie_insert t [10; b] 16 (b + 1)) t all_bytes.

Definition full_node_check : bool :=
  match (t ← insert_all (bf_lpm_trie_create 4 true); bf_lpm_trie_insert t [10] 8 1000) with
  | None => false
  | Some t =>
      match bf_lpm_trie_delete t [10] 8 with
      | None => false
      | Some (t', b0) =>
          b0 && forallb (λ b,
            bool_decide (bf_lpm_trie_lookup t [10; b; 0; 0] = Some (Some (b + 1))) &&
            bool_decide (bf_lpm_trie_lookup t' [10; b; 0; 0] = Some None)) all_bytes
      end
  end.

Lemma full_node_checked : full_node_check = true.
Proof. vm_compute. reflexivity. Qed.

(** [branch_num] is an [unsigned char], so a node with all of its 256
    children counts none; deleting the last prefix that ends at that node then
    frees the node, and with it every prefix below. *)
Theorem delete_full_node :
  ∃ t t', (t ← insert_all (bf_lpm_trie_create 4 true); bf_lpm_trie_insert t [10] 8 1000) = Some t ∧
    bf_lpm_trie_delete t [10] 8 = Some (t', true) ∧
    (∀ b, byte_ok b → bf_lpm_trie_lookup t [10; b; 0; 0] = Some (Some (b + 1))) ∧
    (∀ b, byte_ok b → bf_lpm_trie_lookup t' [10; b; 0; 0] = Some None).
Proof.
  pose proof full_node_checked as Hc. unfold full_node_check in Hc.
  destruct (t ← insert_all (bf_lpm_trie_create 4 true); bf_lpm_trie_insert t [10] 8 1000)
    as [t|]; [|done].
  destruct (bf_lpm_trie_delete t [10] 8) as [[t' b0]|] eqn:Ed; [|done].
  apply andb_true_iff in Hc as [-> Hall]. rewrite forallb_forall in Hall.
  exists t, t'. split_and!; [done|done| |]; intros b Hb;
    specialize (Hall b ltac:(apply list_elem_of_In, elem_of_all_bytes; done));
    apply andb_true_iff in Hall as [H1 H2]; by eapply bool_decide_eq_true.
Qed.
End full_node.

End LpmTrie.

(** ** Witnesses *)

Section witnesses.
Import JudyLMap LpmTrie.

(** 10.0.0.0/8 and 10.1.0.0/16. *)
Definition ex0 : trie (gmap Z Z) := Trie {[1 := zero_node]} 1 4 true.
Definition ex1 := default ex0 (bf_lpm_trie_insert ex0 [10] 8 1).
Definition ex2 := default ex0 (bf_lpm_trie_insert ex1 [10; 1] 16 2).

Lemma valid_prefix_bool p n :
  bool_decide (bytes_ok p ∧ 0 ≤ n ≤ 8 * Z.of_nat (length p)) = true → valid_prefix p n.
Proof. apply bool_decide_eq_true. Defined.

Lemma ex0_wf : trie_wf ex0.
Proof.
  destruct (trie_create (J := gmap Z Z) 4 true) as (t & Ht & Hwf & _); [lia|].
  assert (t = ex0) as ->; [|done]. vm_compute in Ht. injection Ht as <-. reflexivity.
Qed.

Lemma insert_default_wf t p n v :
  trie_wf t → valid_prefix p n → bf_lpm_trie_retrieve_value t p n ≠ Some (Some 0) →
  trie_wf (default ex0 (bf_lpm_trie_insert t p n v)).
Proof.
  intros Hwf Hv Hold. rewrite retrieve_value_spec in Hold by done.
  destruct (insert_value t p n v Hwf Hv) as (t' & -> & Hwf' & _); [congruence|done].
Qed.

Lemma ex2_wf : trie_wf ex2.
Proof.
  apply insert_default_wf; [|by apply valid_prefix_bool|vm_compute; congruence].
  apply insert_default_wf; [apply ex0_wf|by apply valid_prefix_bool|vm_compute; congruence].
Qed.

Lemma ex2_no_full : no_full (heap ex2).
Proof.
  assert (map_Forall (λ _ n, count (PJLarray_branches n) all_bytes < 256) (heap ex2)) as Hall;
    [|intros l n; apply Hall].
  refine (bool_decide_unpack _ _). vm_compute. exact I.
Qed.

Lemma insert_retrieve_witness :
  ∃ t', bf_lpm_trie_insert ex2 [10; 64] 10 3 = Some t' ∧ trie_wf t' ∧
    ∀ q m, valid_prefix q m →
      (same_prefix [10; 64] 10 q m → bf_lpm_trie_retrieve_value t' q m = Some (Some 3)) ∧
      (¬ same_prefix [10; 64] 10 q m →
         bf_lpm_trie_retrieve_value t' q m = bf_lpm_trie_retrieve_value ex2 q m).
Proof.
  apply (insert_retrieve ex2 [10; 64] 10 3);
    [apply ex2_wf|by apply valid_prefix_bool|vm_compute; congruence].
Defined.

Lemma delete_retrieve_witness :
  ∃ t' b, bf_lpm_trie_delete ex2 [10; 1] 16 = Some (t', b) ∧ trie_wf t' ∧ no_full (heap t') ∧
    bf_lpm_trie_has_prefix ex2 [10; 1] 16 = Some b ∧
    ∀ q m, valid_prefix q m →
      (same_prefix [10; 1] 16 q m → bf_lpm_trie_retrieve_value t' q m = Some None) ∧
      (¬ same_prefix [10; 1] 16 q m →
         bf_lpm_trie_retrieve_value t' q m = bf_lpm_trie_retrieve_value ex2 q m).
Proof.
  apply (delete_retrieve ex2 [10; 1] 16);
    [apply ex2_wf|apply ex2_no_full|reflexivity|by apply valid_prefix_bool].
Defined.

Lemma lookup_longest_witness :
  bf_lpm_trie_lookup ex2 [10; 1; 2; 3] = Some (Some 2) ∧
  ∃ r, bf_lpm_trie_lookup ex2 [10; 1; 2; 3] = Some r ∧
    match r with
    | Some v => ∃ m, 0 ≤ m ≤ 8 * key_width_bytes ex2 ∧
        bf_lpm_trie_retrieve_value ex2 [10; 1; 2; 3] m = Some (Some v) ∧
        ∀ m', m < m' ≤ 8 * key_width_bytes ex2 →
          bf_lpm_trie_retrieve_value ex2 [10; 1; 2; 3] m' = Some None
    | None => ∀ m, 0 ≤ m ≤ 8 * key_width_bytes ex2 →
        bf_lpm_trie_retrieve_value ex2 [10; 1; 2; 3] m = Some None
    end.
Proof.
  split; [vm_compute; reflexivity|].
  apply (lookup_longest ex2 [10; 1; 2; 3]);
    [apply ex2_wf|by refine (bool_decide_unpack _ _)|vm_compute; split; congruence].
Defined.
End witnesses.
