(* ===== verification/ByteContainer.v ===== *)
(** * Byte containers and hexadecimal strings (include/bm/bm_sim/bytecontainer.h,
      src/bm_sim/bytecontainer.cpp, src/bm_sim/utils.h)

    A [ByteContainer] is the list of its bytes; a [std::string] is the list of
    its character codes. [None] is a failed assertion or an access out of
    bounds. *)

From S2P Require Import Prelude.
From Stdlib Require Import Ascii.

Module ByteContainer.

(** The codes of the characters of a literal. *)
Definition chars (s : string) : list Z :=
  (λ c, Z.of_nat (nat_of_ascii c)) <$> String.list_ascii_of_string s.

(** [std::string::operator[]]: the terminating null character at the end. *)
Definition char_at (s : list Z) (i : Z) : option Z :=
  if i =? Z.of_nat (length s) then Some 0 else vget s i.

Definition char2digit (c : Z) : option Z :=
  if (48 <=? c) && (c <=? 57) then Some (c - 48)
  else if (65 <=? c) && (c <=? 70) then Some (c - 65 + 10)
  else if (97 <=? c) && (c <=? 102) then Some (c - 97 + 10)
  else None.

(** [for (; idx < size; )]: two digits per byte. *)
Fixpoint hex_loop (fuel : nat) (hexstring : list Z) (idx : Z) (bytes : list Z) : option (list Z) :=
  match fuel with
  | O => None
  | S fuel' =>
      if idx <? Z.of_nat (length hexstring) then
        hi ← vget hexstring idx;
        hi ← char2digit hi;
        let c := u8 (Z.shiftl hi 4) in
        lo ← char_at hexstring (idx + 1);
        lo ← char2digit lo;
        hex_loop fuel' hexstring (idx + 2) (bytes ++ [u8 (c + lo)])
      else Some bytes
  end.

(** [ByteContainer(const std::string &hexstring)] *)
Definition of_hex (hexstring : list Z) : option (list Z) :=
  c0 ← char_at hexstring 0;
  if c0 =? 45 then None else
  idx ← (if c0 =? 48 then c1 ← char_at hexstring 1; Some (if c1 =? 120 then 2 else 0) else Some 0);
  let size := Z.of_nat (length hexstring) in
  if 0 <? size - idx then
    '(idx, bytes) ← (if (size - idx) mod 2 =? 0 then Some (idx, []) else
      c ← vget hexstring idx;
      c ← char2digit c;
      Some (idx + 1, [c]));
    hex_loop (S (length hexstring)) hexstring idx bytes
  else None.

(** A digit, as [std::hex] prints it. *)
Definition hex_digit (upper_case : bool) (d : Z) : Z :=
  if d <? 10 then 48 + d else (if upper_case then 65 else 97) + (d - 10).

(** [std::setw(2) << std::setfill('0') << std::hex] of an [unsigned char]. *)
Definition hex_byte (upper_case : bool) (b : Z) : list Z :=
  [hex_digit upper_case (b / 16); hex_digit upper_case (b mod 16)].

Definition dump_hexstring (upper_case : bool) (bytes : list Z) : list Z :=
  bytes ≫= hex_byte upper_case.

Definition to_hex (bytes : list Z) (start s : Z) (upper_case : bool) : option (list Z) :=
  if start + s <=? Z.of_nat (length bytes) then
    Some (dump_hexstring upper_case (take (Z.to_nat s) (drop (Z.to_nat start) bytes)))
  else None.

(** [for (size_t i = 0; i < size(); i++) bytes[i] &= mask[i]] *)
Definition apply_mask (bytes mask : list Z) : option (list Z) :=
  if Z.of_nat (length bytes) =? Z.of_nat (length mask) then Some (zip_with Z.land bytes mask) else None.

Definition resize (bytes : list Z) (n : Z) (c : Z) : list Z :=
  take (Z.to_nat n) bytes ++ replicate (Z.to_nat n - length bytes) c.

Example of_hex_odd : of_hex (chars "0xabc") = Some [0xa; 0xbc].
Proof. reflexivity. Qed.
Example of_hex_plain : of_hex (chars "0A1b") = Some [0xa; 0x1b].
Proof. reflexivity. Qed.
Example to_hex_ab : to_hex [0xab; 0x01] 0 2 false = Some (chars "ab01").
Proof. reflexivity. Qed.

(** ** Round trip *)

Lemma char2digit_hex u d : 0 ≤ d < 16 → char2digit (hex_digit u d) = Some d.
Proof.
  intros Hd. unfold hex_digit, char2digit. destruct (Z.ltb_spec d 10) as [H|H].
  - rewrite (proj2 (Z.leb_le 48 (48 + d))), (proj2 (Z.leb_le (48 + d) 57)) by lia. simpl. f_equal. lia.
  - destruct u.
    + rewrite (proj2 (Z.leb_gt (65 + (d - 10)) 57)) by lia. rewrite andb_false_r.
      rewrite (proj2 (Z.leb_le 65 _)), (proj2 (Z.leb_le (65 + (d - 10)) 70)) by lia. simpl. f_equal. lia.
    + rewrite (proj2 (Z.leb_gt (97 + (d - 10)) 57)) by lia. rewrite andb_false_r.
      rewrite (proj2 (Z.leb_gt (97 + (d - 10)) 70)) by lia. rewrite andb_false_r.
      rewrite (proj2 (Z.leb_le 97 _)), (proj2 (Z.leb_le (97 + (d - 10)) 102)) by lia. simpl. f_equal. lia.
Qed.

Lemma hex_digit_ne u d c : 0 ≤ d < 16 → c = 45 ∨ c = 120 → hex_digit u d ≠ c.
Proof. intros Hd Hc. unfold hex_digit. destruct (Z.ltb_spec d 10), u; lia. Qed.

Lemma length_hex u bs : length (dump_hexstring u bs) = (2 * length bs)%nat.
Proof.
  induction bs as [|b bs IH]; [done|].
  change (S (S (length (dump_hexstring u bs))) = (2 * S (length bs))%nat). rewrite IH. lia.
Qed.

Lemma byte_nibbles b : byte_ok b → 0 ≤ b / 16 < 16 ∧ 0 ≤ b mod 16 < 16 ∧
  u8 (u8 (Z.shiftl (b / 16) 4) + b mod 16) = b.
Proof.
  unfold byte_ok. intros Hb. pose proof (Z.mod_pos_bound b 16). pose proof (Z.div_mod b 16).
  assert (0 ≤ b / 16 < 16) by (split; [apply Z.div_pos; lia|apply Z.div_lt_upper_bound; lia]).
  split_and!; try lia. rewrite Z.shiftl_mul_pow2 by lia. rewrite (wrap_small 8 (b / 16 * 2 ^ 4)) by lia. rewrite wrap_small by lia. lia.
Qed.

Lemma hex_loop_dump u bs : ∀ fuel pre acc,
  bytes_ok bs → (length bs < fuel)%nat →
  hex_loop fuel (pre ++ dump_hexstring u bs) (Z.of_nat (length pre)) acc = Some (acc ++ bs).
Proof.
  induction bs as [|b bs IH]; intros fuel pre acc Hbs Hf; (destruct fuel as [|fuel]; [lia|]).
  - cbn [hex_loop]. rewrite app_nil_r, Z.ltb_irrefl. by rewrite app_nil_r.
  - apply Forall_cons in Hbs as [Hb Hbs]. simpl in Hf. destruct (byte_nibbles b Hb) as (Hhi & Hlo & Hval).
    set (hi := hex_digit u (b / 16)). set (lo := hex_digit u (b mod 16)).
    change (dump_hexstring u (b :: bs)) with (hi :: lo :: dump_hexstring u bs). cbn [hex_loop].
    assert (length (pre ++ hi :: lo :: dump_hexstring u bs) =
      (length pre + 2 + length (dump_hexstring u bs))%nat) as Hlen by (rewrite length_app; simpl; lia).
    rewrite (proj2 (Z.ltb_lt _ _)) by lia.
    rewrite vget_nat, Nat2Z.id, list_lookup_middle by (done || lia). msimpl.
    rewrite (char2digit_hex u _ Hhi : char2digit hi = _). msimpl. unfold char_at.
    rewrite (proj2 (Z.eqb_neq _ _)) by lia. rewrite vget_nat by lia.
    rewrite lookup_app_r by lia. replace (_ - _)%nat with 1%nat by lia. msimpl. cbn [lookup list_lookup].
    msimpl. rewrite (char2digit_hex u _ Hlo : char2digit lo = _). msimpl. rewrite Hval.
    replace (pre ++ hi :: lo :: dump_hexstring u bs) with ((pre ++ [hi; lo]) ++ dump_hexstring u bs)
      by by rewrite <- app_assoc.
    replace (Z.of_nat (length pre) + 2) with (Z.of_nat (length (pre ++ [hi; lo])))
      by (rewrite length_app; simpl; lia).
    rewrite IH by (done || lia). by rewrite <- app_assoc.
Qed.

(** Reading a printed container back. *)
Lemma of_hex_dump u bs : bytes_ok bs → bs ≠ [] → of_hex (dump_hexstring u bs) = Some bs.
Proof.
  intros Hbs Hne. destruct bs as [|b bs]; [done|]. pose proof Hbs as [Hb Hbs']%Forall_cons.
  destruct (byte_nibbles b Hb) as (Hhi & Hlo & _). pose proof (length_hex u (b :: bs)) as Hlen.
  change (length (b :: bs)) with (S (length bs)) in Hlen.
  unfold of_hex. set (s := dump_hexstring u (b :: bs)) in *.
  assert (char_at s 0 = Some (hex_digit u (b / 16)) ∧ char_at s 1 = Some (hex_digit u (b mod 16))) as [-> ->]
    by (unfold char_at; rewrite !(proj2 (Z.eqb_neq _ _)) by lia; done).
  msimpl. rewrite (proj2 (Z.eqb_neq _ 45)) by (apply hex_digit_ne; auto).
  assert ((if hex_digit u (b / 16) =? 48
    then Some (if hex_digit u (b mod 16) =? 120 then 2 else 0) else Some 0) = Some 0) as ->.
  { rewrite (proj2 (Z.eqb_neq _ 120)) by (apply hex_digit_ne; auto). by case_match. }
  msimpl. rewrite Z.sub_0_r. rewrite (proj2 (Z.ltb_lt 0 _)) by lia.
  replace (Z.of_nat (length s) mod 2 =? 0) with true; cycle 1.
  { symmetry. apply Z.eqb_eq. rewrite Hlen, Nat2Z.inj_mul, Z.mul_comm. apply Z.mod_mul. lia. }
  msimpl. apply (hex_loop_dump u (b :: bs) _ [] []); [done|]. rewrite Hlen. simpl. lia.
Qed.

(** A byte container printed as a hexadecimal string, in either case, is
    read back as it was, unless it is empty: what serialization relies on. *)
Theorem hex_roundtrip u bs :
  bytes_ok bs → bs ≠ [] →
  ∃ s, to_hex bs 0 (Z.of_nat (length bs)) u = Some s ∧ of_hex s = Some bs.
Proof.
  intros Hbs Hne. unfold to_hex. rewrite (proj2 (Z.leb_le _ _)) by lia.
  eexists. split; [done|]. rewrite Nat2Z.id. simpl. rewrite take_ge by done. by apply of_hex_dump.
Qed.
End ByteContainer.

Lemma hex_roundtrip_witness :
  ∃ s, ByteContainer.to_hex [10; 0; 255] 0 3 false = Some s ∧ ByteContainer.of_hex s = Some [10; 0; 255].
Proof.
  apply (ByteContainer.hex_roundtrip false [10; 0; 255]);
    [refine (bool_decide_unpack _ _); vm_compute; exact I|done].
Defined.
