(* ===== verification/Data.v ===== *)
(** * Big numbers and data (include/bm/bm_sim/bignum.h, data.h)

    [Data] holds an arbitrarily large integer, a [Z] here. The functions of GMP
    that convert integers to bytes and test bits are the operations of the
    class [Gmp], and their documented behaviour the class [GmpLaws]. An
    operation of [Data] is [None] when an assertion fails. *)

From S2P Require Import Prelude ByteContainer.

(** ** The GMP functions bignum.h calls *)

Class Gmp := {
  mpz_import : Z → list Z → Z;        (** one word of [size] bytes, big endian *)
  mpz_export : Z → Z → list Z;        (** the words of [size] bytes written *)
  mpz_tstbit : Z → Z → bool;
  mpz_clrbit : Z → Z → Z;
  mpz_sizeinbase2 : Z → Z;
  convert_to_uint : Z → Z;            (** [convert_to<unsigned int>] *)
}.

(** The [n] bytes of a number, most significant first. *)
Fixpoint be_bytes (n : nat) (z : Z) : list Z :=
  match n with
  | O => []
  | S n' => be_bytes n' (z / 256) ++ [z mod 256]
  end.

Class GmpLaws `{Gmp} := {
  mpz_import_be size src : size = Z.of_nat (length src) → mpz_import size src = be_value src;
  mpz_export_zero size : mpz_export size 0 = [];
  mpz_export_one size z : 0 < size → 0 < z < 256 ^ size → mpz_export size z = be_bytes (Z.to_nat size) z;
  mpz_tstbit_bit z i : 0 ≤ i → mpz_tstbit z i = Z.testbit z i;
  mpz_clrbit_bit z i : 0 ≤ i → mpz_clrbit z i = Z.clearbit z i;
  mpz_sizeinbase2_log z : 0 < z → mpz_sizeinbase2 z = Z.log2 z + 1;
  convert_to_uint_small z : 0 ≤ z < 2 ^ 32 → convert_to_uint z = z;
}.

(** An instance, to evaluate the definitions. *)
Module GmpExample.
#[export] Instance Gmp_Z : Gmp := {
  mpz_import size src := be_value (take (Z.to_nat size) src);
  mpz_export size z := if z =? 0 then [] else be_bytes (Z.to_nat size) z;
  mpz_tstbit := Z.testbit;
  mpz_clrbit := Z.clearbit;
  mpz_sizeinbase2 z := Z.log2 z + 1;
  convert_to_uint z := u32 z;
}.

#[export] Instance Gmp_Z_laws : GmpLaws.
Proof.
  constructor; cbn; intros; try done.
  - by rewrite take_ge by lia.
  - rewrite (proj2 (Z.eqb_neq z 0)) by lia. done.
  - by apply wrap_small.
Qed.
End GmpExample.

(** ** Lemmas on big-endian bytes *)

Lemma length_be_bytes n z : length (be_bytes n z) = n.
Proof. revert z. induction n as [|n IH]; intros z; simpl; [done|]. rewrite length_app, IH. simpl. lia. Qed.

Lemma be_bytes_ok n z : bytes_ok (be_bytes n z).
Proof.
  revert z. induction n as [|n IH]; intros z; simpl; [constructor|].
  apply Forall_app. split; [apply IH|]. constructor; [|constructor]. unfold byte_ok.
  pose proof (Z.mod_pos_bound z 256). lia.
Qed.

Lemma be_value_snoc l b : be_value (l ++ [b]) = 256 * be_value l + b.
Proof. unfold be_value. by rewrite foldl_app. Qed.

Lemma be_value_bytes n z : be_value (be_bytes n z) = z mod 256 ^ Z.of_nat n.
Proof.
  revert z. induction n as [|n IH]; intros z; simpl be_bytes; [by rewrite Z.mod_1_r|].
  rewrite be_value_snoc, IH, Nat2Z.inj_succ, Z.pow_succ_r by lia.
  rewrite Z.rem_mul_r by (try apply Z.pow_nonzero; lia). lia.
Qed.

Lemma be_value_zeros n : be_value (replicate n 0) = 0.
Proof. induction n as [|n IH]; [done|]. simpl. rewrite be_value_cons, IH. lia. Qed.

Lemma be_value_inj a b :
  bytes_ok a → bytes_ok b → length a = length b → be_value a = be_value b → a = b.
Proof.
  intros Ha. revert b. induction Ha as [|x a Hx Ha IH]; intros [|y b] Hb Hlen Heq; try done.
  apply Forall_cons in Hb as [Hy Hb]. injection Hlen as Hlen. rewrite !be_value_cons, <- Hlen in Heq.
  pose proof (be_value_range a Ha). pose proof (be_value_range b Hb) as Rb. rewrite <- Hlen in Rb.
  assert (x = y) as -> by nia. f_equal. apply IH; [done..|lia].
Qed.

Lemma be_bytes_value l : bytes_ok l → be_bytes (length l) (be_value l) = l.
Proof.
  intros Hl. apply be_value_inj; [apply be_bytes_ok|done|apply length_be_bytes|].
  rewrite be_value_bytes. apply Z.mod_small. by apply be_value_range.
Qed.

(** ** Data *)

Module Data.

Record Data := { value : Z; arith : bool }.

Section operations.
Context `{Gmp}.
Implicit Types (src : Data).

(** [Data(const char *bytes, int nbytes)] and [set(bytes, nbytes)] *)
Definition import_bytes (bytes : list Z) (nbytes : Z) : Z := mpz_import nbytes bytes.

(** [set(const std::string &hexstring)]: the value it sets. *)
Definition of_hexstring (hexstring : list Z) : option Z :=
  c0 ← ByteContainer.char_at hexstring 0;
  let neg := c0 =? 45 in
  let idx := if neg then 1 else 0 in
  c0 ← ByteContainer.char_at hexstring idx;
  idx ← (if c0 =? 48 then
           c1 ← ByteContainer.char_at hexstring (idx + 1);
           Some (if c1 =? 120 then idx + 2 else idx)
         else Some idx);
  let size := Z.of_nat (length hexstring) in
  if 0 <? size - idx then
    '(idx, bytes) ← (if (size - idx) mod 2 =? 0 then Some (idx, []) else
      c ← vget hexstring idx;
      c ← ByteContainer.char2digit c;
      Some (idx + 1, [c]));
    bytes ← ByteContainer.hex_loop (S (length hexstring)) hexstring idx bytes;
    let value := mpz_import (Z.of_nat (length bytes)) bytes in
    Some (if neg then - value else value)
  else None.

Definition get_uint src : option Z :=
  if arith src then Some (convert_to_uint (value src)) else None.

Definition get_string src : option (list Z) :=
  if arith src then
    let export_size := (mpz_sizeinbase2 (value src) + 7) / 8 in
    memcpy (replicate (Z.to_nat export_size) 0) (mpz_export export_size (value src))
      (Z.of_nat (length (mpz_export export_size (value src))))
  else None.

(** Binary operations: the value they set. *)
Definition arith2 (f : Z → Z → Z) (src1 src2 : Data) : option Z :=
  if arith src1 && arith src2 then Some (f (value src1) (value src2)) else None.

Definition add := arith2 Z.add.
Definition sub := arith2 Z.sub.
Definition multiply := arith2 Z.mul.
Definition bit_and := arith2 Z.land.
Definition bit_or := arith2 Z.lor.
Definition bit_xor := arith2 Z.lxor.

Definition mod_ (src1 src2 : Data) : option Z :=
  if arith src1 && arith src2 && (0 <=? value src1) && (0 <? value src2)
  then Some (Z.rem (value src1) (value src2)) else None.

Definition divide (src1 src2 : Data) : option Z :=
  if arith src1 && arith src2 && (0 <=? value src1) && (0 <? value src2)
  then Some (Z.quot (value src1) (value src2)) else None.

Definition shift_left (src1 src2 : Data) : option Z :=
  if arith src1 && arith src2 && (0 <=? value src2)
  then n ← get_uint src2; Some (Z.shiftl (value src1) n) else None.

Definition shift_right (src1 src2 : Data) : option Z :=
  if arith src1 && arith src2 && (0 <=? value src2)
  then n ← get_uint src2; Some (Z.shiftr (value src1) n) else None.

Definition bit_neg src : option Z :=
  if arith src then Some (Z.lnot (value src)) else None.

Definition two_comp_mod src width : option Z :=
  uwidth ← get_uint width;
  let mask := Z.shiftl 1 uwidth - 1 in
  let max := Z.shiftl 1 (u32 (uwidth - 1)) - 1 in
  let min := - Z.shiftl 1 (u32 (uwidth - 1)) in
  if (value src <? min) || (max <? value src) then
    let v := Z.land (value src) mask in
    Some (if max <? v then v - Z.shiftl 1 uwidth else v)
  else Some (value src).

(** Comparisons *)
Definition compare2 (f : Z → Z → bool) (lhs rhs : Data) : option bool :=
  if arith lhs && arith rhs then Some (f (value lhs) (value rhs)) else None.

Definition eq := compare2 Z.eqb.
Definition ne := compare2 (λ a b, negb (a =? b)).
Definition gt := compare2 (λ a b, b <? a).
Definition ge := compare2 (λ a b, b <=? a).
Definition lt := compare2 Z.ltb.
Definition le := compare2 Z.leb.

(** The copy constructor, which leaves the value of a [Data] without the
    arithmetic flag behind. *)
Definition copy (other : Data) : Data :=
  {| value := if arith other then value other else 0; arith := arith other |}.
End operations.

Section proofs.
Context `{GmpLaws}.

Lemma land_mask z w : 0 ≤ w → Z.land z (Z.shiftl 1 w - 1) = z mod 2 ^ w.
Proof.
  intros. replace (Z.shiftl 1 w - 1) with (Z.ones w) by (unfold Z.ones; lia).
  by apply Z.land_ones.
Qed.

(** [two_comp_mod] is the two's complement of a width: the only number in
    the range of that width that is congruent to the source. *)
Theorem two_comp_mod_spec src width :
  arith width = true → 0 < value width < 2 ^ 32 →
  ∃ v, two_comp_mod src width = Some v ∧
    - 2 ^ (value width - 1) ≤ v < 2 ^ (value width - 1) ∧
    v mod 2 ^ value width = value src mod 2 ^ value width.
Proof.
  intros Ha Hw. set (w := value width) in *. unfold two_comp_mod, get_uint.
  rewrite Ha, convert_to_uint_small by (fold w; lia). msimpl. fold w.
  rewrite wrap_small, land_mask, !Z.shiftl_mul_pow2 by lia. rewrite !Z.mul_1_l.
  assert (2 ^ w = 2 * 2 ^ (w - 1)) as Hpow by (rewrite <- Z.pow_succ_r by lia; f_equal; lia).
  assert (0 < 2 ^ (w - 1)) by (apply Z.pow_pos_nonneg; lia).
  pose proof (Z.mod_pos_bound (value src) (2 ^ w)).
  assert (∀ x, (x mod 2 ^ w) mod 2 ^ w = x mod 2 ^ w) as Hmm by (intros; apply Z.mod_mod; lia).
  assert (∀ x, (x mod 2 ^ w - 2 ^ w) mod 2 ^ w = x mod 2 ^ w) as Hms.
  { intros x. replace (x mod 2 ^ w - 2 ^ w) with (x mod 2 ^ w + (-1) * 2 ^ w) by lia.
    by rewrite Z.mod_add by lia. }
  destruct (Z.ltb_spec (value src) (- 2 ^ (w - 1))), (Z.ltb_spec (2 ^ (w - 1) - 1) (value src)); cbn [orb];
    try (destruct (Z.ltb_spec (2 ^ (w - 1) - 1) (value src mod 2 ^ w)));
    (eexists; split; [done|]; split; [lia|]); by rewrite ?Hms, ?Hmm.
Qed.
End proofs.
End Data.

Import GmpExample.

Example hexstring_neg : Data.of_hexstring (ByteContainer.chars "-0x1ff") = Some (-511).
Proof. reflexivity. Qed.

Lemma two_comp_mod_spec_witness :
  0 < 8 < 2 ^ 32 ∧
  ∃ v, Data.two_comp_mod {| Data.value := 200; Data.arith := true |}
         {| Data.value := 8; Data.arith := true |} = Some v ∧
    - 2 ^ (8 - 1) ≤ v < 2 ^ (8 - 1) ∧ v mod 2 ^ 8 = 200 mod 2 ^ 8.
Proof.
  split; [done|].
  apply (Data.two_comp_mod_spec {| Data.value := 200; Data.arith := true |}
    {| Data.value := 8; Data.arith := true |}); done.
Defined.
