(* ===== verification/Fields.v ===== *)
(** * Fields (include/bm/bm_sim/fields.h, src/bm_sim/fields.cpp)

    A field is a [Data] with a width, whose bytes (as extracted from and
    deparsed to packets) and value are kept in agreement: [sync_value] after
    the bytes change, [export_bytes] after the value does. The debugger
    notifications are not modelled. *)

From S2P Require Import Prelude Data Extract.

Module Fields.

Record Field := {
  base :> Data.Data;         (** value and arith *)
  nbits : Z;
  nbytes : Z;
  bytes : list Z;
  is_signed : bool;
  hidden : bool;
  VL : bool;
  is_saturating : bool;
  written_to : bool;
  mask : Z;
  max : Z;
  min : Z;
}.

Section operations.
Context `{Gmp}.
Implicit Types (f src other : Field).

Definition with_value f (v : Z) : Field :=
  {| base := {| Data.value := v; Data.arith := Data.arith f |};
     nbits := nbits f; nbytes := nbytes f; bytes := bytes f; is_signed := is_signed f;
     hidden := hidden f; VL := VL f; is_saturating := is_saturating f;
     written_to := written_to f; mask := mask f; max := max f; min := min f |}.

Definition with_bytes f (bs : list Z) : Field :=
  {| base := base f;
     nbits := nbits f; nbytes := nbytes f; bytes := bs; is_signed := is_signed f;
     hidden := hidden f; VL := VL f; is_saturating := is_saturating f;
     written_to := written_to f; mask := mask f; max := max f; min := min f |}.

Definition set_written_to f (b : bool) : Field :=
  {| base := base f;
     nbits := nbits f; nbytes := nbytes f; bytes := bytes f; is_signed := is_signed f;
     hidden := hidden f; VL := VL f; is_saturating := is_saturating f;
     written_to := b; mask := mask f; max := max f; min := min f |}.

Definition set_arith f (b : bool) : Field :=
  {| base := {| Data.value := Data.value f; Data.arith := b |};
     nbits := nbits f; nbytes := nbytes f; bytes := bytes f; is_signed := is_signed f;
     hidden := hidden f; VL := VL f; is_saturating := is_saturating f;
     written_to := written_to f; mask := mask f; max := max f; min := min f |}.

(** The width and what is computed from it. *)
Definition with_width f (nbits nbytes : Z) (bs : list Z) (mask max min : Z) : Field :=
  {| base := base f; nbits := nbits; nbytes := nbytes; bytes := bs;
     is_signed := is_signed f; hidden := hidden f; VL := VL f; is_saturating := is_saturating f;
     written_to := written_to f; mask := mask; max := max; min := min |}.

(** The constructor; [None]: a signed field of less than two bits. *)
Definition new (nbits : Z) (arith_flag is_signed hidden VL is_saturating : bool) : option Field :=
  let nbytes := (nbits + 7) / 8 in
  let mask := Z.shiftl 1 nbits - 1 in
  '(max, min) ← (if is_signed then
      if 1 <? nbits then Some (Z.shiftl 1 (nbits - 1) - 1, Z.shiftl 1 (nbits - 1) * -1) else None
    else Some (mask, 0));
  Some {| base := {| Data.value := 0; Data.arith := arith_flag |};
     nbits := nbits; nbytes := nbytes; bytes := replicate (Z.to_nat nbytes) 0;
     is_signed := is_signed; hidden := hidden; VL := VL; is_saturating := is_saturating;
     written_to := false; mask := mask; max := max; min := min |}.

Definition sync_value f : option Field :=
  if nbytes f <=? Z.of_nat (length (bytes f)) then
    let value := mpz_import (nbytes f) (take (Z.to_nat (nbytes f)) (bytes f)) in
    let value :=
      if is_signed f && mpz_tstbit value (nbits f - 1)
      then mpz_clrbit value (nbits f - 1) + min f else value in
    Some (set_written_to (with_value f value) true)
  else None.

Definition set_bytes f (src_bytes : list Z) (len : Z) : option Field :=
  if len =? nbytes f then
    bs ← memcpy (bytes f) src_bytes len;
    let f := with_bytes f bs in
    if Data.arith f then sync_value f else Some f
  else None.

(** [bignum::export_bytes(bytes.data(), nbytes, value)] *)
Definition bignum_export f (bs : list Z) (value : Z) : option (list Z) :=
  let words := mpz_export (nbytes f) value in
  memcpy bs words (Z.of_nat (length words)).

Definition export_bytes f : option Field :=
  let bs := replicate (length (bytes f)) 0 in
  let value := Data.value f in
  let value :=
    if is_saturating f then
      if value <? min f then min f else if max f <? value then max f else value
    else value in
  '(bs, value) ← (if negb (is_signed f) then
      let value := Z.land value (mask f) in
      bs ← bignum_export f bs value; Some (bs, value)
    else
      let value :=
        if (value <? min f) || (mask f <? value) then
          let value := Z.land value (mask f) in
          if max f <? value then value - (mask f + 1) else value
        else value in
      bs ← (if 0 <=? value then bignum_export f bs value
            else bignum_export f bs (value - min f - min f));
      Some (bs, value));
  Some (set_written_to (with_bytes (with_value f value) bs) true).

(** [Data::set], whatever the type of the value. *)
Definition set f (v : Z) : option Field := export_bytes (with_value f v).

Definition swap_values f other : option (Field * Field) :=
  let f1 := with_bytes (with_value f (Data.value other)) (bytes other) in
  let o1 := with_bytes (with_value other (Data.value f)) (bytes f) in
  if VL f then
    if eqb (is_signed f) (is_signed other) && eqb (is_saturating f) (is_saturating other) then
      Some (with_width f1 (nbits other) (nbytes other) (bytes f1) (mask other) (max other) (min other),
            with_width o1 (nbits f) (nbytes f) (bytes o1) (mask f) (max f) (min f))
    else None
  else Some (f1, o1).

(** Also returns the number of bits extracted. *)
Definition extract f (data : list Z) (hdr_offset : Z) : option (Field * Z) :=
  bs ← Extract.generic_extract data hdr_offset (nbits f) (bytes f);
  let f := with_bytes f bs in
  f ← (if Data.arith f then sync_value f else Some f);
  Some (f, nbits f).

(** [1 << nbits] is an [int]: undefined from 31 bits on. *)
Definition extract_VL f (data : list Z) (hdr_offset computed_nbits : Z) : option (Field * Z) :=
  let nbits := computed_nbits in
  let nbytes := (nbits + 7) / 8 in
  if (0 <=? nbits) && (nbits <? 31) then
    let mask := Z.shiftl 1 nbits - 1 in
    let bs := take (Z.to_nat nbytes) (bytes f) ++ replicate (Z.to_nat nbytes - length (bytes f)) 0 in
    '(max, min) ← (if is_signed f then
        if 1 <? nbits then
          Some (Z.shiftl (max f) (nbits - 1) - 1, Z.shiftl (min f) (nbits - 1) * -1)
        else None
      else Some (mask, 0));
    extract (with_width f nbits nbytes bs mask max min) data hdr_offset
  else None.

Definition deparse f (data : list Z) (hdr_offset : Z) : option (list Z * Z) :=
  data ← Extract.generic_deparse (bytes f) (nbits f) data hdr_offset;
  Some (data, nbits f).

(** The header's size is recomputed by the caller ([Phv.v]). *)
Definition assign_VL f src : option Field :=
  if VL f then
    let bs := take (Z.to_nat (nbytes src)) (bytes f)
              ++ replicate (Z.to_nat (nbytes src) - length (bytes f)) 0 in
    set (with_width f (nbits src) (nbytes src) bs (mask src) (max src) (min src)) (Data.value src)
  else None.

Definition reset_VL f : option Field :=
  if VL f then
    Some (if is_signed f then with_width f 0 0 (bytes f) 1 1 1
          else with_width f 0 0 (bytes f) 1 (max f) (min f))
  else None.

Definition copy_value f src : Field :=
  let f1 := with_bytes (with_value f (Data.value src)) (bytes src) in
  if VL f then with_width f1 (nbits src) (nbytes src) (bytes src) (mask src) (max src) (min src)
  else f1.

End operations.

(** ** Well-formed fields *)

(** The derived components of a fixed-width field. *)
Record wf (f : Field) : Prop := {
  wf_nbits : 0 < nbits f;
  wf_nbytes : nbytes f = Extract.nbytes_of (nbits f);
  wf_length : Z.of_nat (length (bytes f)) = nbytes f;
  wf_bytes : bytes_ok (bytes f);
  wf_mask : mask f = 2 ^ nbits f - 1;
  wf_signed : is_signed f = true →
    1 < nbits f ∧ max f = 2 ^ (nbits f - 1) - 1 ∧ min f = - 2 ^ (nbits f - 1);
  wf_unsigned : is_signed f = false → max f = mask f ∧ min f = 0;
}.

(** The value is one of the field's type and the bytes are its representation. *)
Definition synced (f : Field) : Prop :=
  min f ≤ Data.value f ≤ max f ∧ be_value (bytes f) = Data.value f mod 2 ^ nbits f.

(** The unused bits of the bytes are zero. *)
Definition padded (f : Field) : Prop := be_value (bytes f) < 2 ^ nbits f.

Section proofs.
Context `{GmpLaws}.
Implicit Types (f src other : Field) (v : Z).

Lemma nbytes_pos f : wf f → 0 < nbytes f ∧ 8 * nbytes f - 8 < nbits f ≤ 8 * nbytes f.
Proof.
  intros Hwf. pose proof (Extract.nbytes_of_bounds (nbits f)). pose proof (wf_nbits _ Hwf).
  rewrite (wf_nbytes _ Hwf). lia.
Qed.

Lemma pow_nbits f : wf f → 0 < 2 ^ nbits f ∧ 2 ^ nbits f ≤ 256 ^ nbytes f.
Proof.
  intros Hwf. destruct (nbytes_pos f Hwf). pose proof (wf_nbits _ Hwf). split.
  - apply Z.pow_pos_nonneg; lia.
  - replace 256 with (2 ^ 8) by done. rewrite <- Z.pow_mul_r by lia. apply Z.pow_le_mono_r; lia.
Qed.

Lemma pow_half f : wf f → 2 ^ nbits f = 2 * 2 ^ (nbits f - 1) ∧ 0 < 2 ^ (nbits f - 1).
Proof.
  intros Hwf. pose proof (wf_nbits _ Hwf). split.
  - rewrite <- Z.pow_succ_r by lia. f_equal. lia.
  - apply Z.pow_pos_nonneg; lia.
Qed.

Lemma field_range f : wf f → min f ≤ 0 ≤ max f ∧ max f - min f = mask f ∧ max f ≤ mask f.
Proof.
  intros Hwf. pose proof (pow_half f Hwf). pose proof (wf_mask _ Hwf).
  destruct (is_signed f) eqn:E.
  - destruct (wf_signed _ Hwf E) as (? & -> & ->). lia.
  - destruct (wf_unsigned _ Hwf E) as [-> ->]. lia.
Qed.

Lemma replicate_overwrite n (l : list Z) :
  length l = n → memcpy (replicate n 0) l (Z.of_nat (length l)) = Some l.
Proof.
  intros <-. unfold memcpy. rewrite decide_True by (rewrite length_replicate; lia).
  rewrite Nat2Z.id, take_ge by done. rewrite drop_ge by (by rewrite length_replicate).
  by rewrite app_nil_r.
Qed.

(** The bytes of a value that fits. *)
Lemma bignum_export_spec f v :
  wf f → 0 ≤ v < 2 ^ nbits f →
  ∃ bs, bignum_export f (replicate (length (bytes f)) 0) v = Some bs ∧
    length bs = length (bytes f) ∧ bytes_ok bs ∧ be_value bs = v.
Proof.
  intros Hwf Hv. destruct (nbytes_pos f Hwf). destruct (pow_nbits f Hwf).
  pose proof (wf_length _ Hwf) as Hlen. unfold bignum_export.
  destruct (decide (v = 0)) as [->|Hne].
  - rewrite mpz_export_zero. exists (replicate (length (bytes f)) 0).
    split; [|]. { unfold memcpy. rewrite decide_True; [done|]. cbn [length]. lia. }
    split; [by rewrite length_replicate|]. split; [by apply Forall_replicate|].
    apply be_value_zeros.
  - rewrite mpz_export_one by lia. rewrite <- Hlen, Nat2Z.id.
    exists (be_bytes (length (bytes f)) v).
    split; [apply replicate_overwrite, length_be_bytes|].
    split; [apply length_be_bytes|]. split; [apply be_bytes_ok|].
    rewrite be_value_bytes, Hlen. apply Z.mod_small. lia.
Qed.

(** What [export_bytes] makes of a value: saturation, or wrapping to the type. *)
Definition exported f v : Z :=
  let v := if is_saturating f then Z.max (min f) (Z.min (max f) v) else v in
  if is_signed f then
    if (v <? min f) || (mask f <? v) then
      let m := v mod 2 ^ nbits f in if max f <? m then m - 2 ^ nbits f else m
    else v
  else v mod 2 ^ nbits f.

Lemma saturate_eq f v : wf f →
  (if v <? min f then min f else if max f <? v then max f else v) = Z.max (min f) (Z.min (max f) v).
Proof.
  intros Hwf. destruct (field_range f Hwf) as (? & _).
  destruct (Z.ltb_spec v (min f)), (Z.ltb_spec (max f) v); lia.
Qed.

Lemma land_field_mask f v : wf f → Z.land v (mask f) = v mod 2 ^ nbits f.
Proof.
  intros Hwf. rewrite (wf_mask _ Hwf). replace (2 ^ nbits f - 1) with (Z.ones (nbits f)).
  - apply Z.land_ones. pose proof (wf_nbits _ Hwf). lia.
  - unfold Z.ones. rewrite Z.shiftl_mul_pow2; [lia|]. pose proof (wf_nbits _ Hwf). lia.
Qed.

Lemma mod_bound f v : wf f → 0 ≤ v mod 2 ^ nbits f < 2 ^ nbits f.
Proof. intros Hwf. apply Z.mod_pos_bound. apply (pow_nbits f Hwf). Qed.

(** Exporting writes the two's complement of the value. *)
Lemma export_bytes_ok f :
  wf f → ∃ f', export_bytes f = Some f' ∧ wf f' ∧ Data.value f' = exported f (Data.value f) ∧
    be_value (bytes f') = exported f (Data.value f) mod 2 ^ nbits f ∧
    nbits f' = nbits f ∧ is_signed f' = is_signed f ∧ written_to f' = true.
Proof.
  intros Hwf. unfold export_bytes, exported. cbv zeta.
  rewrite saturate_eq by done.
  set (v := if is_saturating f then _ else Data.value f).
  destruct (pow_half f Hwf) as [Hp2 Hp0]. destruct (field_range f Hwf) as (Hr0 & Hr1 & Hr2).
  pose proof (wf_mask _ Hwf) as Hm.
  assert (∀ x bs, length bs = length (bytes f) → bytes_ok bs →
    wf (set_written_to (with_bytes (with_value f x) bs) true)) as Hwf'.
  { intros x bs Hl Hok. destruct Hwf. constructor; cbn; try done. by rewrite Hl. }
  assert (∀ x y, 0 ≤ x < 2 ^ nbits f → y mod 2 ^ nbits f = x →
    ∃ bs, bignum_export f (replicate (length (bytes f)) 0) x = Some bs ∧
      wf (set_written_to (with_bytes (with_value f y) bs) true) ∧ be_value bs = y mod 2 ^ nbits f) as Hexp.
  { intros x y Hx Hy. destruct (bignum_export_spec f x Hwf Hx) as (bs & E & Hl & Hok & Hbe).
    exists bs. split; [done|]. split; [by apply Hwf'|congruence]. }
  destruct (is_signed f) eqn:Es; cbn [negb].
  - destruct (wf_signed _ Hwf Es) as (_ & Hmax & Hmin).
    set (r := if (v <? min f) || (mask f <? v) then _ else v).
    assert (r = if (v <? min f) || (mask f <? v) then
      if max f <? v mod 2 ^ nbits f then v mod 2 ^ nbits f - 2 ^ nbits f else v mod 2 ^ nbits f
      else v) as Hr.
    { unfold r. rewrite land_field_mask by done. replace (mask f + 1) with (2 ^ nbits f) by lia. done. }
    rewrite <- Hr. pose proof (mod_bound f v Hwf).
    assert (min f ≤ r ≤ mask f) as Hrr.
    { rewrite Hr. destruct (Z.ltb_spec v (min f)), (Z.ltb_spec (mask f) v); cbn [orb];
        try (destruct (Z.ltb_spec (max f) (v mod 2 ^ nbits f))); lia. }
    destruct (Z.leb_spec 0 r) as [Hr3|Hr3].
    + destruct (Hexp r r) as (bs & -> & ? & ?); [lia|apply Z.mod_small; lia|]. msimpl.
      eexists. split; [done|]. done.
    + destruct (Hexp (r - min f - min f) r) as (bs & -> & ? & ?); [lia| |msimpl; eexists; done].
      replace (r - min f - min f) with (r + 2 ^ nbits f) by lia.
      symmetry. apply Z.mod_unique with (-1); lia.
  - rewrite land_field_mask by done.
    destruct (Hexp (v mod 2 ^ nbits f) (v mod 2 ^ nbits f)) as (bs & -> & ? & ?);
      [by apply mod_bound|apply Z.mod_mod; lia|]. msimpl. eexists. done.
Qed.

(** Values of the type are exported as they are. *)
Lemma exported_id f v : wf f → min f ≤ v ≤ max f → exported f v = v.
Proof.
  intros Hwf Hv. destruct (field_range f Hwf) as (? & ? & ?). pose proof (wf_mask _ Hwf). unfold exported.
  assert ((if is_saturating f then Z.max (min f) (Z.min (max f) v) else v) = v) as ->
    by (destruct (is_saturating f); lia).
  destruct (is_signed f) eqn:E.
  - rewrite (proj2 (Z.ltb_ge v (min f))), (proj2 (Z.ltb_ge (mask f) v)) by lia. done.
  - destruct (wf_unsigned _ Hwf E). apply Z.mod_small. lia.
Qed.

Lemma exported_range f v :
  wf f → (is_signed f = true → is_saturating f = false → ¬ max f < v ≤ mask f) →
  min f ≤ exported f v ≤ max f ∧
  (is_saturating f = false → exported f v mod 2 ^ nbits f = v mod 2 ^ nbits f).
Proof.
  intros Hwf Hbug. destruct (field_range f Hwf) as (? & ? & ?). pose proof (wf_mask _ Hwf).
  pose proof (pow_half f Hwf). unfold exported.
  set (w := if is_saturating f then _ else v). pose proof (mod_bound f w Hwf).
  destruct (is_signed f) eqn:E.
  - destruct (wf_signed _ Hwf E) as (_ & Hmax & Hmin).
    assert (¬ max f < w ≤ mask f) as Hw by (unfold w; destruct (is_saturating f); [lia|by apply Hbug]).
    split.
    + destruct (Z.ltb_spec w (min f)), (Z.ltb_spec (mask f) w); cbn [orb];
        try (destruct (Z.ltb_spec (max f) (w mod 2 ^ nbits f))); lia.
    + intros Hs. unfold w. rewrite Hs. case_match; [|done].
      cbv zeta. case_match; [|apply Z.mod_mod; lia].
      replace (v mod 2 ^ nbits f - 2 ^ nbits f) with (v mod 2 ^ nbits f + (-1) * 2 ^ nbits f) by lia.
      rewrite Z.mod_add by lia. apply Z.mod_mod. lia.
  - destruct (wf_unsigned _ Hwf E). split; [lia|]. intros Hs. unfold w. rewrite Hs. apply Z.mod_mod. lia.
Qed.

(** Synchronizing gives the value the bytes stand for in the field's type. *)
Lemma sync_value_ok f :
  wf f → padded f →
  ∃ f', sync_value f = Some f' ∧ wf f' ∧ synced f' ∧ bytes f' = bytes f ∧
    nbits f' = nbits f ∧ is_signed f' = is_signed f ∧ hidden f' = hidden f ∧
    Data.arith f' = Data.arith f.
Proof.
  intros Hwf Hpad. unfold sync_value. rewrite (proj2 (Z.leb_le _ _)) by (rewrite (wf_length _ Hwf); lia).
  pose proof (wf_length _ Hwf) as Hl. pose proof (nbytes_pos f Hwf).
  rewrite take_ge by lia. rewrite mpz_import_be by done. rewrite mpz_tstbit_bit, mpz_clrbit_bit by lia.
  eexists. split; [done|]. split; [destruct Hwf; by constructor|]. split; [|done].
  unfold synced, padded in *. cbn. pose proof (be_value_range _ (wf_bytes _ Hwf)) as Hb.
  destruct (pow_half f Hwf) as [Hp2 Hp0]. set (x := be_value (bytes f)) in *.
  destruct (is_signed f) eqn:E; cbn [andb].
  - destruct (wf_signed _ Hwf E) as (_ & Hmax & Hmin).
    assert (Z.testbit x (nbits f - 1) = bool_decide (2 ^ (nbits f - 1) ≤ x)) as Hbit.
    { rewrite Z.testbit_eqb by lia. case_bool_decide.
      - rewrite <- (Z.div_unique x (2 ^ (nbits f - 1)) 1 (x - 2 ^ (nbits f - 1))) by lia. done.
      - rewrite Z.div_small by lia. done. }
    rewrite Hbit.
    case_bool_decide.
    + assert (Z.clearbit x (nbits f - 1) = x - 2 ^ (nbits f - 1)) as ->.
      { rewrite Z.clearbit_spec'. rewrite <- Z.sub_nocarry_ldiff; [done|].
        apply Z.bits_inj'. intros i Hi. rewrite Z.ldiff_spec, Z.bits_0.
        destruct (decide (i = nbits f - 1)) as [->|Hne].
        - rewrite Hbit. by rewrite andb_false_r.
        - by rewrite Z.pow2_bits_false by lia. }
      split; [lia|]. apply Z.mod_unique with (-1); lia.
    + split; [lia|]. symmetry. apply Z.mod_small. lia.
  - destruct (wf_unsigned _ Hwf E) as [-> ->]. pose proof (wf_mask _ Hwf). split; [lia|].
    symmetry. apply Z.mod_small. lia.
Qed.

Lemma synced_padded f : wf f → synced f → padded f.
Proof. intros Hwf [_ Heq]. unfold padded. rewrite Heq. apply (mod_bound f _ Hwf). Qed.

(** The type and the bits determine the value. *)
Lemma synced_inj f v1 v2 :
  wf f → min f ≤ v1 ≤ max f → min f ≤ v2 ≤ max f → v1 mod 2 ^ nbits f = v2 mod 2 ^ nbits f → v1 = v2.
Proof.
  intros Hwf H1 H2 Heq. destruct (field_range f Hwf) as (_ & ? & _). pose proof (wf_mask _ Hwf).
  destruct (pow_nbits f Hwf) as [Hp _].
  pose proof (Z.div_mod v1 (2 ^ nbits f)). pose proof (Z.div_mod v2 (2 ^ nbits f)).
  assert (v1 / 2 ^ nbits f = v2 / 2 ^ nbits f); nia.
Qed.

Lemma wf_same_width f f' :
  wf f → wf f' → nbits f' = nbits f → is_signed f' = is_signed f →
  min f' = min f ∧ max f' = max f ∧ mask f' = mask f ∧ length (bytes f') = length (bytes f).
Proof.
  intros Hwf Hwf' En Es. pose proof (wf_mask _ Hwf). pose proof (wf_mask _ Hwf').
  pose proof (wf_length _ Hwf). pose proof (wf_length _ Hwf').
  rewrite (wf_nbytes _ Hwf) in *. rewrite (wf_nbytes _ Hwf'), En in *.
  destruct (is_signed f) eqn:E.
  - destruct (wf_signed _ Hwf E) as (? & ? & ?). destruct (wf_signed _ Hwf' Es) as (? & ? & ?).
    rewrite En in *. split_and!; congruence || lia.
  - destruct (wf_unsigned _ Hwf E). destruct (wf_unsigned _ Hwf' Es). split_and!; congruence || lia.
Qed.

(** Setting a field to any number leaves it with a value of its type, in
    agreement with its bytes: the closest one if the field saturates, the one
    congruent modulo [2^nbits] otherwise; except for a signed field and a
    number that only fits its width unsigned ([signed_set_unwrapped]). *)
Theorem field_set f v :
  wf f → (is_signed f = true → is_saturating f = false → ¬ max f < v ≤ mask f) →
  ∃ f', set f v = Some f' ∧ wf f' ∧ synced f' ∧ written_to f' = true ∧
    (is_saturating f = true → Data.value f' = Z.max (min f) (Z.min (max f) v)) ∧
    (is_saturating f = false → Data.value f' mod 2 ^ nbits f = v mod 2 ^ nbits f).
Proof.
  intros Hwf Hbug. assert (wf (with_value f v)) as Hwfv by (destruct Hwf; by constructor).
  destruct (export_bytes_ok _ Hwfv) as (f' & E & Hwf' & Hv & Hb & Hn & Hs & Hw).
  cbn [with_value Data.value base nbits is_signed] in Hv, Hb, Hn, Hs.
  change (exported (with_value f v) v) with (exported f v) in Hv, Hb.
  destruct (exported_range f v Hwf Hbug) as [Hr Hc].
  destruct (wf_same_width f f' Hwf Hwf' Hn Hs) as (Emin & Emax & _ & _).
  exists f'. split; [done|]. split; [done|]. split; [|split; [done|split; [|by rewrite Hv]]].
  - unfold synced. rewrite Emin, Emax, Hv, Hb, Hn. done.
  - intros Hsat. rewrite Hv. set (w := Z.max (min f) (Z.min (max f) v)).
    destruct (field_range f Hwf) as (? & ? & ?).
    rewrite <- (exported_id f w Hwf) by lia. unfold exported, w. rewrite Hsat.
    by replace (Z.max (min f) (Z.min (max f) (Z.max (min f) (Z.min (max f) v))))
      with (Z.max (min f) (Z.min (max f) v)) by lia.
Qed.

(** Bytes and value determine each other: the value of a field is read back
    from the bytes it is exported as, and the bytes are written back from the
    value they are read as. *)
Theorem field_roundtrip f :
  wf f →
  (min f ≤ Data.value f ≤ max f →
    ∃ f1 f2, export_bytes f = Some f1 ∧ sync_value f1 = Some f2 ∧ Data.value f2 = Data.value f) ∧
  (padded f →
    ∃ f1 f2, sync_value f = Some f1 ∧ export_bytes f1 = Some f2 ∧ bytes f2 = bytes f).
Proof.
  intros Hwf. split.
  - intros Hr. destruct (export_bytes_ok f Hwf) as (f1 & E1 & Hwf1 & Hv1 & Hb1 & Hn1 & Hs1 & _).
    rewrite exported_id in Hv1, Hb1 by done.
    destruct (wf_same_width f f1 Hwf Hwf1 Hn1 Hs1) as (Emin & Emax & _ & _).
    assert (synced f1) as Hsy by (unfold synced; by rewrite Emin, Emax, Hv1, Hb1, Hn1).
    destruct (sync_value_ok f1 Hwf1 (synced_padded _ Hwf1 Hsy))
      as (f2 & E2 & Hwf2 & [Hr2 Hb2] & Hbs & Hn2 & Hs2 & _).
    destruct (wf_same_width f1 f2 Hwf1 Hwf2 Hn2 Hs2) as (Emin2 & Emax2 & _ & _).
    exists f1, f2. split; [done|]. split; [done|]. apply (synced_inj f); [done|congruence|done|].
    rewrite <- Hb1, <- Hbs, Hb2. congruence.
  - intros Hpad. destruct (sync_value_ok f Hwf Hpad) as (f1 & E1 & Hwf1 & [Hr1 Hb1] & Hbs & Hn1 & Hs1 & _).
    destruct (export_bytes_ok f1 Hwf1) as (f2 & E2 & Hwf2 & Hv2 & Hb2 & Hn2 & Hs2 & _).
    rewrite exported_id in Hb2 by done.
    destruct (wf_same_width f f1 Hwf Hwf1 Hn1 Hs1) as (_ & _ & _ & L1).
    destruct (wf_same_width f1 f2 Hwf1 Hwf2 Hn2 Hs2) as (_ & _ & _ & L2).
    exists f1, f2. split; [done|]. split; [done|].
    apply be_value_inj; [apply Hwf2|apply Hwf|congruence|]. rewrite <- Hbs, Hb1, Hb2. done.
Qed.
End proofs.

Import GmpExample.

Definition int8 : Field := default (Build_Field {| Data.value := 0; Data.arith := true |} 0 0 [] false false
  false false false 0 0 0) (new 8 true true false false false).

(** An 8-bit signed field set to 200 keeps the value 200, outside its type,
    since [export_bytes] wraps values above [mask] instead of [max]; the bytes
    it exports are those of -56, which synchronizing gives. *)
Theorem signed_set_unwrapped :
  ∃ f f', set int8 200 = Some f ∧ Data.value f = 200 ∧ max f = 127 ∧
    sync_value f = Some f' ∧ Data.value f' = -56.
Proof. eexists _, _. vm_compute. done. Qed.

Lemma int8_wf : wf int8.
Proof. constructor; try reflexivity; vm_compute; try done; repeat constructor; done. Qed.
End Fields.

Import (coercions) Fields.
Import GmpExample.

Lemma field_set_witness :
  ∃ f', Fields.set (H := GmpExample.Gmp_Z) Fields.int8 300 = Some f' ∧ Fields.wf f' ∧ Fields.synced f' ∧
    Fields.written_to f' = true ∧
    (Fields.is_saturating Fields.int8 = true →
      Data.value f' = Z.max (Fields.min Fields.int8) (Z.min (Fields.max Fields.int8) 300)) ∧
    (Fields.is_saturating Fields.int8 = false →
      Data.value f' mod 2 ^ Fields.nbits Fields.int8 = 300 mod 2 ^ Fields.nbits Fields.int8).
Proof.
  apply (Fields.field_set Fields.int8 300); [apply Fields.int8_wf|].
  intros _ _ [_ H]. vm_compute in H. by apply H.
Defined.

Lemma field_roundtrip_witness :
  (Fields.min Fields.int8 ≤ Data.value Fields.int8 ≤ Fields.max Fields.int8 →
    ∃ f1 f2, Fields.export_bytes (H := GmpExample.Gmp_Z) Fields.int8 = Some f1 ∧
      Fields.sync_value (H := GmpExample.Gmp_Z) f1 = Some f2 ∧ Data.value f2 = Data.value Fields.int8) ∧
  (Fields.padded Fields.int8 →
    ∃ f1 f2, Fields.sync_value (H := GmpExample.Gmp_Z) Fields.int8 = Some f1 ∧
      Fields.export_bytes (H := GmpExample.Gmp_Z) f1 = Some f2 ∧ Fields.bytes f2 = Fields.bytes Fields.int8).
Proof. apply (Fields.field_roundtrip (H := GmpExample.Gmp_Z) Fields.int8), Fields.int8_wf. Defined.
