(* ===== verification/Headers.v ===== *)
(** * Headers (include/bm/bm_sim/headers.h, src/bm_sim/headers.cpp)

    Header types and header instances, and their extraction from and deparsing
    to the bytes of a packet. What a header does to the union it belongs to is
    in [Phv.v], with the rest of the parsed headers. *)

From S2P Require Import Prelude Data Extract Fields.
Import (coercions) Fields.

Module Headers.

(** ** Header types *)

Record FInfo := {
  name : string;
  bitwidth : Z;
  fi_signed : bool;
  fi_saturating : bool;
  fi_VL : bool;
  fi_hidden : bool;
}.

Record HeaderType := {
  type_id : Z;
  fields_info : list FInfo;
  has_VL_expr : bool;
  VL_offset : Z;                (** -1 for a header of fixed width *)
  VL_max_header_bytes : Z;
}.

(** [HiddenFMap]: the hidden fields, [$valid$] only. *)
Definition hidden_fields : list FInfo :=
  [{| name := "$valid$"; bitwidth := 1; fi_signed := false; fi_saturating := false;
      fi_VL := false; fi_hidden := true |}].

Definition new_type (id : Z) : HeaderType :=
  {| type_id := id; fields_info := hidden_fields; has_VL_expr := false; VL_offset := -1;
     VL_max_header_bytes := 0 |}.

(** Inserts a field before the hidden ones; returns its offset. *)
Definition push_back_field (ht : HeaderType) (field_name : string) (field_bit_width : Z)
    (is_signed is_saturating is_VL : bool) : HeaderType * Z :=
  let pos := (length (fields_info ht) - length hidden_fields)%nat in
  ({| type_id := type_id ht;
      fields_info := take pos (fields_info ht) ++
        {| name := field_name; bitwidth := field_bit_width; fi_signed := is_signed;
           fi_saturating := is_saturating; fi_VL := is_VL; fi_hidden := false |}
        :: drop pos (fields_info ht);
      has_VL_expr := has_VL_expr ht; VL_offset := VL_offset ht;
      VL_max_header_bytes := VL_max_header_bytes ht |}, Z.of_nat pos).

Definition is_VL_type (ht : HeaderType) : bool := 0 <=? VL_offset ht.

Definition push_back_VL_field (ht : HeaderType) (field_name : string) (max_header_bytes : Z)
    (has_expr is_signed is_saturating : bool) : option (HeaderType * Z) :=
  let '(ht, offset) := push_back_field ht field_name 0 is_signed is_saturating true in
  if is_VL_type ht then None else
  Some ({| type_id := type_id ht; fields_info := fields_info ht; has_VL_expr := has_expr;
           VL_offset := offset; VL_max_header_bytes := max_header_bytes |}, offset).

Definition get_hidden_offset (ht : HeaderType) : Z := Z.of_nat (length (fields_info ht)) - 1 - 0.

Definition get_num_fields (ht : HeaderType) : Z := Z.of_nat (length (fields_info ht)).

Definition get_bit_width (ht : HeaderType) : Z := foldl (λ acc f, acc + bitwidth f) 0 (fields_info ht).

(** [-1] when there is no such field. *)
Fixpoint field_offset_from (fs : list FInfo) (field_name : string) (res : Z) : Z :=
  match fs with
  | [] => -1
  | f :: fs' => if decide (field_name = name f) then res else field_offset_from fs' field_name (res + 1)
  end.
Definition get_field_offset (ht : HeaderType) (field_name : string) : Z :=
  field_offset_from (fields_info ht) field_name 0.

(** ** Header instances *)

Record Header := {
  header_type : HeaderType;
  fields : list Fields.Field;
  valid : bool;
  metadata : bool;
  nbytes_packet : Z;
  union_membership : option (Z * Z);   (** union and index in it *)
}.

Section operations.
Context `{Gmp}.
Implicit Types (h src other : Header) (fs : list Fields.Field).

Definition with_fields h fs : Header :=
  {| header_type := header_type h; fields := fs; valid := valid h; metadata := metadata h;
     nbytes_packet := nbytes_packet h; union_membership := union_membership h |}.
Definition with_valid h (b : bool) : Header :=
  {| header_type := header_type h; fields := fields h; valid := b; metadata := metadata h;
     nbytes_packet := nbytes_packet h; union_membership := union_membership h |}.
Definition with_nbytes h (n : Z) : Header :=
  {| header_type := header_type h; fields := fields h; valid := valid h; metadata := metadata h;
     nbytes_packet := n; union_membership := union_membership h |}.

Definition is_valid h : bool := metadata h || valid h.
Definition is_VL_header h : bool := is_VL_type (header_type h).

(** The loop of the constructor; also the bits of the fields that are not hidden. *)
Fixpoint new_fields (fis : list FInfo) (i : Z) (arith_offsets : gset Z) (nbits : Z)
    : option (list Fields.Field * Z) :=
  match fis with
  | [] => Some ([], nbits)
  | fi :: fis' =>
      f ← Fields.new (bitwidth fi) (bool_decide (i ∈ arith_offsets)) (fi_signed fi) (fi_hidden fi)
            (fi_VL fi) (fi_saturating fi);
      '(fs, nbits) ← new_fields fis' (i + 1) arith_offsets
                       (if fi_hidden fi then nbits else nbits + Fields.nbits f);
      Some (f :: fs, nbits)
  end.

Definition new (ht : HeaderType) (arith_offsets : gset Z) (metadata : bool) : option Header :=
  '(fs, nbits) ← new_fields (fields_info ht) 0 arith_offsets 0;
  if nbits mod 8 =? 0 then
    _ ← vget fs (get_hidden_offset ht);
    Some {| header_type := ht; fields := fs; valid := false; metadata := metadata;
            nbytes_packet := nbits / 8; union_membership := None |}
  else None.

(** The bits of the fields before the hidden ones. *)
Fixpoint visible_nbits fs : Z :=
  match fs with
  | [] => 0
  | f :: fs' => if Fields.hidden f then 0 else Fields.nbits f + visible_nbits fs'
  end.

Definition recompute_nbytes_packet h : option Header :=
  let n := visible_nbits (fields h) in
  if n mod 8 =? 0 then Some (with_nbytes h (n / 8)) else None.

(** [valid = b; valid_field->set(b)] *)
Definition set_valid h (b : bool) : option Header :=
  let i := get_hidden_offset (header_type h) in
  f ← vget (fields h) i;
  f ← Fields.set f (if b then 1 else 0);
  fs ← vset (fields h) i f;
  Some (with_valid (with_fields h fs) b).

Definition reset h : option Header :=
  fs ← mapM (λ f, Fields.set f 0) (fields h);
  Some (with_fields h fs).

Definition reset_VL_header h : option Header :=
  if negb (is_VL_header h) then Some h else
  let i := VL_offset (header_type h) in
  f ← vget (fields h) i;
  f' ← Fields.reset_VL f;
  fs ← vset (fields h) i f';
  Some (with_nbytes (with_fields h fs) (nbytes_packet h - Fields.nbytes f)).

Definition set_written_to h (b : bool) : Header :=
  with_fields h ((λ f, Fields.set_written_to f b) <$> fields h).

(** The loop of [extract]; [data] is the pointer. *)
Fixpoint extract_fields fs (data : list Z) (hdr_offset : Z) : option (list Fields.Field) :=
  match fs with
  | [] => Some []
  | f :: fs' =>
      if Fields.hidden f then Some (f :: fs') else
      '(f, n) ← Fields.extract f data hdr_offset;
      let hdr_offset := hdr_offset + n in
      fs' ← extract_fields fs' (drop (Z.to_nat (hdr_offset / 8)) data) (hdr_offset mod 8);
      Some (f :: fs')
  end.

(** The loop of [extract_VL_common]; [VL_fn] is given the fields as extracted
    so far. Returns the number of bits, too. *)
Fixpoint extract_VL_loop (VL_fn : list Fields.Field → option Z) (VL_offset i : Z)
    (done_ fs : list Fields.Field) (data : list Z) (hdr_offset nbits : Z)
    : option (list Fields.Field * Z) :=
  match fs with
  | [] => Some (done_, nbits)
  | f :: fs' =>
      if Fields.hidden f then Some (done_ ++ f :: fs', nbits) else
      '(f, n) ← (if VL_offset =? i then
                   computed_nbits ← VL_fn (done_ ++ f :: fs');
                   Fields.extract_VL f data hdr_offset computed_nbits
                 else Fields.extract f data hdr_offset);
      let hdr_offset := hdr_offset + n in
      extract_VL_loop VL_fn VL_offset (i + 1) (done_ ++ [f]) fs'
        (drop (Z.to_nat (hdr_offset / 8)) data) (hdr_offset mod 8) (nbits + Fields.nbits f)
  end.

Definition extract_VL_common h (data : list Z) (VL_fn : list Fields.Field → option Z) : option Header :=
  '(fs, nbits) ← extract_VL_loop VL_fn (VL_offset (header_type h)) 0 [] (fields h) data 0 0;
  if nbits mod 8 =? 0 then Some (with_nbytes (with_fields h fs) (nbits / 8)) else None.

(** [extract], up to the final [mark_valid]; [VL_eval] evaluates [VL_expr]. *)
Definition extract h (data : list Z) (VL_eval : Header → option Z) : option Header :=
  if is_VL_header h then extract_VL_common h data (λ fs, VL_eval (with_fields h fs))
  else fs ← extract_fields (fields h) data 0; Some (with_fields h fs).

Fixpoint deparse_fields fs (data : list Z) (hdr_offset : Z) : option (list Z) :=
  match fs with
  | [] => Some data
  | f :: fs' =>
      if Fields.hidden f then Some data else
      '(data, n) ← Fields.deparse f data hdr_offset;
      let hdr_offset := hdr_offset + n in
      let q := Z.to_nat (hdr_offset / 8) in
      rest ← deparse_fields fs' (drop q data) (hdr_offset mod 8);
      Some (take q data ++ rest)
  end.

Definition deparse h (data : list Z) : option (list Z) := deparse_fields (fields h) data 0.

(** The two headers after [this->swap_values(other)]. *)
Definition swap_values h other : option (Header * Header) :=
  fs ← mapM (λ p, Fields.swap_values p.1 p.2) (zip (fields h) (fields other));
  if (length (fields h) <=? length (fields other))%nat then
    Some (with_nbytes (with_valid (with_fields h fs.*1) (valid other)) (nbytes_packet other),
          with_nbytes (with_valid (with_fields other (fs.*2 ++ drop (length (fields h)) (fields other)))
            (valid h)) (nbytes_packet h))
  else None.

Definition copy_fields h src : option Header :=
  if (length (fields h) <=? length (fields src))%nat then
    Some (with_nbytes (with_fields h (zip_with Fields.copy_value (fields h) (fields src)))
      (nbytes_packet src))
  else None.

(** [fields == other.fields]; [None]: comparing a field that is not arithmetic. *)
Fixpoint fields_eq (fs1 fs2 : list Fields.Field) : option bool :=
  match fs1, fs2 with
  | [], [] => Some true
  | f1 :: fs1', f2 :: fs2' =>
      b ← Data.eq f1 f2; if (b : bool) then fields_eq fs1' fs2' else Some false
  | _, _ => Some false
  end.

Definition cmp h other : option bool :=
  if (type_id (header_type h) =? type_id (header_type other)) && is_valid h && is_valid other then
    if (length (fields h) =? length (fields other))%nat then fields_eq (fields h) (fields other)
    else Some false
  else Some false.

Definition assign_VL h (i : Z) (src : Fields.Field) : option Header :=
  f ← vget (fields h) i;
  f ← Fields.assign_VL f src;
  fs ← vset (fields h) i f;
  recompute_nbytes_packet (with_fields h fs).
End operations.

(** ** The layout of the fields in a packet *)

Section layout.
Context `{GmpLaws}.
Implicit Types (fs : list Fields.Field) (data : list Z) (off : Z).

(** The bits of a field, within its bytes, start after the padding. *)
Definition pad (f : Fields.Field) : Z := 8 * Fields.nbytes f - Fields.nbits f.

(** The bits of the fields follow each other in [data], from bit [off] on. *)
Fixpoint laid_out fs data off : Prop :=
  match fs with
  | [] => True
  | f :: fs' =>
      if Fields.hidden f then True else
      (∀ k, 0 ≤ k < Fields.nbits f → bit_at data (off + k) = bit_at (Fields.bytes f) (pad f + k)) ∧
      laid_out fs' data (off + Fields.nbits f)
  end.

(** No field of less than a byte crosses a byte boundary (see [Extract.v]). *)
Fixpoint no_straddle fs off : Prop :=
  match fs with
  | [] => True
  | f :: fs' =>
      if Fields.hidden f then True else
      (8 ≤ Fields.nbits f ∨ off mod 8 + Fields.nbits f ≤ 8) ∧ no_straddle fs' (off + Fields.nbits f)
  end.

Definition same_shape (f f' : Fields.Field) : Prop :=
  Fields.nbits f' = Fields.nbits f ∧ Fields.nbytes f' = Fields.nbytes f ∧ Fields.hidden f' = Fields.hidden f.

(** Well-formed fields whose unused bits are zero. *)
Definition field_ok (f : Fields.Field) : Prop := Fields.wf f ∧ Fields.padded f.

Lemma bit_at_drop data q k :
  0 ≤ q → 0 ≤ k → bit_at (drop (Z.to_nat q) data) k = bit_at data (8 * q + k).
Proof.
  intros Hq Hk. unfold bit_at. replace (8 * q + k) with (k + q * 8) by lia.
  rewrite Z.div_add, Z.mod_add by lia. pose proof (Z.div_pos k 8).
  rewrite !vget_nat by lia. rewrite lookup_drop.
  by replace (Z.to_nat (k / 8 + q)) with (Z.to_nat q + Z.to_nat (k / 8))%nat by lia.
Qed.

Lemma laid_out_drop fs data q off :
  0 ≤ q → 0 ≤ off → Forall Fields.wf fs →
  laid_out fs (drop (Z.to_nat q) data) off ↔ laid_out fs data (8 * q + off).
Proof.
  intros Hq Hoff Hwf. revert off Hoff. induction Hwf as [|f fs Hf Hwf IH]; intros off Hoff; [done|].
  cbn [laid_out]. destruct (Fields.hidden f); [done|]. pose proof (Fields.wf_nbits _ Hf).
  rewrite IH by lia. replace (8 * q + off + Fields.nbits f) with (8 * q + (off + Fields.nbits f)) by lia.
  f_equiv. split; intros Hb k Hk.
  - rewrite <- Hb by done. rewrite bit_at_drop by lia. f_equal. lia.
  - rewrite bit_at_drop by lia. rewrite <- Hb by done. f_equal. lia.
Qed.

Lemma no_straddle_shift fs q off : no_straddle fs (8 * q + off) ↔ no_straddle fs off.
Proof.
  revert off. induction fs as [|f fs IH]; intros off; [done|]. cbn [no_straddle].
  destruct (Fields.hidden f); [done|].
  replace (8 * q + off + Fields.nbits f) with (8 * q + (off + Fields.nbits f)) by lia. rewrite IH.
  replace (8 * q + off) with (off + q * 8) by lia. by rewrite Z.mod_add.
Qed.

Lemma div_mod_8 n : 0 ≤ n → 0 ≤ n / 8 ∧ 0 ≤ n mod 8 < 8 ∧ 8 * (n / 8) + n mod 8 = n.
Proof.
  intros. pose proof (Z.div_mod n 8). pose proof (Z.mod_pos_bound n 8). pose proof (Z.div_pos n 8). lia.
Qed.

(** Numbers and bits: the unused bits of the bytes are zero. *)
Lemma be_value_testbit l i :
  bytes_ok l → 0 ≤ i < 8 * Z.of_nat (length l) →
  Z.testbit (be_value l) i = bit_at l (8 * Z.of_nat (length l) - 1 - i).
Proof.
  intros Hl. revert i. induction Hl as [|b l Hb Hl IH]; intros i Hi; [simpl in Hi; lia|].
  rewrite be_value_cons. cbn [length] in *. rewrite Nat2Z.inj_succ in *.
  replace 256 with (2 ^ 8) by done. rewrite <- Z.pow_mul_r by lia.
  pose proof (be_value_range l Hl) as Hr. replace 256 with (2 ^ 8) in Hr by done.
  rewrite <- Z.pow_mul_r in Hr by lia. set (n := 8 * Z.of_nat (length l)) in *.
  rewrite Z.add_nocarry_lxor, Z.lxor_spec; cycle 1.
  { apply Z.bits_inj'. intros j Hj. rewrite Z.land_spec, Z.bits_0.
    destruct (decide (j < n)).
    - by rewrite Z.mul_pow2_bits_low by lia.
    - rewrite (testbit_high (be_value l) n) by lia. by rewrite andb_false_r. }
  destruct (decide (i < n)).
  - rewrite Z.mul_pow2_bits_low by lia. rewrite xorb_false_l, IH by lia.
    unfold bit_at. replace (8 * Z.succ (Z.of_nat (length l)) - 1 - i) with (n - 1 - i + 1 * 8) by lia.
    rewrite Z.div_add, Z.mod_add by lia. pose proof (Z.div_pos (n - 1 - i) 8 ltac:(lia)).
    rewrite !vget_nat by lia. by replace (Z.to_nat ((n - 1 - i) / 8 + 1)) with (S (Z.to_nat ((n - 1 - i) / 8))) by lia.
  - rewrite (testbit_high (be_value l) n) by lia. rewrite xorb_false_r, Z.mul_pow2_bits by lia.
    unfold bit_at. replace (8 * Z.succ (Z.of_nat (length l)) - 1 - i) with (7 - (i - n)) by lia.
    rewrite Z.div_small, Z.mod_small by lia. cbn. f_equal. lia.
Qed.

Lemma padded_bits f : Fields.wf f → Fields.padded f ↔ Extract.padded (Fields.bytes f) (Fields.nbits f).
Proof.
  intros Hwf. pose proof (Fields.wf_length _ Hwf) as Hl. pose proof (Fields.nbytes_pos f Hwf).
  unfold Fields.padded, Extract.padded. rewrite <- (Fields.wf_nbytes _ Hwf). pose proof (Fields.wf_bytes _ Hwf) as Hb.
  pose proof (be_value_range _ Hb) as Hr. split.
  - intros Hlt k Hk. assert (k = 8 * Z.of_nat (length (Fields.bytes f)) - 1 - (8 * Fields.nbytes f - 1 - k)) as -> by lia.
    rewrite <- be_value_testbit by (done || lia). apply (testbit_high _ (Fields.nbits f)); lia.
  - intros Hz. destruct (decide (be_value (Fields.bytes f) = 0)) as [->|]; [apply Z.pow_pos_nonneg; lia|].
    apply Z.log2_lt_pow2; [lia|].
    destruct (Z_lt_le_dec (Z.log2 (be_value (Fields.bytes f))) (Fields.nbits f)) as [|Hle]; [done|].
    pose proof (Z.bit_log2 (be_value (Fields.bytes f)) ltac:(lia)) as Hbit.
    assert (Z.log2 (be_value (Fields.bytes f)) < 8 * Fields.nbytes f).
    { apply Z.log2_lt_pow2; [lia|]. replace 256 with (2 ^ 8) in Hr by done.
      rewrite <- Z.pow_mul_r in Hr by lia. rewrite Hl in Hr. lia. }
    rewrite be_value_testbit, Hz in Hbit by (done || lia). done.
Qed.

(** The sum of the widths of the fields before the hidden ones. *)
Lemma visible_nonneg fs : Forall Fields.wf fs → 0 ≤ visible_nbits fs.
Proof.
  induction 1 as [|f fs Hf _ IH]; simpl; [done|]. pose proof (Fields.wf_nbits _ Hf). case_match; lia.
Qed.

Lemma extract_field f data off :
  field_ok f → bytes_ok data → 0 ≤ off < 8 → off + Fields.nbits f ≤ 8 * Z.of_nat (length data) →
  8 ≤ Fields.nbits f ∨ off + Fields.nbits f ≤ 8 →
  ∃ f', Fields.extract f data off = Some (f', Fields.nbits f) ∧ field_ok f' ∧ same_shape f f' ∧
    (∀ k, 0 ≤ k < Fields.nbits f → bit_at data (off + k) = bit_at (Fields.bytes f') (pad f + k)) ∧
    (Data.arith f = true → Fields.synced f') ∧ Data.arith f' = Data.arith f.
Proof.
  intros [Hwf Hpad] Hd Hoff Hlen Hstr. unfold Fields.extract.
  pose proof (Fields.wf_length _ Hwf) as Hl. pose proof (Fields.wf_nbits _ Hwf). pose proof (Fields.nbytes_pos f Hwf).
  destruct (Extract.generic_extract_ok data (Fields.bytes f) off (Fields.nbits f))
    as (bs & -> & Hlb & Hok & Hbits & _); [done|apply Hwf|done..| |done|].
  { rewrite <- (Fields.wf_nbytes _ Hwf). lia. }
  msimpl. rewrite <- (Fields.wf_nbytes _ Hwf) in Hbits.
  assert (Fields.wf (Fields.with_bytes f bs)) as Hwf1 by (destruct Hwf; constructor; cbn; congruence || done).
  assert (Fields.padded (Fields.with_bytes f bs)) as Hpad1.
  { apply padded_bits; [done|]. intros k Hk. cbn in Hk. rewrite <- (Fields.wf_nbytes _ Hwf) in Hk. cbn.
    rewrite Hbits by lia. by rewrite bool_decide_false by lia. }
  assert (∀ k, 0 ≤ k < Fields.nbits f → bit_at data (off + k) = bit_at bs (pad f + k)) as Hb.
  { intros k Hk. unfold pad. rewrite Hbits by lia. rewrite bool_decide_true by lia. cbn. f_equal. lia. }
  destruct (Data.arith f) eqn:Ea.
  - change (Data.arith (Fields.with_bytes f bs)) with (Data.arith f). rewrite Ea.
    destruct (Fields.sync_value_ok _ Hwf1 Hpad1) as (f' & -> & Hwf' & Hsy & Hbs & Hn & _ & Hh & Har). msimpl.
    cbn in Hbs, Hn, Hh, Har. rewrite Ea in Har. exists f'. split; [by rewrite Hn|]. split; [split; [done|]|split; [|split; [|done]]].
    + by apply Fields.synced_padded.
    + split; [done|]. split; [|done]. rewrite (Fields.wf_nbytes _ Hwf'), Hn, (Fields.wf_nbytes _ Hwf). done.
    + intros k Hk. rewrite Hbs. by apply Hb.
  - change (Data.arith (Fields.with_bytes f bs)) with (Data.arith f). rewrite Ea. msimpl.
    eexists. split; [done|]. done.
Qed.

(** Fields that agree with what they are of. *)
Definition field_synced (f : Fields.Field) : Prop := Data.arith f = true → Fields.synced f.

Lemma extract_fields_ok fs : ∀ data off,
  Forall field_ok fs → bytes_ok data → 0 ≤ off < 8 →
  off + visible_nbits fs ≤ 8 * Z.of_nat (length data) → no_straddle fs off →
  ∃ fs', extract_fields fs data off = Some fs' ∧ Forall field_ok fs' ∧ Forall2 same_shape fs fs' ∧
    laid_out fs' data off ∧ (Forall field_synced fs → Forall field_synced fs').
Proof.
  induction fs as [|f fs IH]; intros data off Hok Hd Hoff Hlen Hstr; cbn [extract_fields].
  { exists []. split; [done|]. split; [done|]. split; [constructor|]. done. }
  apply Forall_cons in Hok as [Hf Hok]. cbn [visible_nbits no_straddle] in *.
  destruct (Fields.hidden f) eqn:Eh.
  { exists (f :: fs). split; [done|]. split; [by constructor|].
    split; [constructor; [done|]; clear; induction fs; by constructor|].
    split; [cbn [laid_out]; by rewrite Eh|done]. }
  destruct Hstr as [Hstr Hstr']. rewrite (Z.mod_small off 8) in Hstr by lia.
  pose proof (visible_nonneg fs) as Hvis. rewrite Forall_forall in Hvis.
  assert (0 ≤ visible_nbits fs) as Hv0.
  { apply Hvis. intros x Hx. rewrite Forall_forall in Hok. by apply Hok. }
  destruct (extract_field f data off Hf Hd Hoff) as (f' & -> & Hf' & Hs & Hb & Hsy & Har); [lia|done|]. msimpl.
  pose proof (Fields.wf_nbits _ (proj1 Hf)). destruct (div_mod_8 (off + Fields.nbits f)) as (? & ? & ?); [lia|].
  set (q := (off + Fields.nbits f) / 8) in *. set (r := (off + Fields.nbits f) mod 8) in *.
  destruct (IH (drop (Z.to_nat q) data) r Hok) as (fs' & -> & Hok' & Hsh & Hlay & Hsync);
    [by apply Forall_drop|done|rewrite length_drop; lia| |].
  { apply (no_straddle_shift fs q). by replace (8 * q + r) with (off + Fields.nbits f) by lia. }
  msimpl. exists (f' :: fs'). split; [done|]. split; [by constructor|]. split; [by constructor|].
  split.
  - cbn [laid_out]. pose proof Hs as (En & Enb & Eh'). rewrite Eh', Eh, En. split.
    + intros k Hk. rewrite Hb by done. unfold pad. by rewrite En, Enb.
    + apply laid_out_drop in Hlay; [|done|lia|].
      * by replace (off + Fields.nbits f) with (8 * q + r) by lia.
      * eapply Forall_impl; [exact Hok'|]. by intros x [? _].
  - intros [_ Hfs]%Forall_cons. constructor; [|by apply Hsync]. intros Ha. apply Hsy. by rewrite <- Har.
Qed.

Lemma deparse_field f data off :
  field_ok f → bytes_ok data → 0 ≤ off < 8 → off + Fields.nbits f ≤ 8 * Z.of_nat (length data) →
  ∃ data', Fields.deparse f data off = Some (data', Fields.nbits f) ∧ length data' = length data ∧
    bytes_ok data' ∧ (∀ k, 0 ≤ k < off → bit_at data' k = bit_at data k) ∧
    (∀ k, 0 ≤ k < Fields.nbits f → bit_at data' (off + k) = bit_at (Fields.bytes f) (pad f + k)) ∧
    ∀ j, off + Fields.nbits f ≤ 8 * j → vget data' j = vget data j.
Proof.
  intros [Hwf Hpad] Hd Hoff Hlen. unfold Fields.deparse.
  pose proof (Fields.wf_length _ Hwf) as Hl. pose proof (Fields.wf_nbits _ Hwf) as Hn.
  pose proof (Fields.wf_nbytes _ Hwf) as Hnb.
  pose proof (Extract.nbytes_of_bounds (off + Fields.nbits f)) as Hhb.
  unfold Extract.nbytes_of in Hhb.
  destruct (Extract.generic_deparse_ok (Fields.bytes f) data (Fields.nbits f) off)
    as (d & -> & Hld & Hok & Hbits & Hrest); [apply Hwf|done|done|done|rewrite <- Hnb; lia|lia|by apply padded_bits|].
  msimpl. exists d. split; [done|]. split; [done|]. split; [done|]. split; [|split].
  - intros k Hk. rewrite Hbits by lia. by rewrite decide_True by lia.
  - intros k Hk. rewrite Hbits by lia. rewrite decide_False by lia. unfold pad. rewrite <- Hnb. f_equal. lia.
  - intros j Hj. apply Hrest. lia.
Qed.

Lemma bit_at_take_app q d1 d2 k :
  0 ≤ q ≤ Z.of_nat (length d1) → 0 ≤ k →
  bit_at (take (Z.to_nat q) d1 ++ d2) k = if decide (k < 8 * q) then bit_at d1 k else bit_at d2 (k - 8 * q).
Proof.
  intros Hq Hk. unfold bit_at. pose proof (Z.div_pos k 8 Hk). pose proof (Z.div_mod k 8).
  pose proof (Z.mod_pos_bound k 8). rewrite !vget_nat by lia. case_decide.
  - rewrite lookup_app_l by (rewrite length_take; lia). rewrite lookup_take_lt by lia. done.
  - replace (k - 8 * q) with (k + (- q) * 8) by lia. rewrite Z.div_add, Z.mod_add by lia.
    rewrite vget_nat by lia. rewrite lookup_app_r by (rewrite length_take; lia). rewrite length_take.
    by replace (Z.to_nat (k / 8) - Z.to_nat q `min` length d1)%nat with (Z.to_nat (k / 8 + - q)) by lia.
Qed.

Lemma laid_out_ext fs data data' off :
  (∀ k, off ≤ k → bit_at data' k = bit_at data k) → 0 ≤ off → Forall Fields.wf fs →
  laid_out fs data off → laid_out fs data' off.
Proof.
  intros Hb Hoff Hwf. revert off Hb Hoff. induction Hwf as [|f fs Hf Hwf IH]; intros off Hb Hoff; [done|].
  cbn [laid_out]. destruct (Fields.hidden f); [done|]. pose proof (Fields.wf_nbits _ Hf).
  intros [Hl1 Hl2]. split.
  - intros k Hk. rewrite Hb by lia. by apply Hl1.
  - apply IH; [|lia|done]. intros k Hk. apply Hb. lia.
Qed.

Lemma deparse_fields_ok fs : ∀ data off,
  Forall field_ok fs → bytes_ok data → 0 ≤ off < 8 →
  off + visible_nbits fs ≤ 8 * Z.of_nat (length data) →
  ∃ data', deparse_fields fs data off = Some data' ∧ length data' = length data ∧ bytes_ok data' ∧
    laid_out fs data' off ∧ (∀ k, 0 ≤ k < off → bit_at data' k = bit_at data k) ∧
    ∀ j, off + visible_nbits fs ≤ 8 * j → vget data' j = vget data j.
Proof.
  induction fs as [|f fs IH]; intros data off Hok Hd Hoff Hlen; cbn [deparse_fields].
  { exists data. done. }
  apply Forall_cons in Hok as [Hf Hok]. cbn [visible_nbits laid_out] in *.
  assert (Forall Fields.wf fs) as Hwfs by (eapply Forall_impl; [exact Hok|]; by intros x [? _]).
  destruct (Fields.hidden f) eqn:Eh; [exists data; done|].
  pose proof (visible_nonneg fs Hwfs). pose proof (Fields.wf_nbits _ (proj1 Hf)).
  destruct (deparse_field f data off Hf Hd Hoff) as (d1 & -> & Hl1 & Hok1 & Hpre & Hbits & Hrest); [lia|]. msimpl.
  destruct (div_mod_8 (off + Fields.nbits f)) as (? & ? & ?); [lia|].
  set (q := (off + Fields.nbits f) / 8) in *. set (r := (off + Fields.nbits f) mod 8) in *.
  destruct (IH (drop (Z.to_nat q) d1) r Hok) as (d2 & -> & Hl2 & Hok2 & Hlay & Hpre2 & Hrest2);
    [by apply Forall_drop|done|rewrite length_drop; lia|].
  msimpl. rewrite length_drop in Hl2. exists (take (Z.to_nat q) d1 ++ d2). split; [done|].
  assert (∀ k, 0 ≤ k < off + Fields.nbits f → bit_at (take (Z.to_nat q) d1 ++ d2) k = bit_at d1 k) as Hk1.
  { intros k Hk. rewrite bit_at_take_app by lia. case_decide; [done|]. rewrite Hpre2 by lia.
    rewrite bit_at_drop by lia. f_equal. lia. }
  split_and!.
  - rewrite length_app, length_take. lia.
  - apply Forall_app. split; [by apply Forall_take|done].
  - intros k Hk. rewrite Hk1 by lia. by apply Hbits.
  - replace (off + Fields.nbits f) with (8 * q + r) by lia. apply laid_out_drop; [done|lia|done|].
    rewrite drop_app_ge by (rewrite length_take; lia). rewrite length_take.
    by replace (Z.to_nat q - Z.to_nat q `min` length d1)%nat with 0%nat by lia.
  - intros k Hk. rewrite Hk1 by lia. by apply Hpre.
  - intros j Hj. rewrite <- Hrest by lia.
    assert (0 ≤ j) by lia. rewrite vget_nat by done. rewrite lookup_app_r by (rewrite length_take; lia).
    specialize (Hrest2 (j - q) ltac:(lia)). rewrite !vget_nat in Hrest2 by lia. rewrite lookup_drop in Hrest2.
    rewrite length_take. rewrite vget_nat by done.
    replace (Z.to_nat j - Z.to_nat q `min` length d1)%nat with (Z.to_nat (j - q)) by lia.
    rewrite Hrest2. f_equal. lia.
Qed.

(** The fields determine the bits they cover, and conversely. *)
Lemma laid_out_det fs d1 d2 : ∀ off,
  Forall Fields.wf fs → laid_out fs d1 off → laid_out fs d2 off →
  ∀ k, off ≤ k < off + visible_nbits fs → bit_at d1 k = bit_at d2 k.
Proof.
  induction fs as [|f fs IH]; intros off Hwf; cbn [laid_out visible_nbits]; [intros; lia|].
  apply Forall_cons in Hwf as [Hf Hwf]. destruct (Fields.hidden f); [intros; lia|].
  intros [Ha1 Hb1] [Ha2 Hb2] k Hk. destruct (decide (k < off + Fields.nbits f)).
  - replace k with (off + (k - off)) by lia. rewrite Ha1, Ha2 by lia. done.
  - apply (IH (off + Fields.nbits f)); [done..|lia].
Qed.

(** The bytes of the fields before the hidden ones. *)
Fixpoint visible_bytes fs : list (list Z) :=
  match fs with
  | [] => []
  | f :: fs' => if Fields.hidden f then [] else Fields.bytes f :: visible_bytes fs'
  end.

Lemma same_bits_bytes f f' :
  field_ok f → field_ok f' → same_shape f f' →
  (∀ k, 0 ≤ k < Fields.nbits f → bit_at (Fields.bytes f') (pad f' + k) = bit_at (Fields.bytes f) (pad f + k)) →
  Fields.bytes f' = Fields.bytes f.
Proof.
  intros [Hwf Hp] [Hwf' Hp'] (En & Enb & _) Hbits.
  pose proof (Fields.wf_length _ Hwf). pose proof (Fields.wf_length _ Hwf').
  apply padded_bits in Hp; [|done]. apply padded_bits in Hp'; [|done]. unfold Extract.padded in *.
  rewrite <- (Fields.wf_nbytes _ Hwf) in Hp. rewrite <- (Fields.wf_nbytes _ Hwf') in Hp'.
  apply bits_ext; [apply Hwf'|apply Hwf|lia|]. intros k Hk. unfold pad in *. rewrite En, Enb in *.
  destruct (decide (k < 8 * Fields.nbytes f - Fields.nbits f)).
  - rewrite Hp, Hp' by lia. done.
  - specialize (Hbits (k - (8 * Fields.nbytes f - Fields.nbits f)) ltac:(lia)).
    by replace (8 * Fields.nbytes f - Fields.nbits f + (k - (8 * Fields.nbytes f - Fields.nbits f))) with k in Hbits by lia.
Qed.

Lemma laid_out_bytes fs fs' d : ∀ off,
  Forall field_ok fs → Forall field_ok fs' → Forall2 same_shape fs fs' →
  laid_out fs d off → laid_out fs' d off → visible_bytes fs' = visible_bytes fs.
Proof.
  intros off Hok Hok' Hsh. revert off Hok Hok'.
  induction Hsh as [|f f' fs fs' Hs Hsh IH]; intros off Hok Hok'; [done|].
  apply Forall_cons in Hok as [Hf Hok]. apply Forall_cons in Hok' as [Hf' Hok'].
  cbn [laid_out visible_bytes]. pose proof Hs as (En & _ & Eh). rewrite Eh.
  destruct (Fields.hidden f); [done|]. rewrite En. intros [Ha Hb] [Ha' Hb']. f_equal.
  - apply same_bits_bytes; [done..|]. intros k Hk. by rewrite <- Ha, <- Ha'.
  - by eapply IH.
Qed.

Lemma visible_same fs fs' : Forall2 same_shape fs fs' → visible_nbits fs' = visible_nbits fs.
Proof.
  induction 1 as [|f f' fs fs' (En & _ & Eh) _ IH]; [done|]. cbn [visible_nbits]. by rewrite Eh, En, IH.
Qed.

Lemma no_straddle_same fs fs' off : Forall2 same_shape fs fs' → no_straddle fs off → no_straddle fs' off.
Proof.
  intros Hsh. revert off. induction Hsh as [|f f' fs fs' (En & _ & Eh) _ IH]; intros off; [done|].
  cbn [no_straddle]. rewrite Eh, En. destruct (Fields.hidden f); [done|]. intros [? ?]. split; [done|by apply IH].
Qed.

Lemma bit_at_take data n k : 0 ≤ n → 0 ≤ k < 8 * n → bit_at (take (Z.to_nat n) data) k = bit_at data k.
Proof.
  intros Hn Hk. unfold bit_at. assert (0 ≤ k / 8 < n) by (split; [apply Z.div_pos; lia|apply Z.div_lt_upper_bound; lia]).
  rewrite !vget_nat by lia. by rewrite lookup_take_lt by lia.
Qed.

(** What [n] bytes of header leave in a buffer. *)
Lemma deparsed_bytes fs d1 d2 n :
  Forall Fields.wf fs → visible_nbits fs = 8 * n → 0 ≤ n →
  bytes_ok d1 → bytes_ok d2 → n ≤ Z.of_nat (length d1) → n ≤ Z.of_nat (length d2) →
  laid_out fs d1 0 → laid_out fs d2 0 → take (Z.to_nat n) d1 = take (Z.to_nat n) d2.
Proof.
  intros Hwf Hv Hn Hd1 Hd2 Hl1 Hl2 H1' H2'. apply bits_ext; [by apply Forall_take..|rewrite !length_take; lia|].
  intros k Hk. rewrite length_take in Hk. rewrite !bit_at_take by lia.
  apply (laid_out_det fs d1 d2 0); [done..|lia].
Qed.

Lemma extract_then_deparse_fields h data eval n :
  is_VL_header h = false → Forall field_ok (fields h) →
  visible_nbits (fields h) = 8 * n → 0 ≤ n → no_straddle (fields h) 0 →
  bytes_ok data → n ≤ Z.of_nat (length data) →
  ∃ fs', extract h data eval = Some (with_fields h fs') ∧ Forall field_ok fs' ∧ Forall2 same_shape (fields h) fs' ∧
    (Forall field_synced (fields h) → Forall field_synced fs') ∧
    ∀ buf, bytes_ok buf → n ≤ Z.of_nat (length buf) →
      deparse_fields fs' buf 0 = Some (take (Z.to_nat n) data ++ drop (Z.to_nat n) buf).
Proof.
  intros HVL Hok Hv Hn Hstr Hd Hlen. unfold extract. rewrite HVL.
  destruct (extract_fields_ok (fields h) data 0 Hok Hd) as (fs' & -> & Hok' & Hsh & Hlay & Hsync); [lia|lia|done|].
  msimpl. exists fs'. do 4 (split; [done|]). intros buf Hb Hlb. apply visible_same in Hsh. rewrite Hv in Hsh.
  destruct (deparse_fields_ok fs' buf 0 Hok' Hb) as (buf' & -> & Hl & Hokb & Hlay' & _ & Hrest); [lia|lia|].
  f_equal. rewrite <- (take_drop (Z.to_nat n) buf'). f_equal.
  - apply (deparsed_bytes fs'); try done; [|lia]. eapply Forall_impl; [exact Hok'|]. by intros x [? _].
  - apply list_eq. intros i. rewrite !lookup_drop.
    specialize (Hrest (n + Z.of_nat i) ltac:(lia)). rewrite !vget_nat in Hrest by lia.
    by replace (Z.to_nat n + i)%nat with (Z.to_nat (n + Z.of_nat i)) by lia.
Qed.

(** A header extracted from a packet and deparsed again gives the bytes it
    was extracted from, and the bytes after it in the buffer are not touched;
    its arithmetic fields have the values their bits stand for. *)
Theorem extract_then_deparse h data eval n :
  is_VL_header h = false → Forall field_ok (fields h) → Forall field_synced (fields h) →
  visible_nbits (fields h) = 8 * n → 0 ≤ n → no_straddle (fields h) 0 →
  bytes_ok data → n ≤ Z.of_nat (length data) →
  ∃ h', extract h data eval = Some h' ∧ Forall field_ok (fields h') ∧ Forall field_synced (fields h') ∧
    ∀ buf, bytes_ok buf → n ≤ Z.of_nat (length buf) →
      deparse h' buf = Some (take (Z.to_nat n) data ++ drop (Z.to_nat n) buf).
Proof.
  intros HVL Hok Hsy Hv Hn Hstr Hd Hlen.
  destruct (extract_then_deparse_fields h data eval n) as (fs' & E & Hok' & _ & Hsync & Hdep); [done..|].
  exists (with_fields h fs'). split; [done|]. split; [done|]. split; [by apply Hsync|]. exact Hdep.
Qed.

(** The fields of a header deparsed into a packet are read back by
    extracting a header of the same type from it. *)
Theorem deparse_then_extract h h0 buf eval :
  is_VL_header h0 = false → Forall field_ok (fields h) → Forall field_ok (fields h0) →
  Forall2 same_shape (fields h) (fields h0) → no_straddle (fields h) 0 →
  bytes_ok buf → visible_nbits (fields h) ≤ 8 * Z.of_nat (length buf) →
  ∃ data h', deparse h buf = Some data ∧ extract h0 data eval = Some h' ∧
    visible_bytes (fields h') = visible_bytes (fields h).
Proof.
  intros HVL Hok Hok0 Hsh Hstr Hb Hlen. unfold deparse.
  destruct (deparse_fields_ok (fields h) buf 0 Hok Hb) as (data & -> & Hl & Hokd & Hlay & _ & _); [lia|lia|].
  exists data. unfold extract. rewrite HVL.
  destruct (extract_fields_ok (fields h0) data 0 Hok0 Hokd) as (fs' & -> & Hok' & Hsh' & Hlay' & _);
    [lia|rewrite (visible_same _ _ Hsh); lia|by eapply no_straddle_same|].
  eexists. split; [done|]. split; [done|]. cbn [fields with_fields].
  eapply laid_out_bytes; [exact Hok|exact Hok'| |exact Hlay|exact Hlay'].
  eapply Forall2_trans; [|exact Hsh|exact Hsh'].
  intros x y z (? & ? & ?) (? & ? & ?). unfold same_shape. split_and!; congruence.
Qed.
End layout.
End Headers.

(** ** Witnesses *)

Module HeadersExamples.
Import Headers GmpExample.

(** The first fields of an IPv4 header, a 13-bit field across bytes included. *)
Definition ipv4_type : HeaderType :=
  let ht := new_type 0 in
  let ht := (push_back_field ht "version" 4 false false false).1 in
  let ht := (push_back_field ht "ihl" 4 false false false).1 in
  let ht := (push_back_field ht "flags" 3 false false false).1 in
  (push_back_field ht "fragOffset" 13 false false false).1.

Definition empty_header : Header :=
  {| header_type := new_type 0; fields := []; valid := false; metadata := false;
     nbytes_packet := 0; union_membership := None |}.
Definition ipv4 : Header := default empty_header (new ipv4_type (list_to_set [0; 1; 2; 3; 4]) false).

Example ipv4_nbytes : nbytes_packet ipv4 = 3.
Proof. vm_compute. reflexivity. Qed.
Example ipv4_extract :
  option_map (λ h, Data.value <$> (Fields.base <$> fields h)) (extract ipv4 [0x45; 0x60; 0x07] (λ _, None))
  = Some [4; 5; 3; 7; 0].
Proof. vm_compute. reflexivity. Qed.

Lemma ipv4_ok : Forall field_ok (fields ipv4).
Proof.
  vm_compute. repeat constructor; try done; vm_compute; done.
Qed.

Lemma ipv4_synced : Forall field_synced (fields ipv4).
Proof. vm_compute. repeat constructor; vm_compute; done. Qed.

Lemma ipv4_no_straddle : no_straddle (fields ipv4) 0.
Proof. vm_compute. split_and!; (left; done) || (right; done) || done. Qed.

Lemma extract_then_deparse_witness :
  ∃ h', extract ipv4 [0x45; 0x60; 0x07; 1] (λ _, None) = Some h' ∧ Forall field_ok (fields h') ∧
    Forall field_synced (fields h') ∧
    ∀ buf, bytes_ok buf → 3 ≤ Z.of_nat (length buf) →
      deparse h' buf = Some (take (Z.to_nat 3) [0x45; 0x60; 0x07; 1] ++ drop (Z.to_nat 3) buf).
Proof.
  apply (extract_then_deparse ipv4 [0x45; 0x60; 0x07; 1] (λ _, None) 3);
    [reflexivity|apply ipv4_ok|apply ipv4_synced|vm_compute; reflexivity|lia|apply ipv4_no_straddle| |simpl; lia].
  refine (bool_decide_unpack _ _); vm_compute; exact I.
Defined.

Lemma deparse_then_extract_witness :
  ∃ data h', deparse ipv4 [255; 255; 255; 255] = Some data ∧ extract ipv4 data (λ _, None) = Some h' ∧
    visible_bytes (fields h') = visible_bytes (fields ipv4).
Proof.
  apply (deparse_then_extract ipv4 ipv4 [255; 255; 255; 255] (λ _, None));
    [reflexivity|apply ipv4_ok|apply ipv4_ok| |apply ipv4_no_straddle| |vm_compute; done].
  - clear. induction (fields ipv4); by constructor.
  - refine (bool_decide_unpack _ _); vm_compute; exact I.
Defined.
End HeadersExamples.
