(* ===== verification/Phv.v ===== *)
(** * Parsed headers (include/bm/bm_sim/phv.h, header_unions.h, stacks.h,
      src/bm_sim/phv.cpp, header_unions.cpp, stacks.cpp, headers.cpp)

    The headers of a packet, and the unions and stacks over them. The C++
    objects refer to each other: a header to the union it belongs to, a union
    to its headers, a stack to its elements. Here they are all in one record
    and refer to each other by their ids, and an operation of any of them takes
    and returns that record. *)

From S2P Require Import Prelude Data Fields Headers.
Import (coercions) Fields.

Module Phv.

Record HeaderUnion := {
  u_headers : list Z;             (** header ids *)
  u_valid : bool;
  valid_header_idx : Z;
}.

Record Stack := {
  elements : list Z;              (** ids of headers, or of unions *)
  next : Z;                       (** first empty index *)
}.

Record PHV := {
  headers : list Headers.Header;
  header_stacks : list Stack;
  header_unions : list HeaderUnion;
  header_union_stacks : list Stack;
}.

Section operations.
Context `{Gmp}.
Implicit Types (phv : PHV) (st : Stack).

Definition with_headers phv hs : PHV :=
  {| headers := hs; header_stacks := header_stacks phv; header_unions := header_unions phv;
     header_union_stacks := header_union_stacks phv |}.
Definition with_unions phv us : PHV :=
  {| headers := headers phv; header_stacks := header_stacks phv; header_unions := us;
     header_union_stacks := header_union_stacks phv |}.

Definition get_header phv (id : Z) : option Headers.Header := vget (headers phv) id.
Definition set_header phv (id : Z) (h : Headers.Header) : option PHV :=
  hs ← vset (headers phv) id h; Some (with_headers phv hs).
Definition get_union phv (id : Z) : option HeaderUnion := vget (header_unions phv) id.
Definition set_union phv (id : Z) (u : HeaderUnion) : option PHV :=
  us ← vset (header_unions phv) id u; Some (with_unions phv us).

(** ** Unions *)

(** [HeaderUnion::make_header_invalid] *)
Definition make_header_invalid phv (u idx : Z) : option PHV :=
  hu ← get_union phv u;
  if u_valid hu && (valid_header_idx hu =? idx) then
    set_union phv u {| u_headers := u_headers hu; u_valid := false;
                       valid_header_idx := valid_header_idx hu |}
  else Some phv.

(** [Header::mark_invalid] *)
Definition mark_invalid phv (id : Z) : option PHV :=
  h ← get_header phv id;
  h' ← Headers.set_valid h false;
  phv ← set_header phv id h';
  match Headers.union_membership h with
  | Some (u, idx) => make_header_invalid phv u idx
  | None => Some phv
  end.

(** [HeaderUnion::make_header_valid] *)
Definition make_header_valid phv (u new_valid_idx : Z) : option PHV :=
  hu ← get_union phv u;
  phv ← (if u_valid hu && negb (valid_header_idx hu =? new_valid_idx) then
           id ← vget (u_headers hu) (valid_header_idx hu);
           mark_invalid phv id
         else Some phv);
  set_union phv u {| u_headers := u_headers hu; u_valid := true; valid_header_idx := new_valid_idx |}.

(** [Header::mark_valid] *)
Definition mark_valid phv (id : Z) : option PHV :=
  h ← get_header phv id;
  h' ← Headers.set_valid h true;
  phv ← set_header phv id h';
  match Headers.union_membership h with
  | Some (u, idx) => make_header_valid phv u idx
  | None => Some phv
  end.

(** [Header::swap_values], of two different headers. *)
Definition swap_headers phv (id other : Z) : option PHV :=
  h ← get_header phv id;
  o ← get_header phv other;
  '(h, o) ← Headers.swap_values h o;
  phv ← set_header phv id h;
  set_header phv other o.

Fixpoint swap_all phv (ids others : list Z) : option PHV :=
  match ids, others with
  | id :: ids', other :: others' => phv ← swap_headers phv id other; swap_all phv ids' others'
  | _, _ => Some phv
  end.

(** [HeaderUnion::swap_values] *)
Definition swap_unions phv (u other : Z) : option PHV :=
  hu ← get_union phv u;
  ou ← get_union phv other;
  if (length (u_headers hu) =? length (u_headers ou))%nat then
    phv ← set_union phv u {| u_headers := u_headers hu; u_valid := u_valid ou;
                             valid_header_idx := valid_header_idx ou |};
    phv ← set_union phv other {| u_headers := u_headers ou; u_valid := u_valid hu;
                                 valid_header_idx := valid_header_idx hu |};
    swap_all phv (u_headers hu) (u_headers ou)
  else None.

(** [HeaderUnion::get_valid_header], by its id. *)
Definition get_valid_header (hu : HeaderUnion) : option (option Z) :=
  if u_valid hu then id ← vget (u_headers hu) (valid_header_idx hu); Some (Some id) else Some None.

Definition union_cmp phv (hu other : HeaderUnion) : option bool :=
  if u_valid hu && u_valid other && (valid_header_idx hu =? valid_header_idx other) then
    id1 ← vget (u_headers hu) (valid_header_idx hu);
    id2 ← vget (u_headers other) (valid_header_idx hu);
    h1 ← get_header phv id1;
    h2 ← get_header phv id2;
    Headers.cmp h1 h2
  else Some false.

(** ** Stacks

    [Stack<T>] for headers and for unions, which differ in how an element is
    swapped and marked: marking a union is deliberately a no-op. *)
Record ElementOps := {
  el_swap : PHV → Z → Z → option PHV;
  el_mark_valid : PHV → Z → option PHV;
  el_mark_invalid : PHV → Z → option PHV;
}.

Definition header_element : ElementOps :=
  {| el_swap := swap_headers; el_mark_valid := mark_valid; el_mark_invalid := mark_invalid |}.
Definition union_element : ElementOps :=
  {| el_swap := swap_unions; el_mark_valid phv _ := Some phv; el_mark_invalid phv _ := Some phv |}.

(** [for (i = from; i > stop; i--)] *)
Fixpoint for_down (fuel : nat) (i stop : Z) (body : Z → PHV → option PHV) phv : option PHV :=
  if i <=? stop then Some phv else
  match fuel with
  | O => None
  | S fuel' => phv ← body i phv; for_down fuel' (i - 1) stop body phv
  end.

Section stack.
Context (T : ElementOps).

Definition at_swap st (i j : Z) phv : option PHV :=
  a ← vget (elements st) i; b ← vget (elements st) j; el_swap T phv a b.
Definition at_valid st (i : Z) phv : option PHV := a ← vget (elements st) i; el_mark_valid T phv a.
Definition at_invalid st (i : Z) phv : option PHV := a ← vget (elements st) i; el_mark_invalid T phv a.

Definition depth st : Z := Z.of_nat (length (elements st)).
Definition with_next st (n : Z) : Stack := {| elements := elements st; next := n |}.

(** Each returns the stack, the headers, and what the method returns. *)
Definition pop_front st phv : option (Stack * PHV * Z) :=
  if next st =? 0 then Some (st, phv, 0) else
  let st := with_next st (next st - 1) in
  phv ← for_range 0 (next st) (λ i phv, at_swap st i (i + 1) phv) phv;
  phv ← at_invalid st (next st) phv;
  Some (st, phv, 1).

Definition pop_front_n st (num : Z) phv : option (Stack * PHV * Z) :=
  if num =? 0 then Some (st, phv, 0) else
  let popped := Z.min (next st) num in
  let st := with_next st (next st - popped) in
  phv ← for_range 0 (next st) (λ i phv, at_swap st i (i + num) phv) phv;
  phv ← for_range (next st) (next st + popped) (λ i phv, at_invalid st i phv) phv;
  Some (st, phv, popped).

Definition push_front st phv : option (Stack * PHV * Z) :=
  let st := with_next st (if next st <? depth st then next st + 1 else next st) in
  phv ← for_down (Z.to_nat (next st)) (u64 (next st - 1)) 0 (λ i phv, at_swap st i (i - 1) phv) phv;
  phv ← at_valid st 0 phv;
  Some (st, phv, 1).

Definition push_front_n st (num : Z) phv : option (Stack * PHV * Z) :=
  if num =? 0 then Some (st, phv, 0) else
  let st := with_next st (Z.min (depth st) (u64 (next st + num))) in
  phv ← for_down (Z.to_nat (next st)) (u64 (next st - 1)) (num - 1) (λ i phv, at_swap st i (i - num) phv) phv;
  let pushed := Z.min (depth st) num in
  phv ← for_range 0 pushed (λ i phv, at_valid st i phv) phv;
  Some (st, phv, pushed).

Definition pop_back st phv : option (Stack * PHV * Z) :=
  if next st =? 0 then Some (st, phv, 0) else
  let st := with_next st (next st - 1) in
  phv ← at_invalid st (next st) phv;
  Some (st, phv, 1).

Definition push_back st phv : option (Stack * PHV * Z) :=
  if next st =? depth st then Some (st, phv, 0) else
  phv ← at_valid st (next st) phv;
  Some (with_next st (next st + 1), phv, 1).

Definition is_full st : bool := depth st <=? next st.
Definition get_last st : option Z := if 0 <? next st then vget (elements st) (next st - 1) else None.
Definition get_next st : option Z := if next st <? depth st then vget (elements st) (next st) else None.
End stack.

(** ** The headers of a packet *)

(** [Header::extract] *)
Definition extract phv (id : Z) (data : list Z) (VL_eval : PHV → option Z) : option PHV :=
  h ← get_header phv id;
  h ← Headers.extract h data (λ h, phv ← set_header phv id h; VL_eval phv);
  phv ← set_header phv id h;
  mark_valid phv id.

Fixpoint reset_loop (n : nat) (i : Z) phv : option PHV :=
  match n with
  | O => Some phv
  | S n' =>
      phv ← mark_invalid phv i;
      h ← get_header phv i;
      h ← (if Headers.is_VL_header h then Headers.reset_VL_header h else Some h);
      phv ← set_header phv i h;
      reset_loop n' (i + 1) phv
  end.

Definition reset phv : option PHV := reset_loop (length (headers phv)) 0 phv.

Definition reset_header_stacks phv : PHV :=
  {| headers := headers phv; header_stacks := (λ st, with_next st 0) <$> header_stacks phv;
     header_unions := header_unions phv;
     header_union_stacks := (λ st, with_next st 0) <$> header_union_stacks phv |}.

Definition reset_metadata phv : option PHV :=
  hs ← mapM (λ h, if Headers.metadata h then Headers.reset h else Some h) (headers phv);
  Some (with_headers phv hs).

Definition reset_headers phv : option PHV :=
  hs ← mapM Headers.reset (headers phv);
  Some (with_headers phv hs).

Definition set_written_to phv (b : bool) : PHV :=
  with_headers phv ((λ h, Headers.set_written_to h b) <$> headers phv).

Definition with_flags (h src : Headers.Header) : Headers.Header :=
  {| Headers.header_type := Headers.header_type h; Headers.fields := Headers.fields h;
     Headers.valid := Headers.valid src; Headers.metadata := Headers.metadata src;
     Headers.nbytes_packet := Headers.nbytes_packet h;
     Headers.union_membership := Headers.union_membership h |}.

Definition copy_headers phv (src : PHV) : option PHV :=
  if (length (headers phv) <=? length (headers src))%nat then
    hs ← mapM (λ p : Headers.Header * Headers.Header,
      let h := with_flags p.1 p.2 in
      if Headers.valid h || Headers.metadata h then Headers.copy_fields h p.2 else Some h)
      (zip (headers phv) (headers src));
    Some (with_headers phv hs)
  else None.

(** Building: [push_back_header_union] also makes its headers members. *)
Definition set_membership (h : Headers.Header) (u idx : Z) : Headers.Header :=
  {| Headers.header_type := Headers.header_type h; Headers.fields := Headers.fields h;
     Headers.valid := Headers.valid h; Headers.metadata := Headers.metadata h;
     Headers.nbytes_packet := Headers.nbytes_packet h;
     Headers.union_membership := Some (u, idx) |}.

Fixpoint join_union phv (ids : list Z) (u idx : Z) : option PHV :=
  match ids with
  | [] => Some phv
  | id :: ids' =>
      h ← get_header phv id;
      phv ← set_header phv id (set_membership h u idx);
      join_union phv ids' u (idx + 1)
  end.

Definition push_back_header_union phv (header_ids : list Z) : option PHV :=
  let u := Z.of_nat (length (header_unions phv)) in
  let phv := with_unions phv (header_unions phv ++
    [{| u_headers := header_ids; u_valid := false; valid_header_idx := 0 |}]) in
  join_union phv header_ids u 0.

Definition push_back_header_stack phv (header_ids : list Z) : PHV :=
  {| headers := headers phv;
     header_stacks := header_stacks phv ++ [{| elements := header_ids; next := 0 |}];
     header_unions := header_unions phv; header_union_stacks := header_union_stacks phv |}.

Definition push_back_header phv (ht : Headers.HeaderType) (arith_offsets : gset Z) (metadata : bool)
    : option PHV :=
  h ← Headers.new ht arith_offsets metadata;
  Some (with_headers phv (headers phv ++ [h])).
End operations.

(** ** Unions are consistent with their headers *)
Section proofs.
Context `{GmpLaws}.
Implicit Types (phv : PHV) (st : Stack) (h o : Headers.Header) (id u idx : Z) (b : bool).

(** A header's validity is also a field, the last one. *)
Definition header_ok h : Prop :=
  ∃ f, vget (Headers.fields h) (Headers.get_hidden_offset (Headers.header_type h)) = Some f ∧ Fields.wf f.

Lemma set_valid_ok h b :
  header_ok h → ∃ h', Headers.set_valid h b = Some h' ∧ header_ok h' ∧ Headers.valid h' = b ∧
    Headers.union_membership h' = Headers.union_membership h ∧
    Headers.header_type h' = Headers.header_type h.
Proof.
  intros (f & Ef & Hwf). unfold Headers.set_valid. rewrite Ef. msimpl.
  assert (Fields.wf (Fields.with_value f (if b then 1 else 0))) as Hwf1 by (destruct Hwf; by constructor).
  destruct (Fields.export_bytes_ok _ Hwf1) as (f' & E & Hwf' & _). unfold Fields.set. rewrite E. msimpl.
  pose proof (vget_Some_range _ _ _ Ef) as Hr. rewrite vset_Some by done. msimpl.
  eexists. split; [done|]. split; [|done]. exists f'. split; [|done].
  etransitivity; [by eapply (vget_vset (Headers.fields h)), vset_Some|]. by rewrite decide_True.
Qed.

Lemma set_header_ok phv id h0 h :
  get_header phv id = Some h0 → ∃ phv', set_header phv id h = Some phv' ∧
    header_unions phv' = header_unions phv ∧ header_stacks phv' = header_stacks phv ∧
    header_union_stacks phv' = header_union_stacks phv ∧
    ∀ k, get_header phv' k = if decide (k = id) then Some h else get_header phv k.
Proof.
  intros E%vget_Some_range. unfold set_header. rewrite vset_Some by done. msimpl.
  eexists. split; [done|]. do 3 (split; [done|]). intros k.
  by apply (vget_vset (headers phv)), vset_Some.
Qed.

Lemma set_union_ok phv u hu0 hu :
  get_union phv u = Some hu0 → ∃ phv', set_union phv u hu = Some phv' ∧ headers phv' = headers phv ∧
    ∀ k, get_union phv' k = if decide (k = u) then Some hu else get_union phv k.
Proof.
  intros E%vget_Some_range. unfold set_union. rewrite vset_Some by done. msimpl.
  eexists. split; [done|]. split; [done|]. intros k. by apply (vget_vset (header_unions phv)), vset_Some.
Qed.

(** Whether union [hu] holds its header [idx]. *)
Definition holds (hu : HeaderUnion) idx : bool := u_valid hu && (valid_header_idx hu =? idx).

(** Headers and unions name each other, and a header of a union is valid iff
    it is the one its union holds. *)
Record unions_ok phv : Prop := {
  ok_headers : ∀ id h, get_header phv id = Some h → header_ok h;
  ok_member : ∀ id h u idx, get_header phv id = Some h → Headers.union_membership h = Some (u, idx) →
    ∃ hu, get_union phv u = Some hu ∧ vget (u_headers hu) idx = Some id ∧
      Headers.valid h = holds hu idx;
  ok_union : ∀ u hu idx id, get_union phv u = Some hu → vget (u_headers hu) idx = Some id →
    ∃ h, get_header phv id = Some h ∧ Headers.union_membership h = Some (u, idx);
  ok_valid : ∀ u hu, get_union phv u = Some hu → u_valid hu = true →
    is_Some (vget (u_headers hu) (valid_header_idx hu));
}.

(** What marking headers leaves alone, and the validity it gives. *)
Definition marked phv phv' (valid' : Z → Headers.Header → bool) : Prop :=
  length (header_unions phv') = length (header_unions phv) ∧
  ∀ id, match get_header phv id with
        | None => get_header phv' id = None
        | Some h => ∃ h', get_header phv' id = Some h' ∧ header_ok h' ∧ Headers.valid h' = valid' id h ∧
            Headers.union_membership h' = Headers.union_membership h
        end.

Lemma marked_get phv phv' g id h :
  marked phv phv' g → get_header phv id = Some h → ∃ h', get_header phv' id = Some h' ∧ header_ok h' ∧
    Headers.valid h' = g id h ∧ Headers.union_membership h' = Headers.union_membership h.
Proof. intros [_ Hm] E. specialize (Hm id). by rewrite E in Hm. Qed.

Lemma marked_inv phv phv' g id h' :
  marked phv phv' g → get_header phv' id = Some h' → ∃ h, get_header phv id = Some h ∧ header_ok h' ∧
    Headers.valid h' = g id h ∧ Headers.union_membership h' = Headers.union_membership h.
Proof.
  intros [_ Hm] E. specialize (Hm id). destruct (get_header phv id) as [h|]; [|congruence].
  destruct Hm as (h1 & E1 & ?). simplify_eq. eauto.
Qed.

(** A union that stops holding its header [idx]. *)
Definition release (hu : HeaderUnion) idx : HeaderUnion :=
  if holds hu idx then {| u_headers := u_headers hu; u_valid := false;
                          valid_header_idx := valid_header_idx hu |} else hu.

Lemma make_header_invalid_ok phv u idx hu :
  get_union phv u = Some hu →
  ∃ phv', make_header_invalid phv u idx = Some phv' ∧ headers phv' = headers phv ∧
    ∀ k, get_union phv' k = if decide (k = u) then Some (release hu idx) else get_union phv k.
Proof.
  intros E. unfold make_header_invalid, release, holds. rewrite E. msimpl.
  destruct (u_valid hu && _) eqn:Eh.
  - by apply (set_union_ok _ _ hu).
  - eexists. split; [done|]. split; [done|]. intros k. destruct (decide (k = u)); congruence.
Qed.

Lemma get_header_headers phv phv' id : headers phv' = headers phv → get_header phv' id = get_header phv id.
Proof. unfold get_header. congruence. Qed.

Lemma get_union_unions phv phv' u :
  header_unions phv' = header_unions phv → get_union phv' u = get_union phv u.
Proof. unfold get_union. congruence. Qed.

(** Marking a header changes that header, and the union it belongs to. *)
Lemma mark_invalid_effect phv id h :
  get_header phv id = Some h → header_ok h →
  (∀ u idx, Headers.union_membership h = Some (u, idx) → is_Some (get_union phv u)) →
  ∃ phv' h', mark_invalid phv id = Some phv' ∧ Headers.set_valid h false = Some h' ∧
    (∀ k, get_header phv' k = if decide (k = id) then Some h' else get_header phv k) ∧
    ∀ k, get_union phv' k = match Headers.union_membership h with
      | Some (u, idx) => if decide (k = u) then (λ hu, release hu idx) <$> get_union phv k else get_union phv k
      | None => get_union phv k
      end.
Proof.
  intros E Hok Hmem. unfold mark_invalid. rewrite E. msimpl.
  destruct (set_valid_ok h false Hok) as (h' & -> & _). msimpl.
  destruct (set_header_ok phv id h h' E) as (phv1 & -> & Hu1 & _ & _ & Hg1). msimpl.
  destruct (Headers.union_membership h) as [[u idx]|] eqn:Em.
  - destruct (Hmem u idx eq_refl) as [hu Ehu].
    destruct (make_header_invalid_ok phv1 u idx hu) as (phv2 & -> & Hh2 & Hu2);
      [by rewrite (get_union_unions phv)|].
    exists phv2, h'. split; [done|]. split; [done|]. split.
    + intros k. by rewrite (get_header_headers phv1).
    + intros k. rewrite Hu2. destruct (decide (k = u)) as [->|]; [by rewrite Ehu|].
      by apply get_union_unions.
  - exists phv1, h'. do 3 (split; [done|]). intros k. by apply get_union_unions.
Qed.

Lemma unions_ok_intro phv phv' valid' (un : Z → HeaderUnion → HeaderUnion) :
  unions_ok phv →
  (∀ id h', get_header phv' id = Some h' → ∃ h, get_header phv id = Some h ∧ header_ok h' ∧
     Headers.valid h' = valid' id h ∧ Headers.union_membership h' = Headers.union_membership h) →
  (∀ id h, get_header phv id = Some h → is_Some (get_header phv' id)) →
  (∀ u, get_union phv' u = un u <$> get_union phv u) →
  (∀ u hu, u_headers (un u hu) = u_headers hu) →
  (∀ u hu, get_union phv u = Some hu → u_valid (un u hu) = true →
     is_Some (vget (u_headers hu) (valid_header_idx (un u hu)))) →
  (∀ id h u idx hu, get_header phv id = Some h → Headers.union_membership h = Some (u, idx) →
     get_union phv u = Some hu → valid' id h = holds (un u hu) idx) →
  unions_ok phv'.
Proof.
  intros [O1 O2 O3 O4] Hinv Hsome Hun Huh Huv Hv. split.
  - intros id h' E. destruct (Hinv _ _ E) as (h & _ & ? & _). done.
  - intros id h' u idx E Em. destruct (Hinv _ _ E) as (h & E0 & _ & Ev & Em0).
    rewrite Em in Em0. symmetry in Em0. destruct (O2 _ _ _ _ E0 Em0) as (hu & Ehu & Eid & _).
    exists (un u hu). rewrite Hun, Ehu, Huh, Ev. split; [done|]. split; [done|]. by eapply Hv.
  - intros u hu' idx id E Eid. rewrite Hun in E. destruct (get_union phv u) as [hu|] eqn:Ehu; [|done].
    simplify_eq/=. rewrite Huh in Eid. destruct (O3 _ _ _ _ Ehu Eid) as (h & E0 & Em0).
    destruct (Hsome _ _ E0) as [h' E']. exists h'. split; [done|].
    destruct (Hinv _ _ E') as (h1 & ? & _ & _ & ->). congruence.
  - intros u hu' E Eu. rewrite Hun in E. destruct (get_union phv u) as [hu|] eqn:Ehu; [|done].
    simplify_eq/=. rewrite Huh. by apply Huv.
Qed.

Lemma member_of phv id h u idx :
  unions_ok phv → get_header phv id = Some h → Headers.union_membership h = Some (u, idx) →
  ∃ hu, get_union phv u = Some hu ∧ vget (u_headers hu) idx = Some id ∧ Headers.valid h = holds hu idx.
Proof. intros []; eauto. Qed.

(** Two headers of a union have different indices. *)
Lemma member_inj phv id id' h h' u idx :
  unions_ok phv → get_header phv id = Some h → get_header phv id' = Some h' →
  Headers.union_membership h = Some (u, idx) → Headers.union_membership h' = Some (u, idx) → id = id'.
Proof.
  intros Hok E E' Em Em'. destruct (member_of _ _ _ _ _ Hok E Em) as (hu & ? & ? & _).
  destruct (member_of _ _ _ _ _ Hok E' Em') as (hu' & ? & ? & _). congruence.
Qed.

Lemma mark_invalid_ok phv id h :
  unions_ok phv → get_header phv id = Some h →
  ∃ phv' h', mark_invalid phv id = Some phv' ∧ unions_ok phv' ∧ Headers.set_valid h false = Some h' ∧
    (∀ k, get_header phv' k = if decide (k = id) then Some h' else get_header phv k).
Proof.
  intros Hok E. pose proof (ok_headers _ Hok _ _ E) as Hh.
  destruct (mark_invalid_effect phv id h) as (phv' & h' & -> & Eh' & Hg & Hu); [done..| |].
  { intros u idx Em. destruct (member_of _ _ _ _ _ Hok E Em) as (hu & -> & _). eauto. }
  exists phv', h'. split; [done|]. split; [|done].
  destruct (set_valid_ok h false Hh) as (h1 & ? & Hok' & Hv' & Hm' & _). simplify_eq.
  apply (unions_ok_intro phv phv' (λ k o, if decide (k = id) then false else Headers.valid o)
    (λ u hu, match Headers.union_membership h with
             | Some (u', idx) => if decide (u = u') then release hu idx else hu | None => hu end)).
  - done.
  - intros k o Ek. rewrite Hg in Ek. destruct (decide (k = id)) as [->|]; simplify_eq; eauto 6.
    exists o. split_and!; try done. by eapply ok_headers.
  - intros k o Ek. rewrite Hg. destruct (decide (k = id)); eauto.
  - intros u. rewrite Hu. destruct (Headers.union_membership h) as [[u' idx]|];
      [destruct (decide (u = u'))|]; destruct (get_union phv u); done.
  - intros u hu. destruct (Headers.union_membership h) as [[u' idx]|]; [|done].
    unfold release. destruct (decide (u = u')), (holds hu idx); done.
  - intros u hu Ehu Hv. destruct (Headers.union_membership h) as [[u' idx]|]; [|by apply (ok_valid _ Hok u)].
    unfold release in *. destruct (decide (u = u')), (holds hu idx); try done; by apply (ok_valid _ Hok u).
  - intros k o u idx hu Ek Em Ehu. destruct (member_of _ _ _ _ _ Hok Ek Em) as (hu' & ? & _ & Hv). simplify_eq.
    destruct (decide (k = id)) as [->|Hne].
    + simplify_eq. rewrite Em, decide_True by done. unfold release, holds.
      destruct (u_valid hu) eqn:Ev; cbn; [destruct (Z.eqb_spec (valid_header_idx hu) idx); cbn|]; try done.
      * rewrite Ev. symmetry. by apply Z.eqb_neq.
      * by rewrite Ev.
    + rewrite Hv. destruct (Headers.union_membership h) as [[u' idx']|] eqn:Em'; [|done].
      destruct (decide (u = u')) as [->|]; [|done].
      assert (idx ≠ idx') by (intros ->; apply Hne; by eapply member_inj).
      unfold release, holds. destruct (u_valid hu) eqn:Ev; cbn; rewrite ?Ev; try done.
      destruct (Z.eqb_spec (valid_header_idx hu) idx') as [<-|]; cbn; rewrite ?Ev; try done.
      by apply Z.eqb_neq.
Qed.

Definition same_union o h : bool :=
  match Headers.union_membership o, Headers.union_membership h with
  | Some (u, _), Some (u', _) => u =? u' | _, _ => false
  end.

Lemma valid_header phv u hu :
  unions_ok phv → get_union phv u = Some hu → u_valid hu = true →
  ∃ old o, vget (u_headers hu) (valid_header_idx hu) = Some old ∧ get_header phv old = Some o ∧
    Headers.union_membership o = Some (u, valid_header_idx hu).
Proof.
  intros Hok E Ev. destruct (ok_valid _ Hok u hu E Ev) as [old Eold].
  destruct (ok_union _ Hok _ _ _ _ E Eold) as (o & Eo & Em). eauto.
Qed.

(** What [mark_valid] makes of the headers and of the header's union. *)
Lemma mark_valid_effect phv id h :
  unions_ok phv → get_header phv id = Some h →
  ∃ phv' h', mark_valid phv id = Some phv' ∧ Headers.set_valid h true = Some h' ∧
    get_header phv' id = Some h' ∧
    (∀ k, k ≠ id → match get_header phv k with
       | None => get_header phv' k = None
       | Some o => if same_union o h && Headers.valid o
           then ∃ o', get_header phv' k = Some o' ∧ Headers.set_valid o false = Some o'
           else get_header phv' k = Some o end) ∧
    (∀ u, get_union phv' u = match Headers.union_membership h with
       | Some (u', idx) => if decide (u = u') then
           (λ hu, {| u_headers := u_headers hu; u_valid := true; valid_header_idx := idx |}) <$> get_union phv u
           else get_union phv u
       | None => get_union phv u end).
Proof.
  intros Hok E. pose proof (ok_headers _ Hok _ _ E) as Hh. unfold mark_valid. rewrite E. msimpl.
  destruct (set_valid_ok h true Hh) as (h' & -> & Hh' & _ & Hm' & _). msimpl.
  destruct (set_header_ok phv id h h' E) as (phv1 & -> & Hu1 & _ & _ & Hg1). msimpl.
  assert (∀ k, get_union phv1 k = get_union phv k) as Hu1' by (intros; by apply get_union_unions).
  unfold same_union. destruct (Headers.union_membership h) as [[u idx]|] eqn:Em; cycle 1.
  { exists phv1, h'. do 2 (split; [done|]). split; [by rewrite Hg1, decide_True|]. split; [|done].
    intros k Hk. rewrite Hg1, decide_False by done. destruct (get_header phv k) as [o|]; [|done].
    destruct (Headers.union_membership o) as [[]|]; done. }
  destruct (member_of _ _ _ _ _ Hok E Em) as (hu & Ehu & Eid & Hv).
  unfold make_header_valid. rewrite Hu1', Ehu. msimpl.
  destruct (u_valid hu && negb (valid_header_idx hu =? idx)) eqn:Ec.
  - apply andb_true_iff in Ec as [Ev Hne%negb_true_iff%Z.eqb_neq].
    destruct (valid_header _ _ _ Hok Ehu Ev) as (old & o & Eold & Eo & Emo). rewrite Eold. msimpl.
    assert (old ≠ id) as Hold by (intros ->; simplify_eq).
    destruct (mark_invalid_effect phv1 old o) as (phv2 & o' & -> & Eo' & Hg2 & Hu2).
    { by rewrite Hg1, decide_False. } { by eapply ok_headers. }
    { intros ? ? ?. simplify_eq. rewrite Hu1'. eauto. }
    msimpl. rewrite Emo in Hu2.
    destruct (set_union_ok phv2 u (release hu (valid_header_idx hu))
      {| u_headers := u_headers hu; u_valid := true; valid_header_idx := idx |}) as (phv3 & -> & Hh3 & Hu3).
    { by rewrite Hu2, decide_True, Hu1', Ehu. }
    exists phv3, h'. do 2 (split; [done|]). split; [|split].
    + by rewrite (get_header_headers phv2), Hg2, decide_False, Hg1, decide_True.
    + intros k Hk. rewrite (get_header_headers phv2 phv3), Hg2, Hg1, (decide_False (P := k = id)) by done.
      destruct (decide (k = old)) as [->|Hko].
      * rewrite Eo, Emo, Z.eqb_refl. destruct (member_of _ _ _ _ _ Hok Eo Emo) as (? & ? & _ & Hvo).
        simplify_eq. unfold holds in Hvo. rewrite Ev, Z.eqb_refl in Hvo. rewrite Hvo. cbn. eauto.
      * destruct (get_header phv k) as [p|] eqn:Ek; [|done].
        destruct (Headers.union_membership p) as [[u' idx']|] eqn:Emp; [|done].
        destruct (Z.eqb_spec u' u) as [->|]; [|done].
        destruct (member_of _ _ _ _ _ Hok Ek Emp) as (? & ? & _ & Hvp). simplify_eq.
        rewrite Hvp. unfold holds. rewrite Ev. destruct (Z.eqb_spec (valid_header_idx hu) idx') as [<-|]; [|done].
        destruct Hko. by eapply member_inj.
    + intros k. rewrite Hu3, Hu2, Hu1'. destruct (decide (k = u)) as [->|]; [by rewrite Ehu|done].
  - msimpl. destruct (set_union_ok phv1 u hu
      {| u_headers := u_headers hu; u_valid := true; valid_header_idx := idx |}) as (phv3 & -> & Hh3 & Hu3).
    { by rewrite Hu1'. }
    exists phv3, h'. do 2 (split; [done|]). split; [|split].
    + by rewrite (get_header_headers phv1), Hg1, decide_True.
    + intros k Hk. rewrite (get_header_headers phv1 phv3), Hg1, (decide_False (P := k = id)) by done.
      destruct (get_header phv k) as [p|] eqn:Ek; [|done].
      destruct (Headers.union_membership p) as [[u' idx']|] eqn:Emp; [|done].
      destruct (Z.eqb_spec u' u) as [->|]; [|done].
      destruct (member_of _ _ _ _ _ Hok Ek Emp) as (? & ? & _ & Hvp). simplify_eq.
      rewrite Hvp. unfold holds. destruct (u_valid hu); [|done].
      destruct (Z.eqb_spec (valid_header_idx hu) idx') as [<-|]; [|done].
      cbn in Ec. apply negb_false_iff, Z.eqb_eq in Ec. subst. destruct Hk. by eapply member_inj.
    + intros k. rewrite Hu3, Hu1'. destruct (decide (k = u)) as [->|]; [by rewrite Ehu|done].
Qed.

(** Marking a header valid makes the other headers of its union invalid and
    no other; headers and unions stay consistent. *)
Theorem mark_valid_union phv id h :
  unions_ok phv → get_header phv id = Some h →
  ∃ phv', mark_valid phv id = Some phv' ∧ unions_ok phv' ∧
    ∀ k o, get_header phv k = Some o → ∃ o', get_header phv' k = Some o' ∧
      Headers.valid o' = if decide (k = id) then true else if same_union o h then false else Headers.valid o.
Proof.
  intros Hok E. destruct (mark_valid_effect _ _ _ Hok E) as (phv' & h' & -> & Eh' & Eid & Hg & Hu).
  exists phv'. split; [done|]. destruct (set_valid_ok h true (ok_headers _ Hok _ _ E)) as (? & ? & ? & ? & ? & _).
  simplify_eq. set (valid' k o := if decide (k = id) then true else if same_union o h then false else Headers.valid o).
  assert (∀ k o, get_header phv k = Some o → ∃ o', get_header phv' k = Some o' ∧ header_ok o' ∧
    Headers.valid o' = valid' k o ∧ Headers.union_membership o' = Headers.union_membership o) as Hall.
  { intros k o Ek. unfold valid'. destruct (decide (k = id)) as [->|Hne]; [simplify_eq; eauto|].
    specialize (Hg k Hne). rewrite Ek in Hg. pose proof (ok_headers _ Hok _ _ Ek) as Ho.
    destruct (same_union o h); cbn [andb] in Hg; [|eauto].
    destruct (Headers.valid o) eqn:Ev; [|eauto]. destruct Hg as (o' & Eo' & Es).
    destruct (set_valid_ok o false Ho) as (? & ? & ? & ? & ? & _). simplify_eq. eauto. }
  split; [|intros k o Ek; destruct (Hall k o Ek) as (o' & ? & _ & ? & _); eauto].
  apply (unions_ok_intro phv phv' valid' (λ u hu, match Headers.union_membership h with
    | Some (u', idx) => if decide (u = u') then
        {| u_headers := u_headers hu; u_valid := true; valid_header_idx := idx |} else hu
    | None => hu end)).
  - done.
  - intros k o' Ek'. destruct (get_header phv k) as [o|] eqn:Ek.
    + destruct (Hall k o Ek) as (? & ? & ? & ? & ?). simplify_eq. eauto.
    + destruct (decide (k = id)) as [->|Hne]; [congruence|]. specialize (Hg k Hne).
      rewrite Ek in Hg. congruence.
  - intros k o Ek. destruct (Hall k o Ek) as (? & ? & _). eauto.
  - intros u. rewrite Hu. destruct (Headers.union_membership h) as [[u' idx]|];
      [destruct (decide (u = u'))|]; destruct (get_union phv u); done.
  - intros u hu. destruct (Headers.union_membership h) as [[u' idx]|]; [destruct (decide (u = u'))|]; done.
  - intros u hu Ehu. destruct (Headers.union_membership h) as [[u' idx]|] eqn:Em; [|by apply (ok_valid _ Hok u)].
    destruct (decide (u = u')) as [->|]; [|by apply (ok_valid _ Hok u)]. intros _. cbn.
    destruct (member_of _ _ _ _ _ Hok E Em) as (? & ? & ? & _). simplify_eq. eauto.
  - intros k o u idx hu Ek Em Ehu. unfold valid', same_union. rewrite Em.
    destruct (member_of _ _ _ _ _ Hok Ek Em) as (? & ? & _ & Hv). simplify_eq.
    destruct (decide (k = id)) as [->|Hne].
    + simplify_eq. rewrite Em, decide_True by done. unfold holds. cbn. by rewrite Z.eqb_refl.
    + destruct (Headers.union_membership h) as [[u' idx']|] eqn:Em'; [|done].
      destruct (Z.eqb_spec u u') as [->|]; [rewrite decide_True by done|by rewrite decide_False].
      unfold holds. cbn. symmetry. apply Z.eqb_neq. intros ->. apply Hne. by eapply member_inj.
Qed.

(** The variable-width field of a header, if it has one, is not the hidden one. *)
Definition vl_ok h : Prop :=
  Headers.is_VL_header h = true → ∃ f, vget (Headers.fields h) (Headers.VL_offset (Headers.header_type h)) = Some f ∧
    Fields.VL f = true ∧ Headers.VL_offset (Headers.header_type h) ≠ Headers.get_hidden_offset (Headers.header_type h).

Lemma reset_VL_header_ok h :
  header_ok h → vl_ok h → ∃ h', (if Headers.is_VL_header h then Headers.reset_VL_header h else Some h) = Some h' ∧
    header_ok h' ∧ vl_ok h' ∧ Headers.valid h' = Headers.valid h ∧
    Headers.union_membership h' = Headers.union_membership h.
Proof.
  intros Hok Hvl. destruct (Headers.is_VL_header h) eqn:E; [|by exists h].
  unfold Headers.reset_VL_header. rewrite E. cbn [negb]. destruct (Hvl E) as (f & Ef & EV & Hne).
  rewrite Ef. msimpl. unfold Fields.reset_VL. rewrite EV. msimpl.
  pose proof (vget_Some_range _ _ _ Ef) as Hr. rewrite vset_Some by done. msimpl. eexists. split; [done|].
  split; [|split; [|done]].
  - destruct Hok as (v & Ev & Hwf). exists v. split; [|done].
    etransitivity; [by eapply (vget_vset (Headers.fields h)), vset_Some|]. by rewrite decide_False.
  - intros _. eexists. split; [|split; [|done]].
    + etransitivity; [by eapply (vget_vset (Headers.fields h)), vset_Some|]. by rewrite decide_True.
    + by destruct (Fields.is_signed f).
Qed.

Lemma set_valid_vl h b h' : Headers.set_valid h b = Some h' → vl_ok h → vl_ok h'.
Proof.
  unfold Headers.set_valid. intros E Hvl. mbind_inv E. intros EV. destruct (Hvl EV) as (f & Ef & ? & ?).
  exists f. split; [|done]. cbn. erewrite vget_vset by done. by rewrite decide_False.
Qed.

Lemma replace_header phv phv' id h h' :
  unions_ok phv → get_header phv id = Some h → set_header phv id h' = Some phv' → header_ok h' →
  Headers.valid h' = Headers.valid h → Headers.union_membership h' = Headers.union_membership h →
  unions_ok phv'.
Proof.
  intros Hok E Es Hh' Ev Em. destruct (set_header_ok phv id h h' E) as (? & ? & Hu & _ & _ & Hg). simplify_eq.
  apply (unions_ok_intro phv phv' (λ _ o, Headers.valid o) (λ _ hu, hu)); try done.
  - intros k o'. rewrite Hg. destruct (decide (k = id)) as [->|]; intros; simplify_eq; eauto 6.
    exists o'. split_and!; try done. by eapply ok_headers.
  - intros k o Ek. rewrite Hg. destruct (decide (k = id)); eauto.
  - intros u. unfold get_union. rewrite Hu. by destruct (vget (header_unions phv) u).
  - intros u hu. by apply (ok_valid _ Hok).
  - intros k o u idx hu Ek Emo Ehu. destruct (member_of _ _ _ _ _ Hok Ek Emo) as (? & ? & _ & ?). congruence.
Qed.

Lemma reset_loop_ok n : ∀ i phv,
  unions_ok phv → (∀ k h, get_header phv k = Some h → vl_ok h) →
  0 ≤ i → i + Z.of_nat n = Z.of_nat (length (headers phv)) →
  (∀ k h, get_header phv k = Some h → k < i → Headers.valid h = false) →
  ∃ phv', reset_loop n i phv = Some phv' ∧ unions_ok phv' ∧
    (∀ k, is_Some (get_header phv' k) ↔ is_Some (get_header phv k)) ∧
    ∀ k h, get_header phv' k = Some h → Headers.valid h = false.
Proof.
  induction n as [|n IH]; intros i phv Hok Hvl Hi Hn Hv; cbn [reset_loop].
  { exists phv. split_and!; [done..|]. intros k h E. eapply Hv; [done|]. apply vget_Some_range in E. lia. }
  destruct (proj2 (vget_is_Some (headers phv) i)) as [h E]; [lia|]. change (get_header phv i = Some h) in E.
  destruct (mark_invalid_ok phv i h Hok E) as (phv1 & h1 & -> & Hok1 & Es & Hg1). msimpl.
  rewrite Hg1, decide_True by done. msimpl.
  destruct (set_valid_ok h false (ok_headers _ Hok _ _ E)) as (? & ? & Hh1 & Hv1 & Hm1 & _). simplify_eq.
  destruct (reset_VL_header_ok h1) as (h2 & -> & Hh2 & Hvl2 & Hv2 & Hm2); [done|by eapply set_valid_vl, Hvl|].
  msimpl. assert (get_header phv1 i = Some h1) as E1 by (by rewrite Hg1, decide_True).
  destruct (set_header_ok phv1 i h1 h2 E1) as (phv2 & Es2 & Hu2 & _ & _ & Hg2). rewrite Es2. msimpl.
  assert (∀ k, get_header phv2 k = if decide (k = i) then Some h2 else get_header phv k) as Hg.
  { intros k. rewrite Hg2, Hg1. by destruct (decide (k = i)). }
  assert (∀ k, is_Some (get_header phv2 k) ↔ is_Some (get_header phv k)) as Hdom.
  { intros k. rewrite Hg. destruct (decide (k = i)) as [->|]; [rewrite E|done]. split; eauto. }
  destruct (IH (i + 1) phv2) as (phv' & -> & Hok' & Hdom' & Hv').
  - by eapply replace_header; [..|done].
  - intros k o. rewrite Hg. destruct (decide (k = i)); intros; simplify_eq; [done|by eapply Hvl].
  - lia.
  - assert (length (headers phv2) = length (headers phv)) as ->; [by apply vget_length|lia].
  - intros k o. rewrite Hg. destruct (decide (k = i)); intros; simplify_eq; [congruence|].
    eapply Hv; [done|lia].
  - exists phv'. split; [done|]. split; [done|]. split; [|done]. intros k. by rewrite Hdom', Hdom.
Qed.

(** Resetting the headers leaves none of them valid, and every union empty. *)
Theorem reset_ok phv :
  unions_ok phv → (∀ k h, get_header phv k = Some h → vl_ok h) →
  ∃ phv', reset phv = Some phv' ∧ unions_ok phv' ∧
    (∀ k h, get_header phv' k = Some h → Headers.valid h = false) ∧
    ∀ u hu, get_union phv' u = Some hu → get_valid_header hu = Some None.
Proof.
  intros Hok Hvl. unfold reset. destruct (reset_loop_ok (length (headers phv)) 0 phv) as (phv' & -> & Hok' & _ & Hv');
    [done|done|lia|lia| |].
  { intros k h E ?. apply vget_Some_range in E. lia. }
  exists phv'. do 3 (split; [done|]). intros u hu Ehu. unfold get_valid_header.
  destruct (u_valid hu) eqn:Ev; [|done]. exfalso.
  destruct (valid_header _ _ _ Hok' Ehu Ev) as (id & h & Eid & Eh & Em).
  destruct (member_of _ _ _ _ _ Hok' Eh Em) as (? & ? & _ & Hv). simplify_eq.
  rewrite (Hv' _ _ Eh) in Hv. unfold holds in Hv. by rewrite Ev, Z.eqb_refl in Hv.
Qed.

(** ** Header stacks

    What the elements of a stack have in common, and no swap exchanges. *)
Definition FieldShape : Type := bool * bool * bool * bool * bool * option (Z * Z * Z * Z * Z).
Definition field_shape (f : Fields.Field) : FieldShape :=
  (Data.arith f, Fields.is_signed f, Fields.hidden f, Fields.VL f, Fields.is_saturating f,
   if Fields.VL f then None
   else Some (Fields.nbits f, Fields.nbytes f, Fields.mask f, Fields.max f, Fields.min f)).

Definition Shape : Type := Headers.HeaderType * bool * option (Z * Z) * list FieldShape.
Definition shape h : Shape := (Headers.header_type h, Headers.metadata h, Headers.union_membership h,
  field_shape <$> Headers.fields h).

(** What a header holds: everything but the [written_to] flags of its fields. *)
Definition content h : Headers.Header := Headers.set_written_to h false.

Lemma swap_field_content f g :
  field_shape f = field_shape g → ∃ f' g', Fields.swap_values f g = Some (f', g') ∧
    Fields.set_written_to f' false = Fields.set_written_to g false ∧
    Fields.set_written_to g' false = Fields.set_written_to f false ∧
    field_shape f' = field_shape g ∧ field_shape g' = field_shape f.
Proof.
  destruct f as [[v a] n m bs si hi V sa w ma mx mi], g as [[v' a'] n' m' bs' si' hi' V' sa' w' ma' mx' mi'].
  unfold field_shape. cbn. intros [= -> -> -> -> -> Hw].
  unfold Fields.swap_values. cbn. destruct V'.
  - rewrite !eqb_reflx. cbn. eexists _, _. split; [done|]. done.
  - injection Hw as -> -> -> -> ->. eexists _, _. split; [done|]. done.
Qed.

Lemma cons_eq_inv {A} (x y : A) l k : x :: l = y :: k → x = y ∧ l = k.
Proof. by intros [= -> ->]. Qed.

Lemma swap_fields_content fs gs :
  field_shape <$> fs = field_shape <$> gs →
  ∃ r, mapM (λ p, Fields.swap_values p.1 p.2) (zip fs gs) = Some r ∧ length fs = length gs ∧
    (λ f, Fields.set_written_to f false) <$> r.*1 = (λ f, Fields.set_written_to f false) <$> gs ∧
    (λ f, Fields.set_written_to f false) <$> r.*2 = (λ f, Fields.set_written_to f false) <$> fs ∧
    field_shape <$> r.*1 = field_shape <$> gs ∧ field_shape <$> r.*2 = field_shape <$> fs.
Proof.
  revert gs. induction fs as [|f fs IH]; intros [|g gs] Hs; try discriminate Hs.
  { exists []. done. }
  rewrite !fmap_cons in Hs. apply cons_eq_inv in Hs as [Hf Hs].
  destruct (IH gs Hs) as (r & E & Hl & H1 & H2 & H3 & H4).
  destruct (swap_field_content f g) as (f' & g' & Ef & F1 & F2 & F3 & F4); [done|].
  exists ((f', g') :: r). cbn [zip zip_with mapM fst snd]. rewrite Ef. msimpl. rewrite E. msimpl.
  split; [done|]. split; [cbn; congruence|]. rewrite !fmap_cons. cbn [fst snd].
  by rewrite H1, H2, H3, H4, F1, F2, F3, F4.
Qed.

Lemma swap_values_content h o :
  shape h = shape o → ∃ h' o', Headers.swap_values h o = Some (h', o') ∧
    content h' = content o ∧ content o' = content h ∧ shape h' = shape o ∧ shape o' = shape h.
Proof.
  unfold shape. intros [= Ht Em Eu Es]. destruct (swap_fields_content _ _ Es) as (r & E & Hl & H1 & H2 & H3 & H4).
  unfold Headers.swap_values. rewrite E. msimpl. rewrite (proj2 (Nat.leb_le _ _)) by lia.
  eexists _, _. split; [done|]. rewrite drop_ge by lia. rewrite app_nil_r.
  unfold content, Headers.set_written_to. cbn. rewrite H1, H2, H3, H4.
  unfold Headers.with_fields. cbn. rewrite Ht, Em, Eu. done.
Qed.

Lemma set_shape f v f' : Fields.set f v = Some f' → field_shape f' = field_shape f.
Proof. unfold Fields.set, Fields.export_bytes. intros E. mbind_inv E. destruct x. by simplify_eq. Qed.

Lemma set_valid_shape h b h' : Headers.set_valid h b = Some h' → shape h' = shape h.
Proof.
  unfold Headers.set_valid. intros E. mbind_inv E. unfold shape. cbn. f_equal.
  match goal with H : vset _ _ _ = Some _ |- _ => destruct (vset_inv _ _ _ _ H) as [? ->] end.
  rewrite list_fmap_insert. rewrite list_insert_id; [done|].
  match goal with H : vget _ _ = Some _, H' : Fields.set _ _ = Some _ |- _ =>
    rewrite vget_nat in H by lia; rewrite (set_shape _ _ _ H'), list_lookup_fmap, H; done end.
Qed.

Lemma header_ok_content h h' : content h' = content h → header_ok h → header_ok h'.
Proof.
  intros Hc (f & Ef & Hwf). assert (Headers.header_type h' = Headers.header_type h) as Et.
  { by apply (f_equal Headers.header_type) in Hc. }
  apply (f_equal Headers.fields) in Hc. cbn in Hc. unfold header_ok. rewrite Et.
  pose proof (vget_Some_range _ _ _ Ef) as Hr. rewrite vget_nat in Ef by lia.
  apply (f_equal (λ l, l !! Z.to_nat (Headers.get_hidden_offset (Headers.header_type h)))) in Hc.
  rewrite !list_lookup_fmap, Ef in Hc. apply fmap_Some in Hc as (f' & Ef' & Heq).
  exists f'. rewrite vget_nat by lia. split; [done|].
  destruct f, f'. unfold Fields.set_written_to in Heq. cbn in Heq. inversion Heq; subst.
  destruct Hwf; by constructor.
Qed.

Section stack.
Context (st : Stack) (s : Shape).

(** The elements of a stack are different headers of one type, not in unions. *)
Definition stack_ok phv : Prop :=
  NoDup (elements st) ∧
  ∀ id, id ∈ elements st → ∃ h, get_header phv id = Some h ∧ shape h = s ∧ header_ok h ∧
    Headers.union_membership h = None.

Definition at_ phv (i : Z) : option Headers.Header :=
  id ← vget (elements st) i; h ← get_header phv id; Some (content h).

(** Only elements of the stack change. *)
Definition frame phv phv' : Prop :=
  header_unions phv' = header_unions phv ∧ header_stacks phv' = header_stacks phv ∧
  header_union_stacks phv' = header_union_stacks phv ∧
  ∀ id, id ∉ elements st → get_header phv' id = get_header phv id.

Lemma frame_refl phv : frame phv phv.
Proof. done. Qed.

Lemma frame_trans phv1 phv2 phv3 : frame phv1 phv2 → frame phv2 phv3 → frame phv1 phv3.
Proof.
  intros (? & ? & ? & Ha) (? & ? & ? & Hb). unfold frame. split_and!; [congruence..|].
  intros. by rewrite Hb, Ha.
Qed.

Lemma vget_elem i id : vget (elements st) i = Some id → id ∈ elements st.
Proof.
  intros E. pose proof (vget_Some_range _ _ _ E). rewrite vget_nat in E by lia.
  by eapply list_elem_of_lookup_2.
Qed.

Lemma stack_get phv i :
  stack_ok phv → 0 ≤ i < depth st → ∃ id h, vget (elements st) i = Some id ∧ get_header phv id = Some h ∧
    shape h = s ∧ header_ok h ∧ Headers.union_membership h = None ∧ at_ phv i = Some (content h).
Proof.
  intros [_ Hok] Hi. destruct (proj2 (vget_is_Some (elements st) i) Hi) as [id Eid].
  destruct (Hok id) as (h & E & ?); [by eapply vget_elem|]. exists id, h. unfold at_. rewrite Eid. msimpl.
  rewrite E. msimpl. tauto.
Qed.

Lemma elem_inj phv i j id :
  stack_ok phv → vget (elements st) i = Some id → vget (elements st) j = Some id → i = j.
Proof.
  intros [Hnd _] Ei Ej. pose proof (vget_Some_range _ _ _ Ei). pose proof (vget_Some_range _ _ _ Ej).
  rewrite vget_nat in Ei, Ej by lia. pose proof (NoDup_lookup _ _ _ _ Hnd Ei Ej). lia.
Qed.

(** A change of one element. *)
Lemma at_set phv phv' i id h h' :
  stack_ok phv → vget (elements st) i = Some id → get_header phv id = Some h →
  set_header phv id h' = Some phv' → shape h' = s → header_ok h' → 
  stack_ok phv' ∧ frame phv phv' ∧
  ∀ k, at_ phv' k = if decide (k = i) then Some (content h') else at_ phv k.
Proof.
  intros Hok Ei E Es Hs Hh'. destruct (set_header_ok phv id h h' E) as (? & ? & Hu & Hst & Hust & Hg). simplify_eq.
  pose proof (vget_elem _ _ Ei) as Hin.
  assert (Headers.union_membership h' = None) as Hm.
  { destruct Hok as [_ Hok]. destruct (Hok id Hin) as (h1 & ? & Hs1 & _ & Hm1). simplify_eq.
    unfold shape in Hs1. congruence. }
  split; [split; [apply Hok|]|split; [split_and!; [done..|]|]].
  - intros k Hk. rewrite Hg. destruct (decide (k = id)) as [->|]; [eauto 6|by apply Hok].
  - intros k Hk. rewrite Hg, decide_False; [done|]. by intros ->.
  - intros k. unfold at_. destruct (vget (elements st) k) as [id'|] eqn:Ek; msimpl.
    + rewrite Hg. destruct (decide (id' = id)) as [->|Hne].
      * rewrite decide_True by (by eapply elem_inj). done.
      * rewrite decide_False by congruence. done.
    + rewrite decide_False by congruence. done.
Qed.

Lemma at_swap_ok phv i j :
  stack_ok phv → 0 ≤ i < depth st → 0 ≤ j < depth st → i ≠ j →
  ∃ phv', at_swap header_element st i j phv = Some phv' ∧ stack_ok phv' ∧ frame phv phv' ∧
    ∀ k, at_ phv' k = if decide (k = i) then at_ phv j else if decide (k = j) then at_ phv i else at_ phv k.
Proof.
  intros Hok Hi Hj Hij. destruct (stack_get _ _ Hok Hi) as (a & h & Ea & Eh & Hs & Hh & _ & Ai).
  destruct (stack_get _ _ Hok Hj) as (b & o & Eb & Eo & Hso & Ho & _ & Aj).
  assert (a ≠ b) as Hab by (intros ->; apply Hij; by eapply elem_inj).
  unfold at_swap. rewrite Ea, Eb. msimpl. cbn [header_element el_swap]. unfold swap_headers.
  rewrite Eh. msimpl. rewrite Eo. msimpl.
  destruct (swap_values_content h o) as (h' & o' & -> & C1 & C2 & S1 & S2); [congruence|]. msimpl.
  destruct (set_header_ok phv a h h' Eh) as (phv1 & E1 & _ & _ & _ & Hg1). rewrite E1. msimpl.
  destruct (at_set phv phv1 i a h h') as (Hok1 & Hf1 & Ha1); [done..|congruence|by eapply header_ok_content|].
  assert (get_header phv1 b = Some o) as Eo1 by (rewrite Hg1; by rewrite decide_False by congruence).
  destruct (set_header_ok phv1 b o o' Eo1) as (phv2 & E2 & _ & _ & _ & _). rewrite E2.
  destruct (at_set phv1 phv2 j b o o') as (Hok2 & Hf2 & Ha2); [done..|congruence|by eapply header_ok_content|].
  exists phv2. split; [done|]. split; [done|]. split; [by eapply frame_trans|].
  intros k. rewrite Ha2, Ha1, Ai, Aj, C1, C2.
  destruct (decide (k = j)), (decide (k = i)); congruence || done.
Qed.

(** Marking an element. *)
Lemma at_mark_ok (b : bool) phv i :
  stack_ok phv → 0 ≤ i < depth st →
  ∃ phv' c, (if b then at_valid header_element st i phv else at_invalid header_element st i phv) = Some phv' ∧
    stack_ok phv' ∧ frame phv phv' ∧ Headers.valid c = b ∧
    ∀ k, at_ phv' k = if decide (k = i) then Some c else at_ phv k.
Proof.
  intros Hok Hi. destruct (stack_get _ _ Hok Hi) as (a & h & Ea & Eh & Hs & Hh & Hm & _).
  destruct (set_valid_ok h b Hh) as (h' & Es & Hh' & Hv & Hm' & _).
  destruct (set_header_ok phv a h h' Eh) as (phv1 & E1 & _).
  destruct (at_set phv phv1 i a h h') as (Hok1 & Hf1 & Ha1); [done..|by rewrite (set_valid_shape _ _ _ Es)|done|].
  exists phv1, (content h'). split; [|done].
  unfold at_valid, at_invalid. rewrite Ea. msimpl. cbn [header_element el_mark_valid el_mark_invalid].
  unfold mark_valid, mark_invalid. rewrite Eh. msimpl.
  destruct b; rewrite Es; msimpl; rewrite E1; msimpl; by rewrite Hm.
Qed.

(** Marking a range of elements. *)
Lemma mark_range_ok (b : bool) phv i u :
  stack_ok phv → 0 ≤ i → i ≤ u → u ≤ depth st →
  ∃ phv', for_range i u (λ k phv, if b then at_valid header_element st k phv
                                  else at_invalid header_element st k phv) phv = Some phv' ∧
    stack_ok phv' ∧ frame phv phv' ∧
    (∀ k, i ≤ k < u → ∃ c, at_ phv' k = Some c ∧ Headers.valid c = b) ∧
    ∀ k, ¬ i ≤ k < u → at_ phv' k = at_ phv k.
Proof.
  intros Hok Hi Hiu Hu.
  destruct (for_range_inv (λ j p, stack_ok p ∧ frame phv p ∧
      (∀ k, i ≤ k < j → ∃ c, at_ p k = Some c ∧ Headers.valid c = b) ∧ ∀ k, ¬ i ≤ k < j → at_ p k = at_ phv k)
    (λ k phv, if b then at_valid header_element st k phv else at_invalid header_element st k phv) i u phv)
    as (phv' & E & ? & ? & ? & ?); [done| | |eauto 8].
  - split; [done|]. split; [apply frame_refl|]. split; [intros; lia|done].
  - intros j p Hj (Hp & Hf & Hv & Ho).
    destruct (at_mark_ok b p j) as (p' & c & -> & Hp' & Hf' & Hc & Ha); [done|lia|].
    exists p'. split; [done|]. split; [done|]. split; [by eapply frame_trans|].
    split; intros k Hk; rewrite Ha; (destruct (decide (k = j)) as [->|]; [try lia|]).
    + eauto.
    + apply Hv. lia.
    + apply Ho. lia.
Qed.

Lemma for_down_inv (P : Z → PHV → Prop) (body : Z → PHV → option PHV) stop n : ∀ i phv,
  (i ≤ stop ∨ i - stop ≤ Z.of_nat n) → P i phv →
  (∀ j p, stop < j ≤ i → P j p → ∃ p', body j p = Some p' ∧ P (j - 1) p') →
  ∃ p', for_down n i stop body phv = Some p' ∧ P (Z.min i stop) p'.
Proof.
  induction n as [|n IH]; intros i phv Hn HP Hstep; cbn [for_down];
    destruct (Z.leb_spec i stop) as [Hle|Hgt]; try lia.
  1-2: exists phv; by rewrite Z.min_l by lia.
  destruct (Hstep i phv) as (p1 & -> & HP1); [lia|done|]. msimpl.
  destruct (IH (i - 1) p1) as (p' & -> & HP'); [lia|done| |].
  { intros. apply Hstep; [lia|done]. }
  exists p'. split; [done|]. by replace (Z.min i stop) with (Z.min (i - 1) stop) by lia.
Qed.

(** Popping [num] elements moves those after them to the front, makes the
    ones they leave invalid, and nothing else in the packet changes. *)
Theorem pop_front_spec phv (num : Z) :
  stack_ok phv → 0 ≤ next st ≤ depth st → 0 < num →
  ∃ phv', pop_front_n header_element st num phv =
      Some (with_next st (next st - Z.min (next st) num), phv', Z.min (next st) num) ∧
    stack_ok phv' ∧ frame phv phv' ∧
    (∀ k, 0 ≤ k < next st - num → at_ phv' k = at_ phv (k + num)) ∧
    (∀ k, Z.max 0 (next st - num) ≤ k < next st → ∃ c, at_ phv' k = Some c ∧ Headers.valid c = false) ∧
    (∀ k, next st ≤ k → at_ phv' k = at_ phv k).
Proof.
  intros Hok Hn Hnum. unfold pop_front_n. rewrite (proj2 (Z.eqb_neq num 0)) by lia.
  set (popped := Z.min (next st) num). cbn [next with_next].
  destruct (for_range_inv (λ i p, stack_ok p ∧ frame phv p ∧
      (∀ k, 0 ≤ k < i → at_ p k = at_ phv (k + num)) ∧ (i = 0 → p = phv) ∧
      ∀ k, i + num ≤ k → at_ p k = at_ phv k)
    (λ i phv, at_swap header_element (with_next st (next st - popped)) i (i + num) phv) 0 (next st - popped) phv)
    as (p1 & E1 & Hok1 & Hf1 & Hlo & H0' & Hhi); [lia| | |].
  { split; [done|]. split; [apply frame_refl|]. split; [intros; lia|]. done. }
  { intros i p Hi (Hp & Hf & Hl & _ & Hh).
    destruct (at_swap_ok p i (i + num)) as (p' & E & Hp' & Hf' & Ha); [done|lia..|].
    exists p'. split; [done|]. split; [done|]. split; [by eapply frame_trans|]. split; [|split; [lia|]]; intros k Hk; rewrite Ha.
    - destruct (decide (k = i)) as [->|]; [apply Hh; lia|]. rewrite decide_False by lia. apply Hl. lia.
    - rewrite !decide_False by lia. apply Hh. lia. }
  cbn [elements with_next] in E1. rewrite E1. msimpl.
  destruct (mark_range_ok false p1 (next st - popped) (next st - popped + popped))
    as (p2 & E2 & Hok2 & Hf2 & Hv & Ho); [done|lia..|].
  cbn [elements with_next] in E2.
  change (at_invalid header_element (with_next st (next st - popped))) with (at_invalid header_element st).
  rewrite E2. msimpl. exists p2. split; [done|]. split; [done|]. split; [by eapply frame_trans|].
  split; [|split]; intros k Hk.
  - rewrite Ho by lia. apply Hlo. lia.
  - apply Hv. lia.
  - rewrite Ho by lia. destruct (decide (next st ≤ num)); [by rewrite H0' by lia|]. apply Hhi. lia.
Qed.

(** Pushing [num] elements moves the others [num] places back, those that
    fall off the end are lost, and makes the first ones valid. *)
Theorem push_front_spec phv (num : Z) :
  stack_ok phv → 0 ≤ next st ≤ depth st → 0 < depth st → 0 < num → next st + num < 2 ^ 64 →
  let n := Z.min (depth st) (next st + num) in
  ∃ phv', push_front_n header_element st num phv = Some (with_next st n, phv', Z.min (depth st) num) ∧
    stack_ok phv' ∧ frame phv phv' ∧
    (∀ k, 0 ≤ k < Z.min (depth st) num → ∃ c, at_ phv' k = Some c ∧ Headers.valid c = true) ∧
    (∀ k, num ≤ k < n → at_ phv' k = at_ phv (k - num)) ∧
    (∀ k, n ≤ k → at_ phv' k = at_ phv k).
Proof.
  intros Hok Hn Hd Hnum Hw n. unfold push_front_n. rewrite (proj2 (Z.eqb_neq num 0)) by lia.
  rewrite (wrap_small 64 (next st + num)) by lia. change (Z.min _ (next st + num)) with n.
  cbn [next with_next]. rewrite wrap_small by lia.
  destruct (for_down_inv (λ i p, stack_ok p ∧ frame phv p ∧
      (∀ k, i < k < n → num ≤ k → at_ p k = at_ phv (k - num)) ∧ (∀ k, 0 ≤ k ≤ i - num → at_ p k = at_ phv k) ∧
      ∀ k, n ≤ k → at_ p k = at_ phv k)
    (λ i phv, at_swap header_element (with_next st n) i (i - num) phv) (num - 1) (Z.to_nat n) (n - 1) phv)
    as (p1 & E1 & Hok1 & Hf1 & Hmid & _ & Hhi); [lia| | |].
  { split; [done|]. split; [apply frame_refl|]. split; [intros; lia|]. done. }
  { intros i p Hi (Hp & Hf & Hm & Hl & Hh).
    destruct (at_swap_ok p i (i - num)) as (p' & E & Hp' & Hf' & Ha); [done|lia..|].
    exists p'. split; [done|]. split; [done|]. split; [by eapply frame_trans|].
    split; [|split]; intros k Hk; [intros Hk'|..]; rewrite Ha.
    - destruct (decide (k = i)) as [->|]; [apply Hl; lia|]. rewrite decide_False by lia. apply Hm; lia.
    - rewrite !decide_False by lia. apply Hl. lia.
    - rewrite !decide_False by lia. apply Hh. lia. }
  rewrite E1. msimpl.
  change (depth (with_next st n)) with (depth st).
  destruct (mark_range_ok true p1 0 (Z.min (depth st) num))
    as (p2 & E2 & Hok2 & Hf2 & Hv & Ho); [done|lia..|].
  change (at_valid header_element (with_next st n)) with (at_valid header_element st).
  rewrite E2. msimpl. exists p2. split; [done|]. split; [done|]. split; [by eapply frame_trans|].
  split; [|split]; intros k Hk.
  - by apply Hv.
  - rewrite Ho by lia. apply Hmid; lia.
  - destruct (decide (0 ≤ k < Z.min (depth st) num)); [lia|]. rewrite Ho by lia. by apply Hhi.
Qed.

(** The operations on one element are those on [num] elements with [num = 1]. *)
Theorem front_one (T : ElementOps) phv :
  (0 ≤ next st ≤ depth st → pop_front T st phv = pop_front_n T st 1 phv) ∧
  (0 ≤ next st ≤ depth st → 0 < depth st < 2 ^ 64 - 1 → push_front T st phv = push_front_n T st 1 phv).
Proof.
  split.
  - intros Hn. unfold pop_front, pop_front_n. cbn [Z.eqb].
    destruct (Z.eqb_spec (next st) 0) as [E|E].
    + rewrite E. change (Z.min 0 1) with 0. cbn. destruct st; cbn in *; by subst.
    + rewrite Z.min_r by lia. cbn [next with_next].
      destruct (for_range 0 _ _ phv) as [p|]; [|done]. msimpl. unfold for_range.
      replace (Z.to_nat _) with 1%nat by lia. cbn [for_loop]. by destruct (at_invalid _ _ _ p).
  - intros Hn Hd. unfold push_front, push_front_n. cbn [Z.eqb].
    assert ((if next st <? depth st then next st + 1 else next st) = Z.min (depth st) (u64 (next st + 1))) as ->.
    { destruct (Z.ltb_spec (next st) (depth st)).
      - rewrite wrap_small by lia. lia.
      - rewrite wrap_small; lia. }
    change (1 - 1) with 0. destruct (for_down _ _ _ _ phv) as [p|]; [|done]. msimpl.
    change (depth (with_next st _)) with (depth st). rewrite (Z.min_r (depth st) 1) by lia. unfold for_range.
    change (Z.to_nat (1 - 0)) with 1%nat. cbn [for_loop]. by destruct (at_valid _ _ _ p).
Qed.
End stack.
End proofs.
End Phv.

(** ** Examples: three headers of a union, and a stack of three more. *)
Module PhvExamples.
Import Phv GmpExample.

Definition empty_phv : PHV :=
  {| headers := []; header_stacks := []; header_unions := []; header_union_stacks := [] |}.

Definition tag_type : Headers.HeaderType :=
  (Headers.push_back_field (Headers.new_type 0) "tag" 8 false false false).1.

Definition tags : PHV := default empty_phv (
  phv ← for_range 0 6 (λ _ phv, push_back_header phv tag_type {[0; 1]} false) empty_phv;
  phv ← push_back_header_union phv [0; 1; 2];
  phv ← mark_valid phv 1;
  Some (push_back_header_stack phv [3; 4; 5])).

Definition tag_stack : Stack := {| elements := [3; 4; 5]; next := 0 |}.

(** The three elements of the stack, with tags 10, 20 and 30. *)
Definition full_tags : PHV := default empty_phv (
  for_range 3 6 (λ id phv, extract phv id [10 * (id - 2)] (λ _, None)) tags).

Definition tag_of (phv : PHV) (id : Z) : option (bool * Z) :=
  (h ← get_header phv id; f ← vget (Headers.fields h) 0; Some (Headers.valid h, Data.value (Fields.base f)))%stdpp.

Example pop_two :
  (r ← pop_front_n header_element (with_next tag_stack 3) 2 full_tags;
   Some (next r.1.1, r.2, (tag_of r.1.2) <$> [3; 4; 5]))
  = Some (1, 2, [Some (true, 30); Some (false, 20); Some (false, 10)]).
Proof. vm_compute. reflexivity. Qed.

Example push_two :
  (r ← push_front_n header_element (with_next tag_stack 1) 2 full_tags;
   Some (next r.1.1, r.2, (tag_of r.1.2) <$> [3; 4; 5]))
  = Some (3, 2, [Some (true, 30); Some (true, 20); Some (true, 10)]).
Proof. vm_compute. reflexivity. Qed.

(** A copy of the headers ([copy_headers], for a cloned packet) leaves the
    stacks and unions of the copy as they were: its headers are valid, but a
    stack has no last element and a union no valid header. *)
Theorem copy_headers_loses_next :
  ∃ st phv copy, push_back header_element tag_stack tags = Some (st, phv, 1) ∧
    copy_headers (with_unions tags [{| u_headers := [0; 1; 2]; u_valid := false; valid_header_idx := 0 |}]) phv
      = Some copy ∧
    get_last st = Some 3 ∧ (get_last <$> header_stacks copy) = [None] ∧
    (get_valid_header <$> header_unions phv) = [Some (Some 1)] ∧
    (get_valid_header <$> header_unions copy) = [Some None] ∧
    (option_map Headers.valid (get_header copy 1)) = Some true ∧
    (option_map Headers.valid (get_header copy 3)) = Some true.
Proof. eexists _, _, _. vm_compute. done. Qed.

Lemma ids_of (phv : PHV) id h n :
  get_header phv id = Some h → Z.of_nat (length (headers phv)) = n → 0 ≤ id < n.
Proof. intros E <-. by eapply vget_Some_range. Qed.

Ltac cases_of id := (destruct (decide (id = 0)) as [->|]; [|
  destruct (decide (id = 1)) as [->|]; [|destruct (decide (id = 2)) as [->|]; [|
  destruct (decide (id = 3)) as [->|]; [|destruct (decide (id = 4)) as [->|]; [|
  destruct (decide (id = 5)) as [->|]; [|exfalso; lia]]]]]]).

Lemma tags_header_ok id h : get_header tags id = Some h → header_ok h.
Proof.
  intros E. pose proof (ids_of _ _ _ 6 E eq_refl). cases_of id; vm_compute in E; simplify_eq;
    (eexists; split; [reflexivity|]); constructor; vm_compute; try done; repeat constructor; done.
Qed.

Lemma tags_union u hu : get_union tags u = Some hu →
  u = 0 ∧ hu = {| u_headers := [0; 1; 2]; u_valid := true; valid_header_idx := 1 |}.
Proof.
  intros E. assert (0 ≤ u < 1) by exact (vget_Some_range _ _ _ E). assert (u = 0) as -> by lia.
  vm_compute in E. simplify_eq. done.
Qed.

Lemma tags_ok : unions_ok tags.
Proof.
  split.
  - apply tags_header_ok.
  - intros id h u idx E Em. pose proof (ids_of _ _ _ 6 E eq_refl).
    cases_of id; vm_compute in E; simplify_eq; simplify_eq/=; (eexists; split; [reflexivity|]); done.
  - intros u hu idx id [-> ->]%tags_union Eid. assert (0 ≤ idx < 3) as Hr by exact (vget_Some_range _ _ _ Eid).
    cases_of idx; try lia; vm_compute in Eid; simplify_eq; (eexists; split; [reflexivity|]); done.
  - intros u hu [-> ->]%tags_union _. by eexists.
Qed.

Lemma mark_valid_union_witness :
  ∃ phv', mark_valid tags 0 = Some phv' ∧ unions_ok phv' ∧
    ∀ k o, get_header tags k = Some o → ∃ o', get_header phv' k = Some o' ∧
      Headers.valid o' = if decide (k = 0) then true
        else if same_union o (default HeadersExamples.empty_header (get_header tags 0)) then false else Headers.valid o.
Proof. apply mark_valid_union; [apply tags_ok|reflexivity]. Defined.

Lemma reset_ok_witness :
  ∃ phv', reset tags = Some phv' ∧ unions_ok phv' ∧
    (∀ k h, get_header phv' k = Some h → Headers.valid h = false) ∧
    ∀ u hu, get_union phv' u = Some hu → get_valid_header hu = Some None.
Proof.
  apply reset_ok; [apply tags_ok|]. intros k h E. pose proof (ids_of _ _ _ 6 E eq_refl).
  cases_of k; vm_compute in E; injection E as <-; intros HV; vm_compute in HV; discriminate HV.
Defined.

Definition tag_shape : Shape := shape (default HeadersExamples.empty_header (get_header full_tags 3)).

Lemma full_tags_ok st : elements st = [3; 4; 5] → stack_ok st tag_shape full_tags.
Proof.
  intros Est. unfold stack_ok. rewrite Est. split; [refine (bool_decide_unpack _ _); vm_compute; exact I|].
  intros id Hid. assert (id = 3 ∨ id = 4 ∨ id = 5) as Hc by set_solver.
  destruct Hc as [->|[->| ->]]; (eexists; split; [reflexivity|]); (split; [vm_compute; reflexivity|]);
    (split; [|reflexivity]); (eexists; split; [reflexivity|]); constructor; vm_compute; try done;
    repeat constructor; done.
Qed.

Lemma pop_front_spec_witness :
  let st := with_next tag_stack 3 in
  ∃ phv', pop_front_n header_element st 2 full_tags = Some (with_next st 1, phv', 2) ∧
    stack_ok st tag_shape phv' ∧ frame st full_tags phv' ∧
    (∀ k, 0 ≤ k < 1 → at_ st phv' k = at_ st full_tags (k + 2)) ∧
    (∀ k, 1 ≤ k < 3 → ∃ c, at_ st phv' k = Some c ∧ Headers.valid c = false) ∧
    (∀ k, 3 ≤ k → at_ st phv' k = at_ st full_tags k).
Proof.
  apply (pop_front_spec (with_next tag_stack 3) tag_shape full_tags 2);
    [by apply full_tags_ok|vm_compute; done|lia].
Defined.

Lemma push_front_spec_witness :
  let st := with_next tag_stack 1 in
  ∃ phv', push_front_n header_element st 2 full_tags = Some (with_next st 3, phv', 2) ∧
    stack_ok st tag_shape phv' ∧ frame st full_tags phv' ∧
    (∀ k, 0 ≤ k < 2 → ∃ c, at_ st phv' k = Some c ∧ Headers.valid c = true) ∧
    (∀ k, 2 ≤ k < 3 → at_ st phv' k = at_ st full_tags (k - 2)) ∧
    (∀ k, 3 ≤ k → at_ st phv' k = at_ st full_tags k).
Proof.
  apply (push_front_spec (with_next tag_stack 1) tag_shape full_tags 2);
    [by apply full_tags_ok|vm_compute; done|vm_compute; done|lia|vm_compute; done].
Defined.

Lemma front_one_witness :
  let st := with_next tag_stack 1 in
  (0 ≤ next st ≤ depth st → pop_front header_element st full_tags = pop_front_n header_element st 1 full_tags) ∧
  (0 ≤ next st ≤ depth st → 0 < depth st < 2 ^ 64 - 1 →
    push_front header_element st full_tags = push_front_n header_element st 1 full_tags).
Proof. apply (front_one (with_next tag_stack 1) header_element full_tags). Defined.
End PhvExamples.
