(* ===== verification/PhvFactory.v ===== *)
(** * Building parsed headers (PHVFactory in src/bm_sim/phv.cpp, include/bm/bm_sim/phv.h)

    The factory has a description of each header, stack, union and stack of
    unions, by id, and makes parsed headers from them. Names and aliases of
    fields are resolved before packets are processed and are left out. *)

From stdpp Require Import gmap.
From S2P Require Import Prelude Data Fields Headers Phv.

Import (coercions) Fields.

Module PhvFactory.

(** ** An ordered map: [std::map<int, V>] *)

(** [insert] leaves an element that is there already. *)
Definition map_insert {V} (m : gmap Z V) (k : Z) (v : V) : gmap Z V :=
  match m !! k with Some _ => m | None => <[k := v]> m end.

Definition keys {V} (m : gmap Z V) : list Z := merge_sort Z.le (map_to_list m).*1.

(** [for (auto &e : m) body(e)] *)
Fixpoint each {S} (ks : list Z) (body : Z → S → option S) (s : S) : option S :=
  match ks with
  | [] => Some s
  | k :: ks => s ← body k s; each ks body s
  end.

(** ** The descriptions *)

(** With the fields that the length of the header is computed from. *)
Record HeaderDesc := {
  hd_type : Headers.HeaderType;
  VL_input_offsets : list Z;
  arith_offsets : gset Z;
  hd_metadata : bool;
}.

Definition all_offsets (ht : Headers.HeaderType) : gset Z := list_to_set (seqZ 0 (Headers.get_num_fields ht)).

Definition new_desc (ht : Headers.HeaderType) (inputs : list Z) (metadata : bool) : HeaderDesc :=
  {| hd_type := ht; VL_input_offsets := inputs; arith_offsets := all_offsets ht; hd_metadata := metadata |}.

Record PHVFactory := {
  header_descs : gmap Z HeaderDesc;
  header_stack_descs : gmap Z (list Z);           (** ids of headers *)
  header_union_descs : gmap Z (list Z);           (** ids of headers *)
  header_union_stack_descs : gmap Z (list Z);     (** ids of unions *)
}.

Implicit Types (f : PHVFactory) (phv : Phv.PHV) (id : Z).

Definition new : PHVFactory := Build_PHVFactory ∅ ∅ ∅ ∅.

Definition with_header_descs f ds : PHVFactory :=
  Build_PHVFactory ds (header_stack_descs f) (header_union_descs f) (header_union_stack_descs f).

Definition push_back_header f id (ht : Headers.HeaderType) (inputs : list Z) (metadata : bool) : PHVFactory :=
  with_header_descs f (map_insert (header_descs f) id (new_desc ht inputs metadata)).

Definition push_back_header_stack f id (headers : list Z) : PHVFactory :=
  Build_PHVFactory (header_descs f) (map_insert (header_stack_descs f) id headers) (header_union_descs f)
    (header_union_stack_descs f).

Definition push_back_header_union f id (headers : list Z) : PHVFactory :=
  Build_PHVFactory (header_descs f) (header_stack_descs f) (map_insert (header_union_descs f) id headers)
    (header_union_stack_descs f).

Definition push_back_header_union_stack f id (unions : list Z) : PHVFactory :=
  Build_PHVFactory (header_descs f) (header_stack_descs f) (header_union_descs f)
    (map_insert (header_union_stack_descs f) id unions).

(** *** Which fields take part in expressions; [at] throws for unknown ids *)

Definition change_offsets f id (g : Headers.HeaderType → gset Z → gset Z) : option PHVFactory :=
  d ← header_descs f !! id;
  Some (with_header_descs f (<[id := {| hd_type := hd_type d; VL_input_offsets := VL_input_offsets d;
    arith_offsets := g (hd_type d) (arith_offsets d); hd_metadata := hd_metadata d |}]> (header_descs f))).

Definition enable_field_arith f id (offset : Z) : option PHVFactory := change_offsets f id (λ _ s, {[offset]} ∪ s).
Definition enable_all_field_arith f id : option PHVFactory := change_offsets f id (λ ht s, all_offsets ht ∪ s).
Definition disable_field_arith f id (offset : Z) : option PHVFactory := change_offsets f id (λ _ s, s ∖ {[offset]}).
Definition disable_all_field_arith f id : option PHVFactory := change_offsets f id (λ _ _, ∅).

Definition enable_stack_field_arith f id (offset : Z) : option PHVFactory :=
  hs ← header_stack_descs f !! id; each hs (λ h f, enable_field_arith f h offset) f.
Definition enable_all_stack_field_arith f id : option PHVFactory :=
  hs ← header_stack_descs f !! id; each hs (λ h f, enable_all_field_arith f h) f.

(** For the header at [header_offset] of each union of a stack. *)
Definition each_union_header f id (header_offset : Z) (g : PHVFactory → Z → option PHVFactory) : option PHVFactory :=
  us ← header_union_stack_descs f !! id;
  each us (λ u f, hs ← header_union_descs f !! u; h ← vget hs header_offset; g f h) f.

Definition enable_union_stack_field_arith f id (header_offset offset : Z) : option PHVFactory :=
  each_union_header f id header_offset (λ f h, enable_field_arith f h offset).
Definition enable_all_union_stack_field_arith f id (header_offset : Z) : option PHVFactory :=
  each_union_header f id header_offset enable_all_field_arith.
Definition enable_all_union_stacks_field_arith f id : option PHVFactory :=
  us ← header_union_stack_descs f !! id;
  each us (λ u f, hs ← header_union_descs f !! u; each hs (λ h f, enable_all_field_arith f h) f) f.

Definition enable_all_arith f : option PHVFactory := each (keys (header_descs f)) (λ id f, enable_all_field_arith f id) f.

(** ** Making parsed headers *)

Definition empty : Phv.PHV := {| Phv.headers := []; Phv.header_stacks := []; Phv.header_unions := []; Phv.header_union_stacks := [] |}.

Definition set_arith (offset : Z) (h : Headers.Header) : option Headers.Header :=
  fs ← vupd (Headers.fields h) offset (λ fl, Fields.set_arith fl true); Some (Headers.with_fields h fs).

(** An id is the place of what it names. *)
Definition create_header f id phv : option Phv.PHV :=
  d ← header_descs f !! id;
  if negb (id =? Z.of_nat (length (Phv.headers phv))) then None else
  phv ← Phv.push_back_header phv (hd_type d) (arith_offsets d) (hd_metadata d);
  if Headers.is_VL_type (hd_type d) && Headers.has_VL_expr (hd_type d) then
    h ← Phv.get_header phv id;
    h ← each (VL_input_offsets d) set_arith h;
    Phv.set_header phv id h
  else Some phv.

Definition all_in {A} (l : list A) (ids : list Z) : bool :=
  forallb (λ id, (0 <=? id) && (id <? Z.of_nat (length l))) ids.

Definition create_header_stack f id phv : option Phv.PHV :=
  hs ← header_stack_descs f !! id;
  if negb (id =? Z.of_nat (length (Phv.header_stacks phv))) then None else
  if all_in (Phv.headers phv) hs then Some (Phv.push_back_header_stack phv hs) else None.

Definition create_header_union f id phv : option Phv.PHV :=
  hs ← header_union_descs f !! id;
  if negb (id =? Z.of_nat (length (Phv.header_unions phv))) then None else
  Phv.push_back_header_union phv hs.

Definition push_back_union_stack phv (us : list Z) : Phv.PHV :=
  {| Phv.headers := Phv.headers phv; Phv.header_stacks := Phv.header_stacks phv; Phv.header_unions := Phv.header_unions phv;
     Phv.header_union_stacks := Phv.header_union_stacks phv ++ [{| Phv.elements := us; Phv.next := 0 |}] |}.

Definition create_header_union_stack f id phv : option Phv.PHV :=
  us ← header_union_stack_descs f !! id;
  if negb (id =? Z.of_nat (length (Phv.header_union_stacks phv))) then None else
  if all_in (Phv.header_unions phv) us then Some (push_back_union_stack phv us) else None.

Definition create f : option Phv.PHV :=
  phv ← each (keys (header_descs f)) (create_header f) empty;
  phv ← each (keys (header_stack_descs f)) (create_header_stack f) phv;
  phv ← each (keys (header_union_descs f)) (create_header_union f) phv;
  each (keys (header_union_stack_descs f)) (create_header_union_stack f) phv.
End PhvFactory.

(** * What the factory makes

    The parsed headers that a factory with consistent descriptions makes are as
    described, and consistent: they satisfy the invariant of headers and unions
    that the operations on parsed headers keep. *)

Import (coercions) Fields.

Module PhvFactorySpec.
Import PhvFactory.

(** ** Iterating over consecutive ids *)

Definition consecutive {V} (m : gmap Z V) : Prop := ∀ i, is_Some (m !! i) ↔ 0 ≤ i < Z.of_nat (size m).

Lemma sorted_seqZ n m : StronglySorted Z.le (seqZ m (Z.of_nat n)).
Proof.
  revert m. induction n as [|n IH]; intros m; [constructor|].
  rewrite seqZ_cons by lia. replace (Z.pred (Z.of_nat (S n))) with (Z.of_nat n) by lia.
  constructor; [apply IH|]. apply Forall_forall. intros x [? ?]%elem_of_seqZ. lia.
Qed.

Lemma keys_consecutive {V} (m : gmap Z V) : consecutive m → keys m = seqZ 0 (Z.of_nat (size m)).
Proof.
  intros Hm. apply (StronglySorted_unique Z.le); [apply (StronglySorted_merge_sort Z.le)|apply sorted_seqZ|].
  unfold keys. rewrite merge_sort_Permutation. apply NoDup_Permutation; [apply NoDup_fst_map_to_list|apply NoDup_seqZ|].
  intros i. rewrite elem_of_seqZ, Z.add_0_l, <- (Hm i). split.
  - intros ([j v] & -> & Hv%elem_of_map_to_list)%list_elem_of_fmap. by exists v.
  - intros [v Hv]. apply list_elem_of_fmap. exists (i, v). split; [done|]. by apply elem_of_map_to_list.
Qed.

Lemma each_seqZ {S} (P : Z → S → Prop) (body : Z → S → option S) n : ∀ a s, P a s →
  (∀ j s, a ≤ j < a + Z.of_nat n → P j s → ∃ s', body j s = Some s' ∧ P (j + 1) s') →
  ∃ s', each (seqZ a (Z.of_nat n)) body s = Some s' ∧ P (a + Z.of_nat n) s'.
Proof.
  induction n as [|n IH]; intros a s HP Hb.
  { exists s. split; [done|]. by rewrite Z.add_0_r. }
  rewrite seqZ_cons by lia. replace (Z.pred (Z.of_nat (Datatypes.S n))) with (Z.of_nat n) by lia. cbn [each].
  destruct (Hb a s) as (s1 & -> & H1); [lia|done|]. msimpl.
  destruct (IH (Z.succ a) s1) as (s2 & -> & H2); [done|intros; apply Hb; [lia|done]|].
  exists s2. split; [done|]. by replace (a + Z.of_nat (Datatypes.S n)) with (Z.succ a + Z.of_nat n) by lia.
Qed.

(** Each id of a map once, in order. *)
Lemma each_keys {V S} (m : gmap Z V) (P : Z → S → Prop) (body : Z → S → option S) s : consecutive m → P 0 s →
  (∀ j v s, m !! j = Some v → P j s → ∃ s', body j s = Some s' ∧ P (j + 1) s') →
  ∃ s', each (keys m) body s = Some s' ∧ P (Z.of_nat (size m)) s'.
Proof.
  intros Hm HP Hb. rewrite keys_consecutive by done. apply (each_seqZ P body (size m) 0 s HP).
  intros j t Hj HPt. destruct (proj2 (Hm j)) as [v Hv]; [lia|]. by eapply Hb.
Qed.

(** ** Types of headers *)

Definition info_ok (fi : Headers.FInfo) : Prop :=
  Headers.fi_hidden fi = false ∧ (Headers.fi_signed fi = true → 1 < Headers.bitwidth fi).

Definition bits (fis : list Headers.FInfo) : Z := foldr (λ fi n, Headers.bitwidth fi + n) 0 fis.

(** Visible fields, one of which can have a variable length, and the hidden one. *)
Record typed (ht : Headers.HeaderType) (fis : list Headers.FInfo) : Prop := {
  typed_fields : Headers.fields_info ht = fis ++ Headers.hidden_fields;
  typed_info : Forall info_ok fis;
  typed_VL : Headers.is_VL_type ht = true → ∃ fi, vget fis (Headers.VL_offset ht) = Some fi ∧ Headers.fi_VL fi = true;
}.

Lemma new_type_typed id : typed (Headers.new_type id) [].
Proof. by split. Qed.

Lemma push_fields ht fis fi : Headers.fields_info ht = fis ++ Headers.hidden_fields →
  take (length (Headers.fields_info ht) - length Headers.hidden_fields) (Headers.fields_info ht) ++
    fi :: drop (length (Headers.fields_info ht) - length Headers.hidden_fields) (Headers.fields_info ht) =
  (fis ++ [fi]) ++ Headers.hidden_fields.
Proof.
  intros ->. rewrite length_app. replace (length fis + length Headers.hidden_fields - length Headers.hidden_fields)%nat
    with (length fis) by lia. by rewrite take_app_length, drop_app_length, <- app_assoc.
Qed.

Lemma push_back_field_typed ht fis name width is_signed is_saturating : typed ht fis → (is_signed = true → 1 < width) →
  ∃ fi, typed (Headers.push_back_field ht name width is_signed is_saturating false).1 (fis ++ [fi]) ∧ Headers.bitwidth fi = width.
Proof.
  intros [Hf Hi HV] Hs. eexists. split; [constructor|].
  - cbn. by apply push_fields.
  - apply Forall_app. split; [done|]. by repeat constructor.
  - cbn. intros H. destruct (HV H) as (fi & Hfi & Hvl). exists fi. split; [|done].
    unfold vget in *. case_decide; [|done]. by apply lookup_app_l_Some.
  - done.
Qed.

Lemma push_back_VL_field_typed ht fis name max has_expr is_saturating ht' o : typed ht fis →
  Headers.push_back_VL_field ht name max has_expr false is_saturating = Some (ht', o) →
  ∃ fi, typed ht' (fis ++ [fi]) ∧ Headers.bitwidth fi = 0 ∧ Headers.fi_VL fi = true.
Proof.
  intros [Hf Hi HV] H. unfold Headers.push_back_VL_field in H. cbn in H.
  destruct (Headers.is_VL_type _); [done|]. injection H as <- <-.
  set (fi := {| Headers.name := name; Headers.bitwidth := 0; Headers.fi_signed := false;
    Headers.fi_saturating := is_saturating; Headers.fi_VL := true; Headers.fi_hidden := false |}).
  exists fi. split; [|done]. constructor.
  - by apply (push_fields ht fis).
  - apply Forall_app. split; [done|]. by repeat constructor.
  - intros _. exists fi. split; [|done]. cbn. rewrite Hf, length_app. rewrite vget_nat by lia.
    apply list_lookup_middle. cbn. lia.
Qed.

(** ** Consistent descriptions *)

Record desc_ok (d : HeaderDesc) : Prop := {
  desc_typed : ∃ fis, typed (hd_type d) fis ∧ bits fis mod 8 = 0;
  desc_inputs : Forall (λ o, 0 ≤ o < Headers.get_num_fields (hd_type d)) (VL_input_offsets d);
}.

Record factory_ok (f : PHVFactory) : Prop := {
  headers_consecutive : consecutive (header_descs f);
  stacks_consecutive : consecutive (header_stack_descs f);
  unions_consecutive : consecutive (header_union_descs f);
  union_stacks_consecutive : consecutive (header_union_stack_descs f);
  descs_ok : ∀ id d, header_descs f !! id = Some d → desc_ok d;
  stacks_headers : ∀ s hs id, header_stack_descs f !! s = Some hs → id ∈ hs → is_Some (header_descs f !! id);
  unions_headers : ∀ u hs id, header_union_descs f !! u = Some hs → id ∈ hs → is_Some (header_descs f !! id);
  unions_NoDup : ∀ u hs, header_union_descs f !! u = Some hs → NoDup hs;
  unions_disjoint : ∀ u v hs hs' id, header_union_descs f !! u = Some hs → header_union_descs f !! v = Some hs' →
    id ∈ hs → id ∈ hs' → u = v;
  stacks_unions : ∀ s us u, header_union_stack_descs f !! s = Some us → u ∈ us → is_Some (header_union_descs f !! u);
}.

(** ** A new header *)

Lemma field_new_wf n a sg hid VL sat f : Fields.new n a sg hid VL sat = Some f → 0 < n → Fields.wf f.
Proof.
  unfold Fields.new. intros H Hn. rewrite Z.shiftl_1_l in H.
  assert (Z.of_nat (length (replicate (Z.to_nat ((n + 7) / 8)) 0)) = (n + 7) / 8) as Hl.
  { rewrite length_replicate, Z2Nat.id; [done|]. apply Z.div_pos; lia. }
  assert (bytes_ok (replicate (Z.to_nat ((n + 7) / 8)) 0)) as Hb by (apply Forall_replicate; unfold byte_ok; lia).
  destruct sg; [destruct (Z.ltb_spec 1 n)|]; cbn in H; try done; injection H as <-; constructor; cbn; try done.
  intros _. rewrite Z.shiftl_1_l. lia.
Qed.

Lemma field_new_ok n a sg hid VL sat : (sg = true → 1 < n) → ∃ f, Fields.new n a sg hid VL sat = Some f ∧
  Data.arith f = a ∧ Fields.nbits f = n ∧ Fields.VL f = VL.
Proof.
  intros Hs. unfold Fields.new. destruct sg; [|by eexists].
  destruct (Z.ltb_spec 1 n); [by eexists|]. specialize (Hs eq_refl). lia.
Qed.

Lemma new_fields_ok fis s : Forall (λ fi, Headers.fi_signed fi = true → 1 < Headers.bitwidth fi) fis → ∀ i n,
  ∃ fs, Headers.new_fields fis i s n =
      Some (fs, n + bits (filter (λ fi, Headers.fi_hidden fi = false) fis)) ∧
    Forall2 (λ fi f, Fields.VL f = Headers.fi_VL fi ∧ (0 < Headers.bitwidth fi → Fields.wf f)) fis fs ∧
    ∀ k (f : Fields.Field), fs !! k = Some f → Data.arith f = bool_decide (i + Z.of_nat k ∈ s).
Proof.
  induction 1 as [|fi fis Hfi _ IH]; intros i n.
  { exists []. split; [cbn; f_equal; f_equal; lia|]. split; [constructor|]. by intros k f ?. }
  cbn [Headers.new_fields]. edestruct field_new_ok as (f & Hf & Ha & Hn & Hv); [exact Hfi|]. rewrite Hf. msimpl.
  edestruct IH as (fs & -> & Hfs & Hk). msimpl. exists (f :: fs). split; [|split].
  - do 2 f_equal. rewrite filter_cons. destruct (Headers.fi_hidden fi); [rewrite decide_False by done; lia|].
    rewrite decide_True by done. unfold bits. cbn [foldr]. lia.
  - constructor; [|done]. split; [done|]. intros. by eapply field_new_wf.
  - intros [|k] g Hg; cbn in Hg; simplify_eq.
    + by rewrite Z.add_0_r.
    + rewrite (Hk _ _ Hg). by replace (i + 1 + Z.of_nat k) with (i + Z.of_nat (S k)) by lia.
Qed.

Definition arith_in (s : gset Z) (h : Headers.Header) : Prop :=
  ∀ i (f : Fields.Field), vget (Headers.fields h) i = Some f → Data.arith f = bool_decide (i ∈ s).

(** A header that no union has yet, as its description says. *)
Record fresh_header (d : HeaderDesc) (s : gset Z) (h : Headers.Header) : Prop := {
  fresh_type : Headers.header_type h = hd_type d;
  fresh_metadata : Headers.metadata h = hd_metadata d;
  fresh_valid : Headers.valid h = false;
  fresh_ok : Phv.header_ok h;
  fresh_VL : Phv.vl_ok h;
  fresh_length : Z.of_nat (length (Headers.fields h)) = Headers.get_num_fields (hd_type d);
  fresh_arith : arith_in s h;
}.

Lemma bits_visible fis : Forall info_ok fis →
  bits (filter (λ fi, Headers.fi_hidden fi = false) (fis ++ Headers.hidden_fields)) = bits fis.
Proof. induction 1 as [|fi fis [Hh _] _ IH]; [done|]. rewrite <- app_comm_cons, filter_cons, decide_True by done. unfold bits in *. cbn [foldr]. lia. Qed.

Lemma new_header d : desc_ok d → ∃ h, Headers.new (hd_type d) (arith_offsets d) (hd_metadata d) = Some h ∧
  fresh_header d (arith_offsets d) h ∧ Headers.union_membership h = None.
Proof.
  intros [(fis & [Hf Hi HV] & Hb) _]. unfold Headers.new.
  destruct (new_fields_ok (Headers.fields_info (hd_type d)) (arith_offsets d)) with (i := 0) (n := 0) as (fs & -> & Hfs & Hk).
  { rewrite Hf. apply Forall_app. split; [|by repeat constructor]. eapply Forall_impl; [done|]. by intros ? [_ ?]. }
  msimpl. rewrite Hf in Hfs |- *. rewrite bits_visible, Z.add_0_l, Hb by done. cbn [Z.eqb].
  apply Forall2_app_inv_l in Hfs as (fs1 & fs2 & H1 & H2 & ->).
  apply Forall2_cons_inv_l in H2 as (v & ? & [_ Hv] & H2 & ->). apply Forall2_nil_inv_l in H2 as ->.
  assert (vget (fs1 ++ [v]) (Headers.get_hidden_offset (hd_type d)) = Some v) as Hhid.
  { unfold Headers.get_hidden_offset. rewrite Hf, length_app. cbn. rewrite vget_nat by lia. apply list_lookup_middle.
    rewrite (Forall2_length _ _ _ H1). lia. }
  rewrite Hhid. msimpl. eexists. split; [done|]. split; [|done]. constructor; cbn; try done.
  - exists v. split; [done|]. apply Hv. cbn. lia.
  - intros Hvl. destruct (HV Hvl) as (fi & Hfi & Hfv). cbn. pose proof (vget_Some_range _ _ _ Hfi) as Hr.
    rewrite vget_nat in Hfi by lia. destruct (Forall2_lookup_l _ _ _ _ _ H1 Hfi) as (g & Hg & Hgv & _).
    exists g. split; [rewrite vget_nat by lia; by apply lookup_app_l_Some|]. split; [congruence|].
    unfold Headers.get_hidden_offset. rewrite Hf, length_app. cbn. lia.
  - unfold Headers.get_num_fields. rewrite Hf, !length_app, (Forall2_length _ _ _ H1). done.
  - intros i g Hg. cbn in Hg. pose proof (vget_Some_range _ _ _ Hg). rewrite vget_nat in Hg by lia.
    rewrite (Hk _ _ Hg). by rewrite Z.add_0_l, Z2Nat.id by lia.
Qed.

(** The fields that take part in expressions. *)
Definition enabled (d : HeaderDesc) : gset Z :=
  if Headers.is_VL_type (hd_type d) && Headers.has_VL_expr (hd_type d)
  then list_to_set (VL_input_offsets d) ∪ arith_offsets d else arith_offsets d.

Lemma set_arith_ok d s h o : fresh_header d s h → 0 ≤ o < Headers.get_num_fields (hd_type d) →
  ∃ h', set_arith o h = Some h' ∧ fresh_header d ({[o]} ∪ s) h' ∧ Headers.union_membership h' = Headers.union_membership h.
Proof.
  intros [Ht Hm Hv (v & Ev & Hwf) HV Hl Ha] Ho. unfold set_arith.
  destruct (vupd_spec (Headers.fields h) o (λ fl, Fields.set_arith fl true)) as (fs & -> & Hfl & Hg); [apply vget_is_Some; lia|].
  msimpl. eexists. split; [done|]. split; [|done]. constructor; cbn; try done; try congruence.
  - enough (∃ g, vget fs (Headers.get_hidden_offset (Headers.header_type h)) = Some g ∧ Fields.wf g) by done.
    rewrite Hg, Ev. eexists. split; [done|]. case_decide; [|done]. by destruct Hwf; constructor.
  - intros Hvl. destruct (HV Hvl) as (g & Eg & Hgv & Hne). enough (∃ g, vget fs (Headers.VL_offset (Headers.header_type h)) = Some g ∧
      Fields.VL g = true ∧ Headers.VL_offset (Headers.header_type h) ≠ Headers.get_hidden_offset (Headers.header_type h)) by done.
    rewrite Hg, Eg. eexists. split; [done|]. split; [|done]. by case_decide.
  - intros i g. cbn. rewrite Hg. destruct (vget (Headers.fields h) i) as [g'|] eqn:Eg; [|done]. intros [= <-].
    case_decide as Hi; cbn.
    + subst i. symmetry. apply bool_decide_eq_true. set_solver.
    + rewrite (Ha _ _ Eg). apply bool_decide_ext. set_solver.
Qed.

Lemma each_set_arith d os : Forall (λ o, 0 ≤ o < Headers.get_num_fields (hd_type d)) os → ∀ s h, fresh_header d s h →
  ∃ h', each os set_arith h = Some h' ∧ fresh_header d (list_to_set os ∪ s) h' ∧
    Headers.union_membership h' = Headers.union_membership h.
Proof.
  induction 1 as [|o os Ho _ IH]; intros s h Hh; cbn [each].
  { exists h. split; [done|]. split; [|done].
    by replace (list_to_set [] ∪ s) with s by set_solver. }
  destruct (set_arith_ok d s h o Hh Ho) as (h1 & -> & H1 & Hm1). msimpl.
  destruct (IH _ _ H1) as (h2 & -> & H2 & Hm2). exists h2. split; [done|]. split; [|congruence].
  by replace (list_to_set (o :: os) ∪ s) with (list_to_set os ∪ ({[o]} ∪ s) : gset Z) by set_solver.
Qed.

(** ** The headers, then the stacks *)

Definition header_as (f : PHVFactory) (k : Z) (h : Headers.Header) : Prop :=
  ∃ d, header_descs f !! k = Some d ∧ fresh_header d (enabled d) h.

Definition headers_made f (n : Z) phv : Prop :=
  Z.of_nat (length (Phv.headers phv)) = n ∧
  phv = Phv.with_headers empty (Phv.headers phv) ∧
  ∀ k h, Phv.get_header phv k = Some h → header_as f k h ∧ Headers.union_membership h = None.

Lemma push_back_ok {A} (l : list A) x i y : vget (l ++ [x]) i = Some y →
  vget l i = Some y ∨ i = Z.of_nat (length l) ∧ y = x.
Proof.
  intros Hy. pose proof (vget_Some_range _ _ _ Hy) as Hr. rewrite length_app in Hr. cbn in Hr.
  rewrite vget_nat in Hy by lia. apply lookup_app_Some in Hy as [Hy|[Hle Hy]]; [left; by rewrite vget_nat by lia|].
  apply list_lookup_singleton_Some in Hy as [? <-]. right. split; [lia|done].
Qed.

Lemma create_header_ok f id d phv : factory_ok f → header_descs f !! id = Some d → headers_made f id phv →
  ∃ phv', create_header f id phv = Some phv' ∧ headers_made f (id + 1) phv'.
Proof.
  intros Hf Hd (Hl & He & Hh). pose proof (descs_ok _ Hf _ _ Hd) as Hdo.
  unfold create_header. rewrite Hd. msimpl. rewrite Hl, Z.eqb_refl. cbn [negb].
  unfold Phv.push_back_header. destruct (new_header d Hdo) as (h & -> & Hfh & Hm). msimpl.
  assert (∃ h', header_as f id h' ∧ Headers.union_membership h' = None ∧
    ((if Headers.is_VL_type (hd_type d) && Headers.has_VL_expr (hd_type d) then
       g ← Phv.get_header (Phv.with_headers phv (Phv.headers phv ++ [h])) id;
       g ← each (VL_input_offsets d) set_arith g;
       Phv.set_header (Phv.with_headers phv (Phv.headers phv ++ [h])) id g
     else Some (Phv.with_headers phv (Phv.headers phv ++ [h])))
     = Some (Phv.with_headers phv (Phv.headers phv ++ [h'])))) as (h' & Hh' & Hm' & ->).
  - unfold header_as. setoid_rewrite Hd. destruct (_ && _) eqn:HV.
    + destruct (each_set_arith d (VL_input_offsets d) (desc_inputs _ Hdo) _ _ Hfh) as (h' & E & Hfh' & Hm').
      exists h'. split; [exists d; split; [done|]; unfold enabled; by rewrite HV|]. split; [congruence|].
      unfold Phv.get_header, Phv.set_header. cbn. rewrite vget_nat by lia.
      rewrite list_lookup_middle by lia. msimpl. rewrite E. msimpl.
      rewrite vset_Some by (rewrite length_app; cbn; lia). msimpl. cbn. do 2 f_equal.
      replace (Z.to_nat id) with (length (Phv.headers phv) + 0)%nat by lia. by rewrite insert_app_r.
    + exists h. split; [exists d; split; [done|]; unfold enabled; by rewrite HV|]. done.
  - eexists. split; [done|]. split; [cbn; rewrite length_app; cbn; lia|]. split; [cbn; rewrite He; done|].
    intros k g [Hg|[-> ->]]%push_back_ok; [by apply Hh|]. by rewrite Hl.
Qed.

Definition stacks_made (descs : gmap Z (list Z)) (n : Z) (sts : list Phv.Stack) : Prop :=
  Z.of_nat (length sts) = n ∧
  ∀ k st, vget sts k = Some st → ∃ ids, descs !! k = Some ids ∧ st = {| Phv.elements := ids; Phv.next := 0 |}.

Lemma all_in_true {A} (l : list A) ids : (∀ id, id ∈ ids → 0 ≤ id < Z.of_nat (length l)) → all_in l ids = true.
Proof.
  intros Hin. apply forallb_forall. intros id Hid%list_elem_of_In. destruct (Hin id Hid).
  apply andb_true_intro. split; [by apply Z.leb_le|by apply Z.ltb_lt].
Qed.

Lemma stacks_push descs n sts ids : stacks_made descs n sts → descs !! n = Some ids →
  stacks_made descs (n + 1) (sts ++ [{| Phv.elements := ids; Phv.next := 0 |}]).
Proof.
  intros [Hl Hst] Hd. split; [rewrite length_app; cbn; lia|].
  intros k st [Hk|[-> ->]]%push_back_ok; [by apply Hst|]. exists ids. split; [|done]. by rewrite Hl.
Qed.

Lemma create_header_stack_ok f id hs phv phv0 : factory_ok f → header_stack_descs f !! id = Some hs →
  headers_made f (Z.of_nat (size (header_descs f))) phv0 →
  Phv.headers phv = Phv.headers phv0 ∧ Phv.header_unions phv = [] ∧ Phv.header_union_stacks phv = [] ∧
    stacks_made (header_stack_descs f) id (Phv.header_stacks phv) →
  ∃ phv', create_header_stack f id phv = Some phv' ∧
    Phv.headers phv' = Phv.headers phv0 ∧ Phv.header_unions phv' = [] ∧ Phv.header_union_stacks phv' = [] ∧
    stacks_made (header_stack_descs f) (id + 1) (Phv.header_stacks phv').
Proof.
  intros Hf Hd (Hl & _ & _) (Hh & Hu & Hus & Hs). unfold create_header_stack. rewrite Hd. msimpl.
  rewrite (proj1 Hs), Z.eqb_refl. cbn [negb]. rewrite all_in_true.
  - eexists. split; [done|]. cbn. split_and!; try done. by apply stacks_push.
  - intros k Hk. rewrite Hh, Hl. apply (headers_consecutive _ Hf). by eapply stacks_headers.
Qed.

(** ** The unions *)

(** [join_union] numbers the headers of the union and changes no others. *)
Lemma join_union_ok u ids : NoDup ids → ∀ phv i, (∀ id, id ∈ ids → is_Some (Phv.get_header phv id)) →
  ∃ phv', Phv.join_union phv ids u i = Some phv' ∧
    Phv.header_stacks phv' = Phv.header_stacks phv ∧ Phv.header_unions phv' = Phv.header_unions phv ∧
    Phv.header_union_stacks phv' = Phv.header_union_stacks phv ∧
    (∀ k, k ∉ ids → Phv.get_header phv' k = Phv.get_header phv k) ∧
    ∀ j k, ids !! j = Some k →
      Phv.get_header phv' k = (λ h, Phv.set_membership h u (i + Z.of_nat j)) <$> Phv.get_header phv k.
Proof.
  induction 1 as [|id ids Hid _ IH]; intros phv i Hin; cbn [Phv.join_union]; [by exists phv|].
  destruct (Hin id) as [h Hh]; [by left|]. rewrite Hh. msimpl.
  destruct (Phv.set_header_ok phv id h (Phv.set_membership h u i) Hh) as (phv1 & -> & Hu1 & Hs1 & Hus1 & Hg1). msimpl.
  destruct (IH phv1 (i + 1)) as (phv' & -> & Hs & Hu & Hus & Hout & Hk).
  { intros k Hin'. rewrite Hg1. case_decide; [done|]. apply Hin. by right. }
  exists phv'. split_and!; try done; try congruence.
  - intros k [? ?]%not_elem_of_cons. rewrite Hout, Hg1 by done. by rewrite decide_False.
  - intros [|j] k Hj; cbn in Hj; simplify_eq.
    + rewrite Hout by done. rewrite Hg1, decide_True, Hh by done. by rewrite Z.add_0_r.
    + rewrite (Hk _ _ Hj), Hg1. rewrite decide_False by (intros ->; by apply Hid; eapply list_elem_of_lookup_2).
      by replace (i + 1 + Z.of_nat j) with (i + Z.of_nat (S j)) by lia.
Qed.

(** Header [k] is header [i] of union [u], one of the first [n]. *)
Definition member_at f (n k u i : Z) : Prop :=
  u < n ∧ ∃ hs, header_union_descs f !! u = Some hs ∧ vget hs i = Some k.

Record unions_made f (sts : list Phv.Stack) (n : Z) phv : Prop := {
  made_stacks : Phv.header_stacks phv = sts;
  made_union_stacks : Phv.header_union_stacks phv = [];
  made_length : Z.of_nat (length (Phv.header_unions phv)) = n;
  made_unions : ∀ u hu, Phv.get_union phv u = Some hu →
    ∃ hs, header_union_descs f !! u = Some hs ∧ hu = {| Phv.u_headers := hs; Phv.u_valid := false; Phv.valid_header_idx := 0 |};
  made_count : ∀ k, is_Some (Phv.get_header phv k) ↔ is_Some (header_descs f !! k);
  made_headers : ∀ k h, Phv.get_header phv k = Some h → header_as f k h;
  made_members : ∀ k h u i, Phv.get_header phv k = Some h →
    Headers.union_membership h = Some (u, i) ↔ member_at f n k u i;
}.

Lemma fresh_membership d s h u i : fresh_header d s h → fresh_header d s (Phv.set_membership h u i).
Proof. by intros []; constructor. Qed.

Lemma vget_some_nat {A} (l : list A) i x : vget l i = Some x ↔ ∃ j, i = Z.of_nat j ∧ l !! j = Some x.
Proof.
  split.
  - intros H. pose proof (vget_Some_range _ _ _ H). rewrite vget_nat in H by lia. exists (Z.to_nat i). split; [lia|done].
  - intros (j & -> & H). rewrite vget_nat by lia. by rewrite Nat2Z.id.
Qed.

Lemma create_header_union_ok f sts u hs phv : factory_ok f → header_union_descs f !! u = Some hs →
  unions_made f sts u phv → ∃ phv', create_header_union f u phv = Some phv' ∧ unions_made f sts (u + 1) phv'.
Proof.
  intros Hf Hd []. unfold create_header_union. rewrite Hd. msimpl. rewrite made_length0, Z.eqb_refl. cbn [negb].
  unfold Phv.push_back_header_union. rewrite made_length0.
  edestruct (join_union_ok u hs (unions_NoDup _ Hf _ _ Hd)) as (phv' & -> & Hs & Hu & Hus & Hout & Hk).
  { intros id Hid. apply made_count0. by eapply unions_headers. }
  exists phv'. split; [done|].
  assert (∀ k h', Phv.get_header phv' k = Some h' → ∃ h, Phv.get_header phv k = Some h ∧
    (k ∉ hs ∧ h' = h ∨ ∃ j, hs !! j = Some k ∧ h' = Phv.set_membership h u (Z.of_nat j))) as Hget.
  { intros k h' Hh'. destruct (decide (k ∈ hs)) as [[j Hj]%list_elem_of_lookup_1|Hn].
    - rewrite (Hk _ _ Hj) in Hh'. apply fmap_Some in Hh' as (h & Hh & ->). exists h. split; [done|]. right.
      by exists j.
    - rewrite Hout in Hh' by done. exists h'. auto. }
  constructor.
  - by rewrite Hs.
  - by rewrite Hus.
  - rewrite Hu. cbn. rewrite length_app. cbn. lia.
  - unfold Phv.get_union. rewrite Hu. cbn. intros v hu [Hv|[-> ->]]%push_back_ok; [by apply made_unions0|].
    exists hs. by rewrite made_length0.
  - intros k. rewrite <- made_count0. destruct (decide (k ∈ hs)) as [[j Hj]%list_elem_of_lookup_1|Hn].
    + rewrite (Hk _ _ Hj). by rewrite fmap_is_Some.
    + by rewrite Hout.
  - intros k h' (h & Hh & [[_ ->]|(j & _ & ->)])%Hget; [by apply made_headers0|].
    destruct (made_headers0 _ _ Hh) as (d & ? & Hfr). exists d. split; [done|]. by apply fresh_membership.
  - intros k h' v i (h & Hh & Hc)%Hget. pose proof (made_members0 _ _ v i Hh) as Hmem. unfold member_at in *.
    destruct Hc as [[Hn ->]|(j & Hj & ->)].
    + rewrite Hmem. split; intros (Hlt & hs' & Hd' & Hg); (split; [|by exists hs']); [lia|].
      destruct (decide (v = u)) as [->|]; [|lia]. simplify_eq.
      apply vget_some_nat in Hg as (n & _ & Hg). by apply list_elem_of_lookup_2 in Hg.
    + cbn. split.
      * intros [= <- <-]. split; [lia|]. exists hs. split; [done|]. apply vget_some_nat. eauto.
      * intros (_ & hs' & Hd' & (n & -> & Hg)%vget_some_nat).
        assert (v = u) as -> by (eapply unions_disjoint; [exact Hf|exact Hd'|exact Hd|by eapply list_elem_of_lookup_2..]).
        simplify_eq. by rewrite (NoDup_lookup _ _ _ _ (unions_NoDup _ Hf _ _ Hd) Hg Hj).
Qed.

(** The invariant of [Phv]: no union holds a header yet. *)
Lemma unions_made_ok f sts phv : factory_ok f → unions_made f sts (Z.of_nat (size (header_union_descs f))) phv →
  Phv.unions_ok phv.
Proof.
  intros Hf Hm. constructor.
  - intros id h Hh. destruct (made_headers _ _ _ _ Hm _ _ Hh) as (d & _ & Hfr). apply Hfr.
  - intros id h u i Hh Hu. apply (made_members _ _ _ _ Hm _ _ u i Hh) in Hu as (Hlt & hs & Hd & Hg).
    destruct (proj2 (vget_is_Some (Phv.header_unions phv) u)) as [hu Ehu].
    { rewrite (made_length _ _ _ _ Hm). by apply (unions_consecutive _ Hf). }
    exists hu. split; [done|]. destruct (made_unions _ _ _ _ Hm _ _ Ehu) as (hs' & Hd' & ->). simplify_eq.
    split; [done|]. destruct (made_headers _ _ _ _ Hm _ _ Hh) as (d & _ & Hfr). by rewrite (fresh_valid _ _ _ Hfr).
  - intros u hu i id Hu Hid. destruct (made_unions _ _ _ _ Hm _ _ Hu) as (hs & Hd & ->). cbn in Hid.
    destruct (proj2 (made_count _ _ _ _ Hm id)) as [h Hh].
    { eapply unions_headers; [done..|]. apply vget_some_nat in Hid as (j & _ & Hj). by eapply list_elem_of_lookup_2. }
    exists h. split; [done|]. apply (made_members _ _ _ _ Hm _ _ u i Hh). split; [|by exists hs].
    by apply (unions_consecutive _ Hf).
  - intros u hu Hu Hv. destruct (made_unions _ _ _ _ Hm _ _ Hu) as (hs & _ & ->). done.
Qed.

Lemma vget_nil_inv {A} (P : Prop) i (x : A) : vget [] i = Some x → P.
Proof. intros H%vget_Some_range. cbn in H. lia. Qed.

Lemma create_spec f : factory_ok f → ∃ phv, create f = Some phv ∧ Phv.unions_ok phv ∧
  unions_made f (Phv.header_stacks phv) (Z.of_nat (size (header_union_descs f)))
    (Phv.Build_PHV (Phv.headers phv) (Phv.header_stacks phv) (Phv.header_unions phv) []) ∧
  stacks_made (header_stack_descs f) (Z.of_nat (size (header_stack_descs f))) (Phv.header_stacks phv) ∧
  stacks_made (header_union_stack_descs f) (Z.of_nat (size (header_union_stack_descs f))) (Phv.header_union_stacks phv).
Proof.
  intros Hf. unfold create.
  destruct (each_keys (header_descs f) (headers_made f) (create_header f) empty) as (phv1 & -> & H1).
  { apply (headers_consecutive _ Hf). }
  { split; [done|]. split; [done|]. intros k h Hk. exact (vget_nil_inv _ _ _ Hk). }
  { intros. by eapply create_header_ok. }
  msimpl.
  edestruct (each_keys (header_stack_descs f) (λ i phv, Phv.headers phv = Phv.headers phv1 ∧ Phv.header_unions phv = [] ∧
    Phv.header_union_stacks phv = [] ∧ stacks_made (header_stack_descs f) i (Phv.header_stacks phv)))
    as (phv2 & -> & Hh2 & Hu2 & Hus2 & Hs2).
  { apply (stacks_consecutive _ Hf). }
  { destruct H1 as (_ & -> & _). do 4 (split; [done|]). intros k st Hk. exact (vget_nil_inv _ _ _ Hk). }
  { intros. by eapply create_header_stack_ok. }
  msimpl. destruct H1 as (Hl1 & _ & Hh1).
  destruct (each_keys (header_union_descs f) (unions_made f (Phv.header_stacks phv2)) (create_header_union f) phv2)
    as (phv3 & -> & H3).
  { apply (unions_consecutive _ Hf). }
  { assert (∀ k, Phv.get_header phv2 k = Phv.get_header phv1 k) as Hg by (intros k; unfold Phv.get_header; by rewrite Hh2).
    constructor; try done.
    - by rewrite Hu2.
    - unfold Phv.get_union. rewrite Hu2. intros u hu Hk. exact (vget_nil_inv _ _ _ Hk).
    - intros k. rewrite Hg. unfold Phv.get_header. by rewrite vget_is_Some, Hl1, (headers_consecutive _ Hf k).
    - intros k h. rewrite Hg. apply Hh1.
    - intros k h u i Hh. rewrite Hg in Hh. destruct (Hh1 _ _ Hh) as [_ ->]. split; [done|].
      intros (Hlt & hs & Hd & _). apply mk_is_Some, (unions_consecutive _ Hf) in Hd. lia. }
  { intros. by eapply create_header_union_ok. }
  msimpl.
  edestruct (each_keys (header_union_stack_descs f) (λ i phv, Phv.headers phv = Phv.headers phv3 ∧
    Phv.header_unions phv = Phv.header_unions phv3 ∧ Phv.header_stacks phv = Phv.header_stacks phv2 ∧
    stacks_made (header_union_stack_descs f) i (Phv.header_union_stacks phv))) as (phv & -> & Hh & Hu & Hst & Hus).
  { apply (union_stacks_consecutive _ Hf). }
  { split_and!; try done; [apply H3|]. rewrite (made_union_stacks _ _ _ _ H3). split; [done|]. intros k st Hk. exact (vget_nil_inv _ _ _ Hk). }
  { intros s us phv Hd (Hh & Hu & Hst & Hus). unfold create_header_union_stack. rewrite Hd. msimpl.
    rewrite (proj1 Hus), Z.eqb_refl. cbn [negb]. rewrite all_in_true.
    - eexists. split; [done|]. cbn. split_and!; try done. by apply stacks_push.
    - intros u Hin. rewrite Hu, (made_length _ _ _ _ H3). apply (unions_consecutive _ Hf). by eapply stacks_unions. }
  exists phv. split; [done|]. pose proof (unions_made_ok f _ _ Hf H3) as Hok. pose proof (made_union_stacks _ _ _ _ H3) as He.
  pose proof (made_stacks _ _ _ _ H3) as Hs3. destruct phv, phv3. cbn in *. subst. split_and!; try done. by destruct Hok; constructor.
Qed.

Lemma stacks_as_described (descs : gmap Z (list Z)) sts k : consecutive descs → stacks_made descs (Z.of_nat (size descs)) sts →
  (λ st, (Phv.elements st, Phv.next st)) <$> vget sts k = (λ ids, (ids, 0)) <$> descs !! k.
Proof.
  intros Hc [Hl Hs]. destruct (vget sts k) as [st|] eqn:E; cbn.
  - destruct (Hs k st E) as (ids & -> & ->). done.
  - destruct (descs !! k) as [ids|] eqn:Ek; [|done]. exfalso. apply mk_is_Some, Hc in Ek. rewrite <- Hl in Ek.
    apply vget_is_Some in Ek as [st Est]. congruence.
Qed.

(** C33: A factory whose descriptions are consistent (their ids are consecutive,
    what they refer to is described, and no header is in two unions) makes the
    parsed headers that they describe, and no others: each header is of its
    type, not valid, with the values of those fields kept that take part in
    expressions, and it is in the union and at the place its description says;
    there is a stack, a union and a stack of unions for each description, with
    the elements it lists and empty; and the headers and unions are consistent. *)
Theorem create_ok f : factory_ok f → ∃ phv, create f = Some phv ∧ Phv.unions_ok phv ∧
  (∀ k, is_Some (Phv.get_header phv k) ↔ is_Some (header_descs f !! k)) ∧
  (∀ k h, Phv.get_header phv k = Some h → Headers.valid h = false ∧ Phv.vl_ok h ∧
    (∃ d, header_descs f !! k = Some d ∧ Headers.header_type h = hd_type d ∧ Headers.metadata h = hd_metadata d ∧
      arith_in (enabled d) h) ∧
    ∀ u i, Headers.union_membership h = Some (u, i) ↔ ∃ hs, header_union_descs f !! u = Some hs ∧ vget hs i = Some k) ∧
  (∀ u, (λ hu, (Phv.u_headers hu, Phv.u_valid hu)) <$> Phv.get_union phv u = (λ hs, (hs, false)) <$> header_union_descs f !! u) ∧
  (∀ k, (λ st, (Phv.elements st, Phv.next st)) <$> vget (Phv.header_stacks phv) k = (λ hs, (hs, 0)) <$> header_stack_descs f !! k) ∧
  ∀ k, (λ st, (Phv.elements st, Phv.next st)) <$> vget (Phv.header_union_stacks phv) k = (λ us, (us, 0)) <$> header_union_stack_descs f !! k.
Proof.
  intros Hf. destruct (create_spec f Hf) as (phv & -> & Hok & [_ _ Ml Mu Mc Mh Mm] & Hs & Hus).
  exists phv. split; [done|]. split; [done|]. split; [exact Mc|]. split_and!.
  - intros k h Hh. destruct (Mh k h Hh) as (d & Hd & [Ht Hmd Hv _ HV _ Ha]). split; [done|]. split; [done|]. split; [by exists d|].
    intros u i. rewrite (Mm k h u i Hh). unfold member_at. split; [intros (_ & ?); done|]. intros (hs & Hd' & ?).
    split; [|by exists hs]. apply (unions_consecutive _ Hf). eauto.
  - intros u. change (Phv.get_union _ u) with (Phv.get_union phv u) in Mu. destruct (Phv.get_union phv u) as [hu|] eqn:Hu; cbn.
    + destruct (Mu u hu Hu) as (hs & -> & ->). done.
    + destruct (header_union_descs f !! u) as [hs|] eqn:Ed; [|done]. exfalso. apply mk_is_Some, (unions_consecutive _ Hf) in Ed.
      cbn in Ml. rewrite <- Ml in Ed. apply vget_is_Some in Ed as [hu Ehu]. unfold Phv.get_union in Hu. congruence.
  - intros k. by apply stacks_as_described, Hs; apply stacks_consecutive.
  - intros k. by apply stacks_as_described, Hus; apply union_stacks_consecutive.
Qed.
End PhvFactorySpec.

(** Metadata, two headers of a union, and a header of variable length. *)
Module PhvFactoryExamples.
Import PhvFactory PhvFactorySpec.

Definition meta_type : Headers.HeaderType := (Headers.push_back_field (Headers.new_type 0) "port" 16 false false false).1.
Definition tag_type : Headers.HeaderType :=
  (Headers.push_back_field (Headers.push_back_field (Headers.new_type 1) "kind" 3 false false false).1 "delta" 5 true false false).1.
Definition options_type : Headers.HeaderType :=
  match Headers.push_back_VL_field (Headers.push_back_field (Headers.new_type 2) "length" 8 false false false).1 "data" 40 true false false with
  | Some (ht, _) => ht
  | None => Headers.new_type 2
  end.

Definition factory : PHVFactory :=
  let f := push_back_header new 2 tag_type [] false in
  let f := push_back_header f 0 meta_type [] true in
  let f := push_back_header f 1 tag_type [] false in
  let f := push_back_header f 3 options_type [0] false in
  let f := push_back_header_union f 0 [2; 1] in
  let f := push_back_header_stack f 0 [1; 2] in
  let f := push_back_header_union_stack f 0 [0] in
  default f (f ← disable_all_field_arith f 3; f ← disable_field_arith f 1 1; enable_stack_field_arith f 0 0).

Lemma consecutive_keys {V} (m : gmap Z V) : keys m = seqZ 0 (Z.of_nat (size m)) → consecutive m.
Proof.
  intros Hk i. transitivity (i ∈ keys m); [|rewrite Hk, elem_of_seqZ; lia]. unfold keys. rewrite merge_sort_Permutation.
  rewrite list_elem_of_fmap. split.
  - intros [v Hv%elem_of_map_to_list]. by exists (i, v).
  - intros ([j v] & -> & Hv%elem_of_map_to_list). by exists v.
Qed.

Lemma all_entries {V} (P : Z → V → Prop) (m : gmap Z V) :
  Forall (λ p, P p.1 p.2) (map_to_list m) → ∀ k v, m !! k = Some v → P k v.
Proof. intros HF k v Hv%elem_of_map_to_list. by apply (proj1 (Forall_forall _ _) HF _ Hv). Qed.

Ltac typed_by n ht :=
  exists (take n (Headers.fields_info ht)); split; [constructor; [reflexivity| |]|reflexivity];
  [repeat constructor; cbn; lia|intros H; try discriminate H; eexists; split; reflexivity].

Lemma meta_typed : ∃ fis, typed meta_type fis ∧ bits fis mod 8 = 0.
Proof. typed_by 1%nat meta_type. Qed.
Lemma tag_typed : ∃ fis, typed tag_type fis ∧ bits fis mod 8 = 0.
Proof. typed_by 2%nat tag_type. Qed.
Lemma options_typed : ∃ fis, typed options_type fis ∧ bits fis mod 8 = 0.
Proof. typed_by 2%nat options_type. Qed.

Ltac entries := let l := fresh in refine (all_entries _ _ _); set (l := map_to_list _); vm_compute in l; subst l;
  repeat (apply Forall_cons; split); [..|apply Forall_nil; exact I].

Lemma factory_is_ok : factory_ok factory.
Proof.
  constructor; try (apply consecutive_keys; vm_compute; reflexivity).
  - entries; (constructor; [first [exact meta_typed|exact tag_typed|exact options_typed]|]);
      repeat constructor; cbn; lia.
  - intros s hs id Hs. revert id. revert s hs Hs. entries. cbn. intros id Hid.
    assert (id = 1 ∨ id = 2) as [-> | ->] by set_solver; by eexists.
  - intros s hs id Hs. revert id. revert s hs Hs. entries. cbn. intros id Hid.
    assert (id = 2 ∨ id = 1) as [-> | ->] by set_solver; by eexists.
  - entries. cbn. repeat constructor; set_solver.
  - intros u v hs hs' id Hu Hv _ _. revert v hs' Hv. revert u hs Hu. entries. cbn. entries. done.
  - intros s hs id Hs. revert id. revert s hs Hs. entries. cbn. intros id Hid.
    assert (id = 0) as -> by set_solver. by eexists.
Qed.

Lemma create_ok_witness : ∃ phv, create factory = Some phv ∧ Phv.unions_ok phv ∧
  (option_map Headers.union_membership (Phv.get_header phv 1)) = Some (Some (0, 1)) ∧
  (Phv.elements <$> vget (Phv.header_stacks phv) 0) = Some [1; 2] ∧
  (λ f : Fields.Field, Data.arith f) <$> (h ← Phv.get_header phv 3; vget (Headers.fields h) 0) = Some true ∧
  (λ f : Fields.Field, Data.arith f) <$> (h ← Phv.get_header phv 3; vget (Headers.fields h) 1) = Some false.
Proof.
  destruct (create_ok factory factory_is_ok) as (phv & E & Hok & _). exists phv. split; [exact E|]. split; [exact Hok|].
  vm_compute in E. injection E as <-. vm_compute. repeat split.
Defined.
End PhvFactoryExamples.
