(* ===== verification/PhvLike.v ===== *)
(** * Parsed headers of one context

    The parsed headers that one factory makes have the same shape. Giving them
    back to their pool, and copying headers from one to the other, succeed for
    any parsed headers of the shape, whatever was done to them. *)

From stdpp Require Import gmap.
From S2P Require Import Prelude Data Fields Headers Phv.
Import (coercions) Fields.

Module PhvLike.
Import Phv.

Section like.
Context `{GmpLaws}.
Implicit Types (phv : PHV) (h t : Headers.Header) (f : Fields.Field) (id k : Z).

Definition fields_wf h : Prop := Forall (λ f : Fields.Field, Fields.VL f = false → Fields.wf f) (Headers.fields h).

(** What the headers of a template need. *)
Record template_ok (T : PHV) : Prop := {
  t_wf : ∀ k t, get_header T k = Some t → fields_wf t;
  t_hidden : ∀ k t, get_header T k = Some t →
    ∃ f, vget (Headers.fields t) (Headers.get_hidden_offset (Headers.header_type t)) = Some f ∧ Fields.VL f = false;
  t_VL : ∀ k t, get_header T k = Some t → vl_ok t;
  t_metadata : ∀ k t, get_header T k = Some t → Headers.metadata t = true →
    Forall (λ f : Fields.Field, Fields.VL f = false) (Headers.fields t);
  t_member : ∀ k t u i, get_header T k = Some t → Headers.union_membership t = Some (u, i) → is_Some (get_union T u);
}.

(** Of the same shape, with whatever values. *)
Record like (T phv : PHV) : Prop := {
  like_headers : ∀ k, is_Some (get_header phv k) ↔ is_Some (get_header T k);
  like_unions : ∀ u, is_Some (get_union phv u) ↔ is_Some (get_union T u);
  like_shape : ∀ k h, get_header phv k = Some h → fields_wf h ∧ ∃ t, get_header T k = Some t ∧ shape h = shape t;
}.

Lemma like_refl T : template_ok T → like T T.
Proof. intros HT. split; [done..|]. intros k h Hh. split; [by eapply t_wf|by exists h]. Qed.

Lemma shape_field h t i f : shape h = shape t → vget (Headers.fields t) i = Some f →
  ∃ g, vget (Headers.fields h) i = Some g ∧ field_shape g = field_shape f.
Proof.
  intros Hs Hf. assert (field_shape <$> Headers.fields h = field_shape <$> Headers.fields t) as Hfs by (unfold shape in Hs; by injection Hs).
  pose proof (vget_fmap field_shape (Headers.fields h) i) as Hg. rewrite Hfs, vget_fmap, Hf in Hg.
  destruct (vget (Headers.fields h) i) as [g|]; [|done]. exists g. split; [done|]. apply (inj Some). symmetry. exact Hg.
Qed.

Lemma shape_VL f (g : Fields.Field) : field_shape f = field_shape g → Fields.VL f = Fields.VL g.
Proof. by intros [= ? ? ? ? ?]. Qed.

Lemma wf_vget h i f : fields_wf h → vget (Headers.fields h) i = Some f → Fields.VL f = false → Fields.wf f.
Proof. intros Hw Hf. pose proof (vget_Some_range _ _ _ Hf). rewrite vget_nat in Hf by lia. exact (Forall_lookup_1 _ _ _ _ Hw Hf). Qed.

(** What [Phv] asks of a header. *)
Lemma like_header_ok T phv k h : template_ok T → like T phv → get_header phv k = Some h →
  header_ok h ∧ vl_ok h ∧ ∀ u i, Headers.union_membership h = Some (u, i) → is_Some (get_union phv u).
Proof.
  intros HT HL Hh. destruct (like_shape _ _ HL _ _ Hh) as (Hw & t & Ht & Hs).
  assert (Headers.header_type h = Headers.header_type t ∧ Headers.union_membership h = Headers.union_membership t)
    as [Hty Hm] by (unfold shape in Hs; by injection Hs).
  split; [|split].
  - destruct (t_hidden _ HT _ _ Ht) as (f & Hf & Hv). destruct (shape_field _ _ _ _ Hs Hf) as (g & Hg & Hgs).
    exists g. rewrite Hty. split; [done|]. eapply wf_vget; [done..|]. by rewrite (shape_VL _ _ Hgs).
  - intros HV. unfold Headers.is_VL_header in HV. rewrite Hty in HV.
    destruct (t_VL _ HT _ _ Ht HV) as (f & Hf & Hv & Hne). destruct (shape_field _ _ _ _ Hs Hf) as (g & Hg & Hgs).
    exists g. rewrite Hty. split; [done|]. by rewrite (shape_VL _ _ Hgs).
  - intros u i. rewrite Hm. intros Hu. apply (like_unions _ _ HL). by eapply t_member.
Qed.

Lemma fields_wf_set h i g fs : fields_wf h → (Fields.VL g = false → Fields.wf g) → vset (Headers.fields h) i g = Some fs →
  fields_wf (Headers.with_fields h fs).
Proof. intros Hw Hg [_ ->]%vset_inv. apply Forall_insert; done. Qed.

Lemma set_valid_wf h b h' : fields_wf h → header_ok h → Headers.set_valid h b = Some h' → fields_wf h'.
Proof.
  intros Hw (f & Ef & Hf) Hs. unfold Headers.set_valid in Hs. rewrite Ef in Hs. cbn [mbind option_bind] in Hs.
  assert (Fields.wf (Fields.with_value f (if b then 1 else 0))) as Hf1 by (destruct Hf; by constructor).
  unfold Fields.set in Hs. destruct (Fields.export_bytes_ok _ Hf1) as (f' & E & Hf' & _). rewrite E in Hs.
  mbind_inv Hs. eapply fields_wf_set; done.
Qed.

(** Replacing a header by one of its shape. *)
Lemma like_set T phv phv' k h h' : like T phv → get_header phv k = Some h →
  shape h' = shape h → fields_wf h' →
  (∀ j, get_header phv' j = if decide (j = k) then Some h' else get_header phv j) →
  (∀ u, is_Some (get_union phv' u) ↔ is_Some (get_union phv u)) → like T phv'.
Proof.
  intros [L1 L2 L3] Hh Hs Hw Hg Hu. split.
  - intros j. rewrite Hg, <- L1. case_decide; [subst|done]. rewrite Hh. split; eauto.
  - intros u. by rewrite Hu, L2.
  - intros j g. rewrite Hg. case_decide; [|by apply L3]. intros [= <-]. subst j. split; [done|].
    destruct (L3 _ _ Hh) as (_ & t & ? & ?). exists t. split; [done|congruence].
Qed.

Lemma mark_invalid_like T phv k : template_ok T → like T phv → is_Some (get_header phv k) →
  ∃ phv' h', mark_invalid phv k = Some phv' ∧ like T phv' ∧ get_header phv' k = Some h' ∧ Headers.valid h' = false.
Proof.
  intros HT HL [h Hh]. destruct (like_header_ok _ _ _ _ HT HL Hh) as (Hok & _ & Hm).
  destruct (mark_invalid_effect phv k h Hh Hok Hm) as (phv' & h' & -> & Hs & Hg & Hu).
  exists phv', h'. split; [done|].
  split; [|split; [by rewrite Hg, decide_True|]].
  - eapply (like_set _ _ _ _ _ _ HL Hh); [by eapply set_valid_shape| |done|].
    + eapply set_valid_wf; [|done..]. by apply (like_shape _ _ HL _ _ Hh).
    + intros u. rewrite Hu. destruct (Headers.union_membership h) as [[v i]|]; [|done]. case_decide; [|done]. by rewrite fmap_is_Some.
  - destruct (set_valid_ok h false Hok) as (? & ? & _ & ? & _). by simplify_eq.
Qed.

Lemma reset_VL_like h : fields_wf h → vl_ok h → ∃ h', (if Headers.is_VL_header h then Headers.reset_VL_header h else Some h) = Some h' ∧
  fields_wf h' ∧ shape h' = shape h ∧ Headers.valid h' = Headers.valid h.
Proof.
  intros Hw Hvl. destruct (Headers.is_VL_header h) eqn:E; [|by exists h].
  unfold Headers.reset_VL_header. rewrite E. cbn [negb]. destruct (Hvl E) as (f & Ef & EV & _).
  rewrite Ef. msimpl. unfold Fields.reset_VL. rewrite EV. msimpl.
  pose proof (vget_Some_range _ _ _ Ef) as Hr. rewrite vset_Some by done. msimpl. eexists. split; [done|].
  rewrite vget_nat in Ef by lia. split; [|split; [|done]].
  - apply Forall_insert; [done|]. destruct (Fields.is_signed f); cbn; congruence.
  - unfold shape. cbn. f_equal. rewrite list_fmap_insert. apply list_insert_id. rewrite list_lookup_fmap, Ef. cbn. f_equal.
    unfold field_shape. rewrite EV. by destruct (Fields.is_signed f) eqn:Es; cbn; rewrite ?EV, ?Es.
Qed.

Lemma reset_loop_like T n : template_ok T → ∀ i phv, like T phv → 0 ≤ i → i + Z.of_nat n = Z.of_nat (length (headers phv)) →
  (∀ k h, get_header phv k = Some h → k < i → Headers.valid h = false) →
  ∃ phv', reset_loop n i phv = Some phv' ∧ like T phv' ∧ ∀ k h, get_header phv' k = Some h → Headers.valid h = false.
Proof.
  intros HT. induction n as [|n IH]; intros i phv HL Hi Hn Hv; cbn [reset_loop].
  { exists phv. split_and!; [done..|]. intros k h E. eapply Hv; [done|]. apply vget_Some_range in E. lia. }
  assert (is_Some (get_header phv i)) as Hget by (apply vget_is_Some; lia).
  pose proof Hget as [h0 Hh0]. destruct (like_header_ok _ _ _ _ HT HL Hh0) as (Hok0 & _ & Hm0).
  destruct (mark_invalid_like T phv i HT HL Hget) as (phv1 & h1 & E1 & HL1 & Hg1 & Hv1).
  destruct (mark_invalid_effect phv i h0 Hh0 Hok0 Hm0) as (phv1' & h1' & E1' & _ & Hall & _).
  rewrite E1' in E1. injection E1 as ->. rewrite E1'. msimpl. rewrite Hg1. msimpl.
  destruct (like_shape _ _ HL1 _ _ Hg1) as (Hw1 & _). destruct (like_header_ok _ _ _ _ HT HL1 Hg1) as (_ & Hvl1 & _).
  destruct (reset_VL_like h1 Hw1 Hvl1) as (h2 & -> & Hw2 & Hs2 & Hv2). msimpl.
  destruct (set_header_ok phv1 i h1 h2 Hg1) as (phv2 & -> & Hu2 & _ & _ & Hg2). msimpl.
  assert (like T phv2) as HL2.
  { eapply like_set; [done..|]. intros u. by rewrite (get_union_unions phv1). }
  destruct (IH (i + 1) phv2) as (phv' & -> & HL' & Hv').
  - done.
  - lia.
  - assert (length (headers phv2) = length (headers phv)) as ->; [|lia]. apply vget_length. intros k.
    change (is_Some (get_header phv2 k) ↔ is_Some (get_header phv k)). by rewrite (like_headers _ _ HL2), (like_headers _ _ HL).
  - intros k h. rewrite Hg2. case_decide; intros; simplify_eq; [congruence|].
    rewrite Hall in *. case_decide; [done|]. eapply Hv; [done|lia].
  - by exists phv'.
Qed.

(** [reset] succeeds and leaves no header valid. *)
Lemma reset_like T phv : template_ok T → like T phv →
  ∃ phv', reset phv = Some phv' ∧ like T phv' ∧ ∀ k h, get_header phv' k = Some h → Headers.valid h = false.
Proof.
  intros HT HL. apply (reset_loop_like T _ HT); [done|done|lia|].
  intros k h E ?. apply vget_Some_range in E. lia.
Qed.

Lemma reset_header_stacks_like T phv : like T phv → like T (reset_header_stacks phv).
Proof. by intros []; constructor. Qed.

(** *** Copying *)

(** What a field holds. *)
Definition held (f : Fields.Field) : Z * list Z := (Data.value f, Fields.bytes f).

Lemma copy_value_like f (g : Fields.Field) : field_shape f = field_shape g → (Fields.VL f = false → Fields.wf f) → (Fields.VL g = false → Fields.wf g) →
  field_shape (Fields.copy_value f g) = field_shape f ∧ held (Fields.copy_value f g) = held g ∧
  (Fields.VL (Fields.copy_value f g) = false → Fields.wf (Fields.copy_value f g)).
Proof.
  intros Hs Hf Hg. pose proof (shape_VL _ _ Hs) as HV. unfold Fields.copy_value, field_shape in *.
  destruct (Fields.VL f) eqn:E; cbn; rewrite ?E; [done|]. rewrite <- HV in *. specialize (Hf eq_refl). specialize (Hg eq_refl).
  split; [done|]. split; [done|]. intros _. injection Hs as _ _ _ _ Hn Hb _ _ _. destruct Hf, Hg. constructor; cbn; try done. congruence.
Qed.

Lemma shapes_Forall2 h t : shape h = shape t → Forall2 (λ f g, field_shape f = field_shape g) (Headers.fields h) (Headers.fields t).
Proof.
  intros Hs. assert (field_shape <$> Headers.fields h = field_shape <$> Headers.fields t) as Hfs by (unfold shape in Hs; by injection Hs).
  apply (Forall2_fmap_1 field_shape field_shape eq). by rewrite Hfs.
Qed.

Lemma copy_fields_like fs gs : Forall2 (λ f g, field_shape f = field_shape g) fs gs →
  Forall (λ f : Fields.Field, Fields.VL f = false → Fields.wf f) fs → Forall (λ f : Fields.Field, Fields.VL f = false → Fields.wf f) gs →
  let cs := zip_with Fields.copy_value fs gs in
  field_shape <$> cs = field_shape <$> fs ∧ held <$> cs = held <$> gs ∧ Forall (λ f : Fields.Field, Fields.VL f = false → Fields.wf f) cs.
Proof.
  induction 1 as [|f g fs gs Hfg _ IH]; intros Hf Hg; [done|].
  apply Forall_cons in Hf as [Hf Hfs]. apply Forall_cons in Hg as [Hg Hgs].
  destruct (IH Hfs Hgs) as (I1 & I2 & I3). destruct (copy_value_like f g Hfg Hf Hg) as (C1 & C2 & C3).
  cbn. split; [by f_equal|]. split; [by f_equal|by constructor].
Qed.

(** A header of a copy: the validity and, when it is used, the contents of the source's. *)
Definition copied (src h : Headers.Header) : Prop :=
  Headers.valid h = Headers.valid src ∧ Headers.metadata h = Headers.metadata src ∧
  (Headers.is_valid src = true → held <$> Headers.fields h = held <$> Headers.fields src ∧ Headers.nbytes_packet h = Headers.nbytes_packet src).

Lemma copy_header_like h src : shape h = shape src → fields_wf h → fields_wf src →
  ∃ h', (let g := with_flags h src in if Headers.valid g || Headers.metadata g then Headers.copy_fields g src else Some g) = Some h' ∧
    fields_wf h' ∧ shape h' = shape h ∧ copied src h'.
Proof.
  intros Hs Hh Hg. pose proof (shapes_Forall2 _ _ Hs) as Hfs. destruct (copy_fields_like _ _ Hfs Hh Hg) as (C1 & C2 & C3).
  assert (Headers.metadata h = Headers.metadata src) as Hm by (unfold shape in Hs; by injection Hs).
  cbn [with_flags Headers.valid Headers.metadata]. unfold copied, Headers.is_valid. destruct (Headers.valid src || Headers.metadata src) eqn:E.
  - unfold Headers.copy_fields. cbn. rewrite (Forall2_length _ _ _ Hfs), Nat.leb_refl. eexists. split; [done|].
    split; [exact C3|]. split; [|done]. unfold shape. cbn. by rewrite C1, Hm.
  - eexists. split; [done|]. split; [done|]. split; [unfold shape; cbn; by rewrite Hm|]. split; [done|]. split; [done|].
    rewrite orb_comm in E. by rewrite E.
Qed.

Lemma shape_metadata h t : shape h = shape t → Headers.metadata h = Headers.metadata t.
Proof. unfold shape. by intros [=]. Qed.

Lemma shape_with_fields h fs : field_shape <$> fs = field_shape <$> Headers.fields h → shape (Headers.with_fields h fs) = shape h.
Proof. unfold shape. cbn. by intros ->. Qed.

Lemma like_length T phv phv' : like T phv → like T phv' → length (headers phv) = length (headers phv').
Proof. intros H1 H2. apply vget_length. intros k. change (is_Some (get_header phv k) ↔ is_Some (get_header phv' k)).
  by rewrite (like_headers _ _ H1), (like_headers _ _ H2). Qed.

(** Replacing each header by one of its shape. *)
Lemma like_map T phv hs (Q : Z → Headers.Header → Prop) (F : Headers.Header → option Headers.Header) :
  like T phv → mapM F (headers phv) = Some hs →
  (∀ k h h', get_header phv k = Some h → F h = Some h' → fields_wf h' ∧ shape h' = shape h ∧ Q k h') →
  like T (with_headers phv hs) ∧ ∀ k h', get_header (with_headers phv hs) k = Some h' → Q k h'.
Proof.
  intros [L1 L2 L3] Hm HF. apply mapM_Some_1 in Hm.
  assert (∀ k h', vget hs k = Some h' → ∃ h, get_header phv k = Some h ∧ F h = Some h') as Hget.
  { intros k h' Hk. pose proof (vget_Some_range _ _ _ Hk). rewrite vget_nat in Hk by lia.
    destruct (Forall2_lookup_r _ _ _ _ _ Hm Hk) as (h & Hh & ?). exists h. split; [|done]. unfold get_header. by rewrite vget_nat by lia. }
  split; [|intros k h' (h & Hh & Hf)%Hget; by apply (HF _ _ _ Hh Hf)]. split; [|done|].
  - intros k. rewrite <- L1. unfold get_header. cbn. rewrite !vget_is_Some. by rewrite (Forall2_length _ _ _ Hm).
  - intros k h' (h & Hh & Hf)%Hget. destruct (HF _ _ _ Hh Hf) as (Hw & Hs & _). split; [done|].
    destruct (L3 _ _ Hh) as (_ & t & ? & ?). exists t. split; [done|congruence].
Qed.

(** [copy_headers] succeeds between parsed headers of a shape, and copies. *)
Lemma copy_headers_like T phv src : like T phv → like T src → ∃ phv', copy_headers phv src = Some phv' ∧ like T phv' ∧
  ∀ k h, get_header phv' k = Some h → ∃ g, get_header src k = Some g ∧ copied g h.
Proof.
  intros HL HS. pose proof (like_length _ _ _ HL HS) as Hlen. unfold copy_headers. rewrite Hlen, Nat.leb_refl.
  set (F := λ p : Headers.Header * Headers.Header, _).
  assert (∀ k (h g h' : Headers.Header), get_header phv k = Some h → get_header src k = Some g →
    ∃ h', F (h, g) = Some h' ∧ fields_wf h' ∧ shape h' = shape h ∧ copied g h') as HF.
  { intros k h g _ Hh Hg. destruct (like_shape _ _ HL _ _ Hh) as (Hw & t & Ht & Hs). destruct (like_shape _ _ HS _ _ Hg) as (Hw' & t' & Ht' & Hs').
    assert (t' = t) as -> by congruence. apply copy_header_like; [congruence|done..]. }
  assert (∀ i h g, zip (headers phv) (headers src) !! i = Some (h, g) →
    get_header phv (Z.of_nat i) = Some h ∧ get_header src (Z.of_nat i) = Some g) as Hzip.
  { intros i h g (? & ? & ? & ? & ?)%lookup_zip_with_Some. simplify_eq. unfold get_header. rewrite !vget_nat by lia. by rewrite !Nat2Z.id. }
  destruct (mapM F (zip (headers phv) (headers src))) as [hs|] eqn:Em.
  - msimpl. eexists. split; [done|]. apply mapM_Some_1 in Em.
    assert (∀ k h', vget hs k = Some h' → ∃ h g, get_header phv k = Some h ∧ get_header src k = Some g ∧ F (h, g) = Some h') as Hget.
    { intros k h' Hk. pose proof (vget_Some_range _ _ _ Hk). rewrite vget_nat in Hk by lia.
      destruct (Forall2_lookup_r _ _ _ _ _ Em Hk) as ([h g] & [Hh Hg]%Hzip & ?). rewrite Z2Nat.id in Hh, Hg by lia. eauto. }
    destruct HL as [L1 L2 L3]. split.
    + split; [|done|].
      * intros k. rewrite <- L1. unfold get_header. cbn. rewrite !vget_is_Some, <- (Forall2_length _ _ _ Em), length_zip_with_l_eq by done. done.
      * intros k h' (h & g & Hh & Hg & Hf)%Hget. destruct (HF k h g h' Hh Hg) as (x & Hx & ? & ? & _). assert (h' = x) as -> by congruence. split; [done|].
        destruct (L3 _ _ Hh) as (_ & t & ? & ?). exists t. split; [done|congruence].
    + intros k h' (h & g & Hh & Hg & Hf)%Hget. destruct (HF k h g h' Hh Hg) as (x & Hx & _ & _ & ?). assert (h' = x) as -> by congruence. by exists g.
  - exfalso. assert (is_Some (mapM F (zip (headers phv) (headers src)))) as [? ?]; [|congruence].
    apply mapM_is_Some_2, Forall_lookup. intros i [h g] [Hh Hg]%Hzip. destruct (HF _ _ _ h Hh Hg) as (h' & E & _). by exists h'.
Qed.

(** [reset_metadata] succeeds and keeps the headers of packets. *)
Lemma reset_metadata_like T phv : template_ok T → like T phv → ∃ phv', reset_metadata phv = Some phv' ∧ like T phv' ∧
  ∀ k h, get_header phv' k = Some h → ∃ g, get_header phv k = Some g ∧
    (Headers.metadata g = false → h = g) ∧ Headers.metadata h = Headers.metadata g ∧
    (Headers.metadata g = true → Forall (λ f : Fields.Field, Data.value f = 0) (Headers.fields h)).
Proof.
  intros HT HL. unfold reset_metadata.
  assert (∀ fs : list Fields.Field, Forall Fields.wf fs → ∃ fs', mapM (λ f, Fields.set f 0) fs = Some fs' ∧
    Forall Fields.wf fs' ∧ field_shape <$> fs' = field_shape <$> fs ∧ Forall (λ f : Fields.Field, Data.value f = 0) fs') as Hset.
  { induction 1 as [|f fs Hf _ (fs' & E & ? & ? & ?)]; [by exists []|]. cbn [mapM].
    assert (Fields.wf (Fields.with_value f 0)) as Hf1 by (destruct Hf; by constructor).
    destruct (Fields.export_bytes_ok _ Hf1) as (f' & Ef & Hf' & Hv & _). fold (Fields.set f 0) in Ef. rewrite Ef. msimpl. rewrite E. msimpl.
    exists (f' :: fs'). split; [done|]. split; [by constructor|]. split; [cbn; f_equal; [by eapply set_shape|done]|]. constructor; [|done].
    rewrite Hv. apply Fields.exported_id; [done|]. pose proof (Fields.field_range _ Hf1). cbn. cbn in *. lia. }
  set (F := λ h, if Headers.metadata h then Headers.reset h else Some h).
  assert (∀ k h, get_header phv k = Some h → ∃ h', F h = Some h' ∧ fields_wf h' ∧ shape h' = shape h ∧ Headers.metadata h' = Headers.metadata h ∧
    (Headers.metadata h = false → h' = h) ∧ (Headers.metadata h = true → Forall (λ f : Fields.Field, Data.value f = 0) (Headers.fields h'))) as HF.
  { intros k h Hh. destruct (like_shape _ _ HL _ _ Hh) as (Hw & t & Ht & Hs). unfold F. destruct (Headers.metadata h) eqn:Em; [|by exists h].
    assert (Headers.metadata t = true) as Emt by (by rewrite <- (shape_metadata _ _ Hs)).
    unfold Headers.reset. destruct (Hset (Headers.fields h)) as (fs' & -> & Hw' & Hs' & Hv').
    - pose proof (t_metadata _ HT _ _ Ht Emt) as HVt. apply Forall_lookup. intros i f Hf.
      apply (proj1 (Forall_lookup _ _) Hw i f Hf). pose proof (shapes_Forall2 _ _ Hs) as Hfs.
      destruct (Forall2_lookup_l _ _ _ _ _ Hfs Hf) as (g & Hg & Hfg). rewrite (shape_VL _ _ Hfg). exact (Forall_lookup_1 _ _ _ _ HVt Hg).
    - msimpl. eexists. split; [done|]. split; [apply (Forall_impl _ _ _ Hw'); by intros f Hf _|]. split; [|done].
      by apply shape_with_fields. }
  destruct (mapM F (headers phv)) as [hs|] eqn:Em.
  - msimpl. eexists. split; [done|].
    apply (like_map T phv hs (λ k h, ∃ g, get_header phv k = Some g ∧ (Headers.metadata g = false → h = g) ∧ Headers.metadata h = Headers.metadata g ∧
      (Headers.metadata g = true → Forall (λ f : Fields.Field, Data.value f = 0) (Headers.fields h))) F HL Em).
    intros k h h' Hh Hf. destruct (HF k h Hh) as (x & Hx & ? & ? & ? & ? & ?). assert (h' = x) as -> by congruence. split; [done|]. split; [done|]. by exists h.
  - exfalso. assert (is_Some (mapM F (headers phv))) as [? ?]; [|congruence].
    apply mapM_is_Some_2, Forall_lookup. intros i h Hh. destruct (HF (Z.of_nat i) h) as (h' & E & _); [|by exists h'].
    unfold get_header. rewrite vget_nat by lia. by rewrite Nat2Z.id.
Qed.
End like.
End PhvLike.
