(* ===== verification/Packets.v ===== *)
(** * Packets (src/bm_sim/packet.cpp, src/bm_sim/phv_source.cpp, include/bm/bm_sim/packet_buffer.h)

    The buffer of a packet, the numbers of its copies, the pools that its parsed
    headers come from, and the packet with its copies and moves. Each operation
    on a counter or a pool, which other threads share, is one step: it is atomic
    or under a mutex. The memory that [new char\[size\]] gives, the hash of the
    data and the time are parameters. *)

From stdpp Require Import gmap.
From S2P Require Import Prelude Data Fields Headers Phv PhvFactory.
Import (coercions) Fields.

(** ** The buffer: the data is at its end *)
Module PacketBuffer.

Record PacketBuffer := {
  size : Z;
  data_size : Z;
  buffer : list Z;
  head : Z;                     (** from the start of [buffer] *)
}.

Record state_t := { s_head : Z; s_data_size : Z }.

Section buffer.
Variable alloc : Z → list Z.
Implicit Types (b : PacketBuffer) (bytes : Z) (data : list Z).

Definition empty : PacketBuffer := {| size := 0; data_size := 0; buffer := []; head := 0 |}.

Definition new (n : Z) : PacketBuffer := {| size := n; data_size := 0; buffer := alloc n; head := n |}.

Definition start b : list Z := drop (Z.to_nat (head b)) (buffer b).
Definition end_ b : Z := size b.

Definition push b bytes : option PacketBuffer :=
  if u64 (data_size b + bytes) <=? size b then
    Some {| size := size b; data_size := u64 (data_size b + bytes); buffer := buffer b; head := head b - bytes |}
  else None.

Definition pop b bytes : option PacketBuffer :=
  if bytes <=? data_size b then
    Some {| size := size b; data_size := data_size b - bytes; buffer := buffer b; head := head b + bytes |}
  else None.

(** [std::copy(data, data + n, head)] *)
Definition copy_to_head b data : option PacketBuffer :=
  if (0 <=? head b) && (head b + Z.of_nat (length data) <=? Z.of_nat (length (buffer b))) then
    let i := Z.to_nat (head b) in
    Some {| size := size b; data_size := data_size b; head := head b;
            buffer := take i (buffer b) ++ data ++ drop (i + length data) (buffer b) |}
  else None.

Definition of_data (n : Z) data : option PacketBuffer :=
  b ← push (new n) (Z.of_nat (length data)); copy_to_head b data.

Definition save_state b : state_t := {| s_head := head b; s_data_size := data_size b |}.

Definition restore_state b (s : state_t) : PacketBuffer :=
  {| size := size b; data_size := s_data_size s; buffer := buffer b; head := s_head s |}.

(** The last [end_bytes] bytes, in a buffer of the same size. *)
Definition clone b (end_bytes : Z) : option PacketBuffer :=
  if end_bytes <=? data_size b then
    pb ← push (new (size b)) end_bytes;
    copy_to_head pb (drop (Z.to_nat (end_ b - end_bytes)) (buffer b))
  else None.

(** *** The data is what lies between [head] and the end *)

Record ok b : Prop := {
  ok_length : Z.of_nat (length (buffer b)) = size b;
  ok_size : 0 ≤ data_size b ≤ size b;
  ok_head : head b = size b - data_size b;
  ok_word : size b < 2 ^ 64;
}.

Lemma buffer_push_ok b n : ok b → 0 ≤ n → data_size b + n ≤ size b →
  ∃ b', push b n = Some b' ∧ ok b' ∧ data_size b' = data_size b + n ∧ size b' = size b ∧ buffer b' = buffer b.
Proof.
  intros [] ? ?. unfold push. rewrite wrap_small by lia. destruct (Z.leb_spec (data_size b + n) (size b)); [|lia].
  eexists. split; [done|]. split; [constructor; cbn; lia|]. done.
Qed.

Lemma push_refused b n : ok b → 0 ≤ n → size b < data_size b + n < 2 ^ 64 → push b n = None.
Proof.
  intros [] ? ?. unfold push. rewrite wrap_small by lia. by destruct (Z.leb_spec (data_size b + n) (size b)); [lia|].
Qed.

Lemma pop_ok b n : ok b → 0 ≤ n ≤ data_size b →
  ∃ b', pop b n = Some b' ∧ ok b' ∧ start b' = drop (Z.to_nat n) (start b) ∧ data_size b' = data_size b - n.
Proof.
  intros [] ?. unfold pop. destruct (Z.leb_spec n (data_size b)); [|lia]. eexists. split; [done|].
  split; [constructor; cbn; lia|]. split; [|done]. unfold start. cbn. rewrite drop_drop. f_equal. lia.
Qed.

Lemma copy_ok b data : ok b → Z.of_nat (length data) = data_size b →
  ∃ b', copy_to_head b data = Some b' ∧ ok b' ∧ start b' = data ∧ data_size b' = data_size b ∧ size b' = size b.
Proof.
  intros [] Hl. unfold copy_to_head.
  destruct (Z.leb_spec 0 (head b)); [|lia]. destruct (Z.leb_spec (head b + Z.of_nat (length data)) (Z.of_nat (length (buffer b)))); [|lia].
  cbn [andb]. eexists. split; [done|]. assert (length (take (Z.to_nat (head b)) (buffer b)) = Z.to_nat (head b)) as Ht.
  { rewrite length_take. lia. }
  rewrite (drop_ge (buffer b)), app_nil_r by lia.
  split_and!; try done.
  - constructor; cbn; try done. rewrite length_app, Ht. lia.
  - unfold start. cbn. by rewrite drop_app_ge, Ht, Nat.sub_diag, drop_0 by lia.
Qed.

Lemma length_start b : ok b → Z.of_nat (length (start b)) = data_size b.
Proof. intros []. unfold start. rewrite length_drop. lia. Qed.

Hypothesis length_alloc : ∀ n, 0 ≤ n → Z.of_nat (length (alloc n)) = n.

Lemma buffer_new_ok n : 0 ≤ n < 2 ^ 64 → ok (new n).
Proof. intros. constructor; cbn; [apply length_alloc; lia|lia..]. Qed.

Lemma of_data_spec n data : Z.of_nat (length data) ≤ n < 2 ^ 64 →
  ∃ b, of_data n data = Some b ∧ ok b ∧ start b = data ∧ size b = n.
Proof.
  intros. unfold of_data. destruct (buffer_push_ok (new n) (Z.of_nat (length data))) as (b & -> & Hb & Hd & Hs & _);
    [apply buffer_new_ok; lia|lia|cbn; lia|]. msimpl.
  destruct (copy_ok b data Hb) as (b' & -> & ? & ? & _ & ?); [rewrite Hd; cbn; lia|]. exists b'. split_and!; try done. cbn in *. congruence.
Qed.

Lemma clone_spec b n : ok b → 0 ≤ n ≤ data_size b → ∃ b', clone b n = Some b' ∧ ok b' ∧
  start b' = drop (Z.to_nat (data_size b - n)) (start b) ∧ size b' = size b ∧ data_size b' = n.
Proof.
  intros Hb ?. pose proof Hb as []. unfold clone. destruct (Z.leb_spec n (data_size b)); [|lia].
  destruct (buffer_push_ok (new (size b)) n) as (pb & -> & Hpb & Hd & Hs & _); [apply buffer_new_ok; lia|lia|cbn; lia|]. msimpl.
  cbn in Hd, Hs. destruct (copy_ok pb (drop (Z.to_nat (end_ b - n)) (buffer b)) Hpb) as (b' & -> & ? & Hst & Hd' & Hs').
  { rewrite length_drop. unfold end_. lia. }
  exists b'. split_and!; try done; [|congruence|lia]. rewrite Hst. unfold start, end_. rewrite drop_drop. f_equal. lia.
Qed.
End buffer.
End PacketBuffer.

(** ** The numbers of the copies of a packet *)
Module CopyIds.

Record Cntr := { max : Z; num : Z }.       (** [uint16_t] *)
Definition W : Z := 4096.
Abbreviation CopyIdGenerator := (list Cntr).
Implicit Types (arr : CopyIdGenerator) (packet_id : Z).

Definition new : CopyIdGenerator := replicate (Z.to_nat W) {| max := 0; num := 0 |}.

Definition slot packet_id : Z := packet_id mod W.

Definition add_one arr packet_id : option (CopyIdGenerator * Z) :=
  old ← vget arr (slot packet_id);
  let c := {| max := wrap 16 (max old + 1); num := wrap 16 (num old + 1) |} in
  arr ← vset arr (slot packet_id) c;
  Some (arr, max c).

(** One turn of the loop of [remove_one]: [c] is what the turn before tried to
    store, and its [num] stays when there is one copy left. *)
Definition remove_turn (c old : Cntr) : Cntr :=
  if num old =? 0 then {| max := 0; num := num c |} else {| max := max old; num := num old - 1 |}.

(** [seen]: the counters that the turns read whose exchange failed. *)
Definition remove_one arr packet_id (seen : list Cntr) : option CopyIdGenerator :=
  old ← vget arr (slot packet_id);
  vset arr (slot packet_id) (foldl remove_turn {| max := 0; num := 0 |} (seen ++ [old])).

Definition get arr packet_id : option Z := max <$> vget arr (slot packet_id).

Definition reset arr packet_id : option CopyIdGenerator := vset arr (slot packet_id) {| max := 0; num := 0 |}.
End CopyIds.

(** ** Pools of parsed headers, one for each context *)
Module PhvSource.
Import PhvFactory.

Record PHVPool := {
  phvs : list Phv.PHV;                (** those not in use *)
  phv_factory : option PHVFactory;
  count : Z;                          (** of those in use *)
}.
Abbreviation PHVSource := (list PHVPool).
Implicit Types (pool : PHVPool) (src : PHVSource) (phv : Phv.PHV) (cxt : Z).

Definition pool_get `{Gmp} pool : option (PHVPool * Phv.PHV) :=
  let n := u64 (count pool + 1) in
  match last (phvs pool) with
  | None =>
      f ← phv_factory pool; phv ← create f;
      Some ({| phvs := phvs pool; phv_factory := phv_factory pool; count := n |}, phv)
  | Some phv =>
      Some ({| phvs := take (length (phvs pool) - 1) (phvs pool); phv_factory := phv_factory pool; count := n |}, phv)
  end.

Definition pool_release pool phv : PHVPool :=
  {| phvs := phvs pool ++ [phv]; phv_factory := phv_factory pool; count := u64 (count pool - 1) |}.

Definition pool_set_phv_factory pool (f : PHVFactory) : option PHVPool :=
  if count pool =? 0 then Some {| phvs := []; phv_factory := Some f; count := count pool |} else None.

Definition make_phv_source (n : Z) : PHVSource := replicate (Z.to_nat n) {| phvs := []; phv_factory := None; count := 0 |}.

Definition get `{Gmp} src cxt : option (PHVSource * Phv.PHV) :=
  pool ← vget src cxt; '(pool, phv) ← pool_get pool; src ← vset src cxt pool; Some (src, phv).

Definition release src cxt phv : option PHVSource := vupd src cxt (λ pool, pool_release pool phv).

Definition set_phv_factory src cxt (f : PHVFactory) : option PHVSource :=
  pool ← vget src cxt; pool ← pool_set_phv_factory pool f; vset src cxt pool.

Definition phvs_in_use src cxt : option Z := count <$> vget src cxt.
End PhvSource.

(** ** Packets *)
Module Packets.

Definition nb_registers : Z := 2.
Definition INVALID_ENTRY_INDEX : Z := 2 ^ 64 - 1.

Record Packet := {
  cxt_id : Z;
  ingress_port : Z;
  egress_port : Z;
  packet_id : Z;
  copy_id : Z;
  ingress_length : Z;
  flags : Z;
  signature : Z;
  buffer : PacketBuffer.PacketBuffer;
  payload_size : Z;
  truncated_length : Z;
  ingress_ts : Z;                     (** in nanoseconds *)
  ingress_ts_ms : Z;
  phv : option Phv.PHV;               (** [None] once it was moved away *)
  registers : list (option Z);        (** [None]: never written *)
  entry_index : Z;
  error_code : Z;
}.

(** What all packets share: [Packet::copy_id_gen] and [phv_source]. *)
Record World := { copy_id_gen : list CopyIds.Cntr; phv_source : list PhvSource.PHVPool }.

Section packets.
Context `{Gmp}.
Variable alloc : Z → list Z.
Variable XXH64 : list Z → Z → Z.
Variable invalid_code : Z.
Implicit Types (w : World) (pkt : Packet).

Definition with_gen w g : World := {| copy_id_gen := g; phv_source := phv_source w |}.
Definition with_source w s : World := {| copy_id_gen := copy_id_gen w; phv_source := s |}.

Definition set_phv pkt (p : option Phv.PHV) : Packet :=
  {| cxt_id := cxt_id pkt; ingress_port := ingress_port pkt; egress_port := egress_port pkt; packet_id := packet_id pkt;
     copy_id := copy_id pkt; ingress_length := ingress_length pkt; flags := flags pkt; signature := signature pkt;
     buffer := buffer pkt; payload_size := payload_size pkt; truncated_length := truncated_length pkt;
     ingress_ts := ingress_ts pkt; ingress_ts_ms := ingress_ts_ms pkt; phv := p; registers := registers pkt;
     entry_index := entry_index pkt; error_code := error_code pkt |}.

(** The constructor, at time [now]. *)
Definition new w (now cxt port id copy length_ : Z) (b : PacketBuffer.PacketBuffer) : option (World * Packet) :=
  '(src, p) ← PhvSource.get (phv_source w) cxt;
  Some (with_source w src,
    {| cxt_id := cxt; ingress_port := port; egress_port := -1; packet_id := id; copy_id := copy; ingress_length := length_;
       flags := 0; signature := XXH64 (PacketBuffer.start b) 0; buffer := b; payload_size := 0;
       truncated_length := 2 ^ 64 - 1; ingress_ts := now; ingress_ts_ms := u64 (Z.quot now 1000000); phv := Some p;
       registers := replicate (Z.to_nat nb_registers) None; entry_index := INVALID_ENTRY_INDEX; error_code := invalid_code |}).

(** The parsed headers go back to the pool [cxt] reset. *)
Definition give_back w (cxt : Z) (p : Phv.PHV) : option World :=
  p ← Phv.reset p;
  src ← PhvSource.release (phv_source w) cxt (Phv.reset_header_stacks p);
  Some (with_source w src).

Definition destroy w pkt (seen : list CopyIds.Cntr) : option World :=
  match phv pkt with
  | None => Some w
  | Some p =>
      g ← CopyIds.remove_one (copy_id_gen w) (packet_id pkt) seen;
      give_back (with_gen w g) (cxt_id pkt) p
  end.

Definition set_context pkt (cxt : Z) (p : Phv.PHV) : Packet :=
  let pkt := set_phv pkt (Some p) in
  {| cxt_id := cxt; ingress_port := ingress_port pkt; egress_port := egress_port pkt; packet_id := packet_id pkt;
     copy_id := copy_id pkt; ingress_length := ingress_length pkt; flags := flags pkt; signature := signature pkt;
     buffer := buffer pkt; payload_size := payload_size pkt; truncated_length := truncated_length pkt;
     ingress_ts := ingress_ts pkt; ingress_ts_ms := ingress_ts_ms pkt; phv := phv pkt; registers := registers pkt;
     entry_index := entry_index pkt; error_code := error_code pkt |}.

Definition change_context w pkt (new_cxt : Z) : option (World * Packet) :=
  if cxt_id pkt =? new_cxt then Some (w, pkt) else
  p ← phv pkt;
  w ← give_back w (cxt_id pkt) p;
  '(src, p) ← PhvSource.get (phv_source w) new_cxt;
  Some (with_source w src, set_context pkt new_cxt p).

(** *** Copies *)

Definition clone_choose_context w (now : Z) pkt (new_cxt : Z) : option (World * Packet) :=
  '(g, new_copy_id) ← CopyIds.add_one (copy_id_gen w) (packet_id pkt);
  b ← PacketBuffer.clone alloc (buffer pkt) (PacketBuffer.data_size (buffer pkt));
  new (with_gen w g) now new_cxt (ingress_port pkt) (packet_id pkt) new_copy_id (ingress_length pkt) b.

Definition clone_no_phv w (now : Z) pkt : option (World * Packet) := clone_choose_context w now pkt (cxt_id pkt).

Definition clone_with_phv w (now : Z) pkt : option (World * Packet) :=
  '(w, c) ← clone_choose_context w now pkt (cxt_id pkt);
  p ← phv c; src ← phv pkt;
  p ← Phv.copy_headers p src;
  Some (w, set_phv c (Some p)).

Definition clone_with_phv_reset_metadata w (now : Z) pkt : option (World * Packet) :=
  '(w, c) ← clone_choose_context w now pkt (cxt_id pkt);
  p ← phv c; src ← phv pkt;
  p ← Phv.copy_headers p src;
  p ← Phv.reset_metadata p;
  Some (w, set_phv c (Some p)).

(** *** Moves *)

Definition moved other : Packet :=
  {| cxt_id := cxt_id other; ingress_port := ingress_port other; egress_port := egress_port other;
     packet_id := packet_id other; copy_id := copy_id other; ingress_length := ingress_length other; flags := 0;
     signature := signature other; buffer := buffer other; payload_size := payload_size other;
     truncated_length := 2 ^ 64 - 1; ingress_ts := ingress_ts other; ingress_ts_ms := ingress_ts_ms other;
     phv := phv other; registers := registers other; entry_index := INVALID_ENTRY_INDEX; error_code := invalid_code |}.

(** The new packet, and what is left of the old one. *)
Definition move other : Packet * Packet := (moved other, set_phv other None).

(** [pkt = std::move(other)] swaps the buffers and the parsed headers. *)
Definition move_assign pkt other : Packet * Packet :=
  ({| cxt_id := cxt_id other; ingress_port := ingress_port other; egress_port := egress_port other;
      packet_id := packet_id other; copy_id := copy_id other; ingress_length := ingress_length other; flags := flags pkt;
      signature := signature other; buffer := buffer other; payload_size := payload_size other;
      truncated_length := truncated_length pkt; ingress_ts := ingress_ts other; ingress_ts_ms := ingress_ts_ms other;
      phv := phv other; registers := registers other; entry_index := entry_index pkt; error_code := error_code pkt |},
   {| cxt_id := cxt_id other; ingress_port := ingress_port other; egress_port := egress_port other;
      packet_id := packet_id other; copy_id := copy_id other; ingress_length := ingress_length other; flags := flags other;
      signature := signature other; buffer := buffer pkt; payload_size := payload_size other;
      truncated_length := truncated_length other; ingress_ts := ingress_ts other; ingress_ts_ms := ingress_ts_ms other;
      phv := phv pkt; registers := registers other; entry_index := entry_index other; error_code := error_code other |}).

(** *** Accessors *)

Definition get_data_size pkt : Z := Z.min (PacketBuffer.data_size (buffer pkt)) (truncated_length pkt).

Definition truncate pkt (length_ : Z) : Packet :=
  {| cxt_id := cxt_id pkt; ingress_port := ingress_port pkt; egress_port := egress_port pkt; packet_id := packet_id pkt;
     copy_id := copy_id pkt; ingress_length := ingress_length pkt; flags := flags pkt; signature := signature pkt;
     buffer := buffer pkt; payload_size := payload_size pkt; truncated_length := Z.min length_ (truncated_length pkt);
     ingress_ts := ingress_ts pkt; ingress_ts_ms := ingress_ts_ms pkt; phv := phv pkt; registers := registers pkt;
     entry_index := entry_index pkt; error_code := error_code pkt |}.

Definition with_buffer pkt b : Packet :=
  {| cxt_id := cxt_id pkt; ingress_port := ingress_port pkt; egress_port := egress_port pkt; packet_id := packet_id pkt;
     copy_id := copy_id pkt; ingress_length := ingress_length pkt; flags := flags pkt; signature := signature pkt;
     buffer := b; payload_size := payload_size pkt; truncated_length := truncated_length pkt;
     ingress_ts := ingress_ts pkt; ingress_ts_ms := ingress_ts_ms pkt; phv := phv pkt; registers := registers pkt;
     entry_index := entry_index pkt; error_code := error_code pkt |}.

Definition save_buffer_state pkt : PacketBuffer.state_t := PacketBuffer.save_state (buffer pkt).
Definition restore_buffer_state pkt (s : PacketBuffer.state_t) : Packet := with_buffer pkt (PacketBuffer.restore_state (buffer pkt) s).

Definition set_egress_port pkt (port : Z) : Packet :=
  {| cxt_id := cxt_id pkt; ingress_port := ingress_port pkt; egress_port := port; packet_id := packet_id pkt;
     copy_id := copy_id pkt; ingress_length := ingress_length pkt; flags := flags pkt; signature := signature pkt;
     buffer := buffer pkt; payload_size := payload_size pkt; truncated_length := truncated_length pkt;
     ingress_ts := ingress_ts pkt; ingress_ts_ms := ingress_ts_ms pkt; phv := phv pkt; registers := registers pkt;
     entry_index := entry_index pkt; error_code := error_code pkt |}.

Definition prepend pkt (bytes : Z) : option Packet := b ← PacketBuffer.push (buffer pkt) bytes; Some (with_buffer pkt b).

Definition remove pkt (bytes : Z) : option Packet :=
  if u64 (payload_size pkt + bytes) <=? PacketBuffer.data_size (buffer pkt) then
    b ← PacketBuffer.pop (buffer pkt) bytes; Some (with_buffer pkt b)
  else None.

Definition with_flags pkt (f : Z) : Packet :=
  {| cxt_id := cxt_id pkt; ingress_port := ingress_port pkt; egress_port := egress_port pkt; packet_id := packet_id pkt;
     copy_id := copy_id pkt; ingress_length := ingress_length pkt; flags := f; signature := signature pkt;
     buffer := buffer pkt; payload_size := payload_size pkt; truncated_length := truncated_length pkt;
     ingress_ts := ingress_ts pkt; ingress_ts_ms := ingress_ts_ms pkt; phv := phv pkt; registers := registers pkt;
     entry_index := entry_index pkt; error_code := error_code pkt |}.

Definition FLAGS_EXIT : Z := 0.
Definition mark_for_exit pkt : Packet := with_flags pkt (Z.lor (flags pkt) (Z.shiftl 1 FLAGS_EXIT)).
Definition reset_exit pkt : Packet := with_flags pkt (Z.land (flags pkt) (Z.lnot (Z.shiftl 1 FLAGS_EXIT))).
Definition is_marked_for_exit pkt : bool := negb (Z.land (flags pkt) (Z.shiftl 1 FLAGS_EXIT) =? 0).

Definition set_register pkt (idx v : Z) : option Packet :=
  rs ← vset (registers pkt) idx (Some v);
  Some {| cxt_id := cxt_id pkt; ingress_port := ingress_port pkt; egress_port := egress_port pkt; packet_id := packet_id pkt;
     copy_id := copy_id pkt; ingress_length := ingress_length pkt; flags := flags pkt; signature := signature pkt;
     buffer := buffer pkt; payload_size := payload_size pkt; truncated_length := truncated_length pkt;
     ingress_ts := ingress_ts pkt; ingress_ts_ms := ingress_ts_ms pkt; phv := phv pkt; registers := rs;
     entry_index := entry_index pkt; error_code := error_code pkt |}.

Definition get_register pkt (idx : Z) : option Z := r ← vget (registers pkt) idx; r.
End packets.
End Packets.
