(* ===== verification/PacketsSpec.v ===== *)
(** * What packets keep of their pools and numbers

    As packets come, are copied, moved, used and destroyed, the pools count the
    parsed headers in use, and the live copies of a packet have different numbers,
    while no two packets share a counter of copies. *)

From stdpp Require Import gmap.
From S2P Require Import Prelude Data Fields Headers Phv PhvFactory PhvLike Packets.
Import (coercions) Fields.

Module PacketsSpec.
Import Packets.

(** ** Counters and pools *)

Definition cntr_ok (c : CopyIds.Cntr) : Prop := 0 ≤ CopyIds.max c < 2 ^ 16 ∧ 0 ≤ CopyIds.num c < 2 ^ 16.

Definition room (c : CopyIds.Cntr) : Prop := CopyIds.max c < 2 ^ 16 - 1 ∧ CopyIds.num c < 2 ^ 16 - 1.

Lemma remove_turns seen old : Forall cntr_ok seen → cntr_ok old →
  cntr_ok (foldl CopyIds.remove_turn {| CopyIds.max := 0; CopyIds.num := 0 |} (seen ++ [old])) ∧
  let c := foldl CopyIds.remove_turn {| CopyIds.max := 0; CopyIds.num := 0 |} (seen ++ [old]) in
  (CopyIds.num old = 0 ∨ CopyIds.max c = CopyIds.max old ∧ CopyIds.num c = CopyIds.num old - 1).
Proof.
  intros Hs Ho. assert (∀ c, cntr_ok c → cntr_ok (foldl CopyIds.remove_turn c seen)) as Hf.
  { induction Hs as [|o seen [] _ IH]; intros c [Hm Hn]; [done|]. cbn. apply IH. unfold CopyIds.remove_turn.
    destruct (Z.eqb_spec (CopyIds.num o) 0); split; cbn; lia. }
  rewrite foldl_app. cbn. set (c := foldl _ _ seen). assert (cntr_ok c) as [? ?] by (apply Hf; split; cbn; lia).
  destruct Ho. unfold CopyIds.remove_turn. destruct (Z.eqb_spec (CopyIds.num old) 0); [split; [split; cbn; lia|by left]|].
  split; [split; cbn; lia|by right].
Qed.

Section spec.
Context `{GmpLaws}.
Context (alloc : Z → list Z) (length_alloc : ∀ n, 0 ≤ n → Z.of_nat (length (alloc n)) = n).
Context (XXH64 : list Z → Z → Z) (invalid_code : Z).
(** What the factory of each context makes. *)
Context (Ts : list Phv.PHV) (Ts_ok : Forall PhvLike.template_ok Ts).
Implicit Types (pkt : Packet) (a i c : Z).

(** Parsed headers that are not in use. *)
Definition idle (T p : Phv.PHV) : Prop :=
  PhvLike.like T p ∧ ∀ k h, Phv.get_header p k = Some h → Headers.valid h = false.

Record pool_ok (T : Phv.PHV) (pool : PhvSource.PHVPool) : Prop := {
  pool_factory : ∃ f, PhvSource.phv_factory pool = Some f ∧ PhvFactory.create f = Some T;
  pool_idle : Forall (idle T) (PhvSource.phvs pool);
  pool_fresh : idle T T;
}.

Lemma pool_get_ok T pool : pool_ok T pool → 0 ≤ PhvSource.count pool < 2 ^ 64 - 1 → ∃ pool' p,
  PhvSource.pool_get pool = Some (pool', p) ∧ pool_ok T pool' ∧ idle T p ∧ PhvSource.count pool' = PhvSource.count pool + 1.
Proof.
  intros [(f & Hf & HT) Hi HTi] Hc. unfold PhvSource.pool_get. rewrite wrap_small by lia.
  destruct (last (PhvSource.phvs pool)) as [p|] eqn:El.
  - eexists _, p. split; [done|]. split; [constructor; cbn|split; [|done]]; [by exists f|by apply Forall_take|done|].
    rewrite last_lookup in El. exact (Forall_lookup_1 _ _ _ _ Hi El).
  - rewrite Hf. msimpl. rewrite HT. msimpl. eexists _, T. split; [done|]. split; [constructor; cbn|done]; [by exists f|done|done].
Qed.

(** ** A system of packets *)

Record sys := { world : World; live : gmap Z Packet }.      (** by address *)

Inductive kind := WithPhv | ResetMetadata | NoPhv (new_cxt : Z).

Inductive label :=
| Receive (a now cxt port id length_ : Z) (b : PacketBuffer.PacketBuffer)
| Clone (k : kind) (a from now : Z)
| ChangeContext (a cxt : Z)
| Move (a from : Z)
| Use (a : Z) (pkt : Packet)              (** anything that the target does with a packet *)
| Destroy (a : Z) (seen : list CopyIds.Cntr).

Definition clone (k : kind) (w : World) (now : Z) pkt : option (World * Packet) :=
  match k with
  | WithPhv => clone_with_phv alloc XXH64 invalid_code w now pkt
  | ResetMetadata => clone_with_phv_reset_metadata alloc XXH64 invalid_code w now pkt
  | NoPhv cxt => clone_choose_context alloc XXH64 invalid_code w now pkt cxt
  end.

Definition step (s : sys) (l : label) : option sys :=
  match l with
  | Receive a now cxt port id len b =>
      '(w, pkt) ← new XXH64 invalid_code (world s) now cxt port id 0 len b; Some {| world := w; live := <[a := pkt]> (live s) |}
  | Clone k a from now =>
      pkt ← live s !! from; '(w, c) ← clone k (world s) now pkt; Some {| world := w; live := <[a := c]> (live s) |}
  | ChangeContext a cxt =>
      pkt ← live s !! a; '(w, pkt) ← change_context (world s) pkt cxt; Some {| world := w; live := <[a := pkt]> (live s) |}
  | Move a from =>
      other ← live s !! from; let '(pkt, other) := move invalid_code other in
      Some {| world := world s; live := <[a := pkt]> (<[from := other]> (live s)) |}
  | Use a pkt => Some {| world := world s; live := <[a := pkt]> (live s) |}
  | Destroy a seen => pkt ← live s !! a; w ← destroy (world s) pkt seen; Some {| world := w; live := delete a (live s) |}
  end.

(** A packet that was not moved away. *)
Definition whole pkt : Prop := is_Some (phv pkt).
#[global] Instance whole_dec pkt : Decision (whole pkt).
Proof. unfold whole. apply _. Defined.

Definition in_slot i pkt : Prop := whole pkt ∧ CopyIds.slot (packet_id pkt) = i.
Definition in_context c pkt : Prop := whole pkt ∧ cxt_id pkt = c.
#[global] Instance in_slot_dec i pkt : Decision (in_slot i pkt).
Proof. unfold in_slot. apply _. Defined.
#[global] Instance in_context_dec c pkt : Decision (in_context c pkt).
Proof. unfold in_context. apply _. Defined.

Definition packet_ok pkt : Prop :=
  whole pkt → PacketBuffer.ok (buffer pkt) ∧ ∃ T p, vget Ts (cxt_id pkt) = Some T ∧ phv pkt = Some p ∧ PhvLike.like T p.

(** Each pool has [C c] of its parsed headers in use. *)
Definition pools_ok (src : list PhvSource.PHVPool) (C : Z → Z) : Prop :=
  (∀ c, is_Some (vget src c) ↔ is_Some (vget Ts c)) ∧
  ∀ c T pool, vget Ts c = Some T → vget src c = Some pool → pool_ok T pool ∧ PhvSource.count pool = C c.

(** The counters cover the live packets, and the numbers of those differ. *)
Record ids_ok (gen : list CopyIds.Cntr) (ps : gmap Z Packet) : Prop := {
  ids_slots : ∀ i, is_Some (vget gen i) ↔ 0 ≤ i < CopyIds.W;
  ids_count : ∀ i cn, vget gen i = Some cn → cntr_ok cn ∧ count_of (in_slot i) ps ≤ CopyIds.num cn + 1;
  ids_max : ∀ i cn a pkt, vget gen i = Some cn → ps !! a = Some pkt → in_slot i pkt → 0 ≤ copy_id pkt ≤ CopyIds.max cn;
  ids_distinct : ∀ a b pa pb i, ps !! a = Some pa → ps !! b = Some pb → a ≠ b → in_slot i pa → in_slot i pb →
    copy_id pa ≠ copy_id pb;
}.

Record inv (s : sys) : Prop := {
  inv_packets : ∀ a pkt, live s !! a = Some pkt → packet_ok pkt;
  inv_pools : pools_ok (phv_source (world s)) (λ c, count_of (in_context c) (live s));
  inv_ids : ids_ok (copy_id_gen (world s)) (live s);
}.

(** What the program keeps to: a packet comes when no other uses its counter,
    counters have room for a copy, and there are fewer than 2^64 packets. *)
Definition allowed (s : sys) (l : label) : Prop :=
  Z.of_nat (size (live s)) < 2 ^ 64 - 1 ∧
  match l with
  | Receive a _ cxt _ id _ b => live s !! a = None ∧ is_Some (vget Ts cxt) ∧ PacketBuffer.ok b ∧
      ∀ a' pkt, live s !! a' = Some pkt → ¬ in_slot (CopyIds.slot id) pkt
  | Clone k a from _ => live s !! a = None ∧ (match k with NoPhv c => is_Some (vget Ts c) | _ => True end) ∧
      ∃ pkt cn, live s !! from = Some pkt ∧ whole pkt ∧
        vget (copy_id_gen (world s)) (CopyIds.slot (packet_id pkt)) = Some cn ∧ room cn
  | ChangeContext a cxt => is_Some (vget Ts cxt) ∧ ∃ pkt, live s !! a = Some pkt ∧ whole pkt
  | Move a from => live s !! a = None ∧ is_Some (live s !! from)
  | Use a pkt => packet_ok pkt ∧ ∃ pkt0, live s !! a = Some pkt0 ∧ (whole pkt ↔ whole pkt0) ∧
      packet_id pkt = packet_id pkt0 ∧ copy_id pkt = copy_id pkt0 ∧ cxt_id pkt = cxt_id pkt0
  | Destroy a seen => is_Some (live s !! a) ∧ Forall cntr_ok seen
  end.

(** ** Pools *)

Lemma pools_ext src C C' : pools_ok src C → (∀ c, C c = C' c) → pools_ok src C'.
Proof. intros [H1 H2] HC. split; [done|]. intros c T pool HT Hp. rewrite <- HC. by apply H2. Qed.

Lemma pools_set src C c pool pool' n : pools_ok src C → vget src c = Some pool →
  (∀ T, vget Ts c = Some T → pool_ok T pool') → PhvSource.count pool' = C c + n →
  ∃ src', vset src c pool' = Some src' ∧ pools_ok src' (λ c', C c' + (if decide (c' = c) then n else 0)).
Proof.
  intros [H1 H2] Hp Hok Hn. pose proof (vget_Some_range _ _ _ Hp). rewrite vset_Some by done. eexists. split; [done|].
  assert (∀ j, vget (<[Z.to_nat c:=pool']> src) j = if decide (j = c) then Some pool' else vget src j) as Hg
    by (intros j; by apply vget_vset, vset_Some).
  split.
  - intros j. rewrite Hg, <- H1. case_decide; [subst; rewrite Hp|done]. split; eauto.
  - intros j T q HT. rewrite Hg. case_decide; [intros [= <-]; subst; auto|]. rewrite Z.add_0_r. by apply H2.
Qed.

Lemma get_ok src C c : pools_ok src C → is_Some (vget Ts c) → 0 ≤ C c < 2 ^ 64 - 1 →
  ∃ T src' p, vget Ts c = Some T ∧ PhvSource.get src c = Some (src', p) ∧ idle T p ∧
    pools_ok src' (λ c', C c' + (if decide (c' = c) then 1 else 0)).
Proof.
  intros Hs [T HT] HC. pose proof Hs as [H1 H2]. destruct (proj2 (H1 c)) as [pool Hp]; [eauto|].
  destruct (H2 _ _ _ HT Hp) as [Hok Hc]. unfold PhvSource.get. rewrite Hp. msimpl.
  destruct (pool_get_ok T pool Hok) as (pool' & p & -> & Hok' & Hi & Hc'); [by rewrite Hc|]. msimpl.
  destruct (pools_set src C c pool pool' 1 Hs Hp) as (src' & -> & Hs'); [by intros; simplify_eq|lia|].
  exists T, src', p. done.
Qed.

Lemma give_back_ok w C c T p : pools_ok (phv_source w) C → vget Ts c = Some T → PhvLike.like T p → 1 ≤ C c < 2 ^ 64 →
  ∃ w', give_back w c p = Some w' ∧ copy_id_gen w' = copy_id_gen w ∧
    pools_ok (phv_source w') (λ c', C c' + (if decide (c' = c) then -1 else 0)).
Proof.
  intros Hs HT HL HC. pose proof Hs as [H1 H2]. destruct (proj2 (H1 c)) as [pool Hp]; [eauto|].
  destruct (H2 _ _ _ HT Hp) as [[Hf Hi Hfr] Hc]. unfold give_back.
  assert (PhvLike.template_ok T) as HTok.
  { pose proof (vget_Some_range _ _ _ HT). rewrite vget_nat in HT by lia. exact (Forall_lookup_1 _ _ _ _ Ts_ok HT). }
  destruct (PhvLike.reset_like T p HTok HL) as (p' & -> & HL' & Hv). msimpl.
  unfold PhvSource.release, vupd. rewrite Hp. msimpl.
  destruct (pools_set (phv_source w) C c pool (PhvSource.pool_release pool (Phv.reset_header_stacks p')) (-1) Hs Hp) as (src' & -> & Hs').
  - intros T' HT'. simplify_eq. constructor; [done| |done]. apply Forall_app. split; [done|]. constructor; [|done].
    split; [by apply PhvLike.reset_header_stacks_like|]. exact Hv.
  - cbn. rewrite wrap_small; lia.
  - msimpl. eexists. split; [done|]. done.
Qed.

(** A new packet, whose number was counted already. *)
Lemma new_packet_ok w C now cxt port id copy len b : pools_ok (phv_source w) C → is_Some (vget Ts cxt) → 0 ≤ C cxt < 2 ^ 64 - 1 →
  PacketBuffer.ok b → ∃ T w' p pkt, vget Ts cxt = Some T ∧ new XXH64 invalid_code w now cxt port id copy len b = Some (w', pkt) ∧
    copy_id_gen w' = copy_id_gen w ∧ pools_ok (phv_source w') (λ c', C c' + (if decide (c' = cxt) then 1 else 0)) ∧
    phv pkt = Some p ∧ idle T p ∧ packet_id pkt = id ∧ copy_id pkt = copy ∧ cxt_id pkt = cxt ∧ buffer pkt = b ∧ packet_ok pkt ∧
    (ingress_port pkt = port ∧ ingress_length pkt = len ∧ truncated_length pkt = 2 ^ 64 - 1 ∧ flags pkt = 0 ∧
     entry_index pkt = INVALID_ENTRY_INDEX ∧ error_code pkt = invalid_code).
Proof.
  intros Hs Hc HC Hb. destruct (get_ok _ _ _ Hs Hc HC) as (T & src' & p & HT & Hg & Hi & Hs'). unfold new. rewrite Hg. msimpl.
  eexists T, _, p, _. split; [done|]. split; [done|]. do 2 (split; [done|]). split; [done|]. split; [done|]. do 4 (split; [done|]).
  split; [|done]. intros _. split; [done|]. exists T, p. split; [done|]. split; [done|]. by destruct Hi.
Qed.

(** ** Numbers *)

Lemma slot_range id : 0 ≤ CopyIds.slot id < CopyIds.W.
Proof. apply Z.mod_pos_bound. done. Qed.

(** A packet that takes the place of one with the same number. *)
Lemma ids_update gen ps a p0 p : ids_ok gen ps → ps !! a = Some p0 → (whole p ↔ whole p0) → packet_id p = packet_id p0 →
  copy_id p = copy_id p0 → ids_ok gen (<[a := p]> ps).
Proof.
  intros [I1 I2 I3 I4] Ha Hw Hi Hc. assert (∀ i, in_slot i p ↔ in_slot i p0) as Hin by (intros i; unfold in_slot; by rewrite Hw, Hi).
  assert (∀ b q, <[a := p]> ps !! b = Some q → ∃ q0, ps !! b = Some q0 ∧ (∀ i, in_slot i q → in_slot i q0) ∧ copy_id q = copy_id q0) as Hget.
  { intros b q [[<- <-]|[Hne Hb]]%lookup_insert_Some; [exists p0; split; [done|]; split; [intros i; apply Hin|done]|by exists q]. }
  split; [done|..].
  - intros i cn Hcn. rewrite (count_update _ _ _ _ _ Ha), (decide_ext (in_slot i p) (in_slot i p0)) by done.
    destruct (I2 _ _ Hcn). split; [done|lia].
  - intros i cn b q Hcn (q0 & Hb & Hq & ->)%Hget Hs. by eapply I3; [..|apply Hq].
  - intros b d pb pd i (b0 & Hb & Hbs & ->)%Hget (d0 & Hd & Hds & ->)%Hget Hne ? ?. by eapply I4; [exact Hb|exact Hd|done|apply Hbs|apply Hds].
Qed.

(** A fresh packet with number 0, where none uses its counter. *)
Lemma ids_receive gen ps a p : ids_ok gen ps → ps !! a = None → copy_id p = 0 →
  (∀ b q, ps !! b = Some q → ¬ in_slot (CopyIds.slot (packet_id p)) q) → ids_ok gen (<[a := p]> ps).
Proof.
  intros [I1 I2 I3 I4] Ha Hc Hfree. split; [done|..].
  - intros i cn Hcn. destruct (I2 _ _ Hcn) as [[Hm Hn] Hle]. split; [done|]. rewrite count_insert by done.
    destruct (decide (in_slot i p)) as [[_ <-]|]; [|lia]. rewrite count_none by done. lia.
  - intros i cn b q Hcn [[<- <-]|[_ Hb]]%lookup_insert_Some Hs; [|by eapply I3]. destruct (I2 _ _ Hcn) as [[] _]. lia.
  - intros b d pb pd i Hb Hd Hne Hsb Hsd. apply lookup_insert_Some in Hb as [[<- <-]|[_ Hb]]; apply lookup_insert_Some in Hd as [[<- <-]|[_ Hd]].
    + done.
    + destruct Hsb as [_ <-]. by destruct (Hfree _ _ Hd).
    + destruct Hsd as [_ <-]. by destruct (Hfree _ _ Hb).
    + by eapply I4.
Qed.

Lemma add_one_ok gen ps from p0 : ids_ok gen ps → ps !! from = Some p0 → whole p0 →
  ∀ cn, vget gen (CopyIds.slot (packet_id p0)) = Some cn → room cn →
  ∃ gen' n, CopyIds.add_one gen (packet_id p0) = Some (gen', n) ∧
    (∀ b q, ps !! b = Some q → in_slot (CopyIds.slot (packet_id p0)) q → copy_id q < n) ∧
    ∀ a p, ps !! a = None → packet_id p = packet_id p0 → copy_id p = n → ids_ok gen' (<[a := p]> ps).
Proof.
  intros [I1 I2 I3 I4] Hp0 Hw cn Hcn [Hmax Hnum]. set (j := CopyIds.slot (packet_id p0)) in *.
  destruct (I2 _ _ Hcn) as [[Hm Hn] Hle]. unfold CopyIds.add_one. fold j. rewrite Hcn. msimpl. rewrite !wrap_small by lia.
  pose proof (vget_Some_range _ _ _ Hcn) as Hr. rewrite vset_Some by done. msimpl.
  set (c' := CopyIds.Build_Cntr (CopyIds.max cn + 1) (CopyIds.num cn + 1)).
  assert (∀ i, vget (<[Z.to_nat j:=c']> gen) i = if decide (i = j) then Some c' else vget gen i) as Hg
    by (intros i; by apply vget_vset, vset_Some).
  eexists _, _. split; [done|]. split.
  { intros b q Hb Hs. cbn. pose proof (I3 _ _ _ _ Hcn Hb Hs). lia. }
  intros a p Ha Hi Hc. cbn in Hc. split.
  - intros i. rewrite Hg, <- I1. case_decide; [subst; rewrite Hcn|done]. split; eauto.
  - intros i cn1. rewrite Hg, count_insert by done. case_decide as Hij.
    + intros [= <-]. rewrite Hij. split; [split; cbn; lia|]. cbn. case_decide; lia.
    + intros Hcn1. destruct (I2 _ _ Hcn1). rewrite decide_False; [by rewrite Z.add_0_r|].
      intros [_ Hsl]. apply Hij. rewrite <- Hsl, Hi. done.
  - intros i cn1 b q. rewrite Hg. intros Hcn1 [[<- <-]|[_ Hb]]%lookup_insert_Some Hs.
    + destruct Hs as [_ Hs]. rewrite Hi in Hs. fold j in Hs. subst i. rewrite decide_True in Hcn1 by done. injection Hcn1 as <-. cbn. lia.
    + case_decide as Hij; [|by eapply I3]. injection Hcn1 as <-. rewrite Hij in Hs. pose proof (I3 _ _ _ _ Hcn Hb Hs). cbn. lia.
  - assert (∀ b q i, ps !! b = Some q → in_slot i p → in_slot i q → copy_id q ≠ copy_id p) as Hnew.
    { intros b q i Hb [_ Hs] Hq. rewrite Hi in Hs. fold j in Hs. subst i. pose proof (I3 _ _ _ _ Hcn Hb Hq). lia. }
    intros b d pb pd i Hb Hd Hne Hsb Hsd. apply lookup_insert_Some in Hb as [[<- <-]|[_ Hb]]; apply lookup_insert_Some in Hd as [[<- <-]|[_ Hd]].
    + done.
    + apply not_eq_sym. by eapply Hnew.
    + by eapply Hnew.
    + by eapply I4.
Qed.

Lemma remove_one_ok gen ps a p seen : ids_ok gen ps → ps !! a = Some p → whole p → Forall cntr_ok seen →
  ∃ gen', CopyIds.remove_one gen (packet_id p) seen = Some gen' ∧ ids_ok gen' (delete a ps).
Proof.
  intros [I1 I2 I3 I4] Ha Hw Hseen. unfold CopyIds.remove_one. set (j := CopyIds.slot (packet_id p)) in *.
  destruct (proj2 (I1 j)) as [cn Hcn]; [apply slot_range|]. rewrite Hcn. msimpl. destruct (I2 _ _ Hcn) as [Hok Hle].
  destruct (remove_turns seen cn Hseen Hok) as [Hok' Hnum]. set (c' := foldl _ _ _) in *.
  pose proof (vget_Some_range _ _ _ Hcn) as Hr. rewrite vset_Some by done. eexists. split; [done|].
  assert (∀ i, vget (<[Z.to_nat j:=c']> gen) i = if decide (i = j) then Some c' else vget gen i) as Hg
    by (intros i; by apply vget_vset, vset_Some).
  assert (∀ i, count_of (in_slot i) ps = count_of (in_slot i) (delete a ps) + (if decide (i = j) then 1 else 0)) as Hcount.
  { intros i. rewrite (count_delete _ _ _ _ Ha). f_equal. apply decide_ext. unfold in_slot. fold j. split; [by intros [_ <-]|by intros ->]. }
  assert (CopyIds.num cn = 0 → ∀ b q, delete a ps !! b = Some q → ¬ in_slot j q) as Hnone.
  { intros Hz b q Hb Hs. pose proof (count_pos (in_slot j) _ _ _ Hb Hs). rewrite (Hcount j), decide_True in Hle by done. lia. }
  split.
  - intros i. rewrite Hg, <- I1. case_decide; [subst; rewrite Hcn|done]. split; eauto.
  - intros i cn1. rewrite Hg. case_decide as Hij.
    + intros [= <-]. subst i. split; [done|]. rewrite Hcount, decide_True in Hle by done.
      destruct Hok' as [_ [? _]]. destruct Hnum as [Hz|[_ Hn]]; [|cbn in Hn; lia]. cbn in *. lia.
    + intros Hcn1. destruct (I2 _ _ Hcn1) as [? Hle1]. rewrite Hcount, decide_False in Hle1 by done. split; [done|lia].
  - intros i cn1 b q. rewrite Hg. intros Hcn1 Hb Hs. pose proof Hb as [_ Hb']%lookup_delete_Some.
    case_decide as Hij; [|by eapply I3]. injection Hcn1 as <-. subst i. destruct Hnum as [Hz|[Hmx _]].
    + by destruct (Hnone Hz _ _ Hb).
    + cbn in Hmx. rewrite Hmx. by eapply I3.
  - intros b d pb pd i [_ Hb]%lookup_delete_Some [_ Hd]%lookup_delete_Some. by eapply I4.
Qed.

Lemma ids_delete_moved gen ps a p : ids_ok gen ps → ps !! a = Some p → ¬ whole p → ids_ok gen (delete a ps).
Proof.
  intros [I1 I2 I3 I4] Ha Hw. split; [done|..].
  - intros i cn Hcn. destruct (I2 _ _ Hcn) as [? Hle]. rewrite (count_delete _ _ _ _ Ha), decide_False in Hle by (by intros []).
    split; [done|lia].
  - intros i cn b q Hcn [_ Hb]%lookup_delete_Some. by eapply I3.
  - intros b d pb pd i [_ Hb]%lookup_delete_Some [_ Hd]%lookup_delete_Some. by eapply I4.
Qed.

(** A packet that moves to a fresh address. *)
Lemma ids_move gen ps a from other p rest : ids_ok gen ps → ps !! a = None → ps !! from = Some other → (whole p ↔ whole other) →
  packet_id p = packet_id other → copy_id p = copy_id other → ¬ whole rest → ids_ok gen (<[a := p]> (<[from := rest]> ps)).
Proof.
  intros [I1 I2 I3 I4] Ha Hf Hw Hi Hc Hrest. assert (∀ i, in_slot i p ↔ in_slot i other) as Hin by (intros i; unfold in_slot; by rewrite Hw, Hi).
  assert (a ≠ from) as Hne by congruence.
  set (old := λ b, if decide (b = a) then from else b).
  assert (∀ b q i, <[a := p]> (<[from := rest]> ps) !! b = Some q → in_slot i q →
    ∃ q0, ps !! (old b) = Some q0 ∧ in_slot i q0 ∧ copy_id q = copy_id q0 ∧ b ≠ from) as Hget.
  { intros b q i [[<- <-]|[Hba [[<- <-]|[Hbf Hb]]%lookup_insert_Some]]%lookup_insert_Some Hs; unfold old.
    - rewrite decide_True by done. exists other. split; [done|]. split; [by apply Hin|]. by split.
    - by destruct Hs.
    - rewrite decide_False by done. by exists q. }
  split; [done|..].
  - intros i cn Hcn. destruct (I2 _ _ Hcn) as [? Hle]. split; [done|].
    rewrite count_insert by (rewrite lookup_insert_ne by done; done). rewrite (count_update _ _ _ _ _ Hf).
    rewrite (decide_ext (in_slot i p) (in_slot i other)) by done. rewrite (decide_False (P := in_slot i rest)) by (by intros []). lia.
  - intros i cn b q Hcn Hb Hs. destruct (Hget _ _ _ Hb Hs) as (q0 & ? & ? & -> & _). by eapply I3.
  - intros b d pb pd i Hb Hd Hnbd Hsb Hsd. destruct (Hget _ _ _ Hb Hsb) as (b0 & Hb0 & ? & -> & ?).
    destruct (Hget _ _ _ Hd Hsd) as (d0 & Hd0 & ? & -> & ?). eapply I4; [exact Hb0|exact Hd0| |done|done].
    unfold old in *. repeat case_decide; congruence.
Qed.

(** ** Each step *)

Lemma count_size (Q : Packet → Prop) `{!∀ x, Decision (Q x)} ps : 0 ≤ count_of Q ps ≤ Z.of_nat (size ps).
Proof. unfold count_of. split; [lia|]. apply inj_le. apply map_subseteq_size, map_filter_subseteq. Qed.

Lemma in_context_context pkt c : whole pkt → in_context c pkt ↔ c = cxt_id pkt.
Proof. intros Hw. unfold in_context. split; [by intros [_ ->]|by intros ->]. Qed.

(** The counts after a packet came. *)
Lemma pools_insert src ps a pkt : pools_ok src (λ c, count_of (in_context c) ps + (if decide (c = cxt_id pkt) then 1 else 0)) →
  ps !! a = None → whole pkt → pools_ok src (λ c, count_of (in_context c) (<[a := pkt]> ps)).
Proof.
  intros Hp Ha Hw. eapply pools_ext; [done|]. intros c. cbn. rewrite count_insert by done. f_equal.
  apply decide_ext. by rewrite in_context_context.
Qed.

(** What a copy has of the packet, and what it does not. *)
Record copy_of (pkt c : Packet) : Prop := {
  copy_packet_id : packet_id c = packet_id pkt;
  copy_port : ingress_port c = ingress_port pkt;
  copy_length : ingress_length c = ingress_length pkt;
  copy_data : PacketBuffer.start (buffer c) = PacketBuffer.start (buffer pkt);
  copy_truncated : truncated_length c = 2 ^ 64 - 1;
  copy_flags : flags c = 0;
  copy_entry : entry_index c = INVALID_ENTRY_INDEX;
  copy_error : error_code c = invalid_code;
}.

Definition copied_headers (k : kind) (src p : Phv.PHV) : Prop :=
  match k with
  | WithPhv => ∀ i h, Phv.get_header p i = Some h → ∃ g, Phv.get_header src i = Some g ∧ PhvLike.copied g h
  | ResetMetadata => ∀ i h, Phv.get_header p i = Some h → ∃ g, Phv.get_header src i = Some g ∧
      (Headers.metadata g = false → PhvLike.copied g h) ∧
      (Headers.metadata g = true → Forall (λ f : Fields.Field, Data.value f = 0) (Headers.fields h))
  | NoPhv _ => ∀ i h, Phv.get_header p i = Some h → Headers.valid h = false
  end.

Lemma clone_base s a from now pkt cn cxt : inv s → live s !! a = None → live s !! from = Some pkt → whole pkt →
  vget (copy_id_gen (world s)) (CopyIds.slot (packet_id pkt)) = Some cn → room cn → is_Some (vget Ts cxt) →
  Z.of_nat (size (live s)) < 2 ^ 64 - 1 →
  ∃ T w' (c : Packet) p, vget Ts cxt = Some T ∧ clone_choose_context alloc XXH64 invalid_code (world s) now pkt cxt = Some (w', c) ∧
    phv c = Some p ∧ idle T p ∧ cxt_id c = cxt ∧ copy_of pkt c ∧ PacketBuffer.ok (buffer c) ∧
    (∀ b q, live s !! b = Some q → in_slot (CopyIds.slot (packet_id pkt)) q → copy_id q < copy_id c) ∧
    pools_ok (phv_source w') (λ c', count_of (in_context c') (live s) + (if decide (c' = cxt) then 1 else 0)) ∧
    ∀ d, packet_id d = packet_id c → copy_id d = copy_id c → ids_ok (copy_id_gen w') (<[a := d]> (live s)).
Proof.
  intros [Hpk Hpo Hid] Ha Hf Hw Hcn Hr Hc Hsz. unfold clone_choose_context.
  destruct (add_one_ok _ _ _ _ Hid Hf Hw _ Hcn Hr) as (gen' & n & -> & Hlt & Hids). msimpl.
  destruct (Hpk _ _ Hf Hw) as (Hb & _). pose proof (PacketBuffer.ok_size _ Hb).
  destruct (PacketBuffer.clone_spec alloc length_alloc (buffer pkt) (PacketBuffer.data_size (buffer pkt)) Hb) as (b & -> & Hb' & Hst & _);
    [lia|]. msimpl. pose proof (count_size (in_context cxt) (live s)).
  destruct (new_packet_ok (with_gen (world s) gen') _ now cxt (ingress_port pkt) (packet_id pkt) n (ingress_length pkt) b Hpo Hc) as
    (T & w' & p & c & HT & E & Hg & Hpo' & Hp & Hi & Hpid & Hcid & Hcx & Hbuf & Hok & Hrest); [cbn; lia|done|].
  exists T, w', c, p. split; [done|]. split; [done|]. split; [done|]. split; [done|]. split; [done|].
  split; [|split; [by rewrite Hbuf|split; [by rewrite Hcid|split; [done|]]]].
  - rewrite Z.sub_diag, drop_0 in Hst. destruct Hrest as (? & ? & ? & ? & ? & ?). split; try done. by rewrite Hbuf.
  - intros d Hd1 Hd2. rewrite Hg. cbn. apply Hids; [done|congruence|congruence].
Qed.

Lemma clone_packet_ok s k a from now pkt cn : inv s → live s !! a = None → live s !! from = Some pkt → whole pkt →
  vget (copy_id_gen (world s)) (CopyIds.slot (packet_id pkt)) = Some cn → room cn →
  (match k with NoPhv c => is_Some (vget Ts c) | _ => True end) → Z.of_nat (size (live s)) < 2 ^ 64 - 1 →
  ∃ w' (c : Packet) src p, clone k (world s) now pkt = Some (w', c) ∧ phv pkt = Some src ∧ phv c = Some p ∧
    copy_of pkt c ∧ copied_headers k src p ∧
    (∀ b q, live s !! b = Some q → in_slot (CopyIds.slot (packet_id pkt)) q → copy_id q < copy_id c) ∧
    inv {| world := w'; live := <[a := c]> (live s) |}.
Proof.
  intros Hinv Ha Hf Hw Hcn Hr Hk Hsz. pose proof Hinv as [Hpk Hpo Hid].
  destruct (Hpk _ _ Hf Hw) as (_ & Ts' & src & HTs & Hsrc & HLs).
  set (cxt := match k with NoPhv c => c | _ => cxt_id pkt end).
  assert (is_Some (vget Ts cxt)) as Hc by (unfold cxt; destruct k; [by eauto|by eauto|done]).
  destruct (clone_base s a from now pkt cn cxt Hinv Ha Hf Hw Hcn Hr Hc Hsz) as
    (T & w' & c & p & HT & E & Hp & [HL Hinval] & Hcx & Hcopy & Hbuf & Hlt & Hpo' & Hids).
  assert (∀ p', PhvLike.like T p' → copied_headers k src p' →
    clone k (world s) now pkt = Some (w', set_phv c (Some p')) → ∃ w' (c : Packet) src p, clone k (world s) now pkt = Some (w', c) ∧
    phv pkt = Some src ∧ phv c = Some p ∧ copy_of pkt c ∧ copied_headers k src p ∧
    (∀ b q, live s !! b = Some q → in_slot (CopyIds.slot (packet_id pkt)) q → copy_id q < copy_id c) ∧
    inv {| world := w'; live := <[a := c]> (live s) |}) as Hfin.
  { intros p' HL' Hch Hcl. exists w', (set_phv c (Some p')), src, p'. do 3 (split; [done|]).
    split; [by destruct Hcopy|]. split; [done|]. split; [done|]. split; cbn.
    - intros b q [[<- <-]|[_ Hb]]%lookup_insert_Some; [|by eapply Hpk]. intros _. split; [done|]. exists T, p'. cbn. by rewrite Hcx.
    - apply pools_insert; [cbn; by rewrite Hcx|done|by exists p'].
    - by apply Hids. }
  assert (PhvLike.template_ok T) as HTok.
  { pose proof (vget_Some_range _ _ _ HT). rewrite vget_nat in HT by lia. exact (Forall_lookup_1 _ _ _ _ Ts_ok HT). }
  destruct k as [| |cxt']; cbn [clone copied_headers] in *; subst cxt.
  - assert (Ts' = T) as -> by congruence.
    destruct (PhvLike.copy_headers_like T p src HL HLs) as (p' & Ecp & HL' & Hcp).
    apply (Hfin p' HL' Hcp). unfold clone_with_phv. rewrite E. msimpl. rewrite Hp, Hsrc. msimpl. by rewrite Ecp.
  - assert (Ts' = T) as -> by congruence.
    destruct (PhvLike.copy_headers_like T p src HL HLs) as (p1 & Ecp & HL1 & Hcp).
    destruct (PhvLike.reset_metadata_like T p1 HTok HL1) as (p' & Erm & HL' & Hrm).
    apply (Hfin p' HL').
    + intros i h Hh. destruct (Hrm i h Hh) as (h1 & Hh1 & Hm1 & Hm2 & Hm3). destruct (Hcp i h1 Hh1) as (g & Hg & Hcg).
      exists g. split; [done|]. assert (Headers.metadata h1 = Headers.metadata g) as Hmg by (by destruct Hcg as (_ & ? & _)).
      split; intros Hgm; [rewrite Hm1 by congruence; done|apply Hm3; congruence].
    + unfold clone_with_phv_reset_metadata. rewrite E. msimpl. rewrite Hp, Hsrc. msimpl. rewrite Ecp. msimpl. by rewrite Erm.
  - apply (Hfin p HL Hinval). rewrite E. do 2 f_equal. destruct c. cbn in *. by subst.
Qed.

Lemma use_pools src ps a pkt0 pkt : pools_ok src (λ c, count_of (in_context c) ps) → ps !! a = Some pkt0 →
  (whole pkt ↔ whole pkt0) → cxt_id pkt = cxt_id pkt0 → pools_ok src (λ c, count_of (in_context c) (<[a := pkt]> ps)).
Proof.
  intros Hp Ha Hw Hc. eapply pools_ext; [done|]. intros c. cbn. rewrite (count_update _ _ _ _ _ Ha).
  rewrite (decide_ext (in_context c pkt) (in_context c pkt0)) by (unfold in_context; by rewrite Hw, Hc). lia.
Qed.

Lemma change_ok s a pkt cxt : inv s → live s !! a = Some pkt → whole pkt → is_Some (vget Ts cxt) →
  Z.of_nat (size (live s)) < 2 ^ 64 - 1 → ∃ w' pkt', change_context (world s) pkt cxt = Some (w', pkt') ∧
    inv {| world := w'; live := <[a := pkt']> (live s) |}.
Proof.
  intros [Hpk Hpo Hid] Ha Hw Hc Hsz. unfold change_context. destruct (Z.eqb_spec (cxt_id pkt) cxt) as [Heq|Hne].
  { eexists _, _. split; [done|]. rewrite insert_id by done. by constructor. }
  destruct (Hpk _ _ Ha Hw) as (Hb & T & p & HT & Hp & HL). rewrite Hp. msimpl.
  pose proof (count_size (in_context cxt) (live s)). pose proof (count_size (in_context (cxt_id pkt)) (live s)).
  assert (in_context (cxt_id pkt) pkt) as Hin by done. pose proof (count_pos _ _ _ _ Ha Hin).
  destruct (give_back_ok (world s) _ (cxt_id pkt) T p Hpo HT HL) as (w1 & -> & Hg1 & Hpo1); [cbn; lia|]. msimpl.
  destruct (get_ok _ _ cxt Hpo1 Hc) as (T' & src' & p' & HT' & -> & [HL' _] & Hpo2); [cbn; rewrite decide_False by congruence; lia|].
  msimpl. eexists _, _. split; [done|]. split; cbn.
  - intros b q [[<- <-]|[_ Hq]]%lookup_insert_Some; [|by eapply Hpk]. intros _. split; [done|]. by exists T', p'.
  - eapply pools_ext; [exact Hpo2|]. intros c. cbn. rewrite (count_update _ _ _ _ _ Ha).
    rewrite (decide_ext (in_context c pkt) (c = cxt_id pkt)) by (by apply in_context_context).
    rewrite (decide_ext (in_context c _) (c = cxt)) by (apply in_context_context; by exists p').
    repeat case_decide; lia.
  - rewrite Hg1. eapply ids_update; [done|exact Ha| |done..]. split; [done|by exists p'].
Qed.

Lemma step_ok s l : inv s → allowed s l → ∃ s', step s l = Some s' ∧ inv s'.
Proof.
  intros Hinv [Hsz Hl]. pose proof Hinv as [Hpk Hpo Hid].
  destruct l as [a now cxt port id len b|k a from now|a cxt|a from|a pkt|a seen]; cbn [step].
  - destruct Hl as (Ha & Hc & Hb & Hfree). pose proof (count_size (in_context cxt) (live s)).
    destruct (new_packet_ok (world s) _ now cxt port id 0 len b Hpo Hc) as (T & w' & p & pkt & _ & -> & Hg & Hpo' & Hp & _ & Hi & Hci & Hcx & _ & Hok & _);
      [cbn; lia|done|]. msimpl. eexists. split; [done|]. split; cbn.
    + intros a' q [[<- <-]|[_ Hq]]%lookup_insert_Some; [done|by eapply Hpk].
    + apply pools_insert; [cbn; by rewrite Hcx|done|by exists p].
    + rewrite Hg. apply ids_receive; [done..|]. by rewrite Hi.
  - destruct Hl as (Ha & Hk & pkt & cn & Hf & Hw & Hcn & Hr). rewrite Hf. msimpl.
    destruct (clone_packet_ok s k a from now pkt cn Hinv Ha Hf Hw Hcn Hr Hk Hsz) as (w' & c & _ & _ & -> & _ & _ & _ & _ & _ & Hinv').
    msimpl. eexists. split; [done|]. done.
  - destruct Hl as (Hc & pkt & Ha & Hw). rewrite Ha. msimpl.
    destruct (change_ok s a pkt cxt Hinv Ha Hw Hc Hsz) as (w' & pkt' & -> & Hinv'). msimpl. eexists. by split.
  - destruct Hl as (Ha & [other Hf]). rewrite Hf. msimpl. cbn [move]. eexists. split; [done|].
    assert (¬ whole (set_phv other None)) as Hrest by (by intros [? ?]).
    assert (whole (moved invalid_code other) ↔ whole other) as Hw by done. split; cbn.
    + intros b q [[<- <-]|[_ [[<- <-]|[_ Hb]]%lookup_insert_Some]]%lookup_insert_Some; [|by intros|by eapply Hpk].
      intros Hwo. by destruct (Hpk _ _ Hf Hwo).
    + eapply pools_ext; [exact Hpo|]. intros c. cbn.
      assert (<[from := set_phv other None]> (live s) !! a = None) as Hfresh by (rewrite lookup_insert_ne by congruence; done).
      rewrite (count_insert _ _ _ _ Hfresh), (count_update _ _ _ _ _ Hf).
      rewrite (decide_False (P := in_context c (set_phv other None))) by (by intros []).
      repeat case_decide; (lia || contradiction).
    + by eapply ids_move.
  - destruct Hl as (Hok & pkt0 & Ha & Hw & Hi & Hci & Hcx). eexists. split; [done|]. split; cbn.
    + intros b q [[<- <-]|[_ Hb]]%lookup_insert_Some; [done|by eapply Hpk].
    + by eapply use_pools.
    + by eapply ids_update.
  - destruct Hl as ([pkt Ha] & Hseen). rewrite Ha. msimpl. unfold destroy.
    destruct (phv pkt) as [p0|] eqn:Ep.
    + assert (whole pkt) as Hw by (by exists p0). destruct (Hpk _ _ Ha Hw) as (Hb & T & p & HT & Hp & HL).
      assert (p0 = p) as -> by congruence.
      destruct (remove_one_ok _ _ _ _ seen Hid Ha Hw Hseen) as (gen' & -> & Hid'). msimpl.
      pose proof (count_size (in_context (cxt_id pkt)) (live s)).
      assert (in_context (cxt_id pkt) pkt) as Hin by done. pose proof (count_pos _ _ _ _ Ha Hin).
      destruct (give_back_ok (with_gen (world s) gen') _ (cxt_id pkt) T p Hpo HT HL) as (w1 & -> & Hg1 & Hpo1); [cbn; lia|].
      msimpl. eexists. split; [done|]. split; cbn.
      * intros b q [_ Hq]%lookup_delete_Some. by eapply Hpk.
      * eapply pools_ext; [exact Hpo1|]. intros c. cbn. rewrite (count_delete _ _ _ _ Ha).
        rewrite (decide_ext (in_context c pkt) (c = cxt_id pkt)) by (by apply in_context_context). case_decide; lia.
      * by rewrite Hg1.
    + msimpl. assert (¬ whole pkt) as Hw by (intros [? ?]; congruence). eexists. split; [done|]. split; cbn.
      * intros b q [_ Hq]%lookup_delete_Some. by eapply Hpk.
      * eapply pools_ext; [exact Hpo|]. intros c. cbn. rewrite (count_delete _ _ _ _ Ha).
        rewrite decide_False by (by intros []). lia.
      * by eapply ids_delete_moved.
Qed.

(** ** Runs *)

Fixpoint run (s : sys) (ls : list label) : option sys :=
  match ls with [] => Some s | l :: ls => s ← step s l; run s ls end.

Fixpoint all_allowed (s : sys) (ls : list label) : Prop :=
  match ls with [] => True | l :: ls => allowed s l ∧ ∀ s', step s l = Some s' → all_allowed s' ls end.

(** No packet, and new pools. *)
Definition started (s : sys) : Prop :=
  live s = ∅ ∧ copy_id_gen (world s) = CopyIds.new ∧
  Forall2 (λ T pool, pool_ok T pool ∧ PhvSource.phvs pool = [] ∧ PhvSource.count pool = 0) Ts (phv_source (world s)).

Lemma started_inv s : started s → inv s.
Proof.
  intros (Hl & Hg & Hps). split.
  - rewrite Hl. intros a pkt Ha. by rewrite lookup_empty in Ha.
  - split.
    + intros c. by rewrite !vget_is_Some, (Forall2_length _ _ _ Hps).
    + intros c T pool HT Hp. pose proof (vget_Some_range _ _ _ HT). rewrite vget_nat in HT by lia. rewrite vget_nat in Hp by lia.
      destruct (Forall2_lookup_lr _ _ _ _ _ _ Hps HT Hp) as (? & _ & ->). split; [done|]. rewrite Hl. by rewrite count_none.
  - rewrite Hl, Hg. assert (∀ i, is_Some (vget CopyIds.new i) ↔ 0 ≤ i < CopyIds.W) as Hr.
    { intros i. rewrite vget_is_Some. unfold CopyIds.new. by rewrite length_replicate. }
    assert (∀ i cn, vget CopyIds.new i = Some cn → cn = CopyIds.Build_Cntr 0 0) as Hv.
    { intros i cn Hcn. pose proof (vget_Some_range _ _ _ Hcn). rewrite vget_nat in Hcn by lia. by apply lookup_replicate in Hcn as [-> _]. }
    split; [done|..].
    + intros i cn ->%Hv. split; [split; cbn; lia|]. rewrite count_none; [done|]. intros g x Hx. by rewrite lookup_empty in Hx.
    + intros i cn a pkt _ Ha. by rewrite lookup_empty in Ha.
    + intros a b pa pb i Ha. by rewrite lookup_empty in Ha.
Qed.

Lemma packets_run_inv s ls : inv s → all_allowed s ls → ∃ s', run s ls = Some s' ∧ inv s'.
Proof.
  revert s. induction ls as [|l ls IH]; intros s Hs Hls; [by exists s|]. destruct Hls as [Hl Hls]. cbn [run].
  destruct (step_ok s l Hs Hl) as (s1 & E & H1). rewrite E. msimpl. by apply IH, Hls.
Qed.

(** C15: Packets come, are copied, are moved into new objects, change context, are used and are
    destroyed, in any order, on two conditions: a packet that comes has an id that differs,
    modulo the size of the table of copy numbers (4096), from those of the packets that are
    there, and a copy is made of a packet whose counter is not at its end (2^16 - 1), with
    fewer than 2^64 packets there. No object is assigned to by move, which is no label of these
    runs: that forgets the headers of the packet assigned to. Then no operation fails: each
    pool has in use as many parsed headers as there are packets of its context that were not
    moved away, and two such packets that came as one have different copy numbers. *)
Theorem packets_accounted (s : sys) (ls : list label) : started s → all_allowed s ls → ∃ s', run s ls = Some s' ∧
  (∀ c, is_Some (vget Ts c) → PhvSource.phvs_in_use (phv_source (world s')) c = Some (count_of (in_context c) (live s'))) ∧
  ∀ a b pa pb, live s' !! a = Some pa → live s' !! b = Some pb → a ≠ b → whole pa → whole pb →
    packet_id pa = packet_id pb → copy_id pa ≠ copy_id pb.
Proof.
  intros Hs Hls. destruct (packets_run_inv s ls (started_inv s Hs) Hls) as (s' & E & [Hpk [Hp1 Hp2] Hid]). exists s'. split; [done|]. split.
  - intros c [T HT]. unfold PhvSource.phvs_in_use. destruct (proj2 (Hp1 c)) as [pool Hp]; [eauto|]. rewrite Hp. msimpl.
    by destruct (Hp2 _ _ _ HT Hp) as [_ ->].
  - intros a b pa pb Ha Hb Hne Hwa Hwb Hid'. by eapply (ids_distinct _ _ Hid a b pa pb (CopyIds.slot (packet_id pa))); [..|split; [|rewrite Hid']].
Qed.

(** In any state that is reached so, a copy of a packet has its data, ports and
    id, a number above those of the packets it came as, and its headers: all of
    them, those of the packet only, or none. The exit flag, the truncation, the
    entry and the error code are not copied. *)
Theorem copies_packet s k a from now pkt cn (s0 : sys) (ls : list label) : started s0 → all_allowed s0 ls → run s0 ls = Some s →
  live s !! a = None → live s !! from = Some pkt → whole pkt →
  vget (copy_id_gen (world s)) (CopyIds.slot (packet_id pkt)) = Some cn → room cn →
  (match k with NoPhv c => is_Some (vget Ts c) | _ => True end) → Z.of_nat (size (live s)) < 2 ^ 64 - 1 →
  ∃ w' (c : Packet) src p, clone k (world s) now pkt = Some (w', c) ∧ phv pkt = Some src ∧ phv c = Some p ∧
    copy_of pkt c ∧ copied_headers k src p ∧
    ∀ b q, live s !! b = Some q → whole q → packet_id q = packet_id pkt → copy_id q < copy_id c.
Proof.
  intros Hst Hls E Ha Hf Hw Hcn Hr Hk Hsz. destruct (packets_run_inv s0 ls (started_inv _ Hst) Hls) as (s1 & E1 & Hinv).
  assert (s1 = s) as -> by congruence.
  destruct (clone_packet_ok s k a from now pkt cn Hinv Ha Hf Hw Hcn Hr Hk Hsz) as (w' & c & src & p & ? & ? & ? & ? & ? & Hlt & _).
  exists w', c, src, p. split_and!; try done. intros b q Hb Hq Hi. eapply Hlt; [done|]. split; [done|]. by rewrite Hi.
Qed.
End spec.
End PacketsSpec.

(** ** One context, with metadata and one header *)
Module PacketsExamples.
Import Packets PacketsSpec GmpExample.

Definition port_type : Headers.HeaderType := (Headers.push_back_field (Headers.new_type 0) "port" 16 false false false).1.
Definition tag_type : Headers.HeaderType := (Headers.push_back_field (Headers.new_type 1) "kind" 8 false false false).1.
Definition factory : PhvFactory.PHVFactory :=
  PhvFactory.push_back_header (PhvFactory.push_back_header PhvFactory.new 0 port_type [] true) 1 tag_type [] false.
Definition template : Phv.PHV := default PhvFactory.empty (PhvFactory.create factory).

Lemma template_header (P : Headers.Header → Prop) : Forall P (Phv.headers template) →
  ∀ k h, Phv.get_header template k = Some h → P h.
Proof.
  intros HP k h Hh. pose proof (vget_Some_range _ _ _ Hh). unfold Phv.get_header in Hh. rewrite vget_nat in Hh by lia.
  exact (Forall_lookup_1 _ _ _ _ HP Hh).
Qed.

Ltac each_element :=
  match goal with
  | |- Forall _ (_ :: _) => apply Forall_cons; split; [|each_element]
  | |- Forall _ [] => apply Forall_nil; exact I
  end.

Ltac each_header := refine (template_header _ _); let l := fresh in set (l := Phv.headers template); vm_compute in l; subst l; each_element.

Lemma template_is_ok : PhvLike.template_ok template.
Proof.
  split.
  - each_header; unfold PhvLike.fields_wf; cbn;
      each_element; intros _; constructor; vm_compute; try done; repeat constructor; done.
  - each_header; (eexists; split; reflexivity).
  - each_header; (intros H; vm_compute in H; discriminate H).
  - each_header; intros H; repeat constructor; vm_compute in H; discriminate H.
  - intros k t u i Hh. revert u i. revert k t Hh. each_header; intros u i H; vm_compute in H; discriminate H.
Qed.

Lemma template_idle : idle template template.
Proof. split; [apply PhvLike.like_refl, template_is_ok|]. each_header; reflexivity. Qed.

Definition alloc (n : Z) : list Z := replicate (Z.to_nat n) 0.
Lemma length_alloc n : 0 ≤ n → Z.of_nat (length (alloc n)) = n.
Proof. intros. unfold alloc. rewrite length_replicate. lia. Qed.

Definition sum (l : list Z) (seed : Z) : Z := foldr Z.add seed l.
Definition pool : PhvSource.PHVPool := {| PhvSource.phvs := []; PhvSource.phv_factory := Some factory; PhvSource.count := 0 |}.
Definition start : sys := {| world := {| copy_id_gen := CopyIds.new; phv_source := [pool] |}; live := ∅ |}.

Lemma start_started : started [template] start.
Proof.
  split; [done|]. split; [done|]. constructor; [|done]. split; [|done]. split; [|done|apply template_idle].
  exists factory. split; [done|]. vm_compute. reflexivity.
Qed.

Definition bytes : PacketBuffer.PacketBuffer := default PacketBuffer.empty (PacketBuffer.of_data alloc 16 [1; 2; 3]).

Lemma bytes_ok : PacketBuffer.ok bytes.
Proof. by split; vm_compute. Qed.

Definition come : label := Receive 1 0 0 4 7 3 bytes.

Lemma come_allowed : allowed [template] start come.
Proof.
  split; [done|]. split; [done|]. split; [by eexists|]. split; [apply bytes_ok|]. intros a pkt Ha.
  change ((∅ : gmap Z Packet) !! a = Some pkt) in Ha. by rewrite lookup_empty in Ha.
Qed.

Definition one : sys := default start (step alloc sum 0 start come).

Lemma copy_allowed : allowed [template] one (Clone WithPhv 2 1 5).
Proof.
  split; [vm_compute; reflexivity|]. split; [vm_compute; reflexivity|]. split; [done|].
  exists (default (Build_Packet 0 0 0 0 0 0 0 0 bytes 0 0 0 0 None [] 0 0) (live one !! 1)), (CopyIds.Build_Cntr 0 0).
  split; [vm_compute; reflexivity|]. split; [vm_compute; by eexists|]. split; [vm_compute; reflexivity|by split; vm_compute].
Qed.

Lemma packets_accounted_witness : ∃ s', run alloc sum 0 start [come; Clone WithPhv 2 1 5] = Some s' ∧
  PhvSource.phvs_in_use (phv_source (world s')) 0 = Some 2.
Proof.
  destruct (packets_accounted alloc length_alloc sum 0 [template] (Forall_cons_2 _ _ _ template_is_ok (Forall_nil_2 _)) start
    [come; Clone WithPhv 2 1 5] start_started) as (s' & E & Hp & _).
  - split; [apply come_allowed|]. intros s' Hs'. assert (s' = one) as -> by (unfold one; by rewrite Hs').
    split; [apply copy_allowed|]. done.
  - exists s'. split; [exact E|]. rewrite (Hp 0) by (by eexists).
    assert (Some s' = run alloc sum 0 start [come; Clone WithPhv 2 1 5]) as E' by done.
    change (Some (count_of (in_context 0) (live s'))) with ((λ s, count_of (in_context 0) (live s)) <$> Some s').
    rewrite E'. vm_compute. reflexivity.
Defined.

Lemma copies_packet_witness : ∃ w' (c : Packet), clone_with_phv alloc sum 0 (world one) 5
    (default (Build_Packet 0 0 0 0 0 0 0 0 bytes 0 0 0 0 None [] 0 0) (live one !! 1)) = Some (w', c) ∧
  packet_id c = 7 ∧ PacketBuffer.start (buffer c) = [1; 2; 3].
Proof.
  set (pkt := default _ _).
  destruct (copies_packet alloc length_alloc sum 0 [template] (Forall_cons_2 _ _ _ template_is_ok (Forall_nil_2 _)) one WithPhv 2 1 5
    pkt (CopyIds.Build_Cntr 0 0) start [come] start_started) as (w' & c & src & p & E & _ & _ & Hc & _).
  - split; [apply come_allowed|]. done.
  - vm_compute. reflexivity.
  - vm_compute. reflexivity.
  - vm_compute. reflexivity.
  - vm_compute. by eexists.
  - vm_compute. reflexivity.
  - by split; vm_compute.
  - done.
  - vm_compute. reflexivity.
  - exists w', c. split; [exact E|]. rewrite (copy_packet_id _ _ _ Hc), (copy_data _ _ _ Hc). split; vm_compute; reflexivity.
Defined.

(** *** What the code does not keep *)

(** Two packets whose ids are 4096 apart share a counter: with both alive, a
    copy can have the number of a live copy of the same packet. Packets 0 and
    4096 come, 0 is copied (copy 1), 4096 and the first 0 go, and copy 1 is
    copied: again copy 1. *)
Theorem shared_counter :
  ('(g, n) ← CopyIds.add_one CopyIds.new 0;
   g ← CopyIds.remove_one g 4096 []; g ← CopyIds.remove_one g 0 [];
   '(_, m) ← CopyIds.add_one g 0; Some (n, m)) = Some (1, 1).
Proof. vm_compute. reflexivity. Qed.

(** A packet with four copies of which three go while a thread is in the loop of
    [remove_one] for the last but one: the count that the first turn computed is
    stored with the maximum of the second, and the counter of the packet does
    not go back to 0 when its last copy is gone. *)
Theorem stale_count (g : list CopyIds.Cntr) (id : Z) : vget g (CopyIds.slot id) = Some (CopyIds.Build_Cntr 3 0) →
  ∃ g', CopyIds.remove_one g id [CopyIds.Build_Cntr 3 3] = Some g' ∧
    vget g' (CopyIds.slot id) = Some (CopyIds.Build_Cntr 0 2).
Proof.
  intros Hg. unfold CopyIds.remove_one. rewrite Hg. msimpl. pose proof (vget_Some_range _ _ _ Hg). rewrite vset_Some by done.
  eexists. split; [done|]. rewrite (vget_vset g) with (i := CopyIds.slot id) (x := CopyIds.Build_Cntr 0 2); [|by apply vset_Some].
  by rewrite decide_True.
Qed.

Lemma stale_count_witness : ∃ g g', vget g (CopyIds.slot 9) = Some (CopyIds.Build_Cntr 3 0) ∧
  CopyIds.remove_one g 9 [CopyIds.Build_Cntr 3 3] = Some g' ∧ CopyIds.get g' 9 = Some 0.
Proof.
  set (g := <[9%nat := CopyIds.Build_Cntr 3 0]> CopyIds.new).
  destruct (stale_count g 9) as (g' & E & Hg); [vm_compute; reflexivity|].
  exists g, g'. split; [vm_compute; reflexivity|]. split; [exact E|]. unfold CopyIds.get. by rewrite Hg.
Defined.

(** A packet that is truncated is not after it moved. *)
Theorem moved_not_truncated : ∃ pkt, get_data_size (truncate pkt 2) = 2 ∧
  get_data_size (move 0 (truncate pkt 2)).1 = 3.
Proof.
  exists (default (Build_Packet 0 0 0 0 0 0 0 0 bytes 0 0 0 0 None [] 0 0) (live one !! 1)). vm_compute. split; reflexivity.
Qed.

(** Assigning a packet of context 1 to one of context 0 and dropping both gives
    the parsed headers of the first to the pool of the other, and the pools are
    wrong about those in use. *)
Theorem assigned_pools :
  let w2 :=
    '(w, pa) ← new sum 0 {| copy_id_gen := CopyIds.new; phv_source := [pool; pool] |} 0 0 0 7 0 3 bytes;
    '(w, pb) ← new sum 0 w 0 1 0 8 0 3 bytes;
    let '(pa, pb) := move_assign pa pb in
    w ← destroy w pa []; destroy w pb [] in
  (w ← w2; PhvSource.phvs_in_use (phv_source w) 0) = Some 1 ∧
  (w ← w2; PhvSource.phvs_in_use (phv_source w) 1) = Some (2 ^ 64 - 1) ∧
  (w ← w2; Some ((λ q, length (PhvSource.phvs q)) <$> phv_source w)) = Some [0%nat; 2%nat].
Proof. vm_compute. repeat split. Qed.
End PacketsExamples.
