(* ===== verification/MatchKeyTypes.v ===== *)
(** * Match keys (include/bm/bm_sim/match_key_types.h, match_units.h)

    The keys of the four kinds of match units. The C++ classes inherit from
    one another; so do the records here, through coercions. A byte container
    is the list of its bytes. *)

From S2P Require Import Prelude.

Module MatchKeyTypes.

Inductive MatchUnitType := EXACT | LPM | TERNARY | RANGE.

Definition INT_MAX : Z := 2 ^ 31 - 1.

Record MatchKey := {
  data : list Z;
  version : Z;            (** uint32_t *)
}.

Record ExactMatchKey := { exact_base :> MatchKey }.

Record LPMMatchKey := {
  lpm_base :> MatchKey;
  prefix_length : Z;      (** int *)
}.

Record TernaryMatchKey := {
  ternary_base :> MatchKey;
  mask : list Z;
  priority : Z;           (** int *)
}.

Record RangeMatchKey := {
  range_base :> TernaryMatchKey;
  range_widths : list Z;  (** std::vector<size_t> *)
}.

(** The default constructors. *)
Definition empty_MatchKey : MatchKey := {| data := []; version := 0 |}.
Definition empty_ExactMatchKey : ExactMatchKey := {| exact_base := empty_MatchKey |}.
Definition empty_LPMMatchKey : LPMMatchKey := {| lpm_base := empty_MatchKey; prefix_length := 0 |}.
Definition empty_TernaryMatchKey : TernaryMatchKey :=
  {| ternary_base := empty_MatchKey; mask := []; priority := INT_MAX |}.
Definition empty_RangeMatchKey : RangeMatchKey :=
  {| range_base := empty_TernaryMatchKey; range_widths := [] |}.

#[export] Instance MatchUnitType_eq_dec : EqDecision MatchUnitType.
Proof. solve_decision. Defined.
#[export] Instance MatchKey_eq_dec : EqDecision MatchKey.
Proof. solve_decision. Defined.
#[export] Instance ExactMatchKey_eq_dec : EqDecision ExactMatchKey.
Proof. solve_decision. Defined.
#[export] Instance LPMMatchKey_eq_dec : EqDecision LPMMatchKey.
Proof. solve_decision. Defined.
#[export] Instance TernaryMatchKey_eq_dec : EqDecision TernaryMatchKey.
Proof. solve_decision. Defined.
#[export] Instance RangeMatchKey_eq_dec : EqDecision RangeMatchKey.
Proof. solve_decision. Defined.

(** Writing to [key.data] and [key.version] of a key of any type. *)
Class KeyFields (K : Type) := {
  key_base : K → MatchKey;
  set_base : K → MatchKey → K;
}.

Class KeyFieldsLaws (K : Type) `{!KeyFields K} := {
  key_base_set k b : key_base (set_base k b) = b;
}.

#[export] Instance ExactMatchKey_fields : KeyFields ExactMatchKey :=
  {| key_base := exact_base; set_base _ b := {| exact_base := b |} |}.
#[export] Instance LPMMatchKey_fields : KeyFields LPMMatchKey :=
  {| key_base := lpm_base;
     set_base k b := {| lpm_base := b; prefix_length := prefix_length k |} |}.
#[export] Instance TernaryMatchKey_fields : KeyFields TernaryMatchKey :=
  {| key_base := ternary_base;
     set_base k b := {| ternary_base := b; mask := mask k; priority := priority k |} |}.
#[export] Instance RangeMatchKey_fields : KeyFields RangeMatchKey :=
  {| key_base := λ k, ternary_base (range_base k);
     set_base k b := {| range_base := set_base (range_base k) b; range_widths := range_widths k |} |}.

#[export] Instance ExactMatchKey_fields_laws : KeyFieldsLaws ExactMatchKey.
Proof. done. Qed.
#[export] Instance LPMMatchKey_fields_laws : KeyFieldsLaws LPMMatchKey.
Proof. done. Qed.
#[export] Instance TernaryMatchKey_fields_laws : KeyFieldsLaws TernaryMatchKey.
Proof. done. Qed.
#[export] Instance RangeMatchKey_fields_laws : KeyFieldsLaws RangeMatchKey.
Proof. done. Qed.

Definition set_data {K} `{KeyFields K} (k : K) (d : list Z) : K :=
  set_base k {| data := d; version := version (key_base k) |}.
Definition set_version {K} `{KeyFields K} (k : K) (v : Z) : K :=
  set_base k {| data := data (key_base k); version := v |}.

(** [get_priority] and [set_priority] of match_units.cpp. *)
Class KeyPriority (K : Type) := {
  get_priority : K → Z;
  set_priority : K → Z → K;
}.
#[export] Instance ExactMatchKey_priority : KeyPriority ExactMatchKey :=
  {| get_priority _ := -1; set_priority k _ := k |}.
#[export] Instance LPMMatchKey_priority : KeyPriority LPMMatchKey :=
  {| get_priority _ := -1; set_priority k _ := k |}.
#[export] Instance TernaryMatchKey_priority : KeyPriority TernaryMatchKey :=
  {| get_priority := priority;
     set_priority k p := {| ternary_base := ternary_base k; mask := mask k; priority := p |} |}.
#[export] Instance RangeMatchKey_priority : KeyPriority RangeMatchKey :=
  {| get_priority k := priority (range_base k);
     set_priority k p := {| range_base := set_priority (range_base k) p; range_widths := range_widths k |} |}.

End MatchKeyTypes.
