(* ===== verification/LookupStructures.v ===== *)
(** * Lookup structures (include/bm/bm_sim/lookup_structures.h,
      src/bm_sim/lookup_structures.cpp, src/bm_sim/lpm_trie.h)

    The interface between match units and the structures that look keys up,
    and its implementations: a hash map for exact keys, the trie for LPM keys,
    a linked list threaded through a vector, with a cache, for ternary and
    range keys. The interface is the class [LookupStructure], its contract the
    class [LookupStructureLaws]; the match units are proved against it. *)

From S2P Require Import Prelude MatchKeyTypes LpmTrie.
Import MatchKeyTypes.

(** ** The interface

    The methods of [LookupStructure<K>]. [lookup] returns the structure too,
    since the ternary cache is [mutable]. A method is [None] where the C++
    code fails an assertion or has undefined behaviour. *)

Class LookupStructure (K L : Type) := {
  lookup : L → list Z → option (L * option Z);
  entry_exists : L → K → option bool;
  retrieve_handle : L → K → option (option Z);
  add_entry : L → K → Z → option L;
  delete_entry : L → K → option L;
  clear : L → option L;
}.

(** What the keys of a type mean: when two are the same entry, which packets'
    keys one matches, and which of two matching entries (key and handle) wins. *)
Class KeySpec (K : Type) := {
  same : K → K → Prop;
  same_dec :: RelDecision same;
  matches : Z → K → list Z → Prop;       (** key width in bytes, key, looked up bytes *)
  prefer : K → Z → K → Z → Prop;
}.

(** The meaning of a key is that of its entry. *)
Class KeySpecLaws (K : Type) `{!KeySpec K} : Prop := {
  ks_matches w k k' d : same k k' → matches w k d → matches w k' d;
  ks_prefer k1 k1' k2 k2' h1 h2 : same k1 k1' → same k2 k2' → prefer k1 h1 k2 h2 → prefer k1' h1 k2' h2;
}.

(** The handle stored for a key. *)
Definition view {K L} `{LookupStructure K L} (l : L) (k : K) : option Z :=
  mjoin (retrieve_handle l k).

(** The terms in which a structure's contract is stated. *)
Class LookupContract (K L : Type) := {
  ls_inv : L → Prop;
  ls_width : L → Z;                      (** in bytes *)
  ls_capacity : L → Z → Prop;            (** handles it has room for *)
  ls_key_ok : Z → K → Prop;              (** keys of a width *)
  ls_limit : L → K → Prop;               (** keys it can add within its own limits *)
}.

Class LookupStructureLaws (K L : Type)
    `{!LookupStructure K L, !KeySpec K, !LookupContract K L} : Prop := {
  ls_same_equiv :: Equivalence same;
  ls_retrieve l k : ls_inv l → ls_key_ok (ls_width l) k →
    retrieve_handle l k = Some (view l k) ∧
    entry_exists l k = Some (bool_decide (is_Some (view l k)));
  ls_view_same l k k' : ls_inv l → ls_key_ok (ls_width l) k → ls_key_ok (ls_width l) k' →
    same k k' → view l k = view l k';
  ls_lookup l d : ls_inv l → bytes_ok d → Z.of_nat (length d) = ls_width l →
    ∃ l' r, lookup l d = Some (l', r) ∧ ls_inv l' ∧ ls_width l' = ls_width l ∧
      (∀ h, ls_capacity l' h ↔ ls_capacity l h) ∧ (∀ k, view l' k = view l k) ∧
      match r with
      | Some h => ∃ k, ls_key_ok (ls_width l) k ∧ view l k = Some h ∧ matches (ls_width l) k d ∧
          ∀ k' h', ls_key_ok (ls_width l) k' → view l k' = Some h' → matches (ls_width l) k' d →
            ¬ prefer k' h' k h
      | None => ∀ k h, ls_key_ok (ls_width l) k → view l k = Some h → ¬ matches (ls_width l) k d
      end;
  ls_add l k h : ls_inv l → ls_key_ok (ls_width l) k → view l k = None → ls_limit l k →
    0 ≤ h → ls_capacity l h →
    (∀ k', ls_key_ok (ls_width l) k' → view l k' ≠ Some h) →
    (∀ h', 0 ≤ h' < h → ∃ k', ls_key_ok (ls_width l) k' ∧ view l k' = Some h') →
    ∃ l', add_entry l k h = Some l' ∧ ls_inv l' ∧ ls_width l' = ls_width l ∧
      (∀ h, ls_capacity l' h ↔ ls_capacity l h) ∧
      ∀ k', ls_key_ok (ls_width l) k' →
        view l' k' = if decide (same k k') then Some h else view l k';
  ls_delete l k : ls_inv l → ls_key_ok (ls_width l) k → is_Some (view l k) →
    ∃ l', delete_entry l k = Some l' ∧ ls_inv l' ∧ ls_width l' = ls_width l ∧
      (∀ h, ls_capacity l' h ↔ ls_capacity l h) ∧
      ∀ k', ls_key_ok (ls_width l) k' →
        view l' k' = if decide (same k k') then None else view l k';
  ls_clear l : ls_inv l →
    ∃ l', clear l = Some l' ∧ ls_inv l' ∧ ls_width l' = ls_width l ∧
      (∀ h, ls_capacity l' h ↔ ls_capacity l h) ∧
      ∀ k, ls_key_ok (ls_width l) k → view l' k = None;
}.

(** ** Exact matches: a hash map *)

Module ExactMap.

Record ExactMap := { entries_map : gmap (list Z) Z }.

Definition lookup (l : ExactMap) (key : list Z) : option Z := entries_map l !! key.

Definition entry_exists (l : ExactMap) (key : ExactMatchKey) : bool :=
  bool_decide (is_Some (entries_map l !! data key)).

Definition retrieve_handle (l : ExactMap) (key : ExactMatchKey) : option Z :=
  entries_map l !! data key.

Definition add_entry (l : ExactMap) (key : ExactMatchKey) (handle : Z) : ExactMap :=
  {| entries_map := <[data key := handle]> (entries_map l) |}.

Definition delete_entry (l : ExactMap) (key : ExactMatchKey) : ExactMap :=
  {| entries_map := delete (data key) (entries_map l) |}.

Definition clear (l : ExactMap) : ExactMap := {| entries_map := ∅ |}.
End ExactMap.

(** The factory is given the width of the keys, which a hash map does not need
    ([create_for_exact] drops it); it is kept here to state the contract. *)
Record exact_table := { exact_width : Z; exact_map : ExactMap.ExactMap }.

#[export] Instance ExactMap_LookupStructure : LookupStructure ExactMatchKey exact_table := {
  lookup l d := Some (l, ExactMap.lookup (exact_map l) d);
  entry_exists l k := Some (ExactMap.entry_exists (exact_map l) k);
  retrieve_handle l k := Some (ExactMap.retrieve_handle (exact_map l) k);
  add_entry l k h := Some {| exact_width := exact_width l; exact_map := ExactMap.add_entry (exact_map l) k h |};
  delete_entry l k := Some {| exact_width := exact_width l; exact_map := ExactMap.delete_entry (exact_map l) k |};
  clear l := Some {| exact_width := exact_width l; exact_map := ExactMap.clear (exact_map l) |};
}.

#[export] Instance ExactMatchKey_spec : KeySpec ExactMatchKey := {
  same k k' := data k = data k';
  same_dec k k' := decide (data k = data k');
  matches _ k d := data k = d;
  prefer _ _ _ _ := False;
}.

#[export] Instance ExactMatchKey_spec_laws : KeySpecLaws ExactMatchKey.
Proof. constructor; cbn; [congruence|done]. Qed.

#[export] Instance ExactMap_contract : LookupContract ExactMatchKey exact_table := {
  ls_inv _ := True;
  ls_width := exact_width;
  ls_capacity _ _ := True;
  ls_key_ok w k := bytes_ok (data k) ∧ Z.of_nat (length (data k)) = w;
  ls_limit _ _ := True;
}.

#[export] Instance ExactMap_laws : LookupStructureLaws ExactMatchKey exact_table.
Proof.
  constructor; unfold view; cbn.
  - split; [by intros ?|by intros ?|intros ???; congruence].
  - done.
  - intros l k k' _ _ _ Hs. unfold ExactMap.retrieve_handle. by f_equal.
  - intros l d _ Hd Hlen. eexists l, _. split_and!; [done..|].
    unfold ExactMap.lookup, ExactMap.retrieve_handle. destruct (ExactMap.entries_map (exact_map l) !! d) eqn:E.
    + exists {| exact_base := {| data := d; version := 0 |} |}. simpl. split_and!; try done. tauto.
    + simpl. intros k h _ Hk Heq. rewrite Heq in Hk. congruence.
  - intros l k h _ _ _ _ _ _ _ _. eexists. split_and!; [done..|]. intros k' _.
    unfold ExactMap.retrieve_handle, ExactMap.add_entry. simpl. by rewrite lookup_insert.
  - intros l k _ _ _. eexists. split_and!; [done..|]. intros k' _.
    unfold ExactMap.retrieve_handle, ExactMap.delete_entry. simpl. by rewrite lookup_delete.
  - intros l _. eexists. split_and!; [done..|]. intros k _.
    unfold ExactMap.retrieve_handle, ExactMap.clear. simpl. by rewrite lookup_empty.
Qed.

(** ** Longest prefix matches: the trie *)

Module LPMTrieStructure.
Section lpm.
Context {J : Type} `{!JudyL J}.

(** [class LPMTrie] of lpm_trie.h, whose methods call the C functions. *)
Record LPMTrie := { key_width_bytes : Z; trie : LpmTrie.trie J }.

Definition new (key_width_bytes : Z) : option LPMTrie :=
  t ← LpmTrie.bf_lpm_trie_create key_width_bytes true;
  Some {| key_width_bytes := key_width_bytes; trie := t |}.

Definition lookup (l : LPMTrie) (key_data : list Z) : option (option Z) :=
  LpmTrie.bf_lpm_trie_lookup (trie l) key_data.

Definition entry_exists (l : LPMTrie) (key : LPMMatchKey) : option bool :=
  LpmTrie.bf_lpm_trie_has_prefix (trie l) (data key) (prefix_length key).

Definition retrieve_handle (l : LPMTrie) (key : LPMMatchKey) : option (option Z) :=
  LpmTrie.bf_lpm_trie_retrieve_value (trie l) (data key) (prefix_length key).

Definition add_entry (l : LPMTrie) (key : LPMMatchKey) (handle : Z) : option LPMTrie :=
  t ← LpmTrie.bf_lpm_trie_insert (trie l) (data key) (prefix_length key) handle;
  Some {| key_width_bytes := key_width_bytes l; trie := t |}.

Definition delete_entry (l : LPMTrie) (key : LPMMatchKey) : option LPMTrie :=
  '(t, _) ← LpmTrie.bf_lpm_trie_delete (trie l) (data key) (prefix_length key);
  Some {| key_width_bytes := key_width_bytes l; trie := t |}.

Definition clear (l : LPMTrie) : option LPMTrie :=
  t ← LpmTrie.bf_lpm_trie_create (key_width_bytes l) true;
  Some {| key_width_bytes := key_width_bytes l; trie := t |}.
End lpm.
Arguments LPMTrie J : clear implicits.
End LPMTrieStructure.

#[export] Instance LPMTrie_LookupStructure {J} `{JudyL J} :
  LookupStructure LPMMatchKey (LPMTrieStructure.LPMTrie J) := {
  lookup l d := r ← LPMTrieStructure.lookup l d; Some (l, r);
  entry_exists := LPMTrieStructure.entry_exists;
  retrieve_handle := LPMTrieStructure.retrieve_handle;
  add_entry := LPMTrieStructure.add_entry;
  delete_entry := LPMTrieStructure.delete_entry;
  clear := LPMTrieStructure.clear;
}.

#[export] Instance same_prefix_dec : RelDecision (λ k k' : LPMMatchKey,
  LpmTrie.same_prefix (data k) (prefix_length k) (data k') (prefix_length k')).
Proof.
  intros k k'. refine (cast_if_and (decide (prefix_length k = prefix_length k'))
    (decide (Forall (λ i, bit_at (data k) i = bit_at (data k') i) (seqZ 0 (prefix_length k)))));
    unfold LpmTrie.same_prefix in *; rewrite ?Forall_forall in *; try tauto.
  - split; [done|]. intros i Hi. match goal with H : ∀ _, _ → _ |- _ => apply H end.
    apply elem_of_seqZ. lia.
  - intros [_ H]. match goal with N : ¬ _ |- _ => apply N end. intros i ?%elem_of_seqZ. apply H. lia.
Defined.

#[export] Instance LPMMatchKey_spec : KeySpec LPMMatchKey := {
  same k k' := LpmTrie.same_prefix (data k) (prefix_length k) (data k') (prefix_length k');
  matches _ k d := LpmTrie.same_prefix (data k) (prefix_length k) d (prefix_length k);
  prefer k' _ k _ := prefix_length k < prefix_length k';
}.

#[export] Instance LPMMatchKey_spec_laws : KeySpecLaws LPMMatchKey.
Proof.
  constructor; cbn; unfold LpmTrie.same_prefix.
  - intros _ k k' d [<- E] [_ Hm]. split; [done|]. intros i Hi. by rewrite <- E, Hm.
  - intros k1 k1' k2 k2' _ _ [<- _] [<- _]. done.
Qed.

#[export] Instance LPMTrie_contract {J} `{JudyL J} :
  LookupContract LPMMatchKey (LPMTrieStructure.LPMTrie J) := {
  ls_inv l := let t := LPMTrieStructure.trie l in
    LpmTrie.trie_wf t ∧ LpmTrie.no_full (LpmTrie.heap t) ∧ LpmTrie.release_memory t = true ∧
    LpmTrie.key_width_bytes t = LPMTrieStructure.key_width_bytes l ∧
    0 ≤ LPMTrieStructure.key_width_bytes l ≤ 64;
  ls_width := LPMTrieStructure.key_width_bytes;
  ls_capacity _ _ := True;
  ls_key_ok w k := LpmTrie.valid_prefix (data k) (prefix_length k) ∧ Z.of_nat (length (data k)) = w;
  (* no node gets all its 256 children *)
  ls_limit l k := ∀ h t', LpmTrie.bf_lpm_trie_insert (LPMTrieStructure.trie l) (data k) (prefix_length k) h
    = Some t' → LpmTrie.no_full (LpmTrie.heap t');
}.

Section lpm_laws.
Context {J : Type} `{JudyLLaws J}.
Implicit Types (l : LPMTrieStructure.LPMTrie J) (k : LPMMatchKey).

Lemma lpm_retrieve l k :
  ls_inv l → ls_key_ok (ls_width l) k →
  retrieve_handle l k = Some (LpmTrie.prefix_value (LPMTrieStructure.trie l) (data k) (prefix_length k)).
Proof.
  intros (Hwf & _) [Hv _]. cbn. unfold LPMTrieStructure.retrieve_handle.
  by apply LpmTrie.retrieve_value_spec.
Qed.

Lemma lpm_view l k :
  ls_inv l → ls_key_ok (ls_width l) k →
  view l k = LpmTrie.prefix_value (LPMTrieStructure.trie l) (data k) (prefix_length k).
Proof. intros. unfold view. by rewrite lpm_retrieve. Qed.

Lemma lpm_lookup l d :
  ls_inv l → bytes_ok d → Z.of_nat (length d) = ls_width l →
  ∃ r, lookup l d = Some (l, r) ∧
    match r with
    | Some h => ∃ k, ls_key_ok (ls_width l) k ∧ view l k = Some h ∧ matches (ls_width l) k d ∧
        ∀ k' h', ls_key_ok (ls_width l) k' → view l k' = Some h' → matches (ls_width l) k' d →
          ¬ prefer k' h' k h
    | None => ∀ k h, ls_key_ok (ls_width l) k → view l k = Some h → ¬ matches (ls_width l) k d
    end.
Proof.
  intros Hinv Hd Hlen. pose proof Hinv as (Hwf & _ & _ & Hkw & Hw).
  cbn [ls_width LPMTrie_contract] in Hlen.
  change (lookup l d) with (r ← LPMTrieStructure.lookup l d; Some (l, r)).
  unfold LPMTrieStructure.lookup. rewrite LpmTrie.trie_lookup_spec by (done || lia).
  rewrite Hkw. msimpl. eexists. split; [done|].
  set (w := LPMTrieStructure.key_width_bytes l) in *.
  pose proof (LpmTrie.longest_spec (LpmTrie.prefix_value (LPMTrieStructure.trie l) d) (8 * Z.to_nat w)) as Hl.
  replace (Z.of_nat (8 * Z.to_nat w)) with (8 * w) in Hl by lia.
  (* a matching key has the value of the looked up bytes' prefix of its length *)
  assert (∀ k h, ls_key_ok w k → view l k = Some h → matches w k d →
    0 ≤ prefix_length k ≤ 8 * w ∧
    LpmTrie.prefix_value (LPMTrieStructure.trie l) d (prefix_length k) = Some h) as Hmatch.
  { intros k h [Hv Hlk] Hk Hm. pose proof Hv as [_ Hr]. rewrite lpm_view in Hk by (done || by split).
    split; [lia|]. rewrite <- Hk. apply (LpmTrie.same_prefix_key _ _ _ _ Hv) in Hm as [E1 E2];
      [|split; [done|lia]].
    unfold LpmTrie.prefix_value. by rewrite E1, E2. }
  destruct (LpmTrie.longest _ _) as [v|].
  - destruct Hl as (m & Hm & Hv & Hlong).
    exists {| lpm_base := {| data := d; version := 0 |}; prefix_length := m |}.
    assert (ls_key_ok w {| lpm_base := {| data := d; version := 0 |}; prefix_length := m |}) as Hok
      by (split; [split; [done|simpl; lia]|done]).
    split; [done|]. split; [by rewrite lpm_view|]. split; [done|].
    intros k' h' Hk' Hv' Hm'. destruct (Hmatch k' h' Hk' Hv' Hm') as [Hr He]. cbn. intros Hlt.
    rewrite Hlong in He; [done|lia].
  - intros k h Hk Hv Hm. destruct (Hmatch k h Hk Hv Hm) as [Hr He]. rewrite Hl in He; [done|lia].
Qed.

(** Deletion, of a prefix that may be there or not. *)
Lemma lpm_delete l k : ls_inv l → ls_key_ok (ls_width l) k →
  ∃ l', delete_entry l k = Some l' ∧ ls_inv l' ∧ ls_width l' = ls_width l ∧
    (∀ h, ls_capacity l' h ↔ ls_capacity l h) ∧
    ∀ k', ls_key_ok (ls_width l) k' → view l' k' = if decide (same k k') then None else view l k'.
Proof.
  intros Hinv Hk. pose proof Hinv as (Hwf & Hfull & Hrel & Hkw & Hw). destruct Hk as [Hv Hlen].
  destruct (LpmTrie.delete_value (LPMTrieStructure.trie l) (data k) (prefix_length k) Hwf Hfull Hrel Hv)
    as (t' & Hdel & Hwf' & Hfull' & Hroot & Hkw' & Hrel' & Hval).
  cbn [delete_entry LPMTrie_LookupStructure]. unfold LPMTrieStructure.delete_entry. rewrite Hdel. msimpl. eexists. split; [done|].
  assert (ls_inv {| LPMTrieStructure.key_width_bytes := LPMTrieStructure.key_width_bytes l;
    LPMTrieStructure.trie := t' |}) as Hinv'.
  { split_and!; cbn; [done|done|congruence|congruence|lia|lia]. }
  split; [exact Hinv'|]. split; [done|]. split; [done|]. intros k' Hk'. rewrite !lpm_view by done.
  destruct (LpmTrie.prefix_value_update _ _ _ _ None Hval Hv _ _ (proj1 Hk')) as [E1 E2].
  case_decide; [by apply E1|by apply E2].
Qed.

#[export] Instance LPMTrie_laws : LookupStructureLaws LPMMatchKey (LPMTrieStructure.LPMTrie J).
Proof.
  constructor.
  - split.
    + done.
    + intros x y [E1 E2]. split; [done|]. intros. symmetry. apply E2. lia.
    + intros x y z [E1 E2] [E3 E4]. split; [congruence|]. intros. rewrite E2 by done. apply E4. lia.
  - intros l k Hinv Hk. rewrite lpm_view by done. split; [by apply lpm_retrieve|].
    cbn. unfold LPMTrieStructure.entry_exists, LpmTrie.bf_lpm_trie_has_prefix.
    destruct Hk as [Hv _], Hinv as [Hwf _]. rewrite LpmTrie.retrieve_value_spec by done. msimpl.
    destruct (LpmTrie.prefix_value _ _ _); [by rewrite bool_decide_true by eauto|].
    rewrite bool_decide_false; [done|]. by intros [? ?].
  - intros l k k' Hinv Hk Hk' Hs. rewrite !lpm_view by done. unfold LpmTrie.prefix_value.
    by destruct (proj2 (LpmTrie.same_prefix_key _ _ _ _ (proj1 Hk) (proj1 Hk')) Hs) as [-> ->].
  - intros l d Hinv Hd Hlen. destruct (lpm_lookup l d Hinv Hd Hlen) as (r & -> & Hr).
    exists l, r. split_and!; done.
  - intros l k h Hinv Hk Hnone Hlim Hh _ _ _. pose proof Hinv as (Hwf & Hfull & Hrel & Hkw & Hw).
    rewrite lpm_view in Hnone by done. destruct Hk as [Hv Hlen].
    destruct (LpmTrie.insert_value (LPMTrieStructure.trie l) (data k) (prefix_length k) h)
      as (t' & Hins & Hwf' & Hroot & Hkw' & Hrel' & Hval); [done|done|congruence|].
    cbn [add_entry LPMTrie_LookupStructure]. unfold LPMTrieStructure.add_entry. rewrite Hins. msimpl. eexists. split; [done|]. 
    assert (ls_inv {| LPMTrieStructure.key_width_bytes := LPMTrieStructure.key_width_bytes l;
      LPMTrieStructure.trie := t' |}) as Hinv'.
    { split_and!; cbn; [done|by eapply Hlim|congruence|congruence|lia|lia]. }
    split; [exact Hinv'|]. split; [done|]. split; [done|]. intros k' Hk'. rewrite !lpm_view by done.
    destruct (LpmTrie.prefix_value_update _ _ _ _ (Some h) Hval Hv _ _ (proj1 Hk')) as [E1 E2].
    case_decide; [by apply E1|by apply E2].
  - intros l k Hinv Hk _. by apply lpm_delete.
  - intros l (Hwf & Hfull & Hrel & Hkw & Hw). cbn. unfold LPMTrieStructure.clear.
    destruct (LpmTrie.trie_create (J := J) (LPMTrieStructure.key_width_bytes l) true)
      as (t' & -> & Hwf' & Hfull' & Hkw' & Hrel' & Hval); [lia|].
    msimpl. eexists. split; [done|].
    assert (ls_inv {| LPMTrieStructure.key_width_bytes := LPMTrieStructure.key_width_bytes l;
      LPMTrieStructure.trie := t' |}) as Hinv' by (split_and!; cbn; done || lia).
    split; [exact Hinv'|]. split; [done|]. split; [done|]. intros k Hk. change (view {| LPMTrieStructure.key_width_bytes := LPMTrieStructure.key_width_bytes l;
      LPMTrieStructure.trie := t' |} k = None). rewrite lpm_view by done. apply Hval.
Qed.
End lpm_laws.
