(* ===== verification/TernaryCache.v ===== *)
(** * The cache of ternary lookups (src/bm_sim/lookup_structures.cpp)

    [TernaryCache]: an LRU cache made of a [std::list] of entries, most
    recently used first, and a map from keys to its iterators. An iterator is
    the identity of a list node, which [splice] preserves. The mutex is not
    modelled: every method holds it from its first statement to its return. *)

From S2P Require Import Prelude.

Module TernaryCache.

Record CacheEntry := {
  node : Z;            (** identity of the list node: its iterator *)
  handle : Z;
  key : list Z;
}.

Record TernaryCache := {
  entries : list CacheEntry;          (** std::list, most recently used first *)
  cache : gmap (list Z) Z;            (** key to iterator *)
}.

(** The template parameter [S], 64 by default. *)
Definition S_default : nat := 64.

Definition empty : TernaryCache := {| entries := []; cache := ∅ |}.

(** Dereferencing an iterator. *)
Definition deref (l : list CacheEntry) (it : Z) : option CacheEntry :=
  list_find (λ e, node e = it) l ≫= λ p, Some p.2.

(** [entries.splice(entries.begin(), entries, map_it->second)] *)
Definition move_to_head (c : TernaryCache) (it : Z) : option TernaryCache :=
  e ← deref (entries c) it;
  Some {| entries := e :: filter (λ e', node e' ≠ it) (entries c); cache := cache c |}.

Definition lookup (c : TernaryCache) (key_data : list Z) : option (TernaryCache * option Z) :=
  match cache c !! key_data with
  | Some it =>
      e ← deref (entries c) it;
      c ← move_to_head c it;
      Some (c, Some (handle e))
  | None => Some (c, None)
  end.

Definition add (S : nat) (c : TernaryCache) (key_data : list Z) (handle : Z)
    : option (TernaryCache * bool) :=
  match cache c !! key_data with
  | Some _ => Some (c, false)
  | None =>
      c ← (if decide (size (cache c) = S) then  (* cache is full *)
             evict ← last (entries c);
             if decide (is_Some (cache c !! key evict)) then
               Some {| entries := removelast (entries c); cache := delete (key evict) (cache c) |}
             else None
           else Some c);
      let n := fresh_id (node <$> entries c) in
      Some ({| entries := {| node := n; handle := handle; key := key_data |} :: entries c;
               cache := <[key_data := n]> (cache c) |}, true)
  end.

Definition invalidate_all (_ : TernaryCache) : TernaryCache := empty.

(** ** Representation *)

(** The contents, most recently used first. *)
Definition contents (c : TernaryCache) : list (list Z * Z) := (λ e, (key e, handle e)) <$> entries c.

Record ok (S : nat) (c : TernaryCache) : Prop := {
  ok_nodes : NoDup (node <$> entries c);
  ok_keys : NoDup (key <$> entries c);
  ok_cache k it : cache c !! k = Some it ↔ ∃ e, e ∈ entries c ∧ node e = it ∧ key e = k;
  ok_size : (length (entries c) ≤ S)%nat;
}.

(** *** The abstract cache: a list of at most [S] bindings *)

Definition lru_find (l : list (list Z * Z)) (k : list Z) : option Z :=
  list_find (λ p, p.1 = k) l ≫= λ r, Some r.2.2.

Definition lru_touch (l : list (list Z * Z)) (k : list Z) : list (list Z * Z) :=
  match lru_find l k with
  | Some h => (k, h) :: filter (λ p, p.1 ≠ k) l
  | None => l
  end.

Definition lru_add (S : nat) (l : list (list Z * Z)) (k : list Z) (h : Z) : list (list Z * Z) :=
  match lru_find l k with
  | Some _ => l
  | None => (k, h) :: (if decide (length l = S) then removelast l else l)
  end.

Section proofs.
Context (S : nat).
Implicit Types (c : TernaryCache) (e : CacheEntry).

Lemma empty_ok : ok S empty.
Proof.
  split; simpl; [constructor|constructor| |lia].
  intros k it. rewrite lookup_empty. split; [done|]. by intros (e & ?%not_elem_of_nil & _).
Qed.

Lemma deref_in l e : NoDup (node <$> l) → e ∈ l → deref l (node e) = Some e.
Proof.
  intros Hnd Hin. unfold deref. apply list_elem_of_lookup in Hin as [i Hi].
  assert (list_find (λ e', node e' = node e) l = Some (i, e)) as ->; [|done].
  apply list_find_Some. split_and!; [done|done|]. intros j e' Hj Hlt Heq.
  assert (j = i); [|lia]. eapply (NoDup_lookup _ _ _ (node e)); [exact Hnd| |].
  - by rewrite list_lookup_fmap, Hj, <- Heq.
  - by rewrite list_lookup_fmap, Hi.
Qed.

Lemma lru_find_Some l k h : NoDup l.*1 → lru_find l k = Some h ↔ (k, h) ∈ l.
Proof.
  intros Hnd. unfold lru_find. split.
  - rewrite bind_Some. intros ([i [k' h']] & Hf & [= <-]).
    apply list_find_Some in Hf as (Hi & [= <-] & _). by eapply list_elem_of_lookup_2.
  - intros Hin. apply list_elem_of_lookup in Hin as [i Hi].
    assert (list_find (λ p : list Z * Z, p.1 = k) l = Some (i, (k, h))) as ->; [|done].
    apply list_find_Some. split_and!; [done|done|]. intros j [k' h'] Hj Hlt [= ->].
    assert (j = i); [|lia]. eapply (NoDup_lookup _ _ _ k); [exact Hnd| |].
    + by rewrite list_lookup_fmap, Hj.
    + by rewrite list_lookup_fmap, Hi.
Qed.

Lemma contents_keys c : (contents c).*1 = key <$> entries c.
Proof. unfold contents. rewrite <- list_fmap_compose. done. Qed.

(** The map agrees with the list. *)
Lemma cache_find c k :
  ok S c → (∃ e, e ∈ entries c ∧ key e = k ∧ cache c !! k = Some (node e) ∧
      lru_find (contents c) k = Some (handle e)) ∨
    (cache c !! k = None ∧ lru_find (contents c) k = None).
Proof.
  intros Hok. destruct (cache c !! k) as [it|] eqn:E.
  - left. apply (ok_cache _ _ Hok) in E as (e & He & <- & <-).
    exists e. split_and!; [done..|]. apply lru_find_Some.
    + rewrite contents_keys. apply (ok_keys _ _ Hok).
    + unfold contents. apply list_elem_of_fmap. eauto.
  - right. split; [done|]. destruct (lru_find _ _) as [h|] eqn:Ef; [|done].
    apply lru_find_Some in Ef; [|rewrite contents_keys; apply (ok_keys _ _ Hok)].
    unfold contents in Ef. apply list_elem_of_fmap in Ef as (e & [= -> ->] & He).
    assert (cache c !! key e = Some (node e)); [|congruence]. apply (ok_cache _ _ Hok). eauto.
Qed.

(** A node is identified by its key as well. *)
Lemma node_key c e e' :
  ok S c → e ∈ entries c → e' ∈ entries c → (node e' = node e ↔ key e' = key e).
Proof.
  intros Hok He He'. split; intros Heq.
  - assert (cache c !! key e = Some (node e)) as E by (apply (ok_cache _ _ Hok); eauto).
    assert (cache c !! key e' = Some (node e')) as E' by (apply (ok_cache _ _ Hok); eauto).
    apply list_elem_of_lookup in He as [i Hi], He' as [j Hj].
    assert (i = j) as ->; [|congruence]. eapply (NoDup_lookup _ _ _ (node e)); [apply (ok_nodes _ _ Hok)|..];
      rewrite list_lookup_fmap, ?Hi, ?Hj; simpl; congruence.
  - assert (cache c !! key e = Some (node e)) as E by (apply (ok_cache _ _ Hok); eauto).
    assert (cache c !! key e' = Some (node e')) as E' by (apply (ok_cache _ _ Hok); eauto).
    congruence.
Qed.

Lemma move_to_head_filter c e :
  ok S c → e ∈ entries c →
  (λ e, (key e, handle e)) <$> filter (λ e', node e' ≠ node e) (entries c) =
  filter (λ p, p.1 ≠ key e) (contents c).
Proof.
  intros Hok He. unfold contents.
  assert (∀ l : list CacheEntry, (∀ e', e' ∈ l → e' ∈ entries c) →
    (λ e, (key e, handle e)) <$> filter (λ e', node e' ≠ node e) l =
    filter (λ p, p.1 ≠ key e) ((λ e, (key e, handle e)) <$> l)) as Hl; [|by apply Hl].
  induction l as [|e' l IH]; intros Hin; [done|].
  assert (node e' = node e ↔ key e' = key e) as Hk by (apply (node_key c); [done..|apply Hin; set_solver]).
  rewrite fmap_cons, !filter_cons. simpl.
  destruct (decide (node e' ≠ node e)) as [n|n], (decide (key e' ≠ key e)) as [n'|n']; try tauto;
    rewrite ?fmap_cons, IH by (intros; apply Hin; set_solver); done.
Qed.

Lemma head_perm c e :
  ok S c → e ∈ entries c → e :: filter (λ e', node e' ≠ node e) (entries c) ≡ₚ entries c.
Proof.
  intros Hok He. pose proof (ok_nodes _ _ Hok) as Hnd. revert Hnd He. generalize (entries c) as l.
  clear Hok. induction l as [|x l IH]; intros Hnd He; [by apply not_elem_of_nil in He|].
  apply NoDup_cons in Hnd as [Hx Hnd]. rewrite filter_cons.
  apply elem_of_cons in He as [->|He].
  - rewrite decide_False by tauto. f_equiv.
    clear IH Hnd. induction l as [|y l IH]; [done|].
    apply not_elem_of_cons in Hx as [Hxy Hx]. rewrite filter_cons_True by congruence. by rewrite IH.
  - rewrite decide_True.
    + rewrite <- (IH Hnd He) at 2. apply Permutation_swap.
    + intros Heq. apply Hx. rewrite Heq. apply list_elem_of_fmap. eauto.
Qed.

(** A lookup is one in the list of bindings, and makes the binding the most recent one. *)
Lemma lookup_refines c k :
  ok S c → ∃ c', lookup c k = Some (c', lru_find (contents c) k) ∧ ok S c' ∧
    contents c' = lru_touch (contents c) k.
Proof.
  intros Hok. unfold lookup, lru_touch.
  destruct (cache_find c k Hok) as [(e & He & <- & Ec & ->)|[-> ->]]; [|eauto].
  rewrite Ec. unfold move_to_head. rewrite (deref_in _ _ (ok_nodes _ _ Hok) He). msimpl.
  eexists. split; [done|]. pose proof (head_perm _ _ Hok He) as Hp. split.
  - constructor; cbn [entries cache].
    + rewrite Hp. apply Hok.
    + rewrite Hp. apply Hok.
    + intros k it. rewrite (ok_cache _ _ Hok). by setoid_rewrite Hp.
    + pose proof (ok_size _ _ Hok). apply Permutation_length in Hp. cbn [length] in *. lia.
  - unfold contents at 1. simpl. f_equal. by apply move_to_head_filter.
Qed.

Lemma ok_map_size c : ok S c → size (cache c) = length (entries c).
Proof.
  intros Hok. assert (cache c = list_to_map ((λ e, (key e, node e)) <$> entries c)) as ->.
  - apply map_eq. intros k. apply option_eq. intros it. rewrite (ok_cache _ _ Hok).
    rewrite <- elem_of_list_to_map.
    + rewrite list_elem_of_fmap. split; intros (e & H1); [|destruct H1; simplify_eq; eauto].
      exists e. destruct H1 as (? & <- & <-). done.
    + rewrite <- list_fmap_compose. apply (ok_keys _ _ Hok).
  - rewrite map_size_list_to_map; [by rewrite length_fmap|].
    rewrite <- list_fmap_compose. apply (ok_keys _ _ Hok).
Qed.

(** Evicting the least recently used binding. *)
Lemma evict_ok c e :
  ok S c → last (entries c) = Some e →
  let c' := {| entries := removelast (entries c); cache := delete (key e) (cache c) |} in
  is_Some (cache c !! key e) ∧ ok S c' ∧ contents c' = removelast (contents c).
Proof.
  intros Hok Hlast c'. apply last_Some in Hlast as [l Hl].
  pose proof (ok_nodes _ _ Hok) as Hn. pose proof (ok_keys _ _ Hok) as Hk. pose proof (ok_size _ _ Hok) as Hs.
  rewrite Hl, fmap_app in Hn. rewrite Hl, fmap_app in Hk.
  apply NoDup_app in Hn as (Hn & _ & _), Hk as (Hk & Hk' & _).
  assert (removelast (entries c) = l) as Hrl by (rewrite Hl; apply removelast_last).
  split_and!.
  - exists (node e). apply (ok_cache _ _ Hok). exists e. rewrite Hl. set_solver.
  - unfold c'. rewrite Hrl. constructor; simpl; [done|done| |].
    + intros k it. rewrite lookup_delete. case_decide as Hd.
      * split; [done|]. intros (e' & He' & _ & Hke). exfalso. apply (Hk' (key e')).
        -- apply list_elem_of_fmap. eauto.
        -- simpl. rewrite Hke, Hd. set_solver.
      * rewrite (ok_cache _ _ Hok), Hl. split; intros (e' & He' & ? & ?); exists e'; set_solver.
    + rewrite Hl, length_app in Hs. lia.
  - unfold contents, c'. simpl. rewrite Hrl, Hl, fmap_app. simpl. by rewrite removelast_last.
Qed.

Lemma push_ok c k h :
  ok S c → cache c !! k = None → (length (entries c) < S)%nat →
  let n := fresh_id (node <$> entries c) in
  let c' := {| entries := {| node := n; handle := h; key := k |} :: entries c;
               cache := <[k := n]> (cache c) |} in
  ok S c' ∧ contents c' = (k, h) :: contents c.
Proof.
  intros Hok Hk Hlen n c'. split; [|done]. constructor; simpl.
  - constructor; [apply fresh_id_spec|apply Hok].
  - constructor; [|apply Hok]. rewrite list_elem_of_fmap. intros (e & -> & He).
    assert (cache c !! key e = Some (node e)); [|congruence]. apply (ok_cache _ _ Hok). eauto.
  - intros k' it. rewrite lookup_insert. case_decide as Hd.
    + subst k'. split.
      * intros [= <-]. eexists. split; [by left|done].
      * intros (e & [->|He]%elem_of_cons & <- & Hke); [done|].
        assert (cache c !! k = Some (node e)); [|congruence]. apply (ok_cache _ _ Hok). eauto.
    + rewrite (ok_cache _ _ Hok). split; intros (e & He & ? & ?); exists e.
      * split; [by right|done].
      * apply elem_of_cons in He as [->|He]; done.
  - lia.
Qed.

(** Adding a key pushes it in front, and drops the last one of a full cache. *)
Lemma add_refines c k h :
  (0 < S)%nat → ok S c →
  ∃ c', add S c k h = Some (c', bool_decide (lru_find (contents c) k = None)) ∧ ok S c' ∧
    contents c' = lru_add S (contents c) k h.
Proof.
  intros HS Hok. unfold add, lru_add.
  destruct (cache_find c k Hok) as [(e & He & <- & -> & ->)|[Ek Ef]].
  { exists c. done. }
  rewrite Ek, Ef. rewrite ok_map_size by done.
  assert (length (contents c) = length (entries c)) as -> by apply length_fmap.
  destruct (decide (length (entries c) = S)) as [Hfull|Hfull].
  - destruct (last (entries c)) as [e|] eqn:El.
    2: { apply last_None in El. rewrite El in Hfull. simpl in Hfull. lia. }
    destruct (evict_ok c e Hok El) as (Hs & Hok' & Hc'). msimpl. rewrite decide_True by done. msimpl.
    eexists. split; [by rewrite bool_decide_true|].
    destruct (push_ok _ k h Hok') as [? Hp]; [| |split; [done|by rewrite Hp, Hc']].
    + simpl. rewrite lookup_delete. by case_decide.
    + simpl. destruct (entries c) as [|x l] eqn:E using rev_ind; [simpl in *; lia|].
      rewrite removelast_last. rewrite length_app in Hfull. simpl in Hfull. lia.
  - msimpl. eexists. split; [by rewrite bool_decide_true|].
    pose proof (ok_size _ _ Hok). apply push_ok; [done|done|lia].
Qed.
End proofs.
End TernaryCache.

(** ** Properties *)

(** The cache is an LRU list of at most [S] bindings: a hit moves its
    binding to the front, an addition to a full cache drops the last one. *)
Theorem cache_is_lru S c k h :
  (0 < S)%nat → TernaryCache.ok S c →
  (∃ c', TernaryCache.lookup c k = Some (c', TernaryCache.lru_find (TernaryCache.contents c) k) ∧
    TernaryCache.ok S c' ∧
    TernaryCache.contents c' = TernaryCache.lru_touch (TernaryCache.contents c) k) ∧
  (∃ c' b, TernaryCache.add S c k h = Some (c', b) ∧ TernaryCache.ok S c' ∧
    TernaryCache.contents c' = TernaryCache.lru_add S (TernaryCache.contents c) k h).
Proof.
  intros HS Hok. split; [by apply TernaryCache.lookup_refines|].
  destruct (TernaryCache.add_refines S c k h HS Hok) as (c' & E & ? & ?). eauto.
Qed.

Lemma cache_is_lru_witness :
  (∃ c', TernaryCache.lookup TernaryCache.empty [1] =
      Some (c', TernaryCache.lru_find (TernaryCache.contents TernaryCache.empty) [1]) ∧
    TernaryCache.ok 2 c' ∧
    TernaryCache.contents c' = TernaryCache.lru_touch (TernaryCache.contents TernaryCache.empty) [1]) ∧
  (∃ c' b, TernaryCache.add 2 TernaryCache.empty [1] 7 = Some (c', b) ∧ TernaryCache.ok 2 c' ∧
    TernaryCache.contents c' = TernaryCache.lru_add 2 (TernaryCache.contents TernaryCache.empty) [1] 7).
Proof. apply (cache_is_lru 2 TernaryCache.empty [1] 7); [lia|apply TernaryCache.empty_ok]. Defined.
