(* ===== verification/EntryList.v ===== *)
(** * The list of ternary and range entries (src/bm_sim/lookup_structures.cpp)

    [EntryList]: a doubly linked list threaded through a vector of entries and
    sorted by handle, scanned for the matching entry of least priority, with
    the cache of [TernaryCache.v] in front of the scan. Pointers to entries are
    indices in the vector, and [None] for null; an entry points to a key of the
    match unit, which does not change while it is linked, so the entry holds
    the key here. *)

From S2P Require Import Prelude MatchKeyTypes TernaryCache.
Import MatchKeyTypes.

Module EntryList.

Record Entry (K : Type) := {
  priority : Z;             (** duplicated from the key *)
  key : option K;           (** const K * *)
  prev : option Z;          (** Entry * *)
  next : option Z;
}.
Arguments priority {K} _.
Arguments key {K} _.
Arguments prev {K} _.
Arguments next {K} _.
Arguments Build_Entry {K} _ _ _ _.

Record EntryList (K : Type) := {
  head : option Z;
  entries : list (Entry K);
  entries_count : Z;
  enable_cache : bool;
  use_cache : bool;
  cache : TernaryCache.TernaryCache;
}.
Arguments head {K} _.
Arguments entries {K} _.
Arguments entries_count {K} _.
Arguments enable_cache {K} _.
Arguments use_cache {K} _.
Arguments cache {K} _.
Arguments Build_EntryList {K} _ _ _ _ _ _.

Definition cache_activation_min_entries : Z := 16.

(** The keys of an entry list: their priority and their [operator==]. *)
Class ListKey (K : Type) := {
  key_priority : K → Z;
  key_eqb : K → K → bool;
}.

Section definitions.
Context {K : Type} `{!ListKey K}.
Implicit Types (l : EntryList K) (es : list (Entry K)) (k : K).

Definition new (size : nat) (enable_cache : bool) : EntryList K :=
  Build_EntryList None (replicate size (Build_Entry 0 None None None)) 0 enable_cache false
    TernaryCache.empty.

Definition set_prev (p : option Z) (e : Entry K) : Entry K :=
  Build_Entry (priority e) (key e) p (next e).
Definition set_next (n : option Z) (e : Entry K) : Entry K :=
  Build_Entry (priority e) (key e) (prev e) n.

Definition cache_activated l : bool := use_cache l.

Definition update_use_cache l : EntryList K :=
  Build_EntryList (head l) (entries l) (entries_count l) (enable_cache l)
    (enable_cache l && (cache_activation_min_entries <=? entries_count l)) (cache l).

Definition set_cache l (c : TernaryCache.TernaryCache) : EntryList K :=
  Build_EntryList (head l) (entries l) (entries_count l) (enable_cache l) (use_cache l) c.

(** [if (cache_activated()) cache.invalidate_all(); update_use_cache();] *)
Definition table_modified l : EntryList K :=
  update_use_cache
    (if cache_activated l then set_cache l (TernaryCache.invalidate_all (cache l)) else l).

(** The scan of [lookup]; [None]: a dangling pointer, a failed comparison or
    out of fuel. Returns [min_entry], whose handle is its index. *)
Fixpoint lookup_loop (fuel : nat) es (cmp : list Z → K → option bool) (key_data : list Z)
    (entry : option Z) (min_priority : Z) (min_entry : option Z) : option (option Z) :=
  match entry with
  | None => Some min_entry
  | Some i =>
      match fuel with
      | O => None
      | S fuel' =>
          e ← vget es i;
          if min_priority <=? priority e then
            lookup_loop fuel' es cmp key_data (next e) min_priority min_entry
          else
            k ← key e;
            b ← cmp key_data k;
            if (b : bool) then lookup_loop fuel' es cmp key_data (next e) (priority e) (Some i)
            else lookup_loop fuel' es cmp key_data (next e) min_priority min_entry
      end
  end.

(** Every list of entries of the vector is at most as long as the vector. *)
Definition list_fuel l : nat := S (length (entries l)).

Definition lookup l (cmp : list Z → K → option bool) (key_data : list Z)
    : option (EntryList K * option Z) :=
  '(l, in_cache) ← (if cache_activated l then
                 '(c, r) ← TernaryCache.lookup (cache l) key_data; Some (set_cache l c, r)
               else Some (l, None));
  match in_cache with
  | Some handle => Some (l, Some handle)
  | None =>
      min_entry ← lookup_loop (list_fuel l) (entries l) cmp key_data (head l) INT_MAX None;
      match min_entry with
      | Some min_handle =>
          if cache_activated l then
            '(c, _) ← TernaryCache.add TernaryCache.S_default (cache l) key_data min_handle;
            Some (set_cache l c, Some min_handle)
          else Some (l, Some min_handle)
      | None => Some (l, None)
      end
  end.

Fixpoint find_loop (fuel : nat) es k (entry : option Z) : option (option Z) :=
  match entry with
  | None => Some None
  | Some i =>
      match fuel with
      | O => None
      | S fuel' =>
          e ← vget es i;
          if priority e =? key_priority k then
            k' ← key e;
            if key_eqb k' k then Some (Some i) else find_loop fuel' es k (next e)
          else find_loop fuel' es k (next e)
      end
  end.

Definition find_entry l k : option (option Z) :=
  find_loop (list_fuel l) (entries l) k (head l).

Definition exists_ l k : option bool :=
  entry ← find_entry l k; Some (bool_decide (is_Some entry)).

Definition retrieve_handle l k : option (option Z) := find_entry l k.

(** [if (entry.next) entry.next->prev = &entry;] *)
Definition link_prev es (n : option Z) (p : option Z) : option (list (Entry K)) :=
  match n with
  | Some j => vupd es j (set_prev p)
  | None => Some es
  end.

Definition add l k (handle : Z) : option (EntryList K) :=
  es ← vupd (entries l) handle (λ e, Build_Entry (key_priority k) (Some k) (prev e) (next e));
  '(hd, es) ← (if handle =? 0 then
    es ← vupd es handle (λ e, set_next (head l) (set_prev None e));
    es ← link_prev es (head l) (Some handle);
    Some (Some handle, es)
  else if decide (head l = Some handle) then None
  else
    prev_entry ← vget es (handle - 1);
    es ← vupd es handle (λ e, set_next (next prev_entry) (set_prev (Some (handle - 1)) e));
    es ← vupd es (handle - 1) (set_next (Some handle));
    es ← link_prev es (next prev_entry) (Some handle);
    Some (head l, es));
  Some (table_modified (Build_EntryList hd es (u64 (entries_count l + 1))
    (enable_cache l) (use_cache l) (cache l))).

Definition delete_entry l k : option (EntryList K) :=
  found ← find_entry l k;
  i ← found;
  e ← vget (entries l) i;
  '(hd, es) ← (match prev e with
    | Some p => es ← vupd (entries l) p (set_next (next e)); Some (head l, es)
    | None => Some (next e, entries l)
    end);
  es ← link_prev es (next e) (prev e);
  Some (table_modified (Build_EntryList hd es (u64 (entries_count l - 1))
    (enable_cache l) (use_cache l) (cache l))).

Definition clear l : EntryList K :=
  update_use_cache (Build_EntryList None (entries l) 0 (enable_cache l) (use_cache l)
    (TernaryCache.invalidate_all (cache l))).
End definitions.

(** ** The list a vector of entries represents *)

Section chains.
Context {K : Type} `{!ListKey K}.
Implicit Types (es : list (Entry K)) (c : list (Z * K)) (p s q n : option Z).

(** The entries of [c] (handle and key), linked from [s] to [n]; [p] is the
    predecessor of the first one and [q] the last one. *)
Fixpoint chain es p s c q n : Prop :=
  match c with
  | [] => s = n ∧ p = q
  | (h, k) :: c' => s = Some h ∧ ∃ nx,
      vget es h = Some (Build_Entry (key_priority k) (Some k) p nx) ∧ chain es (Some h) nx c' q n
  end.

Lemma chain_app es c1 : ∀ p s c2 q n,
  chain es p s (c1 ++ c2) q n ↔ ∃ q' n', chain es p s c1 q' n' ∧ chain es q' n' c2 q n.
Proof.
  induction c1 as [|[h k] c1 IH]; intros p s c2 q n; simpl.
  - split; [eauto|]. by intros (? & ? & [-> ->] & ?).
  - setoid_rewrite IH. naive_solver.
Qed.

(** Only the entries of the chain matter. *)
Lemma chain_frame es es' c : ∀ p s q n,
  chain es p s c q n → (∀ h, h ∈ c.*1 → vget es' h = vget es h) → chain es' p s c q n.
Proof.
  induction c as [|[h k] c IH]; intros p s q n; simpl; [done|].
  intros (-> & nx & Hg & Hc) Hs. split; [done|]. exists nx. split.
  - rewrite Hs; [done|left].
  - eapply IH; [done|]. intros. apply Hs. by right.
Qed.

(** A chain followed by one from a different predecessor. *)
Lemma chain_relink_first es es' c p p' s q n :
  chain es p s c q n → NoDup c.*1 →
  (∀ h, h ∈ c.*1 → vget es' h = (if decide (s = Some h) then set_prev p' else id) <$> vget es h) →
  chain es' p' s c (if decide (c = []) then p' else q) n.
Proof.
  destruct c as [|[h k] c]; simpl.
  - intros [-> ->] _ _. done.
  - intros (-> & nx & Hg & Hc) [Hh _]%NoDup_cons Hs. split; [done|]. exists nx. split.
    + rewrite Hs, Hg by left. by rewrite decide_True.
    + eapply chain_frame; [done|]. intros h' Hh'. rewrite Hs by (by right).
      rewrite decide_False by (intros [= ->]; done). by destruct (vget es h').
Qed.

(** A chain that continues elsewhere. *)
Lemma chain_relink_last es es' c : ∀ p s q n n',
  chain es p s c q n → NoDup c.*1 →
  (∀ h, h ∈ c.*1 → vget es' h = (if decide (q = Some h) then set_next n' else id) <$> vget es h) →
  chain es' p (if decide (c = []) then n' else s) c q n'.
Proof.
  induction c as [|[h k] c IH]; intros p s q n n'; [by intros [_ ->] _ _|].
  cbn [chain fmap list_fmap]. intros (-> & nx & Hg & Hc) Hnd Hs. simpl in Hnd.
  apply NoDup_cons in Hnd as [Hh Hnd].
  rewrite decide_False by done. split; [done|].
  exists (if decide (c = []) then n' else nx). split.
  - rewrite Hs, Hg by left. destruct c as [|[h2 k2] c]; simpl in Hc.
    + destruct Hc as [_ <-]. by rewrite !decide_True.
    + rewrite (decide_False (P := (h2, k2) :: c = [])) by done.
      rewrite decide_False; [done|]. intros ->. apply Hh.
      destruct Hc as (_ & nx2 & _ & Hc). clear -Hc. revert h2 k2 nx2 Hc.
      induction c as [|[h3 k3] c IH]; intros h2 k2 nx2; simpl.
      * intros [_ [= ->]]. left.
      * intros (_ & nx3 & _ & Hc). right. exact (IH h3 k3 nx3 Hc).
  - apply (IH _ _ _ n); [done|done|]. intros h' Hh'. apply Hs. by right.
Qed.

Lemma chain_last es c : ∀ p s q n,
  chain es p s c q n → (c = [] ∧ q = p ∧ s = n) ∨ (∃ h, q = Some h ∧ h ∈ c.*1).
Proof.
  induction c as [|[h k] c IH]; intros p s q n; simpl; [intros [-> ->]; by left|].
  intros (_ & nx & _ & Hc). right. apply IH in Hc as [(-> & -> & _)|(h' & -> & Hh')].
  - exists h. split; [done|left].
  - exists h'. split; [done|by right].
Qed.

Lemma chain_first es c p s q n :
  chain es p s c q n → (c = [] ∧ s = n) ∨ (∃ h, s = Some h ∧ h ∈ c.*1).
Proof.
  destruct c as [|[h k] c]; simpl; [intros [-> _]; by left|]. intros (-> & _). right.
  exists h. split; [done|left].
Qed.

(** [c] is the whole list, from the head [s]. *)
Definition linked es s c : Prop := ∃ q, chain es None s c q None.

Lemma NoDup_app_fst {A B} (l1 l2 : list (A * B)) :
  NoDup (l1 ++ l2).*1 → NoDup l1.*1 ∧ NoDup l2.*1 ∧ ∀ x, x ∈ l1.*1 → x ∉ l2.*1.
Proof. rewrite fmap_app. intros (? & ? & ?)%NoDup_app. eauto. Qed.

(** The parts before and after a link, with the link's ends redirected. *)
Lemma chain_redirect es es' c1 c2 s q1 n1 q2 q1' n1' :
  chain es None s c1 q1 n1 → chain es q1 n1 c2 q2 None → NoDup (c1 ++ c2).*1 →
  (∀ j, j ∈ (c1 ++ c2).*1 → vget es' j =
    (if decide (q1 = Some j) then set_next n1'
     else if decide (n1 = Some j) then set_prev q1' else id) <$> vget es j) →
  chain es' None (if decide (c1 = []) then n1' else s) c1 q1 n1' ∧
  ∃ q, chain es' q1' n1 c2 q None.
Proof.
  intros H1 H2 Hnd Hs. apply NoDup_app_fst in Hnd as (Hnd1 & Hnd2 & Hdisj). split.
  - eapply chain_relink_last; [done..|]. intros h Hh.
    rewrite Hs by (rewrite fmap_app; apply elem_of_app; by left).
    destruct (decide (q1 = Some h)) as [|Hq]; [done|]. rewrite decide_False; [done|].
    intros ->. apply chain_first in H2 as [[_ [=]]|(h' & [= <-] & Hh')]. by eapply Hdisj.
  - eexists. eapply chain_relink_first; [done..|]. intros h Hh.
    rewrite Hs by (rewrite fmap_app; apply elem_of_app; by right).
    rewrite decide_False; [done|]. intros ->.
    apply chain_last in H1 as [(_ & [=] & _)|(h' & [= <-] & Hh')]. by eapply Hdisj.
Qed.

Lemma chain_insert es es' c1 c2 s q1 n1 q2 h k :
  chain es None s c1 q1 n1 → chain es q1 n1 c2 q2 None → NoDup (c1 ++ c2).*1 → h ∉ (c1 ++ c2).*1 →
  vget es' h = Some (Build_Entry (key_priority k) (Some k) q1 n1) →
  (∀ j, j ≠ h → vget es' j =
    (if decide (q1 = Some j) then set_next (Some h)
     else if decide (n1 = Some j) then set_prev (Some h) else id) <$> vget es j) →
  linked es' (if decide (c1 = []) then Some h else s) (c1 ++ (h, k) :: c2).
Proof.
  intros H1 H2 Hnd Hh Hnew Hs.
  destruct (chain_redirect es es' c1 c2 s q1 n1 q2 (Some h) (Some h)) as [H1' [q H2']]; [done..| |].
  { intros j Hj. apply Hs. by intros ->. }
  exists q. apply chain_app. exists q1, (Some h). split; [done|]. simpl. eauto.
Qed.

Lemma chain_remove es es' c1 c2 s q1 n1 q2 h k :
  chain es None s c1 q1 (Some h) → chain es q1 (Some h) ((h, k) :: c2) q2 None →
  NoDup (c1 ++ (h, k) :: c2).*1 →
  vget es h = Some (Build_Entry (key_priority k) (Some k) q1 n1) →
  (∀ j, j ≠ h → vget es' j =
    (if decide (q1 = Some j) then set_next n1
     else if decide (n1 = Some j) then set_prev q1 else id) <$> vget es j) →
  linked es' (if decide (c1 = []) then n1 else s) (c1 ++ c2).
Proof.
  intros H1 (_ & nx & Hg & H2) Hnd Hold Hs. rewrite Hold in Hg. injection Hg as <-.
  rewrite fmap_app in Hnd. cbn [fmap list_fmap fst] in Hnd.
  apply NoDup_app in Hnd as (Hnd1 & Hh1 & [Hh2 Hnd2]%NoDup_cons).
  assert (∀ j, j ∈ c1.*1 → vget es' j = (if decide (q1 = Some j) then set_next n1 else id) <$> vget es j) as Hs1.
  { intros j Hj. assert (j ≠ h) by (intros ->; apply (Hh1 h); [done|left]).
    rewrite Hs by done. destruct (decide (q1 = Some j)); [done|]. rewrite decide_False; [done|].
    intros ->. apply chain_first in H2 as [[_ [=]]|(h' & [= <-] & Hh')]. apply (Hh1 j); [done|by right]. }
  assert (∀ j, j ∈ c2.*1 → vget es' j = (if decide (n1 = Some j) then set_prev q1 else id) <$> vget es j) as Hs2.
  { intros j Hj. assert (j ≠ h) by (intros ->; done).
    rewrite Hs by done. rewrite decide_False; [done|]. intros ->.
    apply chain_last in H1 as [(_ & [=] & _)|(h' & [= <-] & Hh')]. apply (Hh1 j); [done|by right]. }
  eexists. apply chain_app. exists q1, n1. split.
  - by eapply chain_relink_last.
  - by eapply chain_relink_first.
Qed.

(** The handles of a list are distinct positions of the vector. *)
Lemma chain_range es c : ∀ p s q n, chain es p s c q n →
  ∀ h, h ∈ c.*1 → 0 ≤ h < Z.of_nat (length es).
Proof.
  induction c as [|[h k] c IH]; intros p s q n Hc x; simpl; [by intros ?%not_elem_of_nil|].
  destruct Hc as (_ & nx & Hg & Hc). intros [->|Hx]%elem_of_cons.
  - by eapply vget_Some_range.
  - by eapply IH.
Qed.

Lemma chain_length es p s c q n :
  chain es p s c q n → NoDup c.*1 → (length c ≤ length es)%nat.
Proof.
  intros Hc Hnd. assert (c.*1 ⊆+ seqZ 0 (Z.of_nat (length es))) as Hsub.
  { apply NoDup_submseteq; [done|]. intros h Hh. apply elem_of_seqZ.
    by eapply (chain_range es c) in Hh. }
  apply submseteq_length in Hsub. rewrite length_fmap, length_seqZ in Hsub. lia.
Qed.
End chains.

(** ** The loops, on the list *)

Section loops.
Context {K : Type} `{!ListKey K}.
Implicit Types (es : list (Entry K)) (c : list (Z * K)).

(** The matching entry of least priority below [minp], the first of them. *)
Fixpoint best (f : K → bool) c (minp : Z) (acc : option Z) : option Z :=
  match c with
  | [] => acc
  | (h, k) :: c' =>
      if minp <=? key_priority k then best f c' minp acc
      else if f k then best f c' (key_priority k) (Some h) else best f c' minp acc
  end.

Definition key_same (k k' : K) : Prop := key_priority k = key_priority k' ∧ key_eqb k k' = true.

Fixpoint assoc c (k : K) : option Z :=
  match c with
  | [] => None
  | (h, k') :: c' => if (key_priority k' =? key_priority k) && key_eqb k' k then Some h else assoc c' k
  end.

Lemma lookup_loop_best es cmp f d c : ∀ fuel p s q minp acc,
  chain es p s c q None → (∀ h k, (h, k) ∈ c → cmp d k = Some (f k)) → (length c < fuel)%nat →
  lookup_loop fuel es cmp d s minp acc = Some (best f c minp acc).
Proof.
  induction c as [|[h k] c IH]; intros fuel p s q minp acc Hc Hcmp Hlen; simpl in Hc.
  - destruct Hc as [-> _], fuel; done.
  - destruct Hc as (-> & nx & Hg & Hc). destruct fuel as [|fuel]; [simpl in Hlen; lia|].
    simpl in Hlen. cbn [lookup_loop best]. rewrite Hg. msimpl. cbn [priority key next].
    assert (∀ h k, (h, k) ∈ c → cmp d k = Some (f k)) as Hcmp' by (intros; eapply Hcmp; by right).
    destruct (minp <=? key_priority k); [eapply IH; [done|done|lia]|]. msimpl.
    rewrite (Hcmp h k) by left. msimpl. destruct (f k); (eapply IH; [done|done|lia]).
Qed.

Lemma find_loop_assoc es k c : ∀ fuel p s q,
  chain es p s c q None → (length c < fuel)%nat → find_loop fuel es k s = Some (assoc c k).
Proof.
  induction c as [|[h k'] c IH]; intros fuel p s q Hc Hlen; simpl in Hc.
  - destruct Hc as [-> _], fuel; done.
  - destruct Hc as (-> & nx & Hg & Hc). destruct fuel as [|fuel]; [simpl in Hlen; lia|].
    simpl in Hlen. cbn [find_loop assoc]. rewrite Hg. msimpl. cbn [priority key next].
    destruct (key_priority k' =? key_priority k); simpl; [|eapply IH; [done|lia]].
    destruct (key_eqb k' k); [done|]. eapply IH; [done|lia].
Qed.

(** [best] is the best one: no matching entry has a lower priority, or the
    same one and a lower handle. *)
Lemma best_spec f c : ∀ minp acc,
  StronglySorted Z.lt c.*1 →
  (best f c minp acc = acc ∧ ∀ h k, (h, k) ∈ c → f k = true → minp ≤ key_priority k) ∨
  (∃ h k, best f c minp acc = Some h ∧ (h, k) ∈ c ∧ f k = true ∧ key_priority k < minp ∧
    ∀ h' k', (h', k') ∈ c → f k' = true →
      key_priority k < key_priority k' ∨ key_priority k = key_priority k' ∧ h ≤ h').
Proof.
  induction c as [|[h k] c IH]; intros minp acc Hs.
  { left. split; [done|]. by intros ?? ?%not_elem_of_nil. }
  simpl in Hs. apply StronglySorted_inv in Hs as [Hs Hh]. rewrite Forall_forall in Hh.
  assert (∀ h' k', (h', k') ∈ c → h < h') as Hlt.
  { intros h' k' Hin. apply Hh. apply list_elem_of_fmap. by exists (h', k'). }
  simpl. destruct (Z.leb_spec minp (key_priority k)) as [Hp|Hp].
  - destruct (IH minp acc Hs) as [[-> Hall]|(h1 & k1 & -> & Hin & Hf & Hp1 & Hall)].
    + left. split; [done|]. intros h' k' [[= -> ->]|Hin]%elem_of_cons Hf; [done|by eapply Hall].
    + right. exists h1, k1. split_and!; [done|by right|done|done|].
      intros h' k' [[= -> ->]|Hin']%elem_of_cons Hf'; [lia|by apply Hall].
  - destruct (f k) eqn:Ef.
    + right. destruct (IH (key_priority k) (Some h) Hs) as [[-> Hall]|(h1 & k1 & -> & Hin & Hf & Hp1 & Hall)].
      * exists h, k. split_and!; [done|left|done|done|].
        intros h' k' [[= -> ->]|Hin']%elem_of_cons Hf'; [lia|].
        specialize (Hall h' k' Hin' Hf'). specialize (Hlt h' k' Hin'). lia.
      * exists h1, k1. split_and!; [done|by right|done|lia|].
        intros h' k' [[= -> ->]|Hin']%elem_of_cons Hf'; [lia|by apply Hall].
    + destruct (IH minp acc Hs) as [[-> Hall]|(h1 & k1 & -> & Hin & Hf & Hp1 & Hall)].
      * left. split; [done|]. intros h' k' [[= -> ->]|Hin]%elem_of_cons Hf; [congruence|by eapply Hall].
      * right. exists h1, k1. split_and!; [done|by right|done|done|].
        intros h' k' [[= -> ->]|Hin']%elem_of_cons Hf'; [congruence|by apply Hall].
Qed.
End loops.

(** ** The operations *)

Section operations.
Context {K : Type} `{!ListKey K} (cmpf : list Z → K → bool).
Implicit Types (l : EntryList K) (c : list (Z * K)) (k : K).

Definition cache_size : nat := TernaryCache.S_default.

(** [l] represents the entries [c], in the order of their handles, and what
    its cache has is what a scan would find. *)
Record ok l c : Prop := {
  ok_linked : linked (entries l) (head l) c;
  ok_sorted : StronglySorted Z.lt c.*1;
  ok_distinct h1 k1 h2 k2 : (h1, k1) ∈ c → (h2, k2) ∈ c → key_same k1 k2 → h1 = h2;
  ok_count : entries_count l = Z.of_nat (length c);
  ok_vector : Z.of_nat (length (entries l)) < 2 ^ 64;
  ok_use : use_cache l = enable_cache l && (cache_activation_min_entries <=? entries_count l);
  ok_cache : TernaryCache.ok cache_size (cache l);
  ok_cache_empty : use_cache l = false → TernaryCache.contents (cache l) = [];
  ok_coherent d h : (d, h) ∈ TernaryCache.contents (cache l) → best (cmpf d) c INT_MAX None = Some h;
}.

(** The vector keeps its size, and the cache stays enabled or not. *)
Definition same_config l l' : Prop :=
  length (entries l') = length (entries l) ∧ enable_cache l' = enable_cache l.

Lemma sorted_NoDup (hs : list Z) : StronglySorted Z.lt hs → NoDup hs.
Proof.
  induction 1 as [|h hs _ IH Hh]; [constructor|]. constructor; [|done].
  intros Hin. rewrite Forall_forall in Hh. specialize (Hh h Hin). lia.
Qed.

Lemma ok_NoDup l c : ok l c → NoDup c.*1.
Proof. intros Hok. apply sorted_NoDup, (ok_sorted _ _ Hok). Qed.

Lemma ok_fuel l c : ok l c → (length c < list_fuel l)%nat.
Proof.
  intros Hok. destruct (ok_linked _ _ Hok) as [q Hc]. unfold list_fuel.
  apply chain_length in Hc; [lia|by apply (ok_NoDup l)].
Qed.

Lemma new_ok size b : Z.of_nat size < 2 ^ 64 → ok (new size b) [].
Proof.
  intros Hs. constructor; simpl; try done.
  - by exists None.
  - constructor.
  - by intros ???? ?%not_elem_of_nil.
  - by rewrite length_replicate.
  - by destruct b.
  - apply TernaryCache.empty_ok.
  - by intros ?? ?%not_elem_of_nil.
Qed.

Lemma find_entry_spec l c k : ok l c → find_entry l k = Some (assoc c k).
Proof.
  intros Hok. destruct (ok_linked _ _ Hok) as [q Hc]. unfold find_entry.
  eapply find_loop_assoc; [done|by apply ok_fuel].
Qed.

Lemma contents_lru l c d :
  ok l c → TernaryCache.lru_find (TernaryCache.contents (cache l)) d = None ∨
    TernaryCache.lru_find (TernaryCache.contents (cache l)) d = best (cmpf d) c INT_MAX None.
Proof.
  intros Hok. destruct (TernaryCache.lru_find _ d) as [h|] eqn:E; [right|by left].
  symmetry. apply (ok_coherent _ _ Hok). apply TernaryCache.lru_find_Some in E; [done|].
  rewrite TernaryCache.contents_keys. apply (TernaryCache.ok_keys _ _ (ok_cache _ _ Hok)).
Qed.

(** A different cache, as long as it is coherent. *)
Lemma set_cache_ok l c ch :
  ok l c → use_cache l = true → TernaryCache.ok cache_size ch →
  (∀ d h, (d, h) ∈ TernaryCache.contents ch → best (cmpf d) c INT_MAX None = Some h) →
  ok (set_cache l ch) c.
Proof.
  intros Hok Huse Hch Hcoh. constructor; simpl; try apply Hok; try done.
  by rewrite Huse.
Qed.

Lemma lru_touch_in cs d d' h : (d', h) ∈ TernaryCache.lru_touch cs d →
  TernaryCache.lru_find cs d = Some h ∧ d' = d ∨ (d', h) ∈ cs.
Proof.
  unfold TernaryCache.lru_touch. destruct (TernaryCache.lru_find cs d) as [h'|]; [|by right].
  intros [[= -> ->]|Hin]%elem_of_cons; [by left|right].
  by apply list_elem_of_filter in Hin as [_ ?].
Qed.

Lemma lru_add_in n cs d h d' h' : (d', h') ∈ TernaryCache.lru_add n cs d h →
  (d', h') = (d, h) ∨ (d', h') ∈ cs.
Proof.
  unfold TernaryCache.lru_add. destruct (TernaryCache.lru_find cs d); [by right|].
  intros [?|Hin]%elem_of_cons; [by left|right]. case_decide; [|done].
  destruct cs as [|x cs _] using rev_ind; [done|]. rewrite removelast_last in Hin. set_solver.
Qed.

(** With the cache or without it, a lookup is a scan of the list. *)
Lemma lookup_spec l c cmp d :
  ok l c → (∀ h k, (h, k) ∈ c → cmp d k = Some (cmpf d k)) →
  ∃ l', lookup l cmp d = Some (l', best (cmpf d) c INT_MAX None) ∧ ok l' c ∧
    head l' = head l ∧ entries l' = entries l ∧ enable_cache l' = enable_cache l.
Proof.
  intros Hok Hcmp. unfold lookup, cache_activated.
  destruct (ok_linked _ _ Hok) as [q Hc]. pose proof (ok_fuel l c Hok) as Hfuel.
  destruct (use_cache l) eqn:Huse; msimpl.
  - destruct (TernaryCache.lookup_refines _ _ d (ok_cache _ _ Hok)) as (c1 & -> & Hok1 & Hcont). msimpl.
    assert (ok (set_cache l c1) c) as Hokl.
    { apply set_cache_ok; [done..|]. intros d' h. rewrite Hcont.
      intros [[Hf ->]|Hin]%lru_touch_in; [|by apply (ok_coherent _ _ Hok)].
      destruct (contents_lru l c d Hok) as [E|E]; congruence. }
    destruct (contents_lru l c d Hok) as [E|E].
    + rewrite E. rewrite (lookup_loop_best _ cmp (cmpf d) d c _ _ _ q) by done. msimpl.
      destruct (best (cmpf d) c INT_MAX None) as [h|] eqn:Eb; [|by exists (set_cache l c1)].
      simpl. rewrite Huse.
      destruct (TernaryCache.add_refines cache_size c1 d h) as (c2 & Ha & Hok2 & Hcont2); [cbv; lia|done|].
      change cache_size with TernaryCache.S_default in Ha. rewrite Ha. msimpl.
      eexists. split; [done|]. split; [|done]. apply set_cache_ok; [done..|].
      intros d' h'. rewrite Hcont2. intros [[= -> ->]|Hin]%lru_add_in; [done|].
      by apply (ok_coherent _ _ Hokl).
    + rewrite E. destruct (best (cmpf d) c INT_MAX None) as [h|] eqn:Eb; [by exists (set_cache l c1)|].
      rewrite (lookup_loop_best _ cmp (cmpf d) d c _ _ _ q) by done. msimpl. rewrite Eb.
      by exists (set_cache l c1).
  - rewrite (lookup_loop_best _ cmp (cmpf d) d c _ _ _ q) by done. msimpl. rewrite Huse.
    exists l. by destruct (best (cmpf d) c INT_MAX None).
Qed.

(** After a modification the cache is empty. *)
Lemma table_modified_ok l c hd es cnt c' :
  ok l c → linked es hd c' → StronglySorted Z.lt c'.*1 →
  (∀ h1 k1 h2 k2, (h1, k1) ∈ c' → (h2, k2) ∈ c' → key_same k1 k2 → h1 = h2) →
  cnt = Z.of_nat (length c') → length es = length (entries l) →
  ok (table_modified (Build_EntryList hd es cnt (enable_cache l) (use_cache l) (cache l))) c'.
Proof.
  intros Hok Hl Hs Hd Hcnt Hlen. pose proof (ok_vector _ _ Hok).
  pose proof (ok_cache _ _ Hok). pose proof (ok_cache_empty _ _ Hok).
  unfold table_modified, cache_activated, update_use_cache. simpl.
  destruct (use_cache l); constructor; simpl; try done; try congruence; try lia.
  - apply TernaryCache.empty_ok.
  - by intros ?? ?%not_elem_of_nil.
  - intros _. auto.
  - intros ??. rewrite H1 by done. by intros ?%not_elem_of_nil.
Qed.

Lemma table_modified_config l hd es cnt en us ca :
  length es = length (entries l) → en = enable_cache l →
  same_config l (table_modified (Build_EntryList hd es cnt en us ca)).
Proof. intros ? ->. unfold same_config, table_modified. by destruct us. Qed.

Lemma link_prev_spec (es : list (Entry K)) n p :
  (∀ j, n = Some j → is_Some (vget es j)) →
  ∃ es', link_prev es n p = Some es' ∧ length es' = length es ∧
    ∀ j, vget es' j = (if decide (n = Some j) then set_prev p else id) <$> vget es j.
Proof.
  intros Hn. destruct n as [i|]; simpl.
  - destruct (vupd_spec es i (set_prev p)) as (es' & -> & ? & Hg); [by apply Hn|].
    exists es'. split_and!; [done..|]. intros j. rewrite Hg.
    destruct (decide (j = i)), (decide (Some i = Some j)); congruence || done.
  - exists es. split_and!; [done..|]. intros j. by destruct (vget es j).
Qed.

(** Splitting the list at a handle. *)
Lemma in_split_handle c h : h ∈ c.*1 → ∃ c1 k c2, c = c1 ++ (h, k) :: c2.
Proof.
  intros ([h' k] & -> & Hin)%list_elem_of_fmap. apply list_elem_of_split in Hin as (c1 & c2 & ->).
  by exists c1, k, c2.
Qed.

(** Where a handle goes whose predecessor is linked. *)
Lemma insert_position (es : list (Entry K)) s c h :
  linked es s c → StronglySorted Z.lt c.*1 → 0 ≤ h → h ∉ c.*1 → (h ≠ 0 → h - 1 ∈ c.*1) →
  ∃ c1 c2 q1 n1 q2, c = c1 ++ c2 ∧ chain es None s c1 q1 n1 ∧ chain es q1 n1 c2 q2 None ∧
    (∀ k, StronglySorted Z.lt (c1 ++ (h, k) :: c2).*1) ∧
    if decide (h = 0) then c1 = [] ∧ q1 = None ∧ n1 = s
    else q1 = Some (h - 1) ∧ c1 ≠ [] ∧
      ∃ k0 p0, vget es (h - 1) = Some (Build_Entry (key_priority k0) (Some k0) p0 n1).
Proof.
  intros [q Hc] Hs H0 Hh Hpred. case_decide as Hd.
  - subst h. exists [], c, None, s, q. split_and!; try done. intros k. simpl. apply StronglySorted_cons.
    split; [|done]. apply Forall_forall. intros x Hx. assert (x ≠ 0) by (intros ->; done).
    eapply (chain_range es c) in Hc; [|done]. lia.
  - destruct (in_split_handle c (h - 1) (Hpred Hd)) as (c1 & k0 & c2 & ->).
    replace (c1 ++ (h - 1, k0) :: c2) with ((c1 ++ [(h - 1, k0)]) ++ c2) in * by by rewrite <- app_assoc.
    apply chain_app in Hc as (q1 & n1 & Hc1 & Hc2).
    exists (c1 ++ [(h - 1, k0)]), c2, q1, n1, q.
    pose proof Hc1 as Hlast. apply chain_app in Hlast as (q' & n' & _ & [_ (nx & Hg & [-> <-])]).
    rewrite fmap_app in Hs, Hh. split_and!; [done..| |done|by destruct c1|eauto].
    intros k. rewrite !fmap_app in *. cbn [fmap list_fmap fst] in *.
    apply StronglySorted_app in Hs as (Hlt & Hs1 & Hs2). apply StronglySorted_app. split_and!.
    + intros x y Hx [->|Hy]%elem_of_cons; [|by apply Hlt].
      apply elem_of_app in Hx as [Hx| ->%list_elem_of_singleton]; [|lia].
      apply StronglySorted_app in Hs1 as (Hlt1 & _). specialize (Hlt1 x (h - 1) Hx ltac:(left)). lia.
    + done.
    + apply StronglySorted_cons. split; [|done]. apply Forall_forall. intros y Hy.
      specialize (Hlt (h - 1) y ltac:(set_solver) Hy).
      assert (y ≠ h) by (intros ->; set_solver). lia.
Qed.

(** The links of [add], for a given position. *)
Definition add_links (es : list (Entry K)) (hd : option Z) k (handle : Z) :=
  if handle =? 0 then
    es ← vupd es handle (λ e, set_next hd (set_prev None e));
    es ← link_prev es hd (Some handle);
    Some (Some handle, es)
  else if decide (hd = Some handle) then None
  else
    prev_entry ← vget es (handle - 1);
    es ← vupd es handle (λ e, set_next (next prev_entry) (set_prev (Some (handle - 1)) e));
    es ← vupd es (handle - 1) (set_next (Some handle));
    es ← link_prev es (next prev_entry) (Some handle);
    Some (hd, es).

Lemma fmap_id_if {A} (b : bool) (f : A → A) (o : option A) :
  (if b then f else id) <$> o = if b then f <$> o else o.
Proof. destruct b; [done|]. by destruct o. Qed.

Lemma add_links_spec (es : list (Entry K)) s c1 c2 q1 n1 q2 k h pr nx :
  chain es None s c1 q1 n1 → chain es q1 n1 c2 q2 None → NoDup (c1 ++ c2).*1 → h ∉ (c1 ++ c2).*1 →
  vget es h = Some (Build_Entry (key_priority k) (Some k) pr nx) →
  (if decide (h = 0) then c1 = [] ∧ q1 = None ∧ n1 = s
   else q1 = Some (h - 1) ∧ c1 ≠ [] ∧
     ∃ k0 p0, vget es (h - 1) = Some (Build_Entry (key_priority k0) (Some k0) p0 n1)) →
  ∃ hd es', add_links es s k h = Some (hd, es') ∧ length es' = length es ∧
    linked es' hd (c1 ++ (h, k) :: c2).
Proof.
  intros H1 H2 Hnd Hh Hg Hpos.
  assert (∀ j, n1 = Some j → is_Some (vget es j) ∧ j ∈ c2.*1) as Hn1.
  { intros j ->. apply chain_first in H2 as Hf. destruct Hf as [[_ [=]]|(h' & [= <-] & Hh')].
    split; [|done]. apply vget_is_Some. by eapply (chain_range es c2). }
  assert (∀ j, n1 = Some j → j ≠ h) as Hn1h.
  { intros j Hj ->. apply Hn1 in Hj as [_ ?]. rewrite fmap_app in Hh. set_solver. }
  unfold add_links. destruct (Z.eqb_spec h 0) as [Hz|Hz].
  - rewrite decide_True in Hpos by done. destruct Hpos as (-> & -> & <-).
    destruct (vupd_spec es h (λ e, set_next n1 (set_prev None e))) as (es1 & -> & Hl1 & Hg1); [by eexists|].
    msimpl. destruct (link_prev_spec es1 n1 (Some h)) as (es2 & -> & Hl2 & Hg2).
    { intros j Hj. rewrite Hg1. rewrite decide_False by by apply Hn1h.
      destruct (Hn1 j Hj) as [[e ->] _]. eauto. }
    msimpl. eexists _, _. split; [done|]. split; [congruence|].
    apply (chain_insert es es2 [] c2 n1 None n1 q2 h k); [exact H1|exact H2|exact Hnd|exact Hh| |].
    + rewrite Hg2, Hg1, (decide_True (P := h = h)), Hg by done. rewrite decide_False; [done|].
      intros Hj. by apply (Hn1h h).
    + intros j Hj. rewrite Hg2, Hg1, (decide_False (P := j = h)) by done.
      rewrite (decide_False (P := None = Some j)) by done. by destruct (vget es j).
  - rewrite decide_False in Hpos by done. destruct Hpos as (-> & Hne & k0 & p0 & Hp).
    rewrite decide_False; cycle 1.
    { intros ->. apply chain_first in H1 as [[? _]|(h' & [= <-] & Hh')]; [done|].
      rewrite fmap_app in Hh. set_solver. }
    rewrite Hp. msimpl. cbn [next].
    destruct (vupd_spec es h (λ e, set_next n1 (set_prev (Some (h - 1)) e))) as (es1 & -> & Hl1 & Hg1);
      [by eexists|].
    msimpl. destruct (vupd_spec es1 (h - 1) (set_next (Some h))) as (es2 & -> & Hl2 & Hg2).
    { rewrite Hg1, decide_False, Hp by lia. eauto. }
    msimpl. destruct (link_prev_spec es2 n1 (Some h)) as (es3 & -> & Hl3 & Hg3).
    { intros j Hj. rewrite Hg2, Hg1. rewrite (decide_False (P := j = h)) by by apply Hn1h.
      destruct (Hn1 j Hj) as [[e ->] _]. by eexists. }
    msimpl. eexists _, _. split; [done|]. split; [congruence|].
    rewrite <- (decide_False (P := c1 = []) (Some h) s Hne).
    apply (chain_insert es es3 c1 c2 s (Some (h - 1)) n1 q2 h k); [done..| |].
    + rewrite Hg3, Hg2, Hg1, (decide_False (P := h = h - 1)), (decide_True (P := h = h)), Hg by (done || lia).
      rewrite decide_False; [done|]. intros Hj. by apply (Hn1h h).
    + intros j Hj. rewrite Hg3, Hg2, Hg1, (decide_False (P := j = h)) by done.
      destruct (decide (j = h - 1)) as [->|Hj1].
      * rewrite (decide_True (P := Some (h - 1) = Some (h - 1))) by done.
        rewrite decide_False; [by destruct (vget es (h - 1))|].
        intros [_ Hin]%Hn1. apply chain_last in H1 as [(? & _)|(h' & [= <-] & Hh')]; [done|].
        rewrite fmap_app in Hnd. apply NoDup_app in Hnd as (_ & Hd & _). by apply (Hd (h - 1)).
      * rewrite (decide_False (P := Some (h - 1) = Some j)) by congruence. by destruct (vget es j).
Qed.

Lemma add_spec l c k h :
  ok l c → (∀ h' k', (h', k') ∈ c → ¬ key_same k' k) →
  (∀ k1 k2 : K, key_same k1 k2 → key_same k2 k1) →
  0 ≤ h < Z.of_nat (length (entries l)) → h ∉ c.*1 → (h ≠ 0 → h - 1 ∈ c.*1) →
  ∃ l' c1 c2, add l k h = Some l' ∧ c = c1 ++ c2 ∧ ok l' (c1 ++ (h, k) :: c2) ∧ same_config l l'.
Proof.
  intros Hok Hnew Hsym Hr Hh Hpred.
  destruct (insert_position _ _ _ h (ok_linked _ _ Hok) (ok_sorted _ _ Hok)) as
    (c1 & c2 & q1 & n1 & q2 & -> & H1 & H2 & Hsorted & Hpos); [lia|done..|].
  unfold add. destruct (vupd_spec (entries l) h
    (λ e, Build_Entry (key_priority k) (Some k) (prev e) (next e))) as (es & -> & Hlen & Hg).
  { by apply vget_is_Some. }
  msimpl. assert (∀ j, j ∈ (c1 ++ c2).*1 → vget es j = vget (entries l) j) as Hsame.
  { intros j Hj. rewrite Hg, decide_False by (intros ->; done). by destruct (vget (entries l) j). }
  destruct (proj2 (vget_is_Some (entries l) h) Hr) as [e He].
  destruct (add_links_spec es (head l) c1 c2 q1 n1 q2 k h (prev e) (next e)) as (hd & es' & Ha & Hl' & Hc').
  - eapply chain_frame; [done|]. intros j Hj. apply Hsame. rewrite fmap_app. set_solver.
  - eapply chain_frame; [done|]. intros j Hj. apply Hsame. rewrite fmap_app. set_solver.
  - by apply (ok_NoDup l).
  - done.
  - by rewrite Hg, decide_True, He.
  - case_decide; [done|]. destruct Hpos as (-> & ? & k0 & p0 & Hp). split_and!; [done..|].
    exists k0, p0. rewrite Hsame; [done|]. by apply Hpred.
  - unfold add_links in Ha. rewrite Ha. msimpl. eexists _, c1, c2. split; [done|]. split; [done|].
    split; [|apply table_modified_config; congruence].
    apply (table_modified_ok l (c1 ++ c2)); [done|done|apply Hsorted| | |congruence].
    + assert (∀ h' k', (h', k') ∈ c1 ++ (h, k) :: c2 → (h', k') = (h, k) ∨ (h', k') ∈ c1 ++ c2) as Hin.
      { intros h' k'. rewrite !elem_of_app, elem_of_cons. tauto. }
      intros h1 k1 h2 k2 [[= -> ->]|Hi1]%Hin [[= -> ->]|Hi2]%Hin Hs; [done| | |].
      * by destruct (Hnew h2 k2 Hi2 (Hsym _ _ Hs)).
      * by destruct (Hnew h1 k1 Hi1).
      * by apply (ok_distinct _ _ Hok h1 k1 h2 k2).
    + rewrite (ok_count _ _ Hok), !length_app. simpl. rewrite wrap_small; [lia|].
      destruct Hc' as [q Hc]. apply chain_length in Hc; [|apply sorted_NoDup, Hsorted].
      rewrite length_app in Hc. simpl in Hc. pose proof (ok_vector _ _ Hok). lia.
Qed.

Lemma assoc_Some c k h : assoc c k = Some h → ∃ k', (h, k') ∈ c ∧ key_same k' k.
Proof.
  induction c as [|[h' k'] c IH]; simpl; [done|].
  destruct ((key_priority k' =? key_priority k) && key_eqb k' k) eqn:E.
  - intros [= ->]. apply andb_true_iff in E as [?%Z.eqb_eq ?]. exists k'. split; [left|done].
  - intros (k1 & ? & ?)%IH. exists k1. split; [by right|done].
Qed.

Lemma assoc_None c k h k' : assoc c k = None → (h, k') ∈ c → ¬ key_same k' k.
Proof.
  induction c as [|[h1 k1] c IH]; simpl; [by intros _ ?%not_elem_of_nil|].
  destruct ((key_priority k1 =? key_priority k) && key_eqb k1 k) eqn:E; [done|].
  intros Hn [[= -> ->]|Hin]%elem_of_cons [Hp He]; [|by apply (IH Hn Hin)].
  by rewrite (proj2 (Z.eqb_eq _ _) Hp), He in E.
Qed.

Lemma assoc_in l c k k' h :
  ok l c → (∀ k1 k2 k3 : K, key_same k1 k2 → key_same k2 k3 → key_same k1 k3) →
  (∀ k1 k2 : K, key_same k1 k2 → key_same k2 k1) →
  (h, k') ∈ c → key_same k' k → assoc c k = Some h.
Proof.
  intros Hok Htrans Hsym Hin Hs. destruct (assoc c k) as [h1|] eqn:E.
  - f_equal. apply assoc_Some in E as (k1 & Hin1 & Hs1).
    eapply (ok_distinct _ _ Hok); [exact Hin1|exact Hin|]. eauto.
  - exfalso. by eapply assoc_None.
Qed.

(** The unlinking of [delete_entry]. *)
Definition remove_links (es : list (Entry K)) (hd : option Z) (e : Entry K) :=
  '(hd, es) ← (match prev e with
    | Some p => es ← vupd es p (set_next (next e)); Some (hd, es)
    | None => Some (next e, es)
    end);
  es ← link_prev es (next e) (prev e);
  Some (hd, es).

Lemma remove_links_spec (es : list (Entry K)) s c1 c2 k h :
  linked es s (c1 ++ (h, k) :: c2) → NoDup (c1 ++ (h, k) :: c2).*1 →
  ∃ e hd es', vget es h = Some e ∧ remove_links es s e = Some (hd, es') ∧
    length es' = length es ∧ linked es' hd (c1 ++ c2).
Proof.
  intros [q Hc] Hnd. apply chain_app in Hc as (q1 & n & H1 & H2).
  pose proof H2 as (-> & n1 & Hg & H3).
  pose proof Hnd as Hnd'. rewrite fmap_app in Hnd'. cbn [fmap list_fmap fst] in Hnd'.
  apply NoDup_app in Hnd' as (_ & Hd1 & [Hd2 _]%NoDup_cons).
  assert (∀ j, n1 = Some j → is_Some (vget es j) ∧ j ≠ h ∧ q1 ≠ Some j) as Hn1.
  { intros j ->. pose proof H3 as Hf. apply chain_first in Hf as [[_ [=]]|(h' & [= <-] & Hh')].
    split_and!; [apply vget_is_Some; by eapply (chain_range es c2)|by intros ->|].
    intros ->. apply chain_last in H1 as [(_ & [=] & _)|(h' & [= <-] & Hh1)].
    apply (Hd1 j); [done|by right]. }
  assert (∀ j, q1 = Some j → is_Some (vget es j) ∧ j ≠ h ∧ c1 ≠ []) as Hq1.
  { intros j ->. pose proof H1 as Hl. apply chain_last in Hl as [(_ & [=] & _)|(h' & [= <-] & Hh1)].
    split_and!; [apply vget_is_Some; by eapply (chain_range es c1)| |intros ->; by apply not_elem_of_nil in Hh1].
    intros ->. apply (Hd1 h); [done|left]. }
  exists (Build_Entry (key_priority k) (Some k) q1 n1).
  assert (∃ es1, (match q1 with Some p => vupd es p (set_next n1) | None => Some es end) = Some es1 ∧
    length es1 = length es ∧
    ∀ j, vget es1 j = (if decide (q1 = Some j) then set_next n1 else id) <$> vget es j)
    as (es1 & E1 & Hl1 & Hg1).
  { destruct q1 as [p|].
    - destruct (vupd_spec es p (set_next n1)) as (es1 & -> & ? & Hg1); [by apply Hq1|].
      exists es1. split_and!; [done..|]. intros j. rewrite Hg1.
      destruct (decide (j = p)), (decide (Some p = Some j)); congruence || done.
    - exists es. split_and!; [done..|]. intros j. by destruct (vget es j). }
  destruct (link_prev_spec es1 n1 q1) as (es2 & E2 & Hl2 & Hg2).
  { intros j Hj. rewrite Hg1. destruct (Hn1 j Hj) as ([e ->] & _). by eexists. }
  exists (if decide (c1 = []) then n1 else s), es2. split; [done|]. split; [|split; [congruence|]].
  - unfold remove_links. cbn [prev next]. destruct q1 as [p|].
    + rewrite E1. msimpl. rewrite E2. msimpl. rewrite decide_False; [done|]. by eapply Hq1.
    + injection E1 as <-. msimpl. rewrite E2. msimpl.
      rewrite decide_True; [done|]. apply chain_last in H1 as [(-> & _)|(? & [=] & _)]. done.
  - apply (chain_remove es es2 c1 c2 s q1 n1 q h k); [done..|].
    intros j Hj. rewrite Hg2, Hg1. destruct (decide (n1 = Some j)) as [Hj1|].
    + rewrite !(decide_False (P := q1 = Some j)) by (by apply Hn1). by destruct (vget es j).
    + by destruct (decide (q1 = Some j)), (vget es j).
Qed.

Lemma delete_spec l c k h :
  ok l c → assoc c k = Some h →
  ∃ l' c1 k' c2, delete_entry l k = Some l' ∧ c = c1 ++ (h, k') :: c2 ∧ key_same k' k ∧
    ok l' (c1 ++ c2) ∧ same_config l l'.
Proof.
  intros Hok Ha. unfold delete_entry. rewrite (find_entry_spec _ _ _ Hok), Ha. msimpl.
  apply assoc_Some in Ha as (k' & Hin & Hs).
  apply list_elem_of_split in Hin as (c1 & c2 & ->).
  destruct (remove_links_spec _ _ _ _ _ _ (ok_linked _ _ Hok) (ok_NoDup _ _ Hok))
    as (e & hd & es' & -> & Hr & Hlen & Hl).
  msimpl. assert (∃ es1, (match prev e with
    | Some p => es ← vupd (entries l) p (set_next (next e)); Some (head l, es)
    | None => Some (next e, entries l) end) = Some (hd, es1) ∧
    link_prev es1 (next e) (prev e) = Some es') as (es1 & -> & E2).
  { unfold remove_links in Hr. apply bind_Some in Hr as ([hd1 es1] & -> & Hr).
    apply bind_Some in Hr as (es2 & Hr & [= -> ->]). eauto. }
  msimpl. rewrite E2. msimpl. eexists _, c1, k', c2. split; [done|]. split; [done|]. split; [done|].
  split; [|by apply table_modified_config].
  pose proof (ok_sorted _ _ Hok) as Hsort. rewrite fmap_app in Hsort. cbn [fmap list_fmap fst] in Hsort.
  apply StronglySorted_app in Hsort as (Hlt & Hs1 & [_ Hs2]%StronglySorted_cons).
  assert (∀ x, x ∈ c1 ++ c2 → x ∈ c1 ++ (h, k') :: c2) as Hsub by (intros x; rewrite !elem_of_app, elem_of_cons; tauto).
  apply (table_modified_ok l (c1 ++ (h, k') :: c2)); try done.
  - rewrite fmap_app. apply StronglySorted_app. split_and!; [|done..].
    intros x y Hx Hy. apply Hlt; [done|by right].
  - intros h1 k1 h2 k2 Hi1%Hsub Hi2%Hsub. by apply (ok_distinct _ _ Hok).
  - rewrite (ok_count _ _ Hok), !length_app. simpl. destruct (ok_linked _ _ Hok) as [q Hc].
    apply chain_length in Hc; [|by apply (ok_NoDup l)]. rewrite length_app in Hc. simpl in Hc.
    pose proof (ok_vector _ _ Hok). rewrite wrap_small; lia.
Qed.

Lemma clear_ok l c : ok l c → ok (clear l) [] ∧ same_config l (clear l).
Proof.
  intros Hok. split; [|done]. constructor; simpl; try done.
  - by exists None.
  - constructor.
  - by intros ???? ?%not_elem_of_nil.
  - apply (ok_vector _ _ Hok).
  - apply TernaryCache.empty_ok.
  - by intros ?? ?%not_elem_of_nil.
Qed.
End operations.
End EntryList.
