(* ===== verification/TernaryMap.v ===== *)
(** * Ternary and range maps (src/bm_sim/lookup_structures.cpp)

    [TernaryMap] and [RangeMap]: the entry list of [EntryList.v] with a
    comparison. What the comparisons decide, bits under a mask and numbers in
    ranges, that both maps fulfil the contract of [LookupStructures.v], and
    that the cache makes no difference to what they return. *)

From S2P Require Import Prelude MatchKeyTypes LpmTrie LookupStructures TernaryCache EntryList.
Import MatchKeyTypes.

(** ** Ternary and range maps *)

(** What distinguishes the two maps: the comparison of a looked up key of a
    width with an entry's key. *)
Class MapKey (K : Type) := {
  map_list_key :: EntryList.ListKey K;
  map_cmp : Z → list Z → K → option bool;
}.

Module TernaryMap.
Section definitions.
Context {K : Type} `{!MapKey K}.

(** [TernaryMap] and [RangeMap]. *)
Record Map := { entry_list : EntryList.EntryList K; nbytes_key : Z }.

Definition new (size : nat) (nbytes_key : Z) (enable_cache : bool) : Map :=
  {| entry_list := EntryList.new size enable_cache; nbytes_key := nbytes_key |}.

Definition with_list (m : Map) (l : EntryList.EntryList K) : Map :=
  {| entry_list := l; nbytes_key := nbytes_key m |}.

Definition lookup (m : Map) (key_data : list Z) : option (Map * option Z) :=
  '(l, r) ← EntryList.lookup (entry_list m) (map_cmp (nbytes_key m)) key_data;
  Some (with_list m l, r).

Definition entry_exists (m : Map) (key : K) : option bool := EntryList.exists_ (entry_list m) key.

Definition retrieve_handle (m : Map) (key : K) : option (option Z) :=
  EntryList.retrieve_handle (entry_list m) key.

Definition add_entry (m : Map) (key : K) (handle : Z) : option Map :=
  with_list m <$> EntryList.add (entry_list m) key handle.

Definition delete_entry (m : Map) (key : K) : option Map :=
  with_list m <$> EntryList.delete_entry (entry_list m) key.

Definition clear (m : Map) : Map := with_list m (EntryList.clear (entry_list m)).
End definitions.
Arguments Map K : clear implicits.

(** The byte by byte comparison under a mask of both maps. *)
Fixpoint masked_loop (n : nat) (byte_index : Z) (key_data : list Z) (k : TernaryMatchKey)
    : option bool :=
  match n with
  | O => Some true
  | S n' =>
      d ← vget (data k) byte_index;
      x ← vget key_data byte_index;
      m ← vget (mask k) byte_index;
      if d =? Z.land x m then masked_loop n' (byte_index + 1) key_data k else Some false
  end.

Definition ternary_cmp (nbytes_key : Z) (key_data : list Z) (k : TernaryMatchKey) : option bool :=
  masked_loop (Z.to_nat nbytes_key) 0 key_data k.

(** [&c[offset]], with the assertion of [ByteContainer::operator[]]. *)
Definition address (c : list Z) (offset : Z) : option (list Z) :=
  if decide (0 ≤ offset < Z.of_nat (length c)) then Some (drop (Z.to_nat offset) c) else None.

(** The loop over the ranges; the inner [None] is [return false]. *)
Fixpoint range_loop (range_widths : list Z) (offset : Z) (key_data : list Z) (k : TernaryMatchKey)
    : option (option Z) :=
  match range_widths with
  | [] => Some (Some offset)
  | w :: range_widths' =>
      x ← address key_data offset;
      start ← address (data k) offset;
      c ← memcmp x start w;
      match c with
      | Lt => Some None
      | _ =>
          end_ ← address (mask k) offset;
          c ← memcmp x end_ w;
          match c with
          | Gt => Some None
          | _ => range_loop range_widths' (offset + w) key_data k
          end
      end
  end.

Definition range_cmp (nbytes_key : Z) (key_data : list Z) (k : RangeMatchKey) : option bool :=
  r ← range_loop (range_widths k) 0 key_data k;
  match r with
  | None => Some false
  | Some offset => masked_loop (Z.to_nat (nbytes_key - offset)) offset key_data k
  end.

(** [operator==] of the keys. *)
Definition ternary_eqb (k1 k2 : TernaryMatchKey) : bool :=
  bool_decide (data k1 = data k2) && bool_decide (mask k1 = mask k2).

Definition range_eqb (k1 k2 : RangeMatchKey) : bool :=
  bool_decide (data k1 = data k2) && bool_decide (mask k1 = mask k2) &&
  bool_decide (range_widths k1 = range_widths k2).

#[export] Instance TernaryMatchKey_map : MapKey TernaryMatchKey := {
  map_list_key := {| EntryList.key_priority := priority; EntryList.key_eqb := ternary_eqb |};
  map_cmp := ternary_cmp;
}.

#[export] Instance RangeMatchKey_map : MapKey RangeMatchKey := {
  map_list_key := EntryList.Build_ListKey RangeMatchKey (λ k, priority k) range_eqb;
  map_cmp := range_cmp;
}.
End TernaryMap.
Export (hints) TernaryMap.

#[export] Instance Map_LookupStructure {K} `{MapKey K} :
  LookupStructure K (TernaryMap.Map K) := {
  lookup := TernaryMap.lookup;
  entry_exists := TernaryMap.entry_exists;
  retrieve_handle := TernaryMap.retrieve_handle;
  add_entry := TernaryMap.add_entry;
  delete_entry := TernaryMap.delete_entry;
  clear m := Some (TernaryMap.clear m);
}.

(** *** What ternary and range keys match *)

(** The bits of bytes [lo] to [hi] are the key's, under its mask. *)
Definition masked_match (lo hi : Z) (k : TernaryMatchKey) (d : list Z) : Prop :=
  Forall (λ i, bit_at (data k) i = bit_at d i && bit_at (mask k) i) (seqZ (8 * lo) (8 * (hi - lo))).

(** Each range field, a big-endian number, is between the key's bounds. *)
Fixpoint ranges_match (ws : list Z) (offset : Z) (k : TernaryMatchKey) (d : list Z) : Prop :=
  match ws with
  | [] => True
  | w :: ws' =>
      let field l := be_value (take (Z.to_nat w) (drop (Z.to_nat offset) l)) in
      (field (data k) ≤ field d ≤ field (mask k)) ∧ ranges_match ws' (offset + w) k d
  end.

Definition total_width (ws : list Z) : Z := foldr Z.add 0 ws.

#[export] Instance TernaryMatchKey_spec : KeySpec TernaryMatchKey := {
  same k k' := (data k, mask k, priority k) = (data k', mask k', priority k');
  same_dec k k' := decide ((data k, mask k, priority k) = (data k', mask k', priority k'));
  matches w k d := priority k < INT_MAX ∧ masked_match 0 w k d;
  prefer k' h' k h := priority k' < priority k ∨ priority k' = priority k ∧ h' < h;
}.

#[export] Instance RangeMatchKey_spec : KeySpec RangeMatchKey := {
  same k k' := (data k, mask k, priority k, range_widths k) = (data k', mask k', priority k', range_widths k');
  same_dec k k' := decide ((data k, mask k, priority k, range_widths k) =
    (data k', mask k', priority k', range_widths k'));
  matches w k d := priority k < INT_MAX ∧ ranges_match (range_widths k) 0 k d ∧
    masked_match (total_width (range_widths k)) w k d;
  prefer k' h' k h := priority k' < priority k ∨ priority k' = priority k ∧ h' < h;
}.

(** Keys of a width: the data and the mask have that many bytes. *)
Definition ternary_key_ok (w : Z) (k : TernaryMatchKey) : Prop :=
  bytes_ok (data k) ∧ bytes_ok (mask k) ∧ Z.of_nat (length (data k)) = w ∧
  Z.of_nat (length (mask k)) = w.

Definition range_key_ok (w : Z) (k : RangeMatchKey) : Prop :=
  ternary_key_ok w k ∧ Forall (λ x, 0 < x) (range_widths k) ∧ total_width (range_widths k) ≤ w.

Section comparisons.
Implicit Types (k : TernaryMatchKey) (d : list Z).

Lemma byte_bits_eq x y : byte_ok x → byte_ok y →
  x = y ↔ ∀ r, 0 ≤ r < 8 → Z.testbit x (7 - r) = Z.testbit y (7 - r).
Proof.
  intros Hx Hy. split; [by intros ->|]. intros Hbits. apply (bits_inj_w 8); [done..|].
  intros i Hi. specialize (Hbits (7 - i) ltac:(lia)). by replace (7 - (7 - i)) with i in Hbits by lia.
Qed.

(** One byte of the comparison. *)
Lemma masked_byte k d i a x m :
  byte_ok a → byte_ok x →
  vget (data k) i = Some a → vget d i = Some x → vget (mask k) i = Some m →
  a = Z.land x m ↔ masked_match i (i + 1) k d.
Proof.
  intros Ha Hx E1 E2 E3. rewrite byte_bits_eq by (done || by apply byte_ok_land).
  unfold masked_match. rewrite Forall_forall. split; intros H.
  - intros j Hj%elem_of_seqZ. assert (j = 8 * i + (j - 8 * i)) as -> by lia.
    rewrite (bit_at_split _ i _ a), (bit_at_split _ i _ x), (bit_at_split _ i _ m) by (done || lia).
    rewrite <- Z.land_spec. apply H. lia.
  - intros r Hr. rewrite Z.land_spec.
    rewrite <- (bit_at_split (data k) i r a), <- (bit_at_split d i r x), <- (bit_at_split (mask k) i r m) by done.
    apply H. apply elem_of_seqZ. lia.
Qed.

Lemma masked_match_app lo mid hi k d :
  lo ≤ mid ≤ hi → masked_match lo hi k d ↔ masked_match lo mid k d ∧ masked_match mid hi k d.
Proof.
  intros H. unfold masked_match. rewrite <- Forall_app.
  replace (8 * (hi - lo)) with (8 * (mid - lo) + 8 * (hi - mid)) by lia.
  rewrite seqZ_app by lia. by replace (8 * lo + 8 * (mid - lo)) with (8 * mid) by lia.
Qed.

Lemma masked_match_nil lo k d : masked_match lo lo k d.
Proof. unfold masked_match. rewrite Z.sub_diag. constructor. Qed.

(** The bytewise loop decides the match on bits. *)
Lemma masked_loop_spec w k d n : ∀ i,
  ternary_key_ok w k → bytes_ok d → Z.of_nat (length d) = w → 0 ≤ i → i + Z.of_nat n = w →
  ∃ b, TernaryMap.masked_loop n i d k = Some b ∧ (b = true ↔ masked_match i w k d).
Proof.
  induction n as [|n IH]; intros i Hk Hd Hlen Hi Hn; cbn [TernaryMap.masked_loop].
  - exists true. split; [done|]. replace i with w by lia. pose proof (masked_match_nil w k d). tauto.
  - pose proof Hk as (Hda & Hma & Ld & Lm).
    destruct (proj2 (vget_is_Some (data k) i)) as [a Ea]; [lia|].
    destruct (proj2 (vget_is_Some d i)) as [x Ex]; [lia|].
    destruct (proj2 (vget_is_Some (mask k) i)) as [m Em]; [lia|].
    rewrite Ea, Ex, Em. msimpl.
    pose proof (masked_byte k d i a x m (bytes_ok_vget _ _ _ Hda Ea) (bytes_ok_vget _ _ _ Hd Ex) Ea Ex Em) as Hb.
    pose proof (masked_match_app i (i + 1) w k d ltac:(lia)) as Happ.
    destruct (Z.eqb_spec a (Z.land x m)) as [He|He].
    + destruct (IH (i + 1) Hk Hd Hlen) as (b & -> & Hbt); [lia|lia|]. exists b. split; [done|]. tauto.
    + exists false. split; [done|]. split; [done|]. tauto.
Qed.

Lemma ternary_cmp_spec w k d :
  ternary_key_ok w k → bytes_ok d → Z.of_nat (length d) = w →
  ∃ b, TernaryMap.ternary_cmp w d k = Some b ∧ (b = true ↔ masked_match 0 w k d).
Proof. intros Hk Hd Hlen. apply masked_loop_spec; [done..|lia]. Qed.

Lemma address_Some (c : list Z) o :
  0 ≤ o < Z.of_nat (length c) → TernaryMap.address c o = Some (drop (Z.to_nat o) c).
Proof. intros. unfold TernaryMap.address. by rewrite decide_True. Qed.

Lemma total_width_nonneg ws : Forall (λ x, 0 < x) ws → 0 ≤ total_width ws.
Proof. induction 1; simpl; [done|]. unfold total_width in *. simpl. lia. Qed.

(** The range loop decides whether every range field is within its bounds. *)
Lemma range_loop_spec w k d ws : ∀ o,
  ternary_key_ok w k → bytes_ok d → Z.of_nat (length d) = w →
  Forall (λ x, 0 < x) ws → 0 ≤ o → o + total_width ws ≤ w →
  ∃ r, TernaryMap.range_loop ws o d k = Some r ∧
    match r with
    | Some o' => o' = o + total_width ws ∧ ranges_match ws o k d
    | None => ¬ ranges_match ws o k d
    end.
Proof.
  induction ws as [|x ws IH]; intros o Hk Hd Hlen Hws Ho Hw; cbn [TernaryMap.range_loop ranges_match].
  { exists (Some o). split; [done|]. unfold total_width. simpl. split; [lia|done]. }
  apply Forall_cons in Hws as [Hx Hws]. pose proof (total_width_nonneg ws Hws).
  change (total_width (x :: ws)) with (x + total_width ws) in *.
  pose proof Hk as (Hda & Hma & Ld & Lm).
  rewrite !address_Some by lia. msimpl.
  assert (∀ c : list Z, bytes_ok c → bytes_ok (drop (Z.to_nat o) c)) as Hdrop by (intros; by apply Forall_drop).
  rewrite !memcmp_be by (rewrite ?length_drop; (by apply Hdrop) || lia). msimpl.
  set (field := λ l, be_value (take (Z.to_nat x) (drop (Z.to_nat o) l))).
  change (be_value (take (Z.to_nat x) (drop (Z.to_nat o) d))) with (field d).
  change (be_value (take (Z.to_nat x) (drop (Z.to_nat o) (data k)))) with (field (data k)).
  change (be_value (take (Z.to_nat x) (drop (Z.to_nat o) (mask k)))) with (field (mask k)).
  destruct (IH (o + x) Hk Hd Hlen Hws) as (r & E & Hr); [lia|lia|].
  destruct (Z.compare_spec (field d) (field (data k))), (Z.compare_spec (field d) (field (mask k)));
    first [eexists; split; [done|]; intros [? _]; lia
          |rewrite E; exists r; split; [done|]; destruct r;
             [destruct Hr; split; [lia|split; [lia|done]]|intros [_ ?]; done]].
Qed.

Lemma range_cmp_spec w (k : RangeMatchKey) d :
  range_key_ok w k → bytes_ok d → Z.of_nat (length d) = w →
  ∃ b, TernaryMap.range_cmp w d k = Some b ∧
    (b = true ↔ ranges_match (range_widths k) 0 k d ∧
      masked_match (total_width (range_widths k)) w k d).
Proof.
  intros (Hk & Hws & Hw) Hd Hlen. unfold TernaryMap.range_cmp.
  pose proof (total_width_nonneg _ Hws).
  destruct (range_loop_spec w k d (range_widths k) 0) as (r & -> & Hr); [done..|lia|]. msimpl.
  destruct r as [o|]; [|exists false; split; [done|]; split; [done|tauto]].
  destruct Hr as [-> Hr]. rewrite Z.add_0_l.
  destruct (masked_loop_spec w k d (Z.to_nat (w - total_width (range_widths k)))
    (total_width (range_widths k))) as (b & -> & Hb); [done..|lia|].
  exists b. split; [done|]. tauto.
Qed.
End comparisons.

(** ** The contract of the two maps *)

(** What the contract needs to know of a type of keys. *)
Class MapKeyLaws (K : Type) `{!MapKey K, !KeySpec K} := {
  mk_key_ok : Z → K → Prop;
  mk_equiv :: Equivalence (same (K := K));
  mk_same k k' : EntryList.key_same k k' ↔ same k k';
  mk_cmp w k d : mk_key_ok w k → bytes_ok d → Z.of_nat (length d) = w →
    ∃ b, map_cmp w d k = Some b ∧
      (matches w k d ↔ EntryList.key_priority k < INT_MAX ∧ b = true);
  mk_matches_same w k k' d : same k k' → matches w k d → matches w k' d;
  mk_prefer k' h' k h : prefer k' h' k h ↔
    EntryList.key_priority k' < EntryList.key_priority k ∨
    EntryList.key_priority k' = EntryList.key_priority k ∧ h' < h;
}.

Lemma masked_match_same lo hi (k k' : TernaryMatchKey) d :
  data k = data k' → mask k = mask k' → masked_match lo hi k d → masked_match lo hi k' d.
Proof. unfold masked_match. by intros -> ->. Qed.

Lemma ranges_match_same ws (k k' : TernaryMatchKey) d : data k = data k' → mask k = mask k' →
  ∀ o, ranges_match ws o k d → ranges_match ws o k' d.
Proof.
  intros E1 E2. induction ws as [|w ws IH]; intros o; simpl; [done|]. rewrite E1, E2.
  intros [? ?]. split; [done|by apply IH].
Qed.

#[export] Instance TernaryMatchKey_laws : MapKeyLaws TernaryMatchKey.
Proof.
  refine {| mk_key_ok := ternary_key_ok |}.
  - split; cbn; congruence.
  - intros k k'. unfold EntryList.key_same, EntryList.key_eqb, EntryList.key_priority. cbn.
    unfold TernaryMap.ternary_eqb. rewrite andb_true_iff, !bool_decide_eq_true. naive_solver congruence.
  - intros w k d Hk Hd Hlen. destruct (ternary_cmp_spec w k d Hk Hd Hlen) as (b & E & Hb).
    exists b. split; [exact E|]. cbn. tauto.
  - intros w k k' d [= E1 E2 E3]. cbn. rewrite E3. intros [? ?]. split; [done|].
    by eapply masked_match_same.
  - done.
Defined.

#[export] Instance RangeMatchKey_laws : MapKeyLaws RangeMatchKey.
Proof.
  refine {| mk_key_ok := range_key_ok |}.
  - split; cbn; congruence.
  - intros k k'. unfold EntryList.key_same, EntryList.key_eqb, EntryList.key_priority. cbn.
    unfold TernaryMap.range_eqb. rewrite !andb_true_iff, !bool_decide_eq_true. naive_solver congruence.
  - intros w k d Hk Hd Hlen. destruct (range_cmp_spec w k d Hk Hd Hlen) as (b & E & Hb).
    exists b. split; [exact E|]. cbn. tauto.
  - intros w k k' d [= E1 E2 E3 E4]. cbn. rewrite E3, E4. intros (? & ? & ?). split_and!; [done| |].
    + by eapply ranges_match_same.
    + by eapply masked_match_same.
  - done.
Defined.

#[export] Instance map_spec_laws {K} `{MapKeyLaws K} : KeySpecLaws K.
Proof.
  constructor; [apply mk_matches_same|]. intros k1 k1' k2 k2' h1 h2 [E1 _]%mk_same [E2 _]%mk_same.
  by rewrite !mk_prefer, E1, E2.
Qed.

Section map_laws.
Context {K : Type} `{MapKeyLaws K}.
Implicit Types (m : TernaryMap.Map K) (k : K) (c : list (Z * K)).

Definition map_cmpf (w : Z) (d : list Z) (k : K) : bool := default false (map_cmp w d k).

(** [m] represents the list [c] of handles and keys. *)
Definition map_rep m c : Prop :=
  EntryList.ok (map_cmpf (TernaryMap.nbytes_key m)) (TernaryMap.entry_list m) c ∧
  Forall (mk_key_ok (TernaryMap.nbytes_key m)) c.*2.

#[export] Instance Map_contract : LookupContract K (TernaryMap.Map K) := {
  ls_inv m := ∃ c, map_rep m c;
  ls_width := TernaryMap.nbytes_key;
  ls_capacity m h := h < Z.of_nat (length (EntryList.entries (TernaryMap.entry_list m)));
  ls_key_ok := mk_key_ok;
  ls_limit _ _ := True;
}.

Lemma map_view m c k : map_rep m c → retrieve_handle m k = Some (EntryList.assoc c k) ∧
  view m k = EntryList.assoc c k.
Proof.
  intros [Hok _]. assert (retrieve_handle m k = Some (EntryList.assoc c k)) as E.
  { by apply (EntryList.find_entry_spec _ _ c k Hok). }
  split; [done|]. unfold view. by rewrite E.
Qed.

Lemma map_assoc m c k h : map_rep m c →
  EntryList.assoc c k = Some h ↔ ∃ k', (h, k') ∈ c ∧ same k' k.
Proof.
  intros [Hok _]. split.
  - intros (k' & ? & ?%mk_same)%EntryList.assoc_Some. eauto.
  - intros (k' & Hin & Hs%mk_same). eapply EntryList.assoc_in; [done| | |done..].
    + intros k1 k2 k3. rewrite !mk_same. apply transitivity.
    + intros k1 k2. rewrite !mk_same. apply symmetry.
Qed.

Lemma map_assoc_same m c k k' : map_rep m c → same k k' → EntryList.assoc c k = EntryList.assoc c k'.
Proof.
  intros Hrep Hs. apply option_eq. intros h. rewrite !(map_assoc m c) by done.
  split; intros (k1 & ? & ?); exists k1; (split; [done|]); by etrans; [|symmetry || idtac].
Qed.

Lemma map_key_in m c h k : map_rep m c → (h, k) ∈ c → mk_key_ok (TernaryMap.nbytes_key m) k.
Proof.
  intros [_ Hall] Hin. rewrite Forall_forall in Hall. apply Hall. apply list_elem_of_fmap. by exists (h, k).
Qed.

Lemma map_cmpf_spec m c d h k :
  map_rep m c → bytes_ok d → Z.of_nat (length d) = TernaryMap.nbytes_key m → (h, k) ∈ c →
  map_cmp (TernaryMap.nbytes_key m) d k = Some (map_cmpf (TernaryMap.nbytes_key m) d k) ∧
  (matches (TernaryMap.nbytes_key m) k d ↔
    EntryList.key_priority k < INT_MAX ∧ map_cmpf (TernaryMap.nbytes_key m) d k = true).
Proof.
  intros Hrep Hd Hlen Hin. destruct (mk_cmp (TernaryMap.nbytes_key m) k d) as (b & E & Hb);
    [by eapply map_key_in|done..|]. unfold map_cmpf. rewrite E. done.
Qed.

Lemma map_lookup_best m c d :
  map_rep m c → bytes_ok d → Z.of_nat (length d) = TernaryMap.nbytes_key m →
  ∃ m', lookup m d =
      Some (m', EntryList.best (map_cmpf (TernaryMap.nbytes_key m) d) c INT_MAX None) ∧
    map_rep m' c ∧ ls_width m' = ls_width m ∧ ∀ h, ls_capacity m' h ↔ ls_capacity m h.
Proof.
  intros Hrep Hd Hlen. pose proof Hrep as [Hok Hall].
  destruct (EntryList.lookup_spec _ _ c (map_cmp (TernaryMap.nbytes_key m)) d Hok)
    as (l' & E & Hok' & Hh & He & _).
  { intros h k Hin. by eapply map_cmpf_spec. }
  exists (TernaryMap.with_list m l'). split; [cbn; unfold TernaryMap.lookup; by rewrite E|].
  split; [split; [exact Hok'|exact Hall]|]. split; [done|]. simpl. by rewrite He.
Qed.

Lemma map_best m c d :
  map_rep m c → bytes_ok d → Z.of_nat (length d) = TernaryMap.nbytes_key m →
  match EntryList.best (map_cmpf (TernaryMap.nbytes_key m) d) c INT_MAX None with
  | Some h => ∃ k, (h, k) ∈ c ∧ matches (ls_width m) k d ∧
      ∀ h' k', (h', k') ∈ c → matches (ls_width m) k' d → ¬ prefer k' h' k h
  | None => ∀ h k, (h, k) ∈ c → ¬ matches (ls_width m) k d
  end.
Proof.
  intros Hrep Hd Hlen. pose proof (map_cmpf_spec m c d) as Hcmp. cbn [ls_width Map_contract].
  destruct (EntryList.best_spec (map_cmpf (TernaryMap.nbytes_key m) d) c INT_MAX None
    (EntryList.ok_sorted _ _ _ (proj1 Hrep))) as [[-> Hnone]|(h & k & -> & Hin & Hf & Hp & Hmin)].
  - intros h k Hin Hm. apply (Hcmp h k) in Hm as [Hp Hf]; [|done..]. specialize (Hnone h k Hin Hf). lia.
  - exists k. split; [done|]. split; [by apply (Hcmp h k)|].
    intros h' k' Hin' Hm' Hpr%mk_prefer. apply (Hcmp h' k') in Hm' as [Hp' Hf']; [|done..].
    specialize (Hmin h' k' Hin' Hf'). lia.
Qed.

(** A match found through the interface is one in the list. *)
Lemma map_view_in m c k h : map_rep m c → view m k = Some h → ∃ k', (h, k') ∈ c ∧ same k' k.
Proof. intros Hrep. rewrite (proj2 (map_view m c k Hrep)). by apply (map_assoc m). Qed.

Lemma map_in_view m c k h : map_rep m c → (h, k) ∈ c → view m k = Some h.
Proof.
  intros Hrep Hin. rewrite (proj2 (map_view m c k Hrep)). apply (map_assoc m); [done|]. by exists k.
Qed.

Lemma prefer_same k1 k2 k h' h : same k1 k2 → prefer k1 h' k h → prefer k2 h' k h.
Proof. intros [E _]%mk_same. rewrite !mk_prefer. by rewrite E. Qed.

Lemma map_add m c k h :
  map_rep m c → mk_key_ok (TernaryMap.nbytes_key m) k → view m k = None →
  0 ≤ h → ls_capacity m h → h ∉ c.*1 → (h ≠ 0 → h - 1 ∈ c.*1) →
  ∃ m' c', add_entry m k h = Some m' ∧ map_rep m' c' ∧ c' ≡ₚ (h, k) :: c ∧
    ls_width m' = ls_width m ∧ ∀ h, ls_capacity m' h ↔ ls_capacity m h.
Proof.
  intros Hrep Hk Hnone H0 Hcap Hh Hpred. pose proof Hrep as [Hok Hall].
  destruct (EntryList.add_spec _ _ c k h Hok) as (l' & c1 & c2 & E & -> & Hok' & Hcfg); try done.
  - intros h' k' Hin Hs%mk_same. rewrite (proj2 (map_view m c k Hrep)) in Hnone.
    assert (EntryList.assoc c k = Some h') as E; [|congruence]. apply (map_assoc m); [done|]. by exists k'.
  - intros k1 k2. rewrite !mk_same. apply symmetry.
  - exists (TernaryMap.with_list m l'), (c1 ++ (h, k) :: c2). split.
    { cbn. unfold TernaryMap.add_entry. by rewrite E. }
    split; [split; [exact Hok'|]|split; [|split; [done|]]].
    + rewrite fmap_app in *. cbn [fmap list_fmap snd]. apply Forall_app in Hall as [? ?].
      apply Forall_app. split; [done|]. by constructor.
    + symmetry. apply Permutation_middle.
    + intros h'. cbn. by rewrite (proj1 Hcfg).
Qed.

Lemma map_delete m c k h :
  map_rep m c → view m k = Some h →
  ∃ m' c' k', delete_entry m k = Some m' ∧ map_rep m' c' ∧ c ≡ₚ (h, k') :: c' ∧ same k' k ∧
    ls_width m' = ls_width m ∧ ∀ h, ls_capacity m' h ↔ ls_capacity m h.
Proof.
  intros Hrep Hv. pose proof Hrep as [Hok Hall]. rewrite (proj2 (map_view m c k Hrep)) in Hv.
  destruct (EntryList.delete_spec _ _ c k h Hok Hv) as (l' & c1 & k' & c2 & E & -> & Hs & Hok' & Hcfg).
  exists (TernaryMap.with_list m l'), (c1 ++ c2), k'. split.
  { change (TernaryMap.with_list m <$> EntryList.delete_entry (TernaryMap.entry_list m) k =
      Some (TernaryMap.with_list m l')). by rewrite E. }
  split; [split; [exact Hok'|]|split; [|split; [by apply mk_same|split; [done|]]]].
  - rewrite fmap_app in *. cbn [fmap list_fmap snd] in Hall.
    apply Forall_app in Hall as [? [_ ?]%Forall_cons]. by apply Forall_app.
  - symmetry. apply Permutation_middle.
  - intros h'. cbn. by rewrite (proj1 Hcfg).
Qed.

(** The handle of each key, after a change of the list. *)
Lemma view_after m c m' c' k k1 o :
  map_rep m c → map_rep m' c' →
  (∀ h k', (h, k') ∈ c' → same k' k1 →
    if decide (same k k1) then o = Some h else view m k1 = Some h) →
  (∀ h, (if decide (same k k1) then o else view m k1) = Some h → view m' k1 = Some h) →
  view m' k1 = if decide (same k k1) then o else view m k1.
Proof.
  intros Hrep Hrep' H1 H2. apply option_eq. intros h. split.
  - intros (k' & Hin & Hs)%(map_view_in m' c'); [|done]. specialize (H1 h k' Hin Hs). by case_decide.
  - apply H2.
Qed.

#[export] Instance Map_laws : LookupStructureLaws K (TernaryMap.Map K).
Proof.
  constructor.
  - apply _.
  - intros m k [c Hrep] _. destruct (map_view m c k Hrep) as [E1 E2]. split; [by rewrite E2|].
    change (entry_exists m k) with
      (e ← retrieve_handle m k; Some (bool_decide (is_Some e))).
    by rewrite E1, E2.
  - intros m k k' [c Hrep] _ _ Hs. rewrite !(proj2 (map_view m c _ Hrep)). by eapply map_assoc_same.
  - intros m d [c Hrep] Hd Hlen. destruct (map_lookup_best m c d Hrep Hd Hlen) as (m' & E & Hrep' & Hw & Hcap).
    pose proof (map_best m c d Hrep Hd Hlen) as Hr. eexists m', _. split; [done|]. split; [by exists c|]. split; [done|]. split; [done|].
    split.
    { intros k. rewrite (proj2 (map_view m c k Hrep)). apply (map_view m' c k Hrep'). }
    destruct (EntryList.best _ c INT_MAX None) as [h|].
    + destruct Hr as (k & Hin & Hm & Hbest). exists k. split; [by eapply map_key_in|].
      split; [by eapply map_in_view|]. split; [done|].
      intros k' h' Hk' (k1 & Hin1 & Hs1)%(map_view_in m c) Hm'; [|done].
      intros Hp. eapply (Hbest h' k1); [done| |eapply prefer_same; [symmetry; exact Hs1|done]].
      eapply mk_matches_same; [symmetry; exact Hs1|done].
    + intros k h Hk (k1 & Hin1 & Hs1)%(map_view_in m c) Hm; [|done].
      eapply Hr; [done|]. eapply mk_matches_same; [symmetry; exact Hs1|done].
  - intros m k h [c Hrep] Hk Hnone _ H0 Hcap Hfresh Hbelow.
    destruct (map_add m c k h Hrep Hk Hnone H0 Hcap) as (m' & c' & E & Hrep' & Hp & Hw & Hcap').
    + intros ([h' k'] & -> & Hin)%list_elem_of_fmap. apply (Hfresh k'); [by eapply map_key_in|].
      by eapply map_in_view.
    + intros Hne. destruct (Hbelow (h - 1)) as (k' & Hk' & (k1 & Hin & _)%(map_view_in m c)); [lia| |done].
      apply list_elem_of_fmap. by exists (h - 1, k1).
    + exists m'. split; [done|]. split; [by exists c'|]. split; [done|]. split; [done|].
      intros k1 Hk1. eapply (view_after m c m' c'); [done..| |].
      * intros h' k' Hin Hs. rewrite Hp in Hin. apply elem_of_cons in Hin as [[= -> ->]|Hin].
        -- by rewrite decide_True.
        -- assert (view m k1 = Some h') as Hv
             by (rewrite (proj2 (map_view m c k1 Hrep)); apply (map_assoc m); [done|by exists k']).
           case_decide as Hd; [|done]. exfalso.
           rewrite (proj2 (map_view m c k Hrep)) in Hnone. rewrite (proj2 (map_view m c k1 Hrep)) in Hv.
           rewrite (map_assoc_same m c k k1) in Hnone by done. congruence.
      * intros h'. case_decide as Hd.
        -- intros [= <-]. rewrite (proj2 (map_view m' c' k1 Hrep')). apply (map_assoc m'); [done|].
           exists k. split; [rewrite Hp; left|done].
        -- intros (k' & Hin & Hs)%(map_view_in m c); [|done].
           rewrite (proj2 (map_view m' c' k1 Hrep')). apply (map_assoc m'); [done|].
           exists k'. split; [rewrite Hp; by right|done].
  - intros m k [c Hrep] Hk [h Hv].
    destruct (map_delete m c k h Hrep Hv) as (m' & c' & k0 & E & Hrep' & Hp & Hs0 & Hw & Hcap').
    exists m'. split; [done|]. split; [by exists c'|]. split; [done|]. split; [done|].
    intros k1 Hk1. eapply (view_after m c m' c'); [done..| |].
    + intros h' k' Hin Hs. assert ((h', k') ∈ c) as Hin' by (rewrite Hp; by right).
      case_decide as Hd.
      * exfalso. assert (h' = h) as ->.
        { eapply (EntryList.ok_distinct _ _ _ (proj1 Hrep)); [exact Hin'|rewrite Hp; left|].
          apply mk_same. etrans; [exact Hs|]. etrans; [symmetry; exact Hd|]. by symmetry. }
        pose proof (EntryList.ok_NoDup _ _ _ (proj1 Hrep)) as Hnd. rewrite Hp in Hnd.
        apply NoDup_cons in Hnd as [Hn _]. apply Hn. apply list_elem_of_fmap. by exists (h, k').
      * rewrite (proj2 (map_view m c k1 Hrep)). apply (map_assoc m); [done|by exists k'].
    + intros h'. case_decide as Hd; [done|]. intros (k' & Hin & Hs)%(map_view_in m c); [|done].
      rewrite Hp in Hin. apply elem_of_cons in Hin as [[= -> ->]|Hin].
      * destruct Hd. etrans; [symmetry; exact Hs0|done].
      * rewrite (proj2 (map_view m' c' k1 Hrep')). apply (map_assoc m'); [done|by exists k'].
  - intros m [c [Hok Hall]]. destruct (EntryList.clear_ok _ _ c Hok) as [Hok' Hcfg].
    assert (map_rep (TernaryMap.clear m) []) as Hrep' by (split; [exact Hok'|constructor]).
    exists (TernaryMap.clear m). split; [done|]. split; [by exists []|]. split; [done|]. split; [done|].
    intros k _. apply (map_view _ [] k Hrep').
Qed.
End map_laws.

(** ** Traces of operations *)

Section traces.
Context {K : Type} `{MapKeyLaws K}.
Implicit Types (m : TernaryMap.Map K) (k : K) (c : list (Z * K)).

Inductive op :=
  | OpAdd (k : K) (h : Z)
  | OpDelete (k : K)
  | OpLookup (d : list Z)
  | OpClear.

(** An operation and what it returns. *)
Definition step m (o : op) : option (TernaryMap.Map K * option Z) :=
  match o with
  | OpAdd k h => m ← TernaryMap.add_entry m k h; Some (m, None)
  | OpDelete k => m ← TernaryMap.delete_entry m k; Some (m, None)
  | OpLookup d => TernaryMap.lookup m d
  | OpClear => Some (TernaryMap.clear m, None)
  end.

Fixpoint run m (ops : list op) : option (TernaryMap.Map K * list (option Z)) :=
  match ops with
  | [] => Some (m, [])
  | o :: ops' => '(m, r) ← step m o; '(m, rs) ← run m ops'; Some (m, r :: rs)
  end.

(** How a match unit calls the map: it adds new keys under fresh handles
    whose predecessor is in use, and deletes the keys it added. *)
Definition admissible_op m (o : op) : Prop :=
  match o with
  | OpAdd k h => ls_key_ok (ls_width m) k ∧ view m k = None ∧ 0 ≤ h ∧ ls_capacity m h ∧
      (∀ k', ls_key_ok (ls_width m) k' → view m k' ≠ Some h) ∧
      (h ≠ 0 → ∃ k', view m k' = Some (h - 1))
  | OpDelete k => is_Some (view m k)
  | OpLookup d => bytes_ok d ∧ Z.of_nat (length d) = ls_width m
  | OpClear => True
  end.

Fixpoint admissible m (ops : list op) : Prop :=
  match ops with
  | [] => True
  | o :: ops' => admissible_op m o ∧ ∀ m' r, step m o = Some (m', r) → admissible m' ops'
  end.

(** Two maps with the same list of entries, whatever their caches. *)
Definition similar m1 m2 : Prop :=
  ∃ c, map_rep m1 c ∧ map_rep m2 c ∧ ls_width m1 = ls_width m2 ∧
    ∀ h, ls_capacity m1 h ↔ ls_capacity m2 h.

Lemma StronglySorted_fst c :
  StronglySorted Z.lt c.*1 → StronglySorted (λ p q : Z * K, p.1 < q.1) c.
Proof.
  induction c as [|p c IH]; simpl; [constructor|].
  intros [Hp Hc]%StronglySorted_cons. apply StronglySorted_cons. split; [|by apply IH].
  rewrite Forall_forall in Hp. apply Forall_forall. intros q Hq. apply Hp.
  apply list_elem_of_fmap. by exists q.
Qed.

(** A list of entries is determined by its contents. *)
Lemma rep_perm m1 m2 c1 c2 : map_rep m1 c1 → map_rep m2 c2 → c1 ≡ₚ c2 → c1 = c2.
Proof.
  intros [H1 _] [H2 _] Hp. eapply (StronglySorted_unique_strong (λ p q : Z * K, p.1 < q.1)).
  - intros p q ?? H3 H4. simpl in *. lia.
  - apply StronglySorted_fst, (EntryList.ok_sorted _ _ _ H1).
  - apply StronglySorted_fst, (EntryList.ok_sorted _ _ _ H2).
  - done.
Qed.

Lemma step_similar m1 m2 o :
  similar m1 m2 → admissible_op m1 o →
  ∃ m1' m2' r, step m1 o = Some (m1', r) ∧ step m2 o = Some (m2', r) ∧ similar m1' m2'.
Proof.
  intros (c & R1 & R2 & Hw & Hcap) Ha. destruct o as [k h|k|d|]; cbn [step admissible_op] in *.
  - destruct Ha as (Hk & Hnone & H0 & Hc & Hfresh & Hpred).
    assert (h ∉ c.*1) as Hh.
    { intros ([h' k'] & -> & Hin)%list_elem_of_fmap. apply (Hfresh k'); [by eapply (map_key_in m1)|].
      by eapply map_in_view. }
    assert (h ≠ 0 → h - 1 ∈ c.*1) as Hp.
    { intros (k' & (k1 & Hin & _)%(map_view_in m1 c))%Hpred; [|done]. apply list_elem_of_fmap. by exists (h - 1, k1). }
    destruct (map_add m1 c k h R1 Hk Hnone H0 Hc Hh Hp) as (m1' & c1 & E1 & R1' & P1 & W1 & C1).
    destruct (map_add m2 c k h R2) as (m2' & c2 & E2 & R2' & P2 & W2 & C2); [|..|done|by apply Hcap|done|done|].
    { cbn in Hw. by rewrite <- Hw. }
    { rewrite (proj2 (map_view m2 c k R2)), <- (proj2 (map_view m1 c k R1)). done. }
    exists m1', m2', None. cbn in E1, E2. rewrite E1, E2. split; [done|]. split; [done|].
    exists c1. split; [done|]. split; [by rewrite (rep_perm m1' m2' c1 c2) by (done || by rewrite P1, P2)|].
    split; [congruence|]. intros h'. by rewrite C1, C2.
  - destruct Ha as [h Hv].
    destruct (map_delete m1 c k h R1 Hv) as (m1' & c1 & k1 & E1 & R1' & P1 & S1 & W1 & C1).
    destruct (map_delete m2 c k h R2) as (m2' & c2 & k2 & E2 & R2' & P2 & S2 & W2 & C2).
    { by rewrite (proj2 (map_view m2 c k R2)), <- (proj2 (map_view m1 c k R1)). }
    exists m1', m2', None. change (TernaryMap.delete_entry m1 k) with (delete_entry m1 k).
    change (TernaryMap.delete_entry m2 k) with (delete_entry m2 k). rewrite E1, E2.
    split; [done|]. split; [done|]. exists c1. split; [done|]. split; [|split; [congruence|intros h'; by rewrite C1, C2]].
    assert (c1 = c2) as ->; [|done]. apply (rep_perm m1' m2'); [done..|].
    assert ((h, k1) = (h, k2)) as E.
    { pose proof (EntryList.ok_NoDup _ _ _ (proj1 R1)) as Hnd.
      assert ((h, k1) ∈ c) as [i Hi]%list_elem_of_lookup by (rewrite P1; left).
      assert ((h, k2) ∈ c) as [j Hj]%list_elem_of_lookup by (rewrite P2; left).
      assert (i = j) as ->; [|congruence]. eapply (NoDup_lookup _ _ _ h); [exact Hnd|..];
        rewrite list_lookup_fmap; by rewrite ?Hi, ?Hj. }
    rewrite E in P1. rewrite P1 in P2. by apply Permutation_cons_inv in P2.
  - destruct Ha as [Hd Hlen].
    destruct (map_lookup_best m1 c d R1 Hd Hlen) as (m1' & E1 & R1' & W1 & C1).
    destruct (map_lookup_best m2 c d R2 Hd) as (m2' & E2 & R2' & W2 & C2); [by cbn in Hw; rewrite <- Hw|].
    pose proof Hw as Hw'. cbn [ls_width Map_contract] in Hw'. rewrite <- Hw' in E2.
    eexists m1', m2', _. split; [exact E1|]. split; [exact E2|]. exists c.
    split; [done|]. split; [done|]. split; [congruence|]. intros h'. by rewrite C1, C2.
  - exists (TernaryMap.clear m1), (TernaryMap.clear m2), None. split; [done|]. split; [done|].
    exists []. destruct R1 as [[? _]%EntryList.clear_ok _], R2 as [[? _]%EntryList.clear_ok _].
    split; [split; [done|constructor]|]. split; [split; [done|constructor]|]. done.
Qed.

Lemma run_similar ops : ∀ m1 m2, similar m1 m2 → admissible m1 ops →
  ∃ m1' m2' rs, run m1 ops = Some (m1', rs) ∧ run m2 ops = Some (m2', rs) ∧ similar m1' m2'.
Proof.
  induction ops as [|o ops IH]; intros m1 m2 Hs Ha; cbn [run admissible] in *; [by exists m1, m2, []|].
  destruct Ha as [Ho Ha].
  destruct (step_similar m1 m2 o Hs Ho) as (m1' & m2' & r & E1 & E2 & Hs').
  destruct (IH m1' m2' Hs') as (m1'' & m2'' & rs & E1' & E2' & Hs''); [by eapply Ha|].
  exists m1'', m2'', (r :: rs). rewrite E1, E2. msimpl. rewrite E1', E2'. done.
Qed.

Lemma new_rep size w b : Z.of_nat size < 2 ^ 64 → map_rep (TernaryMap.new size w b : TernaryMap.Map K) [].
Proof. intros. split; [by apply EntryList.new_ok|constructor]. Qed.

(** The cache is transparent: whatever sequence of additions, deletions,
    lookups and clears a match unit performs, a map with the cache enabled
    returns what one without a cache returns. *)
Theorem cache_transparent size w (ops : list op) :
  Z.of_nat size < 2 ^ 64 → admissible (TernaryMap.new size w false) ops →
  ∃ m m' rs, run (TernaryMap.new size w false) ops = Some (m, rs) ∧
    run (TernaryMap.new size w true) ops = Some (m', rs).
Proof.
  intros Hsize Ha. destruct (run_similar ops (TernaryMap.new size w false) (TernaryMap.new size w true))
    as (m & m' & rs & E1 & E2 & _); [|done|eauto].
  exists []. split; [by apply new_rep|]. split; [by apply new_rep|]. done.
Qed.
End traces.

(** ** Properties *)

Section properties.
Context {J : Type} `{JudyLLaws J}.

(** A structure as it is made: without entries. *)
Definition fresh {K L : Type} `{!LookupStructure K L, !KeySpec K, !LookupContract K L} (w : Z) (l : L) : Prop :=
  ls_inv l ∧ ls_width l = w ∧ ∀ k, ls_key_ok w k → view l k = None.

(** Deleting an entry that is not there has no effect, or fails an assertion. *)
Definition absent_ignored K L `{!LookupStructure K L, !KeySpec K, !LookupContract K L} : Prop :=
  ∀ (l : L) k, ls_inv l → ls_key_ok (ls_width l) k → view l k = None →
    ∃ l', delete_entry l k = Some l' ∧ ls_inv l' ∧ ls_width l' = ls_width l ∧
      ∀ k', ls_key_ok (ls_width l) k' → view l' k' = view l k'.
Definition absent_asserted K L `{!LookupStructure K L, !KeySpec K, !LookupContract K L} : Prop :=
  ∀ (l : L) k, ls_inv l → ls_key_ok (ls_width l) k → view l k = None → delete_entry l k = None.

Lemma map_absent_asserted {K} `{MapKeyLaws K} : absent_asserted K (TernaryMap.Map K).
Proof.
  intros m k [c Hrep] _ Hv. pose proof Hrep as [Hok _]. destruct (map_view m c k Hrep) as [_ Ha]. rewrite Ha in Hv.
  change (TernaryMap.with_list m <$> EntryList.delete_entry (TernaryMap.entry_list m) k = None).
  unfold EntryList.delete_entry. by rewrite (EntryList.find_entry_spec _ _ _ _ Hok), Hv.
Qed.

Lemma map_fresh {K} `{MapKeyLaws K} size w b : Z.of_nat size < 2 ^ 64 → fresh w (TernaryMap.new size w b : TernaryMap.Map K).
Proof. intros Hs. pose proof (new_rep size w b Hs) as Hrep. split; [by exists []|]. split; [done|]. intros k _. by apply (map_view _ [] k Hrep). Qed.

(** C5: the four lookup structures fulfil the contract that match units rely on.
    They are made without entries; they are then maps from keys to handles, as
    long as keys that are not there are added under the next handle and within
    the capacity (so that no node of a trie gets all its 256 children), keys
    that are there are deleted, and all are cleared; and a lookup returns the
    best entry that matches. The deletion of a key that is not there, which the
    interface says has no effect, has none in a hash map and in a trie, and
    fails an assertion in the lists of the ternary and range tables. *)
Theorem lookup_structures_refine :
  (LookupStructureLaws ExactMatchKey exact_table ∧
   LookupStructureLaws LPMMatchKey (LPMTrieStructure.LPMTrie J) ∧
   LookupStructureLaws TernaryMatchKey (TernaryMap.Map TernaryMatchKey) ∧
   LookupStructureLaws RangeMatchKey (TernaryMap.Map RangeMatchKey)) ∧
  (∀ w, fresh w {| exact_width := w; exact_map := {| ExactMap.entries_map := ∅ |} |} ∧
   (0 ≤ w ≤ 64 → ∃ l : LPMTrieStructure.LPMTrie J, LPMTrieStructure.new w = Some l ∧ fresh w l) ∧
   ∀ size b, Z.of_nat size < 2 ^ 64 →
     fresh w (TernaryMap.new size w b : TernaryMap.Map TernaryMatchKey) ∧ fresh w (TernaryMap.new size w b : TernaryMap.Map RangeMatchKey)) ∧
  absent_ignored ExactMatchKey exact_table ∧ absent_ignored LPMMatchKey (LPMTrieStructure.LPMTrie J) ∧
  absent_asserted TernaryMatchKey (TernaryMap.Map TernaryMatchKey) ∧ absent_asserted RangeMatchKey (TernaryMap.Map RangeMatchKey).
Proof.
  split; [split_and!; apply _|]. split; [intros w; split_and!|split_and!].
  - done.
  - intros Hw. destruct (LpmTrie.trie_create (J := J) w true) as (t & Et & Hwf & Hf & Hk & Hr & Hv); [lia|].
    exists {| LPMTrieStructure.key_width_bytes := w; LPMTrieStructure.trie := t |}. unfold LPMTrieStructure.new. rewrite Et.
    split; [done|]. assert (ls_inv {| LPMTrieStructure.key_width_bytes := w; LPMTrieStructure.trie := t |}) as Hi by (split_and!; cbn; done || lia).
    split; [done|]. split; [done|]. intros k Hk'. rewrite lpm_view by done. apply Hv.
  - intros size b Hs. by split; apply map_fresh.
  - intros l k _ _ Hv. eexists. split; [done|]. split; [done|]. split; [done|]. intros k' _. unfold view in *. cbn in *.
    unfold ExactMap.retrieve_handle, ExactMap.delete_entry in *. cbn in *. rewrite lookup_delete. case_decide as E; [|done]. by rewrite <- E.
  - intros l k Hi Hk Hv. destruct (lpm_delete l k Hi Hk) as (l' & E & Hi' & Hw & _ & Hv'). exists l'. split_and!; try done.
    intros k' Hk'. rewrite Hv' by done. case_decide as Hs; [|done]. rewrite <- Hv. by apply ls_view_same.
  - apply map_absent_asserted.
  - apply map_absent_asserted.
Qed.
End properties.

(** C6: a ternary lookup returns the entry of least priority among those whose
    data are the looked up bits under their mask (the one with the lowest
    handle among equals), and leaves the entries as they were. *)
Theorem ternary_lookup_best (m : TernaryMap.Map TernaryMatchKey) c d :
  map_rep m c → bytes_ok d → Z.of_nat (length d) = TernaryMap.nbytes_key m →
  ∃ m' r, TernaryMap.lookup m d = Some (m', r) ∧ map_rep m' c ∧
    let hit k := priority k < INT_MAX ∧
      ∀ i, 0 ≤ i < 8 * TernaryMap.nbytes_key m → bit_at (data k) i = bit_at d i && bit_at (mask k) i in
    match r with
    | Some h => ∃ k, (h, k) ∈ c ∧ hit k ∧ ∀ h' k', (h', k') ∈ c → hit k' →
        priority k < priority k' ∨ priority k = priority k' ∧ h ≤ h'
    | None => ∀ h k, (h, k) ∈ c → ¬ hit k
    end.
Proof.
  intros Hrep Hd Hlen. destruct (map_lookup_best m c d Hrep Hd Hlen) as (m' & E & Hrep' & _).
  eexists m', _. split; [exact E|]. split; [done|]. pose proof (map_best m c d Hrep Hd Hlen) as Hb.
  cbv zeta. set (hit := λ k : TernaryMatchKey, priority k < INT_MAX ∧ _).
  assert (∀ k, matches (ls_width m) k d ↔ hit k) as Hhit.
  { intros k. unfold hit. cbn. unfold masked_match. rewrite Forall_forall, Z.sub_0_r.
    setoid_rewrite elem_of_seqZ. done. }
  destruct (EntryList.best _ c INT_MAX None) as [h|].
  - destruct Hb as (k & Hin & Hm & Hbest). exists k. split; [done|]. split; [by apply Hhit|].
    intros h' k' Hin' Hm'%Hhit. specialize (Hbest h' k' Hin' Hm'). cbn in Hbest. lia.
  - intros h k Hin Hm%Hhit. by eapply Hb.
Qed.

(** A range lookup returns the entry of least priority among those whose
    range fields, as big-endian numbers, contain the looked up ones and whose
    other fields match under their mask. *)
Theorem range_lookup_best (m : TernaryMap.Map RangeMatchKey) c d :
  map_rep m c → bytes_ok d → Z.of_nat (length d) = TernaryMap.nbytes_key m →
  ∃ m' r, TernaryMap.lookup m d = Some (m', r) ∧ map_rep m' c ∧
    let hit (k : RangeMatchKey) := priority k < INT_MAX ∧ ranges_match (range_widths k) 0 k d ∧
      masked_match (total_width (range_widths k)) (TernaryMap.nbytes_key m) k d in
    match r with
    | Some h => ∃ k, (h, k) ∈ c ∧ hit k ∧ ∀ h' k', (h', k') ∈ c → hit k' →
        priority k < priority k' ∨ priority k = priority k' ∧ h ≤ h'
    | None => ∀ h k, (h, k) ∈ c → ¬ hit k
    end.
Proof.
  intros Hrep Hd Hlen. destruct (map_lookup_best m c d Hrep Hd Hlen) as (m' & E & Hrep' & _).
  eexists m', _. split; [exact E|]. split; [done|]. pose proof (map_best m c d Hrep Hd Hlen) as Hb.
  cbv zeta. destruct (EntryList.best _ c INT_MAX None) as [h|].
  - destruct Hb as (k & Hin & Hm & Hbest). exists k. split; [done|]. split; [exact Hm|].
    intros h' k' Hin' Hm'. specialize (Hbest h' k' Hin' Hm'). cbn in Hbest. lia.
  - exact Hb.
Qed.

(** ** Witnesses *)

Module EntryListExamples.

Definition tkey (d m : list Z) (p : Z) : TernaryMatchKey :=
  {| ternary_base := {| data := d; version := 0 |}; mask := m; priority := p |}.
Definition rkey (d m : list Z) (p : Z) (ws : list Z) : RangeMatchKey :=
  {| range_base := tkey d m p; range_widths := ws |}.

Definition new_t : TernaryMap.Map TernaryMatchKey := TernaryMap.new 4 2 true.
Definition new_r : TernaryMap.Map RangeMatchKey := TernaryMap.new 4 2 true.
Definition k10 := tkey [10; 0] [255; 0] 5.
Definition r10 := rkey [1; 44] [2; 0] 5 [2].
Definition t10 := default new_t (TernaryMap.add_entry new_t k10 0).
Definition tr10 := default new_r (TernaryMap.add_entry new_r r10 0).

(** 10.x, and the range from 300 to 512. *)
Example t10_hit : option_map snd (TernaryMap.lookup t10 [10; 7]) = Some (Some 0).
Proof. vm_compute. reflexivity. Qed.
Example t10_miss : option_map snd (TernaryMap.lookup t10 [11; 7]) = Some None.
Proof. vm_compute. reflexivity. Qed.
Example tr10_hit : option_map snd (TernaryMap.lookup tr10 [1; 200]) = Some (Some 0).
Proof. vm_compute. reflexivity. Qed.
Example tr10_miss : option_map snd (TernaryMap.lookup tr10 [2; 1]) = Some None.
Proof. vm_compute. reflexivity. Qed.

Section first_entry.
Context {K : Type} `{MapKeyLaws K}.

(** A map with one entry. *)
Lemma first_rep (m : TernaryMap.Map K) k :
  map_rep m [] → mk_key_ok (TernaryMap.nbytes_key m) k → ls_capacity m 0 →
  map_rep (default m (TernaryMap.add_entry m k 0)) [(0, k)].
Proof.
  intros Hrep Hk Hcap. destruct (map_add m [] k 0 Hrep Hk) as (m' & c' & E & Hrep' & Hp & _);
    [by apply (map_view m []) |lia|done|by intros ?%not_elem_of_nil|done|].
  cbn in E. rewrite E. apply Permutation_singleton_r in Hp as ->. done.
Qed.
End first_entry.

Lemma t10_rep : map_rep t10 [(0, k10)].
Proof. apply first_rep; [by apply new_rep|refine (bool_decide_unpack _ _); vm_compute; exact I|done]. Qed.

Lemma tr10_rep : map_rep tr10 [(0, r10)].
Proof.
  apply first_rep; [by apply new_rep| |done].
  split; [|split]; refine (bool_decide_unpack _ _); vm_compute; exact I.
Qed.

Lemma ternary_lookup_best_witness :
  ∃ m' r, TernaryMap.lookup t10 [10; 7] = Some (m', r) ∧ map_rep m' [(0, k10)] ∧
    let hit k := priority k < INT_MAX ∧
      ∀ i, 0 ≤ i < 8 * TernaryMap.nbytes_key t10 →
        bit_at (data k) i = bit_at [10; 7] i && bit_at (mask k) i in
    match r with
    | Some h => ∃ k : TernaryMatchKey, (h, k) ∈ [(0, k10)] ∧ hit k ∧ ∀ h' k', (h', k') ∈ [(0, k10)] → hit k' →
        priority k < priority k' ∨ priority k = priority k' ∧ h ≤ h'
    | None => ∀ h (k : TernaryMatchKey), (h, k) ∈ [(0, k10)] → ¬ hit k
    end.
Proof.
  apply (ternary_lookup_best t10 [(0, k10)] [10; 7]);
    [apply t10_rep|refine (bool_decide_unpack _ _); vm_compute; exact I|reflexivity].
Defined.

Lemma range_lookup_best_witness :
  ∃ m' r, TernaryMap.lookup tr10 [1; 200] = Some (m', r) ∧ map_rep m' [(0, r10)] ∧
    let hit (k : RangeMatchKey) := priority k < INT_MAX ∧ ranges_match (range_widths k) 0 k [1; 200] ∧
      masked_match (total_width (range_widths k)) (TernaryMap.nbytes_key tr10) k [1; 200] in
    match r with
    | Some h => ∃ k, (h, k) ∈ [(0, r10)] ∧ hit k ∧ ∀ h' k', (h', k') ∈ [(0, r10)] → hit k' →
        priority k < priority k' ∨ priority k = priority k' ∧ h ≤ h'
    | None => ∀ h k, (h, k) ∈ [(0, r10)] → ¬ hit k
    end.
Proof.
  apply (range_lookup_best tr10 [(0, r10)] [1; 200]);
    [apply tr10_rep|refine (bool_decide_unpack _ _); vm_compute; exact I|reflexivity].
Defined.

Definition ops10 : list (op (K := TernaryMatchKey)) :=
  [OpAdd k10 0; OpLookup [10; 7]; OpDelete k10].

Lemma ops10_admissible : admissible (TernaryMap.new 4 2 false) ops10.
Proof.
  pose proof (new_rep (K := TernaryMatchKey) 4 2 false ltac:(done) : map_rep (TernaryMap.new 4 2 false : TernaryMap.Map TernaryMatchKey) []) as Hrep.
  split; [|intros m r [= <- <-]; split; [|intros m r E; split; [|done]]].
  - assert (∀ k, view (TernaryMap.new 4 2 false : TernaryMap.Map TernaryMatchKey) k = None) as Hv
      by (intros k; apply (map_view _ [] k Hrep)).
    split; [refine (bool_decide_unpack _ _); vm_compute; exact I|]. split; [apply Hv|].
    split; [lia|]. split; [done|]. split; [|done]. intros k' _. by rewrite Hv.
  - split; [refine (bool_decide_unpack _ _); vm_compute; exact I|reflexivity].
  - vm_compute in E. injection E as <- <-. cbn [admissible_op]. vm_compute. eauto.
Qed.

Lemma cache_transparent_witness :
  ∃ m m' rs, run (TernaryMap.new 4 2 false) ops10 = Some (m, rs) ∧
    run (TernaryMap.new 4 2 true) ops10 = Some (m', rs).
Proof. apply (cache_transparent 4 2 ops10); [reflexivity|apply ops10_admissible]. Defined.

Import LpmTrie.JudyLMap.

(** A trie and a ternary table are made; the table gets an entry, a lookup finds it, and a deletion of another key fails. *)
Lemma lookup_structures_refine_witness :
  (∃ l : LPMTrieStructure.LPMTrie (gmap Z Z), LPMTrieStructure.new 2 = Some l ∧ fresh 2 l) ∧
  ∃ m m', add_entry new_t k10 0 = Some m ∧ lookup m [10; 7] = Some (m', Some 0) ∧ delete_entry m (tkey [20; 0] [255; 0] 5) = None.
Proof.
  destruct (lookup_structures_refine (J := gmap Z Z)) as ((_ & _ & Hl & _) & Hf & _ & _ & Ha & _).
  destruct (Hf 2) as (_ & Hlpm & Ht). split; [apply Hlpm; lia|]. destruct (Ht 4%nat true) as [(Hi & Hw & Hv) _]; [lia|]. fold new_t in Hi, Hw, Hv.
  destruct (ls_add new_t k10 0 Hi) as (m & Em & Him & Hwm & _ & Hvm).
  { refine (bool_decide_unpack _ _); vm_compute; exact I. }
  { apply Hv. refine (bool_decide_unpack _ _); vm_compute; exact I. }
  { exact I. } { lia. } { vm_compute. reflexivity. }
  { intros k' Hk'. rewrite (Hv k' Hk'). discriminate. } { lia. }
  destruct (ls_lookup m [10; 7] Him) as (m' & r & El & _).
  { refine (bool_decide_unpack _ _); vm_compute; exact I. } { rewrite Hwm. reflexivity. }
  exists m, m'. split; [exact Em|]. split.
  - rewrite El. vm_compute in Em. injection Em as <-. vm_compute in El. injection El as <- <-. reflexivity.
  - apply Ha; [exact Him|rewrite Hwm; refine (bool_decide_unpack _ _); vm_compute; exact I|].
    rewrite Hvm by (refine (bool_decide_unpack _ _); vm_compute; exact I). rewrite decide_False; [|refine (bool_decide_unpack _ _); vm_compute; exact I].
    apply Hv. refine (bool_decide_unpack _ _); vm_compute; exact I.
Defined.

(** *** A gap in the handles *)

Definition k20 := tkey [20; 0] [255; 0] 5.

(** [EntryList::add] links a new entry after the entry of the preceding
    handle, linked or not: an entry added under a handle whose predecessor is
    free is lost, and so it is neither found nor matched (this is how a match
    unit is deserialized when its handles have a gap). *)
Theorem add_after_gap_lost :
  ∃ m, (m ← TernaryMap.add_entry new_t k10 0; TernaryMap.add_entry m k20 2) = Some m ∧
    TernaryMap.entry_exists m k10 = Some true ∧ TernaryMap.entry_exists m k20 = Some false ∧
    option_map snd (TernaryMap.lookup m [20; 7]) = Some None ∧
    EntryList.entries_count (TernaryMap.entry_list m) = 2.
Proof. eexists. split; [vm_compute; reflexivity|]. vm_compute. done. Qed.
End EntryListExamples.
