(* ===== verification/MatchKey.v ===== *)
(** * Match keys of a table (include/bm/bm_sim/match_units.h,
      src/bm_sim/match_units.cpp)

    [MatchKeyBuilder]: how the fields a table matches on are laid out in the
    key its lookup structure is given, how that key is made from the headers of
    a packet, and how the parameters of an entry are turned into a key and
    back. Logging is not modelled. *)

From S2P Require Import Prelude ByteContainer Data Fields Headers Phv MatchKeyTypes.
Import MatchKeyTypes.

Module MatchKey.

(** ** Match parameters *)

(** In the order of the implementation's keys. *)
Inductive Type_ := RANGE | VALID | EXACT | LPM | TERNARY.

#[export] Instance Type_eq_dec : EqDecision Type_.
Proof. solve_decision. Defined.

Definition type_rank (t : Type_) : Z :=
  match t with RANGE => 0 | VALID => 1 | EXACT => 2 | LPM => 3 | TERNARY => 4 end.

Record MatchKeyParam := {
  type : Type_;
  key : list Z;          (** start of a range *)
  p_mask : list Z;       (** end of a range *)
  p_prefix_length : Z;
}.

#[export] Instance MatchKeyParam_eq_dec : EqDecision MatchKeyParam.
Proof. solve_decision. Defined.

Definition param (t : Type_) (k : list Z) : MatchKeyParam :=
  {| type := t; key := k; p_mask := []; p_prefix_length := 0 |}.
Definition param_mask (t : Type_) (k m : list Z) : MatchKeyParam :=
  {| type := t; key := k; p_mask := m; p_prefix_length := 0 |}.
Definition param_prefix (t : Type_) (k : list Z) (pref : Z) : MatchKeyParam :=
  {| type := t; key := k; p_mask := []; p_prefix_length := pref |}.
Definition with_prefix (p : MatchKeyParam) (pref : Z) : MatchKeyParam :=
  {| type := type p; key := key p; p_mask := p_mask p; p_prefix_length := pref |}.

(** ** The builder *)

Record KeyF := {
  header : Z;
  f_offset : Z;
  mtype : Type_;
  nbits : Z;
}.

Record NameMap := { names : list string; max_s : Z }.

Record MatchKeyBuilder := {
  key_input : list KeyF;
  nbytes_key : Z;
  has_big_mask : bool;
  big_mask : list Z;
  key_mapping : list Z;
  inv_mapping : list Z;
  key_offsets : list Z;
  name_map : NameMap;
  built : bool;
  masks : list (list Z);
}.

Definition empty_builder : MatchKeyBuilder :=
  {| key_input := []; nbytes_key := 0; has_big_mask := false; big_mask := []; key_mapping := [];
     inv_mapping := []; key_offsets := []; name_map := {| names := []; max_s := 0 |};
     built := false; masks := [] |}.

Definition nbits_to_nbytes (nbits : Z) : Z := (nbits + 7) / 8.

Definition name_push_back (m : NameMap) (name : string) : NameMap :=
  {| names := names m ++ [name]; max_s := Z.max (max_s m) (Z.of_nat (String.length name)) |}.

Implicit Types (kb : MatchKeyBuilder) (p : MatchKeyParam) (f : KeyF).

Definition push_back kb f (mask : list Z) (name : string) : MatchKeyBuilder :=
  {| key_input := key_input kb ++ [f]; nbytes_key := nbytes_key kb + nbits_to_nbytes (nbits f);
     has_big_mask := has_big_mask kb; big_mask := big_mask kb; key_mapping := key_mapping kb;
     inv_mapping := inv_mapping kb; key_offsets := key_offsets kb;
     name_map := name_push_back (name_map kb) name; built := built kb; masks := masks kb ++ [mask] |}.

Definition with_has_big_mask kb (b : bool) : MatchKeyBuilder :=
  {| key_input := key_input kb; nbytes_key := nbytes_key kb; has_big_mask := b;
     big_mask := big_mask kb; key_mapping := key_mapping kb; inv_mapping := inv_mapping kb;
     key_offsets := key_offsets kb; name_map := name_map kb; built := built kb; masks := masks kb |}.

(** [push_back_field], without a mask. *)
Definition push_back_field kb (hdr field_offset nbits : Z) (mtype : Type_) (name : string)
    : MatchKeyBuilder :=
  push_back kb {| header := hdr; f_offset := field_offset; mtype := mtype; nbits := nbits |}
    (replicate (Z.to_nat (nbits_to_nbytes nbits)) 255) name.

Definition push_back_field_mask kb (hdr field_offset nbits : Z) (mask : list Z) (mtype : Type_)
    (name : string) : option MatchKeyBuilder :=
  if Z.of_nat (length mask) =? nbits_to_nbytes nbits then
    Some (with_has_big_mask
      (push_back kb {| header := hdr; f_offset := field_offset; mtype := mtype; nbits := nbits |} mask name)
      true)
  else None.

Definition push_back_valid_header kb (hdr : Z) (name : string) : MatchKeyBuilder :=
  push_back kb {| header := hdr; f_offset := 0; mtype := VALID; nbits := 8 |} [255] name.

(** *** [build] *)

(** [sort_fn], reflexively: the order is total. *)
Definition rank_at (ks : list KeyF) (i : Z) : Z := from_option (λ f, type_rank (mtype f)) 0 (vget ks i).
Definition sort_le (ks : list KeyF) (i1 i2 : Z) : Prop :=
  let t1 := rank_at ks i1 in let t2 := rank_at ks i2 in t1 < t2 ∨ t1 = t2 ∧ i1 ≤ i2.

#[export] Instance sort_le_dec ks : RelDecision (sort_le ks).
Proof. intros i1 i2. unfold sort_le. apply _. Defined.

(** [for (const auto idx : inv_mapping) key_mapping[inv_mapping[idx]] = idx] *)
Fixpoint map_loop (idxs inv : list Z) (km : list Z) : option (list Z) :=
  match idxs with
  | [] => Some km
  | idx :: idxs' => i ← vget inv idx; km ← vset km i idx; map_loop idxs' inv km
  end.

Fixpoint offsets_from (curr_offset : Z) (ks : list KeyF) : list Z :=
  match ks with
  | [] => []
  | f :: ks' => curr_offset :: offsets_from (curr_offset + nbits_to_nbytes (nbits f)) ks'
  end.

(** [std::copy(src.begin(), src.end(), dst.begin() + off)] *)
Definition copy_at (dst : list Z) (off : Z) (src : list Z) : option (list Z) :=
  if (0 <=? off) && (off + Z.of_nat (length src) <=? Z.of_nat (length dst)) then
    Some (take (Z.to_nat off) dst ++ src ++ drop (Z.to_nat off + length src) dst)
  else None.

Definition build kb : option MatchKeyBuilder :=
  if built kb then Some kb else
  let n := Z.of_nat (length (key_input kb)) in
  let inv := merge_sort (sort_le (key_input kb)) (seqZ 0 n) in
  km ← map_loop inv inv (replicate (Z.to_nat n) 0);
  new_input ← mapM (vget (key_input kb)) inv;
  offs ← mapM (vget (offsets_from 0 new_input)) km;
  let offs := key_offsets kb ++ offs in
  bm ← for_range 0 (Z.of_nat (length offs)) (λ i bm,
         m ← vget (masks kb) i; o ← vget offs i; copy_at bm o m)
       (replicate (Z.to_nat (nbytes_key kb)) 0);
  Some {| key_input := new_input; nbytes_key := nbytes_key kb; has_big_mask := has_big_mask kb;
          big_mask := bm; key_mapping := km; inv_mapping := inv; key_offsets := offs;
          name_map := name_map kb; built := true; masks := masks kb |}.

Definition apply_big_mask kb (k : list Z) : option (list Z) :=
  if has_big_mask kb then ByteContainer.apply_mask k (big_mask kb) else Some k.

(** *** The key of a packet *)

(** The bytes of one field of the key. *)
Definition field_bytes (phv : Phv.PHV) f : option (list Z) :=
  h ← Phv.get_header phv (header f);
  if decide (mtype f = VALID) then Some [if Headers.is_valid h then 1 else 0] else
  fld ← vget (Headers.fields h) (f_offset f);
  if Headers.is_valid h || Fields.hidden fld then Some (Fields.bytes fld)
  else Some (replicate (Z.to_nat (Fields.nbytes fld)) 0).

(** [operator()(phv, key)]: appends to [key]. *)
Definition make_key kb (phv : Phv.PHV) (k : list Z) : option (list Z) :=
  bs ← mapM (field_bytes phv) (key_input kb);
  apply_big_mask kb (k ++ concat bs).

(** *** The fields of a key *)

(** [std::string(begin + off, begin + off + n)] *)
Definition slice (l : list Z) (off n : Z) : option (list Z) :=
  if (0 <=? off) && (0 <=? n) && (off + n <=? Z.of_nat (length l)) then
    Some (take (Z.to_nat n) (drop (Z.to_nat off) l))
  else None.

(** The loop header the conversions share: field [i] of the P4 key, where it
    is in the implementation's. *)
Definition field_at kb (i : Z) : option (KeyF * Z) :=
  imp_idx ← vget (key_mapping kb) i;
  f_info ← vget (key_input kb) imp_idx;
  byte_offset ← vget (key_offsets kb) i;
  Some (f_info, byte_offset).

Definition nfields kb : Z := Z.of_nat (length (key_mapping kb)).

Definition key_to_fields kb (k : list Z) : option (list (list Z)) :=
  mapM (λ i, '(f, off) ← field_at kb i; slice k off (nbits_to_nbytes (nbits f))) (seqZ 0 (nfields kb)).

Definition key_to_string kb (k separator : list Z) (upper_case : bool) : option (list Z) :=
  foldr (λ i r, s ← r;
    '(f, off) ← field_at kb i;
    h ← ByteContainer.to_hex k off (nbits_to_nbytes (nbits f)) upper_case;
    Some ((if i =? 0 then [] else separator) ++ h ++ s)) (Some []) (seqZ 0 (nfields kb)).

(** *** Prefixes and masks *)

(** Bits set in a byte; [char] arithmetic is on [int]s and wraps when stored. *)
Definition popcount (c : Z) : Z :=
  let c := schar (u8 (c - Z.land (Z.shiftr c 1) 0x55)) in
  let c := schar (u8 (Z.land c 0x33 + Z.land (Z.shiftr c 2) 0x33)) in
  Z.land (c + Z.shiftr c 4) 0x0f.

Definition pref_len_from_mask (m : list Z) : Z :=
  foldl (λ pref b, if b =? 255 then pref + 8 else pref + popcount (schar b)) 0 m.

(** [None]: writes past the end of the mask. *)
Definition create_mask_from_pref_len (prefix_length size : Z) : option (list Z) :=
  if (0 <=? prefix_length / 8) && (prefix_length / 8 <=? size) then
    let n := Z.to_nat (prefix_length / 8) in
    let m := replicate n 255 ++ replicate (Z.to_nat size - n) 0 in
    if prefix_length mod 8 =? 0 then Some m
    else vset m (prefix_length / 8) (u8 (Z.shiftl 255 (8 - prefix_length mod 8)))
  else None.

Definition format_ternary_key (k m : list Z) : list Z := zip_with Z.land k m.

Definition get_byte0_mask (bitwidth : Z) : Z :=
  if bitwidth mod 8 =? 0 then 255 else Z.shiftl 1 (bitwidth mod 8) - 1.

(** *** Entries and parameters *)

(** [entry_to_match_params], for the three kinds of keys; a range key is a
    ternary one. *)
Definition exact_to_params kb (k : MatchKey) : option (list MatchKeyParam) :=
  mapM (λ i, '(f, off) ← field_at kb i;
    s ← slice (data k) off (nbits_to_nbytes (nbits f));
    if decide (mtype f = VALID ∨ mtype f = EXACT) then Some (param (mtype f) s) else None)
    (seqZ 0 (nfields kb)).

(** State of the loop: the parameters, [LPM_idx] and [pref]. *)
Definition lpm_step kb (k : LPMMatchKey) (i : Z) (st : list MatchKeyParam * Z * Z)
    : option (list MatchKeyParam * Z * Z) :=
  let '(ps, LPM_idx, pref) := st in
  '(f, off) ← field_at kb i;
  s ← slice (data k) off (nbits_to_nbytes (nbits f));
  if decide (mtype f = TERNARY) then None else
  let ps := ps ++ [param (mtype f) s] in
  if decide (mtype f = LPM) then Some (ps, i, pref)
  else Some (ps, LPM_idx, pref - 8 * nbits_to_nbytes (nbits f)).

Definition lpm_to_params kb (k : LPMMatchKey) : option (list MatchKeyParam) :=
  '(ps, LPM_idx, pref) ← for_range 0 (nfields kb) (lpm_step kb k) ([], 0, prefix_length k);
  p ← vget ps LPM_idx;
  vset ps LPM_idx (with_prefix p pref).

Definition ternary_to_params kb (k : TernaryMatchKey) : option (list MatchKeyParam) :=
  mapM (λ i, '(f, off) ← field_at kb i;
    let nbytes := nbits_to_nbytes (nbits f) in
    s ← slice (data k) off nbytes;
    match mtype f with
    | VALID | EXACT => Some (param (mtype f) s)
    | RANGE | TERNARY => m ← slice (mask k) off nbytes; Some (param_mask (mtype f) s m)
    | LPM => m ← slice (mask k) off nbytes; Some (param_prefix (mtype f) s (pref_len_from_mask m))
    end) (seqZ 0 (nfields kb)).

(** The loop of [match_params_to_entry], for the key's data and what the
    [switch] on the type of the parameter adds to; state: data, [first_byte]
    and that. *)
Definition params_step {S} (switch : MatchKeyParam → S → option S) kb (params : list MatchKeyParam)
    (i : Z) (st : list Z * Z * S) : option (list Z * Z * S) :=
  let '(d, first_byte, s) := st in
  i' ← vget (inv_mapping kb) i;
  p ← vget params i';
  let d := d ++ key p in
  b ← vget d first_byte;
  f ← vget (key_input kb) i;
  d ← vset d first_byte (Z.land b (get_byte0_mask (nbits f)));
  s ← switch p s;
  Some (d, first_byte + Z.of_nat (length (key p)), s).

Definition params_loop {S} (switch : MatchKeyParam → S → option S) kb (params : list MatchKeyParam) (s : S)
    : option (list Z * Z * S) :=
  for_range 0 (Z.of_nat (length (inv_mapping kb))) (params_step switch kb params) ([], 0, s).

Definition params_to_exact kb (params : list MatchKeyParam) : option ExactMatchKey :=
  '(d, _, _) ← params_loop (λ _ s, Some s) kb params tt;
  Some {| exact_base := {| data := d; version := 0 |} |}.

Definition lpm_switch p (prefix_length : Z) : option Z :=
  match type p with
  | VALID => Some (prefix_length + 8)
  | EXACT => Some (prefix_length + 8 * Z.of_nat (length (key p)))
  | LPM => Some (prefix_length + p_prefix_length p)
  | RANGE | TERNARY => None
  end.

Definition params_to_lpm kb (params : list MatchKeyParam) : option LPMMatchKey :=
  '(d, _, pref) ← params_loop lpm_switch kb params 0;
  Some {| lpm_base := {| data := d; version := 0 |}; prefix_length := pref |}.

Definition ternary_switch p (m : list Z) : option (list Z) :=
  match type p with
  | VALID => Some (m ++ [255])
  | EXACT => Some (m ++ replicate (length (key p)) 255)
  | LPM => m' ← create_mask_from_pref_len (p_prefix_length p) (Z.of_nat (length (key p))); Some (m ++ m')
  | RANGE | TERNARY => Some (m ++ p_mask p)
  end.

Definition params_to_ternary kb (params : list MatchKeyParam) : option TernaryMatchKey :=
  '(d, _, m) ← params_loop ternary_switch kb params [];
  if (length d =? length m)%nat then
    Some {| ternary_base := {| data := format_ternary_key d m; version := 0 |}; mask := m;
            priority := INT_MAX |}
  else None.

(** The widths of the ranges, and their sum. *)
Definition range_step kb (params : list MatchKeyParam) (i : Z) (st : list Z * Z) : option (list Z * Z) :=
  let '(ws, w) := st in
  i' ← vget (inv_mapping kb) i;
  p ← vget params i';
  let n := Z.of_nat (length (key p)) in
  if decide (type p = RANGE) then Some (ws ++ [n], w + n) else Some (ws, w).

Definition range_params kb (params : list MatchKeyParam) : option (list Z * Z) :=
  for_range 0 (Z.of_nat (length (inv_mapping kb))) (range_step kb params) ([], 0).

Definition params_to_range kb (params : list MatchKeyParam) : option RangeMatchKey :=
  '(d, _, m) ← params_loop ternary_switch kb params [];
  '(ws, w) ← range_params kb params;
  let s := Z.of_nat (length d) in
  if (length d =? length m)%nat && (w <=? s) then
    let w := Z.to_nat w in
    Some {| range_base :=
              {| ternary_base := {| data := take w d ++ format_ternary_key (drop w d) (drop w m); version := 0 |};
                 mask := m; priority := INT_MAX |};
            range_widths := ws |}
  else None.

(** [match_params_sanity_check] *)
Definition param_ok f p : option bool :=
  let nbytes := nbits_to_nbytes (nbits f) in
  if negb (bool_decide (type p = mtype f)) then Some false
  else if negb (Z.of_nat (length (key p)) =? nbytes) then Some false
  else match type p with
  | VALID | EXACT => Some true
  | LPM => Some (u64 (p_prefix_length p) <=? nbits f)
  | TERNARY => Some (Z.of_nat (length (p_mask p)) =? nbytes)
  | RANGE =>
      if negb (Z.of_nat (length (p_mask p)) =? nbytes) then Some false
      else c ← memcmp (key p) (p_mask p) nbytes; Some (match c with Gt => false | _ => true end)
  end.

Fixpoint sanity_loop (idxs : list Z) kb (params : list MatchKeyParam) : option bool :=
  match idxs with
  | [] => Some true
  | i :: idxs' =>
      p_i ← vget (inv_mapping kb) i;
      p ← vget params p_i;
      f ← vget (key_input kb) i;
      b ← param_ok f p;
      if (b : bool) then sanity_loop idxs' kb params else Some false
  end.

Definition match_params_sanity_check kb (params : list MatchKeyParam) : option bool :=
  if (length params =? length (key_input kb))%nat then
    sanity_loop (seqZ 0 (Z.of_nat (length (inv_mapping kb)))) kb params
  else Some false.


(** ** The layout of a built key *)

(** Bytes of a list of fields. *)
Definition size_of (ks : list KeyF) : Z := foldr (λ f acc, nbits_to_nbytes (nbits f) + acc) 0 ks.

(** The builder before [build]: what the [push_back]s make. *)
Record pushed kb : Prop := {
  pushed_built : built kb = false;
  pushed_offsets : key_offsets kb = [];
  pushed_masks : Forall2 (λ f m, Z.of_nat (length m) = nbits_to_nbytes (nbits f)) (key_input kb) (masks kb);
  pushed_nbits : Forall (λ f, 0 < nbits f) (key_input kb);
  pushed_nbytes : nbytes_key kb = size_of (key_input kb);
}.

Lemma nbits_to_nbytes_pos n : 0 < n → 0 < nbits_to_nbytes n.
Proof. intros. unfold nbits_to_nbytes. apply Z.div_str_pos. lia. Qed.

Lemma empty_pushed : pushed empty_builder.
Proof. constructor; (done || constructor). Qed.

Lemma size_of_cons f ks : size_of (f :: ks) = nbits_to_nbytes (nbits f) + size_of ks.
Proof. done. Qed.

Lemma size_of_app ks1 ks2 : size_of (ks1 ++ ks2) = size_of ks1 + size_of ks2.
Proof. induction ks1 as [|f ks1 IH]; cbn [app]; rewrite ?size_of_cons, ?IH; [done|lia]. Qed.

Lemma size_of_nonneg ks : Forall (λ f, 0 < nbits f) ks → 0 ≤ size_of ks.
Proof.
  induction 1 as [|f ks Hf Hks IH]; [done|]. rewrite size_of_cons. pose proof (nbits_to_nbytes_pos _ Hf). lia.
Qed.

Lemma size_of_perm ks1 ks2 : ks1 ≡ₚ ks2 → size_of ks1 = size_of ks2.
Proof. induction 1; rewrite ?size_of_cons; lia. Qed.

Lemma offsets_from_lookup ks j : ∀ c,
  offsets_from c ks !! j = (λ _, c + size_of (take j ks)) <$> ks !! j.
Proof.
  revert j. induction ks as [|f ks IH]; intros [|j] c; cbn [offsets_from lookup list_lookup take]; try done.
  - cbn. f_equal. lia.
  - change (offsets_from (c + nbits_to_nbytes (nbits f)) ks !! j =
      (λ _, c + size_of (f :: take j ks)) <$> ks !! j).
    rewrite IH, size_of_cons. destruct (ks !! j); cbn; [|done]. f_equal. lia.
Qed.

Lemma take_size_le ks j f :
  Forall (λ f, 0 < nbits f) ks → ks !! j = Some f →
  0 ≤ size_of (take j ks) ∧ size_of (take j ks) + nbits_to_nbytes (nbits f) ≤ size_of ks.
Proof.
  intros Hks E. rewrite <- (take_drop_middle ks j f E) at 3. rewrite size_of_app, size_of_cons.
  pose proof (size_of_nonneg (take j ks) ltac:(by apply Forall_take)).
  pose proof (size_of_nonneg (drop (S j) ks) ltac:(by apply Forall_drop)). lia.
Qed.

(** Fields do not overlap. *)
Lemma take_size_mono ks j1 j2 f :
  Forall (λ f, 0 < nbits f) ks → ks !! j1 = Some f → (j1 < j2)%nat →
  size_of (take j1 ks) + nbits_to_nbytes (nbits f) ≤ size_of (take j2 ks).
Proof.
  intros Hks E Hj. assert (take j2 ks !! j1 = Some f) as E' by (by rewrite lookup_take_lt).
  destruct (take_size_le (take j2 ks) j1 f) as [_ H]; [by apply Forall_take|done|].
  by rewrite take_take, Nat.min_l in H by lia.
Qed.

Lemma copy_at_ok dst off src :
  0 ≤ off → off + Z.of_nat (length src) ≤ Z.of_nat (length dst) →
  ∃ dst', copy_at dst off src = Some dst' ∧ length dst' = length dst ∧
    ∀ k, vget dst' k = if decide (off ≤ k < off + Z.of_nat (length src)) then vget src (k - off) else vget dst k.
Proof.
  intros Ho Hl. unfold copy_at. rewrite (proj2 (Z.leb_le _ _)), (proj2 (Z.leb_le _ _)) by lia. cbn [andb].
  eexists. split; [done|]. split.
  { rewrite !length_app, length_take, length_drop. lia. }
  intros k. unfold vget. destruct (decide (0 ≤ k)); cycle 1.
  { rewrite decide_False by lia. done. }
  destruct (decide (off ≤ k < off + Z.of_nat (length src))).
  - rewrite decide_True by lia. rewrite lookup_app_r by (rewrite length_take; lia).
    rewrite lookup_app_l by (rewrite length_take; lia). f_equal. rewrite length_take. lia.
  - destruct (decide (k < off)).
    + rewrite lookup_app_l by (rewrite length_take; lia). rewrite lookup_take_lt by lia. done.
    + rewrite lookup_app_r by (rewrite length_take; lia). rewrite lookup_app_r by (rewrite length_take; lia).
      rewrite lookup_drop. f_equal. rewrite length_take. lia.
Qed.

Lemma push_back_pushed kb f m name :
  pushed kb → 0 < nbits f → Z.of_nat (length m) = nbits_to_nbytes (nbits f) → pushed (push_back kb f m name).
Proof.
  intros [] Hf Hm. constructor; cbn; [done|done| | |].
  - apply Forall2_app; [done|]. by repeat constructor.
  - apply Forall_app. by repeat constructor.
  - rewrite size_of_app, size_of_cons. cbn. lia.
Qed.

(** The builder made from fields [ks], in the order of the P4 program. *)
Record layout (ks : list KeyF) (ms : list (list Z)) kb : Prop := {
  lay_perm : inv_mapping kb ≡ₚ seqZ 0 (Z.of_nat (length ks));
  lay_inv : ∀ i j, vget (key_mapping kb) i = Some j ↔ vget (inv_mapping kb) j = Some i;
  lay_len_map : length (key_mapping kb) = length ks;
  lay_len_inv : length (inv_mapping kb) = length ks;
  lay_input : ∀ i j, vget (inv_mapping kb) j = Some i → vget (key_input kb) j = vget ks i;
  lay_len : length (key_input kb) = length ks;
  lay_offsets : ∀ i j, vget (key_mapping kb) i = Some j →
    vget (key_offsets kb) i = vget (offsets_from 0 (key_input kb)) j;
  lay_sorted : StronglySorted Z.le ((λ f, type_rank (mtype f)) <$> key_input kb);
  lay_nbits : Forall (λ f, 0 < nbits f) (key_input kb);
  lay_nbytes : nbytes_key kb = size_of (key_input kb);
  lay_mask_len : Z.of_nat (length (big_mask kb)) = nbytes_key kb;
  lay_mask : ∀ i m o r, vget ms i = Some m → vget (key_offsets kb) i = Some o →
    0 ≤ r < Z.of_nat (length m) → vget (big_mask kb) (o + r) = vget m r;
}.

Section build.
Implicit Types (ks : list KeyF) (inv idxs km : list Z).

#[local] Instance sort_le_trans ks : Transitive (sort_le ks).
Proof. intros a b c. unfold sort_le. cbv zeta. lia. Qed.
#[local] Instance sort_le_total ks : Total (sort_le ks).
Proof. intros a b. unfold sort_le. cbv zeta. lia. Qed.

Lemma map_loop_ok inv idxs : ∀ km,
  NoDup inv → length km = length inv →
  (∀ j, j ∈ idxs → 0 ≤ j < Z.of_nat (length inv)) → (∀ i, i ∈ inv → 0 ≤ i < Z.of_nat (length inv)) →
  ∃ km', map_loop idxs inv km = Some km' ∧ length km' = length inv ∧
    (∀ i j, vget inv j = Some i → vget km' i = if decide (j ∈ idxs) then Some j else vget km i).
Proof.
  induction idxs as [|j idxs IH]; intros km Hnd Hlen Hidx Hinv; cbn [map_loop].
  { exists km. split; [done|]. split; [done|]. intros i j _. by rewrite decide_False by set_solver. }
  destruct (proj2 (vget_is_Some inv j)) as [i Ei]; [apply Hidx; set_solver|]. rewrite Ei. msimpl.
  assert (0 ≤ i < Z.of_nat (length inv)) as Hi.
  { apply Hinv. pose proof (vget_Some_range _ _ _ Ei). rewrite vget_nat in Ei by lia. by eapply list_elem_of_lookup_2. }
  pose proof (vset_Some km i j ltac:(lia)) as Es. rewrite Es. msimpl.
  destruct (IH (<[Z.to_nat i := j]> km)) as (km' & -> & Hlen' & Hg); [done|by rewrite length_insert|set_solver|done|].
  exists km'. split; [done|]. split; [done|]. intros i' j' E'. rewrite (Hg _ _ E'), (vget_vset _ _ _ _ _ Es).
  destruct (decide (j' ∈ idxs)) as [Hin|Hin].
  { by rewrite decide_True by set_solver. }
  destruct (decide (i' = i)) as [->|Hne].
  - assert (j' = j) as ->; [|by rewrite decide_True by set_solver].
    pose proof (vget_Some_range _ _ _ Ei). pose proof (vget_Some_range _ _ _ E').
    rewrite vget_nat in Ei, E' by lia. pose proof (NoDup_lookup _ _ _ _ Hnd Ei E'). lia.
  - rewrite decide_False; [done|]. intros [->|]%elem_of_cons; congruence.
Qed.

(** The inverse of a permutation of the indices. *)
Lemma map_loop_inverse inv n :
  inv ≡ₚ seqZ 0 (Z.of_nat n) → ∃ km, map_loop inv inv (replicate n 0) = Some km ∧ length km = n ∧
    ∀ i j, vget km i = Some j ↔ vget inv j = Some i.
Proof.
  intros Hperm. assert (length inv = n) as Hlen.
  { rewrite Hperm, length_seqZ. lia. }
  assert (∀ i, i ∈ inv ↔ 0 ≤ i < Z.of_nat n) as Hin by (intros; rewrite Hperm, elem_of_seqZ; lia).
  assert (NoDup inv) as Hnd by (rewrite Hperm; apply NoDup_seqZ).
  destruct (map_loop_ok inv inv (replicate n 0)) as (km & E & Hkm & Hg);
    [done|by rewrite length_replicate|setoid_rewrite Hin; lia|setoid_rewrite Hin; lia|].
  exists km. split; [done|]. split; [lia|]. intros i j. split.
  - intros Ei. pose proof (vget_Some_range _ _ _ Ei) as Hr.
    assert (i ∈ inv) as [k Ek]%list_elem_of_lookup_1 by (apply Hin; lia).
    assert (vget inv (Z.of_nat k) = Some i) as Evk by (by rewrite vget_nat, Nat2Z.id by lia).
    pose proof (Hg _ _ Evk) as E'. rewrite decide_True in E'.
    + congruence.
    + apply Hin. apply lookup_lt_Some in Ek. lia.
  - intros Ej. rewrite (Hg _ _ Ej), decide_True; [done|]. apply Hin. apply vget_Some_range in Ej. lia.
Qed.
Lemma mapM_vget {A} (l : list A) (idxs : list Z) :
  (∀ i, i ∈ idxs → 0 ≤ i < Z.of_nat (length l)) →
  ∃ r, mapM (vget l) idxs = Some r ∧ length r = length idxs ∧ (vget l <$> idxs) = Some <$> r ∧
    ∀ j i, vget idxs j = Some i → vget r j = vget l i.
Proof.
  intros Hin. destruct (mapM (vget l) idxs) as [r|] eqn:E.
  - apply mapM_Some in E. exists r. split; [done|]. split; [by rewrite (Forall2_length _ _ _ E)|]. split.
    + induction E; [done|]. rewrite !fmap_cons. f_equal; [done|]. apply IHE. set_solver.
    + intros j i Ej. pose proof (vget_Some_range _ _ _ Ej). rewrite vget_nat in Ej by lia. rewrite (vget_nat r) by lia.
      destruct (Forall2_lookup_l _ _ _ _ _ E Ej) as (y & -> & ->). done.
  - apply mapM_None in E. apply Exists_exists in E as (i & Hi & E).
    apply Hin, vget_is_Some in Hi as [? ?]. congruence.
Qed.

Lemma vget_seqZ {A} (l : list A) : (vget l <$> seqZ 0 (Z.of_nat (length l))) = Some <$> l.
Proof.
  apply list_eq. intros i. rewrite !list_lookup_fmap. destruct (l !! i) as [x|] eqn:E.
  - rewrite (proj2 (lookup_seqZ 0 _ i (Z.of_nat i))) by (apply lookup_lt_Some in E; lia).
    cbn. rewrite vget_nat by lia. by rewrite Nat2Z.id, E.
  - destruct (seqZ 0 (Z.of_nat (length l)) !! i) as [j|] eqn:Ej; [|done].
    apply lookup_seqZ in Ej as [_ ?]. apply lookup_ge_None in E. lia.
Qed.

Lemma permuted_perm {A} (l r : list A) inv :
  inv ≡ₚ seqZ 0 (Z.of_nat (length l)) → (vget l <$> inv) = Some <$> r → r ≡ₚ l.
Proof.
  intros Hperm Hr. assert ((Some <$> r) ≡ₚ (Some <$> l)) as Hp by (by rewrite <- Hr, <- vget_seqZ, Hperm).
  assert (∀ l : list A, omap id (Some <$> l) = l) as Hid.
  { clear. intros l. induction l as [|x l IH]; [done|]. cbn. by f_equal. }
  rewrite <- (Hid r), <- (Hid l). by rewrite Hp.
Qed.

Lemma build_ok kb :
  pushed kb → ∃ kb', build kb = Some kb' ∧ layout (key_input kb) (masks kb) kb' ∧ built kb' = true.
Proof.
  intros [Hb Ho Hm Hn Hsz]. unfold build. rewrite Hb, Ho. set (ks := key_input kb) in *.
  set (inv := merge_sort (sort_le ks) (seqZ 0 (Z.of_nat (length ks)))).
  assert (inv ≡ₚ seqZ 0 (Z.of_nat (length ks))) as Hperm by apply merge_sort_Permutation.
  assert (∀ i, i ∈ inv ↔ 0 ≤ i < Z.of_nat (length ks)) as Hin by (intros; rewrite Hperm, elem_of_seqZ; lia).
  assert (length inv = length ks) as Hleninv by (rewrite Hperm, length_seqZ; lia).
  rewrite Nat2Z.id. destruct (map_loop_inverse inv (length ks) Hperm) as (km & -> & Hkm & Hinv). msimpl.
  destruct (mapM_vget ks inv) as (ks' & -> & Hlen' & Hfm & Hget); [by intros i ?%Hin|]. msimpl.
  pose proof (permuted_perm _ _ _ Hperm Hfm) as Hks'.
  assert (Forall (λ f, 0 < nbits f) ks') as Hn' by (by rewrite Hks').
  assert (length (offsets_from 0 ks') = length ks) as Hlo.
  { transitivity (length ks'); [|lia]. clear. generalize 0. induction ks'; intros; cbn; auto. }
  destruct (mapM_vget (offsets_from 0 ks') km) as (offs & -> & Hlofs & _ & Hgo).
  { intros j [i Ei]%list_elem_of_lookup_1. assert (vget km (Z.of_nat i) = Some j) as E by (by rewrite vget_nat, Nat2Z.id by lia).
    apply Hinv, vget_Some_range in E. lia. }
  msimpl. cbn [app].
  destruct (for_range_inv (λ i bm, Z.of_nat (length bm) = nbytes_key kb ∧
      ∀ i' m o r, i' < i → vget (masks kb) i' = Some m → vget offs i' = Some o →
        0 ≤ r < Z.of_nat (length m) → vget bm (o + r) = vget m r)
    (λ i bm, m ← vget (masks kb) i; o ← vget offs i; copy_at bm o m) 0 (Z.of_nat (length offs))
    (replicate (Z.to_nat (nbytes_key kb)) 0)) as (bm & -> & Hbm & Hbmg); [lia| | |].
  { rewrite length_replicate. split.
    - rewrite Hsz. pose proof (size_of_nonneg ks Hn). lia.
    - intros i' m o r ? E%vget_Some_range. lia. }
  { intros i bm Hi [Hbm Hg]. assert (length (masks kb) = length ks) as Hlm by (symmetry; by eapply Forall2_length).
    destruct (proj2 (vget_is_Some (masks kb) i)) as [m Em]; [lia|].
    destruct (proj2 (vget_is_Some km i)) as [j Ej]; [lia|].
    pose proof (proj1 (Hinv _ _) Ej) as Ei.
    assert (∀ i m j, vget (masks kb) i = Some m → vget km i = Some j →
      ∃ f, ks' !! Z.to_nat j = Some f ∧ Z.of_nat (length m) = nbits_to_nbytes (nbits f) ∧ 0 ≤ j ∧
        vget offs i = Some (size_of (take (Z.to_nat j) ks'))) as Hat.
    { clear - Hinv Hget Hm Hgo. intros i m j Em Ej. pose proof (proj1 (Hinv _ _) Ej) as Ei.
      pose proof (Hget _ _ Ei) as Hf. pose proof (vget_Some_range _ _ _ Em) as Hr.
      rewrite vget_nat in Em by lia. destruct (Forall2_lookup_r _ _ _ _ _ Hm Em) as (f & Ef & Hl).
      pose proof (vget_Some_range _ _ _ Ei) as Hrj.
      rewrite (vget_nat ks), Ef in Hf by lia. rewrite vget_nat in Hf by lia.
      exists f. split; [done|]. split; [done|]. split; [lia|].
      rewrite (Hgo _ _ Ej), vget_nat, offsets_from_lookup, Hf by lia. done. }
    destruct (Hat _ _ _ Em Ej) as (f & Ef & Hml & Hj0 & Eo). rewrite Em. msimpl. rewrite Eo. msimpl.
    pose proof (take_size_le ks' _ f Hn' Ef) as [Ho1 Ho2]. rewrite (size_of_perm _ _ Hks') in Ho2.
    destruct (copy_at_ok bm (size_of (take (Z.to_nat j) ks')) m) as (bm' & -> & Hl' & Hg'); [lia|lia|].
    exists bm'. split; [done|]. split; [lia|]. intros i' m' o r Hi' Em' Eo' Hr. rewrite Hg'.
    destruct (decide (i' = i)) as [->|Hne].
    { simplify_eq. rewrite decide_True by lia. f_equal. lia. }
    destruct (proj2 (vget_is_Some km i')) as [j' Ej']; [apply vget_Some_range in Em'; lia|].
    destruct (Hat _ _ _ Em' Ej') as (f' & Ef' & Hml' & Hj0' & Eo2). rewrite Eo' in Eo2. simplify_eq.
    rewrite decide_False; [apply (Hg i'); [lia|done..]|].
    assert (j' ≠ j) as Hjj by (intros ->; apply Hinv in Ej'; congruence).
    destruct (decide (j' < j)).
    - pose proof (take_size_mono ks' (Z.to_nat j') (Z.to_nat j) f' Hn' Ef' ltac:(lia)). lia.
    - pose proof (take_size_mono ks' (Z.to_nat j) (Z.to_nat j') f Hn' Ef ltac:(lia)). lia. }
  msimpl. eexists. split; [done|]. split; [|done]. constructor; cbn; try done; try lia.
  - intros i j E. by apply Hget.
  - clear -Hget Hlen' Hfm. pose proof (StronglySorted_merge_sort (sort_le ks) (seqZ 0 (Z.of_nat (length ks)))) as Hs.
    fold inv in Hs. clear Hget Hlen'. revert ks' Hfm. induction Hs as [|i inv' Hs IH Hall]; intros [|f ks'] E; try done.
    { constructor. }
    rewrite !fmap_cons in E. apply Phv.cons_eq_inv in E as [Ef E]. rewrite fmap_cons. constructor; [by apply IH|].
    clear -Hall E Ef. revert ks' E. induction Hall as [|j inv' Hj Hall IH]; intros [|f' ks'] E; try done.
    rewrite !fmap_cons in E. apply Phv.cons_eq_inv in E as [Ef' E]. rewrite fmap_cons. constructor; [|by apply IH].
    unfold sort_le, rank_at in Hj. rewrite Ef, Ef' in Hj. cbn in Hj. lia.
  - change (nbytes_key kb = size_of ks'). by rewrite Hsz, (size_of_perm _ _ Hks').
  - intros i m o r Em Eo Hr. apply (Hbmg i); [|done..]. apply vget_Some_range in Eo. lia.
Qed.
End build.

(** ** Entries made of parameters *)

(** The key of a parameter, the bits its field does not have cleared. *)
Definition mask0 f (k : list Z) : list Z :=
  match k with [] => [] | b :: k' => Z.land b (get_byte0_mask (nbits f)) :: k' end.

Definition sized f (s : list Z) : Prop := Z.of_nat (length s) = nbits_to_nbytes (nbits f).
Definition param_sized f p : Prop := type p = mtype f ∧ sized f (key p).

Lemma length_mask0 f k : length (mask0 f k) = length k.
Proof. by destruct k. Qed.

(** A key is its fields, one after the other. *)
Lemma slice_concat fs parts j f s :
  Forall (λ f, 0 < nbits f) fs → Forall2 sized fs parts → fs !! j = Some f → parts !! j = Some s →
  slice (concat parts) (size_of (take j fs)) (nbits_to_nbytes (nbits f)) = Some s.
Proof.
  intros Hfs Hp Ef Es. assert (Z.of_nat (length s) = nbits_to_nbytes (nbits f)) as Hs.
  { by apply (Forall2_lookup_lr _ _ _ _ _ _ Hp Ef Es). }
  assert (∀ fs parts, Forall2 sized fs parts → Z.of_nat (length (concat parts)) = size_of fs) as Hlen.
  { clear. induction 1 as [|f s fs parts Hs Hp IH]; [done|]. cbn [concat].
    rewrite length_app, size_of_cons. unfold sized in Hs. lia. }
  pose proof (Hlen _ _ Hp) as Hl. pose proof (Hlen _ _ (Forall2_take _ _ _ j Hp)) as Ht.
  destruct (take_size_le fs j f Hfs Ef) as [H0 H1]. unfold slice.
  rewrite (proj2 (Z.leb_le 0 _)), (proj2 (Z.leb_le 0 _)), (proj2 (Z.leb_le _ _)) by lia. cbn [andb]. f_equal.
  rewrite <- (take_drop_middle parts j s Es) at 1. rewrite concat_app. cbn [concat].
  rewrite drop_app_ge, drop_app_le by lia. rewrite <- Ht, Nat2Z.id, Nat.sub_diag, drop_0.
  rewrite take_app_ge by lia. rewrite <- Hs, Nat2Z.id, Nat.sub_diag. cbn. by rewrite app_nil_r.
Qed.

Section entries.
Context (ks : list KeyF) (ms : list (list Z)) kb (Hlay : layout ks ms kb).
Context (params : list MatchKeyParam).
Implicit Types (i j : Z) (ps : list MatchKeyParam).

(** The parameters in the order of the implementation. *)
Definition impl_order {A} (l r : list A) : Prop :=
  length r = length ks ∧ ∀ i j, vget (inv_mapping kb) j = Some i → vget r j = vget l i.

Lemma impl_order_ex {A} (l : list A) : length l = length ks → ∃ r, impl_order l r.
Proof.
  intros Hl. destruct (mapM_vget l (inv_mapping kb)) as (r & _ & Hr & _ & Hg).
  - intros i [j Ej]%list_elem_of_lookup_1. assert (vget (inv_mapping kb) (Z.of_nat j) = Some i) as E.
    { by rewrite vget_nat, Nat2Z.id by lia. }
    apply (lay_inv _ _ _ Hlay) in E. apply vget_Some_range in E. rewrite (lay_len_map _ _ _ Hlay) in E. lia.
  - exists r. split; [by rewrite Hr, (lay_len_inv _ _ _ Hlay)|]. intros; by apply Hg.
Qed.

Lemma inv_at j : 0 ≤ j < Z.of_nat (length ks) → ∃ i, vget (inv_mapping kb) j = Some i ∧
  vget (key_mapping kb) i = Some j ∧ 0 ≤ i < Z.of_nat (length ks).
Proof.
  intros Hj. destruct (proj2 (vget_is_Some (inv_mapping kb) j)) as [i Ei].
  { by rewrite (lay_len_inv _ _ _ Hlay). }
  pose proof (proj2 (lay_inv _ _ _ Hlay i j) Ei) as Ej. exists i. split; [done|]. split; [done|].
  apply vget_Some_range in Ej. by rewrite (lay_len_map _ _ _ Hlay) in Ej.
Qed.

Lemma key_input_at i j : vget (inv_mapping kb) j = Some i → vget (key_input kb) j = vget ks i.
Proof. apply (lay_input _ _ _ Hlay). Qed.

(** What relates fields and values in the order of the program relates them in
    the order of the implementation. *)
Lemma impl_order_Forall2 {A} (R : KeyF → A → Prop) l r :
  impl_order l r → Forall2 R ks l → Forall2 R (key_input kb) r.
Proof.
  intros [Hr Hg] HR. apply Forall2_same_length_lookup_2; [by rewrite Hr, (lay_len _ _ _ Hlay)|].
  intros j f x Ef Ex. pose proof (lookup_lt_Some _ _ _ Ex) as Hj.
  destruct (inv_at (Z.of_nat j)) as (i & Ei & _ & Hi); [lia|].
  pose proof (key_input_at _ _ Ei) as Ef'. pose proof (Hg _ _ Ei) as Ex'.
  rewrite vget_nat, Nat2Z.id, Ef, vget_nat in Ef' by lia. rewrite vget_nat, Nat2Z.id, Ex, vget_nat in Ex' by lia.
  by eapply (Forall2_lookup_lr _ _ _ _ _ _ HR).
Qed.

(** The data of the entry made of parameters. *)
Definition parts ps : list (list Z) := zip_with (λ f p, mask0 f (key p)) (key_input kb) ps.

Lemma parts_sized ps : Forall2 param_sized (key_input kb) ps → Forall2 sized (key_input kb) (parts ps).
Proof.
  unfold parts. induction 1 as [|f p fs ps [_ Hp] H IH]; [constructor|]. cbn. constructor; [|done].
  unfold sized in *. by rewrite length_mask0.
Qed.

Lemma params_loop_ok {S} (switch : MatchKeyParam → S → option S) ps (sw : Z → S) :
  impl_order params ps → Forall2 param_sized ks params →
  (∀ j p, vget ps j = Some p → switch p (sw j) = Some (sw (j + 1))) →
  params_loop switch kb params (sw 0) =
    Some (concat (parts ps), Z.of_nat (length (concat (parts ps))), sw (Z.of_nat (length ks))).
Proof.
  intros Ho HR Hsw. pose proof (impl_order_Forall2 _ _ _ Ho HR) as HR'. destruct Ho as [Hl Hg].
  assert (length (parts ps) = length ks) as Hlp.
  { unfold parts. rewrite length_zip_with, (lay_len _ _ _ Hlay). lia. }
  unfold params_loop. rewrite (lay_len_inv _ _ _ Hlay).
  destruct (for_range_inv (λ i st, st = (concat (take (Z.to_nat i) (parts ps)),
      Z.of_nat (length (concat (take (Z.to_nat i) (parts ps)))), sw i))
    (params_step switch kb params)
    0 (Z.of_nat (length ks)) ([], 0, sw 0)) as (st & -> & ->); [lia|done| |].
  2: by rewrite Nat2Z.id, take_ge by lia.
  intros j st Hj ->. unfold params_step. destruct (inv_at j Hj) as (i & Ei & _ & Hi). rewrite Ei. msimpl.
  pose proof (Hg _ _ Ei) as Ep. destruct (proj2 (vget_is_Some ps j)) as [p Epj]; [lia|].
  rewrite <- Ep, Epj. msimpl.
  destruct (proj2 (vget_is_Some (key_input kb) j)) as [f Ef]; [rewrite (lay_len _ _ _ Hlay); lia|].
  pose proof Ef as Ef'. pose proof Epj as Epj'. rewrite vget_nat in Ef' by lia. rewrite vget_nat in Epj' by lia.
  destruct (Forall2_lookup_lr _ _ _ _ _ _ HR' Ef' Epj') as [_ Hs].
  pose proof (nbits_to_nbytes_pos _ (Forall_lookup_1 _ _ _ _ (lay_nbits _ _ _ Hlay) Ef')) as Hpos.
  assert (parts ps !! Z.to_nat j = Some (mask0 f (key p))) as Epart.
  { unfold parts. by rewrite lookup_zip_with, Ef', Epj'. }
  replace (Z.to_nat (j + 1)) with (Datatypes.S (Z.to_nat j)) by lia. rewrite (take_S_r _ _ _ Epart), concat_app.
  cbn [concat]. rewrite app_nil_r. set (d := concat (take (Z.to_nat j) (parts ps))).
  unfold sized in Hs. destruct (key p) as [|b k] eqn:Ek; [cbn in Hs; lia|].
  cbv zeta. rewrite (vget_nat (d ++ b :: k)), Nat2Z.id, list_lookup_middle by (done || lia). msimpl. rewrite Ef. msimpl.
  rewrite vset_Some by (rewrite length_app; cbn; lia). msimpl. rewrite (Hsw _ _ Epj). msimpl.
  rewrite Nat2Z.id, insert_app_r_alt, Nat.sub_diag by lia. cbn [mask0]. rewrite !length_app.
  cbn [length]. rewrite <- Nat2Z.inj_add. eauto.
Qed.

(** Field [i] of the entry, found again. *)
Lemma field_slice (parts : list (list Z)) i f :
  Forall2 sized (key_input kb) parts → vget ks i = Some f →
  ∃ j off s, field_at kb i = Some (f, off) ∧ vget (key_mapping kb) i = Some j ∧ vget parts j = Some s ∧
    vget (inv_mapping kb) j = Some i ∧
    slice (concat parts) off (nbits_to_nbytes (nbits f)) = Some s.
Proof.
  intros Hp Ef. pose proof (vget_Some_range _ _ _ Ef) as Hi.
  destruct (proj2 (vget_is_Some (key_mapping kb) i)) as [j Ej]; [by rewrite (lay_len_map _ _ _ Hlay)|].
  pose proof (proj1 (lay_inv _ _ _ Hlay _ _) Ej) as Ei. pose proof (key_input_at _ _ Ei) as Efj.
  rewrite Ef in Efj. pose proof (vget_Some_range _ _ _ Efj) as Hj.
  pose proof (lay_offsets _ _ _ Hlay _ _ Ej) as Eo.
  rewrite (vget_nat (offsets_from _ _)), offsets_from_lookup in Eo by lia.
  pose proof Efj as Efj'. rewrite vget_nat in Efj' by lia. rewrite Efj' in Eo. cbn in Eo.
  destruct (Forall2_lookup_l _ _ _ _ _ Hp Efj') as (s & Es & _).
  exists j, (0 + size_of (take (Z.to_nat j) (key_input kb))), s. unfold field_at. rewrite Ej. msimpl.
  rewrite Efj. msimpl. rewrite Eo. msimpl. split; [done|]. split; [done|].
  split; [by rewrite vget_nat by lia|]. split; [done|].
  by apply slice_concat; [apply (lay_nbits _ _ _ Hlay)|..].
Qed.

(** A conversion back, one field at a time. *)
Lemma mapM_fields {B} (g : Z → option B) (norm : KeyF → MatchKeyParam → B) :
  length params = length ks →
  (∀ i f p, vget ks i = Some f → vget params i = Some p → g i = Some (norm f p)) →
  mapM g (seqZ 0 (nfields kb)) = Some (zip_with norm ks params).
Proof.
  intros Hl Hg. unfold nfields. rewrite (lay_len_map _ _ _ Hlay). apply mapM_Some.
  apply Forall2_same_length_lookup_2; [rewrite length_seqZ, length_zip_with; lia|].
  intros i x y Ex Ey. apply lookup_seqZ in Ex as [-> Hi].
  apply lookup_zip_with_Some in Ey as (f & p & -> & Ef & Ep).
  apply Hg; rewrite vget_nat by lia; by rewrite Z.add_0_l, Nat2Z.id.
Qed.
End entries.

(** *** Prefixes as masks *)
Lemma popcount_prefix r : 0 ≤ r < 8 → popcount (schar (u8 (Z.shiftl 255 (8 - r)))) = r.
Proof.
  intros Hr. assert (r ∈ seqZ 0 8) as Hin by (apply elem_of_seqZ; lia).
  assert (Forall (λ r, popcount (schar (u8 (Z.shiftl 255 (8 - r)))) = r) (seqZ 0 8)) as H
    by (refine (bool_decide_unpack _ _); vm_compute; exact I).
  rewrite Forall_forall in H. by apply H.
Qed.

Lemma prefix_byte_bits r k :
  0 ≤ r < 8 → 0 ≤ k < 8 → Z.testbit (u8 (Z.shiftl 255 (8 - r))) (7 - k) = bool_decide (k < r).
Proof.
  intros Hr Hk. assert (r ∈ seqZ 0 8 ∧ k ∈ seqZ 0 8) as [Hir Hik] by (rewrite !elem_of_seqZ; lia).
  assert (Forall (λ r, Forall (λ k, Z.testbit (u8 (Z.shiftl 255 (8 - r))) (7 - k) = bool_decide (k < r))
    (seqZ 0 8)) (seqZ 0 8)) as H by (refine (bool_decide_unpack _ _); vm_compute; exact I).
  rewrite Forall_forall in H. specialize (H r Hir). rewrite Forall_forall in H. by apply H.
Qed.

(** The mask of a prefix: whole bytes, the byte it ends in, zeros. *)
Definition prefix_mask (pref size : Z) : list Z :=
  replicate (Z.to_nat (pref / 8)) 255 ++
  (if pref mod 8 =? 0 then [] else [u8 (Z.shiftl 255 (8 - pref mod 8))]) ++
  replicate (Z.to_nat (size - (pref + 7) / 8)) 0.

Lemma prefix_split pref size :
  0 ≤ pref ≤ 8 * size → 0 ≤ pref / 8 ≤ size ∧ 0 ≤ pref mod 8 < 8 ∧ pref = 8 * (pref / 8) + pref mod 8 ∧
  (pref + 7) / 8 = pref / 8 + (if pref mod 8 =? 0 then 0 else 1) ∧ (pref + 7) / 8 ≤ size.
Proof.
  intros Hp. pose proof (Z.div_mod pref 8). pose proof (Z.mod_pos_bound pref 8).
  assert ((pref + 7) / 8 = pref / 8 + (if pref mod 8 =? 0 then 0 else 1)) as E.
  { symmetry. destruct (Z.eqb_spec (pref mod 8) 0).
    - apply Z.div_unique with 7; lia.
    - apply Z.div_unique with (pref mod 8 - 1); lia. }
  rewrite E. destruct (Z.eqb_spec (pref mod 8) 0); lia.
Qed.

Lemma create_mask_ok pref size :
  0 ≤ pref ≤ 8 * size → create_mask_from_pref_len pref size = Some (prefix_mask pref size).
Proof.
  intros Hp. destruct (prefix_split _ _ Hp) as (H1 & H2 & H3 & H4 & H5).
  unfold create_mask_from_pref_len, prefix_mask.
  rewrite (proj2 (Z.leb_le 0 _)), (proj2 (Z.leb_le _ size)) by lia. cbn [andb].
  rewrite H4. destruct (Z.eqb_spec (pref mod 8) 0) as [E|E].
  - cbn [app]. rewrite Z.add_0_r. do 3 f_equal. lia.
  - rewrite vset_Some by (rewrite length_app, !length_replicate; lia). f_equal.
    rewrite insert_app_r_alt, length_replicate, Nat.sub_diag by (by rewrite length_replicate).
    replace (Z.to_nat size - Z.to_nat (pref / 8))%nat with (S (Z.to_nat (size - (pref / 8 + 1)))) by lia.
    done.
Qed.

Lemma length_prefix_mask pref size : 0 ≤ pref ≤ 8 * size → Z.of_nat (length (prefix_mask pref size)) = size.
Proof.
  intros Hp. destruct (prefix_split _ _ Hp) as (H1 & H2 & H3 & H4 & H5). unfold prefix_mask.
  rewrite !length_app, !length_replicate. destruct (pref mod 8 =? 0); cbn [length]; lia.
Qed.

Lemma pref_len_replicate n b acc :
  foldl (λ pref b, if b =? 255 then pref + 8 else pref + popcount (schar b)) acc (replicate n b) =
  acc + Z.of_nat n * (if b =? 255 then 8 else popcount (schar b)).
Proof. revert acc. induction n as [|n IH]; intros acc; cbn [replicate foldl]; [lia|]. rewrite IH. destruct (b =? 255); lia. Qed.

Lemma pref_len_prefix_mask pref size : 0 ≤ pref ≤ 8 * size → pref_len_from_mask (prefix_mask pref size) = pref.
Proof.
  intros Hp. destruct (prefix_split _ _ Hp) as (H1 & H2 & H3 & H4 & H5).
  unfold pref_len_from_mask, prefix_mask. rewrite !foldl_app, !pref_len_replicate. cbn [Z.eqb Pos.eqb].
  change (popcount (schar 0)) with 0. destruct (Z.eqb_spec (pref mod 8) 0); cbn [foldl]; [lia|].
  pose proof (popcount_prefix (pref mod 8) ltac:(lia)) as Hc.
  destruct (Z.eqb_spec (u8 (Z.shiftl 255 (8 - pref mod 8))) 255) as [E|E].
  - rewrite E in Hc. change (popcount (schar 255)) with 8 in Hc. lia.
  - rewrite Hc. lia.
Qed.

(** *** What the sanity check ensures *)

(** A parameter of the type and width of its field, in representable values. *)
Definition param_fits f p : Prop :=
  param_sized f p ∧ bytes_ok (key p) ∧ bytes_ok (p_mask p) ∧
  match type p with
  | VALID => nbits f = 8
  | EXACT => True
  | LPM => 0 ≤ p_prefix_length p ≤ nbits f
  | TERNARY | RANGE => sized f (p_mask p)
  end.

(** The types of the C++ values: bytes, an [int], and the width of valid headers. *)
Definition param_typed f p : Prop :=
  bytes_ok (key p) ∧ bytes_ok (p_mask p) ∧ - 2 ^ 31 ≤ p_prefix_length p < 2 ^ 31 ∧
  nbits f < 2 ^ 63 ∧ (mtype f = VALID → nbits f = 8).

Lemma param_ok_fits f p : param_typed f p → param_ok f p = Some true → param_fits f p.
Proof.
  intros (Hk & Hm & Hp & Hn & Hv) E. unfold param_ok in E.
  destruct (bool_decide (type p = mtype f)) eqn:Et; [|done]. apply bool_decide_eq_true_1 in Et. cbn [negb] in E.
  destruct (Z.eqb_spec (Z.of_nat (length (key p))) (nbits_to_nbytes (nbits f))) as [El|]; [|done]. cbn [negb] in E.
  split; [done|]. split; [done|]. split; [done|]. destruct (type p) eqn:Ety; cbn [negb] in E.
  - destruct (Z.eqb_spec (Z.of_nat (length (p_mask p))) (nbits_to_nbytes (nbits f))); done.
  - by apply Hv.
  - done.
  - injection E as E%Z.leb_le. unfold wrap in E.
    destruct (decide (0 ≤ p_prefix_length p)); [rewrite Z.mod_small in E; lia|].
    rewrite <- (Z.mod_unique (p_prefix_length p) (2 ^ 64) (-1) (p_prefix_length p + 2 ^ 64)) in E by lia. lia.
  - injection E as E%Z.eqb_eq. done.
Qed.

Lemma sanity_ok ks ms kb params :
  layout ks ms kb → Forall2 param_typed ks params → match_params_sanity_check kb params = Some true →
  Forall2 param_fits ks params.
Proof.
  intros Hlay Hty E. unfold match_params_sanity_check in E.
  destruct (Nat.eqb_spec (length params) (length (key_input kb))) as [Hl|]; [|done].
  rewrite (lay_len_inv _ _ _ Hlay) in E. rewrite (lay_len _ _ _ Hlay) in Hl.
  assert (∀ idxs, sanity_loop idxs kb params = Some true → ∀ j, j ∈ idxs → ∃ i p f,
    vget (inv_mapping kb) j = Some i ∧ vget params i = Some p ∧ vget (key_input kb) j = Some f ∧
    param_ok f p = Some true) as Hloop.
  { clear. induction idxs as [|j' idxs IH]; intros E j Hj; [by apply not_elem_of_nil in Hj|].
    cbn [sanity_loop] in E.
    destruct (vget (inv_mapping kb) j') as [i|] eqn:Ei; [|done]. cbn in E.
    destruct (vget params i) as [p|] eqn:Ep; [|done]. cbn in E.
    destruct (vget (key_input kb) j') as [f|] eqn:Ef; [|done]. cbn in E.
    destruct (param_ok f p) as [[]|] eqn:Eb; [|done..].
    apply elem_of_cons in Hj as [->|Hj]; eauto 8. }
  apply Forall2_same_length_lookup_2; [done|]. intros i f p Ef Ep.
  assert (vget params (Z.of_nat i) = Some p) as Ep' by (by rewrite vget_nat, Nat2Z.id by lia).
  destruct (proj2 (vget_is_Some (key_mapping kb) (Z.of_nat i))) as [j Ej].
  { apply vget_Some_range in Ep'. rewrite (lay_len_map _ _ _ Hlay). lia. }
  pose proof (proj1 (lay_inv _ _ _ Hlay _ _) Ej) as Ei.
  destruct (Hloop _ E j) as (i' & p' & f' & Ei' & ? & Ef' & Eok).
  { apply elem_of_seqZ. apply vget_Some_range in Ei. rewrite (lay_len_inv _ _ _ Hlay) in Ei. lia. }
  rewrite (lay_input _ _ _ Hlay _ _ Ei) in Ef'. rewrite vget_nat in Ef' by lia.
  assert (i' = Z.of_nat i) as -> by congruence. rewrite Nat2Z.id in Ef'. simplify_eq.
  apply param_ok_fits; [|done]. by eapply (Forall2_lookup_lr _ _ _ _ _ _ Hty).
Qed.

(** *** Round trips *)
Section roundtrip.
Context (ks : list KeyF) (ms : list (list Z)) kb (Hlay : layout ks ms kb).
Context (params : list MatchKeyParam) (Hfit : Forall2 param_fits ks params).
Implicit Types (ps : list MatchKeyParam).

Lemma params_sized : Forall2 param_sized ks params.
Proof. eapply Forall2_impl; [exact Hfit|]. by intros f p [? _]. Qed.

Lemma params_length : length params = length ks.
Proof. symmetry. by eapply Forall2_length. Qed.

Lemma param_at i f p : vget ks i = Some f → vget params i = Some p → param_fits f p.
Proof.
  intros Ef Ep. pose proof (vget_Some_range _ _ _ Ef). rewrite vget_nat in Ef by lia. rewrite vget_nat in Ep by lia.
  by eapply (Forall2_lookup_lr _ _ _ _ _ _ Hfit).
Qed.

(** Field [i] of an entry whose parts are functions of field and parameter. *)
Lemma entry_field ps (g : KeyF → MatchKeyParam → list Z) i f p :
  impl_order ks kb params ps → (∀ f p, param_fits f p → sized f (g f p)) →
  vget ks i = Some f → vget params i = Some p →
  ∃ off, field_at kb i = Some (f, off) ∧
    slice (concat (zip_with g (key_input kb) ps)) off (nbits_to_nbytes (nbits f)) = Some (g f p).
Proof.
  intros Ho Hg Ef Ep. pose proof (impl_order_Forall2 ks ms kb Hlay _ _ _ Ho Hfit) as HR.
  destruct (field_slice ks ms kb Hlay (zip_with g (key_input kb) ps) i f) as (j & off & s & E1 & _ & Es & Ei & E2).
  { clear -HR Hg. induction HR as [|f p fs ps Hp HR IH]; [constructor|]. cbn. constructor; [by apply Hg|done]. }
  { done. }
  exists off. split; [done|]. rewrite E2. pose proof (vget_Some_range _ _ _ Es). rewrite vget_nat in Es by lia.
  apply lookup_zip_with_Some in Es as (f' & p' & -> & Ef' & Ep').
  pose proof (proj2 Ho _ _ Ei) as Hp. pose proof (key_input_at ks ms kb Hlay _ _ Ei) as Hf.
  rewrite vget_nat in Hp by lia. rewrite vget_nat in Hf by lia. congruence.
Qed.

Lemma loop_result {S} (switch : MatchKeyParam → S → option S) (sw : Z → S) ps :
  impl_order ks kb params ps → (∀ j p, vget ps j = Some p → switch p (sw j) = Some (sw (j + 1))) →
  params_loop switch kb params (sw 0) =
    Some (concat (parts kb ps), Z.of_nat (length (concat (parts kb ps))), sw (Z.of_nat (length ks))).
Proof. intros Ho Hsw. exact (params_loop_ok ks ms kb Hlay params switch ps sw Ho params_sized Hsw). Qed.

Lemma sized_mask0 f p : param_fits f p → sized f (mask0 f (key p)).
Proof. intros [[_ ?] _]. unfold sized. by rewrite length_mask0. Qed.

Lemma exact_roundtrip :
  Forall (λ f, mtype f = VALID ∨ mtype f = EXACT) ks →
  ∃ e, params_to_exact kb params = Some e ∧
    exact_to_params kb e = Some (zip_with (λ f p, param (type p) (mask0 f (key p))) ks params).
Proof.
  intros Hty. destruct (impl_order_ex ks ms kb Hlay params params_length) as [ps Ho].
  unfold params_to_exact. rewrite (loop_result _ (λ _, tt) ps Ho) by done. msimpl. eexists. split; [done|].
  unfold exact_to_params. apply (mapM_fields ks ms kb Hlay params); [apply params_length|]. intros i f p Ef Ep.
  destruct (entry_field ps (λ f p, mask0 f (key p)) i f p Ho sized_mask0 Ef Ep) as (off & -> & Es).
  cbn -[nbits_to_nbytes]. unfold parts. rewrite Es. msimpl.
  assert (mtype f = VALID ∨ mtype f = EXACT) as Hf.
  { pose proof (vget_Some_range _ _ _ Ef). rewrite vget_nat in Ef by lia. by eapply Forall_lookup_1 in Hty. }
  rewrite decide_True by done. by rewrite (proj1 (proj1 (param_at _ _ _ Ef Ep))).
Qed.

(** **** Ternary and range keys *)
Definition mask_of p : list Z :=
  match type p with
  | VALID => [255]
  | EXACT => replicate (length (key p)) 255
  | LPM => prefix_mask (p_prefix_length p) (Z.of_nat (length (key p)))
  | RANGE | TERNARY => p_mask p
  end.

(** The data of a field of the entry. *)
Definition part f p : list Z :=
  if decide (type p = RANGE) then mask0 f (key p) else zip_with Z.land (mask0 f (key p)) (mask_of p).

Lemma nbits_le_bytes n : n ≤ 8 * nbits_to_nbytes n.
Proof. unfold nbits_to_nbytes. pose proof (Z.div_mod (n + 7) 8). pose proof (Z.mod_pos_bound (n + 7) 8). lia. Qed.

Lemma prefix_fits f p : param_fits f p → type p = LPM → 0 ≤ p_prefix_length p ≤ 8 * Z.of_nat (length (key p)).
Proof.
  intros ([_ Hs] & _ & _ & H) E. rewrite E in H. unfold sized in Hs. pose proof (nbits_le_bytes (nbits f)). lia.
Qed.

Lemma sized_mask_of f p : param_fits f p → sized f (mask_of p).
Proof.
  intros Hf. pose proof Hf as ([_ Hs] & _ & _ & H). unfold mask_of, sized in *. destruct (type p) eqn:E; try done.
  - by rewrite H.
  - by rewrite length_replicate.
  - rewrite length_prefix_mask; [done|]. by eapply prefix_fits.
Qed.

Lemma sized_part f p : param_fits f p → sized f (part f p).
Proof.
  intros Hf. unfold part. pose proof (sized_mask0 f p Hf). pose proof (sized_mask_of f p Hf).
  case_decide; [done|]. unfold sized in *. rewrite length_zip_with. lia.
Qed.

Lemma ternary_switch_ok f p m : param_fits f p → ternary_switch p m = Some (m ++ mask_of p).
Proof.
  intros Hf. unfold ternary_switch, mask_of. destruct (type p) eqn:E; try done.
  by rewrite create_mask_ok by by eapply prefix_fits.
Qed.

Lemma impl_fits ps : impl_order ks kb params ps → Forall2 param_fits (key_input kb) ps.
Proof. intros Ho. exact (impl_order_Forall2 ks ms kb Hlay _ _ _ Ho Hfit). Qed.

Lemma ternary_loop ps :
  impl_order ks kb params ps →
  params_loop ternary_switch kb params [] =
    Some (concat (parts kb ps), Z.of_nat (length (concat (parts kb ps))), concat (mask_of <$> ps)).
Proof.
  intros Ho. pose proof (loop_result ternary_switch (λ j, concat (mask_of <$> take (Z.to_nat j) ps)) ps Ho) as E.
  cbv beta in E. change (Z.to_nat 0) with 0%nat in E.
  rewrite take_0, Nat2Z.id, take_ge in E by (destruct Ho; lia). apply E.
  intros j p Ep. pose proof (vget_Some_range _ _ _ Ep). rewrite vget_nat in Ep by lia.
  destruct (Forall2_lookup_r _ _ _ _ _ (impl_fits ps Ho) Ep) as (f & _ & Hf).
  rewrite (ternary_switch_ok f) by done. replace (Z.to_nat (j + 1)) with (S (Z.to_nat j)) by lia.
  rewrite (take_S_r _ _ _ Ep), fmap_app, concat_app. cbn. by rewrite app_nil_r.
Qed.

Lemma zip_land_concat (l1 l2 : list (list Z)) :
  Forall2 (λ a b, length a = length b) l1 l2 →
  zip_with Z.land (concat l1) (concat l2) = concat (zip_with (zip_with Z.land) l1 l2).
Proof.
  induction 1 as [|a b l1 l2 Hab H IH]; [done|]. cbn [concat zip_with]. by rewrite zip_with_app, IH.
Qed.

Lemma parts_masks ps : impl_order ks kb params ps →
  Forall2 (λ a b, length a = length b) (parts kb ps) (mask_of <$> ps).
Proof.
  intros Ho. unfold parts. pose proof (impl_fits ps Ho) as HR. clear Ho.
  induction HR as [|f p fs ps' Hf H IH]; [constructor|].
  cbn. constructor; [|done]. pose proof (sized_mask0 f p Hf). pose proof (sized_mask_of f p Hf).
  unfold sized in *. lia.
Qed.

Lemma masks_concat_length (l1 l2 : list (list Z)) :
  Forall2 (λ a b, length a = length b) l1 l2 → length (concat l1) = length (concat l2).
Proof. induction 1; [done|]. cbn. rewrite !length_app. lia. Qed.

(** The data of a ternary entry. *)
Lemma ternary_entry ps :
  impl_order ks kb params ps → Forall (λ f, mtype f ≠ RANGE) ks →
  params_to_ternary kb params =
    Some {| ternary_base := {| data := concat (zip_with part (key_input kb) ps); version := 0 |};
            mask := concat (mask_of <$> ps); priority := INT_MAX |}.
Proof.
  intros Ho Hty. unfold params_to_ternary. rewrite (ternary_loop ps Ho). msimpl.
  pose proof (parts_masks ps Ho) as Hm. rewrite (proj2 (Nat.eqb_eq _ _)) by by apply masks_concat_length.
  unfold format_ternary_key. rewrite zip_land_concat by done. do 4 f_equal. unfold parts.
  assert (Forall2 (λ f p, param_fits f p ∧ mtype f ≠ RANGE) (key_input kb) ps) as HR.
  { apply (impl_order_Forall2 ks ms kb Hlay _ params); [done|]. clear -Hfit Hty.
    induction Hfit as [|f p fs ps' Hf H IH]; [constructor|]. apply Forall_cons in Hty as [? ?]. constructor; auto. }
  clear -HR. induction HR as [|f p fs ps' [Hf Hne] H IH]; [done|]. cbn. f_equal; [|done].
  unfold part. rewrite decide_False; [done|]. destruct Hf as [[-> _] _]. done.
Qed.

Lemma bytes_ok_mask0 f k : bytes_ok k → bytes_ok (mask0 f k).
Proof.
  intros Hk. destruct Hk as [|b k Hb Hk]; [constructor|]. constructor; [|done]. by apply byte_ok_land.
Qed.

Lemma land_ones_bytes k : bytes_ok k → zip_with Z.land k (replicate (length k) 255) = k.
Proof.
  induction 1 as [|b k Hb Hk IH]; [done|]. cbn [length replicate zip_with]. f_equal; [|done].
  change 255 with (Z.ones 8). rewrite Z.land_ones by lia. apply Z.mod_small. exact Hb.
Qed.

(** Fields matched exactly have no bits to clear. *)
Lemma part_exact f p : param_fits f p → type p = VALID ∨ type p = EXACT → part f p = mask0 f (key p).
Proof.
  intros ([Et Hs] & Hk & _ & Hv) Hty. unfold part. rewrite decide_False by (destruct Hty; congruence).
  pose proof (bytes_ok_mask0 f _ Hk) as Hm. unfold mask_of. destruct Hty as [E|E]; rewrite E in *.
  - assert ([255] = replicate (length (mask0 f (key p))) 255) as ->; [|by apply land_ones_bytes].
    rewrite length_mask0. unfold sized in Hs. rewrite Hv in Hs. change (nbits_to_nbytes 8) with 1 in Hs.
    by replace (length (key p)) with 1%nat by lia.
  - rewrite <- (length_mask0 f). by apply land_ones_bytes.
Qed.

(** A parameter of a ternary or range entry as it is read back. *)
Definition norm_ternary f p : MatchKeyParam :=
  {| type := type p;
     key := if decide (type p = LPM ∨ type p = TERNARY) then zip_with Z.land (mask0 f (key p)) (mask_of p)
            else mask0 f (key p);
     p_mask := if decide (type p = TERNARY ∨ type p = RANGE) then p_mask p else [];
     p_prefix_length := if decide (type p = LPM) then p_prefix_length p else 0 |}.

Lemma zip_with_snd {A B C} (g : B → C) (l : list A) (k : list B) :
  length l = length k → zip_with (λ _ y, g y) l k = g <$> k.
Proof. revert k. induction l as [|x l IH]; intros [|y k] E; try done. cbn. f_equal. apply IH. by injection E. Qed.

(** Reading such an entry back. *)
Lemma ternary_entry_params ps (k : TernaryMatchKey) :
  impl_order ks kb params ps → data k = concat (zip_with part (key_input kb) ps) →
  mask k = concat (mask_of <$> ps) →
  ternary_to_params kb k = Some (zip_with norm_ternary ks params).
Proof.
  intros Ho Hd Hm. unfold ternary_to_params. rewrite Hd, Hm.
  apply (mapM_fields ks ms kb Hlay params); [apply params_length|]. intros i f p Ef Ep.
  destruct (entry_field ps part i f p Ho sized_part Ef Ep) as (off & Eat & Es).
  destruct (entry_field ps (λ _ p, mask_of p) i f p Ho sized_mask_of Ef Ep) as (off' & Eat' & Em).
  assert (off' = off) as -> by congruence. rewrite Eat. cbn -[nbits_to_nbytes].
  rewrite Es. msimpl.
  assert (zip_with (λ _ p, mask_of p) (key_input kb) ps = mask_of <$> ps) as Hz.
  { apply zip_with_snd. by rewrite (lay_len _ _ _ Hlay), (proj1 Ho). }
  rewrite Hz in Em. rewrite Em. pose proof (param_at _ _ _ Ef Ep) as Hf. unfold norm_ternary.
  rewrite <- (proj1 (proj1 Hf)). pose proof (part_exact f p Hf) as Hpe.
  destruct (type p) eqn:Ety; msimpl; cbn; try (by rewrite Hpe by auto);
    unfold part, mask_of; rewrite Ety; cbn; try done.
  rewrite pref_len_prefix_mask by (by eapply prefix_fits). by unfold param_prefix.
Qed.
(** Ranges come first. *)
Lemma sorted_ranges fs :
  StronglySorted Z.le ((λ f, type_rank (mtype f)) <$> fs) →
  ∃ rs os, fs = rs ++ os ∧ Forall (λ f, mtype f = RANGE) rs ∧ Forall (λ f, mtype f ≠ RANGE) os.
Proof.
  induction fs as [|f fs IH]; intros Hs; [by exists [], []|].
  rewrite fmap_cons in Hs. apply StronglySorted_inv in Hs as [Hs Hall].
  destruct (decide (mtype f = RANGE)) as [E|E].
  - destruct (IH Hs) as (rs & os & -> & ? & ?). exists (f :: rs), os. split; [done|]. by split; [constructor|].
  - exists [], (f :: fs). split; [done|]. split; [constructor|]. constructor; [done|].
    rewrite Forall_fmap in Hall. eapply Forall_impl; [exact Hall|]. intros f' Hle E'. cbn in Hle.
    rewrite E' in Hle. destruct (mtype f); cbn in Hle; lia || done.
Qed.

Lemma range_params_ok ps :
  impl_order ks kb params ps →
  let rs := filter (λ p, type p = RANGE) ps in
  range_params kb params =
    Some ((λ p, Z.of_nat (length (key p))) <$> rs, Z.of_nat (length (concat (key <$> rs)))).
Proof.
  intros [Hl Hg]. cbv zeta. unfold range_params. rewrite (lay_len_inv _ _ _ Hlay).
  destruct (for_range_inv (λ j st, let rs := filter (λ p, type p = RANGE) (take (Z.to_nat j) ps) in
      st = ((λ p, Z.of_nat (length (key p))) <$> rs, Z.of_nat (length (concat (key <$> rs)))))
    (range_step kb params)
    0 (Z.of_nat (length ks)) ([], 0)) as (st & -> & ->); [lia|done| |].
  2: by rewrite Nat2Z.id, take_ge by lia.
  intros j st Hj ->. unfold range_step. destruct (inv_at ks ms kb Hlay j Hj) as (i & Ei & _ & _). rewrite Ei. msimpl.
  destruct (proj2 (vget_is_Some ps j)) as [p Ep]; [lia|]. rewrite <- (Hg _ _ Ei), Ep. msimpl.
  rewrite vget_nat in Ep by lia. replace (Z.to_nat (j + 1)) with (S (Z.to_nat j)) by lia.
  rewrite (take_S_r _ _ _ Ep), filter_app. cbn [filter list_filter].
  destruct (decide (type p = RANGE)); rewrite ?app_nil_r; eexists; split; try done.
  rewrite !fmap_app, concat_app, length_app. cbn. rewrite app_nil_r. do 2 f_equal. lia.
Qed.

Lemma filter_range fs ps :
  Forall2 param_fits fs ps →
  (Forall (λ f, mtype f = RANGE) fs → filter (λ p, type p = RANGE) ps = ps ∧
    Z.of_nat (length (concat (key <$> ps))) = size_of fs ∧
    zip_with part fs ps = zip_with (λ f p, mask0 f (key p)) fs ps) ∧
  (Forall (λ f, mtype f ≠ RANGE) fs → filter (λ p, type p = RANGE) ps = [] ∧
    zip_with part fs ps = zip_with (zip_with Z.land) (zip_with (λ f p, mask0 f (key p)) fs ps) (mask_of <$> ps)).
Proof.
  induction 1 as [|f p fs ps Hf H [IH1 IH2]]; [done|]. pose proof (proj1 Hf) as [Et Hs].
  split; intros [Ht Hts]%Forall_cons.
  - destruct (IH1 Hts) as (E1 & E2 & E3). rewrite filter_cons_True by congruence. rewrite E1.
    split; [done|]. split.
    + rewrite fmap_cons, size_of_cons. cbn [concat]. rewrite length_app, <- E2. unfold sized in Hs. lia.
    + cbn [zip_with]. rewrite E3. f_equal. unfold part. by rewrite decide_True by congruence.
  - destruct (IH2 Hts) as (E1 & E2). rewrite filter_cons_False by congruence. split; [done|].
    cbn [zip_with fmap list_fmap]. rewrite E2. f_equal. unfold part. by rewrite decide_False by congruence.
Qed.

(** The data of a range entry. *)
Lemma range_entry ps :
  impl_order ks kb params ps →
  ∃ ws, params_to_range kb params = Some {| range_base :=
      {| ternary_base := {| data := concat (zip_with part (key_input kb) ps); version := 0 |};
         mask := concat (mask_of <$> ps); priority := INT_MAX |};
      range_widths := ws |} ∧
    ∃ rs os, key_input kb = rs ++ os ∧ Forall (λ f, mtype f = RANGE) rs ∧
      Forall (λ f, mtype f ≠ RANGE) os ∧ ws = (λ f, nbits_to_nbytes (nbits f)) <$> rs.
Proof.
  intros Ho. destruct (sorted_ranges _ (lay_sorted _ _ _ Hlay)) as (rs & os & Efs & Hrs & Hos).
  pose proof (impl_fits ps Ho) as HR. pose proof (parts_masks ps Ho) as Hm.
  unfold params_to_range. rewrite (ternary_loop ps Ho). msimpl. rewrite (range_params_ok ps Ho). msimpl.
  rewrite (proj2 (Nat.eqb_eq _ _)) by by apply masks_concat_length. unfold parts in *. rewrite Efs in *.
  apply Forall2_app_inv_l in HR as (ps1 & ps2 & HR1 & HR2 & ->). clear Ho.
  destruct (proj1 (filter_range _ _ HR1) Hrs) as (F1 & Hw & Hp1).
  destruct (proj2 (filter_range _ _ HR2) Hos) as (F2 & Hp2).
  rewrite filter_app, F1, F2, app_nil_r. rewrite !zip_with_app by (by eapply Forall2_length).
  rewrite fmap_app, !concat_app. rewrite Hp1, Hp2.
  set (d1 := zip_with (λ f p, mask0 f (key p)) rs ps1). set (d2 := zip_with (λ f p, mask0 f (key p)) os ps2).
  rewrite zip_with_app in Hm by (by eapply Forall2_length). rewrite fmap_app in Hm.
  assert (Forall2 (λ a b, length a = length b) d1 (mask_of <$> ps1) ∧
    Forall2 (λ a b, length a = length b) d2 (mask_of <$> ps2)) as [Hm1 Hm2].
  { apply Forall2_app_inv in Hm; [done|]. unfold d1. rewrite length_zip_with, length_fmap.
    rewrite (Forall2_length _ _ _ HR1). lia. }
  assert (length (concat (key <$> ps1)) = length (concat d1)) as Hl1.
  { clear -HR1. unfold d1. induction HR1 as [|f p fs ps' Hf H IH]; [done|]. rewrite fmap_cons. cbn [concat zip_with]. by rewrite !length_app, length_mask0, IH. }
  rewrite Hl1. rewrite (proj2 (Z.leb_le _ _)) by (rewrite length_app; lia). cbn [andb].
  rewrite Nat2Z.id, take_app_length, drop_app_length. rewrite (masks_concat_length _ _ Hm1), drop_app_length.
  unfold format_ternary_key. rewrite zip_land_concat by done.
  eexists. split; [done|]. exists rs, os. do 3 (split; [done|]).
  clear -HR1. induction HR1 as [|f p fs ps' [[_ Hs] _] H IH]; [done|]. rewrite !fmap_cons. f_equal; [by apply Hs|done].
Qed.

(** **** Longest prefix match keys *)
Definition weight p : Z :=
  match type p with VALID => 8 | LPM => p_prefix_length p | _ => 8 * Z.of_nat (length (key p)) end.
Definition weights (l : list MatchKeyParam) : Z := foldr (λ p acc, weight p + acc) 0 l.

Lemma weights_app l1 l2 : weights (l1 ++ l2) = weights l1 + weights l2.
Proof. induction l1 as [|p l1 IH]; cbn [app]; [done|]. unfold weights in *. cbn [foldr]. lia. Qed.

Lemma weights_perm l1 l2 : l1 ≡ₚ l2 → weights l1 = weights l2.
Proof. unfold weights. induction 1; cbn [foldr]; lia. Qed.

Lemma impl_order_perm ps : impl_order ks kb params ps → ps ≡ₚ params.
Proof.
  intros [Hl Hg]. apply (permuted_perm _ _ (inv_mapping kb)).
  - rewrite params_length. apply (lay_perm _ _ _ Hlay).
  - apply list_eq. intros j. rewrite !list_lookup_fmap.
    destruct (inv_mapping kb !! j) as [i|] eqn:Ei; cbn.
    + rewrite <- (Hg i (Z.of_nat j)) by (by rewrite vget_nat, Nat2Z.id by lia).
      rewrite vget_nat, Nat2Z.id by lia. destruct (ps !! j) eqn:E; [done|].
      apply lookup_ge_None in E. apply lookup_lt_Some in Ei. rewrite (lay_len_inv _ _ _ Hlay) in Ei. lia.
    + destruct (ps !! j) eqn:E; [|done]. apply lookup_ge_None in Ei. apply lookup_lt_Some in E.
      rewrite (lay_len_inv _ _ _ Hlay) in Ei. lia.
Qed.

Lemma lpm_entry ps :
  impl_order ks kb params ps → Forall (λ f, mtype f ∈ [VALID; EXACT; LPM]) ks →
  params_to_lpm kb params =
    Some {| lpm_base := {| data := concat (parts kb ps); version := 0 |}; prefix_length := weights params |}.
Proof.
  intros Ho Hty. unfold params_to_lpm.
  pose proof (loop_result lpm_switch (λ j, weights (take (Z.to_nat j) ps)) ps Ho) as E.
  cbv beta in E. change (Z.to_nat 0) with 0%nat in E.
  rewrite take_0, Nat2Z.id, take_ge in E by (destruct Ho; lia). change (weights []) with 0 in E.
  rewrite E; [msimpl; by rewrite (weights_perm _ _ (impl_order_perm ps Ho))|]. clear E.
  intros j p Ep. pose proof (vget_Some_range _ _ _ Ep). rewrite vget_nat in Ep by lia.
  replace (Z.to_nat (j + 1)) with (S (Z.to_nat j)) by lia. rewrite (take_S_r _ _ _ Ep), weights_app.
  change (weights [p]) with (weight p + 0). rewrite Z.add_0_r. unfold lpm_switch, weight.
  assert (p ∈ params) as [i Ei]%list_elem_of_lookup_1.
  { rewrite <- (impl_order_perm ps Ho). by eapply list_elem_of_lookup_2. }
  destruct (Forall2_lookup_r _ _ _ _ _ Hfit Ei) as (f & Ef & [[Et _] _]).
  pose proof (Forall_lookup_1 _ _ _ _ Hty Ef) as Hin. cbv beta in Hin. rewrite <- Et in Hin.
  destruct (type p); try done; set_solver.
Qed.

Definition norm f p : MatchKeyParam :=
  {| type := type p; key := mask0 f (key p); p_mask := [];
     p_prefix_length := if decide (type p = LPM) then p_prefix_length p else 0 |}.

Lemma weight_field f p : param_fits f p → mtype f ∈ [VALID; EXACT; LPM] → mtype f ≠ LPM →
  weight p = 8 * nbits_to_nbytes (nbits f).
Proof.
  clear Hlay Hfit. intros ([Et Hs] & _ & _ & Hv) Hin Hne. unfold weight, sized in *. rewrite Et in *.
  destruct (mtype f); try set_solver; [|lia]. by rewrite Hv.
Qed.

Lemma lpm_loop ps (k : LPMMatchKey) l :
  impl_order ks kb params ps → Forall (λ f, mtype f ∈ [VALID; EXACT; LPM]) ks →
  (∀ i f, vget ks i = Some f → mtype f = LPM ↔ i = l) → 0 ≤ l →
  data k = concat (parts kb ps) → prefix_length k = weights params →
  ∀ pl, vget params l = Some pl →
  for_range 0 (nfields kb) (lpm_step kb k) ([], 0, prefix_length k) =
    Some (zip_with (λ f p, param (type p) (mask0 f (key p))) ks params, l, p_prefix_length pl).
Proof.
  intros Ho Hty Hl Hl0 Hd Hpl pl Epl. pose proof params_length as Hlen. pose proof (vget_Some_range _ _ _ Epl).
  unfold nfields. rewrite (lay_len_map _ _ _ Hlay). set (g := λ f p, param (type p) (mask0 f (key p))).
  destruct (for_range_inv (λ i st, st = (take (Z.to_nat i) (zip_with g ks params), if decide (l < i) then l else 0,
      weights params - weights (take (Z.to_nat i) params) + if decide (l < i) then p_prefix_length pl else 0))
    (lpm_step kb k) 0 (Z.of_nat (length ks)) ([], 0, prefix_length k)) as (st & -> & ->); [lia| | |].
  { rewrite !decide_False by lia. change (weights (take (Z.to_nat 0) params)) with 0.
    change (take (Z.to_nat 0) (zip_with g ks params)) with (@nil MatchKeyParam). f_equal. lia. }
  2: { rewrite Nat2Z.id, !take_ge, !decide_True by (rewrite ?length_zip_with; lia). do 2 f_equal. lia. }
  intros i st Hi ->. unfold lpm_step.
  destruct (proj2 (vget_is_Some ks i)) as [f Ef]; [lia|]. destruct (proj2 (vget_is_Some params i)) as [p Ep]; [lia|].
  destruct (entry_field ps (λ f p, mask0 f (key p)) i f p Ho sized_mask0 Ef Ep) as (off & -> & Es).
  cbn -[nbits_to_nbytes]. rewrite Hd. unfold parts. rewrite Es. msimpl.
  pose proof (param_at _ _ _ Ef Ep) as Hf. pose proof (Hl _ _ Ef) as Hfl.
  pose proof Ef as Ef'. rewrite vget_nat in Ef' by lia. pose proof Ep as Ep'. rewrite vget_nat in Ep' by lia.
  pose proof (Forall_lookup_1 _ _ _ _ Hty Ef') as Hin. cbv beta in Hin.
  destruct (decide (mtype f = TERNARY)) as [E|_]; [rewrite E in Hin; set_solver|].
  replace (Z.to_nat (i + 1)) with (S (Z.to_nat i)) by lia. rewrite (take_S_r _ _ _ Ep'), weights_app.
  assert (zip_with g ks params !! Z.to_nat i = Some (g f p)) as Ez by (by rewrite lookup_zip_with, Ef', Ep').
  rewrite (take_S_r _ _ _ Ez). change (weights [p]) with (weight p + 0).
  unfold g. rewrite (proj1 (proj1 Hf)).
  destruct (decide (mtype f = LPM)) as [E|E]; eexists; (split; [done|]); cbv beta.
  - assert (i = l) as -> by tauto. simplify_eq. unfold weight. rewrite (proj1 (proj1 Hf)), E.
    destruct (decide (l < l)), (decide (l < l + 1)); try lia; f_equal; lia.
  - rewrite (weight_field _ _ Hf Hin E). assert (i ≠ l) by tauto.
    destruct (decide (l < i)), (decide (l < i + 1)); try lia; f_equal; lia.
Qed.

Lemma lpm_roundtrip :
  Forall (λ f, mtype f ∈ [VALID; EXACT; LPM]) ks →
  (∃ l, 0 ≤ l < Z.of_nat (length ks) ∧ ∀ i f, vget ks i = Some f → mtype f = LPM ↔ i = l) →
  ∃ e, params_to_lpm kb params = Some e ∧ lpm_to_params kb e = Some (zip_with norm ks params).
Proof.
  intros Hty (l & Hlr & Hl). destruct (impl_order_ex ks ms kb Hlay params params_length) as [ps Ho].
  rewrite (lpm_entry ps Ho Hty). eexists. split; [done|].
  pose proof params_length as Hlen.
  destruct (proj2 (vget_is_Some params l)) as [pl Epl]; [lia|]. destruct (proj2 (vget_is_Some ks l)) as [fl Efl]; [lia|].
  pose proof (param_at _ _ _ Efl Epl) as Hfl.
  unfold lpm_to_params. rewrite (lpm_loop ps {| lpm_base := {| data := concat (parts kb ps); version := 0 |};
    prefix_length := weights params |} l Ho Hty Hl ltac:(lia) eq_refl eq_refl pl Epl). msimpl.
  set (g := λ f p, param (type p) (mask0 f (key p))).
  rewrite vget_nat in Efl by lia. rewrite vget_nat in Epl by lia.
  assert (vget (zip_with g ks params) l = Some (g fl pl)) as ->.
  { rewrite vget_nat by lia. by rewrite lookup_zip_with, Efl, Epl. }
  msimpl. rewrite vset_Some by (rewrite length_zip_with; lia). f_equal. apply list_eq. intros i.
  destruct (decide (i = Z.to_nat l)) as [->|Hne].
  - rewrite list_lookup_insert_eq by (rewrite length_zip_with; lia). rewrite lookup_zip_with, Efl, Epl. cbn.
    unfold norm, with_prefix, g. cbn. rewrite decide_True; [done|]. rewrite (proj1 (proj1 Hfl)).
    apply (Hl l); [by rewrite vget_nat by lia|done].
  - rewrite list_lookup_insert_ne by done. rewrite !lookup_zip_with.
    destruct (ks !! i) as [f|] eqn:Ef; [|done]. destruct (params !! i) as [p|] eqn:Ep; [|done]. cbn.
    unfold norm, g, param. rewrite decide_False; [done|]. intros E.
    assert (vget ks (Z.of_nat i) = Some f) as Ef' by (by rewrite vget_nat, Nat2Z.id by lia).
    pose proof (param_at _ _ _ Ef' ltac:(by rewrite vget_nat, Nat2Z.id by lia)) as Hf.
    rewrite (proj1 (proj1 Hf)) in E. apply (Hl _ _ Ef') in E. lia.
Qed.
End roundtrip.

(** The parameters of an entry that pass the sanity check make a key from
    which they are read back, in every kind of table: in their order, the
    excess bits of their first bytes and the bits under the mask cleared. *)
Theorem params_roundtrip kb0 kb params :
  pushed kb0 → build kb0 = Some kb → Forall2 param_typed (key_input kb0) params →
  match_params_sanity_check kb params = Some true →
  let ks := key_input kb0 in
  (Forall (λ f, mtype f = VALID ∨ mtype f = EXACT) ks →
    ∃ e, params_to_exact kb params = Some e ∧ exact_to_params kb e = Some (zip_with norm ks params)) ∧
  (Forall (λ f, mtype f ∈ [VALID; EXACT; LPM]) ks →
    (∃ l, 0 ≤ l < Z.of_nat (length ks) ∧ ∀ i f, vget ks i = Some f → mtype f = LPM ↔ i = l) →
    ∃ e, params_to_lpm kb params = Some e ∧ lpm_to_params kb e = Some (zip_with norm ks params)) ∧
  (Forall (λ f, mtype f ≠ RANGE) ks →
    ∃ e, params_to_ternary kb params = Some e ∧ ternary_to_params kb e = Some (zip_with norm_ternary ks params)) ∧
  (∃ e, params_to_range kb params = Some e ∧ ternary_to_params kb e = Some (zip_with norm_ternary ks params)).
Proof.
  intros Hp Hb Hty Hs ks. destruct (build_ok kb0 Hp) as (? & ? & Hlay & _). simplify_eq.
  pose proof (sanity_ok _ _ _ _ Hlay Hty Hs) as Hfit. fold ks in Hlay, Hfit.
  assert (length params = length ks) as Hl by (symmetry; by eapply Forall2_length).
  destruct (impl_order_ex ks _ kb Hlay params Hl) as [ps Ho]. split; [|split; [|split]].
  - intros Hk. destruct (exact_roundtrip ks _ kb Hlay params Hfit Hk) as (e & E1 & E2).
    exists e. split; [done|]. rewrite E2. f_equal. clear -Hfit Hk. induction Hfit as [|f p fs ps' Hf H IH]; [done|].
    apply Forall_cons in Hk as [Hk Hks]. cbn. f_equal; [|by apply IH]. unfold param, norm.
    rewrite decide_False; [done|]. rewrite (proj1 (proj1 Hf)). intros E. destruct Hk; congruence.
  - intros Hk Hl1. exact (lpm_roundtrip ks _ kb Hlay params Hfit Hk Hl1).
  - intros Hk. rewrite (ternary_entry ks _ kb Hlay params Hfit ps Ho Hk). eexists. split; [done|].
    by apply (ternary_entry_params ks _ kb Hlay params Hfit ps).
  - destruct (range_entry ks _ kb Hlay params Hfit ps Ho) as (ws & -> & _). eexists. split; [done|].
    by apply (ternary_entry_params ks _ kb Hlay params Hfit ps).
Qed.

(** The conversions of a key type, the overloads the match units pick. *)
End MatchKey.

Class MatchParams (K : Type) := {
  entry_to_match_params : MatchKey.MatchKeyBuilder → K → option (list MatchKey.MatchKeyParam);
  match_params_to_entry : MatchKey.MatchKeyBuilder → list MatchKey.MatchKeyParam → option K;
}.

#[export] Instance ExactMatchKey_params : MatchParams ExactMatchKey :=
  {| entry_to_match_params kb (k : ExactMatchKey) := MatchKey.exact_to_params kb k;
     match_params_to_entry := MatchKey.params_to_exact |}.
#[export] Instance LPMMatchKey_params : MatchParams LPMMatchKey :=
  {| entry_to_match_params := MatchKey.lpm_to_params; match_params_to_entry := MatchKey.params_to_lpm |}.
#[export] Instance TernaryMatchKey_params : MatchParams TernaryMatchKey :=
  {| entry_to_match_params := MatchKey.ternary_to_params;
     match_params_to_entry := MatchKey.params_to_ternary |}.
#[export] Instance RangeMatchKey_params : MatchParams RangeMatchKey :=
  {| entry_to_match_params kb (k : RangeMatchKey) := MatchKey.ternary_to_params kb k;
     match_params_to_entry := MatchKey.params_to_range |}.
