(* ===== verification/KeyMatch.v ===== *)
(** * What the entries of a table match

    The keys that [MatchKey.v] makes of the parameters of an entry match, in
    the sense of the lookup structures, the packets each of whose fields
    matches its parameter. *)

From S2P Require Import Prelude ByteContainer Data Fields Headers Phv MatchKeyTypes LpmTrie LookupStructures TernaryMap.
From S2P Require Import MatchKey.
Import MatchKeyTypes.

Module KeyMatch.
Import MatchKey.

Implicit Types (f : KeyF) (p : MatchKeyParam) (x d : list Z).

(** The bits of the first byte of a field that are not of the field. *)
Definition padding f : Z := 8 * nbits_to_nbytes (nbits f) - nbits f.

(** A field of the packet, as bytes, matches a parameter; the prefix is that of
    the bits of the field. *)
Definition param_matches f p x : Prop :=
  match type p with
  | VALID | EXACT => x = mask0 f (key p)
  | LPM => ∀ k, 0 ≤ k < p_prefix_length p → bit_at x (padding f + k) = bit_at (mask0 f (key p)) (padding f + k)
  | TERNARY => zip_with Z.land x (p_mask p) = zip_with Z.land (mask0 f (key p)) (p_mask p)
  | RANGE => be_value (mask0 f (key p)) ≤ be_value x ≤ be_value (p_mask p)
  end.

(** ** Lists of fields *)
Lemma concat_inj (l1 l2 : list (list Z)) :
  Forall2 (λ a b, length a = length b) l1 l2 → concat l1 = concat l2 ↔ Forall2 eq l1 l2.
Proof.
  induction 1 as [|a b l1 l2 Hab H IH]; [by split; [constructor|]|]. cbn [concat]. split.
  - intros E. apply app_inj_1 in E as [-> E]; [|done]. constructor; [done|]. by apply IH.
  - intros Hf. apply Forall2_cons in Hf as [-> Hf]. f_equal. by apply IH.
Qed.

Lemma bit_at_app a b k :
  0 ≤ k → bit_at (a ++ b) k = if decide (k < 8 * Z.of_nat (length a)) then bit_at a k
                              else bit_at b (k - 8 * Z.of_nat (length a)).
Proof.
  intros Hk. unfold bit_at. pose proof (Z.div_mod k 8). pose proof (Z.mod_pos_bound k 8).
  assert (0 ≤ k / 8) by (apply Z.div_pos; lia).
  destruct (decide (k < 8 * Z.of_nat (length a))).
  - rewrite !vget_nat by lia. rewrite lookup_app_l; [done|].
    assert (k / 8 < Z.of_nat (length a)) by (apply Z.div_lt_upper_bound; lia). lia.
  - replace (k - 8 * Z.of_nat (length a)) with (k + - Z.of_nat (length a) * 8) by lia.
    rewrite Z.div_add, Z.mod_add by lia.
    assert (Z.of_nat (length a) ≤ k / 8) by (apply Z.div_le_lower_bound; lia).
    rewrite !vget_nat by lia. rewrite lookup_app_r by lia. by replace (Z.to_nat (k / 8) - length a)%nat
      with (Z.to_nat (k / 8 + - Z.of_nat (length a))) by lia.
Qed.

Lemma bit_at_land a b k : length a = length b → bit_at (zip_with Z.land a b) k = bit_at a k && bit_at b k.
Proof.
  intros Hl. unfold bit_at. unfold vget. case_decide; [|done]. rewrite lookup_zip_with.
  destruct (a !! Z.to_nat (k / 8)) as [x|] eqn:Ea; [|done].
  destruct (b !! Z.to_nat (k / 8)) as [y|] eqn:Eb; cbn; [apply Z.land_spec|by rewrite andb_false_r].
Qed.

Lemma bytes_ok_land a b : bytes_ok a → bytes_ok (zip_with Z.land a b).
Proof.
  intros Ha. revert b. induction Ha as [|x a Hx Ha IH]; intros [|y b]; cbn; constructor; [|apply IH].
  by apply byte_ok_land.
Qed.

Lemma bytes_ok_concat (l : list (list Z)) : Forall bytes_ok l → bytes_ok (concat l).
Proof. induction 1; [constructor|]. cbn. by apply Forall_app. Qed.

(** A masked match, on bytes. *)
Lemma masked_match_eq (k : TernaryMatchKey) d :
  bytes_ok (data k) → bytes_ok d → length (data k) = length d → length (mask k) = length d →
  masked_match 0 (Z.of_nat (length d)) k d ↔ data k = zip_with Z.land d (mask k).
Proof.
  intros Hk Hd Hl Hm. unfold masked_match. rewrite Forall_forall. rewrite Z.sub_0_r. split.
  - intros Hb. apply bits_ext; [done|by apply bytes_ok_land|rewrite length_zip_with; lia|].
    intros i Hi. rewrite bit_at_land by lia. apply Hb, elem_of_seqZ. lia.
  - intros -> i Hi%elem_of_seqZ. by rewrite bit_at_land.
Qed.

Lemma prefix_mask_bits pref size k :
  0 ≤ pref ≤ 8 * size → 0 ≤ k < 8 * size → bit_at (prefix_mask pref size) k = bool_decide (k < pref).
Proof.
  intros Hp Hk. destruct (prefix_split _ _ Hp) as (H1 & H2 & H3 & H4 & H5).
  unfold prefix_mask. rewrite bit_at_app, length_replicate, Z2Nat.id by lia.
  assert (∀ n b i, 0 ≤ i < 8 * Z.of_nat n → bit_at (replicate n b) i = Z.testbit b (7 - i mod 8)) as Hrep.
  { intros n b i Hi. unfold bit_at. rewrite vget_nat by (apply Z.div_pos; lia).
    rewrite lookup_replicate_2; [done|]. pose proof (Z.div_lt_upper_bound i 8 (Z.of_nat n)).
    pose proof (Z.div_pos i 8). lia. }
  pose proof (Z.mod_pos_bound k 8 ltac:(lia)).
  destruct (decide (k < 8 * (pref / 8))).
  { rewrite Hrep by lia. rewrite bool_decide_true by lia.
    change 255 with (Z.ones 8). rewrite Z.ones_spec_low; [done|]. lia. }
  rewrite bit_at_app by lia. remember (k - 8 * (pref / 8)) as k' eqn:Ek'.
  destruct (Z.eqb_spec (pref mod 8) 0) as [E|E] in H4 |- *; cbn [length].
  - rewrite decide_False by lia. rewrite bool_decide_false by lia. rewrite Hrep by lia. apply Z.bits_0.
  - destruct (decide (k' < 8 * Z.of_nat 1)).
    + unfold bit_at. rewrite (Z.div_small k' 8), (Z.mod_small k' 8) by lia.
      assert (∀ b : Z, vget [b] 0 = Some b) as -> by done. rewrite prefix_byte_bits by lia. apply bool_decide_ext. lia.
    + rewrite bool_decide_false by lia. rewrite Hrep by lia. apply Z.bits_0.
Qed.

(** ** One field *)

(** A prefix is matched against a field of whole bytes. *)
Definition whole_prefix f : Prop := mtype f = LPM → nbits f mod 8 = 0.

Lemma whole_padding f : nbits f mod 8 = 0 → padding f = 0.
Proof.
  intros E. unfold padding, nbits_to_nbytes. pose proof (Z.div_mod (nbits f) 8 ltac:(done)).
  replace (nbits f + 7) with (7 + nbits f / 8 * 8) by lia. rewrite Z.div_add by done. change (7 / 8) with 0. lia.
Qed.

(** A field of the packet: bytes, as many as the field has. *)
Definition field_ok f x : Prop := sized f x ∧ bytes_ok x.

Lemma part_matches f p x :
  param_fits f p → field_ok f x → type p ≠ RANGE → whole_prefix f →
  part f p = zip_with Z.land x (mask_of p) ↔ param_matches f p x.
Proof.
  intros Hf [Hx Hxb] Hne Hwh. pose proof Hf as ([Et Hs] & Hk & _ & Hv). pose proof (sized_mask_of f p Hf) as Hm.
  pose proof (sized_mask0 f p Hf) as H0. pose proof (bytes_ok_mask0 f _ Hk) as H0b. unfold sized in *.
  unfold param_matches. destruct (type p) eqn:Ety.
  - done.
  - rewrite part_exact by auto. unfold mask_of. rewrite Ety.
    assert ([255] = replicate (length x) 255) as ->.
    { rewrite Hv in Hx. change (nbits_to_nbytes 8) with 1 in Hx. by replace (length x) with 1%nat by lia. }
    rewrite land_ones_bytes by done. split; congruence.
  - rewrite part_exact by auto. unfold mask_of. rewrite Ety. replace (length (key p)) with (length x) by lia.
    rewrite land_ones_bytes by done. split; congruence.
  - unfold part. rewrite decide_False by congruence. pose proof (prefix_fits f p Hf Ety) as Hpf.
    rewrite whole_padding by (apply Hwh; congruence).
    change (∀ k, _ → _) with (∀ k, 0 ≤ k < p_prefix_length p → bit_at x k = bit_at (mask0 f (key p)) k).
    unfold mask_of in *. rewrite Ety in *. set (m := prefix_mask _ _) in *.
    assert (∀ k, 0 ≤ k < 8 * Z.of_nat (length x) → bit_at m k = bool_decide (k < p_prefix_length p)) as Hbits.
    { intros k Hr. apply prefix_mask_bits; lia. }
    split.
    + intros E k Hr. apply (f_equal (λ l, bit_at l k)) in E. rewrite !bit_at_land in E by lia.
      rewrite Hbits, bool_decide_true, !andb_true_r in E by lia. done.
    + intros Hb. apply bits_ext; [by apply bytes_ok_land..|rewrite !length_zip_with; lia|].
      intros k Hr. rewrite length_zip_with in Hr. rewrite !bit_at_land, Hbits by lia.
      case_bool_decide; [by rewrite Hb by lia|by rewrite !andb_false_r].
  - unfold part. rewrite decide_False by congruence. unfold mask_of. rewrite Ety. split; congruence.
Qed.

(** ** Whole keys *)
Fixpoint all_match (fs : list KeyF) (ps : list MatchKeyParam) (xs : list (list Z)) : Prop :=
  match fs, ps, xs with
  | f :: fs, p :: ps, x :: xs => param_matches f p x ∧ all_match fs ps xs
  | _, _, _ => True
  end.

Lemma all_match_lookup fs : ∀ ps xs,
  all_match fs ps xs ↔ ∀ (i : nat) f p x, fs !! i = Some f → ps !! i = Some p → xs !! i = Some x →
    param_matches f p x.
Proof.
  induction fs as [|f fs IH]; intros [|p ps] [|x xs]; cbn [all_match]; try (split; [done|done]).
  rewrite IH. split.
  - intros [H1 H2] [|i] f' p' x' Ef Ep Ex; [by simplify_eq/=|by eapply (H2 i)].
  - intros Hall. split; [by apply (Hall 0%nat)|]. intros i f' p' x' Ef Ep Ex. by apply (Hall (S i)).
Qed.

Lemma all_match_app fs1 fs2 ps1 ps2 xs1 xs2 :
  length fs1 = length ps1 → length ps1 = length xs1 →
  all_match (fs1 ++ fs2) (ps1 ++ ps2) (xs1 ++ xs2) ↔ all_match fs1 ps1 xs1 ∧ all_match fs2 ps2 xs2.
Proof.
  revert ps1 xs1. induction fs1 as [|f fs1 IH]; intros [|p ps1] [|x xs1] H1 H2; try done.
  - cbn. tauto.
  - cbn [app all_match]. rewrite IH by (cbn in *; lia). tauto.
Qed.

Section whole.
Context (ks : list KeyF) (ms : list (list Z)) kb (Hlay : layout ks ms kb).
Context (params : list MatchKeyParam) (Hfit : Forall2 param_fits ks params).
Context (xs : list (list Z)) (Hxs : Forall2 field_ok ks xs).
Context (ps : list MatchKeyParam) (Hps : impl_order ks kb params ps).
Context (xs' : list (list Z)) (Hxs' : impl_order ks kb xs xs').

(** The order of the fields does not matter. *)
Lemma all_match_impl : all_match ks params xs ↔ all_match (key_input kb) ps xs'.
Proof.
  assert (length params = length ks) as Hl1 by (symmetry; by eapply Forall2_length).
  assert (length xs = length ks) as Hl2 by (symmetry; by eapply Forall2_length).
  rewrite !all_match_lookup. split; intros Hall j f p x Ef Ep Ex.
  - destruct (inv_at ks ms kb Hlay (Z.of_nat j)) as (i & Ei & _ & Hi).
    { apply lookup_lt_Some in Ef. rewrite (lay_len _ _ _ Hlay) in Ef. lia. }
    pose proof (key_input_at ks ms kb Hlay _ _ Ei) as Hf. pose proof (proj2 Hps _ _ Ei) as Hp.
    pose proof (proj2 Hxs' _ _ Ei) as Hx. rewrite !vget_nat, Nat2Z.id in Hf by lia.
    rewrite !vget_nat, Nat2Z.id in Hp by lia. rewrite !vget_nat, Nat2Z.id in Hx by lia.
    apply (Hall (Z.to_nat i)); congruence.
  - destruct (proj2 (vget_is_Some (key_mapping kb) (Z.of_nat j))) as [i Ei].
    { apply lookup_lt_Some in Ef. rewrite (lay_len_map _ _ _ Hlay). lia. }
    apply (lay_inv _ _ _ Hlay) in Ei. pose proof (vget_Some_range _ _ _ Ei).
    pose proof (key_input_at ks ms kb Hlay _ _ Ei) as Hf. pose proof (proj2 Hps _ _ Ei) as Hp.
    pose proof (proj2 Hxs' _ _ Ei) as Hx. rewrite !vget_nat, Nat2Z.id in Hf by lia.
    rewrite !vget_nat, Nat2Z.id in Hp by lia. rewrite !vget_nat, Nat2Z.id in Hx by lia.
    apply (Hall (Z.to_nat i)); congruence.
Qed.

Lemma impl_params : Forall2 param_fits (key_input kb) ps.
Proof. exact (impl_order_Forall2 ks ms kb Hlay _ _ _ Hps Hfit). Qed.
Lemma impl_fields : Forall2 field_ok (key_input kb) xs'.
Proof. exact (impl_order_Forall2 ks ms kb Hlay _ _ _ Hxs' Hxs). Qed.
End whole.

(** *** Each kind, on the fields of the implementation *)
Definition exact_type f : Prop := mtype f = VALID ∨ mtype f = EXACT.

Lemma exact_all fs ps xs :
  Forall2 param_fits fs ps → Forall2 field_ok fs xs → Forall exact_type fs →
  concat (zip_with (λ f p, mask0 f (key p)) fs ps) = concat xs ↔ all_match fs ps xs.
Proof.
  intros Hps Hxs Hty. rewrite concat_inj.
  - revert xs Hxs Hty. induction Hps as [|f p fs ps Hf Hps IH]; intros xs Hxs Hty.
    + apply Forall2_nil_inv_l in Hxs as ->. by split; [|constructor].
    + apply Forall2_cons_inv_l in Hxs as (x & xs0 & Hx & Hxs0 & ->). apply Forall_cons in Hty as [Ht Hty].
      cbn [zip_with all_match]. rewrite Forall2_cons, (IH xs0) by done. f_equiv.
      unfold param_matches. destruct Ht as [E|E]; rewrite (proj1 (proj1 Hf)), E; split; congruence.
  - revert xs Hxs. clear Hty. induction Hps as [|f p fs ps Hf Hps IH]; intros xs Hxs.
    + apply Forall2_nil_inv_l in Hxs as ->. constructor.
    + apply Forall2_cons_inv_l in Hxs as (x & xs0 & [Hx _] & Hxs0 & ->). cbn. constructor; [|by apply IH].
      pose proof (sized_mask0 f p Hf). unfold sized in *. lia.
Qed.

Lemma masked_all fs ps xs (k : TernaryMatchKey) :
  Forall2 param_fits fs ps → Forall2 field_ok fs xs → Forall (λ f, mtype f ≠ RANGE) fs → Forall whole_prefix fs →
  data k = concat (zip_with part fs ps) → mask k = concat (mask_of <$> ps) →
  masked_match 0 (Z.of_nat (length (concat xs))) k (concat xs) ↔ all_match fs ps xs.
Proof.
  intros Hps Hxs Hty Hwh Hd Hm.
  assert (Forall2 (λ a b, length a = length b) (zip_with part fs ps) xs ∧
    Forall2 (λ a b, length a = length b) xs (mask_of <$> ps) ∧ Forall bytes_ok (zip_with part fs ps) ∧
    Forall bytes_ok xs) as (L1 & L2 & B1 & B2).
  { clear -Hps Hxs. revert xs Hxs. induction Hps as [|f p fs ps Hf Hps IH]; intros xs Hxs.
    - apply Forall2_nil_inv_l in Hxs as ->. by repeat constructor.
    - apply Forall2_cons_inv_l in Hxs as (x & xs0 & [Hx Hb] & Hxs0 & ->).
      destruct (IH xs0 Hxs0) as (? & ? & ? & ?). pose proof (sized_part f p Hf). pose proof (sized_mask_of f p Hf).
      unfold sized in *. cbn [zip_with]. rewrite fmap_cons. repeat split; constructor; try done; try lia.
      unfold part. pose proof (bytes_ok_mask0 f (key p) (proj1 (proj2 Hf))). case_decide; [done|]. by apply bytes_ok_land. }
  pose proof (masks_concat_length _ _ L1) as C1. pose proof (masks_concat_length _ _ L2) as C2.
  rewrite masked_match_eq; [|rewrite Hd; by apply bytes_ok_concat|by apply bytes_ok_concat|by rewrite Hd|by rewrite Hm].
  rewrite Hd, Hm, zip_land_concat by done. rewrite concat_inj.
  - clear -Hps Hxs Hty Hwh. revert xs Hxs Hty Hwh. induction Hps as [|f p fs ps Hf Hps IH]; intros xs Hxs Hty Hwh.
    + apply Forall2_nil_inv_l in Hxs as ->. by split; [|constructor].
    + apply Forall2_cons_inv_l in Hxs as (x & xs0 & Hx & Hxs0 & ->). apply Forall_cons in Hty as [Ht Hty]. apply Forall_cons in Hwh as [Hw Hwh].
      rewrite fmap_cons. cbn [zip_with all_match]. rewrite Forall2_cons, (IH xs0) by done. f_equiv.
      apply part_matches; [done..| |done]. by rewrite (proj1 (proj1 Hf)).
  - clear -L1 L2. revert L2. generalize (mask_of <$> ps) as l. induction L1 as [|a x l1 xs H L1 IH]; intros l L2.
    + constructor.
    + apply Forall2_cons_inv_l in L2 as (m & l2 & Hm & L2 & ->). cbn. constructor; [|by apply IH].
      rewrite length_zip_with. lia.
Qed.

(** Ranges, wherever they are in the key. *)
Lemma ranges_all fs ps xs (k : TernaryMatchKey) d : ∀ A B M N X Y,
  Forall2 param_fits fs ps → Forall2 field_ok fs xs → Forall (λ f, mtype f = RANGE) fs →
  data k = A ++ concat (zip_with part fs ps) ++ B → mask k = M ++ concat (mask_of <$> ps) ++ N →
  d = X ++ concat xs ++ Y → length M = length A → length X = length A →
  ranges_match ((λ f, nbits_to_nbytes (nbits f)) <$> fs) (Z.of_nat (length A)) k d ↔ all_match fs ps xs.
Proof.
  intros A B M N X Y Hps. revert xs A M X. induction Hps as [|f p fs ps Hf Hps IH];
    intros xs A M X Hxs Hty Hd Hm Hx LM LX; [done|].
  apply Forall2_cons_inv_l in Hxs as (x & xs0 & [Hsx _] & Hxs0 & ->). apply Forall_cons in Hty as [Ht Hty].
  rewrite fmap_cons in Hm. rewrite fmap_cons. cbn [zip_with concat ranges_match all_match] in *.
  pose proof (sized_part f p Hf) as Hp. pose proof (sized_mask_of f p Hf) as Hmo. unfold sized in *.
  assert (∀ A s R : list Z, length A = length X → Z.of_nat (length s) = nbits_to_nbytes (nbits f) →
    take (Z.to_nat (nbits_to_nbytes (nbits f))) (drop (Z.to_nat (Z.of_nat (length A))) (A ++ (s ++ R))) = s) as Hsl.
  { clear. intros A s R HA Hs. by rewrite Nat2Z.id, drop_app_length, <- Hs, Nat2Z.id, take_app_length. }
  rewrite <- !app_assoc in *. f_equiv.
  - rewrite Hd, Hm, Hx. rewrite Hsl by (done || lia). replace (length A) with (length M) by lia.
    rewrite Hsl by (done || lia). replace (length M) with (length X) by lia. rewrite Hsl by (done || lia).
    unfold param_matches, part, mask_of. rewrite (proj1 (proj1 Hf)), Ht. by rewrite decide_True by done.
  - rewrite <- (IH xs0 (A ++ part f p) (M ++ mask_of p) (X ++ x)); try done.
    + f_equiv. rewrite length_app. lia.
    + by rewrite Hd, <- app_assoc.
    + by rewrite Hm, <- app_assoc.
    + by rewrite Hx, <- app_assoc.
    + rewrite !length_app. lia.
    + rewrite !length_app. lia.
Qed.

Lemma masked_match_shift (k k' : TernaryMatchKey) a m x y :
  data k = a ++ data k' → mask k = m ++ mask k' → length m = length a → length x = length a →
  masked_match (Z.of_nat (length a)) (Z.of_nat (length (x ++ y))) k (x ++ y) ↔
  masked_match 0 (Z.of_nat (length y)) k' y.
Proof.
  intros Hd Hm Lm Lx. unfold masked_match. rewrite !Forall_forall. rewrite Hd, Hm, length_app. split.
  - intros H i Hi%elem_of_seqZ. specialize (H (8 * Z.of_nat (length a) + i)).
    rewrite !bit_at_app, !decide_False, Lm, Lx in H by lia.
    replace (8 * Z.of_nat (length a) + i - 8 * Z.of_nat (length a)) with i in H by lia.
    apply H, elem_of_seqZ. lia.
  - intros H i Hi%elem_of_seqZ. rewrite !bit_at_app, !decide_False, Lm, Lx by lia.
    apply H, elem_of_seqZ. lia.
Qed.

Lemma total_width_size fs : total_width ((λ f, nbits_to_nbytes (nbits f)) <$> fs) = size_of fs.
Proof. induction fs as [|f fs IH]; [done|]. rewrite fmap_cons, size_of_cons, <- IH. done. Qed.

Lemma concat_sized fs (l : list (list Z)) : Forall2 sized fs l → Z.of_nat (length (concat l)) = size_of fs.
Proof.
  induction 1 as [|f s fs l Hs H IH]; [done|]. cbn [concat]. rewrite length_app, size_of_cons.
  unfold sized in Hs. lia.
Qed.

Lemma range_all rs os ps xs (k : RangeMatchKey) :
  Forall2 param_fits (rs ++ os) ps → Forall2 field_ok (rs ++ os) xs →
  Forall (λ f, mtype f = RANGE) rs → Forall (λ f, mtype f ≠ RANGE) os → Forall whole_prefix os →
  data k = concat (zip_with part (rs ++ os) ps) → mask k = concat (mask_of <$> ps) →
  range_widths k = (λ f, nbits_to_nbytes (nbits f)) <$> rs →
  (ranges_match (range_widths k) 0 k (concat xs) ∧
   masked_match (total_width (range_widths k)) (Z.of_nat (length (concat xs))) k (concat xs)) ↔
  all_match (rs ++ os) ps xs.
Proof.
  intros Hps Hxs Hrs Hos Hwh Hd Hm Hw.
  apply Forall2_app_inv_l in Hps as (ps1 & ps2 & P1 & P2 & ->).
  apply Forall2_app_inv_l in Hxs as (xs1 & xs2 & X1 & X2 & ->).
  pose proof (Forall2_length _ _ _ P1). pose proof (Forall2_length _ _ _ X1). rewrite all_match_app by lia.
  rewrite zip_with_app in Hd by (by eapply Forall2_length). rewrite fmap_app in Hm. rewrite !concat_app in *.
  assert (Forall2 sized rs (zip_with part rs ps1)) as S1.
  { clear -P1. induction P1; [constructor|]. cbn. constructor; [by apply sized_part|done]. }
  assert (Forall2 sized rs (mask_of <$> ps1)) as S2.
  { clear -P1. induction P1; [constructor|]. rewrite fmap_cons. constructor; [by apply sized_mask_of|done]. }
  assert (Forall2 sized rs xs1) as S3 by (eapply Forall2_impl; [exact X1|by intros ?? []]).
  apply concat_sized in S1, S2, S3. rewrite Hw, total_width_size, <- S1. f_equiv.
  - apply (ranges_all rs ps1 xs1 k _ [] (concat (zip_with part os ps2)) [] (concat (mask_of <$> ps2)) []
      (concat xs2)); done.
  - rewrite (masked_match_shift k {| ternary_base := {| data := concat (zip_with part os ps2); version := 0 |};
      mask := concat (mask_of <$> ps2); priority := 0 |} _ _ _ _ Hd Hm) by lia.
    by apply masked_all.
Qed.

(** The fields of a longest prefix match key: the prefix last. *)
Lemma sorted_lpm fs :
  StronglySorted Z.le ((λ f, type_rank (mtype f)) <$> fs) → Forall (λ f, mtype f ∈ [VALID; EXACT; LPM]) fs →
  (∃ j f, fs !! j = Some f ∧ mtype f = LPM) →
  (∀ i j f g, fs !! i = Some f → fs !! j = Some g → mtype f = LPM → mtype g = LPM → i = j) →
  ∃ es f, fs = es ++ [f] ∧ Forall exact_type es ∧ mtype f = LPM.
Proof.
  induction fs as [|f fs IH]; intros Hs Hty (j & g & Eg & Hg) Huniq; [done|].
  rewrite fmap_cons in Hs. apply StronglySorted_inv in Hs as [Hs Hall]. apply Forall_cons in Hty as [Ht Hty].
  destruct (decide (mtype f = LPM)) as [E|E].
  - destruct fs as [|f' fs]; [by exists [], f|]. exfalso.
    rewrite fmap_cons, E in Hall. apply Forall_cons in Hall as [Hle _]. apply Forall_cons in Hty as [Ht' _].
    assert (mtype f' = LPM) as E' by (destruct (mtype f'); cbn in Hle; (lia || done || set_solver)).
    specialize (Huniq 0%nat 1%nat f f' eq_refl eq_refl E E'). done.
  - destruct IH as (es & l & -> & Hes & Hl); [done|done| | |].
    + destruct j as [|j]; [simplify_eq/=|]. by exists j, g.
    + intros i j' f1 f2 E1 E2 H1 H2. specialize (Huniq (S i) (S j') f1 f2 E1 E2 H1 H2). lia.
    + exists (f :: es), l. split; [done|]. split; [|done]. constructor; [|done].
      unfold exact_type. destruct (mtype f); set_solver.
Qed.

Lemma lpm_all es f ps xs (k : LPMMatchKey) :
  Forall2 param_fits (es ++ [f]) ps → Forall2 field_ok (es ++ [f]) xs → Forall exact_type es → mtype f = LPM → whole_prefix f →
  data k = concat (zip_with (λ f p, mask0 f (key p)) (es ++ [f]) ps) → prefix_length k = weights ps →
  LpmTrie.same_prefix (data k) (prefix_length k) (concat xs) (prefix_length k) ↔ all_match (es ++ [f]) ps xs.
Proof.
  intros Hps Hxs Hes Hf Hwh Hd Hw.
  apply Forall2_app_inv_l in Hps as (ps1 & ps2 & P1 & P2 & ->).
  apply Forall2_cons_inv_l in P2 as (p & ps3 & Hp & P3 & ->). apply Forall2_nil_inv_l in P3 as ->.
  apply Forall2_app_inv_l in Hxs as (xs1 & xs2 & X1 & X2 & ->).
  apply Forall2_cons_inv_l in X2 as (x & xs3 & [Hx Hxb] & X3 & ->). apply Forall2_nil_inv_l in X3 as ->.
  pose proof (Forall2_length _ _ _ P1). pose proof (Forall2_length _ _ _ X1). rewrite all_match_app by lia.
  rewrite zip_with_app in Hd by (by eapply Forall2_length). rewrite concat_app in Hd. cbn [zip_with concat] in Hd.
  rewrite concat_app. cbn [concat]. rewrite app_nil_r in *.
  set (d1 := concat (zip_with (λ f p, mask0 f (key p)) es ps1)) in *.
  assert (weights ps1 = 8 * size_of es) as Hw1.
  { clear -P1 Hes. induction P1 as [|f p fs ps Hf P1 IH]; [done|]. apply Forall_cons in Hes as [He Hes].
    rewrite size_of_cons. change (weights (p :: ps)) with (weight p + weights ps).
    rewrite IH by done. rewrite (weight_field f p); [lia|done|..]; destruct He as [E|E]; rewrite E; set_solver. }
  assert (Z.of_nat (length d1) = size_of es) as Hl1.
  { apply concat_sized. clear -P1. induction P1; [constructor|]. cbn. constructor; [by apply sized_mask0|done]. }
  assert (Forall2 sized es xs1) as S3 by (eapply Forall2_impl; [exact X1|by intros ?? []]). apply concat_sized in S3.
  rewrite weights_app, Hw1 in Hw. change (weights [p]) with (weight p + 0) in Hw.
  assert (weight p = p_prefix_length p) as Hwp by (unfold weight; by rewrite (proj1 (proj1 Hp)), Hf).
  assert (bytes_ok d1) as B1.
  { unfold d1. apply bytes_ok_concat. clear -P1. induction P1 as [|f p fs ps Hf P1 IH]; [constructor|].
    cbn. constructor; [|done]. apply bytes_ok_mask0, Hf. }
  assert (bytes_ok (concat xs1)) as B2.
  { apply bytes_ok_concat. clear -X1. induction X1 as [|f x fs xs Hx X1 IH]; [done|]. constructor; [apply Hx|done]. }
  pose proof (prefix_fits f p Hp ltac:(by rewrite (proj1 (proj1 Hp)))) as Hpf.
  rewrite <- (exact_all es ps1 xs1) by done. fold d1. cbn [all_match]. unfold LpmTrie.same_prefix.
  rewrite Hw, Hd. unfold param_matches. rewrite (proj1 (proj1 Hp)), Hf, whole_padding by (by apply Hwh).
  change (∀ k, _ ≤ k < p_prefix_length p → _) with (∀ k, 0 ≤ k < p_prefix_length p → bit_at x k = bit_at (mask0 f (key p)) k). split.
  - intros [_ Hb]. split; [|split; [|done]].
    + apply bits_ext; [done|done|lia|]. intros i Hi. specialize (Hb i ltac:(lia)).
      by rewrite !bit_at_app, !decide_True in Hb by lia.
    + intros i Hi. specialize (Hb (8 * size_of es + i) ltac:(lia)).
      rewrite !bit_at_app, !decide_False in Hb by lia. rewrite Hl1, S3 in Hb.
      by replace (8 * size_of es + i - 8 * size_of es) with i in Hb by lia.
  - intros (E & Hb & _). split; [done|]. intros i Hi. rewrite !bit_at_app by lia. rewrite Hl1, S3.
    destruct (decide (i < 8 * size_of es)); [by rewrite E|]. symmetry. apply Hb. lia.
Qed.

(** ** The key of a packet *)
Lemma build_has_big_mask kb kb' : build kb = Some kb' → has_big_mask kb' = has_big_mask kb.
Proof. unfold build. intros E. by mbind_inv E. Qed.

(** The mask of the key is the masks of its fields. *)
Lemma concat_at fs parts : Forall2 sized fs parts → ∀ l, Z.of_nat (length l) = size_of fs →
  (∀ (j : nat) s, parts !! j = Some s → ∀ r, 0 ≤ r < Z.of_nat (length s) → vget l (size_of (take j fs) + r) = vget s r) → l = concat parts.
Proof.
  induction 1 as [|f s fs parts Hs H IH]; intros l Hl Hg; [by destruct l|]. rewrite size_of_cons in Hl. unfold sized in Hs.
  assert (0 ≤ size_of fs) by (rewrite <- (concat_sized fs parts H); lia).
  rewrite <- (take_drop (length s) l). cbn [concat]. f_equal.
  - apply list_eq_same_length with (length s); [done|rewrite length_take; lia|]. intros i x y Hi Hx Hy.
    rewrite lookup_take_Some in Hx. destruct Hx as [Hx _]. specialize (Hg 0%nat s eq_refl (Z.of_nat i) ltac:(lia)). cbn in Hg.
    rewrite Z.add_0_l, !vget_nat, Nat2Z.id in Hg by lia. congruence.
  - apply IH; [rewrite length_drop; lia|]. intros j s' Ej r Hr. specialize (Hg (S j) s' Ej r Hr). cbn [take] in Hg.
    rewrite size_of_cons in Hg. rewrite <- Hg. assert (0 ≤ size_of (take j fs)) as Hpos.
    { rewrite <- (concat_sized _ _ (Forall2_take _ _ _ j H)). lia. }
    rewrite !vget_nat by lia. rewrite lookup_drop. f_equal. lia.
Qed.

Lemma big_mask_parts ks ms kb ms' : layout ks ms kb → Forall2 sized ks ms → impl_order ks kb ms ms' → big_mask kb = concat ms'.
Proof.
  intros Hlay Hms Ho. pose proof (impl_order_Forall2 ks ms kb Hlay _ _ _ Ho Hms) as Hms'.
  apply (concat_at (key_input kb)); [done|by rewrite (lay_mask_len _ _ _ Hlay), (lay_nbytes _ _ _ Hlay)|].
  intros j s Es r Hr. pose proof (lookup_lt_Some _ _ _ Es) as Hj. rewrite (proj1 Ho) in Hj.
  destruct (inv_at ks ms kb Hlay (Z.of_nat j)) as (i & Ei & Ej & Hi); [lia|].
  pose proof (proj2 Ho _ _ Ei) as Em. rewrite vget_nat, Nat2Z.id, Es in Em by lia.
  pose proof (lay_offsets _ _ _ Hlay _ _ Ej) as Eo. rewrite (vget_nat (offsets_from _ _)), Nat2Z.id, offsets_from_lookup in Eo by lia.
  destruct (lookup_lt_is_Some_2 (key_input kb) j) as [f Ef]; [rewrite (lay_len _ _ _ Hlay); lia|]. rewrite Ef in Eo. cbn in Eo.
  symmetry in Em. rewrite <- (lay_mask _ _ _ Hlay _ _ _ r Em Eo Hr). f_equal.
Qed.

Lemma land_concat (xs ms : list (list Z)) : Forall2 (λ x m, length x = length m) xs ms →
  zip_with Z.land (concat xs) (concat ms) = concat (zip_with (zip_with Z.land) xs ms).
Proof. induction 1 as [|x m xs ms Hl H IH]; [done|]. cbn. by rewrite zip_with_app, IH. Qed.

(** The fields as they are looked up: under their masks when a field of the key has one. *)
Definition looked_up kb (xs : list (list Z)) : list (list Z) :=
  if has_big_mask kb then zip_with (zip_with Z.land) xs (masks kb) else xs.

Lemma masked_field f x m : field_ok f x → sized f m → field_ok f (zip_with Z.land x m).
Proof. intros [Hx Hb] Hm. unfold sized in *. split; [unfold sized; rewrite length_zip_with; lia|by apply bytes_ok_land]. Qed.

Lemma looked_up_ok kb xs : Forall2 sized (key_input kb) (masks kb) → Forall2 field_ok (key_input kb) xs →
  Forall2 field_ok (key_input kb) (looked_up kb xs).
Proof.
  intros Hms Hxs. unfold looked_up. destruct (has_big_mask kb); [|done]. revert Hms. generalize (masks kb) as ms.
  induction Hxs as [|f x fs xs Hx Hxs IH]; intros ms Hms; [constructor|].
  apply Forall2_cons_inv_l in Hms as (m & ms' & Hm & Hms & ->). cbn. constructor; [by apply masked_field|by apply IH].
Qed.

Lemma make_key_ok kb0 kb phv xs : layout (key_input kb0) (masks kb0) kb → build kb0 = Some kb →
  Forall2 sized (key_input kb0) (masks kb0) → mapM (field_bytes phv) (key_input kb0) = Some xs → Forall2 field_ok (key_input kb0) xs →
  ∃ ys, impl_order (key_input kb0) kb (looked_up kb0 xs) ys ∧ make_key kb phv [] = Some (concat ys).
Proof.
  intros Hlay Hb Hms E Hxs. pose proof (build_has_big_mask _ _ Hb) as Hbm. apply mapM_Some in E.
  pose proof (Forall2_length _ _ _ Hms) as Hlm. pose proof (Forall2_length _ _ _ E) as Hlx.
  destruct (impl_order_ex (key_input kb0) _ kb Hlay xs) as [xs' Ho]; [done|].
  destruct (impl_order_ex (key_input kb0) _ kb Hlay (masks kb0)) as [ms' Hom]; [done|].
  assert (mapM (field_bytes phv) (key_input kb) = Some xs') as Ex.
  { apply mapM_Some. exact (impl_order_Forall2 _ _ kb Hlay _ _ _ Ho E). }
  unfold make_key, apply_big_mask. rewrite Ex. cbn [mbind option_bind app]. rewrite Hbm. unfold looked_up. destruct (has_big_mask kb0).
  - exists (zip_with (zip_with Z.land) xs' ms'). split.
    + split; [rewrite length_zip_with, (proj1 Ho), (proj1 Hom); lia|]. intros i j Ei. pose proof (proj2 Ho _ _ Ei) as H1.
      pose proof (proj2 Hom _ _ Ei) as H2. pose proof (vget_Some_range _ _ _ Ei).
      apply (lay_inv _ _ _ Hlay) in Ei. pose proof (vget_Some_range _ _ _ Ei).
      rewrite !vget_nat in * by lia. rewrite !lookup_zip_with. by rewrite H1, H2.
    + rewrite (big_mask_parts _ _ kb ms' Hlay Hms Hom).
      assert (Forall2 (λ x m, length x = length m) xs' ms') as Hl.
      { pose proof (impl_order_Forall2 _ _ kb Hlay _ _ _ Ho Hxs) as H1. pose proof (impl_order_Forall2 _ _ kb Hlay _ _ _ Hom Hms) as H2.
        clear -H1 H2. revert ms' H2. induction H1 as [|f x fs xs [Hx _] H1 IH]; intros ms H2.
        - apply Forall2_nil_inv_l in H2 as ->. constructor.
        - apply Forall2_cons_inv_l in H2 as (m & ms' & Hm & H2 & ->). constructor; [unfold sized in *; lia|by apply IH]. }
      unfold ByteContainer.apply_mask. rewrite (proj2 (Z.eqb_eq _ _)); [by rewrite land_concat|]. by rewrite (masks_concat_length _ _ Hl).
  - exists xs'. by split.
Qed.

(** C28: with the key built from the fields of a table, whose prefix, if it has
    one, is of a field of whole bytes, the entry made of match parameters that
    pass the sanity check matches the key made from a packet iff each parameter
    matches its field, taken under its mask where the program gives masks: byte
    for byte, on the bits of the prefix, under the mask of the parameter, or
    between its bounds. The priorities that match are those below the greatest
    [int]. (For other widths see [lpm_odd_width].) *)
Theorem entry_matches kb0 kb params phv xs :
  pushed kb0 → build kb0 = Some kb → Forall whole_prefix (key_input kb0) →
  Forall2 param_typed (key_input kb0) params → match_params_sanity_check kb params = Some true →
  mapM (field_bytes phv) (key_input kb0) = Some xs → Forall2 field_ok (key_input kb0) xs →
  let ks := key_input kb0 in let w := nbytes_key kb in let ys := looked_up kb0 xs in
  ∃ d, make_key kb phv [] = Some d ∧ bytes_ok d ∧ Z.of_nat (length d) = w ∧
  (Forall exact_type ks →
    ∃ e, params_to_exact kb params = Some e ∧ (matches w e d ↔ all_match ks params ys)) ∧
  (Forall (λ f, mtype f ∈ [VALID; EXACT; LPM]) ks →
    (∃ l, 0 ≤ l < Z.of_nat (length ks) ∧ ∀ i f, vget ks i = Some f → mtype f = LPM ↔ i = l) →
    ∃ e, params_to_lpm kb params = Some e ∧ (matches w e d ↔ all_match ks params ys)) ∧
  (Forall (λ f, mtype f ≠ RANGE) ks →
    ∃ e, params_to_ternary kb params = Some e ∧
      ∀ pr, pr < INT_MAX → matches w (set_priority e pr) d ↔ all_match ks params ys) ∧
  (∃ e, params_to_range kb params = Some e ∧
      ∀ pr, pr < INT_MAX → matches w (set_priority e pr) d ↔ all_match ks params ys).
Proof.
  intros Hp Hb Hwh Hty Hs Ex Hxs ks w ys. destruct (build_ok kb0 Hp) as (? & ? & Hlay & _). simplify_eq.
  pose proof (sanity_ok _ _ _ _ Hlay Hty Hs) as Hfit.
  destruct (make_key_ok kb0 kb phv xs Hlay Hb (pushed_masks _ Hp) Ex Hxs) as (xs' & Hx & Ek).
  apply (looked_up_ok kb0 xs (pushed_masks _ Hp)) in Hxs. fold ks ys in Hlay, Hfit, Hxs, Hx, Hwh. clear Ex. clearbody ys. clear xs.
  rename ys into xs.
  assert (length params = length ks) as Hl by (symmetry; by eapply Forall2_length).
  destruct (impl_order_ex ks _ kb Hlay params Hl) as [ps Ho].
  pose proof (impl_params ks _ kb Hlay params Hfit ps Ho) as HP.
  pose proof (impl_fields ks _ kb Hlay xs Hxs xs' Hx) as HX.
  assert (Z.of_nat (length (concat xs')) = w) as Hw.
  { unfold w. rewrite (lay_nbytes _ _ _ Hlay). apply concat_sized. eapply Forall2_impl; [exact HX|by intros ?? []]. }
  clearbody w. pose proof (all_match_impl ks _ kb Hlay params Hfit xs Hxs ps Ho xs' Hx) as Hiff.
  exists (concat xs'). split; [done|]. split.
  { apply bytes_ok_concat. clear -HX. induction HX as [|f x fs xs [_ Hx] HX IH]; by constructor. }
  split; [done|]. setoid_rewrite Hiff.
  assert (∀ (Q : KeyF → Prop), Forall Q ks → Forall Q (key_input kb)) as Hperm.
  { intros Q HQ. assert (Forall2 (λ _ f, Q f) (key_input kb) (key_input kb)) as H2.
    { apply (impl_order_Forall2 ks _ kb Hlay (λ _ f, Q f) ks); [split; [apply (lay_len _ _ _ Hlay)|apply (lay_input _ _ _ Hlay)]|].
      clear -HQ. induction HQ; by constructor. }
    clear -H2. induction (key_input kb); [constructor|]. apply Forall2_cons in H2 as [? ?]. constructor; auto. }
  pose proof (Hperm _ Hwh) as Hwh'.
  split; [|split; [|split]].
  - intros Hk. pose proof (Hperm _ Hk) as Hk'.
    unfold params_to_exact. rewrite (loop_result ks _ kb Hlay params Hfit _ (λ _, tt) ps Ho) by done. msimpl.
    eexists. split; [done|]. by apply exact_all.
  - intros Hk (l & Hl0 & Hl1). pose proof (Hperm _ Hk) as Hk'.
    rewrite (lpm_entry ks _ kb Hlay params Hfit ps Ho Hk). eexists. split; [done|].
    destruct (sorted_lpm (key_input kb) (lay_sorted _ _ _ Hlay) Hk') as (es & f & Efs & Hes & Hf).
    + destruct (proj2 (vget_is_Some (key_mapping kb) l)) as [j Ej]; [by rewrite (lay_len_map _ _ _ Hlay)|].
      apply (lay_inv _ _ _ Hlay) in Ej. pose proof (vget_Some_range _ _ _ Ej).
      destruct (proj2 (vget_is_Some ks l)) as [f Ef]; [done|]. exists (Z.to_nat j), f.
      split; [|by apply (Hl1 l)]. rewrite <- Ef, <- (lay_input _ _ _ Hlay _ _ Ej). by rewrite vget_nat by lia.
    + assert (∀ i f, key_input kb !! i = Some f → mtype f = LPM → vget (inv_mapping kb) (Z.of_nat i) = Some l) as Hat.
      { intros i f Ef Hf. destruct (inv_at ks _ kb Hlay (Z.of_nat i)) as (i' & Ei & _ & _).
        { apply lookup_lt_Some in Ef. rewrite (lay_len _ _ _ Hlay) in Ef. lia. }
        pose proof (lay_input _ _ _ Hlay _ _ Ei) as E. rewrite vget_nat, Nat2Z.id, Ef in E by lia.
        symmetry in E. apply (Hl1 _ _ E) in Hf as ->. done. }
      intros i j f1 f2 E1 E2 H1 H2. pose proof (Hat _ _ E1 H1) as A1. pose proof (Hat _ _ E2 H2) as A2.
      apply (lay_inv _ _ _ Hlay) in A1, A2. simplify_eq. lia.
    + cbn [matches LPMMatchKey_spec]. unfold parts in *. rewrite Efs in *. apply Forall_app in Hwh' as [_ [Hwf _]%Forall_cons].
      apply (lpm_all es f ps xs'); try done. cbn. by rewrite (weights_perm _ _ (impl_order_perm ks _ kb Hlay params Hfit ps Ho)).
  - intros Hk. rewrite (ternary_entry ks _ kb Hlay params Hfit ps Ho Hk). eexists. split; [done|]. intros pr Hpr.
    cbn [matches TernaryMatchKey_spec set_priority TernaryMatchKey_priority]. rewrite <- Hw.
    rewrite <- (masked_all (key_input kb) ps xs' {| ternary_base :=
      {| data := concat (zip_with part (key_input kb) ps); version := 0 |}; mask := concat (mask_of <$> ps); priority := pr |})
      by (done || by apply Hperm). cbn. tauto.
  - destruct (range_entry ks _ kb Hlay params Hfit ps Ho) as (ws & -> & rs & os & Efs & Hrs & Hos & Hws).
    eexists. split; [done|]. intros pr Hpr. rewrite <- Hw. rewrite Efs in *. apply Forall_app in Hwh' as [_ Hwh'].
    rewrite <- (range_all rs os ps xs' {| range_base := {| ternary_base :=
      {| data := concat (zip_with part (rs ++ os) ps); version := 0 |}; mask := concat (mask_of <$> ps); priority := pr |};
      range_widths := ws |}) by done.
    cbn [matches RangeMatchKey_spec set_priority RangeMatchKey_priority]. cbn. tauto.
Qed.
End KeyMatch.

(** ** Examples *)
Module KeyMatchExamples.
Import MatchKey KeyMatch JudyLMap.

(** A port (9 bits, exact), an address (16 bits, LPM) and a header's validity,
    in the order of the program. *)
Definition route0 : MatchKeyBuilder :=
  push_back_valid_header
    (push_back_field (push_back_field empty_builder 0 0 16 LPM "dst") 0 1 9 EXACT "port") 0 "hdr".
Definition route : MatchKeyBuilder := default empty_builder (build route0).

Example route_layout : key_mapping route = [2; 1; 0] ∧ key_offsets route = [3; 1; 0] ∧ nbytes_key route = 5.
Proof. vm_compute. done. Qed.

Definition route_params : list MatchKeyParam :=
  [param_prefix LPM [10; 0] 8; param EXACT [255; 7]; param VALID [1]].

Lemma route_pushed : pushed route0.
Proof.
  apply push_back_pushed; [apply push_back_pushed; [apply push_back_pushed; [apply empty_pushed|..]|..]|..];
    vm_compute; done.
Qed.

Lemma route_typed : Forall2 param_typed (key_input route0) route_params.
Proof.
  repeat constructor; cbn; try done; try lia.
Qed.

Lemma route_types : Forall (λ f, mtype f ∈ [VALID; EXACT; LPM]) (key_input route0).
Proof. repeat constructor; cbn; set_solver. Qed.

Lemma route_whole : Forall whole_prefix (key_input route0).
Proof. repeat constructor; intros E; first [discriminate E|reflexivity]. Qed.

Lemma route_lpm : ∃ l, 0 ≤ l < Z.of_nat (length (key_input route0)) ∧
  ∀ i f, vget (key_input route0) i = Some f → mtype f = LPM ↔ i = l.
Proof.
  exists 0. split; [vm_compute; done|]. intros i f E.
  assert (0 ≤ i < 3) as Hi by exact (vget_Some_range _ _ _ E).
  destruct (decide (i = 0)) as [->|]; [|destruct (decide (i = 1)) as [->|];
    [|destruct (decide (i = 2)) as [->|]; [|lia]]]; vm_compute in E; simplify_eq; cbn; split; intros; done || lia.
Qed.

(** The port loses the bits it does not have. *)
Lemma params_roundtrip_witness :
  ∃ e, params_to_lpm route route_params = Some e ∧
    lpm_to_params route e = Some [param_prefix LPM [10; 0] 8; param EXACT [1; 7]; param VALID [1]].
Proof.
  apply (params_roundtrip route0 route route_params route_pushed eq_refl route_typed eq_refl).
  - apply route_types.
  - apply route_lpm.
Defined.

(** A packet with destination 10.9 and port 263. *)
Definition packet : Phv.PHV := default Phv.PhvExamples.empty_phv (
  let ht := (Headers.push_back_field (Headers.new_type 0) "dst" 16 false false false).1 in
  let ht := (Headers.push_back_field ht "port" 9 false false false).1 in
  let ht := (Headers.push_back_field ht "pad" 7 false false false).1 in
  phv ← Phv.push_back_header Phv.PhvExamples.empty_phv ht {[0; 1; 2; 3]} false;
  Phv.extract (H := GmpExample.Gmp_Z) phv 0 [10; 9; 131; 128] (λ _, None)).

Example packet_key : make_key route packet [] = Some [1; 1; 7; 10; 9].
Proof. vm_compute. reflexivity. Qed.

Lemma entry_matches_witness :
  ∃ d, make_key route packet [] = Some d ∧
    ∃ e, params_to_lpm route route_params = Some e ∧ matches (nbytes_key route) e d.
Proof.
  destruct (entry_matches route0 route route_params packet [[10; 9]; [1; 7]; [1]] route_pushed eq_refl route_whole
    route_typed eq_refl eq_refl) as (d & E & _ & _ & _ & (e & Ee & Hm) & _).
  - repeat constructor; vm_compute; done.
  - apply route_types.
  - apply route_lpm.
  - exists d. split; [exact E|]. exists e. split; [exact Ee|]. apply Hm.
    change ((∀ k, 0 ≤ k < 8 → bit_at [10; 9] k = bit_at [10; 0] k) ∧ [1; 7] = [1; 7] ∧ [1] = [1] ∧ True).
    refine (conj _ (conj eq_refl (conj eq_refl I))). intros k Hk. unfold bit_at. rewrite Z.div_small by lia. reflexivity.
Defined.

(** A prefix of a field whose width is not a number of bytes is counted from
    the padding of its first byte: an entry for all the 9 bits of a field, 511,
    is found for a packet with 385 in it. *)
Theorem lpm_odd_width :
  (kb ← build (push_back_field empty_builder 0 0 9 LPM "f");
   ok ← match_params_sanity_check kb [param_prefix LPM [1; 255] 9];
   e ← params_to_lpm kb [param_prefix LPM [1; 255] 9];
   t ← LPMTrieStructure.new (J := gmap Z Z) 2;
   t ← LPMTrieStructure.add_entry t e 7;
   found ← LPMTrieStructure.lookup t [1; 129];
   Some (ok, found)) = Some (true, Some 7).
Proof. vm_compute. reflexivity. Qed.
End KeyMatchExamples.
