(* ===== verification/TableKeys.v ===== *)
(** * The types of keys of match units (match_key_types.h, match_units.cpp)

    What a match unit uses of the type of its keys, beside the interface of the
    lookup structure: their conversion from and to match parameters and text,
    their priority and version. [TableKeyLaws] is what its proofs use. *)

From S2P Require Import Prelude ByteContainer MatchKeyTypes LpmTrie LookupStructures TernaryMap MatchKey.
From S2P Require Import KeyMatch.
Import MatchKeyTypes.

(** Text streams, as the words separated by blanks. *)
Inductive token := Num (n : Z) | Str (s : list Z).
Definition put_str (s : list Z) : list token := if decide (s = []) then [] else [Str s].
Definition get_num (ts : list token) : option (Z * list token) :=
  match ts with Num n :: ts' => Some (n, ts') | _ => None end.
Definition get_str (ts : list token) : option (list Z * list token) :=
  match ts with Str s :: ts' => Some (s, ts') | _ => None end.

(** What the match units use of the type of their keys. *)
Class TableKey (K : Type) := {
  tk_fields :: KeyFields K;
  tk_priority :: KeyPriority K;
  tk_params :: MatchParams K;
  default_key : K;
  serialize_key : K → list token;
  deserialize_key : K → list token → option (K * list token);
}.

Definition serialize_exact (_ : ExactMatchKey) : list token := [].
Definition deserialize_exact (k : ExactMatchKey) (ts : list token) : option (ExactMatchKey * list token) :=
  Some (k, ts).
Definition serialize_lpm (k : LPMMatchKey) : list token := [Num (prefix_length k)].
Definition deserialize_lpm (k : LPMMatchKey) (ts : list token) : option (LPMMatchKey * list token) :=
  '(n, ts) ← get_num ts;
  Some ({| lpm_base := lpm_base k; prefix_length := n |}, ts).

(** Ternary keys, and ranges as ternary keys. *)
Definition serialize_ternary (k : TernaryMatchKey) : list token :=
  put_str (ByteContainer.dump_hexstring false (mask k)) ++ [Num (priority k)].
Definition deserialize_ternary (k : TernaryMatchKey) (ts : list token) : option (TernaryMatchKey * list token) :=
  '(s, ts) ← get_str ts;
  m ← ByteContainer.of_hex s;
  '(p, ts) ← get_num ts;
  Some ({| ternary_base := ternary_base k; mask := m; priority := p |}, ts).

#[export] Instance ExactMatchKey_table : TableKey ExactMatchKey :=
  {| default_key := empty_ExactMatchKey; serialize_key := serialize_exact;
     deserialize_key := deserialize_exact |}.
#[export] Instance LPMMatchKey_table : TableKey LPMMatchKey :=
  {| default_key := empty_LPMMatchKey; serialize_key := serialize_lpm;
     deserialize_key := deserialize_lpm |}.
#[export] Instance TernaryMatchKey_table : TableKey TernaryMatchKey :=
  {| default_key := empty_TernaryMatchKey; serialize_key := serialize_ternary;
     deserialize_key := deserialize_ternary |}.
#[export] Instance RangeMatchKey_table : TableKey RangeMatchKey :=
  {| default_key := empty_RangeMatchKey; serialize_key k := serialize_ternary (range_base k);
     deserialize_key k ts := '(t, ts) ← deserialize_ternary (range_base k) ts;
       Some ({| range_base := t; range_widths := range_widths k |}, ts) |}.

(** ** Laws *)

(** The match types the fields of a table may have. *)
Class KeyKind (K : Type) := key_kind : list MatchKey.KeyF → Prop.
#[export] Instance ExactMatchKey_kind : KeyKind ExactMatchKey := Forall KeyMatch.exact_type.
#[export] Instance LPMMatchKey_kind : KeyKind LPMMatchKey :=
  Forall (λ f, MatchKey.mtype f ∈ [MatchKey.VALID; MatchKey.EXACT; MatchKey.LPM]).
#[export] Instance TernaryMatchKey_kind : KeyKind TernaryMatchKey :=
  Forall (λ f, MatchKey.mtype f ≠ MatchKey.RANGE).
#[export] Instance RangeMatchKey_kind : KeyKind RangeMatchKey := λ _, True.

Class TableKeyLaws (K L : Type)
    `{!TableKey K, !KeyKind K, !LookupStructure K L, !KeySpec K, !LookupContract K L} : Prop := {
  tk_fields_laws :: KeyFieldsLaws K;
  tk_spec_laws :: KeySpecLaws K;
  tk_version (k : K) v : same (set_version k v) k;
  tk_key_ok w (k : K) v : ls_key_ok w k → ls_key_ok w (set_version k v);
  tk_entry ks ms kb params : MatchKey.layout ks ms kb → key_kind (K := K) ks →
    Forall2 MatchKey.param_fits ks params →
    ∃ k : K, match_params_to_entry kb params = Some k ∧ bytes_ok (data (key_base k)) ∧
      Z.of_nat (length (data (key_base k))) = MatchKey.nbytes_key kb ∧
      ∀ d p, bytes_ok d → Z.of_nat (length d) = MatchKey.nbytes_key kb →
        ls_key_ok (MatchKey.nbytes_key kb) (set_priority (set_data k d) p);
}.

Section entries.
Import MatchKey KeyMatch.
Context (ks : list KeyF) (ms : list (list Z)) kb (Hlay : layout ks ms kb).
Context (params : list MatchKeyParam) (Hfit : Forall2 param_fits ks params).

Lemma concat_fields (g : KeyF → MatchKeyParam → list Z) ps :
  impl_order ks kb params ps → (∀ f p, param_fits f p → sized f (g f p) ∧ bytes_ok (g f p)) →
  bytes_ok (concat (zip_with g (key_input kb) ps)) ∧
  Z.of_nat (length (concat (zip_with g (key_input kb) ps))) = nbytes_key kb.
Proof.
  intros Ho Hg. pose proof (impl_order_Forall2 ks ms kb Hlay _ _ _ Ho Hfit) as HR. split.
  - apply bytes_ok_concat. clear -HR Hg. induction HR; [constructor|]. cbn. constructor; [by apply Hg|done].
  - rewrite (lay_nbytes _ _ _ Hlay). apply concat_sized. clear -HR Hg.
    induction HR; [constructor|]. cbn. constructor; [by apply Hg|done].
Qed.

Lemma mask0_field f p : param_fits f p → sized f (mask0 f (key p)) ∧ bytes_ok (mask0 f (key p)).
Proof. intros Hf. split; [by apply sized_mask0|]. apply bytes_ok_mask0, Hf. Qed.

Lemma part_field f p : param_fits f p → sized f (part f p) ∧ bytes_ok (part f p).
Proof.
  intros Hf. split; [by apply sized_part|]. unfold part. pose proof (mask0_field f p Hf) as [_ Hb].
  case_decide; [done|]. by apply bytes_ok_land.
Qed.

Lemma mask_field f p : param_fits f p → sized f (mask_of p) ∧ bytes_ok (mask_of p).
Proof.
  intros Hf. split; [by apply sized_mask_of|]. destruct Hf as (_ & _ & Hm & _). unfold mask_of.
  assert (∀ n b, byte_ok b → bytes_ok (replicate n b)) as Hrep by (intros; by apply Forall_replicate).
  destruct (type p); try done.
  - by constructor.
  - by apply Hrep.
  - unfold prefix_mask. apply Forall_app. split; [by apply Hrep|]. apply Forall_app. split; [|by apply Hrep].
    destruct (_ =? 0); constructor; [|constructor]. apply byte_ok_u8.
Qed.

Lemma weights_range : 0 ≤ weights params ≤ 8 * nbytes_key kb.
Proof.
  rewrite (lay_nbytes _ _ _ Hlay). rewrite (size_of_perm (key_input kb) ks); cycle 1.
  { apply (permuted_perm _ _ (inv_mapping kb)); [apply (lay_perm _ _ _ Hlay)|]. apply list_eq. intros j.
    rewrite !list_lookup_fmap. destruct (inv_mapping kb !! j) as [i|] eqn:E; cbn.
    - rewrite <- (lay_input _ _ _ Hlay i (Z.of_nat j)) by (by rewrite vget_nat, Nat2Z.id by lia).
      rewrite vget_nat, Nat2Z.id by lia. destruct (key_input kb !! j) eqn:E'; [done|].
      apply lookup_ge_None in E'. apply lookup_lt_Some in E.
      rewrite (lay_len _ _ _ Hlay) in E'. rewrite (lay_len_inv _ _ _ Hlay) in E. lia.
    - destruct (key_input kb !! j) eqn:E'; [|done]. apply lookup_ge_None in E. apply lookup_lt_Some in E'.
      rewrite (lay_len _ _ _ Hlay) in E'. rewrite (lay_len_inv _ _ _ Hlay) in E. lia. }
  clear -Hfit. induction Hfit as [|f p fs ps Hf H IH]; [done|].
  change (weights (p :: ps)) with (weight p + weights ps). rewrite size_of_cons.
  specialize (IH H). pose proof Hf as ([Et Hs] & _ & _ & Hm). unfold weight, sized in *.
  destruct (type p) eqn:E; try lia.
  - rewrite Hm. change (nbits_to_nbytes 8) with 1. lia.
  - pose proof (prefix_fits f p Hf E). lia.
Qed.
End entries.

Section instances.
Import MatchKey KeyMatch.

#[export] Instance ExactMatchKey_table_laws : TableKeyLaws ExactMatchKey exact_table.
Proof.
  constructor; [apply _|apply _|done|done|]. intros ks ms kb params Hlay Hk Hfit.
  destruct (impl_order_ex ks ms kb Hlay params) as [ps Ho]; [symmetry; by eapply Forall2_length|].
  cbn. unfold params_to_exact.
  rewrite (loop_result ks ms kb Hlay params Hfit _ (λ _, tt) ps Ho) by done. msimpl.
  destruct (concat_fields ks ms kb Hlay params Hfit _ ps Ho mask0_field) as [Hb Hl].
  eexists. split; [done|]. split; [done|]. split; [done|]. intros d p Hd Hdl. by split.
Qed.

#[export] Instance LPMMatchKey_table_laws {J} `{JudyL J} : TableKeyLaws LPMMatchKey (LPMTrieStructure.LPMTrie J).
Proof.
  constructor; [apply _|apply _|done|done|]. intros ks ms kb params Hlay Hk Hfit.
  destruct (impl_order_ex ks ms kb Hlay params) as [ps Ho]; [symmetry; by eapply Forall2_length|].
  cbn [match_params_to_entry tk_params LPMMatchKey_table LPMMatchKey_params].
  rewrite (lpm_entry ks ms kb Hlay params Hfit ps Ho Hk).
  destruct (concat_fields ks ms kb Hlay params Hfit _ ps Ho mask0_field) as [Hb Hl].
  eexists. split; [done|]. split; [done|]. split; [done|]. intros d p Hd Hdl. cbn.
  pose proof (weights_range ks ms kb Hlay params Hfit). split; [|done]. split; [done|]. cbn. lia.
Qed.

#[export] Instance TernaryMatchKey_table_laws :
  TableKeyLaws TernaryMatchKey (TernaryMap.Map TernaryMatchKey).
Proof.
  constructor; [apply _|apply _|done|done|]. intros ks ms kb params Hlay Hk Hfit.
  destruct (impl_order_ex ks ms kb Hlay params) as [ps Ho]; [symmetry; by eapply Forall2_length|].
  cbn [match_params_to_entry tk_params TernaryMatchKey_table TernaryMatchKey_params].
  rewrite (ternary_entry ks ms kb Hlay params Hfit ps Ho Hk).
  destruct (concat_fields ks ms kb Hlay params Hfit _ ps Ho part_field) as [Hb Hl].
  destruct (concat_fields ks ms kb Hlay params Hfit _ ps Ho mask_field) as [Hmb Hml].
  rewrite zip_with_snd in Hmb, Hml by (rewrite (lay_len _ _ _ Hlay); symmetry; apply Ho).
  eexists. split; [done|]. split; [done|]. split; [done|]. intros d p Hd Hdl. by split_and!.
Qed.

#[export] Instance RangeMatchKey_table_laws :
  TableKeyLaws RangeMatchKey (TernaryMap.Map RangeMatchKey).
Proof.
  constructor; [apply _|apply _|done|done|]. intros ks ms kb params Hlay _ Hfit.
  destruct (impl_order_ex ks ms kb Hlay params) as [ps Ho]; [symmetry; by eapply Forall2_length|].
  cbn [match_params_to_entry tk_params RangeMatchKey_table RangeMatchKey_params].
  destruct (range_entry ks ms kb Hlay params Hfit ps Ho) as (ws & -> & rs & os & Efs & _ & _ & Hws).
  destruct (concat_fields ks ms kb Hlay params Hfit _ ps Ho part_field) as [Hb Hl].
  destruct (concat_fields ks ms kb Hlay params Hfit _ ps Ho mask_field) as [Hmb Hml].
  rewrite zip_with_snd in Hmb, Hml by (rewrite (lay_len _ _ _ Hlay); symmetry; apply Ho).
  pose proof (lay_nbits _ _ _ Hlay) as Hn. rewrite (lay_nbytes _ _ _ Hlay) in *. rewrite Efs in Hn.
  apply Forall_app in Hn as [Hrs Hos].
  eexists. split; [done|]. split; [done|]. split; [done|]. intros d p Hd Hdl. split; [by split_and!|]. cbn. split.
  - rewrite Hws. clear -Hrs. induction Hrs; [constructor|]. rewrite fmap_cons. constructor; [|done].
    by apply nbits_to_nbytes_pos.
  - rewrite Hws, total_width_size, Efs, size_of_app. pose proof (size_of_nonneg os Hos). lia.
Qed.
End instances.
