(* ===== verification/Counters.v ===== *)
(** * Counters and registers (include/bm/bm_sim/counters.h, src/bm_sim/counters.cpp, src/bm_sim/stateful.cpp)

    Byte and packet counters, of 64 bits, and arrays of them. The atomic types
    are plain values here: each operation is one step. Then arrays of registers. *)

From S2P Require Import Prelude Data.

Module Counters.

Record Counter := { bytes : Z; packets : Z }.

#[export] Instance Counter_eq_dec : EqDecision Counter.
Proof. solve_decision. Defined.

Definition zero : Counter := {| bytes := 0; packets := 0 |}.

(** [increment_counter], given [pkt.get_ingress_length()]. *)
Definition increment_counter (c : Counter) (ingress_length : Z) : Counter :=
  {| bytes := u64 (bytes c + ingress_length); packets := u64 (packets c + 1) |}.

Definition query_counter (c : Counter) : Z * Z := (bytes c, packets c).

Definition reset_counter (_ : Counter) : Counter := zero.

Definition write_counter (_ : Counter) (bytes packets : Z) : Counter :=
  {| bytes := u64 bytes; packets := u64 packets |}.

Definition CounterArray := list Counter.

Definition new (size : Z) : CounterArray := replicate (Z.to_nat size) zero.
Definition get_counter (a : CounterArray) (idx : Z) : option Counter := vget a idx.
Definition reset_counters (a : CounterArray) : CounterArray := reset_counter <$> a.

(** A sequence of packets of given lengths. *)
Definition count (c : Counter) (lengths : list Z) : Counter := foldl increment_counter c lengths.

Lemma count_spec lengths : ∀ c,
  query_counter (count c lengths) =
    (if decide (lengths = []) then bytes c else u64 (bytes c + foldr Z.add 0 lengths),
     if decide (lengths = []) then packets c else u64 (packets c + Z.of_nat (length lengths))).
Proof.
  unfold count. induction lengths as [|n lengths IH]; intros c; [done|].
  cbn [foldl]. rewrite IH. rewrite (decide_False (P := n :: lengths = [])) by done.
  rewrite (decide_False (P := n :: lengths = [])) by done. cbn [foldr length bytes packets increment_counter].
  destruct (decide (lengths = [])) as [->|Hne]; cbn [foldr length].
  - by rewrite Z.add_0_r.
  - unfold wrap. rewrite !Z.add_mod_idemp_l by done. do 2 f_equal; lia.
Qed.
End Counters.

(** * Registers (include/bm/bm_sim/stateful.h, src/bm_sim/stateful.cpp)

    Arrays of registers of some width. A write masks the value, and calls the
    notifiers of the array with the index written: the index is returned. The
    locks that [RegisterSync] takes are left out, the arrays it takes them for
    are kept. *)

Module Registers.

Record RegisterArray := { bitwidth : Z; registers : list Data.Data }.

Definition new_register : Data.Data := {| Data.value := 0; Data.arith := true |}.

Definition new (size bitwidth : Z) : RegisterArray :=
  {| bitwidth := bitwidth; registers := replicate (Z.to_nat size) new_register |}.

Definition size (a : RegisterArray) : Z := Z.of_nat (length (registers a)).

(** [operator[]] and [at], which fail the same way here. *)
Definition at_ (a : RegisterArray) (idx : Z) : option Data.Data := vget (registers a) idx.

(** The mask of a register of [nbits] bits. *)
Definition register_mask (nbits : Z) : Z := Z.shiftl 1 nbits - 1.

(** [Register::export_bytes], on a new value. *)
Definition export_bytes (nbits value : Z) : Data.Data :=
  {| Data.value := Z.land value (register_mask nbits); Data.arith := true |}.

(** [Data::set] on a register: also the index that the notifiers are called with. *)
Definition set (a : RegisterArray) (idx value : Z) : option (RegisterArray * Z) :=
  rs ← vset (registers a) idx (export_bytes (bitwidth a) value);
  Some ({| bitwidth := bitwidth a; registers := rs |}, idx).

Definition reset_state (a : RegisterArray) : RegisterArray := new (size a) (bitwidth a).

(** [RegisterSync]: the arrays to lock. *)
Definition RegisterSync : Type := list Z.

Definition add_register_array (s : RegisterSync) (array : Z) : RegisterSync :=
  if decide (array ∈ s) then s else s ++ [array].

Definition merge_from (s other : RegisterSync) : RegisterSync := foldl add_register_array s other.

(** ** Proof *)

(** Every register holds a number of the width of its array. *)
Definition array_ok (a : RegisterArray) : Prop :=
  0 ≤ bitwidth a ∧ Forall (λ d, 0 ≤ Data.value d < 2 ^ bitwidth a ∧ Data.arith d = true) (registers a).

Lemma register_mask_wrap nbits v : 0 ≤ nbits → Z.land v (register_mask nbits) = wrap nbits v.
Proof. intros Hn. unfold register_mask, wrap. rewrite Z.shiftl_1_l, <-Z.land_ones by done. f_equal. rewrite Z.ones_equiv. lia. Qed.

Lemma new_array_ok n w : 0 ≤ w → array_ok (new n w).
Proof.
  intros Hw. split; [done|]. apply Forall_replicate. cbn. split; [|done]. split; [lia|]. apply Z.pow_pos_nonneg; lia.
Qed.

Lemma set_array_ok a idx v a' i : array_ok a → set a idx v = Some (a', i) → array_ok a' ∧ i = idx ∧ bitwidth a' = bitwidth a ∧
  ∀ j, at_ a' j = if decide (j = idx) then Some (export_bytes (bitwidth a) v) else at_ a j.
Proof.
  intros [Hw Ha] E. unfold set in E. destruct (vset _ _ _) as [rs|] eqn:Ev; [|done]. injection E as <- <-.
  split; [|split; [done|split; [done|]]]; cbn.
  - split; [done|]. apply vset_inv in Ev as [_ ->]. cbn. apply Forall_insert; [done|]. cbn. rewrite register_mask_wrap by done.
    split; [by apply wrap_range|done].
  - intros j. unfold at_. cbn. apply (vget_vset _ _ _ _ j Ev).
Qed.

Lemma merge_from_elem s other x : x ∈ merge_from s other ↔ x ∈ s ∨ x ∈ other.
Proof.
  unfold merge_from. revert s. induction other as [|y other IH]; intros s; cbn [foldl]; [set_solver|]. rewrite IH. unfold add_register_array.
  case_decide; set_solver.
Qed.

Lemma merge_from_NoDup s other : NoDup s → NoDup (merge_from s other).
Proof.
  unfold merge_from. revert s. induction other as [|y other IH]; intros s Hs; cbn [foldl]; [done|]. apply IH. unfold add_register_array.
  case_decide; [done|]. apply NoDup_app. split; [done|]. split; [set_solver|]. apply NoDup_singleton.
Qed.
End Registers.
