(* ===== verification/MatchUnit.v ===== *)
(** * Match units (include/bm/bm_sim/match_units.h, src/bm_sim/match_units.cpp)

    The entries of a table: handles, versions, metadata, and the lookup
    structure that finds them. [MatchUnitAbstract_], [MatchUnitAbstract] and
    [MatchUnitGeneric] are one record here, over the interface of the lookup
    structures ([LookupStructure]) and of the handle manager. The time is an
    argument of the operations that read the clock; direct meters and the
    textual dumps are not modelled. *)

From S2P Require Import Prelude HandleMgr ByteContainer Data Fields Headers Phv MatchKeyTypes.
From S2P Require Import LookupStructures MatchKey TableKeys Counters.
Import MatchKeyTypes.

Inductive MatchErrorCode :=
  | SUCCESS | TABLE_FULL | INVALID_HANDLE | EXPIRED_HANDLE | COUNTERS_DISABLED | METERS_DISABLED
  | AGEING_DISABLED | INVALID_TABLE_NAME | INVALID_ACTION_NAME | WRONG_TABLE_TYPE | INVALID_MBR_HANDLE
  | MBR_STILL_USED | MBR_ALREADY_IN_GRP | MBR_NOT_IN_GRP | INVALID_GRP_HANDLE | GRP_STILL_USED
  | EMPTY_GRP | DUPLICATE_ENTRY | BAD_MATCH_KEY | INVALID_METER_OPERATION | DEFAULT_ACTION_IS_CONST
  | DEFAULT_ENTRY_IS_CONST | NO_DEFAULT_ENTRY | INVALID_ACTION_PROFILE_NAME
  | NO_ACTION_PROFILE_SELECTION | IMMUTABLE_TABLE_ENTRIES | BAD_ACTION_DATA | ERROR.

#[export] Instance MatchErrorCode_eq_dec : EqDecision MatchErrorCode.
Proof. solve_decision. Defined.

(** A method's error code, or what it returns through its output parameters. *)
Inductive Outcome (A : Type) := Err (e : MatchErrorCode) | Ok (a : A).
Arguments Err {A} e.
Arguments Ok {A} a.

Definition code {A} (r : Outcome A) : MatchErrorCode := match r with Err e => e | Ok _ => SUCCESS end.

Module MatchUnit.

(** [HANDLE_VERSION], [HANDLE_INTERNAL], [HANDLE_SET] *)
Definition HANDLE_VERSION (h : Z) : Z := Z.shiftr h 24.
Definition HANDLE_INTERNAL (h : Z) : Z := Z.land h 0x00ffffff.
Definition HANDLE_SET (v i : Z) : Z := u32 (Z.lor (Z.shiftl (Z.land v 0xff) 24) i).
Definition MAX_TABLE_SIZE : Z := 0x00ffffff.

Record EntryMeta := {
  ts : Z;               (** milliseconds *)
  timeout_ms : Z;
  counter : Counters.Counter;
  meta_version : Z;
}.

Definition new_meta : EntryMeta :=
  {| ts := 0; timeout_ms := 0; counter := Counters.zero; meta_version := 0 |}.

(** [EntryMeta::reset], at time [now]. *)
Definition reset_meta (m : EntryMeta) (now : Z) : EntryMeta :=
  {| ts := now; timeout_ms := timeout_ms m; counter := Counters.reset_counter (counter m);
     meta_version := meta_version m |}.
Definition with_meta_version (m : EntryMeta) (v : Z) : EntryMeta :=
  {| ts := ts m; timeout_ms := timeout_ms m; counter := counter m; meta_version := v |}.
Definition with_timeout (m : EntryMeta) (ttl_ms now : Z) : EntryMeta :=
  {| ts := now; timeout_ms := ttl_ms; counter := counter m; meta_version := meta_version m |}.

Record Entry (K V : Type) := { key : K; value : V }.
Arguments key {K V} _.
Arguments value {K V} _.

Record Mu (K V L J : Type) := {
  size : Z;
  num_entries : Z;
  nbytes_key : Z;
  handles : J;
  match_key_builder : MatchKey.MatchKeyBuilder;
  entry_meta : list EntryMeta;
  entries : list (Entry K V);
  lookup_structure : L;
}.
Arguments size {K V L J} _.
Arguments num_entries {K V L J} _.
Arguments nbytes_key {K V L J} _.
Arguments handles {K V L J} _.
Arguments match_key_builder {K V L J} _.
Arguments entry_meta {K V L J} _.
Arguments entries {K V L J} _.
Arguments lookup_structure {K V L J} _.

Section definitions.
Context {K V L J : Type} `{!TableKey K, !LookupStructure K L, !Judy1 J}.
Context (default_value : V).
Implicit Types (m : Mu K V L J) (h handle : Z) (params : list MatchKey.MatchKeyParam).

Definition with_handles m (n : Z) (j : J) : Mu K V L J :=
  {| size := size m; num_entries := n; nbytes_key := nbytes_key m; handles := j;
     match_key_builder := match_key_builder m; entry_meta := entry_meta m; entries := entries m;
     lookup_structure := lookup_structure m |}.
Definition with_meta m (ms : list EntryMeta) : Mu K V L J :=
  {| size := size m; num_entries := num_entries m; nbytes_key := nbytes_key m; handles := handles m;
     match_key_builder := match_key_builder m; entry_meta := ms; entries := entries m;
     lookup_structure := lookup_structure m |}.
Definition with_entries m (es : list (Entry K V)) (l : L) : Mu K V L J :=
  {| size := size m; num_entries := num_entries m; nbytes_key := nbytes_key m; handles := handles m;
     match_key_builder := match_key_builder m; entry_meta := entry_meta m; entries := es;
     lookup_structure := l |}.

Definition default_entry : Entry K V := {| key := default_key; value := default_value |}.
Definition key_version (e : Entry K V) : Z := version (key_base (key e)).

(** The constructors. A size above [MAX_TABLE_SIZE] is only reported: what they
    reduce is their parameter, after it was used. *)
Definition new (size : Z) (kb : MatchKey.MatchKeyBuilder) (l : L) : option (Mu K V L J) :=
  kb' ← MatchKey.build kb;
  Some {| size := size; num_entries := 0; nbytes_key := MatchKey.nbytes_key kb; handles := J1_null;
          match_key_builder := kb'; entry_meta := replicate (Z.to_nat size) new_meta;
          entries := replicate (Z.to_nat size) default_entry; lookup_structure := l |}.

Definition get_and_set_handle m : Mu K V L J * Outcome Z :=
  if size m <=? num_entries m then (m, Err TABLE_FULL) else
  match HandleMgr.get_handle (handles m) with
  | (j, None) => (with_handles m (num_entries m) j, Err ERROR)
  | (j, Some handle) => (with_handles m (num_entries m + 1) j, Ok handle)
  end.

Definition unset_handle m (handle_ : Z) : Mu K V L J * MatchErrorCode :=
  match HandleMgr.release_handle (handles m) handle_ with
  | (j, 0) => (with_handles m (num_entries m - 1) j, SUCCESS)
  | (j, _) => (with_handles m (num_entries m) j, INVALID_HANDLE)
  end.

Definition valid_handle_ m (handle_ : Z) : bool := HandleMgr.valid_handle (handles m) handle_.
Definition valid_handle m handle : bool := valid_handle_ m (HANDLE_INTERNAL handle).

Definition get_entry_meta m handle : option EntryMeta := vget (entry_meta m) (HANDLE_INTERNAL handle).

Definition reset_counters m : Mu K V L J :=
  with_meta m ((λ e, {| ts := ts e; timeout_ms := timeout_ms e;
    counter := Counters.reset_counter (counter e); meta_version := meta_version e |}) <$> entry_meta m).

Definition set_entry_ttl m handle (ttl_ms now : Z) : option (Mu K V L J * MatchErrorCode) :=
  let handle_ := HANDLE_INTERNAL handle in
  if negb (valid_handle_ m handle_) then Some (m, INVALID_HANDLE) else
  ms ← vupd (entry_meta m) handle_ (λ e, with_timeout e ttl_ms now);
  Some (with_meta m ms, SUCCESS).

(** The handles whose entries have not been hit for their timeout. *)
Fixpoint sweep_loop m (hs : list Z) (now_ms : Z) : option (list Z) :=
  match hs with
  | [] => Some []
  | h :: hs' =>
      e ← vget (entry_meta m) h;
      if ts e <=? now_ms then
        rest ← sweep_loop m hs' now_ms;
        Some (if (0 <? timeout_ms e) && (timeout_ms e <=? now_ms - ts e)
              then HANDLE_SET (meta_version e) h :: rest else rest)
      else None
  end.

Definition sweep_entries m (fuel : nat) (now_ms : Z) : option (list Z) :=
  hs ← HandleMgr.iterate fuel (handles m);
  sweep_loop m hs now_ms.

(** *** [MatchUnitGeneric] *)

Definition lookup_key m (k : list Z) : option (Mu K V L J * option (Z * V)) :=
  '(l, r) ← lookup (lookup_structure m) k;
  let m := with_entries m (entries m) l in
  match r with
  | None => Some (m, None)
  | Some handle_ =>
      e ← vget (entries m) handle_;
      Some (m, Some (HANDLE_SET (key_version e) handle_, value e))
  end.

Definition build_entry (KeyB : MatchKey.MatchKeyBuilder) params (priority : Z) : option (Outcome K) :=
  ok ← MatchKey.match_params_sanity_check KeyB params;
  if negb ok then Some (Err BAD_MATCH_KEY) else
  k ← match_params_to_entry KeyB params;
  d ← MatchKey.apply_big_mask KeyB (data (key_base k));
  Some (Ok (set_priority (set_data k d) priority)).

Definition build_entry_from_match_key m params (priority : Z) : option (Outcome K) :=
  build_entry (match_key_builder m) params priority.

Definition add_entry_ m params (v : V) (priority : Z) : option (Mu K V L J * Outcome Z) :=
  r ← build_entry_from_match_key m params priority;
  match r with
  | Err e => Some (m, Err e)
  | Ok k =>
      dup ← entry_exists (lookup_structure m) k;
      if (dup : bool) then Some (m, Err DUPLICATE_ENTRY) else
      match get_and_set_handle m with
      | (m, Err e) => Some (m, Err e)
      | (m, Ok handle_) =>
          e ← vget (entries m) handle_;
          let version := key_version e in
          let e := {| key := set_version k version; value := v |} in
          es ← vset (entries m) handle_ e;
          l ← add_entry (lookup_structure m) (key e) handle_;
          Some (with_entries m es l, Ok (HANDLE_SET version handle_))
      end
  end.

Definition delete_entry_ m handle : option (Mu K V L J * MatchErrorCode) :=
  let handle_ := HANDLE_INTERNAL handle in
  if negb (valid_handle_ m handle_) then Some (m, INVALID_HANDLE) else
  e ← vget (entries m) handle_;
  if negb (HANDLE_VERSION handle =? key_version e) then Some (m, EXPIRED_HANDLE) else
  let e := {| key := set_version (key e) (u32 (key_version e + 1)); value := value e |} in
  es ← vset (entries m) handle_ e;
  l ← delete_entry (lookup_structure m) (key e);
  Some (unset_handle (with_entries m es l) handle_).

Definition modify_entry_ m handle (v : V) : option (Mu K V L J * MatchErrorCode) :=
  let handle_ := HANDLE_INTERNAL handle in
  if negb (valid_handle_ m handle_) then Some (m, INVALID_HANDLE) else
  e ← vget (entries m) handle_;
  if negb (HANDLE_VERSION handle =? key_version e) then Some (m, EXPIRED_HANDLE) else
  es ← vset (entries m) handle_ {| key := key e; value := v |};
  Some (with_entries m es (lookup_structure m), SUCCESS).

Definition get_value_ m handle : option (Outcome V) :=
  let handle_ := HANDLE_INTERNAL handle in
  if negb (valid_handle_ m handle_) then Some (Err INVALID_HANDLE) else
  e ← vget (entries m) handle_;
  if negb (HANDLE_VERSION handle =? key_version e) then Some (Err EXPIRED_HANDLE) else Some (Ok (value e)).

Definition get_entry_ m handle : option (Outcome (list MatchKey.MatchKeyParam * V * Z)) :=
  let handle_ := HANDLE_INTERNAL handle in
  if negb (valid_handle m handle_) then Some (Err INVALID_HANDLE) else
  e ← vget (entries m) handle_;
  if negb (HANDLE_VERSION handle =? key_version e) then Some (Err EXPIRED_HANDLE) else
  params ← entry_to_match_params (match_key_builder m) (key e);
  Some (Ok (params, value e, get_priority (key e))).

Definition retrieve_handle_ m params (priority : Z) : option (Outcome Z) :=
  r ← build_entry_from_match_key m params priority;
  match r with
  | Err e => Some (Err e)
  | Ok k =>
      r ← retrieve_handle (lookup_structure m) k;
      match r with
      | None => Some (Err BAD_MATCH_KEY)
      | Some handle_ =>
          e ← vget (entries m) handle_;
          Some (Ok (HANDLE_SET (key_version e) handle_))
      end
  end.

Definition reset_state_ m : option (Mu K V L J) :=
  l ← clear (lookup_structure m);
  Some (with_entries m (replicate (Z.to_nat (size m)) default_entry) l).

(** *** [MatchUnitAbstract] *)

(** Of a packet: its headers, length and time of arrival. *)
Definition lookup_pkt m (phv : Phv.PHV) (ingress_length ingress_ts_ms : Z)
    : option (Mu K V L J * option (Z * V)) :=
  k ← MatchKey.make_key (match_key_builder m) phv [];
  '(m, res) ← lookup_key m k;
  match res with
  | None => Some (m, None)
  | Some (handle, v) =>
      ms ← vupd (entry_meta m) (HANDLE_INTERNAL handle) (λ e,
        {| ts := ingress_ts_ms; timeout_ms := timeout_ms e;
           counter := Counters.increment_counter (counter e) ingress_length;
           meta_version := meta_version e |});
      Some (with_meta m ms, Some (handle, v))
  end.

Definition add_entry m params (v : V) (priority now : Z) : option (Mu K V L J * Outcome Z) :=
  '(m, rc) ← add_entry_ m params v priority;
  match rc with
  | Err e => Some (m, Err e)
  | Ok handle =>
      ms ← vupd (entry_meta m) (HANDLE_INTERNAL handle)
        (λ e, with_meta_version (reset_meta e now) (HANDLE_VERSION handle));
      Some (with_meta m ms, Ok handle)
  end.

Definition reset_state m : option (Mu K V L J) :=
  let m := with_handles m 0 (HandleMgr.clear (handles m)) in
  let m := with_meta m (replicate (Z.to_nat (size m)) new_meta) in
  reset_state_ m.

(** *** Serialization *)
Context (value_serialize : V → option (list token)) (value_deserialize : list token → option (V * list token)).

Fixpoint serialize_loop m (hs : list Z) : option (list token) :=
  match hs with
  | [] => Some []
  | handle_ :: hs' =>
      e ← vget (entries m) handle_;
      meta ← vget (entry_meta m) handle_;
      if meta_version meta =? key_version e then
        v ← value_serialize (value e);
        rest ← serialize_loop m hs';
        Some ([Num handle_; Num (key_version e)]
          ++ put_str (ByteContainer.dump_hexstring false (data (key_base (key e))))
          ++ serialize_key (key e) ++ v ++ [Num (timeout_ms meta)] ++ rest)
      else None
  end.

Definition serialize_ m (fuel : nat) : option (list token) :=
  hs ← HandleMgr.iterate fuel (handles m);
  rest ← serialize_loop m hs;
  Some (Num (num_entries m) :: rest).

Fixpoint deserialize_loop (n : nat) m (now : Z) (tks : list token) : option (Mu K V L J * list token) :=
  match n with
  | O => Some (m, tks)
  | S n' =>
      '(handle_, tks) ← get_num tks;
      let '(j, error) := HandleMgr.set_handle (handles m) handle_ in
      let m := with_handles m (num_entries m) j in
      if negb (error =? 0) then None else
      '(version, tks) ← get_num tks;
      '(key_hex, tks) ← get_str tks;
      d ← ByteContainer.of_hex key_hex;
      '(k, tks) ← deserialize_key (set_data default_key d) tks;
      '(v, tks) ← value_deserialize tks;
      let k := set_version k version in
      es ← vset (entries m) handle_ {| key := k; value := v |};
      l ← LookupStructures.add_entry (lookup_structure m) k handle_;
      let m := with_entries m es l in
      '(timeout, tks) ← get_num tks;
      ms ← vupd (entry_meta m) handle_ (λ e,
        {| ts := now; timeout_ms := timeout; counter := Counters.zero; meta_version := version |});
      deserialize_loop n' (with_meta m ms) now tks
  end.

Definition deserialize_ m (now : Z) (tks : list token) : option (Mu K V L J * list token) :=
  '(n, tks) ← get_num tks;
  deserialize_loop (Z.to_nat n) (with_handles m n (handles m)) now tks.
End definitions.
End MatchUnit.
