(* ===== verification/MatchUnitSpec.v ===== *)
(** * The specification of match units, and that they implement it

    A table is, for its users, a finite map from the handles in use to keys and
    values, with a version and metadata for every slot. [step] says what each
    operation does to it; [match_unit_refines] that the match unit does that,
    with any lookup structure and type of keys that keep their contracts. *)

From stdpp Require Import functions.
From S2P Require Import Prelude HandleMgr ByteContainer Data Fields Headers Phv MatchKeyTypes.
From S2P Require Import LookupStructures MatchKey TableKeys Counters MatchUnit.
Import MatchKeyTypes.

Module MatchUnitSpec.
Import MatchUnit.

Lemma handle_parts (v i : Z) : 0 ≤ i < 2 ^ 24 →
  HANDLE_INTERNAL (HANDLE_SET v i) = i ∧ HANDLE_VERSION (HANDLE_SET v i) = v mod 256.
Proof.
  intros Hi. unfold HANDLE_INTERNAL, HANDLE_VERSION, HANDLE_SET.
  change 255 with (Z.ones 8). change 0x00ffffff with (Z.ones 24).
  rewrite !Z.land_ones by lia. change (2 ^ 8) with 256.
  pose proof (Z.mod_pos_bound v 256 ltac:(lia)) as Hv. set (x := v mod 256) in *. clearbody x.
  assert (Z.lor (Z.shiftl x 24) i = x * 2 ^ 24 + i) as E.
  { assert (Z.land (Z.shiftl x 24) i = 0) as Hno.
    { apply Z.bits_inj'. intros n Hn. rewrite Z.land_spec, Z.bits_0.
      destruct (decide (n < 24)); [by rewrite Z.shiftl_spec_low by lia|].
      rewrite (testbit_high i 24) by lia. apply andb_false_r. }
    by rewrite <- Z.lxor_lor, <- Z.add_nocarry_lxor, Z.shiftl_mul_pow2. }
  rewrite E, wrap_small by lia. split.
  - rewrite Z.add_comm, Z.mod_add, Z.mod_small; lia.
  - rewrite Z.shiftr_div_pow2, Z.add_comm, Z.div_add, Z.div_small; lia.
Qed.

(** ** Keys from parameters *)
Section entry.
Context {K L : Type} `{TableKeyLaws K L}.
Context (ks : list MatchKey.KeyF) (ms : list (list Z)) (kb : MatchKey.MatchKeyBuilder).
Context (Hlay : MatchKey.layout ks ms kb) (Hkind : key_kind (K := K) ks).

(** Parameters with bytes and prefix lengths in them. *)
Definition params_typed (params : list MatchKey.MatchKeyParam) : Prop :=
  ∀ i f p, ks !! i = Some f → params !! i = Some p → MatchKey.param_typed f p.

Lemma param_ok_total f p : is_Some (MatchKey.param_ok f p).
Proof.
  unfold MatchKey.param_ok. destruct (negb (bool_decide _)); [done|].
  destruct (Z.eqb_spec (Z.of_nat (length (MatchKey.key p))) (MatchKey.nbits_to_nbytes (MatchKey.nbits f)))
    as [El|]; [|done]. cbn [negb].
  destruct (MatchKey.type p); try done.
  destruct (Z.eqb_spec (Z.of_nat (length (MatchKey.p_mask p))) (MatchKey.nbits_to_nbytes (MatchKey.nbits f)))
    as [Em|]; [|done]. cbn [negb]. unfold memcmp.
  destruct (decide _) as [|Hn]; [eexists; done|]. destruct Hn. lia.
Qed.

Lemma sanity_total params : is_Some (MatchKey.match_params_sanity_check kb params).
Proof.
  unfold MatchKey.match_params_sanity_check.
  destruct (Nat.eqb_spec (length params) (length (MatchKey.key_input kb))) as [Hl|]; [|done].
  rewrite (MatchKey.lay_len _ _ _ Hlay) in Hl.
  assert (Forall (λ j, 0 ≤ j < Z.of_nat (length ks)) (seqZ 0 (Z.of_nat (length (MatchKey.inv_mapping kb))))) as Hj.
  { rewrite (MatchKey.lay_len_inv _ _ _ Hlay). apply Forall_forall. intros j Hj%elem_of_seqZ. lia. }
  induction Hj as [|j js Hj Hjs IH]; [done|]. cbn [MatchKey.sanity_loop].
  destruct (MatchKey.inv_at ks ms kb Hlay j Hj) as (i & Ei & _ & Hi). rewrite Ei. msimpl.
  destruct (proj2 (vget_is_Some params i)) as [p Ep]; [lia|]. rewrite Ep. msimpl.
  rewrite (MatchKey.lay_input _ _ _ Hlay _ _ Ei).
  destruct (proj2 (vget_is_Some ks i)) as [f Ef]; [done|]. rewrite Ef. msimpl.
  destruct (param_ok_total f p) as [[] Eb]; rewrite Eb; done.
Qed.

Lemma apply_big_mask_ok d :
  bytes_ok d → Z.of_nat (length d) = MatchKey.nbytes_key kb →
  ∃ d', MatchKey.apply_big_mask kb d = Some d' ∧ bytes_ok d' ∧ Z.of_nat (length d') = MatchKey.nbytes_key kb.
Proof.
  intros Hd Hl. unfold MatchKey.apply_big_mask, ByteContainer.apply_mask.
  destruct (MatchKey.has_big_mask kb); [|by exists d]. rewrite (MatchKey.lay_mask_len _ _ _ Hlay), Hl, Z.eqb_refl.
  eexists. split; [done|]. pose proof (MatchKey.lay_mask_len _ _ _ Hlay). split.
  - clear -Hd. generalize (MatchKey.big_mask kb) as m.
    induction Hd as [|b d Hb Hd IH]; intros [|x m]; try by constructor.
    constructor; [by apply byte_ok_land|apply IH].
  - rewrite length_zip_with. lia.
Qed.

(** An error, or a key of the width of the table. *)
Lemma build_entry_ok params prio :
  params_typed params →
  ∃ r : Outcome K, build_entry kb params prio = Some r ∧
    match r with Err e => e = BAD_MATCH_KEY | Ok k => ls_key_ok (MatchKey.nbytes_key kb) k end.
Proof.
  intros Hty. unfold build_entry. destruct (sanity_total params) as [[] E]; rewrite E; msimpl; [|by exists (Err BAD_MATCH_KEY)].
  assert (Forall2 MatchKey.param_typed ks params) as Hty'.
  { apply Forall2_same_length_lookup_2; [|exact Hty]. unfold MatchKey.match_params_sanity_check in E.
    destruct (Nat.eqb_spec (length params) (length (MatchKey.key_input kb))); [|done].
    by rewrite <- (MatchKey.lay_len _ _ _ Hlay). }
  pose proof (MatchKey.sanity_ok _ _ _ _ Hlay Hty' E) as Hfit. cbn [negb].
  destruct (tk_entry ks ms kb params Hlay Hkind Hfit) as (k & -> & Hb & Hl & Hk). msimpl.
  destruct (apply_big_mask_ok _ Hb Hl) as (d & -> & Hd & Hld). msimpl.
  eexists. split; [done|]. by apply Hk.
Qed.
End entry.
(** ** The abstract table *)

Record Table (K V : Type) := {
  t_entries : gmap Z (K * V);        (** the handles in use *)
  t_version : Z → Z;                 (** of every slot *)
  t_meta : Z → EntryMeta;
}.
Arguments t_entries {K V} _.
Arguments t_version {K V} _.
Arguments t_meta {K V} _.

Inductive op (V : Type) :=
  | Add (params : list MatchKey.MatchKeyParam) (v : V) (prio now : Z)
  | Delete (handle : Z)
  | Modify (handle : Z) (v : V)
  | GetValue (handle : Z)
  | Retrieve (params : list MatchKey.MatchKeyParam) (prio : Z)
  | LookupPkt (phv : Phv.PHV) (len ts : Z)
  | SetTtl (handle ttl_ms now : Z)
  | Reset.
Arguments Add {V} params v prio now.
Arguments Delete {V} handle.
Arguments Modify {V} handle v.
Arguments GetValue {V} handle.
Arguments Retrieve {V} params prio.
Arguments LookupPkt {V} phv len ts.
Arguments SetTtl {V} handle ttl_ms now.
Arguments Reset {V}.

Inductive res (V : Type) :=
  | RHandle (r : Outcome Z) | RCode (e : MatchErrorCode) | RValue (r : Outcome V)
  | RFound (r : option (Z * V)).
Arguments RHandle {V} r.
Arguments RCode {V} e.
Arguments RValue {V} r.
Arguments RFound {V} r.

Definition touch (e : EntryMeta) (len ts : Z) : EntryMeta :=
  {| ts := ts; timeout_ms := timeout_ms e; counter := Counters.increment_counter (counter e) len;
     meta_version := meta_version e |}.

(** A fresh entry keeps the timeout of the slot's previous one. *)
Definition fresh_meta (e : EntryMeta) (v now : Z) : EntryMeta :=
  {| ts := now; timeout_ms := timeout_ms e; counter := Counters.zero; meta_version := v mod 256 |}.

Section spec.
Context {K L V : Type} `{TableKeyLaws K L}.
Context (N : Z) (kb : MatchKey.MatchKeyBuilder).
Implicit Types (T : Table K V).

Definition has_key T (k : K) (h : Z) : Prop := ∃ k' v, t_entries T !! h = Some (k', v) ∧ same k k'.

(** The error of a handle, if it is not the one of an entry. *)
Definition handle_error T (handle : Z) : MatchErrorCode :=
  let h := HANDLE_INTERNAL handle in
  if decide (is_Some (t_entries T !! h)) then
    if HANDLE_VERSION handle =? t_version T h then SUCCESS else EXPIRED_HANDLE
  else INVALID_HANDLE.

Definition t_insert T (h : Z) (kv : K * V) : Table K V :=
  {| t_entries := <[h := kv]> (t_entries T); t_version := t_version T; t_meta := t_meta T |}.
Definition t_set_meta T (h : Z) (e : EntryMeta) : Table K V :=
  {| t_entries := t_entries T; t_version := t_version T; t_meta := <[h := e]> (t_meta T) |}.
Definition t_remove T (h : Z) : Table K V :=
  {| t_entries := delete h (t_entries T);
     t_version := <[h := u32 (t_version T h + 1)]> (t_version T); t_meta := t_meta T |}.

Inductive step T : op V → res V → Table K V → Prop :=
  | step_add_bad params v prio now :
      build_entry (K := K) kb params prio = Some (Err BAD_MATCH_KEY) →
      step T (Add params v prio now) (RHandle (Err BAD_MATCH_KEY)) T
  | step_add_dup params v prio now k h :
      build_entry kb params prio = Some (Ok k) → has_key T k h →
      step T (Add params v prio now) (RHandle (Err DUPLICATE_ENTRY)) T
  | step_add_full params v prio now k :
      build_entry kb params prio = Some (Ok k) → (∀ h, ¬ has_key T k h) →
      Z.of_nat (base.size (t_entries T)) = N →
      step T (Add params v prio now) (RHandle (Err TABLE_FULL)) T
  | step_add params v prio now k h :
      build_entry kb params prio = Some (Ok k) → (∀ h, ¬ has_key T k h) →
      0 ≤ h < N → t_entries T !! h = None → (∀ h', 0 ≤ h' < h → is_Some (t_entries T !! h')) →
      step T (Add params v prio now) (RHandle (Ok (HANDLE_SET (t_version T h) h)))
        (t_set_meta (t_insert T h (set_version k (t_version T h), v)) h
           (fresh_meta (t_meta T h) (t_version T h) now))
  | step_delete_error handle :
      handle_error T handle ≠ SUCCESS → step T (Delete handle) (RCode (handle_error T handle)) T
  | step_delete handle :
      handle_error T handle = SUCCESS →
      step T (Delete handle) (RCode SUCCESS) (t_remove T (HANDLE_INTERNAL handle))
  | step_modify_error handle v :
      handle_error T handle ≠ SUCCESS → step T (Modify handle v) (RCode (handle_error T handle)) T
  | step_modify handle v k v' :
      handle_error T handle = SUCCESS → t_entries T !! HANDLE_INTERNAL handle = Some (k, v') →
      step T (Modify handle v) (RCode SUCCESS) (t_insert T (HANDLE_INTERNAL handle) (k, v))
  | step_get_error handle :
      handle_error T handle ≠ SUCCESS → step T (GetValue handle) (RValue (Err (handle_error T handle))) T
  | step_get handle k v :
      handle_error T handle = SUCCESS → t_entries T !! HANDLE_INTERNAL handle = Some (k, v) →
      step T (GetValue handle) (RValue (Ok v)) T
  | step_retrieve_bad params prio :
      build_entry (K := K) kb params prio = Some (Err BAD_MATCH_KEY) →
      step T (Retrieve params prio) (RHandle (Err BAD_MATCH_KEY)) T
  | step_retrieve_none params prio k :
      build_entry kb params prio = Some (Ok k) → (∀ h, ¬ has_key T k h) →
      step T (Retrieve params prio) (RHandle (Err BAD_MATCH_KEY)) T
  | step_retrieve params prio k h :
      build_entry kb params prio = Some (Ok k) → has_key T k h →
      step T (Retrieve params prio) (RHandle (Ok (HANDLE_SET (t_version T h) h))) T
  | step_lookup_none phv len ts d :
      MatchKey.make_key kb phv [] = Some d →
      (∀ h k v, t_entries T !! h = Some (k, v) → ¬ matches (MatchKey.nbytes_key kb) k d) →
      step T (LookupPkt phv len ts) (RFound None) T
  | step_lookup phv len ts d h k v :
      MatchKey.make_key kb phv [] = Some d →
      t_entries T !! h = Some (k, v) → matches (MatchKey.nbytes_key kb) k d →
      (∀ h' k' v', t_entries T !! h' = Some (k', v') → matches (MatchKey.nbytes_key kb) k' d →
         ¬ prefer k' h' k h) →
      step T (LookupPkt phv len ts) (RFound (Some (HANDLE_SET (t_version T h) h, v)))
        (t_set_meta T h (touch (t_meta T h) len ts))
  | step_ttl_error handle ttl now :
      t_entries T !! HANDLE_INTERNAL handle = None → step T (SetTtl handle ttl now) (RCode INVALID_HANDLE) T
  | step_ttl handle ttl now :
      is_Some (t_entries T !! HANDLE_INTERNAL handle) →
      step T (SetTtl handle ttl now) (RCode SUCCESS)
        (t_set_meta T (HANDLE_INTERNAL handle) (with_timeout (t_meta T (HANDLE_INTERNAL handle)) ttl now))
  | step_reset :
      step T Reset (RCode SUCCESS) {| t_entries := ∅; t_version _ := 0; t_meta _ := new_meta |}.
End spec.
(** ** The match unit implements it *)
Section refinement.
Context {K L V J : Type} `{TableKeyLaws K L, !LookupStructureLaws K L, Judy1Laws J}.
Context (default_value : V) (N : Z) (HN : 0 ≤ N ≤ 2 ^ 24).
Context (ks : list MatchKey.KeyF) (ms : list (list Z)) (kb : MatchKey.MatchKeyBuilder).
Context (Hlay : MatchKey.layout ks ms kb) (Hkind : key_kind (K := K) ks).
Implicit Types (m : Mu K V L J) (T : Table K V) (h handle : Z) (k : K) (v : V).
Notation width := (MatchKey.nbytes_key kb).

Definition exec m (o : op V) : option (Mu K V L J * res V) :=
  match o with
  | Add params v prio now => '(m, r) ← MatchUnit.add_entry m params v prio now; Some (m, RHandle r)
  | Delete handle => '(m, c) ← delete_entry_ m handle; Some (m, RCode c)
  | Modify handle v => '(m, c) ← modify_entry_ m handle v; Some (m, RCode c)
  | GetValue handle => r ← get_value_ m handle; Some (m, RValue r)
  | Retrieve params prio => r ← retrieve_handle_ m params prio; Some (m, RHandle r)
  | LookupPkt phv len ts => '(m, r) ← lookup_pkt m phv len ts; Some (m, RFound r)
  | SetTtl handle ttl now => '(m, c) ← set_entry_ttl m handle ttl now; Some (m, RCode c)
  | Reset => m ← reset_state default_value m; Some (m, RCode SUCCESS)
  end.

(** What the caller ensures: typed parameters, a packet with the fields of the
    key, and, for a trie, that no node gets all its children. *)
Definition op_ok m (o : op V) : Prop :=
  match o with
  | Add params _ prio _ => params_typed ks params ∧
      ∀ k ver, build_entry kb params prio = Some (Ok k) → ls_limit (lookup_structure m) (set_version k ver)
  | Retrieve params _ => params_typed ks params
  | LookupPkt phv _ _ => ∃ d, MatchKey.make_key kb phv [] = Some d ∧ bytes_ok d ∧ Z.of_nat (length d) = width
  | _ => True
  end.

Record refines m T : Prop := {
  rf_builder : match_key_builder m = kb;
  rf_size : size m = N;
  rf_handles : HandleMgr.rep (handles m) (dom (t_entries T));
  rf_range h : is_Some (t_entries T !! h) → 0 ≤ h < N;
  rf_num : num_entries m = Z.of_nat (base.size (t_entries T));
  rf_len : Z.of_nat (length (entries m)) = N;
  rf_slot h e : vget (entries m) h = Some e → key_version e = t_version T h ∧ 0 ≤ t_version T h < 2 ^ 32;
  rf_meta h : vget (entry_meta m) h = if decide (0 ≤ h < N) then Some (t_meta T h) else None;
  rf_meta_version h : is_Some (t_entries T !! h) → meta_version (t_meta T h) = t_version T h mod 256;
  rf_ls : ls_inv (lookup_structure m);
  rf_width : ls_width (lookup_structure m) = width;
  rf_capacity h : 0 ≤ h < N → ls_capacity (lookup_structure m) h;
  rf_entry h k v : t_entries T !! h = Some (k, v) →
    vget (entries m) h = Some {| key := k; value := v |} ∧ ls_key_ok width k ∧
    view (lookup_structure m) k = Some h;
  rf_view k h : ls_key_ok width k → view (lookup_structure m) k = Some h → has_key T k h;
}.

Lemma view_key m T k h :
  refines m T → ls_key_ok width k → view (lookup_structure m) k = Some h ↔ has_key T k h.
Proof.
  intros R Hk. split; [by apply (rf_view _ _ R)|]. intros (k' & v & E & Hs).
  destruct (rf_entry _ _ R _ _ _ E) as (_ & Hk' & <-).
  apply ls_view_same; [apply (rf_ls _ _ R)|by rewrite (rf_width _ _ R)..|done].
Qed.

Lemma view_none m T k :
  refines m T → ls_key_ok width k → view (lookup_structure m) k = None ↔ ∀ h, ¬ has_key T k h.
Proof.
  intros R Hk. split.
  - intros E h ?%(view_key m T k h R Hk). congruence.
  - intros Hn. destruct (view (lookup_structure m) k) as [h|] eqn:E; [|done].
    by apply (view_key m T k h R Hk), Hn in E.
Qed.

Lemma slot_at m T h : refines m T → 0 ≤ h < N → is_Some (vget (entries m) h).
Proof. intros R Hh. apply vget_is_Some. by rewrite (rf_len _ _ R). Qed.

Lemma valid_handle_in m T h :
  refines m T → valid_handle_ m h = bool_decide (is_Some (t_entries T !! h)).
Proof.
  intros R. unfold valid_handle_, HandleMgr.valid_handle. rewrite (proj1 (rf_handles _ _ R)).
  apply bool_decide_ext. apply elem_of_dom.
Qed.

(** The guard of the operations on a handle. *)
Lemma handle_cases m T handle :
  refines m T → let h := HANDLE_INTERNAL handle in
  (valid_handle_ m h = false ∧ handle_error T handle = INVALID_HANDLE) ∨
  valid_handle_ m h = true ∧ ∃ k v, t_entries T !! h = Some (k, v) ∧
    vget (entries m) h = Some {| key := k; value := v |} ∧ version (key_base k) = t_version T h ∧
    handle_error T handle = (if HANDLE_VERSION handle =? t_version T h then SUCCESS else EXPIRED_HANDLE).
Proof.
  intros R h. rewrite (valid_handle_in _ _ _ R). unfold handle_error. fold h.
  destruct (t_entries T !! h) as [[k v]|] eqn:E; [right|by left].
  split; [done|]. exists k, v. destruct (rf_entry _ _ R _ _ _ E) as (Ee & _).
  split; [done|]. split; [done|]. split; [apply (rf_slot _ _ R _ _ Ee)|]. by rewrite decide_True.
Qed.

(** *** What the steps preserve *)

(** Another structure with the same view, as a lookup leaves. *)
Lemma refines_ls m T l' :
  refines m T → ls_inv l' → ls_width l' = ls_width (lookup_structure m) →
  (∀ h, ls_capacity l' h ↔ ls_capacity (lookup_structure m) h) →
  (∀ k, view l' k = view (lookup_structure m) k) → refines (with_entries m (entries m) l') T.
Proof.
  intros R Hi Hw Hc Hv. destruct R. constructor; cbn; try done; [congruence|by intros; apply Hc; auto| |].
  - intros h k v E. rewrite Hv. auto.
  - intros k h Hk. rewrite Hv. auto.
Qed.

Lemma refines_meta m T h e mt :
  refines m T → 0 ≤ h < N → vset (entry_meta m) h e = Some mt →
  (is_Some (t_entries T !! h) → meta_version e = t_version T h mod 256) →
  refines (with_meta m mt) (t_set_meta T h e).
Proof.
  intros R Hh E Hv. destruct R. constructor; cbn; try done.
  - intros h'. rewrite (vget_vset _ _ _ _ _ E), rf_meta0. destruct (decide (h' = h)) as [->|Hne].
    + by rewrite decide_True, fn_lookup_insert.
    + by rewrite fn_lookup_insert_ne.
  - intros h' Hs. destruct (decide (h' = h)) as [->|Hne]; [rewrite fn_lookup_insert|rewrite fn_lookup_insert_ne]; auto.
Qed.

Lemma refines_modify m T h k v v' es :
  refines m T → t_entries T !! h = Some (k, v') → vset (entries m) h {| key := k; value := v |} = Some es →
  refines (with_entries m es (lookup_structure m)) (t_insert T h (k, v)).
Proof.
  intros R E Es. pose proof (rf_entry _ _ R _ _ _ E) as (Ee & Hk & Hv).
  pose proof (rf_slot _ _ R _ _ Ee) as Hslot.
  assert (dom (<[h:=(k, v)]> (t_entries T)) = dom (t_entries T)) as Hdom by (rewrite dom_insert_lookup_L; eauto).
  assert (∀ h', is_Some (<[h:=(k, v)]> (t_entries T) !! h') ↔ is_Some (t_entries T !! h')) as Hin.
  { intros h'. rewrite <- !elem_of_dom. by rewrite Hdom. }
  destruct R. constructor; cbn; try done.
  - by rewrite Hdom.
  - intros h' ?%Hin. auto.
  - rewrite <- (size_dom (D := gset Z)), Hdom, size_dom. done.
  - by rewrite (vset_length _ _ _ _ Es).
  - intros h' e'. rewrite (vget_vset _ _ _ _ _ Es). case_decide; [|apply rf_slot0]. subst h'. by intros [= <-].
  - intros h' ?%Hin. auto.
  - intros h' k' w. rewrite (vget_vset _ _ _ _ _ Es).
    destruct (decide (h' = h)) as [->|Hne]; [rewrite lookup_insert_eq|rewrite lookup_insert_ne by done].
    + intros [= <- <-]. done.
    + apply rf_entry0.
  - intros k' h' Hk' (k1 & v1 & E1 & Hs)%rf_view0; [|done].
    destruct (decide (h' = h)) as [->|Hne].
    + exists k, v. cbn. rewrite lookup_insert_eq. split; [done|]. congruence.
    + exists k1, v1. cbn. by rewrite lookup_insert_ne.
Qed.

Lemma refines_delete m T h k v es l j :
  refines m T → t_entries T !! h = Some (k, v) →
  let k' := set_version k (u32 (t_version T h + 1)) in
  vset (entries m) h {| key := k'; value := v |} = Some es →
  delete_entry (lookup_structure m) k' = Some l → HandleMgr.rep j (dom (t_entries T) ∖ {[h]}) →
  refines (with_handles (with_entries m es l) (num_entries m - 1) j) (t_remove T h).
Proof.
  intros R E k' Es El Hj. pose proof (rf_entry _ _ R _ _ _ E) as (Ee & Hk & Hv).
  assert (ls_key_ok width k') as Hk' by by apply tk_key_ok.
  assert (same k' k) as Hs by apply tk_version.
  destruct (ls_delete (lookup_structure m) k') as (l' & El' & Hi & Hw & Hc & Hview).
  { apply (rf_ls _ _ R). }
  { by rewrite (rf_width _ _ R). }
  { rewrite (ls_view_same _ k' k); [by rewrite Hv|apply (rf_ls _ _ R)|by rewrite (rf_width _ _ R)..|done]. }
  simplify_eq. rewrite (rf_width _ _ R) in *.
  pose proof (rf_range _ _ R h (mk_is_Some _ _ E)) as Hh.
  destruct R. constructor; cbn; try done.
  - by rewrite dom_delete_L.
  - intros h' [_ ?]%lookup_delete_is_Some. auto.
  - rewrite rf_num0, map_size_delete_Some by done.
    assert (base.size (t_entries T) ≠ 0%nat); [|lia]. intros Hz%map_size_empty_inv. by rewrite Hz in E.
  - by rewrite (vset_length _ _ _ _ Es).
  - intros h' e'. rewrite (vget_vset _ _ _ _ _ Es). destruct (decide (h' = h)) as [->|Hne].
    + intros [= <-]. rewrite fn_lookup_insert. unfold key_version, k', set_version. cbn. rewrite key_base_set. cbn.
      split; [done|]. by apply (wrap_range 32).
    + rewrite fn_lookup_insert_ne by done. apply rf_slot0.
  - intros h' [Hne ?]%lookup_delete_is_Some. rewrite fn_lookup_insert_ne by done. auto.
  - intros h' ?. apply Hc. auto.
  - intros h' k1 v1. destruct (decide (h' = h)) as [->|Hne]; [by rewrite lookup_delete_eq|].
    rewrite lookup_delete_ne, (vget_vset _ _ _ _ _ Es), decide_False by done. intros E1.
    destruct (rf_entry0 _ _ _ E1) as (Ee1 & Hk1 & Hv1). split; [done|]. split; [done|].
    rewrite Hview by done. destruct (decide (same k' k1)) as [Hs1|]; [|done].
    assert (view (lookup_structure m) k = view (lookup_structure m) k1) as Hvv.
    { apply ls_view_same; [done|by rewrite rf_width0..|]. etransitivity; [symmetry; exact Hs|exact Hs1]. }
    congruence.
  - intros k1 h1 Hk1. rewrite Hview by done. destruct (decide (same k' k1)) as [|Hn]; [done|].
    intros (k2 & v2 & E2 & Hs2)%rf_view0; [|done]. exists k2, v2. split; [|done]. cbn.
    rewrite lookup_delete_ne; [done|]. intros <-. apply Hn. simplify_eq. etransitivity; [exact Hs|by symmetry].
Qed.
Lemma entries_bound m T : refines m T → Z.of_nat (base.size (t_entries T)) ≤ N.
Proof.
  intros R. rewrite <- (size_dom (D := gset Z)).
  assert (dom (t_entries T) ⊆ list_to_set (C := gset Z) (seqZ 0 N)) as Hs%subseteq_size.
  { intros h [? ?]%elem_of_dom. rewrite elem_of_list_to_set, elem_of_seqZ.
    pose proof (rf_range _ _ R h ltac:(eauto)). lia. }
  rewrite size_list_to_set, length_seqZ in Hs by apply NoDup_seqZ. lia.
Qed.

Lemma refines_add m T h k v es j mt e :
  refines m T → t_entries T !! h = None → 0 ≤ h < N → ls_key_ok width k → key_version {| key := k; value := v |} = t_version T h →
  (∀ h', ¬ has_key T k h') → (∀ h', 0 ≤ h' < h → is_Some (t_entries T !! h')) → ls_limit (lookup_structure m) k →
  vset (entries m) h {| key := k; value := v |} = Some es →
  HandleMgr.rep j ({[h]} ∪ dom (t_entries T)) →
  vset (entry_meta m) h e = Some mt → meta_version e = t_version T h mod 256 →
  ∃ l, LookupStructures.add_entry (lookup_structure m) k h = Some l ∧
    refines (with_meta (with_entries (with_handles m (num_entries m + 1) j) es l) mt)
      (t_set_meta (t_insert T h (k, v)) h e).
Proof.
  intros R E Hh Hk Hver Hno Hleast Hlim Es Hj Em He.
  assert (view (lookup_structure m) k = None) as Hv by (by apply (view_none m T)).
  destruct (ls_add (lookup_structure m) k h) as (l & El & Hi & Hw & Hc & Hview).
  { apply (rf_ls _ _ R). }
  { by rewrite (rf_width _ _ R). }
  { done. } { done. } { lia. } { by apply (rf_capacity _ _ R). }
  { rewrite (rf_width _ _ R). intros k' Hk' (k1 & v1 & E1 & _)%(rf_view _ _ R); [|done]. congruence. }
  { intros h' [[k1 v1] E1]%Hleast. destruct (rf_entry _ _ R _ _ _ E1) as (_ & ? & ?).
    rewrite (rf_width _ _ R). eauto. }
  exists l. split; [done|]. rewrite (rf_width _ _ R) in *.
  destruct (slot_at _ _ _ R Hh) as [e0 Ee0]. pose proof (rf_slot _ _ R _ _ Ee0) as [_ Hvr].
  destruct R. constructor; cbn; try done.
  - by rewrite dom_insert_L.
  - intros h' [<-|[_ ?]]%lookup_insert_is_Some; auto.
  - rewrite map_size_insert_None by done. lia.
  - by rewrite (vset_length _ _ _ _ Es).
  - intros h' e'. rewrite (vget_vset _ _ _ _ _ Es). case_decide; [|apply rf_slot0].
    subst h'. by intros [= <-].
  - intros h'. rewrite (vget_vset _ _ _ _ _ Em), rf_meta0. destruct (decide (h' = h)) as [->|Hne].
    + by rewrite decide_True, fn_lookup_insert.
    + by rewrite fn_lookup_insert_ne.
  - intros h' Hs. destruct (decide (h' = h)) as [->|Hne]; [by rewrite fn_lookup_insert|].
    rewrite fn_lookup_insert_ne by done. rewrite lookup_insert_ne in Hs by done. auto.
  - intros h' ?. apply Hc. auto.
  - intros h' k1 v1. rewrite (vget_vset _ _ _ _ _ Es).
    destruct (decide (h' = h)) as [->|Hne]; [rewrite lookup_insert_eq|rewrite lookup_insert_ne by done].
    + intros [= <- <-]. split; [done|]. split; [done|]. rewrite Hview by done. by rewrite decide_True.
    + intros E1. destruct (rf_entry0 _ _ _ E1) as (? & Hk1 & ?). split_and!; [done..|].
      rewrite Hview by done. rewrite decide_False; [done|]. intros Hs. apply (Hno h'). by exists k1, v1.
  - intros k1 h1 Hk1. rewrite Hview by done. destruct (decide (same k k1)) as [Hs|Hn].
    + intros [= <-]. exists k, v. cbn. by rewrite lookup_insert_eq.
    + intros (k2 & v2 & E2 & Hs2)%rf_view0; [|done]. exists k2, v2. cbn. rewrite lookup_insert_ne; [done|congruence].
Qed.

Lemma refines_reset m T :
  refines m T → version (key_base (default_key : K)) = 0 →
  ∃ m', reset_state default_value m = Some m' ∧
    refines m' {| t_entries := ∅; t_version _ := 0; t_meta _ := new_meta |}.
Proof.
  intros R Hd. unfold reset_state, reset_state_. cbn.
  destruct (ls_clear (lookup_structure m)) as (l & -> & Hi & Hw & Hc & Hv); [apply (rf_ls _ _ R)|].
  msimpl. eexists. split; [done|]. rewrite (rf_width _ _ R) in *.
  assert (∀ A (x : A) h, vget (replicate (Z.to_nat N) x) h = if decide (0 ≤ h < N) then Some x else None) as Hrep.
  { intros A x h. unfold vget. destruct (decide (0 ≤ h)); [|by rewrite decide_False by lia].
    destruct (decide (h < N)); [rewrite decide_True by lia|rewrite decide_False by lia].
    - apply lookup_replicate_2. lia.
    - apply lookup_ge_None_2. rewrite length_replicate. lia. }
  pose proof (rf_size _ _ R) as Hsz. destruct R. constructor; cbn; rewrite ?Hsz; try done.
  - rewrite dom_empty_L. apply HandleMgr.rep_null.
  - intros h []%lookup_empty_is_Some.
  - rewrite length_replicate. lia.
  - intros h e. rewrite Hrep. destruct (decide _); intros [= <-]. by unfold key_version.
  - intros h ?. apply Hc. auto.
  - intros k h Hk. by rewrite Hv.
Qed.

(** *** The operations *)

Lemma exec_add m T params v prio now :
  refines m T → op_ok m (Add params v prio now) →
  ∃ m' r T', exec m (Add params v prio now) = Some (m', r) ∧ step N kb T (Add params v prio now) r T' ∧
    refines m' T'.
Proof.
  intros R [Hty Hlim]. unfold exec, MatchUnit.add_entry, add_entry_, build_entry_from_match_key.
  rewrite (rf_builder _ _ R).
  destruct (build_entry_ok (K := K) ks ms kb Hlay Hkind params prio Hty) as ([e|k] & Er & Hk); rewrite Er; msimpl.
  { subst e. eexists _, _, T. split; [done|]. split; [by constructor|done]. }
  destruct (ls_retrieve (lookup_structure m) k) as [_ ->]; [apply (rf_ls _ _ R)|by rewrite (rf_width _ _ R)|].
  msimpl. destruct (view (lookup_structure m) k) as [h|] eqn:Ev.
  { eexists _, _, T. split; [done|]. split; [|done]. eapply step_add_dup; [done|]. by apply (view_key m T k h). }
  pose proof (proj1 (view_none m T k R Hk) Ev) as Hno.
  unfold get_and_set_handle. rewrite (rf_size _ _ R), (rf_num _ _ R). cbn [is_Some bool_decide decide_rel].
  destruct (Z.leb_spec N (Z.of_nat (base.size (t_entries T)))) as [Hfull|Hroom].
  { eexists _, _, T. split; [done|]. split; [|done]. eapply step_add_full; [done..|].
    pose proof (entries_bound m T R). lia. }
  pose proof (size_dom (D := gset Z) (t_entries T)) as Hsd.
  destruct (HandleMgr.get_handle_least _ _ (rf_handles _ _ R)) as (h & -> & Hw & Hh & Hleast & Hle & Hj); [lia|].
  cbn. assert (0 ≤ h < N) as HhN by (destruct Hw; lia).
  destruct (slot_at m T h R HhN) as [e Ee]. rewrite Ee. msimpl.
  destruct (rf_slot _ _ R _ _ Ee) as [Hver Hvr]. rewrite Hver.
  set (k' := set_version k (t_version T h)).
  assert (key_version {| key := k'; value := v |} = t_version T h) as Hver'.
  { unfold key_version, k', set_version. cbn. by rewrite key_base_set. }
  rewrite vset_Some by (by rewrite (rf_len _ _ R)). msimpl.
  assert (ls_key_ok width k') as Hk' by by apply tk_key_ok.
  assert (same k' k) as Hs by apply tk_version.
  assert (t_entries T !! h = None) as E by (by apply not_elem_of_dom).
  assert (∀ h', 0 ≤ h' < h → is_Some (t_entries T !! h')) as Hleast'.
  { intros h' Hh'. by apply elem_of_dom, Hleast. }
  assert (∀ h', ¬ has_key T k' h') as Hno'.
  { intros h' (k1 & v1 & E1 & Hs1). apply (Hno h'). exists k1, v1. split; [done|]. etransitivity; [|done].
    by symmetry. }
  destruct (handle_parts (t_version T h) h) as [Hi Hv]; [lia|].
  pose proof (rf_meta _ _ R h) as Em. rewrite decide_True in Em by done.
  destruct (vupd_Some (entry_meta m) h (λ e, with_meta_version (reset_meta e now) (t_version T h mod 256)) _ Em)
    as (mt & Eu & Es).
  destruct (refines_add m T h k' v (<[Z.to_nat h := {| key := k'; value := v |}]> (entries m))
    (J1S (handles m) h).1 mt (fresh_meta (t_meta T h) (t_version T h) now)) as (l & -> & R'); try done.
  { by apply Hlim. }
  { apply vset_Some. by rewrite (rf_len _ _ R). }
  cbn. rewrite Hi, Hv, Eu. msimpl. rewrite (rf_num _ _ R) in R'.
  eexists _, _, _. split; [done|]. split; [|exact R'].
  eapply step_add; try done.
Qed.

Lemma exec_delete m T handle :
  refines m T → ∃ m' r T', exec m (Delete handle) = Some (m', r) ∧ step N kb T (Delete handle) r T' ∧ refines m' T'.
Proof.
  intros R. unfold exec, delete_entry_.
  destruct (handle_cases m T handle R) as [[-> He]|(-> & k & v & E & Ee & Hver & He)]; cbn [negb].
  { eexists _, _, T. split; [done|]. split; [|done]. rewrite <- He. apply step_delete_error. by rewrite He. }
  rewrite Ee. msimpl. unfold key_version at 1. cbn [key]. rewrite Hver.
  destruct (HANDLE_VERSION handle =? t_version T (HANDLE_INTERNAL handle)); cbn [negb].
  2:{ eexists _, _, T. split; [done|]. split; [|done]. rewrite <- He. apply step_delete_error. by rewrite He. }
  set (h := HANDLE_INTERNAL handle) in *. unfold key_version. cbn [key value]. rewrite Hver.
  pose proof (rf_range _ _ R h (mk_is_Some _ _ E)) as Hh.
  rewrite vset_Some by (by rewrite (rf_len _ _ R)). msimpl.
  destruct (rf_entry _ _ R _ _ _ E) as (_ & Hk & Hv).
  destruct (ls_delete (lookup_structure m) (set_version k (u32 (t_version T h + 1)))) as (l & El & _).
  { apply (rf_ls _ _ R). }
  { rewrite (rf_width _ _ R). by apply tk_key_ok. }
  { rewrite (ls_view_same _ _ k); [by rewrite Hv|apply (rf_ls _ _ R)| | |apply tk_version];
      rewrite (rf_width _ _ R); [by apply tk_key_ok|done]. }
  rewrite El. msimpl. unfold unset_handle. cbn [handles with_entries].
  destruct (HandleMgr.release_handle_ok _ _ h (rf_handles _ _ R)) as [-> Hj]; [by apply elem_of_dom_2 in E|].
  cbn. eexists _, _, _. split; [done|]. split; [by apply step_delete|].
  eapply (refines_delete m T h k v); try done. apply vset_Some. by rewrite (rf_len _ _ R).
Qed.

Lemma exec_modify m T handle v :
  refines m T →
  ∃ m' r T', exec m (Modify handle v) = Some (m', r) ∧ step N kb T (Modify handle v) r T' ∧ refines m' T'.
Proof.
  intros R. unfold exec, modify_entry_.
  destruct (handle_cases m T handle R) as [[-> He]|(-> & k & v' & E & Ee & Hver & He)]; cbn [negb].
  { eexists _, _, T. split; [done|]. split; [|done]. rewrite <- He. apply step_modify_error. by rewrite He. }
  rewrite Ee. msimpl. unfold key_version at 1. cbn [key]. rewrite Hver.
  destruct (HANDLE_VERSION handle =? t_version T (HANDLE_INTERNAL handle)); cbn [negb].
  2:{ eexists _, _, T. split; [done|]. split; [|done]. rewrite <- He. apply step_modify_error. by rewrite He. }
  pose proof (rf_range _ _ R _ (mk_is_Some _ _ E)) as Hh.
  assert (vset (entries m) (HANDLE_INTERNAL handle) {| key := k; value := v |} =
    Some (<[Z.to_nat (HANDLE_INTERNAL handle) := {| key := k; value := v |}]> (entries m))) as Es
    by (apply vset_Some; by rewrite (rf_len _ _ R)).
  cbn [key]. rewrite Es. msimpl. eexists _, _, _. split; [done|]. split; [by eapply step_modify|].
  by eapply refines_modify.
Qed.

Lemma exec_get m T handle :
  refines m T →
  ∃ m' r T', exec m (GetValue handle) = Some (m', r) ∧ step N kb T (GetValue handle) r T' ∧ refines m' T'.
Proof.
  intros R. unfold exec, get_value_.
  destruct (handle_cases m T handle R) as [[-> He]|(-> & k & v & E & Ee & Hver & He)]; cbn [negb].
  { eexists _, _, T. split; [done|]. split; [|done]. rewrite <- He. apply step_get_error. by rewrite He. }
  rewrite Ee. msimpl. unfold key_version at 1. cbn [key]. rewrite Hver.
  destruct (HANDLE_VERSION handle =? t_version T (HANDLE_INTERNAL handle)); cbn [negb];
    eexists _, _, T; (split; [done|]); (split; [|done]).
  - by eapply step_get.
  - rewrite <- He. apply step_get_error. by rewrite He.
Qed.

Lemma exec_retrieve m T params prio :
  refines m T → op_ok m (Retrieve params prio) →
  ∃ m' r T', exec m (Retrieve params prio) = Some (m', r) ∧ step N kb T (Retrieve params prio) r T' ∧
    refines m' T'.
Proof.
  intros R Hty. unfold exec, retrieve_handle_, build_entry_from_match_key. rewrite (rf_builder _ _ R).
  destruct (build_entry_ok (K := K) ks ms kb Hlay Hkind params prio Hty) as ([e|k] & Er & Hk); rewrite Er; msimpl.
  { subst e. eexists _, _, T. split; [done|]. split; [by constructor|done]. }
  destruct (ls_retrieve (lookup_structure m) k) as [-> _]; [apply (rf_ls _ _ R)|by rewrite (rf_width _ _ R)|].
  msimpl. destruct (view (lookup_structure m) k) as [h|] eqn:Ev.
  - apply (view_key m T k h R Hk) in Ev as Hkey. destruct Hkey as (k' & v & E & Hs).
    destruct (rf_entry _ _ R _ _ _ E) as (Ee & _). rewrite Ee. msimpl.
    destruct (rf_slot _ _ R _ _ Ee) as [-> _].
    eexists _, _, T. split; [done|]. split; [|done]. eapply step_retrieve; [done|by exists k', v].
  - eexists _, _, T. split; [done|]. split; [|done]. eapply step_retrieve_none; [done|].
    by apply (view_none m T k R Hk).
Qed.
Lemma exec_lookup m T phv len ts :
  refines m T → op_ok m (LookupPkt phv len ts) →
  ∃ m' r T', exec m (LookupPkt phv len ts) = Some (m', r) ∧ step N kb T (LookupPkt phv len ts) r T' ∧
    refines m' T'.
Proof.
  intros R (d & Ed & Hd & Hl). unfold exec, lookup_pkt, lookup_key. rewrite (rf_builder _ _ R), Ed. msimpl.
  destruct (ls_lookup (lookup_structure m) d) as (l' & r & -> & Hi & Hw & Hc & Hv & Hr);
    [apply (rf_ls _ _ R)|done|by rewrite (rf_width _ _ R)|].
  pose proof (refines_ls m T l' R Hi Hw Hc Hv) as R'. rewrite (rf_width _ _ R) in Hr. msimpl.
  destruct r as [h|]; msimpl.
  - destruct Hr as (k & Hk & Hvk & Hm & Hbest).
    destruct (rf_view _ _ R _ _ Hk Hvk) as (k' & v & E & Hs).
    destruct (rf_entry _ _ R _ _ _ E) as (Ee & _ & _). cbn [entries with_entries]. rewrite Ee. msimpl. cbn [value].
    destruct (rf_slot _ _ R _ _ Ee) as [-> _]. pose proof (rf_range _ _ R h (mk_is_Some _ _ E)) as Hh.
    destruct (handle_parts (t_version T h) h) as [-> _]; [lia|].
    pose proof (rf_meta _ _ R h) as Em. rewrite decide_True in Em by done. cbn [entry_meta with_entries].
    destruct (vupd_Some (entry_meta m) h (λ e, touch e len ts) _ Em) as (mt & Eu & Es).
    change (λ e, touch e len ts) with (λ e, {| MatchUnit.ts := ts; timeout_ms := timeout_ms e;
      counter := Counters.increment_counter (counter e) len; meta_version := meta_version e |}) in Eu.
    rewrite Eu. msimpl. eexists _, _, _. split; [done|]. split.
    + eapply step_lookup; [done|exact E|by eapply ks_matches|]. intros h' k1 v1 E1 Hm1 Hp.
      destruct (rf_entry _ _ R _ _ _ E1) as (_ & Hk1 & Hv1). apply (Hbest k1 h' Hk1 Hv1 Hm1).
      eapply ks_prefer; [reflexivity|symmetry; exact Hs|exact Hp].
    + eapply (refines_meta _ T h _ mt R' Hh Es). intros Hin. apply (rf_meta_version _ _ R _ Hin).
  - eexists _, _, T. split; [done|]. split; [|exact R']. eapply step_lookup_none; [done|].
    intros h k v E. destruct (rf_entry _ _ R _ _ _ E) as (_ & Hk & Hvk). eauto.
Qed.

Lemma exec_ttl m T handle ttl now :
  refines m T →
  ∃ m' r T', exec m (SetTtl handle ttl now) = Some (m', r) ∧ step N kb T (SetTtl handle ttl now) r T' ∧
    refines m' T'.
Proof.
  intros R. unfold exec, set_entry_ttl. rewrite (valid_handle_in _ _ _ R).
  destruct (decide (is_Some (t_entries T !! HANDLE_INTERNAL handle))) as [Hin|Hno].
  - rewrite bool_decide_eq_true_2 by done. cbn [negb]. pose proof (rf_range _ _ R _ Hin) as Hh.
    pose proof (rf_meta _ _ R (HANDLE_INTERNAL handle)) as Em. rewrite decide_True in Em by done.
    destruct (vupd_Some (entry_meta m) _ (λ e, with_timeout e ttl now) _ Em) as (mt & -> & Es). msimpl.
    eexists _, _, _. split; [done|]. split; [by apply step_ttl|].
    eapply refines_meta; [done..|]. intros _. apply (rf_meta_version _ _ R _ Hin).
  - rewrite bool_decide_eq_false_2 by done. cbn [negb].
    eexists _, _, T. split; [done|]. split; [|done]. apply step_ttl_error. by apply eq_None_not_Some.
Qed.

Lemma exec_reset m T :
  refines m T → version (key_base (default_key : K)) = 0 →
  ∃ m' r T', exec m Reset = Some (m', r) ∧ step N kb T Reset r T' ∧ refines m' T'.
Proof.
  intros R Hd. unfold exec. destruct (refines_reset m T R Hd) as (m' & -> & R'). msimpl.
  eexists _, _, _. split; [done|]. split; [apply step_reset|done].
Qed.

Lemma exec_sound m T o :
  refines m T → op_ok m o → version (key_base (default_key : K)) = 0 →
  ∃ m' r T', exec m o = Some (m', r) ∧ step N kb T o r T' ∧ refines m' T'.
Proof.
  intros R Ho Hd. destruct o; eauto using exec_add, exec_delete, exec_modify, exec_get, exec_retrieve,
    exec_lookup, exec_ttl, exec_reset.
Qed.
End refinement.
End MatchUnitSpec.
