(* ===== verification/MatchUnitRun.v ===== *)
(** * Runs of a match unit from its construction, the life of a handle, timeouts

    The theorems of [MatchUnitSpec], composed: a match unit never fails however
    its operations are interleaved; what a handle returned by an insertion is
    good for; which entries a sweep finds. The examples run an exact table. *)

From Stdlib Require Import Sorted.
From stdpp Require Import functions.
From S2P Require Import Prelude HandleMgr ByteContainer Data Fields Headers Phv MatchKeyTypes.
From S2P Require Import LookupStructures MatchKey TableKeys Counters MatchUnit MatchUnitSpec.
Import MatchKeyTypes.

Module MatchUnitRun.
Import MatchUnit MatchUnitSpec.

Section run.
Context {K L V J : Type} `{TableKeyLaws K L, !LookupStructureLaws K L, Judy1Laws J}.
Context (default_value : V) (N : Z) (HN : 0 ≤ N ≤ 2 ^ 24).
Implicit Types (m : Mu K V L J) (T : Table K V) (os : list (op V)).

Fixpoint run m os : option (Mu K V L J * list (res V)) :=
  match os with
  | [] => Some (m, [])
  | o :: os' => '(m, r) ← exec default_value m o; '(m, rs) ← run m os'; Some (m, r :: rs)
  end.

(** Every operation is admissible in the state it meets. *)
Fixpoint admissible (ks : list MatchKey.KeyF) (kb : MatchKey.MatchKeyBuilder) m os : Prop :=
  match os with
  | [] => True
  | o :: os' => op_ok ks kb m o ∧ ∀ m' r, exec default_value m o = Some (m', r) → admissible ks kb m' os'
  end.

Inductive steps (kb : MatchKey.MatchKeyBuilder) : Table K V → list (op V) → list (res V) → Table K V → Prop :=
  | steps_nil T : steps kb T [] [] T
  | steps_cons T o r T1 os rs T2 : step N kb T o r T1 → steps kb T1 os rs T2 → steps kb T (o :: os) (r :: rs) T2.

Definition empty_table : Table K V := {| t_entries := ∅; t_version _ := 0; t_meta _ := new_meta |}.

Lemma vget_replicate {A} (x : A) (n h : Z) :
  vget (replicate (Z.to_nat n) x) h = if decide (0 ≤ h < n) then Some x else None.
Proof.
  unfold vget. destruct (decide (0 ≤ h)); [|by rewrite decide_False by lia].
  destruct (decide (h < n)); [rewrite decide_True by lia|rewrite decide_False by lia].
  - apply lookup_replicate_2. lia.
  - apply lookup_ge_None_2. rewrite length_replicate. lia.
Qed.

Lemma new_refines kb0 l :
  MatchKey.pushed kb0 → version (key_base (default_key : K)) = 0 →
  ls_inv l → ls_width l = MatchKey.nbytes_key kb0 → (∀ h, 0 ≤ h < N → ls_capacity l h) →
  (∀ k, ls_key_ok (ls_width l) k → view l k = None) →
  ∃ kb m, MatchKey.build kb0 = Some kb ∧ MatchUnit.new default_value N kb0 l = Some m ∧
    MatchKey.layout (MatchKey.key_input kb0) (MatchKey.masks kb0) kb ∧
    refines N kb m empty_table ∧ lookup_structure m = l.
Proof.
  intros Hp Hd Hi Hw Hc Hv. destruct (MatchKey.build_ok kb0 Hp) as (kb & Eb & Hlay & _).
  assert (MatchKey.nbytes_key kb = MatchKey.nbytes_key kb0) as Hn.
  { unfold MatchKey.build in Eb. by mbind_inv Eb. }
  exists kb. unfold new. rewrite Eb. msimpl. eexists. split; [done|]. split; [done|]. split; [done|]. split; [|done].
  constructor; cbn; try done.
  - rewrite dom_empty_L. apply HandleMgr.rep_null.
  - intros h []%lookup_empty_is_Some.
  - rewrite length_replicate. lia.
  - intros h e. rewrite vget_replicate. destruct (decide _); intros [= <-]. by unfold key_version.
  - intros h. by rewrite vget_replicate.
  - congruence.
  - intros k h Hk. rewrite Hv by congruence. done.
Qed.

(** C4: a new match unit with an empty lookup structure of its width never
    fails, whatever its operations and their order, as long as each is
    admissible where it is run; its answers are those of the specification,
    from the empty table. *)
Theorem match_unit_safe kb0 l os :
  MatchKey.pushed kb0 → key_kind (K := K) (MatchKey.key_input kb0) → version (key_base (default_key : K)) = 0 →
  ls_inv l → ls_width l = MatchKey.nbytes_key kb0 → (∀ h, 0 ≤ h < N → ls_capacity l h) →
  (∀ k, ls_key_ok (ls_width l) k → view l k = None) →
  ∃ kb m, MatchKey.build kb0 = Some kb ∧ MatchUnit.new default_value N kb0 l = Some m ∧
    (admissible (MatchKey.key_input kb0) kb m os →
     ∃ m' rs T, run m os = Some (m', rs) ∧ steps kb empty_table os rs T ∧ refines N kb m' T).
Proof.
  intros Hp Hk Hd Hi Hw Hc Hv. destruct (new_refines kb0 l) as (kb & m & Eb & Em & Hlay & R & _); [done..|].
  exists kb, m. split; [done|]. split; [done|]. clear Em Eb. revert R. generalize empty_table. revert m.
  induction os as [|o os IH]; intros m T R Hadm; cbn [run].
  { eexists _, _, T. split; [done|]. split; [constructor|done]. }
  destruct Hadm as [Ho Hadm].
  destruct (exec_sound default_value N HN _ _ kb Hlay Hk m T o R Ho Hd) as (m1 & r & T1 & E1 & Hs1 & R1).
  destruct (IH m1 T1 R1 (Hadm _ _ E1)) as (m2 & rs & T2 & E2 & Hs2 & R2).
  eexists m2, (r :: rs), T2. split; [|split; [by econstructor|done]].
  rewrite E1. msimpl. by rewrite E2.
Qed.
End run.
(** ** Handles and timeouts *)
Section props.
Context {K L V J : Type} `{TableKeyLaws K L, !LookupStructureLaws K L, Judy1Laws J}.
Context (default_value : V) (N : Z) (HN : 0 ≤ N ≤ 2 ^ 24).
Context (ks : list MatchKey.KeyF) (ms : list (list Z)) (kb : MatchKey.MatchKeyBuilder).
Context (Hlay : MatchKey.layout ks ms kb) (Hkind : key_kind (K := K) ks).
Implicit Types (m : Mu K V L J) (T : Table K V).

(** C1: every operation of a match unit that stands for a table succeeds, does
    to the table what the specification says, and answers what it says: adding
    an entry (or refusing it for its key, because it is there, or because the
    table is full), deleting, modifying and reading an entry by a handle that
    may be invalid or expired, finding the handle of match parameters, looking a
    packet up, setting a timeout and resetting. *)
Theorem match_unit_refines m T o :
  refines N kb m T → op_ok ks kb m o → version (key_base (default_key : K)) = 0 →
  ∃ m' r T', exec default_value m o = Some (m', r) ∧ step N kb T o r T' ∧ refines N kb m' T'.
Proof. exact (exec_sound default_value N HN ks ms kb Hlay Hkind m T o). Qed.

(** The handle of a new entry reads its value back as long as its slot was
    freed less than 256 times; from then on it is always expired, since versions
    are compared whole but handles only have their lowest byte. *)
Theorem added_handle m T params v prio now m' handle :
  refines N kb m T → op_ok ks kb m (Add params v prio now) → version (key_base (default_key : K)) = 0 →
  exec default_value m (Add params v prio now) = Some (m', RHandle (Ok handle)) →
  get_value_ m' handle =
    Some (if t_version T (HANDLE_INTERNAL handle) <? 256 then Ok v else Err EXPIRED_HANDLE).
Proof.
  intros R Ho Hd E.
  destruct (exec_sound default_value N HN ks ms kb Hlay Hkind m T _ R Ho Hd) as (m1 & r & T1 & E1 & Hs & R1).
  rewrite E in E1. simplify_eq. inversion Hs; subst. clear Hs E.
  match goal with |- context [HANDLE_SET ?ver ?i] => set (hd := HANDLE_SET ver i) in *;
    destruct (handle_parts ver i) as [Hi Hv]; [lia|]; fold hd in Hi, Hv end.
  unfold get_value_. pose proof (handle_cases _ _ _ _ hd R1) as Hc. cbv zeta in Hc. rewrite Hi in Hc |- *.
  destruct Hc as [[_ He]|(-> & k1 & v1 & E1 & Ee & Hver & _)].
  - unfold handle_error in He. cbn in He. rewrite Hi, lookup_insert_eq, decide_True in He by done.
    by case_match.
  - cbn in E1. rewrite lookup_insert_eq in E1. simplify_eq. cbn [negb]. rewrite Ee. msimpl.
    unfold key_version at 1. cbn [key value]. rewrite Hver, Hv.
    pose proof (rf_slot _ _ _ _ R1 _ _ Ee) as [_ Hr]. cbn in Hr |- *.
    destruct (Z.ltb_spec (t_version T h) 256).
    + rewrite Z.mod_small, Z.eqb_refl by lia. done.
    + pose proof (Z.mod_pos_bound (t_version T h) 256 ltac:(lia)).
      rewrite (proj2 (Z.eqb_neq _ _)) by lia. done.
Qed.

Lemma handle_set_mod v i : HANDLE_SET (v mod 256) i = HANDLE_SET v i.
Proof.
  unfold HANDLE_SET. change 255 with (Z.ones 8). rewrite !Z.land_ones by lia. by rewrite Zmod_mod.
Qed.

Lemma sweep_loop_ok m T now hs :
  refines N kb m T → (∀ h, is_Some (t_entries T !! h) → ts (t_meta T h) ≤ now) →
  Forall (λ h, is_Some (t_entries T !! h)) hs →
  ∃ out, sweep_loop m hs now = Some out ∧ ∀ handle, handle ∈ out ↔ ∃ h, h ∈ hs ∧
    handle = HANDLE_SET (t_version T h) h ∧ 0 < timeout_ms (t_meta T h) ≤ now - ts (t_meta T h).
Proof.
  intros R Hts. induction 1 as [|h hs Hh Hhs IH]; cbn [sweep_loop].
  { exists []. split; [done|]. intros handle. split; [by intros ?%elem_of_nil|intros (? & ?%elem_of_nil & _); done]. }
  rewrite (rf_meta _ _ _ _ R), decide_True by (by apply (rf_range _ _ _ _ R)). msimpl.
  rewrite (proj2 (Z.leb_le _ _) (Hts h Hh)). destruct IH as (out & -> & Hin). msimpl.
  rewrite (rf_meta_version _ _ _ _ R _ Hh), handle_set_mod. eexists. split; [done|]. intros handle.
  setoid_rewrite elem_of_cons.
  assert ((0 <? timeout_ms (t_meta T h)) && (timeout_ms (t_meta T h) <=? now - ts (t_meta T h)) = true ↔
    0 < timeout_ms (t_meta T h) ≤ now - ts (t_meta T h)) as Hb by (rewrite andb_true_iff, Z.ltb_lt, Z.leb_le; done).
  destruct (_ && _).
  - rewrite elem_of_cons, Hin. pose proof (proj1 Hb eq_refl). naive_solver.
  - rewrite Hin. assert (¬ 0 < timeout_ms (t_meta T h) ≤ now - ts (t_meta T h)) by (intros ?%Hb; done).
    naive_solver.
Qed.

(** A sweep visits every entry, within as many steps as there are entries
    and one, and finds the handles of exactly those that have a timeout and were
    neither added nor hit since. *)
Theorem sweep_expired m T now :
  refines N kb m T → (∀ h, is_Some (t_entries T !! h) → ts (t_meta T h) ≤ now) →
  ∃ hs, sweep_entries m (S (base.size (t_entries T))) now = Some hs ∧
    ∀ handle, handle ∈ hs ↔ ∃ h, is_Some (t_entries T !! h) ∧ handle = HANDLE_SET (t_version T h) h ∧
      0 < timeout_ms (t_meta T h) ≤ now - ts (t_meta T h).
Proof.
  intros R Hts. unfold sweep_entries.
  destruct (HandleMgr.iterate_ok _ _ (rf_handles _ _ _ _ R)) as (l & El & _ & Hl).
  { intros Hm%elem_of_dom%(rf_range _ _ _ _ R). unfold word_max in Hm. lia. }
  rewrite size_dom in El. rewrite El. msimpl.
  destruct (sweep_loop_ok m T now l R Hts) as (out & -> & Hin).
  { apply Forall_forall. intros h ?%Hl. by apply elem_of_dom. }
  exists out. split; [done|]. intros handle. rewrite Hin. setoid_rewrite Hl. by setoid_rewrite elem_of_dom.
Qed.
End props.
End MatchUnitRun.

(** ** Examples *)
Module MatchUnitExamples.
Import MatchUnit MatchUnitSpec MatchUnitRun Judy1Set.

Definition kb0 : MatchKey.MatchKeyBuilder :=
  MatchKey.push_back_field MatchKey.empty_builder 0 0 16 MatchKey.EXACT "f".
Definition kb : MatchKey.MatchKeyBuilder := default MatchKey.empty_builder (MatchKey.build kb0).
Definition table0 : exact_table := {| exact_width := 2; exact_map := ExactMap.clear {| ExactMap.entries_map := ∅ |} |}.
Definition param0 : MatchKey.MatchKeyParam := MatchKey.param MatchKey.EXACT [18; 52].
Definition unit0 (n : Z) : option (Mu ExactMatchKey Z exact_table (gset Z)) := MatchUnit.new 0 n kb0 table0.
Notation unit_t := (Mu ExactMatchKey Z exact_table (gset Z)).

Definition empty0 : Table ExactMatchKey Z := empty_table.

Lemma kb0_pushed : MatchKey.pushed kb0.
Proof. apply MatchKey.push_back_pushed; [apply MatchKey.empty_pushed|done|done]. Qed.

Lemma param0_typed : params_typed (MatchKey.key_input kb0) [param0].
Proof.
  intros [|i] f p Ef Ep; [|done]. injection Ef as <-. injection Ep as <-.
  split_and!; cbn; try done; try lia; repeat constructor; lia.
Qed.

Lemma kb0_kind : key_kind (K := ExactMatchKey) (MatchKey.key_input kb0).
Proof. constructor; [by right|constructor]. Qed.

Lemma unit0_ok : ∃ m, unit0 8 = Some m ∧ MatchKey.layout (MatchKey.key_input kb0) (MatchKey.masks kb0) kb ∧
  refines 8 kb m empty0.
Proof.
  destruct (new_refines (J := gset Z) 0 8 ltac:(lia) kb0 table0) as (kb' & m & Eb & Em & Hl & R & _); try done.
  { apply kb0_pushed. }
  exists m. unfold kb. rewrite Eb. done.
Qed.

Lemma match_unit_safe_witness : ∃ m, unit0 8 = Some m ∧
  ∃ m' rs, run 0 m [Add [param0] 7 0 100; GetValue 0; Delete 0; GetValue 0] = Some (m', rs).
Proof.
  destruct (match_unit_safe (J := gset Z) 0 8 ltac:(lia) kb0 table0
    [Add [param0] 7 0 100; GetValue 0; Delete 0; GetValue 0]) as (kb' & m & _ & Em & Hrun); try done.
  - apply kb0_pushed.
  - exact kb0_kind.
  - exists m. split; [exact Em|]. destruct Hrun as (m' & rs & _ & E & _); [|by exists m', rs].
    split; [split; [apply param0_typed|done]|]. intros. cbn. done.
Defined.

Lemma match_unit_refines_witness : ∃ m, unit0 8 = Some m ∧
  ∃ m' r T', exec 0 m (Add [param0] 7 0 100) = Some (m', r) ∧ step 8 kb empty0 (Add [param0] 7 0 100) r T'.
Proof.
  destruct unit0_ok as (m & Em & Hl & R). exists m. split; [exact Em|].
  destruct (match_unit_refines 0 8 ltac:(lia) _ _ kb Hl kb0_kind m empty0
    (Add [param0] 7 0 100) R) as (m' & r & T' & E & Hs & _); [split; [apply param0_typed|done]|done|].
  exists m', r, T'. split; [exact E|exact Hs].
Defined.

Lemma added_handle_witness : ∃ m m', unit0 8 = Some m ∧
  exec 0 m (Add [param0] 7 0 100) = Some (m', RHandle (Ok 0)) ∧ get_value_ m' 0 = Some (Ok 7).
Proof.
  destruct unit0_ok as (m & Em & Hl & R).
  destruct (exec 0 m (Add [param0] 7 0 100)) as [[m' r]|] eqn:E; [|vm_compute in Em; injection Em as <-; discriminate E].
  assert (r = RHandle (Ok 0)) as -> by (vm_compute in Em; injection Em as <-; vm_compute in E; congruence).
  exists m, m'. split; [exact Em|]. split; [exact E|].
  exact (added_handle 0 8 ltac:(lia) _ _ kb Hl kb0_kind m empty0
    [param0] 7 0 100 m' 0 R (conj param0_typed (λ _ _ _, I)) eq_refl E).
Defined.

Lemma sweep_expired_witness : ∃ m, unit0 8 = Some m ∧ ∃ hs, sweep_entries m 1 500 = Some hs ∧ hs = [].
Proof.
  destruct unit0_ok as (m & Em & Hl & R). exists m. split; [exact Em|].
  destruct (sweep_expired 8 ltac:(lia) kb m empty0 500 R) as (hs & E & Hin).
  { intros h Hs. by destruct (lookup_empty_is_Some (K := Z) (M := gmap Z) (A := ExactMatchKey * Z) h). }
  exists hs. split; [exact E|]. destruct hs as [|x hs]; [done|].
  destruct (proj1 (Hin x) ltac:(by left)) as (h & Hs & _).
  by destruct (lookup_empty_is_Some (K := Z) (M := gmap Z) (A := ExactMatchKey * Z) h).
Defined.

(** The handle of an entry whose slot was freed 256 times does not exist. *)
Fixpoint cycle (n : nat) (m : unit_t) : option unit_t :=
  match n with
  | O => Some m
  | S n' =>
      '(m, r) ← MatchUnit.add_entry m [param0] 7 0 100;
      match r with
      | Ok handle => '(m, c) ← delete_entry_ m handle; cycle n' m
      | Err _ => None
      end
  end.

(** After 256 insertions and deletions, the handle an insertion returns is
    expired: the entry can be found by its key but neither read, nor changed, nor
    deleted. *)
Theorem version_overflow :
  (m ← unit0 8; m ← cycle 256 m;
   '(m, r) ← MatchUnit.add_entry m [param0] 7 0 100;
   found ← retrieve_handle_ m [param0] 0;
   v ← get_value_ m 0;
   '(m, c) ← delete_entry_ m 0;
   Some (r, found, v, c)) = Some (Ok 0, Ok 0, Err EXPIRED_HANDLE, EXPIRED_HANDLE).
Proof. vm_compute. reflexivity. Qed.

(** An entry added where an entry with a timeout was deleted has its timeout:
    it expires although none was set for it. *)
Theorem stale_timeout :
  (m ← unit0 8;
   '(m, _) ← MatchUnit.add_entry m [param0] 7 0 100;
   '(m, _) ← set_entry_ttl m 0 50 100;
   '(m, _) ← delete_entry_ m 0;
   '(m, r) ← MatchUnit.add_entry m [param0] 8 0 1000;
   hs ← sweep_entries m 2 2000;
   Some (r, hs)) = Some (Ok (2 ^ 24), [2 ^ 24]).
Proof. vm_compute. reflexivity. Qed.
End MatchUnitExamples.
