(* ===== verification/Expressions.v ===== *)
(** * Expressions (include/bm/bm_sim/expressions.h, src/bm_sim/expressions.cpp)

    An expression is a sequence of operations for a machine with five stacks: of
    booleans, and of pointers to data, headers, stacks and unions. A pointer to
    data may be to a temporary, which [assign_dest_registers] chose when the
    expression was built: the stack holds references here too, and they are read
    when an operation uses them. The temporaries outlive an evaluation (they are
    [thread_local]), so they are a part of the state. Registers are arrays named
    by an id. An operation is [None] where the code fails an assertion, throws
    or has undefined behaviour. *)

From S2P Require Import Prelude Data Fields Headers Phv.
Import (coercions) Fields.

Inductive ExprOpcode :=
  | LOAD_FIELD | LOAD_HEADER | LOAD_HEADER_STACK | LOAD_LAST_HEADER_STACK_FIELD
  | LOAD_UNION | LOAD_UNION_STACK | LOAD_BOOL | LOAD_CONST | LOAD_LOCAL
  | LOAD_REGISTER_REF | LOAD_REGISTER_GEN
  | ADD | SUB | MOD | DIV | MUL | SHIFT_LEFT | SHIFT_RIGHT
  | EQ_DATA | NEQ_DATA | GT_DATA | LT_DATA | GET_DATA | LET_DATA
  | EQ_HEADER | NEQ_HEADER
  | EQ_UNION | NEQ_UNION
  | EQ_BOOL | NEQ_BOOL
  | AND | OR | NOT
  | BIT_AND | BIT_OR | BIT_XOR | BIT_NEG
  | VALID_HEADER | VALID_UNION
  | TERNARY_OP | SKIP
  | TWO_COMP_MOD
  | DATA_TO_BOOL | BOOL_TO_DATA
  | DEREFERENCE_HEADER_STACK
  | DEREFERENCE_UNION_STACK
  | LAST_STACK_INDEX | SIZE_STACK
  | ACCESS_FIELD
  | ACCESS_UNION_HEADER.

#[export] Instance ExprOpcode_eq_dec : EqDecision ExprOpcode.
Proof. solve_decision. Defined.

(** Conversions of big numbers to [size_t]: small numbers are themselves. *)
Class GmpSize := convert_to_size : Z → Z.
Class GmpSizeLaws `{GmpSize} : Prop := convert_to_size_small z : 0 ≤ z < 2 ^ 64 → convert_to_size z = z.

Module Expressions.

Definition opcodes_map : list (string * ExprOpcode) := [
  ("load_field", LOAD_FIELD);
  ("load_header", LOAD_HEADER);
  ("load_header_stack", LOAD_HEADER_STACK);
  ("load_last_header_stack_field", LOAD_LAST_HEADER_STACK_FIELD);
  ("load_union", LOAD_UNION);
  ("load_union_stack", LOAD_UNION_STACK);
  ("load_bool", LOAD_BOOL);
  ("load_const", LOAD_CONST);
  ("load_local", LOAD_LOCAL);
  ("load_register_ref", LOAD_REGISTER_REF);
  ("load_register_gen", LOAD_REGISTER_GEN);
  ("+", ADD);
  ("-", SUB);
  ("%", MOD);
  ("/", DIV);
  ("*", MUL);
  ("<<", SHIFT_LEFT);
  (">>", SHIFT_RIGHT);
  ("==", EQ_DATA);
  ("!=", NEQ_DATA);
  ("==h", EQ_HEADER);
  ("!=h", NEQ_HEADER);
  ("==u", EQ_UNION);
  ("!=u", NEQ_UNION);
  ("==b", EQ_BOOL);
  ("!=b", NEQ_BOOL);
  (">", GT_DATA);
  ("<", LT_DATA);
  (">=", GET_DATA);
  ("<=", LET_DATA);
  ("and", AND);
  ("or", OR);
  ("not", NOT);
  ("&", BIT_AND);
  ("|", BIT_OR);
  ("^", BIT_XOR);
  ("~", BIT_NEG);
  ("valid", VALID_HEADER);
  ("valid_union", VALID_UNION);
  ("?", TERNARY_OP);
  ("two_comp_mod", TWO_COMP_MOD);
  ("d2b", DATA_TO_BOOL);
  ("b2d", BOOL_TO_DATA);
  ("dereference_stack", DEREFERENCE_HEADER_STACK);
  ("dereference_header_stack", DEREFERENCE_HEADER_STACK);
  ("dereference_union_stack", DEREFERENCE_UNION_STACK);
  ("last_stack_index", LAST_STACK_INDEX);
  ("size_stack", SIZE_STACK);
  ("access_field", ACCESS_FIELD);
  ("access_union_header", ACCESS_UNION_HEADER)
]%string.

(** [opcodes_map[expr_name]] makes a zero of a name that is not there. *)
Definition get_opcode (expr_name : string) : ExprOpcode :=
  match list_find (λ p, p.1 = expr_name) opcodes_map with
  | Some (_, p) => p.2
  | None => LOAD_FIELD
  end.

(** The union of an operation. *)
Inductive Payload :=
  | Unset
  | data_dest_index (i : Z)
  | field (header field_offset : Z)
  | header (id : Z)
  | header_stack (id : Z)
  | stack_field (header_stack field_offset : Z)
  | header_union (id : Z)
  | header_union_stack (id : Z)
  | bool_value (b : bool)
  | const_offset (i : Z)
  | local_offset (i : Z)
  | field_offset (i : Z)
  | header_offset (i : Z)
  | register_ref (array idx : Z)
  | register_array (array : Z)
  | skip_num (n : Z).

Record Op := { opcode : ExprOpcode; payload : Payload }.

Record Expression := {
  ops : list Op;
  const_values : list Data.Data;
  data_registers_cnt : Z;
  built : bool;
}.

(** ** Building *)
Section build.
Implicit Types (e : Expression) (op : Op).

Definition with_ops e (l : list Op) : Expression :=
  {| ops := l; const_values := const_values e; data_registers_cnt := data_registers_cnt e; built := built e |}.
Definition push e (c : ExprOpcode) (p : Payload) : Expression :=
  with_ops e (ops e ++ [{| opcode := c; payload := p |}]).

Definition get_num_ops e : Z := Z.of_nat (length (ops e)).

Definition push_back_load_field e (hdr off : Z) := push e LOAD_FIELD (field hdr off).
Definition push_back_load_bool e (b : bool) := push e LOAD_BOOL (bool_value b).
Definition push_back_load_header e (hdr : Z) := push e LOAD_HEADER (header hdr).
Definition push_back_load_header_stack e (hs : Z) := push e LOAD_HEADER_STACK (header_stack hs).
Definition push_back_load_last_header_stack_field e (hs off : Z) :=
  push e LOAD_LAST_HEADER_STACK_FIELD (stack_field hs off).
Definition push_back_load_header_union e (hu : Z) := push e LOAD_UNION (header_union hu).
Definition push_back_load_header_union_stack e (hus : Z) := push e LOAD_UNION_STACK (header_union_stack hus).
Definition push_back_load_const e (d : Data.Data) : Expression :=
  let e := {| ops := ops e; const_values := const_values e ++ [Data.copy d];
              data_registers_cnt := data_registers_cnt e; built := built e |} in
  push e LOAD_CONST (const_offset (Z.of_nat (length (const_values e)) - 1)).
Definition push_back_load_local e (offset : Z) := push e LOAD_LOCAL (local_offset offset).
Definition push_back_load_register_ref e (array idx : Z) := push e LOAD_REGISTER_REF (register_ref array idx).
Definition push_back_load_register_gen e (array : Z) := push e LOAD_REGISTER_GEN (register_array array).
Definition push_back_op e (c : ExprOpcode) := push e c Unset.
Definition push_back_access_field e (off : Z) := push e ACCESS_FIELD (field_offset off).
Definition push_back_access_union_header e (off : Z) := push e ACCESS_UNION_HEADER (header_offset off).

Definition shift_const (n : Z) op : Op :=
  match payload op with
  | const_offset i => {| opcode := opcode op; payload := const_offset (i + n) |}
  | _ => op
  end.

Definition append_expression e (e' : Expression) : Expression :=
  let offset_consts := Z.of_nat (length (const_values e)) in
  {| ops := ops e ++ ((λ op, if decide (opcode op = LOAD_CONST) then shift_const offset_consts op else op) <$> ops e');
     const_values := const_values e ++ const_values e';
     data_registers_cnt := data_registers_cnt e; built := built e |}.

Definition push_back_ternary_op e (e1 e2 : Expression) : Expression :=
  let e := push e TERNARY_OP Unset in
  let e := push e SKIP (skip_num (get_num_ops e1 + 1)) in
  let e := append_expression e e1 in
  let e := push e SKIP (skip_num (get_num_ops e2)) in
  append_expression e e2.

(** *** The temporaries *)

(** [registers_curr] and [new_registers]: how many temporaries are in use, and
    by which of the data on the stack. *)
Record Regs := { registers_curr : Z; new_registers : list Z; registers_cnt : Z }.

Definition reg_pop (s : Regs) : option Regs :=
  match new_registers s with
  | [] => None
  | n :: ns => Some {| registers_curr := registers_curr s - n; new_registers := ns; registers_cnt := registers_cnt s |}
  end.
Definition reg_push (s : Regs) (n : Z) : Regs :=
  {| registers_curr := registers_curr s + n; new_registers := n :: new_registers s; registers_cnt := registers_cnt s |}.
Definition reg_max (s : Regs) : Regs :=
  {| registers_curr := registers_curr s; new_registers := new_registers s;
     registers_cnt := Z.max (registers_cnt s) (registers_curr s) |}.

Definition with_dest op (s : Regs) : Op := {| opcode := opcode op; payload := data_dest_index (registers_curr s) |}.

Definition assign_op op (s : Regs) : option (Op * Regs) :=
  '(op, s) ← match opcode op with
  | ADD | SUB | MOD | DIV | MUL | SHIFT_LEFT | SHIFT_RIGHT | BIT_AND | BIT_OR | BIT_XOR | TWO_COMP_MOD =>
      s ← reg_pop s; s ← reg_pop s; Some (with_dest op s, reg_push s 1)
  | BIT_NEG => s ← reg_pop s; Some (with_dest op s, reg_push s 1)
  | BOOL_TO_DATA | LAST_STACK_INDEX | SIZE_STACK => Some (with_dest op s, reg_push s 1)
  | EQ_DATA | NEQ_DATA | GT_DATA | LT_DATA | GET_DATA | LET_DATA =>
      s ← reg_pop s; s ← reg_pop s; Some (op, s)
  | DATA_TO_BOOL | DEREFERENCE_HEADER_STACK | DEREFERENCE_UNION_STACK => s ← reg_pop s; Some (op, s)
  | LOAD_CONST | LOAD_LOCAL | LOAD_FIELD | LOAD_LAST_HEADER_STACK_FIELD | LOAD_REGISTER_REF | ACCESS_FIELD =>
      Some (op, reg_push s 0)
  | LOAD_REGISTER_GEN => s ← reg_pop s; Some (op, reg_push s 0)
  | _ => Some (op, s)
  end;
  Some (op, reg_max s).

Fixpoint assign_loop (l : list Op) (s : Regs) : option (list Op * Regs) :=
  match l with
  | [] => Some ([], s)
  | op :: l' => '(op, s) ← assign_op op s; '(l', s) ← assign_loop l' s; Some (op :: l', s)
  end.

Definition assign_dest_registers e : option (list Op * Z) :=
  '(l, s) ← assign_loop (ops e) {| registers_curr := 0; new_registers := []; registers_cnt := 0 |};
  Some (l, registers_cnt s).

Definition build e : option Expression :=
  '(l, cnt) ← assign_dest_registers e;
  Some {| ops := l; const_values := const_values e; data_registers_cnt := cnt; built := true |}.

(** The constructor builds the empty expression. *)
Definition new_expression : Expression :=
  {| ops := []; const_values := []; data_registers_cnt := 0; built := true |}.

(** The arrays an expression reads, in order; duplicates are dropped by
    [RegisterSync::add_register_array]. *)
Definition grab_register_accesses e : list Z :=
  omap (λ op, match opcode op, payload op with
              | LOAD_REGISTER_REF, register_ref array _ => Some array
              | LOAD_REGISTER_GEN, register_array array => Some array
              | _, _ => None
              end) (ops e).
End build.

(** ** Evaluation *)

Inductive DataRef :=
  | RefField (header offset : Z) | RefConst (i : Z) | RefLocal (i : Z) | RefRegister (array idx : Z)
  | RefTemp (i : Z).
Inductive StackRef := RefHeaderStack (id : Z) | RefUnionStack (id : Z).

Record Machine := {
  bool_temps_stack : list bool;          (** all with their top first *)
  data_temps_stack : list DataRef;
  header_temps_stack : list Z;
  stack_temps_stack : list StackRef;
  union_temps_stack : list Z;
  data_temps : list Data.Data;
}.

(** What an evaluation reads. *)
Record Env := {
  phv : Phv.PHV;
  locals : list Data.Data;
  registers : Z → list Data.Data;        (** of each array *)
}.

Section eval.
Context `{Gmp, GmpSize}.
Context (env : Env) (consts : list Data.Data).
Implicit Types (m : Machine).

Definition get_field (hdr off : Z) : option Data.Data :=
  h ← Phv.get_header (phv env) hdr;
  f ← vget (Headers.fields h) off;
  Some (Fields.base f).

Definition deref m (r : DataRef) : option Data.Data :=
  match r with
  | RefField hdr off => get_field hdr off
  | RefConst i => vget consts i
  | RefLocal i => vget (locals env) i
  | RefRegister a i => vget (registers env a) i
  | RefTemp i => vget (data_temps m) i
  end.

Definition get_size (d : Data.Data) : option Z :=
  if Data.arith d then Some (convert_to_size (Data.value d)) else None.

Definition push_bool m (b : bool) : Machine :=
  {| bool_temps_stack := b :: bool_temps_stack m; data_temps_stack := data_temps_stack m;
     header_temps_stack := header_temps_stack m; stack_temps_stack := stack_temps_stack m;
     union_temps_stack := union_temps_stack m; data_temps := data_temps m |}.
Definition push_ref m (r : DataRef) : Machine :=
  {| bool_temps_stack := bool_temps_stack m; data_temps_stack := r :: data_temps_stack m;
     header_temps_stack := header_temps_stack m; stack_temps_stack := stack_temps_stack m;
     union_temps_stack := union_temps_stack m; data_temps := data_temps m |}.
Definition push_header m (h : Z) : Machine :=
  {| bool_temps_stack := bool_temps_stack m; data_temps_stack := data_temps_stack m;
     header_temps_stack := h :: header_temps_stack m; stack_temps_stack := stack_temps_stack m;
     union_temps_stack := union_temps_stack m; data_temps := data_temps m |}.
Definition push_stack m (s : StackRef) : Machine :=
  {| bool_temps_stack := bool_temps_stack m; data_temps_stack := data_temps_stack m;
     header_temps_stack := header_temps_stack m; stack_temps_stack := s :: stack_temps_stack m;
     union_temps_stack := union_temps_stack m; data_temps := data_temps m |}.
Definition push_union m (u : Z) : Machine :=
  {| bool_temps_stack := bool_temps_stack m; data_temps_stack := data_temps_stack m;
     header_temps_stack := header_temps_stack m; stack_temps_stack := stack_temps_stack m;
     union_temps_stack := u :: union_temps_stack m; data_temps := data_temps m |}.

(** [back(); pop_back()], and the value behind a pointer. *)
Definition pop_bool m : option (bool * Machine) :=
  match bool_temps_stack m with
  | [] => None
  | b :: bs => Some (b,
      {| bool_temps_stack := bs; data_temps_stack := data_temps_stack m;
         header_temps_stack := header_temps_stack m; stack_temps_stack := stack_temps_stack m;
         union_temps_stack := union_temps_stack m; data_temps := data_temps m |})
  end.
Definition pop_data m : option (Data.Data * Machine) :=
  match data_temps_stack m with
  | [] => None
  | r :: rs =>
      d ← deref m r;
      Some (d,
      {| bool_temps_stack := bool_temps_stack m; data_temps_stack := rs;
         header_temps_stack := header_temps_stack m; stack_temps_stack := stack_temps_stack m;
         union_temps_stack := union_temps_stack m; data_temps := data_temps m |})
  end.
Definition pop_header m : option (Z * Machine) :=
  match header_temps_stack m with
  | [] => None
  | h :: hs => Some (h,
      {| bool_temps_stack := bool_temps_stack m; data_temps_stack := data_temps_stack m;
         header_temps_stack := hs; stack_temps_stack := stack_temps_stack m;
         union_temps_stack := union_temps_stack m; data_temps := data_temps m |})
  end.
Definition pop_stack m : option (StackRef * Machine) :=
  match stack_temps_stack m with
  | [] => None
  | s :: ss => Some (s,
      {| bool_temps_stack := bool_temps_stack m; data_temps_stack := data_temps_stack m;
         header_temps_stack := header_temps_stack m; stack_temps_stack := ss;
         union_temps_stack := union_temps_stack m; data_temps := data_temps m |})
  end.
Definition pop_union m : option (Z * Machine) :=
  match union_temps_stack m with
  | [] => None
  | u :: us => Some (u,
      {| bool_temps_stack := bool_temps_stack m; data_temps_stack := data_temps_stack m;
         header_temps_stack := header_temps_stack m; stack_temps_stack := stack_temps_stack m;
         union_temps_stack := us; data_temps := data_temps m |})
  end.

(** [data_temps[op.data_dest_index] = v], pushed. *)
Definition set_temp m (op : Op) (v : Z) : option Machine :=
  match payload op with
  | data_dest_index i =>
      ts ← vupd (data_temps m) i (λ d, {| Data.value := v; Data.arith := Data.arith d |});
      Some (push_ref {| bool_temps_stack := bool_temps_stack m; data_temps_stack := data_temps_stack m;
         header_temps_stack := header_temps_stack m; stack_temps_stack := stack_temps_stack m;
         union_temps_stack := union_temps_stack m; data_temps := ts |} (RefTemp i))
  | _ => None
  end.

(** A reference is made of something there is. *)
Definition push_checked m (r : DataRef) : option Machine := _ ← deref m r; Some (push_ref m r).

Definition data_binop (c : ExprOpcode) : option (Data.Data → Data.Data → option Z) :=
  match c with
  | ADD => Some Data.add
  | SUB => Some Data.sub
  | MOD => Some Data.mod_
  | DIV => Some Data.divide
  | MUL => Some Data.multiply
  | SHIFT_LEFT => Some Data.shift_left
  | SHIFT_RIGHT => Some Data.shift_right
  | BIT_AND => Some Data.bit_and
  | BIT_OR => Some Data.bit_or
  | BIT_XOR => Some Data.bit_xor
  | TWO_COMP_MOD => Some Data.two_comp_mod
  | _ => None
  end.

Definition data_cmp (c : ExprOpcode) : option (Data.Data → Data.Data → option bool) :=
  match c with
  | EQ_DATA => Some Data.eq
  | NEQ_DATA => Some Data.ne
  | GT_DATA => Some Data.gt
  | LT_DATA => Some Data.lt
  | GET_DATA => Some Data.ge
  | LET_DATA => Some Data.le
  | _ => None
  end.

Definition bool_binop (c : ExprOpcode) : option (bool → bool → bool) :=
  match c with
  | EQ_BOOL => Some Bool.eqb
  | NEQ_BOOL => Some (λ l r, negb (Bool.eqb l r))
  | AND => Some andb
  | OR => Some orb
  | _ => None
  end.

Definition header_cmp (lh rh : Z) : option bool :=
  l ← Phv.get_header (phv env) lh; r ← Phv.get_header (phv env) rh; Headers.cmp l r.
Definition union_cmp (lu ru : Z) : option bool :=
  l ← Phv.get_union (phv env) lu; r ← Phv.get_union (phv env) ru; Phv.union_cmp (phv env) l r.

Definition stack_count (s : StackRef) : option Z :=
  match s with
  | RefHeaderStack i => st ← vget (Phv.header_stacks (phv env)) i; Some (Phv.next st)
  | RefUnionStack i => st ← vget (Phv.header_union_stacks (phv env)) i; Some (Phv.next st)
  end.

(** The operations that load. *)
Definition load m (op : Op) : option Machine :=
  match opcode op, payload op with
  | LOAD_FIELD, field hdr off => push_checked m (RefField hdr off)
  | LOAD_HEADER, header hdr => _ ← Phv.get_header (phv env) hdr; Some (push_header m hdr)
  | LOAD_HEADER_STACK, header_stack s => _ ← stack_count (RefHeaderStack s); Some (push_stack m (RefHeaderStack s))
  | LOAD_LAST_HEADER_STACK_FIELD, stack_field s off =>
      st ← vget (Phv.header_stacks (phv env)) s;
      hdr ← Phv.get_last st;
      push_checked m (RefField hdr off)
  | LOAD_UNION, header_union u => _ ← Phv.get_union (phv env) u; Some (push_union m u)
  | LOAD_UNION_STACK, header_union_stack s => _ ← stack_count (RefUnionStack s); Some (push_stack m (RefUnionStack s))
  | LOAD_BOOL, bool_value b => Some (push_bool m b)
  | LOAD_CONST, const_offset i => push_checked m (RefConst i)
  | LOAD_LOCAL, local_offset i => push_checked m (RefLocal i)
  | LOAD_REGISTER_REF, register_ref a i => push_checked m (RefRegister a i)
  | LOAD_REGISTER_GEN, register_array a =>
      '(rd, m) ← pop_data m; i ← get_size rd; push_checked m (RefRegister a i)
  | ACCESS_FIELD, field_offset off => '(h, m) ← pop_header m; push_checked m (RefField h off)
  | ACCESS_UNION_HEADER, header_offset off =>
      '(ru, m) ← pop_union m;
      u ← Phv.get_union (phv env) ru;
      h ← vget (Phv.u_headers u) off;
      Some (push_header m h)
  | _, _ => None
  end.

(** One iteration of the loop of [eval_]: how many of the following operations
    it skips, and the stacks. *)
Definition step (op : Op) m : option (nat * Machine) :=
  let next (r : option Machine) := m ← r; Some (0%nat, m) in
  match opcode op with
  | ADD | SUB | MOD | DIV | MUL | SHIFT_LEFT | SHIFT_RIGHT | BIT_AND | BIT_OR | BIT_XOR | TWO_COMP_MOD =>
      f ← data_binop (opcode op);
      '(rd, m) ← pop_data m; '(ld, m) ← pop_data m;
      next (v ← f ld rd; set_temp m op v)
  | EQ_DATA | NEQ_DATA | GT_DATA | LT_DATA | GET_DATA | LET_DATA =>
      f ← data_cmp (opcode op);
      '(rd, m) ← pop_data m; '(ld, m) ← pop_data m;
      next (b ← f ld rd; Some (push_bool m b))
  | EQ_HEADER => '(rh, m) ← pop_header m; '(lh, m) ← pop_header m; next (b ← header_cmp lh rh; Some (push_bool m b))
  | NEQ_HEADER =>
      '(rh, m) ← pop_header m; '(lh, m) ← pop_header m; next (b ← header_cmp lh rh; Some (push_bool m (negb b)))
  | EQ_UNION => '(ru, m) ← pop_union m; '(lu, m) ← pop_union m; next (b ← union_cmp lu ru; Some (push_bool m b))
  | NEQ_UNION =>
      '(ru, m) ← pop_union m; '(lu, m) ← pop_union m; next (b ← union_cmp lu ru; Some (push_bool m (negb b)))
  | EQ_BOOL | NEQ_BOOL | AND | OR =>
      f ← bool_binop (opcode op);
      '(rb, m) ← pop_bool m; '(lb, m) ← pop_bool m; next (Some (push_bool m (f lb rb)))
  | NOT => '(rb, m) ← pop_bool m; next (Some (push_bool m (negb rb)))
  | BIT_NEG => '(rd, m) ← pop_data m; next (v ← Data.bit_neg rd; set_temp m op v)
  | VALID_HEADER =>
      '(hd, m) ← pop_header m;
      h ← Phv.get_header (phv env) hd;
      next (Some (push_bool m (Headers.is_valid h)))
  | VALID_UNION =>
      '(u, m) ← pop_union m;
      hu ← Phv.get_union (phv env) u;
      next (Some (push_bool m (Phv.u_valid hu)))
  | TERNARY_OP => '(b, m) ← pop_bool m; Some (if b : bool then 1%nat else 0%nat, m)
  | SKIP => match payload op with skip_num n => Some (Z.to_nat n, m) | _ => None end
  | DATA_TO_BOOL => '(rd, m) ← pop_data m; next (Some (push_bool m (negb (Data.value rd =? 0))))
  | BOOL_TO_DATA => '(rb, m) ← pop_bool m; next (set_temp m op (if rb : bool then 1 else 0))
  | DEREFERENCE_HEADER_STACK =>
      '(rd, m) ← pop_data m; '(s, m) ← pop_stack m;
      match s with
      | RefHeaderStack i =>
          st ← vget (Phv.header_stacks (phv env)) i;
          n ← get_size rd;
          h ← vget (Phv.elements st) n;
          next (Some (push_header m h))
      | RefUnionStack _ => None
      end
  | LAST_STACK_INDEX => '(s, m) ← pop_stack m; n ← stack_count s; next (set_temp m op (u64 (n - 1)))
  | SIZE_STACK => '(s, m) ← pop_stack m; n ← stack_count s; next (set_temp m op n)
  | DEREFERENCE_UNION_STACK =>
      '(rd, m) ← pop_data m; '(s, m) ← pop_stack m;
      match s with
      | RefUnionStack i =>
          st ← vget (Phv.header_union_stacks (phv env)) i;
          n ← get_size rd;
          u ← vget (Phv.elements st) n;
          next (Some (push_union m u))
      | RefHeaderStack _ => None
      end
  | _ => next (load m op)
  end.

(** The loop over the operations; [skip] of them are still to be skipped. *)
Fixpoint run (skip : nat) (l : list Op) m : option Machine :=
  match l with
  | [] => Some m
  | op :: l' =>
      match skip with
      | S skip' => run skip' l' m
      | O => '(skip, m) ← step op m; run skip l' m
      end
  end.
End eval.

(** [data_temps] before an evaluation: made longer when the expression needs it. *)
Definition reserve (cnt : Z) (temps : list Data.Data) : list Data.Data :=
  temps ++ replicate (Z.to_nat cnt - length temps) {| Data.value := 0; Data.arith := true |}.

Definition start (temps : list Data.Data) : Machine :=
  {| bool_temps_stack := []; data_temps_stack := []; header_temps_stack := []; stack_temps_stack := [];
     union_temps_stack := []; data_temps := temps |}.

(** [eval_] for [EXPR_BOOL] and [EXPR_DATA], with the temporaries it leaves. The
    data is read to be assigned to the destination. *)
Definition eval_bool `{Gmp, GmpSize} (e : Expression) (env : Env) (temps : list Data.Data)
    : option (bool * list Data.Data) :=
  if negb (built e) then None else
  if decide (ops e = []) then Some (false, temps) else
  m ← run env (const_values e) 0 (ops e) (start (reserve (data_registers_cnt e) temps));
  '(b, m) ← pop_bool m;
  Some (b, data_temps m).

Definition eval_arith `{Gmp, GmpSize} (e : Expression) (env : Env) (temps : list Data.Data)
    : option (Data.Data * list Data.Data) :=
  if negb (built e) then None else
  if decide (ops e = []) then Some ({| Data.value := 0; Data.arith := true |}, temps) else
  m ← run env (const_values e) 0 (ops e) (start (reserve (data_registers_cnt e) temps));
  '(d, m) ← pop_data env (const_values e) m;
  Some (d, data_temps m).

(** ** Expressions of the length of a header *)

Record VLHeaderExpression := { expr : Expression; offsets : list Z }.

Definition new_VL (e : Expression) : VLHeaderExpression :=
  {| expr := e;
     offsets := omap (λ op, match opcode op, payload op with LOAD_LOCAL, local_offset i => Some i | _, _ => None end)
       (ops e) |}.

Definition get_input_offsets (v : VLHeaderExpression) : list Z := offsets v.

Definition resolve_op (header_id : Z) (op : Op) : Op :=
  match opcode op, payload op with
  | LOAD_LOCAL, local_offset i => {| opcode := LOAD_FIELD; payload := field header_id i |}
  | _, _ => op
  end.

Definition resolve (v : VLHeaderExpression) (header_id : Z) : option Expression :=
  if built (expr v) then Some (with_ops (expr v) (resolve_op header_id <$> ops (expr v))) else None.
End Expressions.
