(* ===== verification/ExprTrees.v ===== *)
(** * Expressions as trees

    What an expression means, as the value of a tree, and that the machine of
    [Expressions] computes it from the operations its [push_back_*] calls make
    of the tree: the temporaries that [assign_dest_registers] chooses never
    overwrite a value that is still needed, also where a conditional leaves the
    assignment out of step with the stack. *)

From S2P Require Import Prelude Data Fields Headers Phv Expressions.
Import (coercions) Fields.

Module ExprTrees.
Import Expressions.

Inductive Sort := SBool | SData | SHeader | SUnion.

(** Arithmetic and comparisons are given by their opcodes. *)
Inductive exp : Sort → Type :=
  | EField (hdr off : Z) : exp SData
  | EConst (d : Data.Data) : exp SData
  | ELocal (i : Z) : exp SData
  | ELastField (hs off : Z) : exp SData
  | ERegister (array idx : Z) : exp SData
  | ERegisterAt (array : Z) (idx : exp SData) : exp SData
  | EAccess (h : exp SHeader) (off : Z) : exp SData
  | EArith (c : ExprOpcode) (l r : exp SData) : exp SData
  | EBitNeg (e : exp SData) : exp SData
  | EOfBool (b : exp SBool) : exp SData
  | ELastIndex (s : StackRef) : exp SData
  | ESize (s : StackRef) : exp SData
  | EBool (b : bool) : exp SBool
  | ECmp (c : ExprOpcode) (l r : exp SData) : exp SBool
  | ECmpHeader (neg : bool) (l r : exp SHeader) : exp SBool
  | ECmpUnion (neg : bool) (l r : exp SUnion) : exp SBool
  | EBoolOp (c : ExprOpcode) (l r : exp SBool) : exp SBool
  | ENot (b : exp SBool) : exp SBool
  | EValid (h : exp SHeader) : exp SBool
  | EValidUnion (u : exp SUnion) : exp SBool
  | EOfData (e : exp SData) : exp SBool
  | EHeader (hdr : Z) : exp SHeader
  | EStackAt (hs : Z) (i : exp SData) : exp SHeader
  | EUnionAt (u : exp SUnion) (off : Z) : exp SHeader
  | EUnion (u : Z) : exp SUnion
  | EUnionStackAt (hus : Z) (i : exp SData) : exp SUnion
  | EIf {s} (c : exp SBool) (e1 e2 : exp s) : exp s.

Definition value (s : Sort) : Type :=
  match s with SBool => bool | SData => Data.Data | SHeader | SUnion => Z end.

(** ** What a tree is worth *)
Section denote.
Context `{Gmp, GmpSize} (env : Env).

Definition number (v : option Z) : option Data.Data :=
  v ← v; Some {| Data.value := v; Data.arith := true |}.

Fixpoint denote {s} (e : exp s) : option (value s) :=
  match e in exp s return option (value s) with
  | EField hdr off => get_field env hdr off
  | EConst d => Some (Data.copy d)
  | ELocal i => vget (locals env) i
  | ELastField hs off =>
      st ← vget (Phv.header_stacks (phv env)) hs; hdr ← Phv.get_last st; get_field env hdr off
  | ERegister a i => vget (registers env a) i
  | ERegisterAt a e => d ← denote e; i ← get_size d; vget (registers env a) i
  | EAccess h off => h ← denote h; get_field env h off
  | EArith c l r => l ← denote l; r ← denote r; f ← data_binop c; number (f l r)
  | EBitNeg e => d ← denote e; number (Data.bit_neg d)
  | EOfBool b => b ← denote b; number (Some (if b : bool then 1 else 0))
  | ELastIndex s => n ← stack_count env s; number (Some (u64 (n - 1)))
  | ESize s => n ← stack_count env s; number (Some n)
  | EBool b => Some b
  | ECmp c l r => l ← denote l; r ← denote r; f ← data_cmp c; f l r
  | ECmpHeader neg l r => l ← denote l; r ← denote r; b ← header_cmp env l r; Some (xorb neg b)
  | ECmpUnion neg l r => l ← denote l; r ← denote r; b ← union_cmp env l r; Some (xorb neg b)
  | EBoolOp c l r => l ← denote l; r ← denote r; f ← bool_binop c; Some (f l r)
  | ENot b => b ← denote b; Some (negb b)
  | EValid h => h ← denote h; h ← Phv.get_header (phv env) h; Some (Headers.is_valid h)
  | EValidUnion u => u ← denote u; hu ← Phv.get_union (phv env) u; Some (Phv.u_valid hu)
  | EOfData e => d ← denote e; Some (negb (Data.value d =? 0))
  | EHeader hdr => _ ← Phv.get_header (phv env) hdr; Some hdr
  | EStackAt hs e =>
      _ ← stack_count env (RefHeaderStack hs); d ← denote e;
      st ← vget (Phv.header_stacks (phv env)) hs; n ← get_size d; vget (Phv.elements st) n
  | EUnionAt u off => u ← denote u; hu ← Phv.get_union (phv env) u; vget (Phv.u_headers hu) off
  | EUnion u => _ ← Phv.get_union (phv env) u; Some u
  | EUnionStackAt hus e =>
      _ ← stack_count env (RefUnionStack hus); d ← denote e;
      st ← vget (Phv.header_union_stacks (phv env)) hus; n ← get_size d; vget (Phv.elements st) n
  | EIf c e1 e2 => b ← denote c; if b : bool then denote e1 else denote e2
  end.
End denote.

(** ** The calls that make an expression of a tree *)

Definition push_back_stack (E : Expression) (s : StackRef) : Expression :=
  match s with
  | RefHeaderStack i => push_back_load_header_stack E i
  | RefUnionStack i => push_back_load_header_union_stack E i
  end.

Fixpoint compile {s} (e : exp s) (E : Expression) : Expression :=
  match e with
  | EField hdr off => push_back_load_field E hdr off
  | EConst d => push_back_load_const E d
  | ELocal i => push_back_load_local E i
  | ELastField hs off => push_back_load_last_header_stack_field E hs off
  | ERegister a i => push_back_load_register_ref E a i
  | ERegisterAt a e => push_back_load_register_gen (compile e E) a
  | EAccess h off => push_back_access_field (compile h E) off
  | EArith c l r => push_back_op (compile r (compile l E)) c
  | EBitNeg e => push_back_op (compile e E) BIT_NEG
  | EOfBool b => push_back_op (compile b E) BOOL_TO_DATA
  | ELastIndex s => push_back_op (push_back_stack E s) LAST_STACK_INDEX
  | ESize s => push_back_op (push_back_stack E s) SIZE_STACK
  | EBool b => push_back_load_bool E b
  | ECmp c l r => push_back_op (compile r (compile l E)) c
  | ECmpHeader neg l r => push_back_op (compile r (compile l E)) (if neg then NEQ_HEADER else EQ_HEADER)
  | ECmpUnion neg l r => push_back_op (compile r (compile l E)) (if neg then NEQ_UNION else EQ_UNION)
  | EBoolOp c l r => push_back_op (compile r (compile l E)) c
  | ENot b => push_back_op (compile b E) NOT
  | EValid h => push_back_op (compile h E) VALID_HEADER
  | EValidUnion u => push_back_op (compile u E) VALID_UNION
  | EOfData e => push_back_op (compile e E) DATA_TO_BOOL
  | EHeader hdr => push_back_load_header E hdr
  | EStackAt hs e => push_back_op (compile e (push_back_load_header_stack E hs)) DEREFERENCE_HEADER_STACK
  | EUnionAt u off => push_back_access_union_header (compile u E) off
  | EUnion u => push_back_load_header_union E u
  | EUnionStackAt hus e =>
      push_back_op (compile e (push_back_load_header_union_stack E hus)) DEREFERENCE_UNION_STACK
  | EIf c e1 e2 =>
      push_back_ternary_op (compile c E) (compile e1 new_expression) (compile e2 new_expression)
  end.

(** Trees whose operators are of the right kind. *)
Fixpoint wf `{Gmp} {s} (e : exp s) : Prop :=
  match e with
  | EArith c l r => is_Some (data_binop c) ∧ wf l ∧ wf r
  | ECmp c l r => is_Some (data_cmp c) ∧ wf l ∧ wf r
  | EBoolOp c l r => is_Some (bool_binop c) ∧ wf l ∧ wf r
  | ECmpHeader _ l r => wf l ∧ wf r
  | ECmpUnion _ l r => wf l ∧ wf r
  | ERegisterAt _ e => wf e | EAccess e _ => wf e | EBitNeg e => wf e | EOfBool e => wf e
  | ENot e => wf e | EValid e => wf e | EValidUnion e => wf e | EOfData e => wf e
  | EStackAt _ e => wf e | EUnionAt e _ => wf e | EUnionStackAt _ e => wf e
  | EIf c e1 e2 => wf c ∧ wf e1 ∧ wf e2
  | _ => True
  end.

(** *** The operations and constants of a tree *)

Definition op_ (c : ExprOpcode) (p : Payload) : Op := {| opcode := c; payload := p |}.
Definition stack_code (s : StackRef) : Op :=
  match s with
  | RefHeaderStack i => op_ LOAD_HEADER_STACK (header_stack i)
  | RefUnionStack i => op_ LOAD_UNION_STACK (header_union_stack i)
  end.

Fixpoint consts_of {s} (e : exp s) : list Data.Data :=
  match e with
  | EConst d => [Data.copy d]
  | EArith _ l r => consts_of l ++ consts_of r
  | ECmp _ l r => consts_of l ++ consts_of r
  | EBoolOp _ l r => consts_of l ++ consts_of r
  | ECmpHeader _ l r => consts_of l ++ consts_of r
  | ECmpUnion _ l r => consts_of l ++ consts_of r
  | ERegisterAt _ e => consts_of e | EAccess e _ => consts_of e | EBitNeg e => consts_of e
  | EOfBool e => consts_of e | ENot e => consts_of e | EValid e => consts_of e
  | EValidUnion e => consts_of e | EOfData e => consts_of e | EStackAt _ e => consts_of e
  | EUnionAt e _ => consts_of e | EUnionStackAt _ e => consts_of e
  | EIf c e1 e2 => consts_of c ++ consts_of e1 ++ consts_of e2
  | _ => []
  end.

Definition nconsts {s} (e : exp s) : Z := Z.of_nat (length (consts_of e)).

(** With [k] constants before those of the tree. *)
Fixpoint code {s} (k : Z) (e : exp s) : list Op :=
  match e with
  | EField hdr off => [op_ LOAD_FIELD (field hdr off)]
  | EConst d => [op_ LOAD_CONST (const_offset k)]
  | ELocal i => [op_ LOAD_LOCAL (local_offset i)]
  | ELastField hs off => [op_ LOAD_LAST_HEADER_STACK_FIELD (stack_field hs off)]
  | ERegister a i => [op_ LOAD_REGISTER_REF (register_ref a i)]
  | ERegisterAt a e => code k e ++ [op_ LOAD_REGISTER_GEN (register_array a)]
  | EAccess h off => code k h ++ [op_ ACCESS_FIELD (field_offset off)]
  | EArith c l r => code k l ++ code (k + nconsts l) r ++ [op_ c Unset]
  | EBitNeg e => code k e ++ [op_ BIT_NEG Unset]
  | EOfBool b => code k b ++ [op_ BOOL_TO_DATA Unset]
  | ELastIndex s => [stack_code s; op_ LAST_STACK_INDEX Unset]
  | ESize s => [stack_code s; op_ SIZE_STACK Unset]
  | EBool b => [op_ LOAD_BOOL (bool_value b)]
  | ECmp c l r => code k l ++ code (k + nconsts l) r ++ [op_ c Unset]
  | ECmpHeader neg l r => code k l ++ code (k + nconsts l) r ++ [op_ (if neg then NEQ_HEADER else EQ_HEADER) Unset]
  | ECmpUnion neg l r => code k l ++ code (k + nconsts l) r ++ [op_ (if neg then NEQ_UNION else EQ_UNION) Unset]
  | EBoolOp c l r => code k l ++ code (k + nconsts l) r ++ [op_ c Unset]
  | ENot b => code k b ++ [op_ NOT Unset]
  | EValid h => code k h ++ [op_ VALID_HEADER Unset]
  | EValidUnion u => code k u ++ [op_ VALID_UNION Unset]
  | EOfData e => code k e ++ [op_ DATA_TO_BOOL Unset]
  | EHeader hdr => [op_ LOAD_HEADER (header hdr)]
  | EStackAt hs e => op_ LOAD_HEADER_STACK (header_stack hs) :: code k e ++ [op_ DEREFERENCE_HEADER_STACK Unset]
  | EUnionAt u off => code k u ++ [op_ ACCESS_UNION_HEADER (header_offset off)]
  | EUnion u => [op_ LOAD_UNION (header_union u)]
  | EUnionStackAt hus e =>
      op_ LOAD_UNION_STACK (header_union_stack hus) :: code k e ++ [op_ DEREFERENCE_UNION_STACK Unset]
  | EIf c e1 e2 =>
      let k1 := k + nconsts c in let k2 := k1 + nconsts e1 in
      code k c ++ op_ TERNARY_OP Unset ::
      op_ SKIP (skip_num (Z.of_nat (length (code k1 e1)) + 1)) :: code k1 e1 ++
      op_ SKIP (skip_num (Z.of_nat (length (code k2 e2)))) :: code k2 e2
  end.

Lemma code_length {s} (e : exp s) : ∀ k k', length (code k e) = length (code k' e).
Proof.
  induction e; intros k k'; cbn [code]; rewrite ?length_app, ?length_cons, ?length_app, ?length_cons;
    try rewrite (IHe k k'); try rewrite (IHe1 k k'); try rewrite (IHe2 (k + nconsts e1) (k' + nconsts e1));
    try rewrite (IHe3 (k + nconsts e1 + nconsts e2) (k' + nconsts e1 + nconsts e2)); done.
Qed.

(** Moving the code of a tree moves its constants. *)
Lemma shift_other n c p : (∀ i, p ≠ const_offset i) →
  (if decide (opcode (op_ c p) = LOAD_CONST) then shift_const n (op_ c p) else op_ c p) = op_ c p.
Proof. intros Hp. destruct (decide _); [|done]. destruct p; try done. by destruct (Hp i). Qed.

Lemma code_shift {s} (e : exp s) : ∀ k n,
  (λ op, if decide (opcode op = LOAD_CONST) then shift_const n op else op) <$> code k e = code (k + n) e.
Proof.
  assert (∀ a b c : Z, a + b + c = a + c + b) as Hcomm by (intros; lia).
  induction e; cbn [code]; intros k n;
    rewrite ?fmap_app, ?fmap_cons, ?fmap_app, ?fmap_cons, ?fmap_app; cbn [fmap list_fmap];
    rewrite ?IHe, ?IHe1, ?IHe2, ?IHe3; rewrite ?shift_other by done; rewrite ?(Hcomm _ _ n); try done.
  - destruct s; done.
  - destruct s; done.
  - by rewrite (code_length e2 (k + nconsts e1) (k + n + nconsts e1)),
      (code_length e3 (k + nconsts e1 + nconsts e2) (k + n + nconsts e1 + nconsts e2)).
Qed.

Definition appended (E : Expression) (l : list Op) (cs : list Data.Data) : Expression :=
  {| ops := ops E ++ l; const_values := const_values E ++ cs;
     data_registers_cnt := data_registers_cnt E; built := built E |}.

Lemma appended_appended E l cs l' cs' : appended (appended E l cs) l' cs' = appended E (l ++ l') (cs ++ cs').
Proof. unfold appended. cbn. by rewrite !app_assoc. Qed.

Lemma push_appended E l cs c p : push (appended E l cs) c p = appended E (l ++ [op_ c p]) cs.
Proof. unfold push, with_ops, appended. cbn. by rewrite app_assoc. Qed.

Lemma push_is_appended E c p : push E c p = appended E [op_ c p] [].
Proof. unfold push, with_ops, appended. cbn. by rewrite app_nil_r. Qed.

Lemma append_code {s} (e : exp s) E l cs :
  append_expression (appended E l cs) (appended new_expression (code 0 e) (consts_of e)) =
  appended E (l ++ code (Z.of_nat (length (const_values E)) + Z.of_nat (length cs)) e) (cs ++ consts_of e).
Proof.
  unfold append_expression, appended. cbn [ops const_values new_expression data_registers_cnt built app].
  by rewrite code_shift, length_app, Nat2Z.inj_add, Z.add_0_l, !app_assoc.
Qed.

Lemma compile_code {s} (e : exp s) : ∀ E,
  compile e E = appended E (code (Z.of_nat (length (const_values E))) e) (consts_of e).
Proof.
  assert (∀ E (l : list Op) cs n, Z.of_nat (length (const_values E)) + Z.of_nat (length cs) = n →
    Z.of_nat (length (const_values (appended E l cs))) = n) as Hlen by (intros; cbn; rewrite length_app; lia).
  induction e; intros E; cbn [compile code consts_of]; unfold push_back_op, push_back_load_field,
    push_back_load_bool, push_back_load_header, push_back_load_header_stack, push_back_load_local,
    push_back_load_last_header_stack_field, push_back_load_header_union, push_back_load_header_union_stack,
    push_back_load_register_ref, push_back_load_register_gen, push_back_access_field,
    push_back_access_union_header, push_back_stack in *;
    rewrite ?IHe, ?IHe1, ?IHe2, ?push_is_appended, ?push_appended, ?appended_appended; try done.
  all: rewrite ?(Hlen E _ _ _ eq_refl), <- ?app_assoc; cbn [length app Z.of_nat]; rewrite ?app_nil_r, ?Z.add_0_r;
    try done.
  - unfold push_back_load_const. rewrite push_is_appended. unfold appended. cbn. rewrite app_nil_r, length_app. cbn.
    by replace (Z.of_nat (length (const_values E) + 1) - 1) with (Z.of_nat (length (const_values E))) by lia.
  - destruct s; unfold push_back_load_header_stack, push_back_load_header_union_stack;
      by rewrite push_is_appended, appended_appended.
  - destruct s; unfold push_back_load_header_stack, push_back_load_header_union_stack;
      by rewrite push_is_appended, appended_appended.
  - rewrite IHe3. unfold push_back_ternary_op, get_num_ops. change (Z.of_nat (length (const_values new_expression))) with 0.
    rewrite !push_appended, append_code, push_appended, append_code, length_app, Nat2Z.inj_add, Z.add_assoc.
    cbn [ops appended new_expression app]. rewrite <- !app_assoc. cbn [app].
    rewrite (code_length e2 0 (Z.of_nat (length (const_values E)) + nconsts e1)),
      (code_length e3 0 (Z.of_nat (length (const_values E)) + nconsts e1 + nconsts e2)). done.
Qed.

(** ** The temporaries *)

Definition total (ns : list Z) : Z := foldr Z.add 0 ns.

Definition regs_ok (s : Regs) : Prop :=
  registers_curr s = total (new_registers s) ∧ Forall (λ n, n = 0 ∨ n = 1) (new_registers s) ∧
  registers_curr s ≤ registers_cnt s.

(** The entries of the static stack account for the data on the stack; some of
    them, left by conditionals, for nothing. *)
Inductive agree : list Z → list DataRef → Prop :=
  | agree_nil : agree [] []
  | agree_junk n ns ds : agree ns ds → agree (n :: ns) ds
  | agree_ref n ns r ds : agree ns ds → (∀ i, r = RefTemp i → n = 1 ∧ i = total ns) → agree (n :: ns) (r :: ds).

Lemma agree_tail ns r ds : agree ns (r :: ds) → agree ns ds.
Proof.
  intros Ha. remember (r :: ds) as ds' eqn:E. revert r ds E.
  induction Ha as [|n ns ds' Ha IH|n ns r' ds' Ha IH Hr]; intros r ds E; [done| |].
  - apply agree_junk. by eapply IH.
  - injection E as -> ->. by apply agree_junk.
Qed.

Lemma agree_pop n ns r ds : agree (n :: ns) (r :: ds) → agree ns ds.
Proof. inversion 1; subst; [by eapply agree_tail|done]. Qed.

Lemma agree_app new ns ds : agree ns ds → agree (new ++ ns) ds.
Proof. intros Ha. induction new as [|n new IH]; [done|]. by apply agree_junk. Qed.

Lemma total_app l1 l2 : total (l1 ++ l2) = total l1 + total l2.
Proof. unfold total. induction l1 as [|x l1 IH]; cbn; [done|]. rewrite IH. lia. Qed.

Lemma total_nonneg ns : Forall (λ n, n = 0 ∨ n = 1) ns → 0 ≤ total ns.
Proof. unfold total. induction 1; cbn; lia. Qed.

Lemma agree_bound ns ds i :
  Forall (λ n, n = 0 ∨ n = 1) ns → agree ns ds → RefTemp i ∈ ds → 0 ≤ i < total ns.
Proof.
  intros Hn Ha. induction Ha as [|n ns ds Ha IH|n ns r ds Ha IH Hr]; intros Hi.
  - by apply elem_of_nil in Hi.
  - apply Forall_cons in Hn as [? Hn]. specialize (IH Hn Hi). unfold total in *. cbn. lia.
  - apply Forall_cons in Hn as [? Hn]. pose proof (total_nonneg ns Hn). apply elem_of_cons in Hi as [Hi|Hi].
    + destruct (Hr i) as [-> ->]; [done|]. unfold total in *. cbn. lia.
    + specialize (IH Hn Hi). unfold total in *. cbn. lia.
Qed.

Lemma assign_app a b s :
  assign_loop (a ++ b) s = ('(a', s1) ← assign_loop a s; '(b', s2) ← assign_loop b s1; Some (a' ++ b', s2)).
Proof.
  revert s. induction a as [|op a IH]; intros s; cbn [app assign_loop]; [msimpl; by destruct (assign_loop b s) as [[]|]|].
  destruct (assign_op op s) as [[op' s']|]; [|done]. msimpl. rewrite IH.
  destruct (assign_loop a s') as [[a' s1]|]; [|done]. msimpl. by destruct (assign_loop b s1) as [[]|].
Qed.

Lemma assign_length l : ∀ s l' s', assign_loop l s = Some (l', s') → length l' = length l.
Proof.
  induction l as [|op l IH]; intros s l' s' E; cbn [assign_loop] in E; [by injection E as <- <-|].
  destruct (assign_op op s) as [[op1 s1]|]; [|done]. cbn in E.
  destruct (assign_loop l s1) as [[l1 s2]|] eqn:E1; [|done]. injection E as <- <-. cbn. f_equal. by eapply IH.
Qed.

Lemma run_skip `{Gmp, GmpSize} env consts l rest m :
  run env consts (length l) (l ++ rest) m = run env consts 0 rest m.
Proof. induction l as [|op l IH]; [done|]. exact IH. Qed.

(** ** What a piece of code computes *)

Inductive Val := VB (b : bool) | VD (d : Data.Data) | VH (h : Z) | VU (u : Z) | VS (r : StackRef).

(** How many of the values are data. *)
Fixpoint nd (vs : list Val) : nat :=
  match vs with [] => 0 | VD _ :: vs' => S (nd vs') | _ :: vs' => nd vs' end.

Section machine.
Context `{Gmp, GmpSize} (env : Env) (consts : list Data.Data).
Implicit Types (m : Machine) (vs : list Val) (c : list Op) (o : Op).

Definition stacks m := (bool_temps_stack m, data_temps_stack m, header_temps_stack m,
  stack_temps_stack m, union_temps_stack m).

Definition pop1 (v : Val) m m' : Prop :=
  match v with
  | VB b => pop_bool m = Some (b, m')
  | VD d => pop_data env consts m = Some (d, m')
  | VH h => pop_header m = Some (h, m')
  | VU u => pop_union m = Some (u, m')
  | VS s => pop_stack m = Some (s, m')
  end.

Fixpoint pops vs m m' : Prop :=
  match vs with
  | [] => m' = m
  | v :: vs' => ∃ m1, pop1 v m m1 ∧ pops vs' m1 m'
  end.

(** [m] with the values on its stacks, the first on top. *)
Definition ext m vs m' : Prop := ∃ m1, pops vs m' m1 ∧ stacks m1 = stacks m.

(** The same temporaries below [b]. *)
Definition below (b : Z) m m' : Prop :=
  length (data_temps m') = length (data_temps m) ∧
  (Forall (λ d, Data.arith d = true) (data_temps m) → Forall (λ d, Data.arith d = true) (data_temps m')) ∧
  ∀ i, 0 ≤ i < b → vget (data_temps m') i = vget (data_temps m) i.

Lemma below_trans b b' m1 m2 m3 : b ≤ b' → below b m1 m2 → below b' m2 m3 → below b m1 m3.
Proof.
  intros Hb (L1 & A1 & T1) (L2 & A2 & T2). split; [congruence|]. split; [auto|].
  intros i Hi. rewrite T2 by lia. auto.
Qed.

Lemma pop1_temps v m m' : pop1 v m m' → data_temps m' = data_temps m.
Proof.
  destruct v; cbn; unfold pop_bool, pop_data, pop_header, pop_union, pop_stack; intros E;
    case_match; mbind_inv E; done.
Qed.

Lemma pops_temps vs : ∀ m m', pops vs m m' → data_temps m' = data_temps m.
Proof.
  induction vs as [|v vs IH]; intros m m' Hp; [by cbn in Hp; subst|].
  destruct Hp as (m1 & H1%pop1_temps & Hp). rewrite <- H1. by apply IH.
Qed.

Lemma pops_app vs1 vs2 : ∀ m m1 m2, pops vs1 m m1 → pops vs2 m1 m2 → pops (vs1 ++ vs2) m m2.
Proof.
  induction vs1 as [|v vs1 IH]; intros m m1 m2 H1 H2; [by cbn in H1; subst|].
  destruct H1 as (m3 & Hv & H1). exists m3. split; [done|by eapply IH].
Qed.

Lemma pop1_data v m m' : pop1 v m m' →
  match v with
  | VD d => ∃ r, data_temps_stack m = r :: data_temps_stack m' ∧ deref env consts m r = Some d
  | _ => data_temps_stack m' = data_temps_stack m
  end.
Proof.
  destruct v; cbn; unfold pop_bool, pop_data, pop_header, pop_union, pop_stack; intros E;
    case_match; mbind_inv E; try done. eauto.
Qed.

Lemma pops_agree vs : ∀ m m' ns, pops vs m m' → agree ns (data_temps_stack m) → (nd vs ≤ length ns)%nat →
  agree (drop (nd vs) ns) (data_temps_stack m').
Proof.
  induction vs as [|v vs IH]; intros m m' ns Hp Ha Hn; [by cbn in Hp; subst|].
  destruct Hp as (m1 & H1%pop1_data & Hp). destruct v; cbn in *; try (eapply IH; [done|by rewrite H1|done]).
  destruct H1 as (r & E & _). destruct ns as [|n ns]; cbn in *; [lia|].
  rewrite E in Ha. apply agree_pop in Ha. eapply IH; [done..|lia].
Qed.

Lemma deref_below ns m m' r ds :
  Forall (λ n, n = 0 ∨ n = 1) ns → agree ns (r :: ds) → below (total ns) m m' →
  deref env consts m' r = deref env consts m r.
Proof.
  intros Hn Ha (_ & _ & Ht). destruct r; try done. cbn. apply Ht. eapply agree_bound; [done..|by left].
Qed.

(** Pushing more, and writing the temporaries above those in use, leaves the
    values where they are. *)
Lemma pops_below vs : ∀ m m' m1 ns,
  pops vs m m1 → Forall (λ n, n = 0 ∨ n = 1) ns → agree ns (data_temps_stack m) →
  stacks m' = stacks m → below (total ns) m m' →
  ∃ m2, pops vs m' m2 ∧ stacks m2 = stacks m1.
Proof.
  induction vs as [|v vs IH]; intros m m' m1 ns Hp Hn Ha Hs Hb; [cbn in Hp; subst; by exists m'|].
  destruct Hp as (m3 & Hv & Hp).
  assert (∃ m4, pop1 v m' m4 ∧ stacks m4 = stacks m3) as (m4 & Hv4 & Hs4).
  { injection Hs as E1 E2 E3 E4 E5. destruct v; cbn in Hv |- *;
      unfold pop_bool, pop_data, pop_header, pop_union, pop_stack in *; rewrite ?E1, ?E2, ?E3, ?E4, ?E5 in *.
    2: { destruct (data_temps_stack m) as [|r rs] eqn:Er; [done|].
      rewrite (deref_below ns m m' r rs) by done. mbind_inv Hv. eexists. split; [done|].
      unfold stacks. cbn. congruence. }
    all: case_match; [done|]; simplify_eq; eexists; split; [done|]; unfold stacks; cbn; congruence. }
  destruct (IH m3 m4 m1 ns Hp Hn) as (m2 & Hp2 & Hs2).
  - apply pop1_data in Hv. destruct v; try (by rewrite Hv). destruct Hv as (r & E & _). rewrite E in Ha.
    by eapply agree_tail.
  - done.
  - pose proof (pop1_temps _ _ _ Hv) as T1. pose proof (pop1_temps _ _ _ Hv4) as T2.
    destruct Hb as (L & A & T). unfold below. rewrite T1, T2. done.
  - exists m2. split; [|done]. exists m4. done.
Qed.

Definition good (s : Regs) m : Prop :=
  registers_cnt s ≤ Z.of_nat (length (data_temps m)) ∧ Forall (λ d, Data.arith d = true) (data_temps m).

Definition computes (n : nat) c (den : option (list Val)) : Prop :=
  ∀ s0, regs_ok s0 → ∃ l' s1 new, assign_loop c s0 = Some (l', s1) ∧ regs_ok s1 ∧
    new_registers s1 = new ++ new_registers s0 ∧ (n ≤ length new)%nat ∧ registers_cnt s0 ≤ registers_cnt s1 ∧
    ∀ m, agree (new_registers s0) (data_temps_stack m) → good s1 m →
      match den with
      | None => ∀ rest, run env consts 0 (l' ++ rest) m = None
      | Some vs => nd vs = n ∧ ∃ m', (∀ rest, run env consts 0 (l' ++ rest) m = run env consts 0 rest m') ∧
          ext m vs m' ∧ agree (new_registers s1) (data_temps_stack m') ∧ below (registers_curr s0) m m'
      end.

Lemma computes_ext n c d d' : computes n c d → d = d' → computes n c d'.
Proof. by intros Hc <-. Qed.

Lemma good_mono s s' m : registers_cnt s ≤ registers_cnt s' → good s' m → good s m.
Proof. intros Hle [? ?]. split; [lia|done]. Qed.

Lemma good_below s b m m' : good s m → below b m m' → good s m'.
Proof. intros [? ?] (L & A & _). split; [rewrite L; lia|auto]. Qed.

Lemma curr_mono s0 s1 new : regs_ok s0 → regs_ok s1 → new_registers s1 = new ++ new_registers s0 →
  registers_curr s0 ≤ registers_curr s1.
Proof.
  intros (E0 & _ & _) (E1 & F1 & _) En. rewrite E0, E1, En, total_app. rewrite En in F1.
  apply Forall_app in F1 as [F1 _]. pose proof (total_nonneg new F1). lia.
Qed.

Lemma nd_app vs1 vs2 : nd (vs1 ++ vs2) = (nd vs1 + nd vs2)%nat.
Proof. induction vs1 as [|[] vs1 IH]; cbn; auto. Qed.

Lemma computes_nil : computes 0 [] (Some []).
Proof.
  intros s0 Hs. exists [], s0, []. split; [done|]. split; [done|]. split; [done|]. split; [done|]. split; [done|].
  intros m Ha Hg. split; [done|]. exists m. split; [done|]. split; [by exists m|]. split; [done|]. done.
Qed.

Lemma computes_app n1 c1 d1 n2 c2 d2 :
  computes n1 c1 d1 → computes n2 c2 d2 →
  computes (n1 + n2) (c1 ++ c2) (v1 ← d1; v2 ← d2; Some (v2 ++ v1)).
Proof.
  intros H1 H2 s0 Hs0. destruct (H1 s0 Hs0) as (l1 & s1 & new1 & E1 & Hs1 & En1 & Hl1 & Hc1 & R1).
  destruct (H2 s1 Hs1) as (l2 & s2 & new2 & E2 & Hs2 & En2 & Hl2 & Hc2 & R2).
  exists (l1 ++ l2), s2, (new2 ++ new1). rewrite assign_app, E1. msimpl. rewrite E2. msimpl.
  split; [done|]. split; [done|]. split; [by rewrite En2, En1, app_assoc|].
  split; [rewrite length_app; lia|]. split; [lia|]. intros m Ha Hg.
  specialize (R1 m Ha (good_mono _ _ _ Hc2 Hg)). destruct d1 as [vs1|]; msimpl; [|intros rest; by rewrite <- app_assoc].
  destruct R1 as (Hn1 & m1 & Hr1 & Hx1 & Ha1 & Hb1). specialize (R2 m1 Ha1 (good_below _ _ _ _ Hg Hb1)).
  destruct d2 as [vs2|]; msimpl; [|intros rest; by rewrite <- app_assoc, Hr1].
  destruct R2 as (Hn2 & m2 & Hr2 & Hx2 & Ha2 & Hb2). split; [rewrite nd_app; lia|]. exists m2.
  split; [intros rest; by rewrite <- app_assoc, Hr1|]. split; [|split; [done|]].
  - destruct Hx2 as (m3 & Hp2 & Hs3), Hx1 as (m4 & Hp1 & Hs4).
    destruct (pops_below vs1 m1 m3 m4 (new_registers s1) Hp1 (proj1 (proj2 Hs1)) Ha1 Hs3) as (m5 & Hp5 & Hs5).
    { rewrite <- (proj1 Hs1). pose proof (pops_temps _ _ _ Hp2) as T. destruct Hb2 as (L & A & B).
      unfold below. by rewrite T. }
    exists m5. split; [by eapply pops_app|congruence].
  - eapply below_trans; [|done..]. by eapply curr_mono.
Qed.

(** *** Operations *)

Inductive Kind := KNone | KRef | KTemp.

Fixpoint reg_pops (n : nat) (s : Regs) : option Regs :=
  match n with O => Some s | S n' => s ← reg_pop s; reg_pops n' s end.

(** What an operation that takes [n] data does to the assignment. *)
Definition static (k : Kind) (n : nat) o : Prop := ∀ s,
  assign_op o s = (s ← reg_pops n s; Some (match k with
    | KNone => (o, reg_max s)
    | KRef => (o, reg_max (reg_push s 0))
    | KTemp => (with_dest o s, reg_max (reg_push s 1))
    end)).

Lemma reg_pops_ok n : ∀ s, regs_ok s → (n ≤ length (new_registers s))%nat →
  ∃ s', reg_pops n s = Some s' ∧ regs_ok s' ∧ new_registers s' = drop n (new_registers s) ∧
    registers_cnt s' = registers_cnt s.
Proof.
  induction n as [|n IH]; intros s Hs Hn; [by exists s; rewrite drop_0|]. cbn [reg_pops]. unfold reg_pop.
  destruct Hs as (E & F & Hle). destruct (new_registers s) as [|x ns] eqn:En; cbn in Hn; [lia|]. msimpl.
  apply Forall_cons in F as [Fx F]. unfold total in E. cbn in E.
  apply (IH {| registers_curr := registers_curr s - x; new_registers := ns; registers_cnt := registers_cnt s |});
    [|cbn; lia]. split; [unfold total; cbn; lia|]. cbn. split; [done|]. lia.
Qed.

(** The assignment of an operation after code that leaves enough data. *)
Lemma static_after k n c d o s0 : computes n c d → static k n o → regs_ok s0 →
  ∃ l' s1 s2 new, assign_loop (c ++ [o]) s0 =
      Some (l' ++ [match k with KTemp => with_dest o s2 | _ => o end],
            reg_max (match k with KNone => s2 | KRef => reg_push s2 0 | KTemp => reg_push s2 1 end)) ∧
    regs_ok s1 ∧ regs_ok s2 ∧ new_registers s2 = new ++ new_registers s0 ∧
    new_registers s2 = drop n (new_registers s1) ∧ (n ≤ length (new_registers s1))%nat ∧
    registers_cnt s0 ≤ registers_cnt s2 ∧
    registers_cnt s2 = registers_cnt s1 ∧
    ∀ m, agree (new_registers s0) (data_temps_stack m) → good s1 m →
      match d with
      | None => ∀ rest, run env consts 0 (l' ++ rest) m = None
      | Some vs => nd vs = n ∧ ∃ m', (∀ rest, run env consts 0 (l' ++ rest) m = run env consts 0 rest m') ∧
          ext m vs m' ∧ agree (new_registers s1) (data_temps_stack m') ∧ below (registers_curr s0) m m'
      end.
Proof.
  intros Hc Hst Hs0. destruct (Hc s0 Hs0) as (l' & s1 & new & E & Hs1 & En & Hl & Hcnt & R).
  destruct (reg_pops_ok n s1 Hs1) as (s2 & E2 & Hs2 & En2 & Hc2); [rewrite En, length_app; lia|].
  exists l', s1, s2, (drop n new). rewrite assign_app, E. msimpl. cbn [assign_loop]. rewrite Hst, E2. msimpl.
  split; [by destruct k|]. split; [done|]. split; [done|].
  split; [rewrite En2, En, drop_app_le by lia; done|]. split; [done|]. split; [rewrite En, length_app; lia|].
  split; [lia|]. split; [done|]. exact R.
Qed.

Lemma regs_push s n : regs_ok s → n = 0 ∨ n = 1 → regs_ok (reg_max (reg_push s n)) ∧ 
  new_registers (reg_max (reg_push s n)) = n :: new_registers s ∧
  registers_cnt s ≤ registers_cnt (reg_max (reg_push s n)) ∧
  registers_curr s + n ≤ registers_cnt (reg_max (reg_push s n)).
Proof.
  intros (E & F & Hle) Hn. unfold regs_ok, reg_max, reg_push, total in *. cbn. split; [|split; [done|lia]].
  split; [lia|]. split; [by constructor|lia].
Qed.

Definition dummy : Machine := start [].
Definition is_temp (r : DataRef) : bool := match r with RefTemp _ => true | _ => false end.

Lemma deref_dummy m r : is_temp r = false → deref env consts m r = deref env consts dummy r.
Proof. by destruct r. Qed.

Definition not_data (v : Val) : Prop := match v with VD _ => False | _ => True end.
Definition push_val m (v : Val) : Machine :=
  match v with VB b => push_bool m b | VH h => push_header m h | VU u => push_union m u | VS s => push_stack m s
  | VD _ => m end.

Lemma pop_push_val m v : not_data v → ∃ m', pop1 v (push_val m v) m' ∧ stacks m' = stacks m ∧
  data_temps_stack (push_val m v) = data_temps_stack m ∧ data_temps (push_val m v) = data_temps m.
Proof. destruct v; try done; intros _; cbn; eexists; split; (done || by destruct m). Qed.

Lemma computes_none n c d o f :
  computes n c d → static KNone n o →
  (∀ vs v, f vs = Some v → not_data v) →
  (∀ m vs m1, d = Some vs → pops vs m m1 →
     step env consts o m = (v ← f vs; Some (0%nat, push_val m1 v))) →
  computes 0 (c ++ [o]) (vs ← d; v ← f vs; Some [v]).
Proof.
  intros Hc Hst Hnd Hstep s0 Hs0.
  destruct (static_after KNone n c d o s0 Hc Hst Hs0)
    as (l' & s1 & s2 & new & E & Hs1 & Hs2 & En & Ed & Hl & Hcnt & Hcc & R).
  exists (l' ++ [o]), (reg_max s2), new. split; [done|]. split; [destruct Hs2 as (? & ? & ?); split_and!; (done || cbn; lia)|].
  split; [done|]. split; [lia|]. split; [unfold reg_max; cbn; lia|]. intros m Ha Hg.
  assert (good s1 m) as Hg1 by (eapply good_mono; [|done]; unfold reg_max; cbn; lia). specialize (R m Ha Hg1).
  destruct d as [vs|]; msimpl; [|intros rest; by rewrite <- app_assoc].
  destruct R as (Hn & m' & Hr & (m1 & Hp & Hs) & Ha' & Hb).
  assert (∀ rest, run env consts 0 ((l' ++ [o]) ++ rest) m =
    (v ← f vs; run env consts 0 rest (push_val m1 v))) as Hrun.
  { intros rest. rewrite <- app_assoc, Hr. cbn [app run]. rewrite (Hstep m' vs m1) by done.
    by destruct (f vs). }
  destruct (f vs) as [v|] eqn:Ef; msimpl; [|done]. apply Hnd in Ef.
  split; [by destruct v|]. exists (push_val m1 v). split; [done|].
  destruct (pop_push_val m1 v Ef) as (m2 & Hp2 & Hs2' & Hd & Ht).
  split; [exists m2; split; [by exists m2|congruence]|]. rewrite Hd. cbn [reg_max new_registers].
  split; [rewrite Ed, <- Hn; eapply pops_agree; (done || lia)|].
  pose proof (pops_temps _ _ _ Hp) as T. destruct Hb as (L & A & B). unfold below. by rewrite Ht, T.
Qed.

Lemma computes_ref n c d o f :
  computes n c d → static KRef n o →
  (∀ vs r, f vs = Some r → is_temp r = false) →
  (∀ m vs m1, d = Some vs → pops vs m m1 →
     step env consts o m = (r ← f vs; m2 ← push_checked env consts m1 r; Some (0%nat, m2))) →
  computes 1 (c ++ [o]) (vs ← d; r ← f vs; x ← deref env consts dummy r; Some [VD x]).
Proof.
  intros Hc Hst Hnt Hstep s0 Hs0.
  destruct (static_after KRef n c d o s0 Hc Hst Hs0)
    as (l' & s1 & s2 & new & E & Hs1 & Hs2 & En & Ed & Hl & Hcnt & Hcc & R).
  destruct (regs_push s2 0 Hs2) as (Hs3 & En3 & Hc3 & _); [by left|].
  exists (l' ++ [o]), (reg_max (reg_push s2 0)), (0 :: new). split; [done|]. split; [done|].
  split; [by rewrite En3, En|]. split; [cbn; lia|]. split; [lia|]. intros m Ha Hg.
  assert (good s1 m) as Hg1 by (eapply good_mono; [|done]; lia). specialize (R m Ha Hg1).
  destruct d as [vs|]; msimpl; [|intros rest; by rewrite <- app_assoc].
  destruct R as (Hn & m' & Hr & (m1 & Hp & Hs) & Ha' & Hb).
  assert (∀ rest, run env consts 0 ((l' ++ [o]) ++ rest) m =
    (r ← f vs; x ← deref env consts dummy r; run env consts 0 rest (push_ref m1 r))) as Hrun.
  { intros rest. rewrite <- app_assoc, Hr. cbn [app run]. rewrite (Hstep m' vs m1) by done.
    destruct (f vs) as [r|] eqn:Ef; msimpl; [|done]. unfold push_checked. rewrite (deref_dummy m1) by eauto.
    by destruct (deref env consts dummy r). }
  destruct (f vs) as [r|] eqn:Ef; cbn [mbind option_bind] in Hrun |- *; [|done]. apply Hnt in Ef.
  destruct (deref env consts dummy r) as [x|] eqn:Ex; cbn [mbind option_bind] in Hrun |- *; [|done].
  split; [done|]. exists (push_ref m1 r). split; [done|]. split; [|split].
  - exists m1. split; [|done]. exists m1. split; [|done]. cbn. unfold pop_data. cbn.
    replace (deref env consts (push_ref m1 r) r) with (Some x); [by destruct m1|].
    rewrite deref_dummy by done. done.
  - rewrite En3. cbn. apply agree_ref; [rewrite Ed, <- Hn; eapply pops_agree; (done || lia)|].
    intros i ->. done.
  - pose proof (pops_temps _ _ _ Hp) as T. destruct Hb as (L & A & B). unfold below. cbn. by rewrite T.
Qed.

Lemma computes_temp n c d o f :
  computes n c d → static KTemp n o →
  (∀ m vs m1 i, d = Some vs → pops vs m m1 → let o' := {| opcode := opcode o; payload := data_dest_index i |} in
     step env consts o' m = (v ← f vs; m2 ← set_temp m1 o' v; Some (0%nat, m2))) →
  computes 1 (c ++ [o]) (vs ← d; v ← f vs; Some [VD {| Data.value := v; Data.arith := true |}]).
Proof.
  intros Hc Hst Hstep s0 Hs0.
  destruct (static_after KTemp n c d o s0 Hc Hst Hs0)
    as (l' & s1 & s2 & new & E & Hs1 & Hs2 & En & Ed & Hl & Hcnt & Hcc & R).
  destruct (regs_push s2 1 Hs2) as (Hs3 & En3 & Hc3 & Hc4); [by right|].
  exists (l' ++ [with_dest o s2]), (reg_max (reg_push s2 1)), (1 :: new). split; [done|]. split; [done|].
  split; [by rewrite En3, En|]. split; [cbn; lia|]. split; [lia|]. intros m Ha Hg.
  assert (good s1 m) as Hg1 by (eapply good_mono; [|done]; lia). specialize (R m Ha Hg1).
  destruct d as [vs|]; msimpl; [|intros rest; by rewrite <- app_assoc].
  destruct R as (Hn & m' & Hr & (m1 & Hp & Hs) & Ha' & Hb). pose proof (pops_temps _ _ _ Hp) as T.
  assert (0 ≤ registers_curr s2) as Hpos by (destruct Hs2 as (-> & F & _); by apply total_nonneg).
  assert (0 ≤ registers_curr s2 < Z.of_nat (length (data_temps m1))) as Hi.
  { destruct Hg as [Hg _]. rewrite T, (proj1 Hb). lia. }
  destruct (proj2 (vget_is_Some (data_temps m1) (registers_curr s2)) Hi) as [d0 Ed0].
  assert (Data.arith d0 = true) as Harith.
  { destruct Hg as [_ Hg]. rewrite T in Ed0. apply Hb in Hg. rewrite vget_nat in Ed0 by lia.
    by eapply Forall_lookup_1 in Hg. }
  assert (∀ rest, run env consts 0 ((l' ++ [with_dest o s2]) ++ rest) m =
    (v ← f vs; m2 ← set_temp m1 (with_dest o s2) v; run env consts 0 rest m2)) as Hrun.
  { intros rest. rewrite <- app_assoc, Hr. cbn [app run]. unfold with_dest at 1.
    rewrite (Hstep m' vs m1 (registers_curr s2)) by done. fold (with_dest o s2).
    destruct (f vs) as [v|]; msimpl; [|done]. by destruct (set_temp m1 _ v). }
  destruct (f vs) as [v|]; cbn [mbind option_bind] in Hrun |- *; [|done].
  unfold set_temp in Hrun. cbn [payload with_dest] in Hrun.
  destruct (vupd_Some (data_temps m1) _ (λ d, {| Data.value := v; Data.arith := Data.arith d |}) _ Ed0) as (ts & Eu & Es).
  rewrite Harith in Es. rewrite Eu in Hrun. cbn [mbind option_bind] in Hrun. set (x := {| Data.value := v; Data.arith := true |}) in *.
  split; [done|]. eexists. split; [exact Hrun|].
  assert (vget ts (registers_curr s2) = Some x) as Ex by (rewrite (vget_vset _ _ _ _ _ Es); by rewrite decide_True).
  split; [|split].
  - eexists. split; [eexists; split; [cbn; unfold pop_data; cbn; rewrite Ex; done|done]|]. unfold stacks in *. cbn. done.
  - rewrite En3. cbn. apply agree_ref; [rewrite Ed, <- Hn; eapply pops_agree; (done || lia)|].
    intros i [= <-]. split; [done|]. apply Hs2.
  - destruct Hb as (L & A & B). unfold below. cbn. rewrite (vset_length _ _ _ _ Es), T.
    split; [done|]. split.
    + intros F%A. rewrite <- T in F. apply vset_inv in Es as [_ ->]. by apply Forall_insert.
    + intros i Hi'. rewrite (vget_vset _ _ _ _ _ Es), decide_False, T; [by apply B|].
      pose proof (curr_mono s0 s2 new Hs0 Hs2 En). lia.
Qed.

(** *** Conditionals *)

Lemma computes_skip n op : opcode op = TERNARY_OP ∨ opcode op = SKIP → static KNone n op → n = 0%nat →
  ∀ s, assign_loop [op] s = Some ([op], reg_max s).
Proof. intros Ho Hst -> s. cbn. by rewrite Hst. Qed.

Lemma reg_max_ok s : regs_ok s → regs_ok (reg_max s) ∧ registers_cnt s ≤ registers_cnt (reg_max s).
Proof. intros (? & ? & ?). split; [split_and!; (done || cbn; lia)|cbn; lia]. Qed.

Lemma run_over l op rest m :
  run env consts (length l + 1) (l ++ op :: rest) m = run env consts 0 rest m.
Proof.
  replace (l ++ op :: rest) with ((l ++ [op]) ++ rest) by (by rewrite <- app_assoc).
  rewrite <- (run_skip env consts (l ++ [op]) rest m). by rewrite length_app.
Qed.

Lemma computes_if n c d c1 d1 c2 d2 :
  computes 0 c (b ← d; Some [VB b]) → computes n c1 d1 → computes n c2 d2 →
  computes n (c ++ op_ TERNARY_OP Unset :: op_ SKIP (skip_num (Z.of_nat (length c1) + 1)) ::
              c1 ++ op_ SKIP (skip_num (Z.of_nat (length c2))) :: c2)
    (b ← d; if b : bool then d1 else d2).
Proof.
  intros Hc H1 H2 s0 Hs0. destruct (Hc s0 Hs0) as (l & s1 & new & E & Hs1 & En & _ & Hcnt & R).
  destruct (reg_max_ok s1 Hs1) as [Hs1' Hc1']. destruct (reg_max_ok _ Hs1') as [Hs1'' Hc1''].
  destruct (H1 _ Hs1'') as (l1 & s2 & new1 & E1 & Hs2 & En1 & Hl1 & Hcnt1 & R1).
  destruct (reg_max_ok s2 Hs2) as [Hs2' Hc2'].
  destruct (H2 _ Hs2') as (l2 & s3 & new2 & E2 & Hs3 & En2 & Hl2 & Hcnt2 & R2).
  set (t := op_ TERNARY_OP Unset). set (k1 := op_ SKIP _). set (k2 := op_ SKIP _).
  exists (l ++ t :: k1 :: l1 ++ k2 :: l2), s3, (new2 ++ new1 ++ new). rewrite assign_app, E. cbn [mbind option_bind].
  change (assign_loop (t :: k1 :: c1 ++ k2 :: c2) s1) with
    ('(l', s) ← ('(l', s) ← assign_loop (c1 ++ k2 :: c2) (reg_max (reg_max s1)); Some (k1 :: l', s)); Some (t :: l', s)).
  rewrite assign_app, E1. cbn [mbind option_bind].
  change (assign_loop (k2 :: c2) s2) with ('(l', s) ← assign_loop c2 (reg_max s2); Some (k2 :: l', s)).
  rewrite E2. cbn [mbind option_bind]. cbn in En1, En2.
  split; [done|]. split; [done|]. split; [by rewrite En2, En1, En, !app_assoc|].
  split; [rewrite length_app; lia|]. split; [lia|]. intros m Ha Hg.
  assert (good s1 m) as Hg1 by (eapply good_mono; [|done]; lia). specialize (R m Ha Hg1).
  destruct d as [b|]; cbn [mbind option_bind] in R |- *; [|intros rest; by rewrite <- app_assoc].
  destruct R as (_ & m1 & Hr & (m2 & (m2' & Hp & ->) & Hs) & Ha1 & Hb1). cbn in Hp.
  pose proof (pop1_temps (VB b) _ _ Hp) as T. pose proof (pop1_data (VB b) _ _ Hp) as D. cbn in D.
  assert (below (registers_curr s0) m m2') as Hb2.
  { destruct Hb1 as (L & A & B). unfold below. by rewrite T. }
  assert (∀ rest, run env consts 0 ((l ++ t :: k1 :: l1 ++ k2 :: l2) ++ rest) m =
    run env consts (if b then 1 else 0) (k1 :: l1 ++ k2 :: l2 ++ rest) m2') as Hrun.
  { intros rest. rewrite <- app_assoc, Hr. cbn [app run]. cbn [step t op_ opcode]. rewrite Hp.
    cbn [mbind option_bind]. by rewrite <- app_assoc. }
  pose proof (assign_length _ _ _ _ E1) as Len1. pose proof (assign_length _ _ _ _ E2) as Len2.
  pose proof (curr_mono s0 s1 new Hs0 Hs1 En) as Hm1. pose proof (curr_mono s1 s2 new1 Hs1 Hs2 En1) as Hm2.
  rewrite <- D in Ha1. destruct b.
  - specialize (R1 m2' Ha1). cbn [run] in Hrun. destruct d1 as [vs|].
    + destruct R1 as (Hn & m3 & Hr3 & Hx & Ha3 & Hb3); [apply (good_mono s2 s3); [lia|by eapply good_below]|].
      split; [done|]. exists m3. split; [|split; [|split]].
      * intros rest. rewrite Hrun, Hr3. cbn [run step k2 op_ opcode payload mbind option_bind].
        rewrite Nat2Z.id, <- Len2. apply run_skip.
      * destruct Hx as (m4 & Hp4 & Hs4). exists m4. split; [done|congruence].
      * rewrite En2. by apply agree_app.
      * eapply below_trans; [exact Hm1|done|done].
    + intros rest. rewrite Hrun. apply R1. apply (good_mono s2 s3); [lia|by eapply good_below].
  - assert (∀ rest, run env consts 0 (k1 :: l1 ++ k2 :: l2 ++ rest) m2' = run env consts 0 (l2 ++ rest) m2') as Hover.
    { intros rest. cbn [run step k1 op_ opcode payload mbind option_bind].
      replace (Z.to_nat (Z.of_nat (length c1) + 1)) with (length l1 + 1)%nat by lia. apply run_over. }
    assert (agree (new_registers (reg_max s2)) (data_temps_stack m2')) as Ha2 by (cbn; rewrite En1; by apply agree_app).
    specialize (R2 m2' Ha2 (good_below _ _ _ _ Hg Hb2)). destruct d2 as [vs|].
    + destruct R2 as (Hn & m3 & Hr3 & Hx & Ha3 & Hb3). split; [done|]. exists m3. split; [|split; [|split; [done|]]].
      * intros rest. by rewrite Hrun, Hover, Hr3.
      * destruct Hx as (m4 & Hp4 & Hs4). exists m4. split; [done|congruence].
      * eapply below_trans; [|exact Hb2|exact Hb3]. cbn. lia.
    + intros rest. rewrite Hrun, Hover. apply R2.
Qed.
End machine.

(** ** The theorem *)
Section correct.
Context `{Gmp, GmpSize} (env : Env) (consts : list Data.Data).

Definition inj {s} : value s → Val :=
  match s with SBool => VB | SData => VD | SHeader => VH | SUnion => VU end.
Definition size_of (s : Sort) : nat := match s with SData => 1 | _ => 0 end.

Definition result {s} (v : option (value s)) : option (list Val) := v ← v; Some [inj v].

(** The constants of a tree are where its code looks for them. *)
Definition consts_at (k : Z) (cs : list Data.Data) : Prop :=
  ∀ i d, cs !! i = Some d → vget consts (k + Z.of_nat i) = Some d.

Lemma consts_at_app k cs1 cs2 :
  consts_at k (cs1 ++ cs2) → consts_at k cs1 ∧ consts_at (k + Z.of_nat (length cs1)) cs2.
Proof.
  intros Hc. split; intros i d E.
  - apply Hc. by apply lookup_app_l_Some.
  - replace (k + Z.of_nat (length cs1) + Z.of_nat i) with (k + Z.of_nat (length cs1 + i)) by lia. apply Hc.
    rewrite lookup_app_r by lia. by replace (length cs1 + i - length cs1)%nat with i by lia.
Qed.

Ltac solve_static :=
  intros ?s; unfold assign_op; cbn [opcode op_ reg_pops mbind option_bind];
  repeat (match goal with |- context [reg_pop ?x] => destruct (reg_pop x) as [?|] end; cbn [mbind option_bind]);
  try done.

Lemma static_data c : is_Some (data_binop c) → static KTemp 2 (op_ c Unset).
Proof. intros [f E]. destruct c; try done; solve_static. Qed.

Lemma static_cmp c : is_Some (data_cmp c) → static KNone 2 (op_ c Unset).
Proof. intros [f E]. destruct c; try done; solve_static. Qed.

Lemma static_bool c : is_Some (bool_binop c) → static KNone 0 (op_ c Unset).
Proof. intros [f E]. destruct c; try done; solve_static. Qed.

Lemma step_data c m i : is_Some (data_binop c) →
  let o := {| opcode := c; payload := data_dest_index i |} in
  step env consts o m = (f ← data_binop c; '(rd, m) ← pop_data env consts m; '(ld, m) ← pop_data env consts m;
    m ← (v ← f ld rd; set_temp m o v); Some (0%nat, m)).
Proof. intros [f E]. by destruct c. Qed.

Lemma step_cmp c m : is_Some (data_cmp c) →
  step env consts (op_ c Unset) m = (f ← data_cmp c; '(rd, m) ← pop_data env consts m; '(ld, m) ← pop_data env consts m;
    m ← (b ← f ld rd; Some (push_bool m b)); Some (0%nat, m)).
Proof. intros [f E]. by destruct c. Qed.

Lemma step_bool c m : is_Some (bool_binop c) →
  step env consts (op_ c Unset) m = (f ← bool_binop c; '(rb, m) ← pop_bool m; '(lb, m) ← pop_bool m;
    Some (0%nat, push_bool m (f lb rb))).
Proof. intros [f E]. by destruct c. Qed.

Definition result2 {s1 s2} (v1 : option (value s1)) (v2 : option (value s2)) : option (list Val) :=
  l ← v1; r ← v2; Some [inj r; inj l].

Lemma computes_two {s1 s2} (v1 : option (value s1)) (v2 : option (value s2)) n1 n2 c1 c2 :
  computes env consts n1 c1 (result v1) → computes env consts n2 c2 (result v2) →
  computes env consts (n1 + n2) (c1 ++ c2) (result2 v1 v2).
Proof.
  intros H1 H2. eapply computes_ext; [by apply computes_app|]. unfold result, result2.
  destruct v1 as [l|]; [|done]. by destruct v2.
Qed.

Lemma result_Some {s} (v : option (value s)) vs : result v = Some vs → ∃ x, v = Some x ∧ vs = [inj x].
Proof. destruct v as [x|]; [|done]. cbn. intros [= <-]. by exists x. Qed.

Lemma result2_Some {s1 s2} (v1 : option (value s1)) (v2 : option (value s2)) vs :
  result2 v1 v2 = Some vs → ∃ l r, v1 = Some l ∧ v2 = Some r ∧ vs = [inj r; inj l].
Proof. destruct v1 as [l|]; [|done]. destruct v2 as [r|]; [|done]. cbn. intros [= <-]. by exists l, r. Qed.

Ltac pops_inv :=
  repeat match goal with
  | H : result ?v = Some _ |- _ => apply result_Some in H as (?x & ?E & ->)
  | H : result2 ?v ?w = Some _ |- _ => apply result2_Some in H as (?l & ?r & ?E & ?E & ->)
  | H : Some _ = Some _ |- _ => injection H as <-
  | H : pops _ _ (_ :: _) _ _ |- _ => destruct H as (?m & ?Hp & H); cbn [pop1 inj] in *
  | H : pops _ _ [] _ _ |- _ => cbn [pops] in H; subst
  end.

(** The leaves that push a reference. *)
Lemma leaf_ref o f : static KRef 0 o → (∀ r, f = Some r → is_temp r = false) →
  (∀ m, step env consts o m = (r ← f; m2 ← push_checked env consts m r; Some (0%nat, m2))) →
  computes env consts 1 [o] (r ← f; x ← deref env consts dummy r; Some [VD x]).
Proof.
  intros Hst Hf Hstep. apply (computes_ref env consts 0 [] (Some []) o (λ _, f) (computes_nil env consts) Hst).
  - intros _. exact Hf.
  - intros m vs m1 Hd Hp. pops_inv. apply Hstep.
Qed.

(** The leaves that push something else. *)
Lemma leaf_none o f : static KNone 0 o → (∀ v, f = Some v → not_data v) →
  (∀ m, step env consts o m = (v ← f; Some (0%nat, push_val m v))) →
  computes env consts 0 [o] (v ← f; Some [v]).
Proof.
  intros Hst Hf Hstep. apply (computes_none env consts 0 [] (Some []) o (λ _, f) (computes_nil env consts) Hst).
  - intros _. exact Hf.
  - intros m vs m1 Hd Hp. pops_inv. apply Hstep.
Qed.

Lemma code_stack st : computes env consts 0 [stack_code st] (_ ← stack_count env st; Some [VS st]).
Proof.
  eapply computes_ext; [eapply (leaf_none (stack_code st) (_ ← stack_count env st; Some (VS st)))|].
  - destruct st; solve_static.
  - intros v E. by mbind_inv E.
  - intros m. destruct st as [i|i]; cbn [step stack_code op_ opcode load payload];
      destruct (stack_count env _); done.
  - by destruct (stack_count env st).
Qed.

(** One value after another operation. *)
Ltac by_pops :=
  intros; pops_inv; repeat match goal with o := _ |- _ => subst o end; cbn [step op_ opcode payload load mbind option_bind];
  repeat match goal with Hp : ?p = Some _ |- context [?p] => rewrite Hp; cbn [mbind option_bind] end.
Ltac by_binds :=
  cbn [mbind option_bind inj app];
  repeat (match goal with |- context [@mbind option _ _ _ _ ?x] =>
    lazymatch x with mbind _ _ => fail | Some _ => fail | _ => destruct x end end; cbn [mbind option_bind inj app]);
  try done.
Ltac by_cases :=
  unfold result, result2; repeat (case_match; cbn [mbind option_bind]; simplify_eq; try done); try done.

(** A value without data made of [n] data, and of a stack and data. *)
Ltac by_unary n f IH :=
  eapply computes_ext; [eapply (computes_none _ _ n _ _ _ f); [by apply IH|solve_static| |]|];
    [intros vs v E; by_cases; by mbind_inv E|by_pops; by_binds|unfold result; by_binds].
Ltac by_deref f IH :=
  rewrite app_comm_cons;
  match goal with |- computes _ _ _ ((?o :: ?c) ++ _) _ => change (o :: c) with ([o] ++ c) end;
  eapply computes_ext; [eapply (computes_none _ _ 1 _ _ _ f);
    [eapply (computes_app _ _ 0 _ _ 1); [eapply (code_stack (RefHeaderStack _)) || eapply (code_stack (RefUnionStack _))
       |by apply IH]|solve_static| |]|];
    [intros vs v E; by_cases; by mbind_inv E| |unfold result; by_binds];
  intros m vs m1 Hd; destruct (stack_count _ _) as [?|]; cbn [mbind option_bind] in Hd; [|done];
  match type of Hd with context [result ?d] => destruct d as [?|]; [|done] end; cbn in Hd;
  by_pops; by_binds.

Lemma code_correct {s} (e : exp s) : wf e → ∀ k, consts_at k (consts_of e) →
  computes env consts (size_of s) (code k e) (result (denote env e)).
Proof.
  induction e; cbn [wf consts_of code size_of denote]; intros Hwf k Hk; destruct_and?.
  - (* EField *)
    eapply computes_ext; [apply (leaf_ref _ (Some (RefField hdr off)))|]; [solve_static|by intros ? [= <-]|done|].
    cbn. unfold result. by destruct (get_field env hdr off).
  - eapply computes_ext; [apply (leaf_ref _ (Some (RefConst k)))|]; [solve_static|by intros ? [= <-]|done|].
    cbn. rewrite <- (Z.add_0_r k). change 0 with (Z.of_nat 0). by rewrite (Hk 0%nat (Data.copy d)).
  - eapply computes_ext; [apply (leaf_ref _ (Some (RefLocal i)))|]; [solve_static|by intros ? [= <-]|done|].
    cbn. unfold result. by destruct (vget (locals env) i).
  - eapply computes_ext; [apply (leaf_ref _ (st ← vget (Phv.header_stacks (phv env)) hs;
      hdr ← Phv.get_last st; Some (RefField hdr off)))|]; [solve_static| | |].
    + intros r E. by mbind_inv E.
    + intros m. cbn [step op_ opcode payload load]. destruct (vget _ hs) as [st|]; [|done]. msimpl.
      by destruct (Phv.get_last st).
    + destruct (vget _ hs) as [st|]; [|done]. msimpl. destruct (Phv.get_last st); [|done]. cbn. unfold result.
      by destruct (get_field _ _ _).
  - eapply computes_ext; [apply (leaf_ref _ (Some (RefRegister array idx)))|]; [solve_static|by intros ? [= <-]|done|].
    cbn. unfold result. by destruct (vget (registers env array) idx).
  - (* ERegisterAt *)
    eapply computes_ext; [eapply (computes_ref _ _ 1 _ _ _ (λ vs, match vs with [VD d] => i ← get_size d;
      Some (RefRegister array i) | _ => None end)); [by apply IHe|solve_static| |]|].
    + intros vs r E. by_cases. by mbind_inv E.
    + by_pops; try (match goal with |- context [get_size ?x] => by destruct (get_size x) end).
    + unfold result. destruct (denote env e) as [d|]; [|done]. cbn. destruct (get_size d); [|done]. cbn.
      by destruct (vget _ _).
  - eapply computes_ext; [eapply (computes_ref _ _ 0 _ _ _ (λ vs, match vs with [VH h] => Some (RefField h off)
      | _ => None end)); [by apply IHe|solve_static| |]|].
    + intros vs r E. by_cases.
    + by_pops; by_binds.
    + unfold result. destruct (denote env e) as [d|]; [|done]. cbn. by destruct (get_field _ _ _).
  - (* EArith *)
    apply consts_at_app in Hk as [Hk1 Hk2]. rewrite app_assoc.
    eapply computes_ext; [eapply (computes_temp _ _ 2 _ _ _ (λ vs, match vs with [VD r; VD l] => f ← data_binop c; f l r
      | _ => None end)); [eapply (computes_two (denote env e1) (denote env e2) 1 1); [by apply IHe1|by apply IHe2]|by apply static_data|]|].
    + intros m vs m1 i. intros. pops_inv. unfold o'. rewrite step_data by done. destruct (data_binop c) as [f|] eqn:Ec; [|done].
      by_pops. by destruct (f _ _).
    + unfold result, result2. destruct (denote env e1) as [l|]; [|done]. destruct (denote env e2) as [r|]; [|done]. cbn.
      destruct (data_binop c) as [f|]; [|done]. cbn. by destruct (f l r).
  - eapply computes_ext; [eapply (computes_temp _ _ 1 _ _ _ (λ vs, match vs with [VD d] => Data.bit_neg d
      | _ => None end)); [by apply IHe|solve_static|]|].
    + intros m vs m1 i. by_pops; by_binds.
    + unfold result. destruct (denote env e) as [d|]; [|done]. cbn. by destruct (Data.bit_neg d).
  - eapply computes_ext; [eapply (computes_temp _ _ 0 _ _ _ (λ vs, match vs with [VB b] => Some (if b then 1 else 0)
      | _ => None end)); [by apply IHe|solve_static|]|].
    + intros m vs m1 i. by_pops; by_binds.
    + unfold result. by destruct (denote env e) as [d|].
  - eapply computes_ext; [eapply (computes_temp _ _ 0 [_] _ _ (λ vs, match vs with [VS st] => n ← stack_count env st;
      Some (u64 (n - 1)) | _ => None end)); [apply code_stack|solve_static|]|].
    + intros m vs m1 i Hd. destruct (stack_count env s) eqn:E; [|done]. cbn [mbind option_bind] in Hd.
      by_pops; by_binds.
    + unfold result. destruct (stack_count env s) eqn:E; [|done]. cbn. by rewrite E.
  - eapply computes_ext; [eapply (computes_temp _ _ 0 [_] _ _ (λ vs, match vs with [VS st] => stack_count env st
      | _ => None end)); [apply code_stack|solve_static|]|].
    + intros m vs m1 i Hd. destruct (stack_count env s) eqn:E; [|done]. cbn [mbind option_bind] in Hd.
      by_pops; by_binds.
    + unfold result. destruct (stack_count env s) eqn:E; [|done]. cbn. by rewrite E.
  - eapply computes_ext; [apply (leaf_none _ (Some (VB b)))|]; [solve_static|by intros ? [= <-]|done|done].
  - (* ECmp *)
    apply consts_at_app in Hk as [Hk1 Hk2]. rewrite app_assoc.
    eapply computes_ext; [eapply (computes_none _ _ 2 _ _ _ (λ vs, match vs with [VD r; VD l] => f ← data_cmp c;
      b ← f l r; Some (VB b) | _ => None end)); [eapply (computes_two (denote env e1) (denote env e2) 1 1);
      [by apply IHe1|by apply IHe2]|by apply static_cmp| |]|].
    + intros vs v E. by_cases. by mbind_inv E.
    + intros. pops_inv. rewrite step_cmp by done. destruct (data_cmp c) as [f|]; [|done]. by_pops; by_binds.
    + unfold result, result2. by_binds.
  - (* ECmpHeader *)
    apply consts_at_app in Hk as [Hk1 Hk2]. rewrite app_assoc.
    eapply computes_ext; [eapply (computes_none _ _ 0 _ _ _ (λ vs, match vs with [VH r; VH l] =>
      b ← header_cmp env l r; Some (VB (xorb neg b)) | _ => None end)); [eapply (computes_two (denote env e1)
      (denote env e2) 0 0); [by apply IHe1|by apply IHe2]|destruct neg; solve_static| |]|].
    + intros vs v E. by_cases. by mbind_inv E.
    + destruct neg; by_pops; by_binds.
    + unfold result, result2. by_binds.
  - (* ECmpUnion *)
    apply consts_at_app in Hk as [Hk1 Hk2]. rewrite app_assoc.
    eapply computes_ext; [eapply (computes_none _ _ 0 _ _ _ (λ vs, match vs with [VU r; VU l] =>
      b ← union_cmp env l r; Some (VB (xorb neg b)) | _ => None end)); [eapply (computes_two (denote env e1)
      (denote env e2) 0 0); [by apply IHe1|by apply IHe2]|destruct neg; solve_static| |]|].
    + intros vs v E. by_cases. by mbind_inv E.
    + destruct neg; by_pops; by_binds.
    + unfold result, result2. by_binds.
  - (* EBoolOp *)
    apply consts_at_app in Hk as [Hk1 Hk2]. rewrite app_assoc.
    eapply computes_ext; [eapply (computes_none _ _ 0 _ _ _ (λ vs, match vs with [VB r; VB l] => f ← bool_binop c;
      Some (VB (f l r)) | _ => None end)); [eapply (computes_two (denote env e1) (denote env e2) 0 0);
      [by apply IHe1|by apply IHe2]|by apply static_bool| |]|].
    + intros vs v E. by_cases. by mbind_inv E.
    + intros. pops_inv. rewrite step_bool by done. destruct (bool_binop c) as [f|]; [|done]. by_pops; by_binds.
    + unfold result, result2. by_binds.
  - by_unary 0%nat (λ vs, match vs with [VB b] => Some (VB (negb b)) | _ => None end) IHe.
  - by_unary 0%nat (λ vs, match vs with [VH h] => h ← Phv.get_header (phv env) h; Some (VB (Headers.is_valid h))
      | _ => None end) IHe.
  - by_unary 0%nat (λ vs, match vs with [VU u] => hu ← Phv.get_union (phv env) u; Some (VB (Phv.u_valid hu))
      | _ => None end) IHe.
  - by_unary 1%nat (λ vs, match vs with [VD d] => Some (VB (negb (Data.value d =? 0))) | _ => None end) IHe.
  - eapply computes_ext; [apply (leaf_none _ (_ ← Phv.get_header (phv env) hdr; Some (VH hdr)))|];
      [solve_static|intros v E; by mbind_inv E|intros m; cbn; by_binds|unfold result; by_binds].
  - (* EStackAt *)
    by_deref (λ vs, match vs with [VD d; VS (RefHeaderStack i)] => st ← vget (Phv.header_stacks (phv env)) i;
      n ← get_size d; h ← vget (Phv.elements st) n; Some (VH h) | _ => None end) IHe.
  - by_unary 0%nat (λ vs, match vs with [VU u] => hu ← Phv.get_union (phv env) u;
      h ← vget (Phv.u_headers hu) off; Some (VH h) | _ => None end) IHe.
  - eapply computes_ext; [apply (leaf_none _ (_ ← Phv.get_union (phv env) u; Some (VU u)))|];
      [solve_static|intros v E; by mbind_inv E|intros m; cbn; by_binds|unfold result; by_binds].
  - by_deref (λ vs, match vs with [VD d; VS (RefUnionStack i)] => st ← vget (Phv.header_union_stacks (phv env)) i;
      n ← get_size d; h ← vget (Phv.elements st) n; Some (VU h) | _ => None end) IHe.
  - (* EIf *)
    apply consts_at_app in Hk as [Hk1 [Hk2 Hk3]%consts_at_app].
    eapply computes_ext; [apply (computes_if _ _ _ _ (denote env e1) _ (result (denote env e2)) _
      (result (denote env e3))); [by apply IHe1|by apply IHe2|by apply IHe3]|].
    by destruct (denote env e1) as [[]|].
Qed.
End correct.
End ExprTrees.
