(* ===== verification/ExprEval.v ===== *)
(** * Evaluation of expressions

    The theorems on [Expressions]: what is built from a tree evaluates to the
    value of the tree, and an expression for the length of a header, resolved for
    a header, reads the fields of this header for its locals. *)

From S2P Require Import Prelude Data Fields Headers Phv Expressions ExprTrees.
Import (coercions) Fields.

Module ExprEval.
Import Expressions ExprTrees.

(** ** The machine evaluates trees *)
Section trees.
Context `{Gmp, GmpSize} (env : Env).

Definition arith_temps (temps : list Data.Data) : Prop := Forall (λ d, Data.arith d = true) temps.

Lemma code_nonempty {s} (e : exp s) k : code k e ≠ [].
Proof.
  intros E. apply (f_equal length) in E. destruct e; cbn [code length] in E; rewrite ?length_app in E; cbn in E; lia.
Qed.

Lemma reserve_good cnt temps : arith_temps temps →
  cnt ≤ Z.of_nat (length (reserve cnt temps)) ∧ arith_temps (reserve cnt temps).
Proof.
  intros Ht. unfold reserve. rewrite length_app, length_replicate. split; [lia|]. apply Forall_app. split; [done|].
  by apply Forall_replicate.
Qed.

(** What a tree is built into, and how it runs. *)
Lemma built_run {s} (e : exp s) : wf e → ∃ E, build (compile e new_expression) = Some E ∧ built E = true ∧
  ops E ≠ [] ∧ ∀ temps, arith_temps temps →
    match denote env e with
    | None => run env (const_values E) 0 (ops E) (start (reserve (data_registers_cnt E) temps)) = None
    | Some v => ∃ m m', run env (const_values E) 0 (ops E) (start (reserve (data_registers_cnt E) temps)) = Some m ∧
        pop1 env (const_values E) (inj v) m m' ∧ arith_temps (data_temps m')
    end.
Proof.
  intros Hwf. pose proof (compile_code e new_expression) as Hc.
  change (Z.of_nat (length (const_values new_expression))) with 0 in Hc.
  destruct (code_correct env (consts_of e) e Hwf 0) with
    (s0 := {| registers_curr := 0; new_registers := []; registers_cnt := 0 |}) as (l & s1 & new & Ea & _ & _ & _ & _ & R).
  { intros i d E. by rewrite Z.add_0_l, vget_nat, Nat2Z.id by lia. }
  { split_and!; [done|constructor|done]. }
  eexists {| ops := l; const_values := consts_of e; data_registers_cnt := registers_cnt s1; built := true |}.
  split; [unfold build, assign_dest_registers; rewrite Hc; cbn [ops appended new_expression app]; by rewrite Ea|].
  split; [done|]. split.
  { cbn. intros ->. apply assign_length in Ea. by apply (code_nonempty e 0), nil_length_inv. }
  intros temps Ht. destruct (reserve_good (registers_cnt s1) temps Ht) as [Hl Hg]. cbn [ops const_values data_registers_cnt].
  specialize (R (start (reserve (registers_cnt s1) temps)) agree_nil (conj Hl Hg)).
  destruct (denote env e) as [v|]; cbn [result mbind option_bind] in R; [|by rewrite <- (app_nil_r l)].
  destruct R as (_ & m & Hr & (m1 & (m2 & Hp & ->) & _) & _ & Hb). exists m, m2.
  split; [by rewrite <- (app_nil_r l), Hr|]. split; [done|]. apply pop1_temps in Hp. rewrite Hp. by apply Hb.
Qed.

(** C21: an expression for a number, built by the calls for a tree, evaluates to the value of the tree and fails
    where the tree has none, whatever the temporaries hold; it leaves temporaries for the next evaluation. *)
Theorem eval_arith_tree (e : exp SData) : wf e → ∃ E, build (compile e new_expression) = Some E ∧
  ∀ temps, arith_temps temps →
    match eval_arith E env temps with
    | Some (d, temps') => denote env e = Some d ∧ arith_temps temps'
    | None => denote env e = None
    end.
Proof.
  intros Hwf. destruct (built_run e Hwf) as (E & Eb & Hb & Ho & R). exists E. split; [done|]. intros temps Ht.
  specialize (R temps Ht). unfold eval_arith. rewrite Hb, decide_False by done. cbn [negb].
  destruct (denote env e) as [v|].
  - destruct R as (m & m' & -> & Hp & Ht'). cbn in Hp. msimpl. by rewrite Hp.
  - by rewrite R.
Qed.

(** The same for a boolean expression. *)
Theorem eval_bool_tree (e : exp SBool) : wf e → ∃ E, build (compile e new_expression) = Some E ∧
  ∀ temps, arith_temps temps →
    match eval_bool E env temps with
    | Some (b, temps') => denote env e = Some b ∧ arith_temps temps'
    | None => denote env e = None
    end.
Proof.
  intros Hwf. destruct (built_run e Hwf) as (E & Eb & Hb & Ho & R). exists E. split; [done|]. intros temps Ht.
  specialize (R temps Ht). unfold eval_bool. rewrite Hb, decide_False by done. cbn [negb].
  destruct (denote env e) as [v|].
  - destruct R as (m & m' & -> & Hp & Ht'). cbn in Hp. msimpl. by rewrite Hp.
  - by rewrite R.
Qed.
End trees.

(** ** Expressions of the length of a header *)
Section resolve.
Context `{Gmp, GmpSize} (env : Env) (consts : list Data.Data) (hdr : Z) (h : Headers.Header).
Context (Hh : Phv.get_header (phv env) hdr = Some h).

(** The locals that stand for the fields of the header. *)
Definition field_locals : Env :=
  {| phv := phv env; locals := Fields.base <$> Headers.fields h; registers := registers env |}.

Definition resolve_ref (r : DataRef) : DataRef := match r with RefLocal i => RefField hdr i | _ => r end.
Definition resolve_machine (m : Machine) : Machine :=
  {| bool_temps_stack := bool_temps_stack m; data_temps_stack := resolve_ref <$> data_temps_stack m;
     header_temps_stack := header_temps_stack m; stack_temps_stack := stack_temps_stack m;
     union_temps_stack := union_temps_stack m; data_temps := data_temps m |}.

Lemma deref_resolved m r : deref env consts (resolve_machine m) (resolve_ref r) = deref field_locals consts m r.
Proof.
  destruct r; try done. cbn [deref resolve_ref locals field_locals]. unfold get_field. rewrite Hh, vget_fmap. msimpl.
  by destruct (vget _ _).
Qed.

Lemma push_checked_resolved m r :
  push_checked env consts (resolve_machine m) (resolve_ref r) = resolve_machine <$> push_checked field_locals consts m r.
Proof. unfold push_checked. rewrite deref_resolved. by destruct (deref _ _ _ _). Qed.

Lemma pop_data_resolved m :
  pop_data env consts (resolve_machine m) = prod_map id resolve_machine <$> pop_data field_locals consts m.
Proof.
  unfold pop_data. cbn [data_temps_stack resolve_machine]. destruct (data_temps_stack m) as [|r rs]; [done|].
  cbn [fmap list_fmap]. rewrite deref_resolved. by destruct (deref _ _ _ _).
Qed.

Lemma resolve_push m r : push_ref (resolve_machine m) (resolve_ref r) = resolve_machine (push_ref m r).
Proof. done. Qed.

Lemma set_temp_resolved m op v : set_temp (resolve_machine m) op v = resolve_machine <$> set_temp m op v.
Proof. unfold set_temp. destruct (payload op); try done. cbn. by destruct (vupd _ _ _). Qed.

Lemma pop_bool_resolved m : pop_bool (resolve_machine m) = prod_map id resolve_machine <$> pop_bool m.
Proof. unfold pop_bool. cbn. by destruct (bool_temps_stack m). Qed.
Lemma pop_header_resolved m : pop_header (resolve_machine m) = prod_map id resolve_machine <$> pop_header m.
Proof. unfold pop_header. cbn. by destruct (header_temps_stack m). Qed.
Lemma pop_stack_resolved m : pop_stack (resolve_machine m) = prod_map id resolve_machine <$> pop_stack m.
Proof. unfold pop_stack. cbn. by destruct (stack_temps_stack m). Qed.
Lemma pop_union_resolved m : pop_union (resolve_machine m) = prod_map id resolve_machine <$> pop_union m.
Proof. unfold pop_union. cbn. by destruct (union_temps_stack m). Qed.

Ltac by_resolved :=
  change (stack_count field_locals) with (stack_count env);
  change (header_cmp field_locals) with (header_cmp env);
  change (union_cmp field_locals) with (union_cmp env);
  cbn [phv registers field_locals];
  repeat (rewrite ?pop_data_resolved, ?pop_bool_resolved, ?pop_header_resolved, ?pop_stack_resolved,
      ?pop_union_resolved, ?set_temp_resolved;
    match goal with
    | |- context [match ?s with RefHeaderStack _ => _ | RefUnionStack _ => _ end] => destruct s
    | |- context [push_checked env consts (resolve_machine ?m) ?r] =>
        change (push_checked env consts (resolve_machine m) r) with
          (push_checked env consts (resolve_machine m) (resolve_ref r)); rewrite push_checked_resolved
    | |- context [@mbind option _ _ _ _ ?x] =>
        lazymatch x with mbind _ _ => fail | Some _ => fail | fmap _ _ => fail 
        | _ => lazymatch type of x with option (_ * _) => destruct x as [[]|] | _ => destruct x end end
    end; cbn [mbind option_bind fmap option_fmap option_map prod_map id fst snd]);
  try done.

Lemma load_resolved op m :
  load env consts (resolve_machine m) (resolve_op hdr op) = resolve_machine <$> load field_locals consts m op.
Proof.
  destruct op as [c p]. destruct c; try done; destruct p; try done; unfold resolve_op, load; cbn [opcode payload];
    try exact (push_checked_resolved m (RefLocal _)); by_resolved.
Qed.

Lemma resolve_other c p : c ≠ LOAD_LOCAL → resolve_op hdr {| opcode := c; payload := p |} = {| opcode := c; payload := p |}.
Proof. by destruct c. Qed.

Lemma step_resolved op m :
  step env consts (resolve_op hdr op) (resolve_machine m) = prod_map id resolve_machine <$> step field_locals consts op m.
Proof.
  pose proof (load_resolved op m) as Hl. destruct op as [c p].
  destruct c; try rewrite resolve_other in Hl |- * by done; unfold step; cbn [opcode];
    try (rewrite Hl; by destruct (load field_locals consts m _)).
  { destruct p; try done; cbn [resolve_op opcode payload] in *; rewrite Hl;
      by destruct (load field_locals consts m _). }
  all: clear Hl; by_resolved. by destruct p.
Qed.

Lemma run_resolved l : ∀ skip m,
  run env consts skip (resolve_op hdr <$> l) (resolve_machine m) = resolve_machine <$> run field_locals consts skip l m.
Proof.
  induction l as [|op l IH]; intros skip m; [done|]. cbn [fmap list_fmap run]. destruct skip as [|skip]; [|apply IH].
  rewrite step_resolved. destruct (step field_locals consts op m) as [[k m']|]; [|done]. apply IH.
Qed.
End resolve.

(** An expression for the length of a header, resolved for one of the headers of a packet, is worth what the
    original is with the fields of this header for its locals, and changes the temporaries in the same way. *)
Theorem resolve_eval `{Gmp, GmpSize} v hdr env h E temps :
  Phv.get_header (phv env) hdr = Some h → resolve v hdr = Some E →
  eval_arith E env temps = eval_arith (expr v) (field_locals env h) temps ∧
  eval_bool E env temps = eval_bool (expr v) (field_locals env h) temps.
Proof.
  intros Hh Hr. unfold resolve in Hr. destruct (built (expr v)) eqn:Eb; [|done]. injection Hr as <-.
  unfold eval_arith, eval_bool. cbn [built ops const_values data_registers_cnt with_ops]. rewrite Eb. cbn [negb].
  destruct (decide (ops (expr v) = [])) as [Eo|Ho];
    [by rewrite !decide_True by (by rewrite ?Eo)|]. rewrite !decide_False by (by intros ?%fmap_nil_inv).
  set (m0 := start _). pose proof (run_resolved env (const_values (expr v)) hdr h Hh (ops (expr v)) 0 m0) as Hrun.
  change (resolve_machine hdr m0) with m0 in Hrun. rewrite Hrun.
  clear Hrun. destruct (run (field_locals env h) _ _ _ m0) as [m|]; [|by split]. msimpl. split.
  - rewrite (pop_data_resolved env _ hdr h Hh). by destruct (pop_data _ _ m) as [[]|].
  - rewrite pop_bool_resolved. by destruct (pop_bool m) as [[]|].
Qed.

(** ** Examples *)
Import GmpExample PhvExamples.

#[local] Instance GmpSize_Z : GmpSize := λ z, z mod 2 ^ 64.
#[local] Instance GmpSize_Z_laws : GmpSizeLaws.
Proof. intros z Hz. by apply Z.mod_small. Qed.

Definition num (v : Z) : Data.Data := {| Data.value := v; Data.arith := true |}.
Definition example_env : Env :=
  {| phv := tags; locals := [num 5]; registers := λ a, if a =? 7 then [num 10; num 20] else [] |}.

(** [valid(h1) ? reg7[l0 - 4] + 3 * 2 : 0], whose branches leave different temporaries. *)
Definition example_exp : exp SData :=
  EIf (EValid (EHeader 1))
    (EArith ADD (ERegisterAt 7 (EArith SUB (ELocal 0) (EConst (num 4)))) (EArith MUL (EConst (num 3)) (EConst (num 2))))
    (EConst (num 0)).

Lemma eval_arith_tree_witness :
  denote example_env example_exp = Some (num 26) ∧
  ∃ E, build (compile example_exp new_expression) = Some E ∧ ∀ temps, arith_temps temps →
    match eval_arith E example_env temps with
    | Some (d, temps') => denote example_env example_exp = Some d ∧ arith_temps temps'
    | None => denote example_env example_exp = None
    end.
Proof. split; [vm_compute; done|]. apply eval_arith_tree. cbn. split_and!; by eexists. Defined.

Lemma eval_bool_tree_witness :
  ∃ E, build (compile (ECmp GT_DATA example_exp (EConst (num 25))) new_expression) = Some E ∧
    ∀ temps, arith_temps temps →
    match eval_bool E example_env temps with
    | Some (b, temps') => denote example_env (ECmp GT_DATA example_exp (EConst (num 25))) = Some b ∧ arith_temps temps'
    | None => denote example_env (ECmp GT_DATA example_exp (EConst (num 25))) = None
    end.
Proof. apply eval_bool_tree. cbn. split_and!; by eexists. Defined.

(** [l0 * 8], the length of a header with its first field for the local. *)
Definition length_expr : VLHeaderExpression :=
  new_VL (default new_expression (build (compile (EArith MUL (ELocal 0) (EConst (num 8))) new_expression))).

Example length_offsets : get_input_offsets length_expr = [0].
Proof. reflexivity. Qed.

Definition full_env : Env := {| phv := full_tags; locals := []; registers := λ _, [] |}.

Lemma resolve_eval_witness : ∃ h E,
  Phv.get_header full_tags 4 = Some h ∧ resolve length_expr 4 = Some E ∧
  eval_arith E full_env [] = Some (num 160, [num 160]) ∧
  eval_arith E full_env [] = eval_arith (expr length_expr) (field_locals full_env h) [] ∧
  eval_bool E full_env [] = eval_bool (expr length_expr) (field_locals full_env h) [].
Proof.
  eexists _, _. split; [vm_compute; reflexivity|]. split; [vm_compute; reflexivity|]. split; [vm_compute; reflexivity|].
  apply (resolve_eval length_expr 4 full_env); vm_compute; reflexivity.
Defined.
End ExprEval.
