(* ===== verification/ErrorCodes.v ===== *)
(** * Error codes (include/bm/bm_sim/parser_error.h, src/bm_sim/parser_error.cpp)

    A bi-directional map between the codes and the names of the errors of a
    program. [None] is a missing key of [at], or an overflow. *)

From stdpp Require Import gmap strings.
From S2P Require Import Prelude.

(** [ErrorCodeMap::Core] *)
Inductive Core := NoError | PacketTooShort | NoMatch | StackOutOfBounds | HeaderTooShort | ParserTimeout.

#[export] Instance Core_eq_dec : EqDecision Core.
Proof. solve_decision. Defined.

Module ErrorCodes.

Record ErrorCodeMap := {
  map_v_to_name : gmap Z string;
  map_name_to_v : gmap string Z;
}.

Implicit Types (m : ErrorCodeMap) (name : string) (v : Z).

Definition empty_map : ErrorCodeMap := {| map_v_to_name := ∅; map_name_to_v := ∅ |}.

Definition exists_name m name : bool := bool_decide (is_Some (map_name_to_v m !! name)).
Definition exists_v m v : bool := bool_decide (is_Some (map_v_to_name m !! v)).

Definition add m name v : ErrorCodeMap * bool :=
  if exists_name m name || exists_v m v then (m, false)
  else ({| map_v_to_name := <[v := name]> (map_v_to_name m); map_name_to_v := <[name := v]> (map_name_to_v m) |}, true).

Definition core_to_name (core : Core) : string :=
  match core with
  | NoError => "NoError"
  | PacketTooShort => "PacketTooShort"
  | NoMatch => "NoMatch"
  | StackOutOfBounds => "StackOutOfBounds"
  | HeaderTooShort => "HeaderTooShort"
  | ParserTimeout => "ParserTimeout"
  end.

Definition all_core : list Core :=
  [NoError; PacketTooShort; NoMatch; StackOutOfBounds; HeaderTooShort; ParserTimeout].

(** An [int] that does not overflow. *)
Definition int_max : Z := 2 ^ 31 - 1.
Definition next_code (v : Z) : option Z := if v <? int_max then Some (v + 1) else None.

(** [std::max_element] of the codes, plus one; 0 when there are none. *)
Definition max_code m : option Z := map_fold (λ v _ acc, Some (default v ((Z.max v) <$> acc))) None (map_v_to_name m).
Definition first_code m : option Z := match max_code m with None => Some 0 | Some v => next_code v end.

Fixpoint add_core_loop (cores : list Core) m (max_v : Z) : option ErrorCodeMap :=
  match cores with
  | [] => Some m
  | core :: cores' =>
      let name := core_to_name core in
      if exists_name m name then add_core_loop cores' m max_v
      else max_v' ← next_code max_v; add_core_loop cores' (add m name max_v).1 max_v'
  end.

Definition add_core m : option ErrorCodeMap := max_v ← first_code m; add_core_loop all_core m max_v.

Definition from_name m name : option Z := map_name_to_v m !! name.
Definition from_core m (core : Core) : option Z := map_name_to_v m !! core_to_name core.
Definition to_name m v : option string := map_v_to_name m !! v.
Definition make_with_core : option ErrorCodeMap := add_core empty_map.

(** ** The two maps are inverse *)

Definition inverse m : Prop := ∀ v name, to_name m v = Some name ↔ from_name m name = Some v.

Lemma empty_inverse : inverse empty_map.
Proof. intros v name. unfold to_name, from_name. cbn. by rewrite !lookup_empty. Qed.

Lemma exists_name_spec m name : exists_name m name = false ↔ from_name m name = None.
Proof. unfold exists_name, from_name. rewrite bool_decide_eq_false, eq_None_not_Some. done. Qed.
Lemma exists_v_spec m v : exists_v m v = false ↔ to_name m v = None.
Proof. unfold exists_v, to_name. rewrite bool_decide_eq_false, eq_None_not_Some. done. Qed.

Lemma add_fresh m name v : from_name m name = None → to_name m v = None →
  (add m name v).2 = true ∧
  (∀ n, from_name (add m name v).1 n = if decide (n = name) then Some v else from_name m n) ∧
  ∀ w, to_name (add m name v).1 w = if decide (w = v) then Some name else to_name m w.
Proof.
  intros Hn%exists_name_spec Hv%exists_v_spec. unfold add. rewrite Hn, Hv. cbn. split; [done|].
  split; [intros n|intros w]; unfold from_name, to_name; cbn; case_decide; simplify_map_eq; done.
Qed.

Lemma add_inverse m name v : inverse m → inverse (add m name v).1.
Proof.
  intros Hm. destruct (exists_name m name || exists_v m v) eqn:E; [by unfold add; rewrite E|].
  apply orb_false_iff in E as [En Ev]. apply exists_name_spec in En. apply exists_v_spec in Ev.
  destruct (add_fresh m name v En Ev) as (_ & Hf & Ht). intros w n. rewrite Hf, Ht.
  pose proof (Hm w n) as Hwn. pose proof (Hm v n) as Hvn. pose proof (Hm w name) as Hwname.
  repeat case_decide; subst; naive_solver.
Qed.

Lemma next_code_spec v v' : next_code v = Some v' → v' = v + 1 ∧ v < int_max.
Proof. unfold next_code. destruct (Z.ltb_spec v int_max); [|done]. by intros [= <-]. Qed.

(** The codes from [b] on are free. *)
Definition free_from m (b : Z) : Prop := ∀ v, b ≤ v → to_name m v = None.

Lemma max_code_spec m :
  match max_code m with
  | None => map_v_to_name m = ∅
  | Some b => ∀ v, is_Some (to_name m v) → v ≤ b
  end.
Proof.
  unfold max_code, to_name. generalize (map_v_to_name m) as M. intros M.
  apply (map_fold_weak_ind (λ (r : option Z) (M : gmap Z string), match r with None => M = ∅ | Some b => ∀ v, is_Some (M !! v) → v ≤ b end));
    [done|].
  intros i x M' r Hi IH. intros v. rewrite lookup_insert_is_Some'. destruct r as [b|]; cbn.
  - intros [->|Hv%IH]; lia.
  - intros [->|Hv]; [lia|]. rewrite IH, lookup_empty in Hv. by destruct Hv.
Qed.

Lemma first_code_free m b : first_code m = Some b → free_from m b.
Proof.
  unfold first_code. pose proof (max_code_spec m) as Hm. destruct (max_code m) as [c|].
  - intros [-> _]%next_code_spec v Hv. apply eq_None_not_Some. intros Hs%Hm. lia.
  - intros _ v _. unfold to_name. by rewrite Hm.
Qed.

Lemma core_to_name_inj c c' : core_to_name c = core_to_name c' → c = c'.
Proof. by destruct c, c'. Qed.

Lemma add_core_loop_spec cores : ∀ m b m', inverse m → free_from m b → add_core_loop cores m b = Some m' →
  inverse m' ∧ (∀ n v, from_name m n = Some v → from_name m' n = Some v) ∧
  ∀ c, c ∈ cores → is_Some (from_core m' c).
Proof.
  induction cores as [|c cores IH]; intros m b m' Hm Hb E; cbn [add_core_loop] in E.
  { injection E as <-. split_and!; try done. intros c Hc. by apply elem_of_nil in Hc. }
  destruct (exists_name m (core_to_name c)) eqn:En.
  - destruct (IH m b m' Hm Hb E) as (? & Hf & ?). split_and!; [done..|]. intros c'. rewrite elem_of_cons.
    intros [->|Hc]; [|auto]. apply bool_decide_eq_true in En as [v Ev]. exists v. by apply Hf.
  - destruct (next_code b) as [b'|] eqn:Eb; [|done]. apply next_code_spec in Eb as [-> _]. cbn in E.
    apply exists_name_spec in En. destruct (add_fresh m _ b En (Hb b (Z.le_refl _))) as (_ & Hf1 & Ht1).
    assert (free_from (add m (core_to_name c) b).1 (b + 1)) as Hb1
      by (intros v Hv; rewrite Ht1, decide_False by lia; apply Hb; lia).
    destruct (IH _ _ _ (add_inverse m (core_to_name c) b Hm) Hb1 E) as (? & Hf & Hc').
    split_and!; [done| |].
    + intros n v Ev. apply Hf. rewrite Hf1. case_decide; [congruence|done].
    + intros c'. rewrite elem_of_cons. intros [->|Hc]; [|auto]. exists b. apply Hf. by rewrite Hf1, decide_True.
Qed.

(** Adding the core errors to the error codes of a program keeps the codes there are, gives a code to every
    core error, all different, and names and codes stay in a one-to-one correspondence. *)
Theorem add_core_ok m m' : inverse m → add_core m = Some m' →
  inverse m' ∧ (∀ n v, from_name m n = Some v → from_name m' n = Some v) ∧
  (∀ c, is_Some (from_core m' c)) ∧ ∀ c c' v, from_core m' c = Some v → from_core m' c' = Some v → c = c'.
Proof.
  unfold add_core. intros Hm E. destruct (first_code m) as [b|] eqn:Eb; [|done]. cbn in E.
  destruct (add_core_loop_spec all_core m b m' Hm (first_code_free _ _ Eb) E) as (Hm' & Hf & Hc).
  split; [done|]. split; [done|]. split; [intros c; apply Hc; destruct c; repeat constructor|].
  intros c c' v E1 E2. apply core_to_name_inj. apply Hm' in E1. apply Hm' in E2. congruence.
Qed.

Lemma add_core_ok_witness : ∃ m m',
  (add (add empty_map "BadTTL" 5).1 "NoError" 3).1 = m ∧ add_core m = Some m' ∧
  (from_core m' <$> all_core) = [Some 3; Some 6; Some 7; Some 8; Some 9; Some 10] ∧
  inverse m' ∧ (∀ n v, from_name m n = Some v → from_name m' n = Some v) ∧
  (∀ c, is_Some (from_core m' c)) ∧ ∀ c c' v, from_core m' c = Some v → from_core m' c' = Some v → c = c'.
Proof.
  eexists _, _. split; [reflexivity|]. split; [vm_compute; reflexivity|]. split; [vm_compute; reflexivity|].
  apply (add_core_ok (add (add empty_map "BadTTL" 5).1 "NoError" 3).1); [|vm_compute; reflexivity].
  apply add_inverse, add_inverse, empty_inverse.
Defined.

(** A program with the greatest code leaves none for the core errors: the code
    after it overflows. *)
Example no_code_left : add_core (add empty_map "Last" int_max).1 = None.
Proof. vm_compute. reflexivity. Qed.
End ErrorCodes.
