(* ===== verification/Parser.v ===== *)
(** * The parser (include/bm/bm_sim/parser.h, src/bm_sim/parser.cpp)

    A parser reads the headers of a packet: a graph of states, each of them a list
    of operations and a switch on a key. An operation may throw one of the
    errors of [ErrorCodes], with the packet as it is by then; it is [None] where
    the code fails an assertion or reads outside the data of the packet.

    A pointer to a state is its index in the list of states; a pointer to the
    shadow of a value set is a pair of indices. What the code keeps elsewhere is a
    field of [Env]: the expressions that headers have for their length, and the
    actions that states call. An expression is evaluated with new temporaries: by
    [eval_arith_tree] its value does not depend on them. *)

From stdpp Require Import gmap.
From S2P Require Import Prelude Extract ByteContainer Data Fields Headers Phv Expressions ErrorCodes.
Import (coercions) Fields.

(** Conversions of big numbers to [int]: numbers in its range are themselves. *)
Class GmpInt := convert_to_int : Z → Z.
Class GmpIntLaws `{GmpInt} : Prop := {
  convert_to_int_small z : - 2 ^ 31 ≤ z < 2 ^ 31 → convert_to_int z = z;
  convert_to_int_range z : - 2 ^ 31 ≤ convert_to_int z < 2 ^ 31;
}.

Module Parser.
Import Expressions.

Record field_t := { f_header : Z; f_offset : Z }.

Record ParserLookAhead := { byte_offset : Z; bit_offset : Z; bitwidth : Z; nbytes : Z }.

Definition make_lookahead (offset bitwidth : Z) : ParserLookAhead :=
  {| byte_offset := Z.quot offset 8; bit_offset := Z.rem offset 8; bitwidth := bitwidth;
     nbytes := Z.quot (bitwidth + 7) 8 |}.

(** The pointer is the data from it on. *)
Definition peek (l : ParserLookAhead) (data : list Z) (res : list Z) : option (list Z) :=
  if 0 <=? byte_offset l then
    bs ← Extract.generic_extract (drop (Z.to_nat (byte_offset l)) data) (bit_offset l) (bitwidth l)
      (replicate (Z.to_nat (nbytes l)) 0);
    Some (res ++ bs)
  else None.

Inductive ParserOp :=
  | ParserOpExtract (header : Z)
  | ParserOpExtractVL (header : Z) (field_length_expr : Expression) (max_header_bytes : Z)
  | ParserOpExtractStack (header_stack : Z)
  | ParserOpExtractUnionStack (header_union_stack header_offset : Z)
  | ParserOpVerify (condition error_expr : Expression)
  | ParserOpMethodCall (action : Z)
  | ParserOpShift (shift_bytes : Z)
  | ParserOpSet_field (dst src : field_t)
  | ParserOpSet_data (dst : field_t) (src : Data.Data)
  | ParserOpSet_lookahead (dst : field_t) (src : ParserLookAhead)
  | ParserOpSet_expression (dst : field_t) (src : Expression).

Inductive Entry :=
  | FIELD (field : field_t)
  | LOOKAHEAD (lookahead : ParserLookAhead)
  | STACK_FIELD (header_stack offset : Z)
  | UNION_STACK_FIELD (header_union_stack header_offset offset : Z).

Record ParseSwitchKeyBuilder := { entries : list Entry; bitwidths : list Z }.

(** ** Value sets *)

Inductive VSetKind := ParseVSetBase | ParseVSetNoMask | ParseVSetMask (mask : list Z).

Record VSet := {
  kind : VSetKind;
  vs_compressed_bitwidth : Z;
  vs_width : Z;
  vs_bitwidths : list Z;
  vs_set : gset (list Z);
}.

(** The first shadow is the base of the value set. *)
Record ParseVSet := { compressed_bitwidth : Z; shadows : list VSet }.

Inductive ParseSwitchCase :=
  | SwitchCase (key : list Z) (next_state : option nat)
  | SwitchCaseWithMask (key mask : list Z) (next_state : option nat)
  | SwitchCaseVSet (vset shadow : Z) (next_state : option nat).

Record ParseState := {
  parser_ops : list ParserOp;
  has_switch : bool;
  key_builder : ParseSwitchKeyBuilder;
  parser_switch : list ParseSwitchCase;
  default_next_state : option nat;
}.

Inductive parser_exception :=
  | parser_exception_arch (code : Z)
  | parser_exception_core (core : Core).

(** [parser_exception::get] *)
Definition exception_code (error_codes : ErrorCodes.ErrorCodeMap) (e : parser_exception) : option Z :=
  match e with
  | parser_exception_arch code => Some code
  | parser_exception_core core => ErrorCodes.from_core error_codes core
  end.

(** *** The shadows of a value set *)
Section vset.
Implicit Types (s : VSet) (v : list Z).

Definition field_bytes (w : Z) : Z := Z.quot (w + 7) 8.
Definition sum_of_widths (ws : list Z) : Z := foldl Z.add 0 ws.

Definition compute_width (k : VSetKind) (compressed : Z) (ws : list Z) : option Z :=
  match k with
  | ParseVSetBase => Some (Z.quot (compressed + 7) 8)
  | _ => if decide (ws = []) then None else Some (sum_of_widths (field_bytes <$> ws))
  end.

Definition new_vset (k : VSetKind) (compressed : Z) (ws : list Z) : option VSet :=
  w ← compute_width k compressed ws;
  Some {| kind := k; vs_compressed_bitwidth := compressed; vs_width := w; vs_bitwidths := ws; vs_set := ∅ |}.

(** The loop of [do_padding]: the bytes of the fields of [ws], one after the
    other; the values are packed in [src]. *)
Fixpoint pad_loop (ws : list Z) (src : list Z) (offset : Z) : option (list Z) :=
  match ws with
  | [] => Some []
  | w :: ws' =>
      bs ← Extract.generic_extract src offset w (replicate (Z.to_nat (field_bytes w)) 0);
      let offset := offset + w in
      rest ← pad_loop ws' (drop (Z.to_nat (offset / 8)) src) (offset mod 8);
      Some (bs ++ rest)
  end.

Definition do_padding s v : option (list Z) :=
  match kind s with
  | ParseVSetBase => Some v
  | _ =>
      if Z.of_nat (length (vs_bitwidths s)) =? 1 then Some v else
      let n := sum_of_widths (vs_bitwidths s) in
      if Z.of_nat (length v) =? Z.quot (n + 7) 8 then
        pad_loop (vs_bitwidths s) v (Z.shiftl (Z.of_nat (length v)) 3 - n)
      else None
  end.

Fixpoint mask_v (v mask : list Z) : option (list Z) :=
  match v, mask with
  | [], _ => Some []
  | _, [] => None
  | b :: v', m :: mask' => r ← mask_v v' mask'; Some (Z.land b m :: r)
  end.

Definition transform_input s v : option (list Z) :=
  match kind s with ParseVSetMask mask => mask_v v mask | _ => Some v end.

Definition with_set s (x : gset (list Z)) : VSet :=
  {| kind := kind s; vs_compressed_bitwidth := vs_compressed_bitwidth s; vs_width := vs_width s;
     vs_bitwidths := vs_bitwidths s; vs_set := x |}.

Definition vs_key s v : option (list Z) :=
  v ← do_padding s v; v ← transform_input s v;
  if Z.of_nat (length v) =? vs_width s then Some v else None.

Definition vs_add s v : option VSet := v ← vs_key s v; Some (with_set s ({[v]} ∪ vs_set s)).
Definition vs_remove s v : option VSet := v ← vs_key s v; Some (with_set s (vs_set s ∖ {[v]})).
Definition vs_contains s v : option bool :=
  v' ← transform_input s v;
  if Z.of_nat (length v) =? vs_width s then Some (bool_decide (v' ∈ vs_set s)) else None.
Definition vs_clear s : VSet := with_set s ∅.
Definition vs_size s : Z := Z.of_nat (size (vs_set s)).

(** *** Value sets *)
Implicit Types (p : ParseVSet).

Definition new_ParseVSet (compressed : Z) : option ParseVSet :=
  base ← new_vset ParseVSetBase compressed [];
  Some {| compressed_bitwidth := compressed; shadows := [base] |}.
Definition with_shadows p (l : list VSet) : ParseVSet :=
  {| compressed_bitwidth := compressed_bitwidth p; shadows := l |}.
Definition add_shadow p s : ParseVSet := with_shadows p (shadows p ++ [s]).
Definition pvs_add p v : option ParseVSet := l ← mapM (λ s, vs_add s v) (shadows p); Some (with_shadows p l).
Definition pvs_remove p v : option ParseVSet := l ← mapM (λ s, vs_remove s v) (shadows p); Some (with_shadows p l).
Definition pvs_clear p : ParseVSet := with_shadows p (vs_clear <$> shadows p).
Definition pvs_base p : option VSet := vget (shadows p) 0.
Definition pvs_contains p v : option bool := s ← pvs_base p; vs_contains s v.
Definition pvs_size p : option Z := vs_size <$> pvs_base p.
End vset.

(** ** Building keys and states *)
Section build.
Implicit Types (b : ParseSwitchKeyBuilder) (s : ParseState) (next_state : option nat).

Definition empty_builder : ParseSwitchKeyBuilder := {| entries := []; bitwidths := [] |}.
Definition push_back_entry b (e : Entry) (w : Z) : ParseSwitchKeyBuilder :=
  {| entries := entries b ++ [e]; bitwidths := bitwidths b ++ [w] |}.
Definition push_back_field b (header field_offset bitwidth : Z) :=
  push_back_entry b (FIELD {| f_header := header; f_offset := field_offset |}) bitwidth.
Definition push_back_stack_field b (header_stack field_offset bitwidth : Z) :=
  push_back_entry b (STACK_FIELD header_stack field_offset) bitwidth.
Definition push_back_union_stack_field b (header_union_stack header_offset field_offset bitwidth : Z) :=
  push_back_entry b (UNION_STACK_FIELD header_union_stack header_offset field_offset) bitwidth.
Definition push_back_lookahead b (offset bitwidth : Z) :=
  push_back_entry b (LOOKAHEAD (make_lookahead offset bitwidth)) bitwidth.

Definition new_state : ParseState :=
  {| parser_ops := []; has_switch := false; key_builder := empty_builder; parser_switch := [];
     default_next_state := None |}.
Definition add_op s (op : ParserOp) : ParseState :=
  {| parser_ops := parser_ops s ++ [op]; has_switch := has_switch s; key_builder := key_builder s;
     parser_switch := parser_switch s; default_next_state := default_next_state s |}.
Definition add_extract s (header : Z) := add_op s (ParserOpExtract header).
Definition add_extract_VL s (header : Z) (e : Expression) (max_header_bytes : Z) :=
  add_op s (ParserOpExtractVL header e max_header_bytes).
Definition add_extract_to_stack s (header_stack : Z) := add_op s (ParserOpExtractStack header_stack).
Definition add_extract_to_union_stack s (header_union_stack header_offset : Z) :=
  add_op s (ParserOpExtractUnionStack header_union_stack header_offset).
Definition add_set_from_field s (dst_header dst_offset src_header src_offset : Z) :=
  add_op s (ParserOpSet_field {| f_header := dst_header; f_offset := dst_offset |}
    {| f_header := src_header; f_offset := src_offset |}).
Definition add_set_from_data s (dst_header dst_offset : Z) (src : Data.Data) :=
  add_op s (ParserOpSet_data {| f_header := dst_header; f_offset := dst_offset |} (Data.copy src)).
Definition add_set_from_lookahead s (dst_header dst_offset src_offset src_bitwidth : Z) :=
  add_op s (ParserOpSet_lookahead {| f_header := dst_header; f_offset := dst_offset |}
    (make_lookahead src_offset src_bitwidth)).
Definition add_set_from_expression s (dst_header dst_offset : Z) (e : Expression) :=
  add_op s (ParserOpSet_expression {| f_header := dst_header; f_offset := dst_offset |} e).
Definition add_verify s (condition error_expr : Expression) := add_op s (ParserOpVerify condition error_expr).
Definition add_method_call s (action_fn : Z) := add_op s (ParserOpMethodCall action_fn).
Definition add_shift s (shift_bytes : Z) := add_op s (ParserOpShift shift_bytes).

Definition set_key_builder s b : ParseState :=
  {| parser_ops := parser_ops s; has_switch := true; key_builder := b; parser_switch := parser_switch s;
     default_next_state := default_next_state s |}.
Definition push_case s (c : ParseSwitchCase) : ParseState :=
  {| parser_ops := parser_ops s; has_switch := has_switch s; key_builder := key_builder s;
     parser_switch := parser_switch s ++ [c]; default_next_state := default_next_state s |}.
Definition set_default_switch_case s (default_next : option nat) : ParseState :=
  {| parser_ops := parser_ops s; has_switch := has_switch s; key_builder := key_builder s;
     parser_switch := parser_switch s; default_next_state := default_next |}.

(** The loop reads the mask up to the length of the key. *)
Fixpoint mask_key (key mask : list Z) : option (list Z) :=
  match key, mask with
  | [], _ => Some []
  | _, [] => None
  | k :: key', m :: mask' => r ← mask_key key' mask'; Some (Z.land k m :: r)
  end.

Definition make_case (key : list Z) next_state := SwitchCase key next_state.
Definition make_case_with_mask (key mask : list Z) next_state : option ParseSwitchCase :=
  if (length key =? length mask)%nat then
    key ← mask_key key mask; Some (SwitchCaseWithMask key mask next_state)
  else None.

Definition add_switch_case s key next_state : ParseState := push_case s (make_case key next_state).
Definition add_switch_case_with_mask s key mask next_state : option ParseState :=
  c ← make_case_with_mask key mask next_state; Some (push_case s c).

(** [ParseSwitchCaseVSet]: registers its shadow with the value set [i]. *)
Definition make_case_vset (vsets : list ParseVSet) (i : Z) (k : VSetKind) (bitwidths : list Z) next_state
    : option (ParseSwitchCase * list ParseVSet) :=
  p ← vget vsets i;
  s ← new_vset k (compressed_bitwidth p) bitwidths;
  vsets ← vset vsets i (add_shadow p s);
  Some (SwitchCaseVSet i (Z.of_nat (length (shadows p))) next_state, vsets).

Definition add_switch_case_vset (vsets : list ParseVSet) s (vset_ : Z) next_state
    : option (ParseState * list ParseVSet) :=
  '(c, vsets) ← make_case_vset vsets vset_ ParseVSetNoMask (bitwidths (key_builder s)) next_state;
  Some (push_case s c, vsets).
Definition add_switch_case_vset_with_mask (vsets : list ParseVSet) s (vset_ : Z) (mask : list Z) next_state
    : option (ParseState * list ParseVSet) :=
  '(c, vsets) ← make_case_vset vsets vset_ (ParseVSetMask mask) (bitwidths (key_builder s)) next_state;
  Some (push_case s c, vsets).
End build.

(** ** Parsing *)

(** What parsing changes besides the packet's data. *)
Record State := { phv : Phv.PHV; registers : Z → list Data.Data }.

(** What parsing does not change. *)
Record Env := {
  ingress_length : Z;
  data : list Z;                              (** [pkt->data()], to the end of the buffer *)
  vsets : list ParseVSet;
  VL_expr : Z → option Expression;            (** of the headers *)
  execute : Z → State → option State;         (** of the actions *)
}.

Section parse.
Context `{Gmp, GmpSize, GmpInt}.
Context (env : Env).
Implicit Types (s : State) (op : ParserOp) (bytes_parsed : Z).

Definition with_phv s (p : Phv.PHV) : State := {| phv := p; registers := registers s |}.

(** What an operation does: the state, the bytes parsed, and what it throws. *)
Definition Outcome : Type := State * Z * option parser_exception.
Definition done_ s bytes_parsed : option Outcome := Some (s, bytes_parsed, None).
Definition throw s bytes_parsed (e : parser_exception) : option Outcome := Some (s, bytes_parsed, Some e).

Definition expr_env s (p : Phv.PHV) : Expressions.Env :=
  {| Expressions.phv := p; locals := []; Expressions.registers := registers s |}.
Definition arith s (p : Phv.PHV) (e : Expression) : option Data.Data := fst <$> eval_arith e (expr_env s p) [].
Definition bool_ s (p : Phv.PHV) (e : Expression) : option bool := fst <$> eval_bool e (expr_env s p) [].
Definition get_int (d : Data.Data) : option Z :=
  if Data.arith d then Some (convert_to_int (Data.value d)) else None.

(** [VL_fn] of [Header::extract_VL] *)
Definition VL_fn s (id : Z) (p : Phv.PHV) : option Z := e ← VL_expr env id; d ← arith s p e; get_int d.

Definition get_field (p : Phv.PHV) (f : field_t) : option Fields.Field :=
  h ← Phv.get_header p (f_header f); vget (Headers.fields h) (f_offset f).
Definition set_field (p : Phv.PHV) (f : field_t) (x : Fields.Field) : option Phv.PHV :=
  h ← Phv.get_header p (f_header f); fs ← vset (Headers.fields h) (f_offset f) x;
  Phv.set_header p (f_header f) (Headers.with_fields h fs).
Definition set_header_stack (p : Phv.PHV) (i : Z) (st : Phv.Stack) : option Phv.PHV :=
  l ← vset (Phv.header_stacks p) i st;
  Some {| Phv.headers := Phv.headers p; Phv.header_stacks := l; Phv.header_unions := Phv.header_unions p;
          Phv.header_union_stacks := Phv.header_union_stacks p |}.
Definition set_header_union_stack (p : Phv.PHV) (i : Z) (st : Phv.Stack) : option Phv.PHV :=
  l ← vset (Phv.header_union_stacks p) i st;
  Some {| Phv.headers := Phv.headers p; Phv.header_stacks := Phv.header_stacks p;
          Phv.header_unions := Phv.header_unions p; Phv.header_union_stacks := l |}.

(** [pkt->get_ingress_length() - *bytes_parsed < n], of [size_t]. *)
Definition too_short bytes_parsed (n : Z) : bool := u64 (ingress_length env - bytes_parsed) <? u64 n.

(** [data + *bytes_parsed] *)
Definition at_data bytes_parsed : list Z := drop (Z.to_nat bytes_parsed) (data env).

(** The part of the extractions that is the same. *)
Definition extract_header s bytes_parsed (id : Z) (k : Phv.PHV → option Phv.PHV) : option Outcome :=
  hdr ← Phv.get_header (phv s) id;
  if too_short bytes_parsed (Headers.nbytes_packet hdr) then throw s bytes_parsed (parser_exception_core PacketTooShort)
  else
    p ← Phv.extract (phv s) id (at_data bytes_parsed) (VL_fn s id);
    hdr ← Phv.get_header p id;
    p ← k p;
    done_ (with_phv s p) (u64 (bytes_parsed + Headers.nbytes_packet hdr)).

Definition op_extract_VL s bytes_parsed (id : Z) (field_length_expr : Expression) (max_header_bytes : Z) : option Outcome :=
  hdr ← Phv.get_header (phv s) id;
  if negb (Headers.is_VL_header hdr) then None else
  d ← arith s (phv s) field_length_expr;
  nbits ← get_int d;
  if negb (nbits mod 8 =? 0) then None else
  let bytes_to_extract := u64 (Headers.nbytes_packet hdr + Z.quot nbits 8) in
  if too_short bytes_parsed bytes_to_extract then throw s bytes_parsed (parser_exception_core PacketTooShort)
  else if negb (max_header_bytes =? 0) && (max_header_bytes <? bytes_to_extract)
  then throw s bytes_parsed (parser_exception_core HeaderTooShort)
  else
    hdr ← Headers.extract_VL_common hdr (at_data bytes_parsed) (λ _, Some nbits);
    p ← Phv.set_header (phv s) id hdr;
    p ← Phv.mark_valid p id;
    hdr ← Phv.get_header p id;
    done_ (with_phv s p) (u64 (bytes_parsed + Headers.nbytes_packet hdr)).

Definition op_extract_stack s bytes_parsed (i : Z) : option Outcome :=
  st ← vget (Phv.header_stacks (phv s)) i;
  if Phv.is_full st then throw s bytes_parsed (parser_exception_core StackOutOfBounds) else
  next_hdr ← Phv.get_next st;
  extract_header s bytes_parsed next_hdr (λ p,
    '(st, p, _) ← Phv.push_back Phv.header_element st p; set_header_stack p i st).

Definition op_extract_union_stack s bytes_parsed (i hdr_offset : Z) : option Outcome :=
  st ← vget (Phv.header_union_stacks (phv s)) i;
  if Phv.is_full st then throw s bytes_parsed (parser_exception_core StackOutOfBounds) else
  next_union ← Phv.get_next st;
  u ← Phv.get_union (phv s) next_union;
  next_hdr ← vget (Phv.u_headers u) hdr_offset;
  extract_header s bytes_parsed next_hdr (λ p,
    '(st, p, _) ← Phv.push_back Phv.union_element st p; set_header_union_stack p i st).

Definition op_verify s bytes_parsed (condition error_expr : Expression) : option Outcome :=
  c ← bool_ s (phv s) condition;
  if c : bool then done_ s bytes_parsed else
  d ← arith s (phv s) error_expr;
  code ← get_int d;
  throw s bytes_parsed (parser_exception_arch code).

Definition op_method_call s bytes_parsed (action : Z) : option Outcome :=
  s ← execute env action s; done_ s bytes_parsed.

Definition op_shift s bytes_parsed (shift_bytes : Z) : option Outcome :=
  if too_short bytes_parsed shift_bytes then throw s bytes_parsed (parser_exception_core PacketTooShort)
  else done_ s (u64 (bytes_parsed + shift_bytes)).

Definition op_set_field s bytes_parsed (dst src : field_t) : option Outcome :=
  f_dst ← get_field (phv s) dst;
  f_src ← get_field (phv s) src;
  if Fields.VL f_dst then
    if Fields.VL f_src then
      hdr ← Phv.get_header (phv s) (f_header dst);
      hdr ← Headers.assign_VL hdr (f_offset dst) f_src;
      p ← Phv.set_header (phv s) (f_header dst) hdr;
      done_ (with_phv s p) bytes_parsed
    else None
  else
    f ← Fields.set f_dst (Data.value f_src);
    p ← set_field (phv s) dst f;
    done_ (with_phv s p) bytes_parsed.

Definition op_set_data s bytes_parsed (dst : field_t) (src : Data.Data) : option Outcome :=
  f_dst ← get_field (phv s) dst;
  f ← Fields.set f_dst (Data.value src);
  p ← set_field (phv s) dst f;
  done_ (with_phv s p) bytes_parsed.

Definition op_set_lookahead s bytes_parsed (dst : field_t) (src : ParserLookAhead) : option Outcome :=
  if u64 (ingress_length env - bytes_parsed) <? nbytes src
  then throw s bytes_parsed (parser_exception_core PacketTooShort) else
  f_dst ← get_field (phv s) dst;
  f ← (if bitwidth src =? Fields.nbits f_dst then
         if 0 <=? byte_offset src then
           fst <$> Fields.extract f_dst (drop (Z.to_nat (byte_offset src)) (at_data bytes_parsed)) (bit_offset src)
         else None
       else
         bc ← peek src (at_data bytes_parsed) [];
         Fields.set f_dst (Data.import_bytes bc (Z.of_nat (length bc))));
  p ← set_field (phv s) dst f;
  done_ (with_phv s p) bytes_parsed.

Definition op_set_expression s bytes_parsed (dst : field_t) (src : Expression) : option Outcome :=
  f_dst ← get_field (phv s) dst;
  d ← arith s (phv s) src;
  f ← Fields.set f_dst (Data.value d);
  p ← set_field (phv s) dst f;
  done_ (with_phv s p) bytes_parsed.

(** One parser operation. *)
Definition exec_op s bytes_parsed op : option Outcome :=
  match op with
  | ParserOpExtract id => extract_header s bytes_parsed id Some
  | ParserOpExtractVL id field_length_expr max_header_bytes => op_extract_VL s bytes_parsed id field_length_expr max_header_bytes
  | ParserOpExtractStack i => op_extract_stack s bytes_parsed i
  | ParserOpExtractUnionStack i hdr_offset => op_extract_union_stack s bytes_parsed i hdr_offset
  | ParserOpVerify condition error_expr => op_verify s bytes_parsed condition error_expr
  | ParserOpMethodCall action => op_method_call s bytes_parsed action
  | ParserOpShift shift_bytes => op_shift s bytes_parsed shift_bytes
  | ParserOpSet_field dst src => op_set_field s bytes_parsed dst src
  | ParserOpSet_data dst src => op_set_data s bytes_parsed dst src
  | ParserOpSet_lookahead dst src => op_set_lookahead s bytes_parsed dst src
  | ParserOpSet_expression dst src => op_set_expression s bytes_parsed dst src
  end.

(** The loop over the operations of a state, up to the first that throws. *)
Fixpoint exec_ops s bytes_parsed (ops : list ParserOp) : option Outcome :=
  match ops with
  | [] => done_ s bytes_parsed
  | op :: ops' =>
      '(s, bytes_parsed, e) ← exec_op s bytes_parsed op;
      match e with
      | None => exec_ops s bytes_parsed ops'
      | Some e => throw s bytes_parsed e
      end
  end.

(** *** The switch *)

Definition key_entry (p : Phv.PHV) (data : list Z) (key : list Z) (e : Entry) : option (list Z) :=
  match e with
  | FIELD f => x ← get_field p f; Some (key ++ Fields.bytes x)
  | STACK_FIELD i offset =>
      st ← vget (Phv.header_stacks p) i;
      id ← Phv.get_last st;
      x ← get_field p {| f_header := id; f_offset := offset |}; Some (key ++ Fields.bytes x)
  | LOOKAHEAD l => peek l data key
  | UNION_STACK_FIELD i hdr_offset offset =>
      st ← vget (Phv.header_union_stacks p) i;
      ui ← Phv.get_last st;
      u ← Phv.get_union p ui;
      id ← vget (Phv.u_headers u) hdr_offset;
      x ← get_field p {| f_header := id; f_offset := offset |}; Some (key ++ Fields.bytes x)
  end.

Fixpoint build_key (p : Phv.PHV) (data : list Z) (es : list Entry) (key : list Z) : option (list Z) :=
  match es with
  | [] => Some key
  | e :: es' => key ← key_entry p data key e; build_key p data es' key
  end.

(** Compares the bytes of the key, up to the first that differs. *)
Fixpoint masked_match (key input mask : list Z) : option bool :=
  match key with
  | [] => Some true
  | k :: key' =>
      match input, mask with
      | i :: input', m :: mask' => if k =? Z.land i m then masked_match key' input' mask' else Some false
      | _, _ => None
      end
  end.

(** [match]: the next state if the input matches. *)
Definition match_case (c : ParseSwitchCase) (input : list Z) : option (option (option nat)) :=
  match c with
  | SwitchCase key next_state => Some (if decide (key = input) then Some next_state else None)
  | SwitchCaseWithMask key mask next_state =>
      b ← masked_match key input mask; Some (if b : bool then Some next_state else None)
  | SwitchCaseVSet i j next_state =>
      p ← vget (vsets env) i;
      vs ← vget (shadows p) j;
      b ← vs_contains vs input;
      Some (if b : bool then Some next_state else None)
  end.

Fixpoint find_case (cases : list ParseSwitchCase) (key : list Z) : option (option (option nat)) :=
  match cases with
  | [] => Some None
  | c :: cases' =>
      r ← match_case c key;
      match r with Some next_state => Some (Some next_state) | None => find_case cases' key end
  end.

(** What a state does, with the next state; there is none after an exception. *)
Definition find_next_state s bytes_parsed (st : ParseState) : option (Outcome * option nat) :=
  '(s, bytes_parsed, e) ← exec_ops s bytes_parsed (parser_ops st);
  match e with
  | Some _ => Some (s, bytes_parsed, e, None)
  | None =>
      if negb (has_switch st) then Some (s, bytes_parsed, None, default_next_state st) else
      key ← build_key (phv s) (at_data bytes_parsed) (entries (key_builder st)) [];
      r ← find_case (parser_switch st) key;
      Some (s, bytes_parsed, None, default (default_next_state st) r)
  end.

(** *** The parser *)

Inductive Ran := OutOfFuel | Failed | Finished (o : Outcome).

(** [while (next_state)], which ends with an exception, too. *)
Fixpoint parse_loop (fuel : nat) (states : list ParseState) (next_state : option nat) s bytes_parsed : Ran :=
  match next_state with
  | None => Finished (s, bytes_parsed, None)
  | Some i =>
      match fuel with
      | O => OutOfFuel
      | S fuel' =>
          match (st ← states !! i; find_next_state s bytes_parsed st) with
          | None => Failed
          | Some (s, bytes_parsed, Some e, _) => Finished (s, bytes_parsed, Some e)
          | Some (s, bytes_parsed, None, next_state) => parse_loop fuel' states next_state s bytes_parsed
          end
      end
  end.
End parse.

(** A packet: its buffer from [data()] on, and its headers. *)
Record Packet := {
  pkt_ingress_length : Z;
  payload_size : Z;
  buffer : list Z;
  pkt_state : State;
  error_code : Z;
}.

Definition remove (pkt : Packet) (bytes : Z) : option Packet :=
  if payload_size pkt + bytes <=? Z.of_nat (length (buffer pkt)) then
    Some {| pkt_ingress_length := pkt_ingress_length pkt; payload_size := payload_size pkt;
            buffer := drop (Z.to_nat bytes) (buffer pkt); pkt_state := pkt_state pkt; error_code := error_code pkt |}
  else None.

Definition set_outcome (pkt : Packet) (s : State) (code : Z) : Packet :=
  {| pkt_ingress_length := pkt_ingress_length pkt; payload_size := payload_size pkt; buffer := buffer pkt;
     pkt_state := s; error_code := code |}.

Record Parser := {
  states : list ParseState;
  init_state : option nat;
  error_codes : ErrorCodes.ErrorCodeMap;
  no_error : Z;
}.

Definition new_parser (states : list ParseState) (error_codes : ErrorCodes.ErrorCodeMap) : option Parser :=
  no_error ← ErrorCodes.from_core error_codes NoError;
  Some {| states := states; init_state := None; error_codes := error_codes; no_error := no_error |}.

Definition set_init_state (p : Parser) (state : option nat) : Parser :=
  {| states := states p; init_state := state; error_codes := error_codes p; no_error := no_error p |}.

(** Verifying the checksums changes nothing. The outer option is [None] when the
    fuel is used up. *)
Definition parse `{Gmp, GmpSize, GmpInt} (fuel : nat) (p : Parser) (vsets : list ParseVSet)
    (VL_expr : Z → option Expression) (execute : Z → State → option State) (pkt : Packet)
    : option (option Packet) :=
  let env := {| ingress_length := pkt_ingress_length pkt; data := buffer pkt; vsets := vsets;
                VL_expr := VL_expr; execute := execute |} in
  let pkt := set_outcome pkt (pkt_state pkt) (no_error p) in
  match init_state p with
  | None => Some (Some pkt)
  | Some i =>
      match parse_loop env fuel (states p) (Some i) (pkt_state pkt) 0 with
      | OutOfFuel => None
      | Failed => Some None
      | Finished (s, bytes_parsed, e) =>
          Some (code ← match e with None => Some (no_error p) | Some e => exception_code (error_codes p) e end;
                remove (set_outcome pkt s code) bytes_parsed)
      end
  end.

(** ** The deparser (src/bm_sim/deparser.cpp)

    The update of the checksums is [update]. *)
Record Deparser := { d_headers : list Z }.

Definition push_back_header (d : Deparser) (header_id : Z) : Deparser := {| d_headers := d_headers d ++ [header_id] |}.

Definition get_headers_size (d : Deparser) (p : Phv.PHV) : option Z :=
  foldl (λ acc id, n ← acc; h ← Phv.get_header p id;
    Some (if Headers.is_valid h then u64 (n + Headers.nbytes_packet h) else n)) (Some 0) (d_headers d).

(** The loop of [deparse]: [data] from the first byte not yet written. *)
Fixpoint deparse_loop `{Gmp} (p : Phv.PHV) (ids : list Z) (data : list Z) : option (list Z) :=
  match ids with
  | [] => Some data
  | id :: ids' =>
      h ← Phv.get_header p id;
      if Headers.is_valid h then
        data ← Headers.deparse h data;
        let n := Z.to_nat (Headers.nbytes_packet h) in
        rest ← deparse_loop p ids' (drop n data);
        Some (take n data ++ rest)
      else deparse_loop p ids' data
  end.

(** [prepend] moves the start of the buffer back over [room], the bytes before it. *)
Definition deparse `{Gmp} (d : Deparser) (update : State → option State) (pkt : Packet) (room : list Z)
    : option (Packet * list Z) :=
  s ← update (pkt_state pkt);
  n ← get_headers_size d (phv s);
  if n <=? Z.of_nat (length room) then
    let k := (length room - Z.to_nat n)%nat in
    b ← deparse_loop (phv s) (d_headers d) (drop k room ++ buffer pkt);
    Some ({| pkt_ingress_length := pkt_ingress_length pkt; payload_size := payload_size pkt; buffer := b;
             pkt_state := s; error_code := error_code pkt |}, take k room)
  else None.
End Parser.
