(* ===== verification/ParserRun.v ===== *)
(** * The parser on a packet

    The theorems on [Parser.parse]: it terminates on graphs whose cycles parse
    something, and what it removes from the packet is within the packet. *)

From S2P Require Import Prelude Data Fields Headers Phv Expressions ErrorCodes Parser.

(** * What parsing keeps

    The sizes of headers of fixed width never change, a parser never parses more
    bytes than there are, and it stops as soon as every cycle of its graph
    parses something. *)

Import (coercions) Fields.

Module ParserSafety.
Import Parser.

(** ** The shapes of the headers *)
Section shapes.
Context `{Gmp}.
Implicit Types (p : Phv.PHV) (h : Headers.Header) (f : Fields.Field).

Definition hshape h : Z * Headers.HeaderType * list bool :=
  (Headers.nbytes_packet h, Headers.header_type h, Fields.VL <$> Headers.fields h).
Definition shapes p : list (Z * Headers.HeaderType * list bool) := hshape <$> Phv.headers p.

Lemma field_set_VL f v f' : Fields.set f v = Some f' → Fields.VL f' = Fields.VL f.
Proof.
  unfold Fields.set, Fields.export_bytes. intros E. match type of E with mbind _ ?m = _ => destruct m as [[bs w]|] end; [|done].
  by injection E as <-.
Qed.

Lemma field_extract_VL f data off f' n : Fields.extract f data off = Some (f', n) → Fields.VL f' = Fields.VL f.
Proof. unfold Fields.extract, Fields.sync_value. intros E. mbind_inv E. by repeat case_match; simplify_eq. Qed.

Lemma set_header_shapes p id h h' p' :
  Phv.set_header p id h' = Some p' → Phv.get_header p id = Some h → hshape h' = hshape h → shapes p' = shapes p.
Proof. unfold Phv.set_header, Phv.get_header. intros E Eh Hs. mbind_inv E. unfold shapes. cbn. eapply vset_fmap; [done..|]. unfold hshape. congruence. Qed.

Lemma set_valid_hshape h b h' : Headers.set_valid h b = Some h' → hshape h' = hshape h.
Proof.
  unfold Headers.set_valid. intros E. mbind_inv E. unfold hshape. cbn. f_equal. eapply vset_fmap; [done..|].
  by eapply field_set_VL.
Qed.

Lemma set_union_shapes p u hu p' : Phv.set_union p u hu = Some p' → shapes p' = shapes p.
Proof. unfold Phv.set_union. intros E. by mbind_inv E. Qed.

Lemma set_header_valid_shapes p id h b h' p' :
  Phv.get_header p id = Some h → Headers.set_valid h b = Some h' → Phv.set_header p id h' = Some p' → shapes p' = shapes p.
Proof. intros Eh Ev Es. eapply set_header_shapes; [done..|]. by eapply set_valid_hshape. Qed.

Lemma mark_invalid_shapes p id p' : Phv.mark_invalid p id = Some p' → shapes p' = shapes p.
Proof.
  unfold Phv.mark_invalid, Phv.make_header_invalid. intros E.
  destruct (Phv.get_header p id) as [h|] eqn:Eh; [|done]. cbn in E.
  destruct (Headers.set_valid h false) as [h'|] eqn:Ev; [|done]. cbn in E.
  destruct (Phv.set_header p id h') as [p1|] eqn:Es; [|done]. cbn in E.
  rewrite <- (set_header_valid_shapes p id h false h' p1) by done.
  destruct (Headers.union_membership h) as [[u idx]|]; [|by injection E as <-]. mbind_inv E; [|done].
  by eapply set_union_shapes.
Qed.

Lemma mark_valid_shapes p id p' : Phv.mark_valid p id = Some p' → shapes p' = shapes p.
Proof.
  unfold Phv.mark_valid, Phv.make_header_valid. intros E.
  destruct (Phv.get_header p id) as [h|] eqn:Eh; [|done]. cbn in E.
  destruct (Headers.set_valid h true) as [h'|] eqn:Ev; [|done]. cbn in E.
  destruct (Phv.set_header p id h') as [p1|] eqn:Es; [|done]. cbn in E.
  rewrite <- (set_header_valid_shapes p id h true h' p1) by done.
  destruct (Headers.union_membership h) as [[u idx]|]; [|by injection E as <-].
  destruct (Phv.get_union p1 u) as [hu|]; [|done]. cbn [mbind option_bind] in E.
  match type of E with mbind _ ?m = _ => destruct m as [p2|] eqn:E2 end; [|done].
  apply set_union_shapes in E. rewrite E. destruct (_ && _); [|by injection E2 as <-]. mbind_inv E2.
  by eapply mark_invalid_shapes.
Qed.

Lemma push_back_header_shapes st p st' p' n : Phv.push_back Phv.header_element st p = Some (st', p', n) → shapes p' = shapes p.
Proof.
  unfold Phv.push_back, Phv.at_valid. intros E. destruct (_ =? _); [by simplify_eq|]. mbind_inv E.
  destruct (vget _ _); [by eapply mark_valid_shapes|done].
Qed.

Lemma push_back_union_shapes st p st' p' n : Phv.push_back Phv.union_element st p = Some (st', p', n) → shapes p' = shapes p.
Proof. unfold Phv.push_back, Phv.at_valid. intros E. destruct (_ =? _); [by simplify_eq|]. mbind_inv E.
  by destruct (vget _ _); simplify_eq/=.
Qed.

Lemma extract_fields_VL fs : ∀ data off fs', Headers.extract_fields fs data off = Some fs' → Fields.VL <$> fs' = Fields.VL <$> fs.
Proof.
  induction fs as [|f fs IH]; intros data off fs' E; cbn in E; [by simplify_eq|].
  destruct (Fields.hidden f); [by simplify_eq|]. destruct (Fields.extract f data off) as [[f' n]|] eqn:Ef; [|done].
  cbn in E. mbind_inv E. cbn. f_equal; [by eapply field_extract_VL|by eapply IH].
Qed.

(** Extracting a header of fixed width. *)
Lemma extract_shapes p id data eval h p' :
  Phv.get_header p id = Some h → Headers.is_VL_header h = false → Phv.extract p id data eval = Some p' → shapes p' = shapes p.
Proof.
  unfold Phv.extract, Headers.extract. intros Eh HVL E. rewrite Eh in E. cbn in E. rewrite HVL in E.
  destruct (Headers.extract_fields (Headers.fields h) data 0) as [fs|] eqn:Ef; [|done]. cbn [mbind option_bind] in E.
  mbind_inv E. erewrite mark_valid_shapes by done. eapply set_header_shapes; [done..|]. unfold hshape. cbn. f_equal.
  by eapply extract_fields_VL.
Qed.

Lemma shapes_header p p' id h :
  shapes p' = shapes p → Phv.get_header p id = Some h → ∃ h', Phv.get_header p' id = Some h' ∧ hshape h' = hshape h.
Proof.
  unfold Phv.get_header. intros Hs Eh. assert (vget (shapes p') id = Some (hshape h)) as E
    by (rewrite Hs; unfold shapes; by rewrite vget_fmap, Eh).
  unfold shapes in E. rewrite vget_fmap in E. destruct (vget (Phv.headers p') id) as [h'|]; [|done]. exists h'. split; [done|].
  by apply (inj Some) in E.
Qed.
End shapes.

(** ** Operations *)

(** Headers of fixed width, of sizes a packet may have. *)
Definition fixed_shape (x : Z * Headers.HeaderType * list bool) : Prop :=
  Headers.is_VL_type x.1.2 = false ∧ Forall (eq false) x.2 ∧ 0 ≤ x.1.1 < 2 ^ 31.
Definition fixed (l : list (Z * Headers.HeaderType * list bool)) : Prop := Forall fixed_shape l.

(** How many bytes an operation parses at least, when it does not throw. *)
Definition consumed (l : list (Z * Headers.HeaderType * list bool)) (op : ParserOp) : Z :=
  match op with
  | ParserOpExtract id => match vget l id with Some x => x.1.1 | None => 0 end
  | ParserOpShift n => n
  | _ => 0
  end.

Definition op_ok (op : ParserOp) : Prop :=
  match op with ParserOpShift n => 0 ≤ n < 2 ^ 64 | _ => True end.

Section ops.
Context `{Gmp, GmpSize, GmpInt} (env : Env).
Implicit Types (s : State) (b : Z).

(** The packet has a size, and actions do not change the sizes of headers. *)
Context (Hlen : 0 ≤ ingress_length env < 2 ^ 31).
Context (Hact : ∀ a s s', execute env a s = Some s' → shapes (phv s') = shapes (phv s)).

Lemma not_too_short b n : 0 ≤ b ≤ ingress_length env → 0 ≤ n < 2 ^ 64 →
  too_short env b n = false → b + n ≤ ingress_length env.
Proof. intros Hb Hn. unfold too_short. rewrite !wrap_small by lia. lia. Qed.

Lemma fixed_header p id h : fixed (shapes p) → Phv.get_header p id = Some h →
  fixed_shape (hshape h).
Proof.
  unfold Phv.get_header. intros Hf E. unfold fixed in Hf. rewrite Forall_lookup in Hf.
  pose proof (vget_Some_range _ _ _ E) as Hr. rewrite vget_nat in E by lia. apply (Hf (Z.to_nat id)). unfold shapes.
  by rewrite list_lookup_fmap, E.
Qed.

Lemma extract_header_ok s b id k s' b' e :
  fixed (shapes (phv s)) → 0 ≤ b ≤ ingress_length env →
  (∀ p p', k p = Some p' → shapes p' = shapes p) →
  extract_header env s b id k = Some (s', b', e) →
  shapes (phv s') = shapes (phv s) ∧ b ≤ b' ≤ ingress_length env ∧
  (e = None → b + consumed (shapes (phv s)) (ParserOpExtract id) ≤ b').
Proof.
  intros Hf Hb Hk. unfold extract_header. destruct (Phv.get_header (phv s) id) as [h|] eqn:Eh; [|done]. cbn [mbind option_bind].
  destruct (fixed_header _ _ _ Hf Eh) as (HVL & _ & Hn). cbn in HVL, Hn.
  destruct (too_short env b _) eqn:Et; [by unfold throw; intros [= <- <- <-]; split_and!; [done|lia..|]|].
  apply not_too_short in Et; [|done|lia].
  destruct (Phv.extract _ _ _ _) as [p|] eqn:Ex; [|done]. cbn [mbind option_bind].
  apply (extract_shapes (phv s) id _ _ h) in Ex; [|done..].
  destruct (shapes_header (phv s) p id h Ex Eh) as (h' & -> & Hs). cbn [mbind option_bind].
  destruct (k p) as [p'|] eqn:Ek; [|done]. apply Hk in Ek. unfold done_. cbn [mbind option_bind].
  intros [= <- <- <-]. cbn [with_phv phv]. unfold hshape in Hs. injection Hs as Hs _ _. rewrite Hs, wrap_small by lia.
  split; [congruence|]. split; [lia|]. intros _. cbn [consumed].
  unfold shapes. rewrite vget_fmap. unfold Phv.get_header in Eh. rewrite Eh. cbn. lia.
Qed.

Lemma set_field_shapes p f x0 x p' :
  get_field p f = Some x0 → Fields.VL x = Fields.VL x0 → set_field p f x = Some p' → shapes p' = shapes p.
Proof.
  unfold get_field, set_field. intros E Ev Es. destruct (Phv.get_header p (f_header f)) as [h|] eqn:Eh; [|done].
  cbn in E, Es. destruct (vset (Headers.fields h) (f_offset f) x) as [fs|] eqn:Efs; [|done]. cbn in Es.
  eapply set_header_shapes; [done..|]. unfold hshape. cbn. f_equal. by eapply vset_fmap.
Qed.

(** An operation that changes a field. *)
Lemma set_op_ok s b dst x0 (r : option Fields.Field) s' b' e :
  get_field (phv s) dst = Some x0 → (∀ x, r = Some x → Fields.VL x = Fields.VL x0) → 0 ≤ b ≤ ingress_length env →
  (f ← r; p ← set_field (phv s) dst f; done_ (with_phv s p) b) = Some (s', b', e) →
  shapes (phv s') = shapes (phv s) ∧ b ≤ b' ≤ ingress_length env ∧ (e = None → b + 0 ≤ b').
Proof.
  intros E Hr Hb Hx. destruct r as [x|]; [|done]. cbn [mbind option_bind] in Hx.
  destruct (set_field (phv s) dst x) as [p|] eqn:Es; [|done]. cbn in Hx. unfold done_ in Hx. injection Hx as <- <- <-.
  split; [|lia]. cbn. by eapply set_field_shapes; [|by apply Hr|].
Qed.

Lemma field_not_VL p f x : fixed (shapes p) → get_field p f = Some x → Fields.VL x = false.
Proof.
  unfold get_field. intros Hf E. destruct (Phv.get_header p (f_header f)) as [h|] eqn:Eh; [|done]. cbn in E.
  destruct (fixed_header _ _ _ Hf Eh) as (_ & HVL & _). cbn in HVL. rewrite Forall_lookup in HVL.
  pose proof (vget_Some_range _ _ _ E) as Hr. rewrite vget_nat in E by lia. symmetry.
  apply (HVL (Z.to_nat (f_offset f))). by rewrite list_lookup_fmap, E.
Qed.

Lemma exec_op_ok s b op s' b' e :
  fixed (shapes (phv s)) → 0 ≤ b ≤ ingress_length env → op_ok op → exec_op env s b op = Some (s', b', e) →
  shapes (phv s') = shapes (phv s) ∧ b ≤ b' ≤ ingress_length env ∧ (e = None → b + consumed (shapes (phv s)) op ≤ b').
Proof.
  intros Hf Hb Hop. destruct op as [id|id ex mx|i|i o|c ex|a|n|dst src|dst src|dst src|dst src];
    cbn [exec_op consumed]; intros E;
    unfold op_extract_VL, op_extract_stack, op_extract_union_stack, op_verify, op_method_call, op_shift, op_set_field,
      op_set_data, op_set_lookahead, op_set_expression in E.
  - apply (extract_header_ok s b id Some); try done. by intros p p' [= ->].
  - exfalso. destruct (Phv.get_header (phv s) id) as [h|] eqn:Eh; [|done]. cbn [mbind option_bind] in E.
    destruct (fixed_header _ _ _ Hf Eh) as (HVL & _). cbn in HVL. unfold Headers.is_VL_header in E. by rewrite HVL in E.
  - destruct (vget _ i) as [st|]; [|done]. cbn [mbind option_bind] in E.
    destruct (Phv.is_full st); [unfold throw in E; simplify_eq; split_and!; [done|lia..|done]|].
    destruct (Phv.get_next st) as [id|]; [|done]. cbn [mbind option_bind] in E.
    apply extract_header_ok in E as (Es & Hb' & He); [|done..|].
    + split_and!; [done|lia..|intros ?%He]. lia.
    + intros p p' Ek. destruct (Phv.push_back _ st p) as [[[st' p1] k]|] eqn:Ep; [|done]. cbn in Ek.
      apply push_back_header_shapes in Ep. unfold set_header_stack in Ek. mbind_inv Ek. done.
  - destruct (vget _ i) as [st|]; [|done]. cbn [mbind option_bind] in E.
    destruct (Phv.is_full st); [unfold throw in E; simplify_eq; split_and!; [done|lia..|done]|].
    destruct (Phv.get_next st) as [u|]; [|done]. cbn [mbind option_bind] in E.
    destruct (Phv.get_union _ u) as [hu|]; [|done]. cbn [mbind option_bind] in E.
    destruct (vget _ o) as [id|]; [|done]. cbn [mbind option_bind] in E.
    apply extract_header_ok in E as (Es & Hb' & He); [|done..|].
    + split_and!; [done|lia..|intros ?%He]. lia.
    + intros p p' Ek. destruct (Phv.push_back _ st p) as [[[st' p1] k]|] eqn:Ep; [|done]. cbn in Ek.
      apply push_back_union_shapes in Ep. unfold set_header_union_stack in Ek. mbind_inv Ek. done.
  - destruct (bool_ s (phv s) c) as [[]|]; [|cbn [mbind option_bind] in E|done].
    + cbn in E. unfold done_ in E. simplify_eq. split_and!; [done|lia..].
    + destruct (arith s (phv s) ex) as [d|]; [|done]. cbn [mbind option_bind] in E.
      destruct (get_int d) as [code|]; [|done]. cbn [mbind option_bind] in E. unfold throw in E. simplify_eq.
      split_and!; [done|lia..|done].
  - destruct (execute env a s) as [s1|] eqn:Ea; [|done]. cbn in E. unfold done_ in E. simplify_eq.
    split_and!; [by eapply Hact|lia..].
  - destruct (too_short env b n) eqn:Et; [unfold throw in E; simplify_eq; split_and!; [done|lia..|done]|].
    apply not_too_short in Et; [|done..]. cbn in Hop. unfold done_ in E.
    injection E as <- <- <-. rewrite wrap_small by lia. split_and!; [done|lia..].
  - destruct (get_field (phv s) dst) as [x0|] eqn:Ed; [|done]. cbn [mbind option_bind] in E.
    destruct (get_field (phv s) src) as [x1|]; [|done]. cbn [mbind option_bind] in E.
    rewrite (field_not_VL _ _ _ Hf Ed) in E. eapply set_op_ok; [exact Ed| |done|exact E]. intros x. apply field_set_VL.
  - destruct (get_field (phv s) dst) as [x0|] eqn:Ed; [|done]. cbn [mbind option_bind] in E.
    eapply set_op_ok; [exact Ed| |done|exact E]. intros x. apply field_set_VL.
  - destruct (_ <? _); [unfold throw in E; simplify_eq; split_and!; [done|lia..|done]|].
    destruct (get_field (phv s) dst) as [x0|] eqn:Ed; [|done]. cbn [mbind option_bind] in E.
    eapply set_op_ok; [exact Ed| |done|exact E]. intros x Ex. destruct (_ =? _).
    + destruct (0 <=? _); [|done]. destruct (Fields.extract x0 _ _) as [[x' k]|] eqn:Ef; [|done]. cbn in Ex.
      injection Ex as <-. by eapply field_extract_VL.
    + destruct (peek _ _ _) as [bc|]; [|done]. cbn in Ex. by eapply field_set_VL.
  - destruct (get_field (phv s) dst) as [x0|] eqn:Ed; [|done]. cbn [mbind option_bind] in E.
    destruct (arith s (phv s) src) as [d|]; [|done]. cbn [mbind option_bind] in E.
    eapply set_op_ok; [exact Ed| |done|exact E]. intros x. apply field_set_VL.
Qed.

(** ** States *)

Definition consumed_all l (ops : list ParserOp) : Z := foldr (λ op n, consumed l op + n) 0 ops.

Lemma consumed_nonneg l op : fixed l → op_ok op → 0 ≤ consumed l op.
Proof.
  intros Hf Hop. destruct op; cbn in *; try lia. destruct (vget l header) as [x|] eqn:E; [|lia].
  pose proof (vget_Some_range _ _ _ E). rewrite vget_nat in E by lia. unfold fixed in Hf. rewrite Forall_lookup in Hf.
  apply Hf in E. destruct E as (_ & _ & ?). lia.
Qed.

Lemma exec_ops_ok ops : ∀ s b s' b' e,
  fixed (shapes (phv s)) → 0 ≤ b ≤ ingress_length env → Forall op_ok ops → exec_ops env s b ops = Some (s', b', e) →
  shapes (phv s') = shapes (phv s) ∧ b ≤ b' ≤ ingress_length env ∧
  (e = None → b + consumed_all (shapes (phv s)) ops ≤ b').
Proof.
  induction ops as [|op ops IH]; intros s b s' b' e Hf Hb Hop E; cbn [exec_ops consumed_all foldr] in *.
  { unfold done_ in E. simplify_eq. split_and!; [done|lia..]. }
  apply Forall_cons in Hop as [Hop Hops].
  destruct (exec_op env s b op) as [[[s1 b1] e1]|] eqn:E1; [|done]. cbn [mbind option_bind] in E.
  destruct (exec_op_ok s b op s1 b1 e1 Hf Hb Hop E1) as (Hs1 & Hb1 & He1). destruct e1 as [e1|].
  - unfold throw in E. simplify_eq. split_and!; [done|lia..|done].
  - apply IH in E as (Hs & Hb' & He); [|by rewrite Hs1|lia|done]. rewrite Hs1 in Hs, He.
    split_and!; [done|lia..|]. intros ->. specialize (He eq_refl). specialize (He1 eq_refl).
    unfold consumed_all in He. lia.
Qed.

Definition case_next (c : ParseSwitchCase) : option nat :=
  match c with SwitchCase _ n => n | SwitchCaseWithMask _ _ n => n | SwitchCaseVSet _ _ n => n end.
Definition successors (st : ParseState) : list (option nat) :=
  default_next_state st :: (case_next <$> parser_switch st).

Lemma find_case_next cases key r : find_case env cases key = Some (Some r) → r ∈ case_next <$> cases.
Proof.
  induction cases as [|c cases IH]; cbn; [done|]. destruct (match_case env c key) as [[r'|]|] eqn:E; [| |done]; cbn.
  - intros [= ->]. rewrite elem_of_cons. left. destruct c; cbn in E; [|mbind_inv E..]; try done.
    by case_decide; simplify_eq.
  - intros Hr%IH. by right.
Qed.

Lemma find_next_state_ok s b st s' b' e next :
  fixed (shapes (phv s)) → 0 ≤ b ≤ ingress_length env → Forall op_ok (parser_ops st) →
  find_next_state env s b st = Some (s', b', e, next) →
  shapes (phv s') = shapes (phv s) ∧ b ≤ b' ≤ ingress_length env ∧
  (e = None → b + consumed_all (shapes (phv s)) (parser_ops st) ≤ b' ∧ next ∈ successors st).
Proof.
  intros Hf Hb Hop E. unfold find_next_state in E.
  destruct (exec_ops env s b (parser_ops st)) as [[[s1 b1] e1]|] eqn:E1; [|done]. cbn [mbind option_bind] in E.
  apply exec_ops_ok in E1 as (Hs & Hb1 & He); [|done..]. destruct e1 as [e1|]; [by simplify_eq|].
  specialize (He eq_refl). destruct (negb (has_switch st)); [simplify_eq; split_and!; [done|lia..|]|].
  { intros _. split; [done|]. left. }
  destruct (build_key _ _ _ _) as [key|]; [|done]. cbn [mbind option_bind] in E.
  destruct (find_case env _ key) as [r|] eqn:Er; [|done]. cbn in E. simplify_eq. split_and!; [done|lia..|].
  intros _. split; [done|]. destruct r as [r|]; cbn; [|left]. right. by eapply find_case_next.
Qed.

(** ** The loop *)
Context (states : list ParseState) (Hops : Forall (λ st, Forall op_ok (parser_ops st)) states).

Lemma parse_loop_ok fuel : ∀ next s b s' b' e,
  fixed (shapes (phv s)) → 0 ≤ b ≤ ingress_length env →
  parse_loop env fuel states next s b = Finished (s', b', e) →
  shapes (phv s') = shapes (phv s) ∧ b ≤ b' ≤ ingress_length env.
Proof.
  induction fuel as [|fuel IH]; intros next s b s' b' e Hf Hb E.
  { destruct next; [done|]. cbn in E. injection E as <- <- <-. split; [done|lia]. }
  destruct next as [i|]; [|cbn in E; injection E as <- <- <-; split; [done|lia]]. cbn [parse_loop] in E.
  destruct (states !! i) as [st|] eqn:Est; [|done]. cbn [mbind option_bind] in E.
  destruct (find_next_state env s b st) as [[[[s1 b1] e1] next]|] eqn:E1; [|done].
  rewrite Forall_lookup in Hops. apply find_next_state_ok in E1 as (Hs & Hb1 & _); [|done..|by eapply Hops].
  destruct e1; [by simplify_eq|]. apply IH in E as (Hs' & Hb'); [|by rewrite Hs|lia].
  split; [congruence|lia].
Qed.

(** Every state parses some bytes, or is followed by states of lower rank. *)
Definition productive (l : list (Z * Headers.HeaderType * list bool)) (rank : nat → nat) : Prop := ∀ i st,
  states !! i = Some st →
  0 < consumed_all l (parser_ops st) ∨ ∀ j, Some j ∈ successors st → (rank j < rank i)%nat.

Lemma parse_loop_terminates rank R fuel : ∀ i s b,
  fixed (shapes (phv s)) → productive (shapes (phv s)) rank → (∀ i, (rank i ≤ R)%nat) → 0 ≤ b ≤ ingress_length env →
  (Z.to_nat (ingress_length env - b) * S R + rank i < fuel)%nat →
  parse_loop env fuel states (Some i) s b ≠ OutOfFuel.
Proof.
  induction fuel as [|fuel IH]; intros i s b Hf Hp HR Hb Hfuel; [lia|]. cbn [parse_loop].
  destruct (states !! i) as [st|] eqn:Est; [|done]. cbn [mbind option_bind].
  destruct (find_next_state env s b st) as [[[[s1 b1] e1] next]|] eqn:E1; [|done].
  rewrite Forall_lookup in Hops. apply find_next_state_ok in E1 as (Hs & Hb1 & He); [|done..|by eapply Hops].
  destruct e1; [done|]. destruct (He eq_refl) as [Hc Hnext]. destruct next as [j|]; [|by destruct fuel].
  apply IH; [by rewrite Hs|by rewrite Hs|done|lia|]. pose proof (HR j). destruct (Hp i st Est) as [Hpos|Hrank].
  - assert (S (Z.to_nat (ingress_length env - b1)) ≤ Z.to_nat (ingress_length env - b))%nat as Hlt by lia.
    apply (Nat.mul_le_mono_r _ _ (S R)) in Hlt. lia.
  - apply Hrank in Hnext. assert (Z.to_nat (ingress_length env - b1) ≤ Z.to_nat (ingress_length env - b))%nat as Hle by lia.
    apply (Nat.mul_le_mono_r _ _ (S R)) in Hle. lia.
Qed.
End ops.
End ParserSafety.

Import (coercions) Fields.

Module ParserRun.
Import Parser ParserSafety.

Section run.
Context `{Gmp, GmpSize, GmpInt}.
Context (p : Parser) (vs : list ParseVSet) (vl : Z → option Expressions.Expression)
  (act : Z → State → option State).

Definition env_of (pkt : Packet) : Env :=
  {| ingress_length := pkt_ingress_length pkt; data := buffer pkt; vsets := vs; VL_expr := vl;
     execute := act |}.

(** What the theorems assume of a parser and of its packets: fixed-width headers,
    sizes in their ranges, and actions that do not change the widths of headers. *)
Record parser_ok : Prop := {
  ok_ops : Forall (λ st, Forall op_ok (parser_ops st)) (states p);
  ok_execute : ∀ a s s', act a s = Some s' → shapes (phv s') = shapes (phv s);
  ok_codes : ∀ c, is_Some (ErrorCodes.from_core (error_codes p) c);
}.

Record packet_ok (pkt : Packet) : Prop := {
  ok_length : 0 ≤ pkt_ingress_length pkt < 2 ^ 31;
  ok_buffer : 0 ≤ payload_size pkt ∧ payload_size pkt + pkt_ingress_length pkt ≤ Z.of_nat (length (buffer pkt));
  ok_shapes : fixed (shapes (phv (pkt_state pkt)));
}.


Lemma parse_finished pkt fuel i s n e :
  parser_ok → packet_ok pkt → init_state p = Some i →
  parse_loop (env_of pkt) fuel (states p) (Some i) (pkt_state pkt) 0 = Finished (s, n, e) →
  0 ≤ n ≤ pkt_ingress_length pkt ∧ shapes (phv s) = shapes (phv (pkt_state pkt)) ∧
  parse fuel p vs vl act pkt =
    Some (code ← match e with None => Some (no_error p) | Some e => exception_code (error_codes p) e end;
          Some {| pkt_ingress_length := pkt_ingress_length pkt; payload_size := payload_size pkt;
                  buffer := drop (Z.to_nat n) (buffer pkt); pkt_state := s; error_code := code |}).
Proof.
  intros Hp [Hl Hb Hs] Hi Hr.
  destruct (parse_loop_ok (env_of pkt) Hl (ok_execute Hp) (states p) (ok_ops Hp) fuel (Some i) (pkt_state pkt) 0 s n e Hs)
    as [Hsh Hn]; [cbn; lia|done|]. cbn in Hn. split; [done|]. split; [done|].
  unfold parse. rewrite Hi. fold (env_of pkt). cbn [set_outcome pkt_state]. rewrite Hr. f_equal.
  destruct (match e with None => _ | Some _ => _ end) as [code|]; [|done]. cbn [mbind option_bind].
  unfold remove. cbn. by rewrite (proj2 (Z.leb_le _ _)) by lia.
Qed.

(** C18: Take a parser whose operations are on headers and fields that exist, and a packet with
    headers of fixed width whose buffer holds at least the bytes that the packet came with,
    besides what it counts as payload already. A parser that comes to an end of its graph, or
    to an error, has then parsed no more bytes than the packet came with; the bytes are removed
    from the packet, whose error code is that of the error, and headers keep their sizes.
    Headers of variable length, and packets whose buffer shrank after they came (recirculated
    ones), are outside of this. *)
Theorem parse_within pkt fuel i s n e :
  parser_ok → packet_ok pkt → init_state p = Some i →
  parse_loop (env_of pkt) fuel (states p) (Some i) (pkt_state pkt) 0 = Finished (s, n, e) →
  0 ≤ n ≤ pkt_ingress_length pkt ∧ shapes (phv s) = shapes (phv (pkt_state pkt)) ∧
  ∃ pkt', parse fuel p vs vl act pkt = Some (Some pkt') ∧ pkt_state pkt' = s ∧
    buffer pkt' = drop (Z.to_nat n) (buffer pkt) ∧
    match e with
    | None => error_code pkt' = no_error p
    | Some (parser_exception_arch c) => error_code pkt' = c
    | Some (parser_exception_core c) => ErrorCodes.from_core (error_codes p) c = Some (error_code pkt')
    end.
Proof.
  intros Hp Hpkt Hi Hr. destruct (parse_finished pkt fuel i s n e Hp Hpkt Hi Hr) as (Hn & Hs & ->).
  split; [done|]. split; [done|]. destruct e as [[c|c]|]; cbn [exception_code mbind option_bind].
  - by eexists.
  - destruct (ok_codes Hp c) as [code Ec]. rewrite Ec. by eexists.
  - by eexists.
Qed.
End run.
End ParserRun.
