(* ===== verification/ParseDeparse.v ===== *)
(** * Deparsing what was parsed

    The deparser writes the headers of fixed width that a parser extracted back
    to the bytes they were extracted from. *)

From S2P Require Import Prelude Data Fields Headers Phv Expressions ErrorCodes Parser ParserRun.
Import (coercions) Fields.

Module ParseDeparse.
Import Parser ParserSafety ParserRun.

(** ** A header *)
Section header.
Context `{GmpLaws}.
Implicit Types (f : Fields.Field) (fs : list Fields.Field) (h : Headers.Header) (p : Phv.PHV).

Fixpoint visible_fields fs : list Fields.Field :=
  match fs with
  | [] => []
  | f :: fs' => if Fields.hidden f then [] else f :: visible_fields fs'
  end.

Lemma deparse_visible fs : ∀ data off,
  Headers.deparse_fields fs data off = Headers.deparse_fields (visible_fields fs) data off.
Proof.
  induction fs as [|f fs IH]; intros data off; cbn; [done|]. destruct (Fields.hidden f) eqn:E; [done|].
  cbn. rewrite E. destruct (Fields.deparse f data off) as [[d n]|]; [|done]. cbn. by rewrite IH.
Qed.

Lemma visible_insert fs i f f' : fs !! i = Some f → Fields.hidden f = true → Fields.hidden f' = true →
  visible_fields (<[i := f']> fs) = visible_fields fs.
Proof.
  revert i. induction fs as [|x fs IH]; intros [|i] E Ef Ef'; simplify_eq/=; [by rewrite Ef, Ef'|].
  destruct (Fields.hidden x); [done|]. by rewrite IH.
Qed.

Lemma field_set_hidden f v f' : Fields.set f v = Some f' → Fields.hidden f' = Fields.hidden f.
Proof.
  unfold Fields.set, Fields.export_bytes. intros E. match type of E with mbind _ ?m = _ => destruct m as [[bs w]|] end; [|done].
  by injection E as <-.
Qed.

(** A header that goes through a packet unchanged. *)
Record wire_ok h : Prop := {
  wo_VL : Headers.is_VL_header h = false;
  wo_union : Headers.union_membership h = None;
  wo_fields : Forall Headers.field_ok (Headers.fields h);
  wo_synced : Forall Headers.field_synced (Headers.fields h);
  wo_size : Headers.visible_nbits (Headers.fields h) = 8 * Headers.nbytes_packet h;
  wo_range : 0 ≤ Headers.nbytes_packet h < 2 ^ 31;
  wo_straddle : Headers.no_straddle (Headers.fields h) 0;
  wo_hidden : ∃ f, vget (Headers.fields h) (Headers.get_hidden_offset (Headers.header_type h)) = Some f ∧
    Fields.hidden f = true;
}.

(** Marking a header valid does not change what it deparses to. *)
Lemma set_valid_deparse h : Forall Headers.field_ok (Headers.fields h) →
  (∃ f, vget (Headers.fields h) (Headers.get_hidden_offset (Headers.header_type h)) = Some f ∧ Fields.hidden f = true) →
  ∃ h', Headers.set_valid h true = Some h' ∧ Headers.is_valid h' = true ∧
    Headers.nbytes_packet h' = Headers.nbytes_packet h ∧ ∀ buf, Headers.deparse h' buf = Headers.deparse h buf.
Proof.
  intros Hok (f & Ef & Hf). pose proof (vget_Some_range _ _ _ Ef) as Hr.
  assert (Headers.field_ok f) as [Hwf _].
  { rewrite Forall_lookup in Hok. rewrite vget_nat in Ef by lia. by eapply Hok. }
  destruct (Phv.set_valid_ok h true) as (h' & E & _ & Hv & _); [by exists f|]. exists h'. split; [done|].
  split; [unfold Headers.is_valid; rewrite Hv; by destruct (Headers.metadata h')|].
  unfold Headers.set_valid in E. rewrite Ef in E. cbn [mbind option_bind] in E.
  destruct (Fields.set f 1) as [f'|] eqn:Es; [|done]. cbn [mbind option_bind] in E.
  destruct (vset (Headers.fields h) _ f') as [fs|] eqn:Efs; [|done]. cbn in E. injection E as <-.
  split; [done|]. intros buf. unfold Headers.deparse. cbn.
  rewrite (deparse_visible fs), (deparse_visible (Headers.fields h)). f_equal.
  apply vset_inv in Efs as [_ ->]. rewrite vget_nat in Ef by lia. eapply visible_insert; [done..|].
  by rewrite (field_set_hidden _ _ _ Es).
Qed.

Lemma extract_one p id h data eval :
  Phv.get_header p id = Some h → wire_ok h → bytes_ok data → Headers.nbytes_packet h ≤ Z.of_nat (length data) →
  ∃ p' h', Phv.extract p id data eval = Some p' ∧ Phv.get_header p' id = Some h' ∧
    (∀ k, k ≠ id → Phv.get_header p' k = Phv.get_header p k) ∧ Headers.is_valid h' = true ∧
    Headers.nbytes_packet h' = Headers.nbytes_packet h ∧
    ∀ buf, bytes_ok buf → Headers.nbytes_packet h ≤ Z.of_nat (length buf) →
      Headers.deparse h' buf = Some (take (Z.to_nat (Headers.nbytes_packet h)) data ++
                                     drop (Z.to_nat (Headers.nbytes_packet h)) buf).
Proof.
  intros Eh Hw Hd Hl. pose proof (vget_Some_range _ _ _ Eh) as Hr. unfold Phv.extract. rewrite Eh. msimpl.
  set (n := Headers.nbytes_packet h) in *.
  match goal with |- context [Headers.extract h data ?ev] =>
    destruct (Headers.extract_then_deparse_fields h data ev n) as (fs & Ex & Hok & Hsh & _ & Hdep);
    [by apply Hw|by apply Hw|by apply Hw|apply Hw|by apply Hw|done..|] end.
  rewrite Ex. msimpl. destruct (Phv.set_header_ok p id h (Headers.with_fields h fs) Eh) as (p1 & E1 & _ & _ & _ & Hg1).
  rewrite E1. msimpl. unfold Phv.mark_valid. rewrite Hg1, decide_True by done. msimpl.
  destruct (set_valid_deparse (Headers.with_fields h fs)) as (h' & Ev & Hv & Hn & Hdep'); [done| |].
  { destruct (wo_hidden _ Hw) as (f & Ef & Hf). pose proof (vget_Some_range _ _ _ Ef) as Hrf.
    rewrite vget_nat in Ef by lia. destruct (Forall2_lookup_l _ _ _ _ _ Hsh Ef) as (f' & Ef' & _ & _ & Hf').
    exists f'. cbn. rewrite vget_nat by lia. split; [done|congruence]. }
  rewrite Ev. msimpl. assert (Phv.get_header p1 id = Some (Headers.with_fields h fs)) as Eh1 by (by rewrite Hg1, decide_True).
  destruct (Phv.set_header_ok p1 id _ h' Eh1) as (p2 & E2 & _ & _ & _ & Hg2). rewrite E2. msimpl.
  cbn [Headers.union_membership Headers.with_fields]. rewrite (wo_union _ Hw). exists p2, h'.
  split; [done|]. split; [by rewrite Hg2, decide_True|]. split; [|split; [done|]].
  - intros k Hk. by rewrite Hg2, decide_False, Hg1, decide_False.
  - split; [done|]. intros buf Hb Hlb. rewrite Hdep'. by apply Hdep.
Qed.
End header.

(** ** A list of headers *)
Section headers.
Context `{GmpLaws, GmpSize, GmpInt} (env : Env).
Context (Hlen : 0 ≤ ingress_length env < 2 ^ 31) (Hdata : bytes_ok (data env)).
Context (Hbuf : ingress_length env ≤ Z.of_nat (length (data env))).
Implicit Types (s : State) (b : Z) (ids : list Z).

Definition headers_size (p : Phv.PHV) (acc : option Z) ids : option Z :=
  foldl (λ acc id, n ← acc; h ← Phv.get_header p id;
    Some (if Headers.is_valid h then u64 (n + Headers.nbytes_packet h) else n)) acc ids.

(** What extracting one header does to the state. *)
Lemma exec_extract s b id h s' b' :
  Phv.get_header (phv s) id = Some h → wire_ok h → 0 ≤ b ≤ ingress_length env →
  exec_op env s b (ParserOpExtract id) = Some (s', b', None) →
  b' = b + Headers.nbytes_packet h ∧ b' ≤ ingress_length env ∧
  (∀ k, k ≠ id → Phv.get_header (phv s') k = Phv.get_header (phv s) k) ∧
  ∃ h', Phv.get_header (phv s') id = Some h' ∧ Headers.is_valid h' = true ∧
    Headers.nbytes_packet h' = Headers.nbytes_packet h ∧
    ∀ buf, bytes_ok buf → Headers.nbytes_packet h ≤ Z.of_nat (length buf) →
      Headers.deparse h' buf = Some (take (Z.to_nat (Headers.nbytes_packet h)) (at_data env b) ++
                                     drop (Z.to_nat (Headers.nbytes_packet h)) buf).
Proof.
  intros Eh Hw Hb. cbn [exec_op]. unfold extract_header. rewrite Eh. cbn [mbind option_bind].
  pose proof (wo_range _ Hw) as Hn. destruct (too_short env b _) eqn:Et; [done|]. apply not_too_short in Et; [|done..|lia].
  destruct (extract_one (phv s) id h (at_data env b) (VL_fn env s id) Eh Hw)
    as (p & h' & -> & Eh' & Hk & Hv & Hn' & Hdep); [by apply Forall_drop|unfold at_data; rewrite length_drop; lia|].
  cbn [mbind option_bind]. rewrite Eh'. cbn [mbind option_bind]. unfold done_. intros [= <- <-].
  rewrite Hn', wrap_small by lia. split; [done|]. split; [lia|]. split; [done|]. by exists h'.
Qed.

Lemma extract_all ids : ∀ s b s' b',
  NoDup ids → (∀ id, id ∈ ids → ∃ h, Phv.get_header (phv s) id = Some h ∧ wire_ok h) →
  0 ≤ b ≤ ingress_length env → exec_ops env s b (ParserOpExtract <$> ids) = Some (s', b', None) →
  b ≤ b' ≤ ingress_length env ∧ (∀ k, k ∉ ids → Phv.get_header (phv s') k = Phv.get_header (phv s) k) ∧
  (∀ id, id ∈ ids → ∃ h, Phv.get_header (phv s') id = Some h ∧ Headers.is_valid h = true) ∧
  (∀ n, 0 ≤ n → n + (b' - b) < 2 ^ 64 → headers_size (phv s') (Some n) ids = Some (n + (b' - b))) ∧
  ∀ buf, bytes_ok buf → b' - b ≤ Z.of_nat (length buf) →
    deparse_loop (phv s') ids buf =
      Some (take (Z.to_nat (b' - b)) (at_data env b) ++ drop (Z.to_nat (b' - b)) buf).
Proof.
  induction ids as [|id ids IH]; intros s b s' b' Hnd Hids Hb E.
  { cbn in E. unfold done_ in E. injection E as <- <-. rewrite Z.sub_diag. split; [lia|]. split; [done|].
    split; [by intros id ?%elem_of_nil|]. split; [intros n _ _; cbn; f_equal; lia|]. done. }
  apply NoDup_cons in Hnd as [Hni Hnd]. cbn [fmap list_fmap exec_ops] in E.
  destruct (exec_op env s b (ParserOpExtract id)) as [[[s1 b1] e1]|] eqn:E1; [|done]. cbn [mbind option_bind] in E.
  destruct e1 as [|]; [done|]. destruct (Hids id) as (h & Eh & Hw); [left|].
  destruct (exec_extract s b id h s1 b1 Eh Hw Hb E1) as (-> & Hb1 & Hk1 & h1 & Eh1 & Hv1 & Hn1 & Hdep).
  pose proof (wo_range _ Hw) as Hn. set (n := Headers.nbytes_packet h) in *.
  destruct (IH s1 (b + n) s' b' Hnd) as (Hb' & Hk & Hval & Hsize & Hloop); [|lia|done|].
  { intros id' Hi. rewrite Hk1 by (by intros ->). apply Hids. by right. }
  assert (Phv.get_header (phv s') id = Some h1) as Eh' by (by rewrite Hk).
  split; [lia|]. split.
  { intros k Hki. apply not_elem_of_cons in Hki as [Hne Hki]. by rewrite Hk, Hk1. }
  split; [intros id'; rewrite elem_of_cons; intros [->|Hi]; [by exists h1|by apply Hval]|]. split.
  - intros m Hm Hm'. unfold headers_size. cbn [foldl mbind option_bind]. rewrite Eh'. cbn [mbind option_bind].
    rewrite Hv1, Hn1, wrap_small by lia. fold (headers_size (phv s') (Some (m + n)) ids).
    rewrite Hsize by lia. f_equal. lia.
  - intros buf Hok Hl. cbn [deparse_loop]. rewrite Eh'. cbn [mbind option_bind]. rewrite Hv1, Hdep by (done || lia).
    cbn [mbind option_bind]. rewrite Hn1. fold n.
    assert (length (take (Z.to_nat n) (at_data env b)) = Z.to_nat n) as Hlt
      by (rewrite length_take; unfold at_data; rewrite length_drop; lia).
    rewrite take_app_length', drop_app_length' by done.
    rewrite Hloop; [|by apply Forall_drop|rewrite length_drop; lia]. cbn [mbind option_bind]. f_equal.
    rewrite app_assoc. unfold at_data. rewrite Z2Nat.inj_add, <- drop_drop, take_take_drop, drop_drop by lia.
    do 2 f_equal; lia.
Qed.

(** Headers that are not valid are left out. *)
Definition skipped (p : Phv.PHV) ids (l : list Z) : Prop := ∀ id, id ∈ l → id ∉ ids →
  ∃ h, Phv.get_header p id = Some h ∧ Headers.is_valid h = false.

Lemma headers_size_filter p ids l : skipped p ids l → ∀ acc,
  headers_size p acc l = headers_size p acc (filter (.∈ ids) l).
Proof.
  induction l as [|id l IH]; intros Hs acc; [done|].
  assert (skipped p ids l) as Hs' by (intros k Hk; apply Hs; by right). rewrite filter_cons. case_decide as Hi.
  - apply (IH Hs').
  - destruct (Hs id) as (h & Eh & Hv); [left|done|]. unfold headers_size in *. cbn [foldl]. rewrite <- IH by done.
    f_equal. destruct acc as [n|]; [|done]. cbn [mbind option_bind]. rewrite Eh. cbn [mbind option_bind]. by rewrite Hv.
Qed.

Lemma deparse_loop_filter p ids l : skipped p ids l → ∀ data,
  deparse_loop p l data = deparse_loop p (filter (.∈ ids) l) data.
Proof.
  induction l as [|id l IH]; intros Hs data; [done|].
  assert (skipped p ids l) as Hs' by (intros k Hk; apply Hs; by right). rewrite filter_cons. cbn [deparse_loop].
  case_decide as Hi.
  - cbn [deparse_loop]. destruct (Phv.get_header p id) as [h|]; [|done]. cbn [mbind option_bind].
    destruct (Headers.is_valid h); [|by apply IH]. destruct (Headers.deparse h data) as [d|]; [|done].
    cbn [mbind option_bind]. by rewrite IH.
  - destruct (Hs id) as (h & Eh & Hv); [left|done|]. rewrite Eh. cbn [mbind option_bind]. rewrite Hv. by apply IH.
Qed.

(** ** A run of the parser *)

(** The operations of the states a run goes through. *)
Fixpoint parse_trace (fuel : nat) (states : list ParseState) (next : option nat) s b : list ParserOp :=
  match next, fuel with
  | Some i, S fuel' =>
      match states !! i with
      | None => []
      | Some st =>
          parser_ops st ++
          match find_next_state env s b st with
          | Some (s, b, None, next) => parse_trace fuel' states next s b
          | _ => []
          end
      end
  | _, _ => []
  end.

Lemma exec_ops_app ops1 ops2 s b s1 b1 :
  exec_ops env s b ops1 = Some (s1, b1, None) → exec_ops env s b (ops1 ++ ops2) = exec_ops env s1 b1 ops2.
Proof.
  revert s b. induction ops1 as [|op ops1 IH]; intros s b E; cbn [exec_ops app] in *.
  { unfold done_ in E. by injection E as -> ->. }
  destruct (exec_op env s b op) as [[[s2 b2] [e|]]|]; cbn in *; [done| |done]. by apply IH.
Qed.

Lemma parse_loop_trace fuel states : ∀ next s b s' b',
  parse_loop env fuel states next s b = Finished (s', b', None) →
  exec_ops env s b (parse_trace fuel states next s b) = Some (s', b', None).
Proof.
  induction fuel as [|fuel IH]; intros next s b s' b' E; destruct next as [i|]; cbn [parse_loop parse_trace] in *;
    try done; [by injection E as <- <-| |by injection E as <- <-].
  destruct (states !! i) as [st|]; [|done]. cbn [mbind option_bind] in E.
  destruct (find_next_state env s b st) as [[[[s1 b1] [e|]] next]|] eqn:E1; [done| |done]. apply IH in E.
  erewrite exec_ops_app; [exact E|]. unfold find_next_state in E1.
  destruct (exec_ops env s b (parser_ops st)) as [[[s2 b2] [e|]]|]; [done| |done]. cbn [mbind option_bind] in E1.
  destruct (negb _); [by simplify_eq|]. mbind_inv E1. done.
Qed.
End headers.

(** C2: the parser and the deparser are inverse: when a run of the parser comes to its end having extracted the headers
    [ids], of fixed width and each once, and the deparser has them in this order and the other headers are not valid,
    then deparsing the packet gives the packet back. *)
Theorem parse_deparse `{GmpLaws, GmpSize, GmpInt} p vs vl act pkt fuel i s n ids d room :
  parser_ok p act → packet_ok pkt → bytes_ok (buffer pkt) → bytes_ok room → init_state p = Some i →
  parse_loop (env_of vs vl act pkt) fuel (states p) (Some i) (pkt_state pkt) 0 = Finished (s, n, None) →
  parse_trace (env_of vs vl act pkt) fuel (states p) (Some i) (pkt_state pkt) 0 = ParserOpExtract <$> ids →
  NoDup ids → (∀ id, id ∈ ids → ∃ h, Phv.get_header (phv (pkt_state pkt)) id = Some h ∧ wire_ok h) →
  filter (.∈ ids) (d_headers d) = ids → skipped (phv (pkt_state pkt)) ids (d_headers d) →
  n ≤ Z.of_nat (length room) →
  ∃ pkt1 pkt2, parse fuel p vs vl act pkt = Some (Some pkt1) ∧
    deparse d Some pkt1 room = Some (pkt2, take (length room - Z.to_nat n) room) ∧ buffer pkt2 = buffer pkt ∧
    ∀ id, id ∈ ids → ∃ h, Phv.get_header (phv (pkt_state pkt1)) id = Some h ∧ Headers.is_valid h = true.
Proof.
  intros Hp Hpkt Hbuf Hroom Hi Hrun Htr Hnd Hids Hd Hskip Hn. destruct (ok_buffer _ Hpkt) as [Hpay Hlb].
  pose proof (parse_loop_trace (env_of vs vl act pkt) _ _ _ _ _ _ _ Hrun) as Hex. rewrite Htr in Hex.
  pose proof (ok_length _ Hpkt) as Hlen.
  destruct (extract_all (env_of vs vl act pkt) Hlen Hbuf ltac:(cbn; lia) ids (pkt_state pkt) 0 s n Hnd Hids)
    as (Hb & Hk & Hval & Hsize & Hloop); [cbn; lia|done|].
  destruct (parse_finished p vs vl act pkt fuel i s n None Hp Hpkt Hi Hrun) as (_ & _ & Hparse).
  rewrite Hparse. cbn [mbind option_bind]. cbn in Hb. rewrite Z.sub_0_r in *.
  assert (skipped (phv s) ids (d_headers d)) as Hskip'.
  { intros id Hid Hni. rewrite Hk by done. by apply Hskip. }
  eexists _, {| pkt_ingress_length := pkt_ingress_length pkt; payload_size := payload_size pkt; buffer := buffer pkt;
                pkt_state := s; error_code := no_error p |}.
  split; [done|]. cbn [pkt_state]. split; [|split; [reflexivity|exact Hval]].
  unfold deparse. cbn [pkt_state mbind option_bind]. change (get_headers_size d (phv s)) with (headers_size (phv s) (Some 0) (d_headers d)).
  rewrite (headers_size_filter _ ids) by done. rewrite Hd, Hsize by lia. cbn [mbind option_bind]. rewrite Z.add_0_l.
  rewrite (proj2 (Z.leb_le _ _)) by done. rewrite (deparse_loop_filter _ ids), Hd by done. cbn [buffer].
  set (k := (length room - Z.to_nat n)%nat).
  assert (length (drop k room) = Z.to_nat n) as Hlk by (rewrite length_drop; lia).
  rewrite Hloop; [|apply Forall_app; split; by apply Forall_drop|rewrite length_app; lia]. cbn [mbind option_bind].
  rewrite drop_app_length' by done. unfold at_data. cbn [env_of data]. change (drop (Z.to_nat 0) (buffer pkt)) with (buffer pkt).
  by rewrite take_drop.
Qed.
End ParseDeparse.
