(* ===== verification/ParserExamples.v ===== *)
(** * A parser of two headers, and what goes wrong

    The witnesses of the theorems on the parser, and examples of inputs that the
    code does not handle. *)

From S2P Require Import Prelude Data Fields Headers Phv Expressions ErrorCodes Parser ParserRun ParseDeparse.
Import (coercions) Fields.

Module ParserExamples.
Import Parser ParserSafety ParserRun ParseDeparse GmpExample PhvExamples.

#[local] Instance GmpSize_Z : GmpSize := λ z, z mod 2 ^ 64.
#[local] Instance GmpInt_Z : GmpInt := λ z, (z + 2 ^ 31) mod 2 ^ 32 - 2 ^ 31.

(** An Ethernet header cut down to two bytes, an IPv4 header cut down to three,
    and a header that is not in the packet. *)
Definition eth_type : Headers.HeaderType :=
  (Headers.push_back_field (Headers.push_back_field (Headers.new_type 1) "dst" 8 false false false).1
    "etherType" 8 false false false).1.

Definition net_phv : Phv.PHV := default empty_phv (
  phv ← Phv.push_back_header empty_phv eth_type (list_to_set [0; 1; 2]) false;
  phv ← Phv.push_back_header phv HeadersExamples.ipv4_type (list_to_set [0; 1; 2; 3; 4]) false;
  Phv.push_back_header phv tag_type (list_to_set [0; 1]) false).

Definition eth_state : ParseState :=
  add_switch_case (set_key_builder (add_extract new_state 0) (push_back_field empty_builder 0 1 8)) [8] (Some 1%nat).
Definition ipv4_state : ParseState := add_extract new_state 1.

Definition codes : ErrorCodes.ErrorCodeMap := default ErrorCodes.empty_map ErrorCodes.make_with_core.
Definition net_parser : Parser :=
  set_init_state (default {| states := []; init_state := None; error_codes := codes; no_error := 0 |}
    (new_parser [eth_state; ipv4_state] codes)) (Some 0%nat).

Definition net_state : State := {| phv := net_phv; registers := λ _, [] |}.
Definition packet_of (bytes : list Z) (s : State) : Packet :=
  {| pkt_ingress_length := Z.of_nat (length bytes); payload_size := 0; buffer := bytes; pkt_state := s; error_code := -1 |}.
Definition net_packet : Packet := packet_of [0xaa; 8; 0x45; 0x60; 0x07; 1; 2] net_state.

Definition no_action (a : Z) (s : State) : option State := None.
Definition no_expr (id : Z) : option Expressions.Expression := None.

Example net_parse :
  (r ← parse 8 net_parser [] no_expr no_action net_packet; p ← r;
   Some (buffer p, error_code p, Headers.valid <$> Phv.headers (phv (pkt_state p))))
  = Some ([1; 2], 0, [true; true; false]).
Proof. vm_compute. reflexivity. Qed.

(** The packet ends in the IPv4 header. *)
Example net_parse_short :
  (r ← parse 8 net_parser [] no_expr no_action (packet_of [0xaa; 8; 0x45] net_state); p ← r;
   Some (buffer p, error_code p, Headers.valid <$> Phv.headers (phv (pkt_state p))))
  = Some ([0x45], 1, [true; false; false]).
Proof. vm_compute. reflexivity. Qed.

(** *** Witnesses *)

Lemma net_parser_ok : parser_ok net_parser no_action.
Proof.
  split; [|done|].
  - repeat constructor.
  - intros []; vm_compute; by eexists.
Qed.

Lemma net_packet_ok : packet_ok net_packet.
Proof.
  split; [cbn; lia|cbn; lia|]. unfold fixed. let x := eval vm_compute in (shapes (phv (pkt_state net_packet))) in
    change (Forall fixed_shape x).
  repeat (apply Forall_cons; split; [split; [reflexivity|split; [repeat constructor|cbn; lia]]|]). by apply Forall_nil.
Qed.


Lemma parse_within_witness : ∃ s n e,
  parse_loop (env_of [] no_expr no_action net_packet) 8 (states net_parser) (Some 0%nat) (pkt_state net_packet) 0
    = Finished (s, n, e) ∧
  0 ≤ n ≤ pkt_ingress_length net_packet ∧ shapes (phv s) = shapes (phv (pkt_state net_packet)) ∧
  ∃ pkt', parse 8 net_parser [] no_expr no_action net_packet = Some (Some pkt') ∧ pkt_state pkt' = s ∧
    buffer pkt' = drop (Z.to_nat n) (buffer net_packet) ∧
    match e with
    | None => error_code pkt' = no_error net_parser
    | Some (parser_exception_arch c) => error_code pkt' = c
    | Some (parser_exception_core c) => ErrorCodes.from_core (error_codes net_parser) c = Some (error_code pkt')
    end.
Proof.
  eexists _, _, _. split; [vm_compute; reflexivity|].
  apply (parse_within net_parser [] no_expr no_action net_packet 8 0);
    [apply net_parser_ok|apply net_packet_ok|reflexivity|vm_compute; reflexivity].
Defined.

Lemma net_wire_ok id : id ∈ [0; 1] → ∃ h, Phv.get_header (phv (pkt_state net_packet)) id = Some h ∧ wire_ok h.
Proof.
  rewrite !elem_of_cons. intros [->|[->|?%elem_of_nil]]; [| |done]; (eexists; split; [vm_compute; reflexivity|]);
    (split; [reflexivity|reflexivity| | |reflexivity|cbn; lia| |]);
    try (vm_compute; by eexists); try (repeat constructor; vm_compute; done).
  all: try (vm_compute; split_and!; (left; done) || (right; done) || done).
Qed.

Definition net_deparser : Deparser := {| d_headers := [0; 2; 1] |}.

Lemma parse_deparse_witness : ∃ pkt1 pkt2,
  parse 8 net_parser [] no_expr no_action net_packet = Some (Some pkt1) ∧
  deparse net_deparser Some pkt1 (replicate 8 0) = Some (pkt2, take (length (replicate 8 0) - Z.to_nat 5) (replicate 8 0)) ∧
  buffer pkt2 = buffer net_packet ∧
  ∀ id, id ∈ [0; 1] → ∃ h, Phv.get_header (phv (pkt_state pkt1)) id = Some h ∧ Headers.is_valid h = true.
Proof.
  let r := eval vm_compute in
    (parse_loop (env_of [] no_expr no_action net_packet) 8 (states net_parser) (Some 0%nat) (pkt_state net_packet) 0) in
  match r with Finished (?s, _, _) =>
    apply (parse_deparse net_parser [] no_expr no_action net_packet 8 0 s 5 [0; 1] net_deparser (replicate 8 0)) end.
  - apply net_parser_ok.
  - apply net_packet_ok.
  - by refine (bool_decide_unpack _ _).
  - by refine (bool_decide_unpack _ _).
  - reflexivity.
  - vm_compute. reflexivity.
  - vm_compute. reflexivity.
  - by refine (bool_decide_unpack _ _).
  - apply net_wire_ok.
  - vm_compute. reflexivity.
  - intros id. change (d_headers net_deparser) with [0; 2; 1]. rewrite !elem_of_cons.
    intros [->|[->|[->|?%elem_of_nil]]] Hn; try done.
    1,3: exfalso; apply Hn; by refine (bool_decide_unpack _ _).
    eexists. split; [vm_compute; reflexivity|reflexivity].
  - cbn. lia.
Defined.

(** ** A header whose length is in its first byte *)

(** The length, in bytes, of the options that follow it. *)
Definition options_type : Headers.HeaderType :=
  default (Headers.new_type 2) (fst <$> Headers.push_back_VL_field
    (Headers.push_back_field (Headers.new_type 2) "length" 8 false false false).1 "options" 4 true false false).
Definition options_phv : Phv.PHV :=
  default empty_phv (Phv.push_back_header empty_phv options_type (list_to_set [0; 1; 2]) false).
Definition options_state : State := {| phv := options_phv; registers := λ _, [] |}.

Definition eight : Data.Data := {| Data.value := 8; Data.arith := true |}.

(** [length * 8], as the header type has it, and as an operation has it. *)
Definition length_expr : Expressions.Expression :=
  let e := Expressions.push_back_load_local Expressions.new_expression 0 in
  let e := Expressions.push_back_op (Expressions.push_back_load_const e eight) MUL in
  default Expressions.new_expression (Expressions.build e).
Definition options_expr (id : Z) : option Expressions.Expression := Expressions.resolve (Expressions.new_VL length_expr) id.

Definition one_state (op : ParserOp) : Parser :=
  set_init_state (default net_parser (new_parser [add_op new_state op] codes)) (Some 0%nat).

Definition parsed_options (op : ParserOp) (bytes : list Z) : option (option (list Z * Z)) :=
  r ← parse 2 (one_state op) [] options_expr no_action (packet_of bytes options_state);
  Some (p ← r; Some (buffer p, error_code p)).

Example options_parsed : parsed_options (ParserOpExtract 0) [2; 0xaa; 0xbb; 0xcc] = Some (Some ([0xcc], 0)).
Proof. vm_compute. reflexivity. Qed.

(** The check that the packet is long enough for a header takes its variable-width field for empty: a packet that
    ends before the field is not reported as too short, and is read past its end. *)
Theorem extract_past_end : parsed_options (ParserOpExtract 0) [2] = Some None.
Proof. vm_compute. reflexivity. Qed.

(** A lookahead is checked against the number of its own bytes, not against their offset, and in the key of a switch
    it is not checked: both read past the end of the packet. *)
Theorem lookahead_past_end :
  parsed_options (ParserOpSet_lookahead {| f_header := 0; f_offset := 0 |} (make_lookahead 16 8)) [1] = Some None ∧
  parsed_options (ParserOpSet_lookahead {| f_header := 0; f_offset := 0 |} (make_lookahead 0 8)) [] = Some (Some ([], 1)) ∧
  (r ← parse 2 (set_init_state (default net_parser (new_parser
      [add_switch_case (set_key_builder new_state (push_back_lookahead empty_builder 0 8)) [1] None] codes)) (Some 0%nat))
      [] options_expr no_action (packet_of [] options_state);
   Some (p ← r; Some (error_code p))) = Some None.
Proof. split; [|split]; vm_compute; reflexivity. Qed.

(** A state without operations that is its own next state: no number of steps is enough. *)
Example parse_diverges env s b fuel :
  parse_loop env fuel [set_default_switch_case new_state (Some 0%nat)] (Some 0%nat) s b = OutOfFuel.
Proof. induction fuel as [|fuel IH]; [done|]. exact IH. Qed.
End ParserExamples.
