(* ===== verification/ValueSets.v ===== *)
(** * Value sets (ParseVSet in src/bm_sim/parser.cpp)

    The control plane adds values whose fields are packed bit after bit; the key of
    a packet has every field in bytes of its own. [do_padding] makes the one of
    the other, and a state that selects on a value set matches a key iff the
    values of its fields were added together. *)

From stdpp Require Import gmap.
From S2P Require Import Prelude Extract ByteContainer Data Fields Headers Phv Expressions ErrorCodes Parser.
Import (coercions) Fields.

Module ValueSets.
Import Parser.

(** The values of fields of widths [ws], packed, and as the bytes of a key. *)
Definition total (ws : list Z) : Z := foldr Z.add 0 ws.
Fixpoint packed (ws vals : list Z) : Z :=
  match ws, vals with
  | w :: ws', v :: vals' => v * 2 ^ total ws' + packed ws' vals'
  | _, _ => 0
  end.
Definition packed_bytes (ws vals : list Z) : list Z := be_bytes (Z.to_nat (field_bytes (total ws))) (packed ws vals).
Definition key_of (ws vals : list Z) : list Z :=
  concat (zip_with (λ w v, be_bytes (Z.to_nat (field_bytes w)) v) ws vals).

Definition in_range (w v : Z) : Prop := 0 ≤ v < 2 ^ w.

(** No field narrower than a byte crosses a byte boundary, from bit [off] on. *)
Fixpoint aligned (ws : list Z) (off : Z) : Prop :=
  match ws with
  | [] => True
  | w :: ws' => (8 ≤ w ∨ off mod 8 + w ≤ 8) ∧ aligned ws' (off + w)
  end.

Definition widths_ok (ws : list Z) : Prop := Forall (λ w, 0 < w) ws.

Lemma total_pos ws : widths_ok ws → 0 ≤ total ws.
Proof. unfold total. induction 1; cbn; lia. Qed.

Lemma packed_range ws vals : widths_ok ws → Forall2 in_range ws vals → 0 ≤ packed ws vals < 2 ^ total ws.
Proof.
  intros Hw Hv. induction Hv as [|w v ws vals Hv Hvs IH]; [done|]. apply Forall_cons in Hw as [Hw Hws].
  specialize (IH Hws). cbn [packed total foldr]. unfold in_range in Hv. fold (total ws). pose proof (total_pos ws Hws).
  rewrite Z.pow_add_r by lia. nia.
Qed.

(** The bits of the first field of a packed value, and of the others. *)
Lemma packed_head w v ws vals i : widths_ok ws → Forall2 in_range ws vals → 0 ≤ i →
  Z.testbit (packed (w :: ws) (v :: vals)) (total ws + i) = Z.testbit v i.
Proof.
  intros Hw Hv Hi. pose proof (packed_range ws vals Hw Hv) as Hr. pose proof (total_pos ws Hw). cbn [packed].
  rewrite (Z.add_comm (total ws) i), <- Z.shiftr_spec, Z.shiftr_div_pow2, Z.div_add_l, (Z.div_small (packed ws vals)) by lia.
  by rewrite Z.add_0_r.
Qed.

Lemma packed_tail w v ws vals i : widths_ok ws → Forall2 in_range ws vals → 0 ≤ i < total ws →
  Z.testbit (packed (w :: ws) (v :: vals)) i = Z.testbit (packed ws vals) i.
Proof.
  intros Hw Hv Hi. pose proof (packed_range ws vals Hw Hv) as Hr. cbn [packed].
  rewrite <- (Z.mod_pow2_bits_low _ (total ws)) by lia.
  rewrite Z.add_comm, Z.mod_add, Z.mod_small by lia. done.
Qed.

Lemma field_bytes_eq w : 0 ≤ w → field_bytes w = Extract.nbytes_of w.
Proof. intros Hw. unfold field_bytes, Extract.nbytes_of. by rewrite Z.quot_div_nonneg by lia. Qed.

(** Extracting a field whose bits are those of [v]. *)
Lemma extract_value src off w v :
  bytes_ok src → 0 ≤ off < 8 → 0 < w → off + w ≤ 8 * Z.of_nat (length src) → 8 ≤ w ∨ off + w ≤ 8 → in_range w v →
  (∀ i, 0 ≤ i < w → bit_at src (off + (w - 1 - i)) = Z.testbit v i) →
  Extract.generic_extract src off w (replicate (Z.to_nat (field_bytes w)) 0) =
    Some (be_bytes (Z.to_nat (field_bytes w)) v).
Proof.
  intros Hs Hoff Hw Hl Hal Hv Hbits. rewrite field_bytes_eq by lia. pose proof (Extract.nbytes_of_bounds w) as Hnb.
  set (n := Extract.nbytes_of w) in *.
  assert (bytes_ok (replicate (Z.to_nat n) 0)) as Hz by (apply Forall_replicate; unfold byte_ok; lia).
  destruct (Extract.generic_extract_ok src (replicate (Z.to_nat n) 0) off w) as (d & -> & Hd); [done..| |done|].
  { fold n. rewrite length_replicate. lia. }
  destruct Hd as (Hld & Hok & Hdb & _). rewrite length_replicate in Hld. fold n in Hdb. f_equal.
  apply be_value_inj; [done|apply be_bytes_ok|by rewrite length_be_bytes|]. rewrite be_value_bytes, Z2Nat.id by lia.
  assert (2 ^ w ≤ 256 ^ n) as Hpow.
  { replace 256 with (2 ^ 8) by done. rewrite <- Z.pow_mul_r by lia. apply Z.pow_le_mono_r; lia. }
  unfold in_range in Hv. rewrite (Z.mod_small v) by lia. apply Z.bits_inj'. intros i Hi.
  destruct (decide (i < 8 * n)) as [Hin|Hin].
  - rewrite Headers.be_value_testbit, Hld, Z2Nat.id by (rewrite ?Hld; done || lia). rewrite Hdb by lia.
    destruct (decide (i < w)).
    + rewrite bool_decide_true by lia. cbn. rewrite <- Hbits by lia. f_equal. lia.
    + rewrite bool_decide_false by lia. cbn. symmetry. apply (testbit_high v w); lia.
  - pose proof (be_value_range d Hok) as Hr. rewrite Hld, Z2Nat.id in Hr by lia.
    replace 256 with (2 ^ 8) in Hr by done. rewrite <- Z.pow_mul_r in Hr by lia.
    rewrite (testbit_high (be_value d) (8 * n)) by lia. symmetry. apply (testbit_high v w); lia.
Qed.

Lemma aligned_shift ws : ∀ q off, aligned ws (8 * q + off) ↔ aligned ws off.
Proof.
  induction ws as [|w ws IH]; intros q off; cbn; [done|]. replace (8 * q + off) with (off + q * 8) by lia.
  rewrite Z.mod_add by lia. replace (off + q * 8 + w) with (8 * q + (off + w)) by lia. by rewrite IH.
Qed.

Lemma pad_loop_ok ws vals : Forall2 in_range ws vals → ∀ src off,
  widths_ok ws → bytes_ok src → 0 ≤ off < 8 → off + total ws ≤ 8 * Z.of_nat (length src) → aligned ws off →
  (∀ k, 0 ≤ k < total ws → bit_at src (off + k) = Z.testbit (packed ws vals) (total ws - 1 - k)) →
  pad_loop ws src off = Some (key_of ws vals).
Proof.
  induction 1 as [|w v ws vals Hv Hvs IH]; intros src off Hw Hs Hoff Hl Hal Hb; [done|].
  apply Forall_cons in Hw as [Hw Hws]. destruct Hal as [Hal Hal']. rewrite (Z.mod_small off) in Hal by lia.
  pose proof (total_pos ws Hws). cbn [pad_loop]. cbn [total foldr] in Hb, Hl. fold (total ws) in Hb, Hl.
  rewrite (extract_value src off w v); [|done|done|done|lia|done|done|].
  2: { intros i Hi. rewrite Hb by lia. rewrite <- (packed_head w v ws vals) by done || lia. f_equal. lia. }
  cbn [mbind option_bind]. destruct (Headers.div_mod_8 (off + w)) as (Hq & Hr & Eqr); [lia|].
  set (q := (off + w) / 8) in *. set (r := (off + w) mod 8) in *.
  rewrite IH; [done|done|by apply Forall_drop|done|rewrite length_drop; lia| |].
  - apply (aligned_shift ws q). by rewrite Eqr.
  - intros k Hk. rewrite Headers.bit_at_drop by lia. replace (8 * q + (r + k)) with (off + (w + k)) by lia.
    rewrite Hb by lia. rewrite packed_tail by (done || lia). f_equal. lia.
Qed.

(** ** A shadow without a mask *)

Lemma sum_total ws : sum_of_widths ws = total ws.
Proof.
  unfold sum_of_widths, total. assert (∀ acc, foldl Z.add acc ws = acc + foldr Z.add 0 ws) as Hacc; [|apply Hacc].
  induction ws as [|w ws IH]; intros acc; cbn; [lia|]. rewrite IH. lia.
Qed.

Lemma field_bytes_pos w : 0 < w → 0 < field_bytes w ∧ w ≤ 8 * field_bytes w < w + 8.
Proof. intros Hw. rewrite field_bytes_eq by lia. pose proof (Extract.nbytes_of_bounds w). lia. Qed.

Lemma key_length ws vals : widths_ok ws → Forall2 in_range ws vals →
  Z.of_nat (length (key_of ws vals)) = total (field_bytes <$> ws).
Proof.
  intros Hw Hv. induction Hv as [|w v ws vals Hv Hvs IH]; [done|]. apply Forall_cons in Hw as [Hw Hws].
  unfold key_of in *. cbn. rewrite length_app, length_be_bytes, Nat2Z.inj_add, IH by done.
  pose proof (field_bytes_pos w Hw). unfold total. lia.
Qed.

Lemma be_bytes_inj w v v' : 0 < w → in_range w v → in_range w v' →
  be_bytes (Z.to_nat (field_bytes w)) v = be_bytes (Z.to_nat (field_bytes w)) v' → v = v'.
Proof.
  intros Hw Hv Hv' E. apply (f_equal be_value) in E. pose proof (field_bytes_pos w Hw). unfold in_range in *.
  rewrite !be_value_bytes, Z2Nat.id in E by lia.
  assert (2 ^ w ≤ 256 ^ field_bytes w) as Hpow.
  { replace 256 with (2 ^ 8) by done. rewrite <- Z.pow_mul_r by lia. apply Z.pow_le_mono_r; lia. }
  rewrite !Z.mod_small in E by lia. done.
Qed.

Lemma key_inj ws vals : widths_ok ws → Forall2 in_range ws vals → ∀ vals', Forall2 in_range ws vals' →
  key_of ws vals = key_of ws vals' → vals = vals'.
Proof.
  intros Hw Hv. induction Hv as [|w v ws vals Hv Hvs IH]; intros vals' Hv' E; inversion Hv'; subst; [done|].
  apply Forall_cons in Hw as [Hw Hws]. unfold key_of in *. cbn in E. apply app_inj_1 in E as [E1 E2];
    [|by rewrite !length_be_bytes]. f_equal; [by eapply be_bytes_inj|by apply IH].
Qed.

(** The first field starts after the padding of the packed value. *)
Definition padding (ws : list Z) : Z := 8 * field_bytes (total ws) - total ws.

Lemma do_padding_ok s ws vals :
  kind s = ParseVSetNoMask → vs_bitwidths s = ws → widths_ok ws → ws ≠ [] →
  length ws = 1%nat ∨ aligned ws (padding ws) → Forall2 in_range ws vals →
  do_padding s (packed_bytes ws vals) = Some (key_of ws vals).
Proof.
  intros Hk <- Hw Hne Hal Hv. unfold do_padding. rewrite Hk. set (ws := vs_bitwidths s) in *. clearbody ws.
  assert (0 < total ws) as Hpos.
  { destruct ws as [|w ws]; [done|]. apply Forall_cons in Hw as [Hw Hws]. cbn. pose proof (total_pos ws Hws).
    fold (total ws). lia. }
  pose proof (field_bytes_pos (total ws) Hpos) as Hf. destruct (Z.eqb_spec (Z.of_nat (length ws)) 1) as [E|E].
  { destruct ws as [|w [|w' ws']]; [done| |cbn in E; lia]. inversion Hv as [|? v ? l ? Hvs]; subst. inversion Hvs; subst. f_equal.
    unfold packed_bytes, key_of. cbn. rewrite app_nil_r, Z.add_0_r. by rewrite Z.mul_1_r, Z.add_0_r. }
  destruct Hal as [?|Hal]; [lia|]. rewrite sum_total. unfold packed_bytes at 1.
  rewrite length_be_bytes, Z2Nat.id by lia. fold (field_bytes (total ws)). rewrite Z.eqb_refl.
  unfold packed_bytes. rewrite length_be_bytes, Z2Nat.id, Z.shiftl_mul_pow2 by lia.
  replace (field_bytes (total ws) * 2 ^ 3 - total ws) with (padding ws) by (unfold padding; lia).
  apply pad_loop_ok; [done|done|apply be_bytes_ok|unfold padding; lia|rewrite length_be_bytes; unfold padding; lia|done|].
  intros k Hk'. pose proof (packed_range ws vals Hw Hv) as Hr.
  assert (be_value (be_bytes (Z.to_nat (field_bytes (total ws))) (packed ws vals)) = packed ws vals) as Eb.
  { rewrite be_value_bytes, Z2Nat.id by lia. apply Z.mod_small. replace 256 with (2 ^ 8) by done.
    rewrite <- Z.pow_mul_r by lia. split; [lia|]. eapply Z.lt_le_trans; [apply Hr|]. apply Z.pow_le_mono_r; lia. }
  rewrite <- Eb at 2. rewrite Headers.be_value_testbit; [|apply be_bytes_ok|rewrite length_be_bytes; lia].
  rewrite length_be_bytes, Z2Nat.id by lia. f_equal. unfold padding. lia.
Qed.

(** The key of a packet is in a value set iff the values of its fields, packed, were added to it, and not removed
    since: adding or removing a value changes what the set says of the key with these fields only. *)
Theorem vset_update (c : Z) (ws : list Z) (s0 : VSet) (x : gset (list Z)) (vals : list Z) :
  widths_ok ws → ws ≠ [] → length ws = 1%nat ∨ aligned ws (padding ws) →
  new_vset ParseVSetNoMask c ws = Some s0 → Forall2 in_range ws vals →
  ∃ s1 s2, vs_add (with_set s0 x) (packed_bytes ws vals) = Some s1 ∧
    vs_remove (with_set s0 x) (packed_bytes ws vals) = Some s2 ∧
    ∀ vals', Forall2 in_range ws vals' → ∃ b, vs_contains (with_set s0 x) (key_of ws vals') = Some b ∧
      vs_contains s1 (key_of ws vals') = Some (bool_decide (vals' = vals) || b) ∧
      vs_contains s2 (key_of ws vals') = Some (negb (bool_decide (vals' = vals)) && b).
Proof.
  intros Hw Hne Hal Hs0 Hv. unfold new_vset in Hs0. cbn in Hs0. rewrite decide_False in Hs0 by done. injection Hs0 as <-.
  set (s := with_set _ x). assert (∀ v, Forall2 in_range ws v → (Z.of_nat (length (key_of ws v)) =? vs_width s) = true) as Hlen.
  { intros v Hv'. apply Z.eqb_eq. cbn. rewrite key_length, sum_total by done. done. }
  assert (vs_key s (packed_bytes ws vals) = Some (key_of ws vals)) as Ekey.
  { unfold vs_key. rewrite (do_padding_ok s ws vals) by done. cbn [mbind option_bind]. change (transform_input s (key_of ws vals))
      with (Some (key_of ws vals)). cbn [mbind option_bind]. by rewrite Hlen. }
  unfold vs_add, vs_remove. rewrite Ekey. cbn [mbind option_bind]. eexists _, _. split; [done|]. split; [done|].
  intros vals' Hv'. exists (bool_decide (key_of ws vals' ∈ x)). unfold vs_contains.
  cbn [transform_input with_set kind vs_set vs_width mbind option_bind s]. cbn [vs_width s with_set] in Hlen. rewrite Hlen by done.
  assert (bool_decide (key_of ws vals' = key_of ws vals) = bool_decide (vals' = vals)) as E.
  { apply bool_decide_ext. split; [|by intros ->]. intros E. symmetry. by eapply key_inj. }
  split; [done|]. split; f_equal; rewrite <- E.
  - rewrite <- bool_decide_or. apply bool_decide_ext. set_solver.
  - rewrite <- bool_decide_not, <- bool_decide_and. apply bool_decide_ext. set_solver.
Qed.

(** ** Examples *)

Definition no_vset : VSet :=
  {| kind := ParseVSetBase; vs_compressed_bitwidth := 0; vs_width := 0; vs_bitwidths := []; vs_set := ∅ |}.

(** Values of a 4-bit and a 12-bit field. *)
Definition two_fields : VSet := default no_vset (new_vset ParseVSetNoMask 16 [4; 12]).

Lemma vset_update_witness : ∃ s1 s2, vs_add (with_set two_fields ∅) (packed_bytes [4; 12] [3; 0x456]) = Some s1 ∧
  vs_remove (with_set two_fields ∅) (packed_bytes [4; 12] [3; 0x456]) = Some s2 ∧
  ∀ vals', Forall2 in_range [4; 12] vals' → ∃ b, vs_contains (with_set two_fields ∅) (key_of [4; 12] vals') = Some b ∧
    vs_contains s1 (key_of [4; 12] vals') = Some (bool_decide (vals' = [3; 0x456]) || b) ∧
    vs_contains s2 (key_of [4; 12] vals') = Some (negb (bool_decide (vals' = [3; 0x456])) && b).
Proof.
  apply (vset_update 16 [4; 12] two_fields ∅ [3; 0x456]);
    [repeat constructor|done|right; vm_compute; split_and!; (by left) || (by right) || done|reflexivity|].
  repeat constructor; unfold in_range; lia.
Defined.

Example two_fields_packed : packed_bytes [4; 12] [3; 0x456] = [0x34; 0x56] ∧ key_of [4; 12] [3; 0x456] = [3; 4; 0x56].
Proof. done. Qed.

(** Removing a value from a value set also removes, for the states that select on it under a mask, the values that
    are the same under the mask: the set holds [0x13] and the state does not match it any more. *)
Theorem mask_remove_loses : ∃ c p0 p1 p2 p3,
  (p ← new_ParseVSet 8; '(c, vs) ← make_case_vset [p] 0 (ParseVSetMask [0xf0]) [8] (Some 1%nat); Some (c, vs)) = Some (c, [p0]) ∧
  pvs_add p0 [0x12] = Some p1 ∧ pvs_add p1 [0x13] = Some p2 ∧ pvs_remove p2 [0x12] = Some p3 ∧
  pvs_contains p3 [0x13] = Some true ∧
  ∀ env, (vsets env = [p2] → match_case env c [0x13] = Some (Some (Some 1%nat))) ∧
         (vsets env = [p3] → match_case env c [0x13] = Some None).
Proof.
  eexists _, _, _, _, _. do 4 (split; [vm_compute; reflexivity|]). split; [vm_compute; reflexivity|].
  intros env. split; intros E; unfold match_case; rewrite E; vm_compute; reflexivity.
Qed.

(** When a field narrower than a byte crosses a byte boundary of the packed value, the bits before it are taken for
    bits of its padding: the value that was added does not match. *)
Theorem vset_straddle : ∃ s0 s1,
  new_vset ParseVSetNoMask 16 [4; 6; 6] = Some s0 ∧ vs_add s0 (packed_bytes [4; 6; 6] [15; 1; 2]) = Some s1 ∧
  do_padding s0 (packed_bytes [4; 6; 6] [15; 1; 2]) = Some [15; 0xc1; 2] ∧
  vs_contains s1 (key_of [4; 6; 6] [15; 1; 2]) = Some false.
Proof.
  eexists _, _. split; [vm_compute; reflexivity|]. split; [vm_compute; reflexivity|].
  split; vm_compute; reflexivity.
Qed.
End ValueSets.
