(* ===== verification/LinkTable.v ===== *)
(** * The table of linked objects (include/bm/bm_linker/linker_commons.h)

    [LinkerUIDTableGeneric] links the objects of several programs to objects of
    the linker. It keeps two maps: from the qualified name of an object, which is a
    string, to the linker object, and from the linker object to the objects that
    are linked to it. Elements of the sets of the second map are equal when their
    program and value are, whatever their state: a set is a map to the state. *)

From stdpp Require Import gmap strings pretty.
From S2P Require Import Prelude.

Inductive ObjectLinkStateCode :=
  | HEADER_TYPE_DEF_MATCH | HEADER_TYPE_DEF_MATCH_FAILED
  | HEADER_TYPE_SELECT_FIELD_MATCH | HEADER_TYPE_VL_FIELD_MATCH | HEADER_TYPE_LINKED
  | HEADER_LINKED | HEADER_LINK_FAILED
  | STATE_HEADER_OPS_LINKED | STATE_HEADER_OPS_LINK_FAILED
  | STATE_PARSE_SWITCH_KEY_MATCH | STATE_PARSE_SWITCH_KEY_MATCH_FAILED
  | STATE_LINKING_FAILED | STATE_LINKED | STATE_MATCHED
  | PARSER_LINKING_FAILED | LINKING_FAILED | DEFAULT.

#[export] Instance ObjectLinkStateCode_eq_dec : EqDecision ObjectLinkStateCode.
Proof. solve_decision. Defined.

Inductive TableRetCode :=
  | SUCCESS | P4_OBJECT_EXIST | LINK_OBJECT_P4_NAME_EXIST | P4_OBJECT_MATCH_FAILED | LINK_OBJECT_MATCH_FAILED
  | NO_P4_OBJECT_LINK_EXIST | NO_P4_OBJECT_EXIST | TABLE_INCONSISTENT.

(** [boost::lexical_cast<std::string>]: different values have different strings. *)
Class Lexical (T : Type) := lexical_cast : T → string.
Class LexicalLaws (T : Type) `{Lexical T} : Prop := lexical_cast_inj : Inj (=) (=) (lexical_cast (T := T)).

#[export] Instance string_lexical : Lexical string := id.
#[export] Instance string_lexical_laws : LexicalLaws string.
Proof. by intros a b. Qed.
#[export] Instance Z_lexical : Lexical Z := pretty.
#[export] Instance Z_lexical_laws : LexicalLaws Z.
Proof. intros a b. apply (inj (pretty (A := Z))). Qed.

(** ** Strings without a character *)

Fixpoint no_char (c : Ascii.ascii) (s : string) : Prop :=
  match s with EmptyString => True | String a s' => a ≠ c ∧ no_char c s' end.

Notation dot := (Ascii.Ascii false true true true false true false false).
Notation dash := (Ascii.Ascii true false true true false true false false).

Lemma split_at_char c a b s s' : no_char c a → no_char c b →
  (a ++ String c s)%string = (b ++ String c s')%string → a = b ∧ s = s'.
Proof.
  revert b. induction a as [|x a IH]; intros [|y b] Ha Hb E; cbn in *.
  - by injection E as ->.
  - injection E as -> _. by destruct Hb.
  - injection E as -> _. by destruct Ha.
  - destruct Ha as [_ Ha], Hb as [_ Hb]. injection E as -> E. by destruct (IH b Ha Hb E) as [-> ->].
Qed.

Module LinkTable.

Record LinkValueState (T : Type) := { pname : string; value : T; link_state : ObjectLinkStateCode }.
Arguments pname {T} _.
Arguments value {T} _.
Arguments link_state {T} _.

Section table.
Context {T : Type} `{Countable T} `{Lexical T}.

Record Table := {
  fqn_to_linker_p4object_uid_map : gmap string (LinkValueState T);
  linker_to_p4s_id_map : gmap T (gmap (string * T) ObjectLinkStateCode);
}.

Implicit Types (t : Table) (p4_name : string) (val link_val : T) (state : ObjectLinkStateCode).

Definition empty_table : Table := {| fqn_to_linker_p4object_uid_map := ∅; linker_to_p4s_id_map := ∅ |}.

Definition fqn_of p4_name val : string := p4_name ++ "." ++ lexical_cast val.

Definition insert_p4objects_link t p4_name val link_val state : Table * TableRetCode :=
  let fqn := fqn_of p4_name val in
  match fqn_to_linker_p4object_uid_map t !! fqn with
  | Some _ => (t, P4_OBJECT_EXIST)
  | None =>
      let set_p4_vals := default ∅ (linker_to_p4s_id_map t !! link_val) in
      match set_p4_vals !! (p4_name, val) with
      | Some _ => (t, LINK_OBJECT_P4_NAME_EXIST)
      | None =>
          ({| fqn_to_linker_p4object_uid_map :=
                <[fqn := {| pname := "Linker"; value := link_val; link_state := state |}]> (fqn_to_linker_p4object_uid_map t);
              linker_to_p4s_id_map :=
                <[link_val := <[(p4_name, val) := state]> set_p4_vals]> (linker_to_p4s_id_map t) |}, SUCCESS)
      end
  end.

(** The first map is updated before the second is found inconsistent. *)
Definition update_p4objects_link t p4_name val link_val state : Table * TableRetCode :=
  let fqn := fqn_of p4_name val in
  match fqn_to_linker_p4object_uid_map t !! fqn with
  | None => (t, NO_P4_OBJECT_EXIST)
  | Some e =>
      if bool_decide (value e ≠ link_val) then (t, NO_P4_OBJECT_LINK_EXIST) else
      let t := {| fqn_to_linker_p4object_uid_map :=
                    <[fqn := {| pname := pname e; value := value e; link_state := state |}]> (fqn_to_linker_p4object_uid_map t);
                  linker_to_p4s_id_map := linker_to_p4s_id_map t |} in
      match linker_to_p4s_id_map t !! link_val with
      | None => (t, TABLE_INCONSISTENT)
      | Some set_p4_vals =>
          match set_p4_vals !! (p4_name, val) with
          | None => (t, TABLE_INCONSISTENT)
          | Some _ =>
              ({| fqn_to_linker_p4object_uid_map := fqn_to_linker_p4object_uid_map t;
                  linker_to_p4s_id_map :=
                    <[link_val := <[(p4_name, val) := state]> set_p4_vals]> (linker_to_p4s_id_map t) |}, SUCCESS)
          end
      end
  end.

(** The state is an out parameter, set only on success. *)
Definition get_p4objects_link_state t p4_name val link_val : TableRetCode * option ObjectLinkStateCode :=
  match fqn_to_linker_p4object_uid_map t !! fqn_of p4_name val with
  | None => (P4_OBJECT_MATCH_FAILED, None)
  | Some e => if bool_decide (value e ≠ link_val) then (LINK_OBJECT_MATCH_FAILED, None) else (SUCCESS, Some (link_state e))
  end.

Definition get_p4object_link t p4_name val : TableRetCode * option (LinkValueState T) :=
  match fqn_to_linker_p4object_uid_map t !! fqn_of p4_name val with
  | None => (P4_OBJECT_MATCH_FAILED, None)
  | Some e => (SUCCESS, Some e)
  end.

Definition get_all_linker_uids t : gset T := dom (linker_to_p4s_id_map t).

(** ** What the table promises *)

(** The object is linked to [l], with this state. *)
Definition linked t p4_name val : option (T * ObjectLinkStateCode) :=
  (λ e, (value e, link_state e)) <$> fqn_to_linker_p4object_uid_map t !! fqn_of p4_name val.

(** The two maps agree. *)
Record consistent t : Prop := {
  forward : ∀ fqn e, fqn_to_linker_p4object_uid_map t !! fqn = Some e → ∃ p v s, fqn = fqn_of p v ∧
    linker_to_p4s_id_map t !! value e = Some s ∧ s !! (p, v) = Some (link_state e);
  backward : ∀ l s p v st, linker_to_p4s_id_map t !! l = Some s → s !! (p, v) = Some st → linked t p v = Some (l, st);
  nonempty : ∀ l s, linker_to_p4s_id_map t !! l = Some s → s ≠ ∅;
}.

Lemma empty_consistent : consistent empty_table.
Proof. split; intros *; cbn; by rewrite lookup_empty. Qed.

Lemma linked_insert t f e p v : fqn_of p v = f →
  linked {| fqn_to_linker_p4object_uid_map := <[f := e]> (fqn_to_linker_p4object_uid_map t);
            linker_to_p4s_id_map := linker_to_p4s_id_map t |} p v = Some (value e, link_state e).
Proof. intros <-. unfold linked. cbn. by rewrite lookup_insert_eq. Qed.

(** What inserting does: it fails exactly on objects whose qualified name is
    linked already, and never because the linker object is taken. *)
Lemma insert_spec t p4_name val link_val state : consistent t →
  match linked t p4_name val with
  | Some _ => insert_p4objects_link t p4_name val link_val state = (t, P4_OBJECT_EXIST)
  | None => ∃ t', insert_p4objects_link t p4_name val link_val state = (t', SUCCESS) ∧ consistent t' ∧
      (∀ p v, linked t' p v = if decide (fqn_of p v = fqn_of p4_name val) then Some (link_val, state) else linked t p v) ∧
      get_all_linker_uids t' = {[link_val]} ∪ get_all_linker_uids t
  end.
Proof.
  intros Hc. unfold linked at 1, insert_p4objects_link.
  destruct (fqn_to_linker_p4object_uid_map t !! fqn_of p4_name val) as [e|] eqn:Ef; cbn; [done|].
  set (f := fqn_of p4_name val) in *. set (set_ := default ∅ (linker_to_p4s_id_map t !! link_val)).
  assert (∀ p v st, set_ !! (p, v) = Some st → linked t p v = Some (link_val, st)) as Hset.
  { intros p v st. subst set_. destruct (linker_to_p4s_id_map t !! link_val) as [s|] eqn:Es; cbn; [|by rewrite lookup_empty].
    by apply (backward _ Hc). }
  assert (linked t p4_name val = None) as Hn by (unfold linked; fold f; by rewrite Ef).
  destruct (set_ !! (p4_name, val)) as [st|] eqn:Est; [apply Hset in Est; congruence|].
  eexists. split; [done|]. set (t' := {| fqn_to_linker_p4object_uid_map := _; linker_to_p4s_id_map := _ |}).
  assert (∀ p v, linked t' p v = if decide (fqn_of p v = f) then Some (link_val, state) else linked t p v) as Hl.
  { intros p v. unfold linked. cbn. case_decide as E; [by rewrite E, lookup_insert_eq|]. by rewrite lookup_insert_ne. }
  split; [split|split; [done|]].
  - intros g e. cbn. rewrite lookup_insert_Some. intros [[<- <-]|[Hne Hg]]; cbn.
    { exists p4_name, val, (<[(p4_name, val) := state]> set_). by rewrite !lookup_insert_eq. }
    destruct (forward _ Hc _ _ Hg) as (p & v & s & -> & Es & Ev). exists p, v.
    destruct (decide (value e = link_val)) as [El|Hv].
    + exists (<[(p4_name, val) := state]> set_). rewrite El, lookup_insert_eq. split_and!; [done..|].
      rewrite lookup_insert_ne by (intros [= -> ->]; done). subst set_. rewrite El in Es. by rewrite Es.
    + exists s. by rewrite lookup_insert_ne.
  - intros l s p v st. cbn. rewrite lookup_insert_Some, Hl. intros [[<- <-]|[Hne Hs]] Hp.
    + apply lookup_insert_Some in Hp as [[[= <- <-] <-]|[_ Hp%Hset]]; [by rewrite decide_True|].
      rewrite decide_False; [done|]. intros E. unfold linked in Hp. by rewrite E, Ef in Hp.
    + apply (backward _ Hc _ _ _ _ _ Hs) in Hp as E. rewrite decide_False; [done|]. intros Ee. unfold linked in E.
      by rewrite Ee, Ef in E.
  - intros l s. cbn. rewrite lookup_insert_Some. intros [[_ <-]|[_ Hs]]; [apply insert_non_empty|by eapply nonempty].
  - unfold get_all_linker_uids. cbn. apply dom_insert_L.
Qed.

(** An object of a program is linked unless its qualified name is linked already; the check that no other object of
    the program is linked to the same linker object never fails, and the two maps keep agreeing. *)
Theorem insert_links t p4_name val link_val state : consistent t →
  let '(t', code) := insert_p4objects_link t p4_name val link_val state in
  consistent t' ∧ code ≠ LINK_OBJECT_P4_NAME_EXIST ∧
  match linked t p4_name val with
  | Some _ => code = P4_OBJECT_EXIST ∧ t' = t
  | None => code = SUCCESS ∧ ∀ p v,
      linked t' p v = if decide (fqn_of p v = fqn_of p4_name val) then Some (link_val, state) else linked t p v
  end.
Proof.
  intros Hc. pose proof (insert_spec t p4_name val link_val state Hc) as Hi. destruct (linked t p4_name val) as [x|].
  - by rewrite Hi.
  - destruct Hi as (t' & -> & Hc' & Hl & _). done.
Qed.

(** ** Changing the state of a link *)

(** No program of the table has a dot in its name. *)
Definition dotless t : Prop := ∀ l s p v st,
  linker_to_p4s_id_map t !! l = Some s → s !! (p, v) = Some st → no_char dot p.

Lemma fqn_inj `{!LexicalLaws T} p v p' v' : no_char dot p → no_char dot p' → fqn_of p v = fqn_of p' v' → p = p' ∧ v = v'.
Proof. intros Hp Hp' E. apply split_at_char in E as [-> E]; [|done..]. split; [done|]. by apply lexical_cast_inj. Qed.

Lemma linked_reverse `{!LexicalLaws T} t p v l st : consistent t → dotless t → no_char dot p →
  linked t p v = Some (l, st) → ∃ s, linker_to_p4s_id_map t !! l = Some s ∧ s !! (p, v) = Some st.
Proof.
  intros Hc Hd Hp. unfold linked. destruct (fqn_to_linker_p4object_uid_map t !! fqn_of p v) as [e|] eqn:Ef; [|done].
  intros [= <- <-]. destruct (forward _ Hc _ _ Ef) as (p' & v' & s & E & Es & Ev). exists s. split; [done|].
  apply fqn_inj in E as [-> ->]; [done..|]. by eapply Hd.
Qed.

(** The state of a link is changed in both maps iff the object is linked to this linker object; while no program has
    a dot in its name, the table never becomes inconsistent. *)
Theorem update_links `{!LexicalLaws T} t p4_name val link_val state :
  consistent t → dotless t → no_char dot p4_name →
  let '(t', code) := update_p4objects_link t p4_name val link_val state in
  consistent t' ∧ dotless t' ∧ code ≠ TABLE_INCONSISTENT ∧
  match linked t p4_name val with
  | None => code = NO_P4_OBJECT_EXIST ∧ t' = t
  | Some (l, _) =>
      if decide (l = link_val) then code = SUCCESS ∧ ∀ p v,
        linked t' p v = if decide (fqn_of p v = fqn_of p4_name val) then Some (link_val, state) else linked t p v
      else code = NO_P4_OBJECT_LINK_EXIST ∧ t' = t
  end.
Proof.
  intros Hc Hd Hp. unfold update_p4objects_link. destruct (linked t p4_name val) as [[l st]|] eqn:El; cycle 1.
  { unfold linked in El. destruct (_ !! _); [done|]. done. }
  destruct (linked_reverse t p4_name val l st Hc Hd Hp El) as (s & Es & Ev). unfold linked in El.
  destruct (fqn_to_linker_p4object_uid_map t !! fqn_of p4_name val) as [e|] eqn:Ef; [|done]. injection El as <- <-.
  case_bool_decide as Hl; [by rewrite decide_False|]. subst link_val.
  cbn [linker_to_p4s_id_map fqn_to_linker_p4object_uid_map value link_state]. rewrite Es, Ev, decide_True by done.
  set (t' := {| fqn_to_linker_p4object_uid_map := _; linker_to_p4s_id_map := _ |}).
  assert (∀ p v, linked t' p v = if decide (fqn_of p v = fqn_of p4_name val) then Some (value e, state) else linked t p v) as Hli.
  { intros p v. unfold linked. cbn. case_decide as E; [by rewrite E, lookup_insert_eq|]. by rewrite lookup_insert_ne. }
  split; [split|split; [|done]].
  - intros g e'. cbn. rewrite lookup_insert_Some. intros [[<- <-]|[Hne Hg]]; cbn.
    { exists p4_name, val, (<[(p4_name, val) := state]> s). by rewrite !lookup_insert_eq. }
    destruct (forward _ Hc _ _ Hg) as (p & v & s' & -> & Es' & Ev'). exists p, v.
    destruct (decide (value e' = value e)) as [E|E].
    + exists (<[(p4_name, val) := state]> s). rewrite E, lookup_insert_eq. split_and!; [done..|].
      rewrite lookup_insert_ne by (intros [= -> ->]; done). congruence.
    + exists s'. by rewrite lookup_insert_ne.
  - intros l s' p v st. cbn. rewrite lookup_insert_Some, Hli. intros [[<- <-]|[Hne Hs]] Hpv.
    + apply lookup_insert_Some in Hpv as [[[= <- <-] <-]|[Hne Hpv]]; [by rewrite decide_True|].
      pose proof (backward _ Hc _ _ _ _ _ Es Hpv) as E. rewrite decide_False; [done|]. intros Ee.
      apply fqn_inj in Ee as [-> ->]; [done|by eapply Hd|done].
    + pose proof (backward _ Hc _ _ _ _ _ Hs Hpv) as E. rewrite decide_False; [done|]. intros Ee.
      unfold linked in E. rewrite Ee, Ef in E. by injection E as <- _.
  - intros l s'. cbn. rewrite lookup_insert_Some. intros [[_ <-]|[_ Hs]]; [apply insert_non_empty|by eapply nonempty].
  - intros l s' p v st. cbn. rewrite lookup_insert_Some. intros [[_ <-]|[_ Hs]] Hpv; [|by eapply Hd].
    apply lookup_insert_Some in Hpv as [[[= <- <-] _]|[_ Hpv]]; [done|by eapply Hd].
Qed.

(** Reading a link. *)
Lemma get_link_spec t p4_name val l st : get_p4object_link t p4_name val = (SUCCESS, Some (Build_LinkValueState T "Linker" l st)) →
  linked t p4_name val = Some (l, st).
Proof.
  unfold get_p4object_link, linked. destruct (_ !! _) as [e|]; [|done]. by intros [= ->].
Qed.

Lemma get_state_spec t p4_name val l st :
  get_p4objects_link_state t p4_name val l = (SUCCESS, Some st) ↔ linked t p4_name val = Some (l, st).
Proof.
  unfold get_p4objects_link_state, linked. destruct (_ !! _) as [e|]; cbn; [|done]. case_bool_decide as E; [naive_solver|].
  subst l. split; [by intros [= ->]|]. by intros [= ->].
Qed.

Lemma insert_dotless t p4_name val link_val state : dotless t → no_char dot p4_name →
  dotless (insert_p4objects_link t p4_name val link_val state).1.
Proof.
  intros Hd Hp. unfold insert_p4objects_link. destruct (_ !! _); [done|]. destruct (default ∅ _ !! _) eqn:E; [done|].
  intros l s p v st. cbn. rewrite lookup_insert_Some. intros [[_ <-]|[_ Hs]] Hpv; [|by eapply Hd].
  apply lookup_insert_Some in Hpv as [[[= <- <-] _]|[_ Hpv]]; [done|].
  destruct (linker_to_p4s_id_map t !! link_val) eqn:El; cbn in Hpv; [by eapply Hd|]. by rewrite lookup_empty in Hpv.
Qed.

Lemma insert_consistent t p4_name val link_val state : consistent t →
  consistent (insert_p4objects_link t p4_name val link_val state).1.
Proof.
  intros Hc. pose proof (insert_spec t p4_name val link_val state Hc) as Hi.
  destruct (linked t p4_name val); [by rewrite Hi|]. by destruct Hi as (t' & -> & Hc' & _).
Qed.

Lemma empty_dotless : dotless empty_table.
Proof. intros l s p v st. cbn. by rewrite lookup_empty. Qed.
End table.
Arguments Table T {_ _}.
Arguments empty_table {T _ _}.

Section examples.
Local Open Scope string_scope.

Definition one_link : Table Z := (insert_p4objects_link empty_table "router" 3 7 HEADER_TYPE_DEF_MATCH).1.

Lemma insert_links_witness :
  let '(t', code) := insert_p4objects_link one_link "switch" 4 7 HEADER_LINKED in
  code = SUCCESS ∧ linked t' "router" 3 = Some (7%Z, HEADER_TYPE_DEF_MATCH).
Proof.
  assert (consistent one_link) as Hc by (apply insert_consistent, empty_consistent).
  pose proof (insert_links one_link "switch" 4 7 HEADER_LINKED Hc) as Hi.
  destruct (insert_p4objects_link _ _ _ _ _) as [t' code]. destruct Hi as (_ & _ & Hi).
  change (linked one_link "switch" 4) with (@None (Z * ObjectLinkStateCode)) in Hi. destruct Hi as [-> Hi].
  split; [reflexivity|]. rewrite Hi. vm_compute. reflexivity.
Defined.

Lemma update_links_witness :
  let '(t', code) := update_p4objects_link one_link "router" 3 7 HEADER_LINKED in
  code = SUCCESS ∧ linked t' "router" 3 = Some (7%Z, HEADER_LINKED).
Proof.
  assert (consistent one_link) as Hc by (apply insert_consistent, empty_consistent).
  assert (no_char dot "router") as Hr by (cbn; split_and!; first [congruence|exact I]).
  assert (dotless one_link) as Hd by (apply insert_dotless; [apply empty_dotless|exact Hr]).
  pose proof (update_links one_link "router" 3 7 HEADER_LINKED Hc Hd Hr) as Hi.
  destruct (update_p4objects_link _ _ _ _ _) as [t' code]. destruct Hi as (_ & _ & _ & Hi).
  change (linked one_link "router" 3) with (Some (7%Z, HEADER_TYPE_DEF_MATCH)) in Hi. cbn [decide] in Hi.
  rewrite decide_True in Hi by reflexivity. destruct Hi as [-> Hi]. split; [reflexivity|]. rewrite Hi. vm_compute. reflexivity.
Defined.

(** Qualified names are not injective once names have dots: object [b.c] of program [a] takes the name of object [c] of
    program [a.b]. The second cannot be linked, and changing its state as if it had been linked leaves the maps with different
    states for the first. *)
Definition collision : Table string := (insert_p4objects_link empty_table "a" "b.c" "x" HEADER_LINKED).1.

Definition collision_updated : Table string * TableRetCode := update_p4objects_link collision "a.b" "c" "x" HEADER_LINK_FAILED.

Theorem name_collision :
  (insert_p4objects_link collision "a.b" "c" "y" HEADER_LINKED).2 = P4_OBJECT_EXIST ∧
  collision_updated.2 = TABLE_INCONSISTENT ∧ linked collision_updated.1 "a" "b.c" = Some ("x", HEADER_LINK_FAILED) ∧
  linker_to_p4s_id_map collision_updated.1 !! "x" ≫= (.!! ("a", "b.c")) = Some HEADER_LINKED.
Proof. split_and!; vm_compute; reflexivity. Qed.

(** Two objects of one program are linked to one linker object. *)
Definition linked_twice : Table Z * TableRetCode := insert_p4objects_link one_link "router" 4 7 HEADER_LINKED.

Theorem same_program_twice : linked_twice.2 = SUCCESS ∧
  linked linked_twice.1 "router" 3 = Some (7%Z, HEADER_TYPE_DEF_MATCH) ∧
  linked linked_twice.1 "router" 4 = Some (7%Z, HEADER_LINKED).
Proof. split_and!; vm_compute; reflexivity. Qed.
End examples.

(** ** New identifiers *)

(** [get_new_header_id] of [HeaderUIDTable]: the first number that is not in the set. *)
Fixpoint first_free (fuel : nat) (ids : gset Z) (i : Z) : option Z :=
  match fuel with
  | O => None
  | S fuel' => if decide (i ∈ ids) then first_free fuel' ids (i + 1) else Some i
  end.

Lemma first_free_spec fuel ids : ∀ i : Z, (size (filter (λ k, (i ≤ k)%Z) ids) < fuel)%nat →
  ∃ n, first_free fuel ids i = Some n ∧ i ≤ n ∧ n ∉ ids ∧ ∀ k, i ≤ k < n → k ∈ ids.
Proof.
  induction fuel as [|fuel IH]; intros i Hf; [lia|]. cbn. case_decide as Hi; cycle 1.
  { exists i. split_and!; [done|lia|done|lia]. }
  destruct (IH (i + 1)) as (n & -> & Hn & Hni & Hk).
  { assert (filter (λ k, i + 1 ≤ k) ids ⊂ filter (λ k, i ≤ k) ids) as Hs%subset_size; [|lia].
    split; [set_solver by lia|]. intros Hs. assert (i ∈ filter (λ k, i + 1 ≤ k) ids) as [? _]%elem_of_filter; [|lia].
    by apply Hs, elem_of_filter. }
  exists n. split_and!; [done|lia|done|]. intros k Hk'. destruct (decide (k = i)) as [->|]; [done|]. apply Hk. lia.
Qed.

Definition get_new_header_id (ids : gset Z) : option Z := first_free (S (size ids)) ids 0.

(** The search ends with the least number from zero on that is not in use. *)
Lemma new_header_id_spec (ids : gset Z) : ∃ n, get_new_header_id ids = Some n ∧
  0 ≤ n ≤ Z.of_nat (size ids) ∧ n ∉ ids ∧ ∀ k, 0 ≤ k < n → k ∈ ids.
Proof.
  destruct (first_free_spec (S (size ids)) ids 0) as (n & Hn & Hp & Hni & Hk).
  { pose proof (subseteq_size (filter (λ k, 0 ≤ k) ids) ids). set_solver by lia. }
  exists n. split_and!; [done|done| |done|done].
  assert ((list_to_set (seqZ 0 n) : gset Z) ⊆ ids) as Hs%subseteq_size.
  { intros k. rewrite elem_of_list_to_set, elem_of_seqZ. intros ?. apply Hk. lia. }
  rewrite size_list_to_set in Hs by apply NoDup_seqZ. rewrite length_seqZ in Hs. lia.
Qed.

(** [P4ObjectIdAllocator]: the set of used ids; [mark_id] tells whether the id was free. *)
Definition mark_id (used : gset Z) (id : Z) : gset Z * bool := ({[id]} ∪ used, bool_decide (id ∉ used)).

(** [mark_id_range]: it gives [false] at the first id that is used, and has no [return] for the case that none is. *)
Fixpoint mark_id_range (n : nat) (used : gset Z) (start : Z) : option (gset Z * bool) :=
  match n with
  | O => None
  | S n' => let '(used, free) := mark_id used start in if free then mark_id_range n' used (start + 1) else Some (used, false)
  end.

(** [mark_id(id_gen++)]: the id that is returned is one past the one that was marked. *)
Definition get_next_id (used : gset Z) : option (gset Z * Z) :=
  id ← first_free (S (size used)) used 0; Some ((mark_id used id).1, id + 1).

(** The ids [get_next_id] gives may be in use: after [mark_id 1] it gives 1, and then 3 without ever giving 2. *)
Theorem next_id_in_use : mark_id ∅ 1 = ({[1]}, true) ∧ get_next_id {[1]} = Some ({[0; 1]}, 1).
Proof. vm_compute. split; f_equal; f_equal; apply (bool_decide_unpack _); vm_compute; exact I. Qed.
End LinkTable.
