(* ===== verification/LinkHeaders.v ===== *)
(** * Linking of headers (src/bm_sim/linker/link_headers.cpp, include/bm/bm_linker/link_headers.h)

    [HeaderTypeUIDTable] links each header type of a program to a type of the
    linker that is named after the widths of its fields, so that types of
    different programs are linked together when their fields have the same
    widths. [HeaderUIDTable] links header instances. An unordered map that is
    iterated over is the list of its pairs in the order of the iteration. *)

From stdpp Require Import gmap strings pretty.
From S2P Require Import Prelude Data Extract Fields Headers LinkTable.
Import LinkTable.
Local Open Scope string_scope.
Local Open Scope Z_scope.

Module LinkHeaders.

Notation HeaderType := Headers.HeaderType.
Implicit Types (ht : HeaderType) (p4_name name : string).

(** ** The name of a header type *)

Definition uid_width ht (finfo : Headers.FInfo) : Z :=
  if Headers.fi_VL finfo then Headers.VL_max_header_bytes ht else Headers.bitwidth finfo.

Definition get_header_type_uid_from_field_seq ht : string :=
  foldl (λ uid_name finfo, uid_name ++ pretty (uid_width ht finfo) ++ "-")%string "" (Headers.fields_info ht).

(** [VL_expr_raw] is not copied. *)
Definition dc_header_type (id : Z) ht : HeaderType :=
  {| Headers.type_id := id; Headers.fields_info := Headers.fields_info ht; Headers.has_VL_expr := false;
     Headers.VL_offset := Headers.VL_offset ht; Headers.VL_max_header_bytes := Headers.VL_max_header_bytes ht |}.

(** ** Header types *)

Record HeaderTypeUIDTable := {
  header_types_link_table : Table string;
  linker_header_types : gmap string HeaderType;
  header_type_id : Z;
}.

Implicit Types t : HeaderTypeUIDTable.

Definition empty_types : HeaderTypeUIDTable :=
  {| header_types_link_table := empty_table; linker_header_types := ∅; header_type_id := 0 |}.

Definition init_type p4_name t (name_typeptr : string * HeaderType) : HeaderTypeUIDTable :=
  let '(type_name, header_type) := name_typeptr in
  let linker_uid_str := get_header_type_uid_from_field_seq header_type in
  let '(table, ret_code) :=
    insert_p4objects_link (header_types_link_table t) p4_name type_name linker_uid_str HEADER_TYPE_DEF_MATCH in
  match ret_code with
  | SUCCESS =>
      {| header_types_link_table := table;
         linker_header_types := <[linker_uid_str := dc_header_type (header_type_id t) header_type]> (linker_header_types t);
         header_type_id := header_type_id t + 1 |}
  | _ => {| header_types_link_table := table; linker_header_types := linker_header_types t; header_type_id := header_type_id t |}
  end.

Definition init_type_mapping p4_name (types : list (string * HeaderType)) t : HeaderTypeUIDTable * ObjectLinkStateCode :=
  (foldl (init_type p4_name) t types, HEADER_TYPE_DEF_MATCH).

Definition get_header_type_mapping t p4_name (header_type_n rp_header_type_n : string) : ObjectLinkStateCode :=
  match get_p4objects_link_state (header_types_link_table t) p4_name header_type_n rp_header_type_n with
  | (SUCCESS, Some link_state_code) => link_state_code
  | _ => HEADER_TYPE_DEF_MATCH_FAILED
  end.

(** The name is an out parameter, set only when the type is linked. *)
Definition get_linker_header_type t p4_name (header_type_name : string) : ObjectLinkStateCode * option string :=
  match get_p4object_link (header_types_link_table t) p4_name header_type_name with
  | (SUCCESS, Some out) => (link_state out, Some (value out))
  | _ => (HEADER_TYPE_DEF_MATCH_FAILED, None)
  end.

(** The copy of a type has its id; the key of the map is its name. *)
Definition get_linker_header_types_map t (map_obj : gmap string HeaderType) : gmap string HeaderType :=
  ((λ ht, dc_header_type (Headers.type_id ht) ht) <$> linker_header_types t) ∪ map_obj.

(** ** Header instances *)

Record HeaderUIDTable := {
  header_ids_link_table : Table Z;
  linker_header_ids_map : gmap string Z;
  linker_header_id_type_name_map : gmap Z string;
}.

Implicit Types u : HeaderUIDTable.

Definition empty_ids : HeaderUIDTable :=
  {| header_ids_link_table := empty_table; linker_header_ids_map := ∅; linker_header_id_type_name_map := ∅ |}.

Definition with_ids u (table : Table Z) : HeaderUIDTable :=
  {| header_ids_link_table := table; linker_header_ids_map := linker_header_ids_map u;
     linker_header_id_type_name_map := linker_header_id_type_name_map u |}.

Definition link_header_ids u p4_name (header_id rp_header_id : Z) : HeaderUIDTable * ObjectLinkStateCode :=
  let '(table, ret_code) := insert_p4objects_link (header_ids_link_table u) p4_name header_id rp_header_id HEADER_LINKED in
  (with_ids u table, match ret_code with SUCCESS => HEADER_LINKED | _ => HEADER_LINK_FAILED end).

(** Returns the table, the code and [hint_header_id_out]. The name of a type that is not linked is empty. *)
Definition link_new_header_id u t p4_name (header_name : string) (header_id : Z) (header_type_name : string)
    (hint_header_id_out : Z) : option (HeaderUIDTable * ObjectLinkStateCode * Z) :=
  let fq_name := (p4_name ++ "." ++ header_name)%string in
  let header_ids_set := get_all_linker_uids (header_ids_link_table u) in
  hint_header_id_out ← (if decide (hint_header_id_out ∈ header_ids_set)
                        then get_new_header_id header_ids_set else Some hint_header_id_out);
  let '(table, ret) := insert_p4objects_link (header_ids_link_table u) p4_name header_id hint_header_id_out HEADER_LINKED in
  match ret with
  | SUCCESS =>
      let linked_h_type_name := default "" (get_linker_header_type t p4_name header_type_name).2 in
      Some ({| header_ids_link_table := table;
               linker_header_ids_map := <[fq_name := hint_header_id_out]> (linker_header_ids_map u);
               linker_header_id_type_name_map :=
                 <[hint_header_id_out := linked_h_type_name]> (linker_header_id_type_name_map u) |},
            HEADER_LINKED, hint_header_id_out)
  | _ => Some (with_ids u table, HEADER_LINK_FAILED, hint_header_id_out)
  end.

Definition get_linked_header_ids_map u : gmap string Z := linker_header_ids_map u.

(** Undefined when an id has no type. *)
Definition get_linked_headers_name_type_map u (out : gmap string string) : option (gmap string string) :=
  if decide (map_Forall (λ _ id, is_Some (linker_header_id_type_name_map u !! id)) (linker_header_ids_map u))
  then Some (omap (linker_header_id_type_name_map u !!.) (linker_header_ids_map u) ∪ out) else None.

(** ** The name is the widths *)

Definition no_dash (s : string) : Prop := no_char dash s.

Fixpoint widths_string (ws : list Z) : string :=
  match ws with [] => "" | w :: ws => pretty w ++ String dash (widths_string ws) end%string.

Lemma append_assoc (a b c : string) : ((a ++ b) ++ c = a ++ (b ++ c))%string.
Proof. induction a as [|x a IH]; [done|exact (f_equal (String x) IH)]. Qed.

Lemma append_nil (a : string) : (a ++ "" = a)%string.
Proof. induction a as [|x a IH]; [done|exact (f_equal (String x) IH)]. Qed.

Lemma uid_widths ht : get_header_type_uid_from_field_seq ht = widths_string (uid_width ht <$> Headers.fields_info ht).
Proof.
  unfold get_header_type_uid_from_field_seq.
  assert (∀ fs s, foldl (λ uid_name finfo, uid_name ++ pretty (uid_width ht finfo) ++ "-")%string s fs
                  = (s ++ widths_string (uid_width ht <$> fs))%string) as H; [|apply (H _ "")].
  induction fs as [|f fs IH]; intros s; cbn [foldl fmap list_fmap widths_string]; [by rewrite append_nil|].
  rewrite IH, !append_assoc. done.
Qed.

Lemma pretty_N_no_dash (n : N) s : no_dash s → no_dash (pretty_N_go n s).
Proof.
  revert s. induction (N.lt_wf_0 n) as [n _ IH]. intros s Hs. destruct (decide (n = 0)%N) as [->|Hn]; [by rewrite pretty_N_go_0|].
  rewrite pretty_N_go_step by lia. apply IH; [apply N.div_lt; lia|]. split; [|done].
  unfold pretty_N_char. by repeat case_match.
Qed.

Lemma pretty_no_dash (z : Z) : 0 ≤ z → no_dash (pretty z).
Proof.
  intros Hz. destruct z as [|p|]; [|change (pretty (Z.pos p)) with (pretty_N_go (N.pos p) ""); by apply pretty_N_no_dash|lia].
  by split.
Qed.

Lemma widths_string_inj ws ws' : Forall (λ w, 0 ≤ w) ws → Forall (λ w, 0 ≤ w) ws' → widths_string ws = widths_string ws' → ws = ws'.
Proof.
  intros Hw. revert ws'. induction Hw as [|w ws Hw Hws IH]; intros ws' Hw'; destruct Hw' as [|w' ws' Hw' Hws']; cbn; [done|..].
  - by destruct (pretty w').
  - by destruct (pretty w).
  - intros [E E']%split_at_char; [|by apply pretty_no_dash..]. f_equal; [by apply (inj pretty)|by apply IH].
Qed.

(** The widths of the fields are not negative. *)
Definition widths_ok ht : Prop := Forall (λ f, 0 ≤ uid_width ht f) (Headers.fields_info ht).

(** Header types of two programs have the same name for the linker exactly when they have as many fields, of the
    same widths, where the width of a variable-length field is the largest number of bytes of the header. *)
Theorem uid_iff_widths ht ht' : widths_ok ht → widths_ok ht' →
  get_header_type_uid_from_field_seq ht = get_header_type_uid_from_field_seq ht' ↔
  uid_width ht <$> Headers.fields_info ht = uid_width ht' <$> Headers.fields_info ht'.
Proof.
  intros Hw Hw'. rewrite !uid_widths. split; [|by intros ->]. apply widths_string_inj; by apply Forall_fmap.
Qed.

(** ** Linking the types of a program *)

Notation uid := get_header_type_uid_from_field_seq.

(** Every linker type is named after its own fields, and every linked type has one. *)
Record types_ok t : Prop := {
  types_consistent : consistent (header_types_link_table t);
  types_named : ∀ n ht, linker_header_types t !! n = Some ht → uid ht = n;
  types_exist : ∀ l, l ∈ get_all_linker_uids (header_types_link_table t) → is_Some (linker_header_types t !! l);
}.

Definition type_link t p4_name name : option (string * ObjectLinkStateCode) := linked (header_types_link_table t) p4_name name.

Lemma empty_types_ok : types_ok empty_types.
Proof.
  split; [apply empty_consistent|by intros n ht; cbn; rewrite lookup_empty|]. intros l. unfold get_all_linker_uids. cbn. set_solver.
Qed.

Lemma fqn_inj_r p4_name (n n' : string) : fqn_of p4_name n = fqn_of p4_name n' → n = n'.
Proof. unfold fqn_of. intros E%(inj (String.append p4_name)). by injection E. Qed.

Lemma init_type_spec p4_name t n ht : types_ok t →
  types_ok (init_type p4_name t (n, ht)) ∧
  ∀ p v, type_link (init_type p4_name t (n, ht)) p v =
    type_link t p v ∪ (if decide (fqn_of p v = fqn_of p4_name n) then Some (uid ht, HEADER_TYPE_DEF_MATCH) else None).
Proof.
  intros Ht. unfold init_type, type_link.
  pose proof (insert_spec (header_types_link_table t) p4_name n (uid ht) HEADER_TYPE_DEF_MATCH (types_consistent t Ht)) as Hi.
  destruct (linked (header_types_link_table t) p4_name n) as [x|] eqn:El; cbn beta zeta iota.
  - rewrite Hi. split; [by destruct t|]. intros p v. cbn [header_types_link_table]. case_decide as E; [|by destruct (linked (header_types_link_table t) p v)].
    unfold linked in *. by rewrite E, El.
  - destruct Hi as (t' & -> & Hc & Hl & Hu). split; [split; cbn|].
    + done.
    + intros m ht'. rewrite lookup_insert_Some. intros [[<- <-]|[_ Hm]]; [done|]. by apply (types_named t).
    + intros l. rewrite Hu, elem_of_union, elem_of_singleton. intros Hin. destruct (decide (l = uid ht)) as [->|Hne].
      { by rewrite lookup_insert_eq. }
      rewrite lookup_insert_ne by done. apply (types_exist t Ht). by destruct Hin.
    + intros p v. cbn. rewrite Hl. case_decide as E; [|by destruct (linked (header_types_link_table t) p v)].
      unfold linked in El |- *. rewrite E. by destruct (_ !! _).
Qed.

Lemma init_types_spec p4_name types t : types_ok t →
  types_ok (foldl (init_type p4_name) t types) ∧
  ∀ p v, type_link (foldl (init_type p4_name) t types) p v = type_link t p v ∪
    ((λ x, (uid x.2, HEADER_TYPE_DEF_MATCH)) <$> head (filter (λ x, fqn_of p v = fqn_of p4_name x.1) types)).
Proof.
  revert t. induction types as [|[n ht] types IH]; intros t Ht.
  { split; [done|]. intros p v. cbn. by destruct (type_link t p v). }
  destruct (init_type_spec p4_name t n ht Ht) as [Ht' Hl]. cbn [foldl]. destruct (IH _ Ht') as [Ht'' Hl']. split; [done|].
  intros p v. rewrite Hl', Hl, filter_cons. cbn [fst]. case_decide as E; cbn; destruct (type_link t p v); cbn;
    by destruct (head (filter _ types)).
Qed.

(** Linking the types of a program links each of them to the linker type of its uid, and to no other, keeps what the
    other types are linked to, and keeps every linker type named after its own fields. *)
Theorem init_type_mapping_links p4_name types t t' code :
  types_ok t → NoDup types.*1 → Forall (λ n, type_link t p4_name n = None) types.*1 →
  init_type_mapping p4_name types t = (t', code) →
  code = HEADER_TYPE_DEF_MATCH ∧ types_ok t' ∧
  (∀ n ht, (n, ht) ∈ types →
     (∀ rp, get_header_type_mapping t' p4_name n rp =
       if decide (rp = uid ht) then HEADER_TYPE_DEF_MATCH else HEADER_TYPE_DEF_MATCH_FAILED) ∧
     get_linker_header_type t' p4_name n = (HEADER_TYPE_DEF_MATCH, Some (uid ht)) ∧
     ∃ ht', get_linker_header_types_map t' ∅ !! uid ht = Some ht' ∧ uid ht' = uid ht) ∧
  (∀ p v, fqn_of p v ∉ fqn_of p4_name <$> types.*1 → type_link t' p v = type_link t p v).
Proof.
  intros Ht Hnd Hn [= <- <-]. destruct (init_types_spec p4_name types t Ht) as [Ht' Hl]. split; [done|]. split; [done|].
  set (t' := foldl _ t types) in *. split.
  - intros n ht Hin.
    assert (type_link t' p4_name n = Some (uid ht, HEADER_TYPE_DEF_MATCH)) as El.
    { rewrite Hl. rewrite Forall_forall in Hn. rewrite Hn by (apply list_elem_of_fmap; by exists (n, ht)).
      rewrite (list_filter_iff _ (λ x, n = x.1)) by (intros [m h]; cbn; split; [apply fqn_inj_r|by intros ->]).
      clear -Hnd Hin. induction types as [|[m h] types IH]; [by apply elem_of_nil in Hin|].
      apply NoDup_cons in Hnd as [Hm Hnd]. rewrite filter_cons. cbn [fst] in *. case_decide as E; cbn.
      - subst m. apply elem_of_cons in Hin as [[= ->]|Hin]; [done|]. destruct Hm. apply list_elem_of_fmap. by exists (n, ht).
      - apply IH; [done|]. apply elem_of_cons in Hin as [[= -> _]|Hin]; done. }
    unfold type_link, linked in El. split; [|split].
    + intros rp. unfold get_header_type_mapping, get_p4objects_link_state. destruct (_ !! _) as [e|]; [|done].
      injection El as El1 El2. case_bool_decide as E; case_decide; congruence.
    + unfold get_linker_header_type, get_p4object_link. destruct (_ !! _) as [e|]; [|done]. injection El as El1 El2. congruence.
    + destruct (_ !! _) as [e|] eqn:Ee; [|done]. injection El as El1 El2.
      destruct (types_exist t' Ht' (uid ht)) as [ht' Eh].
      { destruct (forward _ (types_consistent t' Ht') _ _ Ee) as (q & v & s & _ & Es & _). unfold get_all_linker_uids.
        apply elem_of_dom. by rewrite <-El1, Es. }
      exists (dc_header_type (Headers.type_id ht') ht'). split; [|exact (types_named t' Ht' _ _ Eh)].
      unfold get_linker_header_types_map. by rewrite (right_id_L ∅ (∪)), lookup_fmap, Eh.
  - intros p v Hni. rewrite Hl.
    destruct (filter _ types) as [|x l] eqn:Ef; cbn; [by destruct (type_link t p v)|].
    assert (x ∈ filter (λ x, fqn_of p v = fqn_of p4_name x.1) types) as [E Hx]%list_elem_of_filter by (rewrite Ef; apply list_elem_of_here).
    destruct Hni. rewrite E. apply list_elem_of_fmap. exists x.1. split; [done|]. apply list_elem_of_fmap. by exists x.
Qed.

(** ** Linking header instances *)

Definition header_link u p4_name (header_id : Z) : option (Z * ObjectLinkStateCode) :=
  linked (header_ids_link_table u) p4_name header_id.

(** The linker headers have a type each and different ids. *)
Record ids_ok u : Prop := {
  ids_consistent : consistent (header_ids_link_table u);
  ids_typed : ∀ n id, linker_header_ids_map u !! n = Some id →
    is_Some (linker_header_id_type_name_map u !! id) ∧ id ∈ get_all_linker_uids (header_ids_link_table u);
  ids_different : ∀ n n' id, linker_header_ids_map u !! n = Some id → linker_header_ids_map u !! n' = Some id → n = n';
}.

Lemma empty_ids_ok : ids_ok empty_ids.
Proof. split; [apply empty_consistent|..]; intros *; cbn; by rewrite lookup_empty. Qed.

Lemma link_header_ids_ok u p4_name header_id rp_header_id : ids_ok u → ids_ok (link_header_ids u p4_name header_id rp_header_id).1.
Proof.
  intros Hu. unfold link_header_ids.
  pose proof (insert_spec _ p4_name header_id rp_header_id HEADER_LINKED (ids_consistent u Hu)) as Hi.
  destruct (linked _ _ _); [rewrite Hi; by destruct u|]. destruct Hi as (t' & -> & Hc & _ & Huids).
  split; cbn; [done| |apply (ids_different u Hu)].
  intros n id Hn. destruct (ids_typed u Hu n id Hn) as [Ht Hin]. split; [done|]. rewrite Huids. set_solver.
Qed.

Lemma link_new_header_id_exists u t p4_name header_name header_id header_type_name hint : ids_ok u →
  let ids := get_all_linker_uids (header_ids_link_table u) in
  ∃ u' code id, link_new_header_id u t p4_name header_name header_id header_type_name hint = Some (u', code, id) ∧
  ids_ok u' ∧ id ∉ ids ∧ (hint ∉ ids → id = hint) ∧ (hint ∈ ids → 0 ≤ id ∧ ∀ j, 0 ≤ j < id → j ∈ ids) ∧
  match header_link u p4_name header_id with
  | Some _ => code = HEADER_LINK_FAILED ∧ u' = u
  | None => code = HEADER_LINKED ∧
      (∀ p h, header_link u' p h =
         if decide (fqn_of p h = fqn_of p4_name header_id) then Some (id, HEADER_LINKED) else header_link u p h) ∧
      get_linked_header_ids_map u' = <[fqn_of p4_name header_name := id]> (get_linked_header_ids_map u) ∧
      linker_header_id_type_name_map u' !! id = Some (default "" (get_linker_header_type t p4_name header_type_name).2)
  end.
Proof.
  intros Hu ids.
  assert (∃ id, (if decide (hint ∈ ids) then get_new_header_id ids else Some hint) = Some id ∧ id ∉ ids ∧
    (hint ∉ ids → id = hint) ∧ (hint ∈ ids → 0 ≤ id ∧ ∀ j, 0 ≤ j < id → j ∈ ids)) as (id & Eid & Hni & Hh & Hh').
  { destruct (new_header_id_spec ids) as (n & En & [Hp _] & Hn & Hk). case_decide; [exists n|exists hint]; [|done]. split_and!; done. }
  unfold link_new_header_id. fold ids. rewrite Eid. cbn [mbind option_bind].
  pose proof (insert_spec _ p4_name header_id id HEADER_LINKED (ids_consistent u Hu)) as Hi. unfold header_link.
  destruct (linked (header_ids_link_table u) p4_name header_id) as [x|].
  { rewrite Hi. exists u, HEADER_LINK_FAILED, id. split; [by destruct u|]. done. }
  destruct Hi as (t' & -> & Hc & Hl & Huids). eexists _, _, _. split; [done|]. cbn.
  split; [|split_and!; try done; by rewrite lookup_insert_eq].
  split; cbn; [done|..].
  - intros n i. rewrite lookup_insert_Some, Huids. intros [[_ <-]|[_ Hn]].
    + rewrite lookup_insert_eq. split; [done|set_solver].
    + destruct (ids_typed u Hu n i Hn) as [Ht Hin]. split; [|set_solver].
      rewrite lookup_insert_ne; [done|]. intros ->. done.
  - intros n n' i. rewrite !lookup_insert_Some. intros [[<- <-]|[Hne Hn]] [[<- E]|[Hne' Hn']].
    + done.
    + by destruct (ids_typed u Hu n' id Hn').
    + subst i. by destruct (ids_typed u Hu n id Hn).
    + by apply (ids_different u Hu n n' i).
Qed.

(** C38: a header is linked to an id that no other object has: the hint if it is free, and otherwise the least free id. A header
    that is linked already stays linked as it was; the call fails, but the id it gives back is not the one of the header. *)
Theorem link_new_header_id_spec u t p4_name header_name header_id header_type_name hint : ids_ok u →
  let ids := get_all_linker_uids (header_ids_link_table u) in
  ∃ u' code id, link_new_header_id u t p4_name header_name header_id header_type_name hint = Some (u', code, id) ∧
  ids_ok u' ∧ id ∉ ids ∧ (hint ∉ ids → id = hint) ∧ (hint ∈ ids → 0 ≤ id ∧ ∀ j, 0 ≤ j < id → j ∈ ids) ∧
  match header_link u p4_name header_id with
  | Some _ => code = HEADER_LINK_FAILED ∧ u' = u
  | None => code = HEADER_LINKED ∧
      (∀ p h, header_link u' p h =
         if decide (fqn_of p h = fqn_of p4_name header_id) then Some (id, HEADER_LINKED) else header_link u p h) ∧
      get_linked_header_ids_map u' = <[fqn_of p4_name header_name := id]> (get_linked_header_ids_map u) ∧
      linker_header_id_type_name_map u' !! id = Some (default "" (get_linker_header_type t p4_name header_type_name).2)
  end.
Proof. apply link_new_header_id_exists. Qed.

(** What a program does to the headers: one of the two ways of linking, any number of times. *)
Inductive link_step t : HeaderUIDTable → HeaderUIDTable → Prop :=
  | link_existing u p4_name header_id rp_header_id : link_step t u (link_header_ids u p4_name header_id rp_header_id).1
  | link_new u p4_name header_name header_id header_type_name hint u' code id :
      link_new_header_id u t p4_name header_name header_id header_type_name hint = Some (u', code, id) → link_step t u u'.

Lemma links_ok t u u' : ids_ok u → rtc (link_step t) u u' → ids_ok u'.
Proof.
  intros Hu Hs. induction Hs as [|u u1 u2 Hs _ IH]; [done|]. apply IH. destruct Hs as [u p h l|u p n h ty hint u1 code id E].
  - by apply link_header_ids_ok.
  - destruct (link_new_header_id_exists u t p n h ty hint Hu) as (u2' & code' & id' & E' & Hok & _). congruence.
Qed.

(** C37: whatever headers are linked, in any order, each linker header has a type, so that the map of the types of the headers
    is defined and has the names of the linker headers, and no two linker headers have one id. *)
Theorem linked_headers_typed t u : rtc (link_step t) empty_ids u →
  (∃ out, get_linked_headers_name_type_map u ∅ = Some out ∧ dom out = dom (get_linked_header_ids_map u)) ∧
  ∀ n n' id, get_linked_header_ids_map u !! n = Some id → get_linked_header_ids_map u !! n' = Some id → n = n'.
Proof.
  intros Hs%links_ok; [|apply empty_ids_ok]. split; [|apply (ids_different u Hs)].
  unfold get_linked_headers_name_type_map, get_linked_header_ids_map. rewrite decide_True; cycle 1.
  { intros n id Hn. by apply (ids_typed u Hs n id). }
  eexists. split; [done|]. rewrite (right_id_L ∅ (∪)). apply set_eq. intros n. rewrite !elem_of_dom, lookup_omap.
  split; intros [x Hx].
  - destruct (linker_header_ids_map u !! n); [done|done].
  - rewrite Hx. cbn. by apply (ids_typed u Hs n x).
Qed.
End LinkHeaders.

Module LinkHeadersExamples.
Import LinkHeaders.

Definition field (w : Z) (vl : bool) : Headers.FInfo :=
  {| Headers.name := "f"; Headers.bitwidth := w; Headers.fi_signed := false; Headers.fi_saturating := false;
     Headers.fi_VL := vl; Headers.fi_hidden := false |}.

Definition type_of (id : Z) (fs : list Headers.FInfo) (vl_max : Z) : HeaderType :=
  {| Headers.type_id := id; Headers.fields_info := fs ++ Headers.hidden_fields; Headers.has_VL_expr := false;
     Headers.VL_offset := if bool_decide (vl_max = 0) then -1 else Z.of_nat (length fs) - 1; Headers.VL_max_header_bytes := vl_max |}.

Definition ethernet : HeaderType := type_of 4 [field 48 false; field 48 false; field 16 false] 0.
Definition mac : HeaderType := type_of 9 [field 48 false; field 48 false; field 16 false] 0.
Definition fixed_options : HeaderType := type_of 5 [field 8 false; field 40 false] 0.
Definition options : HeaderType := type_of 6 [field 8 false; field 0 true] 40.

Lemma uid_iff_widths_witness : widths_ok ethernet ∧ widths_ok mac ∧ uid ethernet = "48-48-16-1-"%string ∧ uid ethernet = uid mac.
Proof.
  assert (widths_ok ethernet ∧ widths_ok mac) as [H1 H2].
  { split; apply (bool_decide_unpack _); vm_compute; exact I. }
  split; [exact H1|]. split; [exact H2|]. split; [vm_compute; reflexivity|]. apply (uid_iff_widths ethernet mac H1 H2). reflexivity.
Defined.

(** A header with a variable-length field and a header of fixed width have one name, though one of them has eight times the
    bits of the other. *)
Theorem vl_type_collision : uid options = uid fixed_options ∧
  Headers.is_VL_type options = true ∧ Headers.is_VL_type fixed_options = false.
Proof. by vm_compute. Qed.

Definition router_types : list (string * HeaderType) := [("ethernet_t"%string, ethernet); ("options_t"%string, options)].

Lemma init_type_mapping_links_witness :
  get_header_type_mapping (init_type_mapping "router" router_types empty_types).1 "router" "ethernet_t" "48-48-16-1-" = HEADER_TYPE_DEF_MATCH.
Proof.
  destruct (init_type_mapping "router" router_types empty_types) as [t' code] eqn:E.
  destruct (init_type_mapping_links "router" router_types empty_types t' code empty_types_ok) as (_ & _ & Hl & _).
  - apply (bool_decide_unpack _). vm_compute. exact I.
  - constructor; [vm_compute; reflexivity|]. constructor; [vm_compute; reflexivity|constructor].
  - exact E.
  - cbn. destruct (Hl "ethernet_t"%string ethernet) as [Hm _]; [left|]. rewrite Hm. vm_compute. reflexivity.
Defined.

Definition linked_types : HeaderTypeUIDTable := (init_type_mapping "router" router_types empty_types).1.

Lemma link_new_header_id_witness : ∃ u', link_new_header_id empty_ids linked_types "router" "eth" 3 "ethernet_t" 3 = Some (u', HEADER_LINKED, 3) ∧
  header_link u' "router" 3 = Some (3, HEADER_LINKED).
Proof.
  destruct (link_new_header_id_spec empty_ids linked_types "router" "eth" 3 "ethernet_t" 3 empty_ids_ok)
    as (u' & code & id & E & _ & _ & Hid & _ & Hl).
  exists u'. assert (id = 3) as -> by (apply Hid; vm_compute; congruence).
  change (header_link empty_ids "router" 3) with (@None (Z * ObjectLinkStateCode)) in Hl. destruct Hl as (-> & Hl & _).
  split; [exact E|]. rewrite Hl. vm_compute. reflexivity.
Defined.

Definition one_header : HeaderUIDTable := default empty_ids (fst <$> (fst <$> link_new_header_id empty_ids linked_types "router" "eth" 3 "ethernet_t" 3)).

(** Header 3 of the router is header 3 of the linker. Linking it again fails and gives back id 0, which no header has. *)
Theorem relinked_header_id :
  snd <$> link_new_header_id one_header linked_types "router" "eth" 3 "ethernet_t" 3 = Some 0 ∧
  header_link one_header "router" 3 = Some (3, HEADER_LINKED) ∧ get_linked_header_ids_map one_header !! "router.eth"%string = Some 3.
Proof. split_and!; vm_compute; reflexivity. Qed.

Lemma linked_headers_typed_witness : ∃ out, get_linked_headers_name_type_map one_header ∅ = Some out ∧ "router.eth"%string ∈ dom out.
Proof.
  assert (rtc (link_step linked_types) empty_ids one_header) as Hs.
  { destruct (link_new_header_id_exists empty_ids linked_types "router" "eth" 3 "ethernet_t" 3 empty_ids_ok) as (u' & code & id & E & _).
    apply rtc_once. unfold one_header. rewrite E. exact (link_new _ _ _ _ _ _ _ _ _ _ E). }
  destruct (linked_headers_typed linked_types one_header Hs) as [(out & E & Hd) _]. exists out. split; [exact E|]. rewrite Hd.
  apply elem_of_dom. exists 3. vm_compute. reflexivity.
Defined.
End LinkHeadersExamples.
