(* ===== verification/ParserOrder.v ===== *)
(** * The order of the states of a parser (src/bm_sim/linker/p4objects_linker_ext.cpp)

    [P4ObjectsLinkerExt] prepares a program for the linker: it indexes the
    headers by their ids and orders the parse states topologically, by the
    algorithm of Kahn from the initial state. A pointer to a state is its index
    in [parse_states]; the null pointer is [None], and following it is
    undefined. *)

From stdpp Require Import gmap strings.
From S2P Require Import Prelude Data Extract Fields Headers Parser.

Module ParserOrder.

Record NamedState := { state_name : string; state_id : Z; state : Parser.ParseState }.

Implicit Types (states : list NamedState) (name : string).

(** ** Headers *)

Section headers.
Local Notation HeaderType := Headers.HeaderType.

Record HeaderMaps := {
  max_seen_header_id : Z;
  header_id_name_map : gmap Z string;
  header_id_type_map : gmap Z (string * HeaderType);
}.

Implicit Types m : HeaderMaps.

Definition empty_maps : HeaderMaps := {| max_seen_header_id := 0; header_id_name_map := ∅; header_id_type_map := ∅ |}.

(** A header type is a pair of its name and its fields. *)
Definition add_header_id (name_to_header_type : gmap string (string * HeaderType)) m (name_id : string * Z) : option HeaderMaps :=
  let '(name, id) := name_id in
  name_type ← name_to_header_type !! name;
  Some {| max_seen_header_id := if bool_decide (max_seen_header_id m < id) then id else max_seen_header_id m;
          header_id_name_map := <[id := name]> (header_id_name_map m);
          header_id_type_map := <[id := name_type]> (header_id_type_map m) |}.

Definition init_header_id_to_header_type_map (name_to_id : list (string * Z))
    (name_to_header_type : gmap string (string * HeaderType)) : option HeaderMaps :=
  foldl (λ r x, m ← r; add_header_id name_to_header_type m x) (Some empty_maps) name_to_id.

Definition get_header_type_of_header_id m (id : Z) : option (string * HeaderType) := header_id_type_map m !! id.
Definition get_header_name m (id : Z) : option string := header_id_name_map m !! id.
Definition get_header_ids m : gset Z := dom (header_id_type_map m).
End headers.

(** ** The graph of the states *)

Definition next_name states (next_state : option nat) : option string := i ← next_state; state_name <$> states !! i.

(** Value sets are skipped. *)
Fixpoint neighbour_names states (cases : list Parser.ParseSwitchCase) : option (list string) :=
  match cases with
  | [] => Some []
  | Parser.SwitchCase _ n :: cases | Parser.SwitchCaseWithMask _ _ n :: cases =>
      s_name ← next_name states n; l ← neighbour_names states cases; Some (s_name :: l)
  | Parser.SwitchCaseVSet _ _ _ :: cases => neighbour_names states cases
  end.

Record Graph := {
  name_degree_state_map : gmap string Z;
  name_parse_state_map : gmap string nat;
  adjacency_map : gmap string (list string);
}.

Definition empty_graph : Graph := {| name_degree_state_map := ∅; name_parse_state_map := ∅; adjacency_map := ∅ |}.

Implicit Types g : Graph.

(** [operator[]] of a map of [unsigned]. *)
Definition degree (d : gmap string Z) name : Z := default 0 (d !! name).
Definition add_degree (d : gmap string Z) name (k : Z) : gmap string Z := <[name := u32 (degree d name + k)]> d.

(** [insert] of a map keeps what is there. *)
Definition insert_new {A} (m : gmap string A) name (x : A) : gmap string A :=
  match m !! name with Some _ => m | None => <[name := x]> m end.

Definition add_state states g (i : nat) (s : NamedState) : option Graph :=
  neighbours ← neighbour_names states (Parser.parser_switch (state s));
  Some {| name_degree_state_map := foldl (λ d s_name, add_degree d s_name 1) (name_degree_state_map g) neighbours;
          name_parse_state_map := insert_new (name_parse_state_map g) (state_name s) i;
          adjacency_map := insert_new (adjacency_map g) (state_name s) neighbours |}.

Fixpoint add_states states (l : list NamedState) (i : nat) g : option Graph :=
  match l with
  | [] => Some g
  | s :: l => g ← add_state states g i s; add_states states l (S i) g
  end.

(** ** The order *)

Definition visit (dq : gmap string Z * list string) (s : string) : gmap string Z * list string :=
  let d := add_degree dq.1 s (-1) in
  (d, if degree d s =? 0 then dq.2 ++ [s] else dq.2).

Fixpoint order_loop (fuel : nat) (adjacency : gmap string (list string)) (d : gmap string Z)
    (state_queue topological_order : list string) : option (list string) :=
  match state_queue with
  | [] => Some topological_order
  | current_state :: state_queue =>
      match fuel with
      | O => None
      | S fuel' =>
          let '(d, state_queue) := foldl visit (d, state_queue) (default [] (adjacency !! current_state)) in
          order_loop fuel' adjacency d state_queue (topological_order ++ [current_state])
      end
  end.

(** The pointer of a name that is not there would be null. *)
Definition bfs_topological_ordering_of_parser_states states (init_state : nat) : option (list (option nat)) :=
  g ← add_states states states 0 empty_graph;
  init ← state_name <$> states !! init_state;
  o ← order_loop (S (length states)) (adjacency_map g) (name_degree_state_map g) [init] [];
  Some (map (λ s, name_parse_state_map g !! s) o).

(** ** The algorithm of Kahn *)

Definition occ (l : list string) name : Z := Z.of_nat (length (filter (name =.) l)).

Lemma occ_cons x l name : occ (x :: l) name = (if decide (name = x) then 1 else 0) + occ l name.
Proof. unfold occ. rewrite filter_cons. case_decide; cbn [length]; lia. Qed.

Lemma occ_app l l' name : occ (l ++ l') name = occ l name + occ l' name.
Proof. unfold occ. rewrite filter_app, length_app. lia. Qed.

Lemma occ_nonneg l name : 0 ≤ occ l name.
Proof. unfold occ. lia. Qed.

Lemma occ_pos l name : 0 < occ l name ↔ name ∈ l.
Proof.
  induction l as [|x l IH]; [split; [done|by intros ?%elem_of_nil]|]. rewrite occ_cons, elem_of_cons, <-IH.
  pose proof (occ_nonneg l name). case_decide; naive_solver lia.
Qed.

Lemma degree_add d s k name : degree (add_degree d s k) name = if decide (name = s) then u32 (degree d s + k) else degree d name.
Proof. unfold degree, add_degree. case_decide as E; [subst; by rewrite lookup_insert_eq|]. by rewrite lookup_insert_ne. Qed.

Definition degrees_ok (d : gmap string Z) : Prop := ∀ name, 0 ≤ degree d name < 2 ^ 32.

(** Visiting the neighbours of a state takes them off the degrees, and queues those that have no other predecessor left. *)
Lemma visit_all ns : ∀ d q, degrees_ok d → (∀ name, occ ns name ≤ degree d name) →
  ∃ new, (foldl visit (d, q) ns).2 = q ++ new ∧ NoDup new ∧
  (∀ name, name ∈ new ↔ name ∈ ns ∧ degree d name = occ ns name) ∧
  ∀ name, degree (foldl visit (d, q) ns).1 name = degree d name - occ ns name.
Proof.
  induction ns as [|x ns IH]; intros d q Hd Hle.
  { exists []. cbn. rewrite app_nil_r. split_and!; [done|constructor|set_solver|]. intros name. unfold occ. cbn. lia. }
  assert (degree (add_degree d x (-1)) x = degree d x - 1) as Ex.
  { rewrite degree_add, decide_True by done. specialize (Hle x). rewrite occ_cons, decide_True in Hle by done.
    pose proof (occ_nonneg ns x). pose proof (Hd x). apply wrap_small. lia. }
  assert (∀ name, degree (add_degree d x (-1)) name = degree d name - if decide (name = x) then 1 else 0) as Ed.
  { intros name. case_decide as E; [by subst|]. rewrite degree_add, decide_False by done. lia. }
  set (q' := if degree (add_degree d x (-1)) x =? 0 then q ++ [x] else q).
  assert (foldl visit (d, q) (x :: ns) = foldl visit (add_degree d x (-1), q') ns) as -> by done.
  destruct (IH (add_degree d x (-1)) q') as (new & Eq & Hnd & Hin & Hdeg).
  { intros name. rewrite Ed. specialize (Hd name). specialize (Hle name). rewrite occ_cons in Hle.
    pose proof (occ_nonneg ns name). case_decide; lia. }
  { intros name. rewrite Ed. specialize (Hle name). rewrite occ_cons in Hle. case_decide; lia. }
  subst q'. exists ((if degree (add_degree d x (-1)) x =? 0 then [x] else []) ++ new). split_and!.
  - rewrite Eq. destruct (_ =? 0); [by rewrite <-app_assoc|done].
  - destruct (Z.eqb_spec (degree (add_degree d x (-1)) x) 0) as [E|E]; cbn; [|done]. apply NoDup_cons. split; [|done].
    rewrite Hin, <-occ_pos. pose proof (occ_nonneg ns x). lia.
  - intros name. rewrite Ex, elem_of_app, Hin, Ed, elem_of_cons, occ_cons. pose proof (occ_pos ns name).
    pose proof (occ_nonneg ns name). specialize (Hle name). rewrite occ_cons in Hle.
    destruct (Z.eqb_spec (degree d x - 1) 0) as [E|E]; rewrite ?list_elem_of_singleton, ?elem_of_nil; case_decide; subst; naive_solver lia.
  - intros name. rewrite Hdeg, Ed, occ_cons. case_decide; lia.
Qed.

Section kahn.
Context (names : list string) (adj : gmap string (list string)) (init : string).

Definition targets u : list string := default [] (adj !! u).

Fixpoint indegree (us : list string) v : Z :=
  match us with [] => 0 | u :: us => occ (targets u) v + indegree us v end.

Definition rest (o : list string) : list string := filter (.∉ o) names.

Record kahn_graph : Prop := {
  k_names : NoDup names;
  k_targets : ∀ u v, u ∈ names → v ∈ targets u → v ∈ names;
  k_init : init ∈ names;
  k_first : indegree names init = 0;
  k_bound : ∀ v, indegree names v < 2 ^ 32;
}.

(** What holds of the queue [q], the degrees [d] and the order [o] so far. *)
Record kahn_inv (d : gmap string Z) (q o : list string) : Prop := {
  inv_nodup : NoDup (o ++ q);
  inv_names : o ++ q ⊆ names;
  inv_degree : ∀ v, degree d v = indegree (rest o) v;
  inv_found : ∀ v, v ∈ o ++ q ↔ v = init ∨ (0 < indegree names v ∧ degree d v = 0);
  inv_before : ∀ o1 v o2, o = o1 ++ v :: o2 → v ≠ init → ∀ u, u ∈ names → v ∈ targets u → u ∈ o1;
  inv_head : head (o ++ q) = Some init;
}.

Lemma indegree_nonneg us v : 0 ≤ indegree us v.
Proof. induction us as [|u us IH]; cbn [indegree]; [lia|]. pose proof (occ_nonneg (targets u) v). lia. Qed.

Lemma indegree_zero us v : indegree us v = 0 ↔ ∀ u, u ∈ us → v ∉ targets u.
Proof.
  induction us as [|u us IH]; cbn [indegree]; [split; [by intros _ u ?%elem_of_nil|done]|].
  pose proof (occ_nonneg (targets u) v). pose proof (indegree_nonneg us v). split.
  - intros E u' [->|Hin]%elem_of_cons; [intros ?%occ_pos; lia|]. apply IH; [lia|done].
  - intros Hn. assert (indegree us v = 0) as ->. { apply IH. intros u' Hu'. apply Hn. by right. }
    destruct (decide (0 < occ (targets u) v)) as [Hp%occ_pos|]; [|lia]. by destruct (Hn u); [left|].
Qed.

Lemma rest_other l o c v : c ∉ l → indegree (filter (.∉ o ++ [c]) l) v = indegree (filter (.∉ o) l) v.
Proof.
  induction l as [|x l IH]; [done|]. intros [Hx Hl]%not_elem_of_cons. specialize (IH Hl). rewrite !filter_cons.
  assert (x ∉ o ++ [c] ↔ x ∉ o) as Hi by (rewrite elem_of_app, list_elem_of_singleton; naive_solver).
  rewrite (decide_ext _ _ _ _ Hi). case_decide; cbn [indegree]; lia.
Qed.

Lemma rest_app o c v : NoDup names → c ∈ names → c ∉ o → indegree (rest o) v = occ (targets c) v + indegree (rest (o ++ [c])) v.
Proof.
  intros Hnd Hc Ho. unfold rest. induction names as [|x l IH]; [by apply elem_of_nil in Hc|]. apply NoDup_cons in Hnd as [Hx Hnd].
  rewrite !filter_cons. destruct (decide (x = c)) as [->|Hne].
  - rewrite decide_True by done. rewrite decide_False by (rewrite elem_of_app, list_elem_of_singleton; naive_solver).
    cbn [indegree]. by rewrite rest_other.
  - assert (x ∉ o ++ [c] ↔ x ∉ o) as Hi by (rewrite elem_of_app, list_elem_of_singleton; naive_solver).
    rewrite (decide_ext _ _ _ _ Hi). apply elem_of_cons in Hc as [->|Hc]; [done|]. specialize (IH Hnd Hc).
    case_decide; cbn [indegree]; lia.
Qed.

Lemma indegree_rest o v : 0 ≤ indegree (rest o) v ≤ indegree names v.
Proof.
  split; [apply indegree_nonneg|]. unfold rest. induction names as [|x l IH]; [done|]. rewrite filter_cons.
  pose proof (occ_nonneg (targets x) v). case_decide; cbn [indegree]; lia.
Qed.

Lemma kahn_step d c q o : kahn_graph → kahn_inv d (c :: q) o →
  let '(d', q') := foldl visit (d, q) (targets c) in kahn_inv d' q' (o ++ [c]).
Proof.
  intros Hg Hi. destruct (foldl visit (d, q) (targets c)) as [d' q'] eqn:Ev.
  pose proof (inv_nodup _ _ _ Hi) as Hnd. apply NoDup_app in Hnd as (Hno & Hoq & Hnq). apply NoDup_cons in Hnq as [Hcq Hnq].
  assert (c ∉ o) as Hco by (intros Hc; apply (Hoq c Hc); left).
  assert (c ∈ names) as Hcn by (apply (inv_names _ _ _ Hi); set_solver).
  assert (∀ v, degree d v = occ (targets c) v + indegree (rest (o ++ [c])) v) as Hd.
  { intros v. rewrite (inv_degree _ _ _ Hi). by apply rest_app; [apply Hg|..]. }
  destruct (visit_all (targets c) d q) as (new & Eq & Hnn & Hnew & Hdeg).
  { intros v. rewrite (inv_degree _ _ _ Hi). pose proof (indegree_rest o v). pose proof (k_bound Hg v). lia. }
  { intros v. rewrite Hd. pose proof (indegree_nonneg (rest (o ++ [c])) v). lia. }
  rewrite Ev in Eq, Hdeg. cbn [fst snd] in Eq, Hdeg. subst q'.
  assert (∀ v, v ∈ new → v ∉ o ++ c :: q ∧ 0 < occ (targets c) v) as Hfresh.
  { intros v [Hv Ed]%Hnew. apply occ_pos in Hv. split; [|done]. intros [->|[_ E0]]%(inv_found _ _ _ Hi); [|lia].
    pose proof (indegree_rest o init). rewrite <-(inv_degree _ _ _ Hi) in H. pose proof (k_first Hg). lia. }
  assert (∀ v, 0 < occ (targets c) v → 0 < indegree names v) as Hpos.
  { intros v Hv. pose proof (indegree_rest o v). rewrite <-(inv_degree _ _ _ Hi), Hd in H. pose proof (indegree_nonneg (rest (o ++ [c])) v). lia. }
  split.
  - rewrite <-app_assoc. cbn. change (c :: q ++ new) with ((c :: q) ++ new). rewrite app_assoc. apply NoDup_app.
    split; [by apply (inv_nodup _ _ _ Hi)|]. split; [|done]. intros v Hv Hn. by destruct (Hfresh v Hn).
  - pose proof (inv_names _ _ _ Hi) as Hs. intros v Hv. rewrite <-app_assoc, elem_of_app in Hv. cbn in Hv.
    rewrite elem_of_cons, elem_of_app in Hv. destruct Hv as [Hv|[->|[Hv|Hv]]]; [set_solver..|].
    apply (k_targets Hg c); [done|]. by apply Hnew.
  - intros v. rewrite Hdeg, Hd. lia.
  - intros v. rewrite Hdeg. assert (v ∈ (o ++ [c]) ++ q ++ new ↔ v ∈ o ++ c :: q ∨ v ∈ new) as -> by set_solver.
    rewrite (inv_found _ _ _ Hi), Hnew, <-occ_pos. specialize (Hpos v). pose proof (occ_nonneg (targets c) v).
    pose proof (indegree_nonneg (rest (o ++ [c])) v). specialize (Hd v). split.
    + intros [[->|[? ?]]|[? ?]]; [by left|right; lia|right]. split; [auto|lia].
    + intros [->|[? ?]]; [by left; left|]. destruct (decide (degree d v = 0)); [left; right; lia|right; lia].
  - intros o1 v o2 E Hv u Hu Ht. destruct (decide (o2 = [])) as [->|Hne].
    + apply app_inj_tail in E as [-> ->].
      assert (degree d v = 0) as E0. { destruct (inv_found _ _ _ Hi v) as [[->|[_ ?]] _]; [set_solver|done..]. }
      destruct (decide (u ∈ o1)) as [|Hn]; [done|]. rewrite (inv_degree _ _ _ Hi) in E0.
      destruct (proj1 (indegree_zero (rest o1) v) E0 u); [|done]. unfold rest. by apply list_elem_of_filter.
    + destruct (exists_last Hne) as (o2' & x & ->). rewrite app_comm_cons, app_assoc in E. apply app_inj_tail in E as [-> ->].
      by eapply (inv_before _ _ _ Hi).
  - rewrite <-app_assoc. cbn. pose proof (inv_head _ _ _ Hi) as Hh. by destruct o.
Qed.

Lemma kahn_loop fuel : ∀ d q o, kahn_graph → kahn_inv d q o → (length names < length o + fuel)%nat →
  ∃ d' o', order_loop fuel adj d q o = Some o' ∧ kahn_inv d' [] o'.
Proof.
  induction fuel as [|fuel IH]; intros d q o Hg Hi Hf.
  - assert (length (o ++ q) ≤ length names)%nat as Hl.
    { apply submseteq_length, NoDup_submseteq; [apply (inv_nodup _ _ _ Hi)|]. intros v. apply (inv_names _ _ _ Hi). }
    rewrite length_app in Hl. lia.
  - destruct q as [|c q]; [by exists d, o|]. cbn [order_loop]. pose proof (kahn_step d c q o Hg Hi) as Hs. unfold targets in Hs.
    destruct (foldl visit (d, q) _) as [d' q']. apply IH; [done|done|]. rewrite length_app. cbn. lia.
Qed.

Lemma kahn_start d : kahn_graph → (∀ v, degree d v = indegree names v) → kahn_inv d [init] [].
Proof.
  intros Hg Hd. assert (rest [] = names) as Er.
  { unfold rest. clear. induction names as [|x l IH]; [done|]. rewrite filter_cons, decide_True by apply not_elem_of_nil. by f_equal. }
  split; cbn.
  - apply NoDup_singleton.
  - intros v ->%list_elem_of_singleton. apply Hg.
  - intros v. by rewrite Er.
  - intros v. rewrite list_elem_of_singleton, Hd. split; [by left|]. intros [?|?]; [done|lia].
  - intros [] v o2 E; discriminate.
  - done.
Qed.
(** When the queue is empty. *)
Lemma kahn_done d o : kahn_inv d [] o → ∀ v, v ∈ o ↔
  v = init ∨ (∃ u, u ∈ names ∧ v ∈ targets u) ∧ ∀ u, u ∈ names ∧ v ∈ targets u → u ∈ o.
Proof.
  intros Hinv v. pose proof (inv_found _ _ _ Hinv v) as Hf. rewrite app_nil_r in Hf. rewrite Hf, (inv_degree _ _ _ Hinv), indegree_zero.
  pose proof (indegree_nonneg names v) as Hnn. split; (intros [Hv|[Hpos Hall]]; [by left|right; split]).
  - destruct (decide (Exists (λ u, v ∈ targets u) names)) as [He|He]; [by apply Exists_exists|].
    enough (indegree names v = 0) by lia. apply indegree_zero. intros u Hu Ht. apply He, Exists_exists. by exists u.
  - intros u [Hu Ht]. destruct (decide (u ∈ o)) as [|Hno]; [done|]. destruct (Hall u); [|done]. by apply list_elem_of_filter.
  - destruct Hpos as (u & Hu & Ht). destruct (decide (indegree names v = 0)) as [E0|]; [|lia].
    by destruct (proj1 (indegree_zero names v) E0 u).
  - intros u [Hno Hu]%list_elem_of_filter Ht. by apply Hno, Hall.
Qed.

(** Without a cycle, and with a predecessor for each state but the first. *)
Lemma kahn_all d o (rank : string → nat) : kahn_inv d [] o → (∀ u v, u ∈ names → v ∈ targets u → (rank u < rank v)%nat) →
  (∀ v, v ∈ names → v = init ∨ ∃ u, u ∈ names ∧ v ∈ targets u) → names ⊆ o.
Proof.
  intros Hinv Hr Hp. enough (∀ n v, (rank v < n)%nat → v ∈ names → v ∈ o) as H by (intros v; by apply (H (S (rank v))); lia).
  induction n as [|n IH]; intros v Hv Hin; [lia|]. apply (kahn_done d); [done|]. destruct (Hp v Hin) as [|Hu]; [by left|right].
  split; [done|]. intros u [Hu' Ht]. apply IH; [|done]. specialize (Hr u v Hu' Ht). lia.
Qed.
End kahn.

(** ** Building the graph *)

(** The names of the states that the cases of a state lead to. *)
Definition nexts states (s : NamedState) : list string :=
  default [] (neighbour_names states (Parser.parser_switch (state s))).

(** There is a case of [u] that leads to [v]. *)
Definition next states (u v : string) : Prop := ∃ s, s ∈ states ∧ state_name s = u ∧ v ∈ nexts states s.

Definition cases_of states : list string := concat (nexts states <$> states).

(** The states of a program have different names, no case of theirs ends the parsing, none leads back to the initial state,
    and there are fewer cases than an [unsigned] holds. *)
Record program_ok states (init_state : nat) : Prop := {
  p_names : NoDup (state_name <$> states);
  p_nexts : ∀ s, s ∈ states → is_Some (neighbour_names states (Parser.parser_switch (state s)));
  p_cases : Z.of_nat (length (cases_of states)) < 2 ^ 32;
  p_init : is_Some (states !! init_state);
  p_first : ∀ s, states !! init_state = Some s → state_name s ∉ cases_of states;
}.

Lemma foldl_degree ns : ∀ d name, degrees_ok d → degree (foldl (λ d s_name, add_degree d s_name 1) d ns) name = u32 (degree d name + occ ns name).
Proof.
  induction ns as [|x ns IH]; intros d name Hd; cbn [foldl]; [symmetry; unfold occ; cbn; rewrite Z.add_0_r; by apply wrap_small|].
  rewrite IH; cycle 1.
  { intros n. rewrite degree_add. case_decide; [apply wrap_range; lia|apply Hd]. }
  rewrite degree_add, occ_cons. case_decide as E; [|f_equal; lia]. subst. unfold wrap. rewrite Zplus_mod_idemp_l. f_equal. lia.
Qed.

Lemma neighbour_names_in states cases ns v : neighbour_names states cases = Some ns → v ∈ ns → v ∈ state_name <$> states.
Proof.
  revert ns. induction cases as [|c cases IH]; intros ns; cbn [neighbour_names].
  { intros [= <-] ?%elem_of_nil. done. }
  destruct c as [k n|k m n|vs sh n]; [| |apply IH];
    (unfold next_name; destruct n as [n|]; [|done]; cbn; destruct (states !! n) as [s|] eqn:Es; [|done]; cbn;
     destruct (neighbour_names states cases) as [l|]; [|done]; intros [= <-] [->|Hv]%elem_of_cons; [|by eapply IH];
     apply list_elem_of_fmap; exists s; split; [done|by eapply list_elem_of_lookup_2]).
Qed.

(** Adding the states [l], the first of which has index [i]. *)
Lemma add_states_spec states l : ∀ i g, (∀ s, s ∈ l → is_Some (neighbour_names states (Parser.parser_switch (state s)))) →
  NoDup (state_name <$> l) → (∀ s, s ∈ l → name_parse_state_map g !! state_name s = None ∧ adjacency_map g !! state_name s = None) →
  degrees_ok (name_degree_state_map g) →
  (∀ v, degree (name_degree_state_map g) v + occ (concat (nexts states <$> l)) v < 2 ^ 32) →
  ∃ g', add_states states l i g = Some g' ∧
  (∀ v, degree (name_degree_state_map g') v = degree (name_degree_state_map g) v + occ (concat (nexts states <$> l)) v) ∧
  (∀ n, n ∉ state_name <$> l → name_parse_state_map g' !! n = name_parse_state_map g !! n ∧ adjacency_map g' !! n = adjacency_map g !! n) ∧
  ∀ k s, l !! k = Some s → name_parse_state_map g' !! state_name s = Some (i + k)%nat ∧
    adjacency_map g' !! state_name s = Some (nexts states s).
Proof.
  induction l as [|s l IH]; intros i g Hn Hnd Hg Hd Hb; cbn [add_states].
  { exists g. split_and!; [done|intros v; unfold occ; cbn; lia|done|done]. }
  apply NoDup_cons in Hnd as [Hs Hnd]. destruct (Hn s) as [ns Ens]; [left|]. unfold add_state. rewrite Ens. cbn [mbind option_bind].
  destruct (Hg s) as [Hp Ha]; [left|]. unfold insert_new. rewrite Hp, Ha.
  set (g1 := {| name_degree_state_map := _; name_parse_state_map := _; adjacency_map := _ |}).
  assert (nexts states s = ns) as Enx by (unfold nexts; by rewrite Ens).
  assert (∀ v, occ (concat (nexts states <$> s :: l)) v = occ ns v + occ (concat (nexts states <$> l)) v) as Eo.
  { intros v. cbn. by rewrite occ_app, Enx. }
  assert (∀ v, degree (name_degree_state_map g1) v = degree (name_degree_state_map g) v + occ ns v) as Ed1.
  { intros v. cbn. rewrite foldl_degree by done. apply wrap_small. specialize (Hb v). rewrite Eo in Hb. specialize (Hd v).
    pose proof (occ_nonneg ns v). pose proof (occ_nonneg (concat (nexts states <$> l)) v). lia. }
  destruct (IH (S i) g1) as (g' & -> & Hd' & Ho & Hk).
  - intros s' Hs'. apply Hn. by right.
  - done.
  - intros s' Hs'. cbn. assert (state_name s' ≠ state_name s) by (intros E; destruct Hs; rewrite <-E; by apply list_elem_of_fmap_2).
    rewrite !lookup_insert_ne by done. apply Hg. by right.
  - intros v. rewrite Ed1. specialize (Hb v). rewrite Eo in Hb. specialize (Hd v).
    pose proof (occ_nonneg ns v). pose proof (occ_nonneg (concat (nexts states <$> l)) v). lia.
  - intros v. rewrite Ed1. specialize (Hb v). rewrite Eo in Hb. lia.
  - exists g'. split_and!; [done| | |].
    + intros v. rewrite Hd', Ed1, Eo. lia.
    + intros n [Hne Hl]%not_elem_of_cons. destruct (Ho n Hl) as [-> ->]. cbn. by rewrite !lookup_insert_ne.
    + intros [|k] s'; cbn.
      * intros [= <-]. destruct (Ho _ Hs) as [-> ->]. cbn. rewrite !lookup_insert_eq, Nat.add_0_r, Enx. done.
      * intros Hl. rewrite Nat.add_succ_r. by apply (Hk k).
Qed.

Lemma occ_le l v : occ l v ≤ Z.of_nat (length l).
Proof. unfold occ. pose proof (length_filter (v =.) l). lia. Qed.

Lemma indegree_cases (adj : gmap string (list string)) states (l : list NamedState) v :
  (∀ s, s ∈ l → targets adj (state_name s) = nexts states s) →
  indegree adj (state_name <$> l) v = occ (concat (nexts states <$> l)) v.
Proof.
  induction l as [|s l IH]; intros Ht; [done|]. cbn. rewrite occ_app, IH, Ht; [done|left|]. intros s' Hs'. apply Ht. by right.
Qed.

(** The states with these names, and their indices. *)
Lemma indices states (m : gmap string nat) (o : list string) : (∀ k s, states !! k = Some s → m !! state_name s = Some k) →
  o ⊆ state_name <$> states →
  ∃ idxs ordered, map (λ s, m !! s) o = Some <$> idxs ∧ mapM (states !!.) idxs = Some ordered ∧ state_name <$> ordered = o.
Proof.
  intros Hm. induction o as [|n o IH]; intros Ho; [by exists [], []|].
  destruct IH as (idxs & ordered & E1 & E2 & E3); [intros x Hx; apply Ho; by right|].
  assert (n ∈ state_name <$> states) as (s & -> & [k Es]%list_elem_of_lookup)%list_elem_of_fmap by (apply Ho; left).
  exists (k :: idxs), (s :: ordered). cbn. rewrite E1, (Hm k s Es), Es, E2, E3. done.
Qed.

Lemma built_graph states init_state : program_ok states init_state →
  ∃ g init, add_states states states 0 empty_graph = Some g ∧ state_name <$> states !! init_state = Some init ∧
  kahn_graph (state_name <$> states) (adjacency_map g) init ∧
  (∀ v, degree (name_degree_state_map g) v = indegree (adjacency_map g) (state_name <$> states) v) ∧
  (∀ u v, next states u v ↔ u ∈ state_name <$> states ∧ v ∈ targets (adjacency_map g) u) ∧
  ∀ k s, states !! k = Some s → name_parse_state_map g !! state_name s = Some k.
Proof.
  intros Hp. destruct (add_states_spec states states 0 empty_graph (p_nexts _ _ Hp) (p_names _ _ Hp)) as (g & Eg & Hd & _ & Hk).
  { intros s _. cbn. by rewrite !lookup_empty. }
  { intros v. unfold degree. cbn. rewrite lookup_empty. cbn. lia. }
  { intros v. unfold degree. cbn. rewrite lookup_empty. cbn. pose proof (occ_le (cases_of states) v). pose proof (p_cases _ _ Hp).
    fold (cases_of states). lia. }
  destruct (p_init _ _ Hp) as [si Ei]. exists g, (state_name si). split; [done|]. split; [by rewrite Ei|].
  assert (∀ s, s ∈ states → targets (adjacency_map g) (state_name s) = nexts states s) as Ht.
  { intros s [k Es]%list_elem_of_lookup. unfold targets. by destruct (Hk k s Es) as [_ ->]. }
  assert (∀ v, indegree (adjacency_map g) (state_name <$> states) v = occ (cases_of states) v) as Hin.
  { intros v. by apply indegree_cases. }
  split_and!; [split| | |].
  - apply (p_names _ _ Hp).
  - intros u v (s & -> & Hs)%list_elem_of_fmap. rewrite Ht by done. unfold nexts.
    destruct (p_nexts _ _ Hp s Hs) as [ns Ens]. rewrite Ens. by eapply neighbour_names_in.
  - apply list_elem_of_fmap. exists si. split; [done|by eapply list_elem_of_lookup_2].
  - rewrite Hin. pose proof (p_first _ _ Hp si Ei) as Hf. pose proof (occ_nonneg (cases_of states) (state_name si)).
    destruct (decide (0 < occ (cases_of states) (state_name si))) as [?%occ_pos|]; [done|lia].
  - intros v. rewrite Hin. pose proof (occ_le (cases_of states) v). pose proof (p_cases _ _ Hp). lia.
  - intros v. rewrite Hd, Hin. unfold degree. cbn. by rewrite lookup_empty.
  - intros u v. unfold next. split.
    + intros (s & Hs & <- & Hv). rewrite Ht by done. split; [by apply list_elem_of_fmap_2|done].
    + intros [(s & -> & Hs)%list_elem_of_fmap Hv]. rewrite Ht in Hv by done. by exists s.
  - intros k s Es. by destruct (Hk k s Es).
Qed.

End ParserOrder.

Module ParserOrderExamples.
Import ParserOrder.
Local Open Scope string_scope.

Definition to_states (l : list nat) (default_next : option nat) : Parser.ParseState :=
  {| Parser.parser_ops := []; Parser.has_switch := true;
     Parser.key_builder := {| Parser.entries := []; Parser.bitwidths := [] |};
     Parser.parser_switch := (λ i, Parser.SwitchCase [Z.of_nat i] (Some i)) <$> l;
     Parser.default_next_state := default_next |}.

Definition tagged : list NamedState :=
  [ {| state_name := "start"; state_id := 0; state := to_states [1; 2]%nat None |};
    {| state_name := "ipv4"; state_id := 1; state := to_states [] None |};
    {| state_name := "vlan"; state_id := 2; state := to_states [1]%nat None |} ].


(** A state that no state leads to keeps the states it leads to out of the order, and so does a state that only the
    default of another leads to: of these four states, all but one of which the parser reaches, one is ordered. *)
Definition blocked : list NamedState :=
  [ {| state_name := "start"; state_id := 0; state := to_states [1]%nat (Some 3%nat) |};
    {| state_name := "ipv4"; state_id := 1; state := to_states [] None |};
    {| state_name := "unused"; state_id := 2; state := to_states [1]%nat None |};
    {| state_name := "other"; state_id := 3; state := to_states [] None |} ].

Theorem blocked_states : bfs_topological_ordering_of_parser_states blocked 0 = Some [Some 0%nat].
Proof. by vm_compute. Qed.

(** A case that ends the parsing is a null pointer that is followed. *)
Definition accepting : list NamedState :=
  [ {| state_name := "start"; state_id := 0;
       state := Parser.push_case (to_states [] None) (Parser.SwitchCase [8; 0] None) |} ].

Theorem accepting_undefined : bfs_topological_ordering_of_parser_states accepting 0 = None.
Proof. by vm_compute. Qed.
End ParserOrderExamples.
