(* ===== verification/LinkParsers.v ===== *)
(** * Linking of parsers (src/bm_sim/linker/link_parsers.cpp, include/bm/bm_linker/link_parsers.h)

    [LinkParsers] merges the parser of a program that is added into the parser of
    the programs that run already, the running parser. Each running state is
    matched with the first state of the new parser that it can be linked to; the
    states that are left are copied under qualified names; then the switch cases of
    the matched states are united, from the initial states on.

    A pointer to a state of a program is its index in the states of the program; a
    pointer to a merged state is its key in [linked_parse_state]. Following a null
    pointer, or an iterator past the end, is undefined ([None]). The order in
    which an unordered map is iterated over is a parameter. *)

From stdpp Require Import gmap strings.
From S2P Require Import Prelude Data Extract Fields Headers Parser LinkTable LinkHeaders ParserOrder.
Import LinkTable LinkHeaders ParserOrder.

Module LinkParsers.

Inductive UIDTableLinkOPCode := MAP_EXISTING_ID | INSERT_NEW_ID | NO_OPS.

Inductive ParserOpTypes :=
  | EXTRACT | EXTRACT_VL | EXTRACT_STACK | EXTRACT_UNION_STACK | EXTRACT_TYPE_MAX
  | VERIFY | PRIMITIVE | SHIFT | SET_OP | UNSUPPORTED_TYPE.

(** The value of an enumerator. *)
Definition op_type_value (t : ParserOpTypes) : Z :=
  match t with
  | EXTRACT => 0 | EXTRACT_VL => 1 | EXTRACT_STACK => 2 | EXTRACT_UNION_STACK => 3 | EXTRACT_TYPE_MAX => 4
  | VERIFY => 5 | PRIMITIVE => 6 | SHIFT => 7 | SET_OP => 8 | UNSUPPORTED_TYPE => 9
  end.

(** A merged state: its operations, its key, and its cases, which lead to merged states. *)
Record NewState := {
  new_name : string;
  new_id : Z;
  new_ops : list Parser.ParserOp;
  new_has_switch : bool;
  new_key_builder : Parser.ParseSwitchKeyBuilder;
  new_switch : list (list Z * string);
}.

Record ParseStateExt := {
  uid_table_link_opcode : UIDTableLinkOPCode;
  has_switch_case_merged : bool;
  new_parse_state : NewState;
  header_id_map : gmap Z Z;
}.

(** What the linker uses of a program. *)
Record P4ObjectsLinkerExt := {
  p4_program_name : string;
  header_maps : HeaderMaps;
  parse_states : list NamedState;
}.

Implicit Types (e : ParseStateExt) (p : P4ObjectsLinkerExt) (op : Parser.ParserOp) (b : Parser.ParseSwitchKeyBuilder).

Definition new_ext (name : string) (id : Z) (id_op : UIDTableLinkOPCode) : ParseStateExt :=
  {| uid_table_link_opcode := id_op; has_switch_case_merged := false;
     new_parse_state := {| new_name := name; new_id := id; new_ops := []; new_has_switch := false;
                           new_key_builder := Parser.empty_builder; new_switch := [] |};
     header_id_map := ∅ |}.

Definition with_state e (s : NewState) : ParseStateExt :=
  {| uid_table_link_opcode := uid_table_link_opcode e; has_switch_case_merged := has_switch_case_merged e;
     new_parse_state := s; header_id_map := header_id_map e |}.

Definition add_extract e (header : Z) : ParseStateExt :=
  let s := new_parse_state e in
  with_state e {| new_name := new_name s; new_id := new_id s; new_ops := new_ops s ++ [Parser.ParserOpExtract header];
                  new_has_switch := new_has_switch s; new_key_builder := new_key_builder s; new_switch := new_switch s |}.

Definition set_key_builder e b : ParseStateExt :=
  let s := new_parse_state e in
  with_state e {| new_name := new_name s; new_id := new_id s; new_ops := new_ops s;
                  new_has_switch := true; new_key_builder := b; new_switch := new_switch s |}.

Definition add_switch_case e (key : list Z) (next : string) : ParseStateExt :=
  let s := new_parse_state e in
  with_state e {| new_name := new_name s; new_id := new_id s; new_ops := new_ops s; new_has_switch := new_has_switch s;
                  new_key_builder := new_key_builder s; new_switch := new_switch s ++ [(key, next)] |}.

Definition add_header_id_state_mapping e (ps_header_id rp_header_id : Z) : ParseStateExt :=
  {| uid_table_link_opcode := uid_table_link_opcode e; has_switch_case_merged := has_switch_case_merged e;
     new_parse_state := new_parse_state e; header_id_map := <[ps_header_id := rp_header_id]> (header_id_map e) |}.

Definition switch_case_merged e (flag : bool) : ParseStateExt :=
  {| uid_table_link_opcode := uid_table_link_opcode e; has_switch_case_merged := flag;
     new_parse_state := new_parse_state e; header_id_map := header_id_map e |}.

(** ** Operations *)

Definition get_parser_op_type op : ParserOpTypes :=
  match op with Parser.ParserOpExtract _ => EXTRACT | _ => UNSUPPORTED_TYPE end.

Definition is_extract_type (t : ParserOpTypes) : bool := op_type_value t <? op_type_value EXTRACT_TYPE_MAX.

Section ops.
Context (types : HeaderTypeUIDTable) (new_p rp : P4ObjectsLinkerExt).

Definition link_extract_parser_op_regular op (rp_op : Parser.ParserOp) e : option (ParseStateExt * ObjectLinkStateCode) :=
  match op, rp_op with
  | Parser.ParserOpExtract header_id, Parser.ParserOpExtract rp_header_id =>
      header_type ← get_header_type_of_header_id (header_maps new_p) header_id;
      rp_header_type ← get_header_type_of_header_id (header_maps rp) rp_header_id;
      let ret := get_header_type_mapping types (p4_program_name new_p) header_type.1 rp_header_type.1 in
      Some (if bool_decide (ret = HEADER_TYPE_DEF_MATCH)
            then add_extract (add_header_id_state_mapping e header_id rp_header_id) rp_header_id else e, ret)
  | _, _ => Some (e, STATE_HEADER_OPS_LINK_FAILED)
  end.

Definition link_extract_parser_op op (rp_op : Parser.ParserOp) (extract_type_op : ParserOpTypes) e
    : option (ParseStateExt * ObjectLinkStateCode) :=
  match extract_type_op with
  | EXTRACT => link_extract_parser_op_regular op rp_op e
  | _ => Some (e, STATE_HEADER_OPS_LINK_FAILED)
  end.

(** The inner loop: [inr] is a return, [inl] the value of [ret_code] when the loop ends. *)
Fixpoint merge_with op (rp_ops : list Parser.ParserOp) e (ret_code : ObjectLinkStateCode)
    : option (ParseStateExt * (ObjectLinkStateCode + ObjectLinkStateCode)) :=
  match rp_ops with
  | [] => Some (e, inl ret_code)
  | rp_op :: rp_ops =>
      let op_type := get_parser_op_type op in
      let rp_op_type := get_parser_op_type rp_op in
      if is_extract_type op_type && is_extract_type rp_op_type then
        if bool_decide (op_type_value op_type ≠ op_type_value rp_op_type) then Some (e, inr HEADER_TYPE_DEF_MATCH_FAILED) else
        '(e, ret_code) ← link_extract_parser_op op rp_op rp_op_type e;
        if bool_decide (ret_code ≠ HEADER_TYPE_DEF_MATCH) then Some (e, inr STATE_HEADER_OPS_LINK_FAILED)
        else merge_with op rp_ops e ret_code
      else merge_with op rp_ops e ret_code
  end.

(** The outer loop: the iterator of the running operations is not reset. *)
Fixpoint merge_loop (ops rp_ops : list Parser.ParserOp) e (ret_code : ObjectLinkStateCode)
    : option (ParseStateExt * ObjectLinkStateCode) :=
  match ops with
  | [] => Some (e, ret_code)
  | op :: ops =>
      '(e, r) ← merge_with op rp_ops e ret_code;
      match r with
      | inr ret => Some (e, ret)
      | inl ret_code => merge_loop ops [] e ret_code
      end
  end.

Definition merge_parser_ops (ops rp_ops : list Parser.ParserOp) e : option (ParseStateExt * ObjectLinkStateCode) :=
  merge_loop ops rp_ops e STATE_HEADER_OPS_LINKED.

(** Changes the table of header ids for a header that gets a new id; the code of [link_new_header_id] is not looked at. *)
Definition add_extract_parser_op_regular (header_id : Z) (u : HeaderUIDTable) e
    : option (HeaderUIDTable * ParseStateExt * ObjectLinkStateCode) :=
  match uid_table_link_opcode e with
  | INSERT_NEW_ID =>
      header_name ← get_header_name (header_maps new_p) header_id;
      header_type ← get_header_type_of_header_id (header_maps new_p) header_id;
      '(u, _, new_header_id) ← link_new_header_id u types (p4_program_name new_p) header_name header_id header_type.1 header_id;
      Some (u, add_extract e new_header_id, STATE_HEADER_OPS_LINKED)
  | _ => Some (u, add_extract e header_id, STATE_HEADER_OPS_LINKED)
  end.

(** The loop does not advance: it ends in its first round, or not at all. *)
Fixpoint add_parser_ops (fuel : nat) (ops : list Parser.ParserOp) (u : HeaderUIDTable) e (ret_code : ObjectLinkStateCode)
    : option (HeaderUIDTable * ParseStateExt * ObjectLinkStateCode) :=
  match ops with
  | [] => Some (u, e, ret_code)
  | op :: _ =>
      match fuel with
      | O => None
      | S fuel' =>
          match op with
          | Parser.ParserOpExtract header_id =>
              '(u, e, ret_code) ← add_extract_parser_op_regular header_id u e;
              if bool_decide (ret_code = STATE_HEADER_OPS_LINKED) then Some (u, e, STATE_HEADER_OPS_LINKED)
              else add_parser_ops fuel' ops u e ret_code
          | _ => Some (u, e, STATE_HEADER_OPS_LINK_FAILED)
          end
      end
  end.

Definition add_parser_state (ps : Parser.ParseState) (u : HeaderUIDTable) e
    : option (HeaderUIDTable * ParseStateExt * ObjectLinkStateCode) :=
  '(u, e, ret_code) ← add_parser_ops 1 (Parser.parser_ops ps) u e STATE_HEADER_OPS_LINKED;
  Some (u, set_key_builder e (Parser.key_builder ps), ret_code).

(** ** Keys *)

(** The loop over the entries when one of the keys is empty: [remap] when the running key is. The entry of a header without
    an id is undefined. *)
Fixpoint remap_fields (remap : bool) (ids : gmap Z Z) (l : list Parser.Entry) : option (option (list Parser.Entry)) :=
  match l with
  | [] => Some (Some [])
  | Parser.FIELD f :: l =>
      f ← (if remap then rid ← ids !! Parser.f_header f; Some {| Parser.f_header := rid; Parser.f_offset := Parser.f_offset f |}
           else Some f);
      r ← remap_fields remap ids l;
      Some (match r with Some r => Some (Parser.FIELD f :: r) | None => None end)
  | _ :: _ => Some None
  end.

Fixpoint match_fields (l : list (Parser.Entry * Z)) (rp_l : list (Parser.Entry * Z)) b : Parser.ParseSwitchKeyBuilder * ObjectLinkStateCode :=
  match l, rp_l with
  | (entry, bw) :: l, (rp_entry, rp_bw) :: rp_l =>
      match entry, rp_entry with
      | Parser.FIELD f, Parser.FIELD rp_f =>
          match_fields l rp_l
            (if bool_decide (bw = rp_bw) && bool_decide (Parser.f_offset f = Parser.f_offset rp_f)
             then Parser.push_back_entry b rp_entry rp_bw else b)
      | _, _ => (b, STATE_PARSE_SWITCH_KEY_MATCH_FAILED)
      end
  | _, _ => (b, STATE_PARSE_SWITCH_KEY_MATCH)
  end.

(** [merged_key_builder] is empty before. *)
Definition link_parse_switch_key (key_builder rp_key_builder : Parser.ParseSwitchKeyBuilder) e
    : option (Parser.ParseSwitchKeyBuilder * ObjectLinkStateCode) :=
  let l := Parser.entries key_builder in
  let rp_l := Parser.entries rp_key_builder in
  if bool_decide (l = []) || bool_decide (rp_l = []) then
    let merged := if bool_decide (rp_l = []) then key_builder else rp_key_builder in
    r ← remap_fields (bool_decide (rp_l = [])) (header_id_map e) l;
    Some (match r with
          | None => (merged, STATE_PARSE_SWITCH_KEY_MATCH_FAILED)
          | Some l' => ({| Parser.entries := if bool_decide (rp_l = []) then l' else Parser.entries merged;
                           Parser.bitwidths := Parser.bitwidths merged |}, STATE_PARSE_SWITCH_KEY_MATCH)
          end)
  else if bool_decide (length l ≠ length rp_l) then Some (Parser.empty_builder, STATE_PARSE_SWITCH_KEY_MATCH_FAILED)
  else Some (match_fields (zip l (Parser.bitwidths key_builder)) (zip rp_l (Parser.bitwidths rp_key_builder)) Parser.empty_builder).

(** Links the headers of the state once its operations and its key match. *)
Definition can_link_parser_states (ps rp_ps : Parser.ParseState) (u : HeaderUIDTable) e
    : option (HeaderUIDTable * ParseStateExt * ObjectLinkStateCode) :=
  '(e, ret_code) ← merge_parser_ops (Parser.parser_ops ps) (Parser.parser_ops rp_ps) e;
  if bool_decide (ret_code = STATE_HEADER_OPS_LINK_FAILED) then Some (u, e, STATE_LINKING_FAILED) else
  '(merged_key_builder, ret_code) ← link_parse_switch_key (Parser.key_builder ps) (Parser.key_builder rp_ps) e;
  if bool_decide (ret_code ≠ STATE_PARSE_SWITCH_KEY_MATCH) then Some (u, e, STATE_LINKING_FAILED) else
  let e := set_key_builder e merged_key_builder in
  Some (foldl (λ u kv, (link_header_ids u (p4_program_name new_p) kv.1 kv.2).1) u (map_to_list (header_id_map e)), e, STATE_MATCHED).
End ops.

(** ** Matching the states *)

(** What the linker keeps from one program to the next, and the merged states of the program that is added. *)
Record Linking := {
  last_state_id : Z;
  parse_state_link_table : Table string;
  header_uid_table : HeaderUIDTable;
  linked_parse_state : gmap string ParseStateExt;
}.

Implicit Types (L : Linking) (m : gmap string ParseStateExt).

Definition set_parse_states_link_code (table : Table string) (state_name link_state_name p4_name : string) (st : ObjectLinkStateCode)
    : Table string * ObjectLinkStateCode :=
  let '(table, ret_code) := insert_p4objects_link table p4_name state_name link_state_name st in
  (table, match ret_code with SUCCESS => st | _ => STATE_LINKING_FAILED end).

Definition get_parse_states_link_code (table : Table string) (state_name rp_state_name p4_name : string) : ObjectLinkStateCode :=
  match get_p4objects_link_state table p4_name state_name rp_state_name with
  | (SUCCESS, Some link_state) => link_state
  | _ => STATE_LINKING_FAILED
  end.

Definition get_parse_state_link (table : Table string) (state_name p4_name : string) : ObjectLinkStateCode * option string :=
  match get_p4object_link table p4_name state_name with
  | (SUCCESS, Some out) => (link_state out, Some (value out))
  | _ => (STATE_LINKING_FAILED, None)
  end.

(** Links a state to its qualified name, unless its own name is the name of a running state. *)
Definition add_parse_state_link (table : Table string) (state_name p4_name : string) (st : ObjectLinkStateCode)
    : Table string * ObjectLinkStateCode :=
  if bool_decide (state_name ∈ get_all_linker_uids table) then (table, STATE_LINKING_FAILED)
  else set_parse_states_link_code table state_name (p4_name ++ "." ++ state_name)%string p4_name st.

Section states.
Context (types : HeaderTypeUIDTable) (new_p rp : P4ObjectsLinkerExt).

(** The first state that is not linked yet and can be linked to the running state. *)
Fixpoint find_match (rp_s : NamedState) (states : list NamedState) (parse_state_linked : list bool) (i : nat) (u : HeaderUIDTable)
    : option (option (nat * NamedState * ParseStateExt * HeaderUIDTable)) :=
  match states, parse_state_linked with
  | s :: states, true :: linked => find_match rp_s states linked (S i) u
  | s :: states, false :: linked =>
      '(u', e, ret_code) ← can_link_parser_states types new_p rp (state s) (state rp_s) u
                             (new_ext (state_name rp_s) (ParserOrder.state_id rp_s) MAP_EXISTING_ID);
      if bool_decide (ret_code = STATE_MATCHED) then Some (Some (i, s, e, u')) else find_match rp_s states linked (S i) u
  | _, _ => Some None
  end.

Fixpoint map_running (rp_states states : list NamedState) (parse_state_linked : list bool) L : option (Linking * list bool) :=
  match rp_states with
  | [] => Some (L, parse_state_linked)
  | rp_s :: rp_states =>
      r ← find_match rp_s states parse_state_linked 0 (header_uid_table L);
      match r with
      | Some (i, s, e, u) =>
          let '(table, _) := set_parse_states_link_code (parse_state_link_table L) (state_name s) (state_name rp_s)
                               (p4_program_name new_p) STATE_MATCHED in
          map_running rp_states states (<[i := true]> parse_state_linked)
            {| last_state_id := last_state_id L; parse_state_link_table := table; header_uid_table := u;
               linked_parse_state := <[state_name rp_s := e]> (linked_parse_state L) |}
      | None =>
          '(u, e, _) ← add_parser_state types new_p (state rp_s) (header_uid_table L)
                         (new_ext (state_name rp_s) (ParserOrder.state_id rp_s) NO_OPS);
          map_running rp_states states parse_state_linked
            {| last_state_id := last_state_id L; parse_state_link_table := parse_state_link_table L; header_uid_table := u;
               linked_parse_state := <[state_name rp_s := e]> (linked_parse_state L) |}
      end
  end.

Fixpoint add_remaining (states : list NamedState) (parse_state_linked : list bool) L : option Linking :=
  match states, parse_state_linked with
  | s :: states, true :: linked => add_remaining states linked L
  | s :: states, false :: linked =>
      let fqn_state_name := (p4_program_name new_p ++ "." ++ state_name s)%string in
      let id := last_state_id L + 1 in
      '(u, e, _) ← add_parser_state types new_p (state s) (header_uid_table L) (new_ext fqn_state_name id INSERT_NEW_ID);
      add_remaining states linked
        {| last_state_id := id;
           parse_state_link_table :=
             (add_parse_state_link (parse_state_link_table L) (state_name s) (p4_program_name new_p) STATE_MATCHED).1;
           header_uid_table := u; linked_parse_state := <[fqn_state_name := e]> (linked_parse_state L) |}
  | _, _ => Some L
  end.

Definition map_ordered_parser_states (states rp_states : list NamedState) L : option (Linking * ObjectLinkStateCode) :=
  '(L, linked) ← map_running rp_states states (replicate (length states) false) L;
  L ← add_remaining states linked L;
  Some (L, STATE_MATCHED).
End states.

(** ** Uniting the switch cases *)

(** A recursion can end, follow a pointer that leads nowhere, or need more depth than it is given. *)
Inductive Run (A : Type) := Done (a : A) | Undefined | OutOfFuel.
Arguments Done {A} a.
Arguments Undefined {A}.
Arguments OutOfFuel {A}.
#[export] Instance Run_bind : MBind Run := λ A B f r, match r with Done a => f a | Undefined => Undefined | OutOfFuel => OutOfFuel end.
Definition use {A} (o : option A) : Run A := match o with Some a => Done a | None => Undefined end.
Definition result {A} (r : Run A) : option A := match r with Done a => Some a | _ => None end.

(** The first case with a key; cases with masks and value sets are left out. *)
Definition get_switch_case_hexstr_key_state_map (parser_switch : list Parser.ParseSwitchCase) : gmap (list Z) (option nat) :=
  foldl (λ key_state_map c,
    match c with
    | Parser.SwitchCase key next_state =>
        match key_state_map !! key with Some _ => key_state_map | None => <[key := next_state]> key_state_map end
    | _ => key_state_map
    end) ∅ parser_switch.

Section cases.
Context (iterate : gmap (list Z) (option nat) → list (list Z * option nat)).
Context (states rp_states : list NamedState) (table : Table string) (p_name : string).

(** A pointer that is followed. *)
Definition deref (l : list NamedState) (ptr : option nat) : option NamedState := i ← ptr; l !! i.

(** The merged state a case of the new program leads to, when the running state has a case of this key or none; [Some None] is a
    failure to link. *)
Definition case_target (ps_next_state : NamedState) (rp_next : option (option nat)) : option (option string) :=
  match rp_next with
  | Some rp_ps_next_state =>
      rp_next_state ← deref rp_states rp_ps_next_state;
      Some (if bool_decide (get_parse_states_link_code table (state_name ps_next_state) (state_name rp_next_state) p_name = STATE_MATCHED)
            then Some (state_name rp_next_state) else None)
  | None =>
      Some (match get_parse_state_link table (state_name ps_next_state) p_name with
            | (STATE_MATCHED, Some link_state_name) => Some link_state_name
            | _ => None
            end)
  end.

Definition Merge : Type := option nat → option nat → string → gmap string ParseStateExt →
  Run (gmap string ParseStateExt * ObjectLinkStateCode).

(** The cases of the state of the new program: [inr] is a return, [inl] the running cases that are left. *)
Fixpoint new_cases (merge : Merge) (key : string) (ps_cases : list Parser.ParseSwitchCase) (rp_map : gmap (list Z) (option nat)) m
    : Run (gmap string ParseStateExt * (gmap (list Z) (option nat) + ObjectLinkStateCode)) :=
  match ps_cases with
  | [] => Done (m, inl rp_map)
  | Parser.SwitchCase k ps_next_state :: ps_cases =>
      s ← use (deref states ps_next_state);
      target ← use (case_target s (rp_map !! k));
      match target with
      | None => Done (m, inr PARSER_LINKING_FAILED)
      | Some target =>
          '(m, ret_code) ← merge ps_next_state (default None (rp_map !! k)) target m;
          e ← use (m !! key);
          let m := <[key := add_switch_case e k target]> m in
          if bool_decide (ret_code ≠ STATE_LINKED) then Done (m, inr ret_code)
          else new_cases merge key ps_cases (delete k rp_map) m
      end
  | _ :: _ => Done (m, inr PARSER_LINKING_FAILED)
  end.

(** The running cases that are left. *)
Fixpoint running_cases (merge : Merge) (key : string) (l : list (list Z * option nat)) m
    : Run (gmap string ParseStateExt * ObjectLinkStateCode) :=
  match l with
  | [] => e ← use (m !! key); Done (<[key := switch_case_merged e true]> m, STATE_LINKED)
  | (k, rp_ps_next_state) :: l =>
      s ← use (deref rp_states rp_ps_next_state);
      '(m, ret_code) ← merge None rp_ps_next_state (state_name s) m;
      e ← use (m !! key);
      let m := <[key := add_switch_case e k (state_name s)]> m in
      if bool_decide (ret_code ≠ STATE_LINKED) then Done (m, ret_code) else running_cases merge key l m
  end.

Definition cases_of_ptr (l : list NamedState) (ptr : option nat) : option (list Parser.ParseSwitchCase) :=
  match ptr with
  | None => Some []
  | Some i => s ← l !! i; Some (Parser.parser_switch (state s))
  end.

(** Takes the states of the two programs, which may be null, and the merged state. *)
Fixpoint merge_parser_states_switch_cases (fuel : nat) (parse_state rp_parse_state : option nat) (key : string) m
    : Run (gmap string ParseStateExt * ObjectLinkStateCode) :=
  match fuel with
  | O => OutOfFuel
  | S fuel' =>
      e ← use (m !! key);
      if has_switch_case_merged e then Done (m, STATE_LINKED) else
      rp_switch ← use (cases_of_ptr rp_states rp_parse_state);
      ps_cases ← use (cases_of_ptr states parse_state);
      '(m, r) ← new_cases (merge_parser_states_switch_cases fuel') key ps_cases (get_switch_case_hexstr_key_state_map rp_switch) m;
      match r with
      | inr ret_code => Done (m, ret_code)
      | inl rp_map => running_cases (merge_parser_states_switch_cases fuel') key (iterate rp_map) m
      end
  end.
End cases.

(** ** The merged parser *)

(** The merged states in the order of the iteration over [linked_parse_state]; a pointer to a merged state is its index. *)
Definition to_parse_state (keys : list string) (s : NewState) : Parser.ParseState :=
  {| Parser.parser_ops := new_ops s; Parser.has_switch := new_has_switch s; Parser.key_builder := new_key_builder s;
     Parser.parser_switch := (λ c, Parser.SwitchCase c.1 (fst <$> list_find (c.2 =.) keys)) <$> new_switch s;
     Parser.default_next_state := None |}.

Definition merged_states (l : list (string * ParseStateExt)) : list NamedState :=
  (λ ke, let s := new_parse_state ke.2 in
         {| state_name := new_name s; state_id := new_id s; state := to_parse_state l.*1 s |}) <$> l.

(** The result is the states, the index of the initial one, and the code, which is the one of the merging of the cases. The
    ordered states are not null. *)
Definition link_parser (iterate : gmap (list Z) (option nat) → list (list Z * option nat))
    (iterate_states : gmap string ParseStateExt → list (string * ParseStateExt))
    (fuel : nat) (types : HeaderTypeUIDTable) (new_p : P4ObjectsLinkerExt) (new_ordered : list nat)
    (running : option (P4ObjectsLinkerExt * list nat)) L
    : option (Linking * list NamedState * nat * ObjectLinkStateCode) :=
  let rp := from_option fst new_p running in
  let rp_ordered := from_option snd [] running in
  let start := {| last_state_id := last_state_id L; parse_state_link_table := parse_state_link_table L;
                  header_uid_table := header_uid_table L; linked_parse_state := ∅ |} in
  new_states ← mapM (parse_states new_p !!.) new_ordered;
  rp_states ← mapM (parse_states rp !!.) rp_ordered;
  '(L, _) ← map_ordered_parser_states types new_p rp new_states rp_states start;
  new_first ← head new_states;
  key ← (match running with
         | Some _ => state_name <$> head rp_states
         | None => Some (p4_program_name new_p ++ "." ++ state_name new_first)%string
         end);
  '(merged, ret_code) ← result (merge_parser_states_switch_cases iterate (parse_states new_p) (parse_states rp)
      (parse_state_link_table L) (p4_program_name new_p) fuel (head new_ordered)
      (match running with Some _ => head rp_ordered | None => None end) key (linked_parse_state L));
  let l := iterate_states merged in
  init ← fst <$> list_find (key =.) l.*1;
  Some ({| last_state_id := last_state_id L; parse_state_link_table := parse_state_link_table L;
           header_uid_table := header_uid_table L; linked_parse_state := ∅ |}, merged_states l, init, ret_code).
End LinkParsers.
