(* ===== verification/LinkStates.v ===== *)
(** * Matching the states of two parsers

    What the operations of [LinkParsers.v] that match states do: which operations
    and which keys of two states can be linked, and where the states of the new
    program end up. *)

From stdpp Require Import gmap strings.
From S2P Require Import Prelude Data Extract Fields Headers Parser LinkTable LinkHeaders ParserOrder LinkParsers.
Import LinkTable LinkHeaders ParserOrder LinkParsers.

Module LinkStates.

Implicit Types (e : ParseStateExt) (op : Parser.ParserOp).

(** ** Operations *)

Definition extracts (ops : list Parser.ParserOp) : list Z :=
  omap (λ op, match op with Parser.ParserOpExtract h => Some h | _ => None end) ops.

Section ops.
Context (types : HeaderTypeUIDTable) (new_p rp : P4ObjectsLinkerExt).

(** The type of header [h] of the running program is the linker type of the type of header [g] of the new one. *)
Definition types_match (g h : Z) : bool :=
  match get_header_type_of_header_id (header_maps new_p) g, get_header_type_of_header_id (header_maps rp) h with
  | Some t, Some rp_t => bool_decide (get_header_type_mapping types (p4_program_name new_p) t.1 rp_t.1 = HEADER_TYPE_DEF_MATCH)
  | _, _ => false
  end.

Definition known (maps : HeaderMaps) (h : Z) : Prop := is_Some (get_header_type_of_header_id maps h).

Definition map_header (g : Z) e (h : Z) : ParseStateExt := add_extract (add_header_id_state_mapping e g h) h.

Lemma merge_with_spec g rp_ops : ∀ e code, known (header_maps new_p) g → Forall (known (header_maps rp)) (extracts rp_ops) →
  if forallb (types_match g) (extracts rp_ops)
  then merge_with types new_p rp (Parser.ParserOpExtract g) rp_ops e code =
    Some (foldl (map_header g) e (extracts rp_ops), inl (if bool_decide (extracts rp_ops = []) then code else HEADER_TYPE_DEF_MATCH))
  else ∃ e', merge_with types new_p rp (Parser.ParserOpExtract g) rp_ops e code = Some (e', inr STATE_HEADER_OPS_LINK_FAILED).
Proof.
  induction rp_ops as [|op rp_ops IH]; intros e code Hg Hr; [done|].
  destruct op as [h| | | | | | | | | |]; cbn [extracts omap list_omap] in *; try exact (IH e code Hg Hr).
  apply Forall_cons in Hr as [Hh Hr]. fold (extracts rp_ops) in *. cbn [forallb].
  pose proof Hg as [t Et]. destruct Hh as [rp_t Ert]. unfold types_match at 1. rewrite Et, Ert.
  cbn [merge_with get_parser_op_type is_extract_type op_type_value]. cbn [Z.ltb Z.compare andb].
  rewrite (bool_decide_false (op_type_value EXTRACT ≠ op_type_value EXTRACT)) by (intros H; by apply H).
  unfold link_extract_parser_op, link_extract_parser_op_regular. rewrite Et. cbn [mbind option_bind]. rewrite Ert. cbn [mbind option_bind].
  set (code' := get_header_type_mapping _ _ _ _). rewrite (bool_decide_false (h :: _ = [])) by done.
  destruct (decide (code' = HEADER_TYPE_DEF_MATCH)) as [E|E].
  - rewrite E. rewrite bool_decide_true by done. rewrite (bool_decide_false (_ ≠ _)) by (intros H; by apply H). cbn [andb foldl].
    specialize (IH (map_header g e h) HEADER_TYPE_DEF_MATCH Hg Hr).
    destruct (forallb _ _); [|exact IH]. unfold map_header in *. rewrite IH. by case_bool_decide.
  - rewrite (bool_decide_false (code' = _)) by done. cbn [andb]. rewrite bool_decide_true by done. by eexists.
Qed.

Lemma merge_loop_nil ops : ∀ e code, merge_loop types new_p rp ops [] e code = Some (e, code).
Proof. induction ops as [|op ops IH]; intros e code; [done|]. apply IH. Qed.

(** The operations of a state whose first operation extracts a header can be linked exactly when the type of the header is
    linked to the type of every header the running state extracts; the merged state then extracts the headers of the running state. The
    other operations of the state make no difference. *)
Theorem merge_ops_first g ops rp_ops e : known (header_maps new_p) g → Forall (known (header_maps rp)) (extracts rp_ops) →
  ∃ e' code, merge_parser_ops types new_p rp (Parser.ParserOpExtract g :: ops) rp_ops e = Some (e', code) ∧
  (code ≠ STATE_HEADER_OPS_LINK_FAILED ↔ ∀ h, h ∈ extracts rp_ops → types_match g h = true) ∧
  (code ≠ STATE_HEADER_OPS_LINK_FAILED →
     new_ops (new_parse_state e') = new_ops (new_parse_state e) ++ (Parser.ParserOpExtract <$> extracts rp_ops) ∧
     header_id_map e' = from_option (λ h, <[g := h]> (header_id_map e)) (header_id_map e) (last (extracts rp_ops))).
Proof.
  intros Hg Hr. pose proof (merge_with_spec g rp_ops e STATE_HEADER_OPS_LINKED Hg Hr) as Hs.
  unfold merge_parser_ops. cbn [merge_loop]. destruct (forallb (types_match g) (extracts rp_ops)) eqn:Ef.
  - rewrite Hs. cbn [mbind option_bind]. rewrite merge_loop_nil. eexists _, _. split; [done|]. split; [split|].
    + intros _ h Hh. rewrite forallb_forall in Ef. apply Ef. by apply list_elem_of_In.
    + intros _. by case_bool_decide.
    + intros _. clear. set (hs := extracts rp_ops). clearbody hs. revert e.
      induction hs as [|h hs IH] using rev_ind; intros e; [by rewrite app_nil_r|].
      rewrite foldl_app, fmap_app, last_snoc. destruct (IH e) as [E1 E2]. cbn. rewrite E1, <-app_assoc. split; [done|].
      rewrite E2. destruct (last hs); cbn; [by rewrite insert_insert_eq|done].
  - destruct Hs as [e' ->]. cbn [mbind option_bind]. eexists _, _. split; [done|]. split; [split; [done|]|done].
    intros Hall. assert (forallb (types_match g) (extracts rp_ops) = true); [|congruence]. apply forallb_forall. intros h Hh.
    apply Hall. by apply list_elem_of_In.
Qed.

(** Adding the operations of a state adds the first one, however long the loop is let run. *)
Lemma add_ops_first fuel header_id ops u e code : add_parser_ops types new_p (S fuel) (Parser.ParserOpExtract header_id :: ops) u e code =
  add_extract_parser_op_regular types new_p header_id u e.
Proof.
  cbn [add_parser_ops]. unfold add_extract_parser_op_regular.
  destruct (uid_table_link_opcode e); [done| |done].
  destruct (get_header_name _ _); [|done]. cbn [mbind option_bind]. destruct (get_header_type_of_header_id _ _); [|done].
  cbn [mbind option_bind]. by destruct (link_new_header_id _ _ _ _ _ _ _) as [[[u' c] id]|].
Qed.
End ops.

(** ** Keys *)

Definition field_entry (x : Parser.Entry) : option Parser.field_t := match x with Parser.FIELD f => Some f | _ => None end.

(** Two entries that the merged key keeps. *)
Definition same_entry (x : Parser.Entry * Z) (y : Parser.Entry * Z) : bool :=
  match x.1, y.1 with
  | Parser.FIELD f, Parser.FIELD g => bool_decide (x.2 = y.2) && bool_decide (Parser.f_offset f = Parser.f_offset g)
  | _, _ => false
  end.

Definition is_field (x : Parser.Entry) : bool := match x with Parser.FIELD _ => true | _ => false end.

Definition push_all (b : Parser.ParseSwitchKeyBuilder) (l : list (Parser.Entry * Z)) : Parser.ParseSwitchKeyBuilder :=
  {| Parser.entries := Parser.entries b ++ l.*1; Parser.bitwidths := Parser.bitwidths b ++ l.*2 |}.

Lemma match_fields_spec l : ∀ rp_l b, length l = length rp_l →
  let '(b', code) := match_fields l rp_l b in
  if forallb is_field l.*1 && forallb is_field rp_l.*1
  then code = STATE_PARSE_SWITCH_KEY_MATCH ∧ b' = push_all b (snd <$> filter (λ xy, same_entry xy.1 xy.2) (zip l rp_l))
  else code = STATE_PARSE_SWITCH_KEY_MATCH_FAILED.
Proof.
  induction l as [|[x w] l IH]; intros [|[y rw] rp_l] b Hlen; try done.
  - cbn. split; [done|]. unfold push_all. cbn. rewrite !app_nil_r. by destruct b.
  - destruct x as [f| | |]; [|by cbn..]. destruct y as [g| | |]; [|cbn; rewrite andb_false_r; done..].
    cbn [match_fields fmap list_fmap forallb is_field andb fst]. injection Hlen as Hlen.
    set (b1 := if (_ : bool) then _ else b). specialize (IH rp_l b1 Hlen). destruct (match_fields l rp_l b1) as [b' code].
    destruct (forallb is_field l.*1 && forallb is_field rp_l.*1); [|done]. destruct IH as [-> ->]. split; [done|].
    cbn [zip zip_with]. rewrite filter_cons. cbn [fst snd]. subst b1.
    change (same_entry (Parser.FIELD f, w) (Parser.FIELD g, rw)) with (bool_decide (w = rw) && bool_decide (Parser.f_offset f = Parser.f_offset g)).
    destruct (bool_decide (w = rw) && bool_decide (Parser.f_offset f = Parser.f_offset g)).
    + rewrite decide_True by done. unfold push_all, Parser.push_back_entry. cbn. by rewrite <-!app_assoc.
    + by rewrite decide_False by auto.
Qed.

Definition key_ok (b : Parser.ParseSwitchKeyBuilder) : Prop := length (Parser.entries b) = length (Parser.bitwidths b).

Definition key_entries (b : Parser.ParseSwitchKeyBuilder) : list (Parser.Entry * Z) := zip (Parser.entries b) (Parser.bitwidths b).

(** The entries at the same place. *)
Definition key_pairs (b rp_b : Parser.ParseSwitchKeyBuilder) : list ((Parser.Entry * Z) * (Parser.Entry * Z)) :=
  zip (key_entries b) (key_entries rp_b).

Lemma push_all_entries b l : b = push_all Parser.empty_builder l → key_entries b = l.
Proof. intros ->. unfold key_entries, push_all. cbn. apply zip_fst_snd. Qed.

Lemma push_entries b : key_ok b → push_all Parser.empty_builder (key_entries b) = b.
Proof. intros Hb. unfold push_all, key_entries, key_ok in *. cbn. rewrite fst_zip, snd_zip by lia. by destruct b. Qed.

(** The keys of two states that both have one are linked when they have as many entries, all of them fields, even if the fields
    differ. The merged key has the entries of the running state at the places where width and offset agree, so it is the key of the running
    state only if they agree everywhere, and otherwise it is shorter than both. *)
Theorem link_key_fields b rp_b e : key_ok b → key_ok rp_b → Parser.entries b ≠ [] → Parser.entries rp_b ≠ [] →
  ∃ b' code, link_parse_switch_key b rp_b e = Some (b', code) ∧
  (code = STATE_PARSE_SWITCH_KEY_MATCH ↔ length (Parser.entries b) = length (Parser.entries rp_b) ∧
     forallb is_field (Parser.entries b) = true ∧ forallb is_field (Parser.entries rp_b) = true) ∧
  (code = STATE_PARSE_SWITCH_KEY_MATCH →
     key_entries b' = snd <$> filter (λ xy : (Parser.Entry * Z) * (Parser.Entry * Z), same_entry xy.1 xy.2) (key_pairs b rp_b) ∧
     (b' = rp_b ↔ Forall (λ xy : (Parser.Entry * Z) * (Parser.Entry * Z), same_entry xy.1 xy.2) (key_pairs b rp_b))).
Proof.
  intros Hb Hrb Hn Hrn. unfold link_parse_switch_key. rewrite !bool_decide_false by done. cbn [orb].
  destruct (decide (length (Parser.entries b) = length (Parser.entries rp_b))) as [El|El]; cycle 1.
  { rewrite bool_decide_true by done. eexists _, _. split; [done|]. split; [|done]. split; [done|]. by intros [? _]. }
  rewrite bool_decide_false by tauto. fold (key_entries b) (key_entries rp_b).
  unfold key_ok in Hb, Hrb.
  assert (length (key_entries b) = length (key_entries rp_b)) as Hlen.
  { unfold key_entries. rewrite !length_zip_with. lia. }
  pose proof (match_fields_spec (key_entries b) (key_entries rp_b) Parser.empty_builder Hlen) as Hm.
  unfold key_entries in Hm at 3 4. rewrite !fst_zip in Hm by lia.
  destruct (match_fields (key_entries b) (key_entries rp_b) Parser.empty_builder) as [b' code]. eexists _, _. split; [done|].
  destruct (forallb is_field (Parser.entries b)), (forallb is_field (Parser.entries rp_b)); cbn [andb] in Hm;
    try (subst code; split; [split; [done|naive_solver]|done]).
  destruct Hm as [-> ->]. split; [done|]. intros _. split; [by apply push_all_entries|]. fold (key_pairs b rp_b).
  set (P := λ xy : (Parser.Entry * Z) * (Parser.Entry * Z), same_entry xy.1 xy.2).
  assert (snd <$> key_pairs b rp_b = key_entries rp_b) as Esnd by (unfold key_pairs; apply snd_zip; lia). split.
  - intros E. symmetry in E. apply push_all_entries in E. apply Forall_forall. intros x Hx.
    destruct (decide (P x)) as [|HP]; [done|]. pose proof (length_filter_lt P (key_pairs b rp_b) x Hx HP) as Hlt.
    apply (f_equal length) in E. rewrite <-Esnd in E. rewrite !length_fmap in E. unfold P in *. lia.
  - intros Hall. subst P.
    assert (filter (λ xy : (Parser.Entry * Z) * (Parser.Entry * Z), same_entry xy.1 xy.2) (key_pairs b rp_b) = key_pairs b rp_b) as ->.
    { clear -Hall. induction Hall as [|x l Hx _ IH]; [done|]. rewrite filter_cons, decide_True by done. by f_equal. }
    rewrite Esnd. by apply push_entries.
Qed.

(** ** Fresh merged states *)

(** The cases are still to be united. *)
Definition fresh e : Prop := has_switch_case_merged e = false ∧ new_switch (new_parse_state e) = [].

Section matching.
Context (types : HeaderTypeUIDTable) (new_p rp : P4ObjectsLinkerExt).

Lemma merge_with_fresh op rp_ops : ∀ e code e' r, fresh e → merge_with types new_p rp op rp_ops e code = Some (e', r) → fresh e'.
Proof.
  induction rp_ops as [|rp_op rp_ops IH]; intros e code e' r Hf; cbn [merge_with]; [by intros [= <- <-]|].
  destruct (_ && _); [|by apply IH]. case_bool_decide; [by intros [= <- <-]|].
  destruct (link_extract_parser_op _ _ _ _ _ _ _) as [[e1 code1]|] eqn:E; cbn [mbind option_bind]; [|done].
  assert (fresh e1) as Hf1.
  { revert E. unfold link_extract_parser_op, link_extract_parser_op_regular. destruct (get_parser_op_type rp_op); try by intros [= <- <-].
    destruct op, rp_op; try by intros [= <- <-].
    destruct (get_header_type_of_header_id (header_maps new_p) _); cbn [mbind option_bind]; [|done].
    destruct (get_header_type_of_header_id (header_maps rp) _); cbn [mbind option_bind]; [|done].
    intros [= <- _]. by case_bool_decide. }
  case_bool_decide; [by intros [= <- <-]|by apply IH].
Qed.

Lemma merge_loop_fresh ops : ∀ rp_ops e code e' r, fresh e → merge_loop types new_p rp ops rp_ops e code = Some (e', r) → fresh e'.
Proof.
  induction ops as [|op ops IH]; intros rp_ops e code e' r Hf; cbn [merge_loop]; [by intros [= <- <-]|].
  destruct (merge_with _ _ _ _ _ _ _) as [[e1 [c|c]]|] eqn:E; cbn [mbind option_bind]; [| |done].
  - apply IH. by eapply merge_with_fresh.
  - intros [= <- <-]. by eapply merge_with_fresh.
Qed.

Lemma can_link_fresh ps rp_ps u e u' e' code : fresh e → can_link_parser_states types new_p rp ps rp_ps u e = Some (u', e', code) → fresh e'.
Proof.
  intros Hf. unfold can_link_parser_states, merge_parser_ops.
  destruct (merge_loop _ _ _ _ _ _ _) as [[e1 c1]|] eqn:E; cbn [mbind option_bind]; [|done]. apply merge_loop_fresh in E; [|done].
  case_bool_decide; [by intros [= _ <- _]|]. destruct (link_parse_switch_key _ _ _) as [[b c2]|]; cbn [mbind option_bind]; [|done].
  case_bool_decide; by intros [= _ <- _].
Qed.

Lemma add_state_fresh ps u e u' e' code : fresh e → add_parser_state types new_p ps u e = Some (u', e', code) → fresh e'.
Proof.
  intros Hf. unfold add_parser_state. destruct (Parser.parser_ops ps) as [|op ops]; [by intros [= _ <- _]|].
  destruct op as [h| | | | | | | | | |]; try by intros [= _ <- _]. rewrite add_ops_first. unfold add_extract_parser_op_regular.
  destruct (uid_table_link_opcode e); try by intros [= _ <- _].
  destruct (get_header_name _ _); cbn [mbind option_bind]; [|done]. destruct (get_header_type_of_header_id _ _); [|done].
  cbn [mbind option_bind]. destruct (link_new_header_id _ _ _ _ _ _ _) as [[[u1 c] id]|]; cbn [mbind option_bind]; [|done]. by intros [= _ <- _].
Qed.

Lemma find_match_spec rp_s states : ∀ flags i0 u i s e u', find_match types new_p rp rp_s states flags i0 u = Some (Some (i, s, e, u')) →
  ∃ k, i = (i0 + k)%nat ∧ states !! k = Some s ∧ flags !! k = Some false ∧ fresh e.
Proof.
  induction states as [|s states IH]; intros [|[] flags] i0 u i s' e u'; cbn [find_match]; try done.
  - intros (k & -> & H)%IH. exists (S k). split; [lia|done].
  - destruct (can_link_parser_states _ _ _ _ _ _ _) as [[[u1 e1] c]|] eqn:E; cbn [mbind option_bind]; [|done]. case_bool_decide.
    + intros [= <- <- <- _]. exists 0%nat. split; [lia|]. split; [done|]. split; [done|]. eapply can_link_fresh; [|done]. done.
    + intros (k & -> & H')%IH. exists (S k). split; [lia|done].
Qed.

(** ** Where the states end up *)

Context (states : list NamedState).

Notation p_name := (p4_program_name new_p).
Notation table_of := parse_state_link_table.

Definition qualified (name : string) : string := (p_name ++ "." ++ name)%string.

(** What holds while states are matched: [flags] tells which states are linked already, [names] are the linker names they may
    have. *)
Record map_inv (names : gset string) (flags : list bool) (L : Linking) : Prop := {
  mi_consistent : consistent (table_of L);
  mi_flags : length flags = length states;
  mi_linked : ∀ i s, states !! i = Some s → flags !! i = Some true →
    ∃ t, linked (table_of L) p_name (state_name s) = Some (t, STATE_MATCHED) ∧ is_Some (linked_parse_state L !! t);
  mi_unlinked : ∀ i s, states !! i = Some s → flags !! i = Some false → linked (table_of L) p_name (state_name s) = None;
  mi_names : get_all_linker_uids (table_of L) ⊆ names;
  mi_fresh : map_Forall (λ _, fresh) (linked_parse_state L);
}.

(** Linking the state [i] to [t], the name of the merged state [e]. *)
Lemma map_inv_link names flags L i s t e u id : NoDup (state_name <$> states) → map_inv names flags L →
  states !! i = Some s → flags !! i = Some false → fresh e → t ∈ names →
  let r := set_parse_states_link_code (table_of L) (state_name s) t p_name STATE_MATCHED in
  map_inv names (<[i := true]> flags)
    {| last_state_id := id; parse_state_link_table := r.1; header_uid_table := u; linked_parse_state := <[t := e]> (linked_parse_state L) |}.
Proof.
  intros Hnd Hi Es Ef He Ht. cbv zeta. unfold set_parse_states_link_code.
  pose proof (insert_spec (table_of L) p_name (state_name s) t STATE_MATCHED (mi_consistent _ _ _ Hi)) as Hs.
  rewrite (mi_unlinked _ _ _ Hi i s Es Ef) in Hs. destruct Hs as (t' & -> & Hc & Hl & Hu). cbn [fst].
  assert (∀ j s', states !! j = Some s' → fqn_of p_name (state_name s') = fqn_of p_name (state_name s) ↔ j = i) as Hj.
  { intros j s' Es'. split; [|intros ->; congruence]. intros E%fqn_inj_r. eapply NoDup_lookup; [done|..]; rewrite list_lookup_fmap.
    - by rewrite Es'.
    - rewrite Es. cbn. congruence. }
  split; cbn; [done|by rewrite length_insert; apply Hi| | | |].
  - intros j s' Es' Efl. rewrite Hl. destruct (decide (j = i)) as [->|Hne].
    + rewrite decide_True by (by apply (Hj i)). exists t. by rewrite lookup_insert_eq.
    + rewrite decide_False by (by rewrite Hj). rewrite list_lookup_insert_ne in Efl by done.
      destruct (mi_linked _ _ _ Hi j s' Es' Efl) as (t1 & E1 & H1). exists t1. split; [done|].
      destruct (decide (t1 = t)) as [->|]; [by rewrite lookup_insert_eq|by rewrite lookup_insert_ne].
  - intros j s' Es' Efl. destruct (decide (j = i)) as [->|Hne].
    + rewrite list_lookup_insert_eq in Efl; [done|by eapply lookup_lt_Some].
    + rewrite list_lookup_insert_ne in Efl by done. rewrite Hl, decide_False by (by rewrite Hj). by apply (mi_unlinked _ _ _ Hi j).
  - rewrite Hu. pose proof (mi_names _ _ _ Hi). set_solver.
  - apply map_Forall_insert_2; [done|apply Hi].
Qed.

(** Adding a merged state that no state is linked to. *)
Lemma map_inv_add names flags L t e u id : map_inv names flags L → fresh e →
  map_inv names flags {| last_state_id := id; parse_state_link_table := table_of L; header_uid_table := u;
                         linked_parse_state := <[t := e]> (linked_parse_state L) |}.
Proof.
  intros Hi He. split; cbn; try apply Hi.
  - intros j s' Es' Efl. destruct (mi_linked _ _ _ Hi j s' Es' Efl) as (t1 & E1 & H1). exists t1. split; [done|].
    destruct (decide (t1 = t)) as [->|]; [by rewrite lookup_insert_eq|by rewrite lookup_insert_ne].
  - apply map_Forall_insert_2; [done|apply Hi].
Qed.

Lemma map_running_inv names rp_states : NoDup (state_name <$> states) → (∀ r, r ∈ rp_states → state_name r ∈ names) →
  ∀ flags L L' flags', map_inv names flags L → map_running types new_p rp rp_states states flags L = Some (L', flags') →
  map_inv names flags' L' ∧ (∀ t, is_Some (linked_parse_state L !! t) → is_Some (linked_parse_state L' !! t)) ∧
  (∀ r, r ∈ rp_states → is_Some (linked_parse_state L' !! state_name r)).
Proof.
  intros Hnd. induction rp_states as [|r rp_states IH]; intros Hn flags L L' flags' Hi; cbn [map_running].
  { intros [= <- <-]. split_and!; [done|done|by intros r ?%elem_of_nil]. }
  assert (∀ r, r ∈ rp_states → state_name r ∈ names) as Hn' by (intros r' Hr'; apply Hn; by right).
  assert (∀ L1 flags1 e, map_inv names flags1 L1 → linked_parse_state L1 = <[state_name r := e]> (linked_parse_state L) →
    map_running types new_p rp rp_states states flags1 L1 = Some (L', flags') →
    map_inv names flags' L' ∧ (∀ t, is_Some (linked_parse_state L !! t) → is_Some (linked_parse_state L' !! t)) ∧
    (∀ r', r' ∈ r :: rp_states → is_Some (linked_parse_state L' !! state_name r'))) as Hnext.
  { intros L1 flags1 e Hi1 El E. destruct (IH Hn' flags1 L1 L' flags' Hi1 E) as (H1 & H2 & H3). rewrite El in H2. split; [done|].
    split; [|intros r' [->|Hr']%elem_of_cons; [|by apply H3]].
    - intros t Ht. apply H2. destruct (decide (t = state_name r)) as [->|]; [by rewrite lookup_insert_eq|by rewrite lookup_insert_ne].
    - apply H2. by rewrite lookup_insert_eq. }
  destruct (find_match _ _ _ _ _ _ _ _) as [[[[[i s] e] u]|]|] eqn:Ef; cbn [mbind option_bind]; [| |done].
  - apply find_match_spec in Ef as (k & -> & Es & Efl & He). cbn [Nat.add].
    pose proof (map_inv_link names flags L k s (state_name r) e u (last_state_id L) Hnd Hi Es Efl He) as Hl.
    destruct (set_parse_states_link_code _ _ _ _ _) as [table c]. apply (Hnext _ _ e); [|done]. apply Hl, Hn. left.
  - destruct (add_parser_state _ _ _ _ _) as [[[u e] c]|] eqn:Ea; cbn [mbind option_bind]; [|done].
    apply (Hnext _ _ e); [|done]. apply map_inv_add; [done|]. eapply add_state_fresh; [|done]. done.
Qed.

(** The remaining states, from [k] on. *)
Lemma add_remaining_inv names : NoDup (state_name <$> states) →
  (∀ s, s ∈ states → qualified (state_name s) ∈ names ∧ state_name s ∉ names) →
  ∀ l k flags L L', drop k states = l → map_inv names flags L → (∀ j, (j < k)%nat → (j < length states)%nat → flags !! j = Some true) →
  add_remaining types new_p l (drop k flags) L = Some L' →
  (∃ flags', map_inv names flags' L' ∧ ∀ j, (j < length states)%nat → flags' !! j = Some true) ∧
  ∀ t, is_Some (linked_parse_state L !! t) → is_Some (linked_parse_state L' !! t).
Proof.
  intros Hnd Hn. induction l as [|s l IH]; intros k flags L L' Hd Hi Hk.
  { assert (length states ≤ k)%nat by (apply (f_equal length) in Hd; rewrite length_drop in Hd; cbn in Hd; lia).
    cbn [add_remaining]. intros [= <-]. split; [|done]. exists flags. split; [done|]. intros j Hj. apply Hk; lia. }
  assert (states !! k = Some s) as Es by (rewrite <-(Nat.add_0_r k), <-lookup_drop, Hd; done).
  assert (drop (S k) states = l) as Hd' by (by rewrite <-Nat.add_1_r, <-drop_drop, Hd).
  pose proof (mi_flags _ _ _ Hi) as Hlen. pose proof (lookup_lt_Some _ _ _ Es) as Hlt.
  destruct (flags !! k) as [b|] eqn:Efl; [|apply lookup_ge_None in Efl; lia].
  rewrite (drop_S flags b k Efl). destruct b; cbn [add_remaining].
  { apply IH; [done|done|]. intros j Hj Hj'. destruct (decide (j = k)) as [->|]; [done|]. apply Hk; lia. }
  destruct (add_parser_state _ _ _ _ _) as [[[u e] c]|] eqn:Ea; cbn [mbind option_bind]; [|done].
  apply add_state_fresh in Ea; [|done]. destruct (Hn s) as [Hq Hf]; [by eapply list_elem_of_lookup_2|].
  unfold add_parse_state_link. rewrite bool_decide_false by (intros ?%(mi_names _ _ _ Hi); done).
  pose proof (map_inv_link names flags L k s (qualified (state_name s)) e u (last_state_id L + 1) Hnd Hi Es Efl Ea Hq) as Hl.
  cbv zeta in Hl. intros E. replace (drop (S k) flags) with (drop (S k) (<[k := true]> flags)) in E by (apply drop_insert_lt; lia).
  destruct (IH (S k) _ _ L' Hd' Hl) as [H1 H2]; [|exact E|].
  - intros j Hj Hj'. destruct (decide (j = k)) as [->|]; [apply list_lookup_insert_eq; lia|]. rewrite list_lookup_insert_ne by done. apply Hk; lia.
  - split; [done|]. intros t Ht. apply H2. cbn. destruct (decide (t = qualified (state_name s))) as [->|Hne].
    + by rewrite lookup_insert_eq.
    + by rewrite lookup_insert_ne.
Qed.

(** C35: once the states of a new program are matched, each of them is linked to a merged state, each running state has a merged state
    of its name, and no merged state has cases yet, provided that the program is new and its states have names that no linker
    state has. *)
Theorem mapped_states rp_states L0 L code : consistent (table_of L0) → NoDup (state_name <$> states) → linked_parse_state L0 = ∅ →
  (∀ s, s ∈ states → linked (table_of L0) p_name (state_name s) = None ∧ state_name s ∉ get_all_linker_uids (table_of L0) ∧
     state_name s ∉ state_name <$> rp_states ∧ state_name s ∉ qualified ∘ state_name <$> states) →
  map_ordered_parser_states types new_p rp states rp_states L0 = Some (L, code) →
  code = STATE_MATCHED ∧ consistent (table_of L) ∧
  (∀ s, s ∈ states → ∃ t, get_parse_state_link (table_of L) (state_name s) p_name = (STATE_MATCHED, Some t) ∧
     is_Some (linked_parse_state L !! t)) ∧
  (∀ r, r ∈ rp_states → is_Some (linked_parse_state L !! state_name r)) ∧
  map_Forall (λ _, fresh) (linked_parse_state L).
Proof.
  intros Hc Hnd Hm Hs. unfold map_ordered_parser_states.
  set (names := get_all_linker_uids (table_of L0) ∪ list_to_set (state_name <$> rp_states) ∪ list_to_set (qualified ∘ state_name <$> states) : gset string).
  destruct (map_running _ _ _ _ _ _ _) as [[L1 flags]|] eqn:E1; cbn [mbind option_bind]; [|done].
  destruct (add_remaining _ _ _ _ _) as [L2|] eqn:E2; cbn [mbind option_bind]; [|done]. intros [= <- <-].
  destruct (map_running_inv names rp_states Hnd) with (3 := E1) as (Hi1 & _ & Hr1).
  { intros r Hr. unfold names. rewrite !elem_of_union, elem_of_list_to_set. left. right. by apply list_elem_of_fmap_2. }
  { split; [done|apply length_replicate| | |unfold names; set_solver|rewrite Hm; apply map_Forall_empty].
    - intros i s _ Hf. apply lookup_replicate_1 in Hf as [? _]. done.
    - intros i s Es _. apply Hs. by eapply list_elem_of_lookup_2. }
  destruct (add_remaining_inv names Hnd) with (l := states) (k := 0%nat) (flags := flags) (L := L1) (L' := L2)
    as [(flags' & Hi2 & Hf2) Hmono].
  { intros s Hin. destruct (Hs s Hin) as (_ & H1 & H2 & H3). unfold names. rewrite !elem_of_union, !elem_of_list_to_set. split; [|tauto].
    right. apply list_elem_of_fmap. by exists s. }
  { done. }
  { done. }
  { intros j ?. lia. }
  { done. }
  split; [done|]. split; [apply Hi2|]. split; [|split; [|apply Hi2]].
  - intros s [i Es]%list_elem_of_lookup. destruct (mi_linked _ _ _ Hi2 i s Es) as (t & El & Ht); [apply Hf2; by eapply lookup_lt_Some|].
    exists t. split; [|done]. revert El. unfold linked, get_parse_state_link, get_p4object_link.
    destruct (fqn_to_linker_p4object_uid_map (table_of L2) !! _) as [x|]; [|done].
    cbn. by intros [= <- ->].
  - intros r Hr. by apply Hmono, Hr1.
Qed.
End matching.
End LinkStates.
