(* ===== verification/LinkCases.v ===== *)
(** * Uniting the switch cases of two parsers

    What [merge_parser_states_switch_cases] of [LinkParsers.v] computes when the
    states of both programs are matched consistently and the merged parser has no
    cycle: it ends, and a merged state goes where the state of the new program goes,
    and on the other keys where the running state goes. A cycle makes it recurse for
    ever, and a merged state that is first reached from the new program only
    loses the cases of the running one. *)

From stdpp Require Import gmap strings.
From S2P Require Import Prelude Data Extract Fields Headers Parser LinkTable LinkHeaders ParserOrder LinkParsers.
Import LinkTable ParserOrder LinkParsers.

Module LinkCases.

Implicit Types (m : gmap string ParseStateExt) (e : ParseStateExt) (k : list Z).

(** The map of the cases has cases only. *)
Lemma switch_map_elem sw k ptr : get_switch_case_hexstr_key_state_map sw !! k = Some ptr → Parser.SwitchCase k ptr ∈ sw.
Proof.
  unfold get_switch_case_hexstr_key_state_map. induction sw as [|c sw IH] using rev_ind; [cbn; by rewrite lookup_empty|].
  rewrite foldl_app, elem_of_app. cbn [foldl]. set (M := foldl _ _ sw) in *. destruct c as [k' n|k' m n|v sh n]; try (left; by apply IH).
  destruct (M !! k') eqn:E; [left; by apply IH|]. rewrite lookup_insert_Some. intros [[-> ->]|[_ H]]; [right; by left|left; by apply IH].
Qed.

Section merge.
Context (iterate : gmap (list Z) (option nat) → list (list Z * option nat)).
Context (states rp_states : list NamedState) (table : Table string) (p_name : string).

(** The merged state of a state of the new program, and of a running state. *)
Definition link (i : nat) : option string :=
  s ← states !! i;
  match get_parse_state_link table (state_name s) p_name with
  | (STATE_MATCHED, Some l) => Some l
  | _ => None
  end.

Definition rp_link (j : nat) : option string := state_name <$> rp_states !! j.

(** The cases as keys and merged states. *)
Definition new_targets (cases : list Parser.ParseSwitchCase) : list (list Z * string) :=
  omap (λ c, match c with Parser.SwitchCase k (Some i) => t ← link i; Some (k, t) | _ => None end) cases.

Definition rp_targets (l : list (list Z * option nat)) : list (list Z * string) :=
  omap (λ c, j ← c.2; t ← rp_link j; Some (c.1, t)) l.

Definition case_key (c : Parser.ParseSwitchCase) : list Z :=
  match c with Parser.SwitchCase k _ | Parser.SwitchCaseWithMask k _ _ => k | _ => [] end.

Definition rest_cases (cases : list Parser.ParseSwitchCase) (rp_map : gmap (list Z) (option nat)) : gmap (list Z) (option nat) :=
  foldl (λ rp_map c, delete (case_key c) rp_map) rp_map cases.

(** What is added to the merged state. *)
Definition united (ps_cases rp_switch : list Parser.ParseSwitchCase) : list (list Z * string) :=
  new_targets ps_cases ++ rp_targets (iterate (rest_cases ps_cases (get_switch_case_hexstr_key_state_map rp_switch))).

Definition add_cases e (l : list (list Z * string)) : ParseStateExt := foldl (λ e c, add_switch_case e c.1 c.2) e l.

(** The states that may be merged into a state: the new one is linked to it and the running one has its name. *)
Record pair_ok (ps rp : option nat) (key : string) : Prop := {
  pair_new : ∀ i, ps = Some i → link i = Some key;
  pair_running : ∀ j, rp = Some j → rp_link j = Some key;
}.

(** The running state for a case of the new one: none when a case of the same key came before it. *)
Definition running_next (before : list Parser.ParseSwitchCase) (rp_switch : list Parser.ParseSwitchCase) k : option nat :=
  if decide (k ∈ case_key <$> before) then None else default None (get_switch_case_hexstr_key_state_map rp_switch !! k).

(** The pairs that follow from one: the states that both go to on a key of the new one, and the states that the running one goes to
    on the other keys. *)
Inductive called (ps0 rp0 : option nat) (key0 : string) : option nat → option nat → string → Prop :=
  | called_first : called ps0 rp0 key0 ps0 rp0 key0
  | called_new ps rp key before k i' after rp_switch t : called ps0 rp0 key0 ps rp key →
      cases_of_ptr states ps = Some (before ++ Parser.SwitchCase k (Some i') :: after) → cases_of_ptr rp_states rp = Some rp_switch →
      link i' = Some t → called ps0 rp0 key0 (Some i') (running_next before rp_switch k) t
  | called_running ps rp key ps_cases rp_switch k j' t : called ps0 rp0 key0 ps rp key →
      cases_of_ptr states ps = Some ps_cases → cases_of_ptr rp_states rp = Some rp_switch → k ∉ case_key <$> ps_cases →
      get_switch_case_hexstr_key_state_map rp_switch !! k = Some (Some j') → rp_link j' = Some t → called ps0 rp0 key0 None (Some j') t.

(** A state that is merged; all states that merged cases lead to are. *)
Definition merged_in m (t : string) : Prop := ∃ e, m !! t = Some e ∧ has_switch_case_merged e = true.
Definition closed m : Prop := ∀ key e c, m !! key = Some e → c ∈ new_switch (new_parse_state e) → merged_in m c.2.

(** The cases are cases without masks that lead to states with a merged state of lower rank, and where both states of a pair have a
    case for a key, the states that they lead to are a pair. *)
Record linkable (m0 : gmap string ParseStateExt) (rank : string → nat) : Prop := {
  l_new : ∀ i s key c, states !! i = Some s → link i = Some key → c ∈ Parser.parser_switch (state s) →
    ∃ k i' t, c = Parser.SwitchCase k (Some i') ∧ link i' = Some t ∧ (rank t < rank key)%nat;
  l_running : ∀ j s k ptr, rp_states !! j = Some s → get_switch_case_hexstr_key_state_map (Parser.parser_switch (state s)) !! k = Some ptr →
    ∃ j' t, ptr = Some j' ∧ rp_link j' = Some t ∧ (rank t < rank (state_name s))%nat;
  l_agree : ∀ i j s r key k i' j', pair_ok (Some i) (Some j) key → states !! i = Some s → rp_states !! j = Some r →
    Parser.SwitchCase k (Some i') ∈ Parser.parser_switch (state s) →
    get_switch_case_hexstr_key_state_map (Parser.parser_switch (state r)) !! k = Some (Some j') → link i' = rp_link j';
  l_new_merged : ∀ i t, link i = Some t → is_Some (m0 !! t);
  l_running_merged : ∀ j t, rp_link j = Some t → is_Some (m0 !! t);
}.

Context (Hiter : ∀ rp_map, iterate rp_map ≡ₚ map_to_list rp_map).

Abbreviation merge_cases := (merge_parser_states_switch_cases iterate states rp_states table p_name).

Section calls.
Context (ps0 rp0 : option nat) (key0 : string).
Abbreviation called := (called ps0 rp0 key0).

(** What merging does: a state is left as it is or gets the cases of one pair, and is marked. *)
Definition changed m m' (key : string) : Prop := ∃ e ps rp ps_cases rp_switch,
  m !! key = Some e ∧ has_switch_case_merged e = false ∧ (pair_ok ps rp key ∧ called ps rp key) ∧
  cases_of_ptr states ps = Some ps_cases ∧ cases_of_ptr rp_states rp = Some rp_switch ∧
  m' !! key = Some (switch_case_merged (add_cases e (united ps_cases rp_switch)) true).

Definition frame m m' : Prop := ∀ key, m' !! key = m !! key ∨ changed m m' key.

Lemma link_code i s t r : states !! i = Some s → link i = Some t →
  get_parse_states_link_code table (state_name s) r p_name = STATE_MATCHED ↔ r = t.
Proof.
  unfold link. intros ->. cbn [mbind option_bind]. unfold get_parse_state_link, get_p4object_link, get_parse_states_link_code, get_p4objects_link_state.
  destruct (fqn_to_linker_p4object_uid_map table !! fqn_of p_name (state_name s)) as [x|]; [|done]. cbn.
  destruct (link_state x) eqn:El; try done. intros [= <-]. case_bool_decide; naive_solver.
Qed.

(** ** Frames *)

(** The states other than [key]. *)
Definition frame_but (key : string) m m' : Prop := ∀ key', key' ≠ key → m' !! key' = m !! key' ∨ changed m m' key'.

Lemma changed_some m m' key : changed m m' key → is_Some (m !! key) ∧ is_Some (m' !! key).
Proof. intros (e & ps & rp & c & r & -> & _ & _ & _ & _ & ->). done. Qed.

Lemma frame_some m m' key : frame m m' → is_Some (m !! key) → is_Some (m' !! key).
Proof. intros Hf. destruct (Hf key) as [->|Hc%changed_some]; tauto. Qed.

Lemma changed_trans m1 m2 m3 key : (m2 !! key = m1 !! key ∨ changed m1 m2 key) → (m3 !! key = m2 !! key ∨ changed m2 m3 key) →
  m3 !! key = m1 !! key ∨ changed m1 m3 key.
Proof.
  intros [E|(e & ps & rp & c & r & H1 & H2 & H3 & H4 & H5 & H6)] [E'|(e' & ps' & rp' & c' & r' & H1' & H2' & H3' & H4' & H5' & H6')].
  - left. congruence.
  - right. exists e', ps', rp', c', r'. split_and!; first [congruence|apply H3'|done].
  - right. exists e, ps, rp, c, r. split_and!; first [congruence|apply H3|done].
  - rewrite H6 in H1'. injection H1' as <-. done.
Qed.

Lemma merged_frame m m' t : frame m m' → merged_in m t → merged_in m' t.
Proof.
  intros Hf (e & He & Hm). destruct (Hf t) as [E|(e' & ps & rp & c & r & He' & Hm' & _)]; [exists e; by rewrite E|congruence].
Qed.

Lemma merged_insert m key e e' t : m !! key = Some e → (has_switch_case_merged e = true → has_switch_case_merged e' = true) →
  merged_in m t → merged_in (<[key := e']> m) t.
Proof.
  intros He Hm (e1 & H1 & H2). destruct (decide (t = key)) as [->|Hne].
  - exists e'. rewrite lookup_insert_eq. split; [done|]. apply Hm. congruence.
  - exists e1. by rewrite lookup_insert_ne.
Qed.

Lemma closed_insert m key e e' : closed m → m !! key = Some e → (has_switch_case_merged e = true → has_switch_case_merged e' = true) →
  (∀ c, c ∈ new_switch (new_parse_state e') → merged_in m c.2) → closed (<[key := e']> m).
Proof.
  intros Hc He Hm Hs key1 e1 c H1 Hin. eapply merged_insert; [done..|]. destruct (decide (key1 = key)) as [->|Hne].
  - rewrite lookup_insert_eq in H1. injection H1 as <-. by apply Hs.
  - rewrite lookup_insert_ne in H1 by done. by eapply Hc.
Qed.

Lemma frame_but_trans key m1 m2 m3 : frame_but key m1 m2 → frame_but key m2 m3 → frame_but key m1 m3.
Proof. intros H1 H2 key' Hne. eapply changed_trans; eauto. Qed.

Lemma frame_but_insert key m e : frame_but key m (<[key := e]> m).
Proof. intros key' Hne. left. by rewrite lookup_insert_ne. Qed.

Lemma frame_frame_but key m m' : frame m m' → frame_but key m m'.
Proof. intros Hf key' _. apply Hf. Qed.

(** ** The loops *)

Section loops.
Context (m0 : gmap string ParseStateExt) (rank : string → nat) (Hl : linkable m0 rank).
Context (merge : Merge) (key : string).

(** What the recursive calls do. *)
Context (Hmerge : ∀ ps rp t m, pair_ok ps rp t → called ps rp t → (rank t < rank key)%nat → (∀ t, is_Some (m0 !! t) → is_Some (m !! t)) →
  is_Some (m0 !! t) → closed m →
  ∃ m', merge ps rp t m = Done (m', STATE_LINKED) ∧ frame m m' ∧ (∀ key', (rank key ≤ rank key')%nat → m' !! key' = m !! key') ∧
  closed m' ∧ merged_in m' t).

(** A step of a loop: a recursive call, then a case. *)
Lemma loop_step ps rp t m e k : pair_ok ps rp t → called ps rp t → (rank t < rank key)%nat → (∀ t, is_Some (m0 !! t) → is_Some (m !! t)) →
  is_Some (m0 !! t) → m !! key = Some e → closed m →
  ∃ m1, merge ps rp t m = Done (m1, STATE_LINKED) ∧ m1 !! key = Some e ∧
  let m2 := <[key := add_switch_case e k t]> m1 in
  frame_but key m m2 ∧ (∀ t, is_Some (m0 !! t) → is_Some (m2 !! t)) ∧
  (∀ key', key' ≠ key → (rank key ≤ rank key')%nat → m2 !! key' = m !! key') ∧ closed m2.
Proof.
  intros Hp Hca Hr Hs Ht He Hcl. destruct (Hmerge ps rp t m Hp Hca Hr Hs Ht Hcl) as (m1 & E & Hf & Hsame & Hcl1 & Hmt). exists m1.
  assert (m1 !! key = Some e) as He1 by (by rewrite Hsame). split; [done|].
  split; [done|]. cbv zeta. split_and!.
  - eapply frame_but_trans; [by apply frame_frame_but|apply frame_but_insert].
  - intros t' Ht'. destruct (decide (t' = key)) as [->|Hne]; [by rewrite lookup_insert_eq|]. rewrite lookup_insert_ne by done.
    eapply frame_some; eauto.
  - intros key' Hne Hk. rewrite lookup_insert_ne by done. by apply Hsame.
  - eapply closed_insert; [done|exact He1|done|]. intros c. cbn. rewrite elem_of_app, list_elem_of_singleton. intros [Hin| ->]; [by eapply Hcl1|done].
Qed.

Lemma new_cases_ok cases : ∀ rp_map m e, m !! key = Some e → (∀ t, is_Some (m0 !! t) → is_Some (m !! t)) →
  (∀ c, c ∈ cases → ∃ k i t, c = Parser.SwitchCase k (Some i) ∧ link i = Some t ∧ (rank t < rank key)%nat) →
  (∀ k ptr, rp_map !! k = Some ptr → ∃ j t, ptr = Some j ∧ rp_link j = Some t ∧ (rank t < rank key)%nat) →
  (∀ k i j, Parser.SwitchCase k (Some i) ∈ cases → rp_map !! k = Some (Some j) → link i = rp_link j) →
  (∀ before k i after t, cases = before ++ Parser.SwitchCase k (Some i) :: after → link i = Some t →
    called (Some i) (if decide (k ∈ case_key <$> before) then None else default None (rp_map !! k)) t) → closed m →
  ∃ m', new_cases states rp_states table p_name merge key cases rp_map m = Done (m', inl (rest_cases cases rp_map)) ∧
  m' !! key = Some (add_cases e (new_targets cases)) ∧ frame_but key m m' ∧ (∀ t, is_Some (m0 !! t) → is_Some (m' !! t)) ∧
  (∀ key', key' ≠ key → (rank key ≤ rank key')%nat → m' !! key' = m !! key') ∧ closed m'.
Proof.
  induction cases as [|c cases IH]; intros rp_map m e He Hs Hc Hr Ha Hca Hcl.
  { exists m. split_and!; [done|done|by left|done|done|done]. }
  destruct (Hc c) as (k & i & t & -> & Hi & Ht); [left|]. cbn [new_cases].
  assert (∃ s, states !! i = Some s ∧ get_parse_state_link table (state_name s) p_name = (STATE_MATCHED, Some t)) as (s & Es & El).
  { revert Hi. unfold link. destruct (states !! i) as [s|]; [|done]. cbn. intros Hi. exists s. split; [done|].
    destruct (get_parse_state_link _ _ _) as [[] [l|]]; congruence. }
  assert (∃ rp, default None (rp_map !! k) = rp ∧ pair_ok (Some i) rp t ∧
    case_target rp_states table p_name s (rp_map !! k) = Some (Some t)) as (rp & Erp & Hp & Etgt).
  { destruct (rp_map !! k) as [ptr|] eqn:Ek.
    - destruct (Hr k ptr Ek) as (j & t' & -> & Hj & _). assert (link i = rp_link j) as E by (eapply Ha; [left|done]).
      rewrite Hi, Hj in E. injection E as <-. exists (Some j). split; [done|]. split; [by split; intros ? [= <-]|].
      unfold case_target, deref. cbn [mbind option_bind]. revert Hj. unfold rp_link. destruct (rp_states !! j) as [r|]; [|done].
      intros [= <-]. cbn. rewrite bool_decide_true; [done|]. by eapply link_code.
    - exists None. split; [done|]. split; [split; [by intros ? [= <-]|done]|]. unfold case_target. by rewrite El. }
  assert (called (Some i) rp t) as Hcall.
  { subst rp. specialize (Hca [] k i cases t eq_refl Hi). rewrite decide_False in Hca; [done|]. cbn. apply not_elem_of_nil. }
  unfold deref at 1. cbn [mbind option_bind]. rewrite Es. cbn [use mbind Run_bind]. rewrite Etgt. cbn [use mbind Run_bind]. rewrite Erp.
  assert (is_Some (m0 !! t)) as Hm0 by (by eapply (l_new_merged _ _ Hl)).
  destruct (loop_step (Some i) rp t m e k Hp Hcall Ht Hs Hm0 He Hcl) as (m1 & -> & He1 & Hf1 & Hs1 & Hsame1 & Hcl1).
  cbn [mbind Run_bind]. rewrite He1. cbn [use mbind Run_bind]. rewrite bool_decide_false by tauto.
  destruct (IH (delete k rp_map) (<[key := add_switch_case e k t]> m1) (add_switch_case e k t)) as (m' & -> & He' & Hf' & Hs' & Hsame' & Hcl').
  - by rewrite lookup_insert_eq.
  - done.
  - intros c Hin. apply Hc. by right.
  - intros k' ptr. rewrite lookup_delete_Some. intros [_ Hk]. by eapply Hr.
  - intros k' i' j'. rewrite lookup_delete_Some. intros Hin [_ Hk]. eapply Ha; [by right|done].
  - intros before k' i' after t' -> Hi'. specialize (Hca (Parser.SwitchCase k (Some i) :: before) k' i' after t' eq_refl Hi').
    cbn [fmap list_fmap case_key] in Hca. destruct (decide (k' = k)) as [->|Hne].
    + rewrite decide_True in Hca by left. rewrite lookup_delete_eq. by case_decide.
    + rewrite lookup_delete_ne by done. case_decide as H1; case_decide as H2; try done; rewrite elem_of_cons in H1; naive_solver.
  - done.
  - exists m'. split; [done|]. split_and!; [|by eapply frame_but_trans|done| |done].
    + rewrite He'. unfold new_targets. cbn [omap list_omap]. rewrite Hi. done.
    + intros key' Hne Hk. by rewrite Hsame', Hsame1.
Qed.

Lemma running_cases_ok l : ∀ m e, m !! key = Some e → (∀ t, is_Some (m0 !! t) → is_Some (m !! t)) →
  (∀ k ptr, (k, ptr) ∈ l → ∃ j t, ptr = Some j ∧ rp_link j = Some t ∧ (rank t < rank key)%nat ∧ called None ptr t) → closed m →
  ∃ m', running_cases rp_states merge key l m = Done (m', STATE_LINKED) ∧
  m' !! key = Some (switch_case_merged (add_cases e (rp_targets l)) true) ∧ frame_but key m m' ∧
  (∀ key', key' ≠ key → (rank key ≤ rank key')%nat → m' !! key' = m !! key') ∧ closed m' ∧ merged_in m' key.
Proof.
  induction l as [|[k ptr] l IH]; intros m e He Hs Hc Hcl; cbn [running_cases].
  { rewrite He. cbn [use mbind Run_bind]. eexists. split; [done|]. rewrite lookup_insert_eq. split_and!; [done|apply frame_but_insert|..].
    - intros key' Hne _. by rewrite lookup_insert_ne.
    - eapply closed_insert; [done|exact He|done|]. intros c Hin. by eapply Hcl.
    - eexists. by rewrite lookup_insert_eq. }
  destruct (Hc k ptr) as (j & t & -> & Hj & Ht & Hcall); [left|].
  assert (∃ s, rp_states !! j = Some s ∧ state_name s = t) as (s & Es & En).
  { revert Hj. unfold rp_link. destruct (rp_states !! j) as [s|]; [|done]. intros [= <-]. by exists s. }
  unfold deref. cbn [mbind option_bind]. rewrite Es. cbn [use mbind Run_bind]. rewrite En.
  assert (pair_ok None (Some j) t) as Hp by (split; [done|by intros ? [= <-]]).
  assert (is_Some (m0 !! t)) as Hm0 by (by eapply (l_running_merged _ _ Hl)).
  destruct (loop_step None (Some j) t m e k Hp Hcall Ht Hs Hm0 He Hcl) as (m1 & -> & He1 & Hf1 & Hs1 & Hsame1 & Hcl1).
  cbn [mbind Run_bind]. rewrite He1. cbn [use mbind Run_bind]. rewrite bool_decide_false by tauto.
  destruct (IH (<[key := add_switch_case e k t]> m1) (add_switch_case e k t)) as (m' & -> & He' & Hf' & Hsame' & Hcl' & Hmk).
  - by rewrite lookup_insert_eq.
  - done.
  - intros k' ptr' Hin. apply Hc with k'. by right.
  - done.
  - exists m'. split; [done|]. split_and!; [|by eapply frame_but_trans| |done|done].
    + rewrite He'. unfold rp_targets. cbn. by rewrite Hj.
    + intros key' Hne Hk. by rewrite Hsame', Hsame1.
Qed.
End loops.

(** ** Merging *)

(** C36: Take a state of the new program that is linked to a merged state whose cases are not merged yet, and whose first case leads
    back to it, on a key for which the running state that it is merged with, if any, has no case. Uniting its cases recurses for
    ever: whatever depth the recursion is allowed, it is not enough, and no pointer is followed that leads nowhere. *)
Theorem self_loop_diverges i s k cases rp rp_switch key e m fuel : states !! i = Some s →
  Parser.parser_switch (state s) = Parser.SwitchCase k (Some i) :: cases → link i = Some key →
  cases_of_ptr rp_states rp = Some rp_switch → get_switch_case_hexstr_key_state_map rp_switch !! k = None →
  m !! key = Some e → has_switch_case_merged e = false → merge_cases fuel (Some i) rp key m = OutOfFuel.
Proof.
  intros Es Ec Hi Hr Hk He Hf. revert rp rp_switch Hr Hk. induction fuel as [|fuel IH]; intros rp rp_switch Hr Hk; [done|].
  cbn [merge_parser_states_switch_cases]. rewrite He. cbn [use mbind Run_bind]. rewrite Hf, Hr. cbn [use mbind Run_bind cases_of_ptr].
  rewrite Es. cbn [use mbind Run_bind option_bind]. rewrite Ec. cbn [new_cases]. rewrite Hk.
  unfold deref. cbn [mbind option_bind]. rewrite Es. cbn [use mbind Run_bind option_bind]. revert Hi. unfold link. rewrite Es.
  cbn [mbind option_bind case_target].
  destruct (get_parse_state_link table (state_name s) p_name) as [[] [l|]]; try done. intros [= ->]. cbn [use mbind Run_bind default].
  by rewrite (IH None []) by first [done|apply lookup_empty].
Qed.

Lemma rest_cases_lookup cases rp_map k :
  rest_cases cases rp_map !! k = if decide (k ∈ case_key <$> cases) then None else rp_map !! k.
Proof.
  unfold rest_cases. revert rp_map. induction cases as [|c cases IH]; intros rp_map; cbn [foldl]; [done|].
  rewrite IH. cbn [fmap list_fmap]. case_decide as H1; case_decide as H2; try done; rewrite elem_of_cons in H2.
  - destruct H2. by right.
  - destruct H2 as [->|]; [by rewrite lookup_delete_eq|done].
  - rewrite lookup_delete_ne; [done|]. intros <-. destruct H2. by left.
Qed.

Lemma cases_of_new ps key : pair_ok ps None key → ∃ c, cases_of_ptr states ps = Some c ∧
  ∀ x, x ∈ c → ∃ i s, ps = Some i ∧ states !! i = Some s ∧ x ∈ Parser.parser_switch (state s) ∧ link i = Some key.
Proof.
  intros Hp. destruct ps as [i|]; [|exists []; split; [done|by intros x ?%elem_of_nil]].
  pose proof (pair_new _ _ _ Hp i eq_refl) as Hi. pose proof Hi as Hi'. revert Hi'. unfold link. cbn.
  destruct (states !! i) as [s|] eqn:Es; [|done]. intros _. exists (Parser.parser_switch (state s)). split; [done|]. intros x Hx. by exists i, s.
Qed.

Lemma cases_of_running rp key : pair_ok None rp key → ∃ r, cases_of_ptr rp_states rp = Some r ∧
  ∀ k ptr, get_switch_case_hexstr_key_state_map r !! k = Some ptr → ∃ j s, rp = Some j ∧ rp_states !! j = Some s ∧
    r = Parser.parser_switch (state s) ∧ state_name s = key.
Proof.
  intros Hp. destruct rp as [j|]; [|exists []; split; [done|]; intros k ptr; cbn; by rewrite lookup_empty].
  pose proof (pair_running _ _ _ Hp j eq_refl) as Hj. revert Hj. unfold rp_link. cbn.
  destruct (rp_states !! j) as [s|] eqn:Es; [|done]. intros [= E]. exists (Parser.parser_switch (state s)). split; [done|].
  intros k ptr _. by exists j, s.
Qed.

Lemma pair_split ps rp key : pair_ok ps rp key → pair_ok ps None key ∧ pair_ok None rp key.
Proof. intros [H1 H2]. split; by split. Qed.

Lemma merge_ok m0 rank (Hl : linkable m0 rank) fuel : ∀ ps rp key m, pair_ok ps rp key → called ps rp key → (rank key < fuel)%nat →
  (∀ t, is_Some (m0 !! t) → is_Some (m !! t)) → is_Some (m0 !! key) → closed m →
  ∃ m', merge_cases fuel ps rp key m = Done (m', STATE_LINKED) ∧ frame m m' ∧
  (∀ key', key' ≠ key → (rank key ≤ rank key')%nat → m' !! key' = m !! key') ∧ closed m' ∧ merged_in m' key ∧
  ∀ e, m !! key = Some e → has_switch_case_merged e = false → ∃ ps_cases rp_switch,
    cases_of_ptr states ps = Some ps_cases ∧ cases_of_ptr rp_states rp = Some rp_switch ∧
    m' !! key = Some (switch_case_merged (add_cases e (united ps_cases rp_switch)) true).
Proof.
  induction fuel as [|fuel IH]; intros ps rp key m Hp Hcall Hf Hs Hk Hcl; [lia|]. cbn [merge_parser_states_switch_cases].
  destruct (Hs key Hk) as [e He]. rewrite He. cbn [use mbind Run_bind].
  destruct (has_switch_case_merged e) eqn:Em.
  { exists m. split_and!; [done|by left|done|done|by exists e|]. intros e' [= <-]. congruence. }
  destruct (pair_split _ _ _ Hp) as [Hp1 Hp2].
  destruct (cases_of_running rp key Hp2) as (r & Er & Hr). rewrite Er. cbn [use mbind Run_bind].
  destruct (cases_of_new ps key Hp1) as (c & Ec & Hc). rewrite Ec. cbn [use mbind Run_bind].
  set (rp_map := get_switch_case_hexstr_key_state_map r).
  assert (∀ k ptr, rp_map !! k = Some ptr → ∃ j t, ptr = Some j ∧ rp_link j = Some t ∧ (rank t < rank key)%nat) as Hrank.
  { intros k ptr Hk'. destruct (Hr k ptr Hk') as (j & s & -> & Es & -> & <-). by eapply (l_running _ _ Hl). }
  assert (∀ ps rp t m, pair_ok ps rp t → called ps rp t → (rank t < rank key)%nat → (∀ t, is_Some (m0 !! t) → is_Some (m !! t)) →
    is_Some (m0 !! t) → closed m →
    ∃ m', merge_cases fuel ps rp t m = Done (m', STATE_LINKED) ∧ frame m m' ∧ (∀ key', (rank key ≤ rank key')%nat → m' !! key' = m !! key') ∧
    closed m' ∧ merged_in m' t) as Hm.
  { intros ps' rp' t m' Hp' Hca' Ht Hs' Ht' Hcl'. destruct (IH ps' rp' t m' Hp' Hca') as (m'' & E & Hf' & Hsame & Hcl'' & Hmt & _); [lia|done..|].
    exists m''. split; [done|]. split; [done|]. split; [|done]. intros key' Hle. apply Hsame; [intros ->|]; lia. }
  destruct (new_cases_ok m0 rank Hl (merge_cases fuel) key Hm c rp_map m e He Hs) as (m1 & -> & He1 & Hf1 & Hs1 & Hsame1 & Hcl1).
  { intros x Hx. destruct (Hc x Hx) as (i & s & -> & Es & Hin & Hi). by eapply (l_new _ _ Hl). }
  { done. }
  { intros k i' j' Hin Hk'. destruct (Hc _ Hin) as (i & s & -> & Es & Hin' & Hi). destruct (Hr _ _ Hk') as (j & s' & -> & Es' & -> & En).
    by eapply (l_agree _ _ Hl). }
  { intros before k i after t -> Hi. by eapply (called_new ps0 rp0 key0 ps rp key before k i after r t). }
  { done. }
  cbn [mbind Run_bind].
  destruct (running_cases_ok m0 rank Hl (merge_cases fuel) key Hm (iterate (rest_cases c rp_map)) m1 (add_cases e (new_targets c)) He1 Hs1)
    as (m2 & -> & He2 & Hf2 & Hsame2 & Hcl2 & Hmk).
  { intros k ptr Hin. rewrite Hiter in Hin. apply elem_of_map_to_list in Hin. rewrite rest_cases_lookup in Hin. case_decide; [done|].
    destruct (Hrank k ptr Hin) as (j & t & -> & Hj & Ht). exists j, t. split_and!; try done. by eapply (called_running ps0 rp0 key0 ps rp key c r k j t). }
  { done. }
  assert (m2 !! key = Some (switch_case_merged (add_cases e (united c r)) true)) as E2.
  { rewrite He2. unfold united, add_cases. rewrite foldl_app. done. }
  exists m2. split; [done|]. split_and!.
  - intros key'. destruct (decide (key' = key)) as [->|Hne]; [right; exists e, ps, rp, c, r; by split_and!|]. by apply (frame_but_trans key m m1 m2).
  - intros key' Hne Hle. by rewrite Hsame2, Hsame1.
  - done.
  - done.
  - intros e' [= <-] _. by exists c, r.
Qed.
End calls.

(** ** Where the merged states go *)

Definition first_target (l : list (list Z * string)) k : option string := snd <$> head (filter (λ c, c.1 = k) l).

Lemma first_target_cons c l k : first_target (c :: l) k = if decide (c.1 = k) then Some c.2 else first_target l k.
Proof. unfold first_target. rewrite filter_cons. by case_decide. Qed.

Lemma first_target_app l l' k : first_target (l ++ l') k = first_target l k ∪ first_target l' k.
Proof.
  induction l as [|c l IH]; cbn [app]; [by destruct (first_target l' k)|]. rewrite !first_target_cons. case_decide; [by destruct (first_target l' k)|done].
Qed.

Lemma first_target_rp l k : (∀ k ptr, (k, ptr) ∈ l → is_Some (j ← ptr; rp_link j)) →
  first_target (rp_targets l) k = (ptr ← (list_to_map l : gmap (list Z) (option nat)) !! k; j ← ptr; rp_link j).
Proof.
  induction l as [|[k' ptr] l IH]; intros Hs; [cbn; by rewrite lookup_empty|].
  assert (is_Some (j ← ptr; rp_link j)) as [t Et] by (apply (Hs k'); left). destruct ptr as [j|]; [|done]. cbn in Et.
  unfold rp_targets. cbn [omap list_omap snd fst mbind option_bind]. rewrite Et. cbn [mbind option_bind].
  rewrite first_target_cons, list_to_map_cons. cbn [fst snd]. fold (rp_targets l). case_decide as E.
  - subst. rewrite lookup_insert_eq. cbn. by rewrite Et.
  - rewrite lookup_insert_ne by done. apply IH. intros k'' ptr' Hin. apply (Hs k''). by right.
Qed.

(** The state goes where the new one goes, and else where the running one goes. *)
Definition goes ps_cases rp_switch k : option string :=
  first_target (new_targets ps_cases) k ∪ (ptr ← get_switch_case_hexstr_key_state_map rp_switch !! k; j ← ptr; rp_link j).

Lemma united_goes ps_cases rp_switch k :
  (∀ c, c ∈ ps_cases → ∃ k i t, c = Parser.SwitchCase k (Some i) ∧ link i = Some t) →
  (∀ k ptr, get_switch_case_hexstr_key_state_map rp_switch !! k = Some ptr → is_Some (j ← ptr; rp_link j)) →
  first_target (united ps_cases rp_switch) k = goes ps_cases rp_switch k.
Proof.
  intros Hc Hr. unfold united, goes. rewrite first_target_app.
  set (rest_ := rest_cases ps_cases _). rewrite first_target_rp; cycle 1.
  { intros k' ptr Hin. rewrite Hiter in Hin. apply elem_of_map_to_list in Hin. unfold rest_ in Hin. rewrite rest_cases_lookup in Hin.
    case_decide; [done|]. by eapply Hr. }
  rewrite <-(list_to_map_flip rest_ (iterate rest_)) by (by rewrite Hiter). unfold rest_. rewrite rest_cases_lookup.
  case_decide as Hk; [|done].
  assert (is_Some (first_target (new_targets ps_cases) k)) as [t ->].
  2: { assert (∀ o : option string, Some t ∪ o = Some t) as U by (by intros []). by rewrite !U. }
  clear Hr. induction ps_cases as [|c ps_cases IH]; [by apply elem_of_nil in Hk|].
  destruct (Hc c) as (k' & i & t & -> & Hi); [left|]. unfold new_targets. cbn [omap list_omap mbind option_bind]. rewrite Hi.
  cbn [mbind option_bind]. rewrite first_target_cons. cbn. case_decide as E; [done|]. apply IH; [intros c Hin; apply Hc; by right|].
  cbn in Hk. apply elem_of_cons in Hk as [->|]; done.
Qed.

(** The merged state of a pair: it goes where the pair goes, extracts what it extracted, and is marked. *)
Definition merged_pair m m' (ps rp : option nat) (key : string) : Prop := pair_ok ps rp key ∧ ∃ e e' ps_cases rp_switch,
  m !! key = Some e ∧ m' !! key = Some e' ∧ has_switch_case_merged e' = true ∧
  new_ops (new_parse_state e') = new_ops (new_parse_state e) ∧
  new_key_builder (new_parse_state e') = new_key_builder (new_parse_state e) ∧
  cases_of_ptr states ps = Some ps_cases ∧ cases_of_ptr rp_states rp = Some rp_switch ∧
  ∀ k, first_target (new_switch (new_parse_state e')) k = goes ps_cases rp_switch k.

Lemma add_cases_state l : ∀ e, let e' := add_cases e l in
  new_ops (new_parse_state e') = new_ops (new_parse_state e) ∧
  new_key_builder (new_parse_state e') = new_key_builder (new_parse_state e) ∧
  new_switch (new_parse_state e') = new_switch (new_parse_state e) ++ l.
Proof.
  induction l as [|c l IH]; intros e; cbv zeta; [by rewrite app_nil_r|]. destruct (IH (add_switch_case e c.1 c.2)) as (E1 & E2 & E3).
  unfold add_cases in *. cbn [foldl]. rewrite E1, E2, E3. cbn. rewrite <-app_assoc. by destruct c.
Qed.

Lemma changed_pair m0 rank m' key ps rp ps_cases rp_switch e : linkable m0 rank → pair_ok ps rp key →
  m0 !! key = Some e → new_switch (new_parse_state e) = [] →
  cases_of_ptr states ps = Some ps_cases → cases_of_ptr rp_states rp = Some rp_switch →
  m' !! key = Some (switch_case_merged (add_cases e (united ps_cases rp_switch)) true) → merged_pair m0 m' ps rp key.
Proof.
  intros Hl Hp He Hn Hc Hr E. split; [done|]. eexists e, _, ps_cases, rp_switch. split; [done|]. split; [done|].
  destruct (add_cases_state (united ps_cases rp_switch) e) as (E1 & E2 & E3). cbn. rewrite E1, E2, E3, Hn.
  split_and!; try done. intros k. destruct (pair_split _ _ _ Hp) as [Hp1 Hp2]. apply united_goes.
  - destruct (cases_of_new ps key Hp1) as (c & Ec & Hx). assert (c = ps_cases) as -> by congruence.
    intros x Hin. destruct (Hx x Hin) as (i & s & -> & Es & Hin' & Hi).
    destruct (l_new _ _ Hl _ _ _ _ Es Hi Hin') as (k' & i' & t & -> & Ht & _). by exists k', i', t.
  - destruct (cases_of_running rp key Hp2) as (r & Er & Hx). assert (r = rp_switch) as -> by congruence.
    intros k' ptr Hk. destruct (Hx k' ptr Hk) as (j & s & -> & Es & -> & _).
    destruct (l_running _ _ Hl _ _ _ _ Es Hk) as (j' & t & -> & Ht & _). by exists t.
Qed.

(** C16: take parsers whose cases have no masks and no value sets and all lead to states, which are matched consistently so that the
    merged states have no cycle, and merged states without cases. Uniting the cases of a pair of states ends and succeeds. The
    merged state goes, on each key, where the state of the new program goes, and on the keys for which that one has no case where
    the running state goes. Every other merged state is left as it was, or does so for a pair that follows from this one: the
    states that both states of such a pair go to on a key of the new one, or the state that the running one goes to on another
    key. All the states that merged cases lead to are merged. *)
Theorem merge_cases_unite m0 rank fuel ps rp key : linkable m0 rank → pair_ok ps rp key → (rank key < fuel)%nat → is_Some (m0 !! key) →
  map_Forall (λ _ e, has_switch_case_merged e = false ∧ new_switch (new_parse_state e) = []) m0 →
  ∃ m', merge_cases fuel ps rp key m0 = Done (m', STATE_LINKED) ∧ merged_pair m0 m' ps rp key ∧
  (∀ key', m' !! key' = m0 !! key' ∨ ∃ ps' rp', called ps rp key ps' rp' key' ∧ merged_pair m0 m' ps' rp' key') ∧
  closed m'.
Proof.
  intros Hl Hp Hf Hk Hnew. destruct (merge_ok ps rp key m0 rank Hl fuel ps rp key m0 Hp) as (m' & E & Hfr & _ & Hcl & _ & Hkey); try done.
  { apply called_first. }
  { intros key1 e1 c H1. destruct (Hnew key1 e1 H1) as [_ ->]. by intros ?%elem_of_nil. }
  exists m'. split; [done|]. destruct Hk as [e He]. destruct (Hnew key e He) as [Hm Hs]. split; [|split; [|done]].
  - destruct (Hkey e He Hm) as (c & r & Hc & Hr & E'). by eapply changed_pair.
  - intros key'. destruct (Hfr key') as [|(e' & ps' & rp' & c & r & He' & _ & [Hp' Hca] & Hc & Hr & E')]; [by left|right]. exists ps', rp'.
    split; [done|]. destruct (Hnew key' e' He') as [_ Hs']. by eapply changed_pair.
Qed.
End merge.
End LinkCases.
