(* ===== verification/Linker.v ===== *)
(** * The linker (src/bm_sim/linker/linker.cpp, include/bm/bm_linker/linker.h)

    [Linker] keeps the tables of linked objects and the running program, and links
    one program after the other into it: the tables of [LinkHeaders.v], the order of
    the states of [ParserOrder.v] and the parsers of [LinkParsers.v] together. The
    examples link two small programs. *)

From stdpp Require Import gmap strings.
From S2P Require Import Prelude Data Extract Fields Headers Parser LinkTable LinkHeaders ParserOrder LinkParsers LinkStates LinkCases.
Import LinkTable LinkHeaders ParserOrder LinkParsers.

Module Linker.

(** What the linker uses of the objects of a program. The initial state is the one of the first parser; it is null when there is
    no parser or no initial state. *)
Record P4Objects := {
  header_types_map : list (string * Headers.HeaderType);
  header_ids_map : list (string * Z);
  header_to_type_map : gmap string (string * Headers.HeaderType);
  p4_parse_states : list NamedState;
  init_state : option nat;
}.

Record Linker := {
  header_types_uid_table : HeaderTypeUIDTable;
  parser_linker : Linking;
  running : option (P4ObjectsLinkerExt * list nat);
}.

Definition empty_linker : Linker :=
  {| header_types_uid_table := empty_types;
     parser_linker := {| last_state_id := 0; parse_state_link_table := empty_table; header_uid_table := empty_ids; linked_parse_state := ∅ |};
     running := None |}.

(** The extended objects and the order of the states, none of which is null. *)
Definition init_extended_objects (p4_name : string) (objs : P4Objects) : option (P4ObjectsLinkerExt * list nat) :=
  maps ← init_header_id_to_header_type_map (header_ids_map objs) (header_to_type_map objs);
  init ← init_state objs;
  o ← bfs_topological_ordering_of_parser_states (p4_parse_states objs) init;
  ordered ← mapM id o;
  Some ({| p4_program_name := p4_name; header_maps := maps; parse_states := p4_parse_states objs |}, ordered).

(** The orders of the iterations over unordered maps. *)
Record Iterations := {
  iterate_cases : gmap (list Z) (option nat) → list (list Z * option nat);
  iterate_states : gmap string ParseStateExt → list (string * ParseStateExt);
  iterate_types : gmap string Headers.HeaderType → list (string * Headers.HeaderType);
  iterate_ids : gmap string Z → list (string * Z);
}.

(** The objects that are returned, whatever the code of [link_parser], which is given here too. A linker header without a type has a
    null type, which is undefined here. *)
Definition add_p4objects (it : Iterations) (fuel : nat) (p4_name : string) (p4objects : P4Objects) (l : Linker)
    : option (Linker * P4Objects * ObjectLinkStateCode) :=
  '(ext, ordered) ← init_extended_objects p4_name p4objects;
  let types := (init_type_mapping p4_name (header_types_map p4objects) (header_types_uid_table l)).1 in
  let merged_types := get_linker_header_types_map types ∅ in
  '(L, states, init, error_code) ← link_parser (iterate_cases it) (iterate_states it) fuel types ext ordered (running l) (parser_linker l);
  let ids := get_linked_header_ids_map (header_uid_table L) in
  linked_header_name_type ← get_linked_headers_name_type_map (header_uid_table L) ∅;
  let merged_p4objects :=
    {| header_types_map := iterate_types it merged_types; header_ids_map := iterate_ids it ids;
       header_to_type_map := omap (λ n, ht ← merged_types !! n; Some (n, ht)) linked_header_name_type;
       p4_parse_states := states; init_state := Some init |} in
  running' ← init_extended_objects "Linker" merged_p4objects;
  Some ({| header_types_uid_table := types; parser_linker := L; running := Some running' |}, merged_p4objects, error_code).
End Linker.

Module LinkerExamples.
Import Linker.
Local Open Scope string_scope.
Local Open Scope Z_scope.

Definition order : Iterations :=
  {| iterate_cases := map_to_list; iterate_states := map_to_list; iterate_types := map_to_list; iterate_ids := map_to_list |}.

(** Types by the widths of their fields. *)
Definition type (id : Z) (ws : list Z) : Headers.HeaderType :=
  LinkHeadersExamples.type_of id ((λ w, LinkHeadersExamples.field w false) <$> ws) 0.

Definition eth_t : Headers.HeaderType := type 1 [48; 48; 16].
Definition ip_t : Headers.HeaderType := type 2 [8; 8; 32].
Definition l4_t : Headers.HeaderType := type 3 [16; 16].

(** A state that extracts headers and switches on a field of one of them. *)
Definition extracting (name : string) (id : Z) (headers : list Z) (key : option (Z * Z * Z)) (cases : list (Z * nat)) : NamedState :=
  {| state_name := name; state_id := id;
     state := {| Parser.parser_ops := Parser.ParserOpExtract <$> headers; Parser.has_switch := true;
                 Parser.key_builder := match key with
                   | Some (h, o, w) => Parser.push_back_field Parser.empty_builder h o w
                   | None => Parser.empty_builder
                   end;
                 Parser.parser_switch := (λ c, Parser.SwitchCase [c.1] (Some c.2)) <$> cases;
                 Parser.default_next_state := None |} |}.

Definition program (l4 : string) (states : list NamedState) : P4Objects :=
  {| header_types_map := [("eth_t", eth_t); ("ip_t", ip_t); (l4 ++ "_t", l4_t)]%string;
     header_ids_map := [("eth", 0); ("ip", 1); (l4, 2)];
     header_to_type_map := {[ "eth" := ("eth_t", eth_t); "ip" := ("ip_t", ip_t); l4 := ((l4 ++ "_t")%string, l4_t) ]};
     p4_parse_states := states; init_state := Some 0%nat |}.

(** Ethernet, then IP on [ether_type], then the header on top of it on [proto]. *)
Definition stack (l4 : string) (ether_type proto : Z) : P4Objects :=
  program l4 [extracting "start" 0 [0] (Some (0, 2, 16)) [(ether_type, 1%nat)];
              extracting "parse_ip" 1 [1] (Some (1, 1, 8)) [(proto, 2%nat)];
              extracting "parse_l4" 2 [2] None []].

Definition link_two (p q : P4Objects) : option (Linker * P4Objects * ObjectLinkStateCode) :=
  '(l, _, _) ← add_p4objects order 10 "p" p empty_linker; add_p4objects order 10 "q" q l.

(** What the states of the result extract, and where they go. *)
Definition summary (s : NamedState) : string * list Parser.ParserOp * list Parser.ParseSwitchCase :=
  (state_name s, Parser.parser_ops (state s), Parser.parser_switch (state s)).
Definition outcome (r : option (Linker * P4Objects * ObjectLinkStateCode)) :=
  r ← r; Some (r.2, summary <$> p4_parse_states r.1.2).

(** Two programs that agree but for a protocol: the merged parser goes on for both, with one header on top of IP for both, since
    the headers have the same widths. *)
Theorem two_stacks : outcome (link_two (stack "udp" 8 17) (stack "tcp" 8 6)) = Some (STATE_LINKED,
  [("p.start", [Parser.ParserOpExtract 0], [Parser.SwitchCase [8] (Some 1%nat)]);
   ("p.parse_ip", [Parser.ParserOpExtract 1], [Parser.SwitchCase [6] (Some 2%nat); Parser.SwitchCase [17] (Some 2%nat)]);
   ("p.parse_l4", [Parser.ParserOpExtract 2], [])]).
Proof. by vm_compute. Qed.

(** Two programs that reach IP from different values of [ether_type]: the state of IP is merged when the new program reaches it, without
    the running state, and has been merged when the running program reaches it. The case 17 of the running program is lost. *)
Theorem running_case_lost : outcome (link_two (stack "udp" 8 17) (stack "tcp" 9 6)) = Some (STATE_LINKED,
  [("p.start", [Parser.ParserOpExtract 0], [Parser.SwitchCase [9] (Some 1%nat); Parser.SwitchCase [8] (Some 1%nat)]);
   ("p.parse_ip", [Parser.ParserOpExtract 1], [Parser.SwitchCase [6] (Some 2%nat)]);
   ("p.parse_l4", [Parser.ParserOpExtract 2], [])]).
Proof. by vm_compute. Qed.

(** A state that extracts two headers extracts one of them once its program is linked. *)
Definition two_headers : P4Objects := program "udp" [extracting "start" 0 [0; 1] None []].

Theorem second_extract_lost : outcome (add_p4objects order 10 "p" two_headers empty_linker) =
  Some (STATE_LINKED, [("p.start", [Parser.ParserOpExtract 0], [])]).
Proof. by vm_compute. Qed.

(** A state with a mask fails to link, and the program is installed nevertheless, without the case. *)
Definition masked : P4Objects :=
  program "udp" [ {| state_name := "start"; state_id := 0;
                     state := Parser.push_case (state (extracting "start" 0 [0] (Some (0, 2, 16)) [(8, 1%nat)]))
                       (Parser.SwitchCaseWithMask [9] [15] (Some 1%nat)) |};
                  extracting "parse_ip" 1 [1] None [] ].

Theorem failure_ignored : outcome (add_p4objects order 10 "p" masked empty_linker) =
  Some (PARSER_LINKING_FAILED, [("p.start", [Parser.ParserOpExtract 0], [Parser.SwitchCase [8] (Some 1%nat)]);
                                ("p.parse_ip", [Parser.ParserOpExtract 1], [])]).
Proof. by vm_compute. Qed.

(** ** Witnesses *)

(** The program [q] that is added to a linker that runs [p]. *)
Definition no_program : P4ObjectsLinkerExt := {| p4_program_name := ""; header_maps := empty_maps; parse_states := [] |}.
Definition after_p : Linker := default empty_linker ((λ r, r.1.1) <$> add_p4objects order 10 "p" (stack "udp" 8 17) empty_linker).
Definition p_ext : P4ObjectsLinkerExt := default no_program (fst <$> running after_p).
Definition q_ext : P4ObjectsLinkerExt := default no_program (fst <$> init_extended_objects "q" (stack "tcp" 8 6)).
Definition q_types : HeaderTypeUIDTable := (init_type_mapping "q" (header_types_map (stack "tcp" 8 6)) (header_types_uid_table after_p)).1.

Lemma merge_ops_first_witness : ∃ e' code,
  merge_parser_ops q_types q_ext p_ext [Parser.ParserOpExtract 1; Parser.ParserOpExtract 2] [Parser.ParserOpExtract 1]
    (new_ext "p.parse_ip" 1 MAP_EXISTING_ID) = Some (e', code) ∧
  new_ops (new_parse_state e') = [Parser.ParserOpExtract 1] ∧ header_id_map e' = {[1 := 1]}.
Proof.
  destruct (LinkStates.merge_ops_first q_types q_ext p_ext 1 [Parser.ParserOpExtract 2] [Parser.ParserOpExtract 1]
    (new_ext "p.parse_ip" 1 MAP_EXISTING_ID)) as (e' & code & E & Hiff & Hok).
  - vm_compute. eexists. reflexivity.
  - constructor; [|constructor]. vm_compute. eexists. reflexivity.
  - exists e', code. split; [exact E|]. destruct Hok as [E1 E2].
    + apply Hiff. intros h Hh%list_elem_of_singleton. subst h. vm_compute. reflexivity.
    + rewrite E1, E2. split; reflexivity.
Defined.

(** The keys agree in one of two fields. *)
Definition key_a : Parser.ParseSwitchKeyBuilder := Parser.push_back_field (Parser.push_back_field Parser.empty_builder 0 2 16) 1 1 8.
Definition key_b : Parser.ParseSwitchKeyBuilder := Parser.push_back_field (Parser.push_back_field Parser.empty_builder 4 2 16) 5 0 8.

Lemma link_key_fields_witness : ∃ b', link_parse_switch_key key_a key_b (new_ext "s" 0 NO_OPS) = Some (b', STATE_PARSE_SWITCH_KEY_MATCH) ∧
  LinkStates.key_entries b' = [(Parser.FIELD {| Parser.f_header := 4; Parser.f_offset := 2 |}, 16)] ∧ b' ≠ key_b.
Proof.
  destruct (LinkStates.link_key_fields key_a key_b (new_ext "s" 0 NO_OPS)) as (b' & code & E & Hiff & Hok);
    [reflexivity|reflexivity|discriminate|discriminate|].
  assert (code = STATE_PARSE_SWITCH_KEY_MATCH) as -> by (apply Hiff; split_and!; reflexivity).
  destruct (Hok eq_refl) as [E1 E2]. exists b'. split; [exact E|]. split; [rewrite E1; vm_compute; reflexivity|].
  intros [_ Hall%Forall_cons]%E2%Forall_cons. destruct Hall as [H _]. vm_compute in H. exact H.
Defined.

Lemma mapped_states_witness : ∃ L, map_ordered_parser_states q_types q_ext p_ext (parse_states q_ext) (parse_states p_ext) (parser_linker empty_linker)
    = Some (L, STATE_MATCHED) ∧
  ∀ s, s ∈ parse_states q_ext → ∃ t, get_parse_state_link (parse_state_link_table L) (state_name s) "q" = (STATE_MATCHED, Some t).
Proof.
  destruct (map_ordered_parser_states q_types q_ext p_ext (parse_states q_ext) (parse_states p_ext) (parser_linker empty_linker))
    as [[L code]|] eqn:E; [|vm_compute in E; discriminate E].
  destruct (LinkStates.mapped_states q_types q_ext p_ext (parse_states q_ext) (parse_states p_ext) (parser_linker empty_linker) L code)
    as (-> & _ & Hs & _).
  - apply empty_consistent.
  - apply (bool_decide_unpack _). vm_compute. exact I.
  - reflexivity.
  - apply Forall_forall. apply (bool_decide_unpack _). vm_compute. exact I.
  - exact E.
  - exists L. split; [reflexivity|]. intros s Hin. destruct (Hs s Hin) as (t & Et & _). exists t. exact Et.
Defined.

(** The states of [p] and [q], matched. *)
Definition q_states : list NamedState := Eval vm_compute in parse_states q_ext.
Definition p_states : list NamedState := Eval vm_compute in parse_states p_ext.

Definition matched : Linking := default (parser_linker empty_linker) (fst <$>
  map_ordered_parser_states q_types q_ext p_ext (q_states) (p_states) (parser_linker empty_linker)).

Definition depth_left (name : string) : nat :=
  if bool_decide (name = "p.start") then 2 else if bool_decide (name = "p.parse_ip") then 1 else 0.

Lemma matched_linkable : LinkCases.linkable (q_states) (p_states) (parse_state_link_table matched) "q"
  (linked_parse_state matched) depth_left.
Proof.
  split.
  - intros [|[|[|i]]] s key c Es Hk Hc; try discriminate Es; injection Es as <-; vm_compute in Hk; injection Hk as <-.
    + apply list_elem_of_singleton in Hc as ->. exists [8], 1%nat, "p.parse_ip". split_and!; vm_compute; first [reflexivity|lia].
    + apply list_elem_of_singleton in Hc as ->. exists [6], 2%nat, "p.parse_l4". split_and!; vm_compute; first [reflexivity|lia].
    + by apply elem_of_nil in Hc.
  - intros [|[|[|j]]] s k ptr Es Hk%LinkCases.switch_map_elem; try discriminate Es; injection Es as <-.
    + apply list_elem_of_singleton in Hk as [= -> ->]. exists 1%nat, "p.parse_ip". split_and!; vm_compute; first [reflexivity|lia].
    + apply list_elem_of_singleton in Hk as [= -> ->]. exists 2%nat, "p.parse_l4". split_and!; vm_compute; first [reflexivity|lia].
    + by apply elem_of_nil in Hk.
  - intros i j s r key k i' j' Hp Es Er Hc Hk%LinkCases.switch_map_elem.
    pose proof (LinkCases.pair_new _ _ _ _ _ _ _ Hp i eq_refl) as H1. pose proof (LinkCases.pair_running _ _ _ _ _ _ _ Hp j eq_refl) as H2.
    destruct i as [|[|[|i]]]; try discriminate Es; injection Es as <-;
      (destruct j as [|[|[|j]]]; try discriminate Er; injection Er as <-); vm_compute in H1, H2; try congruence;
      first [by apply elem_of_nil in Hc|by apply elem_of_nil in Hk|
             apply list_elem_of_singleton in Hc as [= -> ->]; apply list_elem_of_singleton in Hk as E; vm_compute in E; try discriminate E;
             injection E as ->; vm_compute; reflexivity].
  - intros [|[|[|i]]] t Ht; vm_compute in Ht; try discriminate Ht; injection Ht as <-; apply (bool_decide_unpack _); vm_compute; exact I.
  - intros [|[|[|j]]] t Ht; vm_compute in Ht; try discriminate Ht; injection Ht as <-; apply (bool_decide_unpack _); vm_compute; exact I.
Qed.

Lemma merge_cases_unite_witness : ∃ m', merge_parser_states_switch_cases map_to_list (q_states) (p_states)
    (parse_state_link_table matched) "q" 3 (Some 0%nat) (Some 0%nat) "p.start" (linked_parse_state matched) = Done (m', STATE_LINKED) ∧
  ∃ e, m' !! "p.start" = Some e ∧ LinkCases.first_target (new_switch (new_parse_state e)) [8] = Some "p.parse_ip".
Proof.
  destruct (LinkCases.merge_cases_unite map_to_list (q_states) (p_states) (parse_state_link_table matched) "q"
    (λ _, Permutation_refl _) (linked_parse_state matched) depth_left 3 (Some 0%nat) (Some 0%nat) "p.start" matched_linkable)
    as (m' & E & (_ & e & e' & c & r & _ & He' & _ & _ & _ & Hc & Hr & Hgo) & _ & _).
  - split; intros ? [= <-]; vm_compute; reflexivity.
  - vm_compute. lia.
  - vm_compute. eexists. reflexivity.
  - apply map_Forall_to_list, (bool_decide_unpack _). vm_compute. exact I.
  - exists m'. split; [exact E|]. exists e'. split; [exact He'|]. rewrite Hgo. vm_compute in Hc, Hr. injection Hc as <-. injection Hr as <-.
    vm_compute. reflexivity.
Defined.

(** A parser that leads back to its initial state, as the linker has it when it merges the cases. *)
Definition looping : list NamedState := [extracting "start" 0 [0] (Some (0, 2, 16)) [(8, 0%nat)]].
Definition loop_ext : P4ObjectsLinkerExt := default no_program (fst <$> init_extended_objects "p" (program "udp" looping)).
Definition loop_linking : Linking := default (parser_linker empty_linker)
  (fst <$> map_ordered_parser_states empty_types loop_ext loop_ext looping [] (parser_linker empty_linker)).

Lemma self_loop_diverges_witness : merge_parser_states_switch_cases map_to_list looping [] (parse_state_link_table loop_linking) "p" 1000
  (Some 0%nat) None "p.start" (linked_parse_state loop_linking) = OutOfFuel.
Proof.
  destruct (linked_parse_state loop_linking !! "p.start") as [e|] eqn:He; [|vm_compute in He; discriminate He].
  eapply (LinkCases.self_loop_diverges map_to_list looping [] (parse_state_link_table loop_linking) "p" 0); [reflexivity..|exact He|].
  vm_compute in He. injection He as <-. reflexivity.
Defined.
End LinkerExamples.
