(* ===== verification/Crc.v ===== *)
(** * Cyclic redundancy checks (src/bm_sim/calculations.cpp, src/bm_sim/crc_tables.h)

    The CRC calculations that work on a byte at a time with a table, and their
    equivalence with the division of the message a bit at a time. [crc_custom] is
    over an unsigned type of [w] bits. *)

From S2P Require Import Prelude.

Module Crc.

(** ** Calculations *)

Fixpoint reflect_loop (w nBits : Z) (n : nat) (bit data reflection : Z) : Z :=
  match n with
  | O => reflection
  | S n' =>
      let reflection := if Z.land data 1 =? 0 then reflection
                        else wrap w (Z.lor reflection (Z.shiftl 1 (nBits - 1 - bit))) in
      reflect_loop w nBits n' (bit + 1) (Z.shiftr data 1) reflection
  end.

Definition reflect (w data nBits : Z) : Z := reflect_loop w nBits (Z.to_nat nBits) 0 data 0.

Record crc_config_t := {
  polynomial : Z;
  initial_remainder : Z;
  final_xor_value : Z;
  data_reflected : bool;
  remainder_reflected : bool;
}.

(** One bit of the modulo-2 division. *)
Definition divide (w polynomial remainder : Z) : Z :=
  if Z.land remainder (Z.shiftl 1 (w - 1)) =? 0 then wrap w (Z.shiftl remainder 1)
  else wrap w (Z.lxor (wrap w (Z.shiftl remainder 1)) polynomial).

Definition recompute_crc_table (w : Z) (new_config : crc_config_t) : list Z :=
  (λ dividend, Nat.iter 8 (divide w (polynomial new_config)) (wrap w (Z.shiftl dividend (w - 8)))) <$> seqZ 0 256.

Record crc_custom := { crc_table : list Z; config : crc_config_t }.

Definition update_config (w : Z) (new_config : crc_config_t) : crc_custom :=
  {| crc_table := recompute_crc_table w new_config; config := new_config |}.

(** A loop over the bytes: [data_of] is what the bytes are xored with the remainder as. *)
Fixpoint table_loop (w : Z) (table : list Z) (data_of : Z → Z) (remainder : Z) (buf : list Z) : option Z :=
  match buf with
  | [] => Some remainder
  | byte :: buf =>
      let data := Z.lxor (data_of byte) (Z.shiftr remainder (w - 8)) in
      t ← vget table data;
      table_loop w table data_of (wrap w (Z.lxor t (Z.shiftl remainder 8))) buf
  end.

Definition crc_custom_run (w : Z) (c : crc_custom) (buf : list Z) : option Z :=
  remainder ← table_loop w (crc_table c) (λ byte, if data_reflected (config c) then reflect w byte 8 else byte)
    (initial_remainder (config c)) buf;
  Some (Z.lxor (if remainder_reflected (config c) then reflect w remainder w else remainder) (final_xor_value (config c))).

(** The configurations a [crc_custom] starts with. *)
Definition crc_custom_init (w : Z) : crc_config_t :=
  if w =? 8 then {| polynomial := 0x07; initial_remainder := 0; final_xor_value := 0; data_reflected := false; remainder_reflected := false |}
  else if w =? 16 then {| polynomial := 0x8005; initial_remainder := 0; final_xor_value := 0; data_reflected := true; remainder_reflected := true |}
  else if w =? 32 then {| polynomial := 0x04c11db7; initial_remainder := 0xffffffff; final_xor_value := 0xffffffff;
                          data_reflected := true; remainder_reflected := true |}
  else {| polynomial := 0x1b; initial_remainder := 0; final_xor_value := 0; data_reflected := true; remainder_reflected := true |}.

(** ** The tables of the source *)

Definition table_crc16 : list Z := [
  0; 32773; 32783; 10; 32795; 30; 20; 32785; 32819; 54; 60; 32825;
  40; 32813; 32807; 34; 32867; 102; 108; 32873; 120; 32893; 32887; 114;
  80; 32853; 32863; 90; 32843; 78; 68; 32833; 32963; 198; 204; 32969;
  216; 32989; 32983; 210; 240; 33013; 33023; 250; 33003; 238; 228; 32993;
  160; 32933; 32943; 170; 32955; 190; 180; 32945; 32915; 150; 156; 32921;
  136; 32909; 32903; 130; 33155; 390; 396; 33161; 408; 33181; 33175; 402;
  432; 33205; 33215; 442; 33195; 430; 420; 33185; 480; 33253; 33263; 490;
  33275; 510; 500; 33265; 33235; 470; 476; 33241; 456; 33229; 33223; 450;
  320; 33093; 33103; 330; 33115; 350; 340; 33105; 33139; 374; 380; 33145;
  360; 33133; 33127; 354; 33059; 294; 300; 33065; 312; 33085; 33079; 306;
  272; 33045; 33055; 282; 33035; 270; 260; 33025; 33539; 774; 780; 33545;
  792; 33565; 33559; 786; 816; 33589; 33599; 826; 33579; 814; 804; 33569;
  864; 33637; 33647; 874; 33659; 894; 884; 33649; 33619; 854; 860; 33625;
  840; 33613; 33607; 834; 960; 33733; 33743; 970; 33755; 990; 980; 33745;
  33779; 1014; 1020; 33785; 1000; 33773; 33767; 994; 33699; 934; 940; 33705;
  952; 33725; 33719; 946; 912; 33685; 33695; 922; 33675; 910; 900; 33665;
  640; 33413; 33423; 650; 33435; 670; 660; 33425; 33459; 694; 700; 33465;
  680; 33453; 33447; 674; 33507; 742; 748; 33513; 760; 33533; 33527; 754;
  720; 33493; 33503; 730; 33483; 718; 708; 33473; 33347; 582; 588; 33353;
  600; 33373; 33367; 594; 624; 33397; 33407; 634; 33387; 622; 612; 33377;
  544; 33317; 33327; 554; 33339; 574; 564; 33329; 33299; 534; 540; 33305;
  520; 33293; 33287; 514
].

Definition table_crcCCITT : list Z := [
  0; 4129; 8258; 12387; 16516; 20645; 24774; 28903; 33032; 37161; 41290; 45419;
  49548; 53677; 57806; 61935; 4657; 528; 12915; 8786; 21173; 17044; 29431; 25302;
  37689; 33560; 45947; 41818; 54205; 50076; 62463; 58334; 9314; 13379; 1056; 5121;
  25830; 29895; 17572; 21637; 42346; 46411; 34088; 38153; 58862; 62927; 50604; 54669;
  13907; 9842; 5649; 1584; 30423; 26358; 22165; 18100; 46939; 42874; 38681; 34616;
  63455; 59390; 55197; 51132; 18628; 22757; 26758; 30887; 2112; 6241; 10242; 14371;
  51660; 55789; 59790; 63919; 35144; 39273; 43274; 47403; 23285; 19156; 31415; 27286;
  6769; 2640; 14899; 10770; 56317; 52188; 64447; 60318; 39801; 35672; 47931; 43802;
  27814; 31879; 19684; 23749; 11298; 15363; 3168; 7233; 60846; 64911; 52716; 56781;
  44330; 48395; 36200; 40265; 32407; 28342; 24277; 20212; 15891; 11826; 7761; 3696;
  65439; 61374; 57309; 53244; 48923; 44858; 40793; 36728; 37256; 33193; 45514; 41451;
  53516; 49453; 61774; 57711; 4224; 161; 12482; 8419; 20484; 16421; 28742; 24679;
  33721; 37784; 41979; 46042; 49981; 54044; 58239; 62302; 689; 4752; 8947; 13010;
  16949; 21012; 25207; 29270; 46570; 42443; 38312; 34185; 62830; 58703; 54572; 50445;
  13538; 9411; 5280; 1153; 29798; 25671; 21540; 17413; 42971; 47098; 34713; 38840;
  59231; 63358; 50973; 55100; 9939; 14066; 1681; 5808; 26199; 30326; 17941; 22068;
  55628; 51565; 63758; 59695; 39368; 35305; 47498; 43435; 22596; 18533; 30726; 26663;
  6336; 2273; 14466; 10403; 52093; 56156; 60223; 64286; 35833; 39896; 43963; 48026;
  19061; 23124; 27191; 31254; 2801; 6864; 10931; 14994; 64814; 60687; 56684; 52557;
  48554; 44427; 40424; 36297; 31782; 27655; 23652; 19525; 15522; 11395; 7392; 3265;
  61215; 65342; 53085; 57212; 44955; 49082; 36825; 40952; 28183; 32310; 20053; 24180;
  11923; 16050; 3793; 7920
].

Definition table_crc32 : list Z := [
  0; 79764919; 159529838; 222504665; 319059676; 398814059; 445009330; 507990021; 638119352; 583659535; 797628118; 726387553;
  890018660; 835552979; 1015980042; 944750013; 1276238704; 1221641927; 1167319070; 1095957929; 1595256236; 1540665371; 1452775106; 1381403509;
  1780037320; 1859660671; 1671105958; 1733955601; 2031960084; 2111593891; 1889500026; 1952343757; 2552477408; 2632100695; 2443283854; 2506133561;
  2334638140; 2414271883; 2191915858; 2254759653; 3190512472; 3135915759; 3081330742; 3009969537; 2905550212; 2850959411; 2762807018; 2691435357;
  3560074640; 3505614887; 3719321342; 3648080713; 3342211916; 3287746299; 3467911202; 3396681109; 4063920168; 4143685023; 4223187782; 4286162673;
  3779000052; 3858754371; 3904687514; 3967668269; 881225847; 809987520; 1023691545; 969234094; 662832811; 591600412; 771767749; 717299826;
  311336399; 374308984; 453813921; 533576470; 25881363; 88864420; 134795389; 214552010; 2023205639; 2086057648; 1897238633; 1976864222;
  1804852699; 1867694188; 1645340341; 1724971778; 1587496639; 1516133128; 1461550545; 1406951526; 1302016099; 1230646740; 1142491917; 1087903418;
  2896545431; 2825181984; 2770861561; 2716262478; 3215044683; 3143675388; 3055782693; 3001194130; 2326604591; 2389456536; 2200899649; 2280525302;
  2578013683; 2640855108; 2418763421; 2498394922; 3769900519; 3832873040; 3912640137; 3992402750; 4088425275; 4151408268; 4197601365; 4277358050;
  3334271071; 3263032808; 3476998961; 3422541446; 3585640067; 3514407732; 3694837229; 3640369242; 1762451694; 1842216281; 1619975040; 1682949687;
  2047383090; 2127137669; 1938468188; 2001449195; 1325665622; 1271206113; 1183200824; 1111960463; 1543535498; 1489069629; 1434599652; 1363369299;
  622672798; 568075817; 748617968; 677256519; 907627842; 853037301; 1067152940; 995781531; 51762726; 131386257; 177728840; 240578815;
  269590778; 349224269; 429104020; 491947555; 4046411278; 4126034873; 4172115296; 4234965207; 3794477266; 3874110821; 3953728444; 4016571915;
  3609705398; 3555108353; 3735388376; 3664026991; 3290680682; 3236090077; 3449943556; 3378572211; 3174993278; 3120533705; 3032266256; 2961025959;
  2923101090; 2868635157; 2813903052; 2742672763; 2604032198; 2683796849; 2461293480; 2524268063; 2284983834; 2364738477; 2175806836; 2238787779;
  1569362073; 1498123566; 1409854455; 1355396672; 1317987909; 1246755826; 1192025387; 1137557660; 2072149281; 2135122070; 1912620623; 1992383480;
  1753615357; 1816598090; 1627664531; 1707420964; 295390185; 358241886; 404320391; 483945776; 43990325; 106832002; 186451547; 266083308;
  932423249; 861060070; 1041341759; 986742920; 613929101; 542559546; 756411363; 701822548; 3316196985; 3244833742; 3425377559; 3370778784;
  3601682597; 3530312978; 3744426955; 3689838204; 3819031489; 3881883254; 3928223919; 4007849240; 4037393693; 4100235434; 4180117107; 4259748804;
  2310601993; 2373574846; 2151335527; 2231098320; 2596047829; 2659030626; 2470359227; 2550115596; 2947551409; 2876312838; 2788305887; 2733848168;
  3165939309; 3094707162; 3040238851; 2985771188
].

(** A [char] is converted with its sign. *)
Definition crc16 (buf : list Z) : option Z :=
  remainder ← table_loop 16 table_crc16 (λ byte, reflect 16 (wrap 16 (schar byte)) 8) 0 buf;
  Some (Z.lxor (reflect 16 remainder 16) 0).

Definition crc32 (buf : list Z) : option Z :=
  remainder ← table_loop 32 table_crc32 (λ byte, reflect 32 (wrap 32 (schar byte)) 8) 0xffffffff buf;
  Some (Z.lxor (reflect 32 remainder 32) 0xffffffff).

Definition crcCCITT (buf : list Z) : option Z :=
  remainder ← table_loop 16 table_crcCCITT id 0xffff buf;
  Some (Z.lxor remainder 0).

(** ** Division a bit at a time *)

(** The bits of a number of [n] bits, the most significant one first. *)
Definition to_bits (n z : Z) : list bool := (λ i, Z.testbit z (n - 1 - i)) <$> seqZ 0 n.

Definition of_bits (bs : list bool) : Z := foldl (λ (acc : Z) (b : bool), 2 * acc + (if b then 1 else 0)) 0 bs.

(** Takes in one bit of the message: the remainder is shifted, and the polynomial is taken off when the bit that falls out and
    the bit of the message differ. *)
Definition divide_bit (w polynomial : Z) (remainder : Z) (bit : bool) : Z :=
  Z.lxor (wrap w (2 * remainder)) (if xorb (Z.testbit remainder (w - 1)) bit then polynomial else 0).

Definition crc_bits (w : Z) (c : crc_config_t) (buf : list Z) : Z :=
  let message := buf ≫= λ byte, let bits := to_bits 8 byte in if data_reflected c then rev bits else bits in
  let remainder := foldl (divide_bit w (polynomial c)) (initial_remainder c) message in
  Z.lxor (if remainder_reflected c then of_bits (rev (to_bits w remainder)) else remainder) (final_xor_value c).

(** ** Proof *)

Lemma land_bit x i : 0 ≤ i → (Z.land x (Z.shiftl 1 i) =? 0) = negb (Z.testbit x i).
Proof.
  intros Hi. rewrite Z.shiftl_1_l. destruct (Z.testbit x i) eqn:E; cbn.
  - apply Z.eqb_neq. intros H. apply (f_equal (λ z, Z.testbit z i)) in H. rewrite Z.land_spec, E, Z.pow2_bits_true, Z.bits_0 in H by lia. done.
  - apply Z.eqb_eq. apply Z.bits_inj'. intros k Hk. rewrite Z.land_spec, Z.bits_0, Z.pow2_bits_eqb by lia.
    destruct (Z.eqb_spec i k) as [->|]; [by rewrite E|by rewrite andb_false_r].
Qed.

Lemma wrap_lxor w x y : 0 ≤ w → wrap w (Z.lxor x y) = Z.lxor (wrap w x) (wrap w y).
Proof.
  intros Hw. apply Z.bits_inj'. intros i Hi. rewrite Z.lxor_spec, !wrap_spec, Z.lxor_spec by lia. by case_bool_decide.
Qed.

Lemma lxor_range w x y : 0 ≤ w → 0 ≤ x < 2 ^ w → 0 ≤ y < 2 ^ w → 0 ≤ Z.lxor x y < 2 ^ w.
Proof. intros Hw Hx Hy. rewrite <-(wrap_small w x), <-(wrap_small w y), <-wrap_lxor by lia. by apply wrap_range. Qed.

Lemma of_bits_snoc bs b : of_bits (bs ++ [b]) = 2 * of_bits bs + Z.b2z b.
Proof. unfold of_bits. rewrite foldl_app. by destruct b. Qed.

Lemma of_bits_range bs : 0 ≤ of_bits bs < 2 ^ Z.of_nat (length bs).
Proof.
  induction bs as [|b bs IH] using rev_ind; [done|]. rewrite of_bits_snoc, length_app, Nat2Z.inj_add, Z.pow_add_r by lia. cbn.
  destruct b; cbn; lia.
Qed.

Lemma of_bits_cons b bs : of_bits (b :: bs) = Z.lxor (Z.shiftl (Z.b2z b) (Z.of_nat (length bs))) (of_bits bs).
Proof.
  assert (∀ l acc, foldl (λ (acc : Z) (b : bool), 2 * acc + (if b then 1 else 0)) acc l = acc * 2 ^ Z.of_nat (length l) + of_bits l) as H.
  { induction l as [|x l IH] using rev_ind; intros acc; [cbn; lia|].
    rewrite foldl_app, of_bits_snoc, length_app, IH, Nat2Z.inj_add, Z.pow_add_r by lia. cbn. destruct x; cbn; lia. }
  unfold of_bits at 1. cbn [foldl]. rewrite H. pose proof (of_bits_range bs).
  rewrite <-Z.add_nocarry_lxor; [rewrite Z.shiftl_mul_pow2 by lia; by destruct b|].
  apply Z.bits_inj'. intros i Hi. rewrite Z.land_spec, Z.shiftl_spec, Z.bits_0 by lia.
  destruct (decide (i < Z.of_nat (length bs))); [by rewrite (Z.testbit_neg_r _ (i - _)) by lia|].
  by rewrite (testbit_high (of_bits bs) (Z.of_nat (length bs))), andb_false_r by lia.
Qed.

Lemma of_bits_testbit bs i : 0 ≤ i → Z.testbit (of_bits bs) i = default false (rev bs !! Z.to_nat i).
Proof.
  revert i. induction bs as [|b bs IH] using rev_ind; intros i Hi; [apply Z.bits_0|].
  rewrite of_bits_snoc, rev_unit. destruct (decide (i = 0)) as [->|Hne]; [by destruct b; [apply Z.testbit_odd_0|rewrite Z.add_0_r; apply Z.testbit_even_0]|].
  replace i with (Z.succ (i - 1)) by lia.
  assert (Z.testbit (2 * of_bits bs + Z.b2z b) (Z.succ (i - 1)) = Z.testbit (of_bits bs) (i - 1)) as ->.
  { destruct b; [by apply Z.testbit_odd_succ; lia|rewrite Z.add_0_r; apply Z.testbit_even_succ; lia]. }
  rewrite IH by lia. replace (Z.to_nat (Z.succ (i - 1))) with (S (Z.to_nat (i - 1))) by lia. done.
Qed.

Lemma to_bits_lookup n z k : 0 ≤ n → to_bits n z !! k = if decide (Z.of_nat k < n) then Some (Z.testbit z (n - 1 - Z.of_nat k)) else None.
Proof.
  intros Hn. unfold to_bits. rewrite list_lookup_fmap. case_decide.
  - by rewrite lookup_seqZ_lt by lia.
  - by rewrite lookup_seqZ_ge by lia.
Qed.

Lemma length_to_bits n z : length (to_bits n z) = Z.to_nat n.
Proof. unfold to_bits. by rewrite length_fmap, length_seqZ. Qed.

Lemma rev_lookup {A} (l : list A) k : (k < length l)%nat → rev l !! k = l !! (length l - S k)%nat.
Proof. intros Hk. rewrite rev_alt. by apply reverse_lookup. Qed.

Lemma of_to_bits n z : 0 ≤ n → 0 ≤ z < 2 ^ n → of_bits (to_bits n z) = z.
Proof.
  intros Hn Hz. apply Z.bits_inj'. intros i Hi. rewrite of_bits_testbit by lia.
  destruct (decide (i < n)).
  - rewrite rev_lookup, to_bits_lookup, length_to_bits by (rewrite ?length_to_bits; lia). rewrite decide_True by lia.
    cbn. f_equal. lia.
  - rewrite lookup_ge_None_2 by (rewrite length_rev, length_to_bits; lia). by rewrite (testbit_high z n) by lia.
Qed.

Lemma reversed_testbit n z i : 0 ≤ n → 0 ≤ i → Z.testbit (of_bits (rev (to_bits n z))) i = bool_decide (i < n) && Z.testbit z (n - 1 - i).
Proof.
  intros Hn Hi. rewrite of_bits_testbit, rev_involutive, to_bits_lookup by lia. rewrite Z2Nat.id by lia.
  case_bool_decide; [by rewrite decide_True|by rewrite decide_False].
Qed.

(** ** Reflecting *)

Lemma reflect_loop_spec w nBits n : ∀ bit data reflection i, 0 ≤ bit → nBits = bit + Z.of_nat n → nBits ≤ w → 0 ≤ reflection < 2 ^ w → 0 ≤ i →
  Z.testbit (reflect_loop w nBits n bit data reflection) i =
  Z.testbit reflection i || (bool_decide (i < Z.of_nat n) && Z.testbit data (Z.of_nat n - 1 - i)).
Proof.
  induction n as [|n IH]; intros bit data reflection i Hb Hn Hw Hr Hi; cbn [reflect_loop].
  { rewrite bool_decide_false by lia. by rewrite orb_false_r. }
  assert ((Z.land data 1 =? 0) = negb (Z.testbit data 0)) as -> by (apply (land_bit data 0); lia).
  rewrite IH; [|lia|lia|lia| |lia]; [|destruct (Z.testbit data 0); cbn [negb]; [apply wrap_range; lia|done]].
  assert (Z.testbit (if negb (Z.testbit data 0) then reflection else wrap w (Z.lor reflection (Z.shiftl 1 (nBits - 1 - bit)))) i =
          Z.testbit reflection i || (bool_decide (i = Z.of_nat n) && Z.testbit data 0)) as ->.
  { destruct (Z.testbit data 0); cbn [negb]; [|by rewrite andb_false_r, orb_false_r].
    rewrite wrap_spec, Z.lor_spec, Z.shiftl_1_l, Z.pow2_bits_eqb, andb_true_r by lia.
    destruct (decide (i < w)).
    - rewrite bool_decide_true by lia. cbn [andb]. f_equal. destruct (Z.eqb_spec (nBits - 1 - bit) i); symmetry;
        [apply bool_decide_true|apply bool_decide_false]; lia.
    - rewrite bool_decide_false by lia. rewrite (testbit_high reflection w i) by lia. by rewrite bool_decide_false by lia. }
  rewrite <-orb_assoc. f_equal. destruct (decide (i < Z.of_nat n)).
  - rewrite !(bool_decide_true (i < _)) by lia. rewrite bool_decide_false by lia. cbn [andb orb]. rewrite Z.shiftr_spec by lia. f_equal. lia.
  - rewrite (bool_decide_false (i < Z.of_nat n)) by lia. rewrite orb_false_r. destruct (decide (i = Z.of_nat n)) as [->|].
    + rewrite !bool_decide_true by lia. cbn [andb]. f_equal. lia.
    + by rewrite !bool_decide_false by lia.
Qed.

Lemma reflect_testbit w data n i : 0 ≤ n ≤ w → 0 ≤ i →
  Z.testbit (reflect w data n) i = bool_decide (i < n) && Z.testbit data (n - 1 - i).
Proof.
  intros Hn Hi. unfold reflect. rewrite reflect_loop_spec by (try split; try apply Z.pow_pos_nonneg; lia).
  rewrite Z.bits_0, Z2Nat.id by lia. done.
Qed.

(** Reflecting reverses the bits. *)
Lemma reflect_reversed w data n : 0 ≤ n ≤ w → reflect w data n = of_bits (rev (to_bits n data)).
Proof. intros Hn. apply Z.bits_inj'. intros i Hi. by rewrite reflect_testbit, reversed_testbit by lia. Qed.

(** ** Division *)

Section division.
Context (w poly : Z) (Hw : 8 ≤ w) (Hpoly : 0 ≤ poly < 2 ^ w).

Lemma divide_bit_testbit r b i : 0 ≤ i → Z.testbit (divide_bit w poly r b) i =
  xorb (bool_decide (i < w) && Z.testbit r (i - 1)) (xorb (Z.testbit r (w - 1)) b && Z.testbit poly i).
Proof.
  intros Hi. unfold divide_bit. rewrite Z.lxor_spec, wrap_spec, Z.double_bits by lia. f_equal. destruct (xorb _ _); [done|apply Z.bits_0].
Qed.

Lemma divide_bit_range r b : 0 ≤ divide_bit w poly r b < 2 ^ w.
Proof. unfold divide_bit. apply lxor_range; [lia|apply wrap_range; lia|]. destruct (xorb _ _); lia. Qed.

Lemma divide_bit_lxor x y b c : divide_bit w poly (Z.lxor x y) (xorb b c) = Z.lxor (divide_bit w poly x b) (divide_bit w poly y c).
Proof.
  apply Z.bits_inj'. intros i Hi. rewrite Z.lxor_spec, !divide_bit_testbit, !Z.lxor_spec by lia.
  destruct (bool_decide (i < w)), (Z.testbit x (i - 1)), (Z.testbit y (i - 1)), (Z.testbit x (w - 1)), (Z.testbit y (w - 1)), b, c,
    (Z.testbit poly i); reflexivity.
Qed.

Notation step r := (divide_bit w poly r false).

Lemma divide_step r : divide w poly r = step r.
Proof.
  unfold divide. rewrite land_bit by lia. unfold divide_bit. rewrite xorb_false_r, Z.shiftl_mul_pow2 by lia. change (2 ^ 1) with 2.
  rewrite (Z.mul_comm r). destruct (Z.testbit r (w - 1)); cbn [negb]; [|by rewrite Z.lxor_0_r].
  rewrite wrap_lxor, (wrap_small w poly), (wrap_small w (wrap w _)) by (try apply wrap_range; lia). done.
Qed.

(** The bit of the message is a bit of the remainder. *)
Lemma divide_bit_first r b : divide_bit w poly r b = step (Z.lxor r (Z.shiftl (Z.b2z b) (w - 1))).
Proof.
  apply Z.bits_inj'. intros i Hi. rewrite !divide_bit_testbit, !Z.lxor_spec by lia.
  assert (∀ k, k < w - 1 → Z.testbit (Z.shiftl (Z.b2z b) (w - 1)) k = false) as Hl.
  { intros k Hk. destruct (decide (k < 0)); [by rewrite Z.testbit_neg_r by lia|]. rewrite Z.shiftl_spec by lia. apply Z.testbit_neg_r. lia. }
  rewrite (Z.shiftl_spec _ _ (w - 1)) by lia. rewrite Z.sub_diag, xorb_false_r. replace (Z.testbit (Z.b2z b) 0) with b by (by destruct b).
  case_bool_decide; [|done]. rewrite Hl by lia. by rewrite xorb_false_r.
Qed.

(** A remainder whose first bit is zero is shifted. *)
Lemma step_small r n : 0 ≤ n < w → 0 ≤ r < 2 ^ (w - 1 - n) → step (Z.shiftl r n) = Z.shiftl r (n + 1).
Proof.
  intros Hn Hr. apply Z.bits_inj'. intros i Hi. rewrite divide_bit_testbit by lia.
  rewrite (Z.shiftl_spec r n (w - 1)), (testbit_high r (w - 1 - n) (w - 1 - n)) by lia. cbn [xorb andb]. rewrite xorb_false_r.
  rewrite (Z.shiftl_spec r (n + 1)) by lia. destruct (decide (i = 0)) as [->|].
  { rewrite !Z.testbit_neg_r by lia. by rewrite andb_false_r. }
  rewrite Z.shiftl_spec by lia. replace (i - 1 - n) with (i - (n + 1)) by lia. case_bool_decide; [done|].
  by rewrite (testbit_high r (w - 1 - n)) by lia.
Qed.

Definition steps (n : nat) (r : Z) : Z := Nat.iter n (λ x, divide_bit w poly x false) r.

Lemma steps_last n r : steps (S n) r = step (steps n r).
Proof. done. Qed.

Lemma steps_S n r : steps (S n) r = steps n (step r).
Proof. unfold steps. by rewrite Nat.iter_succ_r. Qed.

Lemma steps_range n r : 0 ≤ r < 2 ^ w → 0 ≤ steps n r < 2 ^ w.
Proof. intros Hr. destruct n; [done|]. rewrite steps_last. apply divide_bit_range. Qed.

Lemma steps_lxor n x y : steps n (Z.lxor x y) = Z.lxor (steps n x) (steps n y).
Proof. induction n as [|n IH]; [done|]. by rewrite !steps_last, IH, <-(divide_bit_lxor _ _ false false). Qed.

Lemma steps_small n r : 0 ≤ r < 2 ^ (w - Z.of_nat n) → Z.of_nat n ≤ w → steps n r = Z.shiftl r (Z.of_nat n).
Proof.
  intros Hr Hn. induction n as [|n IH]; [by rewrite Z.shiftl_0_r|]. rewrite steps_last.
  assert (2 ^ (w - Z.of_nat (S n)) ≤ 2 ^ (w - Z.of_nat n)) by (apply Z.pow_le_mono_r; lia).
  rewrite IH by lia. rewrite step_small; [f_equal; lia|lia|]. replace (w - 1 - Z.of_nat n) with (w - Z.of_nat (S n)) by lia. lia.
Qed.

(** Taking in bits is as many steps from the remainder with the bits at its end. *)
Lemma divide_bits bs : ∀ r, Z.of_nat (length bs) ≤ w →
  foldl (divide_bit w poly) r bs = steps (length bs) (Z.lxor r (Z.shiftl (of_bits bs) (w - Z.of_nat (length bs)))).
Proof.
  induction bs as [|b bs IH]; intros r Hl; [cbn; by rewrite Z.shiftl_0_l, Z.lxor_0_r|]. cbn [foldl length] in *. rewrite IH by lia.
  rewrite steps_S, divide_bit_first. f_equal. rewrite of_bits_cons, Z.shiftl_lxor, Z.shiftl_shiftl by lia.
  replace (Z.of_nat (length bs) + (w - Z.of_nat (S (length bs)))) with (w - 1) by lia.
  rewrite <-Z.lxor_assoc, (divide_bit_lxor (Z.lxor r _) (Z.shiftl (of_bits bs) _) false false). f_equal.
  rewrite step_small; [f_equal; lia|lia|]. replace (w - 1 - (w - Z.of_nat (S (length bs)))) with (Z.of_nat (length bs)) by lia. apply of_bits_range.
Qed.

(** The entry of the table for [d]. *)
Lemma table_lookup c d : polynomial c = poly → 0 ≤ d < 256 → vget (recompute_crc_table w c) d = Some (steps 8 (Z.shiftl d (w - 8))).
Proof.
  intros Hc Hd. unfold recompute_crc_table. rewrite vget_fmap, vget_nat, Hc by lia. rewrite lookup_seqZ_lt by lia. cbn [fmap option_fmap option_map].
  f_equal. rewrite Z.add_0_l, Z2Nat.id by lia. rewrite wrap_small.
  - unfold steps. generalize (Z.shiftl d (w - 8)). intros r. generalize 8%nat. induction n as [|n IH]; [done|]. rewrite !Nat.iter_succ, IH. apply divide_step.
  - rewrite Z.shiftl_mul_pow2 by lia. assert (2 ^ w = 256 * 2 ^ (w - 8)) as -> by (change 256 with (2 ^ 8); rewrite <-Z.pow_add_r by lia; f_equal; lia).
    nia.
Qed.

(** A byte is taken in with one look into the table. *)
Lemma table_step r v : 0 ≤ r < 2 ^ w → 0 ≤ v < 256 →
  wrap w (Z.lxor (steps 8 (Z.shiftl (Z.lxor v (Z.shiftr r (w - 8))) (w - 8))) (Z.shiftl r 8)) = steps 8 (Z.lxor r (Z.shiftl v (w - 8))).
Proof.
  intros Hr Hv.
  assert (Z.lxor r (Z.shiftl v (w - 8)) = Z.lxor (Z.shiftl (Z.lxor v (Z.shiftr r (w - 8))) (w - 8)) (wrap (w - 8) r)) as ->.
  { apply Z.bits_inj'. intros i Hi. rewrite !Z.lxor_spec, wrap_spec by lia. destruct (decide (i < w - 8)).
    - rewrite !Z.shiftl_spec by lia. rewrite !(Z.testbit_neg_r _ (i - (w - 8))) by lia. rewrite bool_decide_true by lia. by destruct (Z.testbit r i).
    - rewrite !Z.shiftl_spec, Z.lxor_spec, Z.shiftr_spec by lia. rewrite bool_decide_false by lia. replace (i - (w - 8) + (w - 8)) with i by lia.
      by destruct (Z.testbit r i), (Z.testbit v (i - (w - 8))). }
  rewrite steps_lxor, wrap_lxor by lia.
  assert (0 ≤ Z.shiftl (Z.lxor v (Z.shiftr r (w - 8))) (w - 8) < 2 ^ w) as Hx.
  { assert (2 ^ w = 2 ^ 8 * 2 ^ (w - 8)) as E by (rewrite <-Z.pow_add_r by lia; f_equal; lia).
    assert (0 ≤ Z.shiftr r (w - 8) < 2 ^ 8).
    { rewrite Z.shiftr_div_pow2 by lia. split; [apply Z.div_pos; lia|]. apply Z.div_lt_upper_bound; [lia|]. lia. }
    pose proof (lxor_range 8 v (Z.shiftr r (w - 8))) as Hl. rewrite Z.shiftl_mul_pow2 by lia. change (2 ^ 8) with 256 in *. nia. }
  rewrite (wrap_small w (steps 8 _)) by (by apply steps_range). f_equal.
  pose proof (wrap_range (w - 8) r). rewrite steps_small by (cbn; lia). change (Z.of_nat 8) with 8.
  apply Z.bits_inj'. intros i Hi. rewrite wrap_spec by lia. destruct (decide (i < 8)).
  - rewrite !Z.shiftl_spec_low by lia. by rewrite andb_false_r.
  - rewrite !Z.shiftl_spec, wrap_spec by lia. f_equal. apply bool_decide_ext. lia.
Qed.

(** A loop over the bytes takes in their bits, when [data_of] gives the number that the bits of a byte are. *)
Lemma table_loop_bits c data_of bits_of buf : polynomial c = poly →
  (∀ b, b ∈ buf → length (bits_of b) = 8%nat ∧ data_of b = of_bits (bits_of b)) →
  ∀ r, 0 ≤ r < 2 ^ w → table_loop w (recompute_crc_table w c) data_of r buf = Some (foldl (divide_bit w poly) r (buf ≫= bits_of)) ∧
  0 ≤ foldl (divide_bit w poly) r (buf ≫= bits_of) < 2 ^ w.
Proof.
  intros Hc. induction buf as [|b buf IH]; intros Hb r Hr; [done|]. destruct (Hb b) as [Hl Hd]; [left|].
  pose proof (of_bits_range (bits_of b)) as Hv. rewrite Hl in Hv. change (2 ^ Z.of_nat 8) with 256 in Hv. cbn [table_loop].
  rewrite Hd, (table_lookup c) by (done || (apply (lxor_range 8); [lia..|];
    rewrite Z.shiftr_div_pow2 by lia; split; [apply Z.div_pos; lia|]; apply Z.div_lt_upper_bound; [lia|];
    rewrite <-Z.pow_add_r by lia; replace (w - 8 + 8) with w by lia; lia)).
  rewrite bind_cons, foldl_app. cbn [mbind option_bind]. rewrite table_step by done.
  rewrite (divide_bits (bits_of b)), Hl by lia. change (Z.of_nat 8) with 8. apply IH; [intros b' Hb'; apply Hb; by right|].
  apply steps_range, lxor_range; [lia|done|]. rewrite Z.shiftl_mul_pow2 by lia.
  assert (2 ^ w = 256 * 2 ^ (w - 8)) as -> by (change 256 with (2 ^ 8); rewrite <-Z.pow_add_r by lia; f_equal; lia). nia.
Qed.
End division.

(** ** The calculations *)

Definition config_ok (w : Z) (c : crc_config_t) : Prop :=
  0 ≤ polynomial c < 2 ^ w ∧ 0 ≤ initial_remainder c < 2 ^ w ∧ 0 ≤ final_xor_value c < 2 ^ w.

Lemma run_bits w c data_of buf : 8 ≤ w → config_ok w c →
  (∀ b, b ∈ buf → data_of b = of_bits (let bits := to_bits 8 b in if data_reflected c then rev bits else bits)) →
  (remainder ← table_loop w (recompute_crc_table w c) data_of (initial_remainder c) buf;
   Some (Z.lxor (if remainder_reflected c then reflect w remainder w else remainder) (final_xor_value c))) = Some (crc_bits w c buf).
Proof.
  intros Hw (Hp & Hi & _) Hd.
  destruct (table_loop_bits w (polynomial c) Hw Hp c data_of (λ byte, let bits := to_bits 8 byte in if data_reflected c then rev bits else bits)
    buf eq_refl) with (r := initial_remainder c) as [-> Hr]; [|done|].
  { intros b Hb. split; [|by apply Hd]. cbv zeta. destruct (data_reflected c); by rewrite ?length_rev, length_to_bits. }
  cbn [mbind option_bind]. unfold crc_bits. f_equal. destruct (remainder_reflected c); [|done]. by rewrite reflect_reversed by lia.
Qed.

(** The configurable CRC with its table is the division of the message a bit at a time, for every width, polynomial, initial
    remainder and reflection. *)
Lemma crc_custom_divides w c buf : 8 ≤ w → config_ok w c → bytes_ok buf →
  crc_custom_run w (update_config w c) buf = Some (crc_bits w c buf).
Proof.
  intros Hw Hc Hb. apply (run_bits w c); [done|done|]. intros b Hin. assert (byte_ok b) as Hbb by (unfold bytes_ok in Hb; rewrite Forall_forall in Hb; auto). unfold byte_ok in Hbb.
  cbv zeta. cbn [config update_config]. destruct (data_reflected c); [by apply reflect_reversed; lia|]. symmetry. by apply of_to_bits; lia.
Qed.

(** The tables of the source are the tables of their polynomials. *)
Definition poly_config (poly : Z) : crc_config_t :=
  {| polynomial := poly; initial_remainder := 0; final_xor_value := 0; data_reflected := false; remainder_reflected := false |}.

(** The table depends on the polynomial only. *)
Lemma run_table w table poly initial final (reflected : bool) data_of finish buf :
  let c := {| polynomial := poly; initial_remainder := initial; final_xor_value := final; data_reflected := reflected;
              remainder_reflected := reflected |} in
  table = recompute_crc_table w (poly_config poly) → 8 ≤ w → config_ok w c →
  (∀ b, b ∈ buf → data_of b = of_bits (if reflected then rev (to_bits 8 b) else to_bits 8 b)) →
  (∀ r, finish r = Some (Z.lxor (if reflected then reflect w r w else r) final)) →
  table_loop w table data_of initial buf ≫= finish = Some (crc_bits w c buf).
Proof.
  intros c -> Hw Hc Hd Hf. rewrite <-(run_bits w c data_of buf) by done. change (recompute_crc_table w (poly_config poly)) with (recompute_crc_table w c).
  cbn [initial_remainder c]. destruct (table_loop _ _ _ _ _) as [r|]; [apply Hf|done].
Qed.

Lemma table_crc16_ok : table_crc16 = recompute_crc_table 16 (poly_config 0x8005).
Proof. by vm_compute. Qed.
Lemma table_crc32_ok : table_crc32 = recompute_crc_table 32 (poly_config 0x04c11db7).
Proof. by vm_compute. Qed.
Lemma table_crcCCITT_ok : table_crcCCITT = recompute_crc_table 16 (poly_config 0x1021).
Proof. by vm_compute. Qed.

(** The sign of a [char] makes no difference to its bits. *)
Lemma schar_bits w b : 8 ≤ w → byte_ok b → to_bits 8 (wrap w (schar b)) = to_bits 8 b.
Proof.
  intros Hw Hb. unfold to_bits. apply list_fmap_ext. intros k i Hi. apply lookup_seqZ in Hi as [-> Hk].
  rewrite wrap_spec, bool_decide_true by lia. cbn [andb]. unfold schar. destruct (Z.ltb_spec b 128); [done|].
  assert (∀ z, Z.testbit z (8 - 1 - (0 + Z.of_nat k)) = Z.testbit (wrap 8 z) (8 - 1 - (0 + Z.of_nat k))) as E.
  { intros z. by rewrite wrap_spec, bool_decide_true by lia. }
  rewrite E, (E b). f_equal. unfold wrap. change (2 ^ 8) with 256. replace (b - 256) with (b + (-1) * 256) by lia. apply Z_mod_plus_full.
Qed.

Lemma reflected_char w b : 8 ≤ w → byte_ok b → reflect w (wrap w (schar b)) 8 = of_bits (rev (to_bits 8 b)).
Proof. intros Hw Hb. by rewrite reflect_reversed, schar_bits by (auto; lia). Qed.

(** The CRC-CCITT of [crcCCITT]. *)
Definition ccitt_config : crc_config_t :=
  {| polynomial := 0x1021; initial_remainder := 0xffff; final_xor_value := 0; data_reflected := false; remainder_reflected := false |}.

(** The three CRCs with tables in the source are the division, a bit at a time, by the polynomials 0x8005, 0x04c11db7 and
    0x1021. *)
Lemma static_crcs buf : bytes_ok buf →
  crc16 buf = Some (crc_bits 16 (crc_custom_init 16) buf) ∧
  crc32 buf = Some (crc_bits 32 (crc_custom_init 32) buf) ∧
  crcCCITT buf = Some (crc_bits 16 ccitt_config buf).
Proof.
  intros Hb. assert (∀ b, b ∈ buf → byte_ok b) as Hbb by (unfold bytes_ok in Hb; by rewrite Forall_forall in Hb).
  split; [|split].
  - apply (run_table 16 table_crc16 0x8005 0 0 true); [exact table_crc16_ok|lia|by vm_compute| |done].
    intros b Hin. apply reflected_char; [lia|auto].
  - apply (run_table 32 table_crc32 0x04c11db7 0xffffffff 0xffffffff true); [exact table_crc32_ok|lia|by vm_compute| |done].
    intros b Hin. apply reflected_char; [lia|auto].
  - apply (run_table 16 table_crcCCITT 0x1021 0xffff 0 false); [exact table_crcCCITT_ok|lia|by vm_compute| |done].
    intros b Hin. symmetry. apply of_to_bits; [lia|]. by apply Hbb.
Qed.

(** The digits from 1 to 9, and their CRCs. *)
Definition check : list Z := [49; 50; 51; 52; 53; 54; 55; 56; 57].

Example check_crcs : crc16 check = Some 0xbb3d ∧ crc32 check = Some 0xcbf43926 ∧ crcCCITT check = Some 0x29b1.
Proof. vm_compute. done. Qed.
End Crc.
