(* ===== verification/Cksum.v ===== *)
(** * The Internet checksum (src/bm_sim/calculations.cpp, src/bm_sim/checksums.cpp)

    [cksum16] adds eight bytes at a time, on a host that reads them with the
    least significant byte first, and folds the sum to 16 bits; the proofs show
    that it is the checksum of RFC 1071. *)

From S2P Require Import Prelude.

Module Cksum.

(** ** The code *)

(** The number that the bytes of a buffer are read as. *)
Definition le_value (l : list Z) : Z := be_value (rev l).

(** [sum += s; if (sum < s) sum++], on [w] bits. *)
Definition add_carry (w sum s : Z) : Z :=
  let sum := wrap w (sum + s) in
  if sum <? s then wrap w (sum + 1) else sum.

(** Also returns what is left of the buffer. *)
Fixpoint main_loop (sum : Z) (b : list Z) : Z * list Z :=
  match b with
  | b0 :: b1 :: b2 :: b3 :: b4 :: b5 :: b6 :: b7 :: b' =>
      main_loop (add_carry 64 sum (le_value [b0; b1; b2; b3; b4; b5; b6; b7])) b'
  | _ => (sum, b)
  end.

(** [if (len & n) { sum += the n bytes at tail; tail += n; }] *)
Definition add_tail (len : Z) (n : nat) (st : Z * list Z) : Z * list Z :=
  let '(sum, tail) := st in
  if Z.land len (Z.of_nat n) =? 0 then st else (add_carry 64 sum (le_value (take n tail)), drop n tail).

Definition sum64 (buf : list Z) : Z :=
  let '(sum, tail) := main_loop 0 buf in
  let len := Z.of_nat (length tail) in
  fst (add_tail len 1 (add_tail len 2 (add_tail len 4 (sum, tail)))).

(** [t1] after the first fold, [t3] after the second. *)
Definition fold16 (sum : Z) : Z :=
  let t1 := u32 sum in
  let t2 := u32 (Z.shiftr sum 32) in
  let t1 := add_carry 32 t1 t2 in
  let t3 := wrap 16 t1 in
  let t4 := wrap 16 (Z.shiftr t1 16) in
  add_carry 16 t3 t4.

(** The [cksum16] of checksums.cpp: in network byte order, on this host. *)
Definition cksum16_raw (buf : list Z) : Z := wrap 16 (Z.lnot (fold16 (sum64 buf))).

Definition ntohs (x : Z) : Z := wrap 16 (Z.lor (Z.shiftl x 8) (Z.shiftr x 8)).

(** The [cksum16] of calculations.cpp. *)
Definition cksum16 (buf : list Z) : Z := ntohs (wrap 16 (Z.lnot (fold16 (sum64 buf)))).

Definition csum16 (buf : list Z) : Z := cksum16 buf.

(** ** RFC 1071 *)

(** The one's complement sum of 16-bit numbers: a carry out of the top bit is added at the bottom. *)
Definition ones_add (a b : Z) : Z := let s := a + b in if s <? 2 ^ 16 then s else s - 2 ^ 16 + 1.

(** The 16-bit numbers of a message; an odd byte at the end is padded with zeros. *)
Fixpoint words (l : list Z) : list Z :=
  match l with
  | a :: b :: l => 256 * a + b :: words l
  | [a] => [256 * a]
  | [] => []
  end.

Definition rfc1071 (l : list Z) : Z := 2 ^ 16 - 1 - foldl ones_add 0 (words l).

(** The bytes of a 16-bit number, most significant first. *)
Definition word_bytes (x : Z) : list Z := [x / 256; x mod 256].

(** ** Sums up to multiples of 65535 *)

(** The sum of the 16-bit numbers with the other byte order. *)
Fixpoint le_sum (l : list Z) : Z :=
  match l with
  | a :: b :: l => a + 256 * b + le_sum l
  | [a] => a
  | [] => 0
  end.

(** [x] stands for the sum [n]: it is zero for zero only. *)
Definition sums (x n : Z) : Prop := x mod 65535 = n mod 65535 ∧ (x = 0 ↔ n = 0).

Lemma list_pairs_ind {A} (P : list A → Prop) :
  P [] → (∀ a, P [a]) → (∀ a b l, P l → P (a :: b :: l)) → ∀ l, P l.
Proof.
  intros H0 H1 H2 l. enough (P l ∧ ∀ a, P (a :: l)) by tauto. induction l as [|b l [IH1 IH2]]; [auto|]. split; [apply IH2|]. intros a. by apply H2.
Qed.

Lemma le_value_cons b l : le_value (b :: l) = b + 256 * le_value l.
Proof. unfold le_value. cbn [rev]. unfold be_value. rewrite foldl_app. cbn. lia. Qed.

Lemma le_value_bounds l : bytes_ok l → 0 ≤ le_value l < 256 ^ Z.of_nat (length l).
Proof.
  induction 1 as [|b l Hb Hl IH]; [done|]. unfold byte_ok in Hb. rewrite le_value_cons. cbn [length].
  rewrite Nat2Z.inj_succ, Z.pow_succ_r by lia. lia.
Qed.

Lemma mod_add_congr a b c n : b mod n = c mod n → (a + b) mod n = (a + c) mod n.
Proof. intros H. by rewrite <-(Zplus_mod_idemp_r b), H, Zplus_mod_idemp_r. Qed.

Lemma le_sum_nonneg l : bytes_ok l → 0 ≤ le_sum l.
Proof.
  induction l as [|a|a b l IH] using list_pairs_ind; intros Hl; [done|..].
  - apply Forall_cons in Hl as [Ha _]. unfold byte_ok in Ha. cbn. lia.
  - apply Forall_cons in Hl as [Ha [Hb Hl]%Forall_cons]. unfold byte_ok in *. cbn [le_sum]. specialize (IH Hl). lia.
Qed.

Lemma le_value_sums l : bytes_ok l → sums (le_value l) (le_sum l).
Proof.
  induction l as [|a|a b l IH] using list_pairs_ind; intros Hl; [done|..].
  - by unfold le_value.
  - apply Forall_cons in Hl as [Ha [Hb Hl]%Forall_cons]. unfold byte_ok in *. destruct (IH Hl) as [IHm IHz].
    pose proof (le_value_bounds l Hl). pose proof (le_sum_nonneg l Hl). rewrite !le_value_cons. cbn [le_sum]. split; [|lia].
    replace (a + 256 * (b + 256 * le_value l)) with (a + 256 * b + le_value l + le_value l * 65535) by lia.
    rewrite Z_mod_plus_full. by apply mod_add_congr.
Qed.

Lemma le_sum_app l1 l2 : Nat.even (length l1) = true → le_sum (l1 ++ l2) = le_sum l1 + le_sum l2.
Proof.
  induction l1 as [|a|a b l1 IH] using list_pairs_ind; intros He; [done|done|]. cbn [app le_sum]. rewrite IH by done. lia.
Qed.

(** A carry out of the top is worth one at the bottom. *)
Lemma add_carry_eq w x s : 0 ≤ w → 0 ≤ x < 2 ^ w → 0 ≤ s < 2 ^ w →
  add_carry w x s = if x + s <? 2 ^ w then x + s else x + s - (2 ^ w - 1).
Proof.
  intros Hw Hx Hs. unfold add_carry. destruct (Z.ltb_spec (x + s) (2 ^ w)).
  - rewrite wrap_small by lia. by destruct (Z.ltb_spec (x + s) s); [lia|].
  - assert (wrap w (x + s) = x + s - 2 ^ w) as ->.
    { unfold wrap. symmetry. apply Z.mod_unique with 1; lia. }
    destruct (Z.ltb_spec (x + s - 2 ^ w) s); [|lia]. rewrite wrap_small; lia.
Qed.

Lemma add_carry_sums w x s n m : 0 < w → (2 ^ w - 1) mod 65535 = 0 → 0 ≤ x < 2 ^ w → 0 ≤ s < 2 ^ w → 0 ≤ n → 0 ≤ m →
  sums x n → sums s m → 0 ≤ add_carry w x s < 2 ^ w ∧ sums (add_carry w x s) (n + m).
Proof.
  intros Hw Hdiv Hx Hs Hn Hm [Hxn Hx0] [Hsm Hs0]. rewrite add_carry_eq by lia.
  assert ((x + s) mod 65535 = (n + m) mod 65535) as E by (rewrite Z.add_mod, Hxn, Hsm, <-Z.add_mod by lia; done).
  assert (2 ≤ 2 ^ w) by (change 2 with (2 ^ 1) at 1; apply Z.pow_le_mono_r; lia).
  destruct (Z.ltb_spec (x + s) (2 ^ w)); split; try lia; split; try lia.
  by rewrite <-Zminus_mod_idemp_r, Hdiv, Z.sub_0_r.
Qed.

Lemma add64_sums x l n : 0 ≤ x < 2 ^ 64 → bytes_ok l → (length l ≤ 8)%nat → 0 ≤ n → sums x n →
  0 ≤ add_carry 64 x (le_value l) < 2 ^ 64 ∧ sums (add_carry 64 x (le_value l)) (n + le_sum l).
Proof.
  intros Hx Hl Hlen Hn Hs. pose proof (le_value_bounds l Hl). pose proof (le_sum_nonneg l Hl).
  assert (256 ^ Z.of_nat (length l) ≤ 2 ^ 64) by (change (2 ^ 64) with (256 ^ 8); apply Z.pow_le_mono_r; lia).
  apply add_carry_sums; [lia|done|lia|lia|lia|lia|done|]. by apply le_value_sums.
Qed.

Lemma main_loop_sums (k : nat) : ∀ (b : list Z) (sum n : Z), (length b ≤ k)%nat → bytes_ok b → 0 ≤ sum < 2 ^ 64 → 0 ≤ n → sums sum n →
  ∃ sum' tail n', main_loop sum b = (sum', tail) ∧ (length tail < 8)%nat ∧ bytes_ok tail ∧ 0 ≤ sum' < 2 ^ 64 ∧ 0 ≤ n' ∧
    sums sum' n' ∧ n' + le_sum tail = n + le_sum b.
Proof.
  induction k as [|k IH]; intros b sum n Hk Hb Hr Hn Hs;
    do 8 (destruct b as [|? b];
      [cbn in Hk; eexists _, _, n; split; [reflexivity|]; cbn [length]; split; [lia|]; repeat (split; [assumption|]); lia|]);
    cbn [length] in Hk; [lia|]. cbn [main_loop].
  destruct (proj1 (Forall_app _ [z; z0; z1; z2; z3; z4; z5; z6] b) Hb) as [H8 Hb'].
  destruct (add64_sums sum [z; z0; z1; z2; z3; z4; z5; z6] n) as [Hr' Hs']; [done|done|cbn; lia|done|done|].
  pose proof (le_sum_nonneg _ H8).
  destruct (IH b (add_carry 64 sum (le_value [z; z0; z1; z2; z3; z4; z5; z6])) (n + le_sum [z; z0; z1; z2; z3; z4; z5; z6])) as (sum' & tail & n' & E & Hl & Ht & Hr2 & Hn2 & Hs2 & En); [lia|done|exact Hr'|lia|exact Hs'|].
  exists sum', tail, n'. repeat (split; [done|]). rewrite En.
  change (z :: z0 :: z1 :: z2 :: z3 :: z4 :: z5 :: z6 :: b) with ([z; z0; z1; z2; z3; z4; z5; z6] ++ b). rewrite le_sum_app by done. lia.
Qed.

(** The bytes counted and those left. *)
Definition adds_up (total : Z) (st : Z * list Z) : Prop :=
  ∃ n, 0 ≤ n ∧ 0 ≤ st.1 < 2 ^ 64 ∧ bytes_ok st.2 ∧ sums st.1 n ∧ n + le_sum st.2 = total.

Lemma add_tail_sums len k total st : (k ≤ 8)%nat → Nat.even k = true ∨ (length st.2 ≤ k)%nat →
  (Z.land len (Z.of_nat k) ≠ 0 → (k ≤ length st.2)%nat) → adds_up total st → adds_up total (add_tail len k st).
Proof.
  destruct st as [sum tail]. intros Hk He Hlen (n & Hn & Hr & Hb & Hs & E). unfold add_tail. cbn [fst snd] in *.
  destruct (Z.eqb_spec (Z.land len (Z.of_nat k)) 0) as [|Hne]; [by exists n|]. specialize (Hlen Hne).
  assert (bytes_ok (take k tail)) as Ht by by apply Forall_take. pose proof (le_sum_nonneg _ Ht).
  destruct (add64_sums sum (take k tail) n) as [Hr' Hs']; [done|done|rewrite length_take; lia|done|done|].
  exists (n + le_sum (take k tail)). cbn [fst snd]. split; [lia|]. split; [done|]. split; [by apply Forall_drop|]. split; [done|].
  rewrite <-E, <-Z.add_assoc. f_equal. destruct He as [He|He].
  - rewrite <-le_sum_app, take_drop; [done|]. by rewrite length_take, Nat.min_l by lia.
  - by rewrite drop_ge, take_ge, Z.add_0_r by lia.
Qed.

Lemma add_tail_snd len k st : snd (add_tail len k st) = if Z.land len (Z.of_nat k) =? 0 then snd st else drop k (snd st).
Proof. destruct st. unfold add_tail. by destruct (_ =? 0). Qed.

(** The bits of the length are those of the parts of the tail. *)
Ltac short_tail tail :=
  rewrite ?add_tail_snd; cbn [snd]; do 8 (destruct tail as [|? tail]; [vm_compute; tauto || lia|]); cbn [length] in *; lia.

Lemma sum64_sums buf : bytes_ok buf → 0 ≤ sum64 buf < 2 ^ 64 ∧ sums (sum64 buf) (le_sum buf).
Proof.
  intros Hb. destruct (main_loop_sums (length buf) buf 0 0) as (sum & tail & n & E & Hl & Ht & Hr & Hn & Hs & En); [lia|done|lia|lia|done|].
  unfold sum64. rewrite E. clear E.
  assert (adds_up (le_sum buf) (add_tail (Z.of_nat (length tail)) 1 (add_tail (Z.of_nat (length tail)) 2
    (add_tail (Z.of_nat (length tail)) 4 (sum, tail))))) as (n' & Hn' & Hr' & _ & Hs' & E').
  { apply add_tail_sums; [lia|right; clear -Hl; short_tail tail|clear -Hl; short_tail tail|].
    apply add_tail_sums; [lia|by left|clear -Hl; short_tail tail|].
    apply add_tail_sums; [lia|by left|clear -Hl; short_tail tail|].
    exists n. rewrite Z.add_0_l in En. done. }
  match type of E' with context [snd ?x] => assert (snd x = []) as E0 by (clear -Hl; short_tail tail) end.
  rewrite E0 in E'. cbn [le_sum] in E'. rewrite Z.add_0_r in E'. subst n'. by split.
Qed.

Lemma sums_trans x m n : sums x m → sums m n → sums x n.
Proof. intros [E1 H1] [E2 H2]. split; [congruence|tauto]. Qed.

Lemma split_sums w x : 0 < w → (2 ^ w - 1) mod 65535 = 0 → 0 ≤ x → sums (wrap w x + x / 2 ^ w) x.
Proof.
  intros Hw Hdiv Hx. assert (0 < 2 ^ w) by (apply Z.pow_pos_nonneg; lia). pose proof (Z.div_mod x (2 ^ w)). unfold wrap.
  pose proof (Z.mod_pos_bound x (2 ^ w)). pose proof (Z.div_pos x (2 ^ w)). split; [|nia].
  replace (x mod 2 ^ w + x / 2 ^ w) with (x - (2 ^ w - 1) * (x / 2 ^ w)) by lia.
  by rewrite <-Zminus_mod_idemp_r, <-Zmult_mod_idemp_l, Hdiv, Z.sub_0_r.
Qed.

Lemma fold_step w x : 0 < w → (2 ^ w - 1) mod 65535 = 0 → 0 ≤ x < 2 ^ (2 * w) →
  0 ≤ add_carry w (wrap w x) (wrap w (Z.shiftr x w)) < 2 ^ w ∧ sums (add_carry w (wrap w x) (wrap w (Z.shiftr x w))) x.
Proof.
  intros Hw Hdiv Hx. rewrite Z.shiftr_div_pow2 by lia. assert (0 < 2 ^ w) by (apply Z.pow_pos_nonneg; lia).
  assert (0 ≤ x / 2 ^ w < 2 ^ w) as Hq.
  { split; [apply Z.div_pos; lia|]. apply Z.div_lt_upper_bound; [lia|]. rewrite <-Z.pow_add_r by lia. replace (w + w) with (2 * w) by lia. lia. }
  rewrite (wrap_small w (x / 2 ^ w)) by done. pose proof (wrap_range w x).
  destruct (add_carry_sums w (wrap w x) (x / 2 ^ w) (wrap w x) (x / 2 ^ w)) as [Hr Hs]; [done|done|lia|lia|lia|lia|done|done|].
  split; [done|]. eapply sums_trans; [exact Hs|]. apply split_sums; lia.
Qed.

Lemma fold16_sums x : 0 ≤ x < 2 ^ 64 → 0 ≤ fold16 x < 2 ^ 16 ∧ sums (fold16 x) x.
Proof.
  intros Hx. unfold fold16. destruct (fold_step 32 x) as [Hr Hs]; [lia|done|done|].
  destruct (fold_step 16 (add_carry 32 (u32 x) (u32 (Z.shiftr x 32)))) as [Hr' Hs']; [lia|done|done|].
  split; [done|]. by eapply sums_trans.
Qed.

(** ** Byte order *)

Definition swap (x : Z) : Z := 256 * (x mod 256) + x / 256.

Lemma ntohs_swap x : 0 ≤ x < 2 ^ 16 → ntohs x = swap x.
Proof.
  intros Hx. assert (∀ i, 8 ≤ i → Z.testbit (Z.shiftr x 8) i = false) as Hhigh by (intros i Hi; rewrite Z.shiftr_spec by lia; apply (testbit_high x 16); lia).
  unfold ntohs, swap. replace (256 * (x mod 256)) with (Z.shiftl (wrap 8 x) 8) by (rewrite Z.shiftl_mul_pow2 by lia; unfold wrap; change (2 ^ 8) with 256; lia).
  replace (x / 256) with (Z.shiftr x 8) by (by rewrite Z.shiftr_div_pow2 by lia).
  rewrite Z.add_nocarry_lor.
  - apply Z.bits_inj'. intros i Hi. rewrite wrap_spec, !Z.lor_spec by lia. destruct (decide (i < 8)).
    + rewrite bool_decide_true, !Z.shiftl_spec_low by lia. done.
    + rewrite Hhigh, !Z.shiftl_spec, wrap_spec, !orb_false_r by lia. f_equal. apply bool_decide_ext. lia.
  - apply Z.bits_inj'. intros i Hi. rewrite Z.land_spec, Z.bits_0. destruct (decide (i < 8)).
    + by rewrite Z.shiftl_spec_low by lia.
    + by rewrite Hhigh, andb_false_r by lia.
Qed.

(** The one's complement number for a sum. *)
Definition ones (n : Z) : Z := if n =? 0 then 0 else (n - 1) mod 65535 + 1.

Lemma sums_ones x n : 0 ≤ x < 2 ^ 16 → 0 ≤ n → sums x n → x = ones n.
Proof.
  intros Hx Hn [E H0]. unfold ones. destruct (Z.eqb_spec n 0); [tauto|].
  rewrite <-Zminus_mod_idemp_l, <-E, Zminus_mod_idemp_l. rewrite Z.mod_small; lia.
Qed.

Lemma ones_sums n : 0 ≤ n → 0 ≤ ones n < 2 ^ 16 ∧ sums (ones n) n.
Proof.
  intros Hn. unfold ones. destruct (Z.eqb_spec n 0) as [->|]; [done|]. pose proof (Z.mod_pos_bound (n - 1) 65535).
  split; [lia|]. split; [|lia]. rewrite Zplus_mod_idemp_l. f_equal. lia.
Qed.

(** Two numbers of 16 bits for one sum are equal. *)
Lemma sums_inj x y n : 0 ≤ x < 2 ^ 16 → 0 ≤ y < 2 ^ 16 → 0 ≤ n → sums x n → sums y n → x = y.
Proof. intros Hx Hy Hn H1 H2. by rewrite (sums_ones x n), (sums_ones y n). Qed.

Lemma swap_range x : 0 ≤ x < 2 ^ 16 → 0 ≤ swap x < 2 ^ 16.
Proof.
  intros Hx. unfold swap. pose proof (Z.mod_pos_bound x 256). pose proof (Z.div_pos x 256).
  assert (x / 256 < 256) by (apply Z.div_lt_upper_bound; lia). lia.
Qed.

Lemma swap_complement x : 0 ≤ x < 2 ^ 16 → swap (2 ^ 16 - 1 - x) = 2 ^ 16 - 1 - swap x.
Proof.
  intros Hx. unfold swap. pose proof (Z.div_mod x 256). pose proof (Z.mod_pos_bound x 256). pose proof (Z.div_pos x 256).
  assert (x / 256 < 256) by (apply Z.div_lt_upper_bound; lia).
  assert ((2 ^ 16 - 1 - x) / 256 = 255 - x / 256) as -> by (symmetry; apply Z.div_unique with (255 - x mod 256); lia).
  assert ((2 ^ 16 - 1 - x) mod 256 = 255 - x mod 256) as -> by (symmetry; apply Z.mod_unique with (255 - x / 256); lia). lia.
Qed.

Lemma complement_eq x : 0 ≤ x < 2 ^ 16 → wrap 16 (Z.lnot x) = 2 ^ 16 - 1 - x.
Proof. intros Hx. unfold wrap, Z.lnot. symmetry. apply Z.mod_unique with (-1); lia. Qed.

Lemma words_range l : bytes_ok l → Forall (λ x, 0 ≤ x < 2 ^ 16) (words l).
Proof.
  induction l as [|a|a b l IH] using list_pairs_ind; intros Hl; [constructor|..].
  - apply Forall_cons in Hl as [Ha _]. unfold byte_ok in Ha. repeat constructor; lia.
  - apply Forall_cons in Hl as [Ha [Hb Hl]%Forall_cons]. unfold byte_ok in *. constructor; [lia|]. by apply IH.
Qed.

Lemma words_le_sum l : bytes_ok l →
  (foldr Z.add 0 (words l)) mod 65535 = (256 * le_sum l) mod 65535 ∧
  (foldr Z.add 0 (words l) = 0 ↔ le_sum l = 0) ∧ 0 ≤ foldr Z.add 0 (words l).
Proof.
  induction l as [|a|a b l IH] using list_pairs_ind; intros Hl; [done|..].
  - apply Forall_cons in Hl as [Ha _]. unfold byte_ok in Ha. cbn. rewrite Z.add_0_r. split; [done|lia].
  - apply Forall_cons in Hl as [Ha [Hb Hl]%Forall_cons]. unfold byte_ok in *. destruct (IH Hl) as (E & E0 & Hp).
    pose proof (le_sum_nonneg l Hl). cbn [words foldr le_sum]. split; [|lia].
    replace (256 * (a + 256 * b + le_sum l)) with (256 * a + b + 256 * le_sum l + b * 65535) by lia.
    rewrite Z_mod_plus_full. by apply mod_add_congr.
Qed.

Lemma swap_sums l x : 0 ≤ x → bytes_ok l → sums x (le_sum l) → sums (swap x) (foldr Z.add 0 (words l)).
Proof.
  intros Hx Hl [E E0]. destruct (words_le_sum l Hl) as (Ew & Ew0 & _). pose proof (Z.div_mod x 256). pose proof (Z.mod_pos_bound x 256).
  pose proof (Z.div_pos x 256). unfold swap. split; [|rewrite Ew0, <-E0; lia].
  replace (256 * (x mod 256) + x / 256) with (256 * x + (- (x / 256)) * 65535) by lia.
  rewrite Z_mod_plus_full, Ew, <-Zmult_mod_idemp_r, E. by rewrite Zmult_mod_idemp_r.
Qed.

Lemma ones_add_carry a b : 0 ≤ a < 2 ^ 16 → 0 ≤ b < 2 ^ 16 → ones_add a b = add_carry 16 a b.
Proof. intros Ha Hb. rewrite add_carry_eq by lia. unfold ones_add. destruct (_ <? _); lia. Qed.

Lemma fold_sums ws : ∀ x n, Forall (λ w, 0 ≤ w < 2 ^ 16) ws → 0 ≤ x < 2 ^ 16 → 0 ≤ n → sums x n →
  0 ≤ foldl ones_add x ws < 2 ^ 16 ∧ sums (foldl ones_add x ws) (n + foldr Z.add 0 ws).
Proof.
  induction ws as [|w ws IH]; intros x n Hws Hx Hn Hs; cbn [foldl foldr]; [by rewrite Z.add_0_r|].
  apply Forall_cons in Hws as [Hw Hws]. rewrite ones_add_carry, Z.add_assoc by done.
  destruct (add_carry_sums 16 x w n w) as [Hr Hs']; [lia|done|done|done|done|lia|done|done|]. apply IH; [done|done|lia|done].
Qed.

Lemma raw_complement buf : bytes_ok buf → cksum16_raw buf = 2 ^ 16 - 1 - fold16 (sum64 buf) ∧ 0 ≤ fold16 (sum64 buf) < 2 ^ 16 ∧
  swap (fold16 (sum64 buf)) = foldl ones_add 0 (words buf).
Proof.
  intros Hb. destruct (sum64_sums buf Hb) as [Hr Hs]. destruct (fold16_sums _ Hr) as [Hf Hs']. split; [by apply complement_eq|]. split; [done|].
  destruct (fold_sums (words buf) 0 0) as [Hw Hws]; [by apply words_range|lia|lia|done|]. rewrite Z.add_0_l in Hws.
  apply (sums_inj _ _ (foldr Z.add 0 (words buf))); [by apply swap_range|done|by apply words_le_sum| |done].
  apply swap_sums; [lia|done|]. by eapply sums_trans.
Qed.

(** The value of [checksums.cpp] has the bytes of the checksum of RFC 1071 in memory order, on a host that puts the least
    significant byte first. *)
Lemma raw_bytes buf : bytes_ok buf → [cksum16_raw buf mod 256; cksum16_raw buf / 256] = word_bytes (rfc1071 buf) ∧ 0 ≤ cksum16_raw buf < 2 ^ 16.
Proof.
  intros Hb. destruct (raw_complement buf Hb) as (-> & Hf & E). split; [|lia]. unfold rfc1071, word_bytes. rewrite <-E, <-swap_complement by done.
  set (y := 2 ^ 16 - 1 - fold16 (sum64 buf)). assert (0 ≤ y < 2 ^ 16) as Hy by lia. clearbody y. unfold swap.
  pose proof (Z.mod_pos_bound y 256). pose proof (Z.div_pos y 256). assert (y / 256 < 256) by (apply Z.div_lt_upper_bound; lia).
  f_equal; [apply Z.div_unique with (y / 256); lia|]. f_equal. apply Z.mod_unique with (y mod 256); lia.
Qed.

(** [cksum16] adds eight bytes at a time with the bytes in the order of the host, folds, and swaps the result; it is the
    checksum of RFC 1071, for every length, odd ones and tails included. *)
Lemma cksum16_rfc1071 buf : bytes_ok buf → cksum16 buf = rfc1071 buf ∧ csum16 buf = rfc1071 buf.
Proof.
  intros Hb. unfold csum16, cksum16. change (wrap 16 (Z.lnot (fold16 (sum64 buf)))) with (cksum16_raw buf).
  destruct (raw_complement buf Hb) as (-> & Hf & E). rewrite ntohs_swap, swap_complement, E by lia. done.
Qed.

(** An IPv4 header without its checksum. *)
Definition example_header : list Z :=
  [0x45; 0; 0; 0x73; 0; 0; 0x40; 0; 0x40; 0x11; 0; 0; 0xc0; 0xa8; 0; 1; 0xc0; 0xa8; 0; 0xc7].

Example example_cksum : cksum16 example_header = 0xb861 ∧ rfc1071 [1; 2; 3] = 0xfbfd.
Proof. vm_compute. done. Qed.
End Cksum.
