(* ===== verification/Calculations.v ===== *)
(** * Calculations (include/bm/bm_sim/calculations.h, src/bm_sim/calculations.cpp, crc_map.h, crc_map.cpp)

    The hash functions with a name, the buffer a calculation is made on, and
    the CRCs that are known by name or described by a string. [XXH64] is third
    party code, a parameter. *)

From S2P Require Import Prelude ByteContainer Data Extract Fields Headers Phv Crc Cksum.
Import Crc (crc_config_t).

(** [convert_to] an unsigned type of some width, and its behaviour on the values that fit. *)
Class GmpUint := convert_to_unsigned : Z → Z → Z.
Class GmpUintLaws `{GmpUint} : Prop := convert_to_unsigned_small w z : 0 ≤ z < 2 ^ w → convert_to_unsigned w z = z.

Module GmpUintExample.
#[export] Instance GmpUint_Z : GmpUint := wrap.
#[export] Instance GmpUint_Z_laws : GmpUintLaws.
Proof. intros w z Hz. by apply wrap_small. Qed.
End GmpUintExample.

Module Calculations.

(** ** Hash functions *)

(** The functors registered with [REGISTER_HASH]; a [crc_custom] has state. *)
Inductive HashFn :=
  | xxh64
  | crc16
  | crc32
  | crcCCITT
  | cksum16
  | csum16
  | identity
  | crc_custom (w : Z) (c : Crc.crc_custom).

Definition identity_hash (buf : list Z) : Z :=
  foldl (λ res b, u64 (u64 (Z.shiftl res 8) + b)) 0 (take 8 buf).

Definition output (XXH64 : list Z → Z) (h : HashFn) (buf : list Z) : option Z :=
  match h with
  | xxh64 => Some (XXH64 buf)
  | crc16 => Crc.crc16 buf
  | crc32 => Crc.crc32 buf
  | crcCCITT => Crc.crcCCITT buf
  | cksum16 => Some (Cksum.cksum16 buf)
  | csum16 => Some (Cksum.csum16 buf)
  | identity => Some (identity_hash buf)
  | crc_custom w c => Crc.crc_custom_run w c buf
  end.

(** The constructor of [crc_custom]. *)
Definition new_crc_custom (w : Z) : HashFn := crc_custom w (Crc.update_config w (Crc.crc_custom_init w)).

(** A clone is made by the default constructor. *)
Definition clone (h : HashFn) : HashFn :=
  match h with
  | crc_custom w _ => new_crc_custom w
  | _ => h
  end.

Inductive CustomCrcErrorCode := SUCCESS | INVALID_CALCULATION_NAME | WRONG_TYPE_CALCULATION | INVALID_CONFIG.

(** [CustomCrcMgr<T>::update_config], for the type of [w] bits. *)
Definition update_config (w : Z) (h : HashFn) (config : crc_config_t) : CustomCrcErrorCode * HashFn :=
  match h with
  | crc_custom w' _ => if w' =? w then (SUCCESS, crc_custom w' (Crc.update_config w config)) else (WRONG_TYPE_CALCULATION, h)
  | _ => (WRONG_TYPE_CALCULATION, h)
  end.

Definition CalculationsMap : Type := gmap string HashFn.

Definition register_one (m : CalculationsMap) (name : string) (c : HashFn) : CalculationsMap * bool :=
  match m !! name with
  | Some _ => (m, false)
  | None => (<[name := c]> m, true)
  end.

(** [None] is the null pointer. *)
Definition get_copy (m : CalculationsMap) (name : string) : option HashFn := clone <$> m !! name.

(** The [REGISTER_HASH]s of the file, and the map after them. *)
Definition registrations : list (string * HashFn) :=
    [("xxh64", xxh64); ("crc16", crc16); ("crc32", crc32); ("crcCCITT", crcCCITT); ("cksum16", cksum16); ("csum16", csum16);
     ("identity", identity); ("crc8_custom", new_crc_custom 8); ("crc16_custom", new_crc_custom 16);
     ("crc32_custom", new_crc_custom 32); ("crc64_custom", new_crc_custom 64)]%string.

Definition registered : CalculationsMap :=
  foldl (λ (m : CalculationsMap) (p : string * HashFn), fst (register_one m p.1 p.2)) ∅ registrations.

(** ** The buffer of a calculation *)

Inductive Entry :=
  | Field_t (header field_offset : Z)
  | Constant_t (v : list Z) (nbits : Z)
  | Header_t (header : Z).

Record BufBuilder := { entries : list Entry; with_payload : bool }.

Definition new_builder : BufBuilder := {| entries := []; with_payload := false |}.

Section builder.
Context `{Gmp}.
Implicit Types (b : BufBuilder) (phv : Phv.PHV).

Definition push_back_entry b (e : Entry) : BufBuilder := {| entries := entries b ++ [e]; with_payload := with_payload b |}.
Definition push_back_field b (header field_offset : Z) : BufBuilder := push_back_entry b (Field_t header field_offset).
Definition push_back_constant b (v : list Z) (nbits : Z) : BufBuilder := push_back_entry b (Constant_t v nbits).
Definition push_back_header b (header : Z) : BufBuilder := push_back_entry b (Header_t header).
Definition append_payload b : BufBuilder := {| entries := entries b; with_payload := true |}.

(** The state of the visitor: the bits written, and the buffer. *)
Definition Deparse : Type := Z * list Z.

(** [extend(more_bits)], and writing at the pointer and the offset that it was called for. *)
Definition extend (st : Deparse) (more_bits : Z) (write : list Z → Z → option (list Z)) : option Deparse :=
  let '(nbits, buf) := st in
  let nbits_ := nbits + more_bits in
  let buf := ByteContainer.resize buf ((nbits_ + 7) / 8) 0 in
  let q := Z.to_nat (nbits / 8) in
  rest ← write (drop q buf) (nbits mod 8);
  Some (nbits_, take q buf ++ rest).

Definition deparse_entry phv (st : Deparse) (e : Entry) : option Deparse :=
  match e with
  | Field_t header field_offset =>
      h ← Phv.get_header phv header;
      if negb (Headers.is_valid h) then Some st else
      f ← vget (Headers.fields h) field_offset;
      extend st (Fields.nbits f) (λ ptr offset, fst <$> Fields.deparse f ptr offset)
  | Constant_t v nbits => extend st nbits (λ ptr offset, Extract.generic_deparse v nbits ptr offset)
  | Header_t header =>
      if st.1 mod 8 =? 0 then
        h ← Phv.get_header phv header;
        if Headers.is_valid h then extend st (Headers.nbytes_packet h * 8) (λ ptr _, Headers.deparse h ptr) else Some st
      else None
  end.

Fixpoint deparse_entries phv (st : Deparse) (es : list Entry) : option Deparse :=
  match es with
  | [] => Some st
  | e :: es => st ← deparse_entry phv st e; deparse_entries phv st es
  end.

(** [BufBuilder::operator()], on the headers of a packet and the rest of its data. *)
Definition build b phv (data : list Z) : option (list Z) :=
  '(_, buf) ← deparse_entries phv (0, []) (entries b);
  Some (if with_payload b then buf ++ data else buf).
End builder.

(** [Calculation_]: its calculation may be the null pointer. *)
Record Calculation := { builder : BufBuilder; c : option HashFn }.

Definition new_calculation (b : BufBuilder) (m : CalculationsMap) (hash_name : string) : Calculation :=
  {| builder := b; c := get_copy m hash_name |}.

Definition calculation_output `{Gmp} (XXH64 : list Z → Z) (k : Calculation) (phv : Phv.PHV) (data : list Z) : option Z :=
  key ← build (builder k) phv data;
  h ← c k;
  output XXH64 h key.

(** [CustomCrcMgr<T>::update_config] of a named calculation. *)
Definition update_calculation (w : Z) (k : Calculation) (config : crc_config_t) : CustomCrcErrorCode * Calculation :=
  match c k with
  | Some h => let '(rc, h) := update_config w h config in (rc, {| builder := builder k; c := Some h |})
  | None => (WRONG_TYPE_CALCULATION, k)
  end.

(** ** The bits of the buffer *)

Section layout.
Context `{Gmp}.
Implicit Types (phv : Phv.PHV).

Definition field_bits (f : Fields.Field) : list bool :=
  (λ k, bit_at (Fields.bytes f) (Headers.pad f + k)) <$> seqZ 0 (Fields.nbits f).

Definition constant_bits (v : list Z) (nbits : Z) : list bool :=
  (λ k, bit_at v (8 * Extract.nbytes_of nbits - nbits + k)) <$> seqZ 0 nbits.

Fixpoint fields_bits (fs : list Fields.Field) : list bool :=
  match fs with
  | [] => []
  | f :: fs => if Fields.hidden f then [] else field_bits f ++ fields_bits fs
  end.

(** The bits an entry adds: none for the headers that are not valid. *)
Definition entry_bits phv (e : Entry) : list bool :=
  match e with
  | Field_t header field_offset =>
      match Phv.get_header phv header with
      | Some h => if Headers.is_valid h then match vget (Headers.fields h) field_offset with Some f => field_bits f | None => [] end else []
      | None => []
      end
  | Constant_t v nbits => constant_bits v nbits
  | Header_t header =>
      match Phv.get_header phv header with
      | Some h => if Headers.is_valid h then fields_bits (Headers.fields h) else []
      | None => []
      end
  end.

(** What an entry refers to is well-formed; a whole header starts at a byte, and fills its bytes. *)
Definition entry_ok phv (nbits : Z) (e : Entry) : Prop :=
  match e with
  | Field_t header field_offset =>
      ∃ h, Phv.get_header phv header = Some h ∧
        (Headers.is_valid h = true → ∃ f, vget (Headers.fields h) field_offset = Some f ∧ Headers.field_ok f)
  | Constant_t v n => 0 < n ∧ bytes_ok v ∧ Extract.nbytes_of n ≤ Z.of_nat (length v) ∧ Extract.padded v n
  | Header_t header =>
      nbits mod 8 = 0 ∧ ∃ h, Phv.get_header phv header = Some h ∧
        (Headers.is_valid h = true → Forall Headers.field_ok (Headers.fields h) ∧
           Headers.visible_nbits (Headers.fields h) = Headers.nbytes_packet h * 8)
  end.

Fixpoint entries_ok phv (nbits : Z) (es : list Entry) : Prop :=
  match es with
  | [] => True
  | e :: es => entry_ok phv nbits e ∧ entries_ok phv (nbits + Z.of_nat (length (entry_bits phv e))) es
  end.

(** The buffer starts with the bits of the message. *)
Definition starts_with (st : Deparse) (message : list bool) : Prop :=
  st.1 = Z.of_nat (length message) ∧ Z.of_nat (length st.2) = (st.1 + 7) / 8 ∧ bytes_ok st.2 ∧
  ∀ k b, message !! k = Some b → bit_at st.2 (Z.of_nat k) = b.

(** What writing at a pointer and an offset must do. *)
Definition writes (bits : list bool) (offset : Z) (write : list Z → Z → option (list Z)) : Prop :=
  ∀ ptr, bytes_ok ptr → offset + Z.of_nat (length bits) ≤ 8 * Z.of_nat (length ptr) →
  ∃ ptr', write ptr offset = Some ptr' ∧ length ptr' = length ptr ∧ bytes_ok ptr' ∧
    (∀ k, 0 ≤ k < offset → bit_at ptr' k = bit_at ptr k) ∧
    ∀ k b, bits !! k = Some b → bit_at ptr' (offset + Z.of_nat k) = b.

Lemma resize_grow (buf : list Z) n : Z.of_nat (length buf) ≤ n → bytes_ok buf →
  Z.of_nat (length (ByteContainer.resize buf n 0)) = n ∧ bytes_ok (ByteContainer.resize buf n 0) ∧
  ∀ k, 0 ≤ k < 8 * Z.of_nat (length buf) → bit_at (ByteContainer.resize buf n 0) k = bit_at buf k.
Proof.
  intros Hn Hb. unfold ByteContainer.resize. rewrite take_ge by lia. split; [rewrite length_app, length_replicate; lia|]. split.
  - apply Forall_app. split; [done|]. apply Forall_replicate. unfold byte_ok. lia.
  - intros k Hk. pose proof (Headers.bit_at_take_app (Z.of_nat (length buf)) buf (replicate (Z.to_nat n - length buf) 0) k) as E.
    rewrite Nat2Z.id, take_ge in E by lia. rewrite E by lia. by rewrite decide_True by lia.
Qed.

Lemma extend_ok st more write message bits : starts_with st message → more = Z.of_nat (length bits) → writes bits (st.1 mod 8) write →
  ∃ st', extend st more write = Some st' ∧ starts_with st' (message ++ bits).
Proof.
  destruct st as [n buf]. intros (Hn & Hl & Hb & Hbits) -> Hw. cbn [fst snd] in *. unfold extend.
  destruct (Headers.div_mod_8 n) as (Hq & Hr & Eqr); [lia|]. set (q := n / 8) in *. set (r := n mod 8) in *.
  set (m := Z.of_nat (length bits)). assert (0 ≤ m) by lia.
  pose proof (Z.div_mod (n + 7) 8). pose proof (Z.mod_pos_bound (n + 7) 8). pose proof (Z.div_mod (n + m + 7) 8). pose proof (Z.mod_pos_bound (n + m + 7) 8).
  destruct (resize_grow buf ((n + m + 7) / 8)) as (Hlg & Hbg & Hbitg); [lia|done|].
  set (g := ByteContainer.resize buf ((n + m + 7) / 8) 0) in *.
  destruct (Hw (drop (Z.to_nat q) g)) as (p & -> & Hlp & Hbp & Hpre & Hnew); [by apply Forall_drop|rewrite length_drop; lia|].
  msimpl. eexists. split; [reflexivity|]. rewrite length_drop in Hlp. unfold starts_with. cbn [fst snd].
  assert (∀ k, 0 ≤ k < n + m → bit_at (take (Z.to_nat q) g ++ p) k = if decide (k < n) then bit_at g k else bit_at p (r + (k - n))) as Hall.
  { intros k Hk. rewrite Headers.bit_at_take_app by lia. destruct (decide (k < 8 * q)).
    - by rewrite decide_True by lia.
    - destruct (decide (k < n)).
      + rewrite Hpre by lia. rewrite Headers.bit_at_drop by lia. f_equal. lia.
      + f_equal. lia. }
  split; [rewrite length_app; lia|]. split; [rewrite length_app, length_take; lia|].
  split; [apply Forall_app; split; [by apply Forall_take|done]|].
  intros k b Hk. pose proof (lookup_lt_Some _ _ _ Hk) as Hlt. rewrite length_app in Hlt. rewrite Hall by lia.
  apply lookup_app_Some in Hk as [Hk|[Hge Hk]].
  - pose proof (lookup_lt_Some _ _ _ Hk). rewrite decide_True by lia. rewrite Hbitg by lia. by apply Hbits.
  - rewrite decide_False by lia. replace (r + (Z.of_nat k - n)) with (r + Z.of_nat (k - length message)) by lia. by apply Hnew.
Qed.

Lemma seqZ_bits (g : Z → bool) n k b : 0 ≤ n → (g <$> seqZ 0 n) !! k = Some b → Z.of_nat k < n ∧ b = g (Z.of_nat k).
Proof. intros Hn Hk. apply list_lookup_fmap_Some in Hk as (i & -> & Hi). apply lookup_seqZ in Hi as [-> Hi]. split; [lia|f_equal; lia]. Qed.

Lemma length_bits (g : Z → bool) n : 0 ≤ n → Z.of_nat (length (g <$> seqZ 0 n)) = n.
Proof. intros Hn. rewrite length_fmap, length_seqZ. lia. Qed.

Lemma writes_field f offset : Headers.field_ok f → 0 ≤ offset < 8 →
  writes (field_bits f) offset (λ ptr offset, fst <$> Fields.deparse f ptr offset).
Proof.
  intros Hf Hoff ptr Hp Hlen. pose proof (Fields.wf_nbits _ (proj1 Hf)). unfold field_bits in *. rewrite length_bits in Hlen by lia.
  destruct (Headers.deparse_field f ptr offset Hf Hp Hoff Hlen) as (p & -> & Hl & Hok & Hpre & Hnew & _). exists p. do 4 (split; [done|]).
  intros k b Hk. apply seqZ_bits in Hk as [Hk ->]; [|lia]. apply Hnew. lia.
Qed.

Lemma writes_constant v n offset : 0 < n → bytes_ok v → Extract.nbytes_of n ≤ Z.of_nat (length v) → Extract.padded v n → 0 ≤ offset < 8 →
  writes (constant_bits v n) offset (λ ptr offset, Extract.generic_deparse v n ptr offset).
Proof.
  intros Hn Hv Hl Hpad Hoff ptr Hp Hlen. unfold constant_bits in *. rewrite length_bits in Hlen by lia.
  pose proof (Extract.nbytes_of_bounds (offset + n)) as Hb. unfold Extract.nbytes_of in Hb.
  destruct (Extract.generic_deparse_ok v ptr n offset) as (p & -> & Hlp & Hok & Hbits & _); [done..|lia|done|].
  exists p. do 3 (split; [done|]). split.
  - intros k Hk. rewrite Hbits by lia. by rewrite decide_True by lia.
  - intros k b Hk. apply seqZ_bits in Hk as [Hk ->]; [|lia]. rewrite Hbits by lia. rewrite decide_False by lia. f_equal. lia.
Qed.

(** The fields of a header, one after the other. *)
Lemma laid_out_bits fs data : ∀ off, Forall Fields.wf fs → Headers.laid_out fs data off →
  ∀ k b, fields_bits fs !! k = Some b → bit_at data (off + Z.of_nat k) = b.
Proof.
  induction fs as [|f fs IH]; intros off Hwf; cbn [Headers.laid_out fields_bits]; [done|]. apply Forall_cons in Hwf as [Hf Hwf].
  destruct (Fields.hidden f); [done|]. pose proof (Fields.wf_nbits _ Hf). intros [Hl Hls] k b Hk. unfold field_bits in Hk.
  apply lookup_app_Some in Hk as [Hk|[Hge Hk]].
  - apply seqZ_bits in Hk as [Hk ->]; [|lia]. apply Hl. lia.
  - pose proof (length_bits (λ k, bit_at (Fields.bytes f) (Headers.pad f + k)) (Fields.nbits f)).
    rewrite <-(IH (off + Fields.nbits f) Hwf Hls _ _ Hk). f_equal. lia.
Qed.

Lemma length_fields_bits fs : Forall Fields.wf fs → Z.of_nat (length (fields_bits fs)) = Headers.visible_nbits fs.
Proof.
  induction 1 as [|f fs Hf Hwf IH]; [done|]. cbn [fields_bits Headers.visible_nbits]. destruct (Fields.hidden f); [done|].
  pose proof (Fields.wf_nbits _ Hf). unfold field_bits. rewrite length_app, Nat2Z.inj_add, length_bits, IH by lia. done.
Qed.

Lemma writes_header h : Forall Headers.field_ok (Headers.fields h) →
  writes (fields_bits (Headers.fields h)) 0 (λ ptr _, Headers.deparse h ptr).
Proof.
  intros Hok ptr Hp Hlen. assert (Forall Fields.wf (Headers.fields h)) as Hwf by (eapply Forall_impl; [exact Hok|]; by intros x [? _]).
  rewrite length_fields_bits in Hlen by done.
  destruct (Headers.deparse_fields_ok (Headers.fields h) ptr 0 Hok Hp) as (p & E & Hl & Hokp & Hlay & _ & _); [lia|lia|].
  exists p. split; [exact E|]. do 2 (split; [done|]). split; [intros; lia|]. intros k b Hk. by apply (laid_out_bits (Headers.fields h) p 0).
Qed.

Lemma deparse_entry_ok phv st e message : starts_with st message → entry_ok phv st.1 e →
  ∃ st', deparse_entry phv st e = Some st' ∧ starts_with st' (message ++ entry_bits phv e).
Proof.
  intros Hst He. pose proof (Z.mod_pos_bound st.1 8). destruct e as [header field_offset|v n|header]; cbn [deparse_entry entry_bits entry_ok] in *.
  - destruct He as (h & -> & Hf). msimpl. destruct (Headers.is_valid h); cbn [negb]; [|exists st; by rewrite app_nil_r].
    destruct (Hf eq_refl) as (f & -> & Hok). msimpl. pose proof (Fields.wf_nbits _ (proj1 Hok)).
    apply extend_ok; [done|unfold field_bits; by rewrite length_bits by lia|by apply writes_field; [|lia]].
  - destruct He as (Hn & Hv & Hl & Hp). apply extend_ok; [done|unfold constant_bits; by rewrite length_bits by lia|]. by apply writes_constant; [..|lia].
  - destruct He as (Hal & h & -> & Hh). rewrite Hal. msimpl. cbn [Z.eqb]. destruct (Headers.is_valid h); [|exists st; by rewrite app_nil_r].
    destruct (Hh eq_refl) as [Hok Hv]. assert (Forall Fields.wf (Headers.fields h)) as Hwf by (eapply Forall_impl; [exact Hok|]; by intros x [? _]).
    apply extend_ok; [done|by rewrite length_fields_bits|]. rewrite Hal. by apply writes_header.
Qed.

Lemma deparse_entries_ok phv es : ∀ st message, starts_with st message → entries_ok phv st.1 es →
  ∃ st', deparse_entries phv st es = Some st' ∧ starts_with st' (message ++ (es ≫= entry_bits phv)).
Proof.
  induction es as [|e es IH]; intros st message Hst; cbn [deparse_entries entries_ok]; [exists st; cbn; by rewrite app_nil_r|].
  intros [He Hes]. destruct (deparse_entry_ok phv st e message Hst He) as (st' & -> & Hst'). msimpl.
  destruct (IH st' _ Hst') as (st2 & -> & Hst2).
  - replace st'.1 with (st.1 + Z.of_nat (length (entry_bits phv e))); [done|]. destruct Hst as [-> _], Hst' as [-> _]. rewrite length_app. lia.
  - exists st2. split; [done|]. by rewrite bind_cons, app_assoc.
Qed.

(** The buffer of a calculation has the bits of its entries one after the other, those of headers that are not valid left
    out, in as few bytes as they fit in, and then the rest of the packet when it is asked for. *)
Theorem build_bits b phv data : entries_ok phv 0 (entries b) →
  ∃ buf, build b phv data = Some (buf ++ if with_payload b then data else []) ∧ bytes_ok buf ∧
    Z.of_nat (length buf) = Extract.nbytes_of (Z.of_nat (length (entries b ≫= entry_bits phv))) ∧
    ∀ k bit, (entries b ≫= entry_bits phv) !! k = Some bit → bit_at buf (Z.of_nat k) = bit.
Proof.
  intros He. destruct (deparse_entries_ok phv (entries b) (0, []) []) as ([n buf] & E & Hn & Hl & Hb & Hbits); [split_and!; [done|done|constructor|done]|done|].
  unfold build. rewrite E. msimpl. exists buf. cbn [fst snd app] in *. split; [destruct (with_payload b); by rewrite ?app_nil_r|]. split; [done|].
  split; [|done]. unfold Extract.nbytes_of. by rewrite <-Hn.
Qed.
End layout.

(** ** The functions and their references *)

(** A configurable CRC has the table of its configuration, which fits its type. *)
Definition hash_ok (h : HashFn) : Prop :=
  match h with
  | crc_custom w k => 8 ≤ w ∧ Crc.config_ok w (Crc.config k) ∧ Crc.crc_table k = Crc.recompute_crc_table w (Crc.config k)
  | _ => True
  end.

(** What the functions are meant to compute. *)
Definition reference (XXH64 : list Z → Z) (h : HashFn) (buf : list Z) : Z :=
  match h with
  | xxh64 => XXH64 buf
  | crc16 => Crc.crc_bits 16 (Crc.crc_custom_init 16) buf
  | crc32 => Crc.crc_bits 32 (Crc.crc_custom_init 32) buf
  | crcCCITT => Crc.crc_bits 16 Crc.ccitt_config buf
  | cksum16 | csum16 => Cksum.rfc1071 buf
  | identity => be_value (take 8 buf)
  | crc_custom w k => Crc.crc_bits w (Crc.config k) buf
  end.

Lemma identity_be l : ∀ acc n, bytes_ok l → 0 ≤ acc < 256 ^ Z.of_nat n → (n + length l ≤ 8)%nat →
  foldl (λ res b, u64 (u64 (Z.shiftl res 8) + b)) acc l = acc * 256 ^ Z.of_nat (length l) + be_value l.
Proof.
  induction l as [|b l IH]; intros acc n Hl Hacc Hn; cbn [foldl length]; [unfold be_value; cbn; lia|]. cbn [length] in Hn.
  apply Forall_cons in Hl as [Hb Hl]. unfold byte_ok in Hb. rewrite be_value_cons, Z.shiftl_mul_pow2 by lia. change (2 ^ 8) with 256.
  assert (256 ^ Z.of_nat (S n) ≤ 256 ^ 8) as H8 by (apply Z.pow_le_mono_r; lia). rewrite Nat2Z.inj_succ, Z.pow_succ_r in H8 by lia.
  rewrite (wrap_small 64 (acc * 256)), wrap_small by (change (2 ^ 64) with (256 ^ 8); lia).
  rewrite (IH _ (S n) Hl) by (lia || (rewrite Nat2Z.inj_succ, Z.pow_succ_r by lia; lia)). rewrite Nat2Z.inj_succ, Z.pow_succ_r by lia. lia.
Qed.

Lemma output_reference XXH64 h buf : hash_ok h → bytes_ok buf → output XXH64 h buf = Some (reference XXH64 h buf).
Proof.
  intros Hh Hb. destruct (Crc.static_crcs buf Hb) as (E16 & E32 & EC). destruct (Cksum.cksum16_rfc1071 buf Hb) as [Ek Es].
  destruct h as [| | | | | | |w k]; cbn [output reference]; [done|done|done|done|by rewrite Ek|by rewrite Es| |].
  - unfold identity_hash. rewrite (identity_be _ 0 0); [f_equal; lia|by apply Forall_take|done|rewrite length_take; lia].
  - destruct Hh as (Hw & Hc & Ht). destruct k as [t c]. cbn [Crc.config Crc.crc_table] in *. subst t. by apply Crc.crc_custom_divides.
Qed.

Lemma new_crc_custom_ok w : w ∈ [8; 16; 32; 64] → hash_ok (new_crc_custom w).
Proof. intros Hw. split; [set_unfold; lia|]. split; [|done]. set_unfold. by destruct Hw as [->|[->|[->|[->|[]]]]]; vm_compute. Qed.

Lemma update_config_ok w h config : hash_ok h → Crc.config_ok w config → hash_ok (update_config w h config).2.
Proof.
  intros Hh Hc. destruct h as [| | | | | | |w' k]; cbn [update_config]; try done. destruct (Z.eqb_spec w' w) as [->|]; [|done].
  split; [apply Hh|]. by split.
Qed.

Lemma clone_ok h : hash_ok h → (∀ w k, h = crc_custom w k → w ∈ [8; 16; 32; 64]) → hash_ok (clone h).
Proof. intros Hh Hw. destruct h as [| | | | | | |w k]; try done. apply new_crc_custom_ok. by eapply Hw. Qed.

Lemma registered_all (P : HashFn → Prop) l : ∀ m : CalculationsMap, Forall (λ p, P p.2) l → map_Forall (λ _, P) m →
  map_Forall (λ _, P) (foldl (λ (m : CalculationsMap) (p : string * HashFn), fst (register_one m p.1 p.2)) m l).
Proof.
  induction l as [|[name h] l IH]; intros m Hl Hm; [done|]. apply Forall_cons in Hl as [Hh Hl]. cbn [foldl]. apply IH; [done|].
  unfold register_one. cbn [fst snd]. destruct (m !! name); [done|]. by apply map_Forall_insert_2.
Qed.

Lemma get_copy_ok name h : get_copy registered name = Some h → hash_ok h.
Proof.
  unfold get_copy. intros (h' & Hh' & ->)%fmap_Some.
  refine (registered_all (λ h, hash_ok (clone h)) registrations ∅ _ _ name h' Hh'); [|apply map_Forall_empty].
  repeat constructor; cbn; try lia; apply (new_crc_custom_ok _); set_solver.
Qed.

(** A calculation with a registered function gives what the function is meant to compute: the division of the message for
    the CRCs, the checksum of RFC 1071, the number of the first eight bytes; and so does a configurable CRC after its
    configuration is updated with one that fits its type; an update of any other function is refused. *)
Theorem registered_outputs XXH64 name h buf w config : get_copy registered name = Some h → bytes_ok buf → Crc.config_ok w config →
  output XXH64 h buf = Some (reference XXH64 h buf) ∧
  match update_config w h config with
  | (SUCCESS, h') => (∃ k, h = crc_custom w k) ∧ output XXH64 h' buf = Some (Crc.crc_bits w config buf)
  | (rc, h') => rc = WRONG_TYPE_CALCULATION ∧ h' = h ∧ ∀ k, h ≠ crc_custom w k
  end.
Proof.
  intros Hh Hb Hc. pose proof (get_copy_ok _ _ Hh) as Hok. split; [exact (output_reference XXH64 h buf Hok Hb)|].
  pose proof (update_config_ok w h config Hok Hc) as Hok'. clear Hh. destruct h as [| | | | | | |w' k]; cbn [update_config] in *; [done|done|done|done|done|done|done|].
  destruct (Z.eqb_spec w' w) as [->|Hne]; [|split_and!; [done|done|congruence]]. split; [by eexists|]. by rewrite (output_reference _ _ buf Hok' Hb).
Qed.

(** The CRC-16 with its configuration changed to that of X.25. *)
Definition x25 : crc_config_t :=
  {| Crc.polynomial := 0x1021; Crc.initial_remainder := 0xffff; Crc.final_xor_value := 0xffff;
     Crc.data_reflected := true; Crc.remainder_reflected := true |}.

Lemma registered_outputs_witness :
  output (λ _, 0) (new_crc_custom 16) Crc.check = Some 0xbb3d ∧
  output (λ _, 0) (update_config 16 (new_crc_custom 16) x25).2 Crc.check = Some 0x906e.
Proof.
  destruct (registered_outputs (λ _, 0) "crc16_custom" (new_crc_custom 16) Crc.check 16 x25) as [-> Hu].
  - vm_compute. reflexivity.
  - apply (bool_decide_unpack _). vm_compute. exact I.
  - vm_compute. repeat split; congruence.
  - split; [vm_compute; reflexivity|]. cbn [update_config new_crc_custom] in *. rewrite Z.eqb_refl in Hu. cbn [snd] in *.
    destruct Hu as [_ Hu]. cbn [snd Z.eqb Pos.eqb]. rewrite Hu. vm_compute. reflexivity.
Defined.

(** The first two fields of an IPv4 header, a constant of three bits and the payload. *)
Section example.
Import GmpExample.

Definition example_phv : Phv.PHV :=
  {| Phv.headers := [Headers.with_valid HeadersExamples.ipv4 true; HeadersExamples.ipv4]; Phv.header_stacks := []; Phv.header_unions := [];
     Phv.header_union_stacks := [] |}.

Definition example_builder : BufBuilder :=
  append_payload (push_back_header (push_back_constant (push_back_field (push_back_field (push_back_header new_builder 0) 0 1) 1 0) [5; 255] 12) 1).

Lemma example_constant : Extract.padded [5; 255] 12.
Proof.
  unfold Extract.padded. change (8 * Extract.nbytes_of 12 - 12) with 4. intros k Hk.
  assert (k = 0 ∨ k = 1 ∨ k = 2 ∨ k = 3) as E by lia. destruct E as [E|[E|[E|E]]]; subst k; reflexivity.
Qed.

Lemma build_bits_witness : ∃ buf, build example_builder example_phv [7; 8] = Some (buf ++ [7; 8]) ∧ length buf = 5%nat ∧ bit_at buf 29 = true.
Proof.
  destruct (build_bits example_builder example_phv [7; 8]) as (buf & E & _ & Hl & Hb).
  - cbn [entries_ok example_builder entries append_payload push_back_header push_back_constant push_back_field push_back_entry new_builder app].
    split; [split; [done|]; eexists; split; [reflexivity|]; intros _; split; [apply HeadersExamples.ipv4_ok|vm_compute; reflexivity]|].
    split; [eexists; split; [reflexivity|]; intros _; eexists; split; [reflexivity|];
      exact (proj1 (Forall_lookup _ _) HeadersExamples.ipv4_ok 1%nat _ eq_refl)|].
    split; [eexists; split; [reflexivity|]; intros E; vm_compute in E; discriminate|].
    split; [split_and!; [lia|apply (bool_decide_unpack _); vm_compute; exact I|vm_compute; congruence|exact example_constant]|].
    split; [|done]. split; [vm_compute; reflexivity|]. eexists. split; [reflexivity|]. intros E; vm_compute in E; discriminate.
  - exists buf. split; [exact E|]. split.
    + apply Nat2Z.inj. rewrite Hl. vm_compute. reflexivity.
    + apply (Hb 29%nat). vm_compute. reflexivity.
Defined.
End example.
End Calculations.
