(* ===== verification/CrcMap.v ===== *)
(** * CRCs by name and by description (src/bm_sim/crc_map.h, src/bm_sim/crc_map.cpp)

    A map of the usual CRC algorithms, and CRCs described by a string such as
    "poly_0x104c11db7_init_0xffffffff_xout_0xffffffff_not_rev". *)

From S2P Require Import Prelude ByteContainer Data Crc Calculations.
Import Crc Calculations.

Module CrcMap.

Definition custom_name (w : Z) : string :=
  if w =? 8 then "crc8_custom" else if w =? 16 then "crc16_custom" else if w =? 32 then "crc32_custom" else "crc64_custom".

(** What a factory for the type of [w] bits makes; [None] is the null pointer. *)
Definition create_crc (w : Z) (config : crc_config_t) : option HashFn :=
  (λ c, (update_config w c config).2) <$> Calculations.get_copy registered (custom_name w).

Definition config_of (polynomial initial final : Z) (data remainder : bool) : crc_config_t :=
  {| polynomial := polynomial; initial_remainder := initial; final_xor_value := final;
     data_reflected := data; remainder_reflected := remainder |}.

(** The names with the width and the configuration of their factories. *)
Definition map_ : gmap string (Z * crc_config_t) := list_to_map [
  ("crc_8", (8, config_of 0x07 0x00 0x00 false false));
  ("crc_8_darc", (8, config_of 0x39 0x00 0x00 true true));
  ("crc_8_i_code", (8, config_of 0x1d 0xfd 0x00 false false));
  ("crc_8_itu", (8, config_of 0x07 0x00 0x55 false false));
  ("crc_8_maxim", (8, config_of 0x31 0x00 0x00 true true));
  ("crc_8_rohc", (8, config_of 0x07 0xff 0x00 true true));
  ("crc_8_wcdma", (8, config_of 0x9b 0x00 0x00 true true));
  ("crc_16", (16, config_of 0x8005 0x0000 0x0000 true true));
  ("crc_16_buypass", (16, config_of 0x8005 0x0000 0x0000 false false));
  ("crc_16_dds_110", (16, config_of 0x8005 0x800d 0x0000 false false));
  ("crc_16_dect", (16, config_of 0x0589 0x0000 0x0001 false false));
  ("crc_16_dnp", (16, config_of 0x3d65 0x0000 0xffff true true));
  ("crc_16_en_13757", (16, config_of 0x3d65 0x0000 0xffff false false));
  ("crc_16_genibus", (16, config_of 0x1021 0xffff 0xffff false false));
  ("crc_16_maxim", (16, config_of 0x8005 0x0000 0xffff true true));
  ("crc_16_mcrf4xx", (16, config_of 0x1021 0xffff 0x0000 true true));
  ("crc_16_riello", (16, config_of 0x1021 0xb2aa 0x0000 true true));
  ("crc_16_t10_dif", (16, config_of 0x8bb7 0x0000 0x0000 false false));
  ("crc_16_teledisk", (16, config_of 0xa097 0x0000 0x0000 false false));
  ("crc_16_usb", (16, config_of 0x8005 0xffff 0xffff true true));
  ("x_25", (16, config_of 0x1021 0xffff 0xffff true true));
  ("xmodem", (16, config_of 0x1021 0x0000 0x0000 false false));
  ("modbus", (16, config_of 0x8005 0xffff 0x0000 true true));
  ("kermit", (16, config_of 0x1021 0x0000 0x0000 true true));
  ("crc_ccitt_false", (16, config_of 0x1021 0xffff 0x0000 false false));
  ("crc_aug_ccitt", (16, config_of 0x1021 0x1d0f 0x0000 false false));
  ("crc_32", (32, config_of 0x04c11db7 0xffffffff 0xffffffff true true));
  ("crc_32_bzip2", (32, config_of 0x04c11db7 0xffffffff 0xffffffff false false));
  ("crc_32c", (32, config_of 0x1edc6f41 0xffffffff 0xffffffff true true));
  ("crc_32d", (32, config_of 0xa833982b 0xffffffff 0xffffffff true true));
  ("crc_32_mpeg", (32, config_of 0x04c11db7 0xffffffff 0x00000000 false false));
  ("posix", (32, config_of 0x04c11db7 0x00000000 0xffffffff false false));
  ("crc_32q", (32, config_of 0x814141ab 0x00000000 0x00000000 false false));
  ("jamcrc", (32, config_of 0x04c11db7 0xffffffff 0x00000000 true true));
  ("xfer", (32, config_of 0x000000af 0x00000000 0x00000000 false false));
  ("crc_64", (64, config_of 0x000000000000001b 0x0000000000000000 0x0000000000000000 true true));
  ("crc_64_we", (64, config_of 0x42f0e1eba9ea3693 0xffffffffffffffff 0xffffffffffffffff false false));
  ("crc_64_jones", (64, config_of 0xad93d23594c935a9 0xffffffffffffffff 0x0000000000000000 true true))]%string.

Definition get_copy (name : string) : option HashFn :=
  '(w, config) ← map_ !! name; create_crc w config.

(** ** CRCs described by a string *)

Abbreviation chars := ByteContainer.chars.

(** What the calls of [next_token] give in turn; the ones after them give empty strings. *)
Fixpoint tokens (token str : list Z) : list (list Z) :=
  match str with
  | [] => [token]
  | c :: str => if c =? 95 then token :: tokens [] str else tokens (token ++ [c]) str
  end.

Record Params := {
  polynomial_str : list Z;
  init_str : list Z;
  xout_str : list Z;
  data_reflected : bool;
  remainder_reflected : bool;
}.

Definition no_params : Params :=
  {| polynomial_str := []; init_str := []; xout_str := []; data_reflected := true; remainder_reflected := true |}.

Definition set_polynomial (p : Params) (s : list Z) : Params :=
  {| polynomial_str := s; init_str := init_str p; xout_str := xout_str p; data_reflected := data_reflected p;
     remainder_reflected := remainder_reflected p |}.
Definition set_init (p : Params) (s : list Z) : Params :=
  {| polynomial_str := polynomial_str p; init_str := s; xout_str := xout_str p; data_reflected := data_reflected p;
     remainder_reflected := remainder_reflected p |}.
Definition set_xout (p : Params) (s : list Z) : Params :=
  {| polynomial_str := polynomial_str p; init_str := init_str p; xout_str := s; data_reflected := data_reflected p;
     remainder_reflected := remainder_reflected p |}.
Definition set_not_rev (p : Params) : Params :=
  {| polynomial_str := polynomial_str p; init_str := init_str p; xout_str := xout_str p; data_reflected := false;
     remainder_reflected := false |}.

(** The loop over the properties; [None] is a null pointer returned. *)
Fixpoint property_loop (ts : list (list Z)) (p : Params) : option Params :=
  match ts with
  | [] => Some p
  | token :: ts =>
      if decide (token = []) then Some p else
      match ts with
      | [] => None
      | value :: ts' =>
          if decide (token = chars "poly") then
            if decide (value = []) then None else property_loop ts' (set_polynomial p value)
          else if decide (token = chars "init") then
            if decide (value = []) then None else property_loop ts' (set_init p value)
          else if decide (token = chars "not" ∧ value = chars "rev") then property_loop ts' (set_not_rev p)
          else if decide (token = chars "xout") then
            if decide (value = []) then None else property_loop ts' (set_xout p value)
          else None
      end
  end.

Definition polynomial_order (polynomial : list Z) : Z :=
  let size := Z.of_nat (length polynomial) in
  if decide (size < 3 ∨ take 3 polynomial ≠ chars "0x1") then 0 else (size - 3) * 4.

Section strings.
Context `{Gmp, GmpUint}.

Definition hexstr_to_int (w : Z) (hexstr : list Z) : option Z :=
  if decide (hexstr = []) then Some 0 else convert_to_unsigned w <$> Data.of_hexstring hexstr.

Definition make_crc_from_custom_params (w : Z) (p : Params) : option (option HashFn) :=
  polynomial ← hexstr_to_int w (drop 3 (polynomial_str p));
  initial ← hexstr_to_int w (init_str p);
  final ← hexstr_to_int w (xout_str p);
  Some (create_crc w (config_of polynomial initial final (data_reflected p) (remainder_reflected p))).

(** The outer option is [None] when an assertion on the digits fails, the inner one for a null pointer. *)
Definition get_copy_from_custom_str (str : list Z) : option (option HashFn) :=
  match property_loop (tokens [] str) no_params with
  | None => Some None
  | Some p =>
      if decide (polynomial_str p = []) then Some None else
      let order := polynomial_order (polynomial_str p) in
      if decide (order ∈ [8; 16; 32; 64]) then make_crc_from_custom_params order p else Some None
  end.

(** [P4Objects::check_hash]: [Some None] is the exception for an unknown name. *)
Definition check_hash (name : string) : option (option HashFn) :=
  match Calculations.get_copy registered name with
  | Some h => Some (Some h)
  | None => match get_copy name with Some h => Some (Some h) | None => get_copy_from_custom_str (chars name) end
  end.
End strings.

(** ** Proof *)

(** The types of the configurable CRCs. *)
Definition crc_width (w : Z) : Prop := w ∈ [8; 16; 32; 64].

#[export] Instance crc_width_dec w : Decision (crc_width w).
Proof. unfold crc_width. apply _. Defined.

Lemma crc_width_cases (P : Z → Prop) w : crc_width w → P 8 → P 16 → P 32 → P 64 → P w.
Proof. unfold crc_width. set_unfold. naive_solver. Qed.

Lemma custom_copy w : crc_width w → Calculations.get_copy registered (custom_name w) = Some (new_crc_custom w).
Proof. intros Hw. apply (crc_width_cases (λ w, Calculations.get_copy registered (custom_name w) = Some (new_crc_custom w)) w Hw); vm_compute; reflexivity. Qed.

Lemma create_crc_eq w c : crc_width w → create_crc w c = Some (crc_custom w (Crc.update_config w c)).
Proof. intros Hw. unfold create_crc. rewrite custom_copy by done. cbn [fmap option_fmap option_map new_crc_custom update_config]. by rewrite Z.eqb_refl. Qed.

Lemma crc_width_pos w : crc_width w → 8 ≤ w ∧ w mod 8 = 0.
Proof. intros Hw. apply (crc_width_cases (λ w, 8 ≤ w ∧ w mod 8 = 0) w Hw); done. Qed.

#[export] Instance config_ok_dec w c : Decision (Crc.config_ok w c).
Proof. unfold Crc.config_ok. apply _. Defined.

Lemma map_ok : map_Forall (λ _ p, crc_width p.1 ∧ Crc.config_ok p.1 p.2) map_.
Proof. apply (bool_decide_unpack _). vm_compute. exact I. Qed.

(** Every name of the map stands for the division by the polynomial, with the initial remainder, the reflection and the final
    value that the map has for it. *)
Theorem predefined_crcs XXH64 name w c buf : map_ !! name = Some (w, c) → bytes_ok buf →
  ∃ h, get_copy name = Some h ∧ hash_ok h ∧ output XXH64 h buf = Some (Crc.crc_bits w c buf).
Proof.
  intros Hn Hb. destruct (map_ok _ _ Hn) as [Hw Hc]. cbn [fst snd] in *. unfold get_copy. rewrite Hn. msimpl. rewrite create_crc_eq by done.
  assert (hash_ok (crc_custom w (Crc.update_config w c))) as Hok by (split_and!; [by apply crc_width_pos|done|done]).
  exists (crc_custom w (Crc.update_config w c)). split; [done|]. split; [done|]. by rewrite (output_reference _ _ _ Hok Hb).
Qed.

(** The CRCs of the digits from 1 to 9. *)
Definition checks : list (string * Z) := [
  ("crc_8", 0xf4); ("crc_8_darc", 0x15); ("crc_8_i_code", 0x7e); ("crc_8_itu", 0xa1); ("crc_8_maxim", 0xa1); ("crc_8_rohc", 0xd0);
  ("crc_8_wcdma", 0x25); ("crc_16", 0xbb3d); ("crc_16_buypass", 0xfee8); ("crc_16_dds_110", 0x9ecf); ("crc_16_dect", 0x007e);
  ("crc_16_dnp", 0xea82); ("crc_16_en_13757", 0xc2b7); ("crc_16_genibus", 0xd64e); ("crc_16_maxim", 0x44c2);
  ("crc_16_mcrf4xx", 0x6f91); ("crc_16_riello", 0x63d0); ("crc_16_t10_dif", 0xd0db); ("crc_16_teledisk", 0x0fb3);
  ("crc_16_usb", 0xb4c8); ("x_25", 0x906e); ("xmodem", 0x31c3); ("modbus", 0x4b37); ("kermit", 0x2189); ("crc_ccitt_false", 0x29b1);
  ("crc_aug_ccitt", 0xe5cc); ("crc_32", 0xcbf43926); ("crc_32_bzip2", 0xfc891918); ("crc_32c", 0xe3069283); ("crc_32d", 0x87315576);
  ("crc_32_mpeg", 0x0376e6e7); ("posix", 0x765e7680); ("crc_32q", 0x3010bf7f); ("jamcrc", 0x340bc6d9); ("xfer", 0xbd0be338);
  ("crc_64", 0x46a5a9388a5beffe); ("crc_64_we", 0x62ec59e3f1a4f00a); ("crc_64_jones", 0xcaa717168609f281)]%string.

Example checks_ok :
  (λ p : string * Z, h ← get_copy p.1; output (λ _, 0) h Crc.check) <$> checks = (λ p : string * Z, Some p.2) <$> checks.
Proof. vm_compute. reflexivity. Qed.

Lemma predefined_crcs_witness : ∃ h, get_copy "crc_16_dnp" = Some h ∧ output (λ _, 0) h Crc.check = Some 0xea82.
Proof.
  destruct (predefined_crcs (λ _, 0) "crc_16_dnp" 16 (config_of 0x3d65 0x0000 0xffff true true) Crc.check) as (h & E & _ & Eo).
  - vm_compute. reflexivity.
  - apply (bool_decide_unpack _). vm_compute. exact I.
  - exists h. split; [exact E|]. rewrite Eo. vm_compute. reflexivity.
Defined.
End CrcMap.
