(* ===== verification/CrcStrings.v ===== *)
(** * Round trip of the descriptions of CRCs (src/bm_sim/crc_map.h, src/bm_sim/crc_map.cpp)

    A printer for the strings documented in crc_map.h, and that
    [get_copy_from_custom_str] reads back what it prints. *)

From S2P Require Import Prelude ByteContainer Data Crc Calculations CrcMap.
Import Crc Calculations CrcMap.

Module CrcStrings.

Section roundtrip.
Context `{GmpLaws, !GmpUint, !GmpUintLaws}.

Lemma hexstring_start bs : bytes_ok bs → bs ≠ [] → ∃ d1 d2 rest, ByteContainer.dump_hexstring false bs = d1 :: d2 :: rest ∧
  d1 ≠ 45 ∧ d2 ≠ 120.
Proof.
  intros Hbs Hne. destruct bs as [|b bs]; [done|]. apply Forall_cons in Hbs as [Hb _]. destruct (ByteContainer.byte_nibbles b Hb) as (Hhi & Hlo & _).
  eexists _, _, _. split; [reflexivity|]. split; apply ByteContainer.hex_digit_ne; auto.
Qed.

(** Digits after a prefix or not are read as the number of the bytes. *)
Lemma of_hexstring_dump (prefix : bool) bs : bytes_ok bs → bs ≠ [] →
  Data.of_hexstring ((if prefix then [48; 120] else []) ++ ByteContainer.dump_hexstring false bs) = Some (be_value bs).
Proof.
  intros Hbs Hne. destruct (hexstring_start bs Hbs Hne) as (d1 & d2 & rest & E & Hd1 & Hd2). pose proof (ByteContainer.length_hex false bs) as Hlen.
  set (pre := if prefix then [48; 120] else []). set (s := pre ++ ByteContainer.dump_hexstring false bs).
  assert (length s = (length pre + 2 * length bs)%nat) as Hls by (subst s; rewrite length_app; lia).
  assert (0 < length bs)%nat by (destruct bs; cbn; [done|lia]).
  assert (Z.of_nat (length pre) mod 2 = 0) as Heven by (subst pre; destruct prefix; done).
  assert (∃ c0, ByteContainer.char_at s 0 = Some c0 ∧ c0 ≠ 45 ∧
    (if c0 =? 48 then c1 ← ByteContainer.char_at s (0 + 1); Some (if c1 =? 120 then 0 + 2 else 0) else Some 0) = Some (Z.of_nat (length pre))) as (c0 & E0 & Hc0 & Eidx).
  { unfold ByteContainer.char_at. rewrite !(proj2 (Z.eqb_neq _ _)) by lia. subst s pre. rewrite E. destruct prefix; [by exists 48|]. cbn [app].
    assert (vget (d1 :: d2 :: rest) (0 + 1) = Some d2) as -> by done. exists d1. split; [done|]. split; [done|]. msimpl.
    rewrite (proj2 (Z.eqb_neq d2 120)) by done. by destruct (d1 =? 48). }
  unfold Data.of_hexstring. rewrite E0. msimpl. rewrite (proj2 (Z.eqb_neq c0 45)) by done. rewrite E0. msimpl. rewrite Eidx. msimpl.
  rewrite (proj2 (Z.ltb_lt _ _)) by lia. replace ((Z.of_nat (length s) - Z.of_nat (length pre)) mod 2) with 0.
  2:{ rewrite Hls. replace (_ - _) with (Z.of_nat (length bs) * 2) by lia. symmetry. apply Z.mod_mul. lia. }
  cbn [Z.eqb]. msimpl. subst s. rewrite ByteContainer.hex_loop_dump by (done || (rewrite length_app; lia)). cbn [app]. msimpl.
  by rewrite mpz_import_be.
Qed.

(** The digits of a number of [w] bits. *)
Definition digits (w v : Z) : list Z := ByteContainer.dump_hexstring false (be_bytes (Z.to_nat (w / 8)) v).

Lemma hexstr_digits (prefix : bool) w v : crc_width w → 0 ≤ v < 2 ^ w →
  hexstr_to_int w ((if prefix then [48; 120] else []) ++ digits w v) = Some v.
Proof.
  intros Hw Hv. destruct (crc_width_pos w Hw) as [Hw8 Hmod]. pose proof (Z.div_mod w 8). unfold hexstr_to_int, digits.
  pose proof (length_be_bytes (Z.to_nat (w / 8)) v) as Hl. assert (0 < w / 8) by lia.
  assert (be_bytes (Z.to_nat (w / 8)) v ≠ []) as Hne by (intros E; rewrite E in Hl; cbn in Hl; lia).
  rewrite decide_False.
  2:{ destruct (hexstring_start _ (be_bytes_ok (Z.to_nat (w / 8)) v) Hne) as (? & ? & ? & -> & _). by destruct prefix. }
  rewrite of_hexstring_dump by (done || apply be_bytes_ok). msimpl. rewrite be_value_bytes, Z2Nat.id by lia.
  assert (256 ^ (w / 8) = 2 ^ w) as -> by (change 256 with (2 ^ 8); rewrite <-Z.pow_mul_r by lia; f_equal; lia).
  rewrite Z.mod_small by done. f_equal. by apply convert_to_unsigned_small.
Qed.

(** Tokens put together with underscores are found again. *)
Fixpoint join (ts : list (list Z)) : list Z :=
  match ts with
  | [] => []
  | [t] => t
  | t :: ts => t ++ 95 :: join ts
  end.

Lemma tokens_app t : ∀ acc str, 95 ∉ t → tokens acc (t ++ str) = tokens (acc ++ t) str.
Proof.
  induction t as [|c t IH]; intros acc str Ht; [by rewrite app_nil_r|]. apply not_elem_of_cons in Ht as [Hc Ht]. cbn [app tokens].
  rewrite (proj2 (Z.eqb_neq c 95)) by done. by rewrite IH, <-app_assoc by done.
Qed.

Lemma tokens_join ts : ts ≠ [] → Forall (λ t, 95 ∉ t) ts → tokens [] (join ts) = ts.
Proof.
  induction ts as [|t ts IH]; [done|]. intros _ [Ht Hts]%Forall_cons. destruct ts as [|t' ts].
  - cbn [join]. rewrite <-(app_nil_r t) at 1. by rewrite tokens_app.
  - change (join (t :: t' :: ts)) with (t ++ 95 :: join (t' :: ts)). rewrite tokens_app by done. cbn [tokens Z.eqb Pos.eqb app]. by rewrite IH.
Qed.

(** The properties of a description. *)
Inductive Property := Poly (v : Z) | Init (v : Z) | Xout (v : Z) | NotRev.

Definition print_property (w : Z) (p : Property) : list (list Z) :=
  match p with
  | Poly v => [chars "poly"; chars "0x1" ++ digits w v]
  | Init v => [chars "init"; chars "0x" ++ digits w v]
  | Xout v => [chars "xout"; chars "0x" ++ digits w v]
  | NotRev => [chars "not"; chars "rev"]
  end.

(** "poly_0x1..._init_0x..._not_rev_..." *)
Definition describe (w : Z) (ps : list Property) : list Z := join (ps ≫= print_property w).

Definition property_ok (w : Z) (p : Property) : Prop :=
  match p with Poly v | Init v | Xout v => 0 ≤ v < 2 ^ w | NotRev => True end.

Definition apply_property (c : crc_config_t) (p : Property) : crc_config_t :=
  match p with
  | Poly v => config_of v (initial_remainder c) (final_xor_value c) (Crc.data_reflected c) (Crc.remainder_reflected c)
  | Init v => config_of (polynomial c) v (final_xor_value c) (Crc.data_reflected c) (Crc.remainder_reflected c)
  | Xout v => config_of (polynomial c) (initial_remainder c) v (Crc.data_reflected c) (Crc.remainder_reflected c)
  | NotRev => config_of (polynomial c) (initial_remainder c) (final_xor_value c) false false
  end.

(** The strings kept stand for a configuration. *)
Definition stands_for (w : Z) (p : Params) (c : crc_config_t) : Prop :=
  polynomial_str p = chars "0x1" ++ digits w (polynomial c) ∧ hexstr_to_int w (init_str p) = Some (initial_remainder c) ∧
  hexstr_to_int w (xout_str p) = Some (final_xor_value c) ∧ data_reflected p = Crc.data_reflected c ∧
  remainder_reflected p = Crc.remainder_reflected c ∧ Crc.config_ok w c.

Lemma property_loop_print w ps : crc_width w → Forall (property_ok w) ps → ∀ p c, stands_for w p c →
  ∃ p', property_loop (ps ≫= print_property w) p = Some p' ∧ stands_for w p' (foldl apply_property c ps).
Proof.
  intros Hw. induction ps as [|x ps IH]; intros Hps p c Hpc; [by exists p|]. apply Forall_cons in Hps as [Hx Hps].
  destruct Hpc as (Hp & Hi & Ho & Hd & Hr & Hc1 & Hc2 & Hc3).
  destruct x as [v|v|v|]; cbn [property_ok] in Hx; rewrite bind_cons; cbn [print_property app property_loop foldl].
  - destruct (IH Hps (set_polynomial p (chars "0x1" ++ digits w v)) (apply_property c (Poly v))) as (p' & E & Hp'); [by split_and!|].
    exists p'. split; [exact E|done].
  - destruct (IH Hps (set_init p (chars "0x" ++ digits w v)) (apply_property c (Init v))) as (p' & E & Hp').
    { split_and!; try done. by apply (hexstr_digits true). }
    exists p'. split; [exact E|done].
  - destruct (IH Hps (set_xout p (chars "0x" ++ digits w v)) (apply_property c (Xout v))) as (p' & E & Hp').
    { split_and!; try done. by apply (hexstr_digits true). }
    exists p'. split; [exact E|done].
  - destruct (IH Hps (set_not_rev p) (apply_property c NotRev)) as (p' & E & Hp'); [by split_and!|]. exists p'. split; [exact E|done].
Qed.

Lemma digits_clean w v : 95 ∉ digits w v.
Proof.
  unfold digits. generalize (be_bytes_ok (Z.to_nat (w / 8)) v). generalize (be_bytes (Z.to_nat (w / 8)) v). intros bs Hbs.
  induction Hbs as [|b bs Hb _ IH]; [apply not_elem_of_nil|]. destruct (ByteContainer.byte_nibbles b Hb) as (Hhi & Hlo & _).
  change (95 ∉ ByteContainer.hex_digit false (b / 16) :: ByteContainer.hex_digit false (b mod 16) :: ByteContainer.dump_hexstring false bs).
  unfold ByteContainer.hex_digit. rewrite !not_elem_of_cons. split; [destruct (Z.ltb_spec (b / 16) 10); lia|].
  split; [destruct (Z.ltb_spec (b mod 16) 10); lia|done].
Qed.

Lemma print_clean w ps : Forall (λ t, 95 ∉ t) (ps ≫= print_property w).
Proof.
  assert (95 ∉ chars "0x1" ∧ 95 ∉ chars "0x") as [Hc1 Hc2] by (split; apply (bool_decide_unpack _); vm_compute; exact I).
  induction ps as [|x ps IH]; [constructor|]. rewrite bind_cons. apply Forall_app. split; [|done]. pose proof (digits_clean w).
  destruct x; repeat constructor; try (rewrite not_elem_of_app; done); apply (bool_decide_unpack _); vm_compute; exact I.
Qed.

Lemma length_digits w v : crc_width w → Z.of_nat (length (digits w v)) * 4 = w.
Proof.
  intros Hw. destruct (crc_width_pos w Hw) as [Hw8 Hmod]. pose proof (Z.div_mod w 8). unfold digits.
  rewrite ByteContainer.length_hex, length_be_bytes. lia.
Qed.

(** A CRC described by a string in the documented form, with the properties in any order and the last value of each counting,
    is the CRC with those properties, and computes the division of the message by its polynomial. *)
Theorem custom_str_crc XXH64 w v ps buf : crc_width w → Forall (property_ok w) (Poly v :: ps) → bytes_ok buf →
  let c := foldl apply_property (config_of v 0 0 true true) ps in
  ∃ h, get_copy_from_custom_str (describe w (Poly v :: ps)) = Some (Some h) ∧ output XXH64 h buf = Some (Crc.crc_bits w c buf).
Proof.
  intros Hw Hps Hb c. destruct (crc_width_pos w Hw) as [Hw8 _]. assert (0 < 2 ^ w) by (apply Z.pow_pos_nonneg; lia).
  unfold get_copy_from_custom_str, describe. rewrite tokens_join; [|done|apply print_clean].
  pose proof Hps as [Hv Hps']%Forall_cons.
  destruct (property_loop_print w ps Hw Hps' (set_polynomial no_params (chars "0x1" ++ digits w v)) (config_of v 0 0 true true))
    as (p' & E & Hp & Hi & Ho & Hd & Hr & Hc); [by split_and!|].
  rewrite bind_cons. cbn [print_property app property_loop]. fold c in Hp, Hi, Ho, Hd, Hr, Hc.
  rewrite (decide_False (P := chars "poly" = [])), (decide_True (P := chars "poly" = chars "poly")), decide_False, E by done.
  assert (polynomial_str p' ≠ []) as Hne by by rewrite Hp. rewrite decide_False by done.
  assert (polynomial_order (polynomial_str p') = w) as ->.
  { unfold polynomial_order. rewrite Hp, length_app, Nat2Z.inj_add. pose proof (length_digits w (polynomial c) Hw). change (Z.of_nat (length (chars "0x1"))) with 3.
    rewrite decide_False; [lia|]. intros [?|Hn]; [lia|by apply Hn]. }
  rewrite decide_True by done. unfold make_crc_from_custom_params. rewrite Hp, Hi, Ho, Hd, Hr. change (drop 3 (chars "0x1" ++ digits w (polynomial c))) with ([] ++ digits w (polynomial c)).
  rewrite (hexstr_digits false) by (done || apply Hc). msimpl. rewrite create_crc_eq by done.
  eexists. split; [reflexivity|]. assert (hash_ok (crc_custom w (Crc.update_config w c))) as Hok by by split_and!.
  by destruct c; apply (output_reference XXH64 _ buf Hok Hb).
Qed.
End roundtrip.

(** An empty token ends the description, whatever comes after it. *)
Lemma empty_token : property_loop (tokens [] (chars "poly_0x107__not_rev_or_anything")) no_params =
  property_loop (tokens [] (chars "poly_0x107")) no_params.
Proof. reflexivity. Qed.

Section example.
Import GmpExample GmpUintExample.

Example crc32_bzip2 : describe 32 [Poly 0x04c11db7; Init 0xffffffff; Xout 0xffffffff; NotRev] =
  chars "poly_0x104c11db7_init_0xffffffff_xout_0xffffffff_not_rev".
Proof. vm_compute. reflexivity. Qed.

Lemma custom_str_crc_witness : ∃ h,
  get_copy_from_custom_str (chars "poly_0x104c11db7_init_0xffffffff_xout_0xffffffff_not_rev") = Some (Some h) ∧
  output (λ _, 0) h Crc.check = Some 0xfc891918.
Proof.
  rewrite <-crc32_bzip2. destruct (custom_str_crc (λ _, 0) 32 0x04c11db7 [Init 0xffffffff; Xout 0xffffffff; NotRev] Crc.check) as (h & E & Eo).
  - apply (bool_decide_unpack _). vm_compute. exact I.
  - repeat constructor; cbn; lia.
  - apply (bool_decide_unpack _). vm_compute. exact I.
  - exists h. split; [exact E|]. rewrite Eo. vm_compute. reflexivity.
Defined.
End example.
End CrcStrings.
