(* ===== verification/Checksums.v ===== *)
(** * Checksums (include/bm/bm_sim/checksums.h, src/bm_sim/checksums.cpp)

    The checksum of a field, updated by the deparser and verified by the
    parser: by a calculation, or the one of an IPv4 header. *)

From S2P Require Import Prelude Data Extract Fields Headers Phv Expressions Parser Crc Cksum Calculations.
Import (coercions) Fields.

Module Checksums.

Inductive ChecksumKind :=
  | CalcBasedChecksum (calculation : Calculations.Calculation)
  | IPv4Checksum.

Record Checksum := {
  kind : ChecksumKind;
  header_id : Z;
  field_offset : Z;
  condition : option Expressions.Expression;
}.

Definition new_checksum (k : ChecksumKind) (header_id field_offset : Z) : Checksum :=
  {| kind := k; header_id := header_id; field_offset := field_offset; condition := None |}.

Definition set_checksum_condition (cs : Checksum) (e : Expressions.Expression) : Checksum :=
  {| kind := kind cs; header_id := header_id cs; field_offset := field_offset cs; condition := Some e |}.

Section checksums.
Context `{Gmp, GmpSize, GmpUint}.
Context (XXH64 : list Z → Z).
(** The register arrays, and the rest of the packet. *)
Context (registers : Z → list Data.Data) (data : list Z).
Implicit Types (cs : Checksum) (phv : Phv.PHV).

Definition is_checksum_condition_met cs phv : option bool :=
  match condition cs with
  | None => Some true
  | Some e =>
      fst <$> Expressions.eval_bool e {| Expressions.phv := phv; Expressions.locals := []; Expressions.registers := registers |} []
  end.

Definition is_target_field_valid cs phv : option bool := Headers.is_valid <$> Phv.get_header phv (header_id cs).

Definition target cs : Parser.field_t := {| Parser.f_header := header_id cs; Parser.f_offset := field_offset cs |}.

Definition calc_update (calculation : Calculations.Calculation) cs phv : option Phv.PHV :=
  cksum ← Calculations.calculation_output XXH64 calculation phv data;
  f ← Parser.get_field phv (target cs);
  f ← Fields.set f cksum;
  Parser.set_field phv (target cs) f.

Definition calc_verify (calculation : Calculations.Calculation) cs phv : option bool :=
  cksum ← Calculations.calculation_output XXH64 calculation phv data;
  f ← Parser.get_field phv (target cs);
  if Data.arith (Fields.base f) then Some (cksum =? convert_to_unsigned 64 (Data.value (Fields.base f))) else None.

(** The checksum of a header deparsed in a local buffer, whose bytes 10 and 11 are zeroed. *)
Definition ipv4_cksum (h : Headers.Header) (buffer : list Z) : option Z :=
  buffer ← Headers.deparse h buffer;
  buffer ← vset buffer 10 0;
  buffer ← vset buffer 11 0;
  if Headers.nbytes_packet h <=? Z.of_nat (length buffer)
  then Some (Cksum.cksum16_raw (take (Z.to_nat (Headers.nbytes_packet h)) buffer)) else None.

(** The bytes of a [uint16_t] in the memory of the host. *)
Definition host_bytes (x : Z) : list Z := [x mod 256; x / 256].

(** [buffer]: the 60 bytes of the stack, whatever is in them. *)
Definition ipv4_update (buffer : list Z) cs phv : option Phv.PHV :=
  h ← Phv.get_header phv (header_id cs);
  if negb (Headers.is_valid h) then Some phv else
  f ← vget (Headers.fields h) (field_offset cs);
  cksum ← ipv4_cksum h buffer;
  f ← Fields.set_bytes f (host_bytes cksum) 2;
  Parser.set_field phv (target cs) f.

Definition ipv4_verify (buffer : list Z) cs phv : option bool :=
  h ← Phv.get_header phv (header_id cs);
  if negb (Headers.is_valid h) then Some true else
  f ← vget (Headers.fields h) (field_offset cs);
  cksum ← ipv4_cksum h buffer;
  c ← memcmp (host_bytes cksum) (Fields.bytes f) 2;
  Some match c with Eq => true | _ => false end.

Definition update_ (buffer : list Z) cs phv : option Phv.PHV :=
  match kind cs with
  | CalcBasedChecksum calculation => calc_update calculation cs phv
  | IPv4Checksum => ipv4_update buffer cs phv
  end.

Definition verify_ (buffer : list Z) cs phv : option bool :=
  match kind cs with
  | CalcBasedChecksum calculation => calc_verify calculation cs phv
  | IPv4Checksum => ipv4_verify buffer cs phv
  end.

Definition update (buffer : list Z) cs phv : option Phv.PHV :=
  met ← is_checksum_condition_met cs phv;
  if negb met then Some phv else update_ buffer cs phv.

Definition verify (buffer : list Z) cs phv : option bool :=
  valid ← is_target_field_valid cs phv;
  if negb valid then Some true else
  met ← is_checksum_condition_met cs phv;
  if negb met then Some true else verify_ buffer cs phv.
End checksums.

(** ** The target field *)

Section target.
Context `{GmpLaws}.
Implicit Types (cs : Checksum) (phv : Phv.PHV).

(** Writing the target field changes nothing else. *)
Lemma set_target cs phv h f f' :
  Phv.get_header phv (header_id cs) = Some h → vget (Headers.fields h) (field_offset cs) = Some f →
  ∃ phv' fs', Parser.set_field phv (target cs) f' = Some phv' ∧ vset (Headers.fields h) (field_offset cs) f' = Some fs' ∧
    (∀ id, Phv.get_header phv' id = if decide (id = header_id cs) then Some (Headers.with_fields h fs') else Phv.get_header phv id).
Proof.
  intros Hh Hf. unfold Parser.set_field. cbn [target Parser.f_header Parser.f_offset]. rewrite Hh. msimpl.
  apply vget_Some_range in Hf as Hr. rewrite (vset_Some _ _ f') by lia. msimpl. unfold Phv.set_header, Phv.get_header in *.
  apply vget_Some_range in Hh as Hr'. destruct (vset (Phv.headers phv) (header_id cs) _) as [hs|] eqn:E; [|by rewrite vset_Some in E by lia].
  msimpl. eexists _, _. split; [reflexivity|]. split; [reflexivity|]. intros id. cbn [Phv.headers Phv.with_headers]. by apply (vget_vset _ _ _ _ id).
Qed.

Lemma set_target_field cs phv phv' h f' fs' :
  (∀ id, Phv.get_header phv' id = if decide (id = header_id cs) then Some (Headers.with_fields h fs') else Phv.get_header phv id) →
  vset (Headers.fields h) (field_offset cs) f' = Some fs' →
  Parser.get_field phv' (target cs) = Some f'.
Proof.
  intros Hphv Hfs. unfold Parser.get_field. cbn [target Parser.f_header Parser.f_offset]. rewrite Hphv, decide_True by done. msimpl.
  cbn [Headers.fields Headers.with_fields]. by rewrite (vget_vset _ _ _ _ _ Hfs), decide_True.
Qed.

(** ** Checksums by a calculation *)

(** The calculation does not read the target. *)
Definition entry_avoids cs (e : Calculations.Entry) : Prop :=
  match e with
  | Calculations.Field_t header off => header ≠ header_id cs ∨ off ≠ field_offset cs
  | Calculations.Constant_t _ _ => True
  | Calculations.Header_t header => header ≠ header_id cs
  end.

Lemma deparse_entries_avoid cs phv phv' h f' fs' : Phv.get_header phv (header_id cs) = Some h →
  (∀ id, Phv.get_header phv' id = if decide (id = header_id cs) then Some (Headers.with_fields h fs') else Phv.get_header phv id) →
  vset (Headers.fields h) (field_offset cs) f' = Some fs' →
  ∀ es st, Forall (entry_avoids cs) es → Calculations.deparse_entries phv' st es = Calculations.deparse_entries phv st es.
Proof.
  intros Hh Hphv Hfs. induction es as [|e es IH]; intros st Hes; [done|]. apply Forall_cons in Hes as [He Hes]. cbn [Calculations.deparse_entries].
  assert (Calculations.deparse_entry phv' st e = Calculations.deparse_entry phv st e) as ->.
  { destruct e as [id off|v n|id]; cbn [Calculations.deparse_entry entry_avoids] in *; [|done|].
    - rewrite Hphv. case_decide as Hid; [subst id|done]. rewrite Hh. msimpl. change (Headers.is_valid (Headers.with_fields h fs')) with (Headers.is_valid h).
      destruct (Headers.is_valid h); [|done]. cbn [negb Headers.fields Headers.with_fields]. rewrite (vget_vset _ _ _ _ _ Hfs).
      by rewrite decide_False by (destruct He; congruence).
    - by rewrite Hphv, decide_False. }
  destruct (Calculations.deparse_entry phv st e); [|done]. msimpl. by apply IH.
Qed.

(** C40: after a checksum is updated by a calculation that does not read it, verifying it compares the value calculated with
    what the field could keep of it: it succeeds exactly when the value fits the field. *)
Theorem calc_update_verify `{!GmpUint, !GmpUintLaws} XXH64 data calculation cs phv h f cksum :
  Phv.get_header phv (header_id cs) = Some h → vget (Headers.fields h) (field_offset cs) = Some f →
  Forall (entry_avoids cs) (Calculations.entries (Calculations.builder calculation)) →
  Calculations.calculation_output XXH64 calculation phv data = Some cksum → 0 ≤ cksum →
  Fields.wf f → Fields.is_signed f = false → Fields.is_saturating f = false → Fields.nbits f ≤ 64 → Data.arith (Fields.base f) = true →
  ∃ phv', calc_update XXH64 data calculation cs phv = Some phv' ∧
    calc_verify XXH64 data calculation cs phv' = Some (bool_decide (cksum < 2 ^ Fields.nbits f)).
Proof.
  intros Hh Hf Hes Hc Hc0 Hwf Hsg Hsat Hn Ha. unfold calc_update. rewrite Hc. msimpl.
  assert (Parser.get_field phv (target cs) = Some f) as -> by (unfold Parser.get_field; cbn [target Parser.f_header Parser.f_offset]; rewrite Hh; done). msimpl.
  assert (Fields.wf (Fields.with_value f cksum)) as Hwfv by (destruct Hwf; by constructor).
  destruct (Fields.export_bytes_ok _ Hwfv) as (f' & E & Hwf' & Hv & _). unfold Fields.set. rewrite E. msimpl.
  cbn [Fields.with_value Data.value Fields.base] in Hv. unfold Fields.exported in Hv.
  cbn [Fields.with_value Fields.is_saturating Fields.is_signed Fields.nbits] in Hv. rewrite Hsat, Hsg in Hv.
  assert (Data.arith (Fields.base f') = true) as Ha'.
  { clear -E Ha. unfold Fields.export_bytes in E. mbind_inv E. by repeat case_match; simplify_eq/=. }
  destruct (set_target cs phv h f f' Hh Hf) as (phv' & fs' & -> & Hfs & Hphv). exists phv'. split; [done|].
  unfold calc_verify. unfold Calculations.calculation_output, Calculations.build in *.
  rewrite (deparse_entries_avoid cs phv phv' h f' fs' Hh Hphv Hfs _ _ Hes), Hc. msimpl.
  rewrite (set_target_field cs phv phv' h f' fs' Hphv Hfs). msimpl. rewrite Ha', Hv. f_equal.
  pose proof (Fields.wf_nbits _ Hwf). pose proof (Z.mod_pos_bound cksum (2 ^ Fields.nbits f)).
  assert (0 < 2 ^ Fields.nbits f ≤ 2 ^ 64) by (split; [apply Z.pow_pos_nonneg; lia|apply Z.pow_le_mono_r; lia]).
  rewrite convert_to_unsigned_small by lia. case_bool_decide as Hlt.
  - rewrite Z.mod_small by lia. apply Z.eqb_refl.
  - apply Z.eqb_neq. lia.
Qed.

(** ** The checksum of an IPv4 header *)

(** The fields of a header with the checksum after 80 bits of others, in a header of whole bytes that fits the buffer. *)
Record ipv4_layout cs (h : Headers.Header) (before after : list Fields.Field) (f : Fields.Field) : Prop := {
  layout_fields : Headers.fields h = before ++ f :: after;
  layout_offset : field_offset cs = Z.of_nat (length before);
  layout_visible : Forall (λ f, Fields.hidden f = false) (before ++ [f]);
  layout_before : Headers.visible_nbits before = 80;
  layout_nbits : Fields.nbits f = 16;
  layout_ok : Forall Headers.field_ok (Headers.fields h);
  layout_bytes : Headers.visible_nbits (Headers.fields h) = 8 * Headers.nbytes_packet h;
  layout_size : Headers.nbytes_packet h ≤ 60;
}.

Lemma fields_bits_app (l1 l2 : list Fields.Field) : Forall (λ f, Fields.hidden f = false) l1 →
  Calculations.fields_bits (l1 ++ l2) = Calculations.fields_bits l1 ++ Calculations.fields_bits l2.
Proof.
  induction 1 as [|f l1 Hf Hl1 IH]; [done|]. cbn [app Calculations.fields_bits]. by rewrite Hf, IH, app_assoc.
Qed.

Lemma bit_at_vset l i x l' k : vset l i x = Some l' → 0 ≤ k →
  bit_at l' k = if decide (k / 8 = i) then Z.testbit x (7 - k mod 8) else bit_at l k.
Proof. intros Hl Hk. unfold bit_at. rewrite (vget_vset _ _ _ _ _ Hl). by case_decide. Qed.

(** The bytes that the checksum is over. *)
Definition zeroed (h : Headers.Header) (bytes : list Z) : Prop :=
  bytes_ok bytes ∧ Z.of_nat (length bytes) = Headers.nbytes_packet h ∧
  ∀ k, 0 ≤ k < 8 * Headers.nbytes_packet h → bit_at bytes k =
    if decide (80 ≤ k < 96) then false else default false (Calculations.fields_bits (Headers.fields h) !! Z.to_nat k).

Lemma zeroed_unique h b1 b2 : zeroed h b1 → zeroed h b2 → b1 = b2.
Proof.
  intros (Hb1 & Hl1 & H1) (Hb2 & Hl2 & H2). apply bits_ext; [done|done|lia|]. intros k Hk. rewrite H1, H2 by lia. done.
Qed.

Lemma ipv4_cksum_ok cs h before after f buffer : ipv4_layout cs h before after f → bytes_ok buffer → length buffer = 60%nat →
  ∃ bytes, zeroed h bytes ∧ ipv4_cksum h buffer = Some (Cksum.cksum16_raw bytes).
Proof.
  intros HL Hb Hlen. pose proof (layout_ok _ _ _ _ _ HL) as Hok. pose proof (layout_bytes _ _ _ _ _ HL). pose proof (layout_size _ _ _ _ _ HL).
  assert (Forall Fields.wf (Headers.fields h)) as Hwf by (eapply Forall_impl; [exact Hok|]; by intros x [? _]).
  destruct (Headers.deparse_fields_ok (Headers.fields h) buffer 0 Hok Hb) as (d & E & Hl & Hd & Hlay & _ & _); [lia|lia|].
  unfold ipv4_cksum, Headers.deparse. rewrite E. msimpl.
  destruct (vset d 10 0) as [d1|] eqn:E1; [|by rewrite vset_Some in E1 by lia]. msimpl. pose proof (vset_length _ _ _ _ E1).
  destruct (vset d1 11 0) as [d2|] eqn:E2; [|by rewrite vset_Some in E2 by lia]. msimpl. pose proof (vset_length _ _ _ _ E2).
  rewrite (proj2 (Z.leb_le _ _)) by lia. exists (take (Z.to_nat (Headers.nbytes_packet h)) d2). split; [|done].
  pose proof (Headers.visible_nonneg _ Hwf).
  assert (bytes_ok d2) as Hd2.
  { apply bytes_ok_intro. intros i b. rewrite (vget_vset _ _ _ _ _ E2). case_decide; [by intros [= <-]|]. rewrite (vget_vset _ _ _ _ _ E1).
    case_decide; [by intros [= <-]|]. by apply bytes_ok_vget. }
  split; [by apply Forall_take|]. split; [rewrite length_take; lia|]. intros k Hk. rewrite Headers.bit_at_take by lia.
  pose proof (Headers.div_mod_8 k) as (Hq & Hr & Ek); [lia|].
  rewrite (bit_at_vset _ _ _ _ _ E2), (bit_at_vset _ _ _ _ _ E1), !Z.bits_0 by lia.
  destruct (decide (80 ≤ k < 96)).
  - destruct (decide (k / 8 = 11)); [done|]. by rewrite decide_True by lia.
  - rewrite !decide_False by lia. pose proof (Calculations.length_fields_bits _ Hwf).
    destruct (lookup_lt_is_Some_2 (Calculations.fields_bits (Headers.fields h)) (Z.to_nat k)) as [b Hkb]; [lia|]. rewrite Hkb. cbn [default from_option id].
    rewrite <-(Calculations.laid_out_bits _ d 0 Hwf Hlay _ _ Hkb). f_equal. lia.
Qed.

(** The checksum does not depend on the checksum field. *)
Lemma zeroed_with_fields cs h before after f f' fs' bytes : ipv4_layout cs h before after f → Fields.wf f → Fields.wf f' → Fields.nbits f' = 16 → Fields.hidden f' = false →
  fs' = before ++ f' :: after → zeroed h bytes → zeroed (Headers.with_fields h fs') bytes.
Proof.
  intros HL Hf Hf' Hn Hh -> (Hb & Hl & Hbits). split; [done|]. split; [done|]. intros k Hk. cbn [Headers.nbytes_packet Headers.with_fields] in *. rewrite Hbits by done.
  pose proof (layout_visible _ _ _ _ _ HL) as Hv. apply Forall_app in Hv as [Hv Hvf]. apply Forall_cons in Hvf as [Hvf _].
  pose proof (layout_ok _ _ _ _ _ HL) as Hok. rewrite (layout_fields _ _ _ _ _ HL) in *. cbn [Headers.fields Headers.with_fields].
  destruct (decide (80 ≤ k < 96)); [done|]. rewrite !fields_bits_app by done. cbn [Calculations.fields_bits]. rewrite Hvf, Hh.
  assert (Forall Fields.wf before) as Hwfb by (apply Forall_app in Hok as [Hok _]; eapply Forall_impl; [exact Hok|]; by intros x [? _]).
  pose proof (Calculations.length_fields_bits _ Hwfb) as Hlb. rewrite (layout_before _ _ _ _ _ HL) in Hlb.
  pose proof (layout_nbits _ _ _ _ _ HL) as Hn0. unfold Calculations.field_bits. rewrite Hn0, Hn.
  set (B := Calculations.fields_bits before) in *. f_equal. destruct (decide (k < 80)).
  - by rewrite !lookup_app_l by lia.
  - rewrite !(lookup_app_r B) by lia. rewrite !lookup_app_r by (rewrite length_fmap, length_seqZ; lia). by rewrite !length_fmap, !length_seqZ.
Qed.

Lemma visible_app (l1 l2 : list Fields.Field) : Forall (λ f, Fields.hidden f = false) l1 →
  Headers.visible_nbits (l1 ++ l2) = Headers.visible_nbits l1 + Headers.visible_nbits l2.
Proof. induction 1 as [|f l1 Hf Hl1 IH]; [done|]. cbn [app Headers.visible_nbits]. rewrite Hf, IH. lia. Qed.

Lemma layout_target cs h before after f f' fs' : ipv4_layout cs h before after f → vset (Headers.fields h) (field_offset cs) f' = Some fs' →
  Headers.field_ok f' → Fields.nbits f' = 16 → Fields.hidden f' = Fields.hidden f →
  fs' = before ++ f' :: after ∧ ipv4_layout cs (Headers.with_fields h fs') before after f'.
Proof.
  intros HL Hfs' Hok' Hn Hh. assert (fs' = before ++ f' :: after) as E.
  { apply vset_inv in Hfs' as [_ ->]. rewrite (layout_offset _ _ _ _ _ HL), (layout_fields _ _ _ _ _ HL), Nat2Z.id.
    rewrite insert_app_r_alt by done. by rewrite Nat.sub_diag. }
  split; [exact E|]. pose proof HL as [Hf Ho Hv Hb Hn0 Hok Hbytes Hs]. pose proof Hv as [Hv1 [Hv2 _]%Forall_cons]%Forall_app.
  constructor; cbn [Headers.fields Headers.with_fields Headers.nbytes_packet]; [done|done| |done|done| | |done].
  - apply Forall_app. split; [done|]. by rewrite Forall_singleton, Hh.
  - rewrite E. rewrite Hf in Hok. apply Forall_app in Hok as [Hok1 [_ Hok2]%Forall_cons]. apply Forall_app. split; [done|]. by constructor.
  - rewrite <-Hbytes, E, Hf, !visible_app by done. cbn [Headers.visible_nbits]. by rewrite Hh, Hn, Hn0.
Qed.

Lemma bytes_compare_refl l : bytes_compare l l = Eq.
Proof. induction l as [|b l IH]; [done|]. cbn. by rewrite Z.compare_refl. Qed.

Lemma set_cksum_bytes f bs : Fields.wf f → Fields.nbits f = 16 → bytes_ok bs → length bs = 2%nat →
  ∃ f', Fields.set_bytes f bs 2 = Some f' ∧ Fields.bytes f' = bs ∧ Fields.wf f' ∧ Fields.nbits f' = 16 ∧ Fields.hidden f' = Fields.hidden f.
Proof.
  intros Hwf Hn Hb Hl. pose proof (Fields.wf_nbytes _ Hwf) as Hnb. rewrite Hn in Hnb. change (Extract.nbytes_of 16) with 2 in Hnb.
  pose proof (Fields.wf_length _ Hwf). unfold Fields.set_bytes. rewrite Hnb. cbn [Z.eqb Pos.eqb]. unfold memcpy. rewrite decide_True by lia. msimpl.
  rewrite take_ge, drop_ge, app_nil_r by lia. set (f1 := Fields.with_bytes f bs).
  assert (Fields.wf f1) as Hwf1 by (destruct Hwf; constructor; cbn; [done..|lia|done|done|done|done]).
  change (Data.arith (Fields.base f1)) with (Data.arith (Fields.base f)). destruct (Data.arith (Fields.base f)).
  - destruct (Fields.sync_value_ok f1 Hwf1) as (f' & -> & Hwf' & _ & Hb' & Hn' & _ & Hh' & _).
    + unfold Fields.padded. cbn. rewrite Hn. pose proof (be_value_range bs Hb) as Hr. rewrite Hl in Hr. apply Hr.
    + exists f'. split_and!; [done|done|done|by rewrite Hn'|done].
  - exists f1. done.
Qed.

(** After the checksum of an IPv4 header is updated, its field has the bytes of the RFC 1071 checksum of the header without
    it, in network byte order, and verifying it succeeds, whatever is in the memory that the header is written to. *)
Theorem ipv4_update_verify `{!GmpSize, !GmpUint} XXH64 registers data cs phv h before after f buffer :
  kind cs = IPv4Checksum → Phv.get_header phv (header_id cs) = Some h → Headers.is_valid h = true → ipv4_layout cs h before after f →
  bytes_ok buffer → length buffer = 60%nat → is_checksum_condition_met registers cs phv = Some true →
  ∃ phv' f' bytes, update XXH64 registers data buffer cs phv = Some phv' ∧ zeroed h bytes ∧
    Parser.get_field phv' (target cs) = Some f' ∧ Fields.bytes f' = Cksum.word_bytes (Cksum.rfc1071 bytes) ∧
    ∀ buffer' met, bytes_ok buffer' → length buffer' = 60%nat → is_checksum_condition_met registers cs phv' = Some met →
      verify XXH64 registers data buffer' cs phv' = Some true.
Proof.
  intros Hk Hh Hv HL Hb Hlen Hmet. pose proof (layout_ok _ _ _ _ _ HL) as Hok. pose proof (layout_fields _ _ _ _ _ HL) as Hfs.
  assert (Fields.wf f) as Hwf by (rewrite Hfs in Hok; apply Forall_app in Hok as [_ Hok]; apply Forall_cons in Hok as [[? _] _]; done).
  destruct (ipv4_cksum_ok cs h before after f buffer HL Hb Hlen) as (bytes & Hz & Ec).
  destruct (Cksum.raw_bytes bytes (proj1 Hz)) as [Ew Hr]. fold (host_bytes (Cksum.cksum16_raw bytes)) in Ew.
  assert (vget (Headers.fields h) (field_offset cs) = Some f) as Hf.
  { rewrite (layout_offset _ _ _ _ _ HL), vget_nat, Nat2Z.id, Hfs by lia. by apply list_lookup_middle. }
  destruct (set_cksum_bytes f (host_bytes (Cksum.cksum16_raw bytes)) Hwf (layout_nbits _ _ _ _ _ HL)) as (f' & Es & Hb' & Hwf' & Hn' & Hh'); [|done|].
  { assert (0 ≤ Cksum.cksum16_raw bytes / 256 < 256) by (split; [apply Z.div_pos; lia|apply Z.div_lt_upper_bound; lia]).
    pose proof (Z.mod_pos_bound (Cksum.cksum16_raw bytes) 256). repeat constructor; lia. }
  destruct (set_target cs phv h f f' Hh Hf) as (phv' & fs' & Eset & Hfs' & Hphv).
  exists phv', f', bytes. split.
  { unfold update, update_. rewrite Hmet, Hk. msimpl. cbn [negb]. unfold ipv4_update. rewrite Hh. msimpl. rewrite Hv. cbn [negb].
    rewrite Hf. msimpl. rewrite Ec. msimpl. rewrite Es. msimpl. exact Eset. }
  split; [done|]. split; [by eapply set_target_field|]. split; [by rewrite Hb'|]. intros buffer' met Hbuf Hlb Hmet'.
  assert (Phv.get_header phv' (header_id cs) = Some (Headers.with_fields h fs')) as Hget by by rewrite Hphv, decide_True.
  unfold verify, is_target_field_valid. rewrite Hget. msimpl. change (Headers.is_valid (Headers.with_fields h fs')) with (Headers.is_valid h).
  rewrite Hv, Hmet'. cbn [negb]. msimpl. destruct met; [cbn [negb]|done]. unfold verify_. rewrite Hk. unfold ipv4_verify. rewrite Hget. msimpl.
  change (Headers.is_valid (Headers.with_fields h fs')) with (Headers.is_valid h). rewrite Hv. cbn [negb Headers.fields Headers.with_fields].
  rewrite (vget_vset _ _ _ _ _ Hfs'), decide_True by done. msimpl.
  assert (Headers.field_ok f') as Hok'.
  { split; [done|]. unfold Fields.padded. rewrite Hn'. pose proof (be_value_range _ (Fields.wf_bytes _ Hwf')) as Hbe. rewrite Hb' in *. exact (proj2 Hbe). }
  destruct (layout_target cs h before after f f' fs' HL Hfs' Hok' Hn' Hh') as [Efs HL'].
  destruct (ipv4_cksum_ok cs (Headers.with_fields h fs') before after f' buffer' HL' Hbuf Hlb) as (bytes' & Hz' & ->). msimpl.
  assert (bytes' = bytes) as ->.
  { apply (zeroed_unique (Headers.with_fields h fs')); [done|]. apply (zeroed_with_fields cs h before after f f' fs' bytes); [done|done|done|done| |done|done].
    pose proof (layout_visible _ _ _ _ _ HL') as Hvis. apply Forall_app in Hvis as [_ [Hvis _]%Forall_cons]. exact Hvis. }
  rewrite Hb'. unfold memcmp. rewrite decide_True by (cbn; lia). msimpl. by rewrite bytes_compare_refl.
Qed.
End target.

(** ** An IPv4 header *)

Module ChecksumsExamples.
Import GmpExample GmpUintExample.

Definition ipv4_type : Headers.HeaderType :=
  foldl (λ ht p, (Headers.push_back_field ht p.1 p.2 false false false).1) (Headers.new_type 0)
    [("version", 4); ("ihl", 4); ("diffserv", 8); ("totalLen", 16); ("identification", 16); ("flags", 3); ("fragOffset", 13);
     ("ttl", 8); ("protocol", 8); ("hdrChecksum", 16); ("srcAddr", 32); ("dstAddr", 32)]%string.

(** With the fields of [Cksum.example_header]. *)
Definition ipv4 : Headers.Header := Eval vm_compute in
  default HeadersExamples.empty_header (h ← Headers.new ipv4_type (list_to_set (seqZ 0 12)) false;
    h ← Headers.extract h Cksum.example_header (λ _, None); Some (Headers.with_valid h true)).

Definition phv : Phv.PHV :=
  {| Phv.headers := [ipv4]; Phv.header_stacks := []; Phv.header_unions := []; Phv.header_union_stacks := [] |}.

Definition before : list Fields.Field := Eval vm_compute in take 9 (Headers.fields ipv4).
Definition cksum_field : Fields.Field := Eval vm_compute in default (HeadersExamples.ipv4.(Headers.fields) !!! 0%nat) (Headers.fields ipv4 !! 9%nat).
Definition after : list Fields.Field := Eval vm_compute in drop 10 (Headers.fields ipv4).

Definition ipv4_checksum : Checksum := new_checksum IPv4Checksum 0 9.

Lemma ipv4_fields_ok : Forall Headers.field_ok (Headers.fields ipv4).
Proof. vm_compute. repeat constructor; try done; vm_compute; done. Qed.

Lemma ipv4_laid_out : ipv4_layout ipv4_checksum ipv4 before after cksum_field.
Proof. constructor; [done|done|repeat constructor|done|done|exact ipv4_fields_ok|done|done]. Qed.

Instance no_sizes : GmpSize := id.

Lemma ipv4_update_verify_witness : ∃ phv' f',
  update (λ _, 0) (λ _, []) [] (replicate 60 7) ipv4_checksum phv = Some phv' ∧
  Parser.get_field phv' (target ipv4_checksum) = Some f' ∧ length (Fields.bytes f') = 2%nat ∧
  verify (λ _, 0) (λ _, []) [] (replicate 60 255) ipv4_checksum phv' = Some true.
Proof.
  destruct (ipv4_update_verify (λ _, 0) (λ _, []) [] ipv4_checksum phv ipv4 before after cksum_field (replicate 60 7))
    as (phv' & f' & bytes & E & _ & Ef & Eb & Hv).
  - reflexivity.
  - reflexivity.
  - reflexivity.
  - exact ipv4_laid_out.
  - apply (bool_decide_unpack _). vm_compute. exact I.
  - reflexivity.
  - reflexivity.
  - exists phv', f'. split; [exact E|]. split; [exact Ef|]. split; [rewrite Eb; reflexivity|].
    apply (Hv (replicate 60 255) true); [apply (bool_decide_unpack _); vm_compute; exact I|reflexivity|reflexivity].
Defined.

Example ipv4_checksum_value :
  (phv' ← update (λ _, 0) (λ _, []) [] (replicate 60 7) ipv4_checksum phv; f ← Parser.get_field phv' (target ipv4_checksum); Some (Data.value (Fields.base f)))
  = Some 0xb861.
Proof. vm_compute. reflexivity. Qed.

(** A CRC of 32 bits in a field of 16. *)
Definition crc32_calculation : Calculations.Calculation :=
  {| Calculations.builder := Calculations.push_back_field Calculations.new_builder 0 7; Calculations.c := Some Calculations.crc32 |}.
Definition crc32_checksum : Checksum := new_checksum (CalcBasedChecksum crc32_calculation) 0 9.

Lemma calc_update_verify_witness : ∃ phv', calc_update (λ _, 0) [] crc32_calculation crc32_checksum phv = Some phv' ∧
  calc_verify (λ _, 0) [] crc32_calculation crc32_checksum phv' = Some false.
Proof.
  destruct (calc_update_verify (λ _, 0) [] crc32_calculation crc32_checksum phv ipv4 cksum_field
    (default 0 (Crc.crc32 [0x40]))) as (phv' & E & Ev).
  - reflexivity.
  - reflexivity.
  - constructor; [right; discriminate|constructor].
  - vm_compute. reflexivity.
  - vm_compute. discriminate.
  - exact (proj1 (proj1 (Forall_lookup _ _) ipv4_fields_ok 9%nat cksum_field eq_refl)).
  - reflexivity.
  - reflexivity.
  - vm_compute. discriminate.
  - reflexivity.
  - exists phv'. split; [exact E|]. rewrite Ev. vm_compute. reflexivity.
Defined.
End ChecksumsExamples.
End Checksums.
