(* ===== verification/Actions.v ===== *)
(** * Actions (include/bm/bm_sim/actions.h, src/bm_sim/actions.cpp, core/primitives.h, core/primitives.cpp)

    An action is a list of calls of primitives; their arguments are kept in one
    vector, each call with the offset of its first. The core primitives are
    modelled; the primitives of a target are parameters. Objects that are
    referred to by a pointer are referred to by an id. *)

From S2P Require Import Prelude ByteContainer Data Fields Headers Phv TableKeys Expressions ErrorCodes Parser Counters.
Import Expressions.
Import (coercions) Fields.

Module Actions.

(** ** Parameters *)

Inductive ActionParam :=
  | CONST (const_offset : Z)
  | FIELD (header field_offset : Z)
  | HEADER (header : Z)
  | ACTION_DATA (action_data_offset : Z)
  | REGISTER_REF (array idx : Z)
  | REGISTER_GEN (array : Z) (idx : Expression)
  | HEADER_STACK (header_stack : Z)
  | LAST_HEADER_STACK_FIELD (header_stack field_offset : Z)
  | CALCULATION (calculation : Z)
  | METER_ARRAY (meter_array : Z)
  | COUNTER_ARRAY (counter_array : Z)
  | REGISTER_ARRAY (register_array : Z)
  | EXPRESSION (offset : Z) (ptr : Expression)
  | EXTERN_INSTANCE (extern_instance : Z)
  | STRING (str : string)
  | HEADER_UNION (header_union : Z)
  | HEADER_UNION_STACK (header_union_stack : Z).

Definition ActionData : Type := list Data.Data.

Definition push_back_action_data (a : ActionData) (d : Data.Data) : ActionData := a ++ [d].
Definition push_back_action_data_uint (a : ActionData) (data : Z) : ActionData :=
  a ++ [{| Data.value := data; Data.arith := true |}].
Definition push_back_action_data_bytes `{Gmp} (a : ActionData) (bytes : list Z) (nbytes : Z) : ActionData :=
  a ++ [{| Data.value := Data.import_bytes bytes nbytes; Data.arith := true |}].

(** The primitives registered by the library, and those of the target by id. *)
Inductive ActionPrimitive :=
  | assign | assign_VL | assign_header | assign_union | push | pop | jump_if_zero_ | jump_
  | target_primitive (id : Z).

Record ActionPrimitiveCall := { primitive : ActionPrimitive; param_offset : Z }.

Record ActionFn := {
  id : Z;
  num_params : Z;
  primitives : list ActionPrimitiveCall;
  params : list ActionParam;
  register_sync : Registers.RegisterSync;
  const_values : list Data.Data;
}.

Definition new_action (id num_params : Z) : ActionFn :=
  {| id := id; num_params := num_params; primitives := []; params := []; register_sync := []; const_values := [] |}.

Implicit Types (f : ActionFn) (p : ActionParam) (e : Expression).

Definition push_param f p : ActionFn :=
  {| id := id f; num_params := num_params f; primitives := primitives f; params := params f ++ [p];
     register_sync := register_sync f; const_values := const_values f |}.
Definition sync f (arrays : list Z) : ActionFn :=
  {| id := id f; num_params := num_params f; primitives := primitives f; params := params f;
     register_sync := Registers.merge_from (register_sync f) arrays; const_values := const_values f |}.

Definition parameter_push_back_field f (header field_offset : Z) := push_param f (FIELD header field_offset).
Definition parameter_push_back_header f (header : Z) := push_param f (HEADER header).
Definition parameter_push_back_header_stack f (header_stack : Z) := push_param f (HEADER_STACK header_stack).
Definition parameter_push_back_last_header_stack_field f (header_stack field_offset : Z) :=
  push_param f (LAST_HEADER_STACK_FIELD header_stack field_offset).
Definition parameter_push_back_header_union f (header_union : Z) := push_param f (HEADER_UNION header_union).
Definition parameter_push_back_header_union_stack f (header_union_stack : Z) :=
  push_param f (HEADER_UNION_STACK header_union_stack).
Definition parameter_push_back_const f (data : Data.Data) : ActionFn :=
  let f := {| id := id f; num_params := num_params f; primitives := primitives f; params := params f;
              register_sync := register_sync f; const_values := const_values f ++ [data] |} in
  push_param f (CONST (Z.of_nat (length (const_values f)) - 1)).
Definition parameter_push_back_action_data f (action_data_offset : Z) := push_param f (ACTION_DATA action_data_offset).
Definition parameter_push_back_register_ref f (register_array idx : Z) : ActionFn :=
  sync (push_param f (REGISTER_REF register_array idx)) [register_array].
Definition parameter_push_back_register_gen f (register_array : Z) (idx : Expression) : ActionFn :=
  sync (push_param (sync f (grab_register_accesses idx)) (REGISTER_GEN register_array idx)) [register_array].
Definition parameter_push_back_calculation f (calculation : Z) := push_param f (CALCULATION calculation).
Definition parameter_push_back_meter_array f (meter_array : Z) := push_param f (METER_ARRAY meter_array).
Definition parameter_push_back_counter_array f (counter_array : Z) := push_param f (COUNTER_ARRAY counter_array).
Definition parameter_push_back_register_array f (register_array : Z) : ActionFn :=
  sync (push_param f (REGISTER_ARRAY register_array)) [register_array].
Definition parameter_push_back_extern_instance f (extern_instance : Z) := push_param f (EXTERN_INSTANCE extern_instance).
Definition parameter_push_back_string f (str : string) := push_param f (STRING str).

Definition is_expression p : bool := match p with EXPRESSION _ _ => true | _ => false end.

(** Takes and returns the static [nb_data_tmps]. *)
Definition parameter_push_back_expression f (nb_data_tmps : Z) (expr : Expression) : option (ActionFn * Z) :=
  let nb_expression_params := 1 + Z.of_nat (length (filter (λ p, is_expression p = true) (params f))) in
  if nb_expression_params <=? nb_data_tmps then
    let nb_data_tmps := if nb_expression_params =? nb_data_tmps then nb_data_tmps + 1 else nb_data_tmps in
    Some (push_param (sync f (grab_register_accesses expr)) (EXPRESSION nb_expression_params expr), nb_data_tmps)
  else None.

(** ** Execution *)

Section execute.
Context `{Gmp, GmpSize, GmpInt}.
(** The rest of the state that the primitives of the target work on. *)
Context {X : Type}.

(** The headers, the register arrays, the thread-local temporaries, and the offsets that the jumps leave. *)
Record State := {
  phv : Phv.PHV;
  arrays : Z → Registers.RegisterArray;
  data_temps : list Data.Data;
  jump_if_zero_offset : Z;
  jump_offset : Z;
  target : X;
}.

Implicit Types (st : State) (ad : ActionData).

Definition with_phv st (v : Phv.PHV) : State :=
  {| phv := v; arrays := arrays st; data_temps := data_temps st; jump_if_zero_offset := jump_if_zero_offset st;
     jump_offset := jump_offset st; target := target st |}.
Definition with_arrays st (v : Z → Registers.RegisterArray) : State :=
  {| phv := phv st; arrays := v; data_temps := data_temps st; jump_if_zero_offset := jump_if_zero_offset st;
     jump_offset := jump_offset st; target := target st |}.
Definition with_temps st (v : list Data.Data) : State :=
  {| phv := phv st; arrays := arrays st; data_temps := v; jump_if_zero_offset := jump_if_zero_offset st;
     jump_offset := jump_offset st; target := target st |}.

(** What the primitives of the target take, do, and jump to. *)
Context (target_num_params : Z → Z).
Context (target_execute : Z → ActionFn → ActionData → list ActionParam → State → option State).
Context (target_jump : Z → State → Z → Z).

Definition get_num_params (a : ActionPrimitive) : Z :=
  match a with
  | assign | assign_VL | assign_header | assign_union | push | pop | jump_if_zero_ => 2
  | jump_ => 1
  | target_primitive i => target_num_params i
  end.

Definition push_back_primitive f (a : ActionPrimitive) : ActionFn :=
  let param_offset :=
    match last (primitives f) with
    | Some c => param_offset c + get_num_params (primitive c)
    | None => 0
    end in
  {| id := id f; num_params := num_params f;
     primitives := primitives f ++ [{| primitive := a; param_offset := param_offset |}]; params := params f;
     register_sync := register_sync f; const_values := const_values f |}.

Definition expr_env st ad : Expressions.Env :=
  {| Expressions.phv := phv st; Expressions.locals := ad; Expressions.registers := λ a, Registers.registers (arrays st a) |}.

Definition eval st ad e : option Data.Data := fst <$> eval_arith e (expr_env st ad) [].

(** A register, of an index that is computed; [data_temp] is where the index is put. *)
Definition register_gen st ad (array : Z) (idx : Expression) : option (Data.Data * DataRef) :=
  d ← eval st ad idx;
  i ← get_size d;
  _ ← Registers.at_ (arrays st array) i;
  Some (d, RefRegister array i).

Definition last_header_field st (header_stack field_offset : Z) : option DataRef :=
  s ← vget (Phv.header_stacks (phv st)) header_stack;
  h ← Phv.get_last s;
  _ ← Parser.get_field (phv st) {| Parser.f_header := h; Parser.f_offset := field_offset |};
  Some (RefField h field_offset).

Definition field_ref st (header field_offset : Z) : option DataRef :=
  _ ← Parser.get_field (phv st) {| Parser.f_header := header; Parser.f_offset := field_offset |};
  Some (RefField header field_offset).

(** [ActionParam::to<Data &>] *)
Definition to_data st ad p : option DataRef :=
  match p with
  | FIELD h off => field_ref st h off
  | REGISTER_REF array idx => _ ← Registers.at_ (arrays st array) idx; Some (RefRegister array idx)
  | REGISTER_GEN array idx => snd <$> register_gen st ad array idx
  | LAST_HEADER_STACK_FIELD hs off => last_header_field st hs off
  | _ => None
  end.

(** [data_temps[i] = d], the vector being made longer first. *)
Definition put_temp st (i : Z) (d : Data.Data) : option State :=
  let temps := reserve (i + 1) (data_temps st) in
  temps ← vset temps i d;
  Some (with_temps st temps).

(** [ActionParam::to<const Data &>] *)
Definition to_const_data f st ad p : option (State * DataRef) :=
  match p with
  | CONST i => _ ← vget (const_values f) i; Some (st, RefConst i)
  | FIELD h off => r ← field_ref st h off; Some (st, r)
  | ACTION_DATA i => _ ← vget ad i; Some (st, RefLocal i)
  | REGISTER_REF array idx => _ ← Registers.at_ (arrays st array) idx; Some (st, RefRegister array idx)
  | REGISTER_GEN array idx => '(d, r) ← register_gen st ad array idx; st ← put_temp st 0 d; Some (st, r)
  | EXPRESSION offset ptr => d ← eval st ad ptr; st ← put_temp st offset d; Some (st, RefTemp offset)
  | LAST_HEADER_STACK_FIELD hs off => r ← last_header_field st hs off; Some (st, r)
  | _ => None
  end.

(** The data that a reference is to. *)
Definition read f st ad (r : DataRef) : option Data.Data :=
  match r with
  | RefField h off => Fields.base <$> Parser.get_field (phv st) {| Parser.f_header := h; Parser.f_offset := off |}
  | RefConst i => vget (const_values f) i
  | RefLocal i => vget ad i
  | RefRegister a i => Registers.at_ (arrays st a) i
  | RefTemp i => vget (data_temps st) i
  end.

(** [dst.set(v)]: on a field or a register, the only data that is not constant. *)
Definition write st (r : DataRef) (v : Z) : option State :=
  match r with
  | RefField h off =>
      let fld := {| Parser.f_header := h; Parser.f_offset := off |} in
      x ← Parser.get_field (phv st) fld;
      x ← Fields.set x v;
      phv ← Parser.set_field (phv st) fld x;
      Some (with_phv st phv)
  | RefRegister a i =>
      '(arr, _) ← Registers.set (arrays st a) i v;
      Some (with_arrays st (λ b, if b =? a then arr else arrays st b))
  | _ => None
  end.

Definition exec_assign f ad (args : list ActionParam) st : option State :=
  dst ← args !! 0%nat; src ← args !! 1%nat;
  dst ← to_data st ad dst;
  '(st, src) ← to_const_data f st ad src;
  d ← read f st ad src;
  write st dst (Data.value d).

(** [dst[i].assign_VL(src[i])] or [dst[i].set(src[i])], for one field. *)
Definition assign_VL_field v (dst i : Z) (x : Fields.Field) : option Phv.PHV :=
  h ← Phv.get_header v dst;
  h ← Headers.assign_VL h i x;
  Phv.set_header v dst h.

Definition copy_field (dst src i : Z) v : option Phv.PHV :=
  y ← Parser.get_field v {| Parser.f_header := src; Parser.f_offset := i |};
  x ← Parser.get_field v {| Parser.f_header := dst; Parser.f_offset := i |};
  if Fields.VL x then assign_VL_field v dst i y else
  x ← Fields.set x (Data.value (Fields.base y));
  Parser.set_field v {| Parser.f_header := dst; Parser.f_offset := i |} x.

Definition assign_header_ (dst src : Z) v : option Phv.PHV :=
  s ← Phv.get_header v src;
  if negb (Headers.is_valid s) then Phv.mark_invalid v dst else
  v ← Phv.mark_valid v dst;
  d ← Phv.get_header v dst;
  s ← Phv.get_header v src;
  if Headers.type_id (Headers.header_type d) =? Headers.type_id (Headers.header_type s) then
    for_range 0 (Z.of_nat (length (Headers.fields d))) (copy_field dst src) v
  else None.

Definition assign_union_ (dst src : Z) v : option Phv.PHV :=
  du ← Phv.get_union v dst; su ← Phv.get_union v src;
  if (length (Phv.u_headers du) =? length (Phv.u_headers su))%nat then
    for_range 0 (Z.of_nat (length (Phv.u_headers du))) (λ i v,
      d ← vget (Phv.u_headers du) i; s ← vget (Phv.u_headers su) i; assign_header_ d s v) v
  else None.

(** [push_front] or [pop_front] on the stack that a parameter is for. *)
Definition on_stack (op : Phv.ElementOps → Phv.Stack → Z → Phv.PHV → option (Phv.Stack * Phv.PHV * Z)) (num : Z) p v
    : option Phv.PHV :=
  match p with
  | HEADER_STACK s =>
      stk ← vget (Phv.header_stacks v) s;
      '(stk, v, _) ← op Phv.header_element stk num v;
      Parser.set_header_stack v s stk
  | HEADER_UNION_STACK s =>
      stk ← vget (Phv.header_union_stacks v) s;
      '(stk, v, _) ← op Phv.union_element stk num v;
      Parser.set_header_union_stack v s stk
  | _ => None
  end.

Definition exec_stack op f ad (args : list ActionParam) st : option State :=
  stk ← args !! 0%nat; num ← args !! 1%nat;
  '(st, num) ← to_const_data f st ad num;
  num ← read f st ad num;
  num ← get_size num;
  v ← on_stack op num stk (phv st);
  Some (with_phv st v).

Definition exec_jump_if_zero f ad (args : list ActionParam) st : option State :=
  test_v ← args !! 0%nat; offset ← args !! 1%nat;
  '(st, test_v) ← to_const_data f st ad test_v;
  '(st, offset) ← to_const_data f st ad offset;
  test_v ← read f st ad test_v; test_v ← Parser.get_int test_v;
  offset ← (if test_v =? 0 then d ← read f st ad offset; Parser.get_int d else Some (-1));
  Some {| phv := phv st; arrays := arrays st; data_temps := data_temps st; jump_if_zero_offset := offset;
          jump_offset := jump_offset st; target := target st |}.

Definition exec_jump f ad (args : list ActionParam) st : option State :=
  offset ← args !! 0%nat;
  '(st, offset) ← to_const_data f st ad offset;
  d ← read f st ad offset; offset ← Parser.get_int d;
  Some {| phv := phv st; arrays := arrays st; data_temps := data_temps st; jump_if_zero_offset := jump_if_zero_offset st;
          jump_offset := offset; target := target st |}.

Definition exec_primitive (a : ActionPrimitive) f ad (args : list ActionParam) st : option State :=
  match a with
  | assign => exec_assign f ad args st
  | assign_VL =>
      match args with
      | FIELD dh di :: FIELD sh si :: _ =>
          y ← Parser.get_field (phv st) {| Parser.f_header := sh; Parser.f_offset := si |};
          v ← assign_VL_field (phv st) dh di y; Some (with_phv st v)
      | _ => None
      end
  | assign_header =>
      match args with
      | HEADER dst :: HEADER src :: _ => v ← assign_header_ dst src (phv st); Some (with_phv st v)
      | _ => None
      end
  | assign_union =>
      match args with
      | HEADER_UNION dst :: HEADER_UNION src :: _ => v ← assign_union_ dst src (phv st); Some (with_phv st v)
      | _ => None
      end
  | push => exec_stack Phv.push_front_n f ad args st
  | pop => exec_stack Phv.pop_front_n f ad args st
  | jump_if_zero_ => exec_jump_if_zero f ad args st
  | jump_ => exec_jump f ad args st
  | target_primitive i => target_execute i f ad args st
  end.

Definition get_jump_offset (a : ActionPrimitive) st (current_offset : Z) : Z :=
  match a with
  | jump_if_zero_ => if jump_if_zero_offset st <? 0 then u64 (current_offset + 1) else u64 (jump_if_zero_offset st)
  | jump_ => u64 (jump_offset st)
  | target_primitive i => target_jump i st current_offset
  | _ => u64 (current_offset + 1)
  end.

(** The loop of [ActionFnEntry::execute]. *)
Inductive Ran := OutOfFuel | Failed | Finished (st : State).

Fixpoint execute_loop (fuel : nat) f ad (idx : Z) st : Ran :=
  match fuel with
  | O => OutOfFuel
  | S fuel' =>
      match vget (primitives f) idx with
      | None => Finished st
      | Some c =>
          match exec_primitive (primitive c) f ad (drop (Z.to_nat (param_offset c)) (params f)) st with
          | None => Failed
          | Some st => execute_loop fuel' f ad (get_jump_offset (primitive c) st idx) st
          end
      end
  end.

(** An action with its data; it may be empty. *)
Record ActionFnEntry := { action_fn : option ActionFn; action_data : ActionData }.

Definition execute (fuel : nat) (a : ActionFnEntry) st : Ran :=
  match action_fn a with
  | None => Finished st
  | Some f => execute_loop fuel f (action_data a) 0 st
  end.

End execute.

Definition get_action_id (a : ActionFnEntry) : Z :=
  match action_fn a with None => 2 ^ 31 - 1 | Some f => id f end.

(** ** Serialization *)

(** The digits of a number in base 16, as a stream prints it. *)
Fixpoint hex_digits (n : nat) (z : Z) : list Z :=
  match n with
  | O => []
  | S n' => hex_digits n' (z / 16) ++ [ByteContainer.hex_digit false (z mod 16)]
  end.
Definition put_hex (z : Z) : list Z := hex_digits (Z.to_nat (Z.log2 z / 4 + 1)) z.

(** A negative number cannot be printed in base 16. *)
Definition put_data (d : Data.Data) : option token :=
  if Data.arith d && (0 <=? Data.value d) then Some (Str (put_hex (Data.value d))) else None.

Definition serialize (a : ActionFnEntry) : option (list token) :=
  match action_fn a with
  | None => Some [Num (-1)]
  | Some f =>
      ds ← mapM put_data (action_data a);
      Some ([Num (id f); Num (Z.of_nat (length (action_data a)))] ++ ds)
  end.

Section deserialize.
Context `{Gmp}.
(** [P4Objects::get_action_by_id] *)
Context (get_action_by_id : Z → option ActionFn).

Fixpoint read_data (n : nat) (ad : ActionData) (tks : list token) : option (ActionData * list token) :=
  match n with
  | O => Some (ad, tks)
  | S n' =>
      '(data_hex, tks) ← get_str tks;
      v ← Data.of_hexstring data_hex;
      read_data n' (push_back_action_data ad {| Data.value := v; Data.arith := true |}) tks
  end.

(** Into an entry, whose data stays and is followed by what is read. *)
Definition deserialize (a : ActionFnEntry) (tks : list token) : option (ActionFnEntry * list token) :=
  '(i, tks) ← get_num tks;
  if i =? -1 then Some ({| action_fn := None; action_data := action_data a |}, tks) else
  f ← get_action_by_id i;
  '(s, tks) ← get_num tks;
  '(ad, tks) ← read_data (Z.to_nat s) (action_data a) tks;
  Some ({| action_fn := Some f; action_data := ad |}, tks).
End deserialize.
End Actions.
