(* ===== verification/ActionsRun.v ===== *)
(** * Properties of actions (src/bm_sim/actions.cpp)

    The layout of the arguments of the calls of an action, the temporaries of
    its expressions, and the order and the end of its execution. *)

From S2P Require Import Prelude Data Fields Headers Phv Expressions ErrorCodes Parser Counters Actions.
Import Actions.

Module ActionsRun.

Section run.
Context `{Gmp, GmpSize, GmpInt}.
Context {X : Type} (target_num_params : Z → Z).
Context (target_execute : Z → ActionFn → ActionData → list ActionParam → State (X := X) → option (State (X := X))).
Context (target_jump : Z → State (X := X) → Z → Z).
Implicit Types (f : ActionFn) (st : State (X := X)) (ad : ActionData).

Abbreviation get_num_params := (Actions.get_num_params target_num_params).
Abbreviation push_back_primitive := (Actions.push_back_primitive target_num_params).
Abbreviation exec_primitive := (Actions.exec_primitive target_execute).
Abbreviation get_jump_offset := (Actions.get_jump_offset target_jump).
Abbreviation execute_loop := (Actions.execute_loop target_execute target_jump).

(** ** Arguments *)

(** The arguments of a call, and the call. *)
Definition add_call f (c : ActionPrimitive * list ActionParam) : ActionFn :=
  push_back_primitive (foldl push_param f c.2) c.1.

Lemma foldl_push_param (args : list ActionParam) : ∀ f,
  params (foldl push_param f args) = params f ++ args ∧ primitives (foldl push_param f args) = primitives f.
Proof.
  induction args as [|a args IH]; intros f; cbn [foldl]; [by rewrite app_nil_r|]. destruct (IH (push_param f a)) as [-> ->].
  split; [|done]. cbn [push_param params]. by rewrite <-app_assoc.
Qed.

(** The calls made so far, the last one ending where the arguments do. *)
Definition laid_out f (calls : list (ActionPrimitive * list ActionParam)) : Prop :=
  Forall2 (λ c call, primitive c = call.1 ∧ 0 ≤ param_offset c ∧
    take (length call.2) (drop (Z.to_nat (param_offset c)) (params f)) = call.2) (primitives f) calls ∧
  match last (primitives f) with
  | Some c => param_offset c + get_num_params (primitive c) = Z.of_nat (length (params f))
  | None => params f = []
  end.

Lemma add_call_laid_out f calls c : laid_out f calls → Z.of_nat (length c.2) = get_num_params c.1 → laid_out (add_call f c) (calls ++ [c]).
Proof.
  intros [Hc Hl] Hn. unfold add_call. destruct (foldl_push_param c.2 f) as [Ep Eq]. split.
  - cbn [Actions.push_back_primitive primitives params]. rewrite Ep, Eq. apply Forall2_app.
    + eapply Forall2_impl; [exact Hc|]. intros x y (Hx & H0' & Ht). split; [done|]. split; [done|].
      assert (length y.2 ≤ length (params f) - Z.to_nat (param_offset x))%nat.
      { rewrite <-Ht, length_take, length_drop. lia. }
      destruct (decide (length y.2 = 0%nat)) as [E0|E0]; [by apply nil_length_inv in E0 as ->|].
      rewrite drop_app_le by lia. by rewrite take_app_le by (rewrite length_drop; lia).
    + constructor; [|constructor]. cbn [primitive Actions.param_offset]. split; [done|].
      assert (match last (primitives f) with Some c0 => param_offset c0 + get_num_params (primitive c0) | None => 0 end = Z.of_nat (length (params f))) as ->.
      { destruct (last (primitives f)); [done|]. by rewrite Hl. }
      split; [lia|]. rewrite Nat2Z.id, drop_app_length. by rewrite take_ge.
  - cbn [Actions.push_back_primitive primitives params]. rewrite last_snoc, Ep, Eq, length_app, Nat2Z.inj_add. cbn [primitive Actions.param_offset].
    rewrite Hn. f_equal. destruct (last (primitives f)); [done|]. by rewrite Hl.
Qed.

(** When the arguments of every call are pushed before the call, as many as its primitive takes, each call is executed with
    its own arguments. *)
Theorem calls_laid_out i n calls : Forall (λ c : ActionPrimitive * list ActionParam, Z.of_nat (length c.2) = get_num_params c.1) calls →
  let f := foldl add_call (new_action i n) calls in
  length (primitives f) = length calls ∧
  ∀ k c, primitives f !! k = Some c → ∃ call, calls !! k = Some call ∧ primitive c = call.1 ∧
    ∃ rest, drop (Z.to_nat (param_offset c)) (params f) = call.2 ++ rest.
Proof.
  intros Hcalls f. assert (laid_out f calls) as [HF _].
  { subst f. assert (laid_out (new_action i n) []) as Hl by by split; [constructor|]. revert Hl. generalize (new_action i n).
    change calls with ([] ++ calls) at 2. generalize (@nil (ActionPrimitive * list ActionParam)). induction Hcalls as [|c calls Hc Hcalls IH]; intros pre f Hl.
    - by rewrite app_nil_r.
    - cbn [foldl]. replace (pre ++ c :: calls) with ((pre ++ [c]) ++ calls) by by rewrite <-app_assoc. apply IH. by apply add_call_laid_out. }
  split; [by apply Forall2_length in HF|]. intros k c Hk. destruct (Forall2_lookup_l _ _ _ _ _ HF Hk) as (call & Hcall & Hp & H0' & Ht).
  exists call. split; [done|]. split; [done|]. exists (drop (length call.2) (drop (Z.to_nat (param_offset c)) (params f))).
  pose proof (take_drop (length call.2) (drop (Z.to_nat (param_offset c)) (params f))) as E. rewrite Ht in E. done.
Qed.

(** ** Temporaries *)

Definition offsets (ps : list ActionParam) : list Z := omap (λ p, match p with EXPRESSION o _ => Some o | _ => None end) ps.

(** The expressions of an action have the temporaries from 1 on, one each. *)
Definition temps_ok f (nb_data_tmps : Z) : Prop :=
  offsets (params f) = seqZ 1 (Z.of_nat (length (offsets (params f)))) ∧ Z.of_nat (length (offsets (params f))) < nb_data_tmps.

Lemma length_temps ps : length (offsets ps) = length (filter (λ p, is_expression p = true) ps).
Proof.
  unfold offsets. induction ps as [|p ps IH]; [done|]. rewrite filter_cons. cbn [omap list_omap]. destruct p; case_decide as Hp; cbn in Hp; try done; cbn [length]; by rewrite <-IH.
Qed.

Lemma push_expression_ok f nb e : temps_ok f nb → ∃ f' nb', parameter_push_back_expression f nb e = Some (f', nb') ∧ temps_ok f' nb' ∧
  nb ≤ nb' ∧ ∃ o, params f' = params f ++ [EXPRESSION o e] ∧ 0 < o < nb' ∧ o ∉ offsets (params f).
Proof.
  intros [Ho Hn]. unfold parameter_push_back_expression. rewrite <-length_temps. set (n := Z.of_nat (length (offsets (params f)))) in *.
  rewrite (proj2 (Z.leb_le _ _)) by lia.
  assert (∀ nb', 1 + n < nb' → temps_ok (push_param (sync f (Expressions.grab_register_accesses e)) (EXPRESSION (1 + n) e)) nb') as Hok.
  { intros nb' Hnb. unfold temps_ok. cbn [push_param sync params]. unfold offsets. rewrite omap_app, length_app. fold (offsets (params f)).
    cbn [omap list_omap length]. rewrite Nat2Z.inj_add. fold n. change (Z.of_nat 1) with 1. split; [|lia]. rewrite Ho, seqZ_app by lia. done. }
  assert (1 + n ∉ offsets (params f)) as Hnew by (rewrite Ho, elem_of_seqZ; lia).
  destruct (Z.eqb_spec (1 + n) nb) as [Heq|Hne]; eexists _, _; (split; [reflexivity|]);
    (split; [apply Hok; lia|]); (split; [lia|]); exists (1 + n); (split; [done|]); (split; [lia|done]).
Qed.

(** Evaluating an argument into its temporary does not change the others. *)
Lemma put_temp_other st i d st' : 0 ≤ i → put_temp st i d = Some st' →
  vget (data_temps st') i = Some d ∧ (∀ j x, j ≠ i → vget (data_temps st) j = Some x → vget (data_temps st') j = Some x) ∧
  phv st' = phv st ∧ arrays st' = arrays st.
Proof.
  intros Hi. unfold put_temp. destruct (vset _ _ _) as [ts|] eqn:E; [|done]. intros [= <-]. cbn [data_temps with_temps].
  split; [by rewrite (vget_vset _ _ _ _ _ E), decide_True|]. split; [|done]. intros j x Hj Hx. rewrite (vget_vset _ _ _ _ _ E), decide_False by done.
  unfold Expressions.reserve. pose proof (vget_Some_range _ _ _ Hx). rewrite vget_nat in * by lia. by apply lookup_app_l_Some.
Qed.

(** ** The order of execution *)

(** Primitives that the next one follows. *)
Definition no_jump (c : ActionPrimitiveCall) : Prop :=
  match primitive c with jump_if_zero_ | jump_ => False | target_primitive t => ∀ st i, target_jump t st i = u64 (i + 1) | _ => True end.

(** One primitive after the other. *)
Definition run_all f ad (cs : list ActionPrimitiveCall) st : option (State (X := X)) :=
  foldl (λ acc c, st ← acc; exec_primitive (primitive c) f ad (drop (Z.to_nat (param_offset c)) (params f)) st) (Some st) cs.

Lemma run_all_None f ad cs : foldl (λ acc c, st ← acc; exec_primitive (primitive c) f ad (drop (Z.to_nat (param_offset c)) (params f)) st) None cs = None.
Proof. by induction cs. Qed.

Lemma no_jump_next c st i : no_jump c → get_jump_offset (primitive c) st i = u64 (i + 1).
Proof. unfold no_jump. destruct (primitive c); try done. intros Ht. apply Ht. Qed.

Lemma execute_straight_from f ad cs : ∀ pre st fuel, primitives f = pre ++ cs → Z.of_nat (length (primitives f)) < 2 ^ 64 →
  Forall no_jump cs → (length cs < fuel)%nat →
  execute_loop fuel f ad (Z.of_nat (length pre)) st = match run_all f ad cs st with Some st' => Finished st' | None => Failed end.
Proof.
  induction cs as [|c cs IH]; intros pre st fuel Hp Hlen Hj Hf; (destruct fuel as [|fuel]; [cbn in Hf; lia|]); cbn [Actions.execute_loop].
  - rewrite vget_nat, Nat2Z.id, Hp, app_nil_r, lookup_ge_None_2 by lia. done.
  - apply Forall_cons in Hj as [Hc Hj]. cbn [length] in Hf. rewrite vget_nat, Nat2Z.id, Hp, list_lookup_middle by (done || lia).
    unfold run_all. cbn [foldl]. cbn [mbind option_bind]. destruct (exec_primitive _ _ _ _ _) as [st'|]; [|by rewrite run_all_None].
    rewrite no_jump_next by done. rewrite Hp, length_app in Hlen. cbn [length] in Hlen. rewrite wrap_small by lia.
    replace (Z.of_nat (length pre) + 1) with (Z.of_nat (length (pre ++ [c]))) by (rewrite length_app; cbn; lia).
    rewrite IH; [done|by rewrite <-app_assoc|rewrite Hp, length_app; cbn; lia|done|lia].
Qed.

(** An action without jumps executes its primitives in order, each once, and ends. *)
Theorem execute_straight f ad st : Forall no_jump (primitives f) → Z.of_nat (length (primitives f)) < 2 ^ 64 →
  execute_loop (S (length (primitives f))) f ad 0 st =
  match run_all f ad (primitives f) st with Some st' => Finished st' | None => Failed end.
Proof. intros Hj Hl. by apply (execute_straight_from f ad (primitives f) []); [..|lia]. Qed.

(** A jump whose target is a constant further on, as a compiler makes them. *)
Definition jumps_to f p (i : Z) : Prop :=
  ∃ k d, p = CONST k ∧ vget (const_values f) k = Some d ∧ Data.arith d = true ∧ i < convert_to_int (Data.value d) < 2 ^ 64.

Definition jumps_forward f (i : Z) (c : ActionPrimitiveCall) : Prop :=
  let args := drop (Z.to_nat (param_offset c)) (params f) in
  match primitive c with
  | jump_if_zero_ => ∃ t p rest, args = t :: p :: rest ∧ jumps_to f p i
  | jump_ => ∃ p rest, args = p :: rest ∧ jumps_to f p i
  | target_primitive t => ∀ st, i < target_jump t st i
  | _ => True
  end.

Lemma jump_target f ad st p i : jumps_to f p i → ∃ st' r d, to_const_data f st ad p = Some (st', r) ∧ read f st' ad r = Some d ∧
  Parser.get_int d = Some (convert_to_int (Data.value d)) ∧ i < convert_to_int (Data.value d) < 2 ^ 64 ∧ st' = st.
Proof.
  intros (k & d & -> & Hk & Ha & Hi). cbn [to_const_data]. rewrite Hk. msimpl. exists st, (Expressions.RefConst k), d. cbn [read]. rewrite Hk.
  split; [done|]. split; [done|]. unfold Parser.get_int. by rewrite Ha.
Qed.

(** C27: An action whose jumps go forward ends, whatever the state: it can not run longer than it has primitives. *)
Theorem execute_ends f ad : Z.of_nat (length (primitives f)) < 2 ^ 64 → (∀ i c, vget (primitives f) i = Some c → jumps_forward f i c) →
  ∀ st, execute_loop (S (length (primitives f))) f ad 0 st ≠ OutOfFuel.
Proof.
  intros Hlen Hj. assert (∀ fuel i st, 0 ≤ i → Z.max 0 (Z.of_nat (length (primitives f)) - i) < Z.of_nat fuel → execute_loop fuel f ad i st ≠ OutOfFuel) as Hall.
  { induction fuel as [|fuel IH]; intros i st Hi Hfuel; cbn [Actions.execute_loop].
    - lia.
    - destruct (vget (primitives f) i) as [c|] eqn:Ec; [|done]. pose proof (vget_Some_range _ _ _ Ec) as Hr. specialize (Hj i c Ec).
      destruct (exec_primitive _ _ _ _ _) as [st'|] eqn:Ex; [|done].
      assert (i < get_jump_offset (primitive c) st' i) as Hnext; [|apply IH; lia].
      unfold jumps_forward in Hj. destruct (primitive c); cbn [Actions.get_jump_offset]; rewrite ?(wrap_small 64 (i + 1)) by lia; try lia; [| |apply Hj].
      + destruct Hj as (t & p & rest & Ea & Hp). cbn [Actions.exec_primitive] in Ex. unfold exec_jump_if_zero in Ex. rewrite Ea in Ex. cbn [lookup list_lookup mbind option_bind] in Ex.
        destruct (to_const_data f st ad t) as [[st1 r1]|]; [|done]. cbn [mbind option_bind] in Ex.
        destruct (jump_target f ad st1 p i Hp) as (st2 & r & d & E1 & E2 & E3 & Hd & ->). rewrite E1 in Ex. cbn [mbind option_bind] in Ex.
        destruct (read f st1 ad r1) as [tv|]; [|done]. cbn [mbind option_bind] in Ex. destruct (Parser.get_int tv) as [z|]; [|done]. cbn [mbind option_bind] in Ex.
        destruct (z =? 0).
        * rewrite E2 in Ex. cbn [mbind option_bind] in Ex. rewrite E3 in Ex. cbn [mbind option_bind] in Ex. injection Ex as <-. cbn [jump_if_zero_offset].
          rewrite (proj2 (Z.ltb_ge _ _)), wrap_small by lia. lia.
        * cbn [mbind option_bind] in Ex. injection Ex as <-. cbn [jump_if_zero_offset]. change (-1 <? 0) with true. cbv iota. lia.
      + destruct Hj as (p & rest & Ea & Hp). cbn [Actions.exec_primitive] in Ex. unfold exec_jump in Ex. rewrite Ea in Ex. cbn [lookup list_lookup mbind option_bind] in Ex.
        destruct (jump_target f ad st p i Hp) as (st2 & r & d & E1 & E2 & E3 & Hd & ->). rewrite E1 in Ex. cbn [mbind option_bind] in Ex.
        rewrite E2 in Ex. cbn [mbind option_bind] in Ex. rewrite E3 in Ex. cbn [mbind option_bind] in Ex. injection Ex as <-. cbn [jump_offset]. rewrite wrap_small; lia. }
  intros st. apply Hall; lia.
Qed.
End run.

(** ** Examples *)

Module ActionsExamples.
Import GmpExample.

Instance size_id : GmpSize := λ z, z mod 2 ^ 64.
Instance int_id : GmpInt := λ z, (z + 2 ^ 31) mod 2 ^ 32 - 2 ^ 31.

Definition no_target_params (_ : Z) : Z := 0.
Definition no_target (_ : Z) (_ : ActionFn) (_ : ActionData) (_ : list ActionParam) (_ : State (X := unit)) : option (State (X := unit)) := None.
Definition no_target_jump (_ : Z) (_ : State (X := unit)) (i : Z) : Z := i + 1.

Definition start : State (X := unit) :=
  {| phv := {| Phv.headers := [HeadersExamples.ipv4]; Phv.header_stacks := []; Phv.header_unions := []; Phv.header_union_stacks := [] |};
     arrays := λ _, Registers.new 4 8; data_temps := []; jump_if_zero_offset := -1; jump_offset := 0; target := tt |}.

(** The first field is set to the action data, and a register to the field. *)
Definition calls : list (ActionPrimitive * list ActionParam) :=
  [(assign, [FIELD 0 0; ACTION_DATA 0]); (assign, [REGISTER_REF 0 2; FIELD 0 0])].
Definition set_both : ActionFn := foldl (add_call no_target_params) (new_action 1 1) calls.

Lemma calls_laid_out_witness : ∃ c, primitives set_both !! 1%nat = Some c ∧ primitive c = assign ∧
  ∃ rest, drop (Z.to_nat (param_offset c)) (params set_both) = [REGISTER_REF 0 2; FIELD 0 0] ++ rest.
Proof.
  destruct (calls_laid_out no_target_params 1 1 calls) as [Hl Hc]; [by repeat constructor|].
  destruct (primitives set_both !! 1%nat) as [c|] eqn:E; [|discriminate E]. exists c. split; [reflexivity|].
  destruct (Hc 1%nat c E) as (call & Ecall & Ep & rest & Er). injection Ecall as <-. split; [exact Ep|]. exists rest. exact Er.
Defined.

Definition field_and_register (r : Ran (X := unit)) : option (Z * Z) :=
  match r with
  | Finished st =>
      x ← Parser.get_field (phv st) {| Parser.f_header := 0; Parser.f_offset := 0 |};
      y ← Registers.at_ (arrays st 0) 2; Some (Data.value (Fields.base x), Data.value y)
  | _ => None
  end.

(** 0x2a is cut to the four bits of the field. *)
Lemma execute_straight_witness :
  field_and_register (execute_loop no_target no_target_jump 3 set_both [{| Data.value := 0x2a; Data.arith := true |}] 0 start) = Some (10, 10).
Proof.
  rewrite (execute_straight no_target no_target_jump set_both _ start).
  - vm_compute. reflexivity.
  - repeat constructor.
  - vm_compute. reflexivity.
Defined.

(** Jumps over the first primitive when the argument is zero. *)
Definition skip : ActionFn :=
  let f := parameter_push_back_const (parameter_push_back_action_data (new_action 2 1) 0) {| Data.value := 2; Data.arith := true |} in
  foldl (add_call no_target_params) (push_back_primitive no_target_params f jump_if_zero_) calls.

Lemma execute_ends_witness : execute_loop no_target no_target_jump 4 skip [{| Data.value := 0; Data.arith := true |}] 0 start ≠ OutOfFuel.
Proof.
  apply (execute_ends no_target no_target_jump skip [{| Data.value := 0; Data.arith := true |}]).
  - vm_compute. reflexivity.
  - intros i c Hi. pose proof (vget_Some_range _ _ _ Hi) as Hr. cbn in Hr.
    assert (i = 0 ∨ i = 1 ∨ i = 2) as [->|[->| ->]] by lia; cbn in Hi; injection Hi as <-; cbn; [|exact I|exact I].
    eexists _, _, _. split; [reflexivity|]. exists 0, {| Data.value := 2; Data.arith := true |}. repeat split; lia.
Defined.

(** A jump to itself never ends. *)
Definition stuck : ActionFn :=
  push_back_primitive no_target_params (parameter_push_back_const (new_action 3 0) {| Data.value := 0; Data.arith := true |}) jump_.

Lemma stuck_runs fuel st : jump_offset st = 0 → execute_loop no_target no_target_jump fuel stuck [] 0 st = OutOfFuel.
Proof. revert st. induction fuel as [|fuel IH]; intros st Hst; [done|]. cbn. by apply IH. Qed.
End ActionsExamples.
End ActionsRun.
