(* ===== verification/Ras.v ===== *)
(** * Sets with access by position (include/bm/bm_sim/ras.h)

    [RandAccessUIntSet] is a Judy1 array, as in [HandleMgr.v], which also finds
    the member at a position with [J1BC]. *)

From S2P Require Import Prelude HandleMgr.

(** By count: the [n]-th index that is set, from 1 on. *)
Class Judy1Count (J : Type) := J1BC : J → Z → option Z.

Class Judy1CountLaws (J : Type) `{!Judy1 J, !Judy1Count J} : Prop :=
  J1BC_nth (j : J) (n : Z) (l : list Z) : StronglySorted Z.lt l → (∀ k, k ∈ l ↔ J1T j k = true) → 1 ≤ n → J1BC j n = vget l (n - 1).

Module Ras.

Section ras.
Context {J : Type} `{!Judy1 J, !Judy1Count J}.
Implicit Types (members : J) (mbr : Z).

Definition add members mbr : J * bool := J1S members mbr.
Definition remove members mbr : J * bool := J1U members mbr.
Definition contains members mbr : bool := J1T members mbr.
Definition count members : Z := J1C members 0 word_max.

(** Position 0 is the first. *)
Definition get_nth members (n : Z) : option Z := if n <=? count members then J1BC members (n + 1) else None.

(** A range-based [for] loop; the iterators are those of [HandleMgr]. *)
Definition elements members : option (list Z) := HandleMgr.iterate (S (Z.to_nat (count members))) members.
End ras.

Section proofs.
Context {J : Type} `{Judy1Laws J, !Judy1Count J, !Judy1CountLaws J}.
Implicit Types (members : J) (X : gset Z).

Lemma count_rep members X : HandleMgr.rep members X → count members = Z.of_nat (size X).
Proof. apply HandleMgr.size_rep. Qed.

Lemma elements_rep members X : HandleMgr.rep members X → word_max ∉ X →
  ∃ l, elements members = Some l ∧ StronglySorted Z.lt l ∧ ∀ k, k ∈ l ↔ k ∈ X.
Proof. intros HX Hm. unfold elements. rewrite (count_rep _ X HX), Nat2Z.id. by apply HandleMgr.iterate_ok. Qed.

Lemma StronglySorted_NoDup l : StronglySorted Z.lt l → NoDup l.
Proof.
  induction 1 as [|x l Hl IH Hx]; constructor; [|done]. intros Hin. rewrite Forall_forall in Hx. specialize (Hx x Hin). lia.
Qed.

(** The member at a position below the number of members. *)
Lemma get_nth_rep members X n : HandleMgr.rep members X → word_max ∉ X → 0 ≤ n < count members → ∃ k, get_nth members n = Some k ∧ k ∈ X.
Proof.
  intros HX Hm Hn. destruct (elements_rep members X HX Hm) as (l & _ & Hs & Hl). unfold get_nth. rewrite (proj2 (Z.leb_le _ _)) by lia.
  rewrite (J1BC_nth members (n + 1) l Hs); [|intros k; rewrite Hl; symmetry; by apply HandleMgr.rep_test|lia].
  assert (length l = size X) as Hlen.
  { rewrite <-(size_list_to_set (C := gset Z) l) by by apply StronglySorted_NoDup. f_equal. apply set_eq. intros k. rewrite elem_of_list_to_set. apply Hl. }
  rewrite (count_rep _ X HX) in Hn. destruct (proj2 (vget_is_Some l (n + 1 - 1))) as [k Hk]; [lia|]. exists k. split; [done|].
  apply Hl. rewrite vget_nat in Hk by lia. by apply list_elem_of_lookup_2 in Hk.
Qed.
End proofs.
End Ras.

(** The bit sets of [HandleMgr.v]. *)
Module RasExample.
Fixpoint insert_sorted (x : Z) (l : list Z) : list Z :=
  match l with [] => [x] | y :: l' => if x <? y then x :: l else y :: insert_sorted x l' end.

Definition sorted (j : gset Z) : list Z := foldr insert_sorted [] (base.elements j).

#[export] Instance Judy1Count_gset : Judy1Count (gset Z) := λ j n, vget (sorted j) (n - 1).

Lemma insert_sorted_elem x l k : k ∈ insert_sorted x l ↔ k = x ∨ k ∈ l.
Proof. induction l as [|y l IH]; cbn; [set_solver|]. destruct (x <? y); set_solver. Qed.

Lemma insert_sorted_ok x l : StronglySorted Z.lt l → x ∉ l → StronglySorted Z.lt (insert_sorted x l).
Proof.
  induction 1 as [|y l Hl IH Hy]; intros Hx; cbn; [by repeat constructor|]. apply not_elem_of_cons in Hx as [Hxy Hx].
  destruct (Z.ltb_spec x y).
  - constructor; [by constructor|]. constructor; [done|]. eapply Forall_impl; [exact Hy|]. intros z Hz. cbn in Hz. lia.
  - constructor; [by apply IH|]. apply Forall_forall. intros z Hz. apply insert_sorted_elem in Hz as [->|Hz]; [lia|].
    rewrite Forall_forall in Hy. by apply Hy.
Qed.

Lemma sorted_spec (j : gset Z) : StronglySorted Z.lt (sorted j) ∧ ∀ k, k ∈ sorted j ↔ k ∈ j.
Proof.
  assert (∀ l, NoDup l → StronglySorted Z.lt (foldr insert_sorted [] l) ∧ ∀ k, k ∈ foldr insert_sorted [] l ↔ k ∈ l) as Hall.
  { induction 1 as [|x l Hx Hl [IH1 IH2]]; [by split; [constructor|]|]. cbn [foldr]. split; [apply insert_sorted_ok; [done|by rewrite IH2]|].
    intros k. rewrite insert_sorted_elem, IH2, elem_of_cons. done. }
  destruct (Hall (base.elements j) (NoDup_elements j)) as [H1 H2]. split; [done|]. intros k. unfold sorted. by rewrite H2, elem_of_elements.
Qed.

(** A sorted list has one order. *)
Lemma sorted_unique (l1 l2 : list Z) : StronglySorted Z.lt l1 → StronglySorted Z.lt l2 → (∀ k, k ∈ l1 ↔ k ∈ l2) → l1 = l2.
Proof.
  intros Hs1. revert l2. induction Hs1 as [|x l1 Hl1 IH Hx]; intros l2 Hs2 He; destruct Hs2 as [|y l2 Hl2 Hy].
  - done.
  - exfalso. apply (not_elem_of_nil y), He. left.
  - exfalso. apply (not_elem_of_nil x), He. left.
  - rewrite Forall_forall in Hx, Hy. assert (x = y) as ->.
    { destruct (proj1 (elem_of_cons l2 x y) (proj1 (He x) ltac:(left))) as [|Hxl]; [done|].
      destruct (proj1 (elem_of_cons l1 y x) (proj2 (He y) ltac:(left))) as [|Hyl]; [done|]. specialize (Hx y Hyl). specialize (Hy x Hxl). lia. }
    f_equal. apply IH; [done|]. intros k. specialize (He k). rewrite !elem_of_cons in He. split; intros Hk.
    + destruct (proj1 He (or_intror Hk)) as [->|]; [|done]. specialize (Hx y Hk). lia.
    + destruct (proj2 He (or_intror Hk)) as [->|]; [|done]. specialize (Hy y Hk). lia.
Qed.

#[export] Instance Judy1Count_gset_laws : @Judy1CountLaws (gset Z) Judy1Set.Judy1_gset _.
Proof.
  intros j n l Hs Hl Hn. unfold J1BC, Judy1Count_gset. f_equal. destruct (sorted_spec j) as [H1 H2]. apply sorted_unique; [done|done|].
  intros k. rewrite H2, Hl. cbn. by rewrite bool_decide_eq_true.
Qed.
End RasExample.
