(* ===== verification/ActionProfile.v ===== *)
(** * Action profiles (include/bm/bm_sim/action_profile.h, action_entry.h, src/bm_sim/action_profile.cpp)

    The members of a profile, which tables point to instead of having actions,
    and groups of members. The entries of tables and the groups that use a
    member are counted. Operations take a lock for their whole duration: each
    is one step. An operation is [None] when an assertion fails or an access is
    out of range. *)

From S2P Require Import Prelude HandleMgr Ras ByteContainer Data Fields Headers Phv Crc Cksum Calculations.
From S2P Require Import MatchKeyTypes LookupStructures MatchKey TableKeys Counters MatchUnit.
From S2P Require Import Expressions ErrorCodes Parser Actions.

(** What a target may provide to choose members itself ([GroupSelectionIface]). *)
Class GroupSelection (S : Type) := {
  sel_add_member_to_group : S → Z → Z → S;
  sel_remove_member_from_group : S → Z → Z → S;
  sel_get_from_hash : S → Z → Z → option Z;
  sel_reset : S → S;
}.

Module ActionProfile.

(** ** Indices *)

Definition _mbr : Z := 0.
Definition _grp : Z := 1.
Definition _index_mask : Z := 0x00ffffff.

Definition IndirectIndex : Type := Z.

Definition is_mbr (index : IndirectIndex) : bool := Z.shiftr index 24 =? _mbr.
Definition is_grp (index : IndirectIndex) : bool := Z.shiftr index 24 =? _grp.
Definition get (index : IndirectIndex) : Z := Z.land index _index_mask.
Definition get_mbr (index : IndirectIndex) : option Z := if is_mbr index then Some (get index) else None.
Definition get_grp (index : IndirectIndex) : option Z := if is_grp index then Some (get index) else None.

Definition make_mbr_index (index : Z) : option IndirectIndex :=
  if index <=? _index_mask then Some (Z.lor (Z.shiftl _mbr 24) index) else None.
Definition make_grp_index (index : Z) : option IndirectIndex :=
  if index <=? _index_mask then Some (Z.lor (Z.shiftl _grp 24) index) else None.

(** ** Reference counts *)

Record IndirectIndexRefCount := { mbr_count : list Z; grp_count : list Z }.

Definition counts (c : IndirectIndexRefCount) (index : IndirectIndex) : list Z :=
  if is_mbr index then mbr_count c else grp_count c.
Definition with_counts (c : IndirectIndexRefCount) (index : IndirectIndex) (v : list Z) : IndirectIndexRefCount :=
  if is_mbr index then {| mbr_count := v; grp_count := grp_count c |} else {| mbr_count := mbr_count c; grp_count := v |}.

(** A vector that grows by one when the index is at its end. *)
Definition set_or_push {A} (l : list A) (i : Z) (x : A) : option (list A) :=
  if i =? Z.of_nat (length l) then Some (l ++ [x]) else vset l i x.

Definition ref_set (c : IndirectIndexRefCount) (index : IndirectIndex) (value : Z) : option IndirectIndexRefCount :=
  v ← set_or_push (counts c index) (get index) value; Some (with_counts c index v).
Definition ref_get (c : IndirectIndexRefCount) (index : IndirectIndex) : option Z := vget (counts c index) (get index).
Definition ref_increase (c : IndirectIndexRefCount) (index : IndirectIndex) : option IndirectIndexRefCount :=
  v ← vupd (counts c index) (get index) (λ n, u32 (n + 1)); Some (with_counts c index v).
Definition ref_decrease (c : IndirectIndexRefCount) (index : IndirectIndex) : option IndirectIndexRefCount :=
  v ← vupd (counts c index) (get index) (λ n, u32 (n - 1)); Some (with_counts c index v).

(** ** The profile *)

(** An entry and the node that follows it. *)
Record ActionEntry := { action_fn : Actions.ActionFnEntry; next_node : option Z }.

Definition new_entry : ActionEntry :=
  {| action_fn := {| Actions.action_fn := None; Actions.action_data := [] |}; next_node := None |}.

(** *** Serialization of entries *)
Section entry.
Context `{Gmp} (get_action_by_id : Z → option Actions.ActionFn).
(** The nodes of the control flow by their names. *)
Context (node_name : Z → list Z) (get_control_node : list Z → option Z).

Definition null_name : list Z := ByteContainer.chars "__NULL__".

Definition entry_serialize (e : ActionEntry) : option (list token) :=
  f ← Actions.serialize (action_fn e);
  Some (f ++ [Str (match next_node e with None => null_name | Some n => node_name n end)]).

Definition entry_deserialize (e : ActionEntry) (tks : list token) : option (ActionEntry * list token) :=
  '(f, tks) ← Actions.deserialize get_action_by_id (action_fn e) tks;
  '(name, tks) ← get_str tks;
  if decide (name = null_name) then Some ({| action_fn := f; next_node := next_node e |}, tks) else
  n ← get_control_node name;
  Some ({| action_fn := f; next_node := Some n |}, tks).
End entry.

(** [grp_selector] is the one of the target, if it was set. *)
Record Profile (J S : Type) := {
  with_selection : bool;
  action_entries : list ActionEntry;
  index_ref_count : IndirectIndexRefCount;
  mbr_handles : J;
  grp_handles : J;
  num_members : Z;
  num_groups : Z;
  groups : list J;                        (** [GroupMgr] *)
  grp_selector : option S;
  hash : option Calculations.Calculation;
}.
Arguments with_selection {J S} _.
Arguments action_entries {J S} _.
Arguments index_ref_count {J S} _.
Arguments mbr_handles {J S} _.
Arguments grp_handles {J S} _.
Arguments num_members {J S} _.
Arguments num_groups {J S} _.
Arguments groups {J S} _.
Arguments grp_selector {J S} _.
Arguments hash {J S} _.

Section profile.
Context {J S : Type} `{!Judy1 J, !Judy1Count J, !GroupSelection S}.
Abbreviation ActionProfile := (Profile J S).
Implicit Types (a : Profile J S) (mbr grp : Z).

Definition new (selection : bool) : ActionProfile :=
  {| with_selection := selection; action_entries := []; index_ref_count := {| mbr_count := []; grp_count := [] |};
     mbr_handles := J1_null; grp_handles := J1_null; num_members := 0; num_groups := 0; groups := [];
     grp_selector := None; hash := None |}.

Definition with_entries a (es : list ActionEntry) : ActionProfile :=
  {| with_selection := with_selection a; action_entries := es; index_ref_count := index_ref_count a;
     mbr_handles := mbr_handles a; grp_handles := grp_handles a; num_members := num_members a; num_groups := num_groups a;
     groups := groups a; grp_selector := grp_selector a; hash := hash a |}.
Definition with_ref_count a (c : IndirectIndexRefCount) : ActionProfile :=
  {| with_selection := with_selection a; action_entries := action_entries a; index_ref_count := c;
     mbr_handles := mbr_handles a; grp_handles := grp_handles a; num_members := num_members a; num_groups := num_groups a;
     groups := groups a; grp_selector := grp_selector a; hash := hash a |}.
Definition with_members a (n : Z) (j : J) : ActionProfile :=
  {| with_selection := with_selection a; action_entries := action_entries a; index_ref_count := index_ref_count a;
     mbr_handles := j; grp_handles := grp_handles a; num_members := n; num_groups := num_groups a;
     groups := groups a; grp_selector := grp_selector a; hash := hash a |}.
Definition with_group_handles a (n : Z) (j : J) : ActionProfile :=
  {| with_selection := with_selection a; action_entries := action_entries a; index_ref_count := index_ref_count a;
     mbr_handles := mbr_handles a; grp_handles := j; num_members := num_members a; num_groups := n;
     groups := groups a; grp_selector := grp_selector a; hash := hash a |}.
Definition with_groups a (gs : list J) : ActionProfile :=
  {| with_selection := with_selection a; action_entries := action_entries a; index_ref_count := index_ref_count a;
     mbr_handles := mbr_handles a; grp_handles := grp_handles a; num_members := num_members a; num_groups := num_groups a;
     groups := gs; grp_selector := grp_selector a; hash := hash a |}.
Definition with_selector a (s : option S) : ActionProfile :=
  {| with_selection := with_selection a; action_entries := action_entries a; index_ref_count := index_ref_count a;
     mbr_handles := mbr_handles a; grp_handles := grp_handles a; num_members := num_members a; num_groups := num_groups a;
     groups := groups a; grp_selector := s; hash := hash a |}.
Definition set_hash a (h : Calculations.Calculation) : ActionProfile :=
  {| with_selection := with_selection a; action_entries := action_entries a; index_ref_count := index_ref_count a;
     mbr_handles := mbr_handles a; grp_handles := grp_handles a; num_members := num_members a; num_groups := num_groups a;
     groups := groups a; grp_selector := grp_selector a; hash := Some h |}.

(** *** Groups *)

Definition group_add_member (g : J) mbr : J * MatchErrorCode :=
  let '(g, rc) := Ras.add g mbr in (g, if rc then SUCCESS else MBR_ALREADY_IN_GRP).
Definition group_delete_member (g : J) mbr : J * MatchErrorCode :=
  let '(g, rc) := Ras.remove g mbr in (g, if rc then SUCCESS else MBR_NOT_IN_GRP).

(** [GroupMgr::insert_group] *)
Definition insert_group (gs : list J) grp : option (list J) :=
  if grp <=? Z.of_nat (length gs) then set_or_push gs grp J1_null else None.

(** [GroupMgr::get_from_hash]: [h % s], which is undefined for an empty group. *)
Definition get_from_hash a grp (h : Z) : option Z :=
  g ← vget (groups a) grp;
  let s := Ras.count g in
  if s =? 0 then None else Ras.get_nth g (h mod s).

(** The calls through [grp_selector]; the manager of the profile ignores changes of members. *)
Definition select a (f : S → S) : ActionProfile := with_selector a (f <$> grp_selector a).
Definition selected a grp (h : Z) : option Z :=
  match grp_selector a with
  | Some s => sel_get_from_hash s grp h
  | None => get_from_hash a grp h
  end.

Definition group_is_empty a grp : option bool := g ← vget (groups a) grp; Some (Ras.count g =? 0).

(** *** The runtime interface *)

Definition is_valid_mbr a mbr : bool := HandleMgr.valid_handle (mbr_handles a) mbr.
Definition is_valid_grp a grp : bool := HandleMgr.valid_handle (grp_handles a) grp.

Definition action_entry (f : Actions.ActionFn) (ad : Actions.ActionData) : ActionEntry :=
  {| action_fn := {| Actions.action_fn := Some f; Actions.action_data := ad |}; next_node := None |}.

Definition data_fits (f : Actions.ActionFn) (ad : Actions.ActionData) : bool := Z.of_nat (length ad) =? Actions.num_params f.

Definition entries_insert a mbr (entry : ActionEntry) : option ActionProfile :=
  if mbr <=? Z.of_nat (length (action_entries a)) then
    es ← set_or_push (action_entries a) mbr entry;
    index ← make_mbr_index mbr;
    c ← ref_set (index_ref_count a) index 0;
    Some (with_ref_count (with_entries a es) c)
  else None.

Definition add_member a (f : Actions.ActionFn) (ad : Actions.ActionData) : option (ActionProfile * Outcome Z) :=
  if negb (data_fits f ad) then Some (a, Err BAD_ACTION_DATA) else
  match HandleMgr.get_handle (mbr_handles a) with
  | (j, None) => Some (with_members a (num_members a) j, Err ERROR)
  | (j, Some mbr_) =>
      let mbr := u32 mbr_ in
      a ← entries_insert (with_members a (num_members a) j) mbr (action_entry f ad);
      Some (with_members a (num_members a + 1) (mbr_handles a), Ok mbr)
  end.

Definition delete_member a mbr : option (ActionProfile * MatchErrorCode) :=
  if negb (is_valid_mbr a mbr) then Some (a, INVALID_MBR_HANDLE) else
  index ← make_mbr_index mbr;
  n ← ref_get (index_ref_count a) index;
  if 0 <? n then Some (a, MBR_STILL_USED) else
  let '(j, error) := HandleMgr.release_handle (mbr_handles a) mbr in
  if error =? 0 then Some (with_members a (num_members a - 1) j, SUCCESS) else None.

Definition modify_member a mbr (f : Actions.ActionFn) (ad : Actions.ActionData) : option (ActionProfile * MatchErrorCode) :=
  if negb (data_fits f ad) then Some (a, BAD_ACTION_DATA) else
  if negb (is_valid_mbr a mbr) then Some (a, INVALID_MBR_HANDLE) else
  es ← vset (action_entries a) mbr (action_entry f ad);
  Some (with_entries a es, SUCCESS).

Definition create_group a : option (ActionProfile * Outcome Z) :=
  match HandleMgr.get_handle (grp_handles a) with
  | (j, None) => Some (with_group_handles a (num_groups a) j, Err ERROR)
  | (j, Some grp_) =>
      let grp := u32 grp_ in
      gs ← insert_group (groups a) grp;
      index ← make_grp_index grp;
      c ← ref_set (index_ref_count a) index 0;
      Some (with_ref_count (with_groups (with_group_handles a (num_groups a + 1) j) gs) c, Ok grp)
  end.

(** The members of a group are no longer used by it. *)
Fixpoint decrease_all (c : IndirectIndexRefCount) (mbrs : list Z) : option IndirectIndexRefCount :=
  match mbrs with
  | [] => Some c
  | mbr :: mbrs =>
      index ← make_mbr_index (u32 mbr);
      c ← ref_decrease c index;
      decrease_all c mbrs
  end.

Definition delete_group a grp : option (ActionProfile * MatchErrorCode) :=
  if negb (is_valid_grp a grp) then Some (a, INVALID_GRP_HANDLE) else
  index ← make_grp_index grp;
  n ← ref_get (index_ref_count a) index;
  if 0 <? n then Some (a, GRP_STILL_USED) else
  g ← vget (groups a) grp;
  mbrs ← Ras.elements g;
  c ← decrease_all (index_ref_count a) mbrs;
  let '(j, error) := HandleMgr.release_handle (grp_handles a) grp in
  if error =? 0 then Some (with_group_handles (with_ref_count a c) (num_groups a - 1) j, SUCCESS) else None.

Definition add_member_to_group a mbr grp : option (ActionProfile * MatchErrorCode) :=
  if negb (is_valid_mbr a mbr) then Some (a, INVALID_MBR_HANDLE) else
  if negb (is_valid_grp a grp) then Some (a, INVALID_GRP_HANDLE) else
  g ← vget (groups a) grp;
  let '(g, rc) := group_add_member g mbr in
  gs ← vset (groups a) grp g;
  let a := with_groups a gs in
  if decide (rc = SUCCESS) then
    index ← make_mbr_index mbr;
    c ← ref_increase (index_ref_count a) index;
    Some (select (with_ref_count a c) (λ s, sel_add_member_to_group s grp mbr), SUCCESS)
  else Some (a, rc).

Definition remove_member_from_group a mbr grp : option (ActionProfile * MatchErrorCode) :=
  if negb (is_valid_mbr a mbr) then Some (a, INVALID_MBR_HANDLE) else
  if negb (is_valid_grp a grp) then Some (a, INVALID_GRP_HANDLE) else
  g ← vget (groups a) grp;
  let '(g, rc) := group_delete_member g mbr in
  gs ← vset (groups a) grp g;
  let a := with_groups a gs in
  if decide (rc = SUCCESS) then
    index ← make_mbr_index mbr;
    c ← ref_decrease (index_ref_count a) index;
    Some (select (with_ref_count a c) (λ s, sel_remove_member_from_group s grp mbr), SUCCESS)
  else Some (a, rc).

Definition get_member a mbr : option (Outcome (Z * ActionEntry)) :=
  if negb (is_valid_mbr a mbr) then Some (Err INVALID_MBR_HANDLE) else
  e ← vget (action_entries a) mbr; Some (Ok (mbr, e)).

Definition get_members a : option (list (Z * ActionEntry)) :=
  hs ← Ras.elements (mbr_handles a);
  ms ← mapM (λ h, e ← vget (action_entries a) h; Some (h, e)) hs;
  if Z.of_nat (length ms) <=? num_members a then Some ms else None.

Definition get_group_ a grp : option (Z * list Z) :=
  g ← vget (groups a) grp; mbrs ← Ras.elements g; Some (grp, mbrs).

Definition get_group a grp : option (Outcome (Z * list Z)) :=
  if negb (is_valid_grp a grp) then Some (Err INVALID_GRP_HANDLE) else
  g ← get_group_ a grp; Some (Ok g).

Definition get_groups a : option (list (Z * list Z)) :=
  hs ← Ras.elements (grp_handles a);
  gs ← mapM (get_group_ a) hs;
  if Z.of_nat (length gs) <=? num_groups a then Some gs else None.

Definition get_num_members_in_group a grp : option (Outcome Z) :=
  if negb (is_valid_grp a grp) then Some (Err INVALID_GRP_HANDLE) else
  g ← vget (groups a) grp; Some (Ok (Ras.count g)).

Definition set_group_selector a (s : S) : ActionProfile := with_selector a (Some s).

Definition reset_state a : ActionProfile :=
  select {| with_selection := with_selection a; action_entries := []; index_ref_count := {| mbr_count := []; grp_count := [] |};
     mbr_handles := HandleMgr.clear (mbr_handles a); grp_handles := grp_handles a; num_members := 0; num_groups := 0;
     groups := []; grp_selector := grp_selector a; hash := hash a |} sel_reset.

Definition ref_count_increase a (index : IndirectIndex) : option ActionProfile :=
  c ← ref_increase (index_ref_count a) index; Some (with_ref_count a c).
Definition ref_count_decrease a (index : IndirectIndex) : option ActionProfile :=
  c ← ref_decrease (index_ref_count a) index; Some (with_ref_count a c).

(** *** Lookup *)

Definition choose_from_group `{Gmp} (XXH64 : list Z → Z) a grp (phv : Phv.PHV) (data : list Z) : option Z :=
  match hash a with
  | None => selected a grp 0
  | Some h => x ← Calculations.calculation_output XXH64 h phv data; selected a grp (u32 x)
  end.

(** The member that an index leads to. *)
Definition lookup_member `{Gmp} (XXH64 : list Z → Z) a (phv : Phv.PHV) (data : list Z) (index : IndirectIndex) : option Z :=
  if is_mbr index || with_selection a then
    mbr ← (if is_mbr index then get_mbr index else
           grp ← get_grp index;
           if is_valid_grp a grp then choose_from_group XXH64 a grp phv data else None);
    if is_valid_mbr a mbr then Some mbr else None
  else None.

Definition lookup `{Gmp} (XXH64 : list Z → Z) a (phv : Phv.PHV) (data : list Z) (index : IndirectIndex) : option ActionEntry :=
  mbr ← lookup_member XXH64 a phv data index; vget (action_entries a) mbr.

(** *** Serialization *)
Context `{Gmp} (get_action_by_id : Z → option Actions.ActionFn) (node_name : Z → list Z) (get_control_node : list Z → option Z).

Definition serialize_list (l : list Z) : list token := Num (Z.of_nat (length l)) :: (Num <$> l).

Definition serialize a : option (list token) :=
  ms ← Ras.elements (mbr_handles a);
  mts ← mapM (λ h, e ← vget (action_entries a) h; t ← entry_serialize node_name e; Some (Num h :: t)) ms;
  hs ← Ras.elements (grp_handles a);
  gts ← mapM (λ h, g ← vget (groups a) h; l ← Ras.elements g; Some (Num h :: Num (Ras.count g) :: (Num <$> l))) hs;
  Some ([Num (Z.of_nat (length (action_entries a))); Num (num_members a)] ++ concat mts
    ++ serialize_list (mbr_count (index_ref_count a)) ++ serialize_list (grp_count (index_ref_count a))
    ++ Num (num_groups a) :: concat gts).

Fixpoint get_nums (n : nat) (tks : list token) : option (list Z * list token) :=
  match n with
  | O => Some ([], tks)
  | Datatypes.S n' => '(x, tks) ← get_num tks; '(l, tks) ← get_nums n' tks; Some (x :: l, tks)
  end.

Definition deserialize_list (tks : list token) : option (list Z * list token) :=
  '(n, tks) ← get_num tks; get_nums (Z.to_nat n) tks.

Fixpoint deserialize_members (n : nat) a (tks : list token) : option (ActionProfile * list token) :=
  match n with
  | O => Some (a, tks)
  | Datatypes.S n' =>
      '(h, tks) ← get_num tks;
      let '(j, error) := HandleMgr.set_handle (mbr_handles a) h in
      if negb (error =? 0) then None else
      e ← vget (action_entries a) h;
      '(e, tks) ← entry_deserialize get_action_by_id get_control_node e tks;
      es ← vset (action_entries a) h e;
      deserialize_members n' (with_entries (with_members a (num_members a) j) es) tks
  end.

Fixpoint deserialize_groups (n : nat) a (tks : list token) : option (ActionProfile * list token) :=
  match n with
  | O => Some (a, tks)
  | Datatypes.S n' =>
      '(h, tks) ← get_num tks;
      let '(j, error) := HandleMgr.set_handle (grp_handles a) h in
      if negb (error =? 0) then None else
      gs ← insert_group (groups a) h;
      '(mbrs, tks) ← deserialize_list tks;
      g ← vget gs h;
      let g := foldl (λ g mbr, (group_add_member g mbr).1) g mbrs in
      gs ← vset gs h g;
      l ← Ras.elements g;
      let a := with_groups (with_group_handles a (num_groups a) j) gs in
      let a := select a (λ s, foldl (λ s mbr, sel_add_member_to_group s h mbr) s l) in
      deserialize_groups n' a tks
  end.

Definition deserialize a (tks : list token) : option (ActionProfile * list token) :=
  '(size, tks) ← get_num tks;
  let es := take (Z.to_nat size) (action_entries a) ++ replicate (Z.to_nat size - length (action_entries a)) new_entry in
  '(n, tks) ← get_num tks;
  '(a, tks) ← deserialize_members (Z.to_nat n) (with_members (with_entries a es) n (mbr_handles a)) tks;
  '(mc, tks) ← deserialize_list tks;
  '(gc, tks) ← deserialize_list tks;
  '(n, tks) ← get_num tks;
  deserialize_groups (Z.to_nat n) (with_group_handles (with_ref_count a {| mbr_count := mc; grp_count := gc |}) n (grp_handles a)) tks.
End profile.
End ActionProfile.
