(* ===== verification/ActionProfileSpec.v ===== *)
(** * What an action profile stands for

    Members and groups by their handles, and how many entries of tables use
    each. A step of the specification is what an operation of the profile does
    to them; the operations of [ActionProfile.v] implement it. *)

From stdpp Require Import gmap functions.
From S2P Require Import Prelude HandleMgr Ras ByteContainer Data Fields Headers Phv Crc Cksum Calculations.
From S2P Require Import MatchKeyTypes LookupStructures MatchKey TableKeys Counters MatchUnit.
From S2P Require Import Expressions ErrorCodes Parser Actions ActionProfile.

Module ActionProfileSpec.
Import ActionProfile.

(** ** Indices *)

Definition grp_index (g : Z) : IndirectIndex := 2 ^ 24 + g.
#[global] Arguments grp_index : simpl never.

Lemma mbr_index_ok m : 0 ≤ m < 2 ^ 24 → make_mbr_index m = Some m ∧ is_mbr m = true ∧ get m = m.
Proof.
  intros Hm. unfold make_mbr_index, is_mbr, get, _index_mask. rewrite (proj2 (Z.leb_le _ _)) by lia. split; [done|]. split.
  - rewrite Z.shiftr_div_pow2, Z.div_small by lia. done.
  - change 0xffffff with (Z.ones 24). rewrite Z.land_ones, Z.mod_small by lia. done.
Qed.

Lemma grp_index_ok g : 0 ≤ g < 2 ^ 24 →
  make_grp_index g = Some (grp_index g) ∧ is_mbr (grp_index g) = false ∧ is_grp (grp_index g) = true ∧ get (grp_index g) = g.
Proof.
  intros Hg. unfold make_grp_index, is_mbr, is_grp, get, grp_index, _index_mask. rewrite (proj2 (Z.leb_le _ _)) by lia.
  assert (Z.shiftr (2 ^ 24 + g) 24 = 1) as ->. { rewrite Z.shiftr_div_pow2 by lia. symmetry. apply (Z.div_unique _ _ 1 g); lia. }
  split; [|split; [done|split; [done|]]].
  - f_equal. unfold _grp. rewrite Z.shiftl_1_l. assert (Z.land (2 ^ 24) g = 0) as Hd.
    { apply Z.bits_inj'. intros k Hk. rewrite Z.land_spec, Z.pow2_bits_eqb, Z.bits_0 by lia. destruct (Z.eqb_spec 24 k) as [<-|]; [|done].
      by rewrite (testbit_high g 24) by lia. }
    rewrite <-Z.lxor_lor by done. symmetry. by apply Z.add_nocarry_lxor.
  - change 0xffffff with (Z.ones 24). rewrite Z.land_ones by lia. symmetry. apply (Z.mod_unique _ _ 1); lia.
Qed.

(** How many groups have a member. *)
Definition group_uses (M : gmap Z (gset Z)) (m : Z) : Z := count_of (λ X, m ∈ X) M.

Lemma group_uses_insert M g X m : M !! g = None → group_uses (<[g := X]> M) m = group_uses M m + (if decide (m ∈ X) then 1 else 0).
Proof. apply count_insert. Qed.
Lemma group_uses_delete M g X m : M !! g = Some X → group_uses M m = group_uses (delete g M) m + (if decide (m ∈ X) then 1 else 0).
Proof. apply count_delete. Qed.
Lemma group_uses_update M g X Y m : M !! g = Some X →
  group_uses (<[g := Y]> M) m = group_uses M m - (if decide (m ∈ X) then 1 else 0) + (if decide (m ∈ Y) then 1 else 0).
Proof. apply count_update. Qed.
Lemma group_uses_none M m : (∀ g X, M !! g = Some X → m ∉ X) → group_uses M m = 0.
Proof. apply count_none. Qed.
Lemma group_uses_pos M m g X : M !! g = Some X → m ∈ X → 0 < group_uses M m.
Proof. intros. by eapply count_pos. Qed.
Lemma group_uses_bound M m : (∀ g, is_Some (M !! g) → 0 ≤ g < 2 ^ 24) → 0 ≤ group_uses M m ≤ 2 ^ 24.
Proof. apply count_bound. Qed.

(** ** The specification *)

Record Prof := {
  p_members : gmap Z ActionEntry;
  p_groups : gmap Z (gset Z);
  p_uses : IndirectIndex → Z;        (** by entries of tables *)
}.

Inductive pop :=
  | AddMember (f : Actions.ActionFn) (ad : Actions.ActionData)
  | DeleteMember (mbr : Z)
  | ModifyMember (mbr : Z) (f : Actions.ActionFn) (ad : Actions.ActionData)
  | CreateGroup
  | DeleteGroup (grp : Z)
  | AddToGroup (mbr grp : Z)
  | RemoveFromGroup (mbr grp : Z)
  | Acquire (index : IndirectIndex)
  | Release (index : IndirectIndex).

Inductive pres := PHandle (r : Outcome Z) | PCode (e : MatchErrorCode) | PDone.

Implicit Types (P : Prof) (mbr grp : Z) (X : gset Z) (i : IndirectIndex).

Definition p_valid P i : Prop := (∃ mbr, i = mbr ∧ is_Some (p_members P !! mbr)) ∨ ∃ grp, i = grp_index grp ∧ is_Some (p_groups P !! grp).

Definition set_members P M : Prof := {| p_members := M; p_groups := p_groups P; p_uses := p_uses P |}.
Definition set_groups P G : Prof := {| p_members := p_members P; p_groups := G; p_uses := p_uses P |}.
Definition set_uses P i (n : Z) : Prof := {| p_members := p_members P; p_groups := p_groups P; p_uses := <[i := n]> (p_uses P) |}.

(** The uses of a member, by tables and groups. *)
Definition p_refs P mbr : Z := p_uses P mbr + group_uses (p_groups P) mbr.

Inductive p_step P : pop → pres → Prof → Prop :=
  | p_add_bad f ad : data_fits f ad = false → p_step P (AddMember f ad) (PHandle (Err BAD_ACTION_DATA)) P
  | p_add f ad mbr :
      data_fits f ad = true → p_members P !! mbr = None → 0 ≤ mbr < 2 ^ 24 → (∀ m, 0 ≤ m < mbr → is_Some (p_members P !! m)) →
      p_step P (AddMember f ad) (PHandle (Ok mbr)) (set_members P (<[mbr := action_entry f ad]> (p_members P)))
  | p_delete_invalid mbr : p_members P !! mbr = None → p_step P (DeleteMember mbr) (PCode INVALID_MBR_HANDLE) P
  | p_delete_used mbr :
      is_Some (p_members P !! mbr) → 0 < p_refs P mbr → p_step P (DeleteMember mbr) (PCode MBR_STILL_USED) P
  | p_delete mbr :
      is_Some (p_members P !! mbr) → p_refs P mbr = 0 →
      p_step P (DeleteMember mbr) (PCode SUCCESS) (set_members P (delete mbr (p_members P)))
  | p_modify_bad mbr f ad : data_fits f ad = false → p_step P (ModifyMember mbr f ad) (PCode BAD_ACTION_DATA) P
  | p_modify_invalid mbr f ad :
      data_fits f ad = true → p_members P !! mbr = None → p_step P (ModifyMember mbr f ad) (PCode INVALID_MBR_HANDLE) P
  | p_modify mbr f ad :
      data_fits f ad = true → is_Some (p_members P !! mbr) →
      p_step P (ModifyMember mbr f ad) (PCode SUCCESS) (set_members P (<[mbr := action_entry f ad]> (p_members P)))
  | p_create grp :
      p_groups P !! grp = None → 0 ≤ grp < 2 ^ 24 → (∀ g, 0 ≤ g < grp → is_Some (p_groups P !! g)) →
      p_step P CreateGroup (PHandle (Ok grp)) (set_groups P (<[grp := ∅]> (p_groups P)))
  | p_delete_grp_invalid grp : p_groups P !! grp = None → p_step P (DeleteGroup grp) (PCode INVALID_GRP_HANDLE) P
  | p_delete_grp_used grp :
      is_Some (p_groups P !! grp) → 0 < p_uses P (grp_index grp) → p_step P (DeleteGroup grp) (PCode GRP_STILL_USED) P
  | p_delete_grp grp :
      is_Some (p_groups P !! grp) → p_uses P (grp_index grp) = 0 →
      p_step P (DeleteGroup grp) (PCode SUCCESS) (set_groups P (delete grp (p_groups P)))
  | p_add_to_no_mbr mbr grp : p_members P !! mbr = None → p_step P (AddToGroup mbr grp) (PCode INVALID_MBR_HANDLE) P
  | p_add_to_no_grp mbr grp :
      is_Some (p_members P !! mbr) → p_groups P !! grp = None → p_step P (AddToGroup mbr grp) (PCode INVALID_GRP_HANDLE) P
  | p_add_to_again mbr grp X :
      is_Some (p_members P !! mbr) → p_groups P !! grp = Some X → mbr ∈ X →
      p_step P (AddToGroup mbr grp) (PCode MBR_ALREADY_IN_GRP) P
  | p_add_to mbr grp X :
      is_Some (p_members P !! mbr) → p_groups P !! grp = Some X → mbr ∉ X →
      p_step P (AddToGroup mbr grp) (PCode SUCCESS) (set_groups P (<[grp := {[mbr]} ∪ X]> (p_groups P)))
  | p_remove_no_mbr mbr grp : p_members P !! mbr = None → p_step P (RemoveFromGroup mbr grp) (PCode INVALID_MBR_HANDLE) P
  | p_remove_no_grp mbr grp :
      is_Some (p_members P !! mbr) → p_groups P !! grp = None → p_step P (RemoveFromGroup mbr grp) (PCode INVALID_GRP_HANDLE) P
  | p_remove_not_in mbr grp X :
      is_Some (p_members P !! mbr) → p_groups P !! grp = Some X → mbr ∉ X →
      p_step P (RemoveFromGroup mbr grp) (PCode MBR_NOT_IN_GRP) P
  | p_remove mbr grp X :
      is_Some (p_members P !! mbr) → p_groups P !! grp = Some X → mbr ∈ X →
      p_step P (RemoveFromGroup mbr grp) (PCode SUCCESS) (set_groups P (<[grp := X ∖ {[mbr]}]> (p_groups P)))
  | p_acquire i : p_step P (Acquire i) PDone (set_uses P i (p_uses P i + 1))
  | p_release i : p_step P (Release i) PDone (set_uses P i (p_uses P i - 1)).

(** What callers ensure: handles are left, and tables count uses of valid indices only. *)
Definition pop_ok P (o : pop) : Prop :=
  match o with
  | AddMember _ _ => Z.of_nat (size (p_members P)) < 2 ^ 24
  | CreateGroup => Z.of_nat (size (p_groups P)) < 2 ^ 24
  | Acquire i => p_valid P i ∧ p_uses P i + 1 < 2 ^ 31
  | Release i => p_valid P i ∧ 0 < p_uses P i
  | _ => True
  end.

(** ** Vectors of counts *)

Lemma set_or_push_ok {A} (l : list A) (k : Z) (x : A) : 0 ≤ k ≤ Z.of_nat (length l) →
  ∃ l', set_or_push l k x = Some l' ∧ Z.of_nat (length l') = Z.max (Z.of_nat (length l)) (k + 1) ∧
    ∀ j, vget l' j = if decide (j = k) then Some x else vget l j.
Proof.
  intros Hk. unfold set_or_push. destruct (Z.eqb_spec k (Z.of_nat (length l))) as [->|].
  - eexists. split; [done|]. split; [rewrite length_app; cbn; lia|]. intros j. unfold vget. destruct (decide (0 ≤ j)).
    + destruct (decide (j = _)) as [->|]; [by rewrite Nat2Z.id, list_lookup_middle|].
      destruct (decide (j < Z.of_nat (length l))); [by rewrite lookup_app_l by lia|].
      rewrite !lookup_ge_None_2; [done|lia|rewrite length_app; cbn; lia].
    + destruct (decide (j = _)); [lia|done].
  - eexists. rewrite vset_Some by lia. split; [done|]. split; [rewrite length_insert; lia|]. intros j. apply vget_vset. apply vset_Some. lia.
Qed.

(** The least index that is free is at most the length. *)
Lemma least_le_length {A} (l : list A) h : 0 ≤ h → (∀ m, 0 ≤ m < h → is_Some (vget l m)) → h ≤ Z.of_nat (length l).
Proof.
  intros Hh Hall. destruct (decide (h = 0)); [lia|]. destruct (proj1 (vget_is_Some l (h - 1))) as [_ ?]; [apply Hall; lia|lia].
Qed.

Lemma vupd_at {A} (l : list A) k (f : A → A) x : vget l k = Some x →
  ∃ l', vupd l k f = Some l' ∧ length l' = length l ∧ ∀ j, vget l' j = if decide (j = k) then Some (f x) else vget l j.
Proof.
  intros Hx. destruct (vupd_spec l k f (mk_is_Some _ _ Hx)) as (l' & E & Hl & Hg). exists l'. split; [done|]. split; [done|].
  intros j. rewrite Hg. case_decide; [subst; by rewrite Hx|]. by destruct (vget l j).
Qed.

Lemma ref_set_mbr c m n : 0 ≤ m < 2 ^ 24 → m ≤ Z.of_nat (length (mbr_count c)) →
  ∃ l, ref_set c m n = Some {| mbr_count := l; grp_count := grp_count c |} ∧
    Z.of_nat (length l) = Z.max (Z.of_nat (length (mbr_count c))) (m + 1) ∧ ∀ j, vget l j = if decide (j = m) then Some n else vget (mbr_count c) j.
Proof.
  intros Hm Hl. destruct (mbr_index_ok m Hm) as (_ & E1 & E2). unfold ref_set, counts, with_counts. rewrite E1, E2.
  destruct (set_or_push_ok (mbr_count c) m n) as (l & -> & ? & ?); [lia|]. by exists l.
Qed.

Lemma ref_set_grp c g n : 0 ≤ g < 2 ^ 24 → g ≤ Z.of_nat (length (grp_count c)) →
  ∃ l, ref_set c (grp_index g) n = Some {| mbr_count := mbr_count c; grp_count := l |} ∧
    Z.of_nat (length l) = Z.max (Z.of_nat (length (grp_count c))) (g + 1) ∧ ∀ j, vget l j = if decide (j = g) then Some n else vget (grp_count c) j.
Proof.
  intros Hg Hl. destruct (grp_index_ok g Hg) as (_ & E1 & _ & E2). unfold ref_set, counts, with_counts. rewrite E1, E2.
  destruct (set_or_push_ok (grp_count c) g n) as (l & -> & ? & ?); [lia|]. by exists l.
Qed.

Lemma ref_get_mbr c m : 0 ≤ m < 2 ^ 24 → ref_get c m = vget (mbr_count c) m.
Proof. intros Hm. destruct (mbr_index_ok m Hm) as (_ & E1 & E2). unfold ref_get, counts. by rewrite E1, E2. Qed.
Lemma ref_get_grp c g : 0 ≤ g < 2 ^ 24 → ref_get c (grp_index g) = vget (grp_count c) g.
Proof. intros Hg. destruct (grp_index_ok g Hg) as (_ & E1 & _ & E2). unfold ref_get, counts. by rewrite E1, E2. Qed.

(** Counting up ([d = 1]) or down ([d = -1]). *)
Definition ref_add (d : Z) c i : option IndirectIndexRefCount :=
  v ← vupd (counts c i) (get i) (λ n, u32 (n + d)); Some (with_counts c i v).

Lemma ref_add_mbr d c m n : 0 ≤ m < 2 ^ 24 → vget (mbr_count c) m = Some n → 0 ≤ n + d < 2 ^ 32 →
  ∃ l, ref_add d c m = Some {| mbr_count := l; grp_count := grp_count c |} ∧
    length l = length (mbr_count c) ∧ ∀ j, vget l j = if decide (j = m) then Some (n + d) else vget (mbr_count c) j.
Proof.
  intros Hm Hn Hd. destruct (mbr_index_ok m Hm) as (_ & E1 & E2). unfold ref_add, counts, with_counts. rewrite E1, E2.
  destruct (vupd_at (mbr_count c) m (λ n, u32 (n + d)) n Hn) as (l & -> & Hl & Hg). exists l. split; [done|]. split; [done|].
  by rewrite wrap_small in Hg by done.
Qed.

Lemma ref_add_grp d c g n : 0 ≤ g < 2 ^ 24 → vget (grp_count c) g = Some n → 0 ≤ n + d < 2 ^ 32 →
  ∃ l, ref_add d c (grp_index g) = Some {| mbr_count := mbr_count c; grp_count := l |} ∧
    length l = length (grp_count c) ∧ ∀ j, vget l j = if decide (j = g) then Some (n + d) else vget (grp_count c) j.
Proof.
  intros Hg Hn Hd. destruct (grp_index_ok g Hg) as (_ & E1 & _ & E2). unfold ref_add, counts, with_counts. rewrite E1, E2.
  destruct (vupd_at (grp_count c) g (λ n, u32 (n + d)) n Hn) as (l & -> & Hl & Hj). exists l. split; [done|]. split; [done|].
  by rewrite wrap_small in Hj by done.
Qed.

(** ** Refinement *)
Section refinement.
Context {J S : Type} `{Judy1Laws J, !Judy1Count J, !Judy1CountLaws J, !GroupSelection S}.
Implicit Types (a : Profile J S).

Definition exec a (o : pop) : option (Profile J S * pres) :=
  match o with
  | AddMember f ad => '(a, r) ← add_member a f ad; Some (a, PHandle r)
  | DeleteMember mbr => '(a, c) ← delete_member a mbr; Some (a, PCode c)
  | ModifyMember mbr f ad => '(a, c) ← modify_member a mbr f ad; Some (a, PCode c)
  | CreateGroup => '(a, r) ← create_group a; Some (a, PHandle r)
  | DeleteGroup grp => '(a, c) ← delete_group a grp; Some (a, PCode c)
  | AddToGroup mbr grp => '(a, c) ← add_member_to_group a mbr grp; Some (a, PCode c)
  | RemoveFromGroup mbr grp => '(a, c) ← remove_member_from_group a mbr grp; Some (a, PCode c)
  | Acquire i => a ← ref_count_increase a i; Some (a, PDone)
  | Release i => a ← ref_count_decrease a i; Some (a, PDone)
  end.

Record refines a P : Prop := {
  pr_mbrs : HandleMgr.rep (mbr_handles a) (dom (p_members P));
  pr_grps : HandleMgr.rep (grp_handles a) (dom (p_groups P));
  pr_mrange mbr : is_Some (p_members P !! mbr) → 0 ≤ mbr < 2 ^ 24;
  pr_grange grp : is_Some (p_groups P !! grp) → 0 ≤ grp < 2 ^ 24;
  pr_member mbr e : p_members P !! mbr = Some e → vget (action_entries a) mbr = Some e;
  pr_mcount mbr : is_Some (p_members P !! mbr) → vget (mbr_count (index_ref_count a)) mbr = Some (p_refs P mbr);
  pr_mlen : length (mbr_count (index_ref_count a)) = length (action_entries a);
  pr_group grp X : p_groups P !! grp = Some X →
    ∃ j, vget (groups a) grp = Some j ∧ HandleMgr.rep j X ∧ ∀ mbr, mbr ∈ X → is_Some (p_members P !! mbr);
  pr_gcount grp : is_Some (p_groups P !! grp) → vget (grp_count (index_ref_count a)) grp = Some (p_uses P (grp_index grp));
  pr_glen : length (grp_count (index_ref_count a)) = length (groups a);
  pr_num : num_members a = Z.of_nat (size (p_members P));
  pr_gnum : num_groups a = Z.of_nat (size (p_groups P));
  pr_uses i : 0 ≤ p_uses P i < 2 ^ 31;
  pr_free i : ¬ p_valid P i → p_uses P i = 0;
}.

Lemma valid_mbr a P mbr : refines a P → is_valid_mbr a mbr = bool_decide (is_Some (p_members P !! mbr)).
Proof. intros R. unfold is_valid_mbr, HandleMgr.valid_handle. rewrite (proj1 (pr_mbrs a P R)). apply bool_decide_ext, elem_of_dom. Qed.
Lemma valid_grp a P grp : refines a P → is_valid_grp a grp = bool_decide (is_Some (p_groups P !! grp)).
Proof. intros R. unfold is_valid_grp, HandleMgr.valid_handle. rewrite (proj1 (pr_grps a P R)). apply bool_decide_ext, elem_of_dom. Qed.

Lemma refs_range a P mbr : refines a P → 0 ≤ p_refs P mbr < 2 ^ 32 - 1.
Proof.
  intros R. pose proof (group_uses_bound (p_groups P) mbr (pr_grange a P R)). pose proof (pr_uses a P R mbr). unfold p_refs. lia.
Qed.

(** An index is of a member or of a group, not both. *)
Lemma mbr_not_grp mbr grp : 0 ≤ mbr < 2 ^ 24 → 0 ≤ grp → mbr ≠ grp_index grp.
Proof. unfold grp_index. lia. Qed.

(** *** Members *)

Lemma entries_insert_ok a P mbr e : refines a P → 0 ≤ mbr < 2 ^ 24 → (∀ m, 0 ≤ m < mbr → is_Some (p_members P !! m)) →
  ∃ es l, entries_insert a mbr e = Some (with_ref_count (with_entries a es) {| mbr_count := l; grp_count := grp_count (index_ref_count a) |}) ∧
    length l = length es ∧ (∀ j, vget es j = if decide (j = mbr) then Some e else vget (action_entries a) j) ∧
    ∀ j, vget l j = if decide (j = mbr) then Some 0 else vget (mbr_count (index_ref_count a)) j.
Proof.
  intros R Hm Hlt. assert (mbr ≤ Z.of_nat (length (action_entries a))) as Hle.
  { apply least_le_length; [lia|]. intros m Hml. destruct (Hlt m Hml) as [x Hx]. rewrite (pr_member a P R _ _ Hx). done. }
  unfold entries_insert. rewrite (proj2 (Z.leb_le _ _) Hle). destruct (set_or_push_ok (action_entries a) mbr e) as (es & -> & Hes & Hg); [lia|].
  destruct (mbr_index_ok mbr Hm) as (-> & _). msimpl. destruct (ref_set_mbr (index_ref_count a) mbr 0) as (l & -> & Hl & Hj); [done|rewrite (pr_mlen a P R); lia|].
  msimpl. exists es, l. split; [done|]. split; [|done]. rewrite (pr_mlen a P R) in Hl. lia.
Qed.

Lemma prof_add a P f ad : refines a P → pop_ok P (AddMember f ad) →
  ∃ a' r P', exec a (AddMember f ad) = Some (a', r) ∧ p_step P (AddMember f ad) r P' ∧ refines a' P'.
Proof.
  intros R Hok. cbn in Hok. unfold exec, add_member. destruct (data_fits f ad) eqn:Ef; cbn [negb]; msimpl; [|by eauto 10 using p_step].
  destruct (HandleMgr.get_handle_least _ _ (pr_mbrs a P R)) as (h & -> & Hw & Hh & Hlt & Hle & Hrep); [rewrite size_dom; lia|].
  rewrite size_dom in Hle. assert (0 ≤ h < 2 ^ 24) as Hr by (unfold word_ok in Hw; lia).
  rewrite (wrap_small 32 h) by lia. rewrite not_elem_of_dom in Hh. setoid_rewrite elem_of_dom in Hlt.
  set (a1 := with_members a (num_members a) (J1S (mbr_handles a) h).1).
  assert (∃ es l, entries_insert a1 h (action_entry f ad) = Some (with_ref_count (with_entries a1 es) {| mbr_count := l; grp_count := grp_count (index_ref_count a) |}) ∧
    length l = length es ∧ (∀ j, vget es j = if decide (j = h) then Some (action_entry f ad) else vget (action_entries a) j) ∧
    ∀ j, vget l j = if decide (j = h) then Some 0 else vget (mbr_count (index_ref_count a)) j) as (es & l & -> & Hlen & Hes & Hl).
  { destruct (entries_insert_ok a P h (action_entry f ad) R Hr Hlt) as (es & l & E & Hlen & Hes & Hl). exists es, l.
    split; [|done]. unfold entries_insert in E |- *. cbn. case_match; [|done]. by mbind_inv E. }
  msimpl. eexists _, _, _. split; [done|]. split; [by apply (p_add P f ad h)|]. destruct R. constructor; cbn; try done.
  - rewrite dom_insert_L. done.
  - intros m. rewrite lookup_insert_is_Some. intros [<-|[_ Hm]]; [done|auto].
  - intros m e. rewrite Hes. destruct (decide (m = h)) as [->|]; [by rewrite lookup_insert_eq|rewrite lookup_insert_ne by done; auto].
  - intros m. rewrite Hl. destruct (decide (m = h)) as [->|]; [intros _|rewrite lookup_insert_ne by done; auto]. f_equal. unfold p_refs. cbn.
    rewrite group_uses_none, pr_free0; [done| |].
    + intros [(? & -> & Hs)|(g & -> & Hs)]; [by rewrite Hh in Hs|]. specialize (pr_grange0 _ Hs). unfold grp_index in Hr. lia.
    + intros g X Hg Hin. destruct (pr_group0 g X Hg) as (_ & _ & _ & Hall). specialize (Hall _ Hin). rewrite Hh in Hall. by destruct Hall.
  - intros g X Hg. destruct (pr_group0 g X Hg) as (j & ? & ? & Hall). exists j. split; [done|]. split; [done|]. intros m Hm. apply lookup_insert_is_Some'. auto.
  - rewrite map_size_insert_None by done. lia.
  - intros i Hi. apply pr_free0. intros [(m & -> & Hs)|Hg]; apply Hi; [left; exists m; split; [done|]; apply lookup_insert_is_Some'; auto|by right].
Qed.

Lemma prof_delete a P mbr : refines a P →
  ∃ a' r P', exec a (DeleteMember mbr) = Some (a', r) ∧ p_step P (DeleteMember mbr) r P' ∧ refines a' P'.
Proof.
  intros R. unfold exec, delete_member. rewrite (valid_mbr a P mbr R). case_bool_decide as Hm; cbn [negb]; msimpl.
  2:{ eexists _, _, _. split; [done|]. split; [|done]. apply p_delete_invalid. by apply eq_None_not_Some. }
  pose proof (pr_mrange a P R _ Hm) as Hr. pose proof (refs_range a P mbr R) as Hn. rewrite (proj1 (mbr_index_ok mbr Hr)). msimpl.
  rewrite ref_get_mbr, (pr_mcount a P R _ Hm) by done. msimpl. destruct (Z.ltb_spec 0 (p_refs P mbr)).
  { eexists _, _, _. split; [done|]. split; [by apply p_delete_used|done]. }
  destruct (HandleMgr.release_handle_ok _ _ mbr (pr_mbrs a P R)) as [-> Hrep]; [by apply elem_of_dom|]. cbn [Z.eqb]. msimpl.
  assert (p_refs P mbr = 0) as Hz by lia. eexists _, _, _. split; [done|]. split; [by apply p_delete|]. unfold p_refs in Hz.
  pose proof (pr_uses a P R mbr) as Hu. pose proof (group_uses_bound (p_groups P) mbr (pr_grange a P R)) as Hg.
  destruct R. constructor; cbn; try done.
  - by rewrite dom_delete_L.
  - intros m [_ Hs]%lookup_delete_is_Some. auto.
  - intros m e [_ He]%lookup_delete_Some. auto.
  - intros m [_ Hs]%lookup_delete_is_Some. by apply pr_mcount0.
  - intros g X Hg'. destruct (pr_group0 g X Hg') as (j & ? & ? & Hall). exists j. split; [done|]. split; [done|]. intros m Hin.
    apply lookup_delete_is_Some. split; [|auto]. intros <-. pose proof (group_uses_pos _ _ _ _ Hg' Hin). lia.
  - destruct Hm as [e He]. rewrite map_size_delete_Some by (by exists e). pose proof (map_size_ne_0_lookup_2 (p_members P) mbr (mk_is_Some _ _ He)). lia.
  - intros i Hi. destruct (decide (i = mbr)) as [->|Hne]; [lia|]. apply pr_free0. intros [(m & -> & Hs)|Hg']; apply Hi; [left|by right].
    exists m. split; [done|]. by apply lookup_delete_is_Some.
Qed.

(** Another entry for a member. *)
Lemma refines_entry a P mbr e es : refines a P → is_Some (p_members P !! mbr) → vset (action_entries a) mbr e = Some es →
  refines (with_entries a es) (set_members P (<[mbr := e]> (p_members P))).
Proof.
  intros R Hm Hset. destruct R. constructor; cbn; try done.
  - by rewrite dom_insert_lookup_L.
  - intros m Hs. apply pr_mrange0. by apply lookup_insert_is_Some in Hs as [<-|[_ ?]].
  - intros m e'. rewrite (vget_vset _ _ _ _ m Hset). destruct (decide (m = mbr)) as [->|]; [by rewrite lookup_insert_eq|rewrite lookup_insert_ne by done; auto].
  - intros m Hs. apply pr_mcount0. by apply lookup_insert_is_Some in Hs as [<-|[_ ?]].
  - rewrite pr_mlen0. symmetry. by eapply vset_length.
  - intros g X Hg. destruct (pr_group0 g X Hg) as (j & ? & ? & Hall). exists j. split; [done|]. split; [done|]. intros m Hs. apply lookup_insert_is_Some'. auto.
  - by rewrite map_size_insert_Some.
  - intros i Hi. apply pr_free0. intros [(m & -> & Hs)|Hg]; apply Hi; [left; exists m; split; [done|]; apply lookup_insert_is_Some'; auto|by right].
Qed.

Lemma prof_modify a P mbr f ad : refines a P →
  ∃ a' r P', exec a (ModifyMember mbr f ad) = Some (a', r) ∧ p_step P (ModifyMember mbr f ad) r P' ∧ refines a' P'.
Proof.
  intros R. unfold exec, modify_member. destruct (data_fits f ad) eqn:Ef; cbn [negb]; msimpl; [|by eauto 10 using p_step].
  rewrite (valid_mbr a P mbr R). case_bool_decide as Hm; cbn [negb]; msimpl.
  2:{ eexists _, _, _. split; [done|]. split; [|done]. apply p_modify_invalid; [done|]. by apply eq_None_not_Some. }
  pose proof Hm as [e He]. pose proof (vset_Some _ _ (action_entry f ad) (vget_Some_range _ _ _ (pr_member a P R _ _ He))) as Hset.
  rewrite Hset. msimpl. eexists _, _, _. split; [done|]. split; [by apply p_modify|]. by eapply refines_entry.
Qed.

(** *** Uses *)

Lemma exec_uses a P i d (Hd : d = 1 ∨ d = -1) : refines a P → p_valid P i → 0 ≤ p_uses P i + d < 2 ^ 31 →
  ∃ c, ref_add d (index_ref_count a) i = Some c ∧ refines (with_ref_count a c) (set_uses P i (p_uses P i + d)).
Proof.
  intros R Hv Hn. pose proof (λ m, group_uses_bound (p_groups P) m (pr_grange a P R)) as Hg. destruct Hv as [(m & -> & Hs)|(g & -> & Hs)].
  - pose proof (pr_mrange a P R _ Hs) as Hm. destruct (ref_add_mbr d _ m _ Hm (pr_mcount a P R _ Hs)) as (l & -> & Hl & Hj).
    { unfold p_refs. specialize (Hg m). lia. }
    eexists. split; [done|]. destruct R. constructor; cbn; try done; unfold p_valid in *; cbn in *; try congruence.
    + intros m' Hs'. rewrite Hj. unfold p_refs. cbn. destruct (decide (m' = m)) as [->|Hne]; [rewrite fn_lookup_insert; f_equal; unfold p_refs; lia|].
      rewrite fn_lookup_insert_ne by done. by apply pr_mcount0.
    + intros g Hsg. rewrite fn_lookup_insert_ne; [auto|]. apply mbr_not_grp; [done|]. by apply pr_grange0.
    + intros i. destruct (decide (i = m)) as [->|]; [rewrite fn_lookup_insert; lia|by rewrite fn_lookup_insert_ne].
    + intros i Hi. rewrite fn_lookup_insert_ne; [auto|]. intros ->. apply Hi. left. by eexists.
  - pose proof (pr_grange a P R _ Hs) as Hgr. destruct (ref_add_grp d _ g _ Hgr (pr_gcount a P R _ Hs)) as (l & -> & Hl & Hj); [lia|].
    eexists. split; [done|]. destruct R. constructor; cbn; try done; unfold p_valid in *; cbn in *; try congruence.
    + intros m' Hs'. unfold p_refs. cbn. rewrite fn_lookup_insert_ne; [by apply pr_mcount0|]. intros E. by apply (mbr_not_grp m' g); [apply pr_mrange0|lia|].
    + intros g' Hsg. rewrite Hj. destruct (decide (g' = g)) as [->|Hne]; [by rewrite fn_lookup_insert|].
      rewrite fn_lookup_insert_ne; [auto|]. unfold grp_index. lia.
    + intros i. destruct (decide (i = grp_index g)) as [->|]; [rewrite fn_lookup_insert; lia|by rewrite fn_lookup_insert_ne].
    + intros i Hi. rewrite fn_lookup_insert_ne; [auto|]. intros <-. apply Hi. right. by eexists.
Qed.

Lemma prof_acquire a P i : refines a P → pop_ok P (Acquire i) →
  ∃ a' r P', exec a (Acquire i) = Some (a', r) ∧ p_step P (Acquire i) r P' ∧ refines a' P'.
Proof.
  intros R [Hv Hn]. pose proof (pr_uses a P R i). destruct (exec_uses a P i 1) as (c & E & R'); [by left|done..|lia|].
  unfold exec, ref_count_increase. change (ref_increase (index_ref_count a) i) with (ref_add 1 (index_ref_count a) i). rewrite E. msimpl.
  eexists _, _, _. split; [done|]. split; [apply p_acquire|done].
Qed.

Lemma prof_release a P i : refines a P → pop_ok P (Release i) →
  ∃ a' r P', exec a (Release i) = Some (a', r) ∧ p_step P (Release i) r P' ∧ refines a' P'.
Proof.
  intros R [Hv Hn]. pose proof (pr_uses a P R i). destruct (exec_uses a P i (-1)) as (c & E & R'); [by right|done..|lia|].
  unfold exec, ref_count_decrease. change (ref_decrease (index_ref_count a) i) with (ref_add (-1) (index_ref_count a) i). rewrite E. msimpl.
  eexists _, _, _. split; [done|]. split; [apply p_release|done].
Qed.

(** *** Groups *)

Lemma prof_create a P : refines a P → pop_ok P CreateGroup →
  ∃ a' r P', exec a CreateGroup = Some (a', r) ∧ p_step P CreateGroup r P' ∧ refines a' P'.
Proof.
  intros R Hok. cbn in Hok. unfold exec, create_group.
  destruct (HandleMgr.get_handle_least _ _ (pr_grps a P R)) as (h & -> & Hw & Hh & Hlt & Hle & Hrep); [rewrite size_dom; lia|].
  rewrite size_dom in Hle. assert (0 ≤ h < 2 ^ 24) as Hr by (unfold word_ok in Hw; lia).
  rewrite (wrap_small 32 h) by lia. rewrite not_elem_of_dom in Hh. setoid_rewrite elem_of_dom in Hlt.
  assert (h ≤ Z.of_nat (length (groups a))) as Hlen.
  { apply least_le_length; [lia|]. intros g Hg. destruct (Hlt g Hg) as [X HX]. destruct (pr_group a P R g X HX) as (j & -> & _). done. }
  unfold insert_group. rewrite (proj2 (Z.leb_le _ _) Hlen). destruct (set_or_push_ok (groups a) h (J1_null : J)) as (gs & -> & Hgs & Hg); [lia|].
  destruct (grp_index_ok h Hr) as (-> & _). msimpl. destruct (ref_set_grp (index_ref_count a) h 0) as (l & -> & Hl & Hj); [done|rewrite (pr_glen a P R); lia|].
  msimpl. eexists _, _, _. split; [done|]. split; [by apply (p_create P h)|]. destruct R. constructor; cbn; try done.
  - rewrite dom_insert_L. done.
  - intros g. rewrite lookup_insert_is_Some. intros [<-|[_ Hs]]; [done|auto].
  - intros m Hm. unfold p_refs. cbn. rewrite group_uses_insert, decide_False by done. rewrite Z.add_0_r. by apply pr_mcount0.
  - intros g X. rewrite Hg. destruct (decide (g = h)) as [->|]; [|rewrite lookup_insert_ne by done; auto].
    rewrite lookup_insert_eq. intros [= <-]. exists J1_null. split; [done|]. split; [apply HandleMgr.rep_null|]. by intros m ?%not_elem_of_empty.
  - intros g. rewrite Hj. destruct (decide (g = h)) as [->|]; [intros _|rewrite lookup_insert_ne by done; auto]. f_equal. symmetry. apply pr_free0.
    intros [(m & Em & Hs)|(g & Em & Hs)]; [specialize (pr_mrange0 _ Hs); unfold grp_index in Em; lia|].
    assert (g = h) as -> by (unfold grp_index in Em; lia). rewrite Hh in Hs. by destruct Hs.
  - rewrite pr_glen0 in Hl. lia.
  - rewrite map_size_insert_None by done. lia.
  - intros i Hi. apply pr_free0. intros [Hm|(g & -> & Hs)]; apply Hi; [by left|right]. exists g. split; [done|]. apply lookup_insert_is_Some'; auto.
Qed.

Lemma decrease_all_ok l : ∀ c (n : Z → Z), NoDup l → (∀ m, m ∈ l → 0 ≤ m < 2 ^ 24 ∧ vget (mbr_count c) m = Some (n m) ∧ 1 ≤ n m < 2 ^ 32) →
  ∃ mc, decrease_all c l = Some {| mbr_count := mc; grp_count := grp_count c |} ∧ length mc = length (mbr_count c) ∧
    ∀ j, vget mc j = (if decide (j ∈ l) then Some (n j - 1) else vget (mbr_count c) j).
Proof.
  induction l as [|m l IH]; intros c n Hnd Hall; cbn [decrease_all].
  { exists (mbr_count c). by destruct c. }
  apply NoDup_cons in Hnd as [Hm Hnd]. destruct (Hall m ltac:(left)) as (Hr & Hv & Hn). rewrite (wrap_small 32 m) by lia.
  rewrite (proj1 (mbr_index_ok m Hr)). msimpl. destruct (ref_add_mbr (-1) c m (n m) Hr Hv) as (mc & E & Hlen & Hj); [lia|].
  change (ref_decrease c m) with (ref_add (-1) c m). rewrite E. msimpl.
  destruct (IH {| mbr_count := mc; grp_count := grp_count c |} n Hnd) as (mc' & -> & Hlen' & Hj').
  { intros k Hk. cbn. rewrite Hj, decide_False by by intros ->. apply Hall. by right. }
  exists mc'. cbn in *. split; [done|]. split; [congruence|]. intros j. rewrite Hj', Hj.
  destruct (decide (j = m)) as [->|]; repeat case_decide; try done; set_solver.
Qed.

Lemma group_elements a P grp X j : refines a P → p_groups P !! grp = Some X → vget (groups a) grp = Some j →
  HandleMgr.rep j X → ∃ l, Ras.elements j = Some l ∧ NoDup l ∧ ∀ m, m ∈ l ↔ m ∈ X.
Proof.
  intros R HX Hj Hrep. destruct (pr_group a P R grp X HX) as (j' & Hj' & _ & Hall). destruct (Ras.elements_rep j X Hrep) as (l & El & Hs & Hl).
  - intros Hm%Hall%(pr_mrange a P R). unfold word_max in Hm. lia.
  - exists l. split; [done|]. split; [by apply Ras.StronglySorted_NoDup|done].
Qed.

Lemma prof_delete_group a P grp : refines a P →
  ∃ a' r P', exec a (DeleteGroup grp) = Some (a', r) ∧ p_step P (DeleteGroup grp) r P' ∧ refines a' P'.
Proof.
  intros R. unfold exec, delete_group. rewrite (valid_grp a P grp R). case_bool_decide as Hg; cbn [negb]; msimpl.
  2:{ eexists _, _, _. split; [done|]. split; [|done]. apply p_delete_grp_invalid. by apply eq_None_not_Some. }
  pose proof (pr_grange a P R _ Hg) as Hr. rewrite (proj1 (grp_index_ok grp Hr)). msimpl.
  rewrite ref_get_grp, (pr_gcount a P R _ Hg) by done. msimpl. destruct (Z.ltb_spec 0 (p_uses P (grp_index grp))).
  { eexists _, _, _. split; [done|]. split; [by apply p_delete_grp_used|done]. }
  pose proof (pr_uses a P R (grp_index grp)) as Hu. destruct Hg as [X HX]. destruct (pr_group a P R grp X HX) as (j & Hj & Hrep & Hall).
  rewrite Hj. msimpl. destruct (group_elements a P grp X j R HX Hj Hrep) as (l & -> & Hnd & Hl). msimpl.
  destruct (decrease_all_ok l (index_ref_count a) (p_refs P) Hnd) as (mc & -> & Hlen & Hmc).
  { intros m Hm%Hl. split; [by apply (pr_mrange a P R), Hall|]. split; [by apply (pr_mcount a P R), Hall|].
    pose proof (refs_range a P m R). pose proof (group_uses_pos _ _ _ _ HX Hm). pose proof (pr_uses a P R m). unfold p_refs in *. lia. }
  msimpl. destruct (HandleMgr.release_handle_ok _ _ grp (pr_grps a P R)) as [-> Hrep']; [apply elem_of_dom; by exists X|]. cbn [Z.eqb]. msimpl.
  eexists _, _, _. split; [done|]. split; [apply p_delete_grp; [by exists X|lia]|]. destruct R. constructor; cbn; try done.
  - by rewrite dom_delete_L.
  - intros g [_ Hs]%lookup_delete_is_Some. auto.
  - intros m Hm. rewrite Hmc, pr_mcount0 by done. unfold p_refs. cbn. rewrite (group_uses_delete _ _ _ m HX).
    repeat case_decide; try (f_equal; lia); exfalso; naive_solver.
  - congruence.
  - intros g Y [_ HY]%lookup_delete_Some. auto.
  - intros g [_ Hs]%lookup_delete_is_Some. auto.
  - rewrite map_size_delete_Some by (by exists X). pose proof (map_size_ne_0_lookup_2 (p_groups P) grp (mk_is_Some _ _ HX)). lia.
  - intros i Hi. destruct (decide (i = grp_index grp)) as [->|Hne]; [lia|]. apply pr_free0. intros [Hm|(g & -> & Hs)]; apply Hi; [by left|right].
    exists g. split; [done|]. apply lookup_delete_is_Some. split; [|done]. intros <-. done.
Qed.

(** A member enters or leaves a group. *)
Lemma regroup a P grp X Y j j' mbr d :
  refines a P → p_groups P !! grp = Some X → is_Some (p_members P !! mbr) → vget (groups a) grp = Some j → HandleMgr.rep j' Y →
  (∀ m, (if decide (m ∈ Y) then 1 else 0) = (if decide (m ∈ X) then 1 else 0) + (if decide (m = mbr) then d else 0)) →
  (∀ m, m ∈ Y → m ∈ X ∨ m = mbr) →
  ∃ gs c, vset (groups a) grp j' = Some gs ∧ ref_add d (index_ref_count a) mbr = Some c ∧
    refines (with_ref_count (with_groups a gs) c) (set_groups P (<[grp := Y]> (p_groups P))).
Proof.
  intros R HX Hm Hj Hrep Hd Hsub. pose proof (vset_Some (groups a) grp j' (vget_Some_range _ _ _ Hj)) as Hset.
  pose proof (pr_mrange a P R _ Hm) as Hr.
  assert (∀ m, p_refs (set_groups P (<[grp:=Y]> (p_groups P))) m = p_refs P m + (if decide (m = mbr) then d else 0)) as Hrefs.
  { intros m. unfold p_refs. cbn. rewrite (group_uses_update _ _ _ _ _ HX). specialize (Hd m). lia. }
  assert (∀ g, is_Some (<[grp:=Y]> (p_groups P) !! g) → is_Some (p_groups P !! g)) as Hdom.
  { intros g. rewrite lookup_insert_is_Some. intros [<-|[_ Hs]]; [by exists X|done]. }
  destruct (ref_add_mbr d _ mbr _ Hr (pr_mcount a P R _ Hm)) as (mc & E & Hlen & Hmc).
  { pose proof (group_uses_bound (<[grp:=Y]> (p_groups P)) mbr (λ g Hs, pr_grange a P R g (Hdom g Hs))) as Hb.
    pose proof (pr_uses a P R mbr). pose proof (Hrefs mbr) as Hm'. unfold p_refs in *. cbn in Hm'. rewrite decide_True in Hm' by done. lia. }
  eexists _, _. split; [exact Hset|]. split; [exact E|]. destruct R. constructor; cbn [index_ref_count with_ref_count mbr_count grp_count with_groups
    groups set_groups p_members p_groups p_uses mbr_handles grp_handles action_entries num_members num_groups]; try done.
  - rewrite dom_insert_lookup_L; [done|by exists X].
  - auto.
  - intros m Hs. rewrite Hmc, Hrefs. destruct (decide (m = mbr)) as [->|]; [done|]. rewrite Z.add_0_r. auto.
  - congruence.
  - intros g Z. rewrite (vget_vset _ _ _ _ g Hset). destruct (decide (g = grp)) as [->|]; [|rewrite lookup_insert_ne by done; auto].
    rewrite lookup_insert_eq. intros [= <-]. exists j'. split; [done|]. split; [done|]. intros m [Hx| ->]%Hsub; [|done].
    destruct (pr_group0 grp X HX) as (_ & _ & _ & Hall). by apply Hall.
  - intros g Hs. auto.
  - by rewrite length_insert.
  - rewrite map_size_insert_Some by (by exists X). done.
  - intros i Hi. apply pr_free0. intros [Hs|(g & -> & Hs)]; apply Hi; [by left|right]. exists g. split; [done|]. apply lookup_insert_is_Some'; auto.
Qed.

(** The selector is told, and is not part of what the profile stands for. *)
Lemma refines_select a P f : refines a P → refines (select a f) P.
Proof. intros []. by constructor. Qed.

(** A group that is written back as it was. *)
Lemma rewrite_group a P grp X j j' : refines a P → p_groups P !! grp = Some X → vget (groups a) grp = Some j → HandleMgr.rep j' X →
  ∃ gs, vset (groups a) grp j' = Some gs ∧ refines (with_groups a gs) P.
Proof.
  intros R HX Hj Hrep. pose proof (vset_Some (groups a) grp j' (vget_Some_range _ _ _ Hj)) as Hset. eexists. split; [exact Hset|].
  destruct R. constructor; cbn [with_groups groups index_ref_count mbr_handles grp_handles action_entries num_members num_groups]; try done.
  - intros g Z HZ. rewrite (vget_vset _ _ _ _ g Hset). destruct (decide (g = grp)) as [->|]; [|auto]. rewrite HX in HZ. injection HZ as <-.
    exists j'. split; [done|]. split; [done|]. by destruct (pr_group0 grp X HX) as (_ & _ & _ & Hall).
  - by rewrite length_insert.
Qed.

Lemma prof_add_to a P mbr grp : refines a P →
  ∃ a' r P', exec a (AddToGroup mbr grp) = Some (a', r) ∧ p_step P (AddToGroup mbr grp) r P' ∧ refines a' P'.
Proof.
  intros R. unfold exec, add_member_to_group. rewrite (valid_mbr a P mbr R), (valid_grp a P grp R). case_bool_decide as Hm; cbn [negb]; msimpl.
  2:{ eexists _, _, _. split; [done|]. split; [|done]. apply p_add_to_no_mbr. by apply eq_None_not_Some. }
  case_bool_decide as Hg; cbn [negb]; msimpl.
  2:{ eexists _, _, _. split; [done|]. split; [|done]. apply p_add_to_no_grp; [done|]. by apply eq_None_not_Some. }
  destruct Hg as [X HX]. destruct (pr_group a P R grp X HX) as (j & Hj & Hrep & _). pose proof (pr_mrange a P R _ Hm) as Hr.
  assert (word_ok mbr) as Hw by (unfold word_ok; lia). pose proof (HandleMgr.rep_set j X mbr Hrep Hw) as Hrep'.
  pose proof (J1S_rc j mbr) as Hrc. rewrite Hj. msimpl. unfold group_add_member, Ras.add. destruct (J1S j mbr) as [j' rc]. cbn [fst snd] in *. subst rc.
  destruct (decide (mbr ∈ X)) as [Hin|Hin].
  - rewrite (proj2 (HandleMgr.rep_test j X mbr Hrep) Hin). cbn [negb]. replace ({[mbr]} ∪ X) with X in Hrep' by set_solver.
    destruct (rewrite_group a P grp X j j' R HX Hj Hrep') as (gs & -> & R'). msimpl.
    eexists _, _, _. split; [done|]. split; [by apply (p_add_to_again P mbr grp X)|done].
  - rewrite (proj2 (HandleMgr.rep_test_false j X mbr Hrep) Hin). cbn [negb].
    destruct (regroup a P grp X ({[mbr]} ∪ X) j j' mbr 1 R HX Hm Hj Hrep') as (gs & c & -> & E & R').
    { intros m. repeat case_decide; set_solver. }
    { set_solver. }
    msimpl. rewrite (proj1 (mbr_index_ok mbr Hr)). msimpl. cbn [with_groups index_ref_count].
    change (ref_increase (index_ref_count a) mbr) with (ref_add 1 (index_ref_count a) mbr). rewrite E. msimpl.
    eexists _, _, _. split; [done|]. split; [by apply (p_add_to P mbr grp X)|by apply refines_select].
Qed.

Lemma prof_remove_from a P mbr grp : refines a P →
  ∃ a' r P', exec a (RemoveFromGroup mbr grp) = Some (a', r) ∧ p_step P (RemoveFromGroup mbr grp) r P' ∧ refines a' P'.
Proof.
  intros R. unfold exec, remove_member_from_group. rewrite (valid_mbr a P mbr R), (valid_grp a P grp R). case_bool_decide as Hm; cbn [negb]; msimpl.
  2:{ eexists _, _, _. split; [done|]. split; [|done]. apply p_remove_no_mbr. by apply eq_None_not_Some. }
  case_bool_decide as Hg; cbn [negb]; msimpl.
  2:{ eexists _, _, _. split; [done|]. split; [|done]. apply p_remove_no_grp; [done|]. by apply eq_None_not_Some. }
  destruct Hg as [X HX]. destruct (pr_group a P R grp X HX) as (j & Hj & Hrep & _). pose proof (pr_mrange a P R _ Hm) as Hr.
  pose proof (HandleMgr.rep_unset j X mbr Hrep) as Hrep'.
  pose proof (J1U_rc j mbr) as Hrc. rewrite Hj. msimpl. unfold group_delete_member, Ras.remove. destruct (J1U j mbr) as [j' rc]. cbn [fst snd] in *. subst rc.
  destruct (decide (mbr ∈ X)) as [Hin|Hin].
  - rewrite (proj2 (HandleMgr.rep_test j X mbr Hrep) Hin).
    destruct (regroup a P grp X (X ∖ {[mbr]}) j j' mbr (-1) R HX Hm Hj Hrep') as (gs & c & -> & E & R').
    { intros m. repeat case_decide; set_solver. }
    { set_solver. }
    msimpl. rewrite (proj1 (mbr_index_ok mbr Hr)). msimpl. cbn [with_groups index_ref_count].
    change (ref_decrease (index_ref_count a) mbr) with (ref_add (-1) (index_ref_count a) mbr). rewrite E. msimpl.
    eexists _, _, _. split; [done|]. split; [by apply (p_remove P mbr grp X)|by apply refines_select].
  - rewrite (proj2 (HandleMgr.rep_test_false j X mbr Hrep) Hin). replace (X ∖ {[mbr]}) with X in Hrep' by set_solver.
    destruct (rewrite_group a P grp X j j' R HX Hj Hrep') as (gs & -> & R'). msimpl.
    eexists _, _, _. split; [done|]. split; [by apply (p_remove_not_in P mbr grp X)|done].
Qed.

(** C3: Every operation of an action profile that stands for members and groups
    succeeds, does to them what the specification says and answers what it says.
    In particular the counts are those of the entries of tables and of the groups
    that use a member, so a member is deleted only when none does, and a member
    of a group is always a valid member. *)
Theorem profile_refines a P o : refines a P → pop_ok P o →
  ∃ a' r P', exec a o = Some (a', r) ∧ p_step P o r P' ∧ refines a' P'.
Proof.
  intros R Hok. destruct o; [by apply prof_add|by apply prof_delete|by apply prof_modify|by apply prof_create|by apply prof_delete_group|
    by apply prof_add_to|by apply prof_remove_from|by apply prof_acquire|by apply prof_release].
Qed.

(** ** Lookup *)

Definition empty_prof : Prof := {| p_members := ∅; p_groups := ∅; p_uses _ := 0 |}.

Lemma new_refines_prof selection : refines (ActionProfile.new selection : Profile J S) empty_prof.
Proof.
  constructor; cbn; try done; try (intros ? []%lookup_empty_is_Some); try (rewrite dom_empty_L; apply HandleMgr.rep_null).
Qed.

(** For the index of a member, a lookup gives its entry; for the index of a
    group that is not empty, the entry of a valid member of the group, whatever
    the hash of the packet is. *)
Theorem profile_lookup `{Gmp} XXH64 a P phv data i :
  refines a P → p_valid P i → (is_mbr i = false → with_selection a = true) → grp_selector a = None →
  (∀ h, hash a = Some h → is_Some (Calculations.calculation_output XXH64 h phv data)) →
  (∀ grp, i = grp_index grp → p_groups P !! grp ≠ Some ∅) →
  ∃ mbr e, lookup_member XXH64 a phv data i = Some mbr ∧ p_members P !! mbr = Some e ∧ lookup XXH64 a phv data i = Some e ∧
    (i = mbr ∨ ∃ grp X, i = grp_index grp ∧ p_groups P !! grp = Some X ∧ mbr ∈ X).
Proof.
  intros R Hv Hsel Hsl Hh Hne.
  assert (∀ mbr e, lookup_member XXH64 a phv data i = Some mbr → p_members P !! mbr = Some e → lookup XXH64 a phv data i = Some e) as Hent.
  { intros mbr e E He. unfold lookup. rewrite E. msimpl. by apply (pr_member a P R). }
  destruct Hv as [(mbr & -> & e & He)|(grp & -> & X & HX)].
  - assert (lookup_member XXH64 a phv data mbr = Some mbr) as E.
    { destruct (mbr_index_ok mbr) as (_ & E1 & E2); [by apply (pr_mrange a P R); exists e|].
      unfold lookup_member, get_mbr. rewrite E1, E2. cbn [orb]. msimpl. rewrite (valid_mbr a P mbr R), bool_decide_true by (by exists e). done. }
    exists mbr, e. split; [done|]. split; [done|]. split; [by apply (Hent mbr)|by left].
  - destruct (grp_index_ok grp) as (_ & E1 & E2 & E3); [by apply (pr_grange a P R); exists X|].
    destruct (pr_group a P R grp X HX) as (j & Hj & Hrep & Hall).
    assert (∀ x, ∃ mbr, selected a grp (u32 x) = Some mbr ∧ mbr ∈ X) as Hsome.
    { intros x. unfold selected, get_from_hash. rewrite Hsl, Hj. msimpl. assert (0 < Ras.count j) as Hc.
      { rewrite (Ras.count_rep j X Hrep). destruct (decide (size X = 0%nat)) as [Hz|]; [|lia]. apply size_empty_inv, leibniz_equiv in Hz. subst X. by apply Hne in HX. }
      rewrite (proj2 (Z.eqb_neq _ _)) by lia. apply (Ras.get_nth_rep j X _ Hrep); [|apply Z.mod_pos_bound; lia].
      intros Hm%Hall%(pr_mrange a P R). unfold word_max in Hm. lia. }
    assert (∃ mbr, choose_from_group XXH64 a grp phv data = Some mbr ∧ mbr ∈ X) as (mbr & Ec & Hin).
    { unfold choose_from_group. destruct (hash a) as [h|] eqn:Eh; [|apply (Hsome 0)]. destruct (Hh h eq_refl) as [x ->]. msimpl. apply Hsome. }
    destruct (Hall mbr Hin) as [e He]. assert (lookup_member XXH64 a phv data (grp_index grp) = Some mbr) as E.
    { unfold lookup_member, get_mbr, get_grp. rewrite (Hsel E1), E1, E2, E3. cbn [orb]. msimpl. rewrite (valid_grp a P grp R), bool_decide_true by (by exists X).
      rewrite Ec. msimpl. rewrite (valid_mbr a P mbr R), bool_decide_true by (by exists e). done. }
    exists mbr, e. split; [done|]. split; [done|]. split; [by apply (Hent mbr)|]. right. by exists grp, X.
Qed.
End refinement.
End ActionProfileSpec.

(** ** Examples *)
Module ActionProfileExamples.
Import ActionProfile ActionProfileSpec Judy1Set RasExample GmpExample.

Instance no_selection : GroupSelection unit := {|
  sel_add_member_to_group s _ _ := s; sel_remove_member_from_group s _ _ := s; sel_get_from_hash _ _ _ := None; sel_reset s := s |}.

Abbreviation profile_t := (Profile (gset Z) unit).

Definition nop : Actions.ActionFn := Actions.new_action 1 0.
Definition profile0 : profile_t := ActionProfile.new true.

Fixpoint run (a : profile_t) (os : list pop) : option profile_t :=
  match os with [] => Some a | o :: os => '(a, _) ← exec a o; run a os end.

Lemma profile_refines_witness : ∃ a' r P', exec profile0 (AddMember nop []) = Some (a', r) ∧ p_step empty_prof (AddMember nop []) r P'.
Proof.
  destruct (profile_refines profile0 empty_prof (AddMember nop [])) as (a' & r & P' & E & Hs & _); [apply new_refines_prof|vm_compute; reflexivity|].
  exists a', r, P'. split; [exact E|exact Hs].
Defined.

(** A profile with one member, in one group. *)
Definition one_group : Prof :=
  {| p_members := {[0 := action_entry nop []]}; p_groups := {[0 := {[0]}]}; p_uses _ := 0 |}.
Definition profile1 : profile_t :=
  {| with_selection := true; action_entries := [action_entry nop []]; index_ref_count := {| mbr_count := [1]; grp_count := [0] |};
     mbr_handles := {[0]}; grp_handles := {[0]}; num_members := 1; num_groups := 1; groups := [{[0]}]; grp_selector := None; hash := None |}.

Lemma profile1_run : run profile0 [AddMember nop []; CreateGroup; AddToGroup 0 0] = Some profile1.
Proof. vm_compute. reflexivity. Qed.

Lemma profile1_refines : refines profile1 one_group.
Proof.
  constructor; cbn -[grp_index]; try done.
  - rewrite dom_singleton_L. apply HandleMgr.rep_gset. intros k ->%elem_of_singleton. done.
  - rewrite dom_singleton_L. apply HandleMgr.rep_gset. intros k ->%elem_of_singleton. done.
  - by intros m <-%lookup_singleton_is_Some.
  - by intros m <-%lookup_singleton_is_Some.
  - by intros m e [<- <-]%lookup_singleton_Some.
  - intros m <-%lookup_singleton_is_Some. by vm_compute.
  - intros g X [<- <-]%lookup_singleton_Some. exists {[0]}. split; [done|]. split; [apply HandleMgr.rep_gset; by intros k ->%elem_of_singleton|].
    intros m ->%elem_of_singleton. by exists (action_entry nop []).
  - by intros g <-%lookup_singleton_is_Some.
Qed.

Definition no_phv : Phv.PHV := {| Phv.headers := []; Phv.header_stacks := []; Phv.header_unions := []; Phv.header_union_stacks := [] |}.

Lemma profile_lookup_witness : ActionProfile.lookup (λ _, 0) profile1 no_phv [] (grp_index 0) = Some (action_entry nop []).
Proof.
  destruct (profile_lookup (λ _, 0) profile1 one_group no_phv [] (grp_index 0)) as (mbr & e & _ & Em & El & _).
  - exact profile1_refines.
  - right. exists 0. split; [reflexivity|]. exists {[0]}. reflexivity.
  - intros _. reflexivity.
  - reflexivity.
  - intros h Hh. discriminate Hh.
  - intros grp Hg. assert (grp = 0) as -> by (unfold grp_index in Hg; lia). intros E. apply (f_equal (λ o, size (default ∅ o))) in E. discriminate E.
  - change (({[0 := action_entry nop []]} : gmap Z ActionEntry) !! mbr = Some e) in Em. rewrite El. apply lookup_singleton_Some in Em as [_ <-]. reflexivity.
Defined.

(** Emptying a group that entries use is not refused; the lookup of its
    index then takes a remainder by zero. *)
Theorem emptied_group :
  (a ← run profile1 [Acquire (grp_index 0); RemoveFromGroup 0 0];
   Some (snd <$> exec a (DeleteGroup 0), ActionProfile.lookup (λ _, 0) a no_phv [] (grp_index 0)))
  = Some (Some (PCode GRP_STILL_USED), None).
Proof. vm_compute. reflexivity. Qed.

(** A reset leaves the handles of groups in use although the groups are
    gone: a group from before is still valid, but cannot be read, and creating a
    group fails an assertion. *)
Theorem reset_keeps_groups :
  let a := ActionProfile.reset_state profile1 in
  (is_valid_mbr a 0, is_valid_grp a 0, get_group a 0, snd <$> create_group a) = (false, true, None, None).
Proof. vm_compute. reflexivity. Qed.

Definition actions (i : Z) : option Actions.ActionFn := if i =? 1 then Some nop else None.

(** A profile that was serialized after one of its groups was deleted
    cannot be read back: its groups have a gap, which fails an assertion. *)
Theorem gap_not_restored :
  (a ← run profile1 [CreateGroup; DeleteGroup 0]; tks ← ActionProfile.serialize (λ _, []) a;
   Some (bool_decide (ActionProfile.deserialize actions (λ _, None) profile0 tks = None))) = Some true.
Proof. vm_compute. reflexivity. Qed.
End ActionProfileExamples.
