(* ===== verification/Meters.v ===== *)
(** * Meters (include/bm/bm_sim/meters.h, src/bm_sim/meters.cpp)

    A meter is a list of token buckets. The clock is an argument: the
    microseconds since the program started. Tokens are computed with doubles,
    which are written out here for numbers that are not negative; a conversion
    that is undefined in the language is [None], and so is a failed assertion. *)

From S2P Require Import Prelude TableKeys.

Module Meters.

(** ** Doubles *)

(** [mant * 2 ^ expo], where [mant] has at most 53 bits. *)
Record double := { mant : Z; expo : Z }.

(** To 53 bits, to the nearest, halves to the even one. *)
Definition round53 (n : Z) : Z :=
  let k := Z.log2 n - 52 in
  if k <=? 0 then n else
  let q := n / 2 ^ k in
  let r := n mod 2 ^ k in
  (if r <? 2 ^ (k - 1) then q else if 2 ^ (k - 1) <? r then q + 1 else if Z.even q then q else q + 1) * 2 ^ k.

Definition double_gtb (a b : double) : bool :=
  let e := Z.min (expo a) (expo b) in
  mant b * 2 ^ (expo b - e) <? mant a * 2 ^ (expo a - e).

(** [static_cast<uint64_t>(micros * info_rate)]: both the conversion of [micros]
    and the product are rounded. Numbers too small for a double of 53 bits have
    no whole part. *)
Definition tokens_at (info_rate : double) (micros : Z) : option Z :=
  let p := round53 micros * mant info_rate in
  let t := Z.shiftl (round53 p) (expo info_rate) in
  if (0 <=? p) && (t <? 2 ^ 64) then Some t else None.

(** ** Meters *)

Inductive MeterType := BYTES | PACKETS.

Inductive MeterErrorCode :=
  | SUCCESS | INVALID_METER_NAME | INVALID_INDEX | BAD_RATES_LIST | INVALID_INFO_RATE_VALUE | INVALID_BURST_SIZE_VALUE | ERROR.

#[global] Instance MeterErrorCode_eq_dec : EqDecision MeterErrorCode.
Proof. solve_decision. Defined.

Record rate_config_t := { config_info_rate : double; config_burst_size : Z }.

Record MeterRate := {
  valid : bool;
  info_rate : double;              (** tokens in a microsecond *)
  burst_size : Z;
  tokens : Z;
  tokens_last : Z;
  color : Z;
}.

Definition new_rate : MeterRate :=
  {| valid := false; info_rate := {| mant := 0; expo := 0 |}; burst_size := 0; tokens := 0; tokens_last := 0; color := 0 |}.

Record Meter := { type : MeterType; rates : list MeterRate; configured : bool }.

Definition new (type : MeterType) (rate_count : Z) : Meter :=
  {| type := type; rates := replicate (Z.to_nat rate_count) new_rate; configured := false |}.

Implicit Types (m : Meter) (r : MeterRate) (rs : list MeterRate) (config : rate_config_t).

Definition configure (idx : Z) config : MeterRate :=
  {| valid := true; info_rate := config_info_rate config; burst_size := config_burst_size config;
     tokens := config_burst_size config; tokens_last := 0; color := u32 (idx + 1) |}.

Definition set_rate rs (idx : Z) config : option (list MeterRate * MeterErrorCode) :=
  rs ← vset rs idx (configure idx config);
  if 0 <? idx then
    prev ← vget rs (idx - 1);
    Some (rs, if double_gtb (info_rate prev) (config_info_rate config) then INVALID_INFO_RATE_VALUE else SUCCESS)
  else Some (rs, SUCCESS).

(** Until one is refused. *)
Fixpoint set_each rs (idx : Z) (configs : list rate_config_t) : option (list MeterRate * MeterErrorCode) :=
  match configs with
  | [] => Some (rs, SUCCESS)
  | config :: configs =>
      '(rs, rc) ← set_rate rs idx config;
      if decide (rc = SUCCESS) then set_each rs (idx + 1) configs else Some (rs, rc)
  end.

Definition set_rates m (configs : list rate_config_t) : option (Meter * MeterErrorCode) :=
  if negb (Z.of_nat (length configs) =? Z.of_nat (length (rates m))) then Some (m, BAD_RATES_LIST) else
  '(rs, rc) ← set_each (rates m) 0 configs;
  if decide (rc = SUCCESS) then Some ({| type := type m; rates := reverse rs; configured := true |}, SUCCESS)
  else Some ({| type := type m; rates := rs; configured := configured m |}, rc).

Definition get_rates m : list rate_config_t :=
  if configured m then
    reverse ((λ r, {| config_info_rate := info_rate r; config_burst_size := burst_size r |}) <$> rates m)
  else [].

Definition reset_rates m : Meter :=
  {| type := type m;
     rates := (λ r, {| valid := false; info_rate := info_rate r; burst_size := burst_size r; tokens := tokens r;
                       tokens_last := tokens_last r; color := color r |}) <$> rates m;
     configured := false |}.

Definition with_tokens r (n last : Z) : MeterRate :=
  {| valid := valid r; info_rate := info_rate r; burst_size := burst_size r; tokens := n; tokens_last := last; color := color r |}.

(** The bucket with the tokens of the time that passed. *)
Definition refill r (micros : Z) : option MeterRate :=
  tokens_since_init ← tokens_at (info_rate r) micros;
  if tokens_last r <=? tokens_since_init then
    let new_tokens := tokens_since_init - tokens_last r in
    Some (with_tokens r (Z.min (u64 (tokens r + new_tokens)) (burst_size r)) tokens_since_init)
  else None.

(** The buckets after a packet, and its color. *)
Fixpoint execute_rates rs (micros input : Z) : option (list MeterRate * Z) :=
  match rs with
  | [] => Some ([], 0)
  | r :: rs =>
      r ← refill r micros;
      if tokens r <? input then Some (r :: rs, color r) else
      '(rs, packet_color) ← execute_rates rs micros input;
      Some (with_tokens r (tokens r - input) (tokens_last r) :: rs, packet_color)
  end.

Definition input_of m (ingress_length : Z) : Z := match type m with PACKETS => 1 | BYTES => ingress_length end.

Definition execute m (micros ingress_length pre_color : Z) : option (Meter * Z) :=
  if negb (configured m) then Some (m, 0) else
  '(rs, packet_color) ← execute_rates (rates m) micros (input_of m ingress_length);
  Some ({| type := type m; rates := rs; configured := true |}, Z.max pre_color packet_color).

(** ** Serialization *)

(** A double as text. *)
Class DoubleText := { put_double : double → list Z; read_double : list Z → option double }.

Section serialization.
Context `{!DoubleText}.

Definition serialize m : list token :=
  Num (Z.b2z (configured m)) ::
  (if configured m then r ← rates m; [Str (put_double (info_rate r)); Num (burst_size r)] else []).

Definition deserialize_rate (idx : Z) rs (tks : list token) : option (list MeterRate * list token) :=
  '(s, tks) ← get_str tks; d ← read_double s;
  '(b, tks) ← get_num tks;
  '(rs, _) ← set_rate rs idx {| config_info_rate := d; config_burst_size := b |};
  Some (rs, tks).

Definition deserialize m (tks : list token) : option (Meter * list token) :=
  '(c, tks) ← get_num tks;
  if c =? 0 then Some ({| type := type m; rates := rates m; configured := false |}, tks) else
  '(rs, tks) ← for_range 0 (Z.of_nat (length (rates m))) (λ idx '(rs, tks), deserialize_rate idx rs tks) (rates m, tks);
  Some ({| type := type m; rates := rs; configured := true |}, tks).
End serialization.

(** ** Arrays of meters *)

Definition MeterArray : Type := list Meter.

Definition new_array (type : MeterType) (rate_count size : Z) : MeterArray := replicate (Z.to_nat size) (new type rate_count).

Definition get_meter (a : MeterArray) (idx : Z) : option Meter := vget a idx.

Definition execute_meter (a : MeterArray) (idx micros ingress_length pre_color : Z) : option (MeterArray * Z) :=
  m ← get_meter a idx;
  '(m, c) ← execute m micros ingress_length pre_color;
  a ← vset a idx m; Some (a, c).

(** Every meter gets the rates, until one refuses them. *)
Fixpoint set_all_rates (a : MeterArray) (configs : list rate_config_t) : option (MeterArray * MeterErrorCode) :=
  match a with
  | [] => Some ([], SUCCESS)
  | m :: a =>
      '(m, rc) ← set_rates m configs;
      if decide (rc = SUCCESS) then '(a, rc) ← set_all_rates a configs; Some (m :: a, rc) else Some (m :: a, rc)
  end.

Definition reset_array (a : MeterArray) : MeterArray := reset_rates <$> a.
End Meters.
