(* ===== verification/MeterBounds.v ===== *)
(** * What meters let through

    The rounding of doubles is monotone, so the assertion of [execute] holds
    while the clock does not go back; the packets that pass a bucket are bounded
    by its tokens; what setting rates does, and what serialization loses. *)

From Stdlib Require Import Sorted.
From S2P Require Import Prelude TableKeys Meters.

Module MeterBounds.
Import Meters.

(** ** Rounding *)

Lemma round53_small n : 0 ≤ n < 2 ^ 53 → round53 n = n.
Proof.
  intros Hn. unfold round53. rewrite (proj2 (Z.leb_le _ _)); [done|]. destruct (decide (n = 0)) as [->|]; [done|].
  assert (Z.log2 n < 53); [|lia]. by apply Z.log2_lt_pow2; lia.
Qed.

(** Above 53 bits, with the quotient [q] by [2 ^ k]. *)
Lemma round53_big n (k := Z.log2 n - 52) : 0 < k →
  2 ^ Z.log2 n = 2 ^ 52 * 2 ^ k ∧ 2 ^ 52 ≤ n / 2 ^ k < 2 ^ 53 ∧
  (round53 n = n / 2 ^ k * 2 ^ k ∧ n mod 2 ^ k ≤ 2 ^ (k - 1) ∨
   round53 n = (n / 2 ^ k + 1) * 2 ^ k ∧ 2 ^ (k - 1) ≤ n mod 2 ^ k).
Proof.
  intros Hk. assert (0 < n) as Hn. { destruct (Z.lt_ge_cases 0 n); [done|]. unfold k in Hk. rewrite Z.log2_nonpos in Hk by lia. lia. }
  destruct (Z.log2_spec n Hn) as [Hl Hu]. assert (2 ^ Z.log2 n = 2 ^ 52 * 2 ^ k) as Hp by (rewrite <-Z.pow_add_r by lia; f_equal; lia).
  assert (0 < 2 ^ k) as H2k by (apply Z.pow_pos_nonneg; lia). rewrite Z.pow_succ_r in Hu by apply Z.log2_nonneg.
  split; [done|]. split.
  - split; [apply Z.div_le_lower_bound; lia|apply Z.div_lt_upper_bound; lia].
  - unfold round53. fold k. rewrite (proj2 (Z.leb_gt _ _)) by lia.
    destruct (Z.ltb_spec (n mod 2 ^ k) (2 ^ (k - 1))); [left; lia|]. destruct (Z.ltb_spec (2 ^ (k - 1)) (n mod 2 ^ k)); [right; lia|].
    destruct (Z.even _); [left|right]; lia.
Qed.

Lemma round53_mono a b : 0 ≤ a ≤ b → round53 a ≤ round53 b.
Proof.
  intros Hab. set (ka := Z.log2 a - 52). set (kb := Z.log2 b - 52). assert (ka ≤ kb) as Hk by (apply Z.sub_le_mono_r, Z.log2_le_mono; lia).
  assert (∀ n, n ≤ 0 ∨ 2 ^ 53 ≤ n ∨ 0 ≤ n < 2 ^ 53) as Hcase by lia.
  destruct (Z.le_gt_cases ka 0) as [Ha|Ha].
  - assert (0 ≤ a < 2 ^ 53) as Ha53. { split; [lia|]. destruct (decide (a = 0)) as [->|]; [done|]. apply Z.log2_lt_pow2; lia. }
    rewrite (round53_small a) by done. destruct (Z.le_gt_cases kb 0) as [Hb|Hb].
    + rewrite round53_small; [lia|]. split; [lia|]. destruct (decide (b = 0)) as [->|]; [done|]. apply Z.log2_lt_pow2; lia.
    + destruct (round53_big b Hb) as (_ & Hq & Hr). fold kb in Hq, Hr. assert (2 ≤ 2 ^ kb) as H2 by (change 2 with (2 ^ 1) at 1; apply Z.pow_le_mono_r; lia). nia.
  - destruct (round53_big a Ha) as (Hpa & Hqa & Hra). destruct (round53_big b ltac:(lia)) as (Hpb & Hqb & Hrb). fold ka in Hpa, Hqa, Hra. fold kb in Hpb, Hqb, Hrb.
    assert (0 < 2 ^ ka) as H2a by (apply Z.pow_pos_nonneg; lia). destruct (decide (ka = kb)) as [Ek|Ek].
    + rewrite <-Ek in *. assert (a / 2 ^ ka ≤ b / 2 ^ ka) as Hq by (apply Z.div_le_mono; lia).
      destruct (decide (a / 2 ^ ka = b / 2 ^ ka)) as [Eq|]; [|nia].
      assert (a mod 2 ^ ka ≤ b mod 2 ^ ka) as Hm by (rewrite !Z.mod_eq by lia; rewrite Eq; lia).
      unfold round53. fold ka kb. rewrite <-Ek, (proj2 (Z.leb_gt _ _)), <-Eq by lia. apply Z.mul_le_mono_nonneg_r; [lia|].
      repeat case_match; rewrite ?Z.ltb_lt, ?Z.ltb_ge in *; lia.
    + assert (2 * 2 ^ ka ≤ 2 ^ kb) as H2 by (rewrite <-Z.pow_succ_r by lia; apply Z.pow_le_mono_r; lia). nia.
Qed.

Lemma round53_nonneg n : 0 ≤ n → 0 ≤ round53 n.
Proof. intros Hn. change 0 with (round53 0). by apply round53_mono. Qed.

Lemma shiftl_mono a b e : a ≤ b → Z.shiftl a e ≤ Z.shiftl b e.
Proof.
  intros Hab. destruct (Z.le_ge_cases 0 e).
  - rewrite !Z.shiftl_mul_pow2 by done. apply Z.mul_le_mono_nonneg_r; [|done]. apply Z.pow_nonneg. lia.
  - rewrite !Z.shiftl_div_pow2 by lia. apply Z.div_le_mono; [|done]. apply Z.pow_pos_nonneg; lia.
Qed.

(** No tokens are lost as time passes, and if they can be counted later they can be now. *)
Lemma tokens_at_mono d a b t : 0 ≤ mant d → 0 ≤ a ≤ b → tokens_at d b = Some t → ∃ t', tokens_at d a = Some t' ∧ 0 ≤ t' ≤ t.
Proof.
  intros Hd Hab. unfold tokens_at. pose proof (round53_mono a b Hab) as Hr. pose proof (round53_nonneg a ltac:(lia)) as Ha.
  assert (0 ≤ round53 a * mant d ≤ round53 b * mant d) as Hp by nia. rewrite !(proj2 (Z.leb_le _ _)) by lia. cbn [andb].
  pose proof (shiftl_mono _ _ (expo d) (round53_mono _ _ Hp)) as Hs. destruct (Z.ltb_spec (Z.shiftl (round53 (round53 b * mant d)) (expo d)) (2 ^ 64)); [|done].
  intros [= <-]. rewrite (proj2 (Z.ltb_lt _ _)) by lia. eexists. split; [done|]. split; [|done]. apply Z.shiftl_nonneg, round53_nonneg. lia.
Qed.

(** ** Buckets *)

Implicit Types (m : Meter) (r : MeterRate) (rs : list MeterRate).

Record rate_ok r : Prop := {
  rate_mant : 0 ≤ mant (info_rate r);
  rate_tokens : 0 ≤ tokens r ≤ burst_size r;
  rate_burst : burst_size r < 2 ^ 63;
  rate_last : 0 ≤ tokens_last r;
}.

(** The tokens of a bucket can still be counted at time [t], and were counted before. *)
Definition countable (micros : Z) r : Prop := ∃ t, tokens_at (info_rate r) micros = Some t ∧ tokens_last r ≤ t < 2 ^ 63.

(** A bucket that changes only by the tokens it is given, [spent] of which are taken. *)
Record flows (spent : Z) r r' : Prop := {
  flow_rate : info_rate r' = info_rate r;
  flow_burst : burst_size r' = burst_size r;
  flow_color : color r' = color r;
  flow_tokens : tokens r' + spent ≤ tokens r + (tokens_last r' - tokens_last r);
  flow_ok : rate_ok r → rate_ok r';
}.

Lemma flows_refl r : flows 0 r r.
Proof. constructor; try done. lia. Qed.

Lemma flows_trans s1 s2 r1 r2 r3 : flows s1 r1 r2 → flows s2 r2 r3 → flows (s1 + s2) r1 r3.
Proof. intros [] []. constructor; try congruence; [lia|auto]. Qed.

Lemma refill_ok r micros : rate_ok r → countable micros r →
  ∃ r', refill r micros = Some r' ∧ flows 0 r r' ∧ tokens_at (info_rate r) micros = Some (tokens_last r').
Proof.
  intros [Hm Ht Hb Hl] (t & Et & Hlt). unfold refill. rewrite Et. msimpl. rewrite (proj2 (Z.leb_le _ _)) by lia.
  rewrite (wrap_small 64) by lia. eexists. split; [done|]. split; [|done]. constructor; cbn; try done; [lia|]. intros _. constructor; cbn; lia.
Qed.

(** What a packet does to each bucket. *)
Lemma execute_rates_ok rs micros input :
  0 ≤ input → Forall rate_ok rs → Forall (countable micros) rs → StronglySorted (λ r r', color r' < color r) rs → Forall (λ r, 0 < color r) rs →
  ∃ rs' c, execute_rates rs micros input = Some (rs', c) ∧ 0 ≤ c ∧ (c = 0 ∨ ∃ r, r ∈ rs ∧ color r = c) ∧
    Forall2 (λ r r', flows (if c <? color r then input else 0) r r' ∧
      (r' = r ∨ tokens_at (info_rate r) micros = Some (tokens_last r'))) rs rs'.
Proof.
  intros Hi. induction 1 as [|r rs Hr Hrs IH]; cbn [execute_rates]; intros Hc Hs Hpos.
  { exists [], 0. split; [done|]. split; [done|]. split; [by left|constructor]. }
  apply Forall_cons in Hc as [Hcr Hc]. apply Forall_cons in Hpos as [Hpr Hpos]. apply StronglySorted_inv in Hs as [Hs Hlt].
  destruct (refill_ok r micros Hr Hcr) as (r1 & -> & Hf & Et). msimpl. destruct (Z.ltb_spec (tokens r1) input).
  - eexists _, _. split; [done|]. rewrite (flow_color _ _ _ Hf). split; [lia|]. split; [right; exists r; split; [left|done]|].
    constructor; [rewrite Z.ltb_irrefl; split; [done|by right]|].
    clear IH Hrs Hc Hs Hpos. induction Hlt as [|r' rs Hlt _ IH]; constructor; [|done]. rewrite (proj2 (Z.ltb_ge _ _)) by lia.
    split; [apply flows_refl|by left].
  - destruct (IH Hc Hs Hpos) as (rs' & c & -> & Hc0 & Hin & Hall). msimpl. eexists _, c. split; [done|]. split; [done|].
    assert (c < color r) as Hcol. { destruct Hin as [->|(r' & Hr' & <-)]; [done|]. rewrite Forall_forall in Hlt. by apply Hlt. }
    split; [destruct Hin as [|(r' & ? & ?)]; [by left|right; exists r'; split; [by right|done]]|].
    constructor; [|done]. rewrite (proj2 (Z.ltb_lt _ _)) by done. split; [|by right]. destruct Hf as [? ? ? Hft Hfok]. constructor; cbn; try done; [lia|].
    intros Hr'. destruct (Hfok Hr') as [? ? ? ?]. constructor; cbn; lia.
Qed.

(** Of packets, each with the time it comes and its length. *)
Fixpoint run m (ps : list (Z * Z)) : option (Meter * list Z) :=
  match ps with
  | [] => Some (m, [])
  | (micros, len) :: ps => '(m, c) ← execute m micros len 0; '(m, cs) ← run m ps; Some (m, c :: cs)
  end.

(** What the packets that pass a bucket of color [col] take from it. *)
Fixpoint passed m (col : Z) (ps : list (Z * Z)) (cs : list Z) : Z :=
  match ps, cs with
  | (_, len) :: ps, c :: cs => (if c <? col then input_of m len else 0) + passed m col ps cs
  | _, _ => 0
  end.

Record meter_ok m : Prop := {
  meter_configured : configured m = true;
  meter_rates : Forall rate_ok (rates m);
  meter_sorted : StronglySorted (λ r r', color r' < color r) (rates m);
  meter_colors : Forall (λ r, 0 < color r) (rates m);
}.

Lemma StronglySorted_colors rs rs' : Forall2 (λ r r', color r' = color r) rs rs' →
  StronglySorted (λ r r', color r' < color r) rs → StronglySorted (λ r r', color r' < color r) rs'.
Proof.
  induction 1 as [|r r' rs rs' Hr Hrs IH]; [done|]. intros [Hs Hlt]%StronglySorted_inv. constructor; [auto|].
  rewrite Hr. clear -Hrs Hlt. induction Hrs; inversion Hlt; subst; constructor; [lia|auto].
Qed.

Lemma execute_ok m micros len :
  meter_ok m → 0 ≤ len → Forall (countable micros) (rates m) →
  ∃ m' c, execute m micros len 0 = Some (m', c) ∧ meter_ok m' ∧ type m' = type m ∧
    Forall2 (λ r r', flows (if c <? color r then input_of m len else 0) r r' ∧
      (r' = r ∨ tokens_at (info_rate r) micros = Some (tokens_last r'))) (rates m) (rates m').
Proof.
  intros [Hcf Hok Hs Hpos] Hlen Hc. assert (0 ≤ input_of m len) as Hi by (unfold input_of; case_match; lia).
  destruct (execute_rates_ok (rates m) micros (input_of m len) Hi Hok Hc Hs Hpos) as (rs & c & E & Hc0 & _ & Hall).
  unfold execute. rewrite Hcf. cbn [negb]. rewrite E. msimpl. rewrite Z.max_r by done. eexists _, c. split; [done|]. split; [|done]. constructor; cbn.
  - done.
  - clear -Hall Hok. induction Hall as [|r r' rs rs' [Hf _] _ IH]; inversion Hok; subst; constructor; [by apply (flow_ok _ _ _ Hf)|auto].
  - eapply StronglySorted_colors; [|exact Hs]. eapply Forall2_impl; [exact Hall|]. intros r r' [Hf _]. apply (flow_color _ _ _ Hf).
  - clear -Hall Hpos. induction Hall as [|r r' rs rs' [Hf _] _ IH]; inversion Hpos; subst; constructor; [|auto]. by rewrite (flow_color _ _ _ Hf).
Qed.

(** C26: Take a meter as [set_rates] leaves it when it accepts all rates (see set_get_rates):
    it is configured, and the colors of its buckets descend. Let packets come in the order of
    the clock, none with an earlier time than the last one that the meter saw, and let the
    tokens of that time be countable in 63 bits. The meter then colors each packet, and the
    packets with a better color than a bucket's have, together, no more bytes (or packets) than
    the bucket had tokens and got since. After rates that were refused part way the colors
    ascend, and there is no such bound, see ascending_unbounded; two packets at once may come
    in another order than that of the clock, see clock_back. *)
Theorem meter_conforms m ps last :
  meter_ok m → Forall (λ p : Z * Z, 0 ≤ p.1 ≤ last ∧ 0 ≤ p.2) ps → StronglySorted (λ p q : Z * Z, p.1 ≤ q.1) ps →
  Forall (λ r, ∃ t, tokens_at (info_rate r) last = Some t ∧ t < 2 ^ 63 ∧ tokens_last r ≤ t ∧
    ∀ p, p ∈ ps → ∀ t', tokens_at (info_rate r) p.1 = Some t' → tokens_last r ≤ t') (rates m) →
  ∃ m' cs, run m ps = Some (m', cs) ∧ length cs = length ps ∧
    ∀ i r t, rates m !! i = Some r → tokens_at (info_rate r) last = Some t →
      passed m (color r) ps cs ≤ tokens r + (t - tokens_last r).
Proof.
  intros Hm Hps Hs. revert m Hm. induction Hs as [|p ps Hs IH Hle]; intros m Hm Hr; cbn [run].
  { exists m, []. split; [done|]. split; [done|]. intros i r t Hi Ht. cbn. rewrite Forall_lookup in Hr. destruct (Hr i r Hi) as (t' & Et & _ & Hl & _).
    rewrite Ht in Et. injection Et as <-. pose proof (meter_rates m Hm) as Hok. rewrite Forall_lookup in Hok. destruct (Hok i r Hi). lia. }
  apply Forall_cons in Hps as [[Hp Hlen] Hps]. destruct p as [micros len]. cbn [fst snd] in *. rewrite Forall_lookup in Hr.
  pose proof (meter_rates m Hm) as Hok. rewrite Forall_lookup in Hok.
  assert (∀ i r, rates m !! i = Some r → ∃ t', tokens_at (info_rate r) micros = Some t' ∧ 0 ≤ t' < 2 ^ 63 ∧ tokens_last r ≤ t') as Hnow.
  { intros i r Hi. destruct (Hr i r Hi) as (t & Et & Hlt & _ & Hall). destruct (tokens_at_mono _ micros last t (rate_mant r (Hok i r Hi)) Hp Et) as (t' & E' & Ht').
    exists t'. split; [done|]. split; [lia|]. by apply (Hall (micros, len)); [left|]. }
  destruct (execute_ok m micros len Hm Hlen) as (m1 & c & -> & Hm1 & Hty & Hall).
  { apply Forall_lookup. intros i r Hi. destruct (Hnow i r Hi) as (t' & ? & ? & ?). exists t'. split; [done|lia]. }
  msimpl. destruct (IH Hps m1 Hm1) as (m' & cs & -> & Hcs & Hpass).
  { apply Forall_lookup. intros i r' Hi'. destruct (Forall2_lookup_r _ _ _ _ _ Hall Hi') as (r & Hi & Hf & Hor).
    destruct (Hr i r Hi) as (t & Et & Hlt & Hl & Hq). destruct (Hnow i r Hi) as (t' & Et' & Ht' & Hlt'). rewrite (flow_rate _ _ _ Hf). exists t. split; [done|]. split; [done|].
    destruct Hor as [->|Ho]; [split; [done|]; intros q Hqs; apply Hq; by right|]. rewrite Et' in Ho. injection Ho as <-.
    destruct (tokens_at_mono _ micros last t (rate_mant r (Hok i r Hi)) Hp Et) as (t2 & E2 & Ht2). rewrite Et' in E2. injection E2 as <-. split; [lia|].
    intros q Hqs tq Etq. rewrite Forall_forall in Hle. specialize (Hle q Hqs). cbn in Hle.
    destruct (tokens_at_mono _ micros q.1 tq (rate_mant r (Hok i r Hi)) ltac:(lia) Etq) as (t3 & E3 & Ht3). rewrite Et' in E3. injection E3 as <-. lia. }
  msimpl. eexists m', (c :: cs). split; [done|]. split; [cbn; congruence|]. intros i r t Hi Et. cbn [passed].
  destruct (Forall2_lookup_l _ _ _ _ _ Hall Hi) as (r' & Hi' & Hf & _). specialize (Hpass i r' t Hi'). rewrite (flow_rate _ _ _ Hf), (flow_color _ _ _ Hf) in Hpass.
  specialize (Hpass Et). pose proof (flow_tokens _ _ _ Hf). unfold passed in *. fold passed in *.
  replace (passed m1 (color r) ps cs) with (passed m (color r) ps cs) in Hpass; [lia|].
  clear -Hty. revert cs. induction ps as [|[? ?] ps IH]; intros [|? ?]; cbn; try done. unfold input_of. by rewrite Hty, IH.
Qed.

(** ** Setting rates *)

Implicit Types (config : rate_config_t) (configs : list rate_config_t).

Definition slower config config' : Prop := double_gtb (config_info_rate config) (config_info_rate config') = false.

Definition config_of r : rate_config_t := {| config_info_rate := info_rate r; config_burst_size := burst_size r |}.

(** The rates that [set_each] leaves, from position [idx] on. *)
Fixpoint configured_from (idx : Z) configs : list MeterRate :=
  match configs with [] => [] | config :: configs => configure idx config :: configured_from (idx + 1) configs end.

Lemma length_configured idx configs : length (configured_from idx configs) = length configs.
Proof. revert idx. induction configs; intros idx; cbn; [done|by f_equal]. Qed.

Lemma set_each_ok configs : ∀ pre suf, length suf = length configs →
  (∀ r config configs', last pre = Some r → configs = config :: configs' → slower (config_of r) config) →
  Sorted slower configs →
  set_each (pre ++ suf) (Z.of_nat (length pre)) configs = Some (pre ++ configured_from (Z.of_nat (length pre)) configs, SUCCESS).
Proof.
  induction configs as [|config configs IH]; intros pre [|r suf] Hlen Hhd Hs; cbn [length set_each configured_from] in *; try done.
  injection Hlen as Hlen. apply Sorted_inv in Hs as [Hs Hh]. unfold set_rate. rewrite vset_Some by (rewrite length_app; cbn; lia). msimpl.
  rewrite Nat2Z.id, insert_app_r_alt, Nat.sub_diag by lia. cbn [list_insert insert].
  set (r' := configure (Z.of_nat (length pre)) config).
  assert (set_each (pre ++ r' :: suf) (Z.of_nat (length pre) + 1) configs = Some (pre ++ r' :: configured_from (Z.of_nat (length pre) + 1) configs, SUCCESS)) as Hrest.
  { specialize (IH (pre ++ [r']) suf Hlen). rewrite length_app, Nat2Z.inj_add in IH. cbn [length] in IH. rewrite <-!app_assoc in IH. apply IH; [|done].
    intros r0 config' configs' Hl ->. rewrite last_snoc in Hl. injection Hl as <-. by inversion Hh. }
  destruct (Z.ltb_spec 0 (Z.of_nat (length pre))) as [Hp|Hp]; msimpl; [|by rewrite decide_True, Hrest].
  destruct pre as [|r0 pre _] using rev_ind; [done|]. rewrite length_app. cbn [length].
  rewrite vget_nat, lookup_app_l by (rewrite ?length_app; cbn; lia).
  replace (Z.to_nat (Z.of_nat (length pre + 1) - 1)) with (length pre) by lia. rewrite list_lookup_middle by done. msimpl.
  specialize (Hhd r0 config configs (last_snoc _ _) eq_refl). unfold slower in Hhd. cbn in Hhd. rewrite Hhd, decide_True by done.
  rewrite length_app in Hrest. cbn [length] in Hrest. exact Hrest.
Qed.

Lemma configured_ok idx configs : 0 ≤ idx → idx + Z.of_nat (length configs) < 2 ^ 32 - 1 →
  Forall (λ c, 0 ≤ mant (config_info_rate c) ∧ 0 ≤ config_burst_size c < 2 ^ 63) configs →
  Forall rate_ok (configured_from idx configs) ∧ Forall (λ r, idx < color r) (configured_from idx configs) ∧
  StronglySorted (λ r r', color r' < color r) (reverse (configured_from idx configs)) ∧
  config_of <$> configured_from idx configs = configs.
Proof.
  intros Hi Hlt Hc. revert idx Hi Hlt. induction Hc as [|c cs [Hm Hb] _ IH]; intros idx Hi Hlt; cbn [configured_from length] in *; [by repeat constructor|].
  destruct (IH (idx + 1)) as (H1 & H2 & H3 & H4); [lia..|]. assert (color (configure idx c) = idx + 1) as Ec by (cbn; apply wrap_small; lia).
  split; [|split; [|split]].
  - constructor; [|done]. constructor; cbn; lia.
  - constructor; [lia|]. eapply Forall_impl; [exact H2|]. cbn. lia.
  - rewrite reverse_cons. clear -H2 H3 Ec. assert (Forall (λ r, idx + 1 < color r) (reverse (configured_from (idx + 1) cs))) as Hr by by apply Forall_reverse.
    revert H3 Hr. generalize (reverse (configured_from (idx + 1) cs)). clear H2. induction 1 as [|r l Hl IH Hlt]; cbn; intros Hr; [by repeat constructor|].
    apply Forall_cons in Hr as [Hr Hrl]. constructor; [by apply IH|]. apply Forall_app. split; [done|]. constructor; [|done]. lia.
  - cbn [fmap list_fmap]. f_equal; [by destruct c|done].
Qed.

(** Rates that get no lower, one for each bucket, are accepted; reading them
    gives them back, and the meter is ready to run with full buckets. *)
Theorem set_get_rates m configs :
  length configs = length (rates m) → Z.of_nat (length configs) < 2 ^ 32 - 1 → Sorted slower configs →
  Forall (λ c, 0 ≤ mant (config_info_rate c) ∧ 0 ≤ config_burst_size c < 2 ^ 63) configs →
  ∃ m', set_rates m configs = Some (m', SUCCESS) ∧ get_rates m' = configs ∧ meter_ok m' ∧ type m' = type m ∧
    Forall (λ r, tokens r = burst_size r ∧ tokens_last r = 0) (rates m').
Proof.
  intros Hlen Hlt Hs Hc. unfold set_rates. rewrite (proj2 (Z.eqb_eq _ _)) by lia. cbn [negb].
  pose proof (set_each_ok configs [] (rates m) ltac:(done) ltac:(done) Hs) as E. cbn [app length] in E. change (Z.of_nat 0) with 0 in E.
  rewrite E. msimpl. rewrite decide_True by done. destruct (configured_ok 0 configs ltac:(done) ltac:(lia) Hc) as (H1 & H2 & H3 & H4).
  eexists. split; [done|]. split; [|split; [|split; [done|]]].
  - unfold get_rates. cbn [configured rates]. rewrite fmap_reverse, reverse_involutive. exact H4.
  - constructor; cbn; [done| |done|]; by apply Forall_reverse.
  - cbn [rates]. apply Forall_reverse. assert (∀ z, Forall (λ r, tokens r = burst_size r ∧ tokens_last r = 0) (configured_from z configs)) as Hall; [|apply Hall]. clear. induction configs; intros z; cbn [configured_from]; constructor; auto.
Qed.
End MeterBounds.

(** ** Examples *)
Module MeterExamples.
Import Meters MeterBounds.

(** One and two tokens in a microsecond, from 100 and 200. *)
Definition one : double := {| mant := 1; expo := 0 |}.
Definition two : double := {| mant := 1; expo := 1 |}.
Definition configs2 : list rate_config_t :=
  [{| config_info_rate := one; config_burst_size := 100 |}; {| config_info_rate := two; config_burst_size := 200 |}].

Lemma set_get_rates_witness : ∃ m', set_rates (new BYTES 2) configs2 = Some (m', SUCCESS) ∧ get_rates m' = configs2.
Proof.
  destruct (set_get_rates (new BYTES 2) configs2) as (m' & E & Eg & _).
  - reflexivity.
  - vm_compute. reflexivity.
  - repeat constructor.
  - repeat constructor; cbn; lia.
  - exists m'. split; [exact E|exact Eg].
Defined.

Definition meter2 : Meter := {| type := BYTES; rates := reverse (configured_from 0 configs2); configured := true |}.

Lemma meter2_set : fst <$> set_rates (new BYTES 2) configs2 = Some meter2.
Proof. vm_compute. reflexivity. Qed.

Lemma meter2_ok : meter_ok meter2.
Proof. constructor; cbn; repeat constructor; cbn; lia. Qed.

(** Green, then yellow, then red; and green again after a while. *)
Definition traffic : list (Z * Z) := [(0, 90); (5, 90); (6, 90); (200, 90)].

Lemma meter_conforms_witness : ∃ m' cs, run meter2 traffic = Some (m', cs) ∧ cs = [0; 1; 2; 0] ∧ passed meter2 1 traffic cs ≤ 100 + 200.
Proof.
  destruct (meter_conforms meter2 traffic 200 meter2_ok) as (m' & cs & E & _ & Hp).
  - repeat constructor; cbn; lia.
  - repeat constructor; cbn; lia.
  - repeat constructor.
    + exists 400. split; [reflexivity|]. split; [lia|]. split; [cbn; lia|]. intros p _ t' E. unfold tokens_at in E. repeat case_match; try discriminate E. injection E as <-.
      apply andb_true_iff in H as [Hp _]. apply Z.leb_le in Hp. apply Z.shiftl_nonneg, round53_nonneg. exact Hp.
    + exists 200. split; [reflexivity|]. split; [lia|]. split; [cbn; lia|]. intros p _ t' E. unfold tokens_at in E. repeat case_match; try discriminate E. injection E as <-.
      apply andb_true_iff in H as [Hp _]. apply Z.leb_le in Hp. apply Z.shiftl_nonneg, round53_nonneg. exact Hp.
  - exists m', cs. split; [exact E|]. split; [|exact (Hp 1%nat (configure 0 (Build_rate_config_t one 100)) 200 eq_refl eq_refl)].
    assert (snd <$> run meter2 traffic = Some [0; 1; 2; 0]) as Ec by (vm_compute; reflexivity). rewrite E in Ec. injection Ec as ->. reflexivity.
Defined.

Instance text_pair : DoubleText := {|
  put_double d := [mant d; expo d];
  read_double s := match s with [m; e] => Some {| mant := m; expo := e |} | _ => None end |}.

(** A meter read back from what was written of it gives the colors of its
    buckets the other way around: what should be yellow is red, and the other
    way around. *)
Theorem deserialized_colors :
  ('(m, _) ← deserialize (new BYTES 2) (serialize meter2);
   '(_, cs) ← run m [(0, 90); (0, 90); (0, 90)]; Some cs) = Some [0; 2; 1] ∧
  snd <$> run meter2 [(0, 90); (0, 90); (0, 90)] = Some [0; 1; 2].
Proof. split; vm_compute; reflexivity. Qed.

(** Rates that are refused still replace those of a running meter, the other
    way around: the meter goes on with them. *)
Theorem refused_rates :
  ('(m, rc) ← set_rates meter2 (reverse configs2);
   '(_, cs) ← run m [(0, 190); (0, 90)]; Some (rc, configured m, color <$> rates m, cs))
  = Some (INVALID_INFO_RATE_VALUE, true, [1; 2], [2; 1]).
Proof. vm_compute. reflexivity. Qed.

(** The bound is then lost: packets of color 1 take nothing
    from the bucket of color 2, which has 100 tokens. *)
Theorem ascending_unbounded :
  ('(m, _) ← set_rates meter2 (reverse configs2);
   let ps := [(0, 90); (0, 90); (0, 90); (0, 90)] in
   '(_, cs) ← run m ps; Some (cs, (λ r, (color r, tokens r)) <$> rates m, passed m 2 ps cs)) = Some ([0; 2; 1; 1], [(1, 200); (2, 100)], 270).
Proof. vm_compute. reflexivity. Qed.

(** The clock is read before the meter is locked: of two packets at once the one
    that read the clock first may come second, and fails the assertion. *)
Theorem clock_back : run meter2 [(6, 90); (5, 90)] = None.
Proof. vm_compute. reflexivity. Qed.
End MeterExamples.
