(* ===== verification/MatchTables.v ===== *)
(** * Match tables (include/bm/bm_sim/match_tables.h, src/bm_sim/match_tables.cpp)

    A table is a match unit with what follows each of its actions in the control
    flow. The values of the unit are actions for [MatchTable], indices of an
    action profile for [MatchTableIndirect] and [MatchTableIndirectWS], which
    are one record here. Nodes of the control flow are ids, the null pointer is
    [None]. An operation is one step: the locks make it so, except for what
    [MatchTable::set_default_action] does before it takes the lock. The textual
    dumps are left out. *)

From stdpp Require Import gmap.
From S2P Require Import Prelude HandleMgr Ras ByteContainer Data Fields Headers Phv Crc Cksum Calculations.
From S2P Require Import MatchKeyTypes LookupStructures MatchKey TableKeys Counters MatchUnit.
From S2P Require Import Expressions ErrorCodes Parser Actions ActionProfile Meters.

Module MatchTables.
Import ActionProfile.

Abbreviation Node := (option Z).

(** What [MatchTableAbstract] knows of the control flow, and its options. *)
Record Flow := {
  with_counters : bool;
  with_ageing : bool;
  next_nodes : gmap Z Node;
  next_node_hit : Node;
  next_node_miss : Node;
  has_next_node_hit : bool;
  has_next_node_miss : bool;
  next_node_miss_default : Node;
}.

Definition new_flow (counters ageing : bool) : Flow :=
  {| with_counters := counters; with_ageing := ageing; next_nodes := ∅; next_node_hit := None; next_node_miss := None;
     has_next_node_hit := false; has_next_node_miss := false; next_node_miss_default := None |}.

Implicit Types (c : Flow) (id : Z) (node : Node).

Definition set_next_node c id node : Flow :=
  {| with_counters := with_counters c; with_ageing := with_ageing c; next_nodes := <[id := node]> (next_nodes c);
     next_node_hit := next_node_hit c; next_node_miss := next_node_miss c; has_next_node_hit := has_next_node_hit c;
     has_next_node_miss := has_next_node_miss c; next_node_miss_default := next_node_miss_default c |}.
Definition set_next_node_hit c node : Flow :=
  {| with_counters := with_counters c; with_ageing := with_ageing c; next_nodes := next_nodes c;
     next_node_hit := node; next_node_miss := next_node_miss c; has_next_node_hit := true;
     has_next_node_miss := has_next_node_miss c; next_node_miss_default := next_node_miss_default c |}.
Definition set_next_node_miss c node : Flow :=
  {| with_counters := with_counters c; with_ageing := with_ageing c; next_nodes := next_nodes c;
     next_node_hit := next_node_hit c; next_node_miss := node; has_next_node_hit := has_next_node_hit c;
     has_next_node_miss := true; next_node_miss_default := node |}.
Definition set_next_node_miss_default c node : Flow :=
  if has_next_node_miss c then c else
  {| with_counters := with_counters c; with_ageing := with_ageing c; next_nodes := next_nodes c;
     next_node_hit := next_node_hit c; next_node_miss := node; has_next_node_hit := has_next_node_hit c;
     has_next_node_miss := has_next_node_miss c; next_node_miss_default := node |}.
Definition with_miss c node : Flow :=
  {| with_counters := with_counters c; with_ageing := with_ageing c; next_nodes := next_nodes c;
     next_node_hit := next_node_hit c; next_node_miss := node; has_next_node_hit := has_next_node_hit c;
     has_next_node_miss := has_next_node_miss c; next_node_miss_default := next_node_miss_default c |}.

(** [at] fails for an action that the table does not have. *)
Definition get_next_node c id : option Node := if has_next_node_hit c then Some (next_node_hit c) else next_nodes c !! id.
Definition get_next_node_default c id : option Node := if has_next_node_miss c then Some (next_node_miss c) else next_nodes c !! id.

(** Direct meters, and the field that gets the color. *)
Record DirectMeters := { meter_array : Meters.MeterArray; meter_target_header : Z; meter_target_offset : Z }.

(** [MatchTableAbstract], for values of type [V]. *)
Record Base (K V L J : Type) := {
  flow : Flow;
  match_unit : MatchUnit.Mu K V L J;
  direct_meters : option DirectMeters;
}.
Arguments flow {K V L J} _.
Arguments match_unit {K V L J} _.
Arguments direct_meters {K V L J} _.

Section base.
Context {K V L J : Type} `{!TableKey K, !LookupStructure K L, !Judy1 J}.
Abbreviation MatchTableAbstract := (Base K V L J).
Implicit Types (b : Base K V L J) (handle : Z).

Definition with_flow b (c : Flow) : MatchTableAbstract := {| flow := c; match_unit := match_unit b; direct_meters := direct_meters b |}.
Definition with_unit b (mu : MatchUnit.Mu K V L J) : MatchTableAbstract := {| flow := flow b; match_unit := mu; direct_meters := direct_meters b |}.
Definition with_meters b (ms : option DirectMeters) : MatchTableAbstract := {| flow := flow b; match_unit := match_unit b; direct_meters := ms |}.

(** The array has a meter for each entry. *)
Definition set_direct_meters b (ms : DirectMeters) : option MatchTableAbstract :=
  if MatchUnit.size (match_unit b) =? Z.of_nat (length (meter_array ms)) then Some (with_meters b (Some ms)) else None.

Definition is_valid_handle b handle : bool := MatchUnit.valid_handle (match_unit b) handle.

(** Only the slot of the handle is checked, not its version. *)
Definition query_counters b handle : option (Outcome (Z * Z)) :=
  if negb (with_counters (flow b)) then Some (Err COUNTERS_DISABLED) else
  if negb (is_valid_handle b handle) then Some (Err INVALID_HANDLE) else
  meta ← MatchUnit.get_entry_meta (match_unit b) handle;
  Some (Ok (Counters.query_counter (MatchUnit.counter meta))).

Definition reset_counters b : MatchTableAbstract * MatchErrorCode :=
  if negb (with_counters (flow b)) then (b, COUNTERS_DISABLED) else
  (with_unit b (MatchUnit.reset_counters (match_unit b)), SUCCESS).

Definition write_counters b handle (bytes packets : Z) : option (MatchTableAbstract * MatchErrorCode) :=
  if negb (with_counters (flow b)) then Some (b, COUNTERS_DISABLED) else
  if negb (is_valid_handle b handle) then Some (b, INVALID_HANDLE) else
  ms ← vupd (MatchUnit.entry_meta (match_unit b)) (MatchUnit.HANDLE_INTERNAL handle) (λ e,
    {| MatchUnit.ts := MatchUnit.ts e; MatchUnit.timeout_ms := MatchUnit.timeout_ms e;
       MatchUnit.counter := Counters.write_counter (MatchUnit.counter e) bytes packets; MatchUnit.meta_version := MatchUnit.meta_version e |});
  Some (with_unit b (MatchUnit.with_meta (match_unit b) ms), SUCCESS).

Definition set_meter_rates b handle (configs : list Meters.rate_config_t) : option (MatchTableAbstract * MatchErrorCode) :=
  match direct_meters b with
  | None => Some (b, METERS_DISABLED)
  | Some ms =>
      if negb (is_valid_handle b handle) then Some (b, INVALID_HANDLE) else
      m ← Meters.get_meter (meter_array ms) (MatchUnit.HANDLE_INTERNAL handle);
      '(m, rc) ← Meters.set_rates m configs;
      a ← vset (meter_array ms) (MatchUnit.HANDLE_INTERNAL handle) m;
      Some (with_meters b (Some {| meter_array := a; meter_target_header := meter_target_header ms; meter_target_offset := meter_target_offset ms |}),
            if decide (rc = Meters.SUCCESS) then SUCCESS else ERROR)
  end.

Definition get_meter_rates b handle : option (Outcome (list Meters.rate_config_t)) :=
  match direct_meters b with
  | None => Some (Err METERS_DISABLED)
  | Some ms =>
      if negb (is_valid_handle b handle) then Some (Err INVALID_HANDLE) else
      m ← Meters.get_meter (meter_array ms) (MatchUnit.HANDLE_INTERNAL handle);
      Some (Ok (Meters.get_rates m))
  end.

Definition set_entry_ttl b handle (ttl_ms now : Z) : option (MatchTableAbstract * MatchErrorCode) :=
  if negb (with_ageing (flow b)) then Some (b, AGEING_DISABLED) else
  '(mu, rc) ← MatchUnit.set_entry_ttl (match_unit b) handle ttl_ms now;
  Some (with_unit b mu, rc).

Definition sweep_entries b (fuel : nat) (now_ms : Z) : option (list Z) := MatchUnit.sweep_entries (match_unit b) fuel now_ms.

(** The timeout of an entry and the time since its last hit; not set without ageing. *)
Definition set_entry_common_info b handle (now_ms : Z) : option (Z * Z) :=
  if negb (with_ageing (flow b)) then Some (0, 0) else
  meta ← MatchUnit.get_entry_meta (match_unit b) handle;
  Some (MatchUnit.timeout_ms meta, u32 (now_ms - MatchUnit.ts meta)).

(** The entry of a handle, with [read] of its value. *)
Record EntryInfo (A : Type) := { handle : Z; match_key : list MatchKey.MatchKeyParam; info : A; entry_priority : Z; timeout_ms : Z; time_since_hit_ms : Z }.

Definition get_entry_ {A} (read : V → option A) b handle (now_ms : Z) : option (Outcome (EntryInfo A)) :=
  r ← MatchUnit.get_entry_ (match_unit b) handle;
  match r with
  | Err e => Some (Err e)
  | Ok (params, v, priority) =>
      x ← read v;
      '(timeout, since) ← set_entry_common_info b handle now_ms;
      Some (Ok {| handle := handle; match_key := params; info := x; entry_priority := priority; timeout_ms := timeout; time_since_hit_ms := since |})
  end.

Definition get_entry_from_key {A} (read : V → option A) b params (priority now_ms : Z) : option (Outcome (EntryInfo A)) :=
  r ← MatchUnit.retrieve_handle_ (match_unit b) params priority;
  match r with
  | Err e => Some (Err e)
  | Ok handle => get_entry_ read b handle now_ms
  end.

(** The handles that the iterators of the unit give, with their versions. *)
Definition unit_handles b : option (list Z) :=
  hs ← HandleMgr.iterate (S (Z.to_nat (MatchUnit.num_entries (match_unit b)))) (MatchUnit.handles (match_unit b));
  mapM (λ h, e ← vget (MatchUnit.entry_meta (match_unit b)) h; Some (MatchUnit.HANDLE_SET (MatchUnit.meta_version e) h)) hs.

Definition get_entries {A} (read : V → option A) b (now_ms : Z) : option (list (EntryInfo A)) :=
  hs ← unit_handles b;
  mapM (λ h, r ← get_entry_ read b h now_ms; match r with Ok e => Some e | Err _ => None end) hs.

(** What a lookup finds. *)
Definition unit_lookup b (phv : Phv.PHV) (ingress_length ingress_ts_ms : Z) : option (MatchTableAbstract * option (Z * V)) :=
  '(mu, r) ← MatchUnit.lookup_pkt (match_unit b) phv ingress_length ingress_ts_ms;
  Some (with_unit b mu, r).

(** The direct meter of an entry that was hit. *)
Definition execute_direct_meter `{Gmp} b handle (phv : Phv.PHV) (micros ingress_length : Z) : option (MatchTableAbstract * Phv.PHV) :=
  match direct_meters b with
  | None => Some (b, phv)
  | Some ms =>
      let f := {| Parser.f_header := meter_target_header ms; Parser.f_offset := meter_target_offset ms |} in
      target_f ← Parser.get_field phv f;
      '(a, color) ← Meters.execute_meter (meter_array ms) (MatchUnit.HANDLE_INTERNAL handle) micros ingress_length 0;
      target_f ← Fields.set target_f color;
      phv ← Parser.set_field phv f target_f;
      Some (with_meters b (Some {| meter_array := a; meter_target_header := meter_target_header ms; meter_target_offset := meter_target_offset ms |}), phv)
  end.
End base.
Arguments handle {A} _.
Arguments match_key {A} _.
Arguments info {A} _.

(** The state of the processing of a packet: headers and the rest that actions work on, and the index of the entry hit. *)
Definition INVALID_ENTRY_INDEX : Z := 2 ^ 64 - 1.

(** ** Tables with actions *)

Record MatchTable (K L J : Type) := {
  base : Base K ActionEntry L J;
  default_entry : ActionEntry;
  const_default_action : option Z;       (** the id of an action *)
  const_default_entry : bool;
  immutable_entries : bool;
}.
Arguments base {K L J} _.
Arguments default_entry {K L J} _.
Arguments const_default_action {K L J} _.
Arguments const_default_entry {K L J} _.
Arguments immutable_entries {K L J} _.

Section simple.
Context {K L J : Type} `{!TableKey K, !LookupStructure K L, !Judy1 J}.
Implicit Types (t : MatchTable K L J) (f : Actions.ActionFn) (ad : Actions.ActionData).

Definition new_table (b : Base K ActionEntry L J) : MatchTable K L J :=
  {| base := b; default_entry := new_entry; const_default_action := None; const_default_entry := false; immutable_entries := false |}.

Definition with_base t (b : Base K ActionEntry L J) : MatchTable K L J :=
  {| base := b; default_entry := default_entry t; const_default_action := const_default_action t;
     const_default_entry := const_default_entry t; immutable_entries := immutable_entries t |}.
Definition with_default t (e : ActionEntry) : MatchTable K L J :=
  {| base := base t; default_entry := e; const_default_action := const_default_action t;
     const_default_entry := const_default_entry t; immutable_entries := immutable_entries t |}.

Definition entry_for f ad node : ActionEntry :=
  {| action_fn := {| Actions.action_fn := Some f; Actions.action_data := ad |}; next_node := node |}.

Definition add_entry t (params : list MatchKey.MatchKeyParam) f ad (priority now : Z) : option (MatchTable K L J * Outcome Z) :=
  if immutable_entries t then Some (t, Err IMMUTABLE_TABLE_ENTRIES) else
  if negb (data_fits f ad) then Some (t, Err BAD_ACTION_DATA) else
  node ← get_next_node (flow (base t)) (Actions.id f);
  '(mu, r) ← MatchUnit.add_entry (match_unit (base t)) params (entry_for f ad node) priority now;
  Some (with_base t (with_unit (base t) mu), r).

Definition delete_entry t handle : option (MatchTable K L J * MatchErrorCode) :=
  if immutable_entries t then Some (t, IMMUTABLE_TABLE_ENTRIES) else
  '(mu, rc) ← MatchUnit.delete_entry_ (match_unit (base t)) handle;
  Some (with_base t (with_unit (base t) mu), rc).

Definition modify_entry t handle f ad : option (MatchTable K L J * MatchErrorCode) :=
  if immutable_entries t then Some (t, IMMUTABLE_TABLE_ENTRIES) else
  if negb (data_fits f ad) then Some (t, BAD_ACTION_DATA) else
  node ← get_next_node (flow (base t)) (Actions.id f);
  '(mu, rc) ← MatchUnit.modify_entry_ (match_unit (base t)) handle (entry_for f ad node);
  Some (with_base t (with_unit (base t) mu), rc).

Definition set_default_action t f ad : option (MatchTable K L J * MatchErrorCode) :=
  if const_default_entry t then Some (t, DEFAULT_ENTRY_IS_CONST) else
  if match const_default_action t with Some i => negb (i =? Actions.id f) | None => false end then Some (t, DEFAULT_ACTION_IS_CONST) else
  if negb (data_fits f ad) then Some (t, BAD_ACTION_DATA) else
  node ← get_next_node_default (flow (base t)) (Actions.id f);
  Some (with_default (with_base t (with_flow (base t) (with_miss (flow (base t)) node))) (entry_for f ad node), SUCCESS).

Definition set_const_default_action_fn t f : option (MatchTable K L J) :=
  match const_default_action t with
  | Some _ => None
  | None => Some {| base := base t; default_entry := default_entry t; const_default_action := Some (Actions.id f);
                    const_default_entry := const_default_entry t; immutable_entries := immutable_entries t |}
  end.

Definition set_default_entry t f ad (is_const : bool) : option (MatchTable K L J) :=
  if const_default_entry t then None else
  '(t, rc) ← set_default_action t f ad;
  if decide (rc = SUCCESS) then
    Some {| base := base t; default_entry := default_entry t; const_default_action := const_default_action t;
            const_default_entry := is_const; immutable_entries := immutable_entries t |}
  else None.

Definition set_immutable_entries t : MatchTable K L J :=
  {| base := base t; default_entry := default_entry t; const_default_action := const_default_action t;
     const_default_entry := const_default_entry t; immutable_entries := true |}.

Definition read_action (e : ActionEntry) : option (option Actions.ActionFn * Actions.ActionData) :=
  Some (Actions.action_fn (action_fn e), Actions.action_data (action_fn e)).

Definition get_entry t handle (now_ms : Z) := get_entry_ read_action (base t) handle now_ms.

Definition get_default_entry t : Outcome (Actions.ActionFn * Actions.ActionData) :=
  match Actions.action_fn (action_fn (default_entry t)) with
  | None => Err NO_DEFAULT_ENTRY
  | Some f => Ok (f, Actions.action_data (action_fn (default_entry t)))
  end.

(** The entry hit, if one is, and the action that follows. *)
Definition lookup t (phv : Phv.PHV) (ingress_length ingress_ts_ms : Z) : option (MatchTable K L J * option Z * ActionEntry) :=
  '(b, r) ← unit_lookup (base t) phv ingress_length ingress_ts_ms;
  Some (with_base t b, fst <$> r, match r with Some (_, e) => e | None => default_entry t end).

Definition reset_state t : option (MatchTable K L J) :=
  mu ← MatchUnit.reset_state new_entry (match_unit (base t)); Some (with_base t (with_unit (base t) mu)).
End simple.

(** ** Execution *)
Section apply.
Context {K L J X : Type} `{!TableKey K, !LookupStructure K L, !Judy1 J, !Gmp, !GmpSize, !GmpInt}.
Context (target_execute : Z → Actions.ActionFn → Actions.ActionData → list Actions.ActionParam → Actions.State (X := X) → option (Actions.State (X := X))).
Context (target_jump : Z → Actions.State (X := X) → Z → Z).

(** The rest of [apply_action] once an entry was looked up: the index that the
    packet gets, what the action does, and the next node. *)
Definition run_entry {V} (fuel : nat) (b : Base K V L J) (hit : option Z) (e : ActionEntry) (st : Actions.State (X := X)) (micros ingress_length : Z)
    : option (Base K V L J * Z * Actions.Ran (X := X) * Node) :=
  let index := match hit with Some h => Z.land h 0x00ffffff | None => INVALID_ENTRY_INDEX end in
  '(b, phv) ← match hit with
              | Some h => execute_direct_meter b h (Actions.phv st) micros ingress_length
              | None => Some (b, Actions.phv st)
              end;
  Some (b, index, Actions.execute target_execute target_jump fuel (action_fn e) (Actions.with_phv st phv),
        match hit with Some _ => next_node e | None => next_node_miss (flow b) end).

Definition apply_action (fuel : nat) (t : MatchTable K L J) (st : Actions.State (X := X)) (micros ingress_length ingress_ts_ms : Z)
    : option (MatchTable K L J * Z * Actions.Ran (X := X) * Node) :=
  '(t, hit, e) ← lookup t (Actions.phv st) ingress_length ingress_ts_ms;
  '(b, index, ran, node) ← run_entry fuel (base t) hit e st micros ingress_length;
  Some (with_base t b, index, ran, node).
End apply.

(** ** Tables with members and groups *)

(** [MatchTableIndirect] and [MatchTableIndirectWS]. The profile is shared by
    tables: operations take it and give it back. *)
Record MatchTableIndirect (K L J : Type) := {
  ibase : Base K IndirectIndex L J;
  default_index : IndirectIndex;
  default_set : bool;
}.
Arguments ibase {K L J} _.
Arguments default_index {K L J} _.
Arguments default_set {K L J} _.

Section indirect.
Context {K L J S : Type} `{!TableKey K, !LookupStructure K L, !Judy1 J, !Judy1Count J, !GroupSelection S}.
Implicit Types (t : MatchTableIndirect K L J) (a : Profile J S) (index : IndirectIndex).
Abbreviation Table := (MatchTableIndirect K L J).

Definition new_indirect (b : Base K IndirectIndex L J) : Table := {| ibase := b; default_index := 0; default_set := false |}.
Definition with_ibase t (b : Base K IndirectIndex L J) : Table := {| ibase := b; default_index := default_index t; default_set := default_set t |}.
Definition with_iunit t (mu : MatchUnit.Mu K IndirectIndex L J) : Table := with_ibase t (with_unit (ibase t) mu).

(** An entry for a valid index: it is counted before the unit is asked. *)
Definition add_index t a params index (priority now : Z) : option (Table * Profile J S * Outcome Z) :=
  a ← ref_count_increase a index;
  '(mu, r) ← MatchUnit.add_entry (match_unit (ibase t)) params index priority now;
  Some (with_iunit t mu, a, r).

Definition add_entry_mbr t a params mbr (priority now : Z) : option (Table * Profile J S * Outcome Z) :=
  if negb (is_valid_mbr a mbr) then Some (t, a, Err INVALID_MBR_HANDLE) else
  index ← make_mbr_index mbr; add_index t a params index priority now.

Definition add_entry_ws t a params grp (priority now : Z) : option (Table * Profile J S * Outcome Z) :=
  if negb (is_valid_grp a grp) then Some (t, a, Err INVALID_GRP_HANDLE) else
  empty ← group_is_empty a grp;
  if (empty : bool) then Some (t, a, Err EMPTY_GRP) else
  index ← make_grp_index grp; add_index t a params index priority now.

Definition delete_entry_indirect t a handle : option (Table * Profile J S * MatchErrorCode) :=
  r ← MatchUnit.get_value_ (match_unit (ibase t)) handle;
  match r with
  | Err e => Some (t, a, e)
  | Ok index =>
      a ← ref_count_decrease a index;
      '(mu, rc) ← MatchUnit.delete_entry_ (match_unit (ibase t)) handle;
      Some (with_iunit t mu, a, rc)
  end.

(** The old index is no longer counted, even when the new one, [fresh], is refused. *)
Definition modify_index t a handle (fresh : Profile J S → option (Outcome IndirectIndex)) : option (Table * Profile J S * MatchErrorCode) :=
  r ← MatchUnit.get_value_ (match_unit (ibase t)) handle;
  match r with
  | Err e => Some (t, a, e)
  | Ok index =>
      a ← ref_count_decrease a index;
      new ← fresh a;
      match new with
      | Err e => Some (t, a, e)
      | Ok new_index =>
          a ← ref_count_increase a new_index;
          '(mu, rc) ← MatchUnit.modify_entry_ (match_unit (ibase t)) handle new_index;
          Some (with_iunit t mu, a, rc)
      end
  end.

Definition fresh_mbr mbr a : option (Outcome IndirectIndex) :=
  if negb (is_valid_mbr a mbr) then Some (Err INVALID_MBR_HANDLE) else index ← make_mbr_index mbr; Some (Ok index).

Definition fresh_grp grp a : option (Outcome IndirectIndex) :=
  if negb (is_valid_grp a grp) then Some (Err INVALID_GRP_HANDLE) else
  empty ← group_is_empty a grp;
  if (empty : bool) then Some (Err EMPTY_GRP) else index ← make_grp_index grp; Some (Ok index).

Definition modify_entry_mbr t a handle mbr := modify_index t a handle (fresh_mbr mbr).
Definition modify_entry_ws t a handle grp := modify_index t a handle (fresh_grp grp).

(** The default index is not counted. *)
Definition set_default_member t a mbr : option (Table * MatchErrorCode) :=
  if negb (is_valid_mbr a mbr) then Some (t, INVALID_MBR_HANDLE) else
  index ← make_mbr_index mbr; Some ({| ibase := ibase t; default_index := index; default_set := true |}, SUCCESS).

Definition set_default_group t a grp : option (Table * MatchErrorCode) :=
  if negb (is_valid_grp a grp) then Some (t, INVALID_GRP_HANDLE) else
  index ← make_grp_index grp; Some ({| ibase := ibase t; default_index := index; default_set := true |}, SUCCESS).

(** The entry of a [MatchTableIndirect] has to be a member; that of a
    [MatchTableIndirectWS] gives one of the two and the greatest value for the other. *)
Definition read_mbr index : option Z := get_mbr index.
Definition read_mbr_grp index : option (Z * Z) :=
  if is_mbr index then mbr ← get_mbr index; Some (mbr, 2 ^ 32 - 1)
  else grp ← get_grp index; Some (2 ^ 32 - 1, grp).

Definition get_entry_indirect t handle (now_ms : Z) := get_entry_ read_mbr (ibase t) handle now_ms.
Definition get_entry_ws t handle (now_ms : Z) := get_entry_ read_mbr_grp (ibase t) handle now_ms.

Definition get_default_entry_indirect t : option (Outcome Z) :=
  if negb (default_set t) then Some (Err NO_DEFAULT_ENTRY) else mbr ← get_mbr (default_index t); Some (Ok mbr).
Definition get_default_entry_ws t : option (Outcome (Z * Z)) :=
  if negb (default_set t) then Some (Err NO_DEFAULT_ENTRY) else x ← read_mbr_grp (default_index t); Some (Ok x).

(** The entry of the profile gets the node that follows its action in this table. *)
Definition lookup_index `{Gmp} (XXH64 : list Z → Z) t a index (phv : Phv.PHV) (data : list Z) : option (Profile J S * ActionEntry) :=
  mbr ← lookup_member XXH64 a phv data index;
  e ← vget (action_entries a) mbr;
  node ← get_next_node (flow (ibase t)) (Actions.get_action_id (action_fn e));
  let e := {| action_fn := action_fn e; next_node := node |} in
  es ← vset (action_entries a) mbr e;
  Some (with_entries a es, e).

Definition lookup_indirect `{Gmp} (XXH64 : list Z → Z) t a (phv : Phv.PHV) (data : list Z) (ingress_length ingress_ts_ms : Z)
    : option (Table * Profile J S * option Z * ActionEntry) :=
  '(b, r) ← unit_lookup (ibase t) phv ingress_length ingress_ts_ms;
  let t := with_ibase t b in
  match r with
  | Some (h, index) => '(a, e) ← lookup_index XXH64 t a index phv data; Some (t, a, Some h, e)
  | None =>
      if default_set t then '(a, e) ← lookup_index XXH64 t a (default_index t) phv data; Some (t, a, None, e)
      else Some (t, a, None, new_entry)
  end.

(** The entries go, but what they use of the profile stays counted. *)
Definition reset_state_indirect t : option Table := mu ← MatchUnit.reset_state 0 (match_unit (ibase t)); Some (with_iunit t mu).

Context {X : Type} `{!Gmp, !GmpSize, !GmpInt}.
Context (target_execute : Z → Actions.ActionFn → Actions.ActionData → list Actions.ActionParam → Actions.State (X := X) → option (Actions.State (X := X))).
Context (target_jump : Z → Actions.State (X := X) → Z → Z).

Definition apply_action_indirect (XXH64 : list Z → Z) (fuel : nat) t a (st : Actions.State (X := X)) (data : list Z) (micros ingress_length ingress_ts_ms : Z)
    : option (Table * Profile J S * Z * Actions.Ran (X := X) * Node) :=
  '(t, a, hit, e) ← lookup_indirect XXH64 t a (Actions.phv st) data ingress_length ingress_ts_ms;
  '(b, index, ran, node) ← run_entry target_execute target_jump fuel (ibase t) hit e st micros ingress_length;
  Some (with_ibase t b, a, index, ran, node).
End indirect.

(** ** Serialization *)
Section serialization.
Context {K L J : Type} `{!TableKey K, !LookupStructure K L, !Judy1 J, !Gmp, !Meters.DoubleText}.
Context (get_action_by_id : Z → option Actions.ActionFn) (node_name : Z → list Z) (get_control_node : list Z → option Z).

Definition put_node node : token := Str (match node with None => null_name | Some n => node_name n end).

(** A node that is not written is left as it is. *)
Definition read_node node (tks : list token) : option (Node * list token) :=
  '(s, tks) ← get_str tks;
  if decide (s = null_name) then Some (node, tks) else n ← get_control_node s; Some (Some n, tks).

Definition serialize_unit {V} (put : V → option (list token)) (b : Base K V L J) : option (list token) :=
  ts ← MatchUnit.serialize_ put (match_unit b) (Datatypes.S (Z.to_nat (MatchUnit.num_entries (match_unit b))));
  Some (ts ++ match direct_meters b with Some ms => concat (Meters.serialize <$> meter_array ms) | None => [] end).

Fixpoint deserialize_meters (a : Meters.MeterArray) (tks : list token) : option (Meters.MeterArray * list token) :=
  match a with
  | [] => Some ([], tks)
  | m :: a => '(m, tks) ← Meters.deserialize m tks; '(a, tks) ← deserialize_meters a tks; Some (m :: a, tks)
  end.

Definition deserialize_unit {V} (get : list token → option (V * list token)) (b : Base K V L J) (now : Z) (tks : list token) : option (Base K V L J * list token) :=
  '(mu, tks) ← MatchUnit.deserialize_ get (match_unit b) now tks;
  let b := with_unit b mu in
  match direct_meters b with
  | None => Some (b, tks)
  | Some ms =>
      '(a, tks) ← deserialize_meters (meter_array ms) tks;
      Some (with_meters b (Some {| meter_array := a; meter_target_header := meter_target_header ms; meter_target_offset := meter_target_offset ms |}), tks)
  end.

Definition serialize_table (name : list Z) (t : MatchTable K L J) : option (list token) :=
  u ← serialize_unit (entry_serialize node_name) (base t);
  d ← entry_serialize node_name (default_entry t);
  Some (Str name :: put_node (next_node_miss (flow (base t))) :: u ++ d).

Definition deserialize_table (name : list Z) (t : MatchTable K L J) (now : Z) (tks : list token) : option (MatchTable K L J * list token) :=
  '(s, tks) ← get_str tks;
  if decide (s = name) then
    '(node, tks) ← read_node (next_node_miss (flow (base t))) tks;
    '(b, tks) ← deserialize_unit (entry_deserialize get_action_by_id get_control_node new_entry) (with_flow (base t) (with_miss (flow (base t)) node)) now tks;
    '(e, tks) ← entry_deserialize get_action_by_id get_control_node (default_entry t) tks;
    Some (with_default (with_base t b) e, tks)
  else None.

(** [IndirectIndex]: an index is written as it is. *)
Definition serialize_indirect (name : list Z) (t : MatchTableIndirect K L J) : option (list token) :=
  u ← serialize_unit (λ index, Some [Num index]) (ibase t);
  Some (Str name :: put_node (next_node_miss (flow (ibase t))) :: u ++ Num (Z.b2z (default_set t)) :: (if default_set t then [Num (default_index t)] else [])).

Definition deserialize_indirect (name : list Z) (t : MatchTableIndirect K L J) (now : Z) (tks : list token) : option (MatchTableIndirect K L J * list token) :=
  '(s, tks) ← get_str tks;
  if decide (s = name) then
    '(node, tks) ← read_node (next_node_miss (flow (ibase t))) tks;
    '(b, tks) ← deserialize_unit get_num (with_flow (ibase t) (with_miss (flow (ibase t)) node)) now tks;
    '(d, tks) ← get_num tks;
    '(index, tks) ← (if d =? 0 then Some (default_index t, tks) else get_num tks);
    Some ({| ibase := b; default_index := index; default_set := negb (d =? 0) |}, tks)
  else None.
End serialization.
End MatchTables.
