(* ===== verification/MatchTablesSpec.v ===== *)
(** * What match tables do

    The tables of [MatchTables.v] over match units that stand for abstract
    tables ([MatchUnitSpec]): the entries of a table with actions are well typed,
    and a lookup gives the best of them or the default one. *)

From stdpp Require Import gmap functions.
From S2P Require Import Prelude HandleMgr Ras ByteContainer Data Fields Headers Phv Crc Cksum Calculations.
From S2P Require Import MatchKeyTypes LookupStructures MatchKey TableKeys Counters MatchUnit MatchUnitSpec.
From S2P Require Import Expressions ErrorCodes Parser Actions ActionProfile ActionProfileSpec Meters MatchTables.

Import MatchKeyTypes.

Module MatchTablesSpec.
Import ActionProfile MatchTables.

(** ** Tables with actions *)

(** An entry has as many data as its action has parameters, and the node that follows its action. *)
Definition entry_typed (c : Flow) (e : ActionEntry) : Prop :=
  ∃ f ad node, e = entry_for f ad node ∧ data_fits f ad = true ∧ get_next_node c (Actions.id f) = Some node.

Definition default_typed (c : Flow) (e : ActionEntry) : Prop :=
  e = new_entry ∨ ∃ f ad node, e = entry_for f ad node ∧ data_fits f ad = true.

Inductive top :=
  | TAdd (params : list MatchKey.MatchKeyParam) (f : Actions.ActionFn) (ad : Actions.ActionData) (prio now : Z)
  | TDelete (handle : Z)
  | TModify (handle : Z) (f : Actions.ActionFn) (ad : Actions.ActionData)
  | TDefault (f : Actions.ActionFn) (ad : Actions.ActionData)
  | TReset.

(** The operation on the match unit that an operation of the table comes to. *)
Definition unit_op (c : Flow) (o : top) : option (MatchUnitSpec.op ActionEntry) :=
  match o with
  | TAdd params f ad prio now => node ← get_next_node c (Actions.id f); Some (MatchUnitSpec.Add params (entry_for f ad node) prio now)
  | TDelete handle => Some (MatchUnitSpec.Delete handle)
  | TModify handle f ad => node ← get_next_node c (Actions.id f); Some (MatchUnitSpec.Modify handle (entry_for f ad node))
  | TDefault _ _ => None
  | TReset => Some MatchUnitSpec.Reset
  end.

(** Why a table refuses an operation without asking the unit. *)
Definition refusal {K L J} (t : MatchTable K L J) (o : top) : option MatchErrorCode :=
  match o with
  | TAdd _ f ad _ _ | TModify _ f ad =>
      if immutable_entries t then Some IMMUTABLE_TABLE_ENTRIES else if data_fits f ad then None else Some BAD_ACTION_DATA
  | TDelete _ => if immutable_entries t then Some IMMUTABLE_TABLE_ENTRIES else None
  | TDefault f ad =>
      if const_default_entry t then Some DEFAULT_ENTRY_IS_CONST else
      if match const_default_action t with Some i => negb (i =? Actions.id f) | None => false end then Some DEFAULT_ACTION_IS_CONST else
      if data_fits f ad then None else Some BAD_ACTION_DATA
  | TReset => None
  end.

Section simple.
Context {K L J : Type} `{TableKeyLaws K L, !LookupStructureLaws K L, Judy1Laws J}.
Context (N : Z) (HN : 0 ≤ N ≤ 2 ^ 24).
Context (ks : list MatchKey.KeyF) (ms : list (list Z)) (kb : MatchKey.MatchKeyBuilder).
Context (Hlay : MatchKey.layout ks ms kb) (Hkind : key_kind (K := K) ks) (Hd : version (key_base (default_key : K)) = 0).
Implicit Types (t : MatchTable K L J) (T : MatchUnitSpec.Table K ActionEntry) (o : top).

Definition exec_top t o : option (MatchTable K L J * MatchUnitSpec.res ActionEntry) :=
  match o with
  | TAdd params f ad prio now => '(t, r) ← add_entry t params f ad prio now; Some (t, MatchUnitSpec.RHandle r)
  | TDelete handle => '(t, rc) ← delete_entry t handle; Some (t, MatchUnitSpec.RCode rc)
  | TModify handle f ad => '(t, rc) ← modify_entry t handle f ad; Some (t, MatchUnitSpec.RCode rc)
  | TDefault f ad => '(t, rc) ← set_default_action t f ad; Some (t, MatchUnitSpec.RCode rc)
  | TReset => t ← reset_state t; Some (t, MatchUnitSpec.RCode SUCCESS)
  end.

Record table_ok t T : Prop := {
  tb_unit : MatchUnitSpec.refines N kb (match_unit (base t)) T;
  tb_entries h k e : MatchUnitSpec.t_entries T !! h = Some (k, e) → entry_typed (flow (base t)) e;
  tb_default : default_typed (flow (base t)) (default_entry t);
}.

(** The callers' part: actions that the table has, and what the match unit needs. *)
Definition top_ok t o : Prop :=
  match o with
  | TAdd _ f _ _ _ | TModify _ f _ => is_Some (get_next_node (flow (base t)) (Actions.id f))
  | TDefault f _ => is_Some (get_next_node_default (flow (base t)) (Actions.id f))
  | _ => True
  end ∧
  match unit_op (flow (base t)) o with Some u => MatchUnitSpec.op_ok ks kb (match_unit (base t)) u | None => True end.

(** What a step of the unit leaves typed. *)
Lemma step_typed c T u r T' :
  MatchUnitSpec.step N kb T u r T' →
  (∀ h k e, MatchUnitSpec.t_entries T !! h = Some (k, e) → entry_typed c e) →
  match u with MatchUnitSpec.Add _ e _ _ | MatchUnitSpec.Modify _ e => entry_typed c e | _ => True end →
  ∀ h k e, MatchUnitSpec.t_entries T' !! h = Some (k, e) → entry_typed c e.
Proof.
  intros Hs HT Hu. inversion Hs; subst; cbn [MatchUnitSpec.t_entries MatchUnitSpec.t_set_meta MatchUnitSpec.t_insert MatchUnitSpec.t_remove]; intros h' k' e' E;
    try (by apply (HT _ _ _ E)).
  - apply lookup_insert_Some in E as [[_ [= <- <-]]|[_ E]]; [done|by apply (HT _ _ _ E)].
  - apply lookup_delete_Some in E as [_ E]. by apply (HT _ _ _ E).
  - apply lookup_insert_Some in E as [[_ [= <- <-]]|[_ E]]; [done|by apply (HT _ _ _ E)].
  - by rewrite lookup_empty in E.
Qed.

(** The unit's part of an operation that the table does not refuse. *)
Lemma unit_part t T u : table_ok t T → MatchUnitSpec.op_ok ks kb (match_unit (base t)) u →
  match u with MatchUnitSpec.Add _ e _ _ | MatchUnitSpec.Modify _ e => entry_typed (flow (base t)) e | _ => True end →
  ∃ mu r T', MatchUnitSpec.exec new_entry (match_unit (base t)) u = Some (mu, r) ∧ MatchUnitSpec.step N kb T u r T' ∧
    table_ok (with_base t (with_unit (base t) mu)) T'.
Proof.
  intros [R HT HD] Ho Hu. destruct (MatchUnitSpec.exec_sound new_entry N HN ks ms kb Hlay Hkind _ T u R Ho Hd) as (mu & r & T' & E & Hs & R').
  exists mu, r, T'. split; [done|]. split; [done|]. constructor; [done| |done]. exact (step_typed _ _ _ _ _ Hs HT Hu).
Qed.

(** C20: The operations of a table succeed and keep its entries typed: every
    entry has as many data as its action has parameters, and is followed by the
    node of its action. An operation that is refused says why and changes
    nothing; the others do to the table what the match unit does, and setting the
    default action changes only that. *)
Theorem table_typed t T o : table_ok t T → top_ok t o →
  ∃ t' r T', exec_top t o = Some (t', r) ∧ table_ok t' T' ∧
    match refusal t o with
    | Some e => t' = t ∧ T' = T ∧ (r = MatchUnitSpec.RHandle (Err e) ∨ r = MatchUnitSpec.RCode e)
    | None =>
        match unit_op (flow (base t)) o with
        | Some u => MatchUnitSpec.step N kb T u r T' ∧ default_entry t' = default_entry t
        | None => T' = T ∧ r = MatchUnitSpec.RCode SUCCESS ∧ match_unit (base t') = match_unit (base t)
        end
    end.
Proof.
  intros Ht [Hn Ho]. destruct o as [params f ad prio now|handle|handle f ad|f ad|]; cbn [exec_top refusal unit_op].
  - unfold add_entry. destruct (immutable_entries t); [by eauto 10|]. destruct (data_fits f ad) eqn:Ef; cbn [negb]; [|by eauto 10].
    destruct Hn as [node En]. cbn in Ho. rewrite En in Ho |- *. cbn [mbind option_bind] in Ho |- *.
    destruct (unit_part t T _ Ht Ho) as (mu & r & T' & E & Hs & Ht'); [by exists f, ad, node|]. unfold MatchUnitSpec.exec in E.
    destruct (MatchUnit.add_entry _ _ _ _ _) as [[mu' r']|]; [|discriminate E]. injection E as -> <-.
    msimpl. by eauto 10.
  - unfold delete_entry. destruct (immutable_entries t); [by eauto 10|].
    destruct (unit_part t T _ Ht Ho) as (mu & r & T' & E & Hs & Ht'); [done|]. unfold MatchUnitSpec.exec in E.
    destruct (MatchUnit.delete_entry_ _ _) as [[mu' r']|]; [|discriminate E]. injection E as -> <-.
    msimpl. by eauto 10.
  - unfold modify_entry. destruct (immutable_entries t); [by eauto 10|]. destruct (data_fits f ad) eqn:Ef; cbn [negb]; [|by eauto 10].
    destruct Hn as [node En]. cbn in Ho. rewrite En in Ho |- *. cbn [mbind option_bind] in Ho |- *.
    destruct (unit_part t T _ Ht Ho) as (mu & r & T' & E & Hs & Ht'); [by exists f, ad, node|]. unfold MatchUnitSpec.exec in E.
    destruct (MatchUnit.modify_entry_ _ _ _) as [[mu' r']|]; [|discriminate E]. injection E as -> <-.
    msimpl. by eauto 10.
  - unfold set_default_action. destruct (const_default_entry t); [by eauto 10|]. destruct (match const_default_action t with Some _ => _ | None => _ end); [by eauto 10|].
    destruct (data_fits f ad) eqn:Ef; cbn [negb]; [|by eauto 10]. destruct Hn as [node En]. rewrite En. msimpl. eexists _, _, T. split; [done|]. split; [|done].
    destruct Ht as [R HT HD]. constructor; cbn; [done| |right; by exists f, ad, node].
    intros h k e E. destruct (HT h k e E) as (f' & ad' & node' & ? & ? & Eg). exists f', ad', node'. split; [done|]. split; [done|]. exact Eg.
  - unfold reset_state. destruct (unit_part t T _ Ht Ho) as (mu & r & T' & E & Hs & Ht'); [done|]. unfold MatchUnitSpec.exec in E.
    destruct (MatchUnit.reset_state _ _) as [mu'|]; [|discriminate E]. injection E as -> <-.
    msimpl. by eauto 10.
Qed.

(** Looking a packet up in a table gives the entry with the best of the
    matching keys, which is typed and counted as hit, or, when no key matches,
    the default entry; the rest of the table is left alone. *)
Theorem match_table_lookup t T phv len ts :
  table_ok t T → MatchUnitSpec.op_ok ks kb (match_unit (base t)) (MatchUnitSpec.LookupPkt phv len ts) →
  ∃ t' hit e T', lookup t phv len ts = Some (t', hit, e) ∧ table_ok t' T' ∧
    MatchUnitSpec.step N kb T (MatchUnitSpec.LookupPkt phv len ts) (MatchUnitSpec.RFound ((λ h, (h, e)) <$> hit)) T' ∧
    match hit with Some _ => entry_typed (flow (base t)) e | None => e = default_entry t end.
Proof.
  intros Ht Ho. destruct (unit_part t T _ Ht Ho I) as (mu & r & T' & E & Hs & Ht'). unfold MatchUnitSpec.exec in E.
  unfold lookup, unit_lookup. destruct (MatchUnit.lookup_pkt _ _ _ _) as [[mu' found]|]; [|discriminate E]. injection E as -> <-. msimpl. eexists _, _, _, T'. split; [done|]. split; [done|].
  destruct found as [[h e]|]; cbn; [|done]. split; [done|]. inversion Hs; subst. by eapply (tb_entries t T Ht).
Qed.
End simple.
End MatchTablesSpec.
