(* ===== verification/TablesProfile.v ===== *)
(** * Tables that share an action profile

    How the use counts of a profile and the entries of a table relate: which
    operations keep them equal, and what the lookup of a packet then gives.
    Operations that count more uses than there are leave members that can never
    be deleted; the examples show one that counts fewer. *)

From stdpp Require Import gmap functions.
From S2P Require Import Prelude HandleMgr Ras ByteContainer Data Fields Headers Phv Crc Cksum Calculations.
From S2P Require Import MatchKeyTypes LookupStructures MatchKey TableKeys Counters MatchUnit MatchUnitSpec.
From S2P Require Import Expressions ErrorCodes Parser Actions ActionProfile ActionProfileSpec Meters MatchTables.
Import MatchKeyTypes.

Module TablesProfile.
Import ActionProfile ActionProfileSpec MatchTables.

Inductive iop :=
  | IAdd (params : list MatchKey.MatchKeyParam) (mbr prio now : Z)
  | IAddWs (params : list MatchKey.MatchKeyParam) (grp prio now : Z)
  | IDelete (handle : Z)
  | IModify (handle mbr : Z)
  | IModifyWs (handle grp : Z).

Section linked.
Context {K L J S : Type} `{TableKeyLaws K L, !LookupStructureLaws K L, Judy1Laws J, !Judy1Count J, !Judy1CountLaws J, !GroupSelection S}.
Context (N : Z) (HN : 0 ≤ N ≤ 2 ^ 24).
Context (ks : list MatchKey.KeyF) (ms : list (list Z)) (kb : MatchKey.MatchKeyBuilder).
Context (Hlay : MatchKey.layout ks ms kb) (Hkind : key_kind (K := K) ks) (Hd : version (key_base (default_key : K)) = 0).
Implicit Types (t : MatchTableIndirect K L J) (a : Profile J S) (T : MatchUnitSpec.Table K Z) (P : Prof) (i : Z).

(** The entries of a table that have an index. *)
Definition uses_of T i : Z := count_of (λ kv : K * Z, kv.2 = i) (MatchUnitSpec.t_entries T).

(** [lost i] uses of the index [i] are counted that no entry of the table has:
    those of other tables, and those lost for good. *)
Record linked t a T P (lost : IndirectIndex → Z) : Prop := {
  lk_unit : MatchUnitSpec.refines N kb (match_unit (ibase t)) T;
  lk_prof : ActionProfileSpec.refines a P;
  lk_uses i : p_uses P i = uses_of T i + lost i;
  lk_lost i : 0 ≤ lost i;
}.

#[local] Instance p_valid_dec P i : Decision (p_valid P i).
Proof.
  destruct (decide (is_Some (p_members P !! i) ∨ is_Some (p_groups P !! (i - 2 ^ 24)))) as [Hv|Hn]; [left|right].
  - destruct Hv as [Hm|Hg]; [left; by exists i|right]. exists (i - 2 ^ 24). split; [unfold grp_index; lia|done].
  - intros [(m & -> & Hs)|(g & -> & Hs)]; apply Hn; [by left|right]. unfold grp_index. by replace (2 ^ 24 + g - 2 ^ 24) with g by lia.
Defined.

Lemma used_valid t a T P lost h k i : linked t a T P lost → MatchUnitSpec.t_entries T !! h = Some (k, i) → p_valid P i ∧ 0 < p_uses P i.
Proof.
  intros Hl E. assert (0 < p_uses P i) as Hu.
  { rewrite (lk_uses _ _ _ _ _ Hl). pose proof (lk_lost _ _ _ _ _ Hl i). pose proof (count_pos (λ kv : K * Z, kv.2 = i) _ h (k, i) E eq_refl).
    unfold uses_of. lia. }
  split; [|done]. destruct (decide (p_valid P i)) as [|Hn]; [done|]. rewrite (pr_free a P (lk_prof _ _ _ _ _ Hl) i Hn) in Hu. lia.
Qed.

Lemma uses_insert T h k v i : MatchUnitSpec.t_entries T !! h = None →
  uses_of (MatchUnitSpec.t_insert T h (k, v)) i = uses_of T i + (if decide (v = i) then 1 else 0).
Proof. intros E. unfold uses_of. cbn. by rewrite count_insert. Qed.

(** A step that adds, or does nothing. *)
Lemma step_add_uses T params v prio now r T' :
  MatchUnitSpec.step N kb T (MatchUnitSpec.Add params v prio now) (MatchUnitSpec.RHandle r) T' →
  ∀ i, uses_of T' i = uses_of T i + (if decide (code r = SUCCESS ∧ v = i) then 1 else 0).
Proof.
  intros Hs i. inversion Hs; subst; cbn [code]; try (rewrite decide_False by (by intros []); lia).
  unfold uses_of. cbn [MatchUnitSpec.t_entries MatchUnitSpec.t_insert MatchUnitSpec.t_set_meta].
  rewrite count_insert by done. cbn [snd]. repeat case_decide; try lia; tauto.
Qed.

(** *** Adding *)
Lemma add_index_ok t a T P lost params i prio now :
  linked t a T P lost → p_valid P i → p_uses P i + 1 < 2 ^ 31 → MatchUnitSpec.op_ok ks kb (match_unit (ibase t)) (MatchUnitSpec.Add params i prio now) →
  ∃ t' a' r T' P', add_index t a params i prio now = Some (t', a', r) ∧
    MatchUnitSpec.step N kb T (MatchUnitSpec.Add params i prio now) (MatchUnitSpec.RHandle r) T' ∧
    linked t' a' T' P' (if decide (code r = SUCCESS) then lost else <[i := lost i + 1]> lost) ∧ p_members P' = p_members P ∧ p_groups P' = p_groups P.
Proof.
  intros [R Rp Hu Hl] Hv Hb Ho. unfold add_index.
  destruct (prof_acquire a P i Rp (conj Hv Hb)) as (a' & r0 & P' & E & Hs & Rp'). unfold ActionProfileSpec.exec in E.
  destruct (ref_count_increase a i) as [a1|]; [|discriminate E]. injection E as <- <-. inversion Hs; subst. msimpl.
  destruct (MatchUnitSpec.exec_sound 0 N HN ks ms kb Hlay Hkind _ T _ R Ho Hd) as (mu & r & T' & E & Hst & R'). unfold MatchUnitSpec.exec in E.
  destruct (MatchUnit.add_entry _ _ _ _ _) as [[mu' r']|]; [|discriminate E]. injection E as <- <-. msimpl.
  eexists _, _, _, T', (set_uses P i (p_uses P i + 1)). split; [done|]. split; [done|]. split; [|done]. pose proof (step_add_uses _ _ _ _ _ _ _ Hst) as Hus.
  constructor; cbn [ibase with_iunit with_ibase match_unit with_unit p_uses set_uses]; [done|done| |].
  - intros j. rewrite Hus. specialize (Hu j). pose proof (Hu) as Huj. destruct (decide (j = i)) as [->|Hne].
    + rewrite fn_lookup_insert. destruct (decide (code r' = SUCCESS)).
      * rewrite decide_True by done. lia.
      * rewrite decide_False, fn_lookup_insert by tauto. lia.
    + rewrite fn_lookup_insert_ne by done. rewrite decide_False by (intros [_ ->]; done).
      destruct (decide (code r' = SUCCESS)); [lia|]. rewrite fn_lookup_insert_ne by done. lia.
  - intros j. destruct (decide (code r' = SUCCESS)); [done|]. specialize (Hl j). destruct (decide (j = i)) as [->|]; [rewrite fn_lookup_insert; lia|].
    by rewrite fn_lookup_insert_ne.
Qed.

(** *** Deleting and modifying *)

(** The value of a handle, which is then counted as used. *)
Lemma value_cases t a T P lost handle : linked t a T P lost →
  (MatchUnit.get_value_ (match_unit (ibase t)) handle = Some (Err (MatchUnitSpec.handle_error T handle)) ∧ MatchUnitSpec.handle_error T handle ≠ SUCCESS) ∨
  ∃ k i, MatchUnit.get_value_ (match_unit (ibase t)) handle = Some (Ok i) ∧ MatchUnitSpec.handle_error T handle = SUCCESS ∧
    MatchUnitSpec.t_entries T !! MatchUnit.HANDLE_INTERNAL handle = Some (k, i) ∧ p_valid P i ∧ 0 < p_uses P i.
Proof.
  intros Hl. destruct (MatchUnitSpec.exec_sound 0 N HN ks ms kb Hlay Hkind _ T (MatchUnitSpec.GetValue handle) (lk_unit _ _ _ _ _ Hl) I Hd) as (mu & r & T' & E & Hs & _).
  unfold MatchUnitSpec.exec in E. destruct (MatchUnit.get_value_ _ _) as [r'|]; [|discriminate E]. injection E as <- <-. inversion Hs; subst.
  - left. done.
  - right. exists k, v. split; [done|]. split; [done|]. split; [done|]. by eapply used_valid.
Qed.

Lemma linked_release t a T P lost i : linked t a T P lost → p_valid P i → 0 < p_uses P i →
  ∃ a', ref_count_decrease a i = Some a' ∧ ActionProfileSpec.refines a' (set_uses P i (p_uses P i - 1)).
Proof.
  intros Hl Hv Hu. destruct (prof_release a P i (lk_prof _ _ _ _ _ Hl) (conj Hv Hu)) as (a' & r & P' & E & Hs & R').
  unfold ActionProfileSpec.exec in E. destruct (ref_count_decrease a i) as [a1|]; [|discriminate E]. injection E as -> <-. inversion Hs; subst. by exists a'.
Qed.

Lemma delete_ok t a T P lost handle : linked t a T P lost →
  ∃ t' a' rc T' P', delete_entry_indirect t a handle = Some (t', a', rc) ∧ rc = MatchUnitSpec.handle_error T handle ∧
    linked t' a' T' P' lost ∧ p_members P' = p_members P ∧ p_groups P' = p_groups P.
Proof.
  intros Hl. unfold delete_entry_indirect. destruct (value_cases t a T P lost handle Hl) as [[-> He]|(k & i & -> & He & Ek & Hv & Hu)]; msimpl.
  { eexists _, _, _, T, P. split; [done|]. done. }
  destruct (linked_release t a T P lost i Hl Hv Hu) as (a1 & -> & R1). msimpl.
  destruct (MatchUnitSpec.exec_sound 0 N HN ks ms kb Hlay Hkind _ T (MatchUnitSpec.Delete handle) (lk_unit _ _ _ _ _ Hl) I Hd) as (mu & r & T' & E & Hs & R').
  unfold MatchUnitSpec.exec in E. destruct (MatchUnit.delete_entry_ _ _) as [[mu' rc]|]; [|discriminate E]. injection E as -> <-. msimpl.
  inversion Hs; subst; [done|]. eexists _, _, _, _, (set_uses P i (p_uses P i - 1)). split; [done|]. split; [done|]. split; [|done].
  destruct Hl as [_ _ Hus Hlo]. constructor; [done|done| |done]. intros j. specialize (Hus j). cbn [p_uses set_uses]. unfold uses_of in *.
  rewrite (count_delete _ _ _ _ Ek) in Hus. cbn [snd MatchUnitSpec.t_remove MatchUnitSpec.t_entries] in *.
  destruct (decide (j = i)) as [->|]; [rewrite fn_lookup_insert; rewrite decide_True in Hus by done; lia|].
  rewrite fn_lookup_insert_ne by done. rewrite decide_False in Hus by done. lia.
Qed.

(** Changing the index of an entry to one that is accepted. *)
Lemma modify_ok t a T P lost handle fresh j :
  linked t a T P lost → p_valid P j → p_uses P j + 1 < 2 ^ 31 →
  (∀ a' P', ActionProfileSpec.refines a' P' → p_members P' = p_members P → p_groups P' = p_groups P → fresh a' = Some (Ok j)) →
  ∃ t' a' rc T' P', modify_index t a handle fresh = Some (t', a', rc) ∧ rc = MatchUnitSpec.handle_error T handle ∧
    linked t' a' T' P' lost ∧ p_members P' = p_members P ∧ p_groups P' = p_groups P.
Proof.
  intros Hl Hj Hb Hf. unfold modify_index. destruct (value_cases t a T P lost handle Hl) as [[-> He]|(k & i & -> & He & Ek & Hv & Hu)]; msimpl.
  { eexists _, _, _, T, P. split; [done|]. done. }
  destruct (linked_release t a T P lost i Hl Hv Hu) as (a1 & -> & R1). msimpl. rewrite (Hf a1 _ R1) by done. msimpl.
  set (P1 := set_uses P i (p_uses P i - 1)) in *.
  assert (p_uses P1 j ≤ p_uses P j) as Hle. { unfold P1. cbn. destruct (decide (j = i)) as [->|]; [rewrite fn_lookup_insert; lia|by rewrite fn_lookup_insert_ne]. }
  destruct (prof_acquire a1 P1 j R1) as (a2 & r & P2 & E & Hs & R2); [split; [exact Hj|lia]|].
  unfold ActionProfileSpec.exec in E. destruct (ref_count_increase a1 j) as [a3|]; [|discriminate E]. injection E as -> <-. inversion Hs; subst. msimpl.
  destruct (MatchUnitSpec.exec_sound 0 N HN ks ms kb Hlay Hkind _ T (MatchUnitSpec.Modify handle j) (lk_unit _ _ _ _ _ Hl) I Hd) as (mu & r & T' & E & Hs' & R').
  unfold MatchUnitSpec.exec in E. destruct (MatchUnit.modify_entry_ _ _ _) as [[mu' rc]|]; [|discriminate E]. injection E as -> <-. msimpl.
  inversion Hs'; subst; [done|]. clear Hs Hs'. simplify_eq.
  eexists _, _, _, _, (set_uses P1 j (p_uses P1 j + 1)). split; [done|]. split; [done|]. split; [|done].
  destruct Hl as [_ _ Hus Hlo]. constructor; [done|done| |done]. intros x. specialize (Hus x). unfold uses_of in *. cbn [MatchUnitSpec.t_insert MatchUnitSpec.t_entries].
  rewrite (count_update _ _ _ _ _ Ek). cbn [snd]. unfold P1. cbn [p_uses set_uses].
  destruct (decide (x = j)) as [->|Hxj]; [rewrite fn_lookup_insert|rewrite fn_lookup_insert_ne by done].
  - destruct (decide (j = i)) as [->|]; [rewrite fn_lookup_insert|rewrite fn_lookup_insert_ne by done]; repeat case_decide; subst; try done; lia.
  - destruct (decide (x = i)) as [->|]; [rewrite fn_lookup_insert|rewrite fn_lookup_insert_ne by done]; repeat case_decide; subst; try done; lia.
Qed.

(** ** The operations together *)

Definition exec_iop t a (o : iop) : option (MatchTableIndirect K L J * Profile J S * MatchErrorCode) :=
  match o with
  | IAdd params mbr prio now => '(t, a, r) ← add_entry_mbr t a params mbr prio now; Some (t, a, code r)
  | IAddWs params grp prio now => '(t, a, r) ← add_entry_ws t a params grp prio now; Some (t, a, code r)
  | IDelete handle => delete_entry_indirect t a handle
  | IModify handle mbr => modify_entry_mbr t a handle mbr
  | IModifyWs handle grp => modify_entry_ws t a handle grp
  end.

Definition index_of (o : iop) : IndirectIndex :=
  match o with IAdd _ mbr _ _ | IModify _ mbr => mbr | IAddWs _ grp _ _ | IModifyWs _ grp => grp_index grp | IDelete _ => 0 end.

(** The index is that of a valid member, or of a valid group that is not empty. *)
Definition index_good P (o : iop) : Prop :=
  match o with
  | IAdd _ mbr _ _ | IModify _ mbr => is_Some (p_members P !! mbr)
  | IAddWs _ grp _ _ | IModifyWs _ grp => ∃ X, p_groups P !! grp = Some X ∧ X ≠ ∅
  | IDelete _ => True
  end.

(** What callers ensure; for a modification also that the new index is good. *)
Definition iop_ok t P (o : iop) : Prop :=
  p_uses P (index_of o) + 1 < 2 ^ 31 ∧
  match o with
  | IAdd params _ prio now | IAddWs params _ prio now =>
      MatchUnitSpec.op_ok ks kb (match_unit (ibase t)) (MatchUnitSpec.Add params (index_of o) prio now)
  | IModify _ _ | IModifyWs _ _ => index_good P o
  | IDelete _ => True
  end.

Lemma group_empty a P grp X : ActionProfileSpec.refines a P → p_groups P !! grp = Some X → group_is_empty a grp = Some (bool_decide (X = ∅)).
Proof.
  intros R HX. destruct (pr_group a P R grp X HX) as (j & Hj & Hrep & _). unfold group_is_empty. rewrite Hj. msimpl.
  rewrite (Ras.count_rep j X Hrep). f_equal. case_bool_decide as Hx; [by subst|]. apply Z.eqb_neq. intros Hz. apply Hx.
  apply leibniz_equiv, size_empty_inv. lia.
Qed.

Lemma fresh_mbr_good a P P0 mbr : ActionProfileSpec.refines a P → p_members P = p_members P0 → is_Some (p_members P0 !! mbr) → fresh_mbr mbr a = Some (Ok mbr).
Proof.
  intros R E Hm. rewrite <-E in Hm. unfold fresh_mbr. rewrite (valid_mbr a P mbr R), bool_decide_true by done. cbn [negb].
  by rewrite (proj1 (mbr_index_ok mbr (pr_mrange a P R mbr Hm))).
Qed.

Lemma fresh_grp_good a P P0 grp X : ActionProfileSpec.refines a P → p_groups P = p_groups P0 → p_groups P0 !! grp = Some X → X ≠ ∅ →
  fresh_grp grp a = Some (Ok (grp_index grp)).
Proof.
  intros R E HX Hne. rewrite <-E in HX. unfold fresh_grp. rewrite (valid_grp a P grp R), bool_decide_true by by exists X. cbn [negb].
  rewrite (group_empty a P grp X R HX), bool_decide_false by done. msimpl. by rewrite (proj1 (grp_index_ok grp (pr_grange a P R grp (mk_is_Some _ _ HX)))).
Qed.


(** An operation of the profile by its own interface leaves the counts right. *)
Lemma profile_step_linked t a T P lost o : linked t a T P lost → pop_ok P o → (∀ i, o ≠ Acquire i ∧ o ≠ Release i) →
  ∃ a' r P', ActionProfileSpec.exec a o = Some (a', r) ∧ p_step P o r P' ∧ linked t a' T P' lost.
Proof.
  intros [R Rp Hu Hl] Ho Hn. assert (∃ a' r P', ActionProfileSpec.exec a o = Some (a', r) ∧ p_step P o r P' ∧ ActionProfileSpec.refines a' P') as (a' & r & P' & E & Hs & R').
  { destruct o; [by apply prof_add|by apply prof_delete|by apply prof_modify|by apply prof_create|by apply prof_delete_group|
      by apply prof_add_to|by apply prof_remove_from|by destruct (Hn index)|by destruct (Hn index)]. }
  exists a', r, P'. split; [done|]. split; [done|]. constructor; try done. intros i. rewrite <-Hu.
  inversion Hs; subst; try done; by destruct (Hn i0).
Qed.

(** While the counts are right, a member or group that an entry has cannot
    be deleted. *)
Theorem used_not_deleted t a T P lost h k i : linked t a T P lost → MatchUnitSpec.t_entries T !! h = Some (k, i) →
  (∀ mbr, i = mbr → is_Some (p_members P !! mbr) → snd <$> delete_member a mbr = Some MBR_STILL_USED) ∧
  (∀ grp, i = grp_index grp → is_Some (p_groups P !! grp) → snd <$> delete_group a grp = Some GRP_STILL_USED).
Proof.
  intros Hl E. destruct (used_valid t a T P lost h k i Hl E) as [_ Hu]. pose proof (lk_prof _ _ _ _ _ Hl) as R. split.
  - intros mbr -> Hm. destruct (prof_delete a P mbr R) as (a' & r & P' & Ex & Hs & _). unfold ActionProfileSpec.exec in Ex.
    destruct (delete_member a mbr) as [[a1 rc]|]; [|discriminate Ex]. injection Ex as -> <-. cbn. f_equal.
    pose proof (group_uses_bound (p_groups P) mbr (pr_grange a P R)). unfold p_refs in *.
    inversion Hs; subst; unfold p_refs in *; [|done|lia]. destruct Hm as [e Hm]. congruence.
  - intros grp -> Hg. destruct (prof_delete_group a P grp R) as (a' & r & P' & Ex & Hs & _). unfold ActionProfileSpec.exec in Ex.
    destruct (delete_group a grp) as [[a1 rc]|]; [|discriminate Ex]. injection Ex as -> <-. cbn. f_equal.
    inversion Hs; subst; [|done|lia]. destruct Hg as [X Hg]. congruence.
Qed.

(** The groups that entries have are not empty, and hashes can be computed. *)
Definition lookups_ok `{!Gmp} (XXH64 : list Z → Z) t a P (phv : Phv.PHV) (data : list Z) : Prop :=
  (∀ mbr e, p_members P !! mbr = Some e → is_Some (get_next_node (flow (ibase t)) (Actions.get_action_id (action_fn e)))) ∧
  (∀ grp, p_uses P (grp_index grp) ≠ 0 → with_selection a = true ∧ p_groups P !! grp ≠ Some ∅) ∧
  grp_selector a = None ∧ ∀ h, hash a = Some h → is_Some (Calculations.calculation_output XXH64 h phv data).

(** While the counts are right, looking a packet up in a table without a
    default member gives the entry of a valid member: that of the entry hit, or
    one of its group, with the node that follows its action in this table. The
    counts stay right. *)
Theorem indirect_lookup `{!Gmp} XXH64 t a T P lost phv data len ts :
  linked t a T P lost → MatchUnitSpec.op_ok ks kb (match_unit (ibase t)) (MatchUnitSpec.LookupPkt phv len ts) →
  lookups_ok XXH64 t a P phv data → default_set t = false →
  ∃ t' a' hit e found T' P', lookup_indirect XXH64 t a phv data len ts = Some (t', a', hit, e) ∧ linked t' a' T' P' lost ∧
    MatchUnitSpec.step N kb T (MatchUnitSpec.LookupPkt phv len ts) (MatchUnitSpec.RFound found) T' ∧ hit = fst <$> found ∧
    match found with
    | None => e = new_entry
    | Some (_, i) => ∃ mbr e0, p_members P !! mbr = Some e0 ∧ action_fn e = action_fn e0 ∧
        get_next_node (flow (ibase t)) (Actions.get_action_id (action_fn e)) = Some (next_node e) ∧
        (i = mbr ∨ ∃ grp X, i = grp_index grp ∧ p_groups P !! grp = Some X ∧ mbr ∈ X)
    end.
Proof.
  intros Hl Ho (Hf & Hg & Hs & Hh) Hds.
  destruct (MatchUnitSpec.exec_sound 0 N HN ks ms kb Hlay Hkind _ T _ (lk_unit _ _ _ _ _ Hl) Ho Hd) as (mu & r & T' & E & Hst & R'). unfold MatchUnitSpec.exec in E.
  unfold lookup_indirect, unit_lookup. destruct (MatchUnit.lookup_pkt _ _ _ _) as [[mu' found]|]; [|discriminate E]. injection E as -> <-. msimpl.
  assert (∀ i, uses_of T' i = uses_of T i) as Hus by by (intros i; inversion Hst; subst).
  destruct found as [[h i]|].
  - assert (∃ h0 k, MatchUnitSpec.t_entries T !! h0 = Some (k, i)) as (h0 & k & Ek) by (inversion Hst; subst; eauto).
    destruct (used_valid t a T P lost h0 k i Hl Ek) as [Hv Hu].
    destruct (profile_lookup XXH64 a P phv data i (lk_prof _ _ _ _ _ Hl) Hv) as (mbr & e0 & Em & Ep & _ & Hor).
    + intros Hm. destruct Hv as [(m & -> & Hs')|(g & -> & _)]; [|by apply (Hg g); lia].
      destruct (mbr_index_ok m (pr_mrange _ _ (lk_prof _ _ _ _ _ Hl) _ Hs')) as (_ & E1 & _). congruence.
    + done.
    + done.
    + intros grp ->. apply Hg. lia.
    + unfold lookup_index. cbn [ibase with_ibase flow with_unit]. rewrite Em. msimpl. pose proof (pr_member a P (lk_prof _ _ _ _ _ Hl) mbr e0 Ep) as Ev. rewrite Ev. msimpl.
      destruct (Hf mbr e0 Ep) as [node En]. rewrite En. msimpl. pose proof (vset_Some _ _ {| action_fn := action_fn e0; next_node := node |} (vget_Some_range _ _ _ Ev)) as Hset.
      rewrite Hset. msimpl. eexists _, _, _, _, (Some (h, i)), T', _. split; [done|]. split; [|split; [done|split; [done|]]].
      * destruct Hl as [R Rp Hu' Hlo]. constructor; [done|eapply refines_entry; [exact Rp|by exists e0|exact Hset]| |done]. intros j. rewrite Hus. apply Hu'.
      * exists mbr, e0. split; [done|]. split; [done|]. split; [exact En|done].
  - cbn [default_set with_ibase]. rewrite Hds. eexists _, a, None, new_entry, None, T', P. split; [done|]. split; [|by eauto].
    destruct Hl as [R Rp Hu' Hlo]. constructor; try done. intros j. rewrite Hus. apply Hu'.
Qed.
End linked.
End TablesProfile.
