(* ===== verification/TablesExamples.v ===== *)
(** * Examples of match tables

    Tables of one key of 16 bits: instances of the theorems of
    [MatchTablesSpec.v] and [TablesProfile.v], and runs that go wrong. *)

From stdpp Require Import gmap functions.
From S2P Require Import Prelude HandleMgr Ras ByteContainer Data Fields Headers Phv Crc Cksum Calculations.
From S2P Require Import MatchKeyTypes LookupStructures MatchKey TableKeys Counters MatchUnit MatchUnitSpec MatchUnitRun.
From S2P Require Import Expressions ErrorCodes Parser Actions ActionProfile ActionProfileSpec Meters MatchTables MatchTablesSpec TablesProfile.
Import MatchKeyTypes.

Module TablesExamples.
Import ActionProfile ActionProfileSpec MatchTables MatchTablesSpec TablesProfile ActionProfileExamples.
Import Judy1Set RasExample GmpExample MatchUnitExamples.

(** ** A table with actions *)

Abbreviation table_t := (MatchTable ExactMatchKey exact_table (gset Z)).
Abbreviation indirect_t := (MatchTableIndirect ExactMatchKey exact_table (gset Z)).

Definition set_it : Actions.ActionFn := Actions.new_action 2 1.
Definition datum (v : Z) : Data.Data := {| Data.value := v; Data.arith := true |}.

(** The nodes 5 and 6 follow the actions 1 and 2, node 9 a miss. *)
Definition flow0 : Flow := set_next_node_miss_default (set_next_node (set_next_node (new_flow true true) 1 (Some 5)) 2 (Some 6)) (Some 9).

Definition unit_of {V} (v : V) : option (MatchUnit.Mu ExactMatchKey V exact_table (gset Z)) := MatchUnit.new v 8 kb0 table0.

Definition table_of : option table_t := mu ← unit_of new_entry; Some (new_table {| flow := flow0; match_unit := mu; direct_meters := None |}).

Definition no_entries {V} : MatchUnitSpec.Table ExactMatchKey V := MatchUnitRun.empty_table.

Lemma no_entry {V} h (kv : ExactMatchKey * V) : MatchUnitSpec.t_entries no_entries !! h = Some kv → False.
Proof. intros E. change ((∅ : gmap Z (ExactMatchKey * V)) !! h = Some kv) in E. rewrite lookup_empty in E. discriminate E. Qed.

Lemma unit_refines {V} (v : V) : ∃ m, unit_of v = Some m ∧ MatchKey.layout (MatchKey.key_input kb0) (MatchKey.masks kb0) kb ∧ MatchUnitSpec.refines 8 kb m no_entries.
Proof.
  destruct (MatchUnitRun.new_refines (J := gset Z) v 8 ltac:(lia) kb0 table0) as (kb' & m & Eb & Em & Hl & R & _); try done.
  { apply kb0_pushed. }
  exists m. unfold kb. rewrite Eb. done.
Qed.

Lemma exact_version : version (key_base (default_key : ExactMatchKey)) = 0.
Proof. reflexivity. Qed.

Lemma table_typed_witness : ∃ t t' r, table_of = Some t ∧ exec_top t (TAdd [param0] set_it [datum 7] 0 100) = Some (t', r).
Proof.
  destruct (unit_refines new_entry) as (m & Em & Hl & R). unfold table_of. rewrite Em. msimpl.
  set (t := new_table {| flow := flow0; match_unit := m; direct_meters := None |}).
  destruct (table_typed (K := ExactMatchKey) (L := exact_table) 8 ltac:(lia) _ _ kb Hl kb0_kind ltac:(exact exact_version) t no_entries (TAdd [param0] set_it [datum 7] 0 100)) as (t' & r & T' & E & _).
  - constructor; [exact R| |by left]. intros h k e E. destruct (no_entry h _ E).
  - split; [exists (Some 6); reflexivity|]. exact (conj param0_typed (λ _ _ _, I)).
  - exists t, t', r. split; [reflexivity|exact E].
Defined.

(** These tables have no meters. *)
#[local] Instance no_text : Meters.DoubleText := {| Meters.put_double _ := []; Meters.read_double _ := None |}.

(** A packet with the field of the key. *)
Definition header_type : Headers.HeaderType := (Headers.push_back_field (Headers.new_type 0) "f" 16 false false false).1.
Definition header (bs : list Z) : Headers.Header :=
  default HeadersExamples.empty_header (h ← Headers.new header_type ∅ false; Headers.extract h bs (λ _, None)).
Definition packet (bs : list Z) : Phv.PHV :=
  default no_phv (Phv.mark_valid {| Phv.headers := [header bs]; Phv.header_stacks := []; Phv.header_unions := []; Phv.header_union_stacks := [] |} 0).

Lemma packet_op_ok {V} (m : MatchUnit.Mu ExactMatchKey V exact_table (gset Z)) :
  MatchUnitSpec.op_ok (MatchKey.key_input kb0) kb m (MatchUnitSpec.LookupPkt (packet [18; 52]) 64 1000).
Proof. exists [18; 52]. split; [vm_compute; reflexivity|]. split; [repeat constructor; lia|reflexivity]. Qed.

Lemma match_table_lookup_witness : ∃ t t', table_of = Some t ∧ lookup t (packet [18; 52]) 64 1000 = Some (t', None, new_entry).
Proof.
  destruct (unit_refines new_entry) as (m & Em & Hl & R). unfold table_of. rewrite Em. msimpl.
  set (t := new_table {| flow := flow0; match_unit := m; direct_meters := None |}).
  destruct (match_table_lookup (K := ExactMatchKey) (L := exact_table) 8 ltac:(lia) _ _ kb Hl kb0_kind ltac:(exact exact_version) t no_entries (packet [18; 52]) 64 1000) as (t' & hit & e & T' & E & _ & Hs & He).
  - constructor; [exact R| |by left]. intros h k e E. destruct (no_entry h _ E).
  - apply packet_op_ok.
  - exists t, t'. split; [reflexivity|]. destruct hit as [h|]; [|rewrite E, He; reflexivity].
    exfalso. cbn in Hs. inversion Hs; subst. match goal with Ex : _ !! _ = Some _ |- _ => destruct (no_entry _ _ Ex) end.
Defined.

(** The counters of an entry can be read and written by the expired handle
    of an entry that was deleted: it has the same slot. *)
Theorem expired_counters :
  (t ← table_of;
   '(t, r1) ← add_entry t [param0] nop [] 0 100;
   '(t, _) ← delete_entry t 0;
   '(t, r2) ← add_entry t [param0] nop [] 0 100;
   '(t, _, _) ← lookup t (packet [18; 52]) 64 1000;
   q ← query_counters (base t) 0;
   Some (r1, r2, get_entry t 0 0, q)) = Some (Ok 0, Ok (2 ^ 24), Some (Err EXPIRED_HANDLE), Ok (64, 1)).
Proof. vm_compute. reflexivity. Qed.

(** Reading a table back adds the data of its default action to those the
    table was made with: the action then works on the old ones. *)
Theorem default_data_appended :
  (t0 ← table_of;
   t0 ← set_default_entry t0 set_it [datum 7] false;
   '(t, rc) ← set_default_action t0 set_it [datum 8];
   tks ← serialize_table (λ _, [110]) [116] t;
   '(t', _) ← deserialize_table (λ i, if i =? 2 then Some set_it else None) (λ _, Some 9) [116] t0 0 tks;
   Some (rc, Actions.action_data (action_fn (default_entry t)), Actions.action_data (action_fn (default_entry t'))))
  = Some (SUCCESS, [datum 8], [datum 7; datum 8]).
Proof. vm_compute. reflexivity. Qed.

(** ** A table with a profile *)

Definition indirect_of : option indirect_t := mu ← unit_of 0; Some (new_indirect {| flow := flow0; match_unit := mu; direct_meters := None |}).

(** Member 0 of [profile1] is in its group 0. *)
Lemma linked_start : ∃ t, indirect_of = Some t ∧ MatchKey.layout (MatchKey.key_input kb0) (MatchKey.masks kb0) kb ∧
  linked 8 kb t profile1 no_entries one_group (λ _, 0) ∧ default_set t = false.
Proof.
  destruct (unit_refines 0) as (m & Em & Hl & R). unfold indirect_of. rewrite Em. eexists. split; [reflexivity|]. split; [exact Hl|]. split; [|reflexivity].
  constructor; [exact R|exact profile1_refines|reflexivity|done].
Qed.


Lemma indirect_lookup_witness : ∃ t t', indirect_of = Some t ∧
  lookup_indirect (λ _, 0) t profile1 (packet [18; 52]) [] 64 1000 = Some (t', profile1, None, new_entry).
Proof.
  destruct linked_start as (t & Et & Hl & Hk & Hds).
  destruct (indirect_lookup (K := ExactMatchKey) (L := exact_table) 8 ltac:(lia) _ _ kb Hl kb0_kind ltac:(exact exact_version) (λ _, 0) t profile1 no_entries one_group (λ _, 0) (packet [18; 52]) [] 64 1000 Hk)
    as (t' & a' & hit & e & found & T' & P' & E & _ & Hs & Eh & He).
  - apply packet_op_ok.
  - split; [|split; [|split; [reflexivity|intros h Hh; discriminate Hh]]].
    + intros mbr e He. change (({[0 := action_entry nop []]} : gmap Z ActionEntry) !! mbr = Some e) in He. apply lookup_singleton_Some in He as [_ <-].
      unfold indirect_of in Et. destruct (unit_of 0); [|discriminate Et]. injection Et as <-. exists (Some 5). vm_compute. reflexivity.
    + intros grp Hg. destruct (Hg eq_refl).
  - exact Hds.
  - exists t, t'. split; [exact Et|]. destruct found as [[h i]|].
    + exfalso. inversion Hs; subst. match goal with Ex : _ !! _ = Some _ |- _ => destruct (no_entry _ _ Ex) end.
    + subst hit e. rewrite E. assert (a' = profile1) as ->; [|reflexivity].
      unfold lookup_indirect in E. destruct (unit_lookup _ _ _ _) as [[b [[h i]|]]|] eqn:El; [|cbn [mbind option_bind default_set with_ibase] in E; rewrite Hds in E; by injection E|discriminate E].
      cbn [mbind option_bind] in E. by destruct (lookup_index _ _ _ _ _ _) as [[? ?]|].
Defined.

(** A table with an entry of member 0, which is in no group. *)
Definition start : option (indirect_t * profile_t * Outcome Z) :=
  t ← indirect_of; a ← run profile0 [AddMember nop []]; add_entry_mbr t a [param0] 0 0 100.

Lemma used_not_deleted_witness : ∃ t a, (t0 ← indirect_of; fst <$> add_index t0 profile1 [param0] 0 0 100) = Some (t, a) ∧
  snd <$> delete_member a 0 = Some MBR_STILL_USED.
Proof.
  destruct linked_start as (t0 & Et & Hl & Hk & _).
  destruct (add_index_ok (K := ExactMatchKey) (L := exact_table) 8 ltac:(lia) _ _ kb Hl kb0_kind ltac:(exact exact_version) t0 profile1 no_entries one_group (λ _, 0) [param0] 0 0 100 Hk)
    as (t1 & a1 & r & T1 & P1 & E1 & Hs & Hk1 & Em & _); [left; exists 0; split; [reflexivity|exists (action_entry nop []); reflexivity]|reflexivity|exact (conj param0_typed (λ _ _ _, I))|].
  exists t1, a1. split; [rewrite Et; cbn [mbind option_bind]; rewrite E1; reflexivity|].
  assert (∃ h k, MatchUnitSpec.t_entries T1 !! h = Some (k, 0)) as (h & k & Ek).
  { inversion Hs; subst; [| | |eexists _, _; apply lookup_insert_eq].
    all: exfalso; unfold indirect_of in Et; destruct (unit_of 0) eqn:Eu; [|discriminate Et]; injection Et as <-; vm_compute in Eu; injection Eu as <-; vm_compute in E1; discriminate E1. }
  apply (proj1 (used_not_deleted 8 kb _ _ _ _ _ _ _ _ Hk1 Ek) 0 eq_refl). rewrite Em. exists (action_entry nop []). reflexivity.
Defined.

(** An entry that is refused because it is there is still counted: once the
    other is deleted no entry has the member, but it cannot be deleted. *)
Theorem refused_entry_counted :
  ('(t, a, r) ← start;
   '(t, a, r') ← add_entry_mbr t a [param0] 0 0 100;
   '(t, a, rc) ← delete_entry_indirect t a 0;
   Some (r, r', rc, MatchUnit.num_entries (match_unit (ibase t)), snd <$> delete_member a 0))
  = Some (Ok 0, Err DUPLICATE_ENTRY, SUCCESS, 0, Some MBR_STILL_USED).
Proof. vm_compute. reflexivity. Qed.

(** An entry that could not be changed to a member that does not exist is no
    longer counted as a use of its own, which can then be deleted; looking up a
    packet with the key of the entry then fails an assertion. *)
Theorem refused_change_frees :
  ('(t, a, _) ← start;
   '(t, a, rc) ← modify_entry_mbr t a 0 7;
   '(a, rc') ← delete_member a 0;
   Some (rc, rc', get_entry_indirect t 0 0, bool_decide (lookup_indirect (λ _, 0) t a (packet [18; 52]) [] 64 1000 = None)))
  = Some (INVALID_MBR_HANDLE, SUCCESS,
      Some (Ok {| handle := 0; match_key := [param0]; info := 0; entry_priority := -1; timeout_ms := 0; time_since_hit_ms := u32 (0 - 100) |}), true).
Proof. vm_compute. reflexivity. Qed.

(** The default member of a table can be deleted; looking up a packet that
    no entry matches then fails an assertion. *)
Theorem default_member_deleted :
  (t ← indirect_of;
   a ← run profile0 [AddMember nop []];
   '(t, rc) ← set_default_member t a 0;
   '(a, rc') ← delete_member a 0;
   Some (rc, rc', bool_decide (lookup_indirect (λ _, 0) t a (packet [18; 52]) [] 64 1000 = None))) = Some (SUCCESS, SUCCESS, true).
Proof. vm_compute. reflexivity. Qed.

(** Resetting a table deletes its entries, but their members stay used. *)
Theorem reset_keeps_uses :
  ('(t, a, _) ← start;
   t ← reset_state_indirect t;
   Some (MatchUnit.num_entries (match_unit (ibase t)), snd <$> delete_member a 0)) = Some (0, Some MBR_STILL_USED).
Proof. vm_compute. reflexivity. Qed.

Instance size_id : GmpSize := λ z, z mod 2 ^ 64.
Instance int_id : GmpInt := λ z, (z + 2 ^ 31) mod 2 ^ 32 - 2 ^ 31.

Definition st0 : Actions.State (X := unit) :=
  {| Actions.phv := packet [18; 52]; Actions.arrays := λ _, Registers.new 0 8; Actions.data_temps := []; Actions.jump_if_zero_offset := -1;
     Actions.jump_offset := 0; Actions.target := tt |}.

(** After a miss, the default action of a table is followed by its own node,
    the default member of a table with a profile by that of any miss, although
    the lookup gives the member's action its node. *)
Theorem default_member_next :
  (t ← table_of; '(t, _) ← set_default_action t nop [];
   '(_, _, _, node) ← apply_action (X := unit) (λ _ _ _ _ _, None) (λ _ _ i, i + 1) 1 t st0 0 64 1000; Some node) = Some (Some 5) ∧
  (t ← indirect_of; a ← run profile0 [AddMember nop []]; '(t, _) ← set_default_member t a 0;
   '(_, a', _, _, node) ← apply_action_indirect (X := unit) (λ _ _ _ _ _, None) (λ _ _ i, i + 1) (λ _, 0) 1 t a st0 [] 0 64 1000;
   Some (next_node <$> action_entries a', node)) = Some ([Some 5], Some 9).
Proof. split; vm_compute; reflexivity. Qed.
End TablesExamples.
