(* ===== verification/ControlFlow.v ===== *)
(** * Control flow (src/bm_sim/pipeline.cpp, conditionals.cpp, control_action.cpp, include/bm/bm_sim/control_flow.h)

    A pipeline sends a packet from node to node: match tables, conditionals and
    actions. Nodes are known by ids, the null pointer is [None]. What a table does
    to a packet is the argument [apply_table]; [match_table] gives it for the
    tables of [MatchTables.v]. *)

From stdpp Require Import gmap.
From S2P Require Import Prelude HandleMgr Data Fields Headers Phv MatchKeyTypes LookupStructures MatchKey TableKeys.
From S2P Require Import Counters MatchUnit MatchUnitRun Expressions ErrorCodes Parser Actions ActionProfile.
From S2P Require Import ActionProfileSpec Meters MatchTables MatchTablesSpec TablesProfile TablesExamples.

Import (coercions) Fields.

Module ControlFlow.

Inductive ControlFlowNode :=
| Table (id : Z)
| Conditional (expr : Expressions.Expression) (true_next false_next : option Z)
| ControlAction (action : option Actions.ActionFn) (next_node : option Z).

Section apply.
Context `{!Gmp, !GmpSize, !GmpInt} {X Tb : Type}.
Abbreviation State := (Actions.State (X := X)).
Context (target_execute : Z → Actions.ActionFn → Actions.ActionData → list Actions.ActionParam → State → option State).
Context (target_jump : Z → State → Z → Z).
(** The flag of the packet, which primitives of the target set. *)
Context (is_marked_for_exit : State → bool).

(** What a node leaves: the tables, the packet, and the next node; an action may
    not end. *)
Inductive Stepped := StepOutOfFuel | StepFailed | Next (tables : Tb) (st : State) (node : option Z).

Context (apply_table : nat → Z → Tb → State → Stepped).
Implicit Types (node : option Z) (st : State) (tables : Tb) (n : ControlFlowNode).

(** [fuel] bounds the calls of an action; actions that do not jump back need
    one more than they have. *)
Definition after_action (ran : Actions.Ran (X := X)) tables node : Stepped :=
  match ran with
  | Actions.OutOfFuel => StepOutOfFuel
  | Actions.Failed => StepFailed
  | Actions.Finished st => Next tables st node
  end.

Definition apply_node (fuel : nat) n tables st : Stepped :=
  match n with
  | Table id => apply_table fuel id tables st
  | Conditional e true_next false_next =>
      let env := {| Expressions.phv := Actions.phv st; Expressions.locals := [];
                    Expressions.registers := λ a, Registers.registers (Actions.arrays st a) |} in
      match fst <$> Expressions.eval_bool e env [] with
      | None => StepFailed
      | Some result => Next tables st (if (result : bool) then true_next else false_next)
      end
  | ControlAction None _ => StepFailed
  | ControlAction (Some f) next_node =>
      after_action (Actions.execute target_execute target_jump fuel
        {| Actions.action_fn := Some f; Actions.action_data := [] |} st) tables next_node
  end.

Inductive Applied := OutOfFuel | Failed | Done (tables : Tb) (st : State).

(** [Pipeline::apply] from [node] on; [steps] bounds the nodes. *)
Fixpoint apply (fuel steps : nat) (nodes : Z → option ControlFlowNode) node tables st : Applied :=
  match node with
  | None => Done tables st
  | Some id =>
      if is_marked_for_exit st then Done tables st else
      match steps with
      | O => OutOfFuel
      | S steps =>
          match nodes id with
          | None => Failed
          | Some n =>
              match apply_node fuel n tables st with
              | StepOutOfFuel => OutOfFuel
              | StepFailed => Failed
              | Next tables st node => apply fuel steps nodes node tables st
              end
          end
      end
  end.
End apply.

Section match_tables.
Context `{!Gmp, !GmpSize, !GmpInt} {K L J X : Type} `{!TableKey K, !LookupStructure K L, !Judy1 J}.
Context (target_execute : Z → Actions.ActionFn → Actions.ActionData → list Actions.ActionParam → Actions.State (X := X) → option (Actions.State (X := X))).
Context (target_jump : Z → Actions.State (X := X) → Z → Z).
(** The time in microseconds, the length of the packet, and when it came; what
    is done with the index of the entry. *)
Context (micros ingress_length ingress_ts_ms : Z) (set_entry_index : Z → Actions.State (X := X) → Actions.State (X := X)).

(** A node that is a match table. No primitive of the library reads the index of
    the entry, so it is kept once the action has run. *)
Definition match_table (fuel : nat) (id : Z) (tables : gmap Z (MatchTables.MatchTable K L J)) (st : Actions.State (X := X)) : Stepped (X := X) :=
  match tables !! id with
  | None => StepFailed
  | Some t =>
      match MatchTables.apply_action target_execute target_jump fuel t st micros ingress_length ingress_ts_ms with
      | None => StepFailed
      | Some (t, index, ran, node) =>
          match ran with
          | Actions.OutOfFuel => StepOutOfFuel
          | Actions.Failed => StepFailed
          | Actions.Finished st => Next (<[id := t]> tables) (set_entry_index index st) node
          end
      end
  end.
End match_tables.

(** ** What a pipeline does *)
Section proofs.
Context `{!Gmp, !GmpSize, !GmpInt} {X Tb : Type}.
Abbreviation State := (Actions.State (X := X)).
Context (target_execute : Z → Actions.ActionFn → Actions.ActionData → list Actions.ActionParam → State → option State).
Context (target_jump : Z → State → Z → Z) (marked : State → bool).
Context (apply_table : nat → Z → Tb → State → Stepped (X := X) (Tb := Tb)) (fuel : nat).
Context (nodes : Z → option ControlFlowNode).
Implicit Types (node : option Z) (st : State) (tables : Tb).
Abbreviation run := (apply target_execute target_jump marked apply_table fuel).
Abbreviation node_step := (apply_node target_execute target_jump apply_table fuel).

(** The nodes that a packet goes through, and what it is after them. *)
Inductive goes : option Z → Tb → State → list Z → Tb → State → Prop :=
| goes_end tables st : goes None tables st [] tables st
| goes_exit id tables st : marked st = true → goes (Some id) tables st [] tables st
| goes_node id n tables st tables1 st1 node path tables' st' :
    marked st = false → nodes id = Some n → node_step n tables st = Next tables1 st1 node →
    goes node tables1 st1 path tables' st' → goes (Some id) tables st (id :: path) tables' st'.

Lemma run_goes steps node tables st tables' st' : run steps nodes node tables st = Done tables' st' →
  ∃ path, goes node tables st path tables' st' ∧ (length path ≤ steps)%nat.
Proof.
  revert node tables st. induction steps as [|steps IH]; intros [id|] tables st; cbn.
  - destruct (marked st) eqn:E; intros [= <- <-]. exists []. split; [by constructor|done].
  - intros [= <- <-]. exists []. split; [constructor|done].
  - destruct (marked st) eqn:E; [intros [= <- <-]; exists []; split; [by constructor|cbn; lia]|].
    destruct (nodes id) as [n|] eqn:En; [|done]. destruct (node_step n tables st) as [| |t1 s1 node] eqn:Es; try done.
    intros Hr. destruct (IH _ _ _ Hr) as (path & Hp & Hl). exists (id :: path). split; [by econstructor|cbn; lia].
  - intros [= <- <-]. exists []. split; [constructor|cbn; lia].
Qed.

Lemma goes_run path : ∀ node tables st tables' st' steps, goes node tables st path tables' st' → (length path ≤ steps)%nat →
  run steps nodes node tables st = Done tables' st'.
Proof.
  induction path as [|v path IH]; intros node tables st tables' st' steps Hg Hl;
    inversion Hg as [| |id n ? ? tables1 st1 node1 ? ? ? Hm Hn Hs Hg1]; subst.
  - by destruct steps.
  - destruct steps; cbn; by match goal with H : marked _ = true |- _ => rewrite H end.
  - destruct steps as [|steps]; [cbn in Hl; lia|]. cbn [apply]. rewrite Hm, Hn, Hs. apply IH; [done|]. cbn in Hl. lia.
Qed.

(** A graph without cycles, over tables that keep [I]: every node leads to
    nodes of a lower rank, and its action ends. *)
Context (rank : Z → nat) (I : Tb → Prop).
Definition acyclic : Prop := ∀ id n tables st, I tables → nodes id = Some n →
  match node_step n tables st with
  | StepOutOfFuel => False
  | StepFailed => True
  | Next tables1 st1 node => I tables1 ∧ ∀ id1, node = Some id1 → (rank id1 < rank id)%nat
  end.

Lemma goes_ranks node tables st path tables' st' : acyclic → goes node tables st path tables' st' → I tables →
  Forall (λ v, ∃ id, node = Some id ∧ (rank v ≤ rank id)%nat) path ∧ NoDup path.
Proof.
  intros Ha. induction 1 as [| |id n tables st tables1 st1 node path tables' st' Hm Hn Hs Hg IH]; intros HI;
    [split; constructor|split; constructor|].
  pose proof (Ha _ _ _ st HI Hn) as Hstep. rewrite Hs in Hstep. destruct Hstep as [HI1 Hr]. destruct (IH HI1) as [IH1 IH2].
  assert (Forall (λ v, (rank v < rank id)%nat) path) as Hlt.
  { eapply Forall_impl; [exact IH1|]. intros v (id1 & -> & Hle). specialize (Hr id1 eq_refl). lia. }
  split.
  - constructor; [by exists id|]. eapply Forall_impl; [exact Hlt|]. intros v Hv. cbn in Hv. exists id. split; [done|lia].
  - constructor; [|done]. intros Hin. pose proof (proj1 (Forall_forall _ _) Hlt _ Hin). cbn in *. lia.
Qed.

Lemma run_ends steps : acyclic → ∀ node tables st, I tables →
  (∀ id, node = Some id → (rank id < steps)%nat) → run steps nodes node tables st ≠ OutOfFuel.
Proof.
  intros Ha. induction steps as [|steps IH]; intros [id|] tables st HI Hr; cbn; try done; [specialize (Hr id eq_refl); lia|].
  destruct (marked st); [done|]. destruct (nodes id) as [n|] eqn:En; [|done].
  pose proof (Ha _ _ _ st HI En) as Hstep. destruct (node_step n tables st) as [| |t1 s1 node]; [done|done|]. destruct Hstep as [HI1 Hlt].
  apply IH; [done|]. intros id1 ->. specialize (Hlt id1 eq_refl). specialize (Hr id eq_refl). lia.
Qed.

(** C13: A pipeline without cycles whose actions end is left after as many steps as
    the rank of its first node: a node fails, or the packet went through
    different nodes one after the other, each given what the one before it left,
    until there was no next node or one marked the packet for exit. *)
Theorem pipeline_path (first_node : option Z) tables st (steps : nat) : acyclic → I tables →
  (∀ id, first_node = Some id → (rank id < steps)%nat) →
  run steps nodes first_node tables st = Failed ∨
  ∃ path tables' st', run steps nodes first_node tables st = Done tables' st' ∧
    goes first_node tables st path tables' st' ∧ NoDup path ∧ (length path ≤ steps)%nat.
Proof.
  intros Ha HI Hr. destruct (run steps nodes first_node tables st) as [| |tables' st'] eqn:E.
  - by destruct (run_ends steps Ha first_node tables st HI Hr).
  - by left.
  - right. destruct (run_goes _ _ _ _ _ _ E) as (path & Hg & Hl). exists path, tables', st'. split; [done|]. split; [done|].
    split; [|done]. by eapply goes_ranks.
Qed.

(** And the path is all there is to it: more steps make no difference. *)
Theorem pipeline_steps (first_node : option Z) tables st tables' st' (steps more : nat) : (steps ≤ more)%nat →
  run steps nodes first_node tables st = Done tables' st' → run more nodes first_node tables st = Done tables' st'.
Proof. intros Hle (path & Hg & Hl)%run_goes. eapply goes_run; [done|lia]. Qed.
End proofs.

(** ** Pipelines of match tables *)
Section tables.
Context `{!Gmp, !GmpSize, !GmpInt} {K L J X : Type} `{!TableKey K, !LookupStructure K L, !Judy1 J}.
Abbreviation State := (Actions.State (X := X)).
Context (target_execute : Z → Actions.ActionFn → Actions.ActionData → list Actions.ActionParam → State → option State).
Context (target_jump : Z → State → Z → Z) (fuel : nat).
Context (micros ingress_length ingress_ts_ms : Z) (set_entry_index : Z → State → State).
Context (nodes : Z → option ControlFlowNode) (rank : Z → nat).
Abbreviation table_t := (MatchTables.MatchTable K L J).
Implicit Types (t : table_t) (e : ActionProfile.ActionEntry) (node : option Z) (id r : Z).

Definition below r node : Prop := ∀ id, node = Some id → (rank id < rank r)%nat.

Definition ends (a : Actions.ActionFnEntry) : Prop :=
  ∀ st, Actions.execute target_execute target_jump fuel a st ≠ Actions.OutOfFuel.

(** The entries of the table lead below it, and so does a miss; its actions end. *)
Record table_below r t : Prop := {
  tb_entries : Forall (λ en : MatchUnit.Entry K ActionProfile.ActionEntry,
    ends (ActionProfile.action_fn (MatchUnit.value en)) ∧ below r (ActionProfile.next_node (MatchUnit.value en)))
    (MatchUnit.entries (MatchTables.match_unit (MatchTables.base t)));
  tb_default : ends (ActionProfile.action_fn (MatchTables.default_entry t));
  tb_miss : below r (MatchTables.next_node_miss (MatchTables.flow (MatchTables.base t)));
}.

(** A lookup gives the value of an entry, and changes none. *)
Lemma lookup_pkt_value {V} (m : MatchUnit.Mu K V L J) phv len ts m' res : MatchUnit.lookup_pkt m phv len ts = Some (m', res) →
  MatchUnit.entries m' = MatchUnit.entries m ∧
  ∀ h v, res = Some (h, v) → ∃ en, en ∈ MatchUnit.entries m ∧ MatchUnit.value en = v.
Proof.
  unfold MatchUnit.lookup_pkt, MatchUnit.lookup_key. intros E.
  destruct (MatchKey.make_key _ _ _) as [k|]; [|done]. cbn [mbind option_bind] in E.
  destruct (LookupStructures.lookup _ _) as [[l [h|]]|]; cbn [mbind option_bind] in E; [| |done].
  - destruct (vget _ _) as [en|] eqn:Een; [|done]. cbn [mbind option_bind] in E.
    destruct (vupd _ _ _) as [ms|]; [|done]. cbn in E. injection E as <- <-. split; [done|]. intros h' v [= <- <-]. exists en. split; [|done].
    pose proof (vget_Some_range _ _ _ Een) as Hr. rewrite vget_nat in Een by lia. by eapply list_elem_of_lookup_2.
  - injection E as <- <-. split; [done|]. by intros.
Qed.

Lemma execute_direct_meter_same {V} (b b' : MatchTables.Base K V L J) h phv phv' len :
  MatchTables.execute_direct_meter b h phv micros len = Some (b', phv') →
  MatchTables.match_unit b' = MatchTables.match_unit b ∧ MatchTables.flow b' = MatchTables.flow b.
Proof.
  unfold MatchTables.execute_direct_meter. destruct (MatchTables.direct_meters b) as [ms|]; [|by intros [= <- <-]].
  destruct (Parser.get_field _ _); [|done]. cbn [mbind option_bind].
  destruct (Meters.execute_meter _ _ _ _ _) as [[? ?]|]; [|done]. cbn [mbind option_bind].
  destruct (Fields.set _ _); [|done]. cbn [mbind option_bind].
  destruct (Parser.set_field _ _ _); [|done]. cbn [mbind option_bind]. by intros [= <- <-].
Qed.

Lemma apply_action_below r t st t' index ran node : table_below r t →
  MatchTables.apply_action target_execute target_jump fuel t st micros ingress_length ingress_ts_ms = Some (t', index, ran, node) →
  table_below r t' ∧ ran ≠ Actions.OutOfFuel ∧ below r node.
Proof.
  intros [He Hd Hm]. unfold MatchTables.apply_action, MatchTables.lookup, MatchTables.unit_lookup. intros E.
  destruct (MatchUnit.lookup_pkt _ _ _ _) as [[mu res]|] eqn:El; [|done]. cbn [mbind option_bind] in E.
  destruct (lookup_pkt_value _ _ _ _ _ _ El) as [Hsame Hval].
  unfold MatchTables.run_entry in E.
  destruct res as [[h v]|]; cbn [fmap option_fmap option_map fst] in E.
  - destruct (Hval h v eq_refl) as (en & Hin & Hv). pose proof (proj1 (Forall_forall _ _) He _ Hin) as [Hends Hbel]. rewrite Hv in *.
    destruct (MatchTables.execute_direct_meter _ _ _ _ _) as [[b' phv']|] eqn:Eb; [|done].
    apply execute_direct_meter_same in Eb as [Hu Hf]. cbn in E, Hu, Hf. injection E as <- <- <- <-.
    split; [constructor; cbn; [by rewrite Hu; cbn; rewrite Hsame|exact Hd|by rewrite Hf]|split; [apply Hends|exact Hbel]].
  - cbn in E. injection E as <- <- <- <-. split; [constructor; cbn; [by rewrite Hsame|exact Hd|exact Hm]|split; [apply Hd|exact Hm]].
Qed.

(** Conditionals and actions that lead below themselves. *)
Definition static_below : Prop := ∀ id n, nodes id = Some n →
  match n with
  | Table _ => True
  | Conditional _ true_next false_next => below id true_next ∧ below id false_next
  | ControlAction f next_node => (∀ f', f = Some f' → ends {| Actions.action_fn := Some f'; Actions.action_data := [] |}) ∧ below id next_node
  end.

Definition tables_below (tables : gmap Z table_t) : Prop :=
  ∀ id i t, nodes id = Some (Table i) → tables !! i = Some t → table_below id t.

Lemma tables_acyclic : static_below →
  acyclic target_execute target_jump (match_table target_execute target_jump micros ingress_length ingress_ts_ms set_entry_index)
    fuel nodes rank tables_below.
Proof.
  intros Hst id n tables st HI Hn. specialize (Hst id n Hn). destruct n as [i|e tn fn|f next]; cbn [apply_node].
  - unfold match_table. destruct (tables !! i) as [t|] eqn:Et; [|done].
    destruct (MatchTables.apply_action _ _ _ _ _ _ _ _) as [[[[t' index] ran] node]|] eqn:Ea; [|done].
    destruct (apply_action_below id t st t' index ran node (HI _ _ _ Hn Et) Ea) as (_ & Hran & Hb).
    destruct ran as [| |st']; [done|done|]. split; [|exact Hb].
    intros id2 i2 t2 Hn2 [[<- <-]|[_ Ht2]]%lookup_insert_Some; [|by eapply HI].
    by destruct (apply_action_below id2 t st t' index _ node (HI _ _ _ Hn2 Et) Ea).
  - destruct (fst <$> _) as [[]|]; [| |done]; (split; [done|apply Hst]).
  - destruct f as [f|]; [|done]. destruct Hst as [He Hb]. specialize (He f eq_refl st).
    destruct (Actions.execute _ _ _ _ _) as [| |st']; cbn [after_action]; [done|done|]. by split.
Qed.
End tables.
End ControlFlow.

(** * Examples of control flow

    A conditional that leads to a table, whose entry leads to an action; and a
    pipeline that comes back to its first node. *)

Module ControlFlowExamples.
Import ControlFlow GmpExample MatchKeyTypes ActionProfileExamples MatchUnitExamples Judy1Set.
Import TablesExamples.

Abbreviation State := (Actions.State (X := unit)).

Definition no_primitive (_ : Z) (_ : Actions.ActionFn) (_ : Actions.ActionData) (_ : list Actions.ActionParam) (_ : State) : option State := None.
Definition no_jump (_ : Z) (_ : State) (i : Z) : Z := i + 1.
Definition table_node := match_table (K := ExactMatchKey) (L := exact_table) (J := gset Z) no_primitive no_jump 0 64 1000 (λ _ st, st).

Definition always (b : bool) : Expressions.Expression := default Expressions.new_expression (Expressions.build (Expressions.push_back_load_bool Expressions.new_expression b)).

(** Node 1 goes to the table, node 2; 5, 6 and 9 follow the table. *)
Definition nodes0 (id : Z) : option ControlFlowNode :=
  match id with
  | 1 => Some (Conditional (always true) (Some 2) None)
  | 2 => Some (Table 0)
  | 5 | 6 | 9 => Some (ControlAction (Some nop) None)
  | _ => None
  end.
Definition rank0 (id : Z) : nat := match id with 1 => 2 | 2 => 1 | _ => 0 end.

(** The table with an entry for the packet of [st0]. *)
Definition entry_table : option table_t := t ← table_of; '(t, _) ← MatchTables.add_entry t [param0] nop [] 0 100; Some t.

Lemma nop_ends f : f = Some nop ∨ f = None → ends no_primitive no_jump 1 {| Actions.action_fn := f; Actions.action_data := [] |}.
Proof. by intros [-> | ->] st. Qed.

Lemma pipeline_path_witness : ∃ t path tables' st', entry_table = Some t ∧
  goes no_primitive no_jump (λ _, false) table_node 1 nodes0 (Some 1) {[0 := t]} st0 path tables' st' ∧ NoDup path ∧ (length path ≤ 3)%nat.
Proof.
  destruct entry_table as [t|] eqn:Et; [|vm_compute in Et; discriminate Et].
  destruct (pipeline_path no_primitive no_jump (λ _, false) table_node 1 nodes0 rank0 (tables_below no_primitive no_jump 1 nodes0 rank0) (Some 1) {[0 := t]} st0 3)
    as [Hf|(path & tables' & st' & _ & Hg & Hn & Hl)].
  - apply tables_acyclic. intros id n Hn.
    destruct id as [|[[[]|[[]|[]|]|]|[[]|[]|]|]|]; try discriminate Hn; injection Hn as <-; cbn.
    all: try (split; [|by intros id [= <-]]; intros f [= <-]; by apply nop_ends; left).
    + done.
    + split; intros id [= <-]; cbn; lia.
  - intros id i t' Hn Ht'. destruct id as [|[[[]|[[]|[]|]|]|[[]|[]|]|]|]; try discriminate Hn; injection Hn as <-.
    rewrite lookup_singleton_eq in Ht'. injection Ht' as <-. vm_compute in Et. injection Et as <-.
    constructor; cbn; [|apply nop_ends; by right|intros id [= <-]; cbn; lia].
    repeat (constructor; [split; [apply nop_ends; auto|intros id [= <-]; cbn; lia]|]). constructor.
  - intros id [= <-]. cbn. lia.
  - exfalso. vm_compute in Et. injection Et as <-. vm_compute in Hf. discriminate Hf.
  - exists t, path, tables', st'. done.
Defined.

(** A conditional that leads to itself is not left. *)
Theorem pipeline_loops (steps : nat) :
  apply no_primitive no_jump (λ _, false) table_node 1 steps (λ _, Some (Conditional (always true) (Some 1) None)) (Some 1) ∅ st0 = OutOfFuel.
Proof. induction steps as [|steps IH]; [reflexivity|]. exact IH. Qed.
End ControlFlowExamples.
