(* ===== verification/SimplePre.v ===== *)
(** * Packet replication (include/bm/bm_sim/pre.h, simple_pre.h, simple_pre_lag.h, src/bm_sim/simple_pre.cpp, simple_pre_lag.cpp)

    Multicast groups of nodes, each of which has a replication id and a set of
    ports, and a set of link aggregation groups. The engine without them,
    [McSimplePre], and the one with them, [McSimplePreLAG], are one record here;
    the first has empty sets. Every operation holds a lock for its duration. The
    text for the clients is left out. *)

From stdpp Require Import gmap.
From S2P Require Import Prelude HandleMgr.

Module SimplePre.

(** ** Sets of ports *)

(** A set of 256 bits, the first first. *)
Abbreviation PortMap := (list bool).
Definition PORT_MAP_SIZE : Z := 256.

Definition empty_map : PortMap := replicate (Z.to_nat PORT_MAP_SIZE) false.

(** From text, the last character first; more than 256 characters are left out, others than 0 and 1 refused. *)
Definition of_string (str : list Z) : option PortMap :=
  bits ← mapM (λ c, if c =? 48 then Some false else if c =? 49 then Some true else None) (take (Z.to_nat PORT_MAP_SIZE) str);
  Some (take (Z.to_nat PORT_MAP_SIZE) (reverse bits ++ empty_map)).

(** The positions that are set, from [i] on. *)
Fixpoint ports_from (i : Z) (m : PortMap) : list Z :=
  match m with
  | [] => []
  | true :: m => i :: ports_from (i + 1) m
  | false :: m => ports_from (i + 1) m
  end.

(** ** The engine *)

Inductive McReturnCode := SUCCESS | TABLE_FULL | INVALID_MGID | INVALID_MGRP_HANDLE | INVALID_L1_HANDLE | ERROR.

Record McOut := { rid : Z; egress_port : Z }.

Definition MGID_TABLE_SIZE : Z := 4096.
Definition L1_MAX_ENTRIES : Z := 4096.
Definition L2_MAX_ENTRIES : Z := 8192.
Definition LAG_MAX_ENTRIES : Z := 256.

Record MgidEntry := { mgid : Z; l1_list : list Z }.
Record L1Entry := { mgrp_hdl : Z; l1_rid : Z; l2_hdl : Z; is_associated : bool }.
Record L2Entry := { l1_hdl : Z; port_map : PortMap; lag_map : PortMap }.
Record LagEntry := { member_count : Z; lag_port_map : PortMap }.

Record Pre (J : Type) := {
  mgid_entries : gmap Z MgidEntry;
  l1_entries : gmap Z L1Entry;
  l2_entries : gmap Z L2Entry;
  l1_handles : J;
  l2_handles : J;
  lag_entries : gmap Z LagEntry;
}.
Arguments mgid_entries {J} _.
Arguments l1_entries {J} _.
Arguments l2_entries {J} _.
Arguments l1_handles {J} _.
Arguments l2_handles {J} _.
Arguments lag_entries {J} _.

Section pre.
Context {J : Type} `{!Judy1 J}.
Implicit Types (s : Pre J) (g h : Z).

Definition new : Pre J :=
  {| mgid_entries := ∅; l1_entries := ∅; l2_entries := ∅; l1_handles := J1_null; l2_handles := J1_null; lag_entries := ∅ |}.

Definition with_mgids s (m : gmap Z MgidEntry) : Pre J :=
  {| mgid_entries := m; l1_entries := l1_entries s; l2_entries := l2_entries s; l1_handles := l1_handles s;
     l2_handles := l2_handles s; lag_entries := lag_entries s |}.
Definition with_l1 s (m : gmap Z L1Entry) (j : J) : Pre J :=
  {| mgid_entries := mgid_entries s; l1_entries := m; l2_entries := l2_entries s; l1_handles := j;
     l2_handles := l2_handles s; lag_entries := lag_entries s |}.
Definition with_l2 s (m : gmap Z L2Entry) (j : J) : Pre J :=
  {| mgid_entries := mgid_entries s; l1_entries := l1_entries s; l2_entries := m; l1_handles := l1_handles s;
     l2_handles := j; lag_entries := lag_entries s |}.
Definition with_lags s (m : gmap Z LagEntry) : Pre J :=
  {| mgid_entries := mgid_entries s; l1_entries := l1_entries s; l2_entries := l2_entries s; l1_handles := l1_handles s;
     l2_handles := l2_handles s; lag_entries := m |}.

(** A group that is there already stays. *)
Definition mc_mgrp_create s g : Pre J * McReturnCode :=
  if MGID_TABLE_SIZE <=? Z.of_nat (size (mgid_entries s)) then (s, TABLE_FULL) else
  match mgid_entries s !! g with
  | Some _ => (s, SUCCESS)
  | None => (with_mgids s (<[g := {| mgid := g; l1_list := [] |}]> (mgid_entries s)), SUCCESS)
  end.

(** The nodes of the group are left as they are. *)
Definition mc_mgrp_destroy s g : Pre J * McReturnCode := (with_mgids s (delete g (mgid_entries s)), SUCCESS).

Definition mc_node_create s (r : Z) (ports lags : PortMap) : Pre J * McReturnCode * option Z :=
  if L1_MAX_ENTRIES <=? Z.of_nat (size (l1_entries s)) then (s, TABLE_FULL, None) else
  if L2_MAX_ENTRIES <=? Z.of_nat (size (l2_entries s)) then (s, TABLE_FULL, None) else
  match HandleMgr.get_handle (l1_handles s) with
  | (j1, None) => (with_l1 s (l1_entries s) j1, ERROR, None)
  | (j1, Some h1) =>
      match HandleMgr.get_handle (l2_handles s) with
      | (j2, None) => (with_l2 (with_l1 s (l1_entries s) j1) (l2_entries s) j2, ERROR, None)
      | (j2, Some h2) =>
          let e1 := {| mgrp_hdl := 0; l1_rid := r; l2_hdl := h2; is_associated := false |} in
          let e2 := {| l1_hdl := h1; port_map := ports; lag_map := lags |} in
          (with_l2 (with_l1 s (<[h1 := e1]> (l1_entries s)) j1) (<[h2 := e2]> (l2_entries s)) j2, SUCCESS, Some h1)
      end
  end.

Definition associate_entry (e : L1Entry) g (b : bool) : L1Entry :=
  {| mgrp_hdl := g; l1_rid := l1_rid e; l2_hdl := l2_hdl e; is_associated := b |}.

Definition mc_node_associate s g h : option (Pre J * McReturnCode) :=
  if negb (HandleMgr.valid_handle (l1_handles s) h) then Some (s, INVALID_L1_HANDLE) else
  match mgid_entries s !! g with
  | None => Some (s, INVALID_MGRP_HANDLE)
  | Some m =>
      e ← l1_entries s !! h;
      if is_associated e then Some (s, ERROR) else
      Some (with_l1 (with_mgids s (<[g := {| mgid := mgid m; l1_list := l1_list m ++ [h] |}]> (mgid_entries s)))
              (<[h := associate_entry e g true]> (l1_entries s)) (l1_handles s), SUCCESS)
  end.

Definition node_dissociate (m : MgidEntry) h : MgidEntry := {| mgid := mgid m; l1_list := filter (λ x, x ≠ h) (l1_list m) |}.

Definition mc_node_dissociate s g h : option (Pre J * McReturnCode) :=
  if negb (HandleMgr.valid_handle (l1_handles s) h) then Some (s, INVALID_L1_HANDLE) else
  match mgid_entries s !! g with
  | None => Some (s, INVALID_MGRP_HANDLE)
  | Some m =>
      e ← l1_entries s !! h;
      if negb (is_associated e) || negb (mgrp_hdl e =? g) then Some (s, ERROR) else
      Some (with_l1 (with_mgids s (<[g := node_dissociate m h]> (mgid_entries s)))
              (<[h := associate_entry e (mgrp_hdl e) false]> (l1_entries s)) (l1_handles s), SUCCESS)
  end.

(** A node that is associated leaves its group first. *)
Definition mc_node_destroy s h : option (Pre J * McReturnCode) :=
  if negb (HandleMgr.valid_handle (l1_handles s) h) then Some (s, INVALID_L1_HANDLE) else
  e ← l1_entries s !! h;
  s ← (if is_associated e then
         m ← mgid_entries s !! mgrp_hdl e; Some (with_mgids s (<[mgrp_hdl e := node_dissociate m h]> (mgid_entries s)))
       else Some s);
  let '(j2, error2) := HandleMgr.release_handle (l2_handles s) (l2_hdl e) in
  let '(j1, error1) := HandleMgr.release_handle (l1_handles s) h in
  if (error2 =? 0) && (error1 =? 0) then
    Some (with_l1 (with_l2 s (delete (l2_hdl e) (l2_entries s)) j2) (delete h (l1_entries s)) j1, SUCCESS)
  else None.

Definition mc_node_update s h (ports : PortMap) (lags : option PortMap) : option (Pre J * McReturnCode) :=
  if negb (HandleMgr.valid_handle (l1_handles s) h) then Some (s, INVALID_L1_HANDLE) else
  e ← l1_entries s !! h;
  e2 ← l2_entries s !! l2_hdl e;
  let e2 := {| l1_hdl := l1_hdl e2; port_map := ports; lag_map := default (lag_map e2) lags |} in
  Some (with_l2 s (<[l2_hdl e := e2]> (l2_entries s)) (l2_handles s), SUCCESS).

Definition mc_set_lag_membership s (lag_index : Z) (ports : PortMap) : Pre J * McReturnCode :=
  if LAG_MAX_ENTRIES <? lag_index then (s, ERROR) else
  (with_lags s (<[lag_index := {| member_count := Z.of_nat (length (ports_from 0 ports)); lag_port_map := ports |}]> (lag_entries s)), SUCCESS).

Definition reset_state s : Pre J :=
  {| mgid_entries := ∅; l1_entries := ∅; l2_entries := ∅; l1_handles := HandleMgr.clear (l1_handles s);
     l2_handles := HandleMgr.clear (l2_handles s); lag_entries := ∅ |}.

(** *** Replication *)

Definition to_port (r port : Z) : McOut := {| rid := r; egress_port := port |}.

(** The loop over the ports of a link aggregation group: [port_count2] of the ones before are set. *)
Fixpoint lag_loop (port_id port_count1 port_count2 : Z) (m : PortMap) : option Z :=
  match m with
  | [] => None
  | b :: m =>
      let port_count2 := if (b : bool) then port_count2 + 1 else port_count2 in
      if port_count1 =? port_count2 then Some port_id else lag_loop (port_id + 1) port_count1 port_count2 m
  end.

Definition lag_hash : Z := 0xFF.

Definition lag_copies s (r lag_index : Z) : list McOut :=
  match lag_entries s !! lag_index with
  | None => []
  | Some e =>
      if member_count e =? 0 then [] else
      match lag_loop 0 (lag_hash mod member_count e + 1) 0 (lag_port_map e) with
      | Some port => [to_port r port]
      | None => []
      end
  end.

Definition node_copies s h : option (list McOut) :=
  e ← l1_entries s !! h;
  e2 ← l2_entries s !! l2_hdl e;
  Some ((to_port (l1_rid e) <$> ports_from 0 (port_map e2)) ++ concat (lag_copies s (l1_rid e) <$> ports_from 0 (lag_map e2))).

Definition replicate s (mgid : Z) : option (list McOut) :=
  match mgid_entries s !! mgid with
  | None => Some []
  | Some m => cs ← mapM (node_copies s) (l1_list m); Some (concat cs)
  end.
End pre.
End SimplePre.
