(* ===== verification/SimplePreSpec.v ===== *)
(** * What the replication engine does

    Groups as lists of nodes, each with a replication id and its ports: the
    engine of [SimplePre.v] implements them while groups are destroyed only when
    they are empty. The examples show what happens otherwise. *)

From stdpp Require Import gmap.
From S2P Require Import Prelude HandleMgr SimplePre.

Module SimplePreSpec.
Import SimplePre Judy1Set.

(** ** Sets of ports *)

Lemma ports_from_spec m : ∀ i x, x ∈ ports_from i m ↔ i ≤ x ∧ m !! Z.to_nat (x - i) = Some true.
Proof.
  induction m as [|b m IH]; intros i x; cbn [ports_from].
  { split; [by intros ?%elem_of_nil|by intros [_ ?]]. }
  assert (i < x → (b :: m) !! Z.to_nat (x - i) = m !! Z.to_nat (x - (i + 1))) as Hs.
  { intros Hx. by replace (Z.to_nat (x - i)) with (S (Z.to_nat (x - (i + 1)))) by lia. }
  assert (x = i → (b :: m) !! Z.to_nat (x - i) = Some b) as H0 by (intros ->; by rewrite Z.sub_diag).
  destruct b; rewrite ?elem_of_cons, IH.
  - split; [intros [->|[? ?]]; [split; [lia|auto]|split; [lia|]; rewrite Hs; [done|lia]]|].
    intros [Hle E]. destruct (decide (x = i)); [by left|right]. split; [lia|]. rewrite <-Hs; [done|lia].
  - split; [intros [? ?]; split; [lia|]; rewrite Hs; [done|lia]|].
    intros [Hle E]. destruct (decide (x = i)) as [Hx|]; [rewrite H0 in E by done; discriminate|]. split; [lia|]. rewrite <-Hs; [done|lia].
Qed.

Lemma ports_from_NoDup m : ∀ i, NoDup (ports_from i m).
Proof.
  induction m as [|[] m IH]; intros i; cbn [ports_from]; [constructor| |apply IH]. constructor; [|apply IH].
  rewrite ports_from_spec. lia.
Qed.

(** The loop finds the port at a position of the set. *)
Lemma lag_loop_nth m : ∀ i c k, 0 ≤ k → k < Z.of_nat (length (ports_from i m)) → lag_loop i (c + k + 1) c m = vget (ports_from i m) k.
Proof.
  induction m as [|b m IH]; intros i c k Hk Hl; [cbn in Hl; lia|]. destruct b; cbn [ports_from lag_loop length] in *.
  - destruct (Z.eqb_spec (c + k + 1) (c + 1)).
    + assert (k = 0) as -> by lia. done.
    + replace (c + k + 1) with ((c + 1) + (k - 1) + 1) by lia. rewrite IH by lia. rewrite !vget_nat by lia.
      by replace (Z.to_nat k) with (S (Z.to_nat (k - 1))) by lia.
  - rewrite (proj2 (Z.eqb_neq _ _)) by lia. by apply IH.
Qed.

(** ** The specification *)

Record Node := { n_rid : Z; n_ports : PortMap; n_lags : PortMap }.
Record Groups := { s_groups : gmap Z (list Z); s_nodes : gmap Z Node; s_lags : gmap Z PortMap }.

Implicit Types (A : Groups) (g h : Z).

(** The copies that a node makes for a link aggregation group: one, to a port
    that depends only on how many there are. *)
Definition lag_port A (r lag : Z) : list McOut :=
  match s_lags A !! lag with
  | None => []
  | Some m => let ps := ports_from 0 m in
      match vget ps (lag_hash mod Z.of_nat (length ps)) with Some port => [to_port r port] | None => [] end
  end.

Definition node_out A (n : Node) : list McOut :=
  (to_port (n_rid n) <$> ports_from 0 (n_ports n)) ++ concat (lag_port A (n_rid n) <$> ports_from 0 (n_lags n)).

(** A copy to each port of each node of the group, in the order the nodes were associated. *)
Definition copies A g : list McOut :=
  match s_groups A !! g with
  | None => []
  | Some l => h ← l; match s_nodes A !! h with Some n => node_out A n | None => [] end
  end.

Definition associated A h : Prop := ∃ g l, s_groups A !! g = Some l ∧ h ∈ l.

Inductive mop :=
  | MgrpCreate (g : Z) | MgrpDestroy (g : Z)
  | NodeCreate (r : Z) (ports lags : PortMap) | NodeDestroy (h : Z)
  | NodeAssociate (g h : Z) | NodeDissociate (g h : Z)
  | NodeUpdate (h : Z) (ports : PortMap) (lags : option PortMap)
  | SetLag (lag : Z) (ports : PortMap)
  | MReset.

Definition set_group A g (l : list Z) : Groups := {| s_groups := <[g := l]> (s_groups A); s_nodes := s_nodes A; s_lags := s_lags A |}.
Definition set_node A h (n : Node) : Groups := {| s_groups := s_groups A; s_nodes := <[h := n]> (s_nodes A); s_lags := s_lags A |}.

(** What an operation does and returns; the handle of a new node is an output. *)
Inductive mstep A : mop → McReturnCode → option Z → Groups → Prop :=
  | m_create_full g : MGID_TABLE_SIZE ≤ Z.of_nat (size (s_groups A)) → mstep A (MgrpCreate g) TABLE_FULL None A
  | m_create_again g : Z.of_nat (size (s_groups A)) < MGID_TABLE_SIZE → is_Some (s_groups A !! g) → mstep A (MgrpCreate g) SUCCESS None A
  | m_create g : Z.of_nat (size (s_groups A)) < MGID_TABLE_SIZE → s_groups A !! g = None → mstep A (MgrpCreate g) SUCCESS None (set_group A g [])
  | m_destroy g : mstep A (MgrpDestroy g) SUCCESS None {| s_groups := delete g (s_groups A); s_nodes := s_nodes A; s_lags := s_lags A |}
  | m_node_full r p l : L1_MAX_ENTRIES ≤ Z.of_nat (size (s_nodes A)) → mstep A (NodeCreate r p l) TABLE_FULL None A
  | m_node r p l h :
      Z.of_nat (size (s_nodes A)) < L1_MAX_ENTRIES → s_nodes A !! h = None → (∀ h', 0 ≤ h' < h → is_Some (s_nodes A !! h')) →
      mstep A (NodeCreate r p l) SUCCESS (Some h) (set_node A h {| n_rid := r; n_ports := p; n_lags := l |})
  | m_node_destroy_invalid h : s_nodes A !! h = None → mstep A (NodeDestroy h) INVALID_L1_HANDLE None A
  | m_node_destroy h :
      is_Some (s_nodes A !! h) →
      mstep A (NodeDestroy h) SUCCESS None
        {| s_groups := filter (λ x, x ≠ h) <$> s_groups A; s_nodes := delete h (s_nodes A); s_lags := s_lags A |}
  | m_assoc_invalid g h : s_nodes A !! h = None → mstep A (NodeAssociate g h) INVALID_L1_HANDLE None A
  | m_assoc_no_group g h : is_Some (s_nodes A !! h) → s_groups A !! g = None → mstep A (NodeAssociate g h) INVALID_MGRP_HANDLE None A
  | m_assoc_again g h l : is_Some (s_nodes A !! h) → s_groups A !! g = Some l → associated A h → mstep A (NodeAssociate g h) ERROR None A
  | m_assoc g h l : is_Some (s_nodes A !! h) → s_groups A !! g = Some l → ¬ associated A h → mstep A (NodeAssociate g h) SUCCESS None (set_group A g (l ++ [h]))
  | m_dissoc_invalid g h : s_nodes A !! h = None → mstep A (NodeDissociate g h) INVALID_L1_HANDLE None A
  | m_dissoc_no_group g h : is_Some (s_nodes A !! h) → s_groups A !! g = None → mstep A (NodeDissociate g h) INVALID_MGRP_HANDLE None A
  | m_dissoc_not g h l : is_Some (s_nodes A !! h) → s_groups A !! g = Some l → h ∉ l → mstep A (NodeDissociate g h) ERROR None A
  | m_dissoc g h l : is_Some (s_nodes A !! h) → s_groups A !! g = Some l → h ∈ l → mstep A (NodeDissociate g h) SUCCESS None (set_group A g (filter (λ x, x ≠ h) l))
  | m_update_invalid h p l : s_nodes A !! h = None → mstep A (NodeUpdate h p l) INVALID_L1_HANDLE None A
  | m_update h p l n : s_nodes A !! h = Some n →
      mstep A (NodeUpdate h p l) SUCCESS None (set_node A h {| n_rid := n_rid n; n_ports := p; n_lags := default (n_lags n) l |})
  | m_lag_error lag p : LAG_MAX_ENTRIES < lag → mstep A (SetLag lag p) ERROR None A
  | m_lag lag p : lag ≤ LAG_MAX_ENTRIES → mstep A (SetLag lag p) SUCCESS None {| s_groups := s_groups A; s_nodes := s_nodes A; s_lags := <[lag := p]> (s_lags A) |}
  | m_reset : mstep A MReset SUCCESS None {| s_groups := ∅; s_nodes := ∅; s_lags := ∅ |}.

(** ** Refinement *)
Section refinement.
Context {J : Type} `{Judy1Laws J}.
Implicit Types (s : Pre J).

Definition exec s (o : mop) : option (Pre J * McReturnCode * option Z) :=
  match o with
  | MgrpCreate g => let '(s, rc) := mc_mgrp_create s g in Some (s, rc, None)
  | MgrpDestroy g => let '(s, rc) := mc_mgrp_destroy s g in Some (s, rc, None)
  | NodeCreate r p l => Some (mc_node_create s r p l)
  | NodeDestroy h => '(s, rc) ← mc_node_destroy s h; Some (s, rc, None)
  | NodeAssociate g h => '(s, rc) ← mc_node_associate s g h; Some (s, rc, None)
  | NodeDissociate g h => '(s, rc) ← mc_node_dissociate s g h; Some (s, rc, None)
  | NodeUpdate h p l => '(s, rc) ← mc_node_update s h p l; Some (s, rc, None)
  | SetLag lag p => let '(s, rc) := mc_set_lag_membership s lag p in Some (s, rc, None)
  | MReset => Some (reset_state s, SUCCESS, None)
  end.

Definition lag_entry (m : PortMap) : LagEntry := {| member_count := Z.of_nat (length (ports_from 0 m)); lag_port_map := m |}.

(** A node in the engine: its entry of the first level and that of the second. *)
Record node_is s A h (n : Node) (e : L1Entry) (e2 : L2Entry) : Prop := {
  ni_l1 : l1_entries s !! h = Some e;
  ni_l2 : l2_entries s !! l2_hdl e = Some e2;
  ni_back : l1_hdl e2 = h;
  ni_node : n = {| n_rid := l1_rid e; n_ports := port_map e2; n_lags := lag_map e2 |};
  ni_assoc : is_associated e = true → ∃ l, s_groups A !! mgrp_hdl e = Some l ∧ h ∈ l;
}.

Record refines s A : Prop := {
  mr_groups : s_groups A = l1_list <$> mgid_entries s;
  mr_l1 : HandleMgr.rep (l1_handles s) (dom (s_nodes A));
  mr_l2 : HandleMgr.rep (l2_handles s) (dom (l2_entries s));
  mr_dom h : is_Some (l1_entries s !! h) ↔ is_Some (s_nodes A !! h);
  mr_node h n : s_nodes A !! h = Some n → ∃ e e2, node_is s A h n e e2;
  mr_back h2 e2 : l2_entries s !! h2 = Some e2 → ∃ e, l1_entries s !! l1_hdl e2 = Some e ∧ l2_hdl e = h2;
  mr_member g l h : s_groups A !! g = Some l → h ∈ l → ∃ e, l1_entries s !! h = Some e ∧ is_associated e = true ∧ mgrp_hdl e = g;
  mr_NoDup g l : s_groups A !! g = Some l → NoDup l;
  mr_lags : lag_entries s = lag_entry <$> s_lags A;
}.

Lemma mr_group s A g : refines s A → s_groups A !! g = l1_list <$> mgid_entries s !! g.
Proof. intros R. by rewrite (mr_groups s A R), lookup_fmap. Qed.

Lemma valid_node s A h : refines s A → HandleMgr.valid_handle (l1_handles s) h = bool_decide (is_Some (s_nodes A !! h)).
Proof. intros R. unfold HandleMgr.valid_handle. rewrite (proj1 (mr_l1 s A R)). apply bool_decide_ext, elem_of_dom. Qed.

(** The entry of a node says whether it is associated. *)
Lemma associated_iff s A h e : refines s A → l1_entries s !! h = Some e → is_associated e = true ↔ associated A h.
Proof.
  intros R He. split.
  - intros Ha. destruct (proj1 (mr_dom s A R h) (mk_is_Some _ _ He)) as [n Hn]. destruct (mr_node s A R h n Hn) as (e' & e2 & []).
    rewrite He in ni_l3. injection ni_l3 as <-. destruct (ni_assoc0 Ha) as (l & ? & ?). by exists (mgrp_hdl e), l.
  - intros (g & l & Hg & Hh). destruct (mr_member s A R g l h Hg Hh) as (e' & He' & Ha & _). rewrite He in He'. by injection He' as <-.
Qed.

Lemma size_le_list (X : gset Z) (l : list Z) : (∀ x, x ∈ X → x ∈ l) → (size X ≤ length l)%nat.
Proof.
  intros Hall. change (size X) with (length (elements X)). apply submseteq_length, NoDup_submseteq; [apply NoDup_elements|].
  intros x Hx%elem_of_elements. auto.
Qed.

(** There are as many entries of the second level as of the first. *)
Lemma l2_size s A : refines s A → (size (l2_entries s) ≤ size (l1_entries s))%nat.
Proof.
  intros R. rewrite <-(size_dom (D := gset Z) (l2_entries s)).
  transitivity (length (l2_hdl <$> (map_to_list (l1_entries s)).*2)); [|by rewrite !length_fmap, length_map_to_list].
  apply size_le_list. intros h2 [e2 He2]%elem_of_dom. destruct (mr_back s A R h2 e2 He2) as (e & He & <-).
  apply list_elem_of_fmap_2, list_elem_of_fmap. exists (l1_hdl e2, e). split; [done|]. by apply elem_of_map_to_list.
Qed.

Lemma l1_size s A : refines s A → size (l1_entries s) = size (s_nodes A).
Proof.
  intros R. rewrite <-!(size_dom (D := gset Z)). f_equal. apply set_eq. intros h. rewrite !elem_of_dom. apply (mr_dom s A R).
Qed.

Lemma groups_size s A : refines s A → size (mgid_entries s) = size (s_groups A).
Proof. intros R. by rewrite (mr_groups s A R), map_size_fmap. Qed.

Lemma new_pre_refines : refines new {| s_groups := ∅; s_nodes := ∅; s_lags := ∅ |}.
Proof.
  constructor; cbn; try done; try (intros ?; rewrite !lookup_empty; intros; discriminate).
  - rewrite dom_empty_L. apply HandleMgr.rep_null.
  - rewrite dom_empty_L. apply HandleMgr.rep_null.
  - intros h. by rewrite !lookup_empty.
Qed.

(** Whether an operation is allowed: a group is destroyed only when it has no nodes. *)
Definition mop_ok A (o : mop) : Prop :=
  match o with MgrpDestroy g => s_groups A !! g = None ∨ s_groups A !! g = Some [] | _ => True end.

(** A change of the groups alone. *)
Lemma refines_groups s A ms G :
  refines s A → G = l1_list <$> ms →
  (∀ g l, s_groups A !! g = Some l → (∃ h, h ∈ l) → G !! g = Some l) →
  (∀ g l, G !! g = Some l → NoDup l ∧ ∀ h, h ∈ l → s_groups A !! g = Some l) →
  refines (with_mgids s ms) {| s_groups := G; s_nodes := s_nodes A; s_lags := s_lags A |}.
Proof.
  intros R E Hk Hn. destruct R. constructor; cbn; try done.
  - intros h n Hh. destruct (mr_node0 h n Hh) as (e & e2 & []). exists e, e2. constructor; cbn; try done.
    intros Ha. destruct (ni_assoc0 Ha) as (l & Hl & Hin). exists l. split; [|done]. apply Hk; [done|by exists h].
  - intros g l h Hg Hin. destruct (Hn g l Hg) as [_ Hs]. eapply mr_member0; [by apply (Hs h)|done].
  - intros g l Hg. by apply (Hn g l Hg).
Qed.

Lemma pre_mgrp_create s A g : refines s A → ∃ s' rc out A', exec s (MgrpCreate g) = Some (s', rc, out) ∧ mstep A (MgrpCreate g) rc out A' ∧ refines s' A'.
Proof.
  intros R. cbn. unfold mc_mgrp_create. rewrite (groups_size s A R). destruct (Z.leb_spec MGID_TABLE_SIZE (Z.of_nat (size (s_groups A)))).
  { eexists _, _, _, A. split; [done|]. split; [by apply m_create_full|done]. }
  pose proof (mr_group s A g R) as Hg. destruct (mgid_entries s !! g) as [m|] eqn:Em; cbn in Hg.
  { eexists _, _, _, A. split; [done|]. split; [by apply m_create_again|done]. }
  eexists _, _, _, _. split; [done|]. split; [by apply m_create|]. apply refines_groups; [done| | |].
  - by rewrite fmap_insert, (mr_groups s A R).
  - intros g' l Hl [h Hh]. rewrite lookup_insert_ne; [done|]. intros ->. congruence.
  - intros g' l [[<- <-]|[Hne Hl]]%lookup_insert_Some; [split; [constructor|by intros h ?%elem_of_nil]|]. split; [by apply (mr_NoDup s A R g')|done].
Qed.

Lemma pre_mgrp_destroy s A g : refines s A → mop_ok A (MgrpDestroy g) →
  ∃ s' rc out A', exec s (MgrpDestroy g) = Some (s', rc, out) ∧ mstep A (MgrpDestroy g) rc out A' ∧ refines s' A'.
Proof.
  intros R Hok. cbn. eexists _, _, _, _. split; [done|]. split; [apply m_destroy|]. apply refines_groups; [done| | |].
  - by rewrite fmap_delete, (mr_groups s A R).
  - intros g' l Hl [h Hh]. rewrite lookup_delete_ne; [done|]. intros ->. destruct Hok as [Hg|Hg]; rewrite Hl in Hg; [done|]. injection Hg as ->. by apply elem_of_nil in Hh.
  - intros g' l [Hne Hl]%lookup_delete_Some. split; [by apply (mr_NoDup s A R g')|done].
Qed.

Lemma pre_node_create s A r p l : refines s A →
  ∃ s' rc out A', exec s (NodeCreate r p l) = Some (s', rc, out) ∧ mstep A (NodeCreate r p l) rc out A' ∧ refines s' A'.
Proof.
  intros R. cbn. unfold mc_node_create. pose proof (l1_size s A R) as H1. pose proof (l2_size s A R) as H2. rewrite H1.
  destruct (Z.leb_spec L1_MAX_ENTRIES (Z.of_nat (size (s_nodes A)))).
  { eexists _, _, _, A. split; [done|]. split; [by apply m_node_full|done]. }
  unfold L1_MAX_ENTRIES in *. rewrite (proj2 (Z.leb_gt L2_MAX_ENTRIES _)) by (unfold L2_MAX_ENTRIES; lia).
  destruct (HandleMgr.get_handle_least _ _ (mr_l1 s A R)) as (h1 & -> & Hw1 & Hh1 & Hlt & _ & Hrep1); [rewrite size_dom; lia|].
  destruct (HandleMgr.get_handle_least _ _ (mr_l2 s A R)) as (h2 & -> & _ & Hh2 & _ & _ & Hrep2); [rewrite size_dom; lia|].
  rewrite not_elem_of_dom in Hh1. rewrite not_elem_of_dom in Hh2. setoid_rewrite elem_of_dom in Hlt.
  assert (l1_entries s !! h1 = None) as Hn1. { apply eq_None_not_Some. rewrite (mr_dom s A R). rewrite Hh1. by intros []. }
  eexists _, _, _, _. split; [done|]. split; [by apply (m_node A r p l h1)|]. destruct R. constructor; cbn; try done.
  - by rewrite dom_insert_L.
  - by rewrite dom_insert_L.
  - intros h. rewrite !lookup_insert_is_Some, mr_dom0. done.
  - intros h n [[<- <-]|[Hne Hn]]%lookup_insert_Some.
    + eexists _, _. constructor; cbn; [apply lookup_insert_eq|apply lookup_insert_eq|done|done|done].
    + destruct (mr_node0 h n Hn) as (e & e2 & []). exists e, e2. constructor; cbn; try done; [by rewrite lookup_insert_ne|].
      rewrite lookup_insert_ne; [done|]. intros ->. congruence.
  - intros h e2 [[<- <-]|[Hne He]]%lookup_insert_Some; [cbn; eexists; split; [apply lookup_insert_eq|done]|].
    destruct (mr_back0 h e2 He) as (e & He1 & <-). exists e. split; [|done]. rewrite lookup_insert_ne; [done|]. intros ->. congruence.
  - intros g' l' h Hg Hh. destruct (mr_member0 g' l' h Hg Hh) as (e & He & ? & ?). exists e. split; [|done]. rewrite lookup_insert_ne; [done|]. intros ->. congruence.
Qed.

Lemma pre_node_update s A h p l : refines s A →
  ∃ s' rc out A', exec s (NodeUpdate h p l) = Some (s', rc, out) ∧ mstep A (NodeUpdate h p l) rc out A' ∧ refines s' A'.
Proof.
  intros R. cbn. unfold mc_node_update. rewrite (valid_node s A h R). case_bool_decide as Hv; cbn [negb]; msimpl.
  2:{ eexists _, _, _, A. split; [done|]. split; [apply m_update_invalid; by apply eq_None_not_Some|done]. }
  destruct Hv as [n Hn]. destruct (mr_node s A R h n Hn) as (e & e2 & Hni). pose proof Hni as []. rewrite ni_l3. msimpl. rewrite ni_l4. msimpl.
  eexists _, _, _, _. split; [done|]. split; [by apply (m_update A h p l n)|]. destruct R. constructor; cbn; try done.
  - by rewrite dom_insert_lookup_L.
  - by rewrite dom_insert_lookup_L.
  - intros h'. rewrite mr_dom0, lookup_insert_is_Some. split; [intros Hs; destruct (decide (h = h')); auto|]. intros [<-|[_ ?]]; [by exists n|done].
  - intros h' n' [[<- <-]|[Hne Hn']]%lookup_insert_Some.
    + eexists e, _. constructor; cbn; [done|apply lookup_insert_eq|done|by subst n|done].
    + destruct (mr_node0 h' n' Hn') as (e' & e2' & []). exists e', e2'. constructor; cbn; try done.
      rewrite lookup_insert_ne; [done|]. intros Eh. rewrite <-Eh in *. congruence.
  - intros h' e2' [[<- <-]|[Hne He]]%lookup_insert_Some; [cbn; exists e; split; [by rewrite ni_back0|done]|by apply mr_back0].
Qed.

Lemma pre_set_lag s A lag p : refines s A →
  ∃ s' rc out A', exec s (SetLag lag p) = Some (s', rc, out) ∧ mstep A (SetLag lag p) rc out A' ∧ refines s' A'.
Proof.
  intros R. cbn. unfold mc_set_lag_membership. destruct (Z.ltb_spec LAG_MAX_ENTRIES lag).
  { eexists _, _, _, A. split; [done|]. split; [by apply m_lag_error|done]. }
  eexists _, _, _, _. split; [done|]. split; [by apply m_lag|]. destruct R. constructor; cbn; try done.
  - intros h n Hn. destruct (mr_node0 h n Hn) as (e & e2 & []). exists e, e2. by constructor.
  - by rewrite mr_lags0, fmap_insert.
Qed.

(** A node is in one group at most. *)
Lemma member_one s A h e g l : refines s A → l1_entries s !! h = Some e → s_groups A !! g = Some l → h ∈ l → is_associated e = true ∧ mgrp_hdl e = g.
Proof. intros R He Hg Hh. destruct (mr_member s A R g l h Hg Hh) as (e' & He' & ? & ?). rewrite He in He'. by injection He' as <-. Qed.

(** The node [h] joins or leaves the group [g]. *)
Lemma refines_member s A g m' h e b :
  refines s A → l1_entries s !! h = Some e → is_Some (s_groups A !! g) → (b = false → mgrp_hdl e = g) →
  (∀ x l, s_groups A !! g = Some l → x ≠ h → x ∈ l1_list m' ↔ x ∈ l) → (h ∈ l1_list m' ↔ b = true) → NoDup (l1_list m') →
  (∀ g2 l2, g2 ≠ g → s_groups A !! g2 = Some l2 → h ∉ l2) →
  refines (with_l1 (with_mgids s (<[g := m']> (mgid_entries s))) (<[h := associate_entry e g b]> (l1_entries s)) (l1_handles s))
    (set_group A g (l1_list m')).
Proof.
  intros R He [l Hl] Hb Hx Hh Hnd Ho. specialize (λ x, Hx x l Hl). pose proof (proj1 (mr_dom s A R h) (mk_is_Some _ _ He)) as Hnode.
  destruct R. constructor; cbn; try done.
  - by rewrite fmap_insert, mr_groups0.
  - intros h'. rewrite lookup_insert_is_Some, mr_dom0. split; [intros [<-|[_ ?]]; done|]. destruct (decide (h = h')); auto.
  - intros h' n Hn. destruct (mr_node0 h' n Hn) as (e' & e2 & []). destruct (decide (h' = h)) as [->|Hne].
    + assert (e' = e) as -> by congruence. exists (associate_entry e g b), e2. constructor; cbn; try done; [apply lookup_insert_eq|].
      intros ->. exists (l1_list m'). split; [apply lookup_insert_eq|by apply Hh].
    + exists e', e2. constructor; cbn; try done; [by rewrite lookup_insert_ne|].
      intros Ha. destruct (ni_assoc0 Ha) as (l0 & Hl0 & Hin). destruct (decide (mgrp_hdl e' = g)) as [Eg|].
      * rewrite Eg in *. assert (l0 = l) as -> by congruence. exists (l1_list m'). split; [apply lookup_insert_eq|by apply Hx].
      * exists l0. by rewrite lookup_insert_ne.
  - intros h2 e2 He2. destruct (mr_back0 h2 e2 He2) as (e' & He' & <-). destruct (decide (l1_hdl e2 = h)) as [<-|].
    + assert (e' = e) as -> by congruence. eexists. split; [apply lookup_insert_eq|done].
    + exists e'. by rewrite lookup_insert_ne.
  - intros g' l' h' [[<- <-]|[Hne Hg']]%lookup_insert_Some Hin.
    + destruct (decide (h' = h)) as [->|]; [eexists; split; [apply lookup_insert_eq|]; split; [by apply Hh|done]|].
      rewrite lookup_insert_ne by done. apply (mr_member0 g l h' Hl). by apply Hx.
    + rewrite lookup_insert_ne; [by apply (mr_member0 g' l' h')|]. intros ->. by apply (Ho g' l').
  - intros g' l' [[<- <-]|[Hne Hg']]%lookup_insert_Some; [done|by apply (mr_NoDup0 g')].
Qed.

Lemma pre_node_associate s A g h : refines s A →
  ∃ s' rc out A', exec s (NodeAssociate g h) = Some (s', rc, out) ∧ mstep A (NodeAssociate g h) rc out A' ∧ refines s' A'.
Proof.
  intros R. cbn. unfold mc_node_associate. rewrite (valid_node s A h R). case_bool_decide as Hv; cbn [negb]; msimpl.
  2:{ eexists _, _, _, A. split; [done|]. split; [apply m_assoc_invalid; by apply eq_None_not_Some|done]. }
  pose proof (mr_group s A g R) as Hg. destruct (mgid_entries s !! g) as [m|] eqn:Em; cbn in Hg; msimpl.
  2:{ eexists _, _, _, A. split; [done|]. split; [by apply m_assoc_no_group|done]. }
  destruct (proj2 (mr_dom s A R h) Hv) as [e He]. rewrite He. msimpl. pose proof (associated_iff s A h e R He) as Ha.
  destruct (is_associated e); msimpl.
  { eexists _, _, _, A. split; [done|]. split; [apply (m_assoc_again A g h (l1_list m)); [done|done|by apply Ha]|done]. }
  assert (¬ associated A h) as Hna by (intros ?%Ha; done).
  eexists _, _, _, _. split; [done|]. split; [by apply (m_assoc A g h (l1_list m))|].
  apply (refines_member s A g {| mgid := mgid m; l1_list := l1_list m ++ [h] |} h e true); try done; cbn.
  - intros x l Hl Hne. assert (l = l1_list m) as -> by congruence. set_solver.
  - split; [done|]. intros _. set_solver.
  - apply NoDup_app. split; [by apply (mr_NoDup s A R g)|]. split; [|apply NoDup_singleton].
    intros x Hx ->%list_elem_of_singleton. apply Hna. by exists g, (l1_list m).
  - intros g2 l2 _ Hl2 Hin. apply Hna. by exists g2, l2.
Qed.

Lemma pre_node_dissociate s A g h : refines s A →
  ∃ s' rc out A', exec s (NodeDissociate g h) = Some (s', rc, out) ∧ mstep A (NodeDissociate g h) rc out A' ∧ refines s' A'.
Proof.
  intros R. cbn. unfold mc_node_dissociate. rewrite (valid_node s A h R). case_bool_decide as Hv; cbn [negb]; msimpl.
  2:{ eexists _, _, _, A. split; [done|]. split; [apply m_dissoc_invalid; by apply eq_None_not_Some|done]. }
  pose proof (mr_group s A g R) as Hg. destruct (mgid_entries s !! g) as [m|] eqn:Em; cbn in Hg; msimpl.
  2:{ eexists _, _, _, A. split; [done|]. split; [by apply m_dissoc_no_group|done]. }
  destruct (proj2 (mr_dom s A R h) Hv) as [e He]. rewrite He. msimpl.
  destruct (Hv) as [n Hn]. destruct (mr_node s A R h n Hn) as (e' & e2 & []). assert (e' = e) as -> by congruence.
  destruct (decide (h ∈ l1_list m)) as [Hin|Hin].
  - destruct (member_one s A h e g (l1_list m) R He Hg Hin) as [Ha <-]. rewrite Ha, Z.eqb_refl. cbn [negb orb]. msimpl.
    eexists _, _, _, _. split; [done|]. split; [by apply (m_dissoc A _ h (l1_list m))|].
    apply (refines_member s A (mgrp_hdl e) (node_dissociate m h) h e false); try done; cbn.
    + intros x l Hl Hne. assert (l = l1_list m) as -> by congruence. rewrite list_elem_of_filter. naive_solver.
    + rewrite list_elem_of_filter. split; [by intros [? _]|done].
    + apply NoDup_filter. by apply (mr_NoDup s A R (mgrp_hdl e)).
    + intros g2 l2 Hne Hl2 Hin2. by destruct (member_one s A h e g2 l2 R He Hl2 Hin2) as [_ ?].
  - assert (negb (is_associated e) || negb (mgrp_hdl e =? g) = true) as ->.
    { destruct (is_associated e); [|done]. destruct (Z.eqb_spec (mgrp_hdl e) g) as [Eg|]; [|done].
      destruct (ni_assoc0 eq_refl) as (l & Hl & ?). rewrite Eg in Hl. assert (l = l1_list m) as -> by congruence. done. }
    msimpl. eexists _, _, _, A. split; [done|]. split; [by apply (m_dissoc_not A g h (l1_list m))|done].
Qed.

(** The groups after a node is taken out of the one it is in. *)
Lemma groups_without s A h e ms :
  refines s A → l1_entries s !! h = Some e →
  (if is_associated e then ∃ m, mgid_entries s !! mgrp_hdl e = Some m ∧ ms = <[mgrp_hdl e := node_dissociate m h]> (mgid_entries s) else ms = mgid_entries s) →
  l1_list <$> ms = filter (λ x, x ≠ h) <$> s_groups A.
Proof.
  intros R He Hms. apply map_eq. intros g. rewrite !lookup_fmap.
  assert ((is_associated e = true → mgrp_hdl e ≠ g) → l1_list <$> mgid_entries s !! g = filter (λ x, x ≠ h) <$> s_groups A !! g) as Hkeep.
  { intros Hne. rewrite <-(mr_group s A g R). destruct (s_groups A !! g) as [l|] eqn:El; [|done]. cbn. f_equal.
    symmetry. assert (∀ x, x ∈ l → x ≠ h) as Hall; [|clear -Hall; induction l as [|x l IH]; [done|]; rewrite filter_cons_True by (apply Hall; set_solver); f_equal; apply IH; set_solver].
    intros x Hx ->. destruct (member_one s A h e g l R He El Hx). by apply Hne. }
  destruct (is_associated e); [|subst ms; by apply Hkeep].
  destruct Hms as (m & Hm & ->). destruct (decide (mgrp_hdl e = g)) as [<-|]; [|rewrite lookup_insert_ne by done; by apply Hkeep].
  rewrite lookup_insert_eq, (mr_group s A _ R), Hm. done.
Qed.

Lemma pre_node_destroy s A h : refines s A →
  ∃ s' rc out A', exec s (NodeDestroy h) = Some (s', rc, out) ∧ mstep A (NodeDestroy h) rc out A' ∧ refines s' A'.
Proof.
  intros R. cbn. unfold mc_node_destroy. rewrite (valid_node s A h R). case_bool_decide as Hv; cbn [negb]; msimpl.
  2:{ eexists _, _, _, A. split; [done|]. split; [apply m_node_destroy_invalid; by apply eq_None_not_Some|done]. }
  pose proof Hv as [n Hn]. destruct (mr_node s A R h n Hn) as (e & e2 & []). rewrite ni_l3. msimpl.
  destruct (HandleMgr.release_handle_ok _ _ h (mr_l1 s A R)) as [Hr1 Hrep1]; [by apply elem_of_dom|].
  destruct (HandleMgr.release_handle_ok _ _ (l2_hdl e) (mr_l2 s A R)) as [Hr2 Hrep2]; [apply elem_of_dom; by eexists|].
  assert (∃ ms, (if is_associated e then m ← mgid_entries s !! mgrp_hdl e; Some (with_mgids s (<[mgrp_hdl e := node_dissociate m h]> (mgid_entries s)))
       else Some s) = Some (with_mgids s ms) ∧ l1_list <$> ms = filter (λ x, x ≠ h) <$> s_groups A) as (ms & -> & Hms).
  { pose proof (groups_without s A h e) as Hw. destruct (is_associated e).
    - destruct (ni_assoc0 eq_refl) as (l & Hl & _). rewrite (mr_group s A _ R) in Hl.
      destruct (mgid_entries s !! mgrp_hdl e) as [m|] eqn:Em; [|done]. msimpl. eexists. split; [done|]. apply Hw; eauto.
    - exists (mgid_entries s). split; [by destruct s|]. by apply Hw. }
  msimpl. cbn. rewrite Hr2, Hr1. cbn. eexists _, _, _, _. split; [done|]. split; [by apply m_node_destroy|]. destruct R. constructor; cbn; try done.
  - by rewrite dom_delete_L.
  - by rewrite dom_delete_L.
  - intros h'. rewrite !lookup_delete_is_Some, mr_dom0. done.
  - intros h' n' [Hne Hn']%lookup_delete_Some. destruct (mr_node0 h' n' Hn') as (e' & e2' & []). exists e', e2'. constructor; cbn; try done.
    + by rewrite lookup_delete_ne.
    + rewrite lookup_delete_ne; [done|]. intros Eh. rewrite <-Eh in *. congruence.
    + intros Ha. destruct (ni_assoc1 Ha) as (l & Hl & Hin). exists (filter (λ x, x ≠ h) l). rewrite lookup_fmap, Hl. split; [done|].
      apply list_elem_of_filter. split; [by intros ->|done].
  - intros h2 e2' [Hne He2]%lookup_delete_Some. destruct (mr_back0 h2 e2' He2) as (e' & He' & <-). exists e'. split; [|done].
    rewrite lookup_delete_ne; [done|]. intros Eh. rewrite <-Eh in *. congruence.
  - intros g l h'. rewrite lookup_fmap, fmap_Some. intros (l0 & Hl0 & ->) [Hne Hin]%list_elem_of_filter.
    rewrite lookup_delete_ne by done. by apply (mr_member0 g l0).
  - intros g l. rewrite lookup_fmap, fmap_Some. intros (l0 & Hl0 & ->). apply NoDup_filter. by apply (mr_NoDup0 g).
Qed.

Lemma pre_reset s : refines (reset_state s) {| s_groups := ∅; s_nodes := ∅; s_lags := ∅ |}.
Proof. apply new_pre_refines. Qed.

Lemma pre_exec s A o : refines s A → mop_ok A o → ∃ s' rc out A', exec s o = Some (s', rc, out) ∧ mstep A o rc out A' ∧ refines s' A'.
Proof.
  intros R Hok. destruct o.
  - by apply pre_mgrp_create. - by apply pre_mgrp_destroy. - by apply pre_node_create. - by apply pre_node_destroy.
  - by apply pre_node_associate. - by apply pre_node_dissociate. - by apply pre_node_update. - by apply pre_set_lag.
  - eexists _, _, _, _. split; [done|]. split; [apply m_reset|apply pre_reset].
Qed.

(** ** Replication *)

Lemma lag_copies_spec s A r lag : refines s A → lag_copies s r lag = lag_port A r lag.
Proof.
  intros R. unfold lag_copies, lag_port. rewrite (mr_lags s A R), lookup_fmap. destruct (s_lags A !! lag) as [m|]; [|done]. cbn.
  destruct (Z.eqb_spec (Z.of_nat (length (ports_from 0 m))) 0) as [E|E].
  { destruct (ports_from 0 m); [by rewrite Zmod_0_r|cbn in E; lia]. }
  pose proof (Z.mod_pos_bound lag_hash (Z.of_nat (length (ports_from 0 m)))).
  by rewrite <-(lag_loop_nth m 0 0) by lia.
Qed.

Lemma node_copies_spec s A h n : refines s A → s_nodes A !! h = Some n → node_copies s h = Some (node_out A n).
Proof.
  intros R Hn. destruct (mr_node s A R h n Hn) as (e & e2 & []). unfold node_copies. rewrite ni_l3. msimpl. rewrite ni_l4. msimpl.
  subst n. unfold node_out. cbn. do 3 f_equal. apply list_fmap_ext. intros i lag _. by apply lag_copies_spec.
Qed.

(** What the engine answers for a sequence of operations. *)
Fixpoint run_ops s (os : list mop) : option (Pre J * list (McReturnCode * option Z)) :=
  match os with
  | [] => Some (s, [])
  | o :: os => '(s, rc, out) ← exec s o; '(s, outs) ← run_ops s os; Some (s, (rc, out) :: outs)
  end.

(** No group is destroyed while it has nodes. *)
Fixpoint ops_ok s (os : list mop) : bool :=
  match os with
  | [] => true
  | o :: os =>
      match o with MgrpDestroy g => match mgid_entries s !! g with Some m => match l1_list m with [] => true | _ => false end | None => true end | _ => true end
      && match exec s o with Some (s, _, _) => ops_ok s os | None => true end
  end.

(** What the specification allows for it. *)
Inductive spec_run : Groups → list mop → list (McReturnCode * option Z) → Groups → Prop :=
  | run_nil A : spec_run A [] [] A
  | run_cons A o rc out A1 os outs A2 : mstep A o rc out A1 → spec_run A1 os outs A2 → spec_run A (o :: os) ((rc, out) :: outs) A2.

Lemma pre_run os : ∀ s A, refines s A → ops_ok s os = true → ∃ s' outs A', run_ops s os = Some (s', outs) ∧ spec_run A os outs A' ∧ refines s' A'.
Proof.
  induction os as [|o os IH]; intros s A R Hok.
  { exists s, [], A. split; [done|]. split; [constructor|done]. }
  cbn [ops_ok] in Hok. apply andb_true_iff in Hok as [Ho Hok].
  destruct (pre_exec s A o R) as (s1 & rc & out & A1 & E & Hs & R1).
  { destruct o; try done. cbn. rewrite (mr_group s A _ R). destruct (mgid_entries s !! g) as [m|]; [|by left]. right. cbn. by destruct (l1_list m). }
  rewrite E in Hok. destruct (IH s1 A1 R1 Hok) as (s' & outs & A' & Er & Hr & R'). exists s', ((rc, out) :: outs), A'.
  cbn [run_ops]. rewrite E. msimpl. rewrite Er. split; [done|]. split; [by econstructor|done].
Qed.

(** C8: From the state the engine starts in, no sequence of operations that
    destroys groups only when they are empty makes it throw or fail an
    assertion; its return codes and handles are those of the specification,
    and replication then gives a copy for each port of each node of the group,
    in the order in which the nodes were associated, with the node's
    replication id, and one for each link aggregation group that has ports. *)
Theorem pre_refines (os : list mop) :
  ops_ok new os = true →
  ∃ s outs A, run_ops new os = Some (s, outs) ∧ spec_run {| s_groups := ∅; s_nodes := ∅; s_lags := ∅ |} os outs A ∧
    ∀ g, replicate s g = Some (copies A g).
Proof.
  intros Hok. destruct (pre_run os new _ new_pre_refines Hok) as (s & outs & A & Er & Hr & R). exists s, outs, A.
  split; [done|]. split; [done|]. intros g. unfold replicate, copies. rewrite (mr_group s A g R).
  destruct (mgid_entries s !! g) as [m|] eqn:Em; [|done]. cbn.
  assert (∀ l, (∀ h, h ∈ l → is_Some (s_nodes A !! h)) →
    mapM (node_copies s) l = Some ((λ h, match s_nodes A !! h with Some n => node_out A n | None => [] end) <$> l)) as Hl.
  { induction l as [|h l IH]; intros Hall; [done|]. destruct (Hall h) as [n Hn]; [set_solver|].
    cbn [mapM]. rewrite (node_copies_spec s A h n R Hn). msimpl. rewrite IH by set_solver. cbn. by rewrite Hn. }
  rewrite Hl; [|intros h Hh; apply (mr_dom s A R); destruct (mr_member s A R g (l1_list m) h) as (e & He & _); [by rewrite (mr_group s A g R), Em|done|by exists e]].
  msimpl. f_equal. induction (l1_list m) as [|h l IH]; [done|]. cbn. by rewrite IH.
Qed.
End refinement.

(** Two nodes in a group, one with a link aggregation group, and one taken out. *)
Definition two_nodes : list mop :=
  [MgrpCreate 7; NodeCreate 1 [true; false; true] []; NodeCreate 2 [false; true] [true]; SetLag 0 [false; false; false; true; true];
   NodeAssociate 7 1; NodeAssociate 7 0; NodeAssociate 7 0; NodeCreate 3 [] []; NodeAssociate 7 2; NodeDestroy 2; MgrpDestroy 8].

Example two_nodes_copies :
  (r ← run_ops (J := gset Z) new two_nodes; replicate r.1 7) =
  Some [ {| rid := 2; egress_port := 1 |}; {| rid := 2; egress_port := 4 |}; {| rid := 1; egress_port := 0 |}; {| rid := 1; egress_port := 2 |} ].
Proof. vm_compute. reflexivity. Qed.

Lemma pre_refines_witness :
  ∃ s outs A, run_ops (J := gset Z) new two_nodes = Some (s, outs) ∧ spec_run {| s_groups := ∅; s_nodes := ∅; s_lags := ∅ |} two_nodes outs A ∧
    ∀ g, replicate s g = Some (copies A g).
Proof. apply (pre_refines (J := gset Z) two_nodes). vm_compute. reflexivity. Defined.

(** ** A group that is destroyed while it has a node *)

Definition group_gone : list mop := [MgrpCreate 7; NodeCreate 1 [true] []; NodeAssociate 7 0; MgrpDestroy 7].

(** After a group is destroyed while it has a node, the node cannot be
    dissociated, nor associated with another group or with the one created
    anew, and to destroy it throws. *)
Theorem destroyed_group :
  ∃ s outs, run_ops (J := gset Z) new group_gone = Some (s, outs) ∧ outs.*1 = [SUCCESS; SUCCESS; SUCCESS; SUCCESS] ∧
    (mc_node_dissociate s 7 0 = Some (s, INVALID_MGRP_HANDLE)) ∧
    mc_node_destroy s 0 = None ∧
    (let s := (mc_mgrp_create s 8).1 in mc_node_associate s 8 0 = Some (s, ERROR)) ∧
    (let s := (mc_mgrp_create s 7).1 in mc_node_associate s 7 0 = Some (s, ERROR) ∧ replicate s 7 = Some []).
Proof. eexists _, _. split; [vm_compute; reflexivity|]. vm_compute. by split_and!. Qed.

(** The sets of ports of link aggregation groups can be given for 257 of them, one more than [LAG_MAX_ENTRIES]. *)
Theorem one_lag_more (s : Pre (gset Z)) p : (mc_set_lag_membership s 256 p).2 = SUCCESS ∧ (mc_set_lag_membership s 257 p).2 = ERROR.
Proof. done. Qed.
End SimplePreSpec.
