(* ===== verification/Queue.v ===== *)
(** * A bounded queue between threads (include/bm/bm_sim/queue.h)

    The class is a monitor: a deque under a mutex, with a condition variable
    for readers and one for writers. What a thread does between taking the
    mutex and releasing it, in [wait] or at the end, is one step of the model;
    a notification comes after the mutex is released and is a step of its own.
    The thread that a notification wakes, and wakeups without notification, are
    chosen by the label of the step. *)

From stdpp Require Import gmap.
From S2P Require Import Prelude.

Module Queue.

Inductive WriteBehavior := WriteBlock | WriteReturn.

Section queue.
Context {T : Type}.

(** Where a call of a thread is. *)
Inductive pc :=
  | PushEnter (item : T)     (** to take the mutex, for the first time or after a wait *)
  | PushWait (item : T)      (** in [q_not_full.wait] *)
  | PushNotify               (** the item is in, the mutex released *)
  | PopEnter | PopWait | PopNotify.

Record state := {
  capacity : Z;
  queue : list T;            (** the front first *)
  wb : WriteBehavior;
  threads : gmap Z pc;       (** the threads that are in a call *)
}.

Definition new (capacity : Z) (wb : WriteBehavior) : state := {| capacity := capacity; queue := []; wb := wb; threads := ∅ |}.

Implicit Types (s : state) (t : Z) (ths : gmap Z pc).

Definition set_threads s ths : state := {| capacity := capacity s; queue := queue s; wb := wb s; threads := ths |}.
Definition set_queue s (q : list T) : state := {| capacity := capacity s; queue := q; wb := wb s; threads := threads s |}.
Definition set_capacity s (c : Z) : state := {| capacity := c; queue := queue s; wb := wb s; threads := threads s |}.
Definition goto s t (p : pc) : state := set_threads s (<[t := p]> (threads s)).
Definition leave s t : state := set_threads s (delete t (threads s)).

Definition is_not_empty s : bool := 0 <? Z.of_nat (length (queue s)).
Definition is_not_full s : bool := Z.of_nat (length (queue s)) <? capacity s.

(** A call ends by an item that went in, or that came out. *)
Inductive event := Pushed (item : T) | Popped (item : T).

Definition push_front s t (item : T) : state * option event :=
  if is_not_full s then (goto (set_queue s (item :: queue s)) t PushNotify, Some (Pushed item)) else
  match wb s with
  | WriteReturn => (leave s t, None)
  | WriteBlock => (goto s t (PushWait item), None)
  end.

Definition pop_back s t : state * option event :=
  if is_not_empty s then
    match last (queue s) with
    | Some item => (goto (set_queue s (take (length (queue s) - 1) (queue s))) t PopNotify, Some (Popped item))
    | None => (s, None)
    end
  else (goto s t PopWait, None).

(** Where a thread is once it is woken. *)
Definition woken_reader (p : pc) : option pc := match p with PopWait => Some PopEnter | _ => None end.
Definition woken_writer (p : pc) : option pc := match p with PushWait item => Some (PushEnter item) | _ => None end.

(** Wakes [w], or nobody when nobody waits. *)
Definition notify_one (woken : pc → option pc) (w : option Z) ths : option (gmap Z pc) :=
  match w with
  | Some t => p ← ths !! t; p' ← woken p; Some (<[t := p']> ths)
  | None => if decide (map_Forall (λ _ p, woken p = None) ths) then Some ths else None
  end.

Inductive label :=
  | CallPush (t : Z) (item : T) | CallPop (t : Z)
  | Run (t : Z)
  | Notify (t : Z) (w : option Z)
  | Spurious (t : Z)
  | SetCapacity (c : Z).

Definition step s (l : label) : option (state * option event) :=
  match l with
  | CallPush t item => match threads s !! t with None => Some (goto s t (PushEnter item), None) | Some _ => None end
  | CallPop t => match threads s !! t with None => Some (goto s t PopEnter, None) | Some _ => None end
  | Run t =>
      match threads s !! t with
      | Some (PushEnter item) => Some (push_front s t item)
      | Some PopEnter => Some (pop_back s t)
      | _ => None
      end
  | Notify t w =>
      match threads s !! t with
      | Some PushNotify => ths ← notify_one woken_reader w (delete t (threads s)); Some (set_threads s ths, None)
      | Some PopNotify => ths ← notify_one woken_writer w (delete t (threads s)); Some (set_threads s ths, None)
      | _ => None
      end
  | Spurious t =>
      match threads s !! t with
      | Some PopWait => Some (goto s t PopEnter, None)
      | Some (PushWait item) => Some (goto s t (PushEnter item), None)
      | _ => None
      end
  | SetCapacity c => Some (set_capacity s c, None)
  end.

Fixpoint run s (ls : list label) : option (state * list event) :=
  match ls with
  | [] => Some (s, [])
  | l :: ls => '(s, e) ← step s l; '(s, es) ← run s ls; Some (s, match e with Some e => e :: es | None => es end)
  end.

(** ** First in, first out *)

Definition pushed (es : list event) : list T := e ← es; match e with Pushed item => [item] | Popped _ => [] end.
Definition popped (es : list event) : list T := e ← es; match e with Popped item => [item] | Pushed _ => [] end.

Lemma step_queue s l s' e : step s l = Some (s', e) →
  match e with
  | None => queue s' = queue s
  | Some (Pushed item) => queue s' = item :: queue s ∧ Z.of_nat (length (queue s)) < capacity s
  | Some (Popped item) => queue s = queue s' ++ [item]
  end.
Proof.
  destruct l as [t item|t|t|t w|t|c]; cbn [step]; try (destruct (threads s !! t) as [[]|]; intros E; simplify_eq; done).
  - destruct (threads s !! t) as [[item| | | | |]|]; intros E; simplify_eq/=; [unfold push_front in E|unfold pop_back in E].
    + destruct (is_not_full s) eqn:Ef; [injection E as <- <-; split; [done|by apply Z.ltb_lt]|]. destruct (wb s); by injection E as <- <-.
    + destruct (is_not_empty s); [|by injection E as <- <-]. destruct (last (queue s)) as [item|] eqn:El; injection E as <- <-; [|done].
      apply last_Some in El as [q ->]. cbn. rewrite length_app. cbn. rewrite Nat.add_sub, take_app_length. done.
  - destruct (threads s !! t) as [[]|]; intros E; mbind_inv E; done.
  - by intros [= <- <-].
Qed.

Lemma run_queue ls : ∀ s s' es, run s ls = Some (s', es) → reverse (queue s) ++ pushed es = popped es ++ reverse (queue s').
Proof.
  induction ls as [|l ls IH]; intros s s' es E; cbn [run] in E.
  { injection E as <- <-. cbn. by rewrite app_nil_r. }
  destruct (step s l) as [[s1 e]|] eqn:El; [|done]. cbn [mbind option_bind] in E. destruct (run s1 ls) as [[s2 es1]|] eqn:Er; [|done].
  injection E as -> <-. specialize (IH _ _ _ Er). pose proof (step_queue _ _ _ _ El) as Hq. destruct e as [[item|item]|].
  - destruct Hq as [Hq _]. rewrite Hq, reverse_cons, <-app_assoc in IH. exact IH.
  - rewrite Hq, reverse_snoc. exact (f_equal (cons item) IH).
  - by rewrite <-Hq.
Qed.

(** In whatever order threads take the mutex, wake and are notified, the
    items that come out are those that went in, in that order: what has gone in
    is what has come out followed by the queue, from its back. *)
Theorem queue_fifo (c : Z) (b : WriteBehavior) (ls : list label) s es :
  run (new c b) ls = Some (s, es) → pushed es = popped es ++ reverse (queue s).
Proof. intros E%run_queue. done. Qed.

(** The queue never holds more items than the largest capacity it had. *)
Theorem queue_bound (c C : Z) (b : WriteBehavior) (ls : list label) s es :
  0 ≤ c ≤ C → (∀ c', SetCapacity c' ∈ ls → c' ≤ C) → run (new c b) ls = Some (s, es) → Z.of_nat (length (queue s)) ≤ C.
Proof.
  intros Hc Hls. assert (∀ s0, Z.of_nat (length (queue s0)) ≤ C → capacity s0 ≤ C → run s0 ls = Some (s, es) → Z.of_nat (length (queue s)) ≤ C) as Hall.
  2:{ intros E. by apply (Hall (new c b)); cbn; [lia|lia|]. }
  clear Hc c b. revert s es. induction ls as [|l ls IH]; intros s es s0 Hq Hcap E; cbn [run] in E; [by injection E as <- _|].
  destruct (step s0 l) as [[s1 e]|] eqn:El; [|done]. cbn [mbind option_bind] in E. destruct (run s1 ls) as [[s2 es1]|] eqn:Er; [|done].
  injection E as -> _. apply (IH ltac:(set_solver) s es1 s1); [| |done].
  - pose proof (step_queue _ _ _ _ El) as Hs. destruct e as [[item|item]|]; [destruct Hs as [-> ?]; cbn; lia| |by rewrite Hs].
    rewrite Hs, length_app in Hq. lia.
  - destruct l as [t item|t|t|t w|t|c]; cbn [step] in El.
    + destruct (threads s0 !! t); [done|]. by injection El as <- _.
    + destruct (threads s0 !! t); [done|]. by injection El as <- _.
    + destruct (threads s0 !! t) as [[]|]; try done; injection El as El; [unfold push_front in El|unfold pop_back in El];
        repeat case_match; by simplify_eq.
    + destruct (threads s0 !! t) as [[]|]; mbind_inv El; done.
    + destruct (threads s0 !! t) as [[]|]; by simplify_eq.
    + injection El as <- _. apply Hls. set_solver.
Qed.

(** ** No wakeup is lost *)

Inductive tag := TPushEnter | TPushWait | TPushNotify | TPopEnter | TPopWait | TPopNotify.

#[local] Instance tag_eq_dec : EqDecision tag.
Proof. solve_decision. Defined.

Definition tag_of (p : pc) : tag :=
  match p with
  | PushEnter _ => TPushEnter | PushWait _ => TPushWait | PushNotify => TPushNotify
  | PopEnter => TPopEnter | PopWait => TPopWait | PopNotify => TPopNotify
  end.

(** How many threads are at a place. *)
Definition at_tag (k : tag) ths : Z := count_of (λ p, tag_of p = k) ths.

Definition one (p : pc) (k : tag) : Z := if decide (tag_of p = k) then 1 else 0.

Lemma at_insert k ths t p : ths !! t = None → at_tag k (<[t := p]> ths) = at_tag k ths + one p k.
Proof. apply count_insert. Qed.
Lemma at_update k ths t p p' : ths !! t = Some p → at_tag k (<[t := p']> ths) = at_tag k ths - one p k + one p' k.
Proof. apply count_update. Qed.
Lemma at_delete k ths t p : ths !! t = Some p → at_tag k (delete t ths) = at_tag k ths - one p k.
Proof. intros E. unfold at_tag. rewrite (count_delete _ ths t p E). unfold one. lia. Qed.
Lemma at_nonneg k ths : 0 ≤ at_tag k ths.
Proof. unfold at_tag, count_of. lia. Qed.

Lemma at_empty k : at_tag k ∅ = 0.
Proof. apply count_none. intros t p. by rewrite lookup_empty. Qed.
Lemma at_pos ths t p : ths !! t = Some p → 0 < at_tag (tag_of p) ths.
Proof. intros E. by apply (count_pos _ ths t p E). Qed.

(** While a reader waits there are no more items than threads that will pop one
    or wake a reader, and likewise for writers and room. *)
Definition no_lost s : Prop :=
  (0 < at_tag TPopWait (threads s) → Z.of_nat (length (queue s)) ≤ at_tag TPopEnter (threads s) + at_tag TPushNotify (threads s)) ∧
  (0 < at_tag TPushWait (threads s) → capacity s - Z.of_nat (length (queue s)) ≤ at_tag TPushEnter (threads s) + at_tag TPopNotify (threads s)).

(** A notification wakes a thread that waits, or nobody waits. *)
Lemma notify_cases woken w ths ths' :
  notify_one woken w ths = Some ths' →
  (∃ t p p', w = Some t ∧ ths !! t = Some p ∧ woken p = Some p' ∧ ths' = <[t := p']> ths) ∨
  (w = None ∧ ths' = ths ∧ ∀ t p, ths !! t = Some p → woken p = None).
Proof.
  unfold notify_one. destruct w as [t|].
  - destruct (ths !! t) as [p|] eqn:Ep; cbn [mbind option_bind]; [|done]. destruct (woken p) as [p'|] eqn:Ew; [|done].
    intros [= <-]. left. by exists t, p, p'.
  - case_decide as Hall; [|done]. intros [= <-]. right. split; [done|]. split; [done|]. exact Hall.
Qed.

Lemma no_reader ths : (∀ t p, ths !! t = Some p → woken_reader p = None) → at_tag TPopWait ths = 0.
Proof. intros Hall. apply count_none. intros t p E. specialize (Hall t p E). by destruct p. Qed.
Lemma no_writer ths : (∀ t p, ths !! t = Some p → woken_writer p = None) → at_tag TPushWait ths = 0.
Proof. intros Hall. apply count_none. intros t p E. specialize (Hall t p E). by destruct p. Qed.

Ltac counts :=
  repeat match goal with
  | |- context [at_tag ?k (<[?t := ?p]> ?ths)] => rewrite (at_insert k ths t p) by done
  | E : ?ths !! ?t = Some ?q |- context [at_tag ?k (<[?t := ?p]> ?ths)] => rewrite (at_update k ths t q p E)
  | E : ?ths !! ?t = Some ?q |- context [at_tag ?k (delete ?t ?ths)] => rewrite (at_delete k ths t q E)
  end; unfold one; cbn [tag_of]; repeat (case_decide; try done).

(** The capacity is not raised. *)
Definition keeps_capacity s (l : label) : Prop := match l with SetCapacity c => c ≤ capacity s | _ => True end.

Lemma step_no_lost s l s' e : no_lost s → keeps_capacity s l → step s l = Some (s', e) → no_lost s'.
Proof.
  intros [Hr Hw] Hk. pose proof (at_nonneg TPushEnter (threads s)). pose proof (at_nonneg TPopNotify (threads s)).
  pose proof (at_nonneg TPopEnter (threads s)). pose proof (at_nonneg TPushNotify (threads s)).
  destruct l as [t item|t|t|t w|t|c]; cbn [step].
  - destruct (threads s !! t) eqn:E; intros [= <- _]. unfold no_lost. cbn. counts; split; intros; lia.
  - destruct (threads s !! t) eqn:E; intros [= <- _]. unfold no_lost. cbn. counts; split; intros; lia.
  - destruct (threads s !! t) as [[item| | | | |]|] eqn:E; intros [= Es]; pose proof (at_pos _ _ _ E); cbn [tag_of] in *; [unfold push_front in Es|unfold pop_back in Es].
    + destruct (is_not_full s) eqn:Ef; [apply Z.ltb_lt in Ef|apply Z.ltb_ge in Ef; destruct (wb s)]; injection Es as <- _; unfold no_lost; cbn; counts; split; intros; lia.
    + unfold is_not_empty in Es. destruct (Z.ltb_spec 0 (Z.of_nat (length (queue s)))).
      * destruct (last (queue s)); injection Es as <- _; unfold no_lost; cbn; rewrite ?length_take; counts; split; intros; lia.
      * injection Es as <- _. unfold no_lost. cbn. counts; split; intros; lia.
  - destruct (threads s !! t) as [[| | | | |]|] eqn:E; try done; intros Es; mbind_inv Es; pose proof (notify_cases _ _ _ _ E0) as [(u & p & p' & -> & Hu & Hp & ->)|(-> & -> & Hnone)]; unfold no_lost; cbn.
    + destruct p; try done. injection Hp as <-. counts; split; intros; lia.
    + pose proof (no_reader _ Hnone) as Hz. rewrite Hz. revert Hz. counts; split; intros; lia.
    + destruct p; try done. injection Hp as <-. counts; split; intros; lia.
    + pose proof (no_writer _ Hnone) as Hz. rewrite Hz. revert Hz. counts; split; intros; lia.
  - destruct (threads s !! t) as [[| | | | |]|] eqn:E; intros [= <- _]; unfold no_lost; cbn; counts; split; intros; lia.
  - intros [= <- _]. unfold no_lost. cbn in *. split; [done|]. intros Hpos. specialize (Hw Hpos). lia.
Qed.

(** *** Every call goes on *)

(** A step of a call that is under way. *)
Definition internal (l : label) : Prop := match l with Run _ | Notify _ _ => True | _ => False end.

(** The capacity is never raised. *)
Fixpoint lowers (c : Z) (ls : list label) : bool :=
  match ls with
  | [] => true
  | SetCapacity c' :: ls => (c' <=? c) && lowers c' ls
  | _ :: ls => lowers c ls
  end.

Lemma step_capacity s l s' e : step s l = Some (s', e) → capacity s' = match l with SetCapacity c => c | _ => capacity s end.
Proof.
  destruct l as [t item|t|t|t w|t|c]; cbn [step]; try (destruct (threads s !! t) as [[]|]; intros E; mbind_inv E; done).
  - destruct (threads s !! t) as [[item| | | | |]|]; intros E; simplify_eq/=; [unfold push_front in E|unfold pop_back in E]; repeat case_match; by simplify_eq.
  - by intros [= <- _].
Qed.

Lemma run_no_lost ls : ∀ s s' es, no_lost s → lowers (capacity s) ls = true → run s ls = Some (s', es) → no_lost s'.
Proof.
  induction ls as [|l ls IH]; intros s s' es Hs Hl E; cbn [run] in E; [by injection E as <- _|].
  destruct (step s l) as [[s1 e]|] eqn:El; [|done]. cbn [mbind option_bind] in E. destruct (run s1 ls) as [[s2 es1]|] eqn:Er; [|done].
  injection E as -> _. pose proof (step_capacity _ _ _ _ El) as Hc. apply (IH s1 s' es1); [|rewrite Hc|done].
  - apply (step_no_lost s l s1 e Hs); [|done]. destruct l; try done. cbn in Hl. apply andb_true_iff in Hl as [Hl _]. by apply Z.leb_le.
  - destruct l; try done. cbn in Hl. by apply andb_true_iff in Hl as [_ Hl].
Qed.

Lemma at_disjoint k k' ths : k ≠ k' → at_tag k ths + at_tag k' ths ≤ Z.of_nat (size ths).
Proof.
  intros Hne. induction ths as [|t p ths E IH] using map_ind; [by rewrite !at_empty|].
  rewrite !at_insert, map_size_insert_None by done. unfold one. repeat case_decide; try lia. congruence.
Qed.

(** The steps that are left at most. *)
Definition fuel s : Z := 2 * Z.of_nat (size (threads s)) + at_tag TPushEnter (threads s) + at_tag TPopEnter (threads s).

Lemma size_leave ths t p : ths !! t = Some p → Z.of_nat (size (delete t ths)) = Z.of_nat (size ths) - 1.
Proof. intros E. rewrite map_size_delete_Some by done. assert (size ths ≠ 0%nat); [|lia]. intros Hz%map_size_empty_inv. by subst. Qed.

Lemma size_goto ths t p p' : ths !! t = Some p → size (<[t := p']> ths) = size ths.
Proof. intros E. by apply map_size_insert_Some. Qed.

Ltac fuels :=
  unfold fuel; cbn [threads set_threads goto leave set_queue capacity queue wb];
  repeat match goal with
  | E : ?ths !! ?t = Some ?q |- context [size (<[?t := ?p]> ?ths)] => rewrite (size_goto ths t q p E)
  | E : ?ths !! ?t = Some ?q |- context [size (delete ?t ?ths)] => rewrite (size_leave ths t q E)
  end; counts.

Lemma internal_fuel s l s' e : internal l → step s l = Some (s', e) → 0 ≤ fuel s' < fuel s.
Proof.
  intros Hi Es. split. { unfold fuel. pose proof (at_nonneg TPushEnter (threads s')). pose proof (at_nonneg TPopEnter (threads s')). lia. }
  revert Es. destruct l as [t item|t|t|t w|t|c]; try done; cbn [step].
  - destruct (threads s !! t) as [[item| | | | |]|] eqn:E; intros [= Es]; [unfold push_front in Es|unfold pop_back in Es].
    + destruct (is_not_full s); [|destruct (wb s)]; injection Es as <- _; fuels; lia.
    + unfold is_not_empty in Es. destruct (queue s) as [|x q] eqn:Eq; [injection Es as <- _; fuels; lia|].
      cbn [length] in Es. rewrite (proj2 (Z.ltb_lt 0 _)) in Es by lia. destruct (proj2 (last_is_Some (x :: q))) as [y Hy]; [done|]. rewrite Hy in Es.
      injection Es as <- _. fuels; lia.
  - destruct (threads s !! t) as [[| | | | |]|] eqn:E; try done; intros Es; mbind_inv Es; pose proof (notify_cases _ _ _ _ E0) as [(u & p & p' & -> & Hu & Hp & ->)|(-> & -> & Hnone)].
    + destruct p; try done. injection Hp as <-. fuels; lia.
    + fuels; lia.
    + destruct p; try done. injection Hp as <-. fuels; lia.
    + fuels; lia.
Qed.

Lemma internal_run ls : ∀ s s' es, Forall internal ls → run s ls = Some (s', es) → Z.of_nat (length ls) ≤ fuel s.
Proof.
  induction ls as [|l ls IH]; intros s s' es Hi E; [unfold fuel; pose proof (at_nonneg TPushEnter (threads s)); pose proof (at_nonneg TPopEnter (threads s)); cbn; lia|].
  apply Forall_cons in Hi as [Hl Hi]. cbn [run] in E.
  destruct (step s l) as [[s1 e]|] eqn:El; [|done]. cbn [mbind option_bind] in E. destruct (run s1 ls) as [[s2 es1]|] eqn:Er; [|done].
  pose proof (internal_fuel _ _ _ _ Hl El). specialize (IH _ _ _ Hi Er). cbn [length]. lia.
Qed.

Lemma notify_some woken ths : ∃ w ths', notify_one woken w ths = Some ths'.
Proof.
  destruct (decide (map_Forall (λ _ p, woken p = None) ths)) as [Hall|Hnot].
  - exists None, ths. unfold notify_one. by rewrite decide_True.
  - apply map_not_Forall in Hnot as (t & p & E & Hp); [|apply _]. destruct (woken p) as [p'|] eqn:Ew; [|done].
    exists (Some t), (<[t := p']> ths). unfold notify_one. rewrite E. cbn. by rewrite Ew.
Qed.

(** Where every thread is when no call can go on. *)
Lemma stuck_waits s t p : (∀ l, internal l → step s l = None) → threads s !! t = Some p → p = PopWait ∨ ∃ item, p = PushWait item.
Proof.
  intros Hst E. destruct p as [item|item| | | |]; [|right; by exists item| | |by left|].
  - specialize (Hst (Run t) I). cbn in Hst. by rewrite E in Hst.
  - destruct (notify_some woken_reader (delete t (threads s))) as (w & ths' & Hn). specialize (Hst (Notify t w) I). cbn in Hst. by rewrite E, Hn in Hst.
  - specialize (Hst (Run t) I). cbn in Hst. by rewrite E in Hst.
  - destruct (notify_some woken_writer (delete t (threads s))) as (w & ths' & Hn). specialize (Hst (Notify t w) I). cbn in Hst. by rewrite E, Hn in Hst.
Qed.

(** C9: No wakeup is lost, in any interleaving of any threads in which the
    capacity is not raised: the calls under way take at most three steps each
    before all of them have returned or wait, and then a reader waits only on
    an empty queue and a writer only on a full one. *)
Theorem queue_live (c : Z) (b : WriteBehavior) (ls : list label) s es :
  lowers c ls = true → run (new c b) ls = Some (s, es) →
  (∀ ls' s' es', Forall internal ls' → run s ls' = Some (s', es') → Z.of_nat (length ls') ≤ 3 * Z.of_nat (size (threads s))) ∧
  ((∀ l, internal l → step s l = None) →
    ∀ t p, threads s !! t = Some p →
      (p = PopWait ∧ queue s = []) ∨ (∃ item, p = PushWait item ∧ capacity s ≤ Z.of_nat (length (queue s)))).
Proof.
  intros Hl E. split.
  - intros ls' s' es' Hi E'. pose proof (internal_run _ _ _ _ Hi E') as Hf. unfold fuel in Hf. pose proof (at_disjoint TPushEnter TPopEnter (threads s)) as Hd.
    assert (TPushEnter ≠ TPopEnter) as Hne by done. specialize (Hd Hne). lia.
  - intros Hst. assert (no_lost (new c b)) as H0. { unfold no_lost. cbn. rewrite !at_empty. lia. }
    destruct (run_no_lost ls _ _ _ H0 Hl E) as [Hr Hw].
    assert (∀ k, k ≠ TPopWait → k ≠ TPushWait → at_tag k (threads s) = 0) as Hz.
    { intros k Hk1 Hk2. apply count_none. intros t p Ep. by destruct (stuck_waits s t p Hst Ep) as [->|[item ->]]; cbn; intros <-. }
    rewrite (Hz TPopEnter), (Hz TPushNotify) in Hr by done. rewrite (Hz TPushEnter), (Hz TPopNotify) in Hw by done. intros t p Ep. pose proof (at_pos _ _ _ Ep). destruct (stuck_waits s t p Hst Ep) as [->|[item ->]].
    + left. split; [done|]. specialize (Hr H). destruct (queue s); [done|]. cbn in Hr. lia.
    + right. exists item. split; [done|]. specialize (Hw H). lia.
Qed.
End queue.

(** ** Examples *)

(** Two readers wait, a writer fills the queue of one item, wakes one of them, and a second writer waits until it has popped. *)
Definition two_and_two : list (label (T := Z)) :=
  [CallPop 1; CallPop 2; Run 1; Run 2; CallPush 3 30; CallPush 4 40; Run 3; Run 4; Notify 3 (Some 2); Run 2; Notify 2 (Some 4); Run 4; Notify 4 (Some 1); Run 1].

Example two_and_two_runs :
  (λ r, (r.2, queue r.1, map_to_list (threads r.1))) <$> run (new 1 WriteBlock) two_and_two =
  Some ([Pushed 30; Popped 30; Pushed 40; Popped 40], [], [(1, PopNotify)]).
Proof. vm_compute. reflexivity. Qed.

Lemma queue_fifo_witness :
  ∃ s, run (new 1 WriteBlock) two_and_two = Some (s, [Pushed 30; Popped 30; Pushed 40; Popped 40]) ∧
    pushed [Pushed 30; Popped 30; Pushed 40; Popped 40] = popped [Pushed 30; Popped 30; Pushed 40; Popped 40] ++ reverse (queue s).
Proof.
  eexists. split; [vm_compute; reflexivity|]. apply (queue_fifo 1 WriteBlock two_and_two). vm_compute. reflexivity.
Defined.

Lemma queue_bound_witness : ∃ s es, run (new 1 WriteBlock) two_and_two = Some (s, es) ∧ Z.of_nat (length (queue s)) ≤ 1.
Proof.
  eexists _, _. split; [vm_compute; reflexivity|]. eapply (queue_bound 1 1 WriteBlock two_and_two); [lia| |vm_compute; reflexivity].
  intros c' Hin. exfalso. apply list_elem_of_In in Hin. cbn in Hin. repeat (destruct Hin as [Hin|Hin]; [discriminate Hin|]). exact Hin.
Defined.

Lemma queue_live_witness :
  ∃ s es, run (new 1 WriteBlock) two_and_two = Some (s, es) ∧
  (∀ ls' s' es', Forall internal ls' → run s ls' = Some (s', es') → Z.of_nat (length ls') ≤ 3 * Z.of_nat (size (threads s))) ∧
  ((∀ l, internal l → step s l = None) →
    ∀ t p, threads s !! t = Some p →
      (p = PopWait ∧ queue s = []) ∨ (∃ item, p = PushWait item ∧ capacity s ≤ Z.of_nat (length (queue s)))).
Proof.
  eexists _, _. split; [vm_compute; reflexivity|]. eapply (queue_live 1 WriteBlock two_and_two); [reflexivity|vm_compute; reflexivity].
Defined.

(** A writer that waits when the capacity is raised. *)
Definition raise : list (label (T := Z)) := [CallPush 1 10; Run 1; Notify 1 None; CallPush 2 20; Run 2; SetCapacity 2].

(** [set_capacity] wakes nobody: after the capacity is raised a writer can
    be left waiting on a queue that is not full, with no call that can go on. *)
Theorem raised_capacity_waits :
  ∃ s es, run (new 1 WriteBlock) raise = Some (s, es) ∧ threads s = {[ 2 := PushWait 20 ]} ∧ is_not_full s = true ∧
    ∀ l, internal l → step s l = None.
Proof.
  eexists _, _. split; [vm_compute; reflexivity|]. split; [vm_compute; reflexivity|]. split; [reflexivity|].
  assert (∀ t, ({[2 := PushWait 20]} : gmap Z (pc (T := Z))) !! t = None ∨ ({[2 := PushWait 20]} : gmap Z (pc (T := Z))) !! t = Some (PushWait 20)) as Hall.
  { intros t. destruct (decide (t = 2)) as [->|]; [by right|]. left. by rewrite lookup_singleton_ne. }
  intros [t item|t|t|t w|t|c]; cbn [internal]; try done; intros _; cbn [step threads];
    match goal with |- context [?m !! t] => change m with ({[2 := PushWait 20]} : gmap Z (pc (T := Z))) end; by destruct (Hall t) as [-> | ->].
Qed.
End Queue.

(** * The input buffer of the simple switch (targets/simple_switch/simple_switch.cpp)

    The ingress thread, which alone takes packets out of the input buffer, puts
    those it resubmits into it. *)

Module InputBuffer.
Import Queue.

Section buffer.
Context {T : Type}.
Implicit Types (s : state (T := T)) (t u : Z) (p : pc (T := T)).

(** Threads that only put packets in. *)
Definition pushes p : Prop := match p with PushEnter _ | PushWait _ | PushNotify => True | _ => False end.

(** The reader is in [push_front] with [item], and there is no room. *)
Record stuck s t (item : T) : Prop := {
  st_full : is_not_full s = false;
  st_blocks : wb s = WriteBlock;
  st_reader : threads s !! t = Some (PushEnter item) ∨ threads s !! t = Some (PushWait item);
  st_pushes : map_Forall (λ _ p, pushes p) (threads s);
}.

(** What the other threads can do: anything but take packets out or change the capacity. *)
Definition others t (l : label (T := T)) : Prop := match l with CallPop u => u = t | SetCapacity _ => False | _ => True end.

Lemma stuck_step s s' t item l e : stuck s t item → others t l → step s l = Some (s', e) → stuck s' t item ∧ queue s' = queue s ∧ e = None.
Proof.
  intros [Hf Hb Hr Hp] Hl E. destruct l as [u x|u|u|u w|u|c]; cbn in Hl, E; [| | | | |done].
  - destruct (threads s !! u) eqn:Eu; [done|]. injection E as <- <-. split; [|done]. split; cbn; [done|done| |by apply map_Forall_insert_2].
    rewrite lookup_insert_ne; [done|]. intros ->. destruct Hr; congruence.
  - subst u. destruct Hr as [Hr|Hr]; by rewrite Hr in E.
  - destruct (threads s !! u) as [[x| | | | |]|] eqn:Eu; try done; [|by pose proof (map_Forall_lookup_1 _ _ _ _ Hp Eu)].
    unfold push_front in E. rewrite Hf, Hb in E. injection E as <- <-. split; [|done]. split; cbn; [done|done| |by apply map_Forall_insert_2].
    destruct (decide (u = t)) as [->|Hne].
    + right. rewrite lookup_insert_eq. destruct Hr; congruence.
    + by rewrite lookup_insert_ne.
  - destruct (threads s !! u) as [p|] eqn:Eu; [|done]. pose proof (map_Forall_lookup_1 _ _ _ _ Hp Eu) as Hu.
    destruct p; try done. destruct (notify_one _ _ _) as [ths|] eqn:En; [|done]. cbn in E. injection E as <- <-.
    assert (ths = delete u (threads s)) as ->.
    { unfold notify_one in En. destruct w as [v|].
      - destruct (delete u (threads s) !! v) as [p|] eqn:Ev; [|done]. cbn in En. apply lookup_delete_Some in Ev as [_ Ev].
        pose proof (map_Forall_lookup_1 _ _ _ _ Hp Ev). by destruct p.
      - case_decide; [by injection En|done]. }
    split; [|done]. split; cbn; [done|done| |by apply map_Forall_delete]. rewrite lookup_delete_ne; [done|]. intros ->. destruct Hr; congruence.
  - destruct (threads s !! u) as [[x|x| | | |]|] eqn:Eu; try done; [|by pose proof (map_Forall_lookup_1 _ _ _ _ Hp Eu)].
    injection E as <- <-. split; [|done]. split; cbn; [done|done| |by apply map_Forall_insert_2].
    destruct (decide (u = t)) as [->|Hne].
    + left. rewrite lookup_insert_eq. destruct Hr; congruence.
    + by rewrite lookup_insert_ne.
Qed.

(** C39: Once the only reader of a full queue calls [push_front], nothing comes out
    of it or goes in any more, however the threads are scheduled. *)
Theorem reader_blocks s t item (ls : list (label (T := T))) s' es : stuck s t item → Forall (others t) ls → run s ls = Some (s', es) →
  es = [] ∧ queue s' = queue s ∧ stuck s' t item.
Proof.
  intros Hs Hl. revert s s' es Hs. induction Hl as [|l ls Hl _ IH]; intros s s' es Hs E; cbn in E; [by injection E as <- <-|].
  destruct (step s l) as [[s1 e]|] eqn:E1; [|done]. cbn [mbind option_bind] in E.
  destruct (stuck_step _ _ _ _ _ _ Hs Hl E1) as (Hs1 & Hq & ->). destruct (run s1 ls) as [[s2 es2]|] eqn:E2; [|done]. cbn in E. injection E as <- <-.
  destruct (IH _ _ _ Hs1 E2) as (-> & Hq2 & Hs2). split; [done|]. split; [congruence|done].
Qed.
End buffer.

(** A buffer of one packet: while thread 0 has packet 1 and resubmits it, the
    packet 2 is received. *)
Definition busy : state (T := Z) := default (new 1 WriteBlock)
  (fst <$> run (new 1 WriteBlock) [CallPush 7 1; Run 7; Notify 7 None; CallPop 0; Run 0; Notify 0 None; CallPush 7 2; Run 7; Notify 7 None; CallPush 0 1]).

Lemma reader_blocks_witness : ∃ s' es, run busy [Run 0; CallPush 8 3; Run 8; Spurious 0; Run 0] = Some (s', es) ∧ es = [] ∧ queue s' = [2].
Proof.
  destruct (run busy [Run 0; CallPush 8 3; Run 8; Spurious 0; Run 0]) as [[s' es]|] eqn:E; [|vm_compute in E; discriminate E].
  exists s', es. split; [done|]. destruct (reader_blocks busy 0 1 [Run 0; CallPush 8 3; Run 8; Spurious 0; Run 0] s' es) as (? & Hq & _).
  - constructor; [reflexivity|reflexivity|by left|]. intros i p Hi. vm_compute in Hi. by destruct i as [|i|i]; [injection Hi as <-|destruct i|].
  - repeat constructor.
  - exact E.
  - split; [done|]. rewrite Hq. reflexivity.
Defined.
End InputBuffer.
