(* ===== verification/Queueing.v ===== *)
(** * Queueing logic (include/bm/bm_sim/queueing.h)

    Logical queues that are kept in one physical queue for each worker. Each
    operation holds the mutex of a worker from its first access to its last, or
    until it waits; an operation that would wait leaves the state as it is and
    says what it waits for. The functor [FMap] of the user is the argument
    [map_to_worker]. The clock is an argument too, in nanoseconds. A result
    [None] is a [std::out_of_range], or behaviour that is not defined. *)

From S2P Require Import Prelude Meters.

(** ** Blocking queues *)

Module QueueingLogic.

Record QE (T : Type) := { e : T; queue_id : Z }.
Arguments Build_QE {T} _ _.
Arguments e {T} _.
Arguments queue_id {T} _.

Record QueueInfo := { size : Z; capacity : Z }.

Record state (T : Type) := {
  queues_info : list QueueInfo;
  workers_info : list (list (QE T));    (** the deque of each worker, the front first *)
}.
Arguments Build_state {T} _ _.
Arguments queues_info {T} _.
Arguments workers_info {T} _.

Section logic.
Context {T : Type} (map_to_worker : Z → Z).
Implicit Types (s : state T) (q w c : Z).

Definition new (nb_queues nb_workers c : Z) : state T :=
  {| queues_info := replicate (Z.to_nat nb_queues) {| size := 0; capacity := c |};
     workers_info := replicate (Z.to_nat nb_workers) [] |}.

(** Whether the item is in; a full queue is waited for. *)
Definition push_front s q (item : T) : option (state T * bool) :=
  let worker_id := map_to_worker q in
  q_info ← vget (queues_info s) q;
  w_info ← vget (workers_info s) worker_id;
  if capacity q_info <=? size q_info then Some (s, false) else
  ws ← vset (workers_info s) worker_id ({| e := item; queue_id := q |} :: w_info);
  qs ← vset (queues_info s) q {| size := u64 (size q_info + 1); capacity := capacity q_info |};
  Some ({| queues_info := qs; workers_info := ws |}, true).

(** The queue and the item; an empty queue is waited for. *)
Definition pop_back s w : option (state T * option (Z * T)) :=
  w_info ← vget (workers_info s) w;
  match last w_info with
  | None => Some (s, None)
  | Some x =>
      ws ← vset (workers_info s) w (take (length w_info - 1) w_info);
      q_info ← vget (queues_info s) (queue_id x);
      qs ← vset (queues_info s) (queue_id x) {| size := u64 (size q_info - 1); capacity := capacity q_info |};
      Some ({| queues_info := qs; workers_info := ws |}, Some (queue_id x, e x))
  end.

Definition get_size s q : option Z :=
  q_info ← vget (queues_info s) q; _ ← vget (workers_info s) (map_to_worker q); Some (size q_info).

Definition set_capacity s q c : option (state T) :=
  q_info ← vget (queues_info s) q;
  _ ← vget (workers_info s) (map_to_worker q);
  qs ← vset (queues_info s) q {| size := size q_info; capacity := c |};
  Some {| queues_info := qs; workers_info := workers_info s |}.
End logic.
End QueueingLogic.

(** ** Delays *)

(** [a / b] to the nearest, halves to the even one. *)
Definition div_nearest (a b : Z) : Z :=
  let q := a / b in
  let r := 2 * (a mod b) in
  if r <? b then q else if b <? r then q + 1 else if Z.even q then q else q + 1.

(** [duration_cast<ticks>(duration<double>(1. / pps))]: [pps], the quotient and
    the product with the nanoseconds of a second are rounded to doubles of 53
    bits. An infinite number of seconds cannot be cast. *)
Definition delay_ticks (pps : Z) : option Z :=
  if pps =? 0 then None else
  let d := Meters.round53 pps in
  let s := 53 + Z.log2 d in
  Some (Z.shiftr (Meters.round53 (div_nearest (2 ^ s) d * 10 ^ 9)) s).

(** An element of a queue with a limited rate, and when it can leave at the earliest. *)
Record QE (T : Type) := { e : T; queue_id : Z; send : Z }.
Arguments Build_QE {T} _ _ _.
Arguments e {T} _.
Arguments queue_id {T} _.
Arguments send {T} _.

(** A [std::priority_queue]: the elements in the order they were pushed. Which
    one of those with the least time is at its top is not specified: it is the
    one at the index [i]. *)
Section top.
Context {T : Type}.
Implicit Types (l : list (QE T)).

Fixpoint top_send l : option Z :=
  match l with
  | [] => None
  | x :: l => Some (match top_send l with Some t => Z.min (send x) t | None => send x end)
  end.

Definition pop l (i : nat) : option (QE T * list (QE T)) :=
  x ← l !! i; t ← top_send l;
  if send x =? t then Some (x, take i l ++ drop (S i) l) else None.
End top.

(** What a reader waits for. *)
Inductive wait := ForItem | Until (t : Z).

(** ** Queues with a limited rate *)

Module QueueingLogicRL.

Record QueueInfo := { size : Z; capacity : Z; queue_rate_pps : Z; pkt_delay_ticks : Z; last_sent : Z }.

Record state (T : Type) := {
  queues_info : list QueueInfo;
  workers_info : list (list (QE T));
}.
Arguments Build_state {T} _ _.
Arguments queues_info {T} _.
Arguments workers_info {T} _.

Section logic.
Context {T : Type} (map_to_worker : Z → Z).
Implicit Types (s : state T) (q w c now : Z).

Definition new (nb_queues nb_workers c now : Z) : state T :=
  {| queues_info := replicate (Z.to_nat nb_queues)
       {| size := 0; capacity := c; queue_rate_pps := 0; pkt_delay_ticks := 0; last_sent := now |};
     workers_info := replicate (Z.to_nat nb_workers) [] |}.

Definition get_next_tp (q_info : QueueInfo) now : Z := Z.max now (last_sent q_info + pkt_delay_ticks q_info).

Definition push_front s q (item : T) now : option (state T * bool) :=
  let worker_id := map_to_worker q in
  q_info ← vget (queues_info s) q;
  w_info ← vget (workers_info s) worker_id;
  if capacity q_info <=? size q_info then Some (s, false) else
  let tp := get_next_tp q_info now in
  ws ← vset (workers_info s) worker_id (w_info ++ [{| e := item; queue_id := q; send := tp |}]);
  qs ← vset (queues_info s) q
    {| size := u64 (size q_info + 1); capacity := capacity q_info; queue_rate_pps := queue_rate_pps q_info;
       pkt_delay_ticks := pkt_delay_ticks q_info; last_sent := tp |};
  Some ({| queues_info := qs; workers_info := ws |}, true).

Definition pop_back s w now (i : nat) : option (state T * (wait + QE T)) :=
  w_info ← vget (workers_info s) w;
  match top_send w_info with
  | None => Some (s, inl ForItem)
  | Some t =>
      if negb (t <=? now) then Some (s, inl (Until t)) else
      '(x, l) ← pop w_info i;
      ws ← vset (workers_info s) w l;
      q_info ← vget (queues_info s) (queue_id x);
      qs ← vset (queues_info s) (queue_id x)
        {| size := u64 (size q_info - 1); capacity := capacity q_info; queue_rate_pps := queue_rate_pps q_info;
           pkt_delay_ticks := pkt_delay_ticks q_info; last_sent := last_sent q_info |};
      Some ({| queues_info := qs; workers_info := ws |}, inr x)
  end.

Definition get_size s q : option Z :=
  q_info ← vget (queues_info s) q; _ ← vget (workers_info s) (map_to_worker q); Some (size q_info).

Definition update_info s q (f : QueueInfo → QueueInfo) : option (state T) :=
  q_info ← vget (queues_info s) q;
  _ ← vget (workers_info s) (map_to_worker q);
  qs ← vset (queues_info s) q (f q_info);
  Some {| queues_info := qs; workers_info := workers_info s |}.

Definition set_capacity s q c : option (state T) :=
  update_info s q (λ info,
    {| size := size info; capacity := c; queue_rate_pps := queue_rate_pps info; pkt_delay_ticks := pkt_delay_ticks info; last_sent := last_sent info |}).

Definition set_rate s q (pps : Z) : option (state T) :=
  delay ← delay_ticks pps;
  update_info s q (λ info,
    {| size := size info; capacity := capacity info; queue_rate_pps := pps; pkt_delay_ticks := delay; last_sent := last_sent info |}).
End logic.
End QueueingLogicRL.

(** ** Priorities *)

Module QueueingLogicPriRL.

Record QueueInfoPri := { size : Z; capacity : Z; queue_rate_pps : Z; pkt_delay_ticks : Z; last_sent : Z }.

(** The class is a vector of [QueueInfoPri] with a size of its own. *)
Record QueueInfo := { infos : list QueueInfoPri; q_size : Z }.

Record WorkerInfo (T : Type) := { w_size : Z; queues : list (list (QE T)) }.
Arguments Build_WorkerInfo {T} _ _.
Arguments w_size {T} _.
Arguments queues {T} _.

Record state (T : Type) := { nb_priorities : Z; queues_info : list QueueInfo; workers_info : list (WorkerInfo T) }.
Arguments Build_state {T} _ _ _.
Arguments nb_priorities {T} _.
Arguments queues_info {T} _.
Arguments workers_info {T} _.

(** [clock::time_point::max()] *)
Definition time_max : Z := 2 ^ 63 - 1.

Section logic.
Context {T : Type} (map_to_worker : Z → Z).
Implicit Types (s : state T) (q w p c now : Z).

Definition new (nb_queues nb_workers c nb_priorities now : Z) : state T :=
  let v := {| size := 0; capacity := c; queue_rate_pps := 0; pkt_delay_ticks := 0; last_sent := now |} in
  {| nb_priorities := nb_priorities;
     queues_info := replicate (Z.to_nat nb_queues) {| infos := replicate (Z.to_nat nb_priorities) v; q_size := 0 |};
     workers_info := replicate (Z.to_nat nb_workers) {| w_size := 0; queues := replicate 32 [] |} |}.

Definition get_next_tp (q_info_pri : QueueInfoPri) now : Z := Z.max now (last_sent q_info_pri + pkt_delay_ticks q_info_pri).

Definition push_front s q p (item : T) now : option (state T * bool) :=
  let worker_id := map_to_worker q in
  q_info ← vget (queues_info s) q;
  w_info ← vget (workers_info s) worker_id;
  q_info_pri ← vget (infos q_info) p;
  if capacity q_info_pri <=? size q_info_pri then Some (s, false) else
  let tp := get_next_tp q_info_pri now in
  queue ← vget (queues w_info) p;
  qus ← vset (queues w_info) p (queue ++ [{| e := item; queue_id := q; send := tp |}]);
  ips ← vset (infos q_info) p
    {| size := u64 (size q_info_pri + 1); capacity := capacity q_info_pri; queue_rate_pps := queue_rate_pps q_info_pri;
       pkt_delay_ticks := pkt_delay_ticks q_info_pri; last_sent := tp |};
  qs ← vset (queues_info s) q {| infos := ips; q_size := u64 (q_size q_info + 1) |};
  ws ← vset (workers_info s) worker_id {| w_size := u64 (w_size w_info + 1); queues := qus |};
  Some ({| nb_priorities := nb_priorities s; queues_info := qs; workers_info := ws |}, true).

(** The first priority with an element that can leave, among [n] from [p] on; or the least time at which one can. *)
Fixpoint find_queue (qus : list (list (QE T))) (n : nat) p now (next : Z) : option (Z + Z) :=
  match n with
  | O => Some (inl next)
  | S n =>
      queue ← vget qus p;
      match top_send queue with
      | None => find_queue qus n (p + 1) now next
      | Some t => if t <=? now then Some (inr p) else find_queue qus n (p + 1) now (Z.min next t)
      end
  end.

(** The count of the worker stays as it is. *)
Definition pop_back s w now (i : nat) : option (state T * (wait + Z * QE T)) :=
  w_info ← vget (workers_info s) w;
  if w_size w_info =? 0 then Some (s, inl ForItem) else
  found ← find_queue (queues w_info) (Z.to_nat (nb_priorities s)) 0 now time_max;
  match found with
  | inl next => Some (s, inl (Until next))
  | inr p =>
      queue ← vget (queues w_info) p;
      '(x, l) ← pop queue i;
      qus ← vset (queues w_info) p l;
      ws ← vset (workers_info s) w {| w_size := w_size w_info; queues := qus |};
      q_info ← vget (queues_info s) (queue_id x);
      q_info_pri ← vget (infos q_info) p;
      ips ← vset (infos q_info) p
        {| size := u64 (size q_info_pri - 1); capacity := capacity q_info_pri; queue_rate_pps := queue_rate_pps q_info_pri;
           pkt_delay_ticks := pkt_delay_ticks q_info_pri; last_sent := last_sent q_info_pri |};
      qs ← vset (queues_info s) (queue_id x) {| infos := ips; q_size := u64 (q_size q_info - 1) |};
      Some ({| nb_priorities := nb_priorities s; queues_info := qs; workers_info := ws |}, inr (p, x))
  end.

Definition get_size s q : option Z :=
  q_info ← vget (queues_info s) q; _ ← vget (workers_info s) (map_to_worker q); Some (q_size q_info).

(** The size of one priority: that of the whole queue is returned. *)
Definition get_size_priority s q p : option Z :=
  q_info ← vget (queues_info s) q; _ ← vget (infos q_info) p; _ ← vget (workers_info s) (map_to_worker q); Some (q_size q_info).

Definition for_each_q s q (fn : QueueInfoPri → QueueInfoPri) : option (state T) :=
  q_info ← vget (queues_info s) q;
  _ ← vget (workers_info s) (map_to_worker q);
  qs ← vset (queues_info s) q {| infos := fn <$> infos q_info; q_size := q_size q_info |};
  Some {| nb_priorities := nb_priorities s; queues_info := qs; workers_info := workers_info s |}.

Definition for_one_q s q p (fn : QueueInfoPri → QueueInfoPri) : option (state T) :=
  q_info ← vget (queues_info s) q;
  _ ← vget (workers_info s) (map_to_worker q);
  ips ← vupd (infos q_info) p fn;
  qs ← vset (queues_info s) q {| infos := ips; q_size := q_size q_info |};
  Some {| nb_priorities := nb_priorities s; queues_info := qs; workers_info := workers_info s |}.

Definition SetCapacityFn c (info : QueueInfoPri) : QueueInfoPri :=
  {| size := size info; capacity := c; queue_rate_pps := queue_rate_pps info; pkt_delay_ticks := pkt_delay_ticks info; last_sent := last_sent info |}.

Definition SetRateFn (pps delay : Z) (info : QueueInfoPri) : QueueInfoPri :=
  {| size := size info; capacity := capacity info; queue_rate_pps := pps; pkt_delay_ticks := delay; last_sent := last_sent info |}.

Definition set_capacity s q c : option (state T) := for_each_q s q (SetCapacityFn c).
Definition set_capacity_priority s q p c : option (state T) := for_one_q s q p (SetCapacityFn c).
Definition set_rate s q (pps : Z) : option (state T) := delay ← delay_ticks pps; for_each_q s q (SetRateFn pps delay).
Definition set_rate_priority s q p (pps : Z) : option (state T) := delay ← delay_ticks pps; for_one_q s q p (SetRateFn pps delay).
End logic.
End QueueingLogicPriRL.
