(* ===== verification/QueueingSpec.v ===== *)
(** * What the queueing logic does

    Each logical queue is a list of items, whatever workers share: items leave
    it in the order they came, its size and its capacity are its own, and a
    limited rate bounds how many have left at any time. *)

From S2P Require Import Prelude Meters Queueing.

(** ** The elements of a logical queue *)
Section pending.
Context {X : Type} (qid : X → Z) (map_to_worker : Z → Z) (n : Z).
Implicit Types (ws : list (list X)) (l : list X) (x : X) (q w : Z).

Definition of_queue q l : list X := filter (λ x, qid x = q) l.

(** The elements of [q], in the list of its worker. *)
Definition pending ws q : list X := match vget ws (map_to_worker q) with Some l => of_queue q l | None => [] end.

(** The elements of a worker belong to its queues. *)
Definition placed ws : Prop := ∀ w l x, vget ws w = Some l → x ∈ l → map_to_worker (qid x) = w ∧ 0 ≤ qid x < n.

Lemma of_queue_app q l1 l2 : of_queue q (l1 ++ l2) = of_queue q l1 ++ of_queue q l2.
Proof. apply filter_app. Qed.

Lemma of_queue_one q x : of_queue q [x] = if decide (qid x = q) then [x] else [].
Proof. unfold of_queue. rewrite filter_cons. by case_decide. Qed.

(** [x] is between [l1] and [l2] in the list of [w] of [ws'], and is not in that of [ws]. *)
Definition differ ws ws' w l1 x l2 : Prop :=
  ∀ w', (if decide (w' = w) then vget ws w' = Some (l1 ++ l2) ∧ vget ws' w' = Some (l1 ++ x :: l2) else vget ws w' = vget ws' w').

Lemma differ_add ws ws' w l1 x l2 : vget ws w = Some (l1 ++ l2) → vset ws w (l1 ++ x :: l2) = Some ws' → differ ws ws' w l1 x l2.
Proof. intros E Es w'. rewrite (vget_vset _ _ _ _ w' Es). by case_decide; [subst w'|]. Qed.

Lemma differ_remove ws ws' w l1 x l2 : vget ws' w = Some (l1 ++ x :: l2) → vset ws' w (l1 ++ l2) = Some ws → differ ws ws' w l1 x l2.
Proof. intros E Es w'. rewrite (vget_vset _ _ _ _ w' Es). by case_decide; [subst w'|]. Qed.

Lemma differ_pending ws ws' w l1 x l2 :
  differ ws ws' w l1 x l2 → map_to_worker (qid x) = w →
  pending ws (qid x) = of_queue (qid x) l1 ++ of_queue (qid x) l2 ∧ pending ws' (qid x) = of_queue (qid x) l1 ++ x :: of_queue (qid x) l2 ∧
  ∀ q, q ≠ qid x → pending ws' q = pending ws q.
Proof.
  intros Hd Hx. split; [|split; [|intros q Hq]].
  - unfold pending. specialize (Hd (map_to_worker (qid x))). case_decide; [|done]. destruct Hd as [-> _]. apply of_queue_app.
  - unfold pending. specialize (Hd (map_to_worker (qid x))). case_decide; [|done]. destruct Hd as [_ ->].
    unfold of_queue. rewrite filter_app, filter_cons_True by done. done.
  - unfold pending. specialize (Hd (map_to_worker q)). case_decide; [|by rewrite Hd]. destruct Hd as [-> ->].
    unfold of_queue. rewrite !filter_app, filter_cons_False by congruence. done.
Qed.

Lemma differ_placed ws ws' w l1 x l2 :
  differ ws ws' w l1 x l2 → (placed ws' ↔ placed ws ∧ map_to_worker (qid x) = w ∧ 0 ≤ qid x < n).
Proof.
  intros Hd. split.
  - intros Hp. pose proof (Hd w) as Hw. rewrite decide_True in Hw by done. destruct Hw as [Hl Hl']. split; [|apply (Hp w _ x Hl'); set_solver].
    intros w0 l y E Hy. specialize (Hd w0). case_decide; [|apply (Hp w0 l y); [by rewrite <-Hd|done]].
    subst w0. rewrite Hl in E. injection E as <-. apply (Hp w _ y Hl'). set_solver.
  - intros (Hp & Hx & Hn) w0 l y E Hy. specialize (Hd w0). case_decide; [|apply (Hp w0 l y); [by rewrite Hd|done]].
    subst w0. destruct Hd as [Hl Hl']. rewrite Hl' in E. injection E as <-. apply elem_of_app in Hy as [Hy|[->|Hy]%elem_of_cons]; [|done|];
    apply (Hp w _ y Hl); set_solver.
Qed.
End pending.

Lemma vget_ok {A} (l : list A) (i : Z) : 0 ≤ i < Z.of_nat (length l) → ∃ x, vget l i = Some x.
Proof. apply vget_is_Some. Qed.

Lemma vset_ok {A} (l : list A) (i : Z) x : 0 ≤ i < Z.of_nat (length l) → ∃ l', vset l i x = Some l'.
Proof. intros H. eexists. by apply vset_Some. Qed.

(** ** Sizes and capacities *)
Section accounts.
Context {X I : Type} (qid : X → Z) (sz cp : I → Z) (map_to_worker : Z → Z) (nq nw : Z) (C : Z → Z).
Context (Hmap : ∀ q, 0 ≤ q < nq → 0 ≤ map_to_worker q < nw) (HC : ∀ q, C q < 2 ^ 64).
Implicit Types (qs : list I) (ws : list (list X)) (q w : Z).

(** The size of a queue is the number of its elements; [C] bounds its capacity. *)
Record accounts qs ws : Prop := {
  a_nq : Z.of_nat (length qs) = nq;
  a_nw : Z.of_nat (length ws) = nw;
  a_placed : placed qid map_to_worker nq ws;
  a_size q info : vget qs q = Some info → sz info = Z.of_nat (length (pending qid map_to_worker ws q)) ∧ sz info ≤ C q ∧ cp info ≤ C q;
}.

Lemma accounts_new c info : 0 ≤ nq → 0 ≤ nw → (∀ q, 0 ≤ c ≤ C q) → sz info = 0 → cp info = c →
  accounts (replicate (Z.to_nat nq) info) (replicate (Z.to_nat nw) []).
Proof.
  intros Hq Hw Hc Hz Hcp. assert (∀ w l, vget (replicate (Z.to_nat nw) ([] : list X)) w = Some l → l = []) as Hnil.
  { intros w l E. unfold vget in E. case_decide; [|done]. by apply lookup_replicate in E as [-> _]. }
  constructor.
  - rewrite length_replicate. lia.
  - rewrite length_replicate. lia.
  - intros w l x ->%Hnil Hx. by apply elem_of_nil in Hx.
  - intros q info' E. unfold vget in E. case_decide; [|done]. apply lookup_replicate in E as [-> _]. pose proof (Hc q). unfold pending.
    destruct (vget _ _) as [l|] eqn:El; [apply Hnil in El as ->|]; cbn; lia.
Qed.

Lemma accounts_queue qs ws q : accounts qs ws → 0 ≤ q < nq → ∃ info l, vget qs q = Some info ∧ vget ws (map_to_worker q) = Some l ∧
  0 ≤ q < Z.of_nat (length qs) ∧ 0 ≤ map_to_worker q < Z.of_nat (length ws).
Proof.
  intros [Hnq Hnw _ _] Hq. pose proof (Hmap q Hq). rewrite Hnq, Hnw. destruct (vget_ok qs q) as [info Ei]; [by rewrite Hnq|].
  destruct (vget_ok ws (map_to_worker q)) as [l El]; [by rewrite Hnw|]. by exists info, l.
Qed.

Lemma accounts_push qs ws x l1 l2 info info' qs' ws' :
  accounts qs ws → vget qs (qid x) = Some info → vget ws (map_to_worker (qid x)) = Some (l1 ++ l2) →
  vset ws (map_to_worker (qid x)) (l1 ++ x :: l2) = Some ws' → vset qs (qid x) info' = Some qs' →
  sz info < cp info → sz info' = u64 (sz info + 1) → cp info' = cp info → accounts qs' ws'.
Proof.
  clear Hmap. intros [Hnq Hnw Hp Hs] Ei El Ews Eqs Hlt Hz' Hc'. pose proof (differ_add _ _ _ _ _ _ El Ews) as Hd. destruct (Hs _ _ Ei) as (Hz & HzC & Hcap).
  destruct (differ_pending qid map_to_worker _ _ _ _ _ _ Hd eq_refl) as (Hp1 & Hp2 & Hp3). pose proof (vget_Some_range _ _ _ Ei). constructor.
  - by rewrite (vset_length _ _ _ _ Eqs).
  - by rewrite (vset_length _ _ _ _ Ews).
  - apply (differ_placed _ _ _ _ _ _ _ _ _ Hd). split; [done|lia].
  - intros q info0. rewrite (vget_vset _ _ _ _ q Eqs). case_decide as Hq; [|intros E; rewrite Hp3 by done; by apply Hs].
    intros [= <-]. subst q. pose proof (HC (qid x)). rewrite Hz', Hc', Hp2, wrap_small by lia. rewrite Hp1, length_app in Hz.
    rewrite length_app. cbn [length]. lia.
Qed.

Lemma accounts_pop qs ws w x l1 l2 info info' qs' ws' :
  accounts qs ws → vget qs (qid x) = Some info → vget ws w = Some (l1 ++ x :: l2) →
  vset ws w (l1 ++ l2) = Some ws' → vset qs (qid x) info' = Some qs' →
  sz info' = u64 (sz info - 1) → cp info' = cp info → accounts qs' ws'.
Proof.
  clear Hmap. intros [Hnq Hnw Hp Hs] Ei El Ews Eqs Hz' Hc'. pose proof (differ_remove _ _ _ _ _ _ El Ews) as Hd. destruct (Hs _ _ Ei) as (Hz & HzC & Hcap).
  destruct (Hp w _ x El) as [Hx Hxn]; [set_solver|]. destruct (differ_pending qid map_to_worker _ _ _ _ _ _ Hd Hx) as (Hp1 & Hp2 & Hp3). constructor.
  - by rewrite (vset_length _ _ _ _ Eqs).
  - by rewrite (vset_length _ _ _ _ Ews).
  - by apply (differ_placed _ _ _ _ _ _ _ _ _ Hd).
  - intros q info0. rewrite (vget_vset _ _ _ _ q Eqs). case_decide as Hq; [|intros E; rewrite <-Hp3 by done; by apply Hs].
    intros [= <-]. subst q. pose proof (HC (qid x)). rewrite Hp2, length_app in Hz. cbn [length] in Hz. rewrite Hz', Hc', Hp1, length_app, wrap_small by lia. lia.
Qed.

Lemma accounts_info qs ws q info info' qs' :
  accounts qs ws → vget qs q = Some info → vset qs q info' = Some qs' → sz info' = sz info → cp info' ≤ C q → accounts qs' ws.
Proof.
  intros [Hnq Hnw Hp Hs] Ei Eqs Hz' Hc'. destruct (Hs _ _ Ei) as (Hz & HzC & Hcap). constructor; try done; [by rewrite (vset_length _ _ _ _ Eqs)|].
  intros q' info0. rewrite (vget_vset _ _ _ _ q' Eqs). case_decide as Hq; [|by apply Hs]. intros [= <-]. subst q'. rewrite Hz'. done.
Qed.
End accounts.

(** ** Blocking queues *)
Module QueueingLogicSpec.
Import QueueingLogic.

Section spec.
Context {T : Type} (map_to_worker : Z → Z) (nq nw : Z) (Hmap : ∀ q, 0 ≤ q < nq → 0 ≤ map_to_worker q < nw).
Implicit Types (s : state T) (q w c : Z).

Inductive op := Push (q : Z) (item : T) | Pop (w : Z) | SetCapacity (q c : Z).
Inductive event := Pushed (x : QE T) | Popped (w : Z) (x : QE T).

Definition exec s (o : op) : option (state T * option event) :=
  match o with
  | Push q item => '(s, b) ← push_front map_to_worker s q item; Some (s, if b : bool then Some (Pushed {| e := item; queue_id := q |}) else None)
  | Pop w => '(s, r) ← pop_back s w; Some (s, match r with Some (q, item) => Some (Popped w {| e := item; queue_id := q |}) | None => None end)
  | SetCapacity q c => s ← set_capacity map_to_worker s q c; Some (s, None)
  end.

Fixpoint run s (os : list op) : option (state T * list event) :=
  match os with
  | [] => Some (s, [])
  | o :: os => '(s, ev) ← exec s o; '(s, evs) ← run s os; Some (s, match ev with Some ev => ev :: evs | None => evs end)
  end.

(** The queues and workers exist and the capacities fit their type. *)
Definition op_ok (C : Z → Z) (o : op) : Prop :=
  match o with
  | Push q _ => 0 ≤ q < nq
  | Pop w => 0 ≤ w < nw
  | SetCapacity q c => 0 ≤ q < nq ∧ c ≤ C q
  end.

Definition pend s q : list (QE T) := pending queue_id map_to_worker (workers_info s) q.

Definition inv (C : Z → Z) s : Prop := accounts queue_id size capacity map_to_worker nq nw C (queues_info s) (workers_info s).

Definition pushed q (evs : list event) : list (QE T) := ev ← evs; match ev with Pushed x => of_queue queue_id q [x] | Popped _ _ => [] end.
Definition popped q (evs : list event) : list (QE T) := ev ← evs; match ev with Popped _ x => of_queue queue_id q [x] | Pushed _ => [] end.

(** What an operation does to the queues. *)
Definition event_spec s (ev : option event) s' : Prop :=
  match ev with
  | None => ∀ q, pend s' q = pend s q
  | Some (Pushed x) => ∀ q, pend s' q = of_queue queue_id q [x] ++ pend s q
  | Some (Popped w x) => map_to_worker (queue_id x) = w ∧ ∀ q, pend s q = pend s' q ++ of_queue queue_id q [x]
  end.

Definition good C s (r : option (state T * option event)) : Prop := ∃ s' ev, r = Some (s', ev) ∧ inv C s' ∧ event_spec s ev s'.

Lemma push_good C s q item : (∀ q, C q < 2 ^ 64) → inv C s → 0 ≤ q < nq → good C s (exec s (Push q item)).
Proof.
  intros HC Hi Hq. cbn [exec]. unfold push_front. destruct (accounts_queue _ _ _ _ _ _ _ Hmap _ _ q Hi Hq) as (info & l & Ei & El & Hq' & Hw).
  rewrite Ei. msimpl. rewrite El. msimpl. destruct (Z.leb_spec (capacity info) (size info)).
  { msimpl. eexists _, _. split; [done|]. by split. }
  set (x := {| e := item; queue_id := q |}).
  destruct (vset_ok (workers_info s) (map_to_worker q) (x :: l) Hw) as [ws Ews]. rewrite Ews. msimpl.
  destruct (vset_ok (queues_info s) q {| size := u64 (size info + 1); capacity := capacity info |} Hq') as [qs Eqs]. rewrite Eqs. msimpl.
  eexists _, _. split; [done|]. split; [by apply (accounts_push _ _ _ _ _ _ _ HC _ _ x [] l info _ qs ws Hi Ei El Ews Eqs)|].
  destruct (differ_pending queue_id map_to_worker _ _ _ _ _ _ (differ_add _ _ _ [] x l El Ews) eq_refl) as (Hp1 & Hp2 & Hp3).
  intros q'. unfold pend. cbn [workers_info]. rewrite of_queue_one. case_decide as Hx; [rewrite <-Hx, Hp2, Hp1; done|]. by rewrite Hp3.
Qed.

Lemma pop_good C s w : (∀ q, C q < 2 ^ 64) → inv C s → 0 ≤ w < nw → good C s (exec s (Pop w)).
Proof.
  intros HC Hi Hw. cbn [exec]. unfold pop_back. destruct (vget_ok (workers_info s) w) as [l El]; [by rewrite (a_nw _ _ _ _ _ _ _ _ _ Hi)|]. rewrite El. msimpl.
  destruct (last l) as [x|] eqn:Ex.
  2:{ msimpl. eexists _, _. split; [done|]. by split. }
  apply last_Some in Ex as [l1 ->]. rewrite length_app, Nat.add_sub, take_app_length. destruct (a_placed _ _ _ _ _ _ _ _ _ Hi w _ x El) as [Hx Hxn]; [set_solver|].
  destruct (vset_ok (workers_info s) w l1) as [ws Ews]; [by rewrite (a_nw _ _ _ _ _ _ _ _ _ Hi)|]. rewrite Ews. msimpl.
  destruct (vget_ok (queues_info s) (queue_id x)) as [info Ei]; [by rewrite (a_nq _ _ _ _ _ _ _ _ _ Hi)|]. rewrite Ei. msimpl.
  destruct (vset_ok (queues_info s) (queue_id x) {| size := u64 (size info - 1); capacity := capacity info |}) as [qs Eqs]; [by rewrite (a_nq _ _ _ _ _ _ _ _ _ Hi)|]. rewrite Eqs. msimpl.
  eexists _, _. split; [done|]. rewrite <-(app_nil_r l1) in Ews. split; [by apply (accounts_pop _ _ _ _ _ _ _ HC _ _ w x l1 [] info _ qs ws Hi Ei El Ews Eqs)|].
  destruct (differ_pending queue_id map_to_worker _ _ _ _ _ _ (differ_remove _ _ _ l1 x [] El Ews) Hx) as (Hp1 & Hp2 & Hp3).
  split; [by destruct x|]. intros q'. unfold pend. cbn [workers_info]. rewrite of_queue_one. cbn [queue_id]. case_decide as Hq; [rewrite <-Hq, Hp1, Hp2; cbn; rewrite app_nil_r; by destruct x|].
  by rewrite app_nil_r, Hp3.
Qed.

Lemma cap_good C s q c : inv C s → 0 ≤ q < nq → c ≤ C q → good C s (exec s (SetCapacity q c)).
Proof.
  intros Hi Hq Hc. cbn [exec]. unfold set_capacity. destruct (accounts_queue _ _ _ _ _ _ _ Hmap _ _ q Hi Hq) as (info & l & Ei & El & Hq' & Hw).
  rewrite Ei. msimpl. rewrite El. msimpl. destruct (vset_ok (queues_info s) q {| size := size info; capacity := c |} Hq') as [qs Eqs]. rewrite Eqs. msimpl.
  eexists _, _. split; [done|]. split; [by apply (accounts_info _ _ _ _ _ _ _ _ _ q info _ qs Hi Ei Eqs)|done].
Qed.

Lemma run_good C os : ∀ s, (∀ q, C q < 2 ^ 64) → inv C s → Forall (op_ok C) os →
  ∃ s' evs, run s os = Some (s', evs) ∧ inv C s' ∧ ∀ q, reverse (pend s q) ++ pushed q evs = popped q evs ++ reverse (pend s' q).
Proof.
  intros s HC. revert s. induction os as [|o os IH]; intros s Hi Hos.
  { exists s, []. split; [done|]. split; [done|]. intros q. cbn. by rewrite app_nil_r. }
  apply Forall_cons in Hos as [Ho Hos].
  assert (good C s (exec s o)) as (s1 & ev & E1 & Hi1 & Hev).
  { destruct o as [q item|w|q c]; [by apply push_good|by apply pop_good|destruct Ho; by apply cap_good]. }
  destruct (IH s1 Hi1 Hos) as (s' & evs & E & Hi' & Hq). cbn [run]. rewrite E1. msimpl. rewrite E. msimpl. eexists _, _. split; [done|]. split; [done|].
  intros q. specialize (Hq q). assert (∀ x : QE T, reverse (of_queue queue_id q [x]) = of_queue queue_id q [x]) as Hone by (intros x; rewrite of_queue_one; by case_decide).
  destruct ev as [[x|w x]|].
  - rewrite Hev, reverse_app, Hone, <-app_assoc in Hq. exact Hq.
  - destruct Hev as [_ Hev]. rewrite Hev, reverse_app, Hone, <-app_assoc. change (pushed q (Popped w x :: evs)) with (pushed q evs). rewrite Hq. exact (app_assoc _ _ _).
  - by rewrite <-Hev.
Qed.

(** Whatever the workers share, each logical queue is a queue of its own: no
    operation on queues and workers that exist throws, the items that leave a
    queue are those that were pushed to it, in that order, the size that is
    counted is the number of items in it, and is never more than the largest of
    its capacities. *)
Theorem logical_queues (c : Z) (C : Z → Z) (os : list op) :
  0 ≤ nq → 0 ≤ nw → (∀ q, 0 ≤ c ≤ C q ∧ C q < 2 ^ 64) → Forall (op_ok C) os →
  ∃ s evs, run (new nq nw c) os = Some (s, evs) ∧
    ∀ q, 0 ≤ q < nq →
      pushed q evs = popped q evs ++ reverse (pend s q) ∧
      get_size map_to_worker s q = Some (Z.of_nat (length (pend s q))) ∧ Z.of_nat (length (pend s q)) ≤ C q.
Proof.
  intros H1 H2 HC Hos. assert (inv C (new nq nw c)) as Hn by (apply (accounts_new _ _ _ _ _ _ _ c); [done|done|intros q; by destruct (HC q)|done|done]).
  destruct (run_good C os _ (λ q, proj2 (HC q)) Hn Hos) as (s & evs & E & Hi & Hq). exists s, evs. split; [done|]. intros q Hr.
  destruct (accounts_queue _ _ _ _ _ _ _ Hmap _ _ q Hi Hr) as (info & l & Ei & El & _). destruct (a_size _ _ _ _ _ _ _ _ _ Hi q info Ei) as (Hz & HzC & _). split; [|split; [|unfold pend; lia]].
  - rewrite <-Hq. unfold pend at 1, pending. cbn. unfold vget. case_decide; [|done].
    destruct (replicate _ _ !! _) as [l'|] eqn:E'; [|done]. by apply lookup_replicate in E' as [-> _].
  - unfold get_size. rewrite Ei. msimpl. rewrite El. msimpl. by rewrite Hz.
Qed.
End spec.
End QueueingLogicSpec.
