(* ===== verification/QueueingRates.v ===== *)
(** * What a limited rate promises

    The operations of [QueueingLogicRL]: sizes and capacities are those of each
    logical queue, whatever element a [std::priority_queue] has at its top;
    with a rate that is set, the items of a queue leave it in the order they
    came and the rate is never exceeded since it was set. *)

From S2P Require Import Prelude Meters Queueing QueueingSpec.

Module QueueingRates.
Import QueueingLogicRL.

Section spec.
Context {T : Type} (map_to_worker : Z → Z) (nq nw : Z) (Hmap : ∀ q, 0 ≤ q < nq → 0 ≤ map_to_worker q < nw).
Implicit Types (s : state T) (q w c now d t : Z) (l : list (QE T)).

Inductive op := Push (q : Z) (item : T) (now : Z) | Pop (w now : Z) (i : nat) | SetCapacity (q c : Z) | SetRate (q pps : Z).
Inductive event := Pushed (x : QE T) | Popped (now : Z) (x : QE T).

Definition exec s (o : op) : option (state T * option event) :=
  match o with
  | Push q item now =>
      '(s', b) ← push_front map_to_worker s q item now;
      info ← vget (queues_info s') q;
      Some (s', if b : bool then Some (Pushed {| e := item; queue_id := q; send := last_sent info |}) else None)
  | Pop w now i => '(s, r) ← pop_back s w now i; Some (s, match r with inr x => Some (Popped now x) | inl _ => None end)
  | SetCapacity q c => s ← set_capacity map_to_worker s q c; Some (s, None)
  | SetRate q pps => s ← set_rate map_to_worker s q pps; Some (s, None)
  end.

Fixpoint run s (os : list op) : option (state T * list event) :=
  match os with
  | [] => Some (s, [])
  | o :: os => '(s, ev) ← exec s o; '(s, evs) ← run s os; Some (s, match ev with Some ev => ev :: evs | None => evs end)
  end.

Definition op_ok (C : Z → Z) (o : op) : Prop :=
  match o with
  | Push q _ _ | SetRate q _ => 0 ≤ q < nq
  | Pop w _ _ => 0 ≤ w < nw
  | SetCapacity q c => 0 ≤ q < nq ∧ c ≤ C q
  end.

Definition pend s q : list (QE T) := pending queue_id map_to_worker (workers_info s) q.
Definition inv (C : Z → Z) s : Prop := accounts queue_id size capacity map_to_worker nq nw C (queues_info s) (workers_info s).

Definition pushed q (evs : list event) : list (QE T) := ev ← evs; match ev with Pushed x => of_queue queue_id q [x] | Popped _ _ => [] end.
Definition popped q (evs : list event) : list (QE T) := ev ← evs; match ev with Popped _ x => of_queue queue_id q [x] | Pushed _ => [] end.

(** ** The top of a queue *)

Lemma top_send_min l t : top_send l = Some t → ∀ x, x ∈ l → t ≤ send x.
Proof.
  revert t. induction l as [|x l IH]; [done|]. cbn [top_send]. intros t [= <-] y [->|Hy]%elem_of_cons.
  - destruct (top_send l); lia.
  - destruct (top_send l) as [t|] eqn:E; [specialize (IH t eq_refl y Hy); lia|]. destruct l; [by apply elem_of_nil in Hy|done].
Qed.

Lemma top_send_in l t : top_send l = Some t → ∃ i x, l !! i = Some x ∧ send x = t.
Proof.
  revert t. induction l as [|x l IH]; [done|]. cbn [top_send]. intros t [= <-]. destruct (top_send l) as [t|] eqn:E; [|by exists O, x].
  destruct (Z.min_spec (send x) t) as [[? ->]|[? ->]]; [by exists O, x|]. destruct (IH t eq_refl) as (i & y & ? & ?). by exists (S i), y.
Qed.

Lemma pop_spec l i x l' : pop l i = Some (x, l') →
  ∃ l1 l2, l = l1 ++ x :: l2 ∧ l' = l1 ++ l2 ∧ top_send l = Some (send x) ∧ ∀ y, y ∈ l → send x ≤ send y.
Proof.
  unfold pop. destruct (l !! i) as [y|] eqn:Ey; [|done]. msimpl. destruct (top_send l) as [t|] eqn:Et; [|done]. msimpl.
  destruct (Z.eqb_spec (send y) t) as [<-|]; [|done]. intros [= <- <-]. exists (take i l), (drop (S i) l). split; [by rewrite take_drop_middle|].
  split; [done|]. split; [done|]. by apply top_send_min.
Qed.

(** The heap has something at its top. *)
Lemma pop_some l t : top_send l = Some t → ∃ i x l', pop l i = Some (x, l').
Proof.
  intros Et. destruct (top_send_in l t Et) as (i & x & Ei & Hx). exists i, x, (take i l ++ drop (S i) l). unfold pop. rewrite Ei. msimpl. rewrite Et. msimpl.
  by rewrite Hx, Z.eqb_refl.
Qed.

(** ** Operations *)

Definition event_spec s (o : op) (ev : option event) s' : Prop :=
  match ev with
  | None => ∀ q, pend s' q = pend s q
  | Some (Pushed x) =>
      (∃ now info, o = Push (queue_id x) (e x) now ∧ vget (queues_info s) (queue_id x) = Some info ∧ send x = get_next_tp info now) ∧
      ∀ q, pend s' q = pend s q ++ of_queue queue_id q [x]
  | Some (Popped now x) =>
      (∃ w i, o = Pop w now i) ∧ send x ≤ now ∧ (∀ y, y ∈ pend s (queue_id x) → send x ≤ send y) ∧
      ∀ q, ∃ l1 l2, pend s q = l1 ++ of_queue queue_id q [x] ++ l2 ∧ pend s' q = l1 ++ l2
  end.

(** What an operation does to what is known of a queue besides its size and capacity. *)
Definition info_spec s (o : op) (ev : option event) s' : Prop :=
  ∀ q info', vget (queues_info s') q = Some info' → ∃ info, vget (queues_info s) q = Some info ∧
    ((∀ pps, o ≠ SetRate q pps) → pkt_delay_ticks info' = pkt_delay_ticks info) ∧
    last_sent info' = match ev with Some (Pushed x) => if decide (queue_id x = q) then send x else last_sent info | _ => last_sent info end.

Definition good C s o s' ev : Prop := inv C s' ∧ event_spec s o ev s' ∧ info_spec s o ev s'.

Lemma info_same s o : info_spec s o None s.
Proof. intros q info E. by exists info. Qed.

Lemma rate_push_good C s q item now : (∀ q, C q < 2 ^ 64) → inv C s → 0 ≤ q < nq → ∃ s' ev, exec s (Push q item now) = Some (s', ev) ∧ good C s (Push q item now) s' ev.
Proof.
  intros HC Hi Hq. cbn [exec]. unfold push_front. destruct (accounts_queue _ _ _ _ _ _ _ Hmap _ _ q Hi Hq) as (info & l & Ei & El & Hq' & Hw).
  rewrite Ei. msimpl. rewrite El. msimpl. destruct (Z.leb_spec (capacity info) (size info)).
  { msimpl. rewrite Ei. msimpl. eexists _, _. split; [done|]. split; [done|]. split; [done|apply info_same]. }
  set (x := {| e := item; queue_id := q; send := get_next_tp info now |}).
  destruct (vset_ok (workers_info s) (map_to_worker q) (l ++ [x]) Hw) as [ws Ews]. rewrite Ews. msimpl.
  set (info' := {| size := u64 (size info + 1); capacity := _; queue_rate_pps := _; pkt_delay_ticks := _; last_sent := _ |}).
  destruct (vset_ok (queues_info s) q info' Hq') as [qs Eqs]. rewrite Eqs. msimpl. cbn [queues_info]. rewrite (vget_vset _ _ _ _ q Eqs), decide_True by done. msimpl.
  eexists _, _. split; [done|]. rewrite <-(app_nil_r l) in El. split; [by apply (accounts_push _ _ _ _ _ _ _ HC _ _ x l [] info _ qs ws Hi Ei El Ews Eqs)|].
  split.
  - split; [by exists now, info|]. destruct (differ_pending queue_id map_to_worker _ _ _ _ _ _ (differ_add _ _ _ l x [] El Ews) eq_refl) as (Hp1 & Hp2 & Hp3).
    intros q'. unfold pend. cbn [workers_info]. change (of_queue queue_id q' [_]) with (of_queue queue_id q' [x]). rewrite of_queue_one. case_decide as Hx; [|by rewrite app_nil_r, Hp3].
    rewrite <-Hx, Hp2, Hp1. cbn. by rewrite app_nil_r.
  - intros q' i'. cbn [queues_info]. rewrite (vget_vset _ _ _ _ q' Eqs). cbn [queue_id].
    destruct (decide (q' = q)) as [->|Hne]; [intros [= <-]; exists info; by rewrite decide_True|]. intros E. exists i'. by rewrite decide_False.
Qed.

Lemma rate_pop_good C s w now i s' ev : (∀ q, C q < 2 ^ 64) → inv C s → 0 ≤ w < nw → exec s (Pop w now i) = Some (s', ev) → good C s (Pop w now i) s' ev.
Proof.
  intros HC Hi Hw. cbn [exec]. unfold pop_back. destruct (vget_ok (workers_info s) w) as [l El]; [by rewrite (a_nw _ _ _ _ _ _ _ _ _ Hi)|]. rewrite El. msimpl.
  destruct (top_send l) as [t|] eqn:Et; [|intros [= <- <-]; split; [done|]; split; [done|apply info_same]].
  destruct (Z.leb_spec t now) as [Hle|]; cbn [negb]; [|intros [= <- <-]; split; [done|]; split; [done|apply info_same]].
  destruct (pop l i) as [[x l']|] eqn:Ep; [|done]. destruct (pop_spec _ _ _ _ Ep) as (l1 & l2 & -> & -> & Et' & Hmin). msimpl.
  destruct (a_placed _ _ _ _ _ _ _ _ _ Hi w _ x El) as [Hx Hxn]; [set_solver|].
  destruct (vset_ok (workers_info s) w (l1 ++ l2)) as [ws Ews]; [by rewrite (a_nw _ _ _ _ _ _ _ _ _ Hi)|]. rewrite Ews. msimpl.
  destruct (vget_ok (queues_info s) (queue_id x)) as [info Ei]; [by rewrite (a_nq _ _ _ _ _ _ _ _ _ Hi)|]. rewrite Ei. msimpl.
  set (info' := {| size := _; capacity := _; queue_rate_pps := _; pkt_delay_ticks := _; last_sent := _ |}).
  destruct (vset_ok (queues_info s) (queue_id x) info') as [qs Eqs]; [by rewrite (a_nq _ _ _ _ _ _ _ _ _ Hi)|]. rewrite Eqs. msimpl.
  intros [= <- <-]. split; [by apply (accounts_pop _ _ _ _ _ _ _ HC _ _ w x l1 l2 info _ qs ws Hi Ei El Ews Eqs)|]. split.
  - destruct (differ_pending queue_id map_to_worker _ _ _ _ _ _ (differ_remove _ _ _ l1 x l2 El Ews) Hx) as (Hp1 & Hp2 & Hp3).
    split; [by exists w, i|]. split; [rewrite Et in Et'; injection Et' as ->; done|]. split.
    + intros y. unfold pend, pending. rewrite Hx, El. intros [_ Hy]%list_elem_of_filter. by apply Hmin.
    + intros q'. unfold pend. cbn [workers_info]. rewrite of_queue_one. case_decide as Hq; [rewrite <-Hq, Hp1, Hp2; by eexists _, _|].
      rewrite Hp3 by done. exists (pending queue_id map_to_worker ws q'), []. split; cbn; by rewrite app_nil_r.
  - intros q' i'. cbn [queues_info]. rewrite (vget_vset _ _ _ _ q' Eqs).
    destruct (decide (q' = queue_id x)) as [->|Hne]; [intros [= <-]; by exists info|]. intros E. by exists i'.
Qed.

Lemma info_good C s q o (f : QueueInfo → QueueInfo) s' :
  inv C s → 0 ≤ q < nq → (∀ info, size (f info) = size info ∧ last_sent (f info) = last_sent info) → (∀ info, capacity info ≤ C q → capacity (f info) ≤ C q) →
  ((∀ pps, o ≠ SetRate q pps) → ∀ info, pkt_delay_ticks (f info) = pkt_delay_ticks info) →
  update_info map_to_worker s q f = Some s' → good C s o s' None.
Proof.
  intros Hi Hq Hf Hc Hd. unfold update_info. destruct (accounts_queue _ _ _ _ _ _ _ Hmap _ _ q Hi Hq) as (info & l & Ei & El & Hq' & Hw).
  rewrite Ei. msimpl. rewrite El. msimpl. destruct (vset_ok (queues_info s) q (f info) Hq') as [qs Eqs]. rewrite Eqs. msimpl. intros [= <-].
  destruct (a_size _ _ _ _ _ _ _ _ _ Hi q info Ei) as (Hz & HzC & Hcap). destruct (Hf info) as [Hf1 Hf2].
  split; [by apply (accounts_info _ _ _ _ _ _ _ _ _ q info (f info) qs Hi Ei Eqs); [|apply Hc]|]. split; [done|].
  intros q' i'. cbn [queues_info]. rewrite (vget_vset _ _ _ _ q' Eqs). destruct (decide (q' = q)) as [->|Hne]; [|intros E; by exists i'].
  intros [= <-]. exists info. split; [done|]. split; [intros Ho; by apply Hd|done].
Qed.

Lemma rate_exec_good C s o s' ev : (∀ q, C q < 2 ^ 64) → inv C s → op_ok C o → exec s o = Some (s', ev) → good C s o s' ev.
Proof.
  intros HC Hi Ho. destruct o as [q item now|w now i|q c|q pps]; cbn [op_ok] in Ho.
  - destruct (rate_push_good C s q item now HC Hi Ho) as (s1 & ev1 & -> & Hg). by intros [= <- <-].
  - by apply rate_pop_good.
  - cbn [exec]. unfold set_capacity. intros E. mbind_inv E. destruct Ho as [Hq Hc]. eapply info_good; [done|done| | | |exact E0]; done.
  - cbn [exec]. unfold set_rate. destruct (delay_ticks pps) as [d|]; [|done]. msimpl. intros E. mbind_inv E.
    eapply info_good; [done|done| | | |exact E0]; try done. intros Hne. by destruct (Hne pps).
Qed.

(** ** A queue whose rate is set *)

(** Each time is at least [d] after the one before. *)
Fixpoint spaced d t l : Prop := match l with [] => True | x :: l => t + d ≤ send x ∧ spaced d (send x) l end.

Definition last_of t l : Z := match last l with Some x => send x | None => t end.

Lemma spaced_app d l1 : ∀ t l2, spaced d t (l1 ++ l2) ↔ spaced d t l1 ∧ spaced d (last_of t l1) l2.
Proof.
  induction l1 as [|x l1 IH]; intros t l2; [cbn; tauto|]. cbn [spaced app]. rewrite IH. unfold last_of. rewrite last_cons. destruct (last l1); cbn; tauto.
Qed.

Lemma spaced_after d l : 0 ≤ d → ∀ t x, spaced d t l → x ∈ l → t + d ≤ send x.
Proof.
  intros Hd. induction l as [|y l IH]; intros t x; [by intros _ ?%elem_of_nil|]. cbn [spaced]. intros [Hy Hl] [->|Hx]%elem_of_cons; [done|].
  specialize (IH _ _ Hl Hx). lia.
Qed.

Lemma spaced_length d l x : 0 ≤ d → ∀ t, spaced d t l → last l = Some x → t + d * Z.of_nat (length l) ≤ send x.
Proof.
  intros Hd. induction l as [|y l IH]; intros t; [done|]. cbn [spaced]. intros [Hy Hl] Hx. rewrite last_cons in Hx. cbn [length].
  destruct (last l) as [z|] eqn:Ez; [|injection Hx as ->; destruct l; [cbn; lia|by rewrite last_cons in Ez; destruct (last l)]].
  injection Hx as ->. specialize (IH _ Hl eq_refl). lia.
Qed.

(** The elements of [q] are those accepted last, the times at least [d] apart. *)
Record paced d q (t0 : Z) s (acc rel : list (QE T)) : Prop := {
  p_delay : ∃ info, vget (queues_info s) q = Some info ∧ pkt_delay_ticks info = d ∧ last_sent info = last_of t0 acc;
  p_list : acc = rel ++ pend s q;
  p_spaced : spaced d t0 acc;
}.

Lemma exec_paced C d q t0 s o s' ev acc rel :
  (∀ q, C q < 2 ^ 64) → inv C s → op_ok C o → (∀ pps, o ≠ SetRate q pps) → 0 < d → exec s o = Some (s', ev) → paced d q t0 s acc rel →
  inv C s' ∧ paced d q t0 s' (acc ++ from_option (λ e, pushed q [e]) [] ev) (rel ++ from_option (λ e, popped q [e]) [] ev) ∧
  ∀ x now, ev = Some (Popped now x) → send x ≤ now ∧ ∃ w i, o = Pop w now i.
Proof.
  intros HC Hi Ho Hr Hd E [(info & Ei & Hdel & Hlast) Hl Hs]. destruct (rate_exec_good C s o s' ev HC Hi Ho E) as (Hi' & Hev & Hinfo). split; [done|].
  assert (∃ info', vget (queues_info s') q = Some info') as [info' Ei'].
  { apply vget_ok. rewrite (a_nq _ _ _ _ _ _ _ _ _ Hi'), <-(a_nq _ _ _ _ _ _ _ _ _ Hi). by eapply vget_Some_range. }
  destruct (Hinfo q info' Ei') as (info0 & Ei0 & Hdel' & Hlast'). assert (info0 = info) as -> by congruence. specialize (Hdel' Hr).
  destruct ev as [[x|now x]|]; cbn [event_spec from_option] in *.
  - destruct Hev as [(now & infox & -> & Eix & Hsend) Hpend]. split; [|done].
    change (pushed q [_]) with (of_queue queue_id q [x] ++ []); change (popped q [_]) with (@nil (QE T)). rewrite !app_nil_r, of_queue_one. case_decide as Hq.
    + assert (infox = info) as -> by congruence. unfold get_next_tp in Hsend. split.
      * exists info'. split; [done|]. split; [congruence|]. rewrite Hlast'. unfold last_of. by rewrite last_snoc.
      * rewrite Hpend, of_queue_one, decide_True, Hl by done. by rewrite app_assoc.
      * apply spaced_app. split; [done|]. cbn. split; [lia|done].
    + split; [exists info'; rewrite app_nil_r; split; [done|]; split; congruence| |by rewrite app_nil_r].
      by rewrite Hpend, of_queue_one, decide_False, !app_nil_r.
  - destruct Hev as (Hop & Hnow & Hmin & Hpend). split; [|intros y now' [= <- <-]; by split].
    change (popped q [_]) with (of_queue queue_id q [x] ++ []); change (pushed q [_]) with (@nil (QE T)). rewrite !app_nil_r. split; [exists info'; split; [done|]; split; congruence| |done].
    destruct (Hpend q) as (l1 & l2 & Hl1 & Hl2). rewrite Hl, Hl1, Hl2, of_queue_one. case_decide as Hq; [|cbn; by rewrite app_nil_r].
    assert (l1 = []) as ->; [|by rewrite <-app_assoc]. destruct l1 as [|y l1]; [done|]. exfalso.
    rewrite Hl, Hl1, of_queue_one, decide_True in Hs by done. apply spaced_app in Hs as [_ Hs]. cbn [spaced app] in Hs. destruct Hs as [_ Hs].
    pose proof (spaced_after d _ ltac:(lia) _ x Hs) as Hx. assert (x ∈ l1 ++ x :: l2) as Hin by set_solver. specialize (Hx Hin).
    assert (y ∈ pend s (queue_id x)) as Hy. { rewrite Hq, Hl1. set_solver. } specialize (Hmin y Hy). lia.
  - split; [|done]. rewrite !app_nil_r. split; [exists info'; split; [done|]; split; congruence| |done]. by rewrite Hev.
Qed.

Lemma run_paced C d q t0 os : ∀ s s' evs acc rel,
  (∀ q, C q < 2 ^ 64) → inv C s → Forall (op_ok C) os → (∀ pps, SetRate q pps ∉ os) → 0 < d → run s os = Some (s', evs) → paced d q t0 s acc rel →
  inv C s' ∧ paced d q t0 s' (acc ++ pushed q evs) (rel ++ popped q evs) ∧
  ∀ x now, Popped now x ∈ evs → send x ≤ now ∧ ∃ w i, Pop w now i ∈ os.
Proof.
  intros s s' evs acc rel HC. revert s s' evs acc rel. induction os as [|o os IH]; intros s s' evs acc rel Hi Hos Hr Hd E Hp; cbn [run] in E.
  { injection E as <- <-. cbn. rewrite !app_nil_r. split; [done|]. split; [done|]. by intros x now ?%elem_of_nil. }
  apply Forall_cons in Hos as [Ho Hos]. destruct (exec s o) as [[s1 ev]|] eqn:E1; [|done]. msimpl. cbn [mbind option_bind] in E.
  destruct (run s1 os) as [[s2 evs1]|] eqn:E2; [|done]. injection E as -> <-.
  assert (∀ pps, o ≠ SetRate q pps) as Hro by (intros pps ->; apply (Hr pps); set_solver).
  destruct (exec_paced C d q t0 s o s1 ev acc rel HC Hi Ho Hro Hd E1 Hp) as (Hi1 & Hp1 & Hn1).
  destruct (IH s1 s' evs1 _ _ Hi1 Hos ltac:(set_solver) Hd E2 Hp1) as (Hi2 & Hp2 & Hn2). split; [done|].
  rewrite <-!app_assoc in Hp2. split.
  - destruct ev as [ev|]; [|exact Hp2]. cbn [from_option] in Hp2.
    assert (pushed q [ev] ++ pushed q evs1 = pushed q (ev :: evs1)) as Ep by (destruct ev; cbn; rewrite ?app_nil_r; done).
    assert (popped q [ev] ++ popped q evs1 = popped q (ev :: evs1)) as Eq by (destruct ev; cbn; rewrite ?app_nil_r; done).
    by rewrite Ep, Eq in Hp2.
  - intros x now Hx. destruct ev as [ev|]; [apply elem_of_cons in Hx as [<-|Hx]|].
    + destruct (Hn1 x now eq_refl) as (? & w & i & ->). split; [done|]. exists w, i. set_solver.
    + destruct (Hn2 x now Hx) as (? & w & i & ?). split; [done|]. exists w, i. set_solver.
    + destruct (Hn2 x now Hx) as (? & w & i & ?). split; [done|]. exists w, i. set_solver.
Qed.

Lemma popped_in q evs x : x ∈ popped q evs → ∃ now, Popped now x ∈ evs.
Proof.
  unfold popped. rewrite list_elem_of_bind. intros (ev & Hx & Hev). destruct ev as [y|now y]; [by apply elem_of_nil in Hx|].
  apply list_elem_of_filter in Hx as [_ ->%list_elem_of_singleton]. by exists now.
Qed.

Lemma pend_new c t0 q : pend (new nq nw c t0) q = [].
Proof.
  unfold pend, pending. cbn. unfold vget. case_decide; [|done]. destruct (replicate _ _ !! _) as [l|] eqn:E; [|done]. by apply lookup_replicate in E as [-> _].
Qed.

(** C22: Take new queueing logic, and a queue whose rate is set by the first operation, and not
    again, to one that makes a delay of at least a tick of the clock. Its items leave in the
    order they came, whatever the other queues of its worker do and whatever the clock shows,
    and the rate is kept from the start: the items that have left by the time [t] are at most
    one for each delay that passed. Without a delay the rate is not limited and the order is
    lost to equal times, see unlimited and reordered. *)
Theorem rate_kept (c t0 : Z) (C : Z → Z) (q pps d t : Z) (os : list op) s evs :
  0 ≤ nq → 0 ≤ nw → (∀ q, 0 ≤ c ≤ C q ∧ C q < 2 ^ 64) → 0 ≤ q < nq →
  delay_ticks pps = Some d → 0 < d → Forall (op_ok C) os → (∀ pps', SetRate q pps' ∉ os) →
  run (new nq nw c t0) (SetRate q pps :: os) = Some (s, evs) →
  pushed q evs = popped q evs ++ pend s q ∧
  (t0 ≤ t → (∀ w now i, Pop w now i ∈ os → now ≤ t) → d * Z.of_nat (length (popped q evs)) ≤ t - t0).
Proof.
  intros H1 H2 HC Hq Hdel Hd Hos Hr E. pose proof (λ q, proj2 (HC q)) as HC2.
  assert (inv C (new nq nw c t0)) as Hn by (apply (accounts_new _ _ _ _ _ _ _ c); [done|done|intros q'; by destruct (HC q')|done|done]).
  cbn [run] in E. destruct (exec (new nq nw c t0) (SetRate q pps)) as [[s1 ev]|] eqn:E1; [|done]. cbn [mbind option_bind] in E.
  destruct (run s1 os) as [[s2 evs1]|] eqn:E2; [|done]. injection E as -> <-.
  destruct (rate_exec_good C _ (SetRate q pps) s1 ev HC2 Hn Hq E1) as (Hi1 & _). cbn [exec] in E1. unfold set_rate in E1. rewrite Hdel in E1. cbn [mbind option_bind] in E1.
  destruct (update_info map_to_worker (new nq nw c t0) q _) as [s1'|] eqn:Eu; [|done]. injection E1 as -> <-.
  assert (paced d q t0 s1 [] []) as Hp.
  { unfold update_info in Eu. destruct (vget (queues_info (new nq nw c t0)) q) as [info|] eqn:Ei; [|done]. cbn [mbind option_bind] in Eu.
    destruct (vget (workers_info (new nq nw c t0)) (map_to_worker q)) as [l|]; [|done]. cbn [mbind option_bind] in Eu.
    destruct (vset (queues_info (new nq nw c t0)) q _) as [qs|] eqn:Eqs; [|done]. injection Eu as <-. split; [|exact (eq_sym (pend_new c t0 q))|done].
    cbn [queues_info]. rewrite (vget_vset _ _ _ _ q Eqs), decide_True by done. eexists. split; [done|]. split; [done|].
    unfold vget in Ei. case_decide; [|done]. by apply lookup_replicate in Ei as [-> _]. }
  assert (pend s1 q = []) as Hnil. { destruct Hp as [_ Hl _]. by rewrite app_nil_l in Hl. }
  destruct (run_paced C d q t0 os s1 s evs1 [] [] HC2 Hi1 Hos Hr Hd E2 Hp) as (_ & [_ Hl Hs] & Hnow). split; [done|].
  intros Ht Hpop. destruct (last (popped q evs1)) as [x|] eqn:Ex.
  - cbn [app] in Hl, Hs. rewrite Hl in Hs. apply spaced_app in Hs as [Hs _]. pose proof (spaced_length d _ x ltac:(lia) t0 Hs Ex) as Hlen.
    destruct (popped_in q evs1 x) as [now Hin]; [apply last_Some in Ex as [l ->]; set_solver|]. destruct (Hnow x now Hin) as (? & w & i & Hop).
    specialize (Hpop w now i Hop). lia.
  - apply last_None in Ex. rewrite Ex. cbn. lia.
Qed.

Lemma run_inv C os : ∀ s s' evs, (∀ q, C q < 2 ^ 64) → inv C s → Forall (op_ok C) os → run s os = Some (s', evs) →
  inv C s' ∧ ∀ q, pend s q ++ pushed q evs ≡ₚ popped q evs ++ pend s' q.
Proof.
  intros s s' evs HC. revert s s' evs. induction os as [|o os IH]; intros s s' evs Hi Hos E; cbn [run] in E.
  { injection E as <- <-. split; [done|]. intros q. cbn. by rewrite app_nil_r. }
  apply Forall_cons in Hos as [Ho Hos]. destruct (exec s o) as [[s1 ev]|] eqn:E1; [|done]. cbn [mbind option_bind] in E.
  destruct (run s1 os) as [[s2 evs1]|] eqn:E2; [|done]. injection E as -> <-.
  destruct (rate_exec_good C s o s1 ev HC Hi Ho E1) as (Hi1 & Hev & _). destruct (IH s1 s' evs1 Hi1 Hos E2) as [Hi2 Hq]. split; [done|].
  intros q. specialize (Hq q). destruct ev as [[x|now x]|]; cbn [event_spec] in Hev.
  - destruct Hev as [_ Hev]. change (pushed q (Pushed x :: evs1)) with (of_queue queue_id q [x] ++ pushed q evs1).
    change (popped q (Pushed x :: evs1)) with (popped q evs1). by rewrite <-Hq, Hev, app_assoc.
  - destruct Hev as (_ & _ & _ & Hev). destruct (Hev q) as (l1 & l2 & Hl1 & Hl2). change (pushed q (Popped now x :: evs1)) with (pushed q evs1).
    change (popped q (Popped now x :: evs1)) with (of_queue queue_id q [x] ++ popped q evs1). rewrite <-app_assoc, <-Hq, Hl1, Hl2. solve_Permutation.
  - by rewrite <-Hev.
Qed.

(** Each logical queue has its own capacity: whatever element is at the top
    of the heap of a worker when several can leave, what was accepted for a
    queue is what left it and what it holds, as many as its size says, and never
    more than the largest of its capacities. *)
Theorem rate_accounts (c t0 : Z) (C : Z → Z) (os : list op) s evs :
  0 ≤ nq → 0 ≤ nw → (∀ q, 0 ≤ c ≤ C q ∧ C q < 2 ^ 64) → Forall (op_ok C) os → run (new nq nw c t0) os = Some (s, evs) →
  ∀ q, 0 ≤ q < nq →
    pushed q evs ≡ₚ popped q evs ++ pend s q ∧
    get_size map_to_worker s q = Some (Z.of_nat (length (pend s q))) ∧ Z.of_nat (length (pend s q)) ≤ C q.
Proof.
  intros H1 H2 HC Hos E q Hr. pose proof (λ q, proj2 (HC q)) as HC2.
  assert (inv C (new nq nw c t0)) as Hn by (apply (accounts_new _ _ _ _ _ _ _ c); [done|done|intros q'; by destruct (HC q')|done|done]).
  destruct (run_inv C os _ _ _ HC2 Hn Hos E) as [Hi Hq]. specialize (Hq q). rewrite pend_new in Hq.
  destruct (accounts_queue _ _ _ _ _ _ _ Hmap _ _ q Hi Hr) as (info & l & Ei & El & _). destruct (a_size _ _ _ _ _ _ _ _ _ Hi q info Ei) as (Hz & HzC & _).
  split; [done|]. split; [|unfold pend; lia]. unfold get_size. rewrite Ei. msimpl. rewrite El. msimpl. by rewrite Hz.
Qed.

(** No operation on queues and workers that exist throws: there is an
    element at the top of a heap that is not empty, and what is taken is one
    with the least time, once the clock has reached it. *)
Theorem rate_total (C : Z → Z) s w now :
  inv C s → 0 ≤ w < nw →
  ∃ l, vget (workers_info s) w = Some l ∧
    match top_send l with
    | None => l = [] ∧ ∀ i, pop_back s w now i = Some (s, inl ForItem)
    | Some t => (∀ x, x ∈ l → t ≤ send x) ∧
        if t <=? now then ∃ i s' x, pop_back s w now i = Some (s', inr x) ∧ x ∈ l ∧ send x = t
        else ∀ i, pop_back s w now i = Some (s, inl (Until t))
    end.
Proof.
  clear Hmap. intros Hi Hw. destruct (vget_ok (workers_info s) w) as [l El]; [by rewrite (a_nw _ _ _ _ _ _ _ _ _ Hi)|]. exists l. split; [done|].
  unfold pop_back. rewrite El. msimpl. destruct (top_send l) as [t|] eqn:Et; [|split; [by destruct l|done]]. split; [by apply top_send_min|].
  destruct (t <=? now); cbn [negb]; [|done]. destruct (pop_some l t Et) as (i & x & l' & Ep). exists i. rewrite Ep. msimpl.
  destruct (pop_spec _ _ _ _ Ep) as (l1 & l2 & -> & -> & Et' & _). destruct (a_placed _ _ _ _ _ _ _ _ _ Hi w _ x El) as [Hx Hxn]; [set_solver|].
  destruct (vset_ok (workers_info s) w (l1 ++ l2)) as [ws Ews]; [by rewrite (a_nw _ _ _ _ _ _ _ _ _ Hi)|]. rewrite Ews. msimpl.
  destruct (vget_ok (queues_info s) (queue_id x)) as [info Ei]; [by rewrite (a_nq _ _ _ _ _ _ _ _ _ Hi)|]. rewrite Ei. msimpl.
  destruct (vset_ok (queues_info s) (queue_id x) {| size := u64 (size info - 1); capacity := capacity info; queue_rate_pps := queue_rate_pps info;
    pkt_delay_ticks := pkt_delay_ticks info; last_sent := last_sent info |}) as [qs Eqs]; [by rewrite (a_nq _ _ _ _ _ _ _ _ _ Hi)|]. rewrite Eqs. msimpl.
  eexists _, x. split; [done|]. split; [set_solver|]. congruence.
Qed.
End spec.
End QueueingRates.
