(* ===== verification/QueueingPriority.v ===== *)
(** * What priorities promise

    The operations of [QueueingLogicPriRL]: a worker is served by priority, and
    each priority of each logical queue has its own size and capacity. *)

From S2P Require Import Prelude Meters MeterBounds Queueing QueueingSpec QueueingRates.

Module QueueingPriority.
Import QueueingLogicPriRL.

(** ** The order of service *)
Section order.
Context {T : Type}.
Implicit Types (s : state T) (q w p c now : Z).

(** The elements of a worker that have the priority. *)
Definition held (wi : WorkerInfo T) p : list (QE T) := default [] (vget (queues wi) p).

Lemma find_queue_spec (qus : list (list (QE T))) n : ∀ p now next r, find_queue qus n p now next = Some r →
  match r with
  | inr p' => p ≤ p' < p + Z.of_nat n ∧ (∃ l t, vget qus p' = Some l ∧ top_send l = Some t ∧ t ≤ now) ∧
      ∀ p0 l y, p ≤ p0 < p' → vget qus p0 = Some l → y ∈ l → now < send y
  | inl next' => next' ≤ next ∧ (∀ p0 l y, p ≤ p0 < p + Z.of_nat n → vget qus p0 = Some l → y ∈ l → now < send y ∧ next' ≤ send y) ∧
      (next' = next ∨ ∃ p0 l, vget qus p0 = Some l ∧ top_send l = Some next')
  end.
Proof.
  induction n as [|n IH]; intros p now next r E; cbn [find_queue] in E.
  { injection E as <-. split; [done|]. split; [lia|by left]. }
  destruct (vget qus p) as [l|] eqn:El; [|done]. cbn [mbind option_bind] in E. destruct (top_send l) as [t|] eqn:Et.
  2:{ assert (l = []) as -> by by destruct l. specialize (IH _ _ _ _ E). destruct r as [next'|p'].
    - destruct IH as (H1 & H2 & H3). split; [done|]. split; [|done]. intros p0 l y Hp El0 Hy. destruct (decide (p0 = p)) as [->|]; [|apply (H2 p0 l); [lia|done|done]].
      rewrite El in El0. injection El0 as <-. by apply elem_of_nil in Hy.
    - destruct IH as (H1 & H2 & H3). split; [lia|]. split; [done|]. intros p0 l y Hp El0 Hy. destruct (decide (p0 = p)) as [->|]; [|apply (H3 p0 l); [lia|done|done]].
      rewrite El in El0. injection El0 as <-. by apply elem_of_nil in Hy. }
  pose proof (QueueingRates.top_send_min l t Et) as Hmin. destruct (Z.leb_spec t now).
  { injection E as <-. split; [lia|]. split; [by exists l, t|]. lia. }
  specialize (IH _ _ _ _ E). destruct r as [next'|p'].
  - destruct IH as (H1 & H2 & H3). split; [lia|]. split.
    + intros p0 l0 y Hp El0 Hy. destruct (decide (p0 = p)) as [->|]; [|apply (H2 p0 l0); [lia|done|done]].
      rewrite El in El0. injection El0 as <-. specialize (Hmin y Hy). lia.
    + destruct H3 as [->|?]; [|by right]. destruct (Z.min_spec next t) as [[? ->]|[? ->]]; [by left|]. right. by exists p, l.
  - destruct IH as (H1 & H2 & H3). split; [lia|]. split; [done|]. intros p0 l0 y Hp El0 Hy. destruct (decide (p0 = p)) as [->|]; [|apply (H3 p0 l0); [lia|done|done]].
    rewrite El in El0. injection El0 as <-. specialize (Hmin y Hy). lia.
Qed.

Lemma held_get (wi : WorkerInfo T) p y : y ∈ held wi p → ∃ l, vget (queues wi) p = Some l ∧ y ∈ l.
Proof. unfold held. destruct (vget (queues wi) p) as [l|]; cbn; [by exists l|by intros ?%elem_of_nil]. Qed.

(** C23: A worker gets an element that can leave, one of those of its priority
    with the least time, and no element of a higher priority can leave; and when
    it waits for a time, none can leave before it. *)
Theorem served_by_priority s w now i s' r wi :
  pop_back s w now i = Some (s', r) → vget (workers_info s) w = Some wi →
  match r with
  | inr (p, x) =>
      0 ≤ p < nb_priorities s ∧ x ∈ held wi p ∧ send x ≤ now ∧ (∀ y, y ∈ held wi p → send x ≤ send y) ∧
      ∀ p' y, 0 ≤ p' < p → y ∈ held wi p' → now < send y
  | inl (Until next) =>
      s' = s ∧ (∀ p y, 0 ≤ p < nb_priorities s → y ∈ held wi p → now < send y ∧ next ≤ send y) ∧
      (next = time_max ∨ ∃ p y, y ∈ held wi p ∧ next = send y)
  | inl ForItem => s' = s ∧ w_size wi = 0
  end.
Proof.
  unfold pop_back. intros E Ewi. rewrite Ewi in E. cbn [mbind option_bind] in E. destruct (Z.eqb_spec (w_size wi) 0); [by injection E as <- <-|].
  destruct (find_queue (queues wi) (Z.to_nat (nb_priorities s)) 0 now time_max) as [found|] eqn:Ef; [|done]. cbn [mbind option_bind] in E.
  pose proof (find_queue_spec _ _ _ _ _ _ Ef) as Hf. destruct found as [next|p].
  - injection E as <- <-. destruct Hf as (_ & H2 & H3). split; [done|]. split.
    + intros p y Hp (l & El & Hy)%held_get. apply (H2 p l); [lia|done|done].
    + destruct H3 as [->|(p0 & l & El & Et)]; [by left|]. right. destruct (QueueingRates.top_send_in l next Et) as (j & y & Ej & <-). exists p0, y.
      unfold held. rewrite El. cbn. split; [by eapply list_elem_of_lookup_2|done].
  - destruct Hf as (Hp & (l & t & El & Et & Hle) & H3). rewrite El in E. cbn [mbind option_bind] in E. destruct (pop l i) as [[x l']|] eqn:Ep; [|done].
    destruct (QueueingRates.pop_spec _ _ _ _ Ep) as (l1 & l2 & -> & -> & Et' & Hmin). mbind_inv E.
    unfold held at 1 2. rewrite El. cbn. split; [lia|]. split; [set_solver|]. split; [lia|]. split; [done|].
    intros p' y Hp' (l & El' & Hy)%held_get. apply (H3 p' l); [lia|done|done].
Qed.

End order.

(** ** The queues of one priority *)
Section spec.
Context {T : Type} (map_to_worker : Z → Z) (nq nw np : Z).
Context (Hmap : ∀ q, 0 ≤ q < nq → 0 ≤ map_to_worker q < nw) (Hnp : 0 < np ≤ 32).
Implicit Types (s : state T) (q w p c now : Z).

Definition no_info : QueueInfoPri := {| size := 0; capacity := 0; queue_rate_pps := 0; pkt_delay_ticks := 0; last_sent := 0 |}.
Definition info_at p (qi : QueueInfo) : QueueInfoPri := default no_info (vget (infos qi) p).
Definition column p (qs : list QueueInfo) : list QueueInfoPri := info_at p <$> qs.
Definition column_of_workers p (ws : list (WorkerInfo T)) : list (list (QE T)) := (λ wi, held wi p) <$> ws.

Lemma vset_column {A B} (f : A → B) l i x l' : vset l i x = Some l' → vset (f <$> l) i (f x) = Some (f <$> l').
Proof. intros [Hi ->]%vset_inv. rewrite vset_Some by (by rewrite length_fmap). by rewrite list_fmap_insert. Qed.

Lemma column_other p qs q qi qi' qs' : vget qs q = Some qi → vset qs q qi' = Some qs' → info_at p qi' = info_at p qi → column p qs' = column p qs.
Proof. intros Ei Es Hi. by apply (vset_fmap (info_at p) qs q qi' qi). Qed.

Lemma workers_other p ws w wi wi' ws' : vget ws w = Some wi → vset ws w wi' = Some ws' → held wi' p = held wi p → column_of_workers p ws' = column_of_workers p ws.
Proof. intros Ei Es Hi. by apply (vset_fmap (λ wi, held wi p) ws w wi' wi). Qed.

Fixpoint total (l : list QueueInfoPri) : Z := match l with [] => 0 | i :: l => size i + total l end.

Lemma total_set l p x y l' : vget l p = Some y → vset l p x = Some l' → total l' = total l - size y + size x.
Proof.
  intros Ey [Hp ->]%vset_inv. rewrite vget_nat in Ey by lia. revert Ey. generalize (Z.to_nat p). clear Hp. induction l as [|i l IH]; intros k Ey; [done|].
  destruct k as [|k]; [injection Ey as ->; cbn; lia|]. change (total (<[S k := x]> (i :: l))) with (size i + total (<[k := x]> l)). rewrite (IH k Ey). cbn. lia.
Qed.

Definition queue_accounts (C : Z → Z → Z) p (qs : list QueueInfo) (ws : list (WorkerInfo T)) : Prop :=
  accounts queue_id size capacity map_to_worker nq nw (C p) (column p qs) (column_of_workers p ws).

Record inv (C : Z → Z → Z) s : Prop := {
  v_np : nb_priorities s = np;
  v_infos q qi : vget (queues_info s) q = Some qi → Z.of_nat (length (infos qi)) = np;
  v_queues w wi : vget (workers_info s) w = Some wi → length (queues wi) = 32%nat;
  v_acc p : 0 ≤ p < np → queue_accounts C p (queues_info s) (workers_info s);
  v_total q qi : vget (queues_info s) q = Some qi → q_size qi = u64 (total (infos qi));
}.

(** The elements of one priority of a logical queue. *)
Definition pend s q p : list (QE T) := pending queue_id map_to_worker (column_of_workers p (workers_info s)) q.

Lemma priority_queue C s q p : inv C s → 0 ≤ q < nq → 0 ≤ p < np →
  ∃ qi wi info l, vget (queues_info s) q = Some qi ∧ vget (workers_info s) (map_to_worker q) = Some wi ∧ vget (infos qi) p = Some info ∧ vget (queues wi) p = Some l ∧
    vget (column p (queues_info s)) q = Some info ∧ vget (column_of_workers p (workers_info s)) (map_to_worker q) = Some l.
Proof.
  intros [Hn Hi Hw Ha _] Hq Hp. destruct (accounts_queue _ _ _ _ _ _ _ Hmap _ _ q (Ha p Hp) Hq) as (info & l & Ei & El & _).
  unfold column in *. unfold column_of_workers in *. rewrite vget_fmap in Ei. rewrite vget_fmap in El. destruct (vget (queues_info s) q) as [qi|] eqn:Eq; [|done].
  destruct (vget (workers_info s) (map_to_worker q)) as [wi|] eqn:Ew; [|done]. injection Ei as Ei. injection El as El. exists qi, wi, info, l.
  destruct (vget_ok (infos qi) p) as [info' Ei']; [by rewrite (Hi q qi Eq)|]. destruct (vget_ok (queues wi) p) as [l' El']; [rewrite (Hw _ wi Ew); lia|].
  unfold info_at in Ei. rewrite Ei' in Ei. unfold held in El. rewrite El' in El. cbn in Ei, El. subst. rewrite !vget_fmap, Eq, Ew. cbn.
  unfold info_at, held. rewrite Ei', El'. done.
Qed.

Lemma info_at_set qi p p' x ips : vset (infos qi) p x = Some ips → ∀ n, info_at p' {| infos := ips; q_size := n |} = if decide (p' = p) then x else info_at p' qi.
Proof. intros E n. unfold info_at. cbn. rewrite (vget_vset _ _ _ _ p' E). by case_decide. Qed.

Lemma held_set (wi : WorkerInfo T) p p' l qus : vset (queues wi) p l = Some qus → ∀ n, held {| w_size := n; queues := qus |} p' = if decide (p' = p) then l else held wi p'.
Proof. intros E n. unfold held. cbn. rewrite (vget_vset _ _ _ _ p' E). by case_decide. Qed.

(** What an operation that changes one priority of one queue, and one worker, has to keep. *)
Lemma inv_set C s q p qi qi' wi w wi' qs ws ips x info l qus n m :
  inv C s → vget (queues_info s) q = Some qi → vget (workers_info s) w = Some wi → vget (infos qi) p = Some info →
  vset (infos qi) p x = Some ips → qi' = {| infos := ips; q_size := n |} → vset (queues_info s) q qi' = Some qs →
  vset (queues wi) p l = Some qus → wi' = {| w_size := m; queues := qus |} → vset (workers_info s) w wi' = Some ws →
  n = u64 (q_size qi + (size x - size info)) → queue_accounts C p qs ws →
  inv C {| nb_priorities := nb_priorities s; queues_info := qs; workers_info := ws |}.
Proof.
  intros [Hn Hi Hw Ha Ht] Eq Ew Ei Eis -> Eqs Equ -> Ews Hz Hacc. constructor; cbn.
  - done.
  - intros q' qi0. rewrite (vget_vset _ _ _ _ q' Eqs). case_decide; [|by apply Hi]. intros [= <-]. cbn. rewrite (vset_length _ _ _ _ Eis). by apply (Hi q).
  - intros w' wi0. rewrite (vget_vset _ _ _ _ w' Ews). case_decide; [|by apply Hw]. intros [= <-]. cbn. rewrite (vset_length _ _ _ _ Equ). by apply (Hw w).
  - intros p' Hp'. destruct (decide (p' = p)) as [->|Hne]; [done|]. unfold queue_accounts.
    rewrite (column_other p' _ _ _ _ _ Eq Eqs), (workers_other p' _ _ _ _ _ Ew Ews); [by apply Ha| |].
    + by rewrite (held_set wi p p' l qus Equ), decide_False.
    + by rewrite (info_at_set qi p p' x ips Eis), decide_False.
  - intros q' qi0. rewrite (vget_vset _ _ _ _ q' Eqs). case_decide; [|by apply Ht]. intros [= <-]. cbn. rewrite (total_set _ _ _ _ _ Ei Eis), Hz, (Ht q qi Eq).
    unfold wrap. rewrite Zplus_mod_idemp_l. f_equal. lia.
Qed.

(** ** Operations *)

Inductive op := Push (q p : Z) (item : T) (now : Z) | Pop (w now : Z) (i : nat) | SetCapacity (q c : Z) | SetCapacityOf (q p c : Z) | SetRate (q pps : Z) | SetRateOf (q p pps : Z).
Inductive event := Pushed (q p : Z) | Popped (p : Z) (x : QE T).

Definition exec s (o : op) : option (state T * option event) :=
  match o with
  | Push q p item now => '(s, b) ← push_front map_to_worker s q p item now; Some (s, if b : bool then Some (Pushed q p) else None)
  | Pop w now i => '(s, r) ← pop_back s w now i; Some (s, match r with inr (p, x) => Some (Popped p x) | inl _ => None end)
  | SetCapacity q c => s ← set_capacity map_to_worker s q c; Some (s, None)
  | SetCapacityOf q p c => s ← set_capacity_priority map_to_worker s q p c; Some (s, None)
  | SetRate q pps => s ← set_rate map_to_worker s q pps; Some (s, None)
  | SetRateOf q p pps => s ← set_rate_priority map_to_worker s q p pps; Some (s, None)
  end.

Fixpoint run s (os : list op) : option (state T * list event) :=
  match os with
  | [] => Some (s, [])
  | o :: os => '(s, ev) ← exec s o; '(s, evs) ← run s os; Some (s, match ev with Some ev => ev :: evs | None => evs end)
  end.

Definition op_ok (C : Z → Z → Z) (o : op) : Prop :=
  match o with
  | Push q p _ _ | SetRateOf q p _ => 0 ≤ q < nq ∧ 0 ≤ p < np
  | SetRate q _ => 0 ≤ q < nq
  | Pop w _ _ => 0 ≤ w < nw
  | SetCapacity q c => 0 ≤ q < nq ∧ ∀ p, 0 ≤ p < np → c ≤ C p q
  | SetCapacityOf q p c => 0 ≤ q < nq ∧ 0 ≤ p < np ∧ c ≤ C p q
  end.

Lemma u64_add a b : u64 (u64 a + b) = u64 (a + b).
Proof. unfold wrap. apply Zplus_mod_idemp_l. Qed.

(** A size that is changed by [k] is the sum of those before and [k], modulo [2 ^ 64]. *)
Lemma count_changes a info x k : size x = u64 (size info + k) → u64 (a + (size x - size info)) = u64 (a + k).
Proof. intros ->. unfold wrap. rewrite <-(Zplus_mod_idemp_r (_ - _)), Zminus_mod_idemp_l, Zplus_mod_idemp_r. f_equal. lia. Qed.

Lemma pri_push_good C s q p item now s' ev :
  (∀ p q, C p q < 2 ^ 64) → inv C s → 0 ≤ q < nq → 0 ≤ p < np → exec s (Push q p item now) = Some (s', ev) → inv C s'.
Proof.
  intros HC Hi Hq Hp. cbn [exec]. unfold push_front. destruct (priority_queue C s q p Hi Hq Hp) as (qi & wi & info & l & Eq & Ew & Ei & El & Ec & Ecw).
  rewrite Eq. msimpl. rewrite Ew. msimpl. rewrite Ei. msimpl. destruct (Z.leb_spec (capacity info) (size info)); [by intros [= <- <-]|].
  rewrite El. msimpl. set (x := {| e := item; queue_id := q; send := get_next_tp info now |}). intros E.
  set (info' := {| size := u64 (size info + 1); capacity := _; queue_rate_pps := _; pkt_delay_ticks := _; last_sent := _ |}) in E.
  destruct (vset (queues wi) p (l ++ [x])) as [qus|] eqn:Equ; [|done]. cbn [mbind option_bind] in E.
  destruct (vset (infos qi) p info') as [ips|] eqn:Eis; [|done]. cbn [mbind option_bind] in E.
  destruct (vset (queues_info s) q _) as [qs|] eqn:Eqs; [|done]. cbn [mbind option_bind] in E.
  destruct (vset (workers_info s) _ _) as [ws|] eqn:Ews; [|done]. injection E as <- _.
  eapply (inv_set C s q p qi _ wi _ _ qs ws ips info' info (l ++ [x]) qus); try done.
  - rewrite (count_changes _ _ _ 1) by done. done.
  - pose proof (vset_column (info_at p) _ _ _ _ Eqs) as Hcq. rewrite (info_at_set qi p p info' ips Eis), decide_True in Hcq by done.
    pose proof (vset_column (λ wi, held wi p) _ _ _ _ Ews) as Hcw. cbn beta in Hcw. rewrite (held_set wi p p _ qus Equ), decide_True in Hcw by done.
    rewrite <-(app_nil_r l) in Ecw.
    by apply (accounts_push queue_id size capacity map_to_worker nq nw (C p) (HC p) _ _ x l [] info info' _ _ (v_acc C s Hi p Hp) Ec Ecw Hcw Hcq).
Qed.

Lemma pri_pop_good C s w now i s' ev : (∀ p q, C p q < 2 ^ 64) → inv C s → exec s (Pop w now i) = Some (s', ev) → inv C s'.
Proof.
  intros HC Hi. cbn [exec]. intros E. destruct (pop_back s w now i) as [[s0 r]|] eqn:Ep; [|done]. injection E as -> _. unfold pop_back in Ep.
  destruct (vget (workers_info s) w) as [wi|] eqn:Ew; [|done]. cbn [mbind option_bind] in Ep.
  destruct (w_size wi =? 0); [by injection Ep as <- <-|]. destruct (find_queue _ _ _ _ _) as [[next|p]|] eqn:Ef; [by injection Ep as <- <-| |done]. cbn [mbind option_bind] in Ep.
  destruct (find_queue_spec _ _ _ _ _ _ Ef) as (Hp & _). rewrite (v_np C s Hi) in Hp. assert (0 ≤ p < np) as Hp' by lia. clear Hp.
  destruct (vget (queues wi) p) as [l|] eqn:El; [|done]. cbn [mbind option_bind] in Ep. destruct (pop l i) as [[x l']|] eqn:Epop; [|done].
  destruct (QueueingRates.pop_spec _ _ _ _ Epop) as (l1 & l2 & -> & -> & _). cbn [mbind option_bind] in Ep.
  destruct (vset (queues wi) p (l1 ++ l2)) as [qus|] eqn:Equ; [|done]. cbn [mbind option_bind] in Ep.
  destruct (vset (workers_info s) w _) as [ws|] eqn:Ews; [|done]. cbn [mbind option_bind] in Ep.
  destruct (vget (queues_info s) (queue_id x)) as [qi|] eqn:Eq; [|done]. cbn [mbind option_bind] in Ep.
  destruct (vget (infos qi) p) as [info|] eqn:Ei; [|done]. cbn [mbind option_bind] in Ep.
  set (info' := {| size := u64 (size info - 1); capacity := _; queue_rate_pps := _; pkt_delay_ticks := _; last_sent := _ |}) in Ep.
  destruct (vset (infos qi) p info') as [ips|] eqn:Eis; [|done]. cbn [mbind option_bind] in Ep.
  destruct (vset (queues_info s) (queue_id x) _) as [qs|] eqn:Eqs; [|done]. injection Ep as <- _.
  eapply (inv_set C s (queue_id x) p qi _ wi w _ qs ws ips info' info (l1 ++ l2) qus); try done.
  - rewrite (count_changes _ _ _ (-1)) by done. done.
  - pose proof (vset_column (info_at p) _ _ _ _ Eqs) as Hcq. rewrite (info_at_set qi p p info' ips Eis), decide_True in Hcq by done.
    pose proof (vset_column (λ wi, held wi p) _ _ _ _ Ews) as Hcw. cbn beta in Hcw. rewrite (held_set wi p p _ qus Equ), decide_True in Hcw by done.
    assert (vget (column p (queues_info s)) (queue_id x) = Some info) as Ec. { unfold column. rewrite vget_fmap, Eq. cbn. unfold info_at. by rewrite Ei. }
    assert (vget (column_of_workers p (workers_info s)) w = Some (l1 ++ x :: l2)) as Ecw. { unfold column_of_workers. rewrite vget_fmap, Ew. cbn. unfold held. by rewrite El. }
    by apply (accounts_pop queue_id size capacity map_to_worker nq nw (C p) (HC p) _ _ w x l1 l2 info info' _ _ (v_acc C s Hi p Hp') Ec Ecw Hcw Hcq).
Qed.

(** A function of a queue's own that keeps sizes. *)
Definition keeps (C : Z → Z → Z) q (fn : QueueInfoPri → QueueInfoPri) p : Prop :=
  ∀ info, size (fn info) = size info ∧ (capacity info ≤ C p q → capacity (fn info) ≤ C p q).

Lemma total_fmap fn l : (∀ info, size (fn info) = size info) → total (fn <$> l) = total l.
Proof. intros Hf. induction l as [|i l IH]; [done|]. cbn. by rewrite Hf, IH. Qed.

Lemma inv_infos C s q qi ips qs :
  inv C s → vget (queues_info s) q = Some qi → length ips = length (infos qi) → total ips = total (infos qi) →
  (∀ p, 0 ≤ p < np → size (default no_info (vget ips p)) = size (info_at p qi) ∧ capacity (default no_info (vget ips p)) ≤ C p q) →
  vset (queues_info s) q {| infos := ips; q_size := q_size qi |} = Some qs →
  inv C {| nb_priorities := nb_priorities s; queues_info := qs; workers_info := workers_info s |}.
Proof.
  intros [Hn Hi Hw Ha Ht] Eq Hlen Htot Hips Eqs. constructor; cbn; try done.
  - intros q' qi0. rewrite (vget_vset _ _ _ _ q' Eqs). case_decide; [|by apply Hi]. intros [= <-]. cbn. rewrite Hlen. by apply (Hi q).
  - intros p Hp. pose proof (vset_column (info_at p) _ _ _ _ Eqs) as Hcq.
    assert (vget (column p (queues_info s)) q = Some (info_at p qi)) as Ec. { unfold column. by rewrite vget_fmap, Eq. }
    destruct (Hips p Hp) as [Hz Hc]. unfold queue_accounts.
    by apply (accounts_info queue_id size capacity map_to_worker nq nw (C p) _ _ q (info_at p qi) _ _ (Ha p Hp) Ec Hcq).
  - intros q' qi0. rewrite (vget_vset _ _ _ _ q' Eqs). case_decide; [|by apply Ht]. intros [= <-]. cbn. rewrite Htot. by apply (Ht q).
Qed.

Lemma capacity_at C s q qi p : inv C s → vget (queues_info s) q = Some qi → 0 ≤ p < np → capacity (info_at p qi) ≤ C p q.
Proof.
  intros Hi Eq Hp. assert (vget (column p (queues_info s)) q = Some (info_at p qi)) as Ec. { unfold column. by rewrite vget_fmap, Eq. }
  by destruct (a_size _ _ _ _ _ _ _ _ _ (v_acc C s Hi p Hp) q _ Ec) as (_ & _ & ?).
Qed.

Lemma each_good C s q fn s' : inv C s → (∀ p, 0 ≤ p < np → keeps C q fn p) → for_each_q map_to_worker s q fn = Some s' → inv C s'.
Proof.
  intros Hi Hk. unfold for_each_q. intros E. destruct (vget (queues_info s) q) as [qi|] eqn:Eq; [|done]. cbn [mbind option_bind] in E.
  destruct (vget (workers_info s) _) as [wi|]; [|done]. cbn [mbind option_bind] in E. destruct (vset (queues_info s) q _) as [qs|] eqn:Eqs; [|done]. injection E as <-.
  assert (∀ info, size (fn info) = size info) as Hsz by (intros info; apply (Hk 0 ltac:(lia) info)).
  apply (inv_infos C s q qi (fn <$> infos qi) qs Hi Eq); [by rewrite length_fmap|by apply total_fmap| |done].
  intros p Hp. pose proof (capacity_at C s q qi p Hi Eq Hp) as Hc. destruct (vget_ok (infos qi) p) as [info Ei]; [by rewrite (v_infos C s Hi q qi Eq)|].
  rewrite vget_fmap, Ei. unfold info_at in *. rewrite Ei in *. cbn in *. split; [apply Hsz|by apply (Hk p Hp info)].
Qed.

Lemma one_good C s q p fn s' : inv C s → 0 ≤ p < np → keeps C q fn p → for_one_q map_to_worker s q p fn = Some s' → inv C s'.
Proof.
  intros Hi Hp Hk. unfold for_one_q. intros E. destruct (vget (queues_info s) q) as [qi|] eqn:Eq; [|done]. cbn [mbind option_bind] in E.
  destruct (vget (workers_info s) _) as [wi|]; [|done]. cbn [mbind option_bind] in E.
  destruct (vget_ok (infos qi) p) as [info Ei]; [by rewrite (v_infos C s Hi q qi Eq)|].
  destruct (vupd_Some (infos qi) p fn info Ei) as (ips & Eu & Eis). rewrite Eu in E. cbn [mbind option_bind] in E.
  destruct (vset (queues_info s) q _) as [qs|] eqn:Eqs; [|done]. injection E as <-. destruct (Hk info) as [Hz Hc].
  apply (inv_infos C s q qi ips qs Hi Eq); [by rewrite (vset_length _ _ _ _ Eis)|rewrite (total_set _ _ _ _ _ Ei Eis); lia| |done].
  intros p' Hp'. pose proof (capacity_at C s q qi p' Hi Eq Hp') as Hcap. rewrite (vget_vset _ _ _ _ p' Eis).
  case_decide as Hd; [|done]. subst p'. unfold info_at in *. rewrite Ei in *. cbn in *. split; [done|by apply Hc].
Qed.

Lemma pri_exec_good C s o s' ev : (∀ p q, C p q < 2 ^ 64) → inv C s → op_ok C o → exec s o = Some (s', ev) → inv C s'.
Proof.
  intros HC Hi Ho E. destruct o as [q p item now|w now i|q c|q p c|q pps|q p pps]; cbn [op_ok] in Ho.
  - destruct Ho. by apply (pri_push_good C s q p item now s' ev).
  - by apply (pri_pop_good C s w now i s' ev).
  - cbn [exec] in E. unfold set_capacity in E. destruct (for_each_q _ _ _ _) as [s1|] eqn:E1; [|done]. injection E as <- _. destruct Ho as [_ Hc].
    apply (each_good C s q _ s1 Hi) with (2 := E1). intros p Hp info. split; [done|]. intros _. by apply Hc.
  - cbn [exec] in E. unfold set_capacity_priority in E. destruct (for_one_q _ _ _ _ _) as [s1|] eqn:E1; [|done]. injection E as <- _. destruct Ho as (_ & Hp & Hc).
    apply (one_good C s q p _ s1 Hi Hp) with (2 := E1). intros info. by split.
  - cbn [exec] in E. unfold set_rate in E. destruct (delay_ticks pps) as [d|]; [|done]. cbn [mbind option_bind] in E.
    destruct (for_each_q _ _ _ _) as [s1|] eqn:E1; [|done]. injection E as <- _. apply (each_good C s q _ s1 Hi) with (2 := E1). intros p Hp info. by split.
  - cbn [exec] in E. unfold set_rate_priority in E. destruct (delay_ticks pps) as [d|]; [|done]. cbn [mbind option_bind] in E.
    destruct (for_one_q _ _ _ _ _) as [s1|] eqn:E1; [|done]. injection E as <- _. apply (one_good C s q p _ s1 Hi (proj2 Ho)) with (2 := E1). intros info. by split.
Qed.

Lemma pri_run_good C os : ∀ s s' evs, (∀ p q, C p q < 2 ^ 64) → inv C s → Forall (op_ok C) os → run s os = Some (s', evs) → inv C s'.
Proof.
  intros s s' evs HC. revert s s' evs. induction os as [|o os IH]; intros s s' evs Hi Hos E; cbn [run] in E; [by injection E as <- _|].
  apply Forall_cons in Hos as [Ho Hos]. destruct (exec s o) as [[s1 ev]|] eqn:E1; [|done]. cbn [mbind option_bind] in E.
  destruct (run s1 os) as [[s2 evs1]|] eqn:E2; [|done]. injection E as -> _. eapply IH; [by eapply pri_exec_good|done|done].
Qed.

Lemma new_good C c t0 : 0 ≤ nq → 0 ≤ nw → (∀ p q, 0 ≤ c ≤ C p q) → inv C (new nq nw c np t0).
Proof.
  intros Hq Hw Hc. assert (∀ A (x y : A) n i, vget (replicate n x) i = Some y → y = x) as Hr.
  { intros A x y n i E. unfold vget in E. case_decide; [|done]. by apply lookup_replicate in E as [-> _]. }
  constructor; cbn -[replicate].
  - done.
  - intros q qi ->%Hr. cbn -[replicate]. rewrite length_replicate. lia.
  - intros w wi ->%Hr. done.
  - intros p Hp. unfold queue_accounts, column, column_of_workers. rewrite !fmap_replicate. cbv beta.
    assert (held {| w_size := 0; queues := replicate 32 [] |} p = ([] : list (QE T))) as ->.
    { unfold held. cbn [queues]. destruct (vget_ok (replicate 32 ([] : list (QE T))) p) as [l E]; [rewrite length_replicate; lia|]. rewrite E. by apply Hr in E as ->. }
    apply (accounts_new _ _ _ _ _ _ _ c); [done|done|apply Hc| |]; unfold info_at; cbn [infos];
      (destruct (vget_ok (replicate (Z.to_nat np) {| size := 0; capacity := c; queue_rate_pps := 0; pkt_delay_ticks := 0; last_sent := t0 |}) p) as [l E];
        [rewrite length_replicate; lia|]; rewrite E; by apply Hr in E as ->).
  - intros q qi ->%Hr. cbn -[replicate]. clear. induction (Z.to_nat np) as [|n IH]; [done|]. exact IH.
Qed.

(** With priorities too, each priority of each logical queue has its own
    count and capacity: its count is the number of elements it holds, and the
    count of a logical queue is the sum of those, modulo [2 ^ 64]. *)
Theorem priority_accounts (c t0 : Z) (C : Z → Z → Z) (os : list op) s evs :
  0 ≤ nq → 0 ≤ nw → (∀ p q, 0 ≤ c ≤ C p q ∧ C p q < 2 ^ 64) → Forall (op_ok C) os → run (new nq nw c np t0) os = Some (s, evs) →
  ∀ q, 0 ≤ q < nq → ∃ qi, vget (queues_info s) q = Some qi ∧ get_size map_to_worker s q = Some (u64 (total (infos qi))) ∧
    ∀ p, 0 ≤ p < np → ∃ info, vget (infos qi) p = Some info ∧ size info = Z.of_nat (length (pend s q p)) ∧ size info ≤ C p q.
Proof.
  intros H1 H2 HC Hos E q Hq. assert (inv C s) as Hi.
  { eapply pri_run_good; [intros p' q'; by destruct (HC p' q')|apply (new_good C c t0); [done|done|intros p' q'; by destruct (HC p' q')]|done|done]. }
  destruct (priority_queue C s q 0 Hi Hq ltac:(lia)) as (qi & wi & _ & _ & Eq & Ew & _). exists qi. split; [done|]. split.
  - unfold get_size. rewrite Eq. msimpl. rewrite Ew. msimpl. by rewrite (v_total C s Hi q qi Eq).
  - intros p Hp. destruct (priority_queue C s q p Hi Hq Hp) as (qi' & _ & info & _ & Eq' & _ & Ei & _ & Ec & _). assert (qi' = qi) as -> by congruence.
    exists info. split; [done|]. destruct (a_size _ _ _ _ _ _ _ _ _ (v_acc C s Hi p Hp) q info Ec) as (? & ? & _). done.
Qed.
End spec.
End QueueingPriority.

(** * Runs of the queueing logic

    The theorems on queues at concrete runs, the accuracy of the delays, and
    where the code does not do what its comments say. *)

Module QueueingExamples.

(** ** Delays *)

Lemma div_nearest_near a b : 0 < b → 2 * Z.abs (div_nearest a b * b - a) ≤ b.
Proof.
  intros Hb. unfold div_nearest. pose proof (Z.div_mod a b ltac:(lia)). pose proof (Z.mod_pos_bound a b Hb).
  destruct (Z.ltb_spec (2 * (a mod b)) b); [nia|]. destruct (Z.ltb_spec b (2 * (a mod b))); [nia|]. destruct (Z.even _); nia.
Qed.

Lemma round53_near n : 2 ^ 53 ≤ n → 2 ^ 53 * Z.abs (Meters.round53 n - n) ≤ n.
Proof.
  intros Hn. assert (53 ≤ Z.log2 n) as Hl by (apply Z.log2_le_pow2; lia). set (k := Z.log2 n - 52). assert (0 < k) as Hk by (unfold k; lia).
  destruct (MeterBounds.round53_big n Hk) as (Hp & Hq & Hr). fold k in Hp, Hq, Hr. assert (2 ^ k = 2 * 2 ^ (k - 1)) as Hk2 by (rewrite <-Z.pow_succ_r by lia; f_equal; lia).
  assert (0 < 2 ^ (k - 1)) as Hpos by (apply Z.pow_pos_nonneg; lia). pose proof (Z.div_mod n (2 ^ k) ltac:(lia)) as Hdm. pose proof (Z.mod_pos_bound n (2 ^ k) ltac:(lia)).
  destruct (Z.log2_spec n ltac:(lia)) as [Hle _]. rewrite Hp in Hle. destruct Hr as [[-> ?]|[-> ?]]; lia.
Qed.

(** The delay of a rate is right to a nanosecond, though it is computed with
    doubles: as many delays as the rate says fit into a second, and would not if
    each were a nanosecond longer. *)
Theorem delay_bounds (pps : Z) : 0 < pps < 2 ^ 53 → ∃ d, delay_ticks pps = Some d ∧ d * pps ≤ 10 ^ 9 ≤ (d + 1) * pps.
Proof.
  intros Hp. unfold delay_ticks. rewrite (proj2 (Z.eqb_neq pps 0)) by lia. rewrite (MeterBounds.round53_small pps) by lia. eexists. split; [done|].
  set (s := 53 + Z.log2 pps). pose proof (Z.log2_nonneg pps). rewrite Z.shiftr_div_pow2 by (unfold s; lia). set (Q := div_nearest (2 ^ s) pps).
  destruct (Z.log2_spec pps ltac:(lia)) as [Hlo Hhi]. assert (2 ^ s = 2 ^ 53 * 2 ^ Z.log2 pps) as Hs by (unfold s; rewrite Z.pow_add_r by lia; done).
  rewrite Z.pow_succ_r in Hhi by lia. pose proof (div_nearest_near (2 ^ s) pps ltac:(lia)) as HQ. fold Q in HQ.
  assert (2 ^ 52 ≤ Q) as HQ52 by nia. set (P := Q * 10 ^ 9). pose proof (round53_near P ltac:(unfold P; lia)) as HR. set (R := Meters.round53 P) in *.
  assert (0 < 2 ^ s) as Hs0 by lia. pose proof (Z.div_mod R (2 ^ s) ltac:(lia)) as Hdm. pose proof (Z.mod_pos_bound R (2 ^ s) Hs0) as Hmod. set (d := R / 2 ^ s) in *.
  assert (2 ^ 53 * (R * pps) ≤ (2 ^ 53 + 1) * (P * pps)) as Hup.
  { rewrite !Z.mul_assoc. apply Z.mul_le_mono_nonneg_r; lia. }
  assert ((2 ^ 53 - 1) * (P * pps) ≤ 2 ^ 53 * (R * pps)) as Hdown.
  { rewrite !Z.mul_assoc. apply Z.mul_le_mono_nonneg_r; lia. }
  assert (P * pps = 10 ^ 9 * (Q * pps)) as HP by (unfold P; lia). rewrite HP in Hup, Hdown.
  assert (2 ^ s * d * pps ≤ R * pps) as Hd1 by (apply Z.mul_le_mono_nonneg_r; lia).
  assert (R * pps ≤ (2 ^ s * d + 2 ^ s) * pps) as Hd2 by (apply Z.mul_le_mono_nonneg_r; lia).
  assert (2 ^ 52 * pps ≤ 2 ^ s) as Hps by lia. set (X := R * pps) in *. set (W := Q * pps) in *. set (S := 2 ^ s) in *. split.
  - apply Z.nlt_ge. intros Hlt. assert (S * (10 ^ 9 + 1) ≤ S * (d * pps)) as Hm by (apply Z.mul_le_mono_nonneg_l; lia).
    rewrite Z.mul_assoc in Hm. lia.
  - apply Z.nlt_ge. intros Hlt. assert (S * ((d + 1) * pps) ≤ S * (10 ^ 9 - 1)) as Hm by (apply Z.mul_le_mono_nonneg_l; lia).
    replace (S * ((d + 1) * pps)) with ((S * d + S) * pps) in Hm by ring. lia.
Qed.

Lemma delay_bounds_witness : 0 < 3000 < 2 ^ 53 ∧ ∃ d, delay_ticks 3000 = Some d ∧ d * 3000 ≤ 10 ^ 9 ≤ (d + 1) * 3000.
Proof. split; [lia|]. apply (delay_bounds 3000). lia. Defined.

(** A rate above a thousand million a second is no limit. *)
Theorem unlimited : delay_ticks (2 * 10 ^ 9) = Some 0.
Proof. vm_compute. reflexivity. Qed.

(** ** Two workers *)

Definition two_workers (q : Z) : Z := q mod 2.

Lemma two_workers_ok q : 0 ≤ q < 3 → 0 ≤ two_workers q < 2.
Proof. intros _. apply Z.mod_pos_bound. lia. Qed.

Module Blocking.
Import QueueingLogic QueueingLogicSpec.

(** Queues 0 and 2 have the same worker; 0 holds two items at most. *)
Definition ops : list (op (T := Z)) :=
  [Push 0 10; Push 2 20; Push 0 11; Push 0 12; Pop 0; Push 1 30; SetCapacity 2 1; Pop 0; Push 0 13; Pop 1; Pop 1].

Example blocking_run : (λ r, r.2) <$> run two_workers (new 3 2 2) ops =
  Some [Pushed {| e := 10; queue_id := 0 |}; Pushed {| e := 20; queue_id := 2 |}; Pushed {| e := 11; queue_id := 0 |};
        Popped 0 {| e := 10; queue_id := 0 |}; Pushed {| e := 30; queue_id := 1 |}; Popped 0 {| e := 20; queue_id := 2 |};
        Pushed {| e := 13; queue_id := 0 |}; Popped 1 {| e := 30; queue_id := 1 |}].
Proof. vm_compute. reflexivity. Qed.

Lemma logical_queues_witness :
  ∃ s evs, run two_workers (new 3 2 2) ops = Some (s, evs) ∧
    ∀ q, 0 ≤ q < 3 →
      pushed q evs = popped q evs ++ reverse (pend two_workers s q) ∧
      get_size two_workers s q = Some (Z.of_nat (length (pend two_workers s q))) ∧ Z.of_nat (length (pend two_workers s q)) ≤ 2.
Proof.
  apply (logical_queues two_workers 3 2 two_workers_ok 2 (λ _, 2) ops); [lia|lia|intros q; lia|].
  repeat (apply Forall_cons; split; [cbn; lia|]). apply Forall_nil. exact I.
Defined.
End Blocking.

Module Rates.
Import QueueingLogicRL QueueingRates.

Definition ops : list (op (T := Z)) :=
  [Push 0 10 1000; Push 0 11 1001; Push 2 20 1002; Pop 0 2500 0; Pop 0 2500 1; Push 0 12 3000; Pop 0 4000 0; SetCapacity 0 7; Pop 0 5001 0].

(** The rate of queue 0 is a million a second. *)
Definition all_ops : list (op (T := Z)) := SetRate 0 1000000 :: ops.

Definition the_events : list (event (T := Z)) :=
  [Pushed {| e := 10; queue_id := 0; send := 1000 |}; Pushed {| e := 11; queue_id := 0; send := 2000 |}; Pushed {| e := 20; queue_id := 2; send := 1002 |};
   Popped 2500 {| e := 10; queue_id := 0; send := 1000 |}; Popped 2500 {| e := 20; queue_id := 2; send := 1002 |};
   Pushed {| e := 12; queue_id := 0; send := 3000 |}; Popped 4000 {| e := 11; queue_id := 0; send := 2000 |};
   Popped 5001 {| e := 12; queue_id := 0; send := 3000 |}].

Lemma ops_ok : Forall (op_ok 3 2 (λ _, 8)) ops.
Proof. repeat (apply Forall_cons; split; [cbn; lia|]). apply Forall_nil. exact I. Qed.

Lemma no_rate pps : SetRate 0 pps ∉ ops.
Proof. intros Hin%list_elem_of_In. cbn in Hin. repeat (destruct Hin as [Hin|Hin]; [discriminate Hin|]). exact Hin. Qed.

Lemma rate_kept_witness :
  ∃ s, run two_workers (new 3 2 4 0) all_ops = Some (s, the_events) ∧
    pushed 0 the_events = popped 0 the_events ++ pend two_workers s 0 ∧
    1000 * Z.of_nat (length (popped 0 the_events)) ≤ 5001 - 0.
Proof.
  eexists. split; [vm_compute; reflexivity|].
  pose proof (λ s H, rate_kept two_workers 3 2 two_workers_ok 4 0 (λ _, 8) 0 1000000 1000 5001 ops s the_events
    ltac:(lia) ltac:(lia) ltac:(intros q; lia) ltac:(lia) eq_refl ltac:(lia) ops_ok no_rate H) as Hk.
  edestruct Hk as [Hl Hc]; [vm_compute; reflexivity|]. split; [exact Hl|]. apply Hc; [lia|].
  intros w now i Hin%list_elem_of_In. cbn in Hin. repeat (destruct Hin as [Hin|Hin]; [try discriminate Hin; try (injection Hin as _ <- _; lia)|]). done.
Defined.

Lemma rate_accounts_witness :
  ∃ s, run two_workers (new 3 2 4 0) all_ops = Some (s, the_events) ∧
  ∀ q, 0 ≤ q < 3 →
    pushed q the_events ≡ₚ popped q the_events ++ pend two_workers s q ∧
    get_size two_workers s q = Some (Z.of_nat (length (pend two_workers s q))) ∧ Z.of_nat (length (pend two_workers s q)) ≤ 8.
Proof.
  eexists. split; [vm_compute; reflexivity|]. eapply (rate_accounts two_workers 3 2 two_workers_ok 4 0 (λ _, 8) all_ops);
    [lia|lia|intros q; lia|apply Forall_cons; split; [cbn; lia|exact ops_ok]|vm_compute; reflexivity].
Defined.

(** Two items of worker 0 that can leave at different times. *)
Definition held_two : state Z :=
  {| queues_info := replicate 3 {| size := 1; capacity := 4; queue_rate_pps := 0; pkt_delay_ticks := 0; last_sent := 9 |};
     workers_info := [[{| e := 10; queue_id := 0; send := 9 |}; {| e := 20; queue_id := 2; send := 7 |}]; [{| e := 30; queue_id := 1; send := 9 |}]] |}.

Lemma held_two_inv : inv two_workers 3 2 (λ _, 8) held_two.
Proof.
  constructor; [reflexivity|reflexivity| |].
  - intros w l x E Hx. unfold held_two, vget in E. cbn [workers_info] in E. case_decide as Hw; [|discriminate E].
    assert (w = 0 ∨ w = 1 ∨ 2 ≤ w) as [->|[->|Hw']] by lia.
    + injection E as <-. apply elem_of_cons in Hx as [->|[->|Hx%elem_of_nil]%elem_of_cons]; [cbn; split; [reflexivity|lia]|cbn; split; [reflexivity|lia]|done].
    + injection E as <-. apply elem_of_cons in Hx as [->|Hx%elem_of_nil]; [cbn; split; [reflexivity|lia]|done].
    + apply lookup_lt_Some in E. cbn in E. lia.
  - intros q info E. unfold held_two, vget in E. cbn [queues_info] in E. case_decide as Hq; [|discriminate E].
    assert (q = 0 ∨ q = 1 ∨ q = 2 ∨ 3 ≤ q) as [->|[->|[->|Hq']]] by lia; try (injection E as <-; split; [vm_compute; reflexivity|cbn; lia]).
    apply lookup_lt_Some in E. cbn in E. lia.
Qed.

Lemma rate_total_witness : ∃ i s' x, pop_back held_two 0 8 i = Some (s', inr x) ∧ send x = 7.
Proof.
  destruct (rate_total two_workers 3 2 (λ _, 8) held_two 0 8 held_two_inv ltac:(lia)) as (l & El & H). injection El as <-.
  destruct H as [_ (i & s' & x & E & _ & Hx)]. exists i, s', x. by split.
Defined.

(** Without a rate, two items of a queue that are pushed at one reading of the
    clock have the same time, and the second can leave before the first. *)
Theorem reordered :
  (λ r, popped 0 r.2) <$> run two_workers (new 3 2 4 0) [Push 0 10 1000; Push 0 11 1000; Pop 0 1000 1; Pop 0 1000 0] =
  Some [{| e := 11; queue_id := 0; send := 1000 |}; {| e := 10; queue_id := 0; send := 1000 |}].
Proof. vm_compute. reflexivity. Qed.
End Rates.

Module Priorities.
Import QueueingLogicPriRL QueueingPriority.

Definition ops : list (op (T := Z)) :=
  [Push 0 1 10 1000; Push 0 0 11 1001; Push 2 1 20 1002; Push 0 1 12 1003; Pop 0 1002 0; Pop 0 1002 0; SetRateOf 2 1 1000; SetCapacity 0 1].

Definition the_state : state Z := match run two_workers (new 3 2 4 2 0) ops with Some (s, _) => s | None => new 0 0 0 0 0 end.

Example priority_run : (λ r, r.2) <$> run two_workers (new 3 2 4 2 0) ops =
  Some [Pushed 0 1; Pushed 0 0; Pushed 2 1; Pushed 0 1; Popped 0 {| e := 11; queue_id := 0; send := 1001 |}; Popped 1 {| e := 10; queue_id := 0; send := 1000 |}].
Proof. vm_compute. reflexivity. Qed.

Lemma served_by_priority_witness :
  ∃ s' wi, pop_back the_state 0 1002 0 = Some (s', inr (1, {| e := 20; queue_id := 2; send := 1002 |})) ∧ vget (workers_info the_state) 0 = Some wi ∧
    (∀ y, y ∈ held wi 1 → 1002 ≤ send y) ∧ ∀ p' y, 0 ≤ p' < 1 → y ∈ held wi p' → 1002 < send y.
Proof.
  eexists _, _. split; [vm_compute; reflexivity|]. split; [vm_compute; reflexivity|].
  pose proof (served_by_priority the_state 0 1002 0 _ _ _ ltac:(vm_compute; reflexivity) ltac:(vm_compute; reflexivity)) as (_ & _ & _ & H1 & H2).
  split; [exact H1|exact H2].
Defined.

Lemma priority_accounts_witness :
  ∃ s evs, run two_workers (new 3 2 4 2 0) ops = Some (s, evs) ∧
  ∀ q, 0 ≤ q < 3 → ∃ qi, vget (queues_info s) q = Some qi ∧ get_size two_workers s q = Some (u64 (total (infos qi))) ∧
    ∀ p, 0 ≤ p < 2 → ∃ info, vget (infos qi) p = Some info ∧ size info = Z.of_nat (length (pend two_workers s q p)) ∧ size info ≤ 4.
Proof.
  eexists _, _. split; [vm_compute; reflexivity|]. eapply (priority_accounts two_workers 3 2 2 two_workers_ok ltac:(lia) 4 0 (λ _ _, 4) ops);
    [lia|lia|intros p q; lia| |vm_compute; reflexivity].
  repeat (apply Forall_cons; split; [cbn; (lia || (split; [lia|intros; lia]))|]). apply Forall_nil. exact I.
Defined.

(** The size of one priority of a queue is given as that of the whole queue. *)
Theorem size_of_priority :
  get_size_priority two_workers the_state 0 0 = Some 1 ∧
  (λ qi, size <$> infos qi) <$> vget (queues_info the_state) 0 = Some [0; 1].
Proof. by vm_compute. Qed.

(** The count of a worker is never decreased: once its only element has left,
    it waits for the end of time instead of the next element. *)
Theorem worker_count :
  (r ← run two_workers (new 3 2 4 2 0) [Push 0 0 10 1000; Pop 0 1000 0];
   wi ← vget (workers_info r.1) 0; p ← pop_back r.1 0 1001 0; Some (w_size wi, concat (queues wi), p.2)) =
  Some (1, [], inl (Until time_max)).
Proof. vm_compute. reflexivity. Qed.
End Priorities.
End QueueingExamples.
