(* ===== verification/Learning.v ===== *)
(** * Learning (include/bm/bm_sim/learning.h, src/bm_sim/learning.cpp)

    A learn list buffers samples of fields and sends them in messages, when it
    has enough of them or after a time; a filter keeps a sample from being
    learnt again before it is acknowledged. Each list has a thread that sends.
    What a thread does while it has the mutex of the list is one step; the
    thread that sends releases it while it sends. An erased iterator that is
    used, or an index out of range, is [None]. *)

From stdpp Require Import gmap.
From S2P Require Import Prelude ByteContainer Data Fields Headers Phv.

Module Learning.

(** ** Samples *)

Inductive LearnSampleEntry := FIELD (header offset : Z) | CONSTANT (offset : Z).

Record LearnSampleBuilder := { entries : list LearnSampleEntry; constants : list (list Z) }.

Definition builder_push_back_constant (b : LearnSampleBuilder) (constant : list Z) : LearnSampleBuilder :=
  {| entries := entries b ++ [CONSTANT (Z.of_nat (length (constants b)))]; constants := constants b ++ [constant] |}.

Definition builder_push_back_field (b : LearnSampleBuilder) (header_id field_offset : Z) : LearnSampleBuilder :=
  {| entries := entries b ++ [FIELD header_id field_offset]; constants := constants b |}.

Definition entry_bytes (b : LearnSampleBuilder) (phv : Phv.PHV) (e : LearnSampleEntry) : option (list Z) :=
  match e with
  | FIELD h off => hdr ← Phv.get_header phv h; f ← vget (Headers.fields hdr) off; Some (Fields.bytes f)
  | CONSTANT off => vget (constants b) off
  end.

Definition build (b : LearnSampleBuilder) (phv : Phv.PHV) : option (list Z) :=
  bs ← mapM (entry_bytes b phv) (entries b); Some (concat bs).

(** ** Lists *)

Inductive LearnMode := NONE | WRITER | CB.

(** The iterators of a buffer of samples into the filter, and how many are not acknowledged. *)
Record FilterPtrs := { unacked_count : Z; ptrs : list Z }.

(** The header of a notification. *)
Record msg_hdr_t := { hdr_list_id : Z; hdr_buffer_id : Z; hdr_num_samples : Z }.

Record LearnList := {
  list_id : Z;
  builder : LearnSampleBuilder;
  buffer : list Z;
  buffer_id : Z;
  num_samples : Z;
  max_samples : Z;
  buffer_started : Z;          (** milliseconds *)
  timeout : Z;
  with_timeout : bool;
  filter : gmap Z (list Z);    (** the nodes of the [unordered_set] by their identity *)
  next_node : Z;
  old_buffers : gmap Z FilterPtrs;
  buffer_tmp : list Z;
  num_samples_tmp : Z;
  learn_mode : LearnMode;
  writer_busy : bool;
  can_swap_waiters : Z;        (** threads in [b_can_swap.wait] *)
  to_send : Z;                 (** [num_samples_to_send] of the thread that sends *)
}.

Definition new_list (id max timeout_ms : Z) : LearnList :=
  {| list_id := id; builder := {| entries := []; constants := [] |}; buffer := []; buffer_id := 0; num_samples := 0; max_samples := max;
     buffer_started := 0; timeout := timeout_ms; with_timeout := 0 <? timeout_ms; filter := ∅; next_node := 0; old_buffers := ∅;
     buffer_tmp := []; num_samples_tmp := 0; learn_mode := NONE; writer_busy := false; can_swap_waiters := 0; to_send := 0 |}.

Implicit Types (l : LearnList).

Definition with_builder l (b : LearnSampleBuilder) : LearnList :=
  {| list_id := list_id l; builder := b; buffer := buffer l; buffer_id := buffer_id l; num_samples := num_samples l; max_samples := max_samples l;
     buffer_started := buffer_started l; timeout := timeout l; with_timeout := with_timeout l; filter := filter l; next_node := next_node l;
     old_buffers := old_buffers l; buffer_tmp := buffer_tmp l; num_samples_tmp := num_samples_tmp l; learn_mode := learn_mode l;
     writer_busy := writer_busy l; can_swap_waiters := can_swap_waiters l; to_send := to_send l |}.

Definition push_back_field l (header_id field_offset : Z) : LearnList := with_builder l (builder_push_back_field (builder l) header_id field_offset).
Definition push_back_constant l (hexstring : list Z) : option LearnList :=
  c ← ByteContainer.of_hex hexstring; Some (with_builder l (builder_push_back_constant (builder l) c)).

Definition with_timing l (started timeout_ms : Z) (wt : bool) (max : Z) : LearnList :=
  {| list_id := list_id l; builder := builder l; buffer := buffer l; buffer_id := buffer_id l; num_samples := num_samples l; max_samples := max;
     buffer_started := started; timeout := timeout_ms; with_timeout := wt; filter := filter l; next_node := next_node l;
     old_buffers := old_buffers l; buffer_tmp := buffer_tmp l; num_samples_tmp := num_samples_tmp l; learn_mode := learn_mode l;
     writer_busy := writer_busy l; can_swap_waiters := can_swap_waiters l; to_send := to_send l |}.

Definition set_timeout l (timeout_ms : Z) : LearnList := with_timing l (buffer_started l) timeout_ms (0 <? timeout_ms) (max_samples l).

(** Waits while the thread that sends is busy. *)
Definition set_learn_mode l (m : LearnMode) : option LearnList :=
  if writer_busy l then None else
  Some {| list_id := list_id l; builder := builder l; buffer := buffer l; buffer_id := buffer_id l; num_samples := num_samples l;
     max_samples := max_samples l; buffer_started := buffer_started l; timeout := timeout l; with_timeout := with_timeout l; filter := filter l;
     next_node := next_node l; old_buffers := old_buffers l; buffer_tmp := buffer_tmp l; num_samples_tmp := num_samples_tmp l; learn_mode := m;
     writer_busy := false; can_swap_waiters := can_swap_waiters l; to_send := to_send l |}.

Definition with_buffers l (buf tmp : list Z) (id n n_tmp waiters : Z) : LearnList :=
  {| list_id := list_id l; builder := builder l; buffer := buf; buffer_id := id; num_samples := n; max_samples := max_samples l;
     buffer_started := buffer_started l; timeout := timeout l; with_timeout := with_timeout l; filter := filter l; next_node := next_node l;
     old_buffers := old_buffers l; buffer_tmp := tmp; num_samples_tmp := n_tmp; learn_mode := learn_mode l;
     writer_busy := writer_busy l; can_swap_waiters := waiters; to_send := to_send l |}.

Definition swap_buffers l : LearnList :=
  with_buffers l (buffer_tmp l) (buffer l) (u64 (buffer_id l + 1)) 0 (num_samples l) (can_swap_waiters l).

(** Up to the first wait. *)
Definition process_full_buffer l : LearnList :=
  match buffer_tmp l with
  | [] => swap_buffers l
  | _ => with_buffers l (buffer l) (buffer_tmp l) (buffer_id l) (num_samples l) (num_samples_tmp l) (can_swap_waiters l + 1)
  end.

(** A thread that waits in [process_full_buffer] takes the mutex again. *)
Definition can_swap_woken l : option LearnList :=
  if 0 <? can_swap_waiters l then
    Some (process_full_buffer (with_buffers l (buffer l) (buffer_tmp l) (buffer_id l) (num_samples l) (num_samples_tmp l) (can_swap_waiters l - 1)))
  else None.

Definition set_max_samples l (nb_samples : Z) : LearnList :=
  let l := with_timing l (buffer_started l) (timeout l) (with_timeout l) nb_samples in
  if (0 <? num_samples l) && (max_samples l <=? num_samples l) then process_full_buffer l else l.

Definition with_filter l (f : gmap Z (list Z)) (next : Z) (old : gmap Z FilterPtrs) : LearnList :=
  {| list_id := list_id l; builder := builder l; buffer := buffer l; buffer_id := buffer_id l; num_samples := num_samples l; max_samples := max_samples l;
     buffer_started := buffer_started l; timeout := timeout l; with_timeout := with_timeout l; filter := f; next_node := next;
     old_buffers := old; buffer_tmp := buffer_tmp l; num_samples_tmp := num_samples_tmp l; learn_mode := learn_mode l;
     writer_busy := writer_busy l; can_swap_waiters := can_swap_waiters l; to_send := to_send l |}.

Definition in_filter l (sample : list Z) : bool := bool_decide (map_Exists (λ _ s, s = sample) (filter l)).

Definition no_ptrs : FilterPtrs := {| unacked_count := 0; ptrs := [] |}.

(** Puts the sample into the filter and the buffer that is filled. *)
Definition record_sample l (sample : list Z) : LearnList :=
  let p := default no_ptrs (old_buffers l !! buffer_id l) in
  let p := {| unacked_count := unacked_count p + 1; ptrs := ptrs p ++ [next_node l] |} in
  let l := with_buffers l (buffer l ++ sample) (buffer_tmp l) (buffer_id l) (num_samples l + 1) (num_samples_tmp l) (can_swap_waiters l) in
  with_filter l (<[next_node l := sample]> (filter l)) (next_node l + 1) (<[buffer_id l := p]> (old_buffers l)).

Definition add_sample l (sample : list Z) (now : Z) : LearnList :=
  if in_filter l sample then l else
  let l := record_sample l sample in
  if (num_samples l =? 1) && (1 <? max_samples l) then with_timing l now (timeout l) (with_timeout l) (max_samples l)
  else if max_samples l <=? num_samples l then process_full_buffer l
  else l.

(** *** The thread that sends *)

Definition with_sending l (busy : bool) (n : Z) : LearnList :=
  {| list_id := list_id l; builder := builder l; buffer := buffer l; buffer_id := buffer_id l; num_samples := num_samples l; max_samples := max_samples l;
     buffer_started := buffer_started l; timeout := timeout l; with_timeout := with_timeout l; filter := filter l; next_node := next_node l;
     old_buffers := old_buffers l; buffer_tmp := buffer_tmp l; num_samples_tmp := num_samples_tmp l; learn_mode := learn_mode l;
     writer_busy := busy; can_swap_waiters := can_swap_waiters l; to_send := n |}.

(** Whether [buffer_transmit] goes on. *)
Definition can_transmit l (now : Z) : bool :=
  negb (Z.of_nat (length (buffer_tmp l)) =? 0) || (with_timeout l && (0 <? num_samples l) && (buffer_started l + timeout l <=? now)).

(** Up to where it releases the mutex. *)
Definition transmit_begin l (now : Z) : option LearnList :=
  if writer_busy l || negb (can_transmit l now) then None else
  match buffer_tmp l with
  | [] => Some (with_sending (swap_buffers l) true (num_samples l))
  | _ => Some (with_sending l true (num_samples_tmp l))
  end.

(** What it sends without the mutex. *)
Definition transmit_send l : option (msg_hdr_t * list Z) :=
  if writer_busy l then
    Some ({| hdr_list_id := list_id l; hdr_buffer_id := u64 (buffer_id l - 1); hdr_num_samples := u32 (to_send l) |}, buffer_tmp l)
  else None.

(** From where it takes the mutex again. *)
Definition transmit_end l : option LearnList :=
  if writer_busy l then
    Some (with_sending (with_buffers l (buffer l) [] (buffer_id l) (num_samples l) (num_samples_tmp l) (can_swap_waiters l)) false (to_send l))
  else None.

(** *** Acknowledgements *)

Fixpoint ack_loop l (id : Z) (sample_ids : list Z) : option LearnList :=
  match sample_ids with
  | [] => Some l
  | i :: sample_ids =>
      p ← old_buffers l !! id;
      n ← vget (ptrs p) i;
      _ ← filter l !! n;
      let f := delete n (filter l) in
      let c := u64 (unacked_count p - 1) in
      let old := if c =? 0 then delete id (old_buffers l) else <[id := {| unacked_count := c; ptrs := ptrs p |}]> (old_buffers l) in
      ack_loop (with_filter l f (next_node l) old) id sample_ids
  end.

(** A buffer that is not known is taken as acknowledged already. *)
Definition ack l (id : Z) (sample_ids : list Z) : option LearnList :=
  match old_buffers l !! id with None => Some l | Some _ => ack_loop l id sample_ids end.

Fixpoint erase_all (ns : list Z) (f : gmap Z (list Z)) : option (gmap Z (list Z)) :=
  match ns with
  | [] => Some f
  | n :: ns => _ ← f !! n; erase_all ns (delete n f)
  end.

Definition ack_buffer l (id : Z) : option LearnList :=
  match old_buffers l !! id with
  | None => Some l
  | Some p =>
      f ← (if unacked_count p =? Z.of_nat (size (filter l)) then Some ∅ else erase_all (ptrs p) (filter l));
      Some (with_filter l f (next_node l) (delete id (old_buffers l)))
  end.

Definition reset_state l : LearnList :=
  with_filter (with_buffers l [] [] 0 0 0 (can_swap_waiters l)) ∅ (next_node l) ∅.

(** ** The engine *)

Inductive LearnErrorCode := SUCCESS | INVALID_LIST_ID | ERROR.

Abbreviation LearnEngine := (gmap Z LearnList).
Implicit Types (e : LearnEngine).

(** A list that exists stays. *)
Definition list_create e (id max timeout_ms : Z) : LearnEngine :=
  match e !! id with Some _ => e | None => <[id := new_list id max timeout_ms]> e end.

(** What is done with a list that is not there has no effect. *)
Definition on_list e (id : Z) (f : LearnList → option LearnList) : option (LearnEngine * LearnErrorCode) :=
  match e !! id with
  | None => Some (e, INVALID_LIST_ID)
  | Some l => l ← f l; Some (<[id := l]> e, SUCCESS)
  end.

Definition list_push_back_field e (id header_id field_offset : Z) : option LearnEngine :=
  fst <$> on_list e id (λ l, Some (push_back_field l header_id field_offset)).
Definition list_push_back_constant e (id : Z) (hexstring : list Z) : option LearnEngine :=
  fst <$> on_list e id (λ l, push_back_constant l hexstring).
Definition list_set_timeout e (id timeout_ms : Z) := on_list e id (λ l, Some (set_timeout l timeout_ms)).
Definition list_set_max_samples e (id max : Z) := on_list e id (λ l, Some (set_max_samples l max)).
Definition learn e (id : Z) (phv : Phv.PHV) (now : Z) : option LearnEngine :=
  fst <$> on_list e id (λ l, sample ← build (builder l) phv; Some (add_sample l sample now)).
Definition list_ack e (id buffer_id : Z) (sample_ids : list Z) := on_list e id (λ l, ack l buffer_id sample_ids).
Definition list_ack_buffer e (id buffer_id : Z) := on_list e id (λ l, ack_buffer l buffer_id).
Definition reset_lists e : LearnEngine := reset_state <$> e.
End Learning.
