(* ===== verification/LearningSpec.v ===== *)
(** * What learning does

    The samples of a list, the messages about them and the acknowledgements, in
    any order of the steps of the threads: each message has the samples of its
    buffer, and the filter has the samples that were learnt and are not
    acknowledged. *)

From stdpp Require Import gmap.
From S2P Require Import Prelude ByteContainer Data Fields Headers Phv Learning.

Module LearningSpec.
Import Learning.

(** ** Runs *)

(** What the thread that sends is at. *)
Inductive phase := Idle | Began | Done.

#[global] Instance phase_eq_dec : EqDecision phase.
Proof. solve_decision. Defined.

Inductive label :=
  | Learn (sample : list Z) (now : Z)
  | Woken
  | SetMax (n : Z) | SetTimeout (ms : Z) | SetMode (m : LearnMode)
  | Begin (now : Z) | Send | End
  | Ack (id : Z) (sample_ids : list Z) | AckBuffer (id : Z).

Inductive event := Learned (id : Z) (sample : list Z) | Sent (m : LearnMode) (h : msg_hdr_t) (data : list Z).

Abbreviation state := (LearnList * phase)%type.
Implicit Types (l : LearnList) (st : state) (evs : list event) (b n : Z).

Definition step st (a : label) : option (state * list event) :=
  let '(l, ph) := st in
  match a with
  | Learn sample now => Some ((add_sample l sample now, ph), if in_filter l sample then [] else [Learned (buffer_id l) sample])
  | Woken => l ← can_swap_woken l; Some ((l, ph), [])
  | SetMax n => Some ((set_max_samples l n, ph), [])
  | SetTimeout ms => Some ((set_timeout l ms, ph), [])
  | SetMode m => l ← set_learn_mode l m; Some ((l, ph), [])
  | Begin now => match ph with Idle => l ← transmit_begin l now; Some ((l, Began), []) | _ => None end
  | Send => match ph with Began => '(h, d) ← transmit_send l; Some ((l, Done), [Sent (learn_mode l) h d]) | _ => None end
  | End => match ph with Done => l ← transmit_end l; Some ((l, Idle), []) | _ => None end
  | Ack id ids => l ← ack l id ids; Some ((l, ph), [])
  | AckBuffer id => l ← ack_buffer l id; Some ((l, ph), [])
  end.

Fixpoint run st (ls : list label) : option (state * list event) :=
  match ls with
  | [] => Some (st, [])
  | a :: ls => '(st, ev) ← step st a; '(st, evs) ← run st ls; Some (st, ev ++ evs)
  end.

(** The samples of a buffer, and all of them. *)
Definition learned evs b : list (list Z) := ev ← evs; match ev with Learned b' s => if decide (b' = b) then [s] else [] | Sent _ _ _ => [] end.
Definition all_learned evs : list (list Z) := ev ← evs; match ev with Learned _ s => [s] | Sent _ _ _ => [] end.
Definition all_sent evs : list Z := ev ← evs; match ev with Sent _ _ d => d | Learned _ _ => [] end.

Lemma learned_app e1 e2 b : learned (e1 ++ e2) b = learned e1 b ++ learned e2 b.
Proof. apply bind_app. Qed.
Lemma all_learned_app e1 e2 : all_learned (e1 ++ e2) = all_learned e1 ++ all_learned e2.
Proof. apply bind_app. Qed.
Lemma all_sent_app e1 e2 : all_sent (e1 ++ e2) = all_sent e1 ++ all_sent e2.
Proof. apply bind_app. Qed.

(** ** Messages *)

(** The samples in the buffers are those that were learnt and not sent. *)
Record buffered (k : Z) (st : state) evs : Prop := {
  b_id : 0 ≤ buffer_id (fst st) ≤ k;
  b_buffer : buffer (fst st) = concat (learned evs (buffer_id (fst st)));
  b_num : num_samples (fst st) = Z.of_nat (length (learned evs (buffer_id (fst st))));
  b_tmp : buffer_tmp (fst st) ≠ [] → 1 ≤ buffer_id (fst st) ∧ buffer_tmp (fst st) = concat (learned evs (buffer_id (fst st) - 1)) ∧
    num_samples_tmp (fst st) = Z.of_nat (length (learned evs (buffer_id (fst st) - 1)));
  b_busy : writer_busy (fst st) = bool_decide (snd st ≠ Idle);
  b_send : snd st ≠ Idle → buffer_tmp (fst st) ≠ [] ∧ to_send (fst st) = num_samples_tmp (fst st);
  b_above b : buffer_id (fst st) < b → learned evs b = [];
  b_nonempty s b : s ∈ learned evs b → s ≠ [];
  b_all : concat (all_learned evs) = all_sent evs ++ (match snd st with Done => [] | _ => buffer_tmp (fst st) end) ++ buffer (fst st);
  b_sent m h d : Sent m h d ∈ evs → 0 ≤ hdr_buffer_id h < buffer_id (fst st) ∧ d = concat (learned evs (hdr_buffer_id h)) ∧
    hdr_num_samples h = u32 (Z.of_nat (length (learned evs (hdr_buffer_id h)))) ∧ hdr_list_id h = list_id (fst st);
}.

Definition view l := (list_id l, buffer l, buffer_id l, num_samples l, buffer_tmp l, num_samples_tmp l, writer_busy l, to_send l).

Lemma buffered_view k l l' ph evs : view l' = view l → buffered k (l, ph) evs → buffered k (l', ph) evs.
Proof. intros [= H1 H2 H3 H4 H5 H6 H7 H8] []. cbn in *. constructor; cbn; rewrite ?H1, ?H2, ?H3, ?H4, ?H5, ?H6, ?H7, ?H8; done. Qed.

Lemma buffered_mono k k' st evs : k ≤ k' → buffered k st evs → buffered k' st evs.
Proof. intros Hk []. constructor; try done. lia. Qed.

Lemma concat_nil_inv {A} (ls : list (list A)) : (∀ x, x ∈ ls → x ≠ []) → concat ls = [] → ls = [].
Proof.
  intros Hall E. destruct ls as [|x ls]; [done|]. exfalso. apply (Hall x); [set_solver|]. cbn in E. by apply app_nil in E as [? _].
Qed.

Lemma buffered_swap k l evs : k + 1 < 2 ^ 64 → buffer_tmp l = [] → buffered k (l, Idle) evs → buffered (k + 1) (swap_buffers l, Idle) evs.
Proof.
  intros Hk Ht []. cbn in *. assert (u64 (buffer_id l + 1) = buffer_id l + 1) as Hid by (apply wrap_small; lia).
  assert (learned evs (buffer_id l + 1) = []) as Hnil by (apply b_above0; lia).
  constructor; cbn; rewrite ?Hid, ?Hnil, ?Ht, ?Z.add_simpl_r; try done; try lia.
  - intros _. split; [lia|]. by split.
  - intros b Hb. apply b_above0. lia.
  - rewrite b_all0, Ht. cbn. by rewrite app_nil_r.
  - intros m h d Hin. destruct (b_sent0 m h d Hin) as ((? & ?) & ? & ? & ?). split; [lia|]. done.
Qed.

(** While the thread is busy the buffer it sends is not empty, and nothing is swapped. *)
Lemma buffered_full k l ph evs : k + 1 < 2 ^ 64 → buffered k (l, ph) evs → buffered (k + 1) (process_full_buffer l, ph) evs.
Proof.
  intros Hk Hb. unfold process_full_buffer. destruct (buffer_tmp l) as [|x t] eqn:Et.
  - assert (ph = Idle) as ->; [|by apply buffered_swap]. destruct (decide (ph = Idle)) as [|Hne]; [done|]. destruct (b_send _ _ _ Hb Hne) as [Ht _]. cbn in Ht. congruence.
  - apply (buffered_mono k); [lia|]. by apply (buffered_view k l); [unfold view; cbn; rewrite Et|].
Qed.

Lemma buffered_record k l ph evs sample :
  sample ≠ [] → buffered k (l, ph) evs → buffered k (record_sample l sample, ph) (evs ++ [Learned (buffer_id l) sample]).
Proof.
  intros Hne []. cbn in *.
  assert (∀ b, learned [Learned (buffer_id l) sample] b = if decide (buffer_id l = b) then [sample] else []) as Hone by (intros b; cbn; by rewrite app_nil_r).
  assert (∀ b, b ≠ buffer_id l → learned (evs ++ [Learned (buffer_id l) sample]) b = learned evs b) as Hother.
  { intros b Hb. rewrite learned_app, Hone, decide_False by done. apply app_nil_r. }
  assert (learned (evs ++ [Learned (buffer_id l) sample]) (buffer_id l) = learned evs (buffer_id l) ++ [sample]) as Hsame by (by rewrite learned_app, Hone, decide_True).
  constructor; cbn; try done.
  - rewrite Hsame, concat_app, b_buffer0. cbn. by rewrite app_nil_r.
  - rewrite Hsame, length_app, b_num0. cbn. lia.
  - intros Ht. rewrite Hother by lia. by apply b_tmp0.
  - intros b Hb. rewrite Hother by lia. by apply b_above0.
  - intros s b. destruct (decide (b = buffer_id l)) as [->|Hb]; [|rewrite Hother by done; apply b_nonempty0].
    rewrite Hsame, elem_of_app, list_elem_of_singleton. intros [?| ->]; [by eapply b_nonempty0|done].
  - rewrite all_learned_app, all_sent_app, concat_app, b_all0. cbn. rewrite !app_nil_r, <-!app_assoc. done.
  - intros m h d [Hin|Hin%list_elem_of_singleton]%elem_of_app; [|discriminate Hin]. destruct (b_sent0 m h d Hin) as ((? & ?) & ? & ? & ?).
    rewrite Hother by lia. done.
Qed.

Lemma buffered_waiters k l ph evs w :
  buffered k (l, ph) evs → buffered k (with_buffers l (buffer l) (buffer_tmp l) (buffer_id l) (num_samples l) (num_samples_tmp l) w, ph) evs.
Proof. by apply buffered_view. Qed.

Lemma ack_view ids : ∀ l l' id, ack_loop l id ids = Some l' → view l' = view l.
Proof.
  induction ids as [|i ids IH]; intros l l' id E; cbn [ack_loop] in E; [by injection E as <-|].
  destruct (old_buffers l !! id) as [p|]; [|done]. cbn [mbind option_bind] in E. destruct (vget (ptrs p) i) as [n|]; [|done]. cbn [mbind option_bind] in E.
  destruct (filter l !! n); [|done]. cbn [mbind option_bind] in E. by apply IH in E.
Qed.

Lemma buffered_begin k l evs n :
  buffered k (l, Idle) evs → buffer_tmp l ≠ [] → n = num_samples_tmp l → buffered k (with_sending l true n, Began) evs.
Proof. intros [] Ht ->. cbn in *. by constructor. Qed.

Lemma buffered_send k l evs h d :
  k < 2 ^ 64 → buffered k (l, Began) evs → transmit_send l = Some (h, d) → buffered k (l, Done) (evs ++ [Sent (learn_mode l) h d]).
Proof.
  intros Hk [] E. cbn in *. unfold transmit_send in E. rewrite b_busy0 in E. cbn in E. injection E as <- <-.
  destruct b_send0 as [Ht Hn]; [done|]. destruct (b_tmp0 Ht) as (Hid & Htmp & Hnum).
  assert (∀ b, learned (evs ++ [Sent (learn_mode l) {| hdr_list_id := list_id l; hdr_buffer_id := u64 (buffer_id l - 1); hdr_num_samples := u32 (to_send l) |} (buffer_tmp l)]) b = learned evs b) as Hl.
  { intros b. rewrite learned_app. apply app_nil_r. }
  constructor; cbn; rewrite ?Hl; try done.
  - intros b. rewrite Hl. apply b_above0.
  - intros s b. rewrite Hl. apply b_nonempty0.
  - rewrite all_learned_app, all_sent_app. cbn. rewrite !app_nil_r, b_all0. by rewrite <-app_assoc.
  - intros m h d [Hin|Hin%list_elem_of_singleton]%elem_of_app; rewrite Hl; [by apply (b_sent0 m)|]. injection Hin as -> -> ->. cbn.
    rewrite wrap_small by lia. split; [lia|]. split; [done|]. by rewrite Hn, Hnum.
Qed.

Lemma buffered_end k l l' evs : buffered k (l, Done) evs → transmit_end l = Some l' → buffered k (l', Idle) evs.
Proof.
  intros [] E. cbn in *. unfold transmit_end in E. rewrite b_busy0 in E. cbn in E. injection E as <-. constructor; cbn; try done.
Qed.

Definition label_ok (a : label) : Prop := match a with Learn sample _ => sample ≠ [] | _ => True end.

Lemma step_buffered k l ph a st' ev evs :
  k + 1 < 2 ^ 64 → label_ok a → buffered k (l, ph) evs → step (l, ph) a = Some (st', ev) → buffered (k + 1) st' (evs ++ ev).
Proof.
  intros Hk Ha Hb E. assert (buffered (k + 1) (l, ph) evs) as Hb1 by (apply (buffered_mono k); [lia|done]).
  assert (∀ l', view l' = view l → buffered (k + 1) (l', ph) (evs ++ [])) as Hview by (intros l' Hv; rewrite app_nil_r; by apply (buffered_view _ l)).
  destruct a as [sample now| |n|ms|m|now| | |id ids|id]; cbn [step label_ok] in *.
  - injection E as <- <-. unfold add_sample. destruct (in_filter l sample); [by apply Hview|].
    pose proof (buffered_record k l ph evs sample Ha Hb) as Hr. destruct (_ && _).
    + apply (buffered_view _ (record_sample l sample)); [done|]. apply (buffered_mono k); [lia|done].
    + case_match; [by apply buffered_full|]. apply (buffered_mono k); [lia|done].
  - unfold can_swap_woken in E. case_match; [|done]. injection E as <- <-. rewrite app_nil_r. by apply buffered_full, buffered_waiters.
  - injection E as <- <-. rewrite app_nil_r. unfold set_max_samples. case_match; [apply buffered_full; [done|]; by apply (buffered_view _ l)|]. by apply (buffered_view _ l).
  - injection E as <- <-. by apply Hview.
  - unfold set_learn_mode in E. destruct (writer_busy l) eqn:Ew; [done|]. injection E as <- <-. apply Hview. unfold view. cbn. by rewrite Ew.
  - destruct ph; [|done..]. unfold transmit_begin in E. destruct (writer_busy l); [done|]. destruct (can_transmit l now) eqn:Ec; [|done]. cbn [orb negb] in E.
    destruct (buffer_tmp l) as [|x t] eqn:Et; injection E as <- <-; rewrite app_nil_r.
    + apply buffered_begin; [by apply buffered_swap| |done]. cbn. intros Hnil. destruct Hb. cbn in *.
      unfold can_transmit in Ec. rewrite Et in Ec. cbn in Ec. apply andb_true_iff in Ec as [[_ Hn%Z.ltb_lt]%andb_true_iff _].
      rewrite Hnil in b_buffer0. rewrite (concat_nil_inv _ (λ s Hs, b_nonempty0 s _ Hs) (eq_sym b_buffer0)) in b_num0. cbn in b_num0. lia.
    + apply buffered_begin; [done|by rewrite Et|done].
  - destruct ph; [done| |done]. destruct (transmit_send l) as [[h d]|] eqn:Es; [|done]. injection E as <- <-.
    apply buffered_send; [lia|done|done].
  - destruct ph; [done..|]. destruct (transmit_end l) as [l'|] eqn:Ee; [|done]. injection E as <- <-. rewrite app_nil_r. by eapply buffered_end.
  - unfold ack in E. destruct (old_buffers l !! id); [|injection E as <- <-; by apply Hview]. destruct (ack_loop l id ids) as [l'|] eqn:El; [|done].
    injection E as <- <-. apply Hview. by eapply ack_view.
  - destruct (ack_buffer l id) as [l'|] eqn:El; [|done]. injection E as <- <-. apply Hview. unfold ack_buffer in El.
    destruct (old_buffers l !! id) as [p|]; [|by injection El as <-]. by mbind_inv El.
Qed.

Lemma run_buffered ls : ∀ k st st' es evs,
  k + Z.of_nat (length ls) < 2 ^ 64 → Forall label_ok ls → buffered k st evs → run st ls = Some (st', es) →
  buffered (k + Z.of_nat (length ls)) st' (evs ++ es).
Proof.
  induction ls as [|a ls IH]; intros k st st' es evs Hk Hls Hb E; cbn [run] in E.
  { injection E as <- <-. cbn. by rewrite Z.add_0_r, app_nil_r. }
  apply Forall_cons in Hls as [Ha Hls]. destruct (step st a) as [[st1 ev]|] eqn:E1; [|done]. cbn [mbind option_bind] in E.
  destruct (run st1 ls) as [[st2 es2]|] eqn:E2; [|done]. injection E as -> <-. cbn [length] in *.
  replace (k + Z.of_nat (S (length ls))) with (k + 1 + Z.of_nat (length ls)) by lia. rewrite app_assoc.
  destruct st as [l ph]. apply (IH (k + 1) st1); [lia|done| |done]. eapply step_buffered; [lia|done|exact Hb|exact E1].
Qed.

Lemma new_buffered id max ms : buffered 0 (new_list id max ms, Idle) [].
Proof. constructor; cbn; try done; [by intros s b ?%elem_of_nil|by intros m h d ?%elem_of_nil]. Qed.

(** C10: Whatever the order of the steps of the threads that learn, that wait for
    room, that change the list and that acknowledge, and of the thread that
    sends, each message has the samples that were learnt into its buffer, all
    of them and in order, with their number; and the samples are sent in the
    order they were learnt, each once, those not sent being in the two buffers. *)
Theorem messages (id max ms : Z) (ls : list label) st evs :
  Z.of_nat (length ls) < 2 ^ 64 → Forall label_ok ls → run (new_list id max ms, Idle) ls = Some (st, evs) →
  (∀ m h d, Sent m h d ∈ evs →
    d = concat (learned evs (hdr_buffer_id h)) ∧ hdr_num_samples h = u32 (Z.of_nat (length (learned evs (hdr_buffer_id h))))) ∧
  concat (all_learned evs) = all_sent evs ++ (match snd st with Done => [] | _ => buffer_tmp (fst st) end) ++ buffer (fst st).
Proof.
  intros Hk Hls E. destruct (run_buffered ls 0 _ _ _ [] ltac:(lia) Hls (new_buffered id max ms) E). cbn [app] in *. split; [|done].
  intros m h d Hin. by destruct (b_sent0 m h d Hin) as (_ & ? & ? & _).
Qed.

(** ** The filter *)

(** The nodes of a buffer that are in the filter. *)
Definition live (f : gmap Z (list Z)) (ns : list Z) : list Z := base.filter (λ n, is_Some (f !! n)) ns.

(** Each node of the filter is one of one buffer, and has the sample that was learnt there. *)
Record filtered l evs : Prop := {
  f_next n s : filter l !! n = Some s → n < next_node l;
  f_ptr b p i n : old_buffers l !! b = Some p → ptrs p !! i = Some n → n < next_node l;
  f_one b b' p p' i i' n : old_buffers l !! b = Some p → old_buffers l !! b' = Some p' → ptrs p !! i = Some n → ptrs p' !! i' = Some n → b = b' ∧ i = i';
  f_node n s : filter l !! n = Some s → ∃ b p i, old_buffers l !! b = Some p ∧ ptrs p !! i = Some n;
  f_learned b p i n s : old_buffers l !! b = Some p → ptrs p !! i = Some n → filter l !! n = Some s → learned evs b !! i = Some s;
  f_length b p : old_buffers l !! b = Some p → length (ptrs p) = length (learned evs b);
  f_count b p : old_buffers l !! b = Some p → unacked_count p = Z.of_nat (length (live (filter l) (ptrs p))) ∧ unacked_count p ≠ 0;
  f_inj n n' s : filter l !! n = Some s → filter l !! n' = Some s → n = n';
  f_current : old_buffers l !! buffer_id l = None → learned evs (buffer_id l) = [];
  f_above b : is_Some (old_buffers l !! b) → b ≤ buffer_id l;
}.

Definition fview l := (filter l, next_node l, old_buffers l, buffer_id l).

Lemma filtered_view l l' evs : fview l' = fview l → filtered l evs → filtered l' evs.
Proof. intros [= H1 H2 H3 H4] []. constructor; rewrite ?H1, ?H2, ?H3, ?H4; done. Qed.

Lemma filtered_swap k l ph evs : k + 1 < 2 ^ 64 → buffered k (l, ph) evs → filtered l evs → filtered (swap_buffers l) evs.
Proof.
  intros Hk [] []. cbn in *. constructor; cbn; try done; rewrite wrap_small by lia.
  - intros _. apply b_above0. lia.
  - intros b Hb. specialize (f_above0 b Hb). lia.
Qed.

Lemma filtered_full k l ph evs : k + 1 < 2 ^ 64 → buffered k (l, ph) evs → filtered l evs → filtered (process_full_buffer l) evs.
Proof. intros Hk Hb Hf. unfold process_full_buffer. case_match; [by eapply filtered_swap|by apply (filtered_view l)]. Qed.


Lemma live_ext f f' ns : (∀ n, n ∈ ns → is_Some (f !! n) ↔ is_Some (f' !! n)) → live f ns = live f' ns.
Proof.
  unfold live. induction ns as [|n ns IH]; [done|]. intros Hall. rewrite !filter_cons, IH by (intros m Hm; apply Hall; set_solver).
  specialize (Hall n ltac:(set_solver)). repeat case_decide; tauto || done.
Qed.

Lemma in_filter_iff l s : in_filter l s = true ↔ ∃ n, filter l !! n = Some s.
Proof.
  unfold in_filter. rewrite bool_decide_eq_true, map_Exists_lookup. split; [intros (n & x & E & ->); by exists n|]. intros [n E]. by exists n, s.
Qed.

Lemma filtered_record k l ph evs sample :
  buffered k (l, ph) evs → filtered l evs → in_filter l sample = false → filtered (record_sample l sample) (evs ++ [Learned (buffer_id l) sample]).
Proof.
  intros [] [] Hin. cbn in *. set (p0 := default no_ptrs (old_buffers l !! buffer_id l)).
  assert (∀ n s, filter l !! n = Some s → s ≠ sample) as Hnew.
  { intros n s E ->. assert (in_filter l sample = true) as Ht by (apply in_filter_iff; by exists n). congruence. }
  assert (∀ b, b ≠ buffer_id l → learned (evs ++ [Learned (buffer_id l) sample]) b = learned evs b) as Hother.
  { intros b Hb. rewrite learned_app. cbn. rewrite decide_False by done. apply app_nil_r. }
  assert (learned (evs ++ [Learned (buffer_id l) sample]) (buffer_id l) = learned evs (buffer_id l) ++ [sample]) as Hsame by (rewrite learned_app; cbn; by rewrite decide_True).
  assert (length (ptrs p0) = length (learned evs (buffer_id l))) as Hlen.
  { unfold p0. destruct (old_buffers l !! buffer_id l) eqn:E; [by apply f_length0|]. cbn. by rewrite f_current0. }
  assert (∀ i n, ptrs p0 !! i = Some n → old_buffers l !! buffer_id l = Some p0) as Hp0.
  { intros i n. unfold p0. by destruct (old_buffers l !! buffer_id l). }
  assert (∀ b p i n, <[buffer_id l := {| unacked_count := unacked_count p0 + 1; ptrs := ptrs p0 ++ [next_node l] |}]> (old_buffers l) !! b = Some p →
    ptrs p !! i = Some n → (n = next_node l ∧ b = buffer_id l ∧ i = length (ptrs p0)) ∨ (n ≠ next_node l ∧ ∃ p', old_buffers l !! b = Some p' ∧ ptrs p' !! i = Some n ∧ (i < length (ptrs p'))%nat)) as Hcase.
  { intros b p i n [[<- <-]|[Hne Hb]]%lookup_insert_Some Hi; cbn in *.
    - apply lookup_snoc_Some in Hi as [[Hl Hi]|[-> <-]]; [|by left]. right. pose proof (f_ptr0 _ _ _ _ (Hp0 i n Hi) Hi). split; [lia|]. exists p0. by split; [eapply Hp0|].
    - right. pose proof (f_ptr0 _ _ _ _ Hb Hi). split; [lia|]. exists p. split; [done|]. split; [done|]. by eapply lookup_lt_Some. }
  constructor; cbn.
  - intros n s [[<- <-]|[? E]]%lookup_insert_Some; [lia|]. specialize (f_next0 _ _ E). lia.
  - intros b p i n Hb Hi. destruct (Hcase b p i n Hb Hi) as [(-> & _)|(_ & p' & Hb' & Hi' & _)]; [lia|]. specialize (f_ptr0 _ _ _ _ Hb' Hi'). lia.
  - intros b b' p p' i i' n Hb Hb' Hi Hi'. destruct (Hcase b p i n Hb Hi) as [(-> & -> & ->)|(Hn & q & Hq & Hqi & _)];
      destruct (Hcase b' p' i' _ Hb' Hi') as [(? & -> & ->)|(Hn' & q' & Hq' & Hqi' & _)]; try done. by eapply f_one0.
  - intros n s [[<- <-]|[? E]]%lookup_insert_Some.
    + eexists (buffer_id l), _, (length (ptrs p0)). split; [apply lookup_insert_eq|]. cbn. by rewrite list_lookup_middle.
    + destruct (f_node0 _ _ E) as (b & p & i & Hb & Hi). destruct (decide (b = buffer_id l)) as [->|Hne].
      * eexists (buffer_id l), _, i. split; [apply lookup_insert_eq|]. cbn. fold p0. unfold p0. rewrite Hb. cbn. by rewrite lookup_app_l by (by eapply lookup_lt_Some).
      * exists b, p, i. split; [by rewrite lookup_insert_ne|done].
  - intros b p i n s Hb Hi. destruct (Hcase b p i n Hb Hi) as [(-> & -> & ->)|(Hn & p' & Hb' & Hi' & Hl)].
    + rewrite lookup_insert_eq. intros [= <-]. rewrite Hsame, Hlen. by rewrite list_lookup_middle.
    + rewrite lookup_insert_ne by done. intros E. specialize (f_learned0 _ _ _ _ _ Hb' Hi' E).
      destruct (decide (b = buffer_id l)) as [->|Hne]; [|by rewrite Hother]. rewrite Hsame. rewrite lookup_app_l; [done|by eapply lookup_lt_Some].
  - intros b p [[<- <-]|[Hne Hb]]%lookup_insert_Some; cbn; [fold p0; rewrite Hsame, !length_app, Hlen; done|]. rewrite Hother by done. by apply f_length0.
  - intros b p [[<- <-]|[Hne Hb]]%lookup_insert_Some; cbn.
    + fold p0. unfold live. rewrite filter_app, length_app. fold (live (<[next_node l := sample]> (filter l)) (ptrs p0)).
      rewrite (live_ext _ (filter l)); [|intros n [i Hi]%list_elem_of_lookup_1; pose proof (f_ptr0 _ _ _ _ (Hp0 i n Hi) Hi); rewrite lookup_insert_ne by lia; done].
      rewrite filter_cons_True by (rewrite lookup_insert_eq; by eexists). cbn.
      assert (unacked_count p0 = Z.of_nat (length (live (filter l) (ptrs p0)))) as ->; [|lia].
      unfold p0. destruct (old_buffers l !! buffer_id l) eqn:E; [by apply (f_count0 (buffer_id l))|done].
    + rewrite (live_ext _ (filter l)); [by apply (f_count0 b)|]. intros n [i Hi]%list_elem_of_lookup_1. pose proof (f_ptr0 _ _ _ _ Hb Hi). by rewrite lookup_insert_ne by lia.
  - intros n n' s [[<- <-]|[? E]]%lookup_insert_Some [[<- E']|[? E']]%lookup_insert_Some; try done; [by destruct (Hnew _ _ E')|by destruct (Hnew _ _ E); congruence|by eapply f_inj0].
  - by rewrite lookup_insert_eq.
  - intros b. rewrite lookup_insert_is_Some. intros [<-|[_ Hb]]; [lia|by apply f_above0].
Qed.

Lemma live_delete f n ns i : NoDup ns → ns !! i = Some n → is_Some (f !! n) → length (live f ns) = S (length (live (delete n f) ns)).
Proof.
  unfold live. revert i. induction ns as [|m ns IH]; intros i Hnd Hi Hf; [done|]. apply NoDup_cons in Hnd as [Hm Hnd]. rewrite !filter_cons. destruct i as [|i].
  - injection Hi as ->. rewrite decide_True by done. rewrite decide_False by (rewrite lookup_delete_eq; by intros []). cbn. f_equal.
    fold (live f ns) (live (delete n f) ns). f_equal. apply live_ext. intros k Hk. rewrite lookup_delete_ne; [done|]. intros ->. done.
  - cbn in Hi. assert (m ≠ n) as Hne by (intros ->; apply Hm; by eapply list_elem_of_lookup_2). rewrite lookup_delete_ne by done.
    specialize (IH i Hnd Hi Hf). case_decide; cbn; lia.
Qed.

Lemma learned_length evs b : (length (learned evs b) ≤ length evs)%nat.
Proof. induction evs as [|[b' s|m h d] evs IH]; [done| |]; cbn; [case_decide; cbn; unfold learned in IH|]; unfold learned in *; lia. Qed.

Lemma live_length f ns : (length (live f ns) ≤ length ns)%nat.
Proof. apply length_filter. Qed.

Lemma live_lt f ns n : n ∈ ns → ¬ is_Some (f !! n) → (length (live f ns) < length ns)%nat.
Proof.
  intros Hn Hnot. induction ns as [|m ns IH]; [by apply elem_of_nil in Hn|]. unfold live. rewrite filter_cons. fold (live f ns).
  pose proof (live_length f ns). apply elem_of_cons in Hn as [<-|Hn]; [rewrite decide_False by done; cbn; lia|]. specialize (IH Hn). case_decide; cbn; lia.
Qed.

(** One acknowledgement. *)
Lemma filtered_ack l evs b i l' p :
  filtered l evs → Z.of_nat (length evs) < 2 ^ 64 → b ≠ buffer_id l → ack_loop l b [i] = Some l' → old_buffers l !! b = Some p →
  filtered l' evs ∧ ∃ n s, vget (learned evs b) i = Some s ∧ filter l !! n = Some s ∧ filter l' = delete n (filter l).
Proof.
  intros [] Hsm Hcur E Hp. cbn [ack_loop] in E. rewrite Hp in E. cbn [mbind option_bind] in E.
  destruct (vget (ptrs p) i) as [n|] eqn:Ei; [|done]. cbn [mbind option_bind] in E. destruct (filter l !! n) as [s|] eqn:En; [|done]. injection E as <-.
  assert (ptrs p !! Z.to_nat i = Some n ∧ 0 ≤ i) as [Hi Hi0]. { pose proof (vget_Some_range _ _ _ Ei). rewrite vget_nat in Ei by lia. split; [done|lia]. }
  assert (NoDup (ptrs p)) as Hnd. { apply NoDup_alt. intros j j' x Hj Hj'. by destruct (f_one0 _ _ _ _ _ _ _ Hp Hp Hj Hj'). }
  destruct (f_count0 _ _ Hp) as [Hc Hc0]. pose proof (live_delete (filter l) n (ptrs p) _ Hnd Hi (mk_is_Some _ _ En)) as Hlive.
  assert (u64 (unacked_count p - 1) = Z.of_nat (length (live (delete n (filter l)) (ptrs p)))) as Hu.
  { rewrite wrap_small; [lia|]. pose proof (live_length (filter l) (ptrs p)). pose proof (f_length0 b p Hp). pose proof (learned_length evs b). lia. }
  rewrite Hu. set (c := Z.of_nat (length (live (delete n (filter l)) (ptrs p)))) in *.
  set (old := if c =? 0 then _ else _). assert (∀ b' p', old !! b' = Some p' → ∃ p0, old_buffers l !! b' = Some p0 ∧ ptrs p' = ptrs p0 ∧ (b' = b → unacked_count p' = c ∧ c ≠ 0) ∧ (b' ≠ b → p' = p0)) as Hold.
  { intros b' p'. unfold old. destruct (Z.eqb_spec c 0).
    - intros [Hne Hb]%lookup_delete_Some. by exists p'.
    - intros [[<- <-]|[Hne Hb]]%lookup_insert_Some; [exists p; split; [done|split; [done|by split]]|by exists p']. }
  assert (∀ b' p0 j m x, old_buffers l !! b' = Some p0 → ptrs p0 !! j = Some m → delete n (filter l) !! m = Some x → ∃ p', old !! b' = Some p' ∧ ptrs p' = ptrs p0) as Hkeep.
  { intros b' p0 j m x Hb Hj Hx. unfold old. destruct (decide (b' = b)) as [->|Hne].
    - assert (p0 = p) as -> by congruence. destruct (Z.eqb_spec c 0) as [Hz|]; [|by eexists; split; [apply lookup_insert_eq|]]. exfalso.
      assert (m ∈ live (delete n (filter l)) (ptrs p)) as Hm by (apply list_elem_of_filter; split; [by exists x|by eapply list_elem_of_lookup_2]).
      assert (live (delete n (filter l)) (ptrs p) = []) as Hl by (apply length_zero_iff_nil; lia). rewrite Hl in Hm. by apply elem_of_nil in Hm.
    - exists p0. split; [|done]. destruct (c =? 0); [by rewrite lookup_delete_ne|by rewrite lookup_insert_ne]. }
  split; [|exists n, s; rewrite vget_nat by done; split; [by eapply f_learned0|done]].
  constructor; cbn.
  - intros m x [? Hm]%lookup_delete_Some. by eapply f_next0.
  - intros b' p' j m Hb Hj. destruct (Hold b' p' Hb) as (p0 & Hb0 & Ep & _). rewrite Ep in Hj. by eapply f_ptr0.
  - intros b1 b2 p1 p2 j1 j2 m H1 H2 Hj1 Hj2. destruct (Hold b1 p1 H1) as (q1 & Hq1 & E1 & _). destruct (Hold b2 p2 H2) as (q2 & Hq2 & E2 & _).
    rewrite E1 in Hj1. rewrite E2 in Hj2. by eapply f_one0.
  - intros m x Hm. pose proof Hm as [? Hm0]%lookup_delete_Some. destruct (f_node0 _ _ Hm0) as (b' & p0 & j & Hb & Hj).
    destruct (Hkeep b' p0 j m x Hb Hj Hm) as (p' & Hb' & Ep). exists b', p', j. by rewrite Ep.
  - intros b' p' j m x Hb Hj [? Hm]%lookup_delete_Some. destruct (Hold b' p' Hb) as (p0 & Hb0 & Ep & _). rewrite Ep in Hj. by eapply f_learned0.
  - intros b' p' Hb. destruct (Hold b' p' Hb) as (p0 & Hb0 & Ep & _). rewrite Ep. by apply f_length0.
  - intros b' p' Hb. destruct (Hold b' p' Hb) as (p0 & Hb0 & Ep & Hb1 & Hb2). destruct (decide (b' = b)) as [->|Hne].
    + destruct (Hb1 eq_refl) as [-> Hcz]. assert (p0 = p) as -> by congruence. by rewrite Ep.
    + rewrite (Hb2 Hne). destruct (f_count0 _ _ Hb0) as [E1 ?]. split; [|done]. rewrite E1. do 2 f_equal. apply live_ext. intros m [j Hj]%list_elem_of_lookup_1.
      rewrite lookup_delete_ne; [done|]. intros ->. by destruct (f_one0 _ _ _ _ _ _ _ Hb0 Hp Hj Hi).
  - intros m m' x [? Hm]%lookup_delete_Some [? Hm']%lookup_delete_Some. by eapply f_inj0.
  - intros Hnone. apply f_current0. revert Hnone. unfold old. destruct (c =? 0); [rewrite lookup_delete_ne by done; done|rewrite lookup_insert_ne by done; done].
  - intros b' [p' Hb]. destruct (Hold b' p' Hb) as (p0 & Hb0 & _). apply f_above0. by exists p0.
Qed.

Lemma in_filter_same l l' n s s' :
  filtered l [] ∨ (∀ n n' s, filter l !! n = Some s → filter l !! n' = Some s → n = n') → filter l !! n = Some s → filter l' = delete n (filter l) →
  in_filter l' s' = in_filter l s' && negb (bool_decide (s' = s)).
Proof.
  intros Hi En Ef. assert (∀ n n' s, filter l !! n = Some s → filter l !! n' = Some s → n = n') as Hinj by (destruct Hi as [[]|]; done).
  apply eq_true_iff_eq. rewrite andb_true_iff, negb_true_iff, bool_decide_eq_false, !in_filter_iff, Ef. split.
  - intros (m & [Hne Hm]%lookup_delete_Some). split; [by exists m|]. intros ->. apply Hne. by eapply Hinj.
  - intros [[m Hm] Hne]. exists m. rewrite lookup_delete_ne; [done|]. intros ->. congruence.
Qed.

Lemma erase_all_spec ns : ∀ f f', erase_all ns f = Some f' → (∀ n, n ∈ ns → is_Some (f !! n)) ∧ ∀ m, f' !! m = if decide (m ∈ ns) then None else f !! m.
Proof.
  induction ns as [|n ns IH]; intros f f' E; cbn [erase_all] in E.
  { injection E as <-. split; [by intros n ?%elem_of_nil|]. intros m. rewrite decide_False; [done|apply not_elem_of_nil]. }
  destruct (f !! n) as [s|] eqn:En; [|done]. cbn [mbind option_bind] in E. destruct (IH _ _ E) as [H1 H2]. split.
  - intros m [->|Hm]%elem_of_cons; [by exists s|]. destruct (H1 m Hm) as [x [_ Hx]%lookup_delete_Some]. by exists x.
  - intros m. rewrite H2. destruct (decide (m = n)) as [->|Hne]; [rewrite lookup_delete_eq; repeat case_decide; set_solver|].
    rewrite lookup_delete_ne by done. repeat case_decide; set_solver.
Qed.

Lemma erase_all_some ns : ∀ f, NoDup ns → (∀ n, n ∈ ns → is_Some (f !! n)) → is_Some (erase_all ns f).
Proof.
  induction ns as [|n ns IH]; intros f Hnd Hall; [by eexists|]. apply NoDup_cons in Hnd as [Hn Hnd]. cbn [erase_all].
  destruct (Hall n ltac:(set_solver)) as [s ->]. cbn. apply IH; [done|]. intros m Hm. rewrite lookup_delete_ne by (intros ->; done). apply Hall. set_solver.
Qed.

Lemma ptrs_NoDup l evs b p : filtered l evs → old_buffers l !! b = Some p → NoDup (ptrs p).
Proof. intros [] Hp. apply NoDup_alt. intros j j' x Hj Hj'. by destruct (f_one0 _ _ _ _ _ _ _ Hp Hp Hj Hj'). Qed.

(** When all that is not acknowledged is of one buffer, the filter is. *)
Lemma whole_filter l evs b p n s :
  filtered l evs → old_buffers l !! b = Some p → unacked_count p = Z.of_nat (size (filter l)) → filter l !! n = Some s → n ∈ ptrs p.
Proof.
  intros Hf Hp Hc Hn. destruct (f_count l evs Hf b p Hp) as [Hl _]. rewrite Hc in Hl. apply Nat2Z.inj in Hl.
  assert ((list_to_set (live (filter l) (ptrs p)) : gset Z) = dom (filter l)) as Hd.
  { apply set_subseteq_size_eq.
    - intros m [Hm _]%elem_of_list_to_set%list_elem_of_filter. by apply elem_of_dom.
    - rewrite size_dom, size_list_to_set; [lia|]. apply NoDup_filter. by eapply ptrs_NoDup. }
  assert (n ∈ (list_to_set (live (filter l) (ptrs p)) : gset Z)) as Hin by (rewrite Hd; apply elem_of_dom; by exists s).
  by apply elem_of_list_to_set, list_elem_of_filter in Hin as [_ Hin].
Qed.

Lemma ack_buffer_filter l evs b p l' :
  filtered l evs → old_buffers l !! b = Some p → ack_buffer l b = Some l' →
  l' = with_filter l (filter l') (next_node l) (delete b (old_buffers l)) ∧
  (∀ m, filter l' !! m = if decide (m ∈ ptrs p) then None else filter l !! m) ∧
  ((∀ n, n ∈ ptrs p → is_Some (filter l !! n)) ∨ filter l' = ∅).
Proof.
  intros Hf Hp E. unfold ack_buffer in E. rewrite Hp in E. destruct (Z.eqb_spec (unacked_count p) (Z.of_nat (size (filter l)))) as [Hc|].
  - injection E as <-. cbn. split; [done|]. split; [|by right]. intros m. rewrite lookup_empty. case_decide as Hm; [done|].
    destruct (filter l !! m) as [s|] eqn:Em; [|done]. destruct Hm. by eapply whole_filter.
  - destruct (erase_all (ptrs p) (filter l)) as [f|] eqn:Ee; [|done]. injection E as <-. destruct (erase_all_spec _ _ _ Ee) as [H1 H2]. cbn. split; [done|].
    split; [done|by left].
Qed.

Lemma filtered_ack_buffer l evs b p l' :
  filtered l evs → b ≠ buffer_id l → old_buffers l !! b = Some p → ack_buffer l b = Some l' →
  filtered l' evs ∧ ∀ s, in_filter l' s = in_filter l s && bool_decide (s ∉ learned evs b).
Proof.
  intros Hf Hcur Hp E. destruct (ack_buffer_filter l evs b p l' Hf Hp E) as (El & Hfil & Hcase). destruct Hf. rewrite El.
  assert (∀ n s, filter l' !! n = Some s → filter l !! n = Some s ∧ n ∉ ptrs p) as Hsub by (intros n s; rewrite Hfil; by case_decide).
  assert (∀ b' p', delete b (old_buffers l) !! b' = Some p' → b' ≠ b ∧ old_buffers l !! b' = Some p') as Hold by (intros b' p' [? ?]%lookup_delete_Some; by split).
  split.
  - constructor; cbn.
    + intros n s Hn. destruct (Hsub n s Hn). by eapply f_next0.
    + intros b' p' i n Hb. destruct (Hold _ _ Hb). by eapply f_ptr0.
    + intros b1 b2 p1 p2 i1 i2 n H1 H2. destruct (Hold _ _ H1), (Hold _ _ H2). by eapply f_one0.
    + intros n s Hn. destruct (Hsub n s Hn) as [Hn' Hnp]. destruct (f_node0 n s Hn') as (b' & p' & i & Hb & Hi). exists b', p', i. split; [|done].
      rewrite lookup_delete_ne; [done|]. intros <-. apply Hnp. assert (p' = p) as -> by congruence. by eapply list_elem_of_lookup_2.
    + intros b' p' i n s Hb Hi Hn. destruct (Hold _ _ Hb). destruct (Hsub n s Hn). by eapply f_learned0.
    + intros b' p' Hb. destruct (Hold _ _ Hb). by apply f_length0.
    + intros b' p' Hb. destruct (Hold _ _ Hb) as [Hne Hb']. destruct (f_count0 _ _ Hb') as [E1 ?]. split; [|done]. rewrite E1. do 2 f_equal. apply live_ext.
      intros n [i Hi]%list_elem_of_lookup_1. rewrite Hfil, decide_False; [done|]. intros [j Hj]%list_elem_of_lookup_1. by destruct (f_one0 _ _ _ _ _ _ _ Hb' Hp Hi Hj).
    + intros n n' s Hn Hn'. destruct (Hsub _ _ Hn), (Hsub _ _ Hn'). by eapply f_inj0.
    + rewrite lookup_delete_ne by done. apply f_current0.
    + intros b' [p' Hb]. destruct (Hold _ _ Hb). apply f_above0. by exists p'.
  - intros s. rewrite <-El. apply eq_true_iff_eq. rewrite andb_true_iff, bool_decide_eq_true, !in_filter_iff. split.
    + intros [n Hn]. destruct (Hsub n s Hn) as [Hn' Hnp]. split; [by exists n|]. intros [j Hj]%list_elem_of_lookup_1.
      destruct Hcase as [Hall|Hempty]; [|by rewrite Hempty, lookup_empty in Hn].
      assert (is_Some (ptrs p !! j)) as [m Hm]. { apply lookup_lt_is_Some. rewrite (f_length0 b p Hp). by eapply lookup_lt_Some. }
      destruct (Hall m) as [s' Hs']; [by eapply list_elem_of_lookup_2|]. pose proof (f_learned0 _ _ _ _ _ Hp Hm Hs') as Hl. assert (s' = s) as -> by congruence.
      apply Hnp. rewrite (f_inj0 n m s Hn' Hs'). by eapply list_elem_of_lookup_2.
    + intros [[n Hn] Hnot]. exists n. rewrite Hfil, decide_False; [done|]. intros [i Hi]%list_elem_of_lookup_1. apply Hnot.
      eapply list_elem_of_lookup_2. by eapply f_learned0.
Qed.

(** *** Runs *)

(** Samples have fields, and buffers are acknowledged once they are no longer filled. *)
Definition client_ok st (a : label) : bool :=
  match a with
  | Learn sample _ => bool_decide (sample ≠ [])
  | Ack id _ | AckBuffer id => negb (id =? buffer_id (fst st))
  | _ => true
  end.

Fixpoint client_run_ok st (ls : list label) : bool :=
  match ls with
  | [] => true
  | a :: ls => client_ok st a && match step st a with Some (st, _) => client_run_ok st ls | None => true end
  end.

Lemma ack_loop_split l b i ids l' : ack_loop l b (i :: ids) = Some l' → ∃ l1, ack_loop l b [i] = Some l1 ∧ ack_loop l1 b ids = Some l' ∧ is_Some (old_buffers l !! b) ∧ buffer_id l1 = buffer_id l.
Proof.
  cbn [ack_loop]. destruct (old_buffers l !! b) as [p|]; [|done]. cbn [mbind option_bind]. destruct (vget (ptrs p) i) as [n|]; [|done]. cbn [mbind option_bind].
  destruct (filter l !! n); [|done]. cbn [mbind option_bind]. intros E. eexists. split; [done|]. split; [exact E|]. by split; [eexists|].
Qed.

Lemma filtered_acks b ids : ∀ l l' evs,
  filtered l evs → Z.of_nat (length evs) < 2 ^ 64 → b ≠ buffer_id l → ack_loop l b ids = Some l' → filtered l' evs.
Proof.
  induction ids as [|i ids IH]; intros l l' evs Hf Hsm Hb E; [by injection E as <-|].
  destruct (ack_loop_split _ _ _ _ _ E) as (l1 & E1 & E2 & [p Hp] & Hid). destruct (filtered_ack l evs b i l1 p Hf Hsm Hb E1 Hp) as [Hf1 _].
  apply (IH l1 l' evs Hf1 Hsm); [by rewrite Hid|done].
Qed.

Lemma step_filtered k l ph a st' ev evs :
  k + 1 < 2 ^ 64 → Z.of_nat (length evs) < 2 ^ 64 → client_ok (l, ph) a = true → buffered k (l, ph) evs → filtered l evs → step (l, ph) a = Some (st', ev) →
  filtered (fst st') (evs ++ ev).
Proof.
  intros Hk Hsm Ha Hb Hf E. assert (∀ l', fview l' = fview l → filtered l' (evs ++ [])) as Hview by (intros l' Hv; rewrite app_nil_r; by apply (filtered_view l)).
  destruct a as [sample now| |n|ms|m|now| | |id ids|id]; cbn [step client_ok fst] in *.
  - injection E as <- <-. cbn [fst]. apply bool_decide_eq_true in Ha. unfold add_sample. destruct (in_filter l sample) eqn:Ei; [by apply Hview|].
    pose proof (filtered_record k l ph evs sample Hb Hf Ei) as Hr. pose proof (buffered_record k l ph evs sample Ha Hb) as Hbr.
    destruct (_ && _); [by apply (filtered_view (record_sample l sample))|]. case_match; [by eapply filtered_full|done].
  - unfold can_swap_woken in E. case_match; [|done]. injection E as <- <-. cbn [fst]. rewrite app_nil_r.
    eapply (filtered_full k); [done|by apply buffered_waiters|by apply (filtered_view l)].
  - injection E as <- <-. cbn [fst]. rewrite app_nil_r. unfold set_max_samples. case_match; [|by apply (filtered_view l)].
    eapply (filtered_full k); [done|by apply (buffered_view _ l)|by apply (filtered_view l)].
  - injection E as <- <-. by apply Hview.
  - unfold set_learn_mode in E. destruct (writer_busy l); [done|]. injection E as <- <-. by apply Hview.
  - destruct ph; [|done..]. unfold transmit_begin in E. destruct (_ || _); [done|]. destruct (buffer_tmp l); injection E as <- <-; cbn [fst]; [|by apply Hview].
    rewrite app_nil_r. apply (filtered_view (swap_buffers l)); [done|]. by eapply filtered_swap.
  - destruct ph; [done| |done]. destruct (transmit_send l) as [[h d]|]; [|done]. injection E as <- <-. cbn [fst].
    assert (∀ b, learned (evs ++ [Sent (learn_mode l) h d]) b = learned evs b) as Hl by (intros b; rewrite learned_app; apply app_nil_r).
    destruct Hf. constructor; try done; intros *; rewrite ?Hl; auto. by apply f_learned0.
  - destruct ph; [done..|]. unfold transmit_end in E. destruct (writer_busy l); [|done]. injection E as <- <-. by apply Hview.
  - apply negb_true_iff, Z.eqb_neq in Ha. unfold ack in E. destruct (old_buffers l !! id); [|injection E as <- <-; by apply Hview].
    destruct (ack_loop l id ids) as [l'|] eqn:El; [|done]. injection E as <- <-. cbn [fst]. rewrite app_nil_r. by eapply filtered_acks.
  - apply negb_true_iff, Z.eqb_neq in Ha. destruct (ack_buffer l id) as [l'|] eqn:El; [|done]. injection E as <- <-. cbn [fst]. rewrite app_nil_r.
    destruct (old_buffers l !! id) as [p|] eqn:Hp; [by eapply filtered_ack_buffer|]. unfold ack_buffer in El. rewrite Hp in El. by injection El as <-.
Qed.

Lemma step_events st a st' ev : step st a = Some (st', ev) → (length ev ≤ 1)%nat.
Proof.
  destruct st as [l ph]. destruct a; cbn [step]; intros E; try (injection E as _ <-; cbn; lia); try (destruct ph; try done; mbind_inv E; try (destruct x; simplify_eq); cbn; lia).
  - injection E as _ <-. destruct (in_filter l sample); cbn; lia.
Qed.

Lemma run_filtered ls : ∀ k st st' es evs,
  k + Z.of_nat (length ls) < 2 ^ 64 → Z.of_nat (length evs) ≤ k → client_run_ok st ls = true → buffered k st evs → filtered (fst st) evs → run st ls = Some (st', es) →
  filtered (fst st') (evs ++ es) ∧ Z.of_nat (length (evs ++ es)) < 2 ^ 64.
Proof.
  induction ls as [|a ls IH]; intros k st st' es evs Hk Hsm Hok Hb Hf E; cbn [run] in E.
  { injection E as <- <-. rewrite app_nil_r. split; [done|]. cbn in Hk. lia. }
  cbn [client_run_ok] in Hok. apply andb_true_iff in Hok as [Ha Hok]. destruct (step st a) as [[st1 ev]|] eqn:E1; [|done]. cbn [mbind option_bind] in E.
  destruct (run st1 ls) as [[st2 es2]|] eqn:E2; [|done]. injection E as -> <-. cbn [length] in Hk. rewrite app_assoc. destruct st as [l ph].
  pose proof (step_events _ _ _ _ E1). assert (label_ok a) as Hl by (destruct a; try done; cbn in Ha; by apply bool_decide_eq_true in Ha).
  apply (IH (k + 1) st1); [lia|rewrite length_app; lia|done| | |done].
  - eapply step_buffered; [lia|done|exact Hb|exact E1].
  - eapply step_filtered; [| |exact Ha|exact Hb|exact Hf|exact E1]; lia.
Qed.

Lemma new_filtered id max ms : filtered (new_list id max ms) [].
Proof. constructor; cbn; try (intros *; rewrite !lookup_empty; intros; discriminate); try done. intros b [p Hp]. by rewrite lookup_empty in Hp. Qed.

(** Whatever the order of the steps, an acknowledgement of a sample of a
    message takes that very sample out of the filter, and nothing else; that of
    a whole buffer takes all its samples, and is possible if none of them was
    acknowledged before. *)
Theorem acknowledged (id max ms : Z) (ls : list label) l ph evs b p :
  Z.of_nat (length ls) < 2 ^ 64 → client_run_ok (new_list id max ms, Idle) ls = true → run (new_list id max ms, Idle) ls = Some ((l, ph), evs) →
  b ≠ buffer_id l → old_buffers l !! b = Some p →
  (∀ i l', ack l b [i] = Some l' → ∃ s, vget (learned evs b) i = Some s ∧ in_filter l s = true ∧
      ∀ s', in_filter l' s' = in_filter l s' && negb (bool_decide (s' = s))) ∧
  (∀ l', ack_buffer l b = Some l' → ∀ s', in_filter l' s' = in_filter l s' && bool_decide (s' ∉ learned evs b)) ∧
  (unacked_count p = Z.of_nat (length (learned evs b)) → is_Some (ack_buffer l b)).
Proof.
  intros Hk Hok E Hb Hp. destruct (run_filtered ls 0 _ _ _ [] ltac:(lia) ltac:(cbn; lia) Hok (new_buffered id max ms) (new_filtered id max ms) E) as [Hf Hsm].
  cbn [fst app] in Hf, Hsm. split; [|split].
  - intros i l' Ea. unfold ack in Ea. rewrite Hp in Ea. destruct (filtered_ack l evs b i l' p Hf Hsm Hb Ea Hp) as [_ (n & s & Hs & Hn & Hfil)].
    exists s. split; [done|]. split; [apply in_filter_iff; by exists n|]. intros s'. eapply in_filter_same; [right; exact (f_inj l evs Hf)|exact Hn|exact Hfil].
  - intros l' Ea. by destruct (filtered_ack_buffer l evs b p l' Hf Hb Hp Ea).
  - intros Hc. unfold ack_buffer. rewrite Hp. destruct (_ =? _); [by eexists|]. destruct (f_count l evs Hf b p Hp) as [Hl _]. rewrite Hc, <-(f_length l evs Hf b p Hp) in Hl.
    destruct (erase_all_some (ptrs p) (filter l)) as [f ->]; [by eapply ptrs_NoDup| |by eexists].
    intros n Hn. apply Nat2Z.inj in Hl. destruct (decide (is_Some (filter l !! n))) as [|Hnot]; [done|]. exfalso.
    pose proof (live_lt (filter l) (ptrs p) n Hn Hnot). lia.
Qed.
End LearningSpec.

Module LearningExamples.
Import Learning LearningSpec.

(** Two samples fill the buffer, a third waits for a fourth; one is sent again after it was acknowledged. *)
Definition ops : list label :=
  [Learn [1] 0; Learn [1] 5; Learn [2] 10; SetMode WRITER; Begin 20; Learn [3] 25; Learn [4] 30; Send; End; Woken;
   Ack 0 [1]; Learn [2] 40; Begin 50; Send; End; AckBuffer 1].

Definition the_events : list event :=
  [Learned 0 [1]; Learned 0 [2]; Learned 1 [3]; Learned 1 [4];
   Sent WRITER {| hdr_list_id := 9; hdr_buffer_id := 0; hdr_num_samples := 2 |} [1; 2];
   Learned 2 [2];
   Sent WRITER {| hdr_list_id := 9; hdr_buffer_id := 1; hdr_num_samples := 2 |} [3; 4]].

Example ops_learn : (λ r, r.2) <$> run (new_list 9 2 1000, Idle) ops = Some the_events.
Proof. vm_compute. reflexivity. Qed.

Lemma ops_label_ok : Forall label_ok ops.
Proof. repeat (apply Forall_cons; split; [done|]). by apply Forall_nil. Qed.

Lemma messages_witness :
  ∃ st, run (new_list 9 2 1000, Idle) ops = Some (st, the_events) ∧
  (∀ m h d, Sent m h d ∈ the_events →
    d = concat (learned the_events (hdr_buffer_id h)) ∧ hdr_num_samples h = u32 (Z.of_nat (length (learned the_events (hdr_buffer_id h))))) ∧
  concat (all_learned the_events) = all_sent the_events ++ (match snd st with Done => [] | _ => buffer_tmp (fst st) end) ++ buffer (fst st).
Proof.
  eexists. split; [vm_compute; reflexivity|]. eapply (messages 9 2 1000 ops); [reflexivity|exact ops_label_ok|vm_compute; reflexivity].
Defined.

Lemma acknowledged_witness :
  ∃ l ph p, run (new_list 9 2 1000, Idle) ops = Some ((l, ph), the_events) ∧ old_buffers l !! 0 = Some p ∧
  ∃ l', ack l 0 [0] = Some l' ∧ in_filter l [1] = true ∧ in_filter l' [1] = false ∧ in_filter l' [2] = true.
Proof.
  eexists _, _, _. split; [vm_compute; reflexivity|]. split; [vm_compute; reflexivity|].
  pose proof (λ l ph p, acknowledged 9 2 1000 ops l ph the_events 0 p) as Hack0.
  edestruct Hack0 as [Hack _]; [reflexivity|vm_compute; reflexivity|vm_compute; reflexivity|cbn [buffer_id]; lia|vm_compute; reflexivity|].
  eexists. split; [vm_compute; reflexivity|]. destruct (Hack 0 _ ltac:(vm_compute; reflexivity)) as (s & Hs & Hin & Hall). injection Hs as <-.
  split; [exact Hin|]. rewrite !Hall. split; vm_compute; reflexivity.
Defined.

(** A sample of a buffer that was acknowledged, then the whole buffer, while
    another buffer has samples that are not: an erased iterator is used. *)
Theorem ack_then_ack_buffer :
  (r ← run (new_list 9 2 1000, Idle) [Learn [1] 0; Learn [2] 0; Begin 0; Send; End; Learn [3] 0; Ack 0 [0]]; Some (ack_buffer (r.1.1) 0)) = Some None ∧
  (r ← run (new_list 9 2 1000, Idle) [Learn [1] 0; Learn [2] 0; Begin 0; Send; End; Ack 0 [0]];
    l ← ack_buffer (r.1.1) 0; Some (size (filter l))) = Some 0%nat.
Proof. split; vm_compute; reflexivity. Qed.

(** [reset_state] does not wait for the thread that sends: the message that is
    being sent can say it has two samples of the buffer [2 ^ 64 - 1], and be empty. *)
Theorem reset_while_sending :
  (r ← run (new_list 9 2 1000, Idle) [Learn [1] 0; Learn [2] 0; Begin 0]; transmit_send (reset_state r.1.1)) =
  Some ({| hdr_list_id := 9; hdr_buffer_id := 2 ^ 64 - 1; hdr_num_samples := 2 |}, []).
Proof. vm_compute. reflexivity. Qed.
End LearningExamples.
