(* ===== verification/Ageing.v ===== *)
(** * Ageing (include/bm/bm_sim/ageing.h, src/bm_sim/ageing.cpp)

    A thread sweeps the tables with ageing at intervals and sends a message for
    each table with the handles of the entries that were not used for the time
    they have. It holds the mutex of the monitor while it sweeps. What the
    tables answer is the argument [aged]: the handles, by the identity of the
    table ([MatchTables.sweep_entries]). *)

From stdpp Require Import gmap.
From S2P Require Import Prelude.

Module Ageing.

Record TableData := { table : Z; prev_sweep_entries : gset Z }.

Record msg_hdr_t := { hdr_buffer_id : Z; hdr_table_id : Z; hdr_num_entries : Z }.

Record AgeingMonitor := {
  tables_with_ageing : list TableData;    (** by ascending identity *)
  entries : list Z;
  entries_tmp : list Z;
  buffer_id : Z;
}.

Definition new : AgeingMonitor := {| tables_with_ageing := []; entries := []; entries_tmp := []; buffer_id := 0 |}.

(** [std::map::insert]: a table that is there stays. *)
Fixpoint insert_table (ts : list TableData) (id : Z) : list TableData :=
  match ts with
  | [] => [{| table := id; prev_sweep_entries := ∅ |}]
  | t :: ts' =>
      if id <? table t then {| table := id; prev_sweep_entries := ∅ |} :: ts
      else if id =? table t then ts
      else t :: insert_table ts' id
  end.

Implicit Types (m : AgeingMonitor).

Definition with_tables m (ts : list TableData) : AgeingMonitor :=
  {| tables_with_ageing := ts; entries := entries m; entries_tmp := entries_tmp m; buffer_id := buffer_id m |}.

Definition add_table m (id : Z) : AgeingMonitor := with_tables m (insert_table (tables_with_ageing m) id).

Definition reset_state m : AgeingMonitor :=
  {| tables_with_ageing := (λ t, {| table := table t; prev_sweep_entries := ∅ |}) <$> tables_with_ageing m;
     entries := []; entries_tmp := []; buffer_id := 0 |}.

(** The step of the loop of [do_sweep] at one table: the vectors, the count, the data of the table and its message. *)
Definition sweep_table (aged : Z → list Z) m (t : TableData) : AgeingMonitor * TableData * option (msg_hdr_t * list Z) :=
  let tmp := entries_tmp m ++ aged (table t) in
  let keep es n := {| tables_with_ageing := tables_with_ageing m; entries := es; entries_tmp := []; buffer_id := n |} in
  let data s := {| table := table t; prev_sweep_entries := s |} in
  match tmp with
  | [] => (keep (entries m) (buffer_id m), data ∅, None)
  | _ =>
      let es := entries m ++ filter (λ h, h ∉ prev_sweep_entries t) tmp in
      match es with
      | [] => (keep [] (buffer_id m), data ∅, None)
      | _ =>
          let hdr := {| hdr_buffer_id := buffer_id m; hdr_table_id := table t; hdr_num_entries := u32 (Z.of_nat (length es)) |} in
          (keep [] (u64 (buffer_id m + 1)), data (list_to_set es), Some (hdr, es))
      end
  end.

Fixpoint sweep_tables (aged : Z → list Z) m (ts : list TableData) : AgeingMonitor * list TableData * list (msg_hdr_t * list Z) :=
  match ts with
  | [] => (m, [], [])
  | t :: ts =>
      let '(m, t, msg) := sweep_table aged m t in
      let '(m, ts, msgs) := sweep_tables aged m ts in
      (m, t :: ts, match msg with Some msg => msg :: msgs | None => msgs end)
  end.

Definition do_sweep (aged : Z → list Z) m : AgeingMonitor * list (msg_hdr_t * list Z) :=
  let '(m, ts, msgs) := sweep_tables aged m (tables_with_ageing m) in (with_tables m ts, msgs).

(** ** What a sweep sends *)

Definition wf m : Prop := NoDup (table <$> tables_with_ageing m) ∧ entries m = [] ∧ entries_tmp m = [].

(** The entries of a table that were not in the message of the sweep before. *)
Definition fresh (aged : Z → list Z) (t : TableData) : list Z := filter (λ h, h ∉ prev_sweep_entries t) (aged (table t)).

Lemma sweep_table_spec aged m t : entries m = [] → entries_tmp m = [] →
  ∃ n, sweep_table aged m t =
    ({| tables_with_ageing := tables_with_ageing m; entries := []; entries_tmp := []; buffer_id := n |},
     {| table := table t; prev_sweep_entries := list_to_set (fresh aged t) |},
     match fresh aged t with
     | [] => None
     | es => Some ({| hdr_buffer_id := buffer_id m; hdr_table_id := table t; hdr_num_entries := u32 (Z.of_nat (length es)) |}, es)
     end).
Proof.
  intros He Ht. unfold sweep_table, fresh. rewrite He, Ht. cbn [app]. destruct (aged (table t)) as [|h hs] eqn:Ea; [by eexists|].
  destruct (filter _ (h :: hs)); by eexists.
Qed.

(** Each table is swept by itself. *)
Lemma sweep_tables_spec aged ts : ∀ m, entries m = [] → entries_tmp m = [] →
  ∃ m' msgs, sweep_tables aged m ts =
    (m', (λ t, {| table := table t; prev_sweep_entries := list_to_set (fresh aged t) |}) <$> ts, msgs) ∧
    entries m' = [] ∧ entries_tmp m' = [] ∧
    ((λ msg, (hdr_table_id msg.1, msg.2)) <$> msgs) = filter (λ p, p.2 ≠ []) ((λ t, (table t, fresh aged t)) <$> ts) ∧
    Forall (λ msg, hdr_num_entries msg.1 = u32 (Z.of_nat (length msg.2))) msgs.
Proof.
  induction ts as [|t ts IH]; intros m He Ht; [by exists m, []|]. cbn [sweep_tables].
  destruct (sweep_table_spec aged m t He Ht) as [n ->]. destruct (IH {| tables_with_ageing := tables_with_ageing m; entries := []; entries_tmp := []; buffer_id := n |} eq_refl eq_refl)
    as (m' & msgs & -> & He' & Ht' & Hm & Hn).
  destruct (fresh aged t) as [|h hs] eqn:Ef; cbn [fmap list_fmap].
  - exists m', msgs. split; [by rewrite Ef|]. do 2 (split; [done|]). split; [|done]. rewrite filter_cons_False by (cbn; rewrite Ef; tauto). done.
  - eexists m', _. split; [by rewrite Ef|]. do 2 (split; [done|]). split; [|by constructor]. rewrite filter_cons_True by (cbn; rewrite Ef; done). cbn. by rewrite Ef, Hm.
Qed.

Lemma sweep_spec aged m :
  wf m →
  ((λ msg, (hdr_table_id msg.1, msg.2)) <$> (do_sweep aged m).2) = filter (λ p, p.2 ≠ []) ((λ t, (table t, fresh aged t)) <$> tables_with_ageing m) ∧
  Forall (λ msg, hdr_num_entries msg.1 = u32 (Z.of_nat (length msg.2))) (do_sweep aged m).2 ∧
  tables_with_ageing (do_sweep aged m).1 = (λ t, {| table := table t; prev_sweep_entries := list_to_set (fresh aged t) |}) <$> tables_with_ageing m ∧
  wf (do_sweep aged m).1.
Proof.
  intros (Hnd & He & Ht). unfold do_sweep. destruct (sweep_tables_spec aged (tables_with_ageing m) m He Ht) as (m' & msgs & -> & He' & Ht' & Hm & Hn).
  cbn. do 3 (split; [done|]). split; [|done]. cbn. by rewrite <-list_fmap_compose.
Qed.

(** A sweep sends one message for each table that has entries that were not
    in the message of the sweep before, with those entries, in the order of the
    tables; and it remembers them. *)
Theorem sweep_messages aged m :
  wf m →
  ((λ msg, (hdr_table_id msg.1, msg.2)) <$> (do_sweep aged m).2) = filter (λ p, p.2 ≠ []) ((λ t, (table t, fresh aged t)) <$> tables_with_ageing m) ∧
  Forall (λ msg, hdr_num_entries msg.1 = u32 (Z.of_nat (length msg.2))) (do_sweep aged m).2 ∧
  tables_with_ageing (do_sweep aged m).1 = (λ t, {| table := table t; prev_sweep_entries := list_to_set (fresh aged t) |}) <$> tables_with_ageing m ∧
  wf (do_sweep aged m).1.
Proof. apply sweep_spec. Qed.

(** An entry that is in the message of a sweep is not in that of the next one. *)
Theorem notified_once_in_two aged aged' m id h es es' :
  wf m → (id, es) ∈ ((λ msg, (hdr_table_id msg.1, msg.2)) <$> (do_sweep aged m).2) →
  (id, es') ∈ ((λ msg, (hdr_table_id msg.1, msg.2)) <$> (do_sweep aged' (do_sweep aged m).1).2) → h ∈ es → h ∉ es'.
Proof.
  intros Hwf Hin Hin' Hh Hh'. destruct (sweep_spec aged m Hwf) as (Hm & _ & Hts & Hwf1). destruct (sweep_spec aged' _ Hwf1) as (Hm' & _ & _ & _).
  rewrite Hm in Hin. rewrite Hm', Hts in Hin'. apply list_elem_of_filter in Hin as [_ Hin]. apply list_elem_of_filter in Hin' as [_ Hin'].
  apply list_elem_of_fmap in Hin as (t & [= -> ->] & Ht). rewrite <-list_fmap_compose in Hin'. apply list_elem_of_fmap in Hin' as (t' & [= Eid ->] & Ht').
  assert (t' = t) as ->.
  { destruct Hwf as (Hnd & _). apply list_elem_of_lookup_1 in Ht as [i Hi]. apply list_elem_of_lookup_1 in Ht' as [j Hj].
    assert (i = j) as ->; [|congruence]. apply (NoDup_lookup _ _ _ (table t) Hnd); rewrite list_lookup_fmap; [by rewrite Hi|by rewrite Hj, Eid]. }
  unfold fresh at 1 in Hh'. cbn in Hh'. apply list_elem_of_filter in Hh' as [Hnot _]. apply Hnot. by apply elem_of_list_to_set.
Qed.

Lemma sent_fresh aged m t h : wf m → t ∈ tables_with_ageing m → h ∈ fresh aged t →
  ∃ es, (table t, es) ∈ ((λ msg, (hdr_table_id msg.1, msg.2)) <$> (do_sweep aged m).2) ∧ h ∈ es.
Proof.
  intros Hwf Ht Hh. destruct (sweep_spec aged m Hwf) as (-> & _). exists (fresh aged t). split; [|done]. apply list_elem_of_filter. split.
  - cbn. intros E. rewrite E in Hh. by apply elem_of_nil in Hh.
  - apply list_elem_of_fmap. by exists t.
Qed.

(** An entry that is old at two sweeps in a row is in a message of one of them. *)
Theorem notified_in_two aged aged' m t h :
  wf m → t ∈ tables_with_ageing m → h ∈ aged (table t) → h ∈ aged' (table t) →
  ∃ es, h ∈ es ∧ ((table t, es) ∈ ((λ msg, (hdr_table_id msg.1, msg.2)) <$> (do_sweep aged m).2) ∨
    (table t, es) ∈ ((λ msg, (hdr_table_id msg.1, msg.2)) <$> (do_sweep aged' (do_sweep aged m).1).2)).
Proof.
  intros Hwf Ht Hh Hh'. destruct (decide (h ∈ fresh aged t)) as [Hf|Hf].
  { destruct (sent_fresh aged m t h Hwf Ht Hf) as (es & ? & ?). exists es. auto. }
  destruct (sweep_spec aged m Hwf) as (_ & _ & Hts & Hwf1). set (t' := {| table := table t; prev_sweep_entries := list_to_set (fresh aged t) |}).
  destruct (sent_fresh aged' (do_sweep aged m).1 t' h Hwf1) as (es & ? & ?).
  - rewrite Hts. apply list_elem_of_fmap. by exists t.
  - apply list_elem_of_filter. split; [|done]. cbn. by rewrite elem_of_list_to_set.
  - exists es. auto.
Qed.

(** ** Examples *)

Definition two_tables : AgeingMonitor := add_table (add_table new 8) 5.
Definition aged1 (id : Z) : list Z := if id =? 5 then [1; 2] else [].
Definition aged2 (id : Z) : list Z := if id =? 5 then [2; 3] else [7].

Example two_sweeps :
  snd <$> (let '(m, msgs) := do_sweep aged1 two_tables in (msgs, snd (do_sweep aged2 m))).1 = [[1; 2]] ∧
  ((λ msg, (hdr_buffer_id msg.1, hdr_table_id msg.1, msg.2)) <$> (do_sweep aged2 (do_sweep aged1 two_tables).1).2) = [(1, 5, [3]); (2, 8, [7])].
Proof. split; vm_compute; reflexivity. Qed.

Lemma two_tables_wf : wf two_tables.
Proof. split; [|done]. change (table <$> tables_with_ageing two_tables) with [5; 8]. apply NoDup_cons. split; [set_solver|]. apply NoDup_singleton. Qed.

Lemma sweep_messages_witness : wf two_tables ∧
  ((λ msg, (hdr_table_id msg.1, msg.2)) <$> (do_sweep aged1 two_tables).2) = filter (λ p, p.2 ≠ []) ((λ t, (table t, fresh aged1 t)) <$> tables_with_ageing two_tables).
Proof. split; [exact two_tables_wf|]. apply (sweep_messages aged1 two_tables two_tables_wf). Defined.

Lemma notified_once_in_two_witness : 2 ∈ [1; 2] ∧ 2 ∉ [3].
Proof.
  assert (2 ∈ [1; 2]) as Hin by set_solver. split; [exact Hin|].
  apply (notified_once_in_two aged1 aged2 two_tables 5 2 [1; 2] [3] two_tables_wf).
  - vm_compute (_ <$> _). apply elem_of_cons. by left.
  - vm_compute (_ <$> _). apply elem_of_cons. by left.
  - exact Hin.
Defined.

Lemma notified_in_two_witness :
  ∃ es, 2 ∈ es ∧ ((5, es) ∈ ((λ msg, (hdr_table_id msg.1, msg.2)) <$> (do_sweep aged1 two_tables).2) ∨
    (5, es) ∈ ((λ msg, (hdr_table_id msg.1, msg.2)) <$> (do_sweep aged2 (do_sweep aged1 two_tables).1).2)).
Proof.
  apply (notified_in_two aged1 aged2 two_tables {| table := 5; prev_sweep_entries := ∅ |} 2 two_tables_wf); cbn; set_solver.
Defined.
End Ageing.
