(* ===== verification/FieldLists.v ===== *)
(** * Field lists (include/bm/bm_sim/field_lists.h), and fields by their place

    A field list carries metadata from a packet to its copy. The lemmas on
    [get_field] and [set_field] say what changing a field does to the others. *)

From stdpp Require Import gmap.
From S2P Require Import Prelude ByteContainer Data Fields Headers Phv Parser.
Import (coercions) Fields.

Module FieldLists.

Inductive field_list_member_t := field_t (header offset : Z) | constant_t (value : list Z) (bitwidth : Z).

#[global] Instance member_eq_dec : EqDecision field_list_member_t.
Proof. solve_decision. Defined.

Record FieldList := { fields : list field_list_member_t; fields_set : gset (Z * Z) }.
Implicit Types (l : FieldList) (m : field_list_member_t).

Definition empty_list : FieldList := {| fields := []; fields_set := ∅ |}.

Definition push_back_field l (header field_offset : Z) : FieldList :=
  {| fields := fields l ++ [field_t header field_offset]; fields_set := {[(header, field_offset)]} ∪ fields_set l |}.

Definition push_back_constant l (hexstr : list Z) (bitwidth : Z) : option FieldList :=
  value ← ByteContainer.of_hex hexstr;
  Some {| fields := fields l ++ [constant_t value bitwidth]; fields_set := fields_set l |}.

Definition contains_field l (header field_offset : Z) : bool := bool_decide ((header, field_offset) ∈ fields_set l).

(** A visitor sees the members in their order. *)
Definition visit {A} (visitor : field_list_member_t → A → option A) l (a : A) : option A :=
  foldl (λ acc m, a ← acc; visitor m a) (Some a) (fields l).

Definition at_ (h o : Z) : Parser.field_t := {| Parser.f_header := h; Parser.f_offset := o |}.

(** [CopyFieldsVisitor], on the destination. *)
Definition copy_field `{Gmp} (src : Phv.PHV) m (dst : Phv.PHV) : option Phv.PHV :=
  match m with
  | field_t h o =>
      x ← Parser.get_field dst (at_ h o);
      y ← Parser.get_field src (at_ h o);
      x ← Fields.set x (Data.value (Fields.base y));
      Parser.set_field dst (at_ h o) x
  | constant_t _ _ => Some dst
  end.

Definition copy_fields_between_phvs `{Gmp} l (dst src : Phv.PHV) : option Phv.PHV := visit (copy_field src) l dst.

(** ** The set has the fields of the list *)
Inductive built : FieldList → Prop :=
| built_empty : built empty_list
| built_field l h o : built l → built (push_back_field l h o)
| built_constant l hex w l' : built l → push_back_constant l hex w = Some l' → built l'.

Theorem contains_field_spec l h o : built l → contains_field l h o = true ↔ field_t h o ∈ fields l.
Proof.
  intros Hb. unfold contains_field. rewrite bool_decide_eq_true. induction Hb as [|l h' o' _ IH|l hex w l' _ IH E]; cbn.
  - set_solver.
  - rewrite elem_of_app, list_elem_of_singleton, elem_of_union, elem_of_singleton, <- IH. naive_solver.
  - unfold push_back_constant in E. destruct (ByteContainer.of_hex hex); [|done]. cbn in E. injection E as <-. cbn.
    rewrite elem_of_app, list_elem_of_singleton, <- IH. naive_solver.
Qed.

(** ** Fields by their place *)
Section places.
Context `{GmpLaws}.
Implicit Types (phv dst src : Phv.PHV) (f g : Parser.field_t) (x y : Fields.Field) (v : Z).

#[global] Instance place_eq_dec : EqDecision Parser.field_t.
Proof. solve_decision. Defined.

Lemma set_field_some phv f x y : Parser.get_field phv f = Some x → ∃ phv', Parser.set_field phv f y = Some phv'.
Proof.
  unfold Parser.get_field, Parser.set_field. destruct (Phv.get_header phv _) as [h|] eqn:Eh; [|done]. cbn [mbind option_bind].
  intros Hx. apply vget_Some_range in Hx. rewrite vset_Some by done. cbn [mbind option_bind]. unfold Phv.set_header.
  rewrite vset_Some by (by eapply vget_Some_range). by eexists.
Qed.

Lemma get_set_field phv f y phv' g : Parser.set_field phv f y = Some phv' →
  Parser.get_field phv' g = if decide (g = f) then Some y else Parser.get_field phv g.
Proof.
  unfold Parser.set_field, Parser.get_field. destruct (Phv.get_header phv (Parser.f_header f)) as [h|] eqn:Eh; [|done]. cbn [mbind option_bind].
  destruct (vset (Headers.fields h) (Parser.f_offset f) y) as [fs|] eqn:Efs; [|done]. cbn [mbind option_bind].
  unfold Phv.set_header, Phv.get_header in *. destruct (vset (Phv.headers phv) _ _) as [hs|] eqn:Ehs; [|done]. cbn. intros [= <-]. cbn.
  rewrite (vget_vset _ _ _ _ _ Ehs). destruct f as [fh fo], g as [gh go]; cbn in *.
  destruct (decide (gh = fh)) as [->|Hne]; cbn [mbind option_bind].
  - rewrite Eh. cbn [mbind option_bind]. cbn. rewrite (vget_vset _ _ _ _ _ Efs). apply decide_ext. split; [by intros ->|congruence].
  - rewrite decide_False by congruence. done.
Qed.

(** Apart from their fields, headers stay as they are. *)
Definition same_but_fields (h h' : Headers.Header) : Prop := ∃ fs, h' = Headers.with_fields h fs.

Lemma set_field_headers phv f y phv' k h : Parser.set_field phv f y = Some phv' → Phv.get_header phv k = Some h →
  ∃ h', Phv.get_header phv' k = Some h' ∧ same_but_fields h h'.
Proof.
  unfold Parser.set_field. destruct (Phv.get_header phv (Parser.f_header f)) as [g|] eqn:Eg; [|done]. cbn [mbind option_bind].
  destruct (vset (Headers.fields g) _ y) as [fs|]; [|done]. cbn [mbind option_bind]. unfold Phv.set_header, Phv.get_header in *.
  destruct (vset (Phv.headers phv) _ _) as [hs|] eqn:Ehs; [|done]. cbn. intros [= <-] Hk. cbn. rewrite (vget_vset _ _ _ _ _ Ehs).
  case_decide as Hd; [subst k; rewrite Hk in Eg; injection Eg as ->; by eexists; split; [|exists fs]|].
  exists h. split; [done|]. exists (Headers.fields h). by destruct h.
Qed.

(** What a field is, but its value: it does not change. *)
Definition type_of x := (Fields.nbits x, Fields.min x, Fields.max x, Fields.mask x, Fields.is_signed x, Fields.is_saturating x, Data.arith x, Fields.VL x).

Lemma set_type x v x' : Fields.set x v = Some x' → type_of x' = type_of x.
Proof.
  unfold Fields.set, Fields.export_bytes. cbv zeta. intros E.
  match type of E with mbind _ ?m = _ => destruct m as [[bs w]|]; [|done] end. cbn in E. by injection E as <-.
Qed.

Lemma exported_type x x' v : type_of x' = type_of x → Fields.exported x' v = Fields.exported x v.
Proof. unfold type_of. intros [= E1 E2 E3 E4 E5 E6 _ _]. unfold Fields.exported. by rewrite E1, E2, E3, E4, E5, E6. Qed.

(** Setting a field that is well formed. *)
Lemma set_place phv f x v : Parser.get_field phv f = Some x → Fields.wf x → ∃ x' phv',
  Fields.set x v = Some x' ∧ Parser.set_field phv f x' = Some phv' ∧ Fields.wf x' ∧ Data.value x' = Fields.exported x v ∧
  type_of x' = type_of x ∧
  (∀ g, Parser.get_field phv' g = if decide (g = f) then Some x' else Parser.get_field phv g) ∧
  ∀ k h, Phv.get_header phv k = Some h → ∃ h', Phv.get_header phv' k = Some h' ∧ same_but_fields h h'.
Proof.
  intros Hx Hw. destruct (Fields.export_bytes_ok (Fields.with_value x v)) as (x' & E & Hw' & Hv & _); [by destruct Hw|].
  destruct (set_field_some phv f x x' Hx) as (phv' & Es). exists x', phv'. split; [done|]. split; [done|]. split; [done|].
  split; [done|]. split; [by apply (set_type x v)|]. split; [intros g; by apply get_set_field|].
  intros k h. by apply (set_field_headers phv f x').
Qed.

(** ** Copying *)

Definition listed l f : Prop := field_t (Parser.f_header f) (Parser.f_offset f) ∈ fields l.

(** Fields that are in both, and well formed in the destination. *)
Definition copyable l dst src : Prop := ∀ f, listed l f →
  (∃ x, Parser.get_field dst f = Some x ∧ Fields.wf x) ∧ is_Some (Parser.get_field src f).

(** The fields of the list get the values of the source, as their types hold
    them; every other field, and all else in the headers, stays. *)
Definition copied l dst src dst' : Prop :=
  (∀ f, ¬ listed l f → Parser.get_field dst' f = Parser.get_field dst f) ∧
  (∀ f x y, listed l f → Parser.get_field dst f = Some x → Parser.get_field src f = Some y →
    ∃ x', Parser.get_field dst' f = Some x' ∧ Fields.wf x' ∧ type_of x' = type_of x ∧ Data.value x' = Fields.exported x (Data.value y)) ∧
  ∀ k h, Phv.get_header dst k = Some h → ∃ h', Phv.get_header dst' k = Some h' ∧ same_but_fields h h'.

Lemma same_but_trans h1 h2 h3 : same_but_fields h1 h2 → same_but_fields h2 h3 → same_but_fields h1 h3.
Proof. intros [fs ->] [fs' ->]. by exists fs'. Qed.

Lemma listed_snoc l ms m f : fields l = ms ++ [m] →
  listed l f ↔ listed {| fields := ms; fields_set := ∅ |} f ∨ m = field_t (Parser.f_header f) (Parser.f_offset f).
Proof. intros E. unfold listed. rewrite E, elem_of_app, list_elem_of_singleton. cbn. naive_solver. Qed.

(** Copying succeeds, whatever the list, and does what it says. *)
Theorem copy_fields_spec l dst src : copyable l dst src → ∃ dst', copy_fields_between_phvs l dst src = Some dst' ∧ copied l dst src dst'.
Proof.
  destruct l as [ms s]. revert s. induction ms as [|m ms IH] using rev_ind; intros s Hc.
  { exists dst. split; [done|]. split; [done|]. split; [intros f x y Hl; by apply not_elem_of_nil in Hl|].
    intros k h Hh. exists h. split; [done|]. exists (Headers.fields h). by destruct h. }
  pose proof (λ f, listed_snoc {| fields := ms ++ [m]; fields_set := s |} ms m f eq_refl) as Hl.
  destruct (IH ∅) as (d1 & E1 & H1 & H2 & H3); [intros f Hf; apply Hc, Hl; by left|].
  unfold copy_fields_between_phvs, visit in *. cbn [fields] in *. rewrite foldl_app, E1. cbn [foldl mbind option_bind].
  destruct m as [h o|]; cbn [copy_field].
  2: { exists d1. split; [done|]. split; [|split; [|done]].
       - intros f Hf. apply H1. intros Hin. apply Hf, Hl. by left.
       - intros f x y [Hf|Hf]%Hl; [|done]. by apply H2. }
  destruct (Hc (at_ h o)) as [(x & Hx & Hw) [y Hy]]; [apply Hl; by right|].
  assert (∃ x1, Parser.get_field d1 (at_ h o) = Some x1 ∧ Fields.wf x1 ∧ type_of x1 = type_of x) as (x1 & Hx1 & Hw1 & Ht1).
  { destruct (decide (field_t h o ∈ ms)) as [Hin|Hin].
    - destruct (H2 (at_ h o) x y Hin Hx Hy) as (x1 & ? & ? & ? & _). by exists x1.
    - exists x. split; [|done]. by rewrite H1. }
  destruct (set_place d1 (at_ h o) x1 (Data.value (Fields.base y)) Hx1 Hw1) as (x2 & d2 & Ex & Ed & Hw2 & Hv2 & Ht2 & Hg & Hh).
  rewrite Hx1, Hy. msimpl. rewrite Ex. msimpl. exists d2. split; [done|]. split; [|split].
  - intros f Hf. rewrite Hg, decide_False; [apply H1|]; intros Hin; apply Hf, Hl; [by left|right; by subst f].
  - intros f x' y' Hf Hx' Hy'. rewrite Hg. case_decide as Hd.
    + subst f. rewrite Hx in Hx'. injection Hx' as <-. rewrite Hy in Hy'. injection Hy' as <-. exists x2. split; [done|]. split; [done|].
      split; [congruence|]. by rewrite Hv2, (exported_type x x1).
    + apply Hl in Hf as [Hf|Hf]; [by apply H2|]. destruct Hd. destruct f. cbn in Hf. by injection Hf as -> ->.
  - intros k hd Hk. destruct (H3 k hd Hk) as (h1 & Hk1 & Hs1). destruct (Hh k h1 Hk1) as (h2 & Hk2 & Hs2). exists h2. split; [done|].
    by eapply same_but_trans.
Qed.
End places.
End FieldLists.
