(* ===== verification/Primitives.v ===== *)
(** * The primitives of the simple switch (targets/simple_switch/primitives.cpp)

    What an action can do besides the primitives of the library. A primitive
    works on the headers and registers of [Actions.State] and on the rest of the
    packet, the meters and the counters, which are its target. Primitives are
    known by their place in [registered], the order in which they are registered.
    Behaviour that is not defined (a register array, meter or counter read out
    of range, a division by zero, an empty interval) is [None], like a failed
    assertion. *)

From stdpp Require Import gmap strings.
From S2P Require Import Prelude ByteContainer Data Fields Headers Phv PhvFactory Packets Crc Cksum Calculations.
From S2P Require Import Expressions ErrorCodes Parser Counters Meters Actions FieldLists.
Import (coercions) Fields.

Module Primitives.
Import Expressions.

(** What a primitive sees besides headers and registers. The parsed headers in
    [packet] are not looked at; the times of the clock of the meters are taken
    one after the other; [engine] is the state of the random numbers. *)
Record Target := {
  packet : Packets.Packet;
  meter_arrays : Z → Meters.MeterArray;
  counter_arrays : Z → Counters.CounterArray;
  micros : nat → Z;
  readings : nat;
  engine : Z;
}.

Definition with_packet (t : Target) (p : Packets.Packet) : Target :=
  {| packet := p; meter_arrays := meter_arrays t; counter_arrays := counter_arrays t; micros := micros t; readings := readings t; engine := engine t |}.

Inductive Primitive :=
| modify_field | modify_field_rng_uniform | add_to_field | subtract_from_field | add | subtract
| bit_xor | bit_or | bit_and | shift_left | shift_right | drop | exit_ | generate_digest
| add_header | add_header_fast | remove_header | copy_header
| clone_ingress_pkt_to_egress | clone_egress_pkt_to_egress | resubmit | recirculate
| modify_field_with_hash_based_offset | no_op | execute_meter | count | register_read | register_write | truncate_.

(** [REGISTER_PRIMITIVE], in the order of the file. *)
Definition registered : list (string * Primitive) :=
  [("modify_field"%string, modify_field); ("modify_field_rng_uniform"%string, modify_field_rng_uniform); ("add_to_field"%string, add_to_field);
   ("subtract_from_field"%string, subtract_from_field); ("add"%string, add); ("subtract"%string, subtract); ("bit_xor"%string, bit_xor);
   ("bit_or"%string, bit_or); ("bit_and"%string, bit_and); ("shift_left"%string, shift_left); ("shift_right"%string, shift_right);
   ("drop"%string, drop); ("exit"%string, exit_); ("generate_digest"%string, generate_digest); ("add_header"%string, add_header);
   ("add_header_fast"%string, add_header_fast); ("remove_header"%string, remove_header); ("copy_header"%string, copy_header);
   ("clone_ingress_pkt_to_egress"%string, clone_ingress_pkt_to_egress); ("clone_egress_pkt_to_egress"%string, clone_egress_pkt_to_egress);
   ("resubmit"%string, resubmit); ("recirculate"%string, recirculate);
   ("modify_field_with_hash_based_offset"%string, modify_field_with_hash_based_offset); ("no_op"%string, no_op);
   ("execute_meter"%string, execute_meter); ("count"%string, count); ("register_read"%string, register_read);
   ("register_write"%string, register_write); ("truncate"%string, truncate_)].

(** The number of arguments of [operator()]. *)
Definition get_num_params (p : Primitive) : Z :=
  match p with
  | drop | exit_ | no_op => 0
  | add_header | add_header_fast | remove_header | resubmit | recirculate | truncate_ => 1
  | modify_field | add_to_field | subtract_from_field | generate_digest | copy_header
  | clone_ingress_pkt_to_egress | clone_egress_pkt_to_egress | count => 2
  | modify_field_rng_uniform | add | subtract | bit_xor | bit_or | bit_and | shift_left | shift_right
  | execute_meter | register_read | register_write => 3
  | modify_field_with_hash_based_offset => 4
  end.

Section execute.
Context `{!Gmp, !GmpSize, !GmpInt}.
Abbreviation State := (Actions.State (X := Target)).
(** The fields by their names, the calculations, the hash function, a draw from
    an interval with the next state of the engine, and what a register of a
    packet holds that was never written. *)
Context (fields_map : gmap string Parser.field_t) (calculations : Z → option Calculations.Calculation) (XXH64 : list Z → Z).
Context (uniform : Z → Z → Z → Z * Z) (unwritten : Z).
Implicit Types (st : State) (f : Actions.ActionFn) (ad : Actions.ActionData) (args : list Actions.ActionParam).

(** *** Fields by name, as [PHV::get_field] and [has_field] *)
Definition has_field (name : string) : bool := bool_decide (is_Some (fields_map !! name)).
Definition get_field (phv : Phv.PHV) (name : string) : option Fields.Field := f ← fields_map !! name; Parser.get_field phv f.
Definition set_field (phv : Phv.PHV) (name : string) (v : Z) : option Phv.PHV :=
  f ← fields_map !! name; x ← Parser.get_field phv f; x ← Fields.set x v; Parser.set_field phv f x.

Definition set_named st (name : string) (v : Z) : option State :=
  phv ← set_field (Actions.phv st) name v; Some (Actions.with_phv st phv).

Definition with_target st (t : Target) : State :=
  {| Actions.phv := Actions.phv st; Actions.arrays := Actions.arrays st; Actions.data_temps := Actions.data_temps st;
     Actions.jump_if_zero_offset := Actions.jump_if_zero_offset st; Actions.jump_offset := Actions.jump_offset st; Actions.target := t |}.

(** *** Arguments *)
Definition data_arg st ad args (i : nat) : option DataRef := p ← args !! i; Actions.to_data st ad p.
Definition const_arg f st ad args (i : nat) : option (State * DataRef) := p ← args !! i; Actions.to_const_data f st ad p.
Definition field_arg st args (i : nat) : option DataRef :=
  match args !! i with Some (Actions.FIELD h off) => Actions.field_ref st h off | _ => None end.
Definition header_arg args (i : nat) : option Z := match args !! i with Some (Actions.HEADER h) => Some h | _ => None end.
Definition register_array_arg args (i : nat) : option Z := match args !! i with Some (Actions.REGISTER_ARRAY a) => Some a | _ => None end.

(** [dst.op(d1, d2)] *)
Definition operation (op : Data.Data → Data.Data → option Z) f ad st (dst d1 d2 : DataRef) : option State :=
  a ← Actions.read f st ad d1; b ← Actions.read f st ad d2; v ← op a b; Actions.write st dst v.

Definition ternary (op : Data.Data → Data.Data → option Z) f ad args st : option State :=
  dst ← data_arg st ad args 0;
  '(st, d1) ← const_arg f st ad args 1; '(st, d2) ← const_arg f st ad args 2;
  operation op f ad st dst d1 d2.

(** [f.op(f, d)] *)
Definition in_place (op : Data.Data → Data.Data → option Z) f ad args st : option State :=
  dst ← field_arg st args 0; '(st, d) ← const_arg f st ad args 1; operation op f ad st dst dst d.

(** *** The length of the packet, in its register 0 *)
Definition read_register (p : Packets.Packet) (idx : Z) : option Z := r ← vget (Packets.registers p) idx; Some (default unwritten r).

Definition add_length st (n : Z) : option State :=
  let t := Actions.target st in
  len ← read_register (packet t) 0;
  p ← Packets.set_register (packet t) 0 (u64 (len + n));
  Some (with_target st (with_packet t p)).

Definition exec_add_header st (hdr : Z) : option State :=
  h ← Phv.get_header (Actions.phv st) hdr;
  if Headers.is_valid h then Some st else
  h ← Headers.reset h;
  phv ← Phv.set_header (Actions.phv st) hdr h;
  phv ← Phv.mark_valid phv hdr;
  h ← Phv.get_header phv hdr;
  add_length (Actions.with_phv st phv) (Headers.nbytes_packet h).

Definition exec_remove_header st (hdr : Z) : option State :=
  h ← Phv.get_header (Actions.phv st) hdr;
  if negb (Headers.is_valid h) then Some st else
  st ← add_length st (- Headers.nbytes_packet h);
  phv ← Phv.mark_invalid (Actions.phv st) hdr;
  Some (Actions.with_phv st phv).

(** *** What becomes of the packet *)

(** The mirror session in the low half of the field, the field list in the high
    half; the arguments may be the field itself. *)
Definition exec_clone f ad args st : option State :=
  '(st, clone_spec) ← const_arg f st ad args 0; '(st, field_list_id) ← const_arg f st ad args 1;
  id ← Actions.read f st ad field_list_id;
  if negb (Data.arith id) then None else
  st ← set_named st "standard_metadata.clone_spec" (Z.shiftl (Data.value id) 16);
  x ← get_field (Actions.phv st) "standard_metadata.clone_spec";
  spec ← Actions.read f st ad clone_spec;
  v ← Data.add (Fields.base x) spec;
  set_named st "standard_metadata.clone_spec" v.

Definition exec_drop st : option State :=
  st ← set_named st "standard_metadata.egress_spec" 511;
  if has_field "intrinsic_metadata.mcast_grp" then set_named st "intrinsic_metadata.mcast_grp" 0 else Some st.

Definition exec_flag (name : string) f ad args st : option State :=
  '(st, field_list_id) ← const_arg f st ad args 0;
  if has_field name then d ← Actions.read f st ad field_list_id; set_named st name (Data.value d) else Some st.

Definition exec_digest f ad args st : option State :=
  '(st, _) ← const_arg f st ad args 0; '(st, learn_id) ← const_arg f st ad args 1;
  d ← Actions.read f st ad learn_id;
  set_named st "intrinsic_metadata.lf_field_list" (Data.value d).

(** *** The rest *)
Definition exec_rng f ad args st : option State :=
  dst ← data_arg st ad args 0;
  '(st, b) ← const_arg f st ad args 1; '(st, e) ← const_arg f st ad args 2;
  b ← Actions.read f st ad b; b ← get_size b;
  e ← Actions.read f st ad e; e ← get_size e;
  if negb (b <=? e) then None else
  let t := Actions.target st in
  let '(v, s) := uniform (engine t) b e in
  let t := {| packet := packet t; meter_arrays := meter_arrays t; counter_arrays := counter_arrays t; micros := micros t; readings := readings t; engine := s |} in
  Actions.write (with_target st t) dst v.

(** The data of the packet, which may be truncated. *)
Definition packet_data (p : Packets.Packet) : list Z :=
  take (Z.to_nat (Packets.get_data_size p)) (PacketBuffer.start (Packets.buffer p)).

Definition exec_hash f ad args st : option State :=
  dst ← data_arg st ad args 0;
  '(st, base) ← const_arg f st ad args 1;
  hash ← (match args !! 2%nat with Some (Actions.CALCULATION c) => calculations c | _ => None end);
  '(st, size) ← const_arg f st ad args 3;
  h ← Calculations.calculation_output XXH64 hash (Actions.phv st) (packet_data (packet (Actions.target st)));
  size ← Actions.read f st ad size; size ← get_size size;
  base ← Actions.read f st ad base; base ← get_size base;
  if size =? 0 then None else Actions.write st dst (u64 (h mod size + base)).

Definition exec_meter f ad args st : option State :=
  a ← (match args !! 0%nat with Some (Actions.METER_ARRAY a) => Some a | _ => None end);
  '(st, idx) ← const_arg f st ad args 1; dst ← field_arg st args 2;
  idx ← Actions.read f st ad idx; idx ← Data.get_uint idx;
  let t := Actions.target st in
  '(m, color) ← Meters.execute_meter (meter_arrays t a) idx (micros t (readings t)) (Packets.ingress_length (packet t)) 0;
  let t := {| packet := packet t; meter_arrays := (λ b, if b =? a then m else meter_arrays t b); counter_arrays := counter_arrays t;
              micros := micros t; readings := S (readings t); engine := engine t |} in
  Actions.write (with_target st t) dst color.

Definition exec_count f ad args st : option State :=
  a ← (match args !! 0%nat with Some (Actions.COUNTER_ARRAY a) => Some a | _ => None end);
  '(st, idx) ← const_arg f st ad args 1;
  idx ← Actions.read f st ad idx; idx ← Data.get_uint idx;
  let t := Actions.target st in
  c ← vupd (counter_arrays t a) idx (λ c, Counters.increment_counter c (Packets.ingress_length (packet t)));
  Some (with_target st {| packet := packet t; meter_arrays := meter_arrays t; counter_arrays := (λ b, if b =? a then c else counter_arrays t b);
                          micros := micros t; readings := readings t; engine := engine t |}).

Definition exec_register_read f ad args st : option State :=
  dst ← field_arg st args 0; a ← register_array_arg args 1; '(st, idx) ← const_arg f st ad args 2;
  idx ← Actions.read f st ad idx; idx ← Data.get_uint idx;
  d ← Registers.at_ (Actions.arrays st a) idx;
  Actions.write st dst (Data.value d).

Definition exec_register_write f ad args st : option State :=
  a ← register_array_arg args 0; '(st, idx) ← const_arg f st ad args 1; '(st, src) ← const_arg f st ad args 2;
  idx ← Actions.read f st ad idx; idx ← Data.get_uint idx;
  _ ← Registers.at_ (Actions.arrays st a) idx;
  src ← Actions.read f st ad src;
  Actions.write st (RefRegister a idx) (Data.value src).

Definition exec_truncate f ad args st : option State :=
  '(st, n) ← const_arg f st ad args 0;
  n ← Actions.read f st ad n; n ← get_size n;
  let t := Actions.target st in
  Some (with_target st (with_packet t (Packets.truncate (packet t) n))).

Definition exec (p : Primitive) f ad args st : option State :=
  match p with
  | modify_field => Actions.exec_assign f ad args st
  | modify_field_rng_uniform => exec_rng f ad args st
  | add_to_field => in_place Data.add f ad args st
  | subtract_from_field => in_place Data.sub f ad args st
  | add => ternary Data.add f ad args st
  | subtract => ternary Data.sub f ad args st
  | bit_xor => ternary Data.bit_xor f ad args st
  | bit_or => ternary Data.bit_or f ad args st
  | bit_and => ternary Data.bit_and f ad args st
  | shift_left => ternary Data.shift_left f ad args st
  | shift_right => ternary Data.shift_right f ad args st
  | drop => exec_drop st
  | exit_ => let t := Actions.target st in Some (with_target st (with_packet t (Packets.mark_for_exit (packet t))))
  | generate_digest => exec_digest f ad args st
  | add_header => hdr ← header_arg args 0; exec_add_header st hdr
  | add_header_fast => hdr ← header_arg args 0; phv ← Phv.mark_valid (Actions.phv st) hdr; Some (Actions.with_phv st phv)
  | remove_header => hdr ← header_arg args 0; exec_remove_header st hdr
  | copy_header =>
      dst ← header_arg args 0; src ← header_arg args 1;
      phv ← Actions.assign_header_ dst src (Actions.phv st); Some (Actions.with_phv st phv)
  | clone_ingress_pkt_to_egress | clone_egress_pkt_to_egress => exec_clone f ad args st
  | resubmit => exec_flag "intrinsic_metadata.resubmit_flag" f ad args st
  | recirculate => exec_flag "intrinsic_metadata.recirculate_flag" f ad args st
  | modify_field_with_hash_based_offset => exec_hash f ad args st
  | no_op => Some st
  | execute_meter => exec_meter f ad args st
  | count => exec_count f ad args st
  | register_read => exec_register_read f ad args st
  | register_write => exec_register_write f ad args st
  | truncate_ => exec_truncate f ad args st
  end.

(** As the arguments of [Actions.v]. *)
Definition target_execute (i : Z) f ad args st : option State := '(_, p) ← vget registered i; exec p f ad args st.
Definition target_num_params (i : Z) : Z := match vget registered i with Some (_, p) => get_num_params p | None => 0 end.
Definition target_jump (_ : Z) st (current_offset : Z) : Z := u64 (current_offset + 1).

(** The primitive that a name stands for. *)
Definition get_primitive (name : string) : option Z :=
  Z.of_nat <$> (fst <$> list_find (λ p, p.1 = name) registered).
End execute.
End Primitives.
