(* ===== verification/SimpleSwitch.v ===== *)
(** * The simple switch (targets/simple_switch/simple_switch.cpp, simple_switch.h)

    The threads of the target: packets come into the input buffer, the ingress
    thread sends them to the logical queues of ports, the egress threads to the
    output buffer, and the transmit thread out. A turn of a thread, from one
    packet that it takes to the next, is one step here. The other threads work on
    other packets; what they share with it is the pools and counters of
    [Packets.v], the queues and the tables, each of whose operations is atomic.
    A push into the input or the output buffer waits for room ([Queue.v]); the
    step is what happens when there is room. The objects that the JSON file
    describes are arguments: the parser, the pipelines and the deparser (given by
    [Stages] below), the field lists, and the names of fields. What is logged is
    left out, and so is swapping: it is an argument of [receive_] whether one
    happened. *)

From stdpp Require Import gmap strings.
From S2P Require Import Prelude HandleMgr Data Fields Headers Phv PhvFactory Packets Counters Expressions ErrorCodes.
From S2P Require Import Parser Crc Cksum Calculations Checksums Actions Ras Meters ControlFlow SimplePre.
From S2P Require Import Queueing Learning FieldLists Primitives.

Import (coercions) Fields.

(** GMP's conversion to [long]. *)
Class GmpLong := convert_to_long : Z → Z.

Module SimpleSwitch.
Import Packets.

Definition PKT_INSTANCE_TYPE_NORMAL : Z := 0.
Definition PKT_INSTANCE_TYPE_INGRESS_CLONE : Z := 1.
Definition PKT_INSTANCE_TYPE_EGRESS_CLONE : Z := 2.
Definition PKT_INSTANCE_TYPE_RECIRC : Z := 4.
Definition PKT_INSTANCE_TYPE_REPLICATION : Z := 5.
Definition PKT_INSTANCE_TYPE_RESUBMIT : Z := 6.

Definition nb_egress_threads : Z := 4.
Definition PACKET_LENGTH_REG_IDX : Z := 0.

(** [EgressThreadMapper] *)
Definition egress_thread_mapper (egress_port : Z) : Z := egress_port mod nb_egress_threads.

Record Switch (D J : Type) := {
  max_port : Z;
  world : World;                                 (** pools and copy ids *)
  device : D;                                    (** tables, registers, counters, meters *)
  pre : SimplePre.Pre J;
  learn_engine : gmap Z Learning.LearnList;
  mirroring_map : gmap Z Z;
  input_buffer : list Packet;                    (** the front first *)
  egress_buffers : QueueingLogicRL.state Packet;
  output_buffer : list Packet;
  sent : list (Z * list Z);                      (** what was transmitted, the port and the data, the last first *)
  with_queueing_metadata : bool;
  pkt_id : Z;
  start : Z;                                     (** when the switch was started *)
  clock : nat → Z;                               (** the times that are read, in nanoseconds *)
  readings : nat;
}.
Arguments max_port {D J} _.
Arguments world {D J} _.
Arguments device {D J} _.
Arguments pre {D J} _.
Arguments learn_engine {D J} _.
Arguments mirroring_map {D J} _.
Arguments input_buffer {D J} _.
Arguments egress_buffers {D J} _.
Arguments output_buffer {D J} _.
Arguments sent {D J} _.
Arguments with_queueing_metadata {D J} _.
Arguments pkt_id {D J} _.
Arguments start {D J} _.
Arguments clock {D J} _.
Arguments readings {D J} _.

Section switch.
Context {D J : Type} `{!Judy1 J, !Gmp, !GmpInt, !GmpLong}.
Context (alloc : Z → list Z) (XXH64 : list Z → Z → Z) (invalid_code unwritten : Z).
Context (fields_map : gmap string Parser.field_t) (field_lists : Z → option FieldLists.FieldList).
Context (field_exists : string → string → bool).
(** What the stages do to a packet. *)
Context (parse ingress_mau egress_mau deparse : Packet → D → option (Packet * D)).
Implicit Types (s : Switch D J) (packet : Packet) (phv : Phv.PHV) (name : string).

Abbreviation has_field := (Primitives.has_field fields_map).
Abbreviation get_field := (Primitives.get_field fields_map).
Abbreviation set_field := (Primitives.set_field fields_map).

(** *** Parts of the state *)
Definition update s (w : World) (d : D) (learn : gmap Z Learning.LearnList) (input : list Packet) (egress : QueueingLogicRL.state Packet)
    (output : list Packet) : Switch D J :=
  {| max_port := max_port s; world := w; device := d; pre := pre s; learn_engine := learn; mirroring_map := mirroring_map s;
     input_buffer := input; egress_buffers := egress; output_buffer := output; sent := sent s;
     with_queueing_metadata := with_queueing_metadata s; pkt_id := pkt_id s; start := start s; clock := clock s; readings := readings s |}.
Definition with_world s w := update s w (device s) (learn_engine s) (input_buffer s) (egress_buffers s) (output_buffer s).
Definition with_device s d := update s (world s) d (learn_engine s) (input_buffer s) (egress_buffers s) (output_buffer s).
Definition with_learn s e := update s (world s) (device s) e (input_buffer s) (egress_buffers s) (output_buffer s).
Definition with_input s b := update s (world s) (device s) (learn_engine s) b (egress_buffers s) (output_buffer s).
Definition with_egress s q := update s (world s) (device s) (learn_engine s) (input_buffer s) q (output_buffer s).
Definition with_output s b := update s (world s) (device s) (learn_engine s) (input_buffer s) (egress_buffers s) b.

Definition with_config s (m : gmap Z Z) (p : SimplePre.Pre J) (b : bool) : Switch D J :=
  {| max_port := max_port s; world := world s; device := device s; pre := p; learn_engine := learn_engine s; mirroring_map := m;
     input_buffer := input_buffer s; egress_buffers := egress_buffers s; output_buffer := output_buffer s; sent := sent s;
     with_queueing_metadata := b; pkt_id := pkt_id s; start := start s; clock := clock s; readings := readings s |}.

(** A reading of the clock. *)
Definition tick s : Switch D J * Z :=
  ({| max_port := max_port s; world := world s; device := device s; pre := pre s; learn_engine := learn_engine s; mirroring_map := mirroring_map s;
      input_buffer := input_buffer s; egress_buffers := egress_buffers s; output_buffer := output_buffer s; sent := sent s;
      with_queueing_metadata := with_queueing_metadata s; pkt_id := pkt_id s; start := start s; clock := clock s; readings := S (readings s) |},
   clock s (readings s)).

(** In microseconds. *)
Definition get_ts s : Switch D J * Z := let '(s, now) := tick s in (s, Z.quot (now - start s) 1000).

Definition destroy s packet : option (Switch D J) := w ← Packets.destroy (world s) packet []; Some (with_world s w).

(** A change of the parsed headers of a packet. *)
Definition on_phv packet (f : Phv.PHV → option Phv.PHV) : option Packet :=
  phv ← Packets.phv packet; phv ← f phv; Some (set_phv packet (Some phv)).
Definition read {A} (conv : Data.Data → option A) packet name : option A :=
  phv ← Packets.phv packet; x ← get_field phv name; conv (Fields.base x).
Definition get_long (d : Data.Data) : option Z := if Data.arith d then Some (convert_to_long (Data.value d)) else None.
Definition set packet name (v : Z) : option Packet := on_phv packet (λ phv, set_field phv name v).
(** Of a field that the program need not have. *)
Definition read_if {A} (conv : Data.Data → option A) packet name (none : A) : option A :=
  if has_field name then read conv packet name else Some none.

(** ** Operations of the runtime *)

(** Once the fields were all there, they are used, even if a new configuration has none. *)
Definition check_queueing_metadata s : Switch D J :=
  let enq_timestamp_e := field_exists "queueing_metadata" "enq_timestamp" in
  let enq_qdepth_e := field_exists "queueing_metadata" "enq_qdepth" in
  let deq_timedelta_e := field_exists "queueing_metadata" "deq_timedelta" in
  let deq_qdepth_e := field_exists "queueing_metadata" "deq_qdepth" in
  if enq_timestamp_e && enq_qdepth_e && deq_timedelta_e && deq_qdepth_e then with_config s (mirroring_map s) (pre s) true else s.

Definition mirroring_mapping_add s (mirror_id egress_port : Z) : Switch D J :=
  with_config s (<[mirror_id := egress_port]> (mirroring_map s)) (pre s) (with_queueing_metadata s).
(** With how many were erased. *)
Definition mirroring_mapping_delete s (mirror_id : Z) : Switch D J * Z :=
  (with_config s (delete mirror_id (mirroring_map s)) (pre s) (with_queueing_metadata s),
   if decide (is_Some (mirroring_map s !! mirror_id)) then 1 else 0).
Definition get_mirroring_mapping s (mirror_id : Z) : Z := default (-1) (mirroring_map s !! mirror_id).

Definition set_egress_queue_depth s (port depth_pkts : Z) : option (Switch D J) :=
  q ← QueueingLogicRL.set_capacity egress_thread_mapper (egress_buffers s) (u64 port) depth_pkts; Some (with_egress s q).
Definition set_all_egress_queue_depths s (depth_pkts : Z) : option (Switch D J) :=
  for_range 0 (max_port s) (λ i s, set_egress_queue_depth s i depth_pkts) s.
Definition set_egress_queue_rate s (port rate_pps : Z) : option (Switch D J) :=
  q ← QueueingLogicRL.set_rate egress_thread_mapper (egress_buffers s) (u64 port) rate_pps; Some (with_egress s q).
Definition set_all_egress_queue_rates s (rate_pps : Z) : option (Switch D J) :=
  for_range 0 (max_port s) (λ i s, set_egress_queue_rate s i rate_pps) s.

Definition reset_target_state_ s : Switch D J := with_config s (mirroring_map s) (SimplePre.reset_state (pre s)) (with_queueing_metadata s).
(** ** Receiving *)
Definition new_switch (max_port : Z) (w : World) (d : D) (clock : nat → Z) : Switch D J :=
  {| max_port := max_port; world := w; device := d; pre := SimplePre.new; learn_engine := ∅; mirroring_map := ∅; input_buffer := [];
     egress_buffers := QueueingLogicRL.new (u64 max_port) nb_egress_threads 64 (clock 0%nat); output_buffer := []; sent := [];
     with_queueing_metadata := false; pkt_id := 0; start := clock 1%nat; clock := clock; readings := 2 |}.

(** With [static int pkt_id]. *)
Definition next_pkt_id s : Switch D J :=
  {| max_port := max_port s; world := world s; device := device s; pre := pre s; learn_engine := learn_engine s; mirroring_map := mirroring_map s;
     input_buffer := input_buffer s; egress_buffers := egress_buffers s; output_buffer := output_buffer s; sent := sent s;
     with_queueing_metadata := with_queueing_metadata s; pkt_id := pkt_id s + 1; start := start s; clock := clock s; readings := readings s |}.

Definition push_input s packet : Switch D J := with_input s (packet :: input_buffer s).

Definition receive_ s (swapped : bool) (port_num : Z) (buffer : list Z) : option (Switch D J) :=
  let s := if swapped then check_queueing_metadata s else s in
  let len := Z.of_nat (length buffer) in
  b ← PacketBuffer.of_data alloc (len + 512) buffer;
  let '(s, now) := tick s in
  '(w, packet) ← Packets.new XXH64 invalid_code (world s) now 0 port_num (u64 (pkt_id s)) 0 len b;
  let s := next_pkt_id (with_world s w) in
  packet ← on_phv packet Phv.reset_metadata;
  packet ← set packet "standard_metadata.ingress_port" port_num;
  packet ← Packets.set_register packet PACKET_LENGTH_REG_IDX len;
  packet ← set packet "standard_metadata.packet_length" len;
  packet ← set packet "standard_metadata.instance_type" PKT_INSTANCE_TYPE_NORMAL;
  '(s, packet) ←
    (if has_field "intrinsic_metadata.ingress_global_timestamp" then
       let '(s, ts) := get_ts s in
       packet ← set packet "intrinsic_metadata.ingress_global_timestamp" ts; Some (s, packet)
     else Some (s, packet));
  Some (push_input s packet).

(** ** To the queue of a port *)

(** A packet that a full queue refuses is destroyed by the caller, when it
    leaves the scope. *)
Definition enqueue s (egress_port : Z) packet : option (Switch D J) :=
  let packet := set_egress_port packet egress_port in
  let q := u64 egress_port in
  '(s, packet) ←
    (if with_queueing_metadata s then
       let '(s, ts) := get_ts s in
       packet ← set packet "queueing_metadata.enq_timestamp" ts;
       depth ← QueueingLogicRL.get_size egress_thread_mapper (egress_buffers s) q;
       packet ← set packet "queueing_metadata.enq_qdepth" depth;
       Some (s, packet)
     else Some (s, packet));
  let '(s, now) := tick s in
  '(buffers, pushed) ← QueueingLogicRL.push_front egress_thread_mapper (egress_buffers s) q packet now;
  let s := with_egress s buffers in
  if (pushed : bool) then Some s else destroy s packet.

(** Headers are not copied, metadata only when it is in the field list. *)
Definition copy_ingress_pkt s packet (copy_type field_list_id : Z) : option (Switch D J * Packet) :=
  let '(s, now) := tick s in
  '(w, packet_copy) ← clone_no_phv alloc XXH64 invalid_code (world s) now packet;
  let s := with_world s w in
  packet_copy ← on_phv packet_copy Phv.reset_metadata;
  field_list ← field_lists field_list_id;
  phv ← Packets.phv packet;
  packet_copy ← on_phv packet_copy (λ copy, FieldLists.copy_fields_between_phvs field_list copy phv);
  packet_copy ← set packet_copy "standard_metadata.instance_type" copy_type;
  Some (s, packet_copy).

(** What the field [clone_spec] says. *)
Definition mirror_id (clone_spec : Z) : Z := Z.land clone_spec 0xFFFF.
Definition field_list_id (clone_spec : Z) : Z := Z.shiftr clone_spec 16.

(** ** Ingress *)

Definition parse_on s packet : option (Switch D J * Packet) := '(packet, d) ← parse packet (device s); Some (with_device s d, packet).
Definition ingress_on s packet : option (Switch D J * Packet) := '(packet, d) ← ingress_mau packet (device s); Some (with_device s d, packet).

Definition ingress_cloning s packet (packet_in_state : PacketBuffer.state_t) (clone_spec : Z) : option (Switch D J * Packet) :=
  if clone_spec =? 0 then Some (s, packet) else
  let egress_port := get_mirroring_mapping s (mirror_id clone_spec) in
  packet ← set packet "standard_metadata.clone_spec" 0;
  if egress_port <? 0 then Some (s, packet) else
  let packet_out_state := save_buffer_state packet in
  let packet := restore_buffer_state packet packet_in_state in
  '(s, packet_copy) ← copy_ingress_pkt s packet PKT_INSTANCE_TYPE_INGRESS_CLONE (field_list_id clone_spec);
  '(s, packet_copy) ← parse_on s packet_copy;
  s ← enqueue s egress_port packet_copy;
  Some (s, restore_buffer_state packet packet_out_state).

Definition learning s packet (learn_id : Z) : option (Switch D J) :=
  if 0 <? learn_id then
    phv ← Packets.phv packet;
    let '(s, now) := tick s in
    e ← Learning.learn (learn_engine s) learn_id phv now; Some (with_learn s e)
  else Some s.

(** Back to the input, as it came; the original is left. *)
Definition resubmitting s packet (packet_in_state : PacketBuffer.state_t) (flag : Z) : option (Switch D J) :=
  let packet := restore_buffer_state packet packet_in_state in
  packet ← set packet "intrinsic_metadata.resubmit_flag" 0;
  '(s, packet_copy) ← copy_ingress_pkt s packet PKT_INSTANCE_TYPE_RESUBMIT flag;
  destroy (push_input s packet_copy) packet.

(** The loop over the copies of a multicast group. *)
Fixpoint replicating s packet (packet_size : Z) (outs : list SimplePre.McOut) : option (Switch D J * Packet) :=
  match outs with
  | [] => Some (s, packet)
  | out :: outs =>
      packet ← set packet "intrinsic_metadata.egress_rid" (SimplePre.rid out);
      packet ← set packet "standard_metadata.instance_type" PKT_INSTANCE_TYPE_REPLICATION;
      let '(s, now) := tick s in
      '(w, packet_copy) ← clone_with_phv alloc XXH64 invalid_code (world s) now packet;
      packet_copy ← Packets.set_register packet_copy PACKET_LENGTH_REG_IDX packet_size;
      s ← enqueue (with_world s w) (SimplePre.egress_port out) packet_copy;
      replicating s packet packet_size outs
  end.

Definition multicast s packet (mgid instance_type : Z) : option (Switch D J) :=
  phv ← Packets.phv packet; _ ← get_field phv "intrinsic_metadata.egress_rid";
  pre_out ← SimplePre.replicate (pre s) mgid;
  packet_size ← Primitives.read_register unwritten packet PACKET_LENGTH_REG_IDX;
  '(s, packet) ← replicating s packet packet_size pre_out;
  packet ← set packet "standard_metadata.instance_type" instance_type;
  destroy s packet.

(** The rest of a turn once a packet went through the ingress pipeline. *)
Definition after_ingress s packet (packet_in_state : PacketBuffer.state_t) : option (Switch D J) :=
  let packet := reset_exit packet in
  egress_spec ← read Parser.get_int packet "standard_metadata.egress_spec";
  clone_spec ← read Data.get_uint packet "standard_metadata.clone_spec";
  learn_id ← read_if Parser.get_int packet "intrinsic_metadata.lf_field_list" 0;
  mgid ← read_if Data.get_uint packet "intrinsic_metadata.mcast_grp" 0;
  '(s, packet) ← ingress_cloning s packet packet_in_state clone_spec;
  s ← learning s packet learn_id;
  flag ← read_if Parser.get_int packet "intrinsic_metadata.resubmit_flag" 0;
  if negb (flag =? 0) then resubmitting s packet packet_in_state flag else
  instance_type ← read Parser.get_int packet "standard_metadata.instance_type";
  if negb (mgid =? 0) then multicast s packet mgid instance_type else
  if egress_spec =? 511 then destroy s packet else enqueue s egress_spec packet.

(** A turn of the ingress thread; without a packet it waits. *)
Definition ingress_thread s : option (Switch D J) :=
  match last (input_buffer s) with
  | None => Some s
  | Some packet =>
      let s := with_input s (take (length (input_buffer s) - 1) (input_buffer s)) in
      let packet_in_state := save_buffer_state packet in
      '(s, packet) ← parse_on s packet;
      '(s, packet) ← ingress_on s packet;
      after_ingress s packet packet_in_state
  end.

(** ** Egress *)

Definition egress_on s packet : option (Switch D J * Packet) := '(packet, d) ← egress_mau packet (device s); Some (with_device s d, packet).
Definition deparse_on s packet : option (Switch D J * Packet) := '(packet, d) ← deparse packet (device s); Some (with_device s d, packet).

Definition dequeued s packet (port : Z) : option (Switch D J * Packet) :=
  '(s, packet) ←
    (if with_queueing_metadata s then
       enq_timestamp ← read get_long packet "queueing_metadata.enq_timestamp";
       let '(s, ts) := get_ts s in
       packet ← set packet "queueing_metadata.deq_timedelta" (ts - enq_timestamp);
       depth ← QueueingLogicRL.get_size egress_thread_mapper (egress_buffers s) port;
       packet ← set packet "queueing_metadata.deq_qdepth" depth;
       Some (s, packet)
     else Some (s, packet));
  packet ← set packet "standard_metadata.egress_port" port;
  packet ← set packet "standard_metadata.egress_spec" 0;
  len ← Primitives.read_register unwritten packet PACKET_LENGTH_REG_IDX;
  packet ← set packet "standard_metadata.packet_length" len;
  Some (s, packet).

(** Here [clone_spec] stays when there is no session. *)
Definition egress_cloning s packet (clone_spec : Z) : option (Switch D J * Packet) :=
  if clone_spec =? 0 then Some (s, packet) else
  let egress_port := get_mirroring_mapping s (mirror_id clone_spec) in
  if egress_port <? 0 then Some (s, packet) else
  packet ← set packet "standard_metadata.clone_spec" 0;
  let '(s, now) := tick s in
  '(w, packet_copy) ← clone_with_phv_reset_metadata alloc XXH64 invalid_code (world s) now packet;
  let s := with_world s w in
  field_list ← field_lists (field_list_id clone_spec);
  phv ← Packets.phv packet;
  packet_copy ← on_phv packet_copy (λ copy, FieldLists.copy_fields_between_phvs field_list copy phv);
  packet_copy ← set packet_copy "standard_metadata.instance_type" PKT_INSTANCE_TYPE_EGRESS_CLONE;
  s ← enqueue s egress_port packet_copy;
  Some (s, packet).

(** A copy with the data that was deparsed goes to the input. *)
Definition recirculating s packet (flag : Z) : option (Switch D J) :=
  packet ← set packet "intrinsic_metadata.recirculate_flag" 0;
  field_list ← field_lists flag;
  let '(s, now) := tick s in
  '(w, packet_copy) ← clone_no_phv alloc XXH64 invalid_code (world s) now packet;
  let s := with_world s w in
  packet_copy ← on_phv packet_copy Phv.reset_metadata;
  phv ← Packets.phv packet;
  packet_copy ← on_phv packet_copy (λ copy, FieldLists.copy_fields_between_phvs field_list copy phv);
  packet_copy ← set packet_copy "standard_metadata.instance_type" PKT_INSTANCE_TYPE_RECIRC;
  let packet_size := get_data_size packet_copy in
  packet_copy ← Packets.set_register packet_copy PACKET_LENGTH_REG_IDX packet_size;
  packet_copy ← set packet_copy "standard_metadata.packet_length" packet_size;
  destroy (push_input s packet_copy) packet.

(** The rest of a turn once a packet went through the egress pipeline. *)
Definition after_egress s packet : option (Switch D J) :=
  clone_spec ← read Data.get_uint packet "standard_metadata.clone_spec";
  '(s, packet) ← egress_cloning s packet clone_spec;
  egress_spec ← read Parser.get_int packet "standard_metadata.egress_spec";
  if egress_spec =? 511 then destroy s packet else
  '(s, packet) ← deparse_on s packet;
  flag ← read_if Parser.get_int packet "intrinsic_metadata.recirculate_flag" 0;
  if negb (flag =? 0) then recirculating s packet flag else
  Some (with_output s (packet :: output_buffer s)).

Definition egress_packet s (port : Z) packet : option (Switch D J) :=
  '(s, packet) ← dequeued s packet port;
  '(s, packet) ← egress_on s packet;
  after_egress s packet.

(** A turn of an egress thread; [i] is which of the packets that can leave does. *)
Definition egress_thread s (worker_id : Z) (i : nat) : option (Switch D J) :=
  let '(s, now) := tick s in
  '(buffers, r) ← QueueingLogicRL.pop_back (egress_buffers s) worker_id now i;
  let s := with_egress s buffers in
  match r with
  | inl _ => Some s
  | inr x => egress_packet s (Queueing.queue_id x) (Queueing.e x)
  end.

(** ** Transmission *)
Definition transmit s (port : Z) (data : list Z) : Switch D J :=
  {| max_port := max_port s; world := world s; device := device s; pre := pre s; learn_engine := learn_engine s; mirroring_map := mirroring_map s;
     input_buffer := input_buffer s; egress_buffers := egress_buffers s; output_buffer := output_buffer s; sent := (port, data) :: sent s;
     with_queueing_metadata := with_queueing_metadata s; pkt_id := pkt_id s; start := start s; clock := clock s; readings := readings s |}.

Definition transmit_thread s : option (Switch D J) :=
  match last (output_buffer s) with
  | None => Some s
  | Some packet =>
      let s := with_output s (take (length (output_buffer s) - 1) (output_buffer s)) in
      destroy (transmit s (egress_port packet) (Primitives.packet_data packet)) packet
  end.
End switch.
End SimpleSwitch.

(** * The stages of the simple switch

    The parser, the pipelines and the deparser of [SimpleSwitch.v] are those of
    [Parser.v], [ControlFlow.v] and [Checksums.v], on the packets of [Packets.v].
    An action called by the parser works on headers and registers only. *)

Import (coercions) Fields.

Module SwitchStages.
Import Packets.

(** What stages share: the tables, the arrays, and what is kept between actions. *)
Record Device (Tb : Type) := {
  tables : Tb;
  arrays : Z → Registers.RegisterArray;
  meter_arrays : Z → Meters.MeterArray;
  counter_arrays : Z → Counters.CounterArray;
  micros : nat → Z;
  meter_readings : nat;
  engine : Z;
  data_temps : list Data.Data;
  jump_if_zero_offset : Z;
  jump_offset : Z;
}.
Arguments tables {Tb} _.
Arguments arrays {Tb} _.
Arguments meter_arrays {Tb} _.
Arguments counter_arrays {Tb} _.
Arguments micros {Tb} _.
Arguments meter_readings {Tb} _.
Arguments engine {Tb} _.
Arguments data_temps {Tb} _.
Arguments jump_if_zero_offset {Tb} _.
Arguments jump_offset {Tb} _.

Section stages.
Context `{!Gmp, !GmpSize, !GmpInt, !GmpUint} {Tb : Type}.
Context (fields_map : gmap string Parser.field_t) (calculations : Z → option Calculations.Calculation) (XXH64 : list Z → Z → Z).
Context (uniform : Z → Z → Z → Z * Z) (unwritten : Z).
Implicit Types (packet : Packet) (dev : Device Tb).
Abbreviation State := (Actions.State (X := Primitives.Target)).

Definition with_arrays dev (a : Z → Registers.RegisterArray) : Device Tb :=
  {| tables := tables dev; arrays := a; meter_arrays := meter_arrays dev; counter_arrays := counter_arrays dev; micros := micros dev;
     meter_readings := meter_readings dev; engine := engine dev; data_temps := data_temps dev;
     jump_if_zero_offset := jump_if_zero_offset dev; jump_offset := jump_offset dev |}.

Definition with_registers (a : Z → Registers.RegisterArray) (rs : Z → list Data.Data) (i : Z) : Registers.RegisterArray :=
  {| Registers.bitwidth := Registers.bitwidth (a i); Registers.registers := rs i |}.

Definition set_error_code packet (code : Z) : Packet :=
  {| cxt_id := cxt_id packet; ingress_port := ingress_port packet; egress_port := egress_port packet; packet_id := packet_id packet;
     copy_id := copy_id packet; ingress_length := ingress_length packet; flags := flags packet; signature := signature packet;
     buffer := buffer packet; payload_size := payload_size packet; truncated_length := truncated_length packet;
     ingress_ts := ingress_ts packet; ingress_ts_ms := ingress_ts_ms packet; phv := phv packet; registers := registers packet;
     entry_index := entry_index packet; error_code := code |}.

Definition set_entry_index packet (idx : Z) : Packet :=
  {| cxt_id := cxt_id packet; ingress_port := ingress_port packet; egress_port := egress_port packet; packet_id := packet_id packet;
     copy_id := copy_id packet; ingress_length := ingress_length packet; flags := flags packet; signature := signature packet;
     buffer := buffer packet; payload_size := payload_size packet; truncated_length := truncated_length packet;
     ingress_ts := ingress_ts packet; ingress_ts_ms := ingress_ts_ms packet; phv := phv packet; registers := registers packet;
     entry_index := idx; error_code := error_code packet |}.

(** ** The parser *)
Definition parser_packet packet (phv : Phv.PHV) dev : Parser.Packet :=
  {| Parser.pkt_ingress_length := ingress_length packet; Parser.payload_size := payload_size packet;
     Parser.buffer := PacketBuffer.start (buffer packet);
     Parser.pkt_state := {| Parser.phv := phv; Parser.registers := λ a, Registers.registers (arrays dev a) |};
     Parser.error_code := error_code packet |}.

Definition parse (fuel : nat) (p : Parser.Parser) (vsets : list Parser.ParseVSet) (VL_expr : Z → option Expressions.Expression)
    (execute : Z → Parser.State → option Parser.State) packet dev : option (Packet * Device Tb) :=
  phv ← phv packet;
  r ← Parser.parse fuel p vsets VL_expr execute (parser_packet packet phv dev);
  r ← r;
  packet ← remove packet (Z.of_nat (length (PacketBuffer.start (buffer packet)) - length (Parser.buffer r)));
  Some (set_error_code (set_phv packet (Some (Parser.phv (Parser.pkt_state r)))) (Parser.error_code r),
        with_arrays dev (with_registers (arrays dev) (Parser.registers (Parser.pkt_state r)))).

(** ** A pipeline *)
Context (apply_table : nat → Z → Tb → State → ControlFlow.Stepped (X := Primitives.Target) (Tb := Tb)).

Definition target_execute := Primitives.target_execute fields_map calculations (λ data, XXH64 data 0) uniform unwritten.

Definition action_state packet (phv : Phv.PHV) dev : State :=
  {| Actions.phv := phv; Actions.arrays := arrays dev; Actions.data_temps := data_temps dev;
     Actions.jump_if_zero_offset := jump_if_zero_offset dev; Actions.jump_offset := jump_offset dev;
     Actions.target := {| Primitives.packet := packet; Primitives.meter_arrays := meter_arrays dev; Primitives.counter_arrays := counter_arrays dev;
                          Primitives.micros := micros dev; Primitives.readings := meter_readings dev; Primitives.engine := engine dev |} |}.

Definition after (tb : Tb) (st : State) : Packet * Device Tb :=
  let t := Actions.target st in
  (set_phv (Primitives.packet t) (Some (Actions.phv st)),
   {| tables := tb; arrays := Actions.arrays st; meter_arrays := Primitives.meter_arrays t; counter_arrays := Primitives.counter_arrays t;
      micros := Primitives.micros t; meter_readings := Primitives.readings t; engine := Primitives.engine t; data_temps := Actions.data_temps st;
      jump_if_zero_offset := Actions.jump_if_zero_offset st; jump_offset := Actions.jump_offset st |}).

Definition marked (st : State) : bool := is_marked_for_exit (Primitives.packet (Actions.target st)).

Definition mau (fuel steps : nat) (nodes : Z → option ControlFlow.ControlFlowNode) (first_node : option Z) packet dev : option (Packet * Device Tb) :=
  phv ← phv packet;
  match ControlFlow.apply target_execute Primitives.target_jump marked apply_table fuel steps nodes first_node (tables dev) (action_state packet phv dev) with
  | ControlFlow.Done tb st => Some (after tb st)
  | _ => None
  end.

(** ** The deparser *)

(** [update_checksums]; [stack] is what is in the local buffer of a checksum. *)
Definition update_checksums (checksums : list Checksums.Checksum) (stack : list Z) (data : list Z) (s : Parser.State) : option Parser.State :=
  phv ← foldl (λ acc cs, phv ← acc; Checksums.update (λ data, XXH64 data 0) (Parser.registers s) data stack cs phv) (Some (Parser.phv s)) checksums;
  Some (Parser.with_phv s phv).

Definition deparse (d : Parser.Deparser) (checksums : list Checksums.Checksum) (stack : list Z) packet dev : option (Packet * Device Tb) :=
  phv ← phv packet;
  let b := buffer packet in
  let room := take (Z.to_nat (PacketBuffer.head b)) (PacketBuffer.buffer b) in
  '(r, rest) ← Parser.deparse d (update_checksums checksums stack (Primitives.packet_data packet)) (parser_packet packet phv dev) room;
  packet ← prepend packet (Z.of_nat (length room - length rest));
  b ← PacketBuffer.copy_to_head (buffer packet) (Parser.buffer r);
  Some (set_phv (with_buffer packet b) (Some (Parser.phv (Parser.pkt_state r))), dev).
End stages.
End SwitchStages.
