(* ===== verification/SwitchSpec.v ===== *)
(** * What becomes of the packets of the simple switch

    Between the turns of its threads, every packet of the switch is in one of
    its buffers: the pool counts as many parsed headers in use. A packet that is
    sent back to the input is as it was received. *)

From stdpp Require Import gmap strings.
From S2P Require Import Prelude HandleMgr Data Fields Headers Phv PhvFactory Packets MatchKeyTypes LookupStructures.
From S2P Require Import MatchKey TableKeys Counters MatchUnit Expressions ErrorCodes Parser Crc Cksum Calculations.
From S2P Require Import Checksums Actions Ras ActionProfile Meters MatchTables ControlFlow SimplePre.
From S2P Require Import Queueing Learning FieldLists Primitives SimpleSwitch.

(** * What the stages leave of a packet

    The primitives of an action, the nodes of a pipeline, the parser and the
    deparser work on the same packet: its ids, ports and lengths stay, only the
    deparser writes in its buffer. *)

Import (coercions) Fields.

Module SwitchFrame.
Import Packets.

(** The same packet, wherever its data starts. *)
Record kept (p p' : Packet) : Prop := {
  k_cxt : cxt_id p' = cxt_id p;
  k_id : packet_id p' = packet_id p;
  k_copy : copy_id p' = copy_id p;
  k_in : ingress_port p' = ingress_port p;
  k_length : ingress_length p' = ingress_length p;
}.

(** And the same memory. *)
Record memory (p p' : Packet) : Prop := {
  m_buffer : PacketBuffer.buffer (buffer p') = PacketBuffer.buffer (buffer p);
  m_size : PacketBuffer.size (buffer p') = PacketBuffer.size (buffer p);
}.

#[export] Instance kept_pre : PreOrder kept.
Proof. split; [by constructor|intros p q r [] []; constructor; congruence]. Qed.
#[export] Instance memory_pre : PreOrder memory.
Proof. split; [by constructor|intros p q r [] []; constructor; congruence]. Qed.

(** A stage that keeps packets, and gives them back with their headers. *)
Definition stage_ok {D} (stage : Packet → D → option (Packet * D)) : Prop :=
  ∀ p d p' d', is_Some (phv p) → stage p d = Some (p', d') → kept p p' ∧ is_Some (phv p').
Definition stage_reads {D} (stage : Packet → D → option (Packet * D)) : Prop :=
  ∀ p d p' d', stage p d = Some (p', d') → memory p p'.

Ltac binds H :=
  repeat (match type of H with
          | mbind _ ?m = Some _ => destruct m eqn:?; [cbn [mbind option_bind] in H|discriminate H]
          | (let '(_, _) := ?m in _) = Some _ => destruct m
          | (if ?b then _ else _) = Some _ => destruct b eqn:?; try discriminate H
          | match ?m with _ => _ end = Some _ => destruct m eqn:?; try discriminate H
          end; cbn [mbind option_bind] in H).

(** The first of the binds of a computation that succeeded. *)
Tactic Notation "bind" hyp(E) "as" simple_intropattern(pat) "eqn" ident(Em) :=
  match type of E with mbind _ ?m = Some _ => destruct m as [pat|] eqn:Em; [cbn [mbind option_bind] in E|discriminate E] end.

Section actions.
Context `{!Gmp, !GmpSize, !GmpInt}.
Context (fields_map : gmap string Parser.field_t) (calculations : Z → option Calculations.Calculation) (XXH64 : list Z → Z).
Context (uniform : Z → Z → Z → Z * Z) (unwritten : Z).
Abbreviation State := (Actions.State (X := Primitives.Target)).
Implicit Types (st : State) (f : Actions.ActionFn) (ad : Actions.ActionData) (args : list Actions.ActionParam).

Definition packet_of st : Packet := Primitives.packet (Actions.target st).

(** What an action does to the packet, its headers aside. *)
Definition framed st st' : Prop := kept (packet_of st) (packet_of st') ∧ buffer (packet_of st') = buffer (packet_of st).

#[export] Instance framed_pre : PreOrder framed.
Proof.
  split; [intros st; split; [reflexivity|done]|]. intros a b c [Ka E1] [Kb E2]. split; [by etransitivity|congruence].
Qed.

Lemma framed_target st st' : Actions.target st' = Actions.target st → framed st st'.
Proof. intros E. unfold framed, packet_of. rewrite E. by split. Qed.

Lemma to_const_target f st ad p st' r : Actions.to_const_data f st ad p = Some (st', r) → Actions.target st' = Actions.target st.
Proof.
  destruct p; cbn; intros E; try discriminate E; binds E; injection E as <- <-; try done.
  all: match goal with Ep : Actions.put_temp _ _ _ = Some _ |- _ => unfold Actions.put_temp in Ep; binds Ep; by injection Ep as <- end.
Qed.

Lemma const_arg_target f st ad args i st' r : Primitives.const_arg f st ad args i = Some (st', r) → Actions.target st' = Actions.target st.
Proof. unfold Primitives.const_arg. destruct (args !! i); [|done]. apply to_const_target. Qed.

Lemma write_target st r v st' : Actions.write st r v = Some st' → Actions.target st' = Actions.target st.
Proof. destruct r; cbn; intros E; try discriminate E; binds E; by injection E as <-. Qed.

Lemma set_named_target st name v st' : Primitives.set_named fields_map st name v = Some st' → Actions.target st' = Actions.target st.
Proof. unfold Primitives.set_named. intros E. binds E. by injection E as <-. Qed.

Lemma add_length_framed st n st' : Primitives.add_length unwritten st n = Some st' → framed st st'.
Proof.
  unfold Primitives.add_length, Packets.set_register. intros E. binds E. injection E as <-.
  match goal with H : mbind _ _ = Some _ |- _ => binds H; injection H as <- end. by split.
Qed.

Lemma framed_packet st st' : packet_of st' = packet_of st → framed st st'.
Proof. intros E. unfold framed. rewrite E. by split. Qed.

Lemma exec_add_header_framed st hdr st' : Primitives.exec_add_header unwritten st hdr = Some st' → framed st st'.
Proof.
  unfold Primitives.exec_add_header. intros E. binds E; [injection E as <-; by apply framed_target|].
  etransitivity; [|by eapply add_length_framed]. by apply framed_target.
Qed.

Lemma exec_remove_header_framed st hdr st' : Primitives.exec_remove_header unwritten st hdr = Some st' → framed st st'.
Proof.
  unfold Primitives.exec_remove_header. intros E. binds E; [injection E as <-; by apply framed_target|].
  injection E as <-. etransitivity; [by eapply add_length_framed|]. by apply framed_target.
Qed.

(** What the parts of a primitive leave, once it is taken apart. *)
Ltac targets :=
  repeat match goal with
  | E : Primitives.const_arg _ _ _ _ _ = Some (_, _) |- _ => apply const_arg_target in E
  | E : Actions.to_const_data _ _ _ _ = Some (_, _) |- _ => apply to_const_target in E
  | E : Actions.write _ _ _ = Some _ |- _ => apply write_target in E
  | E : Primitives.set_named _ _ _ _ = Some _ |- _ => apply set_named_target in E
  end.

Lemma exec_framed p f ad args st st' : Primitives.exec fields_map calculations XXH64 uniform unwritten p f ad args st = Some st' → framed st st'.
Proof.
  destruct p; cbn [Primitives.exec]; intros E;
    unfold Primitives.ternary, Primitives.in_place, Primitives.operation, Primitives.exec_rng, Primitives.exec_drop, Primitives.exec_digest,
      Primitives.exec_clone, Primitives.exec_flag, Primitives.exec_hash, Primitives.exec_meter, Primitives.exec_count,
      Primitives.exec_register_read, Primitives.exec_register_write, Primitives.exec_truncate, Actions.exec_assign in E;
    binds E; try (injection E as <-); targets; cbn [Primitives.with_target Actions.target] in *;
    first [by eapply exec_add_header_framed | by eapply exec_remove_header_framed
          | apply framed_target; cbn; congruence
          | apply framed_packet; unfold packet_of; cbn in *; repeat match goal with E : Actions.target _ = _ |- _ => rewrite E end; done
          | unfold framed, packet_of; cbn; repeat match goal with E : Actions.target _ = _ |- _ => rewrite E end; by split].
Qed.

Lemma target_framed i f ad args st st' :
  Primitives.target_execute fields_map calculations XXH64 uniform unwritten i f ad args st = Some st' → framed st st'.
Proof. unfold Primitives.target_execute. intros E. binds E. by eapply exec_framed. Qed.

(** ** Actions and pipelines *)

Abbreviation target_execute := (Primitives.target_execute fields_map calculations XXH64 uniform unwritten).
Abbreviation target_jump := Primitives.target_jump.

Lemma exec_primitive_framed p f ad args st st' : Actions.exec_primitive target_execute p f ad args st = Some st' → framed st st'.
Proof.
  destruct p; cbn [Actions.exec_primitive]; intros E; try (by eapply target_framed);
    unfold Actions.exec_assign, Actions.exec_stack, Actions.exec_jump_if_zero, Actions.exec_jump in E;
    binds E; try (injection E as <-); targets; apply framed_target; cbn; congruence.
Qed.

Lemma execute_framed fuel (a : Actions.ActionFnEntry) st st' :
  Actions.execute target_execute target_jump fuel a st = Actions.Finished st' → framed st st'.
Proof.
  unfold Actions.execute. destruct (Actions.action_fn a) as [f|]; [|by intros [= <-]]. generalize 0. revert st.
  induction fuel as [|fuel IH]; intros st idx; cbn; [done|]. destruct (vget _ idx) as [c|]; [|by intros [= <-]].
  destruct (Actions.exec_primitive _ _ _ _ _ _) as [st1|] eqn:E1; [|done]. intros E2. apply exec_primitive_framed in E1.
  etransitivity; [done|by eapply IH].
Qed.

(** Tables that keep the packet. *)
Definition table_framed {Tb} (apply_table : nat → Z → Tb → State → ControlFlow.Stepped (X := Primitives.Target) (Tb := Tb)) : Prop :=
  ∀ fuel i tb st tb' st' node, apply_table fuel i tb st = ControlFlow.Next tb' st' node → framed st st'.

Lemma apply_framed {Tb} apply_table fuel steps nodes node (tb : Tb) st tb' st' : table_framed apply_table →
  ControlFlow.apply target_execute target_jump SwitchStages.marked apply_table fuel steps nodes node tb st = ControlFlow.Done tb' st' → framed st st'.
Proof.
  intros Ht. revert node tb st. induction steps as [|steps IH]; intros [id|] tb st; cbn; try (intros [= <- <-]; reflexivity).
  { destruct (SwitchStages.marked st); [by intros [= <- <-]|done]. }
  destruct (SwitchStages.marked st); [by intros [= <- <-]|]. destruct (nodes id) as [n|]; [|done].
  destruct (ControlFlow.apply_node _ _ _ _ _ _ _) as [| |tb1 st1 node1] eqn:En; try done. intros Hr.
  etransitivity; [|by eapply IH]. destruct n as [i|e tn fn|[f|] next]; cbn in En; [by eapply Ht| | |done].
  - destruct (fst <$> _); [|done]. by injection En as <- <- <-.
  - destruct (Actions.execute_loop _ _ _ _ _ _ _) as [| |st2] eqn:Ee; cbn in En; try done. injection En as <- <- <-.
    by eapply (execute_framed fuel {| Actions.action_fn := Some f; Actions.action_data := [] |}).
Qed.

Lemma match_table_framed {K L J : Type} `{!TableKey K, !LookupStructure K L, !Judy1 J} times ingress_length ingress_ts_ms set_entry_index :
  (∀ i st, framed st (set_entry_index i st)) →
  table_framed (ControlFlow.match_table (K := K) (L := L) (J := J) target_execute target_jump times ingress_length ingress_ts_ms set_entry_index).
Proof.
  intros Hi fuel i tb st tb' st' node. unfold ControlFlow.match_table. destruct (tb !! i) as [t|]; [|done].
  destruct (MatchTables.apply_action _ _ _ _ _ _ _ _) as [[[[t' index] ran] node']|] eqn:E; [|done].
  destruct ran as [| |st1]; try done. intros [= <- <- <-]. etransitivity; [|apply Hi].
  unfold MatchTables.apply_action, MatchTables.run_entry in E. binds E. injection E as <- <- E <-.
  match goal with H : mbind _ _ = Some _ |- _ => binds H; injection H as <- <- <- <- end.
  apply execute_framed in E. etransitivity; [|exact E]. by apply framed_target.
Qed.
End actions.

(** ** Stages *)
Section stages.
Context `{!Gmp, !GmpSize, !GmpInt, !GmpUint} {Tb : Type}.
Context (fields_map : gmap string Parser.field_t) (calculations : Z → option Calculations.Calculation) (XXH64 : list Z → Z → Z).
Context (uniform : Z → Z → Z → Z * Z) (unwritten : Z).
Context (apply_table : nat → Z → Tb → Actions.State (X := Primitives.Target) → ControlFlow.Stepped (X := Primitives.Target) (Tb := Tb)).
Context (apply_table_framed : table_framed apply_table).

Lemma mau_frame fuel steps nodes first_node p (dev : SwitchStages.Device Tb) p' dev' :
  SwitchStages.mau fields_map calculations XXH64 uniform unwritten apply_table fuel steps nodes first_node p dev = Some (p', dev') →
  kept p p' ∧ buffer p' = buffer p ∧ is_Some (phv p').
Proof.
  unfold SwitchStages.mau. destruct (phv p) as [v|]; [|done]. cbn [mbind option_bind].
  destruct (ControlFlow.apply _ _ _ _ _ _ _ _ _ _) as [| |tb st] eqn:E; [done|done|]. intros [= <- <-].
  apply (apply_framed fields_map calculations (λ data, XXH64 data 0) uniform unwritten) in E as [[] Eb]; [|done].
  split; [by constructor|]. split; [done|by eexists].
Qed.

Lemma mau_ok fuel steps nodes first_node :
  stage_ok (SwitchStages.mau fields_map calculations XXH64 uniform unwritten apply_table fuel steps nodes first_node).
Proof. intros p d p' d' _ E. apply mau_frame in E as (? & _ & ?). by split. Qed.

Lemma mau_reads fuel steps nodes first_node :
  stage_reads (SwitchStages.mau fields_map calculations XXH64 uniform unwritten apply_table fuel steps nodes first_node).
Proof. intros p d p' d' E. apply mau_frame in E as (_ & E & _). by constructor; rewrite E. Qed.

Lemma parse_frame fuel ps vsets VL_expr execute p (dev : SwitchStages.Device Tb) p' dev' :
  SwitchStages.parse fuel ps vsets VL_expr execute p dev = Some (p', dev') → kept p p' ∧ memory p p' ∧ is_Some (phv p').
Proof.
  unfold SwitchStages.parse, Packets.remove, PacketBuffer.pop. intros E. binds E. injection E as <- <-.
  repeat match goal with H : (if _ then _ else _) = Some _ |- _ => binds H; try (injection H as <-) end.
  split; [by constructor|]. split; [by constructor|by eexists].
Qed.

Lemma parse_ok fuel ps vsets VL_expr execute : stage_ok (SwitchStages.parse (Tb := Tb) fuel ps vsets VL_expr execute).
Proof. intros p d p' d' _ E. apply parse_frame in E as (? & _ & ?). by split. Qed.

Lemma parse_reads fuel ps vsets VL_expr execute : stage_reads (SwitchStages.parse (Tb := Tb) fuel ps vsets VL_expr execute).
Proof. intros p d p' d' E. by apply parse_frame in E as (_ & ? & _). Qed.

Lemma deparse_ok d checksums stack : stage_ok (SwitchStages.deparse (Tb := Tb) XXH64 d checksums stack).
Proof.
  intros p dev p' dev' _. unfold SwitchStages.deparse, Packets.prepend. intros E. binds E. injection E as <- <-.
  repeat match goal with H : (b ← _; _) = Some _ |- _ => binds H; try (injection H as <-) end. split; [by constructor|by eexists].
Qed.
End stages.
End SwitchFrame.

Import (coercions) Fields.

Module SwitchSpec.
Import Packets SimpleSwitch SwitchFrame.

(** ** The count of the pool *)

Definition mine (p : Packet) : Prop := is_Some (phv p) ∧ cxt_id p = 0.

Definition uses (w : World) : option Z := PhvSource.phvs_in_use (phv_source w) 0.

(** [k] parsed headers more are in use than before. *)
Definition takes (k : Z) (w w' : World) : Prop := ∀ n, uses w = Some (u64 n) → uses w' = Some (u64 (n + k)).

Lemma u64_plus n k : u64 (u64 n + k) = u64 (n + k).
Proof. unfold wrap. by rewrite Z.add_mod_idemp_l by lia. Qed.

Lemma takes_same w : takes 0 w w.
Proof. intros n E. by rewrite Z.add_0_r. Qed.

Lemma takes_trans j k w1 w2 w3 : takes j w1 w2 → takes k w2 w3 → takes (j + k) w1 w3.
Proof. intros T1 T2 n E. rewrite Z.add_assoc. by apply T2, T1. Qed.

Lemma uses_set src c pool pool' src' : vget src c = Some pool → vset src c pool' = Some src' → c = 0 →
  PhvSource.phvs_in_use src 0 = Some (PhvSource.count pool) ∧ PhvSource.phvs_in_use src' 0 = Some (PhvSource.count pool').
Proof.
  intros Hg Hs ->. unfold PhvSource.phvs_in_use. rewrite Hg, (vget_vset _ _ _ _ _ Hs), decide_True by done. done.
Qed.

Section spec.
Context `{!Gmp}.
Context (alloc : Z → list Z) (XXH64 : list Z → Z → Z) (invalid_code : Z).
Implicit Types (w : World) (p c : Packet).

Lemma get_takes w src (p : Phv.PHV) : PhvSource.get (phv_source w) 0 = Some (src, p) → takes 1 w (with_source w src).
Proof.
  unfold PhvSource.get. destruct (vget _ 0) as [pool|] eqn:Ep; [|done]. cbn [mbind option_bind].
  destruct (PhvSource.pool_get pool) as [[pool' q]|] eqn:Eg; [|done]. cbn [mbind option_bind].
  destruct (vset _ 0 pool') as [src'|] eqn:Es; [|done]. cbn. intros [= <- <-] n Hn.
  destruct (uses_set _ _ _ _ _ Ep Es eq_refl) as [E1 E2]. unfold uses in *. cbn. rewrite E2.
  rewrite E1 in Hn. injection Hn as Hn. f_equal. unfold PhvSource.pool_get in Eg.
  destruct (last (PhvSource.phvs pool)).
  - injection Eg as <- <-. cbn. by rewrite Hn, u64_plus.
  - destruct (PhvSource.phv_factory pool); [|done]. cbn in Eg. destruct (PhvFactory.create _); [|done]. cbn in Eg. injection Eg as <- <-.
    cbn. by rewrite Hn, u64_plus.
Qed.

Lemma new_takes w now port id copy len b w' p : Packets.new XXH64 invalid_code w now 0 port id copy len b = Some (w', p) →
  takes 1 w w' ∧ mine p ∧ buffer p = b ∧ ingress_length p = len ∧ ingress_port p = port ∧ packet_id p = id.
Proof.
  unfold Packets.new. destruct (PhvSource.get _ _) as [[src q]|] eqn:E; [|done]. cbn. intros [= <- <-].
  split; [by eapply get_takes|]. split; [split; [by eexists|done]|done].
Qed.

Lemma give_back_takes w (p : Phv.PHV) w' : give_back w 0 p = Some w' → takes (-1) w w'.
Proof.
  unfold give_back, PhvSource.release, vupd. destruct (Phv.reset p) as [q|]; [|done]. cbn [mbind option_bind].
  destruct (vget _ 0) as [pool|] eqn:Ep; [|done]. cbn [mbind option_bind]. destruct (vset _ 0 _) as [src'|] eqn:Es; [|done]. cbn. intros [= <-] n Hn.
  destruct (uses_set _ _ _ _ _ Ep Es eq_refl) as [E1 E2]. unfold uses in *. cbn. rewrite E2. rewrite E1 in Hn. injection Hn as Hn. f_equal.
  cbn. rewrite Hn. exact (u64_plus n (-1)).
Qed.

Lemma destroy_takes w p w' : mine p → Packets.destroy w p [] = Some w' → takes (-1) w w'.
Proof.
  intros [[q Hq] Hc]. unfold Packets.destroy. rewrite Hq, Hc. destruct (CopyIds.remove_one _ _ _) as [g|]; [|done]. cbn [mbind option_bind].
  intros E n Hn. by apply (give_back_takes (with_gen w g) q).
Qed.

Lemma clone_takes w now p w' c : cxt_id p = 0 → clone_choose_context alloc XXH64 invalid_code w now p (cxt_id p) = Some (w', c) →
  takes 1 w w' ∧ mine c ∧ PacketBuffer.clone alloc (buffer p) (PacketBuffer.data_size (buffer p)) = Some (buffer c) ∧
  ingress_length c = ingress_length p ∧ ingress_port c = ingress_port p ∧ packet_id c = packet_id p.
Proof.
  intros Hc. unfold clone_choose_context. destruct (CopyIds.add_one _ _) as [[g id]|]; [|done]. cbn [mbind option_bind].
  destruct (PacketBuffer.clone _ _ _) as [b|]; [|done]. cbn [mbind option_bind]. rewrite Hc.
  intros (T & ? & -> & ? & ? & ?)%new_takes. split; [|done]. intros n Hn. by apply T.
Qed.

Lemma set_phv_mine p (q : Phv.PHV) : mine p → mine (set_phv p (Some q)).
Proof. intros [_ Hc]. split; [by eexists|done]. Qed.

Lemma clone_with_phv_takes w now p w' c : mine p → clone_with_phv alloc XXH64 invalid_code w now p = Some (w', c) → takes 1 w w' ∧ mine c.
Proof.
  intros [_ Hc]. unfold clone_with_phv. destruct (clone_choose_context _ _ _ _ _ _ _) as [[w1 c1]|] eqn:E; [|done]. cbn [mbind option_bind].
  apply clone_takes in E as (T & Hm & _); [|done]. destruct (phv c1); [|done]. cbn [mbind option_bind]. destruct (phv p); [|done]. cbn [mbind option_bind].
  destruct (Phv.copy_headers _ _); [|done]. cbn. intros [= <- <-]. split; [done|]. by apply set_phv_mine.
Qed.

Lemma clone_reset_takes w now p w' c : mine p → clone_with_phv_reset_metadata alloc XXH64 invalid_code w now p = Some (w', c) → takes 1 w w' ∧ mine c.
Proof.
  intros [_ Hc]. unfold clone_with_phv_reset_metadata. destruct (clone_choose_context _ _ _ _ _ _ _) as [[w1 c1]|] eqn:E; [|done]. cbn [mbind option_bind].
  apply clone_takes in E as (T & Hm & _); [|done]. destruct (phv c1); [|done]. cbn [mbind option_bind]. destruct (phv p); [|done]. cbn [mbind option_bind].
  destruct (Phv.copy_headers _ _); [|done]. cbn [mbind option_bind]. destruct (Phv.reset_metadata _); [|done]. cbn. intros [= <- <-]. split; [done|].
  by apply set_phv_mine.
Qed.
End spec.

(** ** The logical queues *)
Lemma concat_replicate_nil {A} n : concat (replicate n (@nil A)) = [].
Proof. by induction n. Qed.

Section queues.
Context (f : Z → Z).
Implicit Types (q : QueueingLogicRL.state Packet).

Definition queued q : list Packet := Queueing.e <$> concat (QueueingLogicRL.workers_info q).

Lemma concat_insert {A} (ll : list (list A)) i l l' : ll !! i = Some l → concat (<[i := l']> ll) ++ l ≡ₚ concat ll ++ l'.
Proof.
  revert i. induction ll as [|x ll IH]; intros [|i] Hi; simplify_eq/=.
  - rewrite <- !app_assoc. rewrite (Permutation_app_comm l'). rewrite <- app_assoc. by rewrite (Permutation_app_comm l (_ ++ _)), <- app_assoc, (Permutation_app_comm l l').
  - rewrite <- !app_assoc. by rewrite (IH i Hi).
Qed.

Lemma concat_vset {A} (ll ll' : list (list A)) i l l' : vget ll i = Some l → vset ll i l' = Some ll' → concat ll' ++ l ≡ₚ concat ll ++ l'.
Proof.
  intros Hg [Hr ->]%vset_inv. apply concat_insert. by rewrite <- vget_nat by lia.
Qed.

Lemma fmap_cons_perm {A B} (g : A → B) x (l l' : list A) : l' ≡ₚ x :: l → g <$> l' ≡ₚ g x :: (g <$> l).
Proof. by intros ->. Qed.

Lemma push_queued q i p now q' pushed : QueueingLogicRL.push_front f q i p now = Some (q', pushed) →
  queued q' ≡ₚ (if pushed then p :: queued q else queued q).
Proof.
  unfold QueueingLogicRL.push_front. destruct (vget _ i) as [info|]; [|done]. cbn [mbind option_bind].
  destruct (vget _ (f i)) as [l|] eqn:El; [|done]. cbn [mbind option_bind]. destruct (_ <=? _); [by intros [= <- <-]|].
  destruct (vset _ (f i) _) as [ws|] eqn:Ew; [|done]. cbn [mbind option_bind]. destruct (vset (QueueingLogicRL.queues_info q) i _) as [qs|]; [|done]. cbn. intros [= <- <-].
  pose proof (concat_vset _ _ _ _ _ El Ew) as Hp. unfold queued. cbn. apply (fmap_cons_perm Queueing.e (Queueing.Build_QE p i (QueueingLogicRL.get_next_tp info now))).
  apply (Permutation_app_inv_r l). rewrite Hp, app_assoc, (Permutation_app_comm _ [_]). done.
Qed.

Lemma pop_queued q w now i q' (x : Queueing.QE Packet) : QueueingLogicRL.pop_back q w now i = Some (q', inr x) →
  queued q ≡ₚ Queueing.e x :: queued q'.
Proof.
  unfold QueueingLogicRL.pop_back. destruct (vget _ w) as [l|] eqn:El; [|done]. cbn [mbind option_bind].
  destruct (Queueing.top_send l); [|done]. destruct (negb _); [done|].
  destruct (Queueing.pop l i) as [[y l']|] eqn:Ep; [|done]. cbn [mbind option_bind].
  destruct (vset _ w l') as [ws|] eqn:Ew; [|done]. cbn [mbind option_bind]. destruct (vget (QueueingLogicRL.queues_info q) _) as [info|]; [|done]. cbn [mbind option_bind].
  destruct (vset (QueueingLogicRL.queues_info q) _ _) as [qs|]; [|done]. cbn. intros [= <- <-]. pose proof (concat_vset _ _ _ _ _ El Ew) as Hp.
  unfold Queueing.pop in Ep. destruct (l !! i) as [u|] eqn:Eu; [|done]. cbn [mbind option_bind] in Ep.
  destruct (Queueing.top_send l); [|done]. cbn [mbind option_bind] in Ep. destruct (_ =? _); [|done]. injection Ep as <- <-.
  unfold queued. cbn. apply (fmap_cons_perm Queueing.e u). apply (Permutation_app_inv_r (take i l ++ drop (S i) l)).
  rewrite <- Hp. assert (l ≡ₚ u :: take i l ++ drop (S i) l) as Hl by (rewrite <- (take_drop_middle l i u Eu) at 1; by rewrite <- Permutation_middle).
  rewrite Hl at 1. by rewrite <- Permutation_middle.
Qed.

(** What waits, and changes of a queue, leave the packets. *)
Lemma wait_queued q w now i q' (x : Queueing.wait) : QueueingLogicRL.pop_back q w now i = Some (q', inl x) → q' = q.
Proof.
  unfold QueueingLogicRL.pop_back. destruct (vget _ w) as [l|]; [|done]. cbn [mbind option_bind].
  destruct (Queueing.top_send l); [|by intros [= <- <-]]. destruct (negb _); [by intros [= <- <-]|].
  intros E. binds E. done.
Qed.

Lemma info_queued q i g q' : QueueingLogicRL.update_info f q i g = Some q' → queued q' = queued q.
Proof. unfold QueueingLogicRL.update_info. intros E. binds E. by injection E as <-. Qed.
End queues.

(** ** The switch *)
Section balance.
Context {D J : Type} `{!Judy1 J, !Gmp, !GmpInt, !GmpLong}.
Context (alloc : Z → list Z) (XXH64 : list Z → Z → Z) (invalid_code unwritten : Z).
Context (fields_map : gmap string Parser.field_t) (field_lists : Z → option FieldLists.FieldList).
Context (field_exists : string → string → bool).
Context (parse ingress_mau egress_mau deparse : Packet → D → option (Packet * D)).
Context (parse_ok : stage_ok parse) (ingress_ok : stage_ok ingress_mau) (egress_ok : stage_ok egress_mau) (deparse_ok : stage_ok deparse).
Implicit Types (s : Switch D J) (p c : Packet).

Definition packets s : list Packet := input_buffer s ++ queued (egress_buffers s) ++ output_buffer s.

(** The pool has as many parsed headers in use as there are packets, [n] of
    them in the hands of the thread. *)
Definition balanced s (n : Z) : Prop :=
  uses (world s) = Some (u64 (Z.of_nat (length (packets s)) + n)) ∧ Forall mine (packets s).

Abbreviation enqueue := (enqueue (J := J) (D := D) fields_map).
Abbreviation copy_ingress_pkt := (copy_ingress_pkt (J := J) (D := D) alloc XXH64 invalid_code fields_map field_lists).

(** A change of the pool and of the buffers. *)
Lemma balanced_change s s' n k ps : balanced s n → takes k (world s) (world s') → packets s' ≡ₚ ps ++ packets s → Forall mine ps →
  balanced s' (n + k - Z.of_nat (length ps)).
Proof.
  intros [U F] T P Fp. split; [|rewrite P; by apply Forall_app]. rewrite (Permutation_length P), length_app.
  rewrite (T _ U). do 2 f_equal. lia.
Qed.

(** The parts of the state that do not matter. *)
Lemma balanced_same s s' n : balanced s n → world s' = world s → packets s' ≡ₚ packets s → balanced s' n.
Proof.
  intros B Ew P. replace n with (n + 0 - Z.of_nat (length (@nil Packet))) by (cbn; lia).
  apply (balanced_change s); [done| |done|constructor]. rewrite Ew. apply takes_same.
Qed.

Lemma balanced_taken s s' n k : balanced s n → takes k (world s) (world s') → packets s' ≡ₚ packets s → balanced s' (n + k).
Proof.
  intros B T P. replace (n + k) with (n + k - Z.of_nat (length (@nil Packet))) by (cbn; lia). by apply (balanced_change s).
Qed.

Lemma tick_balanced s n s' now : tick s = (s', now) → balanced s n → balanced s' n.
Proof. intros [= <- <-] B. by apply (balanced_same s). Qed.

Lemma get_ts_balanced s n s' ts : get_ts s = (s', ts) → balanced s n → balanced s' n.
Proof. intros [= <- <-] B. by apply (balanced_same s). Qed.

Lemma set_fields p name v p' : SimpleSwitch.set fields_map p name v = Some p' → ∃ q, p' = set_phv p (Some q).
Proof. unfold SimpleSwitch.set, on_phv. intros E. binds E. injection E as <-. by eexists. Qed.

Lemma on_phv_fields p f p' : on_phv p f = Some p' → ∃ q, p' = set_phv p (Some q).
Proof. unfold on_phv. intros E. binds E. injection E as <-. by eexists. Qed.

Lemma set_mine p name v p' : SimpleSwitch.set fields_map p name v = Some p' → mine p → mine p'.
Proof. intros [q ->]%set_fields. apply set_phv_mine. Qed.

Lemma on_phv_mine p f p' : on_phv p f = Some p' → mine p → mine p'.
Proof. intros [q ->]%on_phv_fields. apply set_phv_mine. Qed.

Lemma set_register_mine p i v p' : Packets.set_register p i v = Some p' → mine p → mine p'.
Proof. unfold Packets.set_register. intros E. binds E. by injection E as <-. Qed.

Lemma stage_mine (stage : Packet → D → option (Packet * D)) p d p' d' : stage_ok stage → stage p d = Some (p', d') → mine p → mine p'.
Proof. intros Hs E [Hp Hc]. destruct (Hs _ _ _ _ Hp E) as [[] ?]. split; [done|congruence]. Qed.

Lemma destroy_balanced s p s' n : SimpleSwitch.destroy s p = Some s' → mine p → balanced s n → balanced s' (n - 1).
Proof.
  unfold SimpleSwitch.destroy. destruct (Packets.destroy _ _ _) as [w|] eqn:E; [|done]. cbn. intros [= <-] Hm B.
  apply (balanced_taken s _ n (-1)); [done|by eapply destroy_takes|done].
Qed.

Lemma enqueue_balanced s port p s' n : enqueue s port p = Some s' → mine p → balanced s n → balanced s' (n - 1).
Proof.
  unfold SimpleSwitch.enqueue. intros E Hm B.
  match type of E with mbind _ ?m = Some _ => assert (∀ s1 p1, m = Some (s1, p1) → balanced s1 n ∧ mine p1) as Hq end.
  { intros s1 p1 E1. assert (mine (set_egress_port p port)) as Hm' by done. destruct (with_queueing_metadata s); [|by injection E1 as <- <-].
    destruct (get_ts s) as [s2 ts] eqn:Et. binds E1. injection E1 as <- <-. split; [by eapply get_ts_balanced|].
    repeat match goal with H : SimpleSwitch.set _ _ _ _ = Some _ |- _ => eapply set_mine; [exact H|clear H] end. done. }
  match type of E with mbind _ ?m = Some _ => destruct m as [[s1 p1]|] eqn:E1; [|done] end. cbn [mbind option_bind] in E.
  destruct (Hq _ _ eq_refl) as [B1 Hm1]. destruct (tick s1) as [s2 now] eqn:Et. apply (tick_balanced s1 n) in Et; [|done].
  destruct (QueueingLogicRL.push_front _ _ _ _ _) as [[q pushed]|] eqn:Ep; [|done]. cbn [mbind option_bind] in E.
  apply push_queued in Ep. destruct pushed.
  - injection E as <-. replace (n - 1) with (n + 0 - Z.of_nat (length [p1])) by (cbn; lia).
    apply (balanced_change s2); [done|apply takes_same| |by constructor]. unfold packets. cbn. rewrite Ep. cbn.
    by rewrite <- Permutation_middle.
  - eapply destroy_balanced; [exact E|done|]. apply (balanced_same s2); [done|done|]. unfold packets. cbn. by rewrite Ep.
Qed.

Lemma copy_balanced s p copy_type id s' c n : copy_ingress_pkt s p copy_type id = Some (s', c) → mine p → balanced s n →
  balanced s' (n + 1) ∧ mine c ∧ PacketBuffer.clone alloc (buffer p) (PacketBuffer.data_size (buffer p)) = Some (buffer c) ∧
  ingress_length c = ingress_length p ∧ ingress_port c = ingress_port p ∧ packet_id c = packet_id p ∧
  packets s' = packets s ∧ input_buffer s' = input_buffer s.
Proof.
  unfold SimpleSwitch.copy_ingress_pkt. intros E Hm B. destruct (tick s) as [s1 now] eqn:Et. pose proof (tick_balanced _ n _ _ Et B) as B1.
  binds E. injection E as <- <-. match goal with H : clone_no_phv _ _ _ _ _ _ = Some _ |- _ => apply clone_takes in H as (T & Hc & ? & ? & ? & ?); [|apply Hm] end.
  repeat match goal with
  | H : SimpleSwitch.set _ _ _ _ = Some _ |- _ => apply set_fields in H as [? ->]
  | H : on_phv _ _ = Some _ |- _ => apply on_phv_fields in H as [? ->]
  end. split; [by apply (balanced_taken s1)|]. split; [by repeat apply set_phv_mine|]. injection Et as <- <-. done.
Qed.

(** A stage changes the device, and the packet as it may. *)
Lemma stage_on s s' (stage : Packet → D → option (Packet * D)) p p' n : stage_ok stage →
  ('(packet, d) ← stage p (device s); Some (with_device s d, packet)) = Some (s', p') → mine p → balanced s n →
  balanced s' n ∧ mine p' ∧ packets s' = packets s ∧ input_buffer s' = input_buffer s.
Proof.
  intros Hs E Hm B. destruct (stage p (device s)) as [[p1 d]|] eqn:E1; [|done]. cbn in E. injection E as <- <-.
  split; [by apply (balanced_same s)|]. split; [by eapply stage_mine|done].
Qed.

Abbreviation ingress_cloning := (ingress_cloning (J := J) (D := D) alloc XXH64 invalid_code fields_map field_lists parse).

Lemma ingress_cloning_balanced s p in_state spec s' p' n : ingress_cloning s p in_state spec = Some (s', p') → mine p → balanced s n →
  balanced s' n ∧ mine p' ∧ buffer p' = buffer p ∧ kept p p'.
Proof.
  unfold SimpleSwitch.ingress_cloning. intros E Hm B. destruct (spec =? 0); [injection E as <- <-; by split_and!|].
  destruct (SimpleSwitch.set _ p _ _) as [p1|] eqn:E1; [|done]. cbn [mbind option_bind] in E. pose proof (set_mine _ _ _ _ E1 Hm) as Hm1.
  apply set_fields in E1 as [q Eq].
  destruct (_ <? 0); [injection E as <- <-; split_and!; [done|done|by subst p1|by subst p1]|].
  destruct (copy_ingress_pkt _ _ _ _) as [[s1 c]|] eqn:Ec; [|done]. cbn [mbind option_bind] in E.
  eapply copy_balanced in Ec as (B1 & Hc & _); [|by destruct Hm1|done].
  destruct (parse_on _ s1 c) as [[s2 c2]|] eqn:Ep; [|done]. cbn [mbind option_bind] in E.
  eapply stage_on in Ep as (B2 & Hc2 & _); [|done..].
  destruct (enqueue s2 _ c2) as [s3|] eqn:Ee; [|done]. cbn [mbind option_bind] in E. injection E as <- <-.
  eapply enqueue_balanced in Ee; [|done..]. replace (n + 1 - 1) with n in Ee by lia. split; [done|].
  split; [by destruct Hm1|]. subst p1. split; [|by constructor]. by destruct p as [? ? ? ? ? ? ? ? [] ? ? ? ? ? ? ?].
Qed.

Lemma learning_balanced s p id s' n : SimpleSwitch.learning s p id = Some s' → balanced s n → balanced s' n ∧ packets s' = packets s ∧ input_buffer s' = input_buffer s.
Proof.
  unfold SimpleSwitch.learning. intros E B. destruct (0 <? id); [|by injection E as <-]. destruct (phv p); [|done]. cbn [mbind option_bind] in E.
  destruct (tick s) as [s1 now] eqn:Et. binds E. injection E as <-. pose proof (tick_balanced _ n _ _ Et B). injection Et as <- _.
  split; [by eapply balanced_same|done].
Qed.

Abbreviation resubmitting := (resubmitting (J := J) (D := D) alloc XXH64 invalid_code fields_map field_lists).

Lemma push_input_balanced s c n : balanced s n → mine c → balanced (push_input s c) (n - 1).
Proof.
  intros B Hc. replace (n - 1) with (n + 0 - Z.of_nat (length [c])) by (cbn; lia).
  apply (balanced_change s); [done|apply takes_same|done|by constructor].
Qed.

Lemma resubmitting_balanced s p in_state flag s' n : resubmitting s p in_state flag = Some s' → mine p → balanced s n → balanced s' (n - 1).
Proof.
  unfold SimpleSwitch.resubmitting. intros E Hm B.
  destruct (SimpleSwitch.set _ _ _ _) as [p1|] eqn:E1; [|done]. cbn [mbind option_bind] in E. pose proof (set_mine _ _ _ _ E1 Hm) as Hm1.
  destruct (copy_ingress_pkt _ _ _ _) as [[s1 c]|] eqn:Ec; [|done]. cbn [mbind option_bind] in E.
  eapply copy_balanced in Ec as (B1 & Hc & _); [|done..]. eapply destroy_balanced in E; [|done|by apply push_input_balanced].
  by replace (n + 1 - 1 - 1) with (n - 1) in E by lia.
Qed.

Abbreviation replicating := (replicating (J := J) (D := D) alloc XXH64 invalid_code fields_map).

Lemma replicating_balanced p_size outs : ∀ s p s' p' n, replicating s p p_size outs = Some (s', p') → mine p → balanced s n →
  balanced s' n ∧ mine p'.
Proof.
  induction outs as [|out outs IH]; intros s p s' p' n E Hm B; cbn [SimpleSwitch.replicating] in E; [by injection E as <- <-|].
  destruct (SimpleSwitch.set _ p _ _) as [p1|] eqn:E1; [|done]. cbn [mbind option_bind] in E. apply set_mine in E1; [|done].
  destruct (SimpleSwitch.set _ p1 _ _) as [p2|] eqn:E2; [|done]. cbn [mbind option_bind] in E. apply set_mine in E2; [|done].
  destruct (tick s) as [s1 now] eqn:Et. apply (tick_balanced s n) in Et; [|done].
  destruct (clone_with_phv _ _ _ _ _ _) as [[w c]|] eqn:Ec; [|done]. cbn [mbind option_bind] in E. apply clone_with_phv_takes in Ec as [T Hc]; [|done].
  destruct (Packets.set_register c _ _) as [c1|] eqn:Er; [|done]. cbn [mbind option_bind] in E. apply set_register_mine in Er; [|done].
  destruct (enqueue _ _ c1) as [s2|] eqn:Ee; [|done]. cbn [mbind option_bind] in E.
  eapply (enqueue_balanced _ _ _ _ (n + 1)) in Ee; [|done|by apply (balanced_taken s1)]. replace (n + 1 - 1) with n in Ee by lia.
  by eapply IH.
Qed.

Lemma multicast_balanced s p mgid instance_type s' n :
  multicast alloc XXH64 invalid_code unwritten fields_map s p mgid instance_type = Some s' → mine p → balanced s n → balanced s' (n - 1).
Proof.
  unfold multicast. intros E Hm B. destruct (phv p); [|done]. cbn [mbind option_bind] in E.
  destruct (Primitives.get_field _ _ _); [|done]. cbn [mbind option_bind] in E. destruct (SimplePre.replicate _ _) as [outs|]; [|done]. cbn [mbind option_bind] in E.
  destruct (Primitives.read_register _ _ _); [|done]. cbn [mbind option_bind] in E.
  destruct (replicating _ _ _ _) as [[s1 p1]|] eqn:Er; [|done]. cbn [mbind option_bind] in E. eapply replicating_balanced in Er as [B1 Hm1]; [|done..].
  destruct (SimpleSwitch.set _ p1 _ _) as [p2|] eqn:E2; [|done]. cbn [mbind option_bind] in E. apply set_mine in E2; [|done].
  by eapply destroy_balanced.
Qed.

Abbreviation after_ingress := (after_ingress (J := J) (D := D) alloc XXH64 invalid_code unwritten fields_map field_lists parse).

Lemma after_ingress_balanced s p in_state s' n : after_ingress s p in_state = Some s' → mine p → balanced s n → balanced s' (n - 1).
Proof.
  unfold SimpleSwitch.after_ingress. intros E Hm B.
  bind E as spec eqn E1. bind E as clone_spec eqn E2. bind E as learn_id eqn E3. bind E as mgid eqn E4. bind E as [s1 p1] eqn E5.
  eapply ingress_cloning_balanced in E5 as (B1 & Hm1 & _); [|by destruct Hm|done].
  bind E as s2 eqn E6. eapply learning_balanced in E6 as (B2 & _); [|done]. bind E as flag eqn E7.
  destruct (negb (flag =? 0)); [by eapply resubmitting_balanced|]. bind E as it eqn E8.
  destruct (negb (mgid =? 0)); [by eapply multicast_balanced|].
  destruct (spec =? 511); [by eapply destroy_balanced|by eapply enqueue_balanced].
Qed.

Lemma balanced_eq s n m : balanced s n → n = m → balanced s m.
Proof. by intros ? <-. Qed.

Theorem ingress_thread_balanced s s' :
  ingress_thread alloc XXH64 invalid_code unwritten fields_map field_lists parse ingress_mau s = Some s' → balanced s 0 → balanced s' 0.
Proof.
  unfold ingress_thread. intros E B. destruct (last (input_buffer s)) as [p|] eqn:El; [|by injection E as <-].
  apply last_Some in El as (l & El). rewrite El, length_app, Nat.add_sub in E. cbn [length] in E. rewrite take_app_length in E.
  assert (mine p ∧ balanced (with_input s l) 1) as [Hm B1].
  { destruct B as [U F]. unfold packets in *. rewrite El in *. apply Forall_app in F as [[F1 [Hm F2]%Forall_cons]%Forall_app F3]. split; [done|].
    split; cbn; [|by apply Forall_app]. rewrite U. do 2 f_equal. rewrite !length_app. cbn. lia. }
  bind E as [s1 p1] eqn E1. eapply stage_on in E1 as (B2 & Hm1 & _); [|done..]. bind E as [s2 p2] eqn E2. eapply stage_on in E2 as (B3 & Hm2 & _); [|done..].
  eapply after_ingress_balanced in E; [|done..]. by eapply balanced_eq.
Qed.

(** *** Egress *)

Lemma dequeued_balanced s p port s' p' n : dequeued unwritten fields_map s p port = Some (s', p') → mine p → balanced s n → balanced s' n ∧ mine p'.
Proof.
  unfold dequeued. intros E Hm B. bind E as [s1 p1] eqn E1.
  assert (balanced s1 n ∧ mine p1) as [B1 Hm1].
  { destruct (with_queueing_metadata s); [|by injection E1 as <- <-]. bind E1 as t eqn Et. destruct (get_ts s) as [s2 ts] eqn:Es.
    bind E1 as p2 eqn E2. bind E1 as d eqn E3. bind E1 as p3 eqn E4. injection E1 as <- <-. apply (get_ts_balanced s n) in Es; [|done].
    split; [done|]. eapply set_mine; [exact E4|]. by eapply set_mine. }
  bind E as p2 eqn E2. bind E as p3 eqn E3. bind E as len eqn E4. bind E as p4 eqn E5. injection E as <- <-. split; [done|].
  eapply set_mine; [exact E5|]. eapply set_mine; [exact E3|]. by eapply set_mine.
Qed.

Lemma egress_cloning_balanced s p spec s' p' n :
  egress_cloning alloc XXH64 invalid_code fields_map field_lists s p spec = Some (s', p') → mine p → balanced s n → balanced s' n ∧ mine p'.
Proof.
  unfold egress_cloning. intros E Hm B. destruct (spec =? 0); [by injection E as <- <-|]. destruct (_ <? 0); [by injection E as <- <-|].
  bind E as p1 eqn E1. apply set_mine in E1; [|done]. destruct (tick s) as [s1 now] eqn:Et. apply (tick_balanced s n) in Et; [|done].
  bind E as [w c] eqn E2. apply clone_reset_takes in E2 as [T Hc]; [|done]. bind E as fl eqn E3. bind E as q eqn E4.
  bind E as c1 eqn E5. apply on_phv_mine in E5; [|done]. bind E as c2 eqn E6. apply set_mine in E6; [|done].
  bind E as s2 eqn E7. injection E as <- <-. split; [|done]. eapply enqueue_balanced in E7; [|done|by apply (balanced_taken s1 _ n 1)].
  eapply balanced_eq; [done|lia].
Qed.

Lemma recirculating_balanced s p flag s' n :
  recirculating alloc XXH64 invalid_code fields_map field_lists s p flag = Some s' → mine p → balanced s n → balanced s' (n - 1).
Proof.
  unfold recirculating. intros E Hm B. bind E as p1 eqn E1. apply set_mine in E1 as Hm1; [|done]. bind E as fl eqn E2.
  destruct (tick s) as [s1 now] eqn:Et. apply (tick_balanced s n) in Et; [|done]. bind E as [w c] eqn E3.
  apply clone_takes in E3 as (T & Hc & _); [|apply Hm1]. bind E as c1 eqn E4. apply on_phv_mine in E4; [|done]. bind E as q eqn E5.
  bind E as c2 eqn E6. apply on_phv_mine in E6; [|done]. bind E as c3 eqn E7. apply set_mine in E7; [|done].
  bind E as c4 eqn E8. apply set_register_mine in E8; [|done]. bind E as c5 eqn E9. apply set_mine in E9; [|done].
  eapply destroy_balanced in E; [|done|apply push_input_balanced; [by apply (balanced_taken s1 _ n 1)|done]]. eapply balanced_eq; [done|lia].
Qed.

Lemma after_egress_balanced s p s' n :
  after_egress alloc XXH64 invalid_code fields_map field_lists deparse s p = Some s' → mine p → balanced s n → balanced s' (n - 1).
Proof.
  unfold after_egress. intros E Hm B. bind E as spec eqn E1. bind E as [s1 p1] eqn E2. eapply egress_cloning_balanced in E2 as [B1 Hm1]; [|done..].
  bind E as port eqn E3. destruct (port =? 511); [by eapply destroy_balanced|]. bind E as [s2 p2] eqn E4. eapply stage_on in E4 as (B2 & Hm2 & _); [|done..].
  bind E as flag eqn E5. destruct (negb (flag =? 0)); [by eapply recirculating_balanced|]. injection E as <-.
  eapply balanced_eq; [apply (balanced_change s2 _ n 0 [p2]); [done|apply takes_same| |by constructor]|cbn; lia].
  unfold packets. cbn. by rewrite app_assoc, <- Permutation_middle, <- app_assoc.
Qed.

Theorem egress_thread_balanced s worker i s' :
  egress_thread alloc XXH64 invalid_code unwritten fields_map field_lists egress_mau deparse s worker i = Some s' → balanced s 0 → balanced s' 0.
Proof.
  unfold egress_thread. intros E B. destruct (tick s) as [s1 now] eqn:Et. apply (tick_balanced s 0) in Et; [|done].
  bind E as [q r] eqn E1. destruct r as [x|x].
  - apply wait_queued in E1 as ->. injection E as <-. by apply (balanced_same s1).
  - apply pop_queued in E1. assert (mine (Queueing.e x) ∧ balanced (with_egress s1 q) 1) as [Hm B1].
    { destruct Et as [U F]. unfold packets in *. rewrite E1 in *. cbn in *. rewrite <- Permutation_middle in F. apply Forall_cons in F as [Hm F].
      split; [done|]. split; [|done]. cbn. rewrite U. do 2 f_equal. unfold packets. cbn. rewrite !length_app. cbn. rewrite length_app. lia. }
    unfold egress_packet in E. bind E as [s2 p2] eqn E2. eapply dequeued_balanced in E2 as [B2 Hm2]; [|done..].
    bind E as [s3 p3] eqn E3. eapply stage_on in E3 as (B3 & Hm3 & _); [|done..]. eapply after_egress_balanced in E; [|done..]. by eapply balanced_eq.
Qed.

Theorem transmit_thread_balanced s s' : transmit_thread s = Some s' → balanced s 0 → balanced s' 0.
Proof.
  unfold transmit_thread. intros E B. destruct (last (output_buffer s)) as [p|] eqn:El; [|by injection E as <-].
  apply last_Some in El as (l & El). rewrite El, length_app, Nat.add_sub in E. cbn [length] in E. rewrite take_app_length in E.
  destruct B as [U F]. unfold packets in *. rewrite El in *. apply Forall_app in F as [F1 [F2 [F3 [Hm _]%Forall_cons]%Forall_app]%Forall_app].
  eapply (destroy_balanced _ _ _ 1) in E; [by eapply balanced_eq|done|]. split; [|by repeat (apply Forall_app; split)].
  cbn. rewrite U. do 2 f_equal. unfold packets. cbn. rewrite !length_app. cbn. lia.
Qed.

Theorem receive_balanced s swapped port data s' :
  receive_ alloc XXH64 invalid_code fields_map field_exists s swapped port data = Some s' → balanced s 0 → balanced s' 0.
Proof.
  unfold receive_. intros E B. assert (balanced (if swapped then check_queueing_metadata field_exists s else s) 0) as B0.
  { destruct swapped; [|done]. unfold check_queueing_metadata. by destruct (_ && _). }
  revert E. set (s0 := if swapped then _ else s) in *. clearbody s0. intros E.
  bind E as b eqn E1. destruct (tick s0) as [s1 now] eqn:Et. apply (tick_balanced s0 0) in Et; [|done]. bind E as [w p] eqn E2.
  apply new_takes in E2 as (T & Hm & _). bind E as p1 eqn E3. apply on_phv_mine in E3; [|done]. bind E as p2 eqn E4. apply set_mine in E4; [|done].
  bind E as p3 eqn E5. apply set_register_mine in E5; [|done]. bind E as p4 eqn E6. apply set_mine in E6; [|done]. bind E as p5 eqn E7. apply set_mine in E7; [|done].
  assert (balanced (next_pkt_id (with_world s1 w)) 1) as B1.
  { apply (balanced_same (with_world s1 w)); [|done..]. eapply balanced_eq; [by apply (balanced_taken s1 _ 0 1)|lia]. }
  bind E as [s2 p6] eqn E8. injection E as <-. assert (balanced s2 1 ∧ mine p6) as [B2 Hm6].
  { destruct (Primitives.has_field _ _); [|by injection E8 as <- <-]. destruct (get_ts _) as [s3 ts] eqn:Eg. bind E8 as p7 eqn E9.
    injection E8 as <- <-. split; [by eapply get_ts_balanced|by eapply set_mine]. }
  eapply balanced_eq; [by apply push_input_balanced|lia].
Qed.

(** ** Every run *)

Inductive step s : Switch D J → Prop :=
| step_receive swapped port data s' : receive_ alloc XXH64 invalid_code fields_map field_exists s swapped port data = Some s' → step s s'
| step_ingress s' : ingress_thread alloc XXH64 invalid_code unwritten fields_map field_lists parse ingress_mau s = Some s' → step s s'
| step_egress worker i s' : egress_thread alloc XXH64 invalid_code unwritten fields_map field_lists egress_mau deparse s worker i = Some s' → step s s'
| step_transmit s' : transmit_thread s = Some s' → step s s'
| step_mirror_add id port : step s (mirroring_mapping_add s id port)
| step_mirror_delete id : step s (mirroring_mapping_delete s id).1
| step_depth port n s' : set_egress_queue_depth s port n = Some s' → step s s'
| step_depths n s' : set_all_egress_queue_depths s n = Some s' → step s s'
| step_rate port n s' : set_egress_queue_rate s port n = Some s' → step s s'
| step_rates n s' : set_all_egress_queue_rates s n = Some s' → step s s'
| step_reset : step s (reset_target_state_ s).

Lemma info_balanced s port g s' : (q ← QueueingLogicRL.update_info egress_thread_mapper (egress_buffers s) port g; Some (with_egress s q)) = Some s' →
  balanced s 0 → balanced s' 0.
Proof.
  intros E B. bind E as q eqn E1. injection E as <-. apply info_queued in E1. apply (balanced_same s); [done..|]. unfold packets. cbn. by rewrite E1.
Qed.

Lemma depth_balanced s port n s' : set_egress_queue_depth s port n = Some s' → balanced s 0 → balanced s' 0.
Proof. apply info_balanced. Qed.

Lemma rate_balanced s port n s' : set_egress_queue_rate s port n = Some s' → balanced s 0 → balanced s' 0.
Proof.
  unfold set_egress_queue_rate, QueueingLogicRL.set_rate. destruct (Queueing.delay_ticks n) as [d|]; [|done]. cbn [mbind option_bind]. apply info_balanced.
Qed.

Lemma for_loop_keeps {S} (P : S → Prop) (body : Z → S → option S) n : (∀ j x x', body j x = Some x' → P x → P x') →
  ∀ i x x', for_loop n i body x = Some x' → P x → P x'.
Proof.
  intros Hb. induction n as [|n IH]; intros i x x' E; cbn in E; [by injection E as <-|]. destruct (body i x) as [x1|] eqn:E1; [|done].
  intros Hx. by eapply IH, Hb.
Qed.

Lemma step_balanced s s' : step s s' → balanced s 0 → balanced s' 0.
Proof.
  destruct 1 as [? ? ? ? E|? E|? ? ? E|? E|id port|id|port n s' E|n s' E|port n s' E|n s' E|].
  - by eapply receive_balanced.
  - by eapply ingress_thread_balanced.
  - by eapply egress_thread_balanced.
  - by eapply transmit_thread_balanced.
  - done.
  - done.
  - by eapply depth_balanced.
  - eapply (for_loop_keeps (λ s, balanced s 0)); [|exact E]. intros j x x'. apply depth_balanced.
  - by eapply rate_balanced.
  - eapply (for_loop_keeps (λ s, balanced s 0)); [|exact E]. intros j x x'. apply rate_balanced.
  - done.
Qed.

(** C11: However packets are received, cloned, resubmitted, replicated, recirculated,
    refused by full queues, dropped and transmitted, the pool of the switch
    counts as many parsed headers in use as there are packets in its buffers:
    none is lost, and none is given back twice. With no packet in the switch a
    new configuration can be taken. *)
Theorem packets_conserved max_port w (d : D) clock s : uses w = Some 0 → rtc step (new_switch max_port w d clock) s →
  PhvSource.phvs_in_use (phv_source (world s)) 0 = Some (u64 (Z.of_nat (length (packets s)))) ∧
  Forall mine (packets s) ∧
  (packets s = [] → ∀ f, is_Some (PhvSource.set_phv_factory (phv_source (world s)) 0 f)).
Proof.
  intros Hw Hr. assert (balanced s 0) as [U F].
  { assert (balanced (new_switch max_port w d clock) 0) as B.
    { assert (packets (new_switch max_port w d clock) = []) as E.
      { unfold packets, queued. cbn. rewrite app_nil_r, concat_replicate_nil. done. }
      split; [by rewrite E|by rewrite E]. }
    revert B. induction Hr as [|s1 s2 s3 Hs _ IH]; [done|]. intros B. by eapply IH, step_balanced. }
  rewrite Z.add_0_r in U. split; [done|]. split; [done|]. intros E f. rewrite E in U. unfold uses, PhvSource.phvs_in_use in U.
  unfold PhvSource.set_phv_factory. destruct (vget _ 0) as [pool|] eqn:Ep; [|done]. cbn [mbind option_bind]. injection U as U.
  unfold PhvSource.pool_set_phv_factory. rewrite U.
  change (u64 (Z.of_nat 0) =? 0) with true. cbn [mbind option_bind]. pose proof (vget_Some_range _ _ _ Ep). by rewrite vset_Some.
Qed.

(** ** What goes back to the input *)

Lemma destroy_input s p s' : SimpleSwitch.destroy s p = Some s' → input_buffer s' = input_buffer s.
Proof. unfold SimpleSwitch.destroy. intros E. bind E as w eqn Ew. by injection E as <-. Qed.

Lemma enqueue_input s port p s' : enqueue s port p = Some s' → input_buffer s' = input_buffer s.
Proof.
  unfold SimpleSwitch.enqueue. intros E. bind E as [s1 p1] eqn E1.
  assert (input_buffer s1 = input_buffer s) as E2.
  { destruct (with_queueing_metadata s); [|by injection E1 as <- <-]. destruct (get_ts s) as [s2 ts] eqn:Et. binds E1. injection E1 as <- <-.
    by injection Et as <- _. }
  rewrite <- E2. destruct (tick s1) as [s2 now] eqn:Et. injection Et as <- _. bind E as [q pushed] eqn Eq. destruct pushed; [by injection E as <-|].
  by apply destroy_input in E.
Qed.

Lemma ingress_cloning_input s p in_state spec s' p' n : ingress_cloning s p in_state spec = Some (s', p') → mine p → balanced s n →
  input_buffer s' = input_buffer s.
Proof.
  unfold SimpleSwitch.ingress_cloning. intros E Hm B. destruct (spec =? 0); [by injection E as <- <-|]. bind E as p1 eqn E1.
  apply set_mine in E1; [|done]. destruct (_ <? 0); [by injection E as <- <-|]. bind E as [s1 c] eqn E2.
  eapply copy_balanced in E2 as (B1 & Hc & _ & _ & _ & _ & _ & Hi); [|by destruct E1|done]. bind E as [s2 c2] eqn E3.
  eapply stage_on in E3 as (_ & _ & _ & Hi2); [|done..]. bind E as s3 eqn E4. injection E as <- <-. apply enqueue_input in E4. congruence.
Qed.

Lemma replicating_input p_size outs : ∀ s p s' p', replicating s p p_size outs = Some (s', p') → input_buffer s' = input_buffer s.
Proof.
  induction outs as [|out outs IH]; intros s p s' p' E; cbn [SimpleSwitch.replicating] in E; [by injection E as <- <-|].
  bind E as p1 eqn E1. bind E as p2 eqn E2. destruct (tick s) as [s1 now] eqn:Et. bind E as [w c] eqn E3. bind E as c1 eqn E4. bind E as s2 eqn E5.
  apply IH in E. apply enqueue_input in E5. injection Et as <- _. cbn in E5. congruence.
Qed.

(** The data of a packet, wherever it was parsed to. *)
Hypothesis length_alloc : ∀ n, 0 ≤ n → Z.of_nat (length (alloc n)) = n.
Context (parse_reads : stage_reads parse) (ingress_reads : stage_reads ingress_mau).

Definition replays p c : Prop :=
  PacketBuffer.start (buffer c) = PacketBuffer.start (buffer p) ∧ PacketBuffer.ok (buffer c) ∧
  ingress_port c = ingress_port p ∧ packet_id c = packet_id p ∧ ingress_length c = ingress_length p.

(** The headers of a packet that is resubmitted: new ones, whose metadata is that
    of the field list, but for the instance type. *)
Definition resubmission p (flag : Z) c : Prop := ∃ src src' new new' fields copied typed,
  Packets.phv p = Some src ∧ Primitives.set_field fields_map src "intrinsic_metadata.resubmit_flag" 0 = Some src' ∧
  Phv.reset_metadata new = Some new' ∧ field_lists flag = Some fields ∧
  FieldLists.copy_fields_between_phvs fields new' src' = Some copied ∧
  Primitives.set_field fields_map copied "standard_metadata.instance_type" 6 = Some typed ∧ Packets.phv c = Some typed.

Lemma on_phv_inv p f p' : on_phv p f = Some p' → ∃ q q', Packets.phv p = Some q ∧ f q = Some q' ∧ p' = set_phv p (Some q').
Proof. unfold on_phv. intros E. bind E as q eqn E1. bind E as q' eqn E2. injection E as <-. by exists q, q'. Qed.

Lemma resubmitting_fields s p in_state flag s' : resubmitting s p in_state flag = Some s' →
  ∃ c, input_buffer s' = c :: input_buffer s ∧ resubmission p flag c.
Proof.
  unfold SimpleSwitch.resubmitting. intros E. bind E as p1 eqn E1. apply on_phv_inv in E1 as (src & src' & Hsrc & Hset & ->). cbn in Hsrc.
  bind E as [s1 c] eqn E2. apply destroy_input in E. cbn in E. unfold SimpleSwitch.copy_ingress_pkt in E2.
  destruct (tick s) as [s0 now] eqn:Et. injection Et as <- _. bind E2 as [w c0] eqn C0. bind E2 as c1 eqn C1. apply on_phv_inv in C1 as (new & new' & _ & Hr & ->).
  bind E2 as fl eqn C2. bind E2 as q eqn C3. injection C3 as <-. bind E2 as c2 eqn C4. apply on_phv_inv in C4 as (n1 & copied & Hn & Hcp & ->). injection Hn as <-.
  bind E2 as c3 eqn C5. apply on_phv_inv in C5 as (n2 & typed & Hn2 & Hty & ->). injection Hn2 as <-. injection E2 as <- <-.
  eexists. split; [exact E|]. by exists src, src', new, new', fl, copied, typed.
Qed.

Lemma resubmitting_input s p p0 flag s' n : kept p0 p → memory p0 p → PacketBuffer.ok (buffer p0) →
  resubmitting s p (save_buffer_state p0) flag = Some s' → mine p → balanced s n →
  ∃ c, input_buffer s' = c :: input_buffer s ∧ replays p0 c.
Proof.
  unfold SimpleSwitch.resubmitting. intros [] [Mb Ms] Hok E Hm B. bind E as p1 eqn E1. pose proof (set_mine _ _ _ _ E1 Hm) as Hm1.
  apply set_fields in E1 as [q Eq]. bind E as [s1 c] eqn E2. eapply copy_balanced in E2 as (_ & _ & Hb & Hl & Hp & Hi & _ & Hin); [|done..].
  apply destroy_input in E. exists c. split; [cbn in E; congruence|].
  assert (buffer p1 = buffer p0) as Eb.
  { subst p1. cbn. unfold PacketBuffer.restore_state, save_buffer_state, PacketBuffer.save_state. cbn. rewrite Mb, Ms. by destruct (buffer p0). }
  rewrite Eb in Hb. destruct (PacketBuffer.clone_spec alloc length_alloc (buffer p0) (PacketBuffer.data_size (buffer p0)) Hok) as (b & E3 & Hbok & Hst & _);
    [destruct Hok; lia|]. rewrite Hb in E3. injection E3 as <-.
  assert (ingress_port p1 = ingress_port p0 ∧ packet_id p1 = packet_id p0 ∧ ingress_length p1 = ingress_length p0) as (? & ? & ?) by (subst p1; done).
  split; [|split; [done|split_and!; congruence]]. rewrite Hst, Z.sub_diag. by rewrite drop_0.
Qed.

(** The ingress thread up to learning: the packet after the parser, the pipeline and the clones. *)
Definition processed s p : option (Switch D J * Packet) :=
  let in_state := save_buffer_state p in
  '(s, p) ← parse_on parse s p; '(s, p) ← ingress_on ingress_mau s p;
  let p := reset_exit p in
  clone_spec ← SimpleSwitch.read fields_map Data.get_uint p "standard_metadata.clone_spec";
  ingress_cloning s p in_state clone_spec.


(** ** What copies do not get *)

Lemma new_registers w now cxt port id copy len b w' p : Packets.new XXH64 invalid_code w now cxt port id copy len b = Some (w', p) →
  Primitives.read_register unwritten p PACKET_LENGTH_REG_IDX = Some unwritten.
Proof. unfold Packets.new. destruct (PhvSource.get _ _) as [[src q]|]; [|done]. cbn. by intros [= <- <-]. Qed.

(** The length of a copy that is resubmitted or made at ingress is not set: the
    register is one that was never written, and what it holds becomes the
    [packet_length] that the egress pipeline sees. *)
Theorem copy_length_unwritten s p copy_type id s' c : copy_ingress_pkt s p copy_type id = Some (s', c) →
  Primitives.read_register unwritten c PACKET_LENGTH_REG_IDX = Some unwritten.
Proof.
  unfold SimpleSwitch.copy_ingress_pkt. intros E. destruct (tick s) as [s1 now]. bind E as [w c1] eqn E1.
  assert (Primitives.read_register unwritten c1 PACKET_LENGTH_REG_IDX = Some unwritten) as Hr.
  { unfold clone_no_phv, clone_choose_context in E1. bind E1 as [g n] eqn E2. bind E1 as b eqn E3. by eapply new_registers. }
  bind E as c2 eqn E2. apply on_phv_fields in E2 as [? ->]. bind E as fl eqn E3. bind E as q eqn E4.
  bind E as c3 eqn E5. apply on_phv_fields in E5 as [? ->]. bind E as c4 eqn E6. apply set_fields in E6 as [? ->]. by injection E as <- <-.
Qed.

(** A packet that is recirculated has the length of the packet that was
    received, which is what the parser goes by, whatever was deparsed. *)
Theorem recirculated_length s p flag s' : recirculating alloc XXH64 invalid_code fields_map field_lists s p flag = Some s' → mine p →
  ∃ c, input_buffer s' = c :: input_buffer s ∧ ingress_length c = ingress_length p ∧
    PacketBuffer.clone alloc (buffer p) (PacketBuffer.data_size (buffer p)) = Some (buffer c).
Proof.
  unfold recirculating. intros E Hm. bind E as p1 eqn E1. apply set_mine in E1 as Hm1; [|done]. apply set_fields in E1 as [q1 Eq1]. bind E as fl eqn E2.
  destruct (tick s) as [s1 now] eqn:Et. bind E as [w c] eqn E3. apply clone_takes in E3 as (_ & Hc & Hb & Hl & _); [|apply Hm1].
  bind E as c1 eqn E4. apply on_phv_fields in E4 as [? ->]. bind E as q eqn E5. bind E as c2 eqn E6. apply on_phv_fields in E6 as [? ->].
  bind E as c3 eqn E7. apply set_fields in E7 as [? ->]. bind E as c4 eqn E8.
  assert (ingress_length c4 = ingress_length c ∧ buffer c4 = buffer c) as [El4 Eb4] by (unfold Packets.set_register in E8; bind E8 as rs eqn E0; by injection E8 as <-).
  bind E as c5 eqn E9. apply set_fields in E9 as [? ->]. apply destroy_input in E. injection Et as <- _. eexists. split; [exact E|].
  subst p1. cbn in *. split; congruence.
Qed.
End balance.
End SwitchSpec.
