(* ===== verification/PrimitivesSpec.v ===== *)
(** * What the primitives of the simple switch leave

    The field [clone_spec] holds a mirror session and a field list, which the
    switch takes out of it again; the register 0 of a packet follows the length
    of its headers, as long as they are added and removed by their primitives. *)

From stdpp Require Import gmap strings.
From S2P Require Import Prelude Data Fields Headers Phv PhvFactory Packets Crc Cksum Calculations.
From S2P Require Import Expressions ErrorCodes Parser Counters Meters Actions FieldLists Primitives SimpleSwitch SwitchSpec.
Import (coercions) Fields.

Module PrimitivesSpec.
Import Packets SwitchFrame.

Section spec.
Context `{GmpLaws, !GmpSize, !GmpInt}.
Context (fields_map : gmap string Parser.field_t) (unwritten : Z).
Abbreviation State := (Actions.State (X := Primitives.Target)).
Implicit Types (st : State) (f : Actions.ActionFn) (ad : Actions.ActionData) (x : Fields.Field) (h : Headers.Header) (phv : Phv.PHV).

(** ** Clones *)

(** Setting a field by its name. *)
Lemma set_named_place st name place x v : fields_map !! name = Some place → Parser.get_field (Actions.phv st) place = Some x → Fields.wf x →
  ∃ st' x', Primitives.set_named fields_map st name v = Some st' ∧ Fields.wf x' ∧ Data.value x' = Fields.exported x v ∧
    FieldLists.type_of x' = FieldLists.type_of x ∧
    ∀ g, Parser.get_field (Actions.phv st') g = if decide (g = place) then Some x' else Parser.get_field (Actions.phv st) g.
Proof.
  intros Hp Hx Hw. destruct (FieldLists.set_place (Actions.phv st) place x v Hx Hw) as (x' & phv' & Es & Ef & Hw' & Hv & Ht & Hg & _).
  exists (Actions.with_phv st phv'), x'. split; [|done]. unfold Primitives.set_named, Primitives.set_field. rewrite Hp. msimpl. rewrite Hx. msimpl.
  rewrite Es. msimpl. by rewrite Ef.
Qed.

(** A field of 32 bits that the program computes with. *)
Definition word_field x : Prop :=
  Fields.nbits x = 32 ∧ Fields.is_signed x = false ∧ Fields.is_saturating x = false ∧ Data.arith x = true.

Lemma word_field_type x y : FieldLists.type_of y = FieldLists.type_of x → word_field x → word_field y.
Proof. unfold word_field, FieldLists.type_of. intros [= -> _ _ _ -> -> -> _]. done. Qed.

Lemma word_exported x v : word_field x → 0 ≤ v < 2 ^ 32 → Fields.exported x v = v.
Proof. intros (E1 & E2 & E3 & _) Hv. unfold Fields.exported. rewrite E2, E3, E1. by apply Z.mod_small. Qed.

(** C31: The session and the field list that a clone was asked for are those that
    the switch takes from the field; no other field changes. *)
Theorem clone_spec_read f ad st i j rest place x (session lst : Data.Data) :
  fields_map !! "standard_metadata.clone_spec"%string = Some place → Parser.get_field (Actions.phv st) place = Some x → Fields.wf x → word_field x →
  vget ad i = Some session → vget ad j = Some lst → Data.arith session = true → Data.arith lst = true →
  0 ≤ Data.value session < 2 ^ 16 → 0 ≤ Data.value lst < 2 ^ 16 →
  ∃ st' v, Primitives.exec_clone fields_map f ad (Actions.ACTION_DATA i :: Actions.ACTION_DATA j :: rest) st = Some st' ∧
    (y ← Primitives.get_field fields_map (Actions.phv st') "standard_metadata.clone_spec"; Data.get_uint (Fields.base y)) = Some v ∧
    SimpleSwitch.mirror_id v = Data.value session ∧ SimpleSwitch.field_list_id v = Data.value lst ∧
    ∀ g, g ≠ place → Parser.get_field (Actions.phv st') g = Parser.get_field (Actions.phv st) g.
Proof.
  intros Hp Hx Hw H32 Hi Hj As Al Rs Rl. unfold Primitives.exec_clone, Primitives.const_arg, Primitives.get_field. cbn [lookup list_lookup Actions.to_const_data].
  msimpl. cbn [Actions.to_const_data]. rewrite Hi. msimpl. rewrite Hj. msimpl. cbn [Actions.read]. rewrite Hj. msimpl. rewrite Al. cbn [negb].
  destruct (set_named_place st _ place x (Z.shiftl (Data.value lst) 16) Hp Hx Hw) as (st1 & x1 & -> & Hw1 & Hv1 & Ht1 & Hg1). msimpl.
  assert (Parser.get_field (Actions.phv st1) place = Some x1) as Hx1 by (by rewrite Hg1, decide_True).
  rewrite Hp. msimpl. rewrite Hx1. msimpl. rewrite Hi. msimpl. pose proof (word_field_type _ _ Ht1 H32) as H32'.
  assert (Data.arith (Fields.base x1) = true) as A1 by apply H32'.
  unfold Data.add, Data.arith2. rewrite A1, As. cbn [andb]. msimpl.
  rewrite Z.shiftl_mul_pow2 in Hv1 by lia. rewrite word_exported in Hv1 by (done || lia).
  destruct (set_named_place st1 _ place x1 (Data.value (Fields.base x1) + Data.value session) Hp Hx1 Hw1) as (st2 & x2 & -> & Hw2 & Hv2 & Ht2 & Hg2).
  rewrite Hv1, word_exported in Hv2 by (done || lia). exists st2, (Data.value x2). split; [done|].
  rewrite Hg2, decide_True by done. msimpl. pose proof (word_field_type _ _ Ht2 H32') as (_ & _ & _ & A2).
  split; [unfold Data.get_uint; rewrite A2, convert_to_uint_small; [done|rewrite Hv2; lia]|]. unfold SimpleSwitch.mirror_id, SimpleSwitch.field_list_id.
  rewrite Hv2. split; [|split].
  - change 0xFFFF with (Z.ones 16). rewrite Z.land_ones by lia. rewrite Z.add_comm, Z.mod_add by lia. by apply Z.mod_small.
  - rewrite Z.shiftr_div_pow2 by lia. rewrite Z.add_comm, Z.div_add by lia. rewrite Z.div_small by lia. lia.
  - intros g Hg. by rewrite Hg2, Hg1, !decide_False.
Qed.

(** ** The length *)

(** The bytes that a header has in the packet. *)
Definition bytes_of h : Z := if Headers.valid h && negb (Headers.metadata h) then Headers.nbytes_packet h else 0.
Definition packet_length phv : Z := foldr Z.add 0 (bytes_of <$> Phv.headers phv).

Lemma sum_insert (l : list Z) i a b : l !! i = Some a → foldr Z.add 0 (<[i := b]> l) = foldr Z.add 0 l - a + b.
Proof. revert i. induction l as [|c l IH]; intros [|i] Hi; simplify_eq/=; [lia|]. rewrite (IH i Hi). lia. Qed.

Lemma set_header_length phv k h h' phv' : Phv.get_header phv k = Some h → Phv.set_header phv k h' = Some phv' →
  packet_length phv' = packet_length phv - bytes_of h + bytes_of h'.
Proof.
  unfold Phv.get_header, Phv.set_header, packet_length. intros Hg. destruct (vset _ k h') as [hs|] eqn:E; [|done]. cbn. intros [= <-]. cbn.
  apply vset_inv in E as [Hr ->]. rewrite list_fmap_insert. apply sum_insert. rewrite vget_nat in Hg by lia. by rewrite list_lookup_fmap, Hg.
Qed.

Lemma get_set_header phv k h phv' : Phv.set_header phv k h = Some phv' → Phv.get_header phv' k = Some h.
Proof.
  unfold Phv.set_header, Phv.get_header. destruct (vset _ k h) as [hs|] eqn:E; [|done]. cbn. intros [= <-]. cbn. by rewrite (vget_vset _ _ _ _ _ E), decide_True.
Qed.

Lemma set_valid_rest h b h' : Headers.set_valid h b = Some h' →
  Headers.valid h' = b ∧ Headers.metadata h' = Headers.metadata h ∧ Headers.nbytes_packet h' = Headers.nbytes_packet h ∧
  Headers.union_membership h' = Headers.union_membership h.
Proof. unfold Headers.set_valid. intros E. binds E. by injection E as <-. Qed.

(** Marking a header that is in no union. *)
Lemma mark_valid_length phv k h phv' : Phv.get_header phv k = Some h → Headers.union_membership h = None → Phv.mark_valid phv k = Some phv' →
  ∃ h', Phv.get_header phv' k = Some h' ∧ Headers.set_valid h true = Some h' ∧ packet_length phv' = packet_length phv - bytes_of h + bytes_of h'.
Proof.
  intros Hg Hm. unfold Phv.mark_valid. rewrite Hg. cbn [mbind option_bind]. intros E. bind E as h' eqn E1. bind E as phv1 eqn E2. rewrite Hm in E.
  injection E as <-. exists h'. split; [by eapply get_set_header|]. split; [done|]. by eapply set_header_length.
Qed.

Lemma mark_invalid_length phv k h phv' : Phv.get_header phv k = Some h → Headers.union_membership h = None → Phv.mark_invalid phv k = Some phv' →
  ∃ h', Headers.set_valid h false = Some h' ∧ packet_length phv' = packet_length phv - bytes_of h + bytes_of h'.
Proof.
  intros Hg Hm. unfold Phv.mark_invalid. rewrite Hg. cbn [mbind option_bind]. intros E. bind E as h' eqn E1. bind E as phv1 eqn E2. rewrite Hm in E.
  injection E as <-. exists h'. split; [done|]. by eapply set_header_length.
Qed.

Definition register0 st : option Z := Primitives.read_register unwritten (packet_of st) 0.

Lemma add_length_register st n st' r : register0 st = Some r → Primitives.add_length unwritten st n = Some st' →
  register0 st' = Some (u64 (r + n)) ∧ Actions.phv st' = Actions.phv st.
Proof.
  unfold register0, packet_of, Primitives.add_length, Packets.set_register. intros Hr E. rewrite Hr in E. cbn [mbind option_bind] in E.
  bind E as p eqn E1. bind E1 as rs eqn E2. injection E1 as <-. injection E as <-. split; [|done]. cbn. unfold Primitives.read_register. cbn.
  by rewrite (vget_vset _ _ _ _ _ E2), decide_True.
Qed.

(** What the packet has besides its headers, as the register counts it. *)
Definition rest_of st r : Z := u64 (r - packet_length (Actions.phv st)).

(** C32: Adding and removing headers that are in no union, the register follows their
    length: what it has more than the headers stays. *)
Theorem length_kept st hdr h st' r (added : bool) :
  (if added then Primitives.exec_add_header unwritten st hdr else Primitives.exec_remove_header unwritten st hdr) = Some st' →
  Phv.get_header (Actions.phv st) hdr = Some h → Headers.metadata h = false → Headers.union_membership h = None → register0 st = Some r →
  ∃ r', register0 st' = Some r' ∧ rest_of st' r' = rest_of st r.
Proof.
  intros E Hg Hm Hu Hr. assert (∀ a b, u64 (u64 a - b) = u64 (a - b)) as Hmod.
  { intros a b. unfold wrap. by rewrite Zminus_mod_idemp_l. }
  destruct added.
  - unfold Primitives.exec_add_header in E. rewrite Hg in E. cbn [mbind option_bind] in E. unfold Headers.is_valid in E. rewrite Hm in E. cbn [orb] in E.
    destruct (Headers.valid h) eqn:Ev; [injection E as <-; by exists r|].
    bind E as h1 eqn E1. bind E as phv1 eqn E2. bind E as phv2 eqn E3. bind E as h2 eqn E4.
    assert (Headers.valid h1 = false ∧ Headers.metadata h1 = false ∧ Headers.nbytes_packet h1 = Headers.nbytes_packet h ∧ Headers.union_membership h1 = None)
      as (V1 & M1 & N1 & U1) by (unfold Headers.reset in E1; bind E1 as fs eqn E0; injection E1 as <-; done).
    pose proof (set_header_length _ _ _ _ _ Hg E2) as L1. pose proof (mark_valid_length _ _ _ _ (get_set_header _ _ _ _ E2) U1 E3) as (h3 & G3 & S3 & L2).
    assert (h3 = h2) as -> by congruence. destruct (set_valid_rest _ _ _ S3) as (V2 & M2 & N2 & _).
    destruct (add_length_register (Actions.with_phv st phv2) (Headers.nbytes_packet h2) st' r Hr E) as [Hr' Ep].
    exists (u64 (r + Headers.nbytes_packet h2)). split; [done|]. unfold rest_of. rewrite Ep, Hmod. cbn. f_equal.
    rewrite L2, L1. unfold bytes_of. rewrite Ev, V1, V2, M2, M1. cbn. lia.
  - unfold Primitives.exec_remove_header in E. rewrite Hg in E. cbn [mbind option_bind] in E. unfold Headers.is_valid in E. rewrite Hm in E. cbn [orb] in E.
    destruct (Headers.valid h) eqn:Ev; cbn [negb] in E; [|injection E as <-; by exists r].
    bind E as st1 eqn E1. bind E as phv1 eqn E2. injection E as <-. destruct (add_length_register _ _ _ _ Hr E1) as [Hr' Ep]. rewrite Ep in E2.
    destruct (mark_invalid_length _ _ _ _ Hg Hu E2) as (h1 & S1 & L1). destruct (set_valid_rest _ _ _ S1) as (V1 & M1 & N1 & _).
    eexists. split; [exact Hr'|]. unfold rest_of. cbn. rewrite Hmod, L1. f_equal. unfold bytes_of. rewrite Ev, Hm, V1. cbn. lia.
Qed.
End spec.
End PrimitivesSpec.
