(* ===== verification/SwitchExamples.v ===== *)
(** * A simple switch with one header

    Runs of the switch of [SimpleSwitch.v] with the stages of [SwitchStages.v]:
    forwarding, resubmitting, cloning and recirculating; and what does not come
    out as the code means it to. *)

From stdpp Require Import gmap strings.
From S2P Require Import Prelude HandleMgr Ras Data Fields Headers Phv PhvFactory Packets PacketsSpec Crc Cksum Calculations.
From S2P Require Import Expressions ErrorCodes Parser ParserExamples Counters Meters Actions Checksums ControlFlow FieldLists Primitives.
From S2P Require Import SimplePre Queueing Learning SimpleSwitch SwitchSpec PrimitivesSpec.
Import (coercions) Fields.

Module SwitchExamples.
Import GmpExample GmpUintExample Judy1Set Packets SimpleSwitch SwitchFrame SwitchSpec PrimitivesSpec PacketsExamples.

#[local] Instance size_of : GmpSize := λ z, z mod 2 ^ 64.
#[local] Instance int_of : GmpInt := λ z, (z + 2 ^ 31) mod 2 ^ 32 - 2 ^ 31.
#[local] Instance long_of : GmpLong := λ z, (z + 2 ^ 63) mod 2 ^ 64 - 2 ^ 63.

(** ** The program *)

Definition metadata_fields : list (string * Z) :=
  [("standard_metadata.ingress_port"%string, 16); ("standard_metadata.packet_length"%string, 32); ("standard_metadata.instance_type"%string, 32);
   ("standard_metadata.egress_spec"%string, 16); ("standard_metadata.clone_spec"%string, 32); ("standard_metadata.egress_port"%string, 16);
   ("intrinsic_metadata.mcast_grp"%string, 16); ("intrinsic_metadata.resubmit_flag"%string, 16);
   ("intrinsic_metadata.recirculate_flag"%string, 16); ("intrinsic_metadata.egress_rid"%string, 16)].

Definition metadata_type : Headers.HeaderType :=
  foldl (λ ht f, (Headers.push_back_field ht f.1 f.2 false false false).1) (Headers.new_type 0) metadata_fields.
Definition fields_map : gmap string Parser.field_t :=
  list_to_map (imap (λ i f, (f.1, {| Parser.f_header := 0; Parser.f_offset := Z.of_nat i |})) metadata_fields).

Definition tag_type : Headers.HeaderType := (Headers.push_back_field (Headers.new_type 1) "kind" 8 false false false).1.
(** The program computes with the metadata only. *)
Definition factory : PhvFactory.PHVFactory :=
  default PhvFactory.new (PhvFactory.disable_all_field_arith
    (PhvFactory.push_back_header (PhvFactory.push_back_header PhvFactory.new 0 metadata_type [] true) 1 tag_type [] false) 1).

(** The parser extracts the header, the deparser emits it. *)
Definition parser : Parser.Parser :=
  Parser.set_init_state (default {| Parser.states := []; Parser.init_state := None; Parser.error_codes := ParserExamples.codes; Parser.no_error := 0 |}
    (Parser.new_parser [Parser.add_extract Parser.new_state 1] ParserExamples.codes)) (Some 0%nat).
Definition deparser : Parser.Deparser := {| Parser.d_headers := [1] |}.

Definition no_calculation (_ : Z) : option Calculations.Calculation := None.
Definition no_random (engine b e : Z) : Z * Z := (b, engine).
Definition no_table (_ : nat) (_ : Z) (_ : unit) (_ : Actions.State (X := Primitives.Target))
  : ControlFlow.Stepped (X := Primitives.Target) (Tb := unit) := ControlFlow.StepFailed.

Lemma no_table_framed : table_framed no_table.
Proof. intros fuel i tb st tb' st' node E. discriminate E. Qed.

(** A call of the primitive [name] with constants. *)
Definition call (name : string) (dst : option (Z * Z)) (args : list Z) (f : Actions.ActionFn) : Actions.ActionFn :=
  let f := match dst with Some (h, o) => Actions.parameter_push_back_field f h o | None => f end in
  let f := foldl (λ f v, Actions.parameter_push_back_const f {| Data.value := v; Data.arith := true |}) f args in
  Actions.push_back_primitive Primitives.target_num_params f (Actions.target_primitive (default (-1) (Primitives.get_primitive name))).
Definition call_header (name : string) (hdr : Z) (f : Actions.ActionFn) : Actions.ActionFn :=
  Actions.push_back_primitive Primitives.target_num_params (Actions.parameter_push_back_header f hdr)
    (Actions.target_primitive (default (-1) (Primitives.get_primitive name))).

Section program.
Context (unwritten : Z) (ingress_action egress_action : Actions.ActionFn).

Definition nodes (f : Actions.ActionFn) (id : Z) : option ControlFlow.ControlFlowNode :=
  if id =? 1 then Some (ControlFlow.ControlAction (Some f) None) else None.

Abbreviation Device := (SwitchStages.Device unit).
Definition parse : Packet → Device → option (Packet * Device) := SwitchStages.parse 8 parser [] (λ _, None) (λ _ _, None).
Definition pipeline (f : Actions.ActionFn) : Packet → Device → option (Packet * Device) :=
  SwitchStages.mau fields_map no_calculation sum no_random unwritten no_table 8 8 (nodes f) (Some 1).
Definition deparse : Packet → Device → option (Packet * Device) := SwitchStages.deparse sum deparser [] (replicate 60 0).

Definition device0 : Device :=
  {| SwitchStages.tables := tt; SwitchStages.arrays := λ _, Registers.new 0 8; SwitchStages.meter_arrays := λ _, []; SwitchStages.counter_arrays := λ _, [];
     SwitchStages.micros := Z.of_nat; SwitchStages.meter_readings := 0; SwitchStages.engine := 0; SwitchStages.data_temps := [];
     SwitchStages.jump_if_zero_offset := -1; SwitchStages.jump_offset := 0 |}.

Definition pool : PhvSource.PHVPool := {| PhvSource.phvs := []; PhvSource.phv_factory := Some factory; PhvSource.count := 0 |}.
Definition world0 : World := {| copy_id_gen := CopyIds.new; phv_source := [pool] |}.
Definition switch0 : Switch Device (gset Z) := new_switch 8 world0 device0 (λ n, 1000 * Z.of_nat n).

(** List 0 is empty, list 1 has the ingress port, list 2 the field of
    the header. *)
Definition field_lists (id : Z) : option FieldLists.FieldList :=
  if id =? 0 then Some FieldLists.empty_list else
  if id =? 1 then Some (FieldLists.push_back_field FieldLists.empty_list 0 0) else
  if id =? 2 then Some (FieldLists.push_back_field FieldLists.empty_list 1 0) else None.
Definition no_queueing (_ _ : string) : bool := false.

Abbreviation step := (step alloc sum 0 unwritten fields_map field_lists no_queueing parse (pipeline ingress_action) (pipeline egress_action) deparse).

Definition receive (s : Switch Device (gset Z)) port data := receive_ alloc sum 0 fields_map no_queueing s false port data.
Definition ingress (s : Switch Device (gset Z)) := ingress_thread alloc sum 0 unwritten fields_map field_lists parse (pipeline ingress_action) s.
Definition egress (s : Switch Device (gset Z)) worker := egress_thread alloc sum 0 unwritten fields_map field_lists (pipeline egress_action) deparse s worker 0.

Lemma stages_ok : stage_ok parse ∧ stage_ok (pipeline ingress_action) ∧ stage_ok (pipeline egress_action) ∧ stage_ok deparse.
Proof.
  split; [apply parse_ok|]. split; [apply mau_ok, no_table_framed|]. split; [apply mau_ok, no_table_framed|apply deparse_ok].
Qed.

Lemma stages_read : stage_reads parse ∧ stage_reads (pipeline ingress_action).
Proof. split; [apply parse_reads|apply mau_reads, no_table_framed]. Qed.
End program.

Definition nothing : Actions.ActionFn := Actions.new_action 0 0.
Definition to_port (p : Z) : Actions.ActionFn := call "modify_field" (Some (0, 3)) [p] (Actions.new_action 1 0).
Definition stage_data {A} (s : option (Switch (SwitchStages.Device unit) (gset Z))) (f : Switch (SwitchStages.Device unit) (gset Z) → A) : option A := f <$> s.

(** A packet goes from port 4 to port 3 as it came. *)
Definition forwarded : option (Switch (SwitchStages.Device unit) (gset Z)) :=
  s ← receive switch0 4 [7; 1; 2]; s ← ingress 0 (to_port 3) s; s ← egress 0 nothing s 3; transmit_thread s.

Example forward_run : sent <$> forwarded = Some [(3, [7; 1; 2])].
Proof. vm_compute. reflexivity. Qed.

Definition is_Some_b {A} (o : option A) : bool := match o with Some _ => true | None => false end.

(** ** Witnesses *)

Lemma uses_none : uses world0 = Some 0.
Proof. reflexivity. Qed.

(** A packet that was received and waits for port 3. *)
Definition waiting : Switch (SwitchStages.Device unit) (gset Z) :=
  default switch0 (s ← receive switch0 4 [7; 1; 2]; ingress 0 (to_port 3) s).

Lemma packets_conserved_witness : PhvSource.phvs_in_use (phv_source (world waiting)) 0 = Some 1 ∧ length (packets waiting) = 1%nat.
Proof.
  destruct (stages_ok 0 (to_port 3) nothing) as (Hp & Hi & He & Hd).
  destruct (packets_conserved alloc sum 0 0 fields_map field_lists no_queueing parse (pipeline 0 (to_port 3)) (pipeline 0 nothing) deparse Hp Hi He Hd
    8 world0 device0 (λ n, 1000 * Z.of_nat n) waiting uses_none) as [E _].
  - destruct (receive switch0 4 [7; 1; 2]) as [s1|] eqn:E1; [|vm_compute in E1; discriminate E1].
    destruct (ingress 0 (to_port 3) s1) as [s2|] eqn:E2; [|exfalso; vm_compute in E1; injection E1 as <-; vm_compute in E2; discriminate E2].
    assert (waiting = s2) as -> by (unfold waiting; rewrite E1; cbn [mbind option_bind]; by rewrite E2).
    unfold receive in E1. unfold ingress in E2. apply rtc_l with s1; [by apply (step_receive _ _ _ _ _ _ _ _ _ _ _ _ _ _ _ _ E1)|].
    apply rtc_once. by apply (step_ingress _ _ _ _ _ _ _ _ _ _ _ _ _ E2).
  - rewrite E. split; vm_compute; reflexivity.
Defined.

Definition resubmit_to (list_id : Z) : Actions.ActionFn := call "resubmit" None [list_id] (Actions.new_action 2 1).
Definition received : Switch (SwitchStages.Device unit) (gset Z) := default switch0 (receive switch0 4 [7; 1; 2]).
Definition no_packet : Packet := Build_Packet 0 0 0 0 0 0 0 0 bytes 0 0 0 0 None [] 0 0.

Lemma received_balanced : balanced received 0.
Proof.
  unfold received. destruct (receive switch0 4 [7; 1; 2]) as [s|] eqn:E; [|vm_compute in E; discriminate E]. cbn.
  unfold receive in E. refine (receive_balanced _ _ _ _ _ _ _ _ _ _ E _). split; [vm_compute; reflexivity|by apply Forall_nil].
Qed.

Lemma received_ok : PacketBuffer.ok (buffer (default no_packet (last (input_buffer received)))).
Proof. constructor; vm_compute; [reflexivity|split; discriminate|reflexivity|reflexivity]. Qed.


Definition received_packet : Packet := default no_packet (last (input_buffer received)).
Definition received_phv : Phv.PHV := default PhvFactory.empty (phv received_packet).
Definition state_of (v : Phv.PHV) : Actions.State (X := Primitives.Target) := SwitchStages.action_state received_packet v device0.

Definition word (v : Z) : Data.Data := {| Data.value := v; Data.arith := true |}.
Definition clone_place : Parser.field_t := {| Parser.f_header := 0; Parser.f_offset := 4 |}.
Definition clone_field : Fields.Field := default Fields.int8 (Parser.get_field received_phv clone_place).

Lemma clone_field_wf : Fields.wf clone_field.
Proof. constructor; vm_compute; try done; repeat constructor; done. Qed.

Lemma clone_spec_read_witness : ∃ st' v,
  Primitives.exec_clone fields_map nothing [word 5; word 2] [Actions.ACTION_DATA 0; Actions.ACTION_DATA 1] (state_of received_phv) = Some st' ∧
  (y ← Primitives.get_field fields_map (Actions.phv st') "standard_metadata.clone_spec"; Data.get_uint (Fields.base y)) = Some v ∧
  mirror_id v = 5 ∧ field_list_id v = 2.
Proof.
  assert (Parser.get_field received_phv clone_place = Some clone_field) as Hx by (vm_compute; reflexivity).
  assert (fields_map !! "standard_metadata.clone_spec"%string = Some clone_place) as Hp by (vm_compute; reflexivity).
  assert (word_field clone_field) as Hw by (unfold word_field; split_and!; vm_compute; reflexivity).
  pose proof (clone_spec_read fields_map nothing [word 5; word 2] (state_of received_phv) 0 1 [] clone_place clone_field (word 5) (word 2) Hp Hx clone_field_wf Hw
    eq_refl eq_refl eq_refl eq_refl) as R.
  destruct R as (st' & v & E & Hv & Hm & Hl & _); [cbn; lia|cbn; lia|]. exists st', v. exact (conj E (conj Hv (conj Hm Hl))).
Defined.

Lemma length_kept_witness : ∃ st' r', Primitives.exec_add_header 0 (state_of received_phv) 1 = Some st' ∧ register0 0 st' = Some r' ∧ rest_of st' r' = 3.
Proof.
  destruct (Primitives.exec_add_header 0 (state_of received_phv) 1) as [st'|] eqn:E; [|vm_compute in E; discriminate E].
  destruct (Phv.get_header received_phv 1) as [h|] eqn:Eh; [|vm_compute in Eh; discriminate Eh].
  destruct (length_kept 0 (state_of received_phv) 1 h st' 3 true E Eh) as (r' & Hr & Hs).
  - vm_compute in Eh. injection Eh as <-. reflexivity.
  - vm_compute in Eh. injection Eh as <-. reflexivity.
  - vm_compute. reflexivity.
  - exists st', r'. split; [done|]. split; [exact Hr|]. rewrite Hs. vm_compute. reflexivity.
Defined.

Definition twins : PhvFactory.PHVFactory := PhvFactory.push_back_header factory 2 tag_type [] false.
Definition twins_phv (f : PhvFactory.PHVFactory) : Phv.PHV := default PhvFactory.empty (v ← PhvFactory.create f; Phv.mark_valid v 2).
Definition lengths (st : Actions.State (X := Primitives.Target)) : option Z * Z := (register0 0 st, packet_length (Actions.phv st)).

(** A header that is made valid by copying one is not counted. *)
Theorem copied_header_length :
  (lengths (state_of (twins_phv twins)),
   lengths <$> Primitives.exec fields_map no_calculation (λ l, sum l 0) no_random 0 Primitives.copy_header nothing [] [Actions.HEADER 1; Actions.HEADER 2] (state_of (twins_phv twins)))
  = ((Some 3, 1), Some (Some 3, 2)).
Proof. vm_compute. reflexivity. Qed.

(** A header of a union that takes the place of another adds its length, that
    of the other stays counted. *)
Theorem union_header_length :
  let v := twins_phv (PhvFactory.push_back_header_union twins 0 [1; 2]) in
  (lengths (state_of v), lengths <$> Primitives.exec_add_header 0 (state_of v) 1) = ((Some 3, 1), Some (Some 4, 1)).
Proof. vm_compute. reflexivity. Qed.

(** Copying the ingress port. *)
Definition fresh_phv : Phv.PHV := default PhvFactory.empty (PhvFactory.create factory).
Definition port_list : FieldLists.FieldList := FieldLists.push_back_field FieldLists.empty_list 0 0.
Definition port_place : Parser.field_t := {| Parser.f_header := 0; Parser.f_offset := 0 |}.

Lemma contains_field_spec_witness : FieldLists.contains_field port_list 0 0 = true ↔ FieldLists.field_t 0 0 ∈ FieldLists.fields port_list.
Proof. apply FieldLists.contains_field_spec, FieldLists.built_field, FieldLists.built_empty. Defined.

Lemma copy_fields_spec_witness : ∃ dst', FieldLists.copy_fields_between_phvs port_list (fresh_phv) received_phv = Some dst' ∧
  FieldLists.copied port_list (fresh_phv) received_phv dst'.
Proof.
  apply FieldLists.copy_fields_spec. intros f Hf. unfold FieldLists.listed in Hf. cbn in Hf. apply list_elem_of_singleton in Hf. destruct f as [a b].
  cbn in Hf. injection Hf as -> ->.
  split; [|destruct (Parser.get_field received_phv _) as [y|] eqn:E; [exists y; reflexivity|vm_compute in E; discriminate E]]. destruct (Parser.get_field (fresh_phv) port_place) as [x|] eqn:E; [|vm_compute in E; discriminate E].
  exists x. split; [done|]. vm_compute in E. injection E as <-. constructor; cbn; try done; repeat constructor; done.
Defined.

Lemma received_mine : mine received_packet.
Proof.
  split; [|vm_compute; reflexivity]. destruct (phv received_packet) as [v|] eqn:E; [exists v; reflexivity|vm_compute in E; discriminate E].
Qed.

Lemma recirculated_length_witness : ∃ s' c, recirculating alloc sum 0 fields_map field_lists received received_packet 1 = Some s' ∧
  input_buffer s' = c :: input_buffer received ∧ ingress_length c = 3.
Proof.
  destruct (recirculating alloc sum 0 fields_map field_lists received received_packet 1) as [s'|] eqn:E; [|vm_compute in E; discriminate E].
  destruct (recirculated_length alloc sum 0 fields_map field_lists received received_packet 1 s' E) as (c & Hi & Hl & _); [exact received_mine|].
  exists s', c. split; [done|]. split; [exact Hi|]. rewrite Hl. vm_compute. reflexivity.
Defined.

(** ** What goes wrong *)

Definition clone_to (session list_id : Z) (f : Actions.ActionFn) : Actions.ActionFn := call "clone_ingress_pkt_to_egress" None [session; list_id] f.
Definition cloned (session : Z) : option (Switch (SwitchStages.Device unit) (gset Z)) :=
  s ← receive (mirroring_mapping_add switch0 session 2) 4 [7; 1; 2]; ingress 0 (clone_to session 0 (to_port 3)) s.

(** A clone to session 5 is made, one to session 0 with field list 0 is not. *)
Theorem session_zero : (length ∘ packets <$> cloned 5) = Some 2%nat ∧ (length ∘ packets <$> cloned 0) = Some 1%nat.
Proof. split; vm_compute; reflexivity. Qed.

Lemma copy_length_unwritten_witness : ∃ s' c, copy_ingress_pkt alloc sum 0 fields_map field_lists received (default no_packet (last (input_buffer received))) 1 0 = Some (s', c) ∧
  Primitives.read_register 99 c PACKET_LENGTH_REG_IDX = Some 99.
Proof.
  destruct (copy_ingress_pkt alloc sum 0 fields_map field_lists received (default no_packet (last (input_buffer received))) 1 0) as [[s' c]|] eqn:E;
    [|vm_compute in E; discriminate E].
  exists s', c. split; [done|]. by apply (copy_length_unwritten alloc sum 0 99 fields_map field_lists _ _ _ _ _ _ E).
Defined.

(** The length that the egress pipeline sees of the clone is what was in the
    register, that of the packet itself is its length. *)
Theorem clone_packet_length :
  (s ← cloned 5; s ← egress 77 nothing s 2; s ← egress 77 nothing s 3;
   mapM (λ p, read fields_map Data.get_uint p "standard_metadata.packet_length") (output_buffer s)) = Some [3; 77].
Proof. vm_compute. reflexivity. Qed.

(** A header that is in the field list of a clone made at egress: the value of a
    field that the program does not compute with was not kept when it was
    extracted, and the clone loses it. *)
Definition egress_clone : Actions.ActionFn := call "clone_egress_pkt_to_egress" None [5; 2] (Actions.new_action 3 2).
Theorem listed_field_lost :
  (s ← receive (mirroring_mapping_add switch0 5 2) 4 [7; 1; 2]; s ← ingress 0 (to_port 3) s; s ← egress 0 egress_clone s 3;
   s ← egress 0 nothing s 2; s ← transmit_thread s; s ← transmit_thread s; Some (sent s)) = Some [(2, [0; 1; 2]); (3, [7; 1; 2])].
Proof. vm_compute. reflexivity. Qed.

(** A packet of one byte, whose header is removed at egress, is recirculated with
    no data, but as one of length 1: its header is then extracted from beyond
    the end of the data. *)
Definition shrink : Actions.ActionFn := call "recirculate" None [1] (call_header "remove_header" 1 (Actions.new_action 4 2)).
Theorem recirculated_too_long :
  (s ← receive switch0 4 [7]; s ← ingress 0 (to_port 3) s; s ← egress 0 shrink s 3;
   Some ((λ p, (get_data_size p, ingress_length p)) <$> input_buffer s, is_Some_b (ingress 0 (to_port 3) s))) = Some ([(0, 1)], false).
Proof. vm_compute. reflexivity. Qed.

(** A port that has no queue ends the ingress thread. *)
Theorem port_without_queue : (s ← receive switch0 4 [7; 1; 2]; Some (is_Some_b (ingress 0 (to_port 9) s), is_Some_b (ingress 0 (to_port 7) s))) = Some (false, true).
Proof. vm_compute. reflexivity. Qed.
End SwitchExamples.
