(* ===== verification/Configs.v ===== *)
(** * Configurations of a switch and their swaps (src/bm_sim/context.cpp, src/bm_sim/switch.cpp)

    A context has the P4 objects that packets are processed with and those that
    the runtime works on. A new configuration is loaded into the latter; when a
    swap was ordered, a thread of the target makes them the former, once no
    packet of the context is left. P4 objects are shared by pointers: they are
    elements of a list here, a pointer is an index, and objects that nobody
    refers to stay. What becomes of a JSON text is a parameter: the status and
    the factory of parsed headers. Parsed headers are represented by the objects
    whose factory made them. What threads do with one another's state is a step. *)

From stdpp Require Import gmap strings.
From S2P Require Import Prelude PhvFactory.

Module Configs.

Inductive ErrorCode := SUCCESS | CONFIG_SWAP_DISABLED | ONGOING_SWAP | NO_ONGOING_SWAP.
#[global] Instance error_eq_dec : EqDecision ErrorCode.
Proof. solve_decision. Defined.

Record P4Objects := { json : string; status : Z; phv_factory : PhvFactory.PHVFactory }.
Definition no_objects : P4Objects := {| json := ""; status := 0; phv_factory := PhvFactory.new |}.

(** ** A context *)
Record Context := { p4objects : nat; p4objects_rt : nat; swap_ordered : bool; force_arith : bool }.

Section contexts.
Context (parse : string → Z * PhvFactory.PHVFactory).
Implicit Types (objs : list P4Objects) (cxt : Context).

Definition new_context objs (arith : bool) : list P4Objects * Context :=
  (objs ++ [no_objects], {| p4objects := length objs; p4objects_rt := length objs; swap_ordered := false; force_arith := arith |}).

(** [get_phv_factory().enable_all_arith()] *)
Definition enable_all_arith objs cxt : option (list P4Objects) :=
  o ← objs !! p4objects cxt;
  f ← PhvFactory.enable_all_arith (phv_factory o);
  Some (<[p4objects cxt := {| json := json o; status := status o; phv_factory := f |}]> objs).

(** With the status. *)
Definition init_objects objs cxt (config : string) : option (list P4Objects * Z) :=
  let '(st, f) := parse config in
  let objs := <[p4objects_rt cxt := {| json := config; status := st; phv_factory := f |}]> objs in
  if negb (st =? 0) then Some (objs, st) else
  if force_arith cxt then objs ← enable_all_arith objs cxt; Some (objs, 0) else Some (objs, 0).

(** [init_objects] of a context for objects that were parsed, as the linker does. *)
Definition init_parsed objs cxt (p : nat) : option (list P4Objects * Context) :=
  let cxt := {| p4objects := p; p4objects_rt := p; swap_ordered := swap_ordered cxt; force_arith := force_arith cxt |} in
  if force_arith cxt then objs ← enable_all_arith objs cxt; Some (objs, cxt) else Some (objs, cxt).

Definition load_new_config objs cxt (config : string) : option (list P4Objects * Context * ErrorCode) :=
  if negb (p4objects cxt =? p4objects_rt cxt)%nat then Some (objs, cxt, ONGOING_SWAP) else
  let rt := length objs in
  let objs := objs ++ [no_objects] in
  let cxt := {| p4objects := p4objects cxt; p4objects_rt := rt; swap_ordered := swap_ordered cxt; force_arith := force_arith cxt |} in
  '(objs, _) ← init_objects objs cxt config;
  Some (objs, cxt, SUCCESS).

Definition swap_configs cxt : Context * ErrorCode :=
  if (p4objects cxt =? p4objects_rt cxt)%nat then (cxt, NO_ONGOING_SWAP) else
  ({| p4objects := p4objects cxt; p4objects_rt := p4objects_rt cxt; swap_ordered := true; force_arith := force_arith cxt |}, SUCCESS).

(** What [do_swap] does under the mutex. *)
Definition swapped cxt : Context :=
  {| p4objects := p4objects_rt cxt; p4objects_rt := p4objects_rt cxt; swap_ordered := false; force_arith := force_arith cxt |}.
End contexts.

(** ** Pools of parsed headers (src/bm_sim/phv_source.cpp), as far as their origin goes *)
Record PHVPool := { phvs : list nat; maker : option nat; count : Z }.
Implicit Types (pool : PHVPool).

Definition pool_get pool : option (PHVPool * nat) :=
  let n := u64 (count pool + 1) in
  match last (phvs pool) with
  | None => o ← maker pool; Some ({| phvs := phvs pool; maker := maker pool; count := n |}, o)
  | Some o => Some ({| phvs := take (length (phvs pool) - 1) (phvs pool); maker := maker pool; count := n |}, o)
  end.
Definition pool_release pool (o : nat) : PHVPool := {| phvs := phvs pool ++ [o]; maker := maker pool; count := u64 (count pool - 1) |}.
Definition pool_set_phv_factory pool (o : nat) : option PHVPool :=
  if count pool =? 0 then Some {| phvs := []; maker := Some o; count := count pool |} else None.

(** ** The switch *)

(** Who called [do_swap]: the runtime, or a receiver of packets, which then
    makes a packet of the context at the address. *)
Inductive caller := ByRuntime | ByReceive (cxt : nat) (a : Z).

(** Where a thread is. *)
Inductive pc :=
| Loading (i : nat) (config : string)        (** in [load_new_config], at context [i] *)
| LoadStore (config : string)
| Ordering (i : nat)                         (** in [swap_configs], at context [i] *)
| OrderLock
| SwapCheck (k : caller) (i : nat)           (** in [swap_requested] *)
| SwapLock (k : caller)
| SwapVisit (k : caller) (i : nat) (rc : Z)  (** in the loop of [do_swap] *)
| SwapSpin (k : caller) (i : nat) (rc : Z)
| SwapDo (k : caller) (i : nat) (rc : Z)     (** in [do_swap] of context [i] *)
| SwapAssign (k : caller) (i : nat) (rc : Z)
| SwapFactory (k : caller) (i : nat) (rc : Z)
| SwapEnd (k : caller) (rc : Z)
| NewLock (cxt : nat) (a : Z)                (** in [new_packet_ptr] *)
| NewGet (cxt : nat) (a : Z)
| NewUnlock.

Record Switch := {
  objects : list P4Objects;
  contexts : list Context;
  pools : list PHVPool;
  enable_swap : bool;
  config_loaded : bool;
  current_config : string;
  config_mutex : option Z;           (** the thread that holds it *)
  swap_writer : option Z;            (** [ongoing_swap_mutex] *)
  swap_readers : gset Z;
  packets : gmap Z (nat * nat);      (** by address: the context, and the origin of the parsed headers *)
  threads : gmap Z pc;
  aborted : bool;                    (** by an assertion *)
}.

Inductive event :=
| Loaded (t : Z) (rc : ErrorCode) | Swapped (t : Z) (rc : ErrorCode) | Received (t : Z)
| SwapAsserted (t : Z)               (** [assert(!error)] in [swap_configs] *)
| FactoryAsserted (t : Z).           (** [assert(count == 0)] in [set_phv_factory] *)

Inductive label :=
| CallLoad (t : Z) (config : string) | CallSwap (t : Z) | CallReceive (t : Z) (cxt : nat) (a : Z)
| Run (t : Z)
| Clone (a from : Z) | Destroy (a : Z)       (** by a thread that has the packet *)
| SetEnable (b : bool).

Implicit Types (s : Switch) (t : Z).

Definition update s (objs : list P4Objects) (cxts : list Context) (ps : list PHVPool) (ths : gmap Z pc) : Switch :=
  {| objects := objs; contexts := cxts; pools := ps; enable_swap := enable_swap s; config_loaded := config_loaded s;
     current_config := current_config s; config_mutex := config_mutex s; swap_writer := swap_writer s; swap_readers := swap_readers s;
     packets := packets s; threads := ths; aborted := aborted s |}.
Definition goto s t (p : pc) : Switch := update s (objects s) (contexts s) (pools s) (<[t := p]> (threads s)).
Definition leave s t : Switch := update s (objects s) (contexts s) (pools s) (delete t (threads s)).
Definition with_contexts s objs cxts : Switch := update s objs cxts (pools s) (threads s).
Definition with_pools s ps : Switch := update s (objects s) (contexts s) ps (threads s).

Definition with_config s (loaded : bool) (config : string) (m : option Z) : Switch :=
  {| objects := objects s; contexts := contexts s; pools := pools s; enable_swap := enable_swap s; config_loaded := loaded;
     current_config := config; config_mutex := m; swap_writer := swap_writer s; swap_readers := swap_readers s;
     packets := packets s; threads := threads s; aborted := aborted s |}.
Definition with_swap_mutex s (w : option Z) (rs : gset Z) : Switch :=
  {| objects := objects s; contexts := contexts s; pools := pools s; enable_swap := enable_swap s; config_loaded := config_loaded s;
     current_config := current_config s; config_mutex := config_mutex s; swap_writer := w; swap_readers := rs;
     packets := packets s; threads := threads s; aborted := aborted s |}.
Definition with_packets s (ps : gmap Z (nat * nat)) : Switch :=
  {| objects := objects s; contexts := contexts s; pools := pools s; enable_swap := enable_swap s; config_loaded := config_loaded s;
     current_config := current_config s; config_mutex := config_mutex s; swap_writer := swap_writer s; swap_readers := swap_readers s;
     packets := ps; threads := threads s; aborted := aborted s |}.
Definition abort s : Switch :=
  {| objects := objects s; contexts := contexts s; pools := pools s; enable_swap := enable_swap s; config_loaded := config_loaded s;
     current_config := current_config s; config_mutex := config_mutex s; swap_writer := swap_writer s; swap_readers := swap_readers s;
     packets := packets s; threads := threads s; aborted := true |}.
Definition set_enable s (b : bool) : Switch :=
  {| objects := objects s; contexts := contexts s; pools := pools s; enable_swap := b; config_loaded := config_loaded s;
     current_config := current_config s; config_mutex := config_mutex s; swap_writer := swap_writer s; swap_readers := swap_readers s;
     packets := packets s; threads := threads s; aborted := aborted s |}.

Section switch.
Context (parse : string → Z * PhvFactory.PHVFactory).

(** When [do_swap] returns [rc]. *)
Definition returned s t (k : caller) (rc : Z) : Switch * option event :=
  match k with
  | ByRuntime =>
      if rc =? 0 then (leave (with_config s (config_loaded s) (current_config s) None) t, Some (Swapped t SUCCESS))
      else (abort (leave s t), Some (SwapAsserted t))
  | ByReceive c a => (goto s t (NewLock c a), None)
  end.

Definition do_swap s t (k : caller) : Switch * option event :=
  if enable_swap s then (goto s t (SwapCheck k 0), None) else returned s t k 1.

(** A packet at [a] with parsed headers from the pool of its context. *)
Definition get s (c : nat) (a : Z) : option Switch :=
  match packets s !! a with
  | Some _ => None
  | None =>
      pool ← pools s !! c; '(pool, o) ← pool_get pool;
      Some (with_packets (with_pools s (<[c := pool]> (pools s))) (<[a := (c, o)]> (packets s)))
  end.

Definition load_step s t (i : nat) (config : string) : option (Switch * option event) :=
  match contexts s !! i with
  | None => Some (goto s t (LoadStore config), None)
  | Some cxt =>
      '(objs, cxt, rc) ← load_new_config parse (objects s) cxt config;
      let s := with_contexts s objs (<[i := cxt]> (contexts s)) in
      if decide (rc = SUCCESS) then Some (goto s t (Loading (S i) config), None) else Some (leave s t, Some (Loaded t rc))
  end.

Definition order_step s t (i : nat) : Switch * option event :=
  match contexts s !! i with
  | None => (goto s t OrderLock, None)
  | Some cxt =>
      let '(cxt, rc) := swap_configs cxt in
      let s := with_contexts s (objects s) (<[i := cxt]> (contexts s)) in
      if decide (rc = SUCCESS) then (goto s t (Ordering (S i)), None) else (leave s t, Some (Swapped t rc))
  end.

Definition factory_step s t (k : caller) (i : nat) (rc : Z) : option (Switch * option event) :=
  pool ← pools s !! i; cxt ← contexts s !! i;
  match pool_set_phv_factory pool (p4objects cxt) with
  | Some pool => Some (goto (with_pools s (<[i := pool]> (pools s))) t (SwapVisit k (S i) (Z.land rc 0)), None)
  | None => Some (abort s, Some (FactoryAsserted t))
  end.

(** A step of a thread; [None] when it is blocked. *)
Definition run_thread s t (p : pc) : option (Switch * option event) :=
  match p with
  | Loading i config => load_step s t i config
  | LoadStore config =>
      match config_mutex s with
      | Some _ => None
      | None => Some (leave (with_config s (config_loaded s) config None) t, Some (Loaded t SUCCESS))
      end
  | Ordering i => Some (order_step s t i)
  | OrderLock =>
      match config_mutex s with
      | Some _ => None
      | None => Some (do_swap (with_config s true (current_config s) (Some t)) t ByRuntime)
      end
  | SwapCheck k i =>
      match contexts s !! i with
      | None => Some (returned s t k 1)
      | Some cxt => Some (goto s t (if swap_ordered cxt then SwapLock k else SwapCheck k (S i)), None)
      end
  | SwapLock k =>
      if bool_decide (swap_writer s = None ∧ swap_readers s = ∅)
      then Some (goto (with_swap_mutex s (Some t) ∅) t (SwapVisit k 0 1), None) else None
  | SwapVisit k i rc =>
      match contexts s !! i with
      | None => Some (goto s t (SwapEnd k rc), None)
      | Some cxt => Some (goto s t (if swap_ordered cxt then SwapSpin k i rc else SwapVisit k (S i) rc), None)
      end
  | SwapSpin k i rc => pool ← pools s !! i; Some (if 0 <? count pool then s else goto s t (SwapDo k i rc), None)
  | SwapDo k i rc =>
      cxt ← contexts s !! i;
      Some (goto s t (if swap_ordered cxt then SwapAssign k i rc else SwapVisit k (S i) (Z.land rc 1)), None)
  | SwapAssign k i rc =>
      cxt ← contexts s !! i;
      Some (goto (with_contexts s (objects s) (<[i := swapped cxt]> (contexts s))) t (SwapFactory k i rc), None)
  | SwapFactory k i rc => factory_step s t k i rc
  | SwapEnd k rc => Some (returned (with_swap_mutex s None (swap_readers s)) t k rc)
  | NewLock c a =>
      match swap_writer s with
      | Some _ => None
      | None => Some (goto (with_swap_mutex s None ({[t]} ∪ swap_readers s)) t (NewGet c a), None)
      end
  | NewGet c a => s ← get s c a; Some (goto s t NewUnlock, None)
  | NewUnlock => Some (leave (with_swap_mutex s (swap_writer s) (swap_readers s ∖ {[t]})) t, Some (Received t))
  end.

Definition call s t (r : Switch * option event) : option (Switch * option event) :=
  match threads s !! t with Some _ => None | None => Some r end.

Definition step s (l : label) : option (Switch * option event) :=
  if aborted s then None else
  match l with
  | CallLoad t config => call s t (if enable_swap s then (goto s t (Loading 0 config), None) else (s, Some (Loaded t CONFIG_SWAP_DISABLED)))
  | CallSwap t => call s t (if enable_swap s then (goto s t (Ordering 0), None) else (s, Some (Swapped t CONFIG_SWAP_DISABLED)))
  | CallReceive t c a => call s t (do_swap s t (ByReceive c a))
  | Run t => p ← threads s !! t; run_thread s t p
  | Clone a from => '(c, _) ← packets s !! from; s ← get s c a; Some (s, None)
  | Destroy a =>
      '(c, o) ← packets s !! a; pool ← pools s !! c;
      Some (with_packets (with_pools s (<[c := pool_release pool o]> (pools s))) (delete a (packets s)), None)
  | SetEnable b => Some (set_enable s b, None)
  end.

Fixpoint run s (ls : list label) : option (Switch * list event) :=
  match ls with
  | [] => Some (s, [])
  | l :: ls => '(s, e) ← step s l; '(s, es) ← run s ls; Some (s, match e with Some e => e :: es | None => es end)
  end.

(** [n] contexts with a configuration, as [init_objects_] leaves them when none
    fails. *)
Definition init_context (arith : bool) (config : string) (x : list P4Objects * list Context) : option (list P4Objects * list Context) :=
  let '(objs, cxt) := new_context x.1 arith in
  '(objs, st) ← init_objects parse objs cxt config;
  if st =? 0 then Some (objs, x.2 ++ [cxt]) else None.

Definition init_switch (n : nat) (arith enable : bool) (config : string) : option Switch :=
  '(objs, cxts) ← Nat.iter n (λ x, x ← x; init_context arith config x) (Some ([], []));
  Some {| objects := objs; contexts := cxts; pools := (λ c, {| phvs := []; maker := Some (p4objects c); count := 0 |}) <$> cxts;
          enable_swap := enable; config_loaded := true; current_config := config; config_mutex := None; swap_writer := None;
          swap_readers := ∅; packets := ∅; threads := ∅; aborted := false |}.
End switch.
End Configs.

(** * No packet lives through a swap

    While packets come, are copied and go, and any number of threads load and
    swap configurations, the parsed headers of a packet are from the objects that
    its context has. *)

Module ConfigsSpec.
Import Configs.

Implicit Types (s : Switch) (t : Z) (c o : nat) (pool : PHVPool).

(** ** What a thread has of [ongoing_swap_mutex] *)

(** A writer is past waiting for the packets of a context, and has changed its
    objects but not its pool. *)
Inductive role := Outside | Reader | Writer (emptied : option nat) (changed : bool).
#[global] Instance role_eq_dec : EqDecision role.
Proof. solve_decision. Defined.

Definition role_at (p : pc) : role :=
  match p with
  | NewGet _ _ | NewUnlock => Reader
  | SwapVisit _ _ _ | SwapSpin _ _ _ | SwapEnd _ _ => Writer None false
  | SwapDo _ i _ | SwapAssign _ i _ => Writer (Some i) false
  | SwapFactory _ i _ => Writer (Some i) true
  | _ => Outside
  end.
Definition role_of s t : role := from_option role_at Outside (threads s !! t).

Definition in_cxt c (x : nat * nat) : Prop := x.1 = c.
#[global] Instance in_cxt_dec c x : Decision (in_cxt c x).
Proof. unfold in_cxt. apply _. Defined.

(** Everything in the pool is from [o], and so will be what it gives. *)
Definition pool_of o pool : Prop := maker pool = Some o ∧ Forall (λ x, x = o) (phvs pool).

(** The objects of the contexts are [cs]. *)
Record inv_ (R : Z → role) (w : option Z) (rs : gset Z) (cs : list nat) (ps : list PHVPool) (pkts : gmap Z (nat * nat)) : Prop := {
  i_writer : ∀ t, w = Some t ↔ ∃ e b, R t = Writer e b;
  i_reader : ∀ t, t ∈ rs ↔ R t = Reader;
  i_excl : w = None ∨ rs = ∅;
  i_len : length ps = length cs;
  i_count : ∀ c pool, ps !! c = Some pool → count pool = count_of (in_cxt c) pkts;
  i_origin : ∀ a c o, pkts !! a = Some (c, o) → cs !! c = Some o;
  i_pool : ∀ c pool o, ps !! c = Some pool → cs !! c = Some o → (∀ t, R t ≠ Writer (Some c) true) → pool_of o pool;
  i_empty : ∀ t c b a o, R t = Writer (Some c) b → pkts !! a ≠ Some (c, o);
}.
Definition inv s : Prop := inv_ (role_of s) (swap_writer s) (swap_readers s) (p4objects <$> contexts s) (pools s) (packets s).

Section lemmas.
Context {R : Z → role} {w : option Z} {rs : gset Z} {cs : list nat} {ps : list PHVPool} {pkts : gmap Z (nat * nat)}.
Context (H : inv_ R w rs cs ps pkts).

Lemma inv_roles (R' : Z → role) : (∀ t, R' t = R t) → inv_ R' w rs cs ps pkts.
Proof. intros E. pose proof H as []. constructor; try done; setoid_rewrite E; eauto. Qed.

(** There is one writer. *)
Lemma writer_alone t t' e b e' b' : R t = Writer e b → R t' = Writer e' b' → t = t'.
Proof.
  intros H1 H2. assert (w = Some t) as E1 by (apply (i_writer _ _ _ _ _ _ H); eauto).
  assert (w = Some t') by (apply (i_writer _ _ _ _ _ _ H); eauto). congruence.
Qed.

Lemma writer_no_reader t e b t' : R t = Writer e b → R t' ≠ Reader.
Proof.
  intros Hw Hr%(i_reader _ _ _ _ _ _ H). assert (w = Some t) as E1 by (apply (i_writer _ _ _ _ _ _ H); eauto).
  destruct (i_excl _ _ _ _ _ _ H) as [?| ->]; [congruence|set_solver].
Qed.

(** *** The mutex *)
Lemma inv_acquire (R' : Z → role) t : w = None → rs = ∅ → R' t = Writer None false → (∀ t', t' ≠ t → R' t' = R t') → inv_ R' (Some t) ∅ cs ps pkts.
Proof.
  intros -> -> Ht Ho. assert (∀ t', t' ≠ t → R' t' = Outside) as Hout.
  { intros t' Hne. rewrite (Ho t' Hne). destruct (R t') as [| |e b] eqn:E; [done| |].
    - apply (i_reader _ _ _ _ _ _ H) in E. set_solver.
    - assert (None = Some t') by (apply (i_writer _ _ _ _ _ _ H); eauto). done. }
  pose proof H as [_ _ _ Hl Hc Hor Hp He]. constructor; try done.
  - intros t'. destruct (decide (t' = t)) as [->|Hne]; [rewrite Ht; split; eauto|]. rewrite (Hout t' Hne). split; [congruence|by intros (? & ? & ?)].
  - intros t'. destruct (decide (t' = t)) as [->|Hne]; [by rewrite Ht|]. by rewrite (Hout t' Hne).
  - by right.
  - intros c pool o Hps Hcs _. apply (Hp c pool o Hps Hcs). intros t' E. assert (None = Some t') by (apply (i_writer _ _ _ _ _ _ H); eauto). done.
  - intros t' c b a o. destruct (decide (t' = t)) as [->|Hne]; [by rewrite Ht|]. by rewrite (Hout t' Hne).
Qed.

Lemma inv_release (R' : Z → role) t b : R t = Writer None b → R' t = Outside → (∀ t', t' ≠ t → R' t' = R t') → inv_ R' None rs cs ps pkts.
Proof.
  intros Hw Ht Ho. assert (∀ t' e b', R' t' ≠ Writer e b') as Hno.
  { intros t' e b' E. destruct (decide (t' = t)) as [->|Hne]; [congruence|]. rewrite (Ho t' Hne) in E. apply Hne. exact (writer_alone _ _ _ _ _ _ E Hw). }
  pose proof H as [_ Hr _ Hl Hc Hor Hp He]. constructor; try done.
  - intros t'. split; [done|]. intros (e & b' & E). by destruct (Hno t' e b').
  - intros t'. rewrite Hr. destruct (decide (t' = t)) as [->|Hne]; [by rewrite Ht, Hw|]. by rewrite (Ho t' Hne).
  - by left.
  - intros c pool o Hps Hcs _. apply (Hp c pool o Hps Hcs). intros t' E. assert (t' = t) as -> by exact (writer_alone _ _ _ _ _ _ E Hw). congruence.
  - intros t' c b' a o E. by destruct (Hno t' (Some c) b').
Qed.

Lemma inv_reader (R' : Z → role) t : w = None → R' t = Reader → (∀ t', t' ≠ t → R' t' = R t') → inv_ R' None ({[t]} ∪ rs) cs ps pkts.
Proof.
  intros -> Ht Ho. assert (∀ t' e b', R' t' ≠ Writer e b') as Hno.
  { intros t' e b' E. destruct (decide (t' = t)) as [->|Hne]; [congruence|]. rewrite (Ho t' Hne) in E.
    assert (None = Some t') by (apply (i_writer _ _ _ _ _ _ H); eauto). done. }
  pose proof H as [_ Hr _ Hl Hc Hor Hp He]. constructor; try done.
  - intros t'. split; [done|]. intros (e & b' & E). by destruct (Hno t' e b').
  - intros t'. destruct (decide (t' = t)) as [->|Hne]; [rewrite Ht; set_solver|]. rewrite (Ho t' Hne), <- Hr. set_solver.
  - by left.
  - intros c pool o Hps Hcs _. apply (Hp c pool o Hps Hcs). intros t' E. assert (None = Some t') by (apply (i_writer _ _ _ _ _ _ H); eauto). done.
  - intros t' c b' a o E. by destruct (Hno t' (Some c) b').
Qed.

Lemma inv_reader_leaves (R' : Z → role) t : R t = Reader → R' t = Outside → (∀ t', t' ≠ t → R' t' = R t') → inv_ R' w (rs ∖ {[t]}) cs ps pkts.
Proof.
  intros Hw Ht Ho. assert (∀ t' e b, R' t' = Writer e b ↔ R t' = Writer e b) as Hiff.
  { intros t' e b. destruct (decide (t' = t)) as [->|Hne]; [by rewrite Ht, Hw|]. by rewrite (Ho t' Hne). }
  pose proof H as [Hwr Hr Hx Hl Hc Hor Hp He]. constructor; try done.
  - intros t'. rewrite Hwr. by setoid_rewrite Hiff.
  - intros t'. destruct (decide (t' = t)) as [->|Hne]; [rewrite Ht; set_solver|]. rewrite (Ho t' Hne), <- Hr. set_solver.
  - destruct Hx as [?| ->]; [by left|right; set_solver].
  - intros c pool o Hps Hcs Hb. apply (Hp c pool o Hps Hcs). intros t' E. by apply (Hb t'), Hiff.
  - intros t' c b a o E%Hiff. by apply (He t' c b a o).
Qed.

(** *** A writer at work *)
Lemma inv_writer (R' : Z → role) t e b e' : R t = Writer e b → R' t = Writer e' b → (∀ t', t' ≠ t → R' t' = R t') → (b = true → e' = e) →
  (∀ c, e' = Some c → e = Some c ∨ ∀ a o, pkts !! a ≠ Some (c, o)) → inv_ R' w rs cs ps pkts.
Proof.
  intros Hw Ht Ho Hb Hnone. pose proof H as [Hwr Hr Hx Hl Hc Hor Hp He]. constructor; try done.
  - intros t'. rewrite Hwr. destruct (decide (t' = t)) as [->|Hne]; [rewrite Ht, Hw|by rewrite (Ho t' Hne)]. split; intros _; eauto.
  - intros t'. rewrite Hr. destruct (decide (t' = t)) as [->|Hne]; [by rewrite Ht, Hw|]. by rewrite (Ho t' Hne).
  - intros c pool o Hps Hcs Hn. apply (Hp c pool o Hps Hcs). intros t' E. apply (Hn t').
    destruct (decide (t' = t)) as [->|Hne]; [|by rewrite (Ho t' Hne)]. rewrite Hw in E. injection E as -> ->. by rewrite Ht, Hb.
  - intros t' c b' a o. destruct (decide (t' = t)) as [->|Hne]; [|rewrite (Ho t' Hne); apply He].
    rewrite Ht. intros [= -> ->]. destruct (Hnone c eq_refl) as [->|Hn]; [by apply (He t c b')|apply Hn].
Qed.

Lemma inv_assign (R' : Z → role) t c o : R t = Writer (Some c) false → R' t = Writer (Some c) true → (∀ t', t' ≠ t → R' t' = R t') →
  inv_ R' w rs (<[c := o]> cs) ps pkts.
Proof.
  intros Hw Ht Ho. pose proof H as [Hwr Hr Hx Hl Hc Hor Hp He]. constructor; try done.
  - intros t'. rewrite Hwr. destruct (decide (t' = t)) as [->|Hne]; [rewrite Ht, Hw|by rewrite (Ho t' Hne)]. split; intros _; eauto.
  - intros t'. rewrite Hr. destruct (decide (t' = t)) as [->|Hne]; [by rewrite Ht, Hw|]. by rewrite (Ho t' Hne).
  - by rewrite length_insert.
  - intros a c' o' E. destruct (decide (c' = c)) as [->|Hne]; [by destruct (He t c false a o' Hw)|].
    rewrite list_lookup_insert_ne by done. by apply (Hor a).
  - intros c' pool o' Hps Hcs Hn. destruct (decide (c' = c)) as [->|Hne]; [by destruct (Hn t)|].
    rewrite list_lookup_insert_ne in Hcs by done. apply (Hp c' pool o' Hps Hcs). intros t' E.
    assert (t' = t) as -> by exact (writer_alone _ _ _ _ _ _ E Hw). congruence.
  - intros t' c' b a o'. destruct (decide (t' = t)) as [->|Hne]; [|rewrite (Ho t' Hne); apply He].
    rewrite Ht. intros [= <- <-]. by apply (He t c false).
Qed.

Lemma emptied_count t c b pool : R t = Writer (Some c) b → ps !! c = Some pool → count pool = 0.
Proof.
  intros Hw Hp. rewrite (i_count _ _ _ _ _ _ H c pool Hp). apply count_none. intros a [c' o] E Hc. unfold in_cxt in Hc. cbn in Hc. subst.
  by apply (i_empty _ _ _ _ _ _ H t c b a o).
Qed.

Lemma inv_factory (R' : Z → role) t c o : R t = Writer (Some c) true → R' t = Writer None false → (∀ t', t' ≠ t → R' t' = R t') →
  cs !! c = Some o → ∃ pool, ps !! c = Some pool ∧ count pool = 0 ∧
  inv_ R' w rs cs (<[c := {| phvs := []; maker := Some o; count := count pool |}]> ps) pkts.
Proof.
  intros Hw Ht Ho Hcs. pose proof H as [Hwr Hr Hx Hl Hc Hor Hp He].
  destruct (lookup_lt_is_Some_2 ps c) as [pool Hps]; [rewrite Hl; by apply lookup_lt_Some in Hcs|]. exists pool.
  pose proof (emptied_count t c true pool Hw Hps) as Hz. split; [done|]. split; [done|]. constructor; try done.
  - intros t'. rewrite Hwr. destruct (decide (t' = t)) as [->|Hne]; [rewrite Ht, Hw|by rewrite (Ho t' Hne)]. split; intros _; eauto.
  - intros t'. rewrite Hr. destruct (decide (t' = t)) as [->|Hne]; [by rewrite Ht, Hw|]. by rewrite (Ho t' Hne).
  - by rewrite length_insert.
  - intros c' p. destruct (decide (c' = c)) as [->|Hne].
    + rewrite list_lookup_insert_eq by (by eapply lookup_lt_Some). intros [= <-]. cbn. by apply Hc.
    + rewrite list_lookup_insert_ne by done. apply Hc.
  - intros c' p o'. destruct (decide (c' = c)) as [->|Hne].
    + rewrite list_lookup_insert_eq by (by eapply lookup_lt_Some). intros [= <-] E _. rewrite Hcs in E. injection E as <-. split; [done|constructor].
    + rewrite list_lookup_insert_ne by done. intros Hps' Hcs' Hn. apply (Hp c' p o' Hps' Hcs'). intros t' E.
      assert (t' = t) as -> by exact (writer_alone _ _ _ _ _ _ E Hw). congruence.
  - intros t' c' b a o'. destruct (decide (t' = t)) as [->|Hne]; [by rewrite Ht|]. rewrite (Ho t' Hne). apply He.
Qed.
(** *** Packets *)
Lemma origin_get_ok o pool pool' o' : pool_of o pool → 0 ≤ count pool < 2 ^ 64 - 1 → pool_get pool = Some (pool', o') →
  o' = o ∧ pool_of o pool' ∧ count pool' = count pool + 1.
Proof.
  intros [Hm Hf] Hc. unfold pool_get. rewrite Hm, wrap_small by lia. destruct (last (phvs pool)) as [x|] eqn:El; intros [= <- <-]; cbn.
  - rewrite last_lookup in El. split; [exact (Forall_lookup_1 _ _ _ _ Hf El)|]. split; [|done]. split; [done|by apply Forall_take].
  - done.
Qed.

Lemma size_count c : 0 ≤ count_of (in_cxt c) pkts ≤ Z.of_nat (size pkts).
Proof. unfold count_of. split; [lia|]. apply inj_le. apply map_subseteq_size, map_filter_subseteq. Qed.

Lemma inv_get c a pool pool' o : Z.of_nat (size pkts) < 2 ^ 64 - 1 → pkts !! a = None → ps !! c = Some pool → pool_get pool = Some (pool', o) →
  (∀ t b, R t ≠ Writer (Some c) b) → inv_ R w rs cs (<[c := pool']> ps) (<[a := (c, o)]> pkts).
Proof.
  intros Hs Ha Hps Hg Hn. pose proof H as [Hwr Hr Hx Hl Hc Hor Hp He].
  destruct (lookup_lt_is_Some_2 cs c) as [o1 Hcs]; [rewrite <- Hl; by apply lookup_lt_Some in Hps|].
  pose proof (size_count c) as Hsz.
  destruct (origin_get_ok o1 pool pool' o) as (-> & Hof & Hcnt); [by apply (Hp c)|rewrite (Hc c pool Hps); lia|done|]. constructor; try done.
  - by rewrite length_insert.
  - intros c' p. rewrite count_insert by done. unfold in_cxt. cbn. destruct (decide (c' = c)) as [->|Hne].
    + rewrite list_lookup_insert_eq by (by eapply lookup_lt_Some). intros [= <-]. rewrite Hcnt, (Hc c pool Hps). by rewrite decide_True.
    + rewrite list_lookup_insert_ne by done. intros Hp'. rewrite (Hc c' p Hp'), decide_False by done. unfold in_cxt. lia.
  - intros a' c' o'. destruct (decide (a' = a)) as [->|Hne]; [rewrite lookup_insert_eq; by intros [= <- <-]|].
    rewrite lookup_insert_ne by done. apply Hor.
  - intros c' p o'. destruct (decide (c' = c)) as [->|Hne].
    + rewrite list_lookup_insert_eq by (by eapply lookup_lt_Some). intros [= <-] E _. rewrite Hcs in E. by injection E as <-.
    + rewrite list_lookup_insert_ne by done. apply Hp.
  - intros t c' b a' o' E. destruct (decide (a' = a)) as [->|Hne]; [|rewrite lookup_insert_ne by done; by apply (He t c' b)].
    rewrite lookup_insert_eq. intros [= <- <-]. by destruct (Hn t b).
Qed.

Lemma inv_destroy c a o pool : Z.of_nat (size pkts) < 2 ^ 64 → pkts !! a = Some (c, o) → ps !! c = Some pool →
  inv_ R w rs cs (<[c := pool_release pool o]> ps) (delete a pkts).
Proof.
  intros Hs Ha Hps. pose proof H as [Hwr Hr Hx Hl Hc Hor Hp He]. pose proof (size_count c) as Hsz.
  assert (∀ c', count_of (in_cxt c') pkts = count_of (in_cxt c') (delete a pkts) + (if decide (c' = c) then 1 else 0)) as Hcount.
  { intros c'. rewrite (count_delete _ _ _ _ Ha). unfold in_cxt. cbn. do 2 case_decide; congruence. }
  assert (0 < count_of (in_cxt c) pkts) as Hpos by (by apply (count_pos _ _ _ _ Ha)). constructor; try done.
  - by rewrite length_insert.
  - intros c' p. specialize (Hcount c'). destruct (decide (c' = c)) as [->|Hne].
    + rewrite list_lookup_insert_eq by (by eapply lookup_lt_Some). intros [= <-]. cbn. rewrite (Hc c pool Hps), wrap_small by lia. lia.
    + rewrite list_lookup_insert_ne by done. intros Hp'. rewrite (Hc c' p Hp'). lia.
  - intros a' c' o' E. apply lookup_delete_Some in E as [_ E]. by apply (Hor a').
  - intros c' p o'. destruct (decide (c' = c)) as [->|Hne].
    + rewrite list_lookup_insert_eq by (by eapply lookup_lt_Some). intros [= <-] Hcs Hn. destruct (Hp c pool o' Hps Hcs Hn) as [Hm Hf]. split; [done|].
      cbn. apply Forall_app. split; [done|]. apply Forall_singleton. pose proof (Hor _ _ _ Ha). congruence.
    + rewrite list_lookup_insert_ne by done. apply Hp.
  - intros t c' b a' o' E E'. apply lookup_delete_Some in E' as [_ E']. by apply (He t c' b a' o' E).
Qed.
End lemmas.

(** ** Steps *)

Lemma role_goto s t p t' : role_of (goto s t p) t' = if decide (t' = t) then role_at p else role_of s t'.
Proof.
  unfold role_of. cbn. destruct (decide (t' = t)) as [->|]; [by rewrite lookup_insert_eq|by rewrite lookup_insert_ne].
Qed.
Lemma role_leave s t t' : role_of (leave s t) t' = if decide (t' = t) then Outside else role_of s t'.
Proof.
  unfold role_of. cbn. destruct (decide (t' = t)) as [->|]; [by rewrite lookup_delete_eq|by rewrite lookup_delete_ne].
Qed.

(** A thread that goes on as what it was. *)
Lemma goto_same s t p : inv s → role_at p = role_of s t → inv (goto s t p).
Proof. intros H E. apply (inv_roles H). intros t'. rewrite role_goto. by case_decide; subst. Qed.
Lemma leave_same s t : inv s → role_of s t = Outside → inv (leave s t).
Proof. intros H E. apply (inv_roles H). intros t'. rewrite role_leave. by case_decide; subst. Qed.

(** Contexts change, their objects do not. *)
Lemma contexts_same s objs cxts : inv s → p4objects <$> cxts = p4objects <$> contexts s → inv (with_contexts s objs cxts).
Proof. intros H E. unfold inv. cbn. rewrite E. exact H. Qed.

Lemma context_same s i cxt cxt' : contexts s !! i = Some cxt → p4objects cxt' = p4objects cxt →
  p4objects <$> <[i := cxt']> (contexts s) = p4objects <$> contexts s.
Proof. intros Hi E. rewrite list_fmap_insert. apply list_insert_id. by rewrite list_lookup_fmap, Hi, E. Qed.

Section steps.
Context (parse : string → Z * PhvFactory.PHVFactory).

Lemma load_same objs cxt config objs' cxt' rc : load_new_config parse objs cxt config = Some (objs', cxt', rc) → p4objects cxt' = p4objects cxt.
Proof.
  unfold load_new_config. destruct (negb _); [by intros [= <- <- <-]|].
  destruct (init_objects parse _ _ config) as [[objs1 st]|]; [|done]. by intros [= <- <- <-].
Qed.

Lemma returned_inv s t k rc : inv s → role_of s t = Outside → inv (returned s t k rc).1.
Proof.
  intros H E. destruct k as [|c a]; cbn [returned]; [|by apply goto_same]. destruct (rc =? 0); [by apply leave_same|]. apply (leave_same s t H E).
Qed.

Lemma do_swap_inv s t k : inv s → role_of s t = Outside → inv (do_swap s t k).1.
Proof. intros H E. unfold do_swap. destruct (enable_swap s); [by apply goto_same|by apply returned_inv]. Qed.

Lemma get_inv s c a s' : inv s → Z.of_nat (size (packets s)) < 2 ^ 64 - 1 → (∀ t b, role_of s t ≠ Writer (Some c) b) → get s c a = Some s' → inv s'.
Proof.
  intros H Hs Hn. unfold get. destruct (packets s !! a) eqn:Ea; [done|]. destruct (pools s !! c) as [pool|] eqn:Ep; [|done]. msimpl.
  destruct (pool_get pool) as [[pool' o]|] eqn:Eg; [|done]. intros [= <-]. by apply (inv_get H c a pool pool' o).
Qed.

(** What threads report of the pools. *)
Definition no_factory_assert (e : option event) : Prop := ∀ t, e ≠ Some (FactoryAsserted t).

Lemma run_thread_inv s t p s' e : inv s → Z.of_nat (size (packets s)) < 2 ^ 64 - 1 → threads s !! t = Some p →
  run_thread parse s t p = Some (s', e) → inv s' ∧ no_factory_assert e.
Proof.
  intros H Hs Ht. assert (role_of s t = role_at p) as HR by (unfold role_of; by rewrite Ht).
  assert (∀ (s1 : Switch) t', role_of (goto s1 t p) t' = role_of (goto s1 t p) t') as _ by done.
  destruct p as [i config|config|i| |k i|k|k i rc|k i rc|k i rc|k i rc|k i rc|k rc|c a|c a|]; cbn [run_thread role_at] in *.
  - unfold load_step. destruct (contexts s !! i) as [cxt|] eqn:Ei; [|intros [= <- <-]; split; [by apply goto_same|done]].
    destruct (load_new_config parse (objects s) cxt config) as [[[objs cxt'] rc]|] eqn:El; [|done]. msimpl. apply load_same in El.
    assert (inv (with_contexts s objs (<[i := cxt']> (contexts s)))) as H1 by (apply contexts_same; [done|by eapply context_same]).
    case_decide; intros [= <- <-]; (split; [|done]); [by apply goto_same|by apply leave_same].
  - destruct (config_mutex s); [done|]. intros [= <- <-]. split; [by apply leave_same|done].
  - unfold order_step. destruct (contexts s !! i) as [cxt|] eqn:Ei; [|intros [= <- <-]; split; [by apply goto_same|done]].
    destruct (swap_configs cxt) as [cxt' rc] eqn:Es.
    assert (inv (with_contexts s (objects s) (<[i := cxt']> (contexts s)))) as H1.
    { apply contexts_same; [done|eapply context_same; [done|]]. unfold swap_configs in Es. by destruct (_ =? _)%nat; injection Es as <- <-. }
    case_decide; intros [= <- <-]; (split; [|done]); [by apply goto_same|by apply leave_same].
  - destruct (config_mutex s); [done|]. intros E. injection E as E.
    assert (inv (do_swap (with_config s true (current_config s) (Some t)) t ByRuntime).1) as H1 by (by apply do_swap_inv).
    rewrite E in H1. split; [done|]. unfold do_swap in E. destruct (enable_swap _); injection E as _ <-; done.
  - destruct (contexts s !! i) as [cxt|] eqn:Ei; intros E; injection E as E.
    + subst. split; [apply goto_same; [done|by destruct (swap_ordered cxt)]|done].
    + assert (inv (returned s t k 1).1) as H1 by (by apply returned_inv). rewrite E in H1. split; [done|]. destruct k; injection E as _ <-; done.
  - case_bool_decide as Hl; [|done]. destruct Hl as [Hw Hr]. intros [= <- <-]. split; [|done].
    apply (inv_acquire H (role_of _) t); [done|done|by rewrite role_goto, decide_True|]. intros t' Hne. by rewrite role_goto, decide_False.
  - destruct (contexts s !! i) as [cxt|] eqn:Ei; intros [= <- <-]; (split; [|done]); apply goto_same; try done. by destruct (swap_ordered cxt).
  - destruct (pools s !! i) as [pool|] eqn:Ep; [|done]. msimpl. destruct (0 <? count pool) eqn:Ec; intros [= <- <-]; (split; [|done]); [done|].
    apply Z.ltb_ge in Ec. apply (inv_writer H (role_of _) t None false (Some i)); [done|by rewrite role_goto, decide_True| |done|].
    + intros t' Hne. by rewrite role_goto, decide_False.
    + intros c [= <-]. right. intros a o E. rewrite (i_count _ _ _ _ _ _ H i pool Ep) in Ec.
      assert (0 < count_of (in_cxt i) (packets s)) by (by apply (count_pos _ _ _ _ E)). lia.
  - destruct (contexts s !! i) as [cxt|] eqn:Ei; [|done]. intros [= <- <-]. split; [|done].
    destruct (swap_ordered cxt); [by apply goto_same|].
    apply (inv_writer H (role_of _) t (Some i) false None); [done|by rewrite role_goto, decide_True| |done|done].
    intros t' Hne. by rewrite role_goto, decide_False.
  - destruct (contexts s !! i) as [cxt|] eqn:Ei; [|done]. intros [= <- <-]. split; [|done].
    unfold inv. cbn. rewrite list_fmap_insert. apply (inv_assign H _ t); [done| |]; [|intros t' Hne]; unfold role_of; cbn;
      [by rewrite lookup_insert_eq|by rewrite lookup_insert_ne].
  - unfold factory_step. destruct (pools s !! i) as [pool|] eqn:Ep; [|done]. msimpl. destruct (contexts s !! i) as [cxt|] eqn:Ei; [|done]. msimpl.
    destruct (inv_factory H (role_of (goto s t (SwapVisit k (S i) (Z.land rc 0)))) t i (p4objects cxt)) as (pool1 & Ep1 & Hz & H1); [done| | | |].
    + by rewrite role_goto, decide_True.
    + intros t' Hne. by rewrite role_goto, decide_False.
    + by rewrite list_lookup_fmap, Ei.
    + rewrite Ep in Ep1. injection Ep1 as <-. unfold pool_set_phv_factory. rewrite Hz. cbn. intros [= <- <-]. split; [|done]. rewrite Hz in H1. exact H1.
  - intros E. injection E as E. assert (inv (returned (with_swap_mutex s None (swap_readers s)) t k rc).1) as H1.
    { assert (inv (leave (with_swap_mutex s None (swap_readers s)) t)) as Hl.
      { apply (inv_release H (role_of _) t false); [done|by rewrite role_leave, decide_True|]. intros t' Hne. by rewrite role_leave, decide_False. }
      destruct k as [|c a]; cbn [returned]; [by destruct (rc =? 0)|].
      cbn [fst]. apply (inv_roles Hl (role_of _)). intros t'. rewrite role_goto, role_leave. by case_decide. }
    rewrite E in H1. split; [done|]. destruct k; cbn [returned] in E; [destruct (rc =? 0)|]; injection E as _ <-; done.
  - destruct (swap_writer s) eqn:Ew; [done|]. intros [= <- <-]. split; [|done].
    apply (inv_reader H (role_of _) t); [done|by rewrite role_goto, decide_True|]. intros t' Hne. by rewrite role_goto, decide_False.
  - destruct (get s c a) as [s1|] eqn:Eg; [|done]. intros [= <- <-]. split; [|done].
    assert (role_of s1 t = Reader) as HR1.
    { unfold get in Eg. destruct (packets s !! a); [done|]. destruct (pools s !! c); [|done]. cbn [mbind option_bind] in Eg.
      destruct (pool_get _) as [[? ?]|]; [|done]. by injection Eg as <-. }
    apply goto_same; [|done]. apply (get_inv s c a); [done|done| |done]. intros t' b E. by apply (writer_no_reader H t' (Some c) b t).
  - intros [= <- <-]. split; [|done]. apply (inv_reader_leaves H (role_of _) t); [done|by rewrite role_leave, decide_True|].
    intros t' Hne. by rewrite role_leave, decide_False.
Qed.
Lemma get_size s c a s' : get s c a = Some s' → size (packets s') = S (size (packets s)).
Proof.
  unfold get. destruct (packets s !! a) eqn:Ea; [done|]. destruct (pools s !! c) as [pool|]; [|done]. cbn [mbind option_bind].
  destruct (pool_get pool) as [[pool' o]|]; [|done]. intros [= <-]. cbn. by rewrite map_size_insert_None.
Qed.

Lemma returned_packets s t k rc : packets (returned s t k rc).1 = packets s.
Proof. destruct k; cbn [returned]; [by destruct (rc =? 0)|done]. Qed.

Lemma run_thread_size s t p s' e : run_thread parse s t p = Some (s', e) → (size (packets s') ≤ S (size (packets s)))%nat.
Proof.
  assert (∀ s1 : Switch, packets s1 = packets s → (size (packets s1) ≤ S (size (packets s)))%nat) as Hsame by (intros s1 ->; lia).
  intros E. destruct p as [i config|config|i| |k i|k|k i rc|k i rc|k i rc|k i rc|k i rc|k rc|c a|c a|]; cbn [run_thread] in E.
  14: { destruct (get s c a) as [s1|] eqn:Eg; [|done]. cbn [mbind option_bind] in E. injection E as <- _. cbn. rewrite (get_size _ _ _ _ Eg). lia. }
  all: apply Hsame; unfold load_step, order_step, factory_step, do_swap in E.
  all: repeat match goal with
    | E : Some (returned ?s ?t ?k ?rc) = Some (?s', _) |- _ =>
        apply (f_equal (from_option (λ x, packets x.1) ∅)) in E; cbn [from_option fst] in E; rewrite returned_packets in E; by rewrite <- E
    | E : mbind _ ?x = Some _ |- _ => destruct x as [?|] eqn:?; cbn [mbind option_bind] in E; [|done]
    | E : match ?x with _ => _ end = Some _ |- _ => destruct x; try done; cbn [mbind option_bind] in E
    | E : Some (match ?x with _ => _ end) = Some _ |- _ => destruct x
    | E : Some (match ?x with _ => _ end, _) = Some _ |- _ => destruct x
    | E : Some (_, _) = Some (_, _) |- _ => injection E as <- _; done
    end.
Qed.

Lemma step_inv s l s' e : inv s → Z.of_nat (size (packets s)) < 2 ^ 64 - 1 → step parse s l = Some (s', e) →
  inv s' ∧ no_factory_assert e ∧ (size (packets s') ≤ S (size (packets s)))%nat.
Proof.
  intros H Hs E. unfold step in E. destruct (aborted s); [done|].
  assert (∀ t, threads s !! t = None → role_of s t = Outside) as Hout by (intros t Ht; unfold role_of; by rewrite Ht).
  destruct l as [t config|t|t c a|t|a from|a|b]; unfold call in E.
  - destruct (threads s !! t) eqn:Et; [done|]. destruct (enable_swap s); injection E as <- <-; (split; [|split; [done|cbn; lia]]); [|done].
    apply goto_same; [done|by rewrite Hout].
  - destruct (threads s !! t) eqn:Et; [done|]. destruct (enable_swap s); injection E as <- <-; (split; [|split; [done|cbn; lia]]); [|done].
    apply goto_same; [done|by rewrite Hout].
  - destruct (threads s !! t) eqn:Et; [done|]. pose proof (do_swap_inv s t (ByReceive c a) H (Hout t Et)) as H1. unfold do_swap in *.
    destruct (enable_swap s); cbn [returned] in *; injection E as <- <-; (split; [done|split; [done|cbn; lia]]).
  - destruct (threads s !! t) as [p|] eqn:Et; [|done]. cbn [mbind option_bind] in E.
    destruct (run_thread_inv s t p s' e H Hs Et E) as [H1 H2]. split; [done|]. split; [done|]. by apply (run_thread_size s t p s' e).
  - destruct (packets s !! from) as [[c o]|] eqn:Ef; [|done]. cbn [mbind option_bind] in E. destruct (get s c a) as [s1|] eqn:Eg; [|done].
    injection E as <- <-. split; [|split; [done|]].
    + apply (get_inv s c a); [done|done| |done]. intros t b Hw. by apply (i_empty _ _ _ _ _ _ H t c b from o Hw).
    + rewrite (get_size _ _ _ _ Eg). lia.
  - destruct (packets s !! a) as [[c o]|] eqn:Ea; [|done]. cbn [mbind option_bind] in E. destruct (pools s !! c) as [pool|] eqn:Ep; [|done].
    injection E as <- <-. split; [|split; [done|]]; [apply (inv_destroy H c a o pool); [lia|done..]|].
    cbn. rewrite map_size_delete_Some by done. lia.
  - injection E as <- <-. split; [done|]. split; [done|cbn; lia].
Qed.

Lemma configs_run_inv ls : ∀ s s' es, inv s → Z.of_nat (size (packets s) + length ls) < 2 ^ 64 → run parse s ls = Some (s', es) →
  inv s' ∧ ∀ t, FactoryAsserted t ∉ es.
Proof.
  induction ls as [|l ls IH]; intros s s' es H Hs E; cbn [run] in E.
  { injection E as <- <-. split; [done|]. intros t Hin. by apply elem_of_nil in Hin. }
  destruct (step parse s l) as [[s1 e]|] eqn:El; [|done]. cbn [mbind option_bind] in E.
  destruct (run parse s1 ls) as [[s2 es1]|] eqn:Er; [|done]. injection E as <- <-. cbn [length] in Hs.
  destruct (step_inv s l s1 e H) as (H1 & He & Hsz); [lia|done|]. destruct (IH s1 s2 es1 H1) as [H2 Hes]; [lia|done|]. split; [done|].
  intros t. destruct e as [e|]; [|apply Hes]. intros Hin. apply elem_of_cons in Hin as [Ht|Hin]; [|by apply (Hes t)]. apply (He t). by rewrite Ht.
Qed.

Lemma init_inv n arith enable config s : init_switch parse n arith enable config = Some s → inv s.
Proof.
  unfold init_switch. destruct (Nat.iter _ _ _) as [[objs cxts]|]; [|done]. cbn [mbind option_bind]. intros [= <-]. unfold inv. cbn.
  constructor.
  - intros t. unfold role_of. cbn. rewrite lookup_empty. split; [done|by intros (? & ? & ?)].
  - intros t. unfold role_of. cbn. rewrite lookup_empty. split; [set_solver|done].
  - by left.
  - by rewrite !length_fmap.
  - intros c pool Hp. apply list_lookup_fmap_Some in Hp as (cxt & -> & _). cbn. symmetry. apply count_none. intros a x E. by rewrite lookup_empty in E.
  - intros a c o E. by rewrite lookup_empty in E.
  - intros c pool o Hp Hc _. apply list_lookup_fmap_Some in Hp as (cxt & -> & Hi). rewrite list_lookup_fmap, Hi in Hc. injection Hc as <-. by split.
  - intros t c b a o E. unfold role_of in E. cbn in E. by rewrite lookup_empty in E.
Qed.

(** C12: The parsed headers of every packet are from the objects that its context
    has: they are never swapped while there is a packet. The pools count the
    packets, and giving a pool a new factory does not fail its assertion. *)
Theorem no_packet_spans_swap n arith enable config s ls s' es : init_switch parse n arith enable config = Some s →
  Z.of_nat (length ls) < 2 ^ 64 → run parse s ls = Some (s', es) →
  (∀ t, FactoryAsserted t ∉ es) ∧ (∀ a c o, packets s' !! a = Some (c, o) → p4objects <$> contexts s' !! c = Some o) ∧
  ∀ c pool, pools s' !! c = Some pool → count pool = count_of (in_cxt c) (packets s').
Proof.
  intros Hi Hl E. assert (packets s = ∅) as Hp.
  { unfold init_switch in Hi. destruct (Nat.iter _ _ _) as [[objs cxts]|]; [|done]. cbn [mbind option_bind] in Hi. by injection Hi as <-. }
  destruct (configs_run_inv ls s s' es) as [H He]; [by eapply init_inv|by rewrite Hp, map_size_empty|done|]. split; [done|]. split; [|apply H].
  intros a c o Ea. rewrite <- list_lookup_fmap. by apply (i_origin _ _ _ _ _ _ H a).
Qed.
End steps.
End ConfigsSpec.
