(* ===== verification/ConfigsRuns.v ===== *)
(** * Installing a configuration, and what goes wrong with it

    A thread that loads and swaps a configuration while nobody else runs
    installs it in every context. Other threads can make the same calls end
    with an assertion, or leave contexts with different configurations. *)

From stdpp Require Import gmap strings.
From S2P Require Import Prelude Headers PhvFactory Configs.

Module ConfigsRuns.
Import Configs.

Section alone.
Context (parse : string → Z * PhvFactory.PHVFactory).
Implicit Types (s : Switch) (t : Z) (cxt : Context) (objs : list P4Objects) (ps : list PHVPool).

Lemma list_insert_middle {A} (l1 l2 : list A) x y : <[length l1 := y]> (l1 ++ x :: l2) = l1 ++ y :: l2.
Proof. rewrite insert_app_r_alt, Nat.sub_diag by lia. done. Qed.

Lemma run_app s ls1 s1 es1 ls2 s2 es2 : run parse s ls1 = Some (s1, es1) → run parse s1 ls2 = Some (s2, es2) →
  run parse s (ls1 ++ ls2) = Some (s2, es1 ++ es2).
Proof.
  revert s es1. induction ls1 as [|l ls1 IH]; intros s es1 E1 E2; cbn [run app] in *; [by simplify_eq/=|].
  destruct (step parse s l) as [[s0 e]|]; [|done]. cbn [mbind option_bind] in *. destruct (run parse s0 ls1) as [[s3 es3]|] eqn:E; [|done].
  injection E1 as -> <-. rewrite (IH _ _ E E2). by destruct e.
Qed.

(** A thread takes a step and has not returned. *)
Lemma run_step s t p s1 ls s2 es : aborted s = false → threads s !! t = Some p → run_thread parse s t p = Some (s1, None) →
  run parse s1 ls = Some (s2, es) → run parse s (Run t :: ls) = Some (s2, es).
Proof. intros Ha Ht E1 E2. cbn [run]. unfold step at 1. rewrite Ha, Ht. cbn [mbind option_bind]. rewrite E1. cbn [mbind option_bind]. by rewrite E2. Qed.

Lemma run_last s t p s1 e : aborted s = false → threads s !! t = Some p → run_thread parse s t p = Some (s1, Some e) →
  run parse s [Run t] = Some (s1, [e]).
Proof. intros Ha Ht E. cbn [run]. unfold step. rewrite Ha, Ht. cbn [mbind option_bind]. rewrite E. done. Qed.

(** The state with thread [t] at [p], alone. *)
Definition alone s objs cxts ps t (p : pc) : Switch := update s objs cxts ps {[t := p]}.

Lemma alone_at s objs cxts ps t p : threads (alone s objs cxts ps t p) !! t = Some p.
Proof. apply lookup_singleton_eq. Qed.
Lemma alone_goto s objs cxts ps t p q : goto (alone s objs cxts ps t p) t q = alone s objs cxts ps t q.
Proof. unfold goto, alone, update. cbn. f_equal. apply insert_singleton_eq. Qed.

Definition made (config : string) : P4Objects := {| json := config; status := (parse config).1; phv_factory := (parse config).2 |}.
Definition loaded cxt (rt : nat) : Context :=
  {| p4objects := p4objects cxt; p4objects_rt := rt; swap_ordered := swap_ordered cxt; force_arith := force_arith cxt |}.
Definition ordered cxt : Context :=
  {| p4objects := p4objects cxt; p4objects_rt := p4objects_rt cxt; swap_ordered := true; force_arith := force_arith cxt |}.

Fixpoint load_all objs (cxts : list Context) (config : string) : list P4Objects * list Context :=
  match cxts with
  | [] => (objs, [])
  | cxt :: cxts => let '(objs', cxts) := load_all (objs ++ [made config]) cxts config in (objs', loaded cxt (length objs) :: cxts)
  end.

(** A context that has no new configuration. *)
Definition settled objs cxt : Prop :=
  p4objects cxt = p4objects_rt cxt ∧ swap_ordered cxt = false ∧ force_arith cxt = false ∧ (p4objects cxt < length objs)%nat.

Lemma settled_more objs cxt x : settled objs cxt → settled (objs ++ [x]) cxt.
Proof. intros (? & ? & ? & ?). split_and!; [done..|]. rewrite length_app. cbn. lia. Qed.

Lemma load_ok objs cxt config : settled objs cxt →
  load_new_config parse objs cxt config = Some (objs ++ [made config], loaded cxt (length objs), SUCCESS).
Proof.
  intros (Hrt & _ & Hf & _). unfold load_new_config, loaded. rewrite Hrt, Nat.eqb_refl. cbn [negb]. unfold init_objects.
  destruct (parse config) as [st f] eqn:Ep. cbn [force_arith p4objects_rt]. rewrite Hf, list_insert_middle, <- Hrt.
  assert ({| json := config; status := st; phv_factory := f |} = made config) as -> by (unfold made; by rewrite Ep).
  by destruct (negb (st =? 0)).
Qed.

(** *** The loops *)
Lemma load_loop s t config todo : ∀ objs prev ps, aborted s = false → Forall (settled objs) todo →
  run parse (alone s objs (prev ++ todo) ps t (Loading (length prev) config)) (replicate (S (length todo)) (Run t)) =
  Some (alone s (load_all objs todo config).1 (prev ++ (load_all objs todo config).2) ps t (LoadStore config), []).
Proof.
  induction todo as [|cxt todo IH]; intros objs prev ps Ha Hs; cbn [length load_all replicate fst snd].
  - eapply run_step; [done|apply alone_at| |reflexivity]. cbn [run_thread]. unfold load_step. cbn [contexts alone update].
    rewrite lookup_ge_None_2 by (rewrite app_nil_r; lia). by rewrite alone_goto.
  - apply Forall_cons in Hs as [Hc Hs]. destruct (load_all (objs ++ [made config]) todo config) as [objs' cxts'] eqn:El.
    eapply run_step; [done|apply alone_at| |].
    + cbn [run_thread]. unfold load_step. cbn [contexts alone update objects]. rewrite list_lookup_middle by done. rewrite load_ok by done. msimpl.
      rewrite decide_True by done. reflexivity.
    + specialize (IH (objs ++ [made config]) (prev ++ [loaded cxt (length objs)]) ps Ha). rewrite El, length_app in IH. cbn [length fst snd] in IH.
      rewrite Nat.add_1_r, <- !app_assoc in IH. cbn [app] in IH.
      unfold with_contexts. rewrite list_insert_middle. cbn [pools threads contexts objects alone update].
      change (update _ _ _ _ _) with (alone s (objs ++ [made config]) (prev ++ loaded cxt (length objs) :: todo) ps t (Loading (length prev) config)).
      rewrite alone_goto. apply IH. eapply Forall_impl; [done|]. intros x. apply settled_more.
Qed.

Lemma order_loop s t todo : ∀ objs prev ps, aborted s = false → Forall (λ cxt, p4objects cxt ≠ p4objects_rt cxt) todo →
  run parse (alone s objs (prev ++ todo) ps t (Ordering (length prev))) (replicate (S (length todo)) (Run t)) =
  Some (alone s objs (prev ++ (ordered <$> todo)) ps t OrderLock, []).
Proof.
  induction todo as [|cxt todo IH]; intros objs prev ps Ha Hs; cbn [length replicate].
  - eapply run_step; [done|apply alone_at| |reflexivity]. cbn [run_thread]. unfold order_step. cbn [contexts alone update].
    rewrite lookup_ge_None_2 by (rewrite app_nil_r; lia). by rewrite alone_goto.
  - apply Forall_cons in Hs as [Hc Hs]. eapply run_step; [done|apply alone_at| |].
    + cbn [run_thread]. unfold order_step, swap_configs. cbn [contexts alone update objects]. rewrite list_lookup_middle by done.
      rewrite (proj2 (Nat.eqb_neq _ _) Hc). rewrite decide_True by done. reflexivity.
    + specialize (IH objs (prev ++ [ordered cxt]) ps Ha Hs). rewrite length_app in IH. cbn [length] in IH.
      rewrite Nat.add_1_r, <- !app_assoc in IH. cbn [app] in IH.
      unfold with_contexts. rewrite list_insert_middle. cbn [pools threads contexts objects alone update].
      change (update _ _ _ _ _) with (alone s objs (prev ++ ordered cxt :: todo) ps t (Ordering (length prev))).
      rewrite alone_goto. exact IH.
Qed.

(** A pool after the factory was set. *)
Definition fresh_pool (o : nat) : PHVPool := {| phvs := []; maker := Some o; count := 0 |}.

Lemma swap_loop s t k todo : ∀ objs prev psp pst rc, aborted s = false → length psp = length prev → length pst = length todo →
  Forall (λ cxt, swap_ordered cxt = true) todo → Forall (λ pool, count pool = 0) pst →
  run parse (alone s objs (prev ++ todo) (psp ++ pst) t (SwapVisit k (length prev) rc)) (replicate (5 * length todo + 1) (Run t)) =
  Some (alone s objs (prev ++ (swapped <$> todo)) (psp ++ ((λ cxt, fresh_pool (p4objects_rt cxt)) <$> todo)) t
          (SwapEnd k (if decide (todo = []) then rc else 0)), []).
Proof.
  induction todo as [|cxt todo IH]; intros objs prev psp pst rc Ha Hlp Hlt Ho Hz.
  - apply nil_length_inv in Hlt as ->. cbn [length]. eapply run_step; [done|apply alone_at| |reflexivity]. cbn [run_thread contexts alone update].
    rewrite lookup_ge_None_2 by (rewrite app_nil_r; lia). by rewrite alone_goto.
  - destruct pst as [|pool pst]; [done|]. apply Forall_cons in Ho as [Hc Ho], Hz as [Hp Hz]. cbn [length] in Hlt.
    replace (5 * length (cxt :: todo) + 1)%nat with (5 + (5 * length todo + 1))%nat by (cbn [length]; lia).
    rewrite replicate_add. cbn [replicate app].
    eapply run_step; [done|apply alone_at| |]; [cbn [run_thread contexts alone update]; rewrite list_lookup_middle, Hc by done; by rewrite alone_goto|].
    eapply run_step; [done|apply alone_at| |].
    { cbn [run_thread pools alone update]. rewrite list_lookup_middle by done. msimpl. rewrite Hp. cbn. by rewrite alone_goto. }
    eapply run_step; [done|apply alone_at| |].
    { cbn [run_thread contexts alone update]. rewrite list_lookup_middle by done. msimpl. rewrite Hc. by rewrite alone_goto. }
    eapply run_step; [done|apply alone_at| |].
    { cbn [run_thread contexts alone update]. rewrite list_lookup_middle by done. msimpl. unfold with_contexts. rewrite list_insert_middle.
      cbn [pools threads contexts objects alone update].
      change (update _ _ _ _ _) with (alone s objs (prev ++ swapped cxt :: todo) (psp ++ pool :: pst) t (SwapAssign k (length prev) rc)).
      by rewrite alone_goto. }
    eapply run_step; [done|apply alone_at| |].
    { cbn [run_thread]. unfold factory_step. cbn [contexts pools alone update]. rewrite (list_lookup_middle psp pst pool _ (eq_sym Hlp)).
      rewrite list_lookup_middle by done. msimpl. unfold pool_set_phv_factory. rewrite Hp. cbn. unfold with_pools. rewrite <- Hlp, list_insert_middle, Hlp.
      cbn [pools threads contexts objects alone update].
      change (update _ _ _ _ _) with (alone s objs (prev ++ swapped cxt :: todo) (psp ++ fresh_pool (p4objects_rt cxt) :: pst) t (SwapFactory k (length prev) rc)).
      by rewrite alone_goto. }
    specialize (IH objs (prev ++ [swapped cxt]) (psp ++ [fresh_pool (p4objects_rt cxt)]) pst (Z.land rc 0) Ha).
    rewrite !length_app in IH. cbn [length] in IH.
    replace (length prev + 1)%nat with (S (length prev)) in IH by lia. rewrite <- !app_assoc in IH. cbn [app] in IH.
    rewrite IH by (done || lia). cbn [fmap list_fmap]. do 3 f_equal. rewrite Z.land_0_r. by case_decide.
Qed.

Lemma load_all_ok config cxts : ∀ objs, Forall (settled objs) cxts →
  length (load_all objs cxts config).2 = length cxts ∧ objs `prefix_of` (load_all objs cxts config).1 ∧
  Forall (λ cxt, p4objects cxt ≠ p4objects_rt cxt ∧ (load_all objs cxts config).1 !! p4objects_rt cxt = Some (made config) ∧ force_arith cxt = false)
    (load_all objs cxts config).2.
Proof.
  induction cxts as [|cxt cxts IH]; intros objs Hs; cbn [load_all fst snd]; [by split_and!|].
  apply Forall_cons in Hs as [(Hrt & _ & Hf & Hlt) Hs].
  destruct (IH (objs ++ [made config])) as (Hl & Hp & Ha); [eapply Forall_impl; [done|]; intros x; apply settled_more|].
  destruct (load_all (objs ++ [made config]) cxts config) as [objs' cxts']. cbn [fst snd] in *. split; [cbn; by rewrite Hl|].
  split; [by eapply prefix_app_l|]. apply Forall_cons. split; [|done]. cbn. split; [lia|]. split; [|done].
  apply (prefix_lookup_Some (objs ++ [made config])); [by apply list_lookup_middle|done].
Qed.

(** Nobody runs and there is no packet. *)
Record quiet s : Prop := {
  q_aborted : aborted s = false;
  q_threads : threads s = ∅;
  q_mutex : config_mutex s = None;
  q_writer : swap_writer s = None;
  q_readers : swap_readers s = ∅;
  q_enabled : enable_swap s = true;
  q_contexts : contexts s ≠ [];
  q_settled : Forall (settled (objects s)) (contexts s);
  q_pools : length (pools s) = length (contexts s);
  q_counts : Forall (λ pool, count pool = 0) (pools s);
}.

(** Every context and its pool have the configuration. *)
Definition installed config s : Prop :=
  current_config s = config ∧ config_loaded s = true ∧
  ∀ c cxt, contexts s !! c = Some cxt →
    objects s !! p4objects cxt = Some (made config) ∧ maker <$> pools s !! c = Some (Some (p4objects cxt)).

Lemma load_alone s t config : quiet s →
  run parse s (CallLoad t config :: replicate (S (S (length (contexts s)))) (Run t)) =
  Some (update (with_config s (config_loaded s) config None) (load_all (objects s) (contexts s) config).1 (load_all (objects s) (contexts s) config).2
          (pools s) ∅, [Loaded t SUCCESS]).
Proof.
  intros Q. cbn [run]. unfold step at 1. rewrite (q_aborted _ Q). unfold call. rewrite (q_threads _ Q), lookup_empty, (q_enabled _ Q).
  cbn [mbind option_bind]. replace (S (S (length (contexts s)))) with (S (length (contexts s)) + 1)%nat by lia. rewrite replicate_add.
  assert (goto s t (Loading 0 config) = alone s (objects s) (contexts s) (pools s) t (Loading 0 config)) as ->
    by (unfold goto, alone; by rewrite (q_threads _ Q)).
  pose proof (load_loop s t config (contexts s) (objects s) [] (pools s) (q_aborted _ Q) (q_settled _ Q)) as E1. cbn [app length] in E1.
  erewrite (run_app _ _ _ _ _ _ _ E1); [reflexivity|].
  eapply run_last; [apply Q|apply alone_at|]. cbn [run_thread config_mutex alone update]. rewrite (q_mutex _ Q).
  unfold leave, with_config, alone, update. cbn. by rewrite delete_singleton_eq.
Qed.

(** A state of contexts that all have something new. *)
Lemma swap_alone s t : aborted s = false → threads s = ∅ → config_mutex s = None → swap_writer s = None → swap_readers s = ∅ → enable_swap s = true →
  contexts s ≠ [] → Forall (λ cxt, p4objects cxt ≠ p4objects_rt cxt) (contexts s) → length (pools s) = length (contexts s) →
  Forall (λ pool, count pool = 0) (pools s) →
  run parse s (CallSwap t :: replicate (S (length (contexts s)) + (3 + (5 * length (contexts s) + 1) + 1)) (Run t)) =
  Some (update (with_config s true (current_config s) None) (objects s) ((λ cxt, swapped (ordered cxt)) <$> contexts s)
          ((λ cxt, fresh_pool (p4objects_rt cxt)) <$> contexts s) ∅, [Swapped t SUCCESS]).
Proof.
  intros Ha Ht Hm Hw Hr He Hne Hrt Hl Hz. cbn [run]. unfold step at 1. rewrite Ha. unfold call. rewrite Ht, lookup_empty, He.
  cbn [mbind option_bind].
  assert (goto s t (Ordering 0) = alone s (objects s) (contexts s) (pools s) t (Ordering 0)) as -> by (unfold goto, alone; by rewrite Ht).
  pose proof (order_loop s t (contexts s) (objects s) [] (pools s) Ha Hrt) as E1. cbn [app length] in E1.
  rewrite replicate_add. erewrite (run_app _ _ _ _ _ _ _ E1); [reflexivity|].
  cbn [app]. set (cxts := ordered <$> contexts s). rewrite <- Nat.add_assoc, replicate_add. cbn [replicate app].
  set (s1 := with_config s true (current_config s) (Some t)).
  assert (∃ cxt, cxts !! 0%nat = Some cxt ∧ swap_ordered cxt = true) as (cxt & H0 & Ho).
  { unfold cxts. destruct (contexts s) as [|cxt l]; [done|]. by exists (ordered cxt). }
  eapply run_step; [done|apply alone_at| |].
  { cbn [run_thread config_mutex alone update]. rewrite Hm. unfold do_swap.
    match goal with |- context [enable_swap ?x] => change (enable_swap x) with (enable_swap s) end. rewrite He.
    change (with_config _ true _ (Some t)) with (alone s1 (objects s) cxts (pools s) t OrderLock). by rewrite alone_goto. }
  eapply run_step; [done|apply alone_at| |].
  { cbn [run_thread contexts alone update]. rewrite H0, Ho. by rewrite alone_goto. }
  set (s2 := with_swap_mutex s1 (Some t) ∅).
  eapply run_step; [done|apply alone_at| |].
  { cbn [run_thread swap_writer swap_readers alone update s1 with_config]. rewrite Hw, Hr, bool_decide_true by done.
    change (with_swap_mutex _ (Some t) ∅) with (alone s2 (objects s) cxts (pools s) t (SwapLock ByRuntime)). by rewrite alone_goto. }
  assert (length cxts = length (contexts s)) as Hlc by (unfold cxts; by rewrite length_fmap).
  assert (Forall (λ cxt, swap_ordered cxt = true) cxts) as Hoc by (unfold cxts; apply Forall_fmap, Forall_forall; by intros x _).
  assert (length (pools s) = length cxts) as Hlp by (by rewrite Hlc).
  pose proof (swap_loop s2 t ByRuntime cxts (objects s) [] [] (pools s) 1 Ha eq_refl Hlp Hoc Hz) as E2. cbn [app length] in E2.
  rewrite Hlc in E2. rewrite replicate_add. erewrite (run_app _ _ _ _ _ _ _ E2); [reflexivity|].
  eapply run_last; [done|apply alone_at|]. cbn [run_thread returned]. rewrite decide_False by (unfold cxts; by destruct (contexts s)). cbn [Z.eqb].
  unfold leave, with_config, with_swap_mutex, alone, update. cbn. rewrite delete_singleton_eq. unfold cxts. rewrite <- !list_fmap_compose. by rewrite Hw, Hr.
Qed.

(** C24: A thread that loads a configuration and swaps it, alone and without
    packets, is told success twice; the configuration is then that of the switch,
    of every context and of its pool, and nobody runs, as before. *)
Theorem config_installed s t config : quiet s → ∃ k1 k2 s',
  run parse s ((CallLoad t config :: replicate k1 (Run t)) ++ CallSwap t :: replicate k2 (Run t)) = Some (s', [Loaded t SUCCESS; Swapped t SUCCESS]) ∧
  installed config s' ∧ quiet s' ∧ length (contexts s') = length (contexts s).
Proof.
  intros Q. pose proof (load_alone s t config Q) as E1. destruct (load_all_ok config (contexts s) (objects s)) as (Hl & [more Hp] & Ha); [apply Q|].
  destruct (load_all (objects s) (contexts s) config) as [objs cxts]. cbn [fst snd] in *.
  set (s1 := update (with_config s (config_loaded s) config None) objs cxts (pools s) ∅) in *.
  assert (cxts ≠ []) as Hne by (pose proof (q_contexts _ Q); intros ->; by destruct (contexts s)).
  eexists _, _, _. split; [|split; [|split]].
  - rewrite (run_app _ _ _ _ _ _ _ E1 (swap_alone s1 t (q_aborted _ Q) eq_refl eq_refl (q_writer _ Q) (q_readers _ Q) (q_enabled _ Q) Hne
      (Forall_impl _ _ _ Ha (λ x H, proj1 H)) ltac:(cbn; rewrite Hl; apply Q) (q_counts _ Q))). reflexivity.
  - split; [done|]. split; [done|]. cbn. intros c cxt E. apply list_lookup_fmap_Some in E as (x & -> & E). rewrite list_lookup_fmap, E.
    cbn. split; [|done]. by apply (Forall_lookup_1 _ _ _ _ Ha E).
  - constructor; cbn; try apply Q; try done; [by destruct cxts| |by rewrite !length_fmap|].
    + apply Forall_fmap, Forall_forall. intros x Hx. pose proof (proj1 (Forall_forall _ _) Ha x Hx) as (_ & Ho & Hf). split_and!; [done..|].
      cbn. by apply lookup_lt_Some in Ho.
    + apply Forall_fmap, Forall_forall. intros x _. done.
  - cbn. by rewrite length_fmap.
Qed.
End alone.
End ConfigsRuns.

(** ** Runs *)
Module ConfigsExamples.
Import Configs ConfigsRuns.

(** A header with one field, which takes part in no expression. The text "bad"
    cannot be parsed. *)
Definition tag_type : Headers.HeaderType := (Headers.push_back_field (Headers.new_type 0) "kind" 8 false false false).1.
Definition tags : PhvFactory.PHVFactory :=
  default PhvFactory.new (PhvFactory.disable_all_field_arith (PhvFactory.push_back_header PhvFactory.new 0 tag_type [] false) 0).
Definition parse (config : string) : Z * PhvFactory.PHVFactory :=
  if String.eqb config "bad" then (1, PhvFactory.new) else (0, tags).

Definition start (n : nat) (arith : bool) : Switch :=
  default (Build_Switch [] [] [] false false "" None None ∅ ∅ ∅ true) (init_switch parse n arith true "a").
Definition after (s : Switch) (ls : list label) : option (Switch * list event) := run parse s ls.

Definition configs (s : Switch) : list string := (λ cxt, default ""%string (json <$> objects s !! p4objects cxt)) <$> contexts s.
Definition loads (t : Z) (config : string) (n : nat) : list label := CallLoad t config :: replicate n (Run t).
Definition swaps (t : Z) (n : nat) : list label := CallSwap t :: replicate n (Run t).
Definition receive (t : Z) (c : nat) (a : Z) (n : nat) : list label := CallReceive t c a :: replicate n (Run t).

Lemma start_quiet : quiet (start 2 false).
Proof. constructor; try done; repeat constructor; cbn; lia. Qed.

Lemma config_installed_witness : ∃ k1 k2 s',
  after (start 2 false) ((CallLoad 1 "b" :: replicate k1 (Run 1)) ++ CallSwap 1 :: replicate k2 (Run 1)) = Some (s', [Loaded 1 SUCCESS; Swapped 1 SUCCESS]) ∧
  installed parse "b" s'.
Proof. destruct (config_installed parse (start 2 false) 1 "b" start_quiet) as (k1 & k2 & s' & E & H & _). by exists k1, k2, s'. Defined.

(** A swap waits for the packet 7; the packet 8 of another thread waits for the
    swap, and is made after it. *)
Definition busy : list label :=
  receive 2 0 7 6 ++ loads 1 "b" 4 ++ swaps 1 9 ++ receive 3 1 8 1 ++ [Destroy 7] ++ replicate 11 (Run 1) ++ replicate 8 (Run 3).

Lemma no_packet_spans_swap_witness : ∃ s es, after (start 2 false) busy = Some (s, es) ∧ packets s !! 8 = Some (1%nat, 3%nat) ∧
  p4objects <$> contexts s !! 1%nat = Some 3%nat ∧ FactoryAsserted 1 ∉ es.
Proof.
  destruct (after (start 2 false) busy) as [[s es]|] eqn:E; [|vm_compute in E; discriminate E]. exists s, es.
  assert (init_switch parse 2 false true "a" = Some (start 2 false)) as Hi by reflexivity.
  destruct (ConfigsSpec.no_packet_spans_swap parse 2 false true "a" (start 2 false) busy s es Hi) as (Ha & Ho & _); [cbn; lia|exact E|].
  assert (packets s !! 8 = Some (1%nat, 3%nat)) as Hp by (vm_compute in E; injection E as <- <-; reflexivity).
  split; [done|]. split; [exact Hp|]. split; [exact (Ho _ _ _ Hp)|apply Ha].
Defined.

(** ** What goes wrong *)

(** The swap that [swap_configs] ordered is done by a thread that receives a
    packet; when [swap_configs] calls [do_swap] itself, there is nothing left to
    swap, and its assertion fails. *)
Theorem swap_race_asserts :
  snd <$> after (start 1 false) (loads 1 "b" 3 ++ swaps 1 2 ++ receive 2 0 7 11 ++ replicate 3 (Run 1)) = Some [Loaded 1 SUCCESS; SwapAsserted 1].
Proof. vm_compute. reflexivity. Qed.

(** A swap that is ordered while a configuration is loaded fails at the second
    context, but not before it ordered the first one to swap. In the end the
    contexts have different configurations; a swap is refused, and so is another
    load. *)
Definition half : list label := loads 1 "b" 1 ++ swaps 2 2 ++ receive 3 0 7 13 ++ replicate 3 (Run 1).
Theorem contexts_diverge :
  (λ x, (configs x.1, current_config x.1, x.2)) <$> after (start 2 false) (half ++ swaps 1 1 ++ loads 1 "c" 2) =
  Some (["b"; "a"], "b", [Swapped 2 NO_ONGOING_SWAP; Received 3; Loaded 1 SUCCESS; Swapped 1 NO_ONGOING_SWAP; Loaded 1 ONGOING_SWAP])%string.
Proof. vm_compute. reflexivity. Qed.

(** A configuration that cannot be parsed is loaded and swapped with success. *)
Theorem broken_config_swapped :
  (λ x, ((λ cxt, status <$> objects x.1 !! p4objects cxt) <$> contexts x.1, x.2)) <$> after (start 1 false) (loads 1 "bad" 3 ++ swaps 1 12) =
  Some ([Some 1], [Loaded 1 SUCCESS; Swapped 1 SUCCESS]).
Proof. vm_compute. reflexivity. Qed.

(** When all fields are to take part in expressions, those of the first
    configuration do; those of the next do not, since the change is made to the
    objects that packets still use. *)
Definition arith_offsets (s : Switch) : list (option (list Z)) :=
  (λ cxt, o ← objects s !! p4objects cxt; d ← PhvFactory.header_descs (phv_factory o) !! 0; Some (elements (PhvFactory.arith_offsets d))) <$> contexts s.
Theorem force_arith_lost :
  (arith_offsets (start 1 true), (λ x, arith_offsets x.1) <$> after (start 1 true) (loads 1 "b" 3 ++ swaps 1 12)) = ([Some [1; 0]], Some [Some []]).
Proof. vm_compute. reflexivity. Qed.
End ConfigsExamples.
