(* ===== verification/Runtime.v ===== *)
(** * The runtime interface of a context (src/bm_sim/context.cpp)

    What a controller asks of the P4 objects: the tables, the profiles, counters,
    meters, registers, value sets and calculations, each found by its name. A
    table or an action that does not exist is an exception of [at], an assertion
    that fails or a value outside of its range ends the request as well: the
    result is then [None]. A request holds the mutex of the context, and that of
    the table while it works on it; it is one step. Times are arguments. *)

From stdpp Require Import gmap strings.
From S2P Require Import Prelude HandleMgr Ras ByteContainer Data Fields Headers Phv MatchKeyTypes LookupStructures MatchKey TableKeys Counters.
From S2P Require Import MatchUnit MatchUnitSpec MatchUnitRun Expressions ErrorCodes Parser Crc Cksum Calculations Actions ActionProfile ActionProfileSpec.
From S2P Require Import Meters MatchTables MatchTablesSpec TablesProfile TablesExamples Learning Ageing.

Module Runtime.
Import ActionProfile MatchTables.

(** ** The objects *)

(** The kind of a match unit. *)
Record Keys := { key : Type; structure : Type; key_class : TableKey key; structure_class : LookupStructure key structure }.
#[global] Existing Instance key_class.
#[global] Existing Instance structure_class.

(** Tables by their classes; profiles are shared, and known by their names. *)
Inductive MatchTableAbstract (J : Type) :=
| Simple (k : Keys) (t : MatchTable (key k) (structure k) J)
| Indirect (k : Keys) (t : MatchTableIndirect (key k) (structure k) J) (profile : string)
| IndirectWS (k : Keys) (t : MatchTableIndirect (key k) (structure k) J) (profile : string).
Arguments Simple {J} k t.
Arguments Indirect {J} k t profile.
Arguments IndirectWS {J} k t profile.

Inductive MatchTableType := NONE | SIMPLE | INDIRECT | INDIRECT_WS.

Record P4Objects (J S : Type) := {
  match_action_tables_map : gmap string (MatchTableAbstract J);
  t_actions_map : gmap (string * string) Actions.ActionFn;
  action_profiles_map : gmap string (Profile J S);
  aprof_actions_map : gmap (string * string) Actions.ActionFn;
  meter_arrays : gmap string Meters.MeterArray;
  counter_arrays : gmap string Counters.CounterArray;
  register_arrays : gmap string Registers.RegisterArray;
  parse_vsets : gmap string Parser.ParseVSet;
  calculations : gmap string Calculations.Calculation;
  learn_engine : gmap Z Learning.LearnList;
  ageing_monitor : Ageing.AgeingMonitor;
}.
Arguments match_action_tables_map {J S} _.
Arguments t_actions_map {J S} _.
Arguments action_profiles_map {J S} _.
Arguments aprof_actions_map {J S} _.
Arguments meter_arrays {J S} _.
Arguments counter_arrays {J S} _.
Arguments register_arrays {J S} _.
Arguments parse_vsets {J S} _.
Arguments calculations {J S} _.
Arguments learn_engine {J S} _.
Arguments ageing_monitor {J S} _.

Section requests.
Context {J S : Type} `{!Judy1 J, !Judy1Count J, !GroupSelection S}.
Abbreviation Objects := (P4Objects J S).
Abbreviation Table := (MatchTableAbstract J).
Implicit Types (o : Objects) (table_name act_prof_name action_name name : string) (handle mbr grp idx now : Z)
  (ad : Actions.ActionData) (params : list MatchKey.MatchKeyParam) (configs : list Meters.rate_config_t).

Definition update o (ts : gmap string Table) (ps : gmap string (Profile J S)) (ms : gmap string Meters.MeterArray)
    (cs : gmap string Counters.CounterArray) (rs : gmap string Registers.RegisterArray) (vs : gmap string Parser.ParseVSet)
    (ks : gmap string Calculations.Calculation) : Objects :=
  {| match_action_tables_map := ts; t_actions_map := t_actions_map o; action_profiles_map := ps; aprof_actions_map := aprof_actions_map o;
     meter_arrays := ms; counter_arrays := cs; register_arrays := rs; parse_vsets := vs; calculations := ks;
     learn_engine := learn_engine o; ageing_monitor := ageing_monitor o |}.
Definition with_tables o ts :=
  update o ts (action_profiles_map o) (meter_arrays o) (counter_arrays o) (register_arrays o) (parse_vsets o) (calculations o).
Definition with_profiles o ps :=
  update o (match_action_tables_map o) ps (meter_arrays o) (counter_arrays o) (register_arrays o) (parse_vsets o) (calculations o).
Definition with_meter_arrays o ms :=
  update o (match_action_tables_map o) (action_profiles_map o) ms (counter_arrays o) (register_arrays o) (parse_vsets o) (calculations o).
Definition with_counter_arrays o cs :=
  update o (match_action_tables_map o) (action_profiles_map o) (meter_arrays o) cs (register_arrays o) (parse_vsets o) (calculations o).
Definition with_register_arrays o rs :=
  update o (match_action_tables_map o) (action_profiles_map o) (meter_arrays o) (counter_arrays o) rs (parse_vsets o) (calculations o).
Definition with_parse_vsets o vs :=
  update o (match_action_tables_map o) (action_profiles_map o) (meter_arrays o) (counter_arrays o) (register_arrays o) vs (calculations o).
Definition with_calculations o ks :=
  update o (match_action_tables_map o) (action_profiles_map o) (meter_arrays o) (counter_arrays o) (register_arrays o) (parse_vsets o) ks.

(** [get_abstract_match_table] and [get_action] throw. *)
Definition get_abstract_match_table o table_name : option Table := match_action_tables_map o !! table_name.
Definition get_action o table_name action_name : option Actions.ActionFn := t_actions_map o !! (table_name, action_name).
Definition get_action_for_action_profile o act_prof_name action_name : option Actions.ActionFn := aprof_actions_map o !! (act_prof_name, action_name).
Definition set_table o table_name (t : Table) : Objects := with_tables o (<[table_name := t]> (match_action_tables_map o)).
Definition set_profile o act_prof_name (a : Profile J S) : Objects := with_profiles o (<[act_prof_name := a]> (action_profiles_map o)).

(** ** Tables of any class *)

(** A method of [MatchTableAbstract]. *)
Definition on_base {A} (f : ∀ K V L (k : TableKey K) (l : LookupStructure K L), Base K V L J → option (Base K V L J * A)) (t : Table) : option (Table * A) :=
  match t with
  | Simple k t => '(b, x) ← f _ _ _ _ _ (base t); Some (Simple k (with_base t b), x)
  | Indirect k t p => '(b, x) ← f _ _ _ _ _ (ibase t); Some (Indirect k (with_ibase t b) p, x)
  | IndirectWS k t p => '(b, x) ← f _ _ _ _ _ (ibase t); Some (IndirectWS k (with_ibase t b) p, x)
  end.
Definition mt_any {A} o table_name (f : ∀ K V L (k : TableKey K) (l : LookupStructure K L), Base K V L J → option (Base K V L J * A)) : option (Objects * A) :=
  t ← get_abstract_match_table o table_name; '(t, x) ← on_base f t; Some (set_table o table_name t, x).

(** One that does not change the table. *)
Definition query_base {A} (f : ∀ K V L (k : TableKey K) (l : LookupStructure K L), Base K V L J → option A) (t : Table) : option A :=
  match t with Simple k t => f _ _ _ _ _ (base t) | Indirect k t _ | IndirectWS k t _ => f _ _ _ _ _ (ibase t) end.

Definition mt_get_num_entries o table_name : option Z :=
  t ← get_abstract_match_table o table_name; query_base (λ K V L _ _ b, Some (MatchUnit.num_entries (match_unit b))) t.

Definition reset_table (t : Table) : option Table :=
  match t with
  | Simple k t => t ← MatchTables.reset_state t; Some (Simple k t)
  | Indirect k t p => t ← reset_state_indirect t; Some (Indirect k t p)
  | IndirectWS k t p => t ← reset_state_indirect t; Some (IndirectWS k t p)
  end.

Definition mt_clear_entries o table_name (reset_default_entry : bool) : option (Objects * MatchErrorCode) :=
  t ← get_abstract_match_table o table_name;
  if reset_default_entry then Some (o, ERROR) else t ← reset_table t; Some (set_table o table_name t, SUCCESS).

Definition mt_set_entry_ttl o table_name handle (ttl_ms now : Z) : option (Objects * MatchErrorCode) :=
  mt_any o table_name (λ K V L _ _ b, set_entry_ttl b handle ttl_ms now).

Definition mt_read_counters o table_name handle : option (Outcome (Z * Z)) :=
  t ← get_abstract_match_table o table_name; query_base (λ K V L _ _ b, query_counters b handle) t.
Definition mt_reset_counters o table_name : option (Objects * MatchErrorCode) := mt_any o table_name (λ K V L _ _ b, Some (reset_counters b)).
Definition mt_write_counters o table_name handle (bytes packets : Z) : option (Objects * MatchErrorCode) :=
  mt_any o table_name (λ K V L _ _ b, write_counters b handle bytes packets).
Definition mt_set_meter_rates o table_name handle configs : option (Objects * MatchErrorCode) :=
  mt_any o table_name (λ K V L _ _ b, set_meter_rates b handle configs).
Definition mt_get_meter_rates o table_name handle : option (Outcome (list Meters.rate_config_t)) :=
  t ← get_abstract_match_table o table_name; query_base (λ K V L _ _ b, get_meter_rates b handle) t.

Definition get_table_type (t : Table) : MatchTableType :=
  match t with Simple _ _ => SIMPLE | Indirect _ _ _ => INDIRECT | IndirectWS _ _ _ => INDIRECT_WS end.
Definition mt_get_type o table_name : option MatchTableType := t ← get_abstract_match_table o table_name; Some (get_table_type t).

(** ** Tables with actions *)

(** A request for a [MatchTable], and the action that it names. *)
Definition mt_simple {A} o table_name (wrong : A) (f : ∀ k : Keys, MatchTable (key k) (structure k) J → option (MatchTable (key k) (structure k) J * A))
    : option (Objects * A) :=
  t ← get_abstract_match_table o table_name;
  match t with
  | Simple k t => '(t, x) ← f k t; Some (set_table o table_name (Simple k t), x)
  | _ => Some (o, wrong)
  end.

Definition mt_add_entry o table_name params action_name ad (priority now : Z) : option (Objects * Outcome Z) :=
  mt_simple o table_name (Err WRONG_TABLE_TYPE) (λ k t, action ← get_action o table_name action_name; add_entry t params action ad priority now).
Definition mt_set_default_action o table_name action_name ad : option (Objects * MatchErrorCode) :=
  mt_simple o table_name WRONG_TABLE_TYPE (λ k t, action ← get_action o table_name action_name; set_default_action t action ad).
Definition mt_delete_entry o table_name handle : option (Objects * MatchErrorCode) :=
  mt_simple o table_name WRONG_TABLE_TYPE (λ k t, delete_entry t handle).
Definition mt_modify_entry o table_name handle action_name ad : option (Objects * MatchErrorCode) :=
  mt_simple o table_name WRONG_TABLE_TYPE (λ k t, action ← get_action o table_name action_name; modify_entry t handle action ad).

(** ** Profiles *)

(** A request for a profile, which gives [wrong] when there is none. *)
Definition act_prof {A} o act_prof_name (wrong : A) (f : Profile J S → option (Profile J S * A)) : option (Objects * A) :=
  match action_profiles_map o !! act_prof_name with
  | None => Some (o, wrong)
  | Some a => '(a, x) ← f a; Some (set_profile o act_prof_name a, x)
  end.
Definition query_prof {A} o act_prof_name (wrong : A) (f : Profile J S → option A) : option A :=
  match action_profiles_map o !! act_prof_name with None => Some wrong | Some a => f a end.

Definition mt_act_prof_add_member o act_prof_name action_name ad : option (Objects * Outcome Z) :=
  act_prof o act_prof_name (Err INVALID_ACTION_PROFILE_NAME) (λ a,
    action ← get_action_for_action_profile o act_prof_name action_name; add_member a action ad).
Definition mt_act_prof_delete_member o act_prof_name mbr : option (Objects * MatchErrorCode) :=
  act_prof o act_prof_name INVALID_ACTION_PROFILE_NAME (λ a, delete_member a mbr).
Definition mt_act_prof_modify_member o act_prof_name mbr action_name ad : option (Objects * MatchErrorCode) :=
  act_prof o act_prof_name INVALID_ACTION_PROFILE_NAME (λ a,
    action ← get_action_for_action_profile o act_prof_name action_name; modify_member a mbr action ad).
Definition mt_act_prof_create_group o act_prof_name : option (Objects * Outcome Z) :=
  act_prof o act_prof_name (Err INVALID_ACTION_PROFILE_NAME) create_group.
Definition mt_act_prof_delete_group o act_prof_name grp : option (Objects * MatchErrorCode) :=
  act_prof o act_prof_name INVALID_ACTION_PROFILE_NAME (λ a, delete_group a grp).
Definition mt_act_prof_add_member_to_group o act_prof_name mbr grp : option (Objects * MatchErrorCode) :=
  act_prof o act_prof_name INVALID_ACTION_PROFILE_NAME (λ a, add_member_to_group a mbr grp).
Definition mt_act_prof_remove_member_from_group o act_prof_name mbr grp : option (Objects * MatchErrorCode) :=
  act_prof o act_prof_name INVALID_ACTION_PROFILE_NAME (λ a, remove_member_from_group a mbr grp).
Definition mt_act_prof_get_members o act_prof_name : option (list (Z * ActionEntry)) := query_prof o act_prof_name [] get_members.
Definition mt_act_prof_get_member o act_prof_name mbr : option (Outcome (Z * ActionEntry)) :=
  query_prof o act_prof_name (Err INVALID_ACTION_PROFILE_NAME) (λ a, get_member a mbr).
Definition mt_act_prof_get_groups o act_prof_name : option (list (Z * list Z)) := query_prof o act_prof_name [] get_groups.
Definition mt_act_prof_get_group o act_prof_name grp : option (Outcome (Z * list Z)) :=
  query_prof o act_prof_name (Err INVALID_ACTION_PROFILE_NAME) (λ a, get_group a grp).

(** ** Tables with members and groups *)

(** A [MatchTableIndirectWS] is a [MatchTableIndirect]. *)
Definition indirect (t : Table) : option {k : Keys & (MatchTableIndirect (key k) (structure k) J * string * bool)%type} :=
  match t with
  | Simple _ _ => None
  | Indirect k t p => Some (existT k (t, p, false))
  | IndirectWS k t p => Some (existT k (t, p, true))
  end.
Definition remake (k : Keys) (t : MatchTableIndirect (key k) (structure k) J) (p : string) (ws : bool) : Table :=
  if ws then IndirectWS k t p else Indirect k t p.

(** A request for a [MatchTableIndirect], for one with groups when [need_ws]; the table has its profile. *)
Definition mt_on_indirect {A} o table_name (need_ws : bool) (wrong : A)
    (f : ∀ k : Keys, MatchTableIndirect (key k) (structure k) J → Profile J S → option (MatchTableIndirect (key k) (structure k) J * Profile J S * A))
    : option (Objects * A) :=
  t ← get_abstract_match_table o table_name;
  match indirect t with
  | Some (existT k (t, p, ws)) =>
      if need_ws && negb ws then Some (o, wrong) else
      a ← action_profiles_map o !! p;
      '(t, a, x) ← f k t a;
      Some (set_profile (set_table o table_name (remake k t p ws)) p a, x)
  | None => Some (o, wrong)
  end.

Definition mt_indirect_add_entry o table_name params mbr (priority now : Z) : option (Objects * Outcome Z) :=
  mt_on_indirect o table_name false (Err WRONG_TABLE_TYPE) (λ k t a, add_entry_mbr t a params mbr priority now).
Definition mt_indirect_modify_entry o table_name handle mbr : option (Objects * MatchErrorCode) :=
  mt_on_indirect o table_name false WRONG_TABLE_TYPE (λ k t a, modify_entry_mbr t a handle mbr).
Definition mt_indirect_delete_entry o table_name handle : option (Objects * MatchErrorCode) :=
  mt_on_indirect o table_name false WRONG_TABLE_TYPE (λ k t a, delete_entry_indirect t a handle).
Definition mt_indirect_set_entry_ttl o table_name handle (ttl_ms now : Z) : option (Objects * MatchErrorCode) :=
  mt_any o table_name (λ K V L _ _ b, set_entry_ttl b handle ttl_ms now).
Definition mt_indirect_set_default_member o table_name mbr : option (Objects * MatchErrorCode) :=
  mt_on_indirect o table_name false WRONG_TABLE_TYPE (λ k t a, '(t, rc) ← set_default_member t a mbr; Some (t, a, rc)).
Definition mt_indirect_ws_add_entry o table_name params grp (priority now : Z) : option (Objects * Outcome Z) :=
  mt_on_indirect o table_name true (Err WRONG_TABLE_TYPE) (λ k t a, add_entry_ws t a params grp priority now).
Definition mt_indirect_ws_modify_entry o table_name handle grp : option (Objects * MatchErrorCode) :=
  mt_on_indirect o table_name true WRONG_TABLE_TYPE (λ k t a, modify_entry_ws t a handle grp).
Definition mt_indirect_ws_set_default_group o table_name grp : option (Objects * MatchErrorCode) :=
  mt_on_indirect o table_name true WRONG_TABLE_TYPE (λ k t a, '(t, rc) ← set_default_group t a grp; Some (t, a, rc)).

(** ** Reading entries *)

Definition query_simple {A} o table_name (wrong : A) (f : ∀ k : Keys, MatchTable (key k) (structure k) J → option A) : option A :=
  t ← get_abstract_match_table o table_name; match t with Simple k t => f k t | _ => Some wrong end.
Definition query_indirect {A} o table_name (need_ws : bool) (wrong : A) (f : ∀ k : Keys, MatchTableIndirect (key k) (structure k) J → option A) : option A :=
  t ← get_abstract_match_table o table_name;
  match indirect t with
  | Some (existT k (t, _, ws)) => if need_ws && negb ws then Some wrong else f k t
  | None => Some wrong
  end.

Definition mt_get_entries o table_name now := query_simple o table_name [] (λ k t, get_entries read_action (base t) now).
Definition mt_indirect_get_entries o table_name now := query_indirect o table_name false [] (λ k t, get_entries read_mbr (ibase t) now).
Definition mt_indirect_ws_get_entries o table_name now := query_indirect o table_name true [] (λ k t, get_entries read_mbr_grp (ibase t) now).

Definition mt_get_entry o table_name handle now := query_simple o table_name (Err WRONG_TABLE_TYPE) (λ k t, get_entry t handle now).
Definition mt_indirect_get_entry o table_name handle now :=
  query_indirect o table_name false (Err WRONG_TABLE_TYPE) (λ k t, get_entry_indirect t handle now).
Definition mt_indirect_ws_get_entry o table_name handle now :=
  query_indirect o table_name true (Err WRONG_TABLE_TYPE) (λ k t, get_entry_ws t handle now).

Definition mt_get_default_entry o table_name := query_simple o table_name (Err WRONG_TABLE_TYPE) (λ k t, Some (get_default_entry t)).
Definition mt_indirect_get_default_entry o table_name :=
  query_indirect o table_name false (Err WRONG_TABLE_TYPE) (λ k t, get_default_entry_indirect t).
Definition mt_indirect_ws_get_default_entry o table_name :=
  query_indirect o table_name true (Err WRONG_TABLE_TYPE) (λ k t, get_default_entry_ws t).

Definition mt_get_entry_from_key o table_name params (priority now : Z) :=
  query_simple o table_name (Err WRONG_TABLE_TYPE) (λ k t, get_entry_from_key read_action (base t) params priority now).
Definition mt_indirect_get_entry_from_key o table_name params (priority now : Z) :=
  query_indirect o table_name false (Err WRONG_TABLE_TYPE) (λ k t, get_entry_from_key read_mbr (ibase t) params priority now).
Definition mt_indirect_ws_get_entry_from_key o table_name params (priority now : Z) :=
  query_indirect o table_name true (Err WRONG_TABLE_TYPE) (λ k t, get_entry_from_key read_mbr_grp (ibase t) params priority now).

(** ** Counters *)
Inductive CounterErrorCode := COUNTER_SUCCESS | INVALID_COUNTER_NAME | INVALID_COUNTER_INDEX | COUNTER_ERROR.

Definition read_counters o name idx : (Z * Z) + CounterErrorCode :=
  match counter_arrays o !! name with
  | None => inr INVALID_COUNTER_NAME
  | Some a => match Counters.get_counter a idx with Some c => inl (Counters.query_counter c) | None => inr INVALID_COUNTER_INDEX end
  end.
Definition reset_counters_of o name : Objects * CounterErrorCode :=
  match counter_arrays o !! name with
  | None => (o, INVALID_COUNTER_NAME)
  | Some a => (with_counter_arrays o (<[name := Counters.reset_counters a]> (counter_arrays o)), COUNTER_SUCCESS)
  end.
Definition write_counters_of o name idx (bytes packets : Z) : Objects * CounterErrorCode :=
  match counter_arrays o !! name with
  | None => (o, INVALID_COUNTER_NAME)
  | Some a =>
      match vupd a idx (λ c, Counters.write_counter c bytes packets) with
      | Some a => (with_counter_arrays o (<[name := a]> (counter_arrays o)), COUNTER_SUCCESS)
      | None => (o, INVALID_COUNTER_INDEX)
      end
  end.

(** ** Meters *)
Definition meter_array_set_rates o name configs : option (Objects * Meters.MeterErrorCode) :=
  match meter_arrays o !! name with
  | None => Some (o, Meters.INVALID_METER_NAME)
  | Some a => '(a, rc) ← Meters.set_all_rates a configs; Some (with_meter_arrays o (<[name := a]> (meter_arrays o)), rc)
  end.
Definition meter_set_rates o name idx configs : option (Objects * Meters.MeterErrorCode) :=
  match meter_arrays o !! name with
  | None => Some (o, Meters.INVALID_METER_NAME)
  | Some a =>
      match Meters.get_meter a idx with
      | None => Some (o, Meters.INVALID_INDEX)
      | Some m =>
          '(m, rc) ← Meters.set_rates m configs; a ← vset a idx m;
          Some (with_meter_arrays o (<[name := a]> (meter_arrays o)), rc)
      end
  end.
Definition meter_get_rates o name idx : list Meters.rate_config_t + Meters.MeterErrorCode :=
  match meter_arrays o !! name with
  | None => inr Meters.INVALID_METER_NAME
  | Some a => match Meters.get_meter a idx with None => inr Meters.INVALID_INDEX | Some m => inl (Meters.get_rates m) end
  end.

(** ** Registers *)
Inductive RegisterErrorCode := REGISTER_SUCCESS | INVALID_REGISTER_NAME | INVALID_REGISTER_INDEX | REGISTER_ERROR.

Definition register_read o name idx : Data.Data + RegisterErrorCode :=
  match register_arrays o !! name with
  | None => inr INVALID_REGISTER_NAME
  | Some a => match Registers.at_ a idx with Some d => inl d | None => inr INVALID_REGISTER_INDEX end
  end.
(** A change of an array of registers. *)
Definition set_registers o name (a : Registers.RegisterArray) : Objects := with_register_arrays o (<[name := a]> (register_arrays o)).

Definition register_write o name idx (value : Z) : option (Objects * RegisterErrorCode) :=
  match register_arrays o !! name with
  | None => Some (o, INVALID_REGISTER_NAME)
  | Some a =>
      if Registers.size a <=? idx then Some (o, INVALID_REGISTER_INDEX) else
      '(a, _) ← Registers.set a idx value; Some (set_registers o name a, REGISTER_SUCCESS)
  end.
Definition register_write_range o name (from upto value : Z) : option (Objects * RegisterErrorCode) :=
  match register_arrays o !! name with
  | None => Some (o, INVALID_REGISTER_NAME)
  | Some a =>
      if (Registers.size a <? upto) || (upto <? from) then Some (o, INVALID_REGISTER_INDEX) else
      a ← for_range from upto (λ idx a, fst <$> Registers.set a idx value) a;
      Some (set_registers o name a, REGISTER_SUCCESS)
  end.
Definition register_reset o name : Objects * RegisterErrorCode :=
  match register_arrays o !! name with
  | None => (o, INVALID_REGISTER_NAME)
  | Some a => (set_registers o name (Registers.reset_state a), REGISTER_SUCCESS)
  end.

(** ** Value sets and calculations *)
Inductive ParseVSetErrorCode := VSET_SUCCESS | INVALID_PARSE_VSET_NAME | VSET_ERROR.

Definition on_vset o name (f : Parser.ParseVSet → option Parser.ParseVSet) : option (Objects * ParseVSetErrorCode) :=
  match parse_vsets o !! name with
  | None => Some (o, INVALID_PARSE_VSET_NAME)
  | Some p => p ← f p; Some (with_parse_vsets o (<[name := p]> (parse_vsets o)), VSET_SUCCESS)
  end.
Definition parse_vset_add o name (value : list Z) := on_vset o name (λ p, Parser.pvs_add p value).
Definition parse_vset_remove o name (value : list Z) := on_vset o name (λ p, Parser.pvs_remove p value).

(** [get_named_calculation] throws. *)
Definition set_crc_custom_parameters o (w : Z) name (config : Crc.crc_config_t) : option (Objects * Calculations.CustomCrcErrorCode) :=
  k ← calculations o !! name;
  let '(rc, k) := Calculations.update_calculation w k config in
  Some (with_calculations o (<[name := k]> (calculations o)), rc).

(** ** All objects *)
Definition reset_tables (ts : gmap string Table) : option (gmap string Table) :=
  map_fold (λ name t acc, acc ← acc; t ← reset_table t; Some (<[name := t]> acc)) (Some ∅) ts.

Definition reset_state o : option Objects :=
  ts ← reset_tables (match_action_tables_map o);
  Some {| match_action_tables_map := ts; t_actions_map := t_actions_map o;
          action_profiles_map := ActionProfile.reset_state <$> action_profiles_map o; aprof_actions_map := aprof_actions_map o;
          meter_arrays := Meters.reset_array <$> meter_arrays o; counter_arrays := Counters.reset_counters <$> counter_arrays o;
          register_arrays := Registers.reset_state <$> register_arrays o; parse_vsets := parse_vsets o; calculations := calculations o;
          learn_engine := Learning.reset_lists (learn_engine o); ageing_monitor := Ageing.reset_state (ageing_monitor o) |}.
End requests.
End Runtime.

(** * What requests of the runtime change

    All requests as one type: those for a table that does not exist end with an
    exception, a request changes the object that it names and the profile of that
    table, and no other; then the state after a reset, and runs that go wrong. *)
Module RuntimeSpec.
Import Runtime ActionProfile.

(** ** Requests *)

Inductive table_request :=
| GetNumEntries | ClearEntries (reset_default : bool) | SetEntryTtl (handle ttl_ms now : Z)
| ReadCounters (handle : Z) | ResetCounters | WriteCounters (handle bytes packets : Z)
| SetMeterRates (handle : Z) (configs : list Meters.rate_config_t) | GetMeterRates (handle : Z) | GetType
| AddEntry (params : list MatchKey.MatchKeyParam) (action : string) (ad : Actions.ActionData) (priority now : Z)
| SetDefaultAction (action : string) (ad : Actions.ActionData) | DeleteEntry (handle : Z)
| ModifyEntry (handle : Z) (action : string) (ad : Actions.ActionData)
| IndirectAdd (params : list MatchKey.MatchKeyParam) (mbr priority now : Z) | IndirectModify (handle mbr : Z) | IndirectDelete (handle : Z)
| IndirectSetTtl (handle ttl_ms now : Z) | IndirectSetDefault (mbr : Z)
| WsAdd (params : list MatchKey.MatchKeyParam) (grp priority now : Z) | WsModify (handle grp : Z) | WsSetDefault (grp : Z)
| GetEntries (now : Z) | IndirectGetEntries (now : Z) | WsGetEntries (now : Z)
| GetEntry (handle now : Z) | IndirectGetEntry (handle now : Z) | WsGetEntry (handle now : Z)
| GetDefault | IndirectGetDefault | WsGetDefault
| GetFromKey (params : list MatchKey.MatchKeyParam) (priority now : Z) | IndirectGetFromKey (params : list MatchKey.MatchKeyParam) (priority now : Z)
| WsGetFromKey (params : list MatchKey.MatchKeyParam) (priority now : Z).

Inductive profile_request :=
| AddMember (action : string) (ad : Actions.ActionData) | DeleteMember (mbr : Z) | ModifyMember (mbr : Z) (action : string) (ad : Actions.ActionData)
| CreateGroup | DeleteGroup (grp : Z) | AddToGroup (mbr grp : Z) | RemoveFromGroup (mbr grp : Z)
| GetMembers | GetMember (mbr : Z) | GetGroups | GetGroup (grp : Z).

Inductive request :=
| ForTable (name : string) (r : table_request)
| ForProfile (name : string) (r : profile_request)
| WriteCounter (name : string) (idx bytes packets : Z) | ResetCounterArray (name : string)
| SetArrayRates (name : string) (configs : list Meters.rate_config_t) | SetRates (name : string) (idx : Z) (configs : list Meters.rate_config_t)
| WriteRegister (name : string) (idx value : Z) | WriteRegisters (name : string) (from upto value : Z) | ResetRegisters (name : string)
| AddValue (name : string) (value : list Z) | RemoveValue (name : string) (value : list Z)
| SetCrc (w : Z) (name : string) (config : Crc.crc_config_t).

Section exec.
Context {J S : Type} `{!Judy1 J, !Judy1Count J, !GroupSelection S}.
Abbreviation Objects := (P4Objects J S).
Implicit Types (o : Objects) (name : string).

(** What a request that only reads leaves. *)
Definition reads {A} o (r : option A) : option Objects := _ ← r; Some o.

(** The objects after a request; [None] when it ends with an exception. *)
Definition exec_table o name (r : table_request) : option Objects :=
  match r with
  | GetNumEntries => reads o (mt_get_num_entries o name)
  | ClearEntries d => fst <$> mt_clear_entries o name d
  | SetEntryTtl h ttl now => fst <$> mt_set_entry_ttl o name h ttl now
  | ReadCounters h => reads o (mt_read_counters o name h)
  | ResetCounters => fst <$> mt_reset_counters o name
  | WriteCounters h b p => fst <$> mt_write_counters o name h b p
  | SetMeterRates h cs => fst <$> mt_set_meter_rates o name h cs
  | GetMeterRates h => reads o (mt_get_meter_rates o name h)
  | GetType => reads o (mt_get_type o name)
  | AddEntry ps action ad prio now => fst <$> mt_add_entry o name ps action ad prio now
  | SetDefaultAction action ad => fst <$> mt_set_default_action o name action ad
  | DeleteEntry h => fst <$> mt_delete_entry o name h
  | ModifyEntry h action ad => fst <$> mt_modify_entry o name h action ad
  | IndirectAdd ps mbr prio now => fst <$> mt_indirect_add_entry o name ps mbr prio now
  | IndirectModify h mbr => fst <$> mt_indirect_modify_entry o name h mbr
  | IndirectDelete h => fst <$> mt_indirect_delete_entry o name h
  | IndirectSetTtl h ttl now => fst <$> mt_indirect_set_entry_ttl o name h ttl now
  | IndirectSetDefault mbr => fst <$> mt_indirect_set_default_member o name mbr
  | WsAdd ps grp prio now => fst <$> mt_indirect_ws_add_entry o name ps grp prio now
  | WsModify h grp => fst <$> mt_indirect_ws_modify_entry o name h grp
  | WsSetDefault grp => fst <$> mt_indirect_ws_set_default_group o name grp
  | GetEntries now => reads o (mt_get_entries o name now)
  | IndirectGetEntries now => reads o (mt_indirect_get_entries o name now)
  | WsGetEntries now => reads o (mt_indirect_ws_get_entries o name now)
  | GetEntry h now => reads o (mt_get_entry o name h now)
  | IndirectGetEntry h now => reads o (mt_indirect_get_entry o name h now)
  | WsGetEntry h now => reads o (mt_indirect_ws_get_entry o name h now)
  | GetDefault => reads o (mt_get_default_entry o name)
  | IndirectGetDefault => reads o (mt_indirect_get_default_entry o name)
  | WsGetDefault => reads o (mt_indirect_ws_get_default_entry o name)
  | GetFromKey ps prio now => reads o (mt_get_entry_from_key o name ps prio now)
  | IndirectGetFromKey ps prio now => reads o (mt_indirect_get_entry_from_key o name ps prio now)
  | WsGetFromKey ps prio now => reads o (mt_indirect_ws_get_entry_from_key o name ps prio now)
  end.

Definition exec_profile o name (r : profile_request) : option Objects :=
  match r with
  | AddMember action ad => fst <$> mt_act_prof_add_member o name action ad
  | DeleteMember mbr => fst <$> mt_act_prof_delete_member o name mbr
  | ModifyMember mbr action ad => fst <$> mt_act_prof_modify_member o name mbr action ad
  | CreateGroup => fst <$> mt_act_prof_create_group o name
  | DeleteGroup grp => fst <$> mt_act_prof_delete_group o name grp
  | AddToGroup mbr grp => fst <$> mt_act_prof_add_member_to_group o name mbr grp
  | RemoveFromGroup mbr grp => fst <$> mt_act_prof_remove_member_from_group o name mbr grp
  | GetMembers => reads o (mt_act_prof_get_members o name)
  | GetMember mbr => reads o (mt_act_prof_get_member o name mbr)
  | GetGroups => reads o (mt_act_prof_get_groups o name)
  | GetGroup grp => reads o (mt_act_prof_get_group o name grp)
  end.

Definition exec o (r : request) : option Objects :=
  match r with
  | ForTable name r => exec_table o name r
  | ForProfile name r => exec_profile o name r
  | WriteCounter name idx b p => Some (write_counters_of o name idx b p).1
  | ResetCounterArray name => Some (reset_counters_of o name).1
  | SetArrayRates name cs => fst <$> meter_array_set_rates o name cs
  | SetRates name idx cs => fst <$> meter_set_rates o name idx cs
  | WriteRegister name idx v => fst <$> register_write o name idx v
  | WriteRegisters name a b v => fst <$> register_write_range o name a b v
  | ResetRegisters name => Some (register_reset o name).1
  | AddValue name v => fst <$> parse_vset_add o name v
  | RemoveValue name v => fst <$> parse_vset_remove o name v
  | SetCrc w name c => fst <$> set_crc_custom_parameters o w name c
  end.

Create HintDb runtime.
#[local] Hint Unfold mt_get_num_entries mt_clear_entries mt_set_entry_ttl mt_read_counters mt_reset_counters mt_write_counters
  mt_set_meter_rates mt_get_meter_rates mt_get_type mt_add_entry mt_set_default_action mt_delete_entry mt_modify_entry mt_indirect_add_entry
  mt_indirect_modify_entry mt_indirect_delete_entry mt_indirect_set_entry_ttl mt_indirect_set_default_member mt_indirect_ws_add_entry
  mt_indirect_ws_modify_entry mt_indirect_ws_set_default_group mt_get_entries mt_indirect_get_entries mt_indirect_ws_get_entries mt_get_entry
  mt_indirect_get_entry mt_indirect_ws_get_entry mt_get_default_entry mt_indirect_get_default_entry mt_indirect_ws_get_default_entry
  mt_get_entry_from_key mt_indirect_get_entry_from_key mt_indirect_ws_get_entry_from_key : runtime.

(** The name of a table that does not exist ends every request with the
    exception of [get_abstract_match_table]: no [INVALID_TABLE_NAME] is given. *)
Theorem unknown_table_throws o name (r : table_request) : match_action_tables_map o !! name = None → exec_table o name r = None.
Proof.
  intros E. destruct r; cbn [exec_table]; unfold reads; autounfold with runtime; unfold mt_any, mt_simple, mt_on_indirect, query_simple, query_indirect, get_abstract_match_table; by rewrite E.
Qed.

(** ** What changes *)

(** The objects of each kind that a request may change. *)
Record Footprint := {
  f_table : option string; f_profile : option string; f_meters : option string; f_counters : option string;
  f_registers : option string; f_vset : option string; f_calculation : option string }.
Definition nothing : Footprint :=
  {| f_table := None; f_profile := None; f_meters := None; f_counters := None; f_registers := None; f_vset := None; f_calculation := None |}.
Definition for_table name (profile : option string) : Footprint :=
  {| f_table := Some name; f_profile := profile; f_meters := None; f_counters := None; f_registers := None; f_vset := None; f_calculation := None |}.

(** The profile of a table with members. *)
Definition profile_of o name : option string :=
  match match_action_tables_map o !! name with Some (Indirect _ _ p) | Some (IndirectWS _ _ p) => Some p | _ => None end.

Definition footprint o (r : request) : Footprint :=
  match r with
  | ForTable name _ => for_table name (profile_of o name)
  | ForProfile name _ =>
      {| f_table := None; f_profile := Some name; f_meters := None; f_counters := None; f_registers := None; f_vset := None; f_calculation := None |}
  | WriteCounter name _ _ _ | ResetCounterArray name =>
      {| f_table := None; f_profile := None; f_meters := None; f_counters := Some name; f_registers := None; f_vset := None; f_calculation := None |}
  | SetArrayRates name _ | SetRates name _ _ =>
      {| f_table := None; f_profile := None; f_meters := Some name; f_counters := None; f_registers := None; f_vset := None; f_calculation := None |}
  | WriteRegister name _ _ | WriteRegisters name _ _ _ | ResetRegisters name =>
      {| f_table := None; f_profile := None; f_meters := None; f_counters := None; f_registers := Some name; f_vset := None; f_calculation := None |}
  | AddValue name _ | RemoveValue name _ =>
      {| f_table := None; f_profile := None; f_meters := None; f_counters := None; f_registers := None; f_vset := Some name; f_calculation := None |}
  | SetCrc _ name _ =>
      {| f_table := None; f_profile := None; f_meters := None; f_counters := None; f_registers := None; f_vset := None; f_calculation := Some name |}
  end.

(** The same names, and the same values but for [n]. *)
Definition only {A} (n : option string) (m m' : gmap string A) : Prop := dom m' = dom m ∧ ∀ i, n ≠ Some i → m' !! i = m !! i.

Lemma only_refl {A} n (m : gmap string A) : only n m m.
Proof. done. Qed.
Lemma only_insert {A} n (m : gmap string A) x y : m !! n = Some x → only (Some n) m (<[n := y]> m).
Proof.
  intros E. split; [|intros i Hi; rewrite lookup_insert_ne; congruence]. rewrite dom_insert_L. apply elem_of_dom_2 in E. set_solver.
Qed.
Hint Resolve only_refl : runtime.

Record changes (f : Footprint) (o o' : Objects) : Prop := {
  ch_tables : only (f_table f) (match_action_tables_map o) (match_action_tables_map o');
  ch_types : get_table_type <$> match_action_tables_map o' = get_table_type <$> match_action_tables_map o;
  ch_profiles : only (f_profile f) (action_profiles_map o) (action_profiles_map o');
  ch_meters : only (f_meters f) (meter_arrays o) (meter_arrays o');
  ch_counters : only (f_counters f) (counter_arrays o) (counter_arrays o');
  ch_registers : only (f_registers f) (register_arrays o) (register_arrays o');
  ch_vsets : only (f_vset f) (parse_vsets o) (parse_vsets o');
  ch_calculations : only (f_calculation f) (calculations o) (calculations o');
  ch_actions : t_actions_map o' = t_actions_map o ∧ aprof_actions_map o' = aprof_actions_map o;
  ch_rest : learn_engine o' = learn_engine o ∧ ageing_monitor o' = ageing_monitor o;
}.

Lemma changes_refl f o : changes f o o.
Proof. by constructor. Qed.

Lemma types_insert (ts : gmap string (MatchTableAbstract J)) n x y : ts !! n = Some x → get_table_type y = get_table_type x →
  get_table_type <$> <[n := y]> ts = get_table_type <$> ts.
Proof. intros E Ht. rewrite fmap_insert, Ht. apply insert_id. by rewrite lookup_fmap, E. Qed.

(** *** The ways in which requests reach objects *)

Lemma on_base_type {A} f (t t' : MatchTableAbstract J) (x : A) : on_base f t = Some (t', x) → get_table_type t' = get_table_type t.
Proof. destruct t; cbn [on_base]; (destruct (f _ _ _ _ _ _) as [[b y]|]; [|done]); by intros [= <- <-]. Qed.

Lemma mt_any_changes {A} o name f o' (x : A) p : mt_any o name f = Some (o', x) → changes (for_table name p) o o'.
Proof.
  unfold mt_any, get_abstract_match_table. intros E. destruct (match_action_tables_map o !! name) as [t|] eqn:Et; [|done]. cbn [mbind option_bind] in E.
  destruct (on_base f t) as [[t' y]|] eqn:Eb; [|done]. injection E as <- <-. apply on_base_type in Eb.
  constructor; cbn; auto with runtime; [by eapply only_insert|by eapply types_insert].
Qed.

Lemma mt_simple_changes {A} o name wrong f o' (x : A) p : mt_simple o name wrong f = Some (o', x) → changes (for_table name p) o o'.
Proof.
  unfold mt_simple, get_abstract_match_table. intros E. destruct (match_action_tables_map o !! name) as [t|] eqn:Et; [|done]. cbn [mbind option_bind] in E.
  destruct t as [k t|k t q|k t q]; [|injection E as <- <-; apply changes_refl..]. destruct (f k t) as [[t' y]|]; [|done]. injection E as <- <-.
  constructor; cbn; auto with runtime; [by eapply only_insert|by eapply types_insert].
Qed.

Lemma act_prof_changes {A} o name wrong f o' (x : A) r : act_prof o name wrong f = Some (o', x) → changes (footprint o (ForProfile name r)) o o'.
Proof.
  unfold act_prof. intros E. destruct (action_profiles_map o !! name) as [a|] eqn:Ea; [|injection E as <- <-; apply changes_refl].
  destruct (f a) as [[a' y]|]; [|done]. injection E as <- <-. constructor; cbn; auto with runtime. by eapply only_insert.
Qed.

Lemma mt_on_indirect_changes {A} o name ws wrong f o' (x : A) : mt_on_indirect o name ws wrong f = Some (o', x) →
  changes (for_table name (profile_of o name)) o o'.
Proof.
  unfold mt_on_indirect, get_abstract_match_table, profile_of. intros E. destruct (match_action_tables_map o !! name) as [t|] eqn:Et; [|done].
  cbn [mbind option_bind] in E. destruct t as [k t|k t q|k t q]; cbn [indirect] in E; [injection E as <- <-; apply changes_refl|..];
    (destruct (ws && negb _); [injection E as <- <-; apply changes_refl|]);
    (destruct (action_profiles_map o !! q) as [a|] eqn:Ea; [|done]); cbn [mbind option_bind] in E;
    (destruct (f k t a) as [[[t' a'] y]|]; [|done]); injection E as <- <-;
    (constructor; cbn; auto with runtime; [by eapply only_insert|by eapply types_insert|by eapply only_insert]).
Qed.

Lemma on_vset_changes o name f o' x v : on_vset o name f = Some (o', x) → changes (footprint o (AddValue name v)) o o'.
Proof.
  unfold on_vset. intros E. destruct (parse_vsets o !! name) as [a|] eqn:Ea; [|injection E as <- <-; apply changes_refl].
  destruct (f a) as [a'|]; [|done]. injection E as <- <-. constructor; cbn; auto with runtime. by eapply only_insert.
Qed.

Lemma reads_inv {A} o (r : option A) o' : reads o r = Some o' → o' = o.
Proof. unfold reads. destruct r; [|done]. by intros [= <-]. Qed.

Lemma fst_inv {A B} (r : option (A * B)) a : fst <$> r = Some a → ∃ b, r = Some (a, b).
Proof. destruct r as [[a' b]|]; [|done]. intros [= <-]. by exists b. Qed.

Lemma exec_table_changes o name r o' : exec_table o name r = Some o' → changes (for_table name (profile_of o name)) o o'.
Proof.
  intros E. destruct r; cbn [exec_table] in E; try (apply reads_inv in E as ->; apply changes_refl); apply fst_inv in E as [x E]; autounfold with runtime in E;
    try (eapply mt_any_changes; exact E); try (eapply mt_simple_changes; exact E); try (eapply mt_on_indirect_changes; exact E).
  unfold get_abstract_match_table in E. destruct (match_action_tables_map o !! name) as [t|] eqn:Et; [|done]. cbn [mbind option_bind] in E.
  destruct reset_default; [injection E as <- <-; apply changes_refl|]. destruct (reset_table t) as [t'|] eqn:Er; [|done]. injection E as <- <-.
  assert (get_table_type t' = get_table_type t) as Ht by (destruct t; cbn [reset_table] in Er; mbind_inv Er; done).
  constructor; cbn; auto with runtime; [by eapply only_insert|by eapply types_insert].
Qed.

(** ** What requests do *)

(** The class of table that a request is for: a table with groups has members too. *)
Definition fits (r : table_request) (type : MatchTableType) : bool :=
  match r with
  | AddEntry _ _ _ _ _ | SetDefaultAction _ _ | DeleteEntry _ | ModifyEntry _ _ _ => match type with SIMPLE => true | _ => false end
  | IndirectAdd _ _ _ _ | IndirectModify _ _ | IndirectDelete _ | IndirectSetDefault _ =>
      match type with INDIRECT | INDIRECT_WS => true | _ => false end
  | WsAdd _ _ _ _ | WsModify _ _ | WsSetDefault _ => match type with INDIRECT_WS => true | _ => false end
  | _ => true
  end.

(** The table becomes what an operation of all tables makes of it. *)
Definition on_any {A} o name (t : MatchTableAbstract J) o' (f : ∀ K V L (k : TableKey K) (l : LookupStructure K L),
    MatchTables.Base K V L J → option (MatchTables.Base K V L J * A)) : Prop :=
  ∃ t' x, on_base f t = Some (t', x) ∧ match_action_tables_map o' !! name = Some t'.

(** The same for a table with actions, and the action that the request names. *)
Definition on_simple {A} name (t : MatchTableAbstract J) o' (f : ∀ k : Keys,
    MatchTables.MatchTable (key k) (structure k) J → option (MatchTables.MatchTable (key k) (structure k) J * A)) : Prop :=
  ∃ k ti ti' x, t = Simple k ti ∧ f k ti = Some (ti', x) ∧ match_action_tables_map o' !! name = Some (Simple k ti').
Definition on_action {A} o name (t : MatchTableAbstract J) action o' (f : ∀ k : Keys, Actions.ActionFn →
    MatchTables.MatchTable (key k) (structure k) J → option (MatchTables.MatchTable (key k) (structure k) J * A)) : Prop :=
  ∃ fn, t_actions_map o !! (name, action) = Some fn ∧ on_simple name t o' (λ k, f k fn).

(** The same for a table with members and its profile. *)
Definition on_members {A} o name (t : MatchTableAbstract J) o' (f : ∀ k : Keys, MatchTables.MatchTableIndirect (key k) (structure k) J → Profile J S →
    option (MatchTables.MatchTableIndirect (key k) (structure k) J * Profile J S * A)) : Prop :=
  ∃ k ti p ws a ti' a' x, indirect t = Some (existT k (ti, p, ws)) ∧ action_profiles_map o !! p = Some a ∧ f k ti a = Some (ti', a', x) ∧
    match_action_tables_map o' !! name = Some (remake k ti' p ws) ∧ action_profiles_map o' !! p = Some a'.

Definition table_effect o name (t : MatchTableAbstract J) (r : table_request) o' : Prop :=
  match r with
  | ClearEntries true => o' = o
  | ClearEntries false => ∃ t', reset_table t = Some t' ∧ match_action_tables_map o' !! name = Some t'
  | SetEntryTtl h ttl now | IndirectSetTtl h ttl now => on_any o name t o' (λ K V L _ _ b, MatchTables.set_entry_ttl b h ttl now)
  | ResetCounters => on_any o name t o' (λ K V L _ _ b, Some (MatchTables.reset_counters b))
  | WriteCounters h b p => on_any o name t o' (λ K V L _ _ base, MatchTables.write_counters base h b p)
  | SetMeterRates h cs => on_any o name t o' (λ K V L _ _ b, MatchTables.set_meter_rates b h cs)
  | AddEntry ps action ad prio now => on_action o name t action o' (λ k fn ti, MatchTables.add_entry ti ps fn ad prio now)
  | SetDefaultAction action ad => on_action o name t action o' (λ k fn ti, MatchTables.set_default_action ti fn ad)
  | ModifyEntry h action ad => on_action o name t action o' (λ k fn ti, MatchTables.modify_entry ti h fn ad)
  | DeleteEntry h => on_simple name t o' (λ k ti, MatchTables.delete_entry ti h)
  | IndirectAdd ps mbr prio now => on_members o name t o' (λ k ti a, MatchTables.add_entry_mbr ti a ps mbr prio now)
  | IndirectModify h mbr => on_members o name t o' (λ k ti a, MatchTables.modify_entry_mbr ti a h mbr)
  | IndirectDelete h => on_members o name t o' (λ k ti a, MatchTables.delete_entry_indirect ti a h)
  | IndirectSetDefault mbr => on_members o name t o' (λ k ti a, '(ti, rc) ← MatchTables.set_default_member ti a mbr; Some (ti, a, rc))
  | WsAdd ps grp prio now => on_members o name t o' (λ k ti a, MatchTables.add_entry_ws ti a ps grp prio now)
  | WsModify h grp => on_members o name t o' (λ k ti a, MatchTables.modify_entry_ws ti a h grp)
  | WsSetDefault grp => on_members o name t o' (λ k ti a, '(ti, rc) ← MatchTables.set_default_group ti a grp; Some (ti, a, rc))
  | _ => o' = o
  end.

Definition on_profile {A} name o' (r : option (Profile J S * A)) : Prop :=
  ∃ a' x, r = Some (a', x) ∧ action_profiles_map o' !! name = Some a'.

Definition profile_effect o name (a : Profile J S) (r : profile_request) o' : Prop :=
  match r with
  | AddMember action ad => ∃ fn, aprof_actions_map o !! (name, action) = Some fn ∧ on_profile name o' (add_member a fn ad)
  | ModifyMember mbr action ad => ∃ fn, aprof_actions_map o !! (name, action) = Some fn ∧ on_profile name o' (modify_member a mbr fn ad)
  | DeleteMember mbr => on_profile name o' (delete_member a mbr)
  | CreateGroup => on_profile name o' (create_group a)
  | DeleteGroup grp => on_profile name o' (delete_group a grp)
  | AddToGroup mbr grp => on_profile name o' (add_member_to_group a mbr grp)
  | RemoveFromGroup mbr grp => on_profile name o' (remove_member_from_group a mbr grp)
  | GetMembers | GetMember _ | GetGroups | GetGroup _ => o' = o
  end.

(** The elements of an array afterwards, one by one. *)
Definition each {A} (R : Z → A → A → Prop) (l l' : list A) : Prop :=
  length l' = length l ∧ ∀ i x, vget l i = Some x → ∃ x', vget l' i = Some x' ∧ R i x x'.

(** The array of a name, of which there may be none. *)
Definition named {A} (m m' : gmap string A) name (P : A → A → Prop) : Prop :=
  match m !! name with None => m' !! name = None | Some a => ∃ a', m' !! name = Some a' ∧ P a a' end.

Definition each_register (inside : Z → bool) (v : Z) (a a' : Registers.RegisterArray) : Prop := 0 ≤ Registers.bitwidth a →
  Registers.bitwidth a' = Registers.bitwidth a ∧ each (λ i d d', if inside i then Data.value d' = wrap (Registers.bitwidth a) v ∧ Data.arith d' = true else d' = d) (Registers.registers a) (Registers.registers a').

Definition effect o (r : request) o' : Prop :=
  match r with
  | ForTable name r => ∃ t, match_action_tables_map o !! name = Some t ∧
      if fits r (get_table_type t) then table_effect o name t r o' else o' = o
  | ForProfile name r => match action_profiles_map o !! name with None => o' = o | Some a => profile_effect o name a r o' end
  | WriteCounter name idx b p => named (counter_arrays o) (counter_arrays o') name
      (each (λ i c c', if i =? idx then Counters.query_counter c' = (u64 b, u64 p) else c' = c))
  | ResetCounterArray name => named (counter_arrays o) (counter_arrays o') name (each (λ i c c', Counters.query_counter c' = (0, 0)))
  | SetArrayRates name cs => named (meter_arrays o) (meter_arrays o') name (λ a a', ∃ n,
      each (λ i m m', if i <? n then Meters.set_rates m cs = Some (m', Meters.SUCCESS)
                      else if i =? n then ∃ rc, rc ≠ Meters.SUCCESS ∧ Meters.set_rates m cs = Some (m', rc) else m' = m) a a')
  | SetRates name idx cs => named (meter_arrays o) (meter_arrays o') name
      (each (λ i m m', if i =? idx then ∃ rc, Meters.set_rates m cs = Some (m', rc) else m' = m))
  | WriteRegister name idx v => named (register_arrays o) (register_arrays o') name (each_register (Z.eqb idx) v)
  | WriteRegisters name from upto v => named (register_arrays o) (register_arrays o') name (λ a a',
      each_register (λ i, (from <=? i) && (i <? upto) && (upto <=? Z.of_nat (length (Registers.registers a)))) v a a')
  | ResetRegisters name => named (register_arrays o) (register_arrays o') name (each_register (λ _, true) 0)
  | AddValue name v => named (parse_vsets o) (parse_vsets o') name (λ p p', Forall2 (λ s s', ∃ k, Parser.vs_key s v = Some k ∧
      s' = Parser.with_set s ({[k]} ∪ Parser.vs_set s)) (Parser.shadows p) (Parser.shadows p'))
  | RemoveValue name v => named (parse_vsets o) (parse_vsets o') name (λ p p', Forall2 (λ s s', ∃ k, Parser.vs_key s v = Some k ∧
      s' = Parser.with_set s (Parser.vs_set s ∖ {[k]})) (Parser.shadows p) (Parser.shadows p'))
  | SetCrc w name config => ∃ k k', calculations o !! name = Some k ∧ calculations o' !! name = Some k' ∧
      Calculations.builder k' = Calculations.builder k ∧
      Calculations.c k' = match Calculations.c k with
                          | Some (Calculations.crc_custom w' h) => Some (Calculations.crc_custom w' (if w' =? w then Crc.update_config w config else h))
                          | h => h
                          end
  end.

(** *** Requests for tables and profiles *)

Lemma on_any_intro {A} o name f o' (x : A) t : mt_any o name f = Some (o', x) → match_action_tables_map o !! name = Some t → on_any o name t o' f.
Proof.
  unfold mt_any, get_abstract_match_table, on_any. intros E Et. rewrite Et in E. cbn [mbind option_bind] in E.
  destruct (on_base f t) as [[t' y]|]; [|done]. injection E as <- <-. exists t', y. split; [done|]. cbn. by rewrite lookup_insert_eq.
Qed.

Lemma on_simple_intro {A} o name wrong f o' (x : A) t : mt_simple o name wrong f = Some (o', x) → match_action_tables_map o !! name = Some t →
  if match get_table_type t with SIMPLE => true | _ => false end then on_simple name t o' f else o' = o.
Proof.
  unfold mt_simple, get_abstract_match_table, on_simple. intros E Et. rewrite Et in E. cbn [mbind option_bind] in E.
  destruct t as [k t|k t p|k t p]; cbn [get_table_type]; [|by injection E as <- _..].
  destruct (f k t) as [[t' y]|] eqn:Ef; [|done]. injection E as <- <-. exists k, t, t', y. cbn. by rewrite lookup_insert_eq.
Qed.

Lemma on_action_intro {A} o name wrong action f o' (x : A) t :
  mt_simple o name wrong (λ k ti, fn ← get_action o name action; f k fn ti) = Some (o', x) → match_action_tables_map o !! name = Some t →
  if match get_table_type t with SIMPLE => true | _ => false end then on_action o name t action o' f else o' = o.
Proof.
  intros E Et. apply (on_simple_intro _ _ _ _ _ _ t) in E; [|done]. destruct (match get_table_type t with SIMPLE => true | _ => false end); [|done].
  destruct E as (k & ti & ti' & y & -> & E & Et'). unfold get_action in E. destruct (t_actions_map o !! (name, action)) as [fn|] eqn:Ef; [|done].
  exists fn. split; [done|]. by exists k, ti, ti', y.
Qed.

Lemma on_members_intro {A} o name ws wrong f o' (x : A) t : mt_on_indirect o name ws wrong f = Some (o', x) → match_action_tables_map o !! name = Some t →
  if match get_table_type t with INDIRECT => negb ws | INDIRECT_WS => true | _ => false end then on_members o name t o' f else o' = o.
Proof.
  unfold mt_on_indirect, get_abstract_match_table, on_members. intros E Et. rewrite Et in E. cbn [mbind option_bind] in E.
  destruct t as [k t|k t p|k t p]; cbn [indirect get_table_type] in *; [by injection E as <- _|..].
  - destruct ws; cbn [negb andb] in *; [by injection E as <- _|]. destruct (action_profiles_map o !! p) as [a|] eqn:Ea; [|done].
    cbn [mbind option_bind] in E. destruct (f k t a) as [[[t' a'] y]|] eqn:Ef; [|done]. injection E as <- <-.
    exists k, t, p, false, a, t', a', y. cbn. by rewrite !lookup_insert_eq.
  - rewrite andb_false_r in E. destruct (action_profiles_map o !! p) as [a|] eqn:Ea; [|done].
    cbn [mbind option_bind] in E. destruct (f k t a) as [[[t' a'] y]|] eqn:Ef; [|done]. injection E as <- <-.
    exists k, t, p, true, a, t', a', y. cbn. by rewrite !lookup_insert_eq.
Qed.

Lemma exec_table_effect o name r o' : exec_table o name r = Some o' → ∃ t, match_action_tables_map o !! name = Some t ∧
  if fits r (get_table_type t) then table_effect o name t r o' else o' = o.
Proof.
  intros E. destruct (match_action_tables_map o !! name) as [t|] eqn:Et; [|by rewrite unknown_table_throws in E]. exists t. split; [done|].
  destruct r; cbn [exec_table] in E; try (apply reads_inv in E as ->; by destruct (get_table_type t)); apply fst_inv in E as [x E]; autounfold with runtime in E;
    try exact (on_any_intro _ _ _ _ _ _ E Et); try exact (on_simple_intro _ _ _ _ _ _ _ E Et); try exact (on_action_intro _ _ _ _ _ _ _ _ E Et);
    try exact (on_members_intro _ _ _ _ _ _ _ _ E Et).
  unfold get_abstract_match_table in E. rewrite Et in E. cbn [mbind option_bind] in E. cbn [fits table_effect].
  destruct reset_default; [by injection E as <- _|]. destruct (reset_table t) as [t'|]; [|done]. injection E as <- _. exists t'. cbn. by rewrite lookup_insert_eq.
Qed.

Lemma on_profile_intro {A} o name wrong f o' (x : A) : act_prof o name wrong f = Some (o', x) →
  match action_profiles_map o !! name with None => o' = o | Some a => on_profile name o' (f a) end.
Proof.
  unfold act_prof, on_profile. intros E. destruct (action_profiles_map o !! name) as [a|]; [|by injection E as <- _].
  destruct (f a) as [[a' y]|]; [|done]. injection E as <- <-. exists a', y. cbn. by rewrite lookup_insert_eq.
Qed.

Lemma on_profile_action {A} o name action o' (f : Actions.ActionFn → option (Profile J S * A)) :
  on_profile name o' (fn ← get_action_for_action_profile o name action; f fn) →
  ∃ fn, aprof_actions_map o !! (name, action) = Some fn ∧ on_profile name o' (f fn).
Proof.
  intros (a' & x & E & Ea). unfold get_action_for_action_profile in E. destruct (aprof_actions_map o !! (name, action)) as [fn|]; [|done].
  exists fn. split; [done|]. by exists a', x.
Qed.

Lemma exec_profile_effect o name r o' : exec_profile o name r = Some o' →
  match action_profiles_map o !! name with None => o' = o | Some a => profile_effect o name a r o' end.
Proof.
  intros E. destruct r; cbn [exec_profile] in E; try (apply reads_inv in E as ->; by destruct (action_profiles_map o !! name)); apply fst_inv in E as [x E];
    apply on_profile_intro in E; destruct (action_profiles_map o !! name) as [a|]; try done; by apply on_profile_action.
Qed.

(** *** Arrays *)

Lemma each_refl {A} (R : Z → A → A → Prop) l : (∀ i x, vget l i = Some x → R i x x) → each R l l.
Proof. intros HR. split; [done|]. intros i x E. exists x. auto. Qed.

Lemma each_fmap {A} (R : Z → A → A → Prop) f l : (∀ i x, R i x (f x)) → each R l (f <$> l).
Proof. intros HR. split; [apply length_fmap|]. intros i x E. exists (f x). by rewrite vget_fmap, E. Qed.

Lemma each_vset {A} (R : Z → A → A → Prop) l idx y l' : vset l idx y = Some l' → (∀ x, vget l idx = Some x → R idx x y) →
  (∀ i x, i ≠ idx → R i x x) → each R l l'.
Proof.
  intros E Hy Hx. split; [by eapply vset_length|]. intros i x Ei. rewrite (vget_vset _ _ _ _ i E). case_decide as Hi; [|exists x; auto].
  subst i. exists y. auto.
Qed.

Lemma each_cons {A} (R : Z → A → A → Prop) x x' l l' : R 0 x x' → each (λ i, R (i + 1)) l l' → each R (x :: l) (x' :: l').
Proof.
  intros Hx [Hlen Hl]. split; [cbn; by rewrite Hlen|]. intros i y E. pose proof (vget_Some_range _ _ _ E) as Hi. destruct (decide (i = 0)) as [->|Hne].
  - injection E as <-. by exists x'.
  - assert (∀ z (k : list A), vget (z :: k) i = vget k (i - 1)) as Hc.
    { intros z k. rewrite !vget_nat by lia. replace (Z.to_nat i) with (Datatypes.S (Z.to_nat (i - 1))) by lia. done. }
    rewrite Hc in E. destruct (Hl _ _ E) as (y' & E' & Hy). rewrite Hc. exists y'. split; [done|]. by replace (i - 1 + 1) with i in Hy by lia.
Qed.

Lemma set_all_each cs (a : Meters.MeterArray) : ∀ a' rc, Meters.set_all_rates a cs = Some (a', rc) → ∃ n, 0 ≤ n ∧
  each (λ i m m', if i <? n then Meters.set_rates m cs = Some (m', Meters.SUCCESS)
                  else if i =? n then ∃ rc, rc ≠ Meters.SUCCESS ∧ Meters.set_rates m cs = Some (m', rc) else m' = m) a a'.
Proof.
  induction a as [|m a IH]; intros a' rc E; cbn [Meters.set_all_rates] in E.
  - injection E as <- <-. exists 0. split; [done|]. split; [done|]. intros i x Ei. apply vget_Some_range in Ei. cbn in Ei. lia.
  - destruct (Meters.set_rates m cs) as [[m1 rc1]|] eqn:E1; [|done]. cbn [mbind option_bind] in E. destruct (decide (rc1 = Meters.SUCCESS)) as [->|Hne].
    + destruct (Meters.set_all_rates a cs) as [[a1 rc2]|] eqn:E2; [|done]. injection E as <- <-. destruct (IH _ _ eq_refl) as (n & Hn & Ha).
      exists (n + 1). split; [lia|]. apply each_cons; [by rewrite (proj2 (Z.ltb_lt _ _)) by lia|]. destruct Ha as [Hlen Ha]. split; [done|].
      intros i x Ei. destruct (Ha i x Ei) as (x' & E' & Hx). exists x'. split; [done|]. replace (i + 1 <? n + 1) with (i <? n) by lia.
      by replace (i + 1 =? n + 1) with (i =? n) by lia.
    + injection E as <- <-. exists 0. split; [done|]. apply each_cons; [cbn; by exists rc1|]. apply each_refl. intros i x Ei.
      apply vget_Some_range in Ei. by rewrite (proj2 (Z.ltb_ge _ _)), (proj2 (Z.eqb_neq _ _)) by lia.
Qed.

Lemma named_none {A} (m : gmap string A) name (P : A → A → Prop) : m !! name = None → named m m name P.
Proof. unfold named. by intros ->. Qed.

Lemma named_same {A} (m : gmap string A) name a (P : A → A → Prop) : m !! name = Some a → P a a → named m m name P.
Proof. unfold named. intros -> HP. by exists a. Qed.

Lemma named_insert {A} (m : gmap string A) name a a' (P : A → A → Prop) : m !! name = Some a → P a a' → named m (<[name := a']> m) name P.
Proof. unfold named. intros -> HP. exists a'. by rewrite lookup_insert_eq. Qed.

(** A register that is written holds the value, as wide as it is. *)
Lemma export_wrap w v : 0 ≤ w → Data.value (Registers.export_bytes w v) = wrap w v ∧ Data.arith (Registers.export_bytes w v) = true.
Proof. intros Hw. split; [|done]. cbn. by apply Registers.register_mask_wrap. Qed.

Lemma write_one a idx v a' i : Registers.set a idx v = Some (a', i) → each_register (Z.eqb idx) v a a'.
Proof.
  unfold Registers.set. intros E Hw. destruct (vset _ _ _) as [rs|] eqn:Ev; [|done]. injection E as <- <-. split; [done|]. cbn.
  eapply each_vset; [exact Ev|..].
  - intros x Ex. rewrite Z.eqb_refl. by apply export_wrap.
  - intros j x Hj. by rewrite (proj2 (Z.eqb_neq _ _)) by done.
Qed.

Lemma write_loop v n : ∀ from a a', for_loop n from (λ idx a, fst <$> Registers.set a idx v) a = Some a' →
  each_register (λ i, (from <=? i) && (i <? from + Z.of_nat n)) v a a'.
Proof.
  induction n as [|n IH]; intros from a a' E Hw; cbn [for_loop] in E.
  - injection E as <-. split; [done|]. apply each_refl. intros i x _. destruct (Z.leb_spec from i), (Z.ltb_spec i (from + Z.of_nat 0)); cbn [andb]; try done; lia.
  - destruct (Registers.set a from v) as [[a1 j]|] eqn:Es; [|done]. cbn [fmap option_fmap option_map fst mbind option_bind] in E.
    destruct (write_one _ _ _ _ _ Es Hw) as [Hw1 [Hl1 H1]]. destruct (IH _ _ _ E ltac:(by rewrite Hw1)) as [Hw2 [Hl2 H2]].
    split; [congruence|]. split; [congruence|]. intros i x Ei. destruct (H1 i x Ei) as (x1 & E1 & Hx1). destruct (H2 i x1 E1) as (x2 & E2 & Hx2).
    exists x2. split; [done|]. rewrite Hw1 in Hx2. destruct (Z.eqb_spec from i) as [->|Hne].
    + rewrite (proj2 (Z.leb_gt _ _)) in Hx2 by lia. cbn [andb] in Hx2. subst x2. by rewrite Z.leb_refl, (proj2 (Z.ltb_lt _ _)) by lia.
    + subst x1. replace (from <=? i) with (from + 1 <=? i) by lia. assert (from + Z.of_nat (Datatypes.S n) = from + 1 + Z.of_nat n) as -> by lia. done.
Qed.

Lemma write_range_effect o name from upto v o' x : register_write_range o name from upto v = Some (o', x) → effect o (WriteRegisters name from upto v) o'.
Proof.
  unfold register_write_range. cbn [effect]. intros E. destruct (register_arrays o !! name) as [a|] eqn:Ea.
  2: { injection E as <- _. by apply named_none. }
  unfold Registers.size in E. destruct ((_ <? _) || _) eqn:Eb.
  { injection E as <- _. eapply named_same; [done|]. intros Hw. split; [done|]. apply each_refl. intros i d _.
    destruct (Z.leb_spec from i), (Z.ltb_spec i upto), (Z.leb_spec upto (Z.of_nat (length (Registers.registers a)))); cbn [andb]; try done; lia. }
  destruct (for_range _ _ _ _) as [a'|] eqn:El; [|done]. injection E as <- <-. apply write_loop in El. eapply named_insert; [done|]. intros Hw.
  destruct (El Hw) as [Hb [Hlen Hr]]. split; [done|]. split; [done|]. intros i d Ei. destruct (Hr i d Ei) as (d' & Ed & Hd). exists d'. split; [done|].
  rewrite (proj2 (Z.leb_le upto _)), andb_true_r by lia. rewrite Z2Nat.id, Zplus_minus in Hd by lia. exact Hd.
Qed.

(** *** One lemma per kind of array *)

Lemma counters_effect o r o' : match r with WriteCounter _ _ _ _ | ResetCounterArray _ => True | _ => False end → exec o r = Some o' → effect o r o'.
Proof.
  destruct r as [| |name idx b p|name| | | | | | | |]; try done; intros _; cbn [exec effect]; intros [= <-].
  - unfold write_counters_of. destruct (counter_arrays o !! name) as [a|] eqn:Ea; cbn [fst]; [|by apply named_none].
    unfold vupd. destruct (vget a idx) as [c|] eqn:Ec; cbn [mbind option_bind fst].
    + destruct (vset a idx _) as [a'|] eqn:Es; cbn [fst].
      * eapply named_insert; [done|]. eapply each_vset; [exact Es|..]; [by rewrite Z.eqb_refl|]. intros i x Hi. by rewrite (proj2 (Z.eqb_neq _ _)) by done.
      * apply vget_Some_range in Ec. by rewrite vset_Some in Es.
    + eapply named_same; [done|]. apply each_refl. intros i x Ei. destruct (Z.eqb_spec i idx); [congruence|done].
  - unfold reset_counters_of. destruct (counter_arrays o !! name) as [a|] eqn:Ea; cbn [fst]; [|by apply named_none].
    eapply named_insert; [done|]. by apply each_fmap.
Qed.

Lemma meters_effect o r o' : match r with SetArrayRates _ _ | SetRates _ _ _ => True | _ => False end → exec o r = Some o' → effect o r o'.
Proof.
  destruct r as [| | | |name cs|name idx cs| | | | | |]; try done; intros _; cbn [exec effect]; intros [x E]%fst_inv.
  - unfold meter_array_set_rates in E. destruct (meter_arrays o !! name) as [a|] eqn:Ea; [|injection E as <- _; by apply named_none].
    destruct (Meters.set_all_rates a cs) as [[a' rc]|] eqn:Es; [|done]. injection E as <- _. destruct (set_all_each _ _ _ _ Es) as (n & _ & Hn).
    eapply named_insert; [done|]. by exists n.
  - unfold meter_set_rates in E. destruct (meter_arrays o !! name) as [a|] eqn:Ea; [|injection E as <- _; by apply named_none].
    unfold Meters.get_meter in E. destruct (vget a idx) as [m|] eqn:Em.
    + destruct (Meters.set_rates m cs) as [[m' rc]|] eqn:Es; [|done]. cbn [mbind option_bind] in E. destruct (vset a idx m') as [a'|] eqn:Ev; [|done].
      injection E as <- _. eapply named_insert; [done|]. eapply each_vset; [exact Ev|..].
      * intros y Ey. rewrite Z.eqb_refl. exists rc. congruence.
      * intros i y Hi. by rewrite (proj2 (Z.eqb_neq _ _)) by done.
    + injection E as <- _. eapply named_same; [done|]. apply each_refl. intros i y Ei. destruct (Z.eqb_spec i idx); [congruence|done].
Qed.

Lemma registers_effect o r o' : match r with WriteRegister _ _ _ | WriteRegisters _ _ _ _ | ResetRegisters _ => True | _ => False end →
  exec o r = Some o' → effect o r o'.
Proof.
  destruct r as [| | | | | |name idx v|name from upto v|name| | |]; try done; intros _; cbn [exec].
  - intros [x E]%fst_inv. cbn [effect]. unfold register_write in E. destruct (register_arrays o !! name) as [a|] eqn:Ea; [|injection E as <- _; by apply named_none].
    destruct (Registers.size a <=? idx) eqn:Ei.
    + injection E as <- _. eapply named_same; [done|]. intros Hw. split; [done|]. apply each_refl. intros i d Ed. apply vget_Some_range in Ed.
      unfold Registers.size in Ei. by rewrite (proj2 (Z.eqb_neq _ _)) by lia.
    + destruct (Registers.set a idx v) as [[a' j]|] eqn:Es; [|done]. injection E as <- _. eapply named_insert; [done|]. by eapply write_one.
  - intros [x E]%fst_inv. by eapply write_range_effect.
  - intros [= <-]. cbn [effect]. unfold register_reset. destruct (register_arrays o !! name) as [a|] eqn:Ea; cbn [fst]; [|by apply named_none].
    eapply named_insert; [done|]. intros Hw. split; [done|]. split; [cbn; rewrite length_replicate; unfold Registers.size; lia|].
    intros i d Ed. apply vget_Some_range in Ed. exists Registers.new_register. cbn. rewrite vget_nat, lookup_replicate_2 by (unfold Registers.size; lia). done.
Qed.

Lemma vsets_effect o r o' : match r with AddValue _ _ | RemoveValue _ _ => True | _ => False end → exec o r = Some o' → effect o r o'.
Proof.
  destruct r as [| | | | | | | | |name v|name v|]; try done; intros _; cbn [exec effect]; intros [x E]%fst_inv;
    unfold parse_vset_add, parse_vset_remove, on_vset in E;
    (destruct (parse_vsets o !! name) as [p|] eqn:Ep; [|injection E as <- _; by apply named_none]);
    unfold Parser.pvs_add, Parser.pvs_remove in E; (destruct (mapM _ _) as [l|] eqn:El; [|done]); injection E as <- _; (eapply named_insert; [done|]); cbn;
    apply mapM_Some in El; (eapply Forall2_impl; [exact El|]); intros s s' Es; unfold Parser.vs_add, Parser.vs_remove in Es;
    (destruct (Parser.vs_key s v) as [k|]; [|done]); injection Es as <-; by exists k.
Qed.

(** The objects that a request does not name stay as they are. *)
Lemma exec_changes o (r : request) o' : exec o r = Some o' → changes (footprint o r) o o'.
Proof.
  destruct r as [name r|name r|name idx b p|name|name cs|name idx cs|name idx v|name a b v|name|name v|name v|w name c]; cbn [exec].
  - apply exec_table_changes.
  - intros E. destruct r; cbn [exec_profile] in E; try (apply reads_inv in E as ->; apply changes_refl); apply fst_inv in E as [x E];
      eapply act_prof_changes; exact E.
  - intros [= <-]. unfold write_counters_of. destruct (counter_arrays o !! name) as [c|] eqn:Ec; [|apply changes_refl].
    destruct (vupd c idx _); [|apply changes_refl]. constructor; cbn; auto with runtime. by eapply only_insert.
  - intros [= <-]. unfold reset_counters_of. destruct (counter_arrays o !! name) as [c|] eqn:Ec; [|apply changes_refl].
    constructor; cbn; auto with runtime. by eapply only_insert.
  - intros E. apply fst_inv in E as [x E]. unfold meter_array_set_rates in E. destruct (meter_arrays o !! name) as [c|] eqn:Ec; [|injection E as <- <-; apply changes_refl].
    destruct (Meters.set_all_rates c cs) as [[a rc]|]; [|done]. injection E as <- <-.
    constructor; cbn; auto with runtime. by eapply only_insert.
  - intros E. apply fst_inv in E as [x E]. unfold meter_set_rates in E. destruct (meter_arrays o !! name) as [c|] eqn:Ec; [|injection E as <- <-; apply changes_refl].
    destruct (Meters.get_meter c idx) as [m|]; [|injection E as <- <-; apply changes_refl].
    destruct (Meters.set_rates m cs) as [[m' rc]|]; [|done]. cbn [mbind option_bind] in E. destruct (vset c idx m') as [a|]; [|done]. injection E as <- <-. constructor; cbn; auto with runtime. by eapply only_insert.
  - intros E. apply fst_inv in E as [x E]. unfold register_write in E. destruct (register_arrays o !! name) as [c|] eqn:Ec; [|injection E as <- <-; apply changes_refl].
    destruct (_ <=? idx); [injection E as <- <-; apply changes_refl|].
    destruct (Registers.set c idx v) as [[a i]|]; [|done]. injection E as <- <-. constructor; cbn; auto with runtime. by eapply only_insert.
  - intros E. apply fst_inv in E as [x E]. unfold register_write_range in E. destruct (register_arrays o !! name) as [c|] eqn:Ec; [|injection E as <- <-; apply changes_refl].
    destruct (_ || _); [injection E as <- <-; apply changes_refl|].
    destruct (for_range a b _ c) as [c'|]; [|done]. injection E as <- <-. constructor; cbn; auto with runtime. by eapply only_insert.
  - intros [= <-]. unfold register_reset. destruct (register_arrays o !! name) as [c|] eqn:Ec; [|apply changes_refl].
    constructor; cbn; auto with runtime. by eapply only_insert.
  - intros E. apply fst_inv in E as [x E]. exact (on_vset_changes _ _ _ _ _ v E).
  - intros E. apply fst_inv in E as [x E]. exact (on_vset_changes _ _ _ _ _ v E).
  - intros E. apply fst_inv in E as [x E]. unfold set_crc_custom_parameters in E. destruct (calculations o !! name) as [k|] eqn:Ek; [|done].
    cbn [mbind option_bind] in E. destruct (Calculations.update_calculation w k c). injection E as <- <-.
    constructor; cbn; auto with runtime. by eapply only_insert.
Qed.

Lemma exec_effect o (r : request) o' : exec o r = Some o' → effect o r o'.
Proof.
  destruct r eqn:Er; rewrite <-?Er; try (by apply counters_effect; rewrite ?Er); try (by apply meters_effect; rewrite ?Er);
    try (by apply registers_effect; rewrite ?Er); try (by apply vsets_effect; rewrite ?Er); subst r; cbn [exec effect].
  - apply exec_table_effect.
  - apply exec_profile_effect.
  - intros [x E]%fst_inv. unfold set_crc_custom_parameters in E. destruct (calculations o !! name) as [k|] eqn:Ek; [|done]. cbn [mbind option_bind] in E.
    destruct (Calculations.update_calculation w k config) as [rc k'] eqn:Eu. injection E as <- _. exists k, k'. cbn [calculations with_calculations update].
    rewrite lookup_insert_eq. unfold Calculations.update_calculation in Eu. split_and!; [done|done|..];
      (destruct (Calculations.c k) as [[| | | | | | |w' h]|] eqn:Ec; cbn [Calculations.update_config] in Eu; try destruct (Z.eqb_spec w' w) as [->|]);
      injection Eu as <- <-; cbn; done.
Qed.

(** C14: A request does what it is for and no more. One for a table is carried out
    by the operation of that table when the table is of the class that the request
    is for, with the action, or the profile, that goes with it; for a table of
    another class nothing changes. One for an array reaches exactly the elements
    that it names: a write to a register or a counter the one at the index, a write
    to a range of registers those of the range, provided the range is within the
    array, a reset all of them. The other objects, the names that exist, the types
    of the tables, learning and ageing stay as they are. *)
Theorem request_changes o (r : request) o' : exec o r = Some o' → effect o r o' ∧ changes (footprint o r) o o'.
Proof. intros E. split; [by apply exec_effect|by apply exec_changes]. Qed.

(** ** A reset *)

Lemma reset_tables_ok (ts : gmap string (MatchTableAbstract J)) : ∀ ts', reset_tables ts = Some ts' →
  dom ts' = dom ts ∧ ∀ n t, ts !! n = Some t → ∃ t', reset_table t = Some t' ∧ ts' !! n = Some t'.
Proof.
  unfold reset_tables. apply (map_fold_weak_ind (λ r ts, ∀ ts', r = Some ts' →
    dom ts' = dom ts ∧ ∀ n t, ts !! n = Some t → ∃ t', reset_table t = Some t' ∧ ts' !! n = Some t')).
  - intros ts' [= <-]. split; [done|]. intros n t E. by rewrite lookup_empty in E.
  - intros name t m r Hn IH ts' E. destruct r as [acc|]; [|done]. cbn [mbind option_bind] in E.
    destruct (reset_table t) as [t'|] eqn:Et; [|done]. injection E as <-. destruct (IH acc eq_refl) as [Hd Hl].
    split; [by rewrite !dom_insert_L, Hd|]. intros n t0. destruct (decide (n = name)) as [->|Hne].
    + rewrite !lookup_insert_eq. intros [= <-]. by exists t'.
    + rewrite !lookup_insert_ne by done. apply Hl.
Qed.

Definition num_entries_of (t : MatchTableAbstract J) : option Z := query_base (λ K V L _ _ b, Some (MatchUnit.num_entries (MatchTables.match_unit b))) t.

Lemma reset_unit_entries {K V L : Type} `{!TableKey K, !LookupStructure K L} (v : V) (m m' : MatchUnit.Mu K V L J) :
  MatchUnit.reset_state v m = Some m' → MatchUnit.num_entries m' = 0.
Proof. unfold MatchUnit.reset_state, MatchUnit.reset_state_. intros E. destruct (clear _); [|done]. by injection E as <-. Qed.

Lemma reset_table_entries (t t' : MatchTableAbstract J) : reset_table t = Some t' → num_entries_of t' = Some 0 ∧ get_table_type t' = get_table_type t.
Proof.
  destruct t as [k t|k t p|k t p]; cbn [reset_table]; intros E.
  - destruct (MatchTables.reset_state t) as [t1|] eqn:Er; [|done]. injection E as <-. split; [|done]. unfold MatchTables.reset_state in Er.
    destruct (MatchUnit.reset_state _ _) as [m|] eqn:Em; [|done]. injection Er as <-. cbn. f_equal. by eapply reset_unit_entries.
  - destruct (MatchTables.reset_state_indirect t) as [t1|] eqn:Er; [|done]. injection E as <-. split; [|done]. unfold MatchTables.reset_state_indirect in Er.
    destruct (MatchUnit.reset_state _ _) as [m|] eqn:Em; [|done]. injection Er as <-. cbn. f_equal. by eapply reset_unit_entries.
  - destruct (MatchTables.reset_state_indirect t) as [t1|] eqn:Er; [|done]. injection E as <-. split; [|done]. unfold MatchTables.reset_state_indirect in Er.
    destruct (MatchUnit.reset_state _ _) as [m|] eqn:Em; [|done]. injection Er as <-. cbn. f_equal. by eapply reset_unit_entries.
Qed.

(** After a reset every table is still there, without entries; profiles have
    neither members nor groups nor uses, counters and registers are zero, and no
    meter is configured. *)
Theorem reset_empties o o' : Runtime.reset_state o = Some o' →
  (∀ n t, match_action_tables_map o !! n = Some t → ∃ t', match_action_tables_map o' !! n = Some t' ∧ num_entries_of t' = Some 0 ∧ get_table_type t' = get_table_type t) ∧
  (∀ n a, action_profiles_map o' !! n = Some a → num_members a = 0 ∧ num_groups a = 0 ∧ action_entries a = [] ∧ index_ref_count a = {| mbr_count := []; grp_count := [] |}) ∧
  (∀ n a idx c, counter_arrays o' !! n = Some a → Counters.get_counter a idx = Some c → Counters.query_counter c = (0, 0)) ∧
  (∀ n a idx d, register_arrays o' !! n = Some a → Registers.at_ a idx = Some d → Data.value d = 0) ∧
  (∀ n a idx m, meter_arrays o' !! n = Some a → Meters.get_meter a idx = Some m → Meters.get_rates m = []).
Proof.
  unfold Runtime.reset_state. intros E. destruct (reset_tables _) as [ts|] eqn:Et; [|done]. injection E as <-. destruct (reset_tables_ok _ _ Et) as [_ Hl].
  split_and!; cbn.
  - intros n t Ht. destruct (Hl n t Ht) as (t' & Er & E). apply reset_table_entries in Er as [He Hy]. by exists t'.
  - intros n a E. rewrite lookup_fmap in E. destruct (action_profiles_map o !! n); [|done]. by injection E as <-.
  - intros n a idx c E Ec. rewrite lookup_fmap in E. destruct (counter_arrays o !! n) as [a0|]; [|done]. injection E as <-.
    unfold Counters.get_counter, Counters.reset_counters in Ec. rewrite vget_fmap in Ec. destruct (vget a0 idx); [|done]. by injection Ec as <-.
  - intros n a idx d E Ed. rewrite lookup_fmap in E. destruct (register_arrays o !! n) as [a0|]; [|done]. injection E as <-.
    unfold Registers.at_, Registers.reset_state, Registers.new in Ed. cbn in Ed. pose proof (vget_Some_range _ _ _ Ed). rewrite vget_nat in Ed by lia.
    apply lookup_replicate in Ed as [-> _]. done.
  - intros n a idx m E Em. rewrite lookup_fmap in E. destruct (meter_arrays o !! n) as [a0|]; [|done]. injection E as <-.
    unfold Meters.get_meter, Meters.reset_array in Em. rewrite vget_fmap in Em. destruct (vget a0 idx); [|done]. by injection Em as <-.
Qed.
End exec.

(** ** Runs *)
Module RuntimeExamples.
Import MatchTables ActionProfile ActionProfileSpec ActionProfileExamples TablesExamples.
Import Judy1Set RasExample GmpExample MatchUnitExamples.

Definition exact : Keys :=
  {| key := MatchKeyTypes.ExactMatchKey; structure := exact_table; key_class := ExactMatchKey_table; structure_class := _ |}.

Abbreviation objects_t := (P4Objects (gset Z) unit).

(** A table with members and one with groups, of the same profile, a table with
    actions, a counter and registers. *)
Definition objects_of (t : MatchTable MatchKeyTypes.ExactMatchKey _ (gset Z)) (ti : MatchTableIndirect MatchKeyTypes.ExactMatchKey _ (gset Z)) : objects_t :=
  {| match_action_tables_map :=
       {["forward"%string := Simple exact t; "members"%string := Indirect exact ti "ap"; "groups"%string := IndirectWS exact ti "ap"]};
     t_actions_map := {[("forward"%string, "set"%string) := set_it; ("forward"%string, "nop"%string) := nop]};
     action_profiles_map := {["ap"%string := profile1]}; aprof_actions_map := {[("ap"%string, "nop"%string) := nop]};
     meter_arrays := ∅; counter_arrays := {["c"%string := Counters.new 2]}; register_arrays := {["r"%string := Registers.new 4 8]};
     parse_vsets := ∅; calculations := ∅; learn_engine := ∅; ageing_monitor := Ageing.Build_AgeingMonitor [] [] [] 0 |}.
Definition objects : option objects_t := t ← table_of; ti ← indirect_of; Some (objects_of t ti).

(** Something is returned: only that is evaluated. *)
Definition returns {A} (r : option A) : bool := match r with Some _ => true | None => false end.
Lemma returns_Some {A} (r : option A) : returns r = true → ∃ x, r = Some x.
Proof. destruct r as [x|]; [by exists x|done]. Qed.

Lemma objects_exist : ∃ t ti, objects = Some (objects_of t ti).
Proof.
  destruct (returns_Some table_of ltac:(vm_compute; reflexivity)) as [t Et]. destruct (returns_Some indirect_of ltac:(vm_compute; reflexivity)) as [ti Ei].
  exists t, ti. unfold objects. by rewrite Et, Ei.
Qed.

Lemma unknown_table_throws_witness : ∃ o : objects_t, objects = Some o ∧ exec_table o "froward" (DeleteEntry 0) = None.
Proof.
  destruct objects_exist as (t & ti & E). exists (objects_of t ti). split; [exact E|]. apply unknown_table_throws. reflexivity.
Defined.

Definition added : request := ForTable "forward" (AddEntry [param0] "set" [datum 7] 0 100).
Definition grouped : request := ForTable "members" (WsAdd [param0] 0 0 100).
Definition filled : request := WriteRegisters "r" 1 3 260.
Lemma request_changes_witness : ∃ o o' : objects_t, objects = Some o ∧ RuntimeSpec.exec o added = Some o' ∧
  action_profiles_map o' !! "ap"%string = Some profile1 ∧ (∃ t, match_action_tables_map o' !! "forward"%string = Some t ∧ get_table_type t = SIMPLE) ∧
  (∀ o2, RuntimeSpec.exec o grouped = Some o2 → o2 = o) ∧
  ∃ o3 rs, RuntimeSpec.exec o filled = Some o3 ∧ register_arrays o3 !! "r"%string = Some rs ∧ Data.value <$> Registers.registers rs = [0; 4; 4; 0].
Proof.
  destruct objects_exist as (t & ti & E). assert (returns (o ← objects; RuntimeSpec.exec o added) = true) as Hr by (vm_compute; reflexivity).
  assert (returns (o ← objects; RuntimeSpec.exec o filled) = true) as Hf by (vm_compute; reflexivity).
  rewrite E in Hr, Hf. cbn [mbind option_bind] in Hr, Hf. apply returns_Some in Hr as [o' Eo]. apply returns_Some in Hf as [o3 Ef].
  exists (objects_of t ti), o'. split; [exact E|]. split; [exact Eo|]. destruct (request_changes _ _ _ Eo) as [(t0 & Et0 & He) Hc].
  assert (match_action_tables_map (objects_of t ti) !! "forward"%string = Some (Simple exact t)) as Ef0 by reflexivity.
  assert (match_action_tables_map (objects_of t ti) !! "members"%string = Some (Indirect exact ti "ap"%string)) as Em0 by reflexivity.
  rewrite Ef0 in Et0. injection Et0 as <-. destruct He as (fn & _ & k & t1 & t2 & x & _ & _ & Et).
  destruct (ch_profiles _ _ _ Hc) as [_ Hp]. split; [rewrite (Hp "ap"%string); [reflexivity|cbn; discriminate]|]. split; [by exists (Simple k t2)|]. split.
  - intros o2 E2. destruct (request_changes _ _ _ E2) as [(t3 & Et3 & He) _]. rewrite Em0 in Et3. injection Et3 as <-. exact He.
  - destruct (request_changes _ _ _ Ef) as [He _]. cbn in He. destruct He as (rs & Ers & He). exists o3, rs. split; [exact Ef|]. split; [exact Ers|].
    destruct He as [_ [Hlen He]]; [cbn; lia|]. cbn in Hlen, He. apply vget_ext; [rewrite length_fmap; exact Hlen|]. intros j. rewrite vget_fmap.
    destruct (decide (0 ≤ j < 4)) as [Hj|Hj].
    + destruct (He j Registers.new_register) as (d & Ed & Hd).
      { rewrite vget_nat by lia. apply (lookup_replicate_2 4). lia. }
      rewrite Ed. assert (j = 0 ∨ j = 1 ∨ j = 2 ∨ j = 3) as [->|[->|[->| ->]]] by lia; cbn in Hd; try (subst d; done); destruct Hd as [Hd _]; cbn; rewrite Hd; done.
    + assert (∀ (A : Type) (l : list A), length l = 4%nat → vget l j = None) as Hn; [|by rewrite !Hn by done].
      intros A l Hl. apply eq_None_not_Some. rewrite vget_is_Some. lia.
Defined.

Lemma reset_empties_witness : ∃ o o' : objects_t, objects = Some o ∧ Runtime.reset_state o = Some o' ∧
  ∀ a, action_profiles_map o' !! "ap"%string = Some a → num_members a = 0.
Proof.
  destruct objects_exist as (t & ti & E). assert (returns (o ← objects; Runtime.reset_state o) = true) as Hr by (vm_compute; reflexivity).
  rewrite E in Hr. cbn [mbind option_bind] in Hr. apply returns_Some in Hr as [o' Eo].
  exists (objects_of t ti), o'. split; [exact E|]. split; [exact Eo|]. destruct (reset_empties _ o' Eo) as (_ & Hp & _).
  intros a Ea. apply (Hp _ _ Ea).
Defined.

(** Asking for the entries of a table with groups as if it had members only
    fails an assertion when the entry of a group is among them, since a table
    with groups is one with members; asking for them as such does not. *)
Theorem group_entries_asserted :
  (o ← objects; '(o, rc) ← mt_indirect_ws_add_entry o "groups" [param0] 0 0 100;
   Some (rc, negb (returns (mt_indirect_get_entries o "groups" 100)), length <$> mt_indirect_ws_get_entries o "groups" 100)) = Some (Ok 0, true, Some 1%nat).
Proof. vm_compute. reflexivity. Qed.

(** The default member of a table is not forgotten when everything is reset:
    looking up a packet that no entry matches then fails an assertion. *)
Definition miss (o : objects_t) (name : string) : option bool :=
  t ← match_action_tables_map o !! name; '(existT k (t, p, _)) ← indirect t; a ← action_profiles_map o !! p;
  Some (returns (lookup_indirect (λ _, 0) t a (packet [18; 52]) [] 64 1000)).
Theorem default_outlives_reset :
  (o ← objects; '(o, rc) ← mt_indirect_set_default_member o "members" 0; before ← miss o "members";
   o ← Runtime.reset_state o; after ← miss o "members"; Some (rc, before, after)) = Some (SUCCESS, true, false).
Proof. vm_compute. reflexivity. Qed.

(** A member of the profile can be given an action through a name that does not
    exist: an exception, not an error code; so is a table. *)
Theorem unknown_action_throws :
  (o ← objects; Some (returns (mt_add_entry o "forward" [param0] "drop" [] 0 100), returns (mt_act_prof_add_member o "ap" "drop" []),
    snd <$> mt_act_prof_add_member o "pa" "nop" [])) = Some (false, false, Some (Err INVALID_ACTION_PROFILE_NAME)).
Proof. vm_compute. reflexivity. Qed.
End RuntimeExamples.
End RuntimeSpec.
